(* ===== verification/_CoqProject ===== *)
-Q . S2P
Prelude.v
OrdMap.v
Util.v
Resp.v
Glob.v
Mvcc.v
MvccFacts.v
Isolation.v
Aof.v
AofFacts.v
Engine.v
CmdString.v
CmdHashList.v
CmdSet.v
ZSet.v
CmdZSet.v
CmdStream.v
CmdGeo.v
Model.v
Dispatch.v
DispatchFacts.v
WellFormed.v
Run.v
CmdFacts.v
KeyFacts.v
CmdProps.v
Serving.v
PubSub.v
Server.v
ServerFacts.v
Json.v
JsonCodec.v
Errors.v
Schema.v
Table.v
TableIndex.v
TableBatch.v
TableReads.v
TableFacts.v
Columnar.v
SchemaMigrate.v
Presence.v
Parsing.v
FloatBits.v
SqlValue.v
SqlParser.v
SqlExec.v
SqlEval.v
SqlFacts.v
DslParser.v
DslTotal.v
DslShow.v
SubQuery.v
Subscriptions.v
SubFacts.v
Ecs.v
Aoi.v
Tenant.v
Reducer.v
ReducerFacts.v
Ttl.v
Wal.v
WalFacts.v
Recovery.v
Ring.v
Cluster.v
ClusterHttp.v
Worker.v
ClusterFacts.v
WorkerFacts.v
Replication.v
WorkerRows.v
Socket.v
Leaderboard.v
LobbyRuntime.v
PgValue.v
PgQuery.v
PgEngine.v
PgFacts.v
PgWire.v
