(* ===== verification/Prelude.v ===== *)
(** * Verification of the Voltra backend

    Voltra is a game backend: clients call reducers over websockets; a reducer reads and writes
    tables of JSON rows and commits its writes with optimistic version checks; commits are
    logged, pushed to subscribers and sent to the other nodes of a cluster. Beside it, and
    sharing nothing with it but the process, runs a multi-version store of its own with two
    front ends, a Redis-compatible and a PostgreSQL-compatible server. This development models
    all of them, from the bytes a client sends to what is left on disk, as far as the code is
    Voltra's and not a library's.

    ** How the parts interact

    The Redis side: a connection ([Server.handle_conn]) parses commands and runs each through
    [step]; a write command travels to the single sequencer thread, which runs it on a
    [Writer], applies its effects at a new timestamp, logs them and only then lets the reply
    out; a read command runs on the versions visible at the current timestamp. A collector
    prunes versions no snapshot needs and expires keys.

    The PostgreSQL side: a connection ([PgWire.handle_conn]) cuts frames out of its bytes and
    runs statements ([PgEngine.execute]) of a syntax the parser library gives. A statement asks
    the store and the catalogue for what it needs, one request at a time ([PgQuery.run]), so
    that sessions interleave between requests; it reads at the snapshot of its transaction, and
    commits through the same sequencer, which refuses what conflicts.

    The reducer side: a websocket ([Socket]) admits a client, checks and counts its calls, and
    hands them to a queue; a worker ([Worker]) runs the reducer on a context ([Reducer]) over
    the table store ([Table]), commits the staged writes as one batch, tells subscribers
    ([Subscriptions]) and peers ([Cluster]), takes a number and gives the entry to the log
    ([Wal]); a restart reads the log and the last snapshot back ([Recovery]). Tenants, row
    security and expiry stand between a reducer and its tables ([Tenant], [Schema], [Ttl]);
    SQL and schema migrations reach the tables directly ([SqlExec], [SchemaMigrate]); the game
    runtime ([Ecs], [Aoi], [LobbyRuntime]) and leaderboards keep state of their own.

    ** Files: shared

    - [Prelude]: bytes, machine integers, results, a state monad, decimal text, tactics and
      the lemmas shared by all files. [OrdMap]: ordered maps. [Parsing]: what the
      recursive-descent parsers share. [FloatBits]: the bits of a float. [Errors]
      (src/error.rs): errors of the reducer side and the monads they travel in.
    - [Json], [JsonCodec]: JSON values, the class of their encodings and an instance of it.

    ** Files: the Redis server (src/redis/, src/mvcc/)

    - [Util] (util.rs, part of resp.rs): UTF-8, case, floats and their text. [Glob] (util.rs):
      the pattern matcher and its reference relation. [Resp]: replies, encoder, parser.
    - [Mvcc] (mvcc/mod.rs): chains of versions, shared state [Inner], [Writer], commits,
      snapshots, collection. [MvccFacts]: the invariants. [Isolation]: every interleaving of
      sequencer, collector and snapshots. [Aof] (mvcc/aof.rs, the sequencer turn): framing,
      replay, SAVE, fsync policies, recovery. [AofFacts]: durability.
    - [Engine] (engine.rs): the trait [Db] as a class, commands as programs over it ([prog],
      run by [interp]). [ZSet]: the sorted-set datum. [CmdString], [CmdHashList], [CmdSet],
      [CmdZSet], [CmdStream], [CmdGeo]: every handler of the file of that name. [Dispatch]: the
      command tables and the dispatcher.
    - [Model]: the contract of [Db] ([DbSim]) on a plain map, and its two implementations.
      [DispatchFacts], [WellFormed]: policies that hold of every command. [Run], [CmdFacts],
      [KeyFacts], [CmdProps]: what single commands do. [Serving]: commands against the store.
    - [PubSub] (pubsub.rs), [Server] (redis/mod.rs): subscriptions, connections, [step], the
      read loop. [ServerFacts]: their properties.

    ** Files: the PostgreSQL server (src/pg/)

    - [PgValue] (types.rs, scalar functions of executor.rs): values, their order and texts,
      operators, LIKE with its reference relation. [PgQuery] (SELECT and expressions of
      executor.rs): runs, scans, joins, groups, order, [eval]. [PgEngine] (statements of
      executor.rs, catalog.rs): statements, transactions, the catalogue, the engine that serves
      the requests of runs, the system of connections ([pg_step]). [PgFacts]: snapshots, lost
      updates, not-null columns, small servers on which sessions are played. [PgWire] (mod.rs):
      messages, the loop and the start of a connection, their properties.

    ** Files: tables and queries

    - [Schema] (schema.rs): column types, validation, row policies. [Table] (table/mod.rs,
      eviction.rs): rows, indexes, blobs, lobby stores, the batch commit. [TableIndex],
      [TableBatch], [TableReads], [TableFacts]: indexes agree with rows, batches are atomic,
      counters add up, locks do not deadlock. [Columnar] (table/columnar.rs): column indexes.
      [SchemaMigrate] (migrations.rs): migrations of rows and their endpoint.
    - [SqlParser] (sql/lexer.rs, ast.rs, parser.rs): with its termination and a printer;
      [SqlValue], [SqlExec], [SqlEval], [SqlFacts] (sql/executor.rs).
    - [SubQuery], [Subscriptions], [SubFacts] (subscriptions.rs, compression.rs).

    ** Files: reducers, workers, the log

    - [Reducer], [ReducerFacts] (reducer/context.rs); [Tenant] (tenant.rs); [Ttl] (ttl.rs).
    - [DslParser], [DslTotal], [DslShow] (dsl/lexer.rs, ast.rs, parser.rs): the reducer
      language up to its syntax tree.
    - [Worker], [WorkerFacts], [WorkerRows] (worker_pool.rs, the worker loop of
      app/bootstrap.rs, reducer/registry.rs): the life of a call.
    - [Wal], [WalFacts], [Recovery] (wal/, start-up in server.rs and app/).
    - [Socket] (network/websocket.rs, message.rs, rate_limiter.rs, validation in auth.rs,
      permissions of config.rs, the lobby router of worker_pool.rs).

    ** Files: game runtime and cluster

    - [Ecs], [Aoi], [LobbyRuntime] (runtime/), [Leaderboard] (leaderboard.rs), [Presence]
      (presence.rs): each with its properties after its definitions.
    - [Ring] (cluster/ring.rs), [Cluster] (cluster/mod.rs, gossip.rs, fanout.rs, regions.rs,
      lobby_route.rs), [ClusterHttp] (cluster/migration.rs, proxy.rs, stat_sync.rs, the
      /cluster/ routes of admin.rs), [ClusterFacts].
    - [Replication] (replication/, its routes in admin.rs, backup.rs): replicas that poll a
      primary's log, and backups.

    ** Correspondence

    A definition has the name of the function it translates; methods carry the type as a
    prefix ([writer_get] is [Writer::get]), loops that are not structural are definitions of
    their own named after the function ([lpos_loop]). State is passed explicitly, one record
    per struct ([Inner], [World], [Conn], [Store], [Ctx], ...). Concurrency is a step
    relation over such states: what one lock or one thread makes atomic is one step, and the
    theorems quantify over every interleaving ([Isolation], [AofFacts], [TableFacts],
    [ReducerFacts], [WorkerFacts], [PgFacts]). So a snapshot is pinned in two steps, the load of
    the timestamp and its registration ([Isolation], [PgEngine]); the commit of a reducer is one
    step for each table its quota counts, each row a policy is asked about, and the batch
    ([Reducer.commit_step]; [Reducer.commit] is these steps with nobody in between); and a
    migration of rows lets the other threads of its node act before each of its accesses to the
    tables ([ClusterHttp.meanwhile]). A panic is [None] or [Abort], except that of a reducer,
    which ends the process in the release profile and has no step. Machine integers are [Z] and
    wrap where the source wraps; floats are IEEE binary64 or binary32, computed by the Standard
    Library's [SpecFloat]. Hash maps are finite maps; where an answer depends on the iteration
    order of the source, the order is an unspecified but fixed one ([map_to_list]). Clocks and
    random draws are arguments, and so are the answers of other servers.

    ** What the theorems show

    - Store: reads at a pinned snapshot never change, unless the floor of the collector rose
      before it was registered, commits are atomic and first committer
      wins, counters and the expiry index agree with the data in every reachable state
      ([Isolation]). Every command answers and stores as it would on a plain map of unexpired
      values ([Serving], [CmdProps]); EXEC is atomic and guarded by WATCH, clients without
      credentials touch nothing ([ServerFacts]).
    - PostgreSQL: a query in a transaction sees its snapshot and its own writes only, a commit
      that succeeds lost no update, as long as tables neither come nor go; not-null columns hold
      no null, from a fresh server and for columns of different names ([PgFacts]); results survive the wire, each request is answered once, and how bytes are
      cut into chunks does not matter ([PgWire]).
    - Durability: recovery rebuilds exactly the committed state, of the Redis log as long as it
      is not reopened with a torn tail and has no oversized record ([AofFacts]); of the reducers'
      log, without rotation and with fsync, a crash loses nothing that was acknowledged
      ([WalFacts], [Recovery]). A snapshot brings back every row, and a start from a snapshot
      and the log after it gives a prefix of the commits ([Recovery]); so does a backup that
      is restored, up to the time asked for, and rotation keeps the newest ([Replication]).
    - Replicas: given answers that are first parts, in order and without gaps, of what follows, a
      replica is at a prefix of its primary's commits, and it catches up ([Replication]).
    - Tables: indexes agree with rows, batches are all or nothing, batches finish, counters add
      up ([TableIndex] to [TableFacts]).
    - Reducers: a commit that succeeds has read current rows, stays in its tenant's tables and
      within the row policies as they were asked ([ReducerFacts]).
    - Workers: every call is answered once, every commit that is waited for is numbered and handed
      to the log once, calls end unless a subscriber's channel is full, and reducers that read,
      compute and write lose no update ([WorkerFacts], [WorkerRows]).
    - Network: a connection is admitted only with credentials, every accepted call is paid for
      by the rate limits and meets one fate ([Socket]).
    - Subscribers: without ticks a delta reaches exactly the subscriptions it matches, and patches
      rebuild the rows ([SubFacts]).
    - Cluster: keys belong to the nearest position, a migration accounts for the rows that nobody
      else is at, deltas do at a peer what they did here ([Ring], [ClusterFacts]).
    - Runtime: fixed steps end, the parts of a lobby agree, handles are not reused as long as only
      living entities are despawned, visibility events tell what is visible but for removals,
      ranks are exact ([LobbyRuntime], [Ecs], [Aoi], [Leaderboard]).
    - Languages: RESP, globs, SQL and the reducer language: parsers end on every input, parsing
      inverts printing; a SELECT with a WHERE answers exactly the rows that satisfy its condition
      ([Resp], [Glob], [SqlParser], [SqlFacts], [DslTotal], [DslShow]).
    - Limits found: inputs and interleavings on which the code does what it does not mean to;
      each is a theorem about the definitions as they are.

    ** Fuel and bounds

    Loops that are not structural take fuel computed from their input, enough by a theorem or
    by their own definition: [glob_match_total], [SqlParser.parse_total] and the totality
    of [DslTotal] for matcher and parsers; [SqlEval.eval_expr_eq] and [SqlEval.execute_select_eq] for the evaluators,
    whose fuel is the depth of the syntax; [LobbyRuntime.fixed_step_ends] for the scheduler;
    [like_inner_ends] for LIKE; [replay_loop], the loops on buffers and the option loops consume at least one byte or argument per turn.
    Retries of workers are bounded by the source. Versions of rows, sequence numbers of the
    log and handles are exact up to the 2^64 or 2^32 operations after which they wrap.

    ** Parameters

    What the code takes from libraries is a class; where theorems rely on it, its laws are a
    second class, and a concrete instance shows them consistent: [Codec] and [CodecLaws]
    (MessagePack and CRC-32 of the Redis log), [Serde] and [SerdeLaws] (JSON, MessagePack and
    compression of rows), [WalCodec] and [WalCodecLaws], [SnapshotCodecLaws] (snapshot files),
    [MetaCodec] (the description of a backup), [MsgCodec] and [Zstd] (frames to
    subscribers), [PeerCodec] and [PeerCodecLaws], [CallCodec] (bodies between nodes), [Wire]
    (frames of the websocket), [Kanal] and [KanalLaws] (the queues of calls), [Tokens] (token
    and key cryptography), [Toml], [Libm] (sin, cos, asin), [Lowercase], [SqlLib] and [Alphabet]
    (Unicode tables), [SqlParser] of [PgEngine] (the syntax of a text), [CatCodec] (JSON of a
    table's definition), [ShowExpr] and [Debug] (texts of syntax and values in messages). What a reducer does is a tree of calls on its context.

    ** Not modelled

    - Sockets, TLS, accept loops, thread start-up and timers: their effects are the order of the
      steps. I/O errors, except where a file says which ones it models.
    - Stack depth: recursion over syntax (SQL, expressions, JSON) does not run out of it here.
    - The V8 and WASM engines, token cryptography, the parser of the PostgreSQL front end:
      third-party code.
    - The code generator of the reducer language (dsl/codegen.rs, app/templates.rs): it prints
      Rust text, whose meaning is the Rust compiler's. Scaffolding (src/bin/, templates).
    - Persistence (persistence/, persistent/): tables of third-party embedded databases; disk
      write-through and the trigger of snapshots in the workers; O_DIRECT alignment. HTTP
      between a replica and its primary is the answers it may get; a directory is a finite
      map from names to files, whose operations do not fail.
    - The hot-simulation bridge, the admin console, configuration files, logging, metrics.
    - Clients, the guest side of reducers, benchmarks, simulators, the desktop shell. *)

From stdpp Require Export base tactics list gmap sorting strings.
From Stdlib Require Export ZArith Lia.
From Stdlib Require Import SpecFloat Ascii.

#[global] Open Scope Z_scope.

(** ** Bytes

    A [u8] is a [Z] in [0, 256); [bytes::Bytes], [Vec<u8>] and the UTF-8 contents of a
    [String] are lists of them. *)

Abbreviation Bytes := (list Z).

Definition is_u8 (b : Z) : Prop := 0 <= b < 256.

(** The bytes of an ASCII string literal of the source ([b"..."] or ["..."]). *)
Fixpoint bs (s : string) : Bytes :=
  match s with
  | EmptyString => []
  | String c s' => Z.of_N (N_of_ascii c) :: bs s'
  end.

(** [usize] lengths as [Z]. *)
Abbreviation zlen l := (Z.of_nat (length l)).

(** [slice l a b] is the Rust slice [&l[a..b]] for [a <= b <= l.len()]. *)
Definition slice {A} (a b : nat) (l : list A) : list A := take (b - a) (drop a l).

(** ** Machine integers

    Arithmetic is that of the release profile of [Cargo.toml] (no [overflow-checks]):
    [+], [-] and [*] wrap; the [checked_] and [saturating_] methods do what they say. *)

Definition U64 : Z := 2 ^ 64.
Definition U64_MAX : Z := 2 ^ 64 - 1.
Definition I64_MIN : Z := - 2 ^ 63.
Definition I64_MAX : Z := 2 ^ 63 - 1.

Definition wrap_u64 (z : Z) : Z := z mod 2 ^ 64.
Definition wrap_u32 (z : Z) : Z := z mod 2 ^ 32.
Definition wrap_i64 (z : Z) : Z := (z + 2 ^ 63) mod 2 ^ 64 - 2 ^ 63.
Definition wrap_i32 (z : Z) : Z := (z + 2 ^ 31) mod 2 ^ 32 - 2 ^ 31.

Definition is_u64 (z : Z) : Prop := 0 <= z < 2 ^ 64.
Definition is_i64 (z : Z) : Prop := I64_MIN <= z <= I64_MAX.

Definition in_i64 (z : Z) : bool := (I64_MIN <=? z) && (z <=? I64_MAX).

Definition checked_add_i64 (a b : Z) : option Z :=
  if in_i64 (a + b) then Some (a + b) else None.

Definition saturating_mul_i64 (a b : Z) : Z := Z.max I64_MIN (Z.min I64_MAX (a * b)).
Definition saturating_mul_u64 (a b : Z) : Z := Z.min U64_MAX (a * b).
Definition saturating_sub_u64 (a b : Z) : Z := Z.max 0 (a - b).
(** [u64::saturating_add_signed] *)
Definition saturating_add_signed (a b : Z) : Z := Z.max 0 (Z.min U64_MAX (a + b)).

(** ** Errors: [Result<T, E>] *)

Inductive result (E A : Type) : Type :=
| Ok (a : A)
| Err (e : E).
Arguments Ok {E A} a.
Arguments Err {E A} e.

#[export] Instance result_ret {E} : MRet (result E) := fun _ a => Ok a.
#[export] Instance result_bind {E} : MBind (result E) :=
  fun _ _ f m => match m with Ok a => f a | Err e => Err e end.
#[export] Instance result_fmap {E} : FMap (result E) :=
  fun _ _ f m => match m with Ok a => Ok (f a) | Err e => Err e end.

(** [opt.ok_or(e)] *)
Definition ok_or {E A} (o : option A) (e : E) : result E A :=
  match o with Some a => Ok a | None => Err e end.

(** ** A state monad for code that takes [&mut self] *)

Definition st (S A : Type) : Type := S -> A * S.

#[export] Instance st_mret {S} : MRet (st S) := fun _ a s => (a, s).
#[export] Instance st_mbind {S} : MBind (st S) :=
  fun _ _ f m s => let '(a, s') := m s in f a s'.

Fixpoint st_mapM {S A B} (f : A -> st S B) (l : list A) : st S (list B) :=
  match l with
  | [] => mret []
  | a :: l' => b ← f a; r ← st_mapM f l'; mret (b :: r)
  end.

Fixpoint st_iter {S A} (f : A -> st S unit) (l : list A) : st S unit :=
  match l with
  | [] => mret tt
  | a :: l' => _ ← f a; st_iter f l'
  end.

(** ** Decimal integers: [to_string] and [str::parse] *)

Definition is_digit (c : Z) : bool := (48 <=? c) && (c <=? 57).

Fixpoint dec_aux (fuel : nat) (n : Z) (acc : Bytes) : Bytes :=
  match fuel with
  | O => acc
  | S f =>
      let acc' := (48 + n mod 10) :: acc in
      if n <? 10 then acc' else dec_aux f (n / 10) acc'
  end.

(** [n.to_string()] for an unsigned integer; [log2 n + 1] bounds the digits. *)
Definition dec_u (n : Z) : Bytes := dec_aux (S (Z.to_nat (Z.log2 n))) n [].

(** [z.to_string()] for a signed integer. *)
Definition dec (z : Z) : Bytes := if z <? 0 then 45 :: dec_u (- z) else dec_u z.

Fixpoint digits_val (acc : Z) (l : Bytes) : option Z :=
  match l with
  | [] => Some acc
  | c :: l' => if is_digit c then digits_val (acc * 10 + (c - 48)) l' else None
  end.

Definition digits (l : Bytes) : option Z :=
  match l with [] => None | _ => digits_val 0 l end.

(** [s.parse::<T>()] for an integer type with range [lo, hi]: an optional sign ([-] only
    for signed types), at least one digit, and the value in range. *)
Definition parse_int (lo hi : Z) (b : Bytes) : option Z :=
  v ← match b with
      | [] => None
      | c :: r =>
          if c =? 43 then digits r
          else if (c =? 45) && (lo <? 0) then Z.opp <$> digits r
          else digits b
      end;
  if (lo <=? v) && (v <=? hi) then Some v else None.

Definition parse_i64_str (b : Bytes) : option Z := parse_int I64_MIN I64_MAX b.
Definition parse_u64_str (b : Bytes) : option Z := parse_int 0 U64_MAX b.

(** [to_ascii_uppercase] / [to_lowercase] on ASCII letters. *)
Definition upper_byte (c : Z) : Z := if (97 <=? c) && (c <=? 122) then c - 32 else c.
Definition lower_byte (c : Z) : Z := if (65 <=? c) && (c <=? 90) then c + 32 else c.

(** Byte-string equality as a boolean. *)
Definition beq (a b : Bytes) : bool := bool_decide (a = b).

(** ** The order of byte strings: [Ord for Bytes], [String], [str] *)

(** Lexicographic. *)
Fixpoint bytes_leb (a b : Bytes) : bool :=
  match a, b with
  | [], _ => true
  | _ :: _, [] => false
  | x :: a', y :: b' => if x =? y then bytes_leb a' b' else x <? y
  end.
Definition bytes_le (a b : Bytes) : Prop := bytes_leb a b = true.
#[export] Instance bytes_le_dec : RelDecision bytes_le.
Proof. intros a b. unfold bytes_le. apply _. Defined.

(** [keys.sort()] *)
Definition sort_keys (l : list Bytes) : list Bytes := merge_sort bytes_le l.

(** Strict order on byte strings. *)
Definition bytes_ltb (a b : Bytes) : bool := bytes_leb a b && negb (beq a b).

(** ** Floats: [f64] as IEEE binary64 of the Standard Library's [SpecFloat] *)

Abbreviation f64 := spec_float.

#[export] Instance f64_eq_dec : EqDecision f64.
Proof. solve_decision. Defined.

(** ** Tactics *)

(** Destruct the scrutinee of the first [match]/[if] of the goal. *)
Ltac split_match := case_match; simplify_eq/=.

(** Turn boolean integer comparisons into propositions. *)
Ltac zbool :=
  repeat match goal with
  | H : (_ && _)%bool = true |- _ => apply andb_true_iff in H as [? ?]
  | H : (_ =? _)%Z = true |- _ => apply Z.eqb_eq in H
  | H : (_ =? _)%Z = false |- _ => apply Z.eqb_neq in H
  | H : (_ <? _)%Z = true |- _ => apply Z.ltb_lt in H
  | H : (_ <? _)%Z = false |- _ => apply Z.ltb_ge in H
  | H : (_ <=? _)%Z = true |- _ => apply Z.leb_le in H
  | H : (_ <=? _)%Z = false |- _ => apply Z.leb_gt in H
  | H : bool_decide _ = true |- _ => apply bool_decide_eq_true in H
  | H : bool_decide _ = false |- _ => apply bool_decide_eq_false in H
  end.

Create HintDb voltra.
Create Rewrite HintDb lens.
Create Rewrite HintDb assoc.
#[export] Hint Rewrite @length_app @length_map @length_take @length_drop : lens.
#[export] Hint Rewrite <- @app_assoc : assoc.

(** Prove an equation between two concatenations up to associativity. *)
Ltac app_norm := repeat (progress (cbn [app]; autorewrite with assoc)); done.

(** ** Shared lemmas *)

Lemma zle_true a b : a <= b -> (a <=? b) = true.
Proof. apply Z.leb_le. Qed.
Lemma zle_false a b : b < a -> (a <=? b) = false.
Proof. apply Z.leb_gt. Qed.
Lemma zlt_true a b : a < b -> (a <? b) = true.
Proof. apply Z.ltb_lt. Qed.
Lemma zlt_false a b : b <= a -> (a <? b) = false.
Proof. apply Z.ltb_ge. Qed.
Lemma zeq_true a b : a = b -> (a =? b) = true.
Proof. apply Z.eqb_eq. Qed.
Lemma zeq_false a b : a <> b -> (a =? b) = false.
Proof. apply Z.eqb_neq. Qed.

Lemma beq_true a b : beq a b = true <-> a = b.
Proof. apply bool_decide_eq_true. Qed.

Lemma beq_refl a : beq a a = true.
Proof. by apply beq_true. Qed.

Section Decimal.
Lemma is_digit_dec n : 0 <= n -> is_digit (48 + n mod 10) = true.
Proof.
  intros Hn. unfold is_digit. pose proof (Z.mod_pos_bound n 10).
  rewrite !zle_true by lia. done.
Qed.

Lemma dec_aux_digits fuel n acc :
  0 <= n -> Forall (fun c => is_digit c = true) acc ->
  Forall (fun c => is_digit c = true) (dec_aux fuel n acc).
Proof.
  revert n acc. induction fuel as [|f IH]; intros n acc Hn Hacc; simpl; [done|].
  destruct (n <? 10).
  - constructor; [by apply is_digit_dec|done].
  - apply IH; [apply Z.div_pos; lia|].
    constructor; [by apply is_digit_dec|done].
Qed.

Lemma dec_aux_val fuel n acc :
  0 <= n < 2 ^ Z.of_nat fuel ->
  exists k, forall a, digits_val a (dec_aux fuel n acc) = digits_val (a * 10 ^ k + n) acc
                 /\ 0 <= k.
Proof.
  revert n acc. induction fuel as [|f IH]; intros n acc Hn.
  - exists 0. intros a. simpl in Hn. replace n with 0 by lia. simpl.
    split; [|lia]. f_equal. lia.
  - cbn [dec_aux]. destruct (n <? 10) eqn:Hlt; zbool.
    + exists 1. intros a. split; [|lia]. cbn [digits_val].
      rewrite is_digit_dec by lia. rewrite Z.mod_small by lia. f_equal. lia.
    + destruct (IH (n / 10) ((48 + n mod 10) :: acc)) as [k Hk].
      { split; [apply Z.div_pos; lia|]. apply Z.div_lt_upper_bound; [lia|].
        rewrite Nat2Z.inj_succ, Z.pow_succ_r in Hn by lia. lia. }
      exists (k + 1). intros a. destruct (Hk a) as [-> Hk0]. split; [|lia].
      cbn [digits_val]. rewrite is_digit_dec by lia. f_equal.
      rewrite Z.pow_add_r, Z.pow_1_r by lia. pose proof (Z.div_mod n 10 ltac:(lia)) as Hd.
      rewrite Hd at 3. ring.
Qed.

Lemma dec_u_digits n : 0 <= n -> Forall (fun c => is_digit c = true) (dec_u n).
Proof. intros. by apply dec_aux_digits. Qed.

Lemma dec_aux_ne fuel n acc : (0 < fuel)%nat -> dec_aux fuel n acc <> [].
Proof.
  assert (Hacc : forall f m (a : Bytes), a <> [] -> dec_aux f m a <> []).
  { induction f as [|f IH]; intros m a Ha; cbn [dec_aux]; [done|].
    destruct (m <? 10); [done|by apply IH]. }
  destruct fuel; [lia|]. intros _. cbn [dec_aux].
  destruct (n <? 10); [done|by apply Hacc].
Qed.

Lemma dec_u_ne n : dec_u n <> [].
Proof. apply dec_aux_ne. lia. Qed.

Lemma digits_dec_u n : 0 <= n -> digits (dec_u n) = Some n.
Proof.
  intros Hn. unfold digits. destruct (dec_u n) eqn:E; [by apply dec_u_ne in E|].
  rewrite <- E. unfold dec_u.
  destruct (dec_aux_val (S (Z.to_nat (Z.log2 n))) n []) as [k Hk].
  - split; [done|]. rewrite Nat2Z.inj_succ, Z2Nat.id by apply Z.log2_nonneg.
    destruct (decide (n = 0)) as [->|]; [done|]. apply Z.log2_spec. lia.
  - destruct (Hk 0) as [-> _]. done.
Qed.

Lemma dec_u_head n c r : 0 <= n -> dec_u n = c :: r -> is_digit c = true.
Proof.
  intros Hn E. pose proof (dec_u_digits n Hn) as H. rewrite E in H.
  by apply Forall_cons in H as [? _].
Qed.

(** Printing then parsing an integer gives it back. *)
Lemma parse_int_dec lo hi z :
  lo <= z <= hi -> parse_int lo hi (dec z) = Some z.
Proof.
  intros Hz. unfold parse_int, dec. destruct (z <? 0) eqn:Hneg; zbool.
  - change (45 =? 43) with false. change (45 =? 45) with true.
    rewrite (zlt_true lo 0) by lia. cbn [andb].
    rewrite digits_dec_u by lia. cbn. rewrite !zle_true by lia. cbn.
    f_equal. lia.
  - destruct (dec_u z) as [|c r] eqn:E; [by apply dec_u_ne in E|].
    pose proof (dec_u_head z c r Hneg E) as Hc. unfold is_digit in Hc. zbool.
    rewrite (zeq_false c 43), (zeq_false c 45) by lia. cbn [andb].
    rewrite <- E, digits_dec_u by lia. cbn. rewrite !zle_true by lia. done.
Qed.
End Decimal.

(** *** Lists *)

Lemma slice_app_r {A} (l1 l2 : list A) a b :
  slice (length l1 + a) (length l1 + b) (l1 ++ l2) = slice a b l2.
Proof.
  unfold slice. rewrite drop_app_ge by lia.
  replace (length l1 + a - length l1)%nat with a by lia.
  replace (length l1 + b - (length l1 + a))%nat with (b - a)%nat by lia. done.
Qed.

Lemma slice_0_app {A} (l1 l2 : list A) : slice 0 (length l1) (l1 ++ l2) = l1.
Proof. unfold slice. rewrite drop_0, Nat.sub_0_r. apply take_app_length. Qed.

(** Normalise lengths of concatenations for [lia]. *)
Ltac len_norm := repeat (progress (autorewrite with lens; cbn [length])).

(** *** The order of byte strings is total *)

Section BytesOrder.
Implicit Types (a b c : Bytes).

Lemma bytes_leb_refl a : bytes_leb a a = true.
Proof. induction a as [|u a IH]; [done|]. cbn. by rewrite Z.eqb_refl. Qed.

Lemma bytes_leb_antisym a b : bytes_leb a b = true -> bytes_leb b a = true -> a = b.
Proof.
  revert b. induction a as [|u a IH]; intros [|v b]; cbn; try done.
  rewrite (Z.eqb_sym v u). destruct (u =? v) eqn:E; zbool.
  - intros. subst. f_equal. by apply IH.
  - intros. zbool. lia.
Qed.

Lemma bytes_leb_trans a b c : bytes_leb a b = true -> bytes_leb b c = true -> bytes_leb a c = true.
Proof.
  revert b c. induction a as [|u a IH]; intros [|v b] [|w c]; cbn; try done.
  destruct (u =? v) eqn:E1, (v =? w) eqn:E2; zbool; intros; subst.
  - rewrite Z.eqb_refl. by eapply IH.
  - by rewrite (zeq_false v w).
  - by rewrite (zeq_false u w).
  - zbool. rewrite zeq_false, zlt_true; done || lia.
Qed.

Lemma bytes_leb_total a b : bytes_leb a b = true \/ bytes_leb b a = true.
Proof.
  revert b. induction a as [|u a IH]; intros [|v b]; cbn; [by left..|by right|].
  rewrite (Z.eqb_sym v u). destruct (u =? v) eqn:E; zbool; [apply IH|].
  destruct (Z.lt_total u v) as [H|[H|H]]; [left|done|right]; by apply zlt_true.
Qed.

#[export] Instance bytes_le_total : Total bytes_le.
Proof. intros a b. apply bytes_leb_total. Qed.
#[export] Instance bytes_le_trans : Transitive bytes_le.
Proof. intros a b c. apply bytes_leb_trans. Qed.
#[export] Instance bytes_le_antisym : AntiSymm (=) bytes_le.
Proof. intros a b. apply bytes_leb_antisym. Qed.
#[export] Instance bytes_le_refl : Reflexive bytes_le.
Proof. intros a. apply bytes_leb_refl. Qed.

Lemma bytes_ltb_irrefl a : bytes_ltb a a = false.
Proof. unfold bytes_ltb. by rewrite beq_refl, andb_false_r. Qed.

Lemma bytes_ltb_trans a b c : bytes_ltb a b = true -> bytes_ltb b c = true -> bytes_ltb a c = true.
Proof.
  unfold bytes_ltb. rewrite !andb_true_iff, !negb_true_iff. intros [H1 H2] [H3 H4].
  split; [by eapply bytes_leb_trans|]. unfold beq in *. zbool. apply bool_decide_eq_false.
  intros ->. apply H2. by apply bytes_leb_antisym.
Qed.

Lemma bytes_ltb_tie a b : bytes_ltb a b = false -> bytes_ltb b a = false -> a = b.
Proof.
  unfold bytes_ltb. intros H1 H2. destruct (decide (a = b)) as [|Hne]; [done|exfalso].
  assert (Ha : beq a b = false) by (by apply bool_decide_eq_false).
  assert (Hb : beq b a = false) by (apply bool_decide_eq_false; congruence).
  rewrite Ha, andb_true_r in H1. rewrite Hb, andb_true_r in H2.
  destruct (bytes_leb_total a b); congruence.
Qed.
End BytesOrder.
