(* ===== verification/OrdMap.v ===== *)
(** * Ordered maps

    [BTreeMap] as the sorted list of its bindings, over any strictly ordered key type: what
    the source uses of it (insert, remove, get, the bindings in order, how many keys are
    below a key, the first binding from a key on) and the laws its clients rest on. *)

From S2P Require Import Prelude.

(** A strict total order, decided. *)
Class OrdKey (K : Type) := {
  kltb : K -> K -> bool;
  kltb_irrefl : forall x, kltb x x = false;
  kltb_trans : forall x y z, kltb x y = true -> kltb y z = true -> kltb x z = true;
  kltb_tie : forall x y, kltb x y = false -> kltb y x = false -> x = y }.

#[export] Instance ord_Z : OrdKey Z.
Proof. refine {| kltb := Z.ltb |}; intros; zbool; try apply Z.ltb_lt; lia || apply Z.ltb_irrefl. Defined.

Section OrdMap.
Context {K : Type} `{OrdKey K} {V : Type}.
Implicit Types (k : K) (v : V) (l : list (K * V)).

Fixpoint om_insert k v l : list (K * V) :=
  match l with
  | [] => [(k, v)]
  | (k', v') :: l' =>
      if kltb k k' then (k, v) :: l
      else if kltb k' k then (k', v') :: om_insert k v l'
      else (k, v) :: l'
  end.

Fixpoint om_remove k l : list (K * V) :=
  match l with
  | [] => []
  | (k', v') :: l' => if kltb k k' || kltb k' k then (k', v') :: om_remove k l' else l'
  end.

Fixpoint om_get k l : option V :=
  match l with
  | [] => None
  | (k', v') :: l' => if kltb k k' || kltb k' k then om_get k l' else Some v'
  end.

(** [range(..k).count()] *)
Definition om_below k l : list (K * V) := List.filter (fun kv => kltb kv.1 k) l.

(** [range(k..).next()] *)
Definition om_first_from k l : option (K * V) := List.find (fun kv => negb (kltb kv.1 k)) l.

(** ** Order *)

Definition om_lt (x y : K * V) : Prop := kltb x.1 y.1 = true.
Definition om_sorted l : Prop := StronglySorted om_lt l.

Lemma om_same k k' : kltb k k' || kltb k' k = false <-> k = k'.
Proof.
  split; [|intros ->; by rewrite kltb_irrefl].
  destruct (kltb k k') eqn:E1; [done|]. cbn. intros E2. by apply kltb_tie.
Qed.

Definition om_key_dec : EqDecision K.
Proof.
  intros k k'. destruct (kltb k k' || kltb k' k) eqn:E; [right|left]; [|by apply om_same].
  intros ->. by rewrite kltb_irrefl in E.
Defined.

Lemma om_lt_ne x y : om_lt x y -> x.1 <> y.1.
Proof. unfold om_lt. intros Hl E. rewrite E in Hl. by rewrite kltb_irrefl in Hl. Qed.

Lemma om_insert_elem k v l x : om_sorted l ->
  x ∈ om_insert k v l <-> x = (k, v) \/ (x ∈ l /\ x.1 <> k).
Proof.
  induction 1 as [|[k' v'] l Hs IH Hf]; cbn.
  { rewrite list_elem_of_singleton. split; [auto|]. intros [?|[Hx _]]; [done|by apply elem_of_nil in Hx]. }
  assert (Hlt : forall y, y ∈ l -> kltb k' y.1 = true).
  { intros y Hy. rewrite Forall_forall in Hf. by apply Hf. }
  destruct (kltb k k') eqn:E1; [|destruct (kltb k' k) eqn:E2].
  - rewrite elem_of_cons. split; [|tauto]. intros [Hx|Hx]; [by left|]. right. split; [done|].
    apply elem_of_cons in Hx as [->|Hx]; intros E; cbn in *; subst.
    + by rewrite kltb_irrefl in E1.
    + apply Hlt in Hx. assert (kltb x.1 x.1 = true) as Hc by (by eapply kltb_trans). by rewrite kltb_irrefl in Hc.
  - rewrite elem_of_cons, IH, elem_of_cons. split; [|tauto].
    intros [->|[?|[? ?]]]; [|tauto|tauto]. right. split; [by left|]. cbn. intros ->. by rewrite kltb_irrefl in E2.
  - pose proof (kltb_tie _ _ E1 E2) as <-. rewrite !elem_of_cons. split.
    + intros [?|Hx]; [by left|]. right. split; [by right|]. intros E. apply Hlt in Hx. by rewrite E, kltb_irrefl in Hx.
    + intros [?|[[->|Hx] Hne]]; [by left|done|by right].
Qed.

Lemma om_insert_sorted k v l : om_sorted l -> om_sorted (om_insert k v l).
Proof.
  induction 1 as [|[k' v'] l Hs IH Hf]; cbn; [repeat constructor|].
  destruct (kltb k k') eqn:E1; [|destruct (kltb k' k) eqn:E2].
  - constructor; [by constructor|]. constructor; [done|]. eapply Forall_impl; [exact Hf|].
    intros y. by apply kltb_trans.
  - constructor; [done|]. apply Forall_forall. intros y Hy. apply om_insert_elem in Hy as [->|[Hy _]]; [exact E2| |done].
    rewrite Forall_forall in Hf. by apply Hf.
  - pose proof (kltb_tie _ _ E1 E2) as <-. by constructor.
Qed.

Lemma om_remove_elem k l x : om_sorted l -> x ∈ om_remove k l <-> x ∈ l /\ x.1 <> k.
Proof.
  induction 1 as [|[k' v'] l Hs IH Hf]; cbn; [rewrite !elem_of_nil; tauto|].
  rewrite elem_of_cons. destruct (_ || _) eqn:E.
  - rewrite elem_of_cons, IH. split; [|tauto]. intros [->|?]; [|tauto]. split; [by left|]. cbn.
    intros ->. by rewrite kltb_irrefl in E.
  - apply om_same in E as <-. split.
    + intros Hx. split; [by right|]. rewrite Forall_forall in Hf. apply Hf, om_lt_ne in Hx. cbn in Hx. congruence.
    + by intros [[->|?] ?].
Qed.

Lemma om_remove_sorted k l : om_sorted l -> om_sorted (om_remove k l).
Proof.
  induction 1 as [|[k' v'] l Hs IH Hf]; cbn; [constructor|]. destruct (_ || _); [|done].
  constructor; [done|]. apply Forall_forall. intros y Hy. apply om_remove_elem in Hy as [Hy _]; [|done].
  rewrite Forall_forall in Hf. by apply Hf.
Qed.

Lemma om_get_elem k v l : om_sorted l -> om_get k l = Some v <-> (k, v) ∈ l.
Proof.
  induction 1 as [|[k' v'] l Hs IH Hf]; cbn; [by rewrite elem_of_nil|]. rewrite elem_of_cons.
  destruct (_ || _) eqn:E.
  - rewrite IH. split; [auto|]. intros [[= -> ->]|?]; [|done]. by rewrite kltb_irrefl in E.
  - apply om_same in E as <-. split; [intros [= ->]; by left|]. intros [[= ->]|Hx]; [done|].
    rewrite Forall_forall in Hf. apply Hf, om_lt_ne in Hx. done.
Qed.

(** A key has one value. *)
Lemma om_functional k v v' l : om_sorted l -> (k, v) ∈ l -> (k, v') ∈ l -> v = v'.
Proof. intros Hs Hv Hv'. apply om_get_elem in Hv, Hv'; [congruence|done..]. Qed.

Lemma om_sorted_NoDup l : om_sorted l -> NoDup (map fst l).
Proof.
  induction 1 as [|[k v] l Hs IH Hf]; cbn; constructor; [|done].
  intros (y & E & Hy)%list_elem_of_fmap. rewrite Forall_forall in Hf. apply Hf, om_lt_ne in Hy. by cbn in Hy.
Qed.

Lemma om_insert_length k v l : om_sorted l -> om_get k l = None -> length (om_insert k v l) = S (length l).
Proof.
  induction 1 as [|[k' v'] l Hs IH Hf]; cbn; [done|]. destruct (kltb k k') eqn:E1; [done|].
  cbn. destruct (kltb k' k) eqn:E2; [|done]. cbn. intros Hn. by rewrite IH.
Qed.

Lemma om_remove_length k v l : om_sorted l -> om_get k l = Some v -> length l = S (length (om_remove k l)).
Proof.
  induction 1 as [|[k' v'] l Hs IH Hf]; cbn; [done|]. destruct (_ || _); [|done]. cbn. intros Hg. by rewrite IH.
Qed.

(** ** Ranks *)

Lemma om_below_cons_lt k k' v' l : kltb k' k = true -> om_below k ((k', v') :: l) = (k', v') :: om_below k l.
Proof. intros E. unfold om_below. cbn. by rewrite E. Qed.

Lemma om_below_none k l : Forall (fun kv => kltb kv.1 k = false) l -> om_below k l = [].
Proof. induction 1 as [|[k' v'] l E _ IH]; [done|]. unfold om_below in *. cbn in *. by rewrite E. Qed.

(** A binding stands at the index of the number of keys below it. *)
Lemma om_lookup_below k v l : om_sorted l -> (k, v) ∈ l -> l !! length (om_below k l) = Some (k, v).
Proof.
  induction 1 as [|[k' v'] l Hs IH Hf]; [by intros ?%elem_of_nil|].
  intros [[= <- <-]|Hx]%elem_of_cons.
  - rewrite (om_below_none k); [done|]. constructor; [apply kltb_irrefl|]. eapply Forall_impl; [exact Hf|].
    intros y Hy. destruct (kltb y.1 k) eqn:E; [|done]. cbn in Hy.
    assert (kltb k k = true) as Hc by (by eapply kltb_trans). by rewrite kltb_irrefl in Hc.
  - rewrite Forall_forall in Hf. pose proof (Hf _ Hx) as E. cbn in E. rewrite om_below_cons_lt by done.
    by apply IH.
Qed.

Lemma om_below_elem k l x : x ∈ om_below k l <-> x ∈ l /\ kltb x.1 k = true.
Proof. unfold om_below. by rewrite list_elem_of_In, filter_In, <- list_elem_of_In. Qed.

(** The first binding from a key on is the least of them. *)
Lemma om_first_from_some k l x : om_sorted l -> om_first_from k l = Some x ->
  x ∈ l /\ kltb x.1 k = false /\ forall y, y ∈ l -> kltb y.1 k = false -> y = x \/ om_lt x y.
Proof.
  unfold om_first_from. induction 1 as [|[k' v'] l Hs IH Hf]; cbn; [done|].
  destruct (kltb k' k) eqn:E; cbn.
  - intros (Hx & Hk & Hmin)%IH. split; [by right|]. split; [done|].
    intros y [->|Hy]%elem_of_cons Hyk; [by cbn in Hyk; rewrite E in Hyk|auto].
  - intros [= <-]. split; [by left|]. split; [done|]. intros y [->|Hy]%elem_of_cons _; [by left|right].
    rewrite Forall_forall in Hf. by apply Hf.
Qed.

Lemma om_first_from_none k l y : om_first_from k l = None -> y ∈ l -> kltb y.1 k = true.
Proof.
  unfold om_first_from. intros Hn Hy%list_elem_of_In. apply (find_none _ _ Hn) in Hy.
  by apply negb_false_iff in Hy.
Qed.
End OrdMap.
