(* ===== verification/Util.v ===== *)
(** * Text helpers of the Redis layer (src/redis/util.rs, src/redis/resp.rs)

    UTF-8 with replacement, case folding, and the conversions between floats and their
    decimal text. Floats are binary64 values of the Standard Library's [SpecFloat]; parsing
    rounds the exact decimal value once, to nearest even, and printing searches the shortest
    digits that parse back, as the language's library specifies. *)

From S2P Require Import Prelude.
From Stdlib Require Import SpecFloat.

(** ** UTF-8 with replacement characters: [String::from_utf8_lossy] *)

Definition between (lo hi b : Z) : bool := (lo <=? b) && (b <=? hi).
Definition is_cont (b : Z) : bool := between 128 191 b.

(** The second byte a three- or four-byte sequence may have after its first. *)
Definition second_ok (b0 b1 : Z) : bool :=
  if b0 =? 224 then between 160 191 b1
  else if b0 =? 237 then between 128 159 b1
  else if b0 =? 240 then between 144 191 b1
  else if b0 =? 244 then between 128 143 b1
  else is_cont b1.

(** Length of the leading sequence and whether it is valid; bytes past the end read 0. *)
Definition utf8_step (l : Bytes) : nat * bool :=
  let b i := default 0 (l !! i) in
  let b0 := b 0%nat in
  if b0 <? 128 then (1%nat, true)
  else if between 194 223 b0 then
    if is_cont (b 1%nat) then (2%nat, true) else (1%nat, false)
  else if between 224 239 b0 then
    if negb (second_ok b0 (b 1%nat)) then (1%nat, false)
    else if is_cont (b 2%nat) then (3%nat, true) else (2%nat, false)
  else if between 240 244 b0 then
    if negb (second_ok b0 (b 1%nat)) then (1%nat, false)
    else if negb (is_cont (b 2%nat)) then (2%nat, false)
    else if is_cont (b 3%nat) then (4%nat, true) else (3%nat, false)
  else (1%nat, false).

Definition REPLACEMENT : Bytes := [239; 191; 189].

Fixpoint lossy_loop (fuel : nat) (l : Bytes) : Bytes :=
  match fuel, l with
  | S f, _ :: _ =>
      let '(n, valid) := utf8_step l in
      (if valid then take n l else REPLACEMENT) ++ lossy_loop f (drop n l)
  | _, _ => []
  end.

(** Every step takes at least one byte. *)
Definition lossy (b : Bytes) : Bytes := lossy_loop (length b) b.

Fixpoint utf8_valid_loop (fuel : nat) (l : Bytes) : bool :=
  match fuel, l with
  | S f, _ :: _ => let '(n, valid) := utf8_step l in valid && utf8_valid_loop f (drop n l)
  | _, _ => true
  end.

(** [str::chars]: a character is a leading byte and its continuation bytes. *)
Fixpoint chars (s : Bytes) : list Bytes :=
  match s with
  | [] => []
  | b :: s' =>
      match chars s' with
      | (c :: w) :: cs => if is_cont c then (b :: c :: w) :: cs else [b] :: (c :: w) :: cs
      | cs => [b] :: cs
      end
  end.

(** [std::str::from_utf8(b).ok()] *)
Definition from_utf8 (b : Bytes) : option Bytes :=
  if utf8_valid_loop (length b) b then Some b else None.

Definition to_ascii_uppercase (s : Bytes) : Bytes := map upper_byte s.
Definition to_ascii_lowercase (s : Bytes) : Bytes := map lower_byte s.

Definition upper (b : Bytes) : Bytes := to_ascii_uppercase (lossy b).

Definition parse_i64 (b : Bytes) : option Z := s ← from_utf8 b; parse_i64_str s.

(** ** White space: [str::trim] *)

(** The encodings of the characters with the White_Space property. *)
Definition white_space : list Bytes :=
  [[9]; [10]; [11]; [12]; [13]; [32]; [194; 133]; [194; 160]; [225; 154; 128];
   [226; 128; 128]; [226; 128; 129]; [226; 128; 130]; [226; 128; 131]; [226; 128; 132];
   [226; 128; 133]; [226; 128; 134]; [226; 128; 135]; [226; 128; 136]; [226; 128; 137];
   [226; 128; 138]; [226; 128; 168]; [226; 128; 169]; [226; 128; 175]; [226; 129; 159];
   [227; 128; 128]].

Fixpoint strip_any (ps : list Bytes) (l : Bytes) : option Bytes :=
  match ps with
  | [] => None
  | p :: ps' => if beq (take (length p) l) p then Some (drop (length p) l) else strip_any ps' l
  end.

Fixpoint trim_loop (ps : list Bytes) (fuel : nat) (l : Bytes) : Bytes :=
  match fuel with
  | O => l
  | S f => match strip_any ps l with Some l' => trim_loop ps f l' | None => l end
  end.

Definition trim (s : Bytes) : Bytes :=
  let t := trim_loop white_space (length s) s in
  rev (trim_loop (map (@rev Z) white_space) (length t) (rev t)).

(** ** Splitting *)

(** [s.split_once(c)] *)
Fixpoint split_once (c : Z) (l : Bytes) : option (Bytes * Bytes) :=
  match l with
  | [] => None
  | x :: l' =>
      if x =? c then Some ([], l')
      else '(a, b) ← split_once c l'; Some (x :: a, b)
  end.

(** [str::split] at a byte. *)
Fixpoint split_byte (sep : Z) (s : Bytes) : list Bytes :=
  match s with
  | [] => [[]]
  | b :: s' =>
      if b =? sep then [] :: split_byte sep s'
      else match split_byte sep s' with p :: ps => (b :: p) :: ps | [] => [[b]] end
  end.

(** ** Prefixes and suffixes *)

(** [str::strip_prefix], [str::strip_suffix] *)
Fixpoint strip_prefix (p s : Bytes) : option Bytes :=
  match p, s with
  | [], _ => Some s
  | a :: p', b :: s' => if a =? b then strip_prefix p' s' else None
  | _ :: _, [] => None
  end.

Definition strip_suffix (p s : Bytes) : option Bytes := option_map (@rev Z) (strip_prefix (rev p) (rev s)).

Lemma strip_prefix_app p s : strip_prefix p (p ++ s) = Some s.
Proof. induction p as [|c p IH]; [done|]. cbn. by rewrite Z.eqb_refl. Qed.

Lemma strip_suffix_app p s : strip_suffix p (s ++ p) = Some s.
Proof. unfold strip_suffix. rewrite rev_app_distr, strip_prefix_app. cbn. by rewrite rev_involutive. Qed.

Lemma strip_prefix_spec p : forall s r, strip_prefix p s = Some r -> s = p ++ r.
Proof.
  induction p as [|c p IH]; intros s r; cbn; [by intros [= ->]|]. destruct s as [|d s]; [done|].
  destruct (c =? d) eqn:E; [|done]. zbool. subst. intros ->%IH. done.
Qed.

(** [str::to_lowercase], which also maps letters beyond ASCII. *)
Class Lowercase := { to_lowercase : Bytes -> Bytes }.

(** ** Floats *)

Definition prec : Z := 53.
Definition emax : Z := 1024.

Definition f64_zero : f64 := S754_zero false.
Definition f64_one : f64 := S754_finite false 4503599627370496 (-52).
Definition f64_add : f64 -> f64 -> f64 := SFadd prec emax.
Definition f64_mul : f64 -> f64 -> f64 := SFmul prec emax.
Definition f64_sub : f64 -> f64 -> f64 := SFsub prec emax.
Definition f64_div : f64 -> f64 -> f64 := SFdiv prec emax.
Definition f64_sqrt : f64 -> f64 := SFsqrt prec emax.
Definition f64_ltb : f64 -> f64 -> bool := SFltb.
Definition f64_leb : f64 -> f64 -> bool := SFleb.
Definition f64_eqb : f64 -> f64 -> bool := SFeqb.
Definition is_nan (f : f64) : bool := match f with S754_nan => true | _ => false end.
Definition is_infinite (f : f64) : bool := match f with S754_infinity _ => true | _ => false end.

(** [f64::min], [f64::max] *)
Definition f64_min (a b : f64) : f64 :=
  if is_nan a then b else if is_nan b then a else if f64_ltb b a then b else a.
Definition f64_max (a b : f64) : f64 :=
  if is_nan a then b else if is_nan b then a else if f64_ltb a b then b else a.

(** The float nearest to [m * 10 ^ e], ties to even, negated when [neg]. *)
Definition f64_of_dec (neg : bool) (m e : Z) : f64 :=
  if m =? 0 then S754_zero neg
  else if 0 <=? e then
    binary_normalize prec emax (if neg then - (m * 10 ^ e) else m * 10 ^ e) 0 neg
  else let '(q, e', l) := SFdiv_core_binary prec emax m 0 (10 ^ (- e)) 0 in
       binary_round_aux prec emax neg q e' l.

Fixpoint span_digits (l : Bytes) : Bytes * Bytes :=
  match l with
  | c :: l' => if is_digit c then let '(d, r) := span_digits l' in (c :: d, r) else ([], l)
  | [] => ([], [])
  end.

Definition dec_val (l : Bytes) : Z := foldl (fun a c => a * 10 + (c - 48)) 0 l.

(** A leading sign. *)
Definition split_sign (l : Bytes) : bool * Bytes :=
  match l with
  | c :: r => if c =? 45 then (true, r) else if c =? 43 then (false, r) else (false, l)
  | [] => (false, [])
  end.

(** [e] or [E] with an optional sign and at least one digit, or nothing at all. *)
Definition parse_exponent (l : Bytes) : option Z :=
  match l with
  | [] => Some 0
  | c :: r =>
      if (c =? 101) || (c =? 69) then
        let '(neg, r') := split_sign r in
        let '(d, rest) := span_digits r' in
        match d, rest with
        | _ :: _, [] => Some (if neg then - dec_val d else dec_val d)
        | _, _ => None
        end
      else None
  end.

(** [s.parse::<f64>()] *)
Definition parse_float (s : Bytes) : option f64 :=
  let '(neg, r) := split_sign s in
  let low := to_ascii_lowercase r in
  if beq low (bs "inf") || beq low (bs "infinity") then Some (S754_infinity neg)
  else if beq low (bs "nan") then Some S754_nan
  else
    let '(ip, r1) := span_digits r in
    let '(fp, r2) := match r1 with
                     | c :: r1' => if c =? 46 then span_digits r1' else ([], r1)
                     | [] => ([], [])
                     end in
    match ip ++ fp with
    | [] => None
    | ds => e ← parse_exponent r2; Some (f64_of_dec neg (dec_val ds) (e - zlen fp))
    end.

Definition parse_f64 (b : Bytes) : option f64 :=
  s0 ← from_utf8 b;
  let s := trim s0 in
  let low := to_ascii_lowercase s in
  if beq low (bs "inf") || beq low (bs "+inf") || beq low (bs "infinity")
     || beq low (bs "+infinity") then Some (S754_infinity false)
  else if beq low (bs "-inf") || beq low (bs "-infinity") then Some (S754_infinity true)
  else f ← parse_float s; if is_nan f then None else Some f.

(** *** Printing *)

(** A finite positive float as the fraction [num / den]. *)
Definition as_fraction (m : positive) (e : Z) : Z * Z :=
  if 0 <=? e then (Zpos m * 2 ^ e, 1) else (Zpos m, 2 ^ (- e)).

(** [num / (den * 10 ^ k)] as a fraction of integers. *)
Definition scale10 (num den k : Z) : Z * Z :=
  if 0 <=? k then (num, den * 10 ^ k) else (num * 10 ^ (- k), den).

(** The least [k] near the estimate from the binary logarithm with [num / den < 10 ^ k]. *)
Definition dec_exponent (num den : Z) : Z :=
  let k0 := (Z.log2 num - Z.log2 den) * 30103 / 100000 in
  let below k := let '(n, d) := scale10 num den k in n <? d in
  if below (k0 - 1) then k0 - 1 else if below k0 then k0
  else if below (k0 + 1) then k0 + 1 else k0 + 2.

(** The candidate with [n] digits: the one of the two neighbours that parses back, the
    closer one when both do. *)
Definition digits_at (f : f64) (num den k n : Z) : option Z :=
  let '(a, b) := scale10 num den (k - n) in
  let d := a / b in
  let back x := bool_decide (f64_of_dec false x (k - n) = f) in
  match back d, back (d + 1) with
  | true, true => Some (if 2 * (a - d * b) <=? b then d else d + 1)
  | true, false => Some d
  | false, true => Some (d + 1)
  | false, false => None
  end.

Fixpoint shortest_from (fuel : nat) (f : f64) (num den k n : Z) : Z * Z :=
  match fuel with
  | O => (num / den, 0)
  | S fl => match digits_at f num den k n with
            | Some d => (d, k - n)
            | None => shortest_from fl f num den k (n + 1)
            end
  end.

(** Shortest digits and exponent; 17 digits always suffice for binary64. *)
Definition shortest (m : positive) (e : Z) : Z * Z :=
  let '(num, den) := as_fraction m e in
  shortest_from 17 (S754_finite false m e) num den (dec_exponent num den) 1.

(** [d * 10 ^ e] in positional notation. *)
Definition positional (d e : Z) : Bytes :=
  let ds := dec_u d in
  if 0 <=? e then ds ++ repeat 48 (Z.to_nat e)
  else
    let n := Z.to_nat (- e) in
    let ds' := repeat 48 (S n - length ds) ++ ds in
    let p := (length ds' - n)%nat in
    take p ds' ++ [46] ++ drop p ds'.

(** [a / b] rounded to an integer, ties to even. *)
Definition round_half_even (a b : Z) : Z :=
  let q := a / b in
  match 2 * (a mod b) ?= b with
  | Lt => q
  | Gt => q + 1
  | Eq => if Z.even q then q else q + 1
  end.

(** [format!("{f:.n}")] for [n > 0]. *)
Definition fmt_fixed (n : Z) (f : f64) : Bytes :=
  match f with
  | S754_nan => bs "NaN"
  | S754_infinity s => if s then bs "-inf" else bs "inf"
  | S754_zero s => (if s then [45] else []) ++ positional 0 (- n)
  | S754_finite s m e =>
      let '(num, den) := as_fraction m e in
      (if s then [45] else []) ++ positional (round_half_even (num * 10 ^ n) den) (- n)
  end.

(** [f as u32] and [f as u64]: truncate, saturate, NaN is zero. *)
Definition f64_to_uint (max : Z) (f : f64) : Z :=
  match f with
  | S754_finite false m e => let '(num, den) := as_fraction m e in Z.min max (num / den)
  | S754_infinity false => max
  | _ => 0
  end.

(** [z as f64] for an unsigned integer. *)
Definition f64_of_uint (z : Z) : f64 := f64_of_dec false z 0.

(** [format!("{f}")] for a finite float. *)
Definition display_f64 (f : f64) : Bytes :=
  match f with
  | S754_finite s m e =>
      let '(d, x) := shortest m e in (if s then [45] else []) ++ positional d x
  | S754_zero s => if s then bs "-0" else bs "0"
  | S754_infinity s => if s then bs "-inf" else bs "inf"
  | S754_nan => bs "NaN"
  end.

(** The value of an integral float below 10^17, for which [f as i64] is exact. *)
Definition small_int (f : f64) : option Z :=
  match f with
  | S754_zero _ => Some 0
  | S754_finite s m e =>
      let '(num, den) := as_fraction m e in
      if (num mod den =? 0) && (num / den <? 10 ^ 17)
      then Some (if s then - (num / den) else num / den) else None
  | _ => None
  end.

Definition fmt_f64 (f : f64) : Bytes :=
  match f with
  | S754_nan => bs "nan"
  | S754_infinity s => if s then bs "-inf" else bs "inf"
  | _ => match small_int f with Some i => dec i | None => display_f64 f end
  end.

(** ** Checks against the library's behaviour *)

Example parse_half : parse_f64 (bs " 3.50 ") = Some (f64_of_dec false 35 (-1)).
Proof. by vm_compute. Qed.
Example fmt_tenth : fmt_f64 (f64_of_dec false 1 (-1)) = bs "0.1".
Proof. by vm_compute. Qed.
Example fmt_sum :
  fmt_f64 (f64_add (f64_of_dec false 1 (-1)) (f64_of_dec false 2 (-1))) = bs "0.30000000000000004".
Proof. by vm_compute. Qed.
Example fmt_big : fmt_f64 (f64_of_dec true 12 20) = bs "-1200000000000000000000".
Proof. by vm_compute. Qed.
Example fmt_int : option_map fmt_f64 (parse_f64 (bs "1e3")) = Some (bs "1000").
Proof. by vm_compute. Qed.
Example lossy_bad : lossy [97; 226; 130; 98; 255] = [97] ++ REPLACEMENT ++ [98] ++ REPLACEMENT.
Proof. by vm_compute. Qed.

(** ** Lemmas *)

(** ASCII text is unchanged by decoding. *)
Definition is_ascii (b : Bytes) : Prop := Forall (fun c => 0 <= c < 128) b.

Lemma lossy_ascii b : is_ascii b -> lossy b = b.
Proof.
  unfold lossy. induction 1 as [|c b Hc _ IH]; [done|].
  cbn [length lossy_loop]. unfold utf8_step. cbn -[Z.ltb Z.leb].
  rewrite zlt_true by lia. cbn. by rewrite take_0, drop_0, IH.
Qed.

Lemma from_utf8_ascii b : is_ascii b -> from_utf8 b = Some b.
Proof.
  intros H. unfold from_utf8. enough (utf8_valid_loop (length b) b = true) as -> by done.
  induction H as [|c b Hc _ IH]; [done|].
  cbn [length utf8_valid_loop]. unfold utf8_step. cbn -[Z.ltb Z.leb].
  rewrite zlt_true by lia. cbn. by rewrite drop_0.
Qed.

Lemma dec_ascii z : is_ascii (dec z).
Proof.
  assert (H : forall n, 0 <= n -> is_ascii (dec_u n)).
  { intros n Hn. eapply Forall_impl; [by apply dec_u_digits|]. cbn. unfold is_digit. intros c Hc.
    zbool. lia. }
  unfold dec. destruct (z <? 0) eqn:E; zbool; [|by apply H].
  constructor; [lia|]. apply H. lia.
Qed.

(** An [i64] printed and read back. *)
Lemma parse_i64_dec z : is_i64 z -> parse_i64 (dec z) = Some z.
Proof.
  intros Hz. unfold parse_i64. rewrite from_utf8_ascii by apply dec_ascii. cbn.
  by apply parse_int_dec.
Qed.
