(* ===== verification/Resp.v ===== *)
(** * RESP: the Redis serialization protocol (src/redis/resp.rs)

    [Resp] is the reply type, [encode] the RESP2/RESP3 encoder, [parse_command] the
    command parser a connection runs on its input buffer. The parser keeps the positions
    of the source: every index it computes is an index into the whole buffer. Messages of
    [Err] and of [Error] replies are the UTF-8 bytes of the source's strings. *)

From S2P Require Import Prelude Util.

(** ** Reply values *)

Inductive Resp : Type :=
| Simple (s : Bytes)
| Error (s : Bytes)
| Int (i : Z)
| Bulk (b : Bytes)
| Null
| NullArray
| Array (items : list Resp)
| Double (f : f64)
| RBool (b : bool)
| BigNum (s : Bytes)
| Verbatim (fmt body : Bytes)
| RMap (pairs : list (Resp * Resp))
| SetReply (items : list Resp)
| Push (items : list Resp).

Definition ok : Resp := Simple (bs "OK").
Definition bulk_str (s : Bytes) : Resp := Bulk s.
Definition err (msg : Bytes) : Resp := Error msg.
Definition wrong_type : Resp :=
  Error (bs "WRONGTYPE Operation against a key holding the wrong kind of value").
Definition not_int : Resp := Error (bs "ERR value is not an integer or out of range").
Definition not_float : Resp := Error (bs "ERR value is not a valid float").
Definition syntax : Resp := Error (bs "ERR syntax error").
(** [cmd.to_lowercase()]: the callers pass ASCII command names. *)
Definition arity (cmd : Bytes) : Resp :=
  Error (bs "ERR wrong number of arguments for '" ++ map lower_byte cmd ++ bs "' command").

(** ** Encoder

    Floats are printed by [fmt_f64] of [Util]. *)

Definition CRLF : Bytes := [13; 10].

Definition line (tag : Z) (body : Bytes) : Bytes := tag :: body ++ CRLF.

Fixpoint encode (v : Resp) (proto : Z) : Bytes :=
  match v with
  | Simple s => line 43 s
  | Error s => line 45 s
  | Int i => line 58 (dec i)
  | Bulk b => line 36 (dec (zlen b)) ++ b ++ CRLF
  | Null => if 3 <=? proto then bs "_" ++ CRLF else bs "$-1" ++ CRLF
  | NullArray => if 3 <=? proto then bs "_" ++ CRLF else bs "*-1" ++ CRLF
  | Array items =>
      line 42 (dec (zlen items)) ++ concat (map (fun it => encode it proto) items)
  | Double f =>
      if 3 <=? proto then line 44 (fmt_f64 f)
      else let s := fmt_f64 f in line 36 (dec (zlen s)) ++ s ++ CRLF
  | RBool b =>
      if 3 <=? proto then (if b then bs "#t" ++ CRLF else bs "#f" ++ CRLF)
      else line 58 (dec (if b then 1 else 0))
  | BigNum s =>
      if 3 <=? proto then line 40 s else line 36 (dec (zlen s)) ++ s ++ CRLF
  | Verbatim fmt body =>
      if 3 <=? proto then line 61 (dec (zlen body + 4)) ++ fmt ++ [58] ++ body ++ CRLF
      else line 36 (dec (zlen body)) ++ body ++ CRLF
  | RMap pairs =>
      (if 3 <=? proto then line 37 (dec (zlen pairs))
       else line 42 (dec (zlen pairs * 2)))
      ++ concat (map (fun kv => encode (fst kv) proto ++ encode (snd kv) proto) pairs)
  | SetReply items =>
      (if 3 <=? proto then line 126 (dec (zlen items)) else line 42 (dec (zlen items)))
      ++ concat (map (fun it => encode it proto) items)
  | Push items =>
      (if 3 <=? proto then line 62 (dec (zlen items)) else line 42 (dec (zlen items)))
      ++ concat (map (fun it => encode it proto) items)
  end.

(** ** Command parser *)

(** The [while i + 1 < buf.len()] scan, on the suffix of the buffer that starts at [i]. *)
Fixpoint find_crlf_from (l : Bytes) (i : nat) : option nat :=
  match l with
  | c1 :: ((c2 :: _) as t) =>
      if (c1 =? 13) && (c2 =? 10) then Some i else find_crlf_from t (S i)
  | _ => None
  end.

Definition find_crlf (buf : Bytes) (from : nat) : option nat :=
  find_crlf_from (drop from buf) from.

(** [b as char] printed as UTF-8. *)
Definition char_utf8 (b : Z) : Bytes :=
  if b <? 128 then [b] else [192 + b / 64; 128 + b mod 64].

Abbreviation ParseResult := (result Bytes (option (list Bytes * nat))).

Definition bulk_max : Z := 512 * 1024 * 1024.

(** The [for _ in 0..count] loop over the bulk strings of an array command. *)
Fixpoint parse_bulks (buf : Bytes) (count : nat) (pos : nat) (args : list Bytes)
  : ParseResult :=
  match count with
  | O => Ok (Some (args, pos))
  | S count' =>
      match buf !! pos with
      | None => Ok None
      | Some c =>
          if negb (c =? 36) then
            Err (bs "Protocol error: expected '$', got '" ++ char_utf8 c ++ bs "'")
          else
            match find_crlf buf (pos + 1) with
            | None => Ok None
            | Some lend =>
                match parse_i64_str (slice (pos + 1) lend buf) with
                | None => Err (bs "Protocol error: invalid bulk length")
                | Some len =>
                    if negb ((0 <=? len) && (len <=? bulk_max)) then
                      Err (bs "Protocol error: invalid bulk length")
                    else
                      let dstart := (lend + 2)%nat in
                      let dend := (dstart + Z.to_nat len)%nat in
                      if (length buf <? dend + 2)%nat then Ok None
                      else if negb (beq (slice dend (dend + 2) buf) CRLF) then
                        Err (bs "Protocol error: bulk string missing CRLF")
                      else
                        parse_bulks buf count' (dend + 2)
                          (args ++ [slice dstart dend buf])
                end
            end
      end
  end.

Definition parse_array_command (buf : Bytes) : ParseResult :=
  match find_crlf buf 1 with
  | None => Ok None
  | Some line_end =>
      match parse_i64_str (slice 1 line_end buf) with
      | None => Err (bs "Protocol error: invalid multibulk length")
      | Some count =>
          if count <? 0 then Ok (Some ([], (line_end + 2)%nat))
          else if 1024 * 1024 <? count then
            Err (bs "Protocol error: invalid multibulk length")
          else parse_bulks buf (Z.to_nat count) (line_end + 2) []
      end
  end.

(** The [while i < line.len()] loop of [split_inline]: [cur] is the word being read,
    [args] the words finished, [in_quote] whether a double quote is open. *)
Fixpoint split_inline_from (l : Bytes) (args : list Bytes) (cur : Bytes) (in_quote : bool)
  : result Bytes (list Bytes) :=
  match l with
  | [] =>
      if in_quote then Err (bs "Protocol error: unbalanced quotes in request")
      else if bool_decide (cur = []) then Ok args else Ok (args ++ [cur])
  | c :: t =>
      if in_quote then
        match t with
        | d :: t' =>
            if c =? 92 then split_inline_from t' args (cur ++ [d]) true
            else if c =? 34 then split_inline_from t args cur false
            else split_inline_from t args (cur ++ [c]) true
        | [] =>
            if c =? 34 then split_inline_from t args cur false
            else split_inline_from t args (cur ++ [c]) true
        end
      else if c =? 34 then split_inline_from t args cur true
      else if (c =? 32) || (c =? 9) then
        if bool_decide (cur = []) then split_inline_from t args [] false
        else split_inline_from t (args ++ [cur]) [] false
      else split_inline_from t args (cur ++ [c]) false
  end.

Definition split_inline (ln : Bytes) : result Bytes (list Bytes) :=
  split_inline_from ln [] [] false.

(** [buf.iter().position(|&b| b == b'\n')] *)
Fixpoint position (c : Z) (l : Bytes) (i : nat) : option nat :=
  match l with
  | [] => None
  | x :: l' => if x =? c then Some i else position c l' (S i)
  end.

(** [line.strip_suffix(b"\r").unwrap_or(line)] *)
Definition strip_cr (l : Bytes) : Bytes :=
  match last l with
  | Some 13 => take (length l - 1) l
  | _ => l
  end.

Definition parse_inline_command (buf : Bytes) : ParseResult :=
  match find_crlf buf 0 with
  | None =>
      match position 10 buf 0 with
      | Some nl =>
          args ← split_inline (strip_cr (take nl buf)); Ok (Some (args, (nl + 1)%nat))
      | None => Ok None
      end
  | Some line_end =>
      args ← split_inline (take line_end buf); Ok (Some (args, (line_end + 2)%nat))
  end.

Definition parse_command (buf : Bytes) : ParseResult :=
  match buf with
  | [] => Ok None
  | c :: _ => if c =? 42 then parse_array_command buf else parse_inline_command buf
  end.

(** Examples of the unit tests of resp.rs. *)
Example parses_array_command :
  parse_command (bs "*1" ++ CRLF ++ bs "$4" ++ CRLF ++ bs "PING" ++ CRLF)
  = Ok (Some ([bs "PING"], 14%nat)).
Proof. reflexivity. Qed.

Example parses_inline_command :
  parse_command (bs "SET k " ++ [34] ++ bs "a b" ++ [34] ++ CRLF)
  = Ok (Some ([bs "SET"; bs "k"; bs "a b"], 13%nat)).
Proof. reflexivity. Qed.

(** ** Correctness of the command parser *)

(** The wire form of one bulk string. *)
Definition enc_bulk (b : Bytes) : Bytes := line 36 (dec (zlen b)) ++ b ++ CRLF.
(** The wire form of a command, as a client sends it. *)
Definition enc_command (args : list Bytes) : Bytes :=
  line 42 (dec (zlen args)) ++ concat (map enc_bulk args).

(** The arguments the protocol limits admit. *)
Definition sendable (args : list Bytes) : Prop :=
  zlen args <= 1024 * 1024 /\ Forall (fun b => zlen b <= bulk_max) args.

Section ParserFacts.
Implicit Types (buf pre rest ds b : Bytes) (args acc : list Bytes) (i n pos : nat).

Lemma enc_command_encode args proto :
  encode (Array (map Bulk args)) proto = enc_command args.
Proof.
  cbn [encode]. rewrite length_map, map_map. done.
Qed.

Lemma dec_no_cr z : 0 <= z -> Forall (fun c => c <> 13) (dec z).
Proof.
  intros Hz. unfold dec. rewrite zlt_false by lia.
  eapply Forall_impl; [by apply dec_u_digits|].
  intros c Hc. unfold is_digit in Hc. zbool. lia.
Qed.

Lemma find_crlf_from_app ds rest i :
  Forall (fun c => c <> 13) ds ->
  find_crlf_from (ds ++ CRLF ++ rest) i = Some (i + length ds)%nat.
Proof.
  revert i. induction ds as [|c ds IH]; intros i Hds.
  - simpl. f_equal. lia.
  - apply Forall_cons in Hds as [Hc Hds]. specialize (IH (S i) Hds).
    destruct ds as [|d ds']; cbn -[CRLF] in *; rewrite (zeq_false c 13) by done; cbn -[CRLF].
    + simpl. f_equal. lia.
    + rewrite IH. f_equal. lia.
Qed.

Lemma find_crlf_app pre ds rest :
  Forall (fun c => c <> 13) ds ->
  find_crlf (pre ++ ds ++ CRLF ++ rest) (length pre) = Some (length pre + length ds)%nat.
Proof.
  intros Hds. unfold find_crlf. rewrite drop_app_length. by apply find_crlf_from_app.
Qed.

(** A line cut before its CRLF is complete has no CRLF. *)
Lemma find_crlf_from_cut ds n i :
  Forall (fun c => c <> 13) ds -> (n < length ds + 2)%nat ->
  find_crlf_from (take n (ds ++ CRLF)) i = None.
Proof.
  revert n i. induction ds as [|c ds IH]; intros n i Hds Hn.
  - destruct n as [|[|n]]; [done..|simpl in Hn; lia].
  - apply Forall_cons in Hds as [Hc Hds]. destruct n as [|n]; [done|].
    cbn [take app find_crlf_from]. simpl in Hn.
    specialize (IH n (S i) Hds ltac:(lia)).
    destruct (take n (ds ++ CRLF)) as [|d l]; [done|].
    rewrite (zeq_false c 13) by done. exact IH.
Qed.

Lemma slice_mid pre b rest :
  slice (length pre) (length pre + length b) (pre ++ b ++ rest) = b.
Proof.
  rewrite <- (Nat.add_0_r (length pre)) at 1. rewrite slice_app_r. apply slice_0_app.
Qed.

Lemma lookup_mid pre c rest : (pre ++ c :: rest) !! length pre = Some c.
Proof. by apply list_lookup_middle. Qed.

Lemma parse_len_dec b : zlen b <= bulk_max -> parse_i64_str (dec (zlen b)) = Some (zlen b).
Proof.
  intros Hb. apply parse_int_dec. unfold bulk_max, I64_MIN, I64_MAX in *. lia.
Qed.

(** One bulk string at position [length pre]. *)
Lemma parse_bulks_step pre b rest count acc :
  zlen b <= bulk_max ->
  parse_bulks (pre ++ enc_bulk b ++ rest) (S count) (length pre) acc
  = parse_bulks (pre ++ enc_bulk b ++ rest) count (length (pre ++ enc_bulk b)) (acc ++ [b]).
Proof.
  intros Hb. set (buf := pre ++ enc_bulk b ++ rest).
  set (ds := dec (zlen b)).
  assert (Hd : Forall (fun c => c <> 13) ds) by (apply dec_no_cr; lia).
  assert (E1 : buf = (pre ++ [36%Z]) ++ ds ++ CRLF ++ (b ++ CRLF ++ rest)).
  { unfold buf, enc_bulk, line. app_norm. }
  assert (E2 : buf = (pre ++ [36%Z] ++ ds ++ CRLF) ++ b ++ (CRLF ++ rest)).
  { rewrite E1. app_norm. }
  assert (E3 : buf = (pre ++ [36%Z] ++ ds ++ CRLF ++ b) ++ CRLF ++ rest).
  { rewrite E2. app_norm. }
  cbn [parse_bulks].
  replace (buf !! length pre) with (Some 36) by (symmetry; apply lookup_mid).
  cbn [negb Z.eqb Pos.eqb].
  replace (length pre + 1)%nat with (length (pre ++ [36%Z])) by (rewrite length_app; done).
  rewrite E1 at 1. rewrite find_crlf_app by done.
  replace (slice _ _ buf) with ds by (rewrite E1; symmetry; apply slice_mid).
  unfold ds at 1. rewrite parse_len_dec by done.
  rewrite (zle_true 0), (zle_true _ bulk_max) by lia. cbn [andb negb].
  rewrite Nat2Z.id.
  replace (length (pre ++ [36%Z]) + length ds + 2)%nat
    with (length (pre ++ [36%Z] ++ ds ++ CRLF)) by (rewrite !length_app; simpl; lia).
  replace (length (pre ++ [36%Z] ++ ds ++ CRLF) + length b)%nat
    with (length (pre ++ [36%Z] ++ ds ++ CRLF ++ b)) by (rewrite !length_app; simpl; lia).
  replace (length buf <? _)%nat with false.
  2: { symmetry. apply Nat.ltb_ge. rewrite E3. rewrite !length_app. simpl. lia. }
  replace (slice (length (pre ++ [36%Z] ++ ds ++ CRLF ++ b)) _ buf) with CRLF.
  2: { rewrite E3. symmetry. apply (slice_mid _ CRLF). }
  rewrite beq_refl. cbn [negb]. f_equal.
  - unfold enc_bulk, line. rewrite !length_app. simpl. rewrite !length_app. simpl. fold ds. lia.
  - do 2 f_equal. rewrite E2.
    replace (length (pre ++ [36%Z] ++ ds ++ CRLF ++ b))
      with (length (pre ++ [36%Z] ++ ds ++ CRLF) + length b)%nat
      by (rewrite !length_app; simpl; lia).
    apply slice_mid.
Qed.

Lemma parse_bulks_enc args : forall pre rest acc,
  Forall (fun b => zlen b <= bulk_max) args ->
  parse_bulks (pre ++ concat (map enc_bulk args) ++ rest) (length args) (length pre) acc
  = Ok (Some (acc ++ args, length (pre ++ concat (map enc_bulk args)))).
Proof.
  induction args as [|b args IH]; intros pre rest acc Hargs.
  - simpl. by rewrite !app_nil_r.
  - apply Forall_cons in Hargs as [Hb Hargs]. cbn [map concat length].
    rewrite <- app_assoc, parse_bulks_step by done.
    rewrite (app_assoc pre). rewrite IH by done.
    by rewrite <- !app_assoc.
Qed.

(** The header line of an array command. *)
Lemma parse_header args rest :
  zlen args <= 1024 * 1024 ->
  parse_command (line 42 (dec (zlen args)) ++ rest)
  = parse_bulks (line 42 (dec (zlen args)) ++ rest) (length args)
      (length (line 42 (dec (zlen args)))) [].
Proof.
  intros Ha. set (ds := dec (zlen args)).
  assert (Hd : Forall (fun c => c <> 13) ds) by (apply dec_no_cr; lia).
  set (buf := line 42 ds ++ rest).
  assert (E : buf = [42] ++ ds ++ CRLF ++ rest).
  { unfold buf, line. app_norm. }
  assert (parse_command buf = parse_array_command buf) as -> by done.
  unfold parse_array_command.
  replace (find_crlf buf 1) with (Some (1 + length ds)%nat).
  2: { rewrite E. symmetry. by apply (find_crlf_app [42]). }
  replace (slice 1 (1 + length ds) buf) with ds.
  2: { rewrite E. symmetry. apply (slice_mid [42]). }
  unfold ds at 1. unfold parse_i64_str. rewrite parse_int_dec.
  2: { unfold I64_MIN, I64_MAX. lia. }
  rewrite zlt_false, zlt_false by lia. rewrite Nat2Z.id. f_equal.
  unfold line. simpl. rewrite length_app. simpl. lia.
Qed.

Lemma parse_enc_command args rest :
  sendable args ->
  parse_command (enc_command args ++ rest)
  = Ok (Some (args, length (enc_command args))).
Proof.
  intros [Ha Hb]. unfold enc_command. rewrite <- app_assoc, parse_header by done.
  rewrite parse_bulks_enc by done. done.
Qed.

(** A bulk string cut anywhere before its final CRLF is incomplete. *)
Lemma parse_bulks_cut1 pre b n count acc :
  zlen b <= bulk_max -> (n < length (enc_bulk b))%nat ->
  parse_bulks (pre ++ take n (enc_bulk b)) (S count) (length pre) acc = Ok None.
Proof.
  intros Hb Hn. set (ds := dec (zlen b)).
  assert (Hd : Forall (fun c => c <> 13) ds) by (apply dec_no_cr; lia).
  destruct n as [|n].
  { cbn [take parse_bulks]. rewrite app_nil_r, lookup_ge_None_2 by lia. done. }
  assert (E : enc_bulk b = 36 :: (ds ++ CRLF) ++ b ++ CRLF).
  { unfold enc_bulk, line. app_norm. }
  rewrite E in *. cbn [take length] in *.
  set (buf := pre ++ 36 :: take n ((ds ++ CRLF) ++ b ++ CRLF)).
  cbn [parse_bulks].
  replace (buf !! length pre) with (Some 36) by (symmetry; apply lookup_mid).
  cbn [negb Z.eqb Pos.eqb].
  assert (Ebuf : buf = (pre ++ [36]) ++ take n ((ds ++ CRLF) ++ b ++ CRLF)).
  { unfold buf. app_norm. }
  replace (length pre + 1)%nat with (length (pre ++ [36%Z])) by (len_norm; lia).
  destruct (decide (n < length ds + 2)%nat) as [Hcut|Hcut].
  - unfold find_crlf. rewrite Ebuf, drop_app_length.
    rewrite take_app_le by (len_norm; simpl; lia).
    by rewrite find_crlf_from_cut.
  - rewrite take_app_ge in Ebuf by (len_norm; simpl; lia).
    set (tl := take _ (b ++ CRLF)) in Ebuf.
    rewrite <- !app_assoc in Ebuf.
    assert (Ef : find_crlf buf (length (pre ++ [36])) = Some (length (pre ++ [36%Z]) + length ds)%nat).
    { rewrite Ebuf, (app_assoc pre). by apply find_crlf_app. }
    rewrite Ef.
    replace (slice _ _ buf) with ds.
    2: { rewrite Ebuf, (app_assoc pre). symmetry. apply slice_mid. }
    unfold ds at 1. rewrite parse_len_dec by done.
    rewrite (zle_true 0), (zle_true _ bulk_max) by lia. cbn [andb negb].
    replace (length buf <? _)%nat with true; [done|].
    symmetry. apply Nat.ltb_lt. rewrite Nat2Z.id. rewrite Ebuf. unfold tl. len_norm.
    rewrite length_app in Hn. rewrite !length_app in Hn. simpl in *. lia.
Qed.

Lemma parse_bulks_cut args : forall pre n acc,
  Forall (fun b => zlen b <= bulk_max) args ->
  (n < length (concat (map enc_bulk args)))%nat ->
  parse_bulks (pre ++ take n (concat (map enc_bulk args))) (length args) (length pre) acc
  = Ok None.
Proof.
  induction args as [|b args IH]; intros pre n acc Hargs Hn; [simpl in Hn; lia|].
  apply Forall_cons in Hargs as [Hb Hargs]. cbn [map concat length] in *.
  destruct (decide (n < length (enc_bulk b))%nat) as [Hcut|Hge].
  - rewrite take_app_le by lia. by apply parse_bulks_cut1.
  - rewrite take_app_ge by lia. rewrite parse_bulks_step by done.
    rewrite (app_assoc pre). apply IH; [done|]. rewrite length_app in Hn. lia.
Qed.

Lemma parse_command_cut args n :
  sendable args -> (n < length (enc_command args))%nat ->
  parse_command (take n (enc_command args)) = Ok None.
Proof.
  intros [Ha Hb] Hn. unfold enc_command in *.
  set (ds := dec (zlen args)) in *.
  destruct (decide (n < length (line 42 ds))%nat) as [Hcut|Hge].
  - rewrite take_app_le by lia. unfold line in *. destruct n as [|n]; [done|].
    cbn [take length] in *.
    assert (find_crlf (42 :: take n (ds ++ CRLF)) 1 = None) as Hf.
    { unfold find_crlf. cbn [drop]. apply find_crlf_from_cut.
      - apply dec_no_cr. lia.
      - rewrite length_app in Hcut. simpl in Hcut. lia. }
    unfold parse_command. cbn [Z.eqb Pos.eqb]. unfold parse_array_command. by rewrite Hf.
  - rewrite take_app_ge by lia. unfold ds in *. rewrite parse_header by done.
    apply parse_bulks_cut; [done|]. rewrite length_app in Hn. lia.
Qed.

(** *** Positions *)

Lemma find_crlf_from_bound (l : Bytes) i j :
  find_crlf_from l i = Some j -> (i <= j /\ j + 2 <= i + length l)%nat.
Proof.
  revert i. induction l as [|c l IH]; intros i H; [done|].
  cbn [find_crlf_from] in H. destruct l as [|d l]; [done|].
  destruct ((c =? 13) && (d =? 10)).
  - simplify_eq. simpl. lia.
  - apply IH in H. simpl in *. lia.
Qed.

Lemma find_crlf_bound buf i j :
  find_crlf buf i = Some j -> (i <= j /\ j + 2 <= length buf)%nat.
Proof.
  unfold find_crlf. intros H. apply find_crlf_from_bound in H as H'.
  rewrite length_drop in H'.
  destruct (decide (i <= length buf)%nat); [lia|].
  rewrite drop_ge in H by lia. done.
Qed.

(** What the loop over the bulk strings returns. *)
Lemma parse_bulks_bound buf count : forall pos acc args n,
  (pos <= length buf)%nat ->
  parse_bulks buf count pos acc = Ok (Some (args, n)) ->
  (pos <= n <= length buf)%nat /\
  exists l, args = acc ++ l /\ length l = count /\ Forall (fun b => zlen b <= bulk_max) l.
Proof.
  induction count as [|count IH]; intros pos acc args n Hpos H; cbn [parse_bulks] in H.
  { simplify_eq. split; [lia|]. exists []. by rewrite app_nil_r. }
  repeat (case_match; try done). zbool.
  match goal with H : find_crlf _ _ = _ |- _ => apply find_crlf_bound in H end.
  match goal with H : negb _ = false |- _ => apply negb_false_iff in H end. simplify_eq.
  repeat match goal with H : negb _ = false |- _ => apply negb_false_iff in H end. zbool.
  match goal with H : (_ <? _)%nat = false |- _ => apply Nat.ltb_ge in H end.
  apply IH in H as (Hn & l & -> & Hl & Hall); [|lia].
  split; [lia|]. eexists (_ :: l). rewrite <- app_assoc. split; [done|]. split; [simpl; lia|].
  constructor; [|done]. unfold slice. len_norm. lia.
Qed.

Lemma position_bound c (l : Bytes) i j : position c l i = Some j -> (i <= j < i + length l)%nat.
Proof.
  revert i. induction l as [|x l IH]; intros i H; [done|]. cbn in H.
  case_match; [simplify_eq; simpl; lia|]. apply IH in H. simpl. lia.
Qed.

Lemma parse_command_bound buf args n :
  parse_command buf = Ok (Some (args, n)) -> (0 < n <= length buf)%nat.
Proof.
  unfold parse_command. destruct buf as [|c buf]; [done|].
  destruct (c =? 42).
  - unfold parse_array_command. intros H. repeat (case_match; try done).
    + match goal with H : find_crlf _ _ = _ |- _ => apply find_crlf_bound in H end.
      simplify_eq. lia.
    + match goal with H : find_crlf _ _ = _ |- _ => apply find_crlf_bound in H end.
      apply parse_bulks_bound in H as [? _]; lia.
  - unfold parse_inline_command. intros H. case_match.
    + match goal with H : find_crlf _ _ = _ |- _ => apply find_crlf_bound in H end.
      destruct (split_inline _); [|done]. cbn in H. simplify_eq. lia.
    + case_match; [|done].
      match goal with H : position _ _ _ = _ |- _ => apply position_bound in H end.
      destruct (split_inline _); [|done]. cbn in H. simplify_eq. simpl in *. lia.
Qed.

(** *** More input never changes an answer already given *)

Lemma find_crlf_from_more (l more : Bytes) i j :
  find_crlf_from l i = Some j -> find_crlf_from (l ++ more) i = Some j.
Proof.
  revert i. induction l as [|c l IH]; intros i H; [done|].
  cbn [find_crlf_from] in H. destruct l as [|d l]; [done|].
  cbn [find_crlf_from app]. destruct ((c =? 13) && (d =? 10)); [done|].
  by apply IH.
Qed.

Lemma find_crlf_more buf more i j :
  find_crlf buf i = Some j -> find_crlf (buf ++ more) i = Some j.
Proof.
  intros H. apply find_crlf_bound in H as Hb. unfold find_crlf in *.
  rewrite drop_app_le by lia. by apply find_crlf_from_more.
Qed.

Lemma slice_more {A} (l more : list A) (a b : nat) :
  (a <= length l)%nat -> (b <= length l)%nat -> slice a b (l ++ more) = slice a b l.
Proof.
  intros Ha Hb. unfold slice. rewrite drop_app_le by done.
  rewrite take_app_le; [done|]. rewrite length_drop. lia.
Qed.

Lemma parse_bulks_more buf more count : forall pos acc,
  parse_bulks buf count pos acc <> Ok None ->
  parse_bulks (buf ++ more) count pos acc = parse_bulks buf count pos acc.
Proof.
  induction count as [|count IH]; intros pos acc H; [done|].
  cbn [parse_bulks] in *.
  destruct (buf !! pos) as [c|] eqn:Hc; [|done].
  rewrite (lookup_app_l_Some _ _ _ _ Hc).
  destruct (negb (c =? 36)); [done|].
  destruct (find_crlf buf (pos + 1)) as [lend|] eqn:Hf; [|done].
  rewrite (find_crlf_more _ _ _ _ Hf). apply find_crlf_bound in Hf.
  rewrite slice_more by lia.
  destruct (parse_i64_str _) as [len|]; [|done].
  destruct (negb ((0 <=? len) && _)); [done|].
  destruct (length buf <? _)%nat eqn:Hlt; [done|]. apply Nat.ltb_ge in Hlt.
  replace (length (buf ++ more) <? _)%nat with false
    by (symmetry; apply Nat.ltb_ge; rewrite length_app; lia).
  rewrite !slice_more by lia. destruct (negb _); [done|]. by apply IH.
Qed.

Lemma parse_array_more buf more :
  parse_array_command buf <> Ok None ->
  parse_array_command (buf ++ more) = parse_array_command buf.
Proof.
  unfold parse_array_command. intros H.
  destruct (find_crlf buf 1) as [le|] eqn:Hf; [|done].
  rewrite (find_crlf_more _ _ _ _ Hf). apply find_crlf_bound in Hf.
  rewrite slice_more by lia. repeat (case_match; try done). by apply parse_bulks_more.
Qed.
End ParserFacts.

(** ** Properties *)

(** Parsing what the encoder writes for a command (an array of bulk strings within the
    protocol limits) gives the arguments back and consumes exactly the bytes of that
    command, whatever pipelined input follows it and whichever protocol was negotiated. *)
Theorem parse_command_roundtrip args proto rest :
  sendable args ->
  parse_command (encode (Array (map Bulk args)) proto ++ rest)
  = Ok (Some (args, length (encode (Array (map Bulk args)) proto))).
Proof. rewrite enc_command_encode. apply parse_enc_command. Qed.

Lemma parse_command_roundtrip_witness :
  parse_command (encode (Array (map Bulk [bs "SET"; bs "k"; []])) 2 ++ bs "*1")
  = Ok (Some ([bs "SET"; bs "k"; []], 26%nat)).
Proof.
  apply (parse_command_roundtrip [bs "SET"; bs "k"; []] 2 (bs "*1")).
  split; [vm_compute; discriminate|].
  repeat constructor; vm_compute; discriminate.
Defined.

(** A command cut at any byte before its end is reported as incomplete: the parser
    neither fails nor answers with a shorter command, at every split point the transport
    may choose. *)
Theorem parse_command_incomplete args n :
  sendable args -> (n < length (enc_command args))%nat ->
  parse_command (take n (enc_command args)) = Ok None.
Proof. apply parse_command_cut. Qed.

Lemma parse_command_incomplete_witness :
  parse_command (take 11 (enc_command [bs "GET"; bs "k"])) = Ok None.
Proof.
  apply (parse_command_incomplete [bs "GET"; bs "k"] 11).
  - split; [vm_compute; discriminate|]. repeat constructor; vm_compute; discriminate.
  - apply Nat.ltb_lt. vm_compute. reflexivity.
Defined.

(** The parser's answer on an array command is final: once it returned a command or a
    protocol error, further input leaves the answer and the number of bytes consumed
    unchanged. *)
Theorem parse_command_stable buf more :
  head buf = Some 42 -> parse_command buf <> Ok None ->
  parse_command (buf ++ more) = parse_command buf.
Proof.
  destruct buf as [|c buf]; [done|]. intros [= ->]. apply (parse_array_more (42 :: buf)).
Qed.

Lemma parse_command_stable_witness :
  parse_command ((bs "*1" ++ CRLF ++ bs "$2" ++ CRLF ++ bs "ab" ++ CRLF) ++ bs "zz")
  = parse_command (bs "*1" ++ CRLF ++ bs "$2" ++ CRLF ++ bs "ab" ++ CRLF).
Proof.
  apply (parse_command_stable (bs "*1" ++ CRLF ++ bs "$2" ++ CRLF ++ bs "ab" ++ CRLF) (bs "zz")).
  - reflexivity.
  - vm_compute. discriminate.
Defined.

(** Every command returned consumes at least one byte and no more than the buffer
    holds, so the connection's read loop always advances and never drains past its input. *)
Theorem parse_command_progress buf args n :
  parse_command buf = Ok (Some (args, n)) -> (0 < n <= length buf)%nat.
Proof. apply parse_command_bound. Qed.

Lemma parse_command_progress_witness : (0 < 6 <= length (bs "PING" ++ CRLF))%nat.
Proof. apply (parse_command_progress (bs "PING" ++ CRLF) [bs "PING"]). reflexivity. Defined.

(** An inline command that ends in a bare line feed is not final in that sense: if a
    second command follows it in the same buffer with a CRLF, both lines are read as one
    command, though the first line alone was already answered. *)
Theorem inline_lf_depends_on_segmentation :
  parse_command (bs "PING" ++ [10]) = Ok (Some ([bs "PING"], 5%nat)) /\
  parse_command ((bs "PING" ++ [10]) ++ bs "GET" ++ CRLF)
  = Ok (Some ([bs "PING" ++ [10] ++ bs "GET"], 10%nat)).
Proof. split; reflexivity. Qed.
