(* ===== verification/Glob.v ===== *)
(** * Glob matching (src/redis/util.rs)

    [glob_match] is the matcher of KEYS, SCAN MATCH and PSUBSCRIBE: one loop with a single
    backtracking point, the most recent [*]. The source keeps indices [pi], [ti], [star_pi]
    and [star_ti] into the pattern and the text; here each index is the suffix that starts
    at it ([star_pi = usize::MAX] is [None], and the suffix kept for [star_pi] starts one
    past the star, where the code resumes). [gmatch] is the reference definition of a glob,
    and [glob_loop_spec] relates the two. *)

From S2P Require Import Prelude.

(** ** The code *)

(** The [while i < p.len()] loop of [match_class]. *)
Fixpoint class_scan (l : Bytes) (c : Z) (negate matched first : bool)
  : option (bool * Bytes) :=
  match l with
  | [] => None
  | x :: t =>
      if (x =? 93) && negb first then Some (xorb matched negate, t)
      else
        match t with
        | [] => class_scan t c negate (matched || (x =? c)) false
        | y :: t1 =>
            if x =? 92 then class_scan t1 c negate (matched || (y =? c)) false
            else
              match t1 with
              | [] => class_scan t c negate (matched || (x =? c)) false
              | z :: t2 =>
                  if (y =? 45) && negb (z =? 93) then
                    class_scan t2 c negate
                      (matched || ((Z.min x z <=? c) && (c <=? Z.max x z))) false
                  else class_scan t c negate (matched || (x =? c)) false
              end
        end
  end.

(** [match_class], on the pattern just past its opening bracket. *)
Definition match_class (p : Bytes) (c : Z) : option (bool * Bytes) :=
  match p with
  | 94 :: p' => class_scan p' c true false true
  | _ => class_scan p c false false true
  end.

(** The arms of the [match p[pi]] other than [*]: the rest of the pattern when the token
    at its head accepts [c]. *)
Definition glob_token (p : Bytes) (c : Z) : option Bytes :=
  match p with
  | [] => None
  | x :: q =>
      if x =? 42 then None
      else if x =? 63 then Some q
      else if x =? 91 then
        match match_class q c with
        | Some (true, next) => Some next
        | _ => None
        end
      else
        match q with
        | y :: q' =>
            if x =? 92 then (if y =? c then Some q' else None)
            else if x =? c then Some q else None
        | [] => if x =? c then Some q else None
        end
  end.

(** The trailing [while pi < p.len() && p[pi] == b'*'] and the final test. *)
Fixpoint only_stars (p : Bytes) : bool :=
  match p with
  | [] => true
  | x :: q => if x =? 42 then only_stars q else false
  end.

(** The main loop; [None] is running out of fuel. *)
Fixpoint glob_loop (fuel : nat) (p t : Bytes) (star : option (Bytes * Bytes)) : option bool :=
  match fuel with
  | O => None
  | S f =>
      match t with
      | [] => Some (only_stars p)
      | c :: t' =>
          let backtrack :=
            match star with
            | Some (sp, _ :: st') => glob_loop f sp st' (Some (sp, st'))
            | _ => Some false
            end in
          match p with
          | 42 :: q => glob_loop f q t (Some (q, t))
          | _ =>
              match glob_token p c with
              | Some q => glob_loop f q t' star
              | None => backtrack
              end
          end
      end
  end.

(** Fuel that always suffices ([glob_match_total]). *)
Definition glob_fuel (p t : Bytes) : nat := (length t + 2) * (length p + 2).

Definition glob_match (p t : Bytes) : bool :=
  default false (glob_loop (glob_fuel p t) p t None).

(** The unit tests of util.rs. *)
Example glob_basics :
  glob_match (bs "user:*:name") (bs "user:42:name") = true /\
  glob_match (bs "user:*:name") (bs "user:42:email") = false /\
  glob_match (bs "h[^e]llo") (bs "hello") = false /\
  glob_match (bs "h[a-c]llo") (bs "hbllo") = true /\
  glob_match (bs "\*") (bs "x") = false.
Proof. repeat split. Qed.

(** ** The reference definition *)

Inductive gmatch : Bytes -> Bytes -> Prop :=
| gm_nil : gmatch [] []
| gm_star_done p t : gmatch p t -> gmatch (42 :: p) t
| gm_star_more p c t : gmatch (42 :: p) t -> gmatch (42 :: p) (c :: t)
| gm_token p c p' t : glob_token p c = Some p' -> gmatch p' t -> gmatch p (c :: t).

(** ** Facts *)

Section Facts.
Implicit Types (p q t u s : Bytes) (c d : Z).

Lemma class_scan_rest l c d n m1 m2 f b1 r1 b2 r2 :
  class_scan l c n m1 f = Some (b1, r1) -> class_scan l d n m2 f = Some (b2, r2) -> r1 = r2.
Proof.
  revert m1 m2 f. induction l as [l IH] using (induction_ltof1 _ (@length Z)).
  intros m1 m2 f H1 H2. destruct l as [|x t]; [done|].
  cbn [class_scan] in H1, H2. destruct ((x =? 93) && negb f); [congruence|].
  destruct t as [|y t1]; [done|].
  destruct (x =? 92); [by eapply (IH t1); [unfold ltof; simpl; lia|..]|].
  destruct t1 as [|z t2]; [by eapply (IH [y]); [unfold ltof; simpl; lia|..]|].
  destruct ((y =? 45) && _).
  - by eapply (IH t2); [unfold ltof; simpl; lia|..].
  - by eapply (IH (y :: z :: t2)); [unfold ltof; simpl; lia|..].
Qed.

Lemma class_scan_length l c n m f b r :
  class_scan l c n m f = Some (b, r) -> (length r < length l)%nat.
Proof.
  revert m f. induction l as [l IH] using (induction_ltof1 _ (@length Z)).
  intros m f H. destruct l as [|x t]; [done|].
  cbn [class_scan] in H. destruct ((x =? 93) && negb f); [simplify_eq; simpl; lia|].
  destruct t as [|y t1]; [done|].
  destruct (x =? 92); [apply IH in H; unfold ltof in *; simpl in *; lia|].
  destruct t1 as [|z t2]; [apply IH in H; unfold ltof in *; simpl in *; lia|].
  destruct ((y =? 45) && _); apply IH in H; unfold ltof in *; simpl in *; lia.
Qed.

Lemma match_class_scan p c :
  match_class p c = class_scan p c false false true \/
  exists p', p = 94 :: p' /\ match_class p c = class_scan p' c true false true.
Proof.
  unfold match_class. repeat case_match; eauto.
Qed.

Lemma match_class_neg p' c : match_class (94 :: p') c = class_scan p' c true false true.
Proof. done. Qed.

Lemma match_class_pos p c :
  head p <> Some 94 -> match_class p c = class_scan p c false false true.
Proof. unfold match_class. intros H. repeat case_match; try done. Qed.

(** What a token consumes of the pattern does not depend on the character. *)
Lemma glob_token_rest p c d q1 q2 :
  glob_token p c = Some q1 -> glob_token p d = Some q2 -> q1 = q2.
Proof.
  unfold glob_token. destruct p as [|x q]; [done|].
  destruct (x =? 42); [done|]. destruct (x =? 63); [congruence|].
  destruct (x =? 91).
  - destruct (match_class q c) as [[[] r1]|] eqn:E1; [|done..].
    destruct (match_class q d) as [[[] r2]|] eqn:E2; [|done..].
    intros [= <-] [= <-]. destruct (decide (head q = Some 94)) as [Hq|Hq].
    + destruct q as [|y q']; [done|]. injection Hq as ->. rewrite match_class_neg in *.
      by eapply class_scan_rest.
    + rewrite match_class_pos in E1, E2 by done. by eapply class_scan_rest.
  - repeat case_match; congruence.
Qed.

(** Identify the rests of two successful tokens at the same pattern. *)
Ltac same_rest :=
  match goal with
  | H1 : glob_token ?p ?c = Some ?a, H2 : glob_token ?p ?d = Some ?b |- _ =>
      tryif constr_eq a b then fail
      else (pose proof (glob_token_rest _ _ _ _ _ H1 H2); subst)
  end.

Lemma glob_token_length p c q : glob_token p c = Some q -> (length q < length p)%nat.
Proof.
  unfold glob_token. destruct p as [|x r]; [done|].
  destruct (x =? 42); [done|]. destruct (x =? 63); [intros; simplify_eq; simpl; lia|].
  destruct (x =? 91).
  - destruct (match_class r c) as [[[] r1]|] eqn:E1; [|done..]. intros [= <-].
    destruct (match_class_scan r c) as [E|(p' & -> & E)]; rewrite E in E1;
      apply class_scan_length in E1; simpl in *; lia.
  - repeat case_match; intros; simplify_eq; simpl; lia.
Qed.

Lemma glob_token_star p c : glob_token (42 :: p) c = None.
Proof. done. Qed.

Lemma gmatch_token_inv p c q t :
  glob_token p c = Some q -> gmatch p (c :: t) <-> gmatch q t.
Proof.
  intros H. split; [|by apply gm_token].
  intros M. inversion M; subst; [done..|].
  by same_rest.
Qed.

Lemma gmatch_token_none p c t :
  glob_token p c = None -> head p <> Some 42 -> ~ gmatch p (c :: t).
Proof. intros H Hp M. inversion M; subst; simpl in *; congruence. Qed.

Lemma gmatch_star p t :
  gmatch (42 :: p) t <-> gmatch p t \/ exists c r, t = c :: r /\ gmatch (42 :: p) r.
Proof.
  split.
  - intros M. inversion M; subst; [by left|right; eauto|done].
  - intros [M|(c & r & -> & M)]; by constructor.
Qed.

Lemma gmatch_star_suffix p t :
  gmatch (42 :: p) t <-> exists s, s `suffix_of` t /\ gmatch p s.
Proof.
  split.
  - induction t as [|c t IH]; intros M; apply gmatch_star in M as [M|(? & ? & E & M)];
      [by exists []|done|by exists (c :: t)|].
    simplify_eq. apply IH in M as (s & Hs & M). exists s. split; [|done].
    by apply suffix_cons_r.
  - intros (s & [k ->] & M). induction k as [|c k IH]; simpl; by constructor.
Qed.

Lemma only_stars_spec p : only_stars p = true <-> gmatch p [].
Proof.
  induction p as [|x p IH]; cbn [only_stars].
  - split; [constructor|done].
  - destruct (x =? 42) eqn:E; zbool; subst.
    + rewrite IH. split; [by constructor|]. intros M. by inversion M.
    + split; [done|]. intros M. by inversion M.
Qed.

(** [consumed p t q u]: single-character tokens led from [(p, t)] to [(q, u)]. *)
Inductive consumed : Bytes -> Bytes -> Bytes -> Bytes -> Prop :=
| consumed_refl p t : consumed p t p t
| consumed_step p c p1 t q u :
    glob_token p c = Some p1 -> consumed p1 t q u -> consumed p (c :: t) q u.

Lemma consumed_snoc p t q c q1 u :
  consumed p t q (c :: u) -> glob_token q c = Some q1 -> consumed p t q1 u.
Proof.
  intros H Ht. remember (c :: u) as u' eqn:E. induction H; subst.
  - econstructor; [done|constructor].
  - econstructor; eauto.
Qed.

Lemma consumed_suffix p t q u : consumed p t q u -> u `suffix_of` t.
Proof. induction 1; [done|by apply suffix_cons_r]. Qed.

Lemma gmatch_head_token p c p1 s :
  glob_token p c = Some p1 -> gmatch p s -> exists d s1, s = d :: s1 /\ gmatch p1 s1.
Proof.
  intros H M. inversion M; subst; [done..|].
  same_rest. eauto.
Qed.

(** A text that the consumed part of the pattern can start with is long enough, and what
    it leaves matches the rest of the pattern. *)
Lemma consumed_match p t q u s :
  consumed p t q u -> gmatch p s ->
  exists s', gmatch q s' /\ s' `suffix_of` s /\ (length s + length u = length s' + length t)%nat.
Proof.
  intros H. revert s. induction H as [|p c p1 t q u Ht H IH]; intros s M.
  - exists s. split; [done|]. split; [done|lia].
  - destruct (gmatch_head_token _ _ _ _ Ht M) as (d & s1 & -> & M1).
    apply IH in M1 as (s' & M' & Hs & Hl). exists s'.
    split; [done|]. split; [by apply suffix_cons_r|simpl; lia].
Qed.

Lemma suffix_shorter s u t :
  s `suffix_of` t -> u `suffix_of` t -> (length s <= length u)%nat -> s `suffix_of` u.
Proof.
  intros [k1 E1] [k2 E2] Hl. rewrite E1 in E2.
  assert (length k2 <= length k1)%nat as Hk.
  { apply (f_equal length) in E2. rewrite !length_app in E2. lia. }
  rewrite <- (take_drop (length k2) k1) in E2. rewrite <- app_assoc in E2.
  apply app_inj_1 in E2 as [_ E2]; [|rewrite length_take; lia].
  rewrite <- E2. by eexists.
Qed.

(** The alternatives left by the backtracking point. *)
Definition retry (star : option (Bytes * Bytes)) : Prop :=
  match star with
  | Some (sp, _ :: st') => gmatch (42 :: sp) st'
  | _ => False
  end.

Definition wf_star p t (star : option (Bytes * Bytes)) : Prop :=
  match star with
  | Some (sp, s) => consumed sp s p t
  | None => True
  end.

(** Reaching a new star makes the older alternatives redundant. *)
Lemma retry_subsumed q t star :
  wf_star (42 :: q) t star -> retry star -> gmatch (42 :: q) t.
Proof.
  destruct star as [[sp [|c s]]|]; [done| |done]. cbn. intros Hc Hr.
  apply gmatch_star_suffix in Hr as (s0 & Hs0 & M).
  destruct (consumed_match _ _ _ _ _ Hc M) as (s' & M' & Hs' & Hl).
  apply gmatch_star_suffix in M' as (s2 & Hs2 & M2).
  apply gmatch_star_suffix. exists s2. split; [|done].
  apply (suffix_shorter _ _ (c :: s)).
  - etrans; [done|]. etrans; [done|]. by apply suffix_cons_r.
  - by eapply consumed_suffix.
  - apply suffix_length in Hs0, Hs2. simpl in *. lia.
Qed.

Lemma retry_at_end p star : wf_star p [] star -> retry star -> False.
Proof.
  destruct star as [[sp [|c s]]|]; [done| |done]. cbn. intros Hc Hr.
  apply gmatch_star_suffix in Hr as (s0 & Hs0 & M).
  destruct (consumed_match _ _ _ _ _ Hc M) as (s' & _ & _ & Hl).
  apply suffix_length in Hs0. simpl in *. lia.
Qed.

(** The arm of the loop for a head that is not a star. *)
Lemma not_star_arm {A} p (X : Bytes -> A) (Y : A) :
  head p <> Some 42 -> match p with 42 :: q => X q | _ => Y end = Y.
Proof.
  intros H. destruct p as [|x q]; [done|].
  destruct (decide (x = 42)) as [->|Hx]; [done|]. by repeat (case_match; try done).
Qed.

(** Partial correctness of the loop, at every state it can reach. *)
Lemma glob_loop_spec fuel : forall p t star b,
  wf_star p t star -> glob_loop fuel p t star = Some b ->
  b = true <-> gmatch p t \/ retry star.
Proof.
  induction fuel as [|f IH]; intros p t star b Hwf H; [done|].
  cbn [glob_loop] in H. destruct t as [|c t'].
  { simplify_eq. rewrite only_stars_spec. split; [by left|].
    intros [M|R]; [done|]. destruct (retry_at_end _ _ Hwf R). }
  destruct (decide (head p = Some 42)) as [Hp|Hp].
  - destruct p as [|x q]; [done|]. injection Hp as ->.
    apply IH in H; [|constructor]. rewrite H. cbn [retry]. split.
    + intros M. left. apply gmatch_star. destruct M; eauto.
    + intros HM. assert (gmatch (42 :: q) (c :: t')) as M.
      { destruct HM as [?|R]; [done|]. by eapply retry_subsumed. }
      apply gmatch_star in M as [M|(? & ? & E & M)]; simplify_eq; eauto.
  - assert (Hdef : match glob_token p c with
                   | Some q => glob_loop f q t' star
                   | None => match star with
                             | Some (sp, _ :: st') => glob_loop f sp st' (Some (sp, st'))
                             | _ => Some false end
                   end = Some b).
    { rewrite not_star_arm in H by done. exact H. }
    clear H. destruct (glob_token p c) as [q|] eqn:Ht.
    + apply IH in Hdef.
      * by rewrite Hdef, (gmatch_token_inv _ _ _ _ Ht).
      * destruct star as [[sp s]|]; [|done]. by eapply consumed_snoc.
    + assert (Hno := gmatch_token_none p c t' Ht Hp).
      destruct star as [[sp [|d s]]|];
        [simplify_eq; split; [done|by intros [?|?]]| |simplify_eq; split; [done|by intros [?|?]]].
      apply IH in Hdef; [|constructor]. rewrite Hdef. cbn [retry].
      rewrite (gmatch_star sp s).
      split.
      * intros [?|R]; [by eauto|]. destruct s; [done|]. eauto 7.
      * intros [?|[?|(x & r & Es & ?)]]; [done|by left|].
        right. by rewrite Es.
Qed.

(** Termination: each backtrack shortens the starred suffix, each other step the pattern. *)
Lemma glob_loop_total n fuel : forall p t star,
  (length p <= n)%nat ->
  match star with
  | Some (sp, s) => (length sp <= n /\ length t <= length s /\
                     length s * (n + 2) + length p < fuel)%nat
  | None => ((length t + 1) * (n + 2) + length p < fuel)%nat
  end ->
  is_Some (glob_loop fuel p t star).
Proof.
  induction fuel as [|f IH]; intros p t star Hp Hf.
  { destruct star as [[]|]; lia. }
  cbn [glob_loop]. destruct t as [|c t']; [by eexists|].
  destruct (decide (head p = Some 42)) as [Hh|Hh].
  - destruct p as [|x q]; [done|]. injection Hh as ->. simpl in Hp.
    apply IH; [lia|]. split; [lia|]. split; [lia|].
    destruct star as [[sp s]|]; simpl in *; nia.
  - rewrite not_star_arm by done. destruct (glob_token p c) as [q|] eqn:Ht.
    + apply glob_token_length in Ht. apply IH; [lia|].
      destruct star as [[sp s]|]; simpl in *; [|nia]. split; [lia|]. split; nia.
    + destruct star as [[sp [|d s]]|]; [by eexists| |by eexists].
      destruct Hf as (? & ? & ?). simpl in *. apply IH; [lia|]. split; [lia|].
      split; [lia|]. nia.
Qed.

Lemma glob_loop_fuel p t : is_Some (glob_loop (glob_fuel p t) p t None).
Proof. apply (glob_loop_total (length p)); unfold glob_fuel; [lia|]. nia. Qed.
End Facts.

(** ** Properties *)

(** The matcher's loop always terminates within its fuel: it backtracks at most once
    per text position, and between backtracks every step consumes pattern. *)
Theorem glob_match_total p t : exists b, glob_loop (glob_fuel p t) p t None = Some b.
Proof. apply glob_loop_fuel. Qed.

(** Remembering only the most recent star is complete: the greedy matcher accepts
    exactly the texts that the declarative glob relation accepts. *)
Theorem glob_match_correct p t : glob_match p t = true <-> gmatch p t.
Proof.
  unfold glob_match. destruct (glob_loop_fuel p t) as [b Hb]. rewrite Hb. cbn [default].
  rewrite (glob_loop_spec _ p t None b I Hb). cbn. tauto.
Qed.
