(* ===== verification/Mvcc.v ===== *)
(** * The MVCC store (src/mvcc/mod.rs)

    Version chains, the shared state [Inner], the sequencer-side [Writer], the effects
    [apply_ops] pushes, transactional commit, snapshot pins and garbage collection.

    Concurrent maps ([DashMap]) and persistent maps ([im::HashMap], [im::OrdMap]) are
    finite maps; where the code iterates one, the order is that of [map_to_list], standing
    for an order the library leaves unspecified. Time ([now_ms()]) is an argument. Commit
    timestamps and live-key counters are unbounded integers: a [u64] timestamp takes 2^64
    commits to wrap. *)

From S2P Require Import Prelude.

(** ** The value universe *)

Inductive Scalar : Type :=
| ScNull
| ScBool (b : bool)
| ScInt (i : Z)
| ScFloat (f : f64)
| ScText (s : Bytes).

(** Sorted set: member to score, and the score-ordered index kept as the sorted list of
    its elements. *)
Record ZSet := { by_member : gmap Bytes f64; by_score : list (f64 * Bytes) }.

Definition zset_default : ZSet := {| by_member := ∅; by_score := [] |}.
Definition zset_len (z : ZSet) : Z := Z.of_nat (size (by_member z)).
Definition zset_is_empty (z : ZSet) : bool := bool_decide (by_member z = ∅).

(** Stream entry identifiers, ordered by [ms] then [seq]. *)
Record StreamId := { ms : Z; seq_no : Z }.

Definition stream_id_min : StreamId := {| ms := 0; seq_no := 0 |}.
Definition stream_id_max : StreamId := {| ms := U64_MAX; seq_no := U64_MAX |}.

Definition stream_id_next (s : StreamId) : StreamId :=
  if seq_no s =? U64_MAX then {| ms := wrap_u64 (ms s + 1); seq_no := 0 |}
  else {| ms := ms s; seq_no := seq_no s + 1 |}.

Definition stream_id_prev (s : StreamId) : StreamId :=
  if seq_no s =? 0 then
    if ms s =? 0 then stream_id_min
    else {| ms := ms s - 1; seq_no := U64_MAX |}
  else {| ms := ms s; seq_no := seq_no s - 1 |}.

#[export] Instance stream_id_eq_dec : EqDecision StreamId.
Proof. solve_decision. Defined.
#[export] Instance stream_id_countable : Countable StreamId.
Proof.
  apply (inj_countable' (fun s => (ms s, seq_no s)) (fun p => {| ms := p.1; seq_no := p.2 |})).
  by intros [].
Defined.

Record XStream := {
  entries : gmap StreamId (list (Bytes * Bytes));
  last_id : StreamId;
  max_deleted_id : StreamId;
  entries_added : Z }.

Inductive Datum : Type :=
| DStr (s : Bytes)
| DHash (h : gmap Bytes Bytes)
| DList (l : list Bytes)
| DSet (s : gset Bytes)
| DZSet (z : ZSet)
| DRow (r : gmap Bytes Scalar)
| DStream (x : XStream).

Definition type_name (d : Datum) : Bytes :=
  match d with
  | DStr _ => bs "string"
  | DHash _ => bs "hash"
  | DList _ => bs "list"
  | DSet _ => bs "set"
  | DZSet _ => bs "zset"
  | DRow _ => bs "row"
  | DStream _ => bs "stream"
  end.

(** ** Keys, versions, chains *)

Abbreviation TxnId := Z.
Abbreviation NsKey := (Z * Bytes)%type.

(** One committed version; [value = None] is a tombstone. *)
Record Version := {
  commit_ts : TxnId;
  value : option Datum;
  expires_at_ms : option Z }.

(** Newest first. *)
Abbreviation Chain := (list Version).

Fixpoint visible_at (c : Chain) (ts : TxnId) : option Version :=
  match c with
  | [] => None
  | v :: c' => if commit_ts v <=? ts then Some v else visible_at c' ts
  end.

Definition head_ts (c : Chain) : TxnId :=
  match c with v :: _ => commit_ts v | [] => 0 end.

(** [versions.iter().position(|v| v.commit_ts <= min_active)] *)
Fixpoint first_dead (c : Chain) (min_active : TxnId) (i : nat) : option nat :=
  match c with
  | [] => None
  | v :: c' => if commit_ts v <=? min_active then Some i else first_dead c' min_active (S i)
  end.

Definition prune (c : Chain) (min_active : TxnId) : Chain :=
  match first_dead c min_active 0 with
  | Some idx => take (idx + 1) c
  | None => c
  end.

(** [v.expires_at_ms.map(|e| e <= now).unwrap_or(false)] *)
Definition is_expired (e : option Z) (now : Z) : bool :=
  match e with Some e => e <=? now | None => false end.

(** ** Write effects and shared state *)

Inductive WriteOp : Type :=
| Put (ns : Z) (key : Bytes) (value : Datum) (expires_at_ms : option Z)
| Del (ns : Z) (key : Bytes).

Definition op_key (op : WriteOp) : NsKey :=
  match op with Put ns k _ _ => (ns, k) | Del ns k => (ns, k) end.

(** [active_snapshots] is the BTreeMap of pinned timestamps to reference counts. *)
Record Inner := {
  chains : gmap NsKey Chain;
  last_commit : TxnId;
  counts : gmap Z Z;
  ttl_index : gmap NsKey Z;
  active_snapshots : gmap Z Z }.

Definition set_chains (i : Inner) c : Inner :=
  {| chains := c; last_commit := last_commit i; counts := counts i;
     ttl_index := ttl_index i; active_snapshots := active_snapshots i |}.
Definition set_counts (i : Inner) c : Inner :=
  {| chains := chains i; last_commit := last_commit i; counts := c;
     ttl_index := ttl_index i; active_snapshots := active_snapshots i |}.
Definition set_ttl_index (i : Inner) t : Inner :=
  {| chains := chains i; last_commit := last_commit i; counts := counts i;
     ttl_index := t; active_snapshots := active_snapshots i |}.
Definition set_last_commit (i : Inner) ts : Inner :=
  {| chains := chains i; last_commit := ts; counts := counts i;
     ttl_index := ttl_index i; active_snapshots := active_snapshots i |}.
Definition set_snapshots (i : Inner) s : Inner :=
  {| chains := chains i; last_commit := last_commit i; counts := counts i;
     ttl_index := ttl_index i; active_snapshots := s |}.

(** The state [MvccStore::open] starts from, before recovery. *)
Definition inner_new : Inner :=
  {| chains := ∅; last_commit := 0; counts := ∅; ttl_index := ∅; active_snapshots := ∅ |}.

(** Smallest key of the pin table. *)
Definition min_key (m : gmap Z Z) : option Z :=
  foldr (fun k acc => Some (match acc with Some a => Z.min k a | None => k end)) None
    (map_to_list m).*1.

Definition min_active_snapshot (i : Inner) : TxnId :=
  default (last_commit i) (min_key (active_snapshots i)).

Definition bump_count (i : Inner) (ns delta : Z) : Inner :=
  set_counts i (<[ns := default 0 (counts i !! ns) + delta]> (counts i)).

(** The chain [inner.chains.entry(nk).or_default()] gives. *)
Definition chain_of (i : Inner) (nk : NsKey) : Chain := default [] (chains i !! nk).

Definition head_live (c : Chain) : bool :=
  match c with v :: _ => bool_decide (is_Some (value v)) | [] => false end.

(** ** Applying effects at a commit timestamp *)

Definition push_version (i : Inner) (nk : NsKey) (v : Version) (min_active : TxnId) : Inner :=
  set_chains i (<[nk := prune (v :: chain_of i nk) min_active]> (chains i)).

Definition apply_op (i : Inner) (op : WriteOp) (ts min_active : TxnId) : Inner :=
  match op with
  | Put ns key val exp =>
      let nk := (ns, key) in
      let was_live := head_live (chain_of i nk) in
      let i1 := push_version i nk
        {| commit_ts := ts; value := Some val; expires_at_ms := exp |} min_active in
      let i2 := if was_live then i1 else bump_count i1 ns 1 in
      match exp with
      | Some e => set_ttl_index i2 (<[nk := e]> (ttl_index i2))
      | None => set_ttl_index i2 (delete nk (ttl_index i2))
      end
  | Del ns key =>
      let nk := (ns, key) in
      let was_live := head_live (chain_of i nk) in
      let i1 := push_version i nk
        {| commit_ts := ts; value := None; expires_at_ms := None |} min_active in
      let i2 := if was_live then bump_count i1 ns (-1) else i1 in
      set_ttl_index i2 (delete nk (ttl_index i2))
  end.

Definition apply_ops (i : Inner) (ops : list WriteOp) (ts min_active : TxnId) : Inner :=
  foldl (fun i op => apply_op i op ts min_active) i ops.

(** ** Snapshots *)

(** [pin_snapshot] in two parts, as the code runs it: the load of [last_commit], then the
    reference count under the lock. *)
Definition current_ts (i : Inner) : TxnId := last_commit i.

Definition pin_insert (i : Inner) (ts : TxnId) : Inner :=
  set_snapshots i (<[ts := default 0 (active_snapshots i !! ts) + 1]> (active_snapshots i)).

(** [Drop for SnapshotGuard] *)
Definition snapshot_drop (i : Inner) (ts : TxnId) : Inner :=
  match active_snapshots i !! ts with
  | Some cnt =>
      if cnt - 1 =? 0 then set_snapshots i (delete ts (active_snapshots i))
      else set_snapshots i (<[ts := cnt - 1]> (active_snapshots i))
  | None => i
  end.

(** ** Reads *)

Definition get_at (i : Inner) (ns : Z) (key : Bytes) (ts : TxnId) (now : Z) : option Datum :=
  chain ← chains i !! (ns, key);
  v ← visible_at chain ts;
  if is_expired (expires_at_ms v) now then None else value v.

Definition get (i : Inner) (ns : Z) (key : Bytes) (now : Z) : option Datum :=
  get_at i ns key (current_ts i) now.

Definition get_expiry (i : Inner) (ns : Z) (key : Bytes) : option Z :=
  chain ← chains i !! (ns, key);
  v ← visible_at chain (current_ts i);
  _ ← value v;
  expires_at_ms v.

Definition ns_len (i : Inner) (ns : Z) : Z := Z.max (default 0 (counts i !! ns)) 0.

Definition ttl_count (i : Inner) (ns : Z) : Z :=
  Z.of_nat (length (filter (fun kv => kv.1.1 = ns) (map_to_list (ttl_index i)))).

Definition visible_keys_sorted (i : Inner) (ns ts now : Z) : list Bytes :=
  sort_keys (omap (fun kv : NsKey * Chain =>
    if kv.1.1 =? ns then
      match visible_at kv.2 ts with
      | Some v =>
          match value v with
          | Some _ => if is_expired (expires_at_ms v) now then None else Some kv.1.2
          | None => None
          end
      | None => None
      end
    else None) (map_to_list (chains i))).

(** ** The sequencer-side writer *)

Record Writer := {
  w_inner : Inner;
  staged : list WriteOp;
  overlay : gmap NsKey (option (Datum * option Z));
  w_now : Z }.

Definition writer_new (i : Inner) (now : Z) : Writer :=
  {| w_inner := i; staged := []; overlay := ∅; w_now := now |}.

Definition stage (w : Writer) (op : WriteOp) (o : option (Datum * option Z)) : Writer :=
  {| w_inner := w_inner w; staged := staged w ++ [op];
     overlay := <[op_key op := o]> (overlay w); w_now := w_now w |}.

Definition writer_put (ns : Z) (key : Bytes) (val : Datum) (exp : option Z) (w : Writer)
  : Writer :=
  stage w (Put ns key val exp) (Some (val, exp)).

Definition writer_del (ns : Z) (key : Bytes) (w : Writer) : bool * Writer :=
  let existed :=
    match overlay w !! (ns, key) with
    | Some v => bool_decide (is_Some v)
    | None =>
        match chains (w_inner w) !! (ns, key) with
        | Some (v :: _) =>
            bool_decide (is_Some (value v)) && negb (is_expired (expires_at_ms v) (w_now w))
        | _ => false
        end
    end in
  (existed, stage w (Del ns key) None).

Definition writer_get (ns : Z) (key : Bytes) (w : Writer) : option Datum * Writer :=
  match overlay w !! (ns, key) with
  | Some st =>
      (match st with
       | Some (d, exp) => if is_expired exp (w_now w) then None else Some d
       | None => None
       end, w)
  | None =>
      match chains (w_inner w) !! (ns, key) with
      | Some (v :: _) =>
          match value v with
          | None => (None, w)
          | Some d =>
              if is_expired (expires_at_ms v) (w_now w)
              then (None, snd (writer_del ns key w))
              else (Some d, w)
          end
      | _ => (None, w)
      end
  end.

Definition writer_head_ts (w : Writer) (ns : Z) (key : Bytes) : TxnId :=
  match chains (w_inner w) !! (ns, key) with Some c => head_ts c | None => 0 end.

Definition writer_dbsize (w : Writer) (ns : Z) : Z :=
  Z.max (default 0 (counts (w_inner w) !! ns)) 0.

Definition writer_get_expiry (w : Writer) (ns : Z) (key : Bytes) : option Z :=
  match overlay w !! (ns, key) with
  | Some st => st ≫= snd
  | None =>
      match chains (w_inner w) !! (ns, key) with
      | Some (v :: _) => expires_at_ms v
      | _ => None
      end
  end.

Definition writer_exists (ns : Z) (key : Bytes) (w : Writer) : bool * Writer :=
  let '(d, w') := writer_get ns key w in (bool_decide (is_Some d), w').

Definition writer_live_keys (w : Writer) (ns : Z) : list Bytes :=
  omap (fun kv : NsKey * Chain =>
    if negb (kv.1.1 =? ns) then None
    else match overlay w !! kv.1 with
         | Some _ => None
         | None =>
             match kv.2 with
             | v :: _ =>
                 if bool_decide (is_Some (value v))
                    && negb (is_expired (expires_at_ms v) (w_now w))
                 then Some kv.1.2 else None
             | [] => None
             end
         end) (map_to_list (chains (w_inner w)))
  ++ omap (fun kv : NsKey * option (Datum * option Z) =>
    if (kv.1.1 =? ns) && bool_decide (is_Some kv.2) then Some kv.1.2 else None)
    (map_to_list (overlay w)).

(** ** The sequencer *)

Record AofRecord := { rec_ts : Z; rec_ops : list WriteOp }.

Inductive CommitError : Type := Conflict | Closed.

(** One [Batch::Apply]: run the closure against a fresh writer, then apply and publish
    what it staged. *)
Definition seq_apply {A} (i : Inner) (min_active now : Z) (f : st Writer A)
  : A * Inner * option AofRecord :=
  let '(a, w) := f (writer_new i now) in
  match staged w with
  | [] => (a, i, None)
  | ops =>
      let ts := last_commit i + 1 in
      let i' := set_last_commit (apply_ops i ops ts min_active) ts in
      (a, i', Some {| rec_ts := ts; rec_ops := ops |})
  end.

Record CommitRequest := {
  read_ts : TxnId;
  writes : list WriteOp;
  conflict_keys : list NsKey }.

Definition has_conflict (i : Inner) (req : CommitRequest) : bool :=
  existsb (fun nk => read_ts req <? match chains i !! nk with
                                    | Some c => head_ts c
                                    | None => 0
                                    end) (conflict_keys req).

(** One [Batch::Commit]. *)
Definition seq_commit (i : Inner) (min_active : TxnId) (req : CommitRequest)
  : result CommitError TxnId * Inner * option AofRecord :=
  if has_conflict i req then (Err Conflict, i, None)
  else
    let ts := last_commit i + 1 in
    match writes req with
    | [] => (Ok ts, i, None)
    | ops =>
        let i' := set_last_commit (apply_ops i ops ts min_active) ts in
        (Ok ts, i', Some {| rec_ts := ts; rec_ops := ops |})
    end.

(** ** Garbage collection and active expiry *)

(** The closure of [chains.retain]: the chain to keep, or [None] to drop it. *)
Definition gc_chain (min_active : TxnId) (c : Chain) : option Chain :=
  let c' := prune c min_active in
  match c' with
  | head :: _ =>
      if bool_decide (value head = None) && (commit_ts head <=? min_active)
      then None else Some c'
  | [] => None
  end.

Definition gc_sweep (i : Inner) (min_active : TxnId) : Inner :=
  set_chains i (omap (gc_chain min_active) (chains i)).

(** The sample of the TTL index: at most 1000 expired keys. *)
Definition expired_sample (i : Inner) (now : Z) : list NsKey :=
  take 1000 (map fst (filter (fun kv => kv.2 <= now) (map_to_list (ttl_index i)))).

(** The closure the collector queues: re-check each key, then delete it. *)
Definition reap (expired : list NsKey) : st Writer unit :=
  st_iter (fun (nk : NsKey) w =>
    if is_expired (writer_get_expiry w nk.1 nk.2) (w_now w)
    then (tt, snd (writer_del nk.1 nk.2 w)) else (tt, w)) expired.
