(* ===== verification/MvccFacts.v ===== *)
(** * Invariants and snapshot isolation of the MVCC store

    [latest] and [wview] are the abstract contents of the store and of a writer; [wf_inner]
    is the well-formedness invariant of the shared state, preserved by every operation. *)

From S2P Require Import Prelude Mvcc.

(** ** Abstraction *)

(** The newest committed value of a key, with its expiry. *)
Definition latest (i : Inner) (nk : NsKey) : option (Datum * option Z) :=
  match chain_of i nk with
  | v :: _ => (fun d => (d, expires_at_ms v)) <$> value v
  | [] => None
  end.

(** What a writer sees: its own staged effects over the committed state. *)
Definition wview (w : Writer) (nk : NsKey) : option (Datum * option Z) :=
  match overlay w !! nk with
  | Some o => o
  | None => latest (w_inner w) nk
  end.

Definition b2z (b : bool) : Z := if b then 1 else 0.

(** Number of live keys of a namespace. *)
Definition counts_for (ns : Z) (kv : NsKey * Chain) : Prop :=
  kv.1.1 = ns /\ head_live kv.2 = true.
#[export] Instance counts_for_dec ns kv : Decision (counts_for ns kv).
Proof. unfold counts_for. apply _. Defined.

Definition live_count (i : Inner) (ns : Z) : Z :=
  Z.of_nat (size (filter (counts_for ns) (chains i))).

(** ** Invariant *)

Definition newest_first (c : Chain) : Prop :=
  StronglySorted (fun a b => commit_ts b <= commit_ts a) c.

Record wf_chain (bound : TxnId) (c : Chain) : Prop := {
  wfc_ne : c <> [];
  wfc_sorted : newest_first c;
  wfc_bound : Forall (fun v => 0 < commit_ts v <= bound) c;
  wfc_tomb : Forall (fun v => value v = None -> expires_at_ms v = None) c }.

(** [bound] is the newest timestamp that may occur in a chain: [last_commit], or the
    timestamp of the commit being applied. *)
Record wf_at (bound : TxnId) (i : Inner) : Prop := {
  wf_chains : forall nk c, chains i !! nk = Some c -> wf_chain bound c;
  wf_counts : forall ns, default 0 (counts i !! ns) = live_count i ns;
  wf_ttl : forall nk, ttl_index i !! nk = latest i nk ≫= snd;
  wf_last : 0 <= last_commit i <= bound }.

Definition wf_inner (i : Inner) : Prop := wf_at (last_commit i) i.

(** ** Chains *)

Section Chains.
Implicit Types (c : Chain) (v : Version) (m ts : TxnId).

Lemma first_dead_S c m i : first_dead c m (S i) = S <$> first_dead c m i.
Proof.
  revert i. induction c as [|v c IH]; intros i; [done|]. cbn [first_dead].
  case_match; [done|]. apply IH.
Qed.

Lemma prune_cons v c m :
  prune (v :: c) m = if commit_ts v <=? m then [v] else v :: prune c m.
Proof.
  unfold prune. cbn [first_dead]. destruct (commit_ts v <=? m); [done|].
  rewrite first_dead_S. destruct (first_dead c m 0); done.
Qed.

Lemma prune_nil m : prune [] m = [].
Proof. done. Qed.

(** Pruning below [m] is invisible to every snapshot at or above [m]. *)
Lemma prune_visible c m ts : m <= ts -> visible_at (prune c m) ts = visible_at c ts.
Proof.
  intros Hm. induction c as [|v c IH]; [done|].
  rewrite prune_cons. destruct (commit_ts v <=? m) eqn:E; zbool; cbn [visible_at].
  - rewrite zle_true by lia. done.
  - destruct (commit_ts v <=? ts); done.
Qed.

Lemma prune_head v c m : exists c', prune (v :: c) m = v :: c'.
Proof. rewrite prune_cons. case_match; eauto. Qed.

Lemma prune_incl c m : forall v, v ∈ prune c m -> v ∈ c.
Proof.
  induction c as [|u c IH]; intros v; [done|]. rewrite prune_cons.
  destruct (commit_ts u <=? m); rewrite !elem_of_cons.
  - intros [?|?%elem_of_nil]; [by left|done].
  - intros [?|?]; [by left|right; by apply IH].
Qed.

Lemma prune_Forall (P : Version -> Prop) c m : Forall P c -> Forall P (prune c m).
Proof.
  rewrite !Forall_forall. intros H v Hv. by apply H, (prune_incl c m).
Qed.

Lemma prune_sorted c m : newest_first c -> newest_first (prune c m).
Proof.
  induction 1 as [|v c Hs IH Hv]; [constructor|]. rewrite prune_cons.
  destruct (commit_ts v <=? m); constructor; try done; [constructor..|].
  by apply prune_Forall.
Qed.

Lemma wf_chain_prune b c m : wf_chain b c -> wf_chain b (prune c m).
Proof.
  intros [Hne Hs Hb Ht]. split; [|by apply prune_sorted|by apply prune_Forall..].
  destruct c as [|v c]; [done|]. by destruct (prune_head v c m) as [? ->].
Qed.

Lemma wf_chain_push b c v m :
  0 < commit_ts v -> commit_ts v = b -> (c <> [] -> wf_chain b c) ->
  (value v = None -> expires_at_ms v = None) ->
  wf_chain b (prune (v :: c) m).
Proof.
  intros Hv Hb Hc Ht. apply wf_chain_prune. destruct c as [|u c].
  - split; [done|by repeat constructor|apply Forall_singleton; lia|by apply Forall_singleton].
  - destruct Hc as [_ Hs Hbd Htb]; [done|]. split; [done| | |by constructor].
    + constructor; [done|]. eapply Forall_impl; [exact Hbd|]. simpl. lia.
    + constructor; [lia|done].
Qed.

Lemma head_live_prune c m : head_live (prune c m) = head_live c.
Proof. destruct c as [|v c]; [done|]. by destruct (prune_head v c m) as [? ->]. Qed.
End Chains.

(** ** Lookups after each operation *)

Section Ops.
Implicit Types (i : Inner) (nk : NsKey) (op : WriteOp) (ts m : TxnId).

Lemma chains_bump i ns d : chains (bump_count i ns d) = chains i.
Proof. done. Qed.

(** The version an effect pushes. *)
Definition op_version op ts : Version :=
  match op with
  | Put _ _ val exp => {| commit_ts := ts; value := Some val; expires_at_ms := exp |}
  | Del _ _ => {| commit_ts := ts; value := None; expires_at_ms := None |}
  end.

(** The binding an effect leaves. *)
Definition op_result op : option (Datum * option Z) :=
  match op with Put _ _ val exp => Some (val, exp) | Del _ _ => None end.

Lemma apply_op_chains i op ts m :
  chains (apply_op i op ts m)
  = <[op_key op := prune (op_version op ts :: chain_of i (op_key op)) m]> (chains i).
Proof.
  destruct op as [ns k d [e|]|ns k]; cbn; destruct (head_live _); done.
Qed.

Lemma apply_op_last i op ts m : last_commit (apply_op i op ts m) = last_commit i.
Proof. destruct op as [ns k d [e|]|ns k]; cbn; destruct (head_live _); done. Qed.

Lemma apply_op_snaps i op ts m :
  active_snapshots (apply_op i op ts m) = active_snapshots i.
Proof. destruct op as [ns k d [e|]|ns k]; cbn; destruct (head_live _); done. Qed.

Lemma chain_of_insert i nk nk' c :
  default [] (<[nk := c]> (chains i) !! nk') = if decide (nk = nk') then c else chain_of i nk'.
Proof. rewrite lookup_insert. by case_decide. Qed.

Lemma latest_chains i i' nk : chain_of i nk = chain_of i' nk -> latest i nk = latest i' nk.
Proof. unfold latest. by intros ->. Qed.

Lemma apply_op_latest i op ts m nk :
  latest (apply_op i op ts m) nk
  = if decide (op_key op = nk) then op_result op else latest i nk.
Proof.
  unfold latest, chain_of. rewrite apply_op_chains, chain_of_insert.
  case_decide; [|done].
  destruct (prune_head (op_version op ts) (chain_of i (op_key op)) m) as [c' ->].
  by destruct op.
Qed.

Lemma head_live_latest i nk : head_live (chain_of i nk) = bool_decide (is_Some (latest i nk)).
Proof.
  unfold latest, head_live. destruct (chain_of i nk) as [|v c].
  - symmetry. apply bool_decide_eq_false. by intros [].
  - apply bool_decide_ext. rewrite fmap_is_Some. done.
Qed.

(** The live-key count when one chain is replaced. *)
Lemma count_fresh (mp : gmap NsKey Chain) nk c ns :
  mp !! nk = None ->
  Z.of_nat (size (filter (counts_for ns) (<[nk := c]> mp)))
  = Z.of_nat (size (filter (counts_for ns) mp))
    + (if nk.1 =? ns then b2z (head_live c) else 0).
Proof.
  intros Hn. rewrite map_filter_insert. case_decide as HP.
  - destruct HP as [Hns Hl]. simpl in *. rewrite (zeq_true _ _ Hns), Hl. cbn [b2z].
    rewrite map_size_insert_None; [lia|]. apply map_lookup_filter_None_2. by left.
  - rewrite delete_id by done. destruct (nk.1 =? ns) eqn:Hns; zbool; [|lia].
    destruct (head_live c) eqn:Hl; [|cbn; lia]. by destruct HP.
Qed.

Lemma live_count_insert i nk c ns :
  live_count (set_chains i (<[nk := c]> (chains i))) ns
  = live_count i ns
    + (if nk.1 =? ns then b2z (head_live c) - b2z (head_live (chain_of i nk)) else 0).
Proof.
  unfold live_count, chain_of. cbn [chains set_chains].
  rewrite <- insert_delete_eq, count_fresh by apply lookup_delete_eq.
  destruct (chains i !! nk) as [c0|] eqn:E; cbn [default from_option id].
  - rewrite <- (insert_delete_id (chains i) nk c0 E) at 2.
    rewrite count_fresh by apply lookup_delete_eq. destruct (nk.1 =? ns); lia.
  - rewrite delete_id by done. cbn. destruct (nk.1 =? ns); lia.
Qed.
End Ops.

(** ** The invariant is preserved *)

Section Preservation.
Implicit Types (i : Inner) (nk : NsKey) (op : WriteOp) (ts m b : TxnId) (c : Chain).

Lemma wf_chain_mono b b' c : b <= b' -> wf_chain b c -> wf_chain b' c.
Proof.
  intros Hb [Hne Hs Hbd Ht]. split; [done|done| |done].
  eapply Forall_impl; [exact Hbd|]. simpl. lia.
Qed.

Lemma chain_of_wf b i nk : wf_at b i -> chain_of i nk <> [] -> wf_chain b (chain_of i nk).
Proof.
  intros Hwf Hne. unfold chain_of in *. destruct (chains i !! nk) as [c|] eqn:E; [|done].
  by apply (wf_chains _ _ Hwf nk).
Qed.

Lemma live_count_ext i i' ns :
  (forall nk, head_live (chain_of i nk) = head_live (chain_of i' nk)) ->
  live_count i ns = live_count i' ns.
Proof.
  intros H. unfold live_count. f_equal. rewrite <- !(size_dom (D := gset NsKey)).
  f_equal. apply set_eq. intros nk. rewrite !elem_of_dom. specialize (H nk).
  unfold chain_of in H.
  assert (Hf : forall mp : gmap NsKey Chain,
    is_Some (filter (counts_for ns) mp !! nk)
    <-> nk.1 = ns /\ head_live (default [] (mp !! nk)) = true).
  { intros mp. split.
    - intros [c Hc]. apply map_lookup_filter_Some in Hc as [Hc [? ?]]. by rewrite Hc.
    - intros [Hns Hl]. destruct (mp !! nk) as [c|] eqn:E; [|done].
      exists c. by apply map_lookup_filter_Some. }
  by rewrite !Hf, H.
Qed.

Lemma live_count_ops i i' ns : chains i = chains i' -> live_count i ns = live_count i' ns.
Proof. unfold live_count. by intros ->. Qed.

Lemma apply_op_counts i op ts m ns :
  counts (apply_op i op ts m) !! ns
  = let d := b2z (head_live [op_version op ts]) - b2z (head_live (chain_of i (op_key op))) in
    if (((op_key op).1 =? ns) && negb (d =? 0))%bool
    then Some (default 0 (counts i !! ns) + d) else counts i !! ns.
Proof.
  destruct op as [n k d [e|]|n k]; cbn; destruct (head_live _); cbn;
    destruct (n =? ns) eqn:E; zbool; subst; cbn;
    rewrite ?lookup_insert_eq, ?lookup_insert_ne by done; done.
Qed.

Lemma apply_op_ttl i op ts m nk :
  ttl_index (apply_op i op ts m) !! nk
  = if decide (op_key op = nk) then op_result op ≫= snd else ttl_index i !! nk.
Proof.
  destruct op as [n k d [e|]|n k]; cbn; destruct (head_live _); cbn;
    rewrite ?lookup_insert, ?lookup_delete; by case_decide.
Qed.

Lemma apply_op_wf b i op ts m :
  wf_at b i -> b <= ts -> 0 < ts -> wf_at ts (apply_op i op ts m).
Proof.
  intros Hwf Hb Hts. split.
  - intros nk c. rewrite apply_op_chains, lookup_insert. case_decide.
    + intros [= <-]. apply wf_chain_push; [by destruct op|by destruct op| |by destruct op].
      intros Hne. apply (wf_chain_mono b); [done|]. by apply chain_of_wf.
    + intros Hc. apply (wf_chain_mono b); [done|]. by apply (wf_chains _ _ Hwf nk).
  - intros ns. rewrite (live_count_ops _
      (set_chains i (<[op_key op := prune (op_version op ts :: chain_of i (op_key op)) m]>
         (chains i)))) by apply apply_op_chains.
    rewrite live_count_insert, head_live_prune, <- (wf_counts _ _ Hwf), apply_op_counts.
    change (head_live (op_version op ts :: _)) with (head_live [op_version op ts]).
    cbv zeta. set (d := _ - _). destruct ((op_key op).1 =? ns); cbn [andb]; [|lia].
    destruct (d =? 0) eqn:Hd; zbool; cbn [negb default from_option id]; lia.
  - intros nk. rewrite apply_op_ttl, apply_op_latest. case_decide; [done|].
    apply (wf_ttl _ _ Hwf).
  - rewrite apply_op_last. pose proof (wf_last _ _ Hwf). lia.
Qed.

Lemma apply_ops_last i ops ts m : last_commit (apply_ops i ops ts m) = last_commit i.
Proof.
  revert i. induction ops as [|op ops IH]; intros i; [done|].
  etrans; [apply (IH (apply_op i op ts m))|apply apply_op_last].
Qed.

Lemma apply_ops_wf_at i ops ts m :
  wf_at ts i -> 0 < ts -> wf_at ts (apply_ops i ops ts m).
Proof.
  revert i. induction ops as [|op ops IH]; intros i Hwf Hts; [done|].
  apply IH; [|done]. by apply (apply_op_wf ts).
Qed.

Lemma wf_at_mono b b' i : b <= b' -> wf_at b i -> wf_at b' i.
Proof.
  intros Hb [Hc Hn Ht Hl]. split; [|done|done|lia].
  intros nk c H. apply (wf_chain_mono b); [done|]. by apply (Hc nk).
Qed.

(** Publishing a finished commit. *)
Lemma commit_wf i ops m :
  wf_inner i ->
  wf_inner (set_last_commit (apply_ops i ops (last_commit i + 1) m) (last_commit i + 1)).
Proof.
  intros Hwf. pose proof (wf_last _ _ Hwf).
  destruct (apply_ops_wf_at i ops (last_commit i + 1) m) as [Hc Hn Ht Hl]; [|lia|].
  - eapply wf_at_mono; [|exact Hwf]. lia.
  - split; [done|done|done|cbn; lia].
Qed.

(** *** Garbage collection *)

Lemma gc_chain_latest m c c' :
  gc_chain m c = Some c' -> exists v r r', c = v :: r /\ c' = v :: r' /\ c' = prune c m.
Proof.
  unfold gc_chain. destruct c as [|v r]; [done|].
  destruct (prune_head v r m) as [r' E]. rewrite E. case_match; [done|].
  intros [= <-]. eauto 7.
Qed.

Lemma gc_chain_None m c :
  gc_chain m c = None -> c = [] \/ exists v r, c = v :: r /\ value v = None /\ commit_ts v <= m.
Proof.
  unfold gc_chain. destruct c as [|v r]; [by left|].
  destruct (prune_head v r m) as [r' ->]. case_match; [|done]. zbool. intros _.
  right. eauto 7.
Qed.

(** One chain of the sweep. *)
Definition gc_one i m nk : Inner :=
  set_chains i (partial_alter (fun oc => oc ≫= gc_chain m) nk (chains i)).

Lemma gc_bind_latest i i' m nk :
  chains i' !! nk = chains i !! nk ≫= gc_chain m -> latest i' nk = latest i nk.
Proof.
  intros H. unfold latest, chain_of. rewrite H.
  destruct (chains i !! nk) as [c|]; [|done]. cbn [mbind option_bind].
  destruct (gc_chain m c) as [c'|] eqn:E.
  - by apply gc_chain_latest in E as (v & r & r' & -> & -> & _).
  - apply gc_chain_None in E as [->|(v & r & -> & Hv & _)]; [done|]. cbn. by rewrite Hv.
Qed.

Lemma wf_gc b i i' m :
  wf_at b i -> counts i' = counts i -> ttl_index i' = ttl_index i ->
  last_commit i' = last_commit i ->
  (forall nk, chains i' !! nk = chains i !! nk \/
              chains i' !! nk = chains i !! nk ≫= gc_chain m) ->
  wf_at b i'.
Proof.
  intros Hwf Hn Ht Hl Hc.
  assert (Hlat : forall nk, latest i' nk = latest i nk).
  { intros nk. destruct (Hc nk) as [H|H]; [|by eapply gc_bind_latest].
    apply latest_chains. unfold chain_of. by rewrite H. }
  split.
  - intros nk c Hlk. destruct (Hc nk) as [H|H]; rewrite H in Hlk; clear H;
      [by apply (wf_chains _ _ Hwf nk)|].
    destruct (chains i !! nk) as [c0|] eqn:E0; [|done]. cbn in Hlk.
    apply gc_chain_latest in Hlk as (v & r & r' & _ & _ & ->). apply wf_chain_prune.
    by apply (wf_chains _ _ Hwf nk).
  - intros ns. rewrite Hn, (wf_counts _ _ Hwf). apply live_count_ext.
    intros nk. by rewrite !head_live_latest, Hlat.
  - intros nk. rewrite Ht, Hlat. apply (wf_ttl _ _ Hwf).
  - rewrite Hl. apply (wf_last _ _ Hwf).
Qed.

Lemma gc_sweep_wf b i m : wf_at b i -> wf_at b (gc_sweep i m).
Proof.
  intros Hwf. apply (wf_gc b i _ m); [done..|]. intros nk. right. cbn. apply lookup_omap.
Qed.

Lemma gc_one_wf b i m nk : wf_at b i -> wf_at b (gc_one i m nk).
Proof.
  intros Hwf. apply (wf_gc b i _ m); [done..|]. intros nk'. cbn.
  destruct (decide (nk = nk')) as [<-|Hne].
  - right. apply lookup_partial_alter_eq.
  - left. by apply lookup_partial_alter_ne.
Qed.

Lemma inner_new_wf : wf_inner inner_new.
Proof. split; [done|done|done|cbn; lia]. Qed.
End Preservation.
