(* ===== verification/Isolation.v ===== *)
(** * Interleavings of the MVCC store: snapshot isolation, commits, WATCH

    [step] interleaves the sequencer thread, the collector thread and transactions that pin
    and drop snapshots (src/mvcc/mod.rs). Each step is one shared access of the code:

    - the sequencer reads the GC floor at the start of an iteration ([sequencer_loop]), then
      for each queued batch applies its effects one chain at a time ([apply_ops]) and only
      then publishes the new [last_commit];
    - the collector reads its own floor, then visits chains one at a time ([gc_loop]);
    - [pin_snapshot] loads [last_commit] and later registers what it loaded under the lock. The
      load changes nothing; the registration is the step [st_pin], at any timestamp that was
      loaded before. Whatever the threads do in between is between them. *)

From S2P Require Import Prelude Mvcc MvccFacts.

Record Sys := {
  s_inner : Inner;
  s_floor : option TxnId;                   (** [min_active] of the running iteration *)
  s_ops : option (TxnId * list WriteOp);    (** the effects still to apply, at their ts *)
  s_gc : option TxnId }.                    (** [min_active] of the running sweep *)

Definition sys_of (i : Inner) : Sys :=
  {| s_inner := i; s_floor := None; s_ops := None; s_gc := None |}.

Definition pinned (i : Inner) (ts : TxnId) : Prop := is_Some (active_snapshots i !! ts).

(** Everything but the pin. *)
Inductive base_step : Sys -> Sys -> Prop :=
| bs_iteration i g :
    base_step {| s_inner := i; s_floor := None; s_ops := None; s_gc := g |}
      {| s_inner := i; s_floor := Some (min_active_snapshot i); s_ops := None;
         s_gc := g |}
| bs_batch i m g ops :
    base_step {| s_inner := i; s_floor := Some m; s_ops := None; s_gc := g |}
      {| s_inner := i; s_floor := Some m; s_ops := Some (last_commit i + 1, ops);
         s_gc := g |}
| bs_op i m g ts op ops :
    base_step
      {| s_inner := i; s_floor := Some m; s_ops := Some (ts, op :: ops);
         s_gc := g |}
      {| s_inner := apply_op i op ts m; s_floor := Some m; s_ops := Some (ts, ops);
         s_gc := g |}
| bs_publish i m g ts :
    base_step
      {| s_inner := i; s_floor := Some m; s_ops := Some (ts, []); s_gc := g |}
      {| s_inner := set_last_commit i ts; s_floor := Some m; s_ops := None;
         s_gc := g |}
| bs_iteration_end i m g :
    base_step {| s_inner := i; s_floor := Some m; s_ops := None; s_gc := g |}
      {| s_inner := i; s_floor := None; s_ops := None; s_gc := g |}
| bs_gc_begin i f o :
    base_step {| s_inner := i; s_floor := f; s_ops := o; s_gc := None |}
      {| s_inner := i; s_floor := f; s_ops := o; s_gc := Some (min_active_snapshot i) |}
| bs_gc_chain i f o m nk :
    base_step {| s_inner := i; s_floor := f; s_ops := o; s_gc := Some m |}
      {| s_inner := gc_one i m nk; s_floor := f; s_ops := o; s_gc := Some m |}
| bs_gc_end i f o m :
    base_step {| s_inner := i; s_floor := f; s_ops := o; s_gc := Some m |}
      {| s_inner := i; s_floor := f; s_ops := o; s_gc := None |}
| bs_drop i f o g ts :
    pinned i ts ->
    base_step {| s_inner := i; s_floor := f; s_ops := o; s_gc := g |}
      {| s_inner := snapshot_drop i ts; s_floor := f; s_ops := o; s_gc := g |}.

(** The registration of a snapshot. Its timestamp was read from [last_commit] at some earlier
    moment, and [last_commit] only grows. *)
Inductive step : Sys -> Sys -> Prop :=
| st_base s s' : base_step s s' -> step s s'
| st_pin i f o g ts :
    ts <= last_commit i ->
    step {| s_inner := i; s_floor := f; s_ops := o; s_gc := g |}
      {| s_inner := pin_insert i ts; s_floor := f; s_ops := o; s_gc := g |}.

(** No iteration and no sweep that runs has read a floor above [ts]. *)
Definition guarded (s : Sys) (ts : TxnId) : Prop :=
  (forall m, s_floor s = Some m -> m <= ts) /\ (forall m, s_gc s = Some m -> m <= ts).

(** A step between the load of [ts] and its registration that begins no iteration and no sweep
    with a floor above it. *)
Definition window_step (ts : TxnId) (s s' : Sys) : Prop := step s s' /\ guarded s' ts.

(** Runs during which the snapshot [ts] stays pinned. *)
Inductive run_pinned (ts : TxnId) : Sys -> Sys -> Prop :=
| rp_refl s : run_pinned ts s s
| rp_step s1 s2 s3 :
    pinned (s_inner s1) ts -> step s1 s2 -> run_pinned ts s2 s3 -> run_pinned ts s1 s3.

(** ** The system invariant *)

Record sys_ok (s : Sys) : Prop := {
  ok_wf : match s_ops s with
          | Some (ts, _) => wf_at ts (s_inner s) /\ ts = last_commit (s_inner s) + 1 /\
                            is_Some (s_floor s)
          | None => wf_inner (s_inner s)
          end;
  ok_pins : forall ts, pinned (s_inner s) ts -> ts <= last_commit (s_inner s);
  ok_floor : forall m, s_floor s = Some m -> m <= last_commit (s_inner s);
  ok_gc : forall m, s_gc s = Some m -> m <= last_commit (s_inner s) }.

Section SysFacts.
Implicit Types (i : Inner) (ts m : TxnId) (nk : NsKey) (s : Sys).

Lemma min_list_le (l : list Z) a :
  foldr (fun k acc => Some (match acc with Some a => Z.min k a | None => k end)) None l
  = Some a -> a ∈ l /\ forall k, k ∈ l -> a <= k.
Proof.
  revert a. induction l as [|x l IH]; intros a H; [done|]. cbn in H.
  destruct (foldr _ None l) as [b|] eqn:E; simplify_eq.
  - destruct (IH b eq_refl) as [Hin Hle]. split.
    + apply elem_of_cons. destruct (Z.min_spec x b) as [[_ ->]|[_ ->]]; [by left|by right].
    + intros k [->|Hk]%elem_of_cons; [lia|]. specialize (Hle k Hk). lia.
  - destruct l; [|done]. split; [by apply elem_of_cons; left|]. intros k [->|Hk]%elem_of_cons; [lia|].
    by apply elem_of_nil in Hk.
Qed.

Lemma min_list_None (l : list Z) :
  foldr (fun k acc => Some (match acc with Some a => Z.min k a | None => k end)) None l
  = None -> l = [].
Proof. by destruct l. Qed.

Lemma min_active_floor i :
  (forall ts, pinned i ts -> ts <= last_commit i) ->
  min_active_snapshot i <= last_commit i /\
  forall ts, pinned i ts -> min_active_snapshot i <= ts.
Proof.
  intros Hp. unfold min_active_snapshot, min_key.
  destruct (foldr _ _ _) as [a|] eqn:E; cbn [default from_option id].
  - apply min_list_le in E as [Hin Hle]. split.
    + apply Hp. apply list_elem_of_fmap in Hin as ([k c] & -> & Hk).
      apply elem_of_map_to_list in Hk. by exists c.
    + intros ts [c Hc]. apply Hle, list_elem_of_fmap. exists (ts, c).
      split; [done|]. by apply elem_of_map_to_list.
  - apply min_list_None in E. split; [lia|]. intros ts [c Hc].
    apply elem_of_map_to_list in Hc.
    assert (ts ∈ (map_to_list (active_snapshots i)).*1) as H; [|rewrite E in H; by apply elem_of_nil in H].
    apply list_elem_of_fmap. by exists (ts, c).
Qed.

Lemma pinned_drop i ts ts' : pinned (snapshot_drop i ts) ts' -> pinned i ts'.
Proof.
  unfold snapshot_drop, pinned. destruct (active_snapshots i !! ts) as [c|] eqn:E; [|done].
  destruct (c - 1 =? 0); cbn.
  - by intros [? [_ ?]%lookup_delete_Some].
  - rewrite lookup_insert. case_decide; [subst; by rewrite E|done].
Qed.

Lemma pinned_insert i ts ts' : pinned (pin_insert i ts) ts' <-> ts' = ts \/ pinned i ts'.
Proof.
  unfold pinned. cbn. rewrite lookup_insert. case_decide as Hd; [subst; split; [by left|by eexists]|].
  split; [by right|intros [?|?]; [by subst|done]].
Qed.

Lemma drop_chains i ts : chains (snapshot_drop i ts) = chains i.
Proof. unfold snapshot_drop. repeat case_match; done. Qed.
Lemma drop_last i ts : last_commit (snapshot_drop i ts) = last_commit i.
Proof. unfold snapshot_drop. repeat case_match; done. Qed.

Lemma wf_at_snaps b i snaps : wf_at b i -> wf_at b (set_snapshots i snaps).
Proof. by intros []. Qed.
Lemma drop_wf b i ts : wf_at b i -> wf_at b (snapshot_drop i ts).
Proof. intros []. unfold snapshot_drop. repeat case_match; by split. Qed.

Lemma sys_of_ok i : wf_inner i -> active_snapshots i = ∅ -> sys_ok (sys_of i).
Proof.
  intros Hwf Ha. split; cbn; [done| |done|done]. unfold pinned. rewrite Ha. by intros ts [].
Qed.

Lemma base_step_ok s s' : sys_ok s -> base_step s s' -> sys_ok s'.
Proof.
  intros [Hwf Hp Hf Hg] Hs. destruct Hs; cbn in *.
  - split; cbn; [done|done| |done]. intros ? [= <-]. exact (proj1 (min_active_floor _ Hp)).
  - split; cbn; [|done..]. pose proof (wf_last _ _ Hwf). split; [|by eauto].
    eapply wf_at_mono; [|exact Hwf]. lia.
  - destruct Hwf as (Hwf & Hts & _). pose proof (wf_last _ _ Hwf).
    split; cbn; unfold pinned in *; rewrite ?apply_op_last, ?apply_op_snaps; try done.
    split; [|by eauto]. by apply (apply_op_wf ts); [|lia|lia].
  - destruct Hwf as (Hwf & Hts & _). pose proof (wf_last _ _ Hwf).
    split; cbn in *; unfold pinned in *; cbn.
    + destruct Hwf as [Hc Hn Ht Hl]. split; [done..|cbn; lia].
    + intros t Ht. specialize (Hp t Ht). lia.
    + intros m0 [= <-]. specialize (Hf m eq_refl). lia.
    + intros m0 Hm. specialize (Hg m0 Hm). lia.
  - by split.
  - split; cbn; [done..|]. intros ? [= <-]. exact (proj1 (min_active_floor _ Hp)).
  - split; cbn; [|done..]. destruct o as [[ts ops]|].
    + destruct Hwf as (? & ? & ?). split; [by apply gc_one_wf|done].
    + by apply gc_one_wf.
  - by split.
  - split; cbn; rewrite ?drop_last; [|intros t Ht%pinned_drop; by apply Hp|done|done].
    destruct o as [[ts' ops]|]; [destruct Hwf as (? & ? & ?)|];
      [split; [by apply drop_wf|done]|].
    unfold wf_inner. rewrite drop_last. by apply drop_wf.
Qed.

Lemma step_ok s s' : sys_ok s -> step s s' -> sys_ok s'.
Proof.
  intros Hok Hs. destruct Hs as [s s' Hs|i f o g ts Hts]; [by eapply base_step_ok|].
  destruct Hok as [Hwf Hp Hf Hg]. cbn in *. split; cbn; [|..|done|done].
  - destruct o as [[t ops]|]; [destruct Hwf as (? & ? & ?)|].
    + split; [by apply wf_at_snaps|done].
    + by apply wf_at_snaps.
  - intros t [->|Ht]%pinned_insert; [done|by apply Hp].
Qed.

Lemma steps_ok s s' : sys_ok s -> rtc step s s' -> sys_ok s'.
Proof. intros Hok Hr. induction Hr as [|s1 s2 s3 Hs _ IH]; [done|]. apply IH. by eapply step_ok. Qed.

Lemma step_last s s' : sys_ok s -> step s s' -> last_commit (s_inner s) <= last_commit (s_inner s').
Proof.
  intros Hok Hs. destruct Hs as [s s' Hs|i f o g ts Hts]; [|done]. destruct Hs; cbn; try lia.
  - by rewrite apply_op_last.
  - destruct (ok_wf _ Hok) as (_ & -> & _). cbn. lia.
  - by rewrite drop_last.
Qed.

(** What a transaction loads is guarded at that moment. *)
Lemma guarded_at_load s : sys_ok s -> guarded s (current_ts (s_inner s)).
Proof. intros Hok. split; intros m Hm; [by apply (ok_floor s Hok)|by apply (ok_gc s Hok)]. Qed.

(** A registered snapshot that is guarded stays so: the floors read from then on are not above it. *)
Lemma guarded_step s s' ts :
  sys_ok s -> step s s' -> pinned (s_inner s) ts -> guarded s ts -> guarded s' ts.
Proof.
  intros Hok Hs Hp [Hf Hg]. destruct Hs as [s s' Hs|i f o g t Ht]; [|by split].
  pose proof (min_active_floor (s_inner s) (ok_pins s Hok)) as [_ Hm].
  destruct Hs; cbn in *; split; cbn; try done; intros m' [= <-]; first [by apply Hm|by apply Hf|by apply Hg].
Qed.

(** *** Reads at a snapshot *)

(** What a read at [ts] sees of a key, before the expiry test. *)
Definition seen i nk ts : option (Datum * option Z) :=
  v ← visible_at (chain_of i nk) ts; (fun d => (d, expires_at_ms v)) <$> value v.

Lemma seen_get_at i ns k ts now :
  get_at i ns k ts now
  = match seen i (ns, k) ts with
    | Some (d, e) => if is_expired e now then None else Some d
    | None => None
    end.
Proof.
  unfold get_at, seen, chain_of. destruct (chains i !! (ns, k)) as [c|]; [|done]. cbn.
  destruct (visible_at c ts) as [v|]; [|done]. cbn.
  destruct (value v) as [d|]; cbn; by destruct (is_expired _ _).
Qed.

Lemma seen_apply_op i op t m ts nk :
  m <= ts -> ts < t -> seen (apply_op i op t m) nk ts = seen i nk ts.
Proof.
  intros Hm Ht. unfold seen, chain_of. rewrite apply_op_chains, chain_of_insert.
  case_decide as Hk; [|done]. subst. rewrite prune_visible by done. cbn [visible_at].
  replace (commit_ts (op_version op t)) with t by (by destruct op).
  by rewrite zle_false.
Qed.

Lemma seen_gc_one i m nk' ts nk : m <= ts -> seen (gc_one i m nk') nk ts = seen i nk ts.
Proof.
  intros Hm. unfold seen, chain_of. cbn.
  destruct (decide (nk' = nk)) as [->|Hne]; [|by rewrite lookup_partial_alter_ne].
  rewrite lookup_partial_alter_eq. destruct (chains i !! nk) as [c|]; [|done]. cbn.
  destruct (gc_chain m c) as [c'|] eqn:E; cbn.
  - apply gc_chain_latest in E as (v & r & r' & -> & _ & ->). by rewrite prune_visible.
  - apply gc_chain_None in E as [->|(v & r & -> & Hv & Hts)]; [done|].
    cbn. rewrite zle_true by lia. cbn. by rewrite Hv.
Qed.

Lemma seen_chains i i' nk ts : chains i = chains i' -> seen i nk ts = seen i' nk ts.
Proof. unfold seen, chain_of. by intros ->. Qed.

Lemma step_seen s s' ts nk :
  sys_ok s -> step s s' -> ts <= last_commit (s_inner s) -> guarded s ts ->
  seen (s_inner s') nk ts = seen (s_inner s) nk ts.
Proof.
  intros Hok Hs Hp [Hf Hg]. destruct Hs as [s s' Hs|i f o g t _]; [|done].
  pose proof (ok_wf s Hok) as Hwf. destruct Hs; cbn in *; try done.
  - destruct Hwf as (_ & -> & _). apply seen_apply_op; [by apply Hf|lia].
  - apply seen_gc_one. by apply Hg.
  - apply seen_chains, drop_chains.
Qed.

Lemma run_ok ts s s' : sys_ok s -> run_pinned ts s s' -> sys_ok s'.
Proof. intros Hok H. induction H; [done|]. apply IHrun_pinned. by eapply step_ok. Qed.

Lemma run_seen ts s s' nk :
  sys_ok s -> guarded s ts -> run_pinned ts s s' -> seen (s_inner s') nk ts = seen (s_inner s) nk ts.
Proof.
  intros Hok Hg H. induction H as [s|s1 s2 s3 Hp Hs Hr IH]; [done|].
  rewrite IH by eauto using step_ok, guarded_step. eapply step_seen; [done..| |done]. by apply (ok_pins s1 Hok).
Qed.

(** From the load on, through the window. *)
Lemma window_seen ts s s' nk :
  sys_ok s -> guarded s ts -> ts <= last_commit (s_inner s) -> rtc (window_step ts) s s' ->
  sys_ok s' /\ guarded s' ts /\ seen (s_inner s') nk ts = seen (s_inner s) nk ts.
Proof.
  intros Hok Hg Hl Hr. induction Hr as [s|s1 s2 s3 [Hs Hg'] _ IH]; [done|].
  destruct IH as (H1 & H2 & H3); [by eapply step_ok|done|pose proof (step_last _ _ Hok Hs); lia|].
  split; [done|]. split; [done|]. rewrite H3. by eapply step_seen.
Qed.

(** *** Commits *)

Lemma head_visible c ts : head_ts c <= ts -> c <> [] -> visible_at c ts = head c.
Proof. destruct c as [|v c]; [done|]. cbn. intros H _. by rewrite zle_true. Qed.

Lemma seen_head i nk ts : head_ts (chain_of i nk) <= ts -> seen i nk ts = latest i nk.
Proof.
  intros H. unfold seen, latest. destruct (chain_of i nk) as [|v c] eqn:E; [done|].
  rewrite head_visible by done. done.
Qed.

Lemma no_conflict_head i req nk :
  has_conflict i req = false -> nk ∈ conflict_keys req ->
  0 <= read_ts req -> head_ts (chain_of i nk) <= read_ts req.
Proof.
  unfold has_conflict. intros H Hin Hr. unfold chain_of.
  destruct (decide (head_ts (default [] (chains i !! nk)) <= read_ts req)) as [|Hgt]; [done|].
  assert (existsb (fun nk => read_ts req <? match chains i !! nk with
                                            | Some c => head_ts c | None => 0 end)
            (conflict_keys req) = true) as He; [|congruence].
  apply existsb_exists. exists nk. split; [by apply list_elem_of_In|].
  destruct (chains i !! nk) as [c|]; cbn in *; apply Z.ltb_lt; lia.
Qed.
End SysFacts.

(** ** The writer refines its view *)

Section WriterFacts.
Implicit Types (w : Writer) (nk : NsKey) (ops : list WriteOp).

(** The binding a list of effects leaves for a key, [None] when it does not touch it. *)
Definition last_result (nk : NsKey) : list WriteOp -> option (option (Datum * option Z)) :=
  foldl (fun acc op => if decide (op_key op = nk) then Some (op_result op) else acc) None.

Definition writer_ok w : Prop := forall nk, overlay w !! nk = last_result nk (staged w).

Lemma apply_ops_latest i ops ts m nk :
  latest (apply_ops i ops ts m) nk = default (latest i nk) (last_result nk ops).
Proof.
  unfold apply_ops, last_result. induction ops as [|op ops IH] using rev_ind; [done|].
  rewrite !foldl_snoc. rewrite apply_op_latest, IH. by case_decide.
Qed.

Lemma writer_new_ok i now : writer_ok (writer_new i now).
Proof. done. Qed.

Lemma stage_ok w op : writer_ok w -> writer_ok (stage w op (op_result op)).
Proof.
  intros Hw nk. cbn. unfold last_result. rewrite foldl_snoc, lookup_insert, Hw.
  by case_decide.
Qed.

(** A closure of the sequencer: it only stages effects. *)
Definition writer_prog {A} (f : st Writer A) : Prop :=
  forall w, writer_ok w -> writer_ok (snd (f w)) /\ w_inner (snd (f w)) = w_inner w.

Lemma put_prog ns k d e : writer_prog (fun w => (tt, writer_put ns k d e w)).
Proof. intros w Hw. split; [by apply (stage_ok w (Put ns k d e))|done]. Qed.

Lemma del_prog ns k : writer_prog (writer_del ns k).
Proof. intros w Hw. split; [by apply (stage_ok w (Del ns k))|done]. Qed.

Lemma get_prog ns k : writer_prog (writer_get ns k).
Proof.
  intros w Hw. unfold writer_get. repeat (case_match; try done). by apply del_prog.
Qed.

Lemma mbind_prog {A B} (m : st Writer A) (f : A -> st Writer B) :
  writer_prog m -> (forall a, writer_prog (f a)) -> writer_prog (m ≫= f).
Proof.
  intros Hm Hf w Hw. destruct (Hm w Hw) as [H1 H2].
  unfold mbind, st_mbind. destruct (m w) as [a w1]. cbn in *.
  destruct (Hf a w1 H1) as [H3 H4]. split; [done|]. by rewrite H4.
Qed.

Lemma mret_prog {A} (a : A) : writer_prog (mret a).
Proof. by intros w Hw. Qed.

Lemma writer_ok_latest w ts m nk :
  writer_ok w -> latest (apply_ops (w_inner w) (staged w) ts m) nk = wview w nk.
Proof.
  intros Hw. rewrite apply_ops_latest. unfold wview. rewrite Hw. by case_match.
Qed.

(** The committed state after a closure is the view its writer had. *)
Lemma seq_apply_latest {A} i m now (f : st Writer A) nk :
  writer_prog f ->
  latest (snd (fst (seq_apply i m now f))) nk = wview (snd (f (writer_new i now))) nk.
Proof.
  intros Hf. unfold seq_apply.
  destruct (Hf (writer_new i now) (writer_new_ok i now)) as [Hok Hin].
  destruct (f (writer_new i now)) as [a w]. cbn in *.
  pose proof (writer_ok_latest w (last_commit i + 1) m nk Hok) as Hl. rewrite Hin in Hl.
  destruct (staged w) as [|op ops]; [done|]. exact Hl.
Qed.

Lemma latest_publish i ts nk : latest (set_last_commit i ts) nk = latest i nk.
Proof. done. Qed.
End WriterFacts.

(** The WATCH test of EXEC (src/redis/mod.rs): every watched key still has its head at or
    below the timestamp recorded by WATCH. *)
Definition watch_ok (w : Writer) (watch : list NsKey) (watch_ts : TxnId) : bool :=
  forallb (fun nk => negb (watch_ts <? writer_head_ts w nk.1 nk.2)) watch.

(** ** Properties *)

(** In every reachable state between two commits, the counter behind DBSIZE equals the
    number of live keys of each namespace, and the active-expiry index holds exactly the
    expiry of each live key that has one. *)
Theorem reachable_counts_and_ttl s :
  rtc step (sys_of inner_new) s -> s_ops s = None ->
  (forall ns, default 0 (counts (s_inner s) !! ns) = live_count (s_inner s) ns) /\
  (forall nk, ttl_index (s_inner s) !! nk = latest (s_inner s) nk ≫= snd).
Proof.
  intros Hr Ho.
  assert (sys_ok s) as [Hwf _ _ _].
  { assert (H0 : sys_ok (sys_of inner_new)) by (by apply sys_of_ok; [apply inner_new_wf|]).
    revert H0. clear Ho. induction Hr as [|s1 s2 s3 Hs Hr IH]; [done|].
    intros H0. apply IH. by eapply step_ok. }
  rewrite Ho in Hwf. split; apply Hwf.
Qed.

(** C3: snapshot isolation. A transaction loads its timestamp at [s0], is registered at [s1],
    and stays registered until [s2]. If no sequencer iteration and no sweep reads a higher floor
    between the load and the registration (see [pin_race_loses_snapshot] for when one does), then
    whatever commits are applied and published, chains collected and other snapshots registered
    and dropped meanwhile, each read at that timestamp returns at [s2] what it returned at [s0],
    for any key and at any clock. *)
Theorem snapshot_isolation s0 s1 s2 ns k now :
  let ts := current_ts (s_inner s0) in
  sys_ok s0 -> rtc (window_step ts) s0 s1 -> run_pinned ts s1 s2 ->
  get_at (s_inner s2) ns k ts now = get_at (s_inner s0) ns k ts now.
Proof.
  intros ts Hok Hw Hr. rewrite !seen_get_at. subst ts.
  destruct (window_seen _ _ _ (ns, k) Hok (guarded_at_load _ Hok) ltac:(done) Hw) as (H1 & H2 & <-).
  by rewrite (run_seen _ s1 s2).
Qed.

(** The value a transaction read is still the newest value when its commit is
    accepted: if a transaction reads at its guarded, pinned snapshot and the sequencer later accepts
    its commit, every key in its conflict set still has, as its newest version, exactly what
    the snapshot showed (first committer wins, no lost update). *)
Theorem first_committer_wins s s' m req t i' rec nk :
  sys_ok s -> guarded s (read_ts req) -> run_pinned (read_ts req) s s' -> 0 <= read_ts req ->
  seq_commit (s_inner s') m req = (Ok t, i', rec) -> nk ∈ conflict_keys req ->
  latest (s_inner s') nk = seen (s_inner s) nk (read_ts req).
Proof.
  intros Hok Hg Hr Hts Hc Hin. rewrite <- (run_seen _ _ _ nk Hok Hg Hr). symmetry.
  apply seen_head. apply no_conflict_head; [|done|done].
  unfold seq_commit in Hc. by destruct (has_conflict _ _).
Qed.

(** A commit is all or nothing. A refused one changes no state and logs nothing; an
    accepted one installs, for every key, the last of its effects on that key and leaves
    every other key alone, at the next timestamp, and the record logged is exactly those
    effects. *)
Theorem seq_commit_atomic i m req :
  match seq_commit i m req with
  | (Err _, i', rec) => i' = i /\ rec = None
  | (Ok t, i', rec) =>
      t = last_commit i + 1 /\
      (forall nk, latest i' nk = default (latest i nk) (last_result nk (writes req))) /\
      match rec with
      | Some r => rec_ts r = t /\ rec_ops r = writes req /\ last_commit i' = t
      | None => writes req = [] /\ i' = i
      end
  end.
Proof.
  unfold seq_commit. destruct (has_conflict i req); [done|].
  destruct (writes req) as [|op ops] eqn:E; [done|]. split; [done|]. split; [|done].
  intros nk. rewrite latest_publish. apply apply_ops_latest.
Qed.

(** What a closure saw is what it commits. For every closure that acts through the
    writer, the committed state after its batch is, key by key, the view the writer had
    when the closure returned: staged effects win over committed values, reads inside the
    batch included lazy deletions, and nothing else changes. *)
Theorem seq_apply_refines {A} i m now (f : st Writer A) a i' rec nk :
  writer_prog f -> seq_apply i m now f = (a, i', rec) ->
  latest i' nk = wview (snd (f (writer_new i now))) nk.
Proof.
  intros Hf H. rewrite <- (seq_apply_latest i m now f nk Hf). by rewrite H.
Qed.

(** [pin_snapshot] as written is not atomic: a transaction that has loaded its timestamp (at
    [s]) but not yet registered it (from [s1] to [s2]) does not hold back pruning. Two sequencer
    iterations in that window remove the version it should read, and it then reads the key
    as absent. *)
Theorem pin_race_loses_snapshot :
  exists s s1 s2 nk ts d,
    rtc step (sys_of inner_new) s /\ ts = current_ts (s_inner s) /\
    seen (s_inner s) nk ts = Some (d, None) /\
    rtc step s s1 /\ s2 = sys_of (pin_insert (s_inner s1) ts) /\ step s1 s2 /\
    seen (s_inner s2) nk ts = None.
Proof.
  set (k := bs "k"). set (put n := Put 0 k (DStr (dec n)) None).
  set (i1 := set_last_commit (apply_op inner_new (put 1) 1 0) 1).
  set (i2 := set_last_commit (apply_op i1 (put 2) 2 1) 2).
  set (i3 := set_last_commit (apply_op i2 (put 3) 3 2) 3).
  assert (Hiter : forall i n, rtc step (sys_of i)
    (sys_of (set_last_commit (apply_op i (put n) (last_commit i + 1)
               (min_active_snapshot i)) (last_commit i + 1)))).
  { intros i n.
    eapply rtc_l; [apply st_base, bs_iteration|].
    eapply rtc_l; [apply st_base, (bs_batch _ _ _ [put n])|].
    eapply rtc_l; [apply st_base, bs_op|].
    eapply rtc_l; [apply st_base, bs_publish|].
    eapply rtc_l; [apply st_base, bs_iteration_end|]. constructor. }
  exists (sys_of i1), (sys_of i3), (sys_of (pin_insert i3 1)), (0, k), 1, (DStr (dec 1)).
  split; [apply (Hiter inner_new 1)|]. split; [done|]. split; [vm_compute; reflexivity|].
  split; [etrans; [apply (Hiter i1 2)|apply (Hiter i2 3)]|]. split; [done|].
  split; [|vm_compute; reflexivity]. apply st_pin. vm_compute. discriminate.
Qed.

(** WATCH misses a deletion that was collected. A watched key deleted by another
    client fails the EXEC test until the collector drops its tombstone; after the sweep the
    test passes although the key changed since WATCH. *)
Theorem watch_misses_collected_delete :
  exists i1 i2 i3 nk,
    (** WATCH ran at [i1], where the key is live *)
    wf_inner i1 /\ is_Some (latest i1 nk) /\
    (** another client deleted it *)
    i2 = snd (fst (seq_apply i1 (min_active_snapshot i1) 0 (writer_del nk.1 nk.2))) /\
    latest i2 nk = None /\ watch_ok (writer_new i2 0) [nk] (current_ts i1) = false /\
    (** the collector swept *)
    i3 = gc_sweep i2 (min_active_snapshot i2) /\
    latest i3 nk = None /\ watch_ok (writer_new i3 0) [nk] (current_ts i1) = true.
Proof.
  set (nk := (0, bs "k")).
  set (i1 := snd (fst (seq_commit inner_new 0
    {| read_ts := 0; writes := [Put 0 (bs "k") (DStr []) None]; conflict_keys := [] |}))).
  exists i1. eexists _, _, nk.
  split; [apply (commit_wf inner_new [Put 0 (bs "k") (DStr []) None] 0), inner_new_wf|].
  split; [by vm_compute; eexists|]. split; [reflexivity|].
  split; [by vm_compute|]. split; [by vm_compute|]. split; [reflexivity|].
  split; by vm_compute.
Qed.

(** ** Witnesses *)

Definition demo_store : Inner :=
  set_last_commit (apply_op inner_new (Put 0 (bs "k") (DStr (bs "v")) None) 1 0) 1.

Lemma demo_store_wf : wf_inner demo_store.
Proof. apply (commit_wf inner_new [Put 0 (bs "k") (DStr (bs "v")) None] 0), inner_new_wf. Qed.

(** The store with one snapshot pinned at 1, and the same after a whole iteration that
    overwrites the key and a sweep of its chain. *)
Definition demo_sys : Sys := sys_of (pin_insert demo_store 1).

Definition demo_sys_after : Sys :=
  {| s_inner := gc_one (set_last_commit
       (apply_op (pin_insert demo_store 1) (Put 0 (bs "k") (DStr (bs "w")) None) 2 1) 2)
       1 (0, bs "k");
     s_floor := Some 1; s_ops := None; s_gc := Some 1 |}.

Lemma demo_store_ok : sys_ok (sys_of demo_store).
Proof. by apply sys_of_ok; [apply demo_store_wf|]. Qed.

Lemma demo_pin : step (sys_of demo_store) demo_sys.
Proof. by apply (st_pin demo_store). Qed.

Lemma demo_sys_ok : sys_ok demo_sys.
Proof. exact (step_ok _ _ demo_store_ok demo_pin). Qed.

Lemma demo_guarded : guarded demo_sys 1.
Proof. by split. Qed.

Lemma demo_run : run_pinned 1 demo_sys demo_sys_after.
Proof.
  eapply rp_step; [by vm_compute; eexists|apply st_base, bs_iteration|].
  eapply rp_step; [by vm_compute; eexists|
    apply st_base, (bs_batch _ _ _ [Put 0 (bs "k") (DStr (bs "w")) None])|].
  eapply rp_step; [by vm_compute; eexists|apply st_base, bs_op|].
  eapply rp_step; [by vm_compute; eexists|apply st_base, bs_publish|].
  eapply rp_step; [by vm_compute; eexists|apply st_base, bs_gc_begin|].
  eapply rp_step; [by vm_compute; eexists|apply st_base, (bs_gc_chain _ _ _ _ (0, bs "k"))|].
  apply rp_refl.
Qed.

Lemma demo_rtc : rtc step (sys_of inner_new) (sys_of demo_store).
Proof.
  eapply rtc_l; [apply st_base, bs_iteration|].
  eapply rtc_l; [apply st_base, (bs_batch _ _ _ [Put 0 (bs "k") (DStr (bs "v")) None])|].
  eapply rtc_l; [apply st_base, bs_op|].
  eapply rtc_l; [apply st_base, bs_publish|].
  eapply rtc_l; [apply st_base, bs_iteration_end|]. constructor.
Qed.

Lemma reachable_counts_and_ttl_witness :
  default 0 (counts demo_store !! 0) = live_count demo_store 0 /\ live_count demo_store 0 = 1.
Proof.
  split; [|by vm_compute].
  apply (reachable_counts_and_ttl (sys_of demo_store) demo_rtc eq_refl).
Defined.

Lemma snapshot_isolation_witness :
  get_at (s_inner demo_sys_after) 0 (bs "k") 1 0 = Some (DStr (bs "v")).
Proof.
  etransitivity.
  - apply (snapshot_isolation (sys_of demo_store) demo_sys demo_sys_after 0 (bs "k") 0 demo_store_ok).
    + apply rtc_once. split; [exact demo_pin|exact demo_guarded].
    + exact demo_run.
  - by vm_compute.
Defined.

Definition demo_req : CommitRequest :=
  {| read_ts := 1; writes := [Put 0 (bs "k") (DStr (bs "x")) None];
     conflict_keys := [(0, bs "k")] |}.

Lemma first_committer_wins_witness :
  latest (s_inner demo_sys) (0, bs "k") = seen (s_inner demo_sys) (0, bs "k") 1.
Proof.
  apply (first_committer_wins demo_sys demo_sys 1 demo_req 2
           (snd (fst (seq_commit (s_inner demo_sys) 1 demo_req)))
           (snd (seq_commit (s_inner demo_sys) 1 demo_req)) (0, bs "k") demo_sys_ok).
  - exact demo_guarded.
  - apply rp_refl.
  - vm_compute. discriminate.
  - reflexivity.
  - apply elem_of_cons. left. reflexivity.
Defined.

Lemma seq_apply_refines_witness :
  latest (snd (fst (seq_apply demo_store 1 0 (writer_del 0 (bs "k"))))) (0, bs "k") = None.
Proof.
  etransitivity.
  - apply (seq_apply_refines demo_store 1 0 (writer_del 0 (bs "k"))
             (fst (fst (seq_apply demo_store 1 0 (writer_del 0 (bs "k"))))) _
             (snd (seq_apply demo_store 1 0 (writer_del 0 (bs "k")))) (0, bs "k")
             (del_prog 0 (bs "k"))).
    reflexivity.
  - by vm_compute.
Defined.
