(* ===== verification/Aof.v ===== *)
(** * The append-only file, snapshots and recovery (src/mvcc/aof.rs, src/mvcc/mod.rs)

    Record framing, replay, the SAVE protocol and the sequencer iteration with its group
    commit. MessagePack ([rmp_serde]) and CRC-32 ([crc32fast]) are the class [Codec]; what
    the code relies on of them is [CodecLaws]. A file is the list of its bytes; of a
    writer's file the first [aw_durable] bytes have been synced. I/O errors other than a
    missing file are not modelled. *)

From S2P Require Import Prelude Mvcc MvccFacts Isolation.

Definition SNAP_MAGIC : Bytes := bs "NSNP1".
Definition MAX_RECORD : Z := 64 * 1024 * 1024.

Record SnapEntry := {
  se_ns : Z;
  se_key : Bytes;
  se_value : Datum;
  se_expires_at_ms : option Z }.

Record SnapFile := { sf_ts : Z; sf_entries : list SnapEntry }.

(** [rmp_serde::to_vec], [rmp_serde::from_slice] and [crc32fast::hash]. *)
Class Codec := {
  rmp_to_vec : AofRecord -> option Bytes;
  rmp_from_slice : Bytes -> option AofRecord;
  snap_to_vec : SnapFile -> option Bytes;
  snap_from_slice : Bytes -> option SnapFile;
  crc32 : Bytes -> Z }.

(** Decoding inverts encoding, an encoded structure is not empty, a CRC is a [u32]. *)
Class CodecLaws (C : Codec) : Prop := {
  rmp_roundtrip r p : rmp_to_vec r = Some p -> rmp_from_slice p = Some r;
  rmp_nonempty r p : rmp_to_vec r = Some p -> p <> [];
  snap_roundtrip s p : snap_to_vec s = Some p -> snap_from_slice p = Some s;
  crc_range b : 0 <= crc32 b < 2 ^ 32 }.

(** ** Framing *)

(** [u32::to_le_bytes] and [u32::from_le_bytes] *)
Definition to_le_bytes (n : Z) : Bytes :=
  [n mod 256; n / 2 ^ 8 mod 256; n / 2 ^ 16 mod 256; n / 2 ^ 24 mod 256].

Definition from_le_bytes (b0 b1 b2 b3 : Z) : Z :=
  b0 + b1 * 2 ^ 8 + b2 * 2 ^ 16 + b3 * 2 ^ 24.

Inductive FsyncPolicy : Type := Always | EverySec | No.
#[export] Instance fsync_eq_dec : EqDecision FsyncPolicy.
Proof. solve_decision. Defined.

(** The writer with its file; [last_sync] is the instant of the last sync, in ms. *)
Record AofWriter := {
  aw_file : Bytes;
  aw_durable : nat;
  policy : FsyncPolicy;
  last_sync : Z;
  dirty : bool }.

(** [AofWriter::open] on a file holding [file]; [AofWriter::truncate]. *)
Definition aof_open (file : Bytes) (p : FsyncPolicy) (now : Z) : AofWriter :=
  {| aw_file := file; aw_durable := 0; policy := p; last_sync := now; dirty := false |}.

Definition aof_truncate (p : FsyncPolicy) (now : Z) : AofWriter :=
  {| aw_file := []; aw_durable := 0; policy := p; last_sync := now; dirty := false |}.

Definition aof_sync (a : AofWriter) (now : Z) : AofWriter :=
  {| aw_file := aw_file a; aw_durable := length (aw_file a); policy := policy a;
     last_sync := now; dirty := false |}.

Definition maybe_sync (a : AofWriter) (now : Z) : AofWriter :=
  if negb (dirty a) then a
  else match policy a with
       | Always => aof_sync a now
       | EverySec => if 1000 <=? now - last_sync a then aof_sync a now else a
       | No => a
       end.

Section Files.
Context `{C : Codec}.

(** What [append_records] writes for one record: nothing when it cannot be encoded. *)
Definition frame_record (rec : AofRecord) : Bytes :=
  match rmp_to_vec rec with
  | Some payload =>
      to_le_bytes (wrap_u32 (zlen payload)) ++ to_le_bytes (crc32 payload) ++ payload
  | None => []
  end.

Definition append_records (a : AofWriter) (records : list AofRecord) : AofWriter :=
  {| aw_file := aw_file a ++ concat (map frame_record records);
     aw_durable := aw_durable a; policy := policy a; last_sync := last_sync a;
     dirty := true |}.

(** The loop of [replay]; every turn that goes on consumes the eight header bytes, so the
    length of the file bounds the number of turns. *)
Fixpoint replay_loop (fuel : nat) (b : Bytes) : list AofRecord :=
  match fuel with
  | O => []
  | S f =>
      match b with
      | l0 :: l1 :: l2 :: l3 :: c0 :: c1 :: c2 :: c3 :: r =>
          let len := from_le_bytes l0 l1 l2 l3 in
          let crc := from_le_bytes c0 c1 c2 c3 in
          if (len =? 0) || (MAX_RECORD <? len) then []
          else if zlen r <? len then []
          else
            let payload := take (Z.to_nat len) r in
            if negb (crc32 payload =? crc) then []
            else match rmp_from_slice payload with
                 | Some rec => rec :: replay_loop f (drop (Z.to_nat len) r)
                 | None => []
                 end
      | _ => []
      end
  end.

Definition replay (file : option Bytes) : list AofRecord :=
  match file with Some b => replay_loop (length b) b | None => [] end.

(** ** Snapshots *)

(** The bytes [save_snapshot] writes to the temporary file. *)
Definition snapshot_bytes (ts : Z) (es : list SnapEntry) : option Bytes :=
  (fun body => SNAP_MAGIC ++ body) <$> snap_to_vec {| sf_ts := ts; sf_entries := es |}.

Definition load_snapshot (file : option Bytes) : option (Z * list SnapEntry) :=
  b ← file;
  if (length b <? 5)%nat then None
  else if negb (beq (take 5 b) SNAP_MAGIC) then None
  else s ← snap_from_slice (drop 5 b); Some (sf_ts s, sf_entries s).

(** ** Recovery: [MvccStore::open] *)

(** The files of the data directory; the snapshot's temporary file is never read. *)
Record Disk := { d_snap : option Bytes; d_aof : option Bytes }.

Definition load_entry (ts : Z) (i : Inner) (e : SnapEntry) : Inner :=
  let nk := (se_ns e, se_key e) in
  let i1 := bump_count i (se_ns e) 1 in
  let i2 := match se_expires_at_ms e with
            | Some x => set_ttl_index i1 (<[nk := x]> (ttl_index i1))
            | None => i1
            end in
  set_chains i2 (<[nk := [{| commit_ts := ts; value := Some (se_value e);
                             expires_at_ms := se_expires_at_ms e |}]]> (chains i2)).

Definition load_entries (ts : Z) (es : list SnapEntry) (i : Inner) : Inner :=
  foldl (load_entry ts) i es.

Definition replay_record (base_ts : Z) (acc : Inner * Z) (rec : AofRecord) : Inner * Z :=
  let '(i, max_ts) := acc in
  if rec_ts rec <=? base_ts then (i, max_ts)
  else (apply_ops i (rec_ops rec) (rec_ts rec) (rec_ts rec),
        if max_ts <? rec_ts rec then rec_ts rec else max_ts).

Definition recover (d : Disk) : Inner :=
  let i := match load_snapshot (d_snap d) with
           | Some (ts, es) => set_last_commit (load_entries ts es inner_new) ts
           | None => inner_new
           end in
  let base_ts := last_commit i in
  let '(i', max_ts) := foldl (replay_record base_ts) (i, base_ts) (replay (d_aof d)) in
  set_last_commit i' max_ts.

(** ** SAVE *)

Definition save_entries (i : Inner) (now : Z) : list SnapEntry :=
  omap (fun kv : NsKey * Chain =>
    match kv.2 with
    | v :: _ =>
        match value v with
        | Some d =>
            if is_expired (expires_at_ms v) now then None
            else Some {| se_ns := kv.1.1; se_key := kv.1.2; se_value := d;
                         se_expires_at_ms := expires_at_ms v |}
        | None => None
        end
    | [] => None
    end) (map_to_list (chains i)).

(** The states of the directory [do_save] goes through, in order: before the rename, after
    it, and after the truncation. A body that cannot be encoded is an error before the
    rename. *)
Definition save_steps (i : Inner) (now : Z) (d : Disk) : list Disk :=
  match snapshot_bytes (last_commit i) (save_entries i now) with
  | Some b => [d; {| d_snap := Some b; d_aof := d_aof d |};
               {| d_snap := Some b; d_aof := Some [] |}]
  | None => [d]
  end.

(** ** The sequencer iteration *)

Inductive Batch : Type :=
| Apply (f : st Writer unit)
| Commit (req : CommitRequest)
| Save
| Barrier.

(** The running store: shared state, the writer of the log ([None] in memory), the snapshot
    file. *)
Record Server := {
  sv_inner : Inner;
  sv_aof : option AofWriter;
  sv_snap : option Bytes }.

Definition sv_disk (s : Server) : Disk :=
  {| d_snap := sv_snap s; d_aof := aw_file <$> sv_aof s |}.

(** The loop over one drained batch: state, records, and whether SAVE was requested. *)
Definition run_batch (min_active now : Z) (acc : Inner * list AofRecord * bool) (b : Batch)
  : Inner * list AofRecord * bool :=
  let '(i, recs, save) := acc in
  match b with
  | Apply f =>
      let '(_, i', rec) := seq_apply i min_active now f in
      (i', recs ++ option_list rec, save)
  | Commit req =>
      let '(_, i', rec) := seq_commit i min_active req in
      (i', recs ++ option_list rec, save)
  | Save => (i, recs, true)
  | Barrier => (i, recs, save)
  end.

Definition run_batches (i : Inner) (now : Z) (bs : list Batch)
  : Inner * list AofRecord * bool :=
  foldl (run_batch (min_active_snapshot i) now) (i, [], false) bs.

(** The group commit: append, then sync as the policy says. *)
Definition group_commit (fsync : FsyncPolicy) (a : AofWriter) (recs : list AofRecord)
    (now : Z) : AofWriter :=
  let a1 := match recs with [] => a | _ => append_records a recs end in
  if bool_decide (fsync = Always) && negb (bool_decide (recs = []))
  then aof_sync a1 now else maybe_sync a1 now.

(** [do_save]: the new snapshot and log; the old ones when the encoding fails. *)
Definition do_save (fsync : FsyncPolicy) (s : Server) (now : Z) : Server :=
  match sv_aof s with
  | None => s
  | Some a =>
      match snapshot_bytes (last_commit (sv_inner s)) (save_entries (sv_inner s) now) with
      | Some b => {| sv_inner := sv_inner s; sv_aof := Some (aof_truncate fsync now);
                     sv_snap := Some b |}
      | None => s
      end
  end.

(** One turn of [sequencer_loop] over a drained batch of work. *)
Definition sequencer_turn (fsync : FsyncPolicy) (now : Z) (s : Server) (bs : list Batch)
  : Server :=
  let '(i, recs, save) := run_batches (sv_inner s) now bs in
  let s1 := {| sv_inner := i;
               sv_aof := (fun a => group_commit fsync a recs now) <$> sv_aof s;
               sv_snap := sv_snap s |} in
  if save then do_save fsync s1 now else s1.

(** [MvccStore::open] on a directory. *)
Definition store_open (fsync : FsyncPolicy) (now : Z) (d : Disk) : Server :=
  {| sv_inner := recover d;
     sv_aof := Some (aof_open (default [] (d_aof d)) fsync now);
     sv_snap := d_snap d |}.
End Files.
