(* ===== verification/AofFacts.v ===== *)
(** * Durability of the MVCC store

    Replay inverts append and survives a cut at any byte; recovery rebuilds the committed
    state from the files of every reachable store, SAVE is safe to interrupt anywhere, and
    with [FsyncPolicy::Always] what was acknowledged is synced. *)

From S2P Require Import Prelude Mvcc MvccFacts Isolation Aof.

Section Framing.
Context `{C : Codec} `{L : !CodecLaws C}.
Implicit Types (r : AofRecord) (rs : list AofRecord) (b p : Bytes).

(** A record the log can hold: it encodes, within the cap replay enforces. *)
Definition loggable r : Prop :=
  exists p, rmp_to_vec r = Some p /\ zlen p <= MAX_RECORD.

Definition frames rs : Bytes := concat (map frame_record rs).

Lemma le_bytes_roundtrip n :
  0 <= n < 2 ^ 32 ->
  from_le_bytes (n mod 256) (n / 2 ^ 8 mod 256) (n / 2 ^ 16 mod 256) (n / 2 ^ 24 mod 256) = n.
Proof.
  intros Hn. unfold from_le_bytes.
  change (2 ^ 8) with 256. change (2 ^ 16) with (256 * 256).
  change (2 ^ 24) with (256 * 256 * 256). change (2 ^ 32) with 4294967296 in Hn.
  rewrite <- !Z.div_div by lia.
  pose proof (Z.div_mod n 256) as H0. pose proof (Z.div_mod (n / 256) 256) as H1.
  pose proof (Z.div_mod (n / 256 / 256) 256) as H2.
  rewrite (Z.mod_small (n / 256 / 256 / 256)); [lia|].
  split; [repeat apply Z.div_pos; lia|].
  do 3 (apply Z.div_lt_upper_bound; [done|]). cbn. lia.
Qed.

Lemma frame_eq r p :
  rmp_to_vec r = Some p -> zlen p <= MAX_RECORD ->
  frame_record r = to_le_bytes (zlen p) ++ to_le_bytes (crc32 p) ++ p.
Proof.
  intros Hp Hl. unfold frame_record. rewrite Hp. unfold wrap_u32.
  by rewrite Z.mod_small by (unfold MAX_RECORD in Hl; lia).
Qed.

Lemma frame_length r p :
  rmp_to_vec r = Some p -> length (frame_record r) = (8 + length p)%nat.
Proof. intros Hp. unfold frame_record, to_le_bytes. rewrite Hp. by len_norm. Qed.

(** *** Fuel *)

Lemma replay_fuel f b : (length b <= f)%nat -> replay_loop f b = replay_loop (length b) b.
Proof.
  enough (H : forall n b f1 f2, (length b <= n)%nat -> (length b <= f1)%nat ->
            (length b <= f2)%nat -> replay_loop f1 b = replay_loop f2 b)
    by (intros; by apply (H (length b))).
  clear. induction n as [|n IH]; intros b f1 f2 Hn H1 H2.
  - assert (b = []) as -> by (by apply length_zero_iff_nil; lia). by destruct f1, f2.
  - destruct f1 as [|f1], f2 as [|f2]; [done|by destruct b; [|cbn in *; lia]..|].
    cbn [replay_loop].
    do 8 (destruct b as [|? b]; [done|]). cbn [length] in *.
    case_match; [done|]. case_match; [done|]. case_match; [done|].
    case_match; [|done]. f_equal. apply IH; rewrite length_drop; lia.
Qed.

Lemma replay_nil : replay_loop 0 [] = [].
Proof. done. Qed.

(** *** One frame *)

Lemma replay_frame r rest :
  loggable r ->
  replay (Some (frame_record r ++ rest)) = r :: replay (Some rest).
Proof.
  intros (p & Hp & Hl). unfold replay. rewrite (frame_eq r p Hp Hl).
  pose proof (rmp_nonempty r p Hp) as Hne.
  assert (0 < length p)%nat as Hlp by (destruct p; [done|cbn; lia]).
  unfold MAX_RECORD in Hl.
  set (b := (to_le_bytes (zlen p) ++ to_le_bytes (crc32 p) ++ p) ++ rest).
  assert (Hb : length b = S (7 + length p + length rest)).
  { unfold b. len_norm. unfold to_le_bytes. cbn. lia. }
  rewrite Hb. unfold b, to_le_bytes. rewrite <- !app_assoc. cbn [app replay_loop].
  rewrite le_bytes_roundtrip by lia. rewrite le_bytes_roundtrip by apply crc_range.
  rewrite zeq_false by lia. unfold MAX_RECORD. rewrite zlt_false by lia. cbn [orb].
  rewrite zlt_false by (len_norm; lia). rewrite Nat2Z.id, take_app_length, drop_app_length.
  rewrite zeq_true by done. cbn [negb]. rewrite (rmp_roundtrip r p Hp). f_equal.
  apply replay_fuel. lia.
Qed.

Lemma replay_cut r n :
  loggable r -> (n < length (frame_record r))%nat ->
  replay (Some (take n (frame_record r))) = [].
Proof.
  intros (p & Hp & Hl) Hn. rewrite (frame_length r p Hp) in Hn.
  unfold replay. rewrite (frame_eq r p Hp Hl). unfold MAX_RECORD in Hl.
  do 8 (destruct n as [|n]; [done|]).
  unfold to_le_bytes. cbn [app take length replay_loop].
  rewrite le_bytes_roundtrip by lia.
  destruct (_ || _); [done|]. by rewrite zlt_true by (len_norm; lia).
Qed.

(** *** The whole log *)

Lemma replay_frames_app rs rest :
  Forall loggable rs -> replay (Some (frames rs ++ rest)) = rs ++ replay (Some rest).
Proof.
  induction 1 as [|r rs Hr _ IH]; [done|].
  unfold frames. cbn [map concat app]. rewrite <- app_assoc, replay_frame by done.
  f_equal. apply IH.
Qed.

Lemma replay_frames rs : Forall loggable rs -> replay (Some (frames rs)) = rs.
Proof.
  intros H. rewrite <- (app_nil_r (frames rs)), replay_frames_app by done.
  cbn. apply app_nil_r.
Qed.

(** The records wholly inside the first [n] bytes of a log. *)
Fixpoint whole_records rs (n : nat) : nat :=
  match rs with
  | [] => 0
  | r :: rs' =>
      let l := length (frame_record r) in
      if (n <? l)%nat then 0 else S (whole_records rs' (n - l))
  end.

Lemma whole_records_le rs n : (whole_records rs n <= length rs)%nat.
Proof.
  revert n. induction rs as [|r rs IH]; intros n; cbn [whole_records length]; [lia|].
  destruct (n <? length (frame_record r))%nat; [lia|]. specialize (IH (n - length (frame_record r))%nat). lia.
Qed.

Lemma whole_records_ge rs k n :
  (length (frames (take k rs)) <= n)%nat -> (k <= length rs)%nat -> (k <= whole_records rs n)%nat.
Proof.
  revert k n. induction rs as [|r rs IH]; intros k n Hl Hk; [cbn in *; lia|].
  destruct k as [|k]; [lia|]. cbn [take whole_records] in *. unfold frames in Hl.
  cbn [map concat] in Hl. rewrite length_app in Hl.
  destruct (n <? length (frame_record r))%nat eqn:E; [apply Nat.ltb_lt in E; lia|].
  apply le_n_S, IH; [unfold frames; lia|cbn in Hk; lia].
Qed.

Lemma replay_cut_frames rs n :
  Forall loggable rs -> replay (Some (take n (frames rs))) = take (whole_records rs n) rs.
Proof.
  intros H. revert n. induction H as [|r rs Hr _ IH]; intros n; [by destruct n|].
  unfold frames. cbn [map concat whole_records].
  destruct (n <? length (frame_record r))%nat eqn:E.
  - apply Nat.ltb_lt in E. rewrite take_app_le by lia. by rewrite replay_cut.
  - apply Nat.ltb_ge in E. rewrite take_app_ge by lia. rewrite replay_frame by done.
    cbn [take]. f_equal. apply IH.
Qed.
End Framing.

(** ** Recovery as a fold over the log *)

Section Recovery.
Context `{C : Codec} `{L : !CodecLaws C}.
Implicit Types (i : Inner) (r : AofRecord) (rs : list AofRecord) (d : Disk) (nk : NsKey).

(** Replaying one record that the snapshot does not cover. *)
Definition replay_one i r : Inner :=
  set_last_commit (apply_ops i (rec_ops r) (rec_ts r) (rec_ts r)) (rec_ts r).

Lemma apply_op_publish i op ts m t :
  apply_op (set_last_commit i t) op ts m = set_last_commit (apply_op i op ts m) t.
Proof.
  destruct op as [ns k d [e|]|ns k]; unfold apply_op, chain_of; cbn [chains set_last_commit];
    by destruct (head_live _).
Qed.

Lemma apply_ops_publish i ops ts m t :
  apply_ops (set_last_commit i t) ops ts m = set_last_commit (apply_ops i ops ts m) t.
Proof.
  unfold apply_ops. revert i. induction ops as [|op ops IH]; intros i; [done|].
  cbn [foldl]. by rewrite apply_op_publish, IH.
Qed.

(** Timestamps of a log: strictly increasing, each one above [lo]. *)
Fixpoint ts_above (lo : Z) rs : Prop :=
  match rs with
  | [] => True
  | r :: rs' => lo < rec_ts r /\ ts_above (rec_ts r) rs'
  end.

Definition last_ts (lo : Z) rs : Z := foldl (fun _ r => rec_ts r) lo rs.

Lemma ts_above_app lo rs1 rs2 :
  ts_above lo (rs1 ++ rs2) <-> ts_above lo rs1 /\ ts_above (last_ts lo rs1) rs2.
Proof.
  revert lo. induction rs1 as [|r rs1 IH]; intros lo; cbn; [tauto|]. rewrite IH. tauto.
Qed.

Lemma last_ts_ge lo rs : ts_above lo rs -> lo <= last_ts lo rs.
Proof.
  revert lo. induction rs as [|r rs IH]; intros lo; [by unfold last_ts; cbn|].
  intros [? H]. change (last_ts lo (r :: rs)) with (last_ts (rec_ts r) rs).
  specialize (IH _ H). lia.
Qed.

Lemma ts_above_take lo rs k : ts_above lo rs -> ts_above lo (take k rs).
Proof.
  intros H. rewrite <- (take_drop k rs) in H. by apply ts_above_app in H as [? _].
Qed.

Lemma replay_record_fold base i mx rs :
  base <= mx -> ts_above mx rs ->
  (let '(i', mx') := foldl (replay_record base) (i, mx) rs in set_last_commit i' mx')
  = foldl replay_one (set_last_commit i mx) rs.
Proof.
  revert i mx. induction rs as [|r rs IH]; intros i mx Hb; [done|]. intros [Hlo Hrs].
  cbn [foldl]. unfold replay_record at 2. rewrite zle_false, zlt_true by lia.
  rewrite IH by (done || lia). unfold replay_one at 3. by rewrite apply_ops_publish.
Qed.

(** The state the snapshot alone gives. *)
Definition snap_state (snap : option Bytes) : Inner :=
  match load_snapshot snap with
  | Some (ts, es) => set_last_commit (load_entries ts es inner_new) ts
  | None => inner_new
  end.

Definition replay_from (base : Z) (acc : Inner * Z) rs : Inner :=
  let '(i', mx') := foldl (replay_record base) acc rs in set_last_commit i' mx'.

Lemma recover_unfold snap f :
  recover {| d_snap := snap; d_aof := f |}
  = replay_from (last_commit (snap_state snap))
      (snap_state snap, last_commit (snap_state snap)) (replay f).
Proof. done. Qed.

Lemma replay_record_max base i mx rs :
  base <= mx -> base <= snd (foldl (replay_record base) (i, mx) rs).
Proof.
  revert i mx. induction rs as [|r rs IH]; intros i mx Hb; [done|].
  cbn [foldl]. unfold replay_record at 2. destruct (rec_ts r <=? base) eqn:E; [by apply IH|].
  apply IH. destruct (mx <? rec_ts r) eqn:E2; zbool; lia.
Qed.

(** Recovering a longer log continues from the recovery of the shorter one. *)
Lemma recover_append snap f f' rs :
  replay f' = replay f ++ rs ->
  ts_above (last_commit (recover {| d_snap := snap; d_aof := f |})) rs ->
  recover {| d_snap := snap; d_aof := f' |}
  = foldl replay_one (recover {| d_snap := snap; d_aof := f |}) rs.
Proof.
  intros Hf. rewrite !recover_unfold, Hf. unfold replay_from.
  set (b := last_commit (snap_state snap)). rewrite foldl_app.
  pose proof (replay_record_max b (snap_state snap) b (replay f) ltac:(lia)) as Hm.
  destruct (foldl (replay_record b) (snap_state snap, b) (replay f)) as [i mx]. cbn in *.
  intros Hts. by apply replay_record_fold.
Qed.

(** Records the snapshot covers are skipped. *)
Lemma recover_covered snap f :
  Forall (fun r => rec_ts r <= last_commit (snap_state snap)) (replay f) ->
  recover {| d_snap := snap; d_aof := f |} = snap_state snap.
Proof.
  intros H. rewrite recover_unfold. unfold replay_from.
  set (b := last_commit (snap_state snap)) in *.
  assert (foldl (replay_record b) (snap_state snap, b) (replay f) = (snap_state snap, b)) as ->.
  { induction H as [|r rs Hr _ IH]; [done|]. cbn [foldl]. unfold replay_record at 2.
    by rewrite zle_true. }
  unfold b. by destruct (snap_state snap).
Qed.

(** ** Agreement of two states up to values already expired at [t] *)

Definition agree (t : Z) i i' : Prop :=
  last_commit i = last_commit i' /\
  forall nk, latest i' nk = latest i nk \/
             latest i' nk = None /\ exists v e, latest i nk = Some (v, Some e) /\ e <= t.

Lemma agree_refl t i : agree t i i.
Proof. split; [done|by left]. Qed.

Lemma agree_mono t t' i i' : t <= t' -> agree t i i' -> agree t' i i'.
Proof.
  intros Ht [Hl H]. split; [done|]. intros nk.
  destruct (H nk) as [?|(? & v & e & ? & ?)]; [by left|right]. split; [done|].
  exists v, e. split; [done|lia].
Qed.

(** Two states that agree answer every read at [t] or later alike. *)
Lemma agree_get t i i' ns k now :
  agree t i i' -> t <= now ->
  (forall nk, head_ts (chain_of i nk) <= last_commit i) ->
  (forall nk, head_ts (chain_of i' nk) <= last_commit i') ->
  get i' ns k now = get i ns k now.
Proof.
  intros [Hl H] Ht Hi Hi'. unfold get, current_ts. rewrite !seen_get_at, !seen_head by auto.
  destruct (H (ns, k)) as [->|(-> & v & e & -> & He)]; [done|].
  cbn. by rewrite zle_true by lia.
Qed.

(** Commits on both sides keep the agreement. *)
Inductive logged (m : TxnId) : Inner -> list AofRecord -> Inner -> Prop :=
| logged_nil i : logged m i [] i
| logged_cons i r rs i' :
    rec_ts r = last_commit i + 1 ->
    logged m (set_last_commit (apply_ops i (rec_ops r) (rec_ts r) m) (rec_ts r)) rs i' ->
    logged m i (r :: rs) i'.

Lemma logged_app m i rs1 i1 rs2 i2 :
  logged m i rs1 i1 -> logged m i1 rs2 i2 -> logged m i (rs1 ++ rs2) i2.
Proof. induction 1; [done|]. intros. by constructor; [|apply IHlogged]. Qed.

Lemma logged_ts m i rs i' : logged m i rs i' -> ts_above (last_commit i) rs.
Proof. induction 1 as [|i r rs i' Hr _ IH]; [done|]. split; [lia|]. exact IH. Qed.

Lemma logged_wf m i rs i' : logged m i rs i' -> wf_inner i -> wf_inner i'.
Proof.
  induction 1 as [|i r rs i' Hr _ IH]; [done|]. intros Hwf. apply IH. rewrite Hr.
  by apply commit_wf.
Qed.

Lemma logged_last m i rs i' : logged m i rs i' -> last_commit i' = last_ts (last_commit i) rs.
Proof. induction 1 as [|i r rs i' Hr _ IH]; [done|]. exact IH. Qed.

Lemma logged_take m i rs i' k :
  logged m i rs i' -> exists ik, logged m i (take k rs) ik.
Proof.
  intros H. revert k. induction H as [i|i r rs i' Hr _ IH]; intros k.
  - rewrite take_nil. exists i. constructor.
  - destruct k as [|k]; [exists i; constructor|]. destruct (IH k) as [ik Hik].
    exists ik. by constructor.
Qed.

Lemma logged_det m i rs i1 i2 : logged m i rs i1 -> logged m i rs i2 -> i1 = i2.
Proof. intros H. revert i2. induction H; inversion 1; subst; [done|]. auto. Qed.

Lemma logged_agree t m i rs i' ir :
  logged m i rs i' -> agree t i ir -> agree t i' (foldl replay_one ir rs).
Proof.
  intros H. revert ir. induction H as [|i r rs i' Hr _ IH]; intros ir Ha; [done|].
  cbn [foldl]. apply IH. destruct Ha as [Hl Ha]. split; [done|]. intros nk.
  unfold replay_one. rewrite !latest_publish, !apply_ops_latest.
  destruct (last_result nk (rec_ops r)); cbn; [by left|]. apply Ha.
Qed.

Lemma replay_one_wf ir rs :
  ts_above (last_commit ir) rs -> wf_inner ir -> wf_inner (foldl replay_one ir rs).
Proof.
  revert ir. induction rs as [|r rs IH]; intros ir; [done|]. intros [Hlo Hrs] Hwf.
  cbn [foldl]. apply IH; [done|]. pose proof (wf_last _ _ Hwf).
  assert (wf_at (rec_ts r) (apply_ops ir (rec_ops r) (rec_ts r) (rec_ts r))) as [Hc Hn Ht Hx].
  { apply apply_ops_wf_at; [|lia]. eapply wf_at_mono; [|exact Hwf]. lia. }
  split; [exact Hc|exact Hn|exact Ht|cbn; lia].
Qed.

(** ** The loop over a batch *)

Lemma seq_apply_logged {A} i m now (f : st Writer A) a i' rec :
  seq_apply i m now f = (a, i', rec) -> logged m i (option_list rec) i'.
Proof.
  unfold seq_apply. destruct (f _) as [a0 w]. destruct (staged w); intros; simplify_eq/=.
  - constructor.
  - by repeat constructor.
Qed.

Lemma seq_commit_logged i m req a i' rec :
  seq_commit i m req = (a, i', rec) -> logged m i (option_list rec) i'.
Proof.
  unfold seq_commit. destruct (has_conflict i req); [intros; simplify_eq/=; constructor|].
  destruct (writes req); intros; simplify_eq/=; [constructor|by repeat constructor].
Qed.

Lemma run_batch_logged m now i0 i rs sv b i' rs' sv' :
  run_batch m now (i, rs, sv) b = (i', rs', sv') -> logged m i0 rs i -> logged m i0 rs' i'.
Proof.
  intros Hr Hl. destruct b as [f|req| |]; cbn in Hr; simplify_eq; [| |done|done].
  - destruct (seq_apply i m now f) as [[a i1] rec] eqn:E. simplify_eq.
    apply seq_apply_logged in E. by eapply logged_app.
  - destruct (seq_commit i m req) as [[a i1] rec] eqn:E. simplify_eq.
    apply seq_commit_logged in E. by eapply logged_app.
Qed.

Lemma run_batches_logged i now bs i' rs sv :
  run_batches i now bs = (i', rs, sv) -> logged (min_active_snapshot i) i rs i'.
Proof.
  unfold run_batches. set (m := min_active_snapshot i).
  enough (H : forall j rs0 sv0, logged m i rs0 j ->
    foldl (run_batch m now) (j, rs0, sv0) bs = (i', rs, sv) -> logged m i rs i')
    by (apply H; constructor).
  induction bs as [|b bs IH]; intros j rs0 sv0 Hl; cbn [foldl]; [by intros [= <- <- <-]|].
  destruct (run_batch m now (j, rs0, sv0) b) as [[j1 rs1] sv1] eqn:E.
  apply IH. by eapply run_batch_logged.
Qed.
End Recovery.

(** ** Snapshots *)

Section Snapshots.
Context `{C : Codec} `{L : !CodecLaws C}.
Implicit Types (i : Inner) (e : SnapEntry) (es : list SnapEntry) (nk : NsKey) (ts : Z).

Definition se_nk e : NsKey := (se_ns e, se_key e).

Definition se_chain ts e : Chain :=
  [{| commit_ts := ts; value := Some (se_value e); expires_at_ms := se_expires_at_ms e |}].

Lemma load_entry_chains ts i e :
  chains (load_entry ts i e) = <[se_nk e := se_chain ts e]> (chains i).
Proof. unfold load_entry, se_chain. by destruct (se_expires_at_ms e). Qed.

Lemma load_entry_wf ts i e :
  wf_at ts i -> 0 < ts -> chains i !! se_nk e = None -> wf_at ts (load_entry ts i e).
Proof.
  intros Hwf Hts Hn.
  assert (Hco : chain_of i (se_nk e) = []) by (unfold chain_of; by rewrite Hn).
  destruct Hwf as [Hc Hcn Ht Hl]. split.
  - intros nk c. rewrite load_entry_chains, lookup_insert. case_decide; [|by apply Hc].
    intros [= <-]. split; [done|by repeat constructor| |by repeat constructor].
    apply Forall_singleton. cbn. lia.
  - intros ns. rewrite (live_count_ops _ (set_chains i (<[se_nk e := se_chain ts e]> (chains i))))
      by apply load_entry_chains.
    rewrite live_count_insert, Hco. cbn [head_live].
    assert (counts (load_entry ts i e) = counts (bump_count i (se_ns e) 1)) as ->
      by (unfold load_entry; by destruct (se_expires_at_ms e)).
    cbn [bump_count counts set_counts se_nk fst]. rewrite lookup_insert.
    destruct (decide (se_ns e = ns)) as [->|Hne].
    + rewrite Z.eqb_refl. cbn. rewrite Hcn. cbn. lia.
    + rewrite zeq_false by done. rewrite Hcn. lia.
  - intros nk. unfold latest, chain_of. rewrite load_entry_chains, lookup_insert.
    assert (ttl_index (load_entry ts i e) = match se_expires_at_ms e with
              Some x => <[se_nk e := x]> (ttl_index i) | None => ttl_index i end) as ->
      by (unfold load_entry; by destruct (se_expires_at_ms e)).
    destruct (decide (se_nk e = nk)) as [<-|Hne].
    + pose proof (Ht (se_nk e)) as H0. unfold latest in H0. rewrite Hco in H0.
      unfold se_chain. destruct (se_expires_at_ms e); cbn; [by rewrite lookup_insert_eq|done].
    + pose proof (Ht nk) as H0. unfold latest, chain_of in H0.
      destruct (se_expires_at_ms e); [by rewrite lookup_insert_ne|done].
  - cbn. unfold load_entry. destruct (se_expires_at_ms e); exact Hl.
Qed.

Lemma load_entries_wf ts es i :
  wf_at ts i -> (es <> [] -> 0 < ts) -> NoDup (map se_nk es) ->
  (forall e, e ∈ es -> chains i !! se_nk e = None) -> wf_at ts (load_entries ts es i).
Proof.
  revert i. induction es as [|e es IH]; intros i Hwf Hts Hnd Hf; [done|].
  apply NoDup_cons in Hnd as [Hne Hnd]. cbn [load_entries foldl].
  apply IH; [|by intros; apply Hts|done|].
  - apply load_entry_wf; [done|by apply Hts|]. apply Hf. by left.
  - intros e' He'. rewrite load_entry_chains, lookup_insert_ne; [apply Hf; by right|].
    intros Heq. apply Hne. rewrite Heq. by apply list_elem_of_fmap_2.
Qed.

Lemma load_entries_lookup ts es i nk :
  NoDup (map se_nk es) ->
  (forall e, e ∈ es -> se_nk e = nk -> chains (load_entries ts es i) !! nk = Some (se_chain ts e))
  /\ (nk ∉ map se_nk es -> chains (load_entries ts es i) !! nk = chains i !! nk).
Proof.
  revert i. induction es as [|e es IH]; intros i Hnd.
  - split; [by intros e ?%elem_of_nil|done].
  - apply NoDup_cons in Hnd as [Hne Hnd]. cbn [load_entries foldl map].
    destruct (IH (load_entry ts i e) Hnd) as [IH1 IH2]. unfold load_entries in *. split.
    + intros e' [->|He']%elem_of_cons Heq; [|by apply IH1]. subst nk.
      rewrite IH2 by done. rewrite load_entry_chains. apply lookup_insert_eq.
    + intros Hn. rewrite not_elem_of_cons in Hn. destruct Hn as [Hn1 Hn2].
      rewrite IH2 by done. by rewrite load_entry_chains, lookup_insert_ne.
Qed.

Lemma load_entries_last ts es i : last_commit (load_entries ts es i) = last_commit i.
Proof.
  revert i. induction es as [|e es IH]; intros i; [done|]. cbn [load_entries foldl].
  etrans; [apply IH|]. unfold load_entry. by destruct (se_expires_at_ms e).
Qed.

(** *** What SAVE writes *)

Lemma save_entries_spec i now e :
  e ∈ save_entries i now <->
  latest i (se_nk e) = Some (se_value e, se_expires_at_ms e) /\
  is_expired (se_expires_at_ms e) now = false.
Proof.
  unfold save_entries. rewrite list_elem_of_omap. unfold latest, chain_of. split.
  - intros ([nk c] & Hin & He). apply elem_of_map_to_list in Hin. cbn in He.
    destruct c as [|v c]; [done|]. destruct (value v) as [d|] eqn:Ev; [|done].
    destruct (is_expired (expires_at_ms v) now) eqn:Ex; simplify_eq. unfold se_nk. cbn.
    destruct nk as [ns k]. cbn in *. rewrite Hin. cbn. by rewrite Ev.
  - intros [Hl Hx]. destruct (chains i !! se_nk e) as [c|] eqn:E; [|done]. cbn in Hl.
    exists (se_nk e, c). rewrite elem_of_map_to_list. split; [done|]. cbn.
    destruct c as [|v c]; [done|]. destruct (value v) as [d|]; [|done].
    destruct e as [ns k val x]. cbn in Hl, Hx. injection Hl as [= -> <-]. by rewrite Hx.
Qed.

Lemma save_entries_nodup i now : NoDup (map se_nk (save_entries i now)).
Proof.
  unfold save_entries. pose proof (NoDup_fst_map_to_list (chains i)) as Hnd.
  induction (map_to_list (chains i)) as [|[nk c] l IH]; [constructor|].
  apply NoDup_cons in Hnd as [Hn Hnd]. cbn [omap list_omap].
  assert (Hsub : forall nk', nk' ∈ map se_nk (omap (fun kv : NsKey * Chain =>
    match kv.2 with
    | v :: _ => match value v with
      | Some d => if is_expired (expires_at_ms v) now then None
                  else Some {| se_ns := kv.1.1; se_key := kv.1.2; se_value := d;
                               se_expires_at_ms := expires_at_ms v |}
      | None => None end
    | [] => None end) l) -> nk' ∈ l.*1).
  { intros nk' (e & -> & (kv & Hin & He)%list_elem_of_omap)%list_elem_of_fmap.
    apply list_elem_of_fmap. exists kv. split; [|done].
    repeat case_match; simplify_eq. unfold se_nk. cbn. by destruct kv as [[] ?]. }
  specialize (IH Hnd). repeat case_match; simplify_eq/=; try done.
  cbn [map]. constructor; [|done]. intros Hin%Hsub. apply Hn. cbn.
  unfold se_nk in Hin. cbn in Hin. by destruct nk.
Qed.

Lemma head_le_last i nk : wf_inner i -> head_ts (chain_of i nk) <= last_commit i.
Proof.
  intros Hwf. destruct (chain_of i nk) as [|v c] eqn:E; cbn; [apply (wf_last _ _ Hwf)|].
  pose proof (chain_of_wf _ i nk Hwf) as H. rewrite E in H. destruct (H ltac:(done)) as [_ _ Hb _].
  apply Forall_cons in Hb as [? _]. lia.
Qed.

Lemma load_saved_snapshot ts es b :
  snapshot_bytes ts es = Some b -> load_snapshot (Some b) = Some (ts, es).
Proof.
  unfold snapshot_bytes. destruct (snap_to_vec _) as [body|] eqn:E; [|done].
  intros (x & [= <-] & ->)%fmap_Some.
  assert (Hd : drop 5 (SNAP_MAGIC ++ body) = body) by done.
  assert (Ht : take 5 (SNAP_MAGIC ++ body) = SNAP_MAGIC) by (cbn; by rewrite take_0).
  unfold load_snapshot. cbv beta iota delta [mbind option_bind].
  rewrite Hd, Ht, beq_refl, (snap_roundtrip _ _ E).
  by rewrite length_app.
Qed.

(** Loading what SAVE wrote gives back the unexpired contents. *)
Lemma snap_state_saved i now b :
  wf_inner i -> snapshot_bytes (last_commit i) (save_entries i now) = Some b ->
  wf_inner (snap_state (Some b)) /\ agree now i (snap_state (Some b)).
Proof.
  intros Hwf Hb. unfold snap_state. rewrite (load_saved_snapshot _ _ _ Hb).
  set (es := save_entries i now). pose proof (save_entries_nodup i now) as Hnd.
  pose proof (wf_last _ _ Hwf) as Hlast.
  assert (Hpos : es <> [] -> 0 < last_commit i).
  { destruct es as [|e es'] eqn:E; [done|]. intros _.
    assert (He : e ∈ save_entries i now) by (fold es; rewrite E; by left).
    apply save_entries_spec in He as [He _]. unfold latest in He.
    pose proof (chain_of_wf _ i (se_nk e) Hwf) as Hc.
    destruct (chain_of i (se_nk e)) as [|v c]; [done|].
    destruct (Hc ltac:(done)) as [_ _ Hbd _]. apply Forall_cons in Hbd as [? _]. lia. }
  split; [|split; [done|]].
  - assert (wf_at (last_commit i) (load_entries (last_commit i) es inner_new)) as [Hc Hn Ht Hl].
    { apply load_entries_wf; [|done|done|done].
      eapply wf_at_mono; [|apply inner_new_wf]. cbn. lia. }
    split; [exact Hc|exact Hn|exact Ht|cbn; lia].
  - intros nk. rewrite latest_publish.
    destruct (load_entries_lookup (last_commit i) es inner_new nk Hnd) as [H1 H2].
    unfold latest at 1 3, chain_of.
    destruct (decide (nk ∈ map se_nk es)) as [(e & -> & He)%list_elem_of_fmap|Hn].
    + left. rewrite (H1 e He eq_refl). by apply save_entries_spec in He as [-> _].
    + rewrite (H2 Hn). cbn. destruct (latest i nk) as [[v x]|] eqn:El; [|by left].
      right. split; [done|].
      set (e := {| se_ns := nk.1; se_key := nk.2; se_value := v; se_expires_at_ms := x |}).
      destruct (is_expired x now) eqn:Ex.
      * destruct x as [x|]; [|done]. cbn in Ex. zbool. by exists v, x.
      * exfalso. apply Hn. apply list_elem_of_fmap. exists e.
        assert (se_nk e = nk) as Hk by (by destruct nk). split; [done|].
        apply save_entries_spec. by rewrite Hk.
Qed.
End Snapshots.

(** ** The running store *)

Section Running.
Context `{C : Codec} `{L : !CodecLaws C}.
Implicit Types (i : Inner) (s : Server) (rs : list AofRecord) (t now : Z).

(** The files hold the committed state, up to values expired at [t]. *)
Record srv_ok t s : Prop := {
  so_wf : wf_inner (sv_inner s);
  so_rec_wf : wf_inner (recover (sv_disk s));
  so_agree : agree t (sv_inner s) (recover (sv_disk s));
  so_log : exists a rs, sv_aof s = Some a /\ aw_file a = frames rs /\ Forall loggable rs /\
           Forall (fun r => rec_ts r <= last_commit (sv_inner s)) rs }.

Definition with_inner s i : Server :=
  {| sv_inner := i; sv_aof := sv_aof s; sv_snap := sv_snap s |}.

Definition batch_records s now (bs : list Batch) : list AofRecord :=
  snd (fst (run_batches (sv_inner s) now bs)).

(** Turns of the sequencer whose records fit the log, sweeps of the collector, pins, and
    clean restarts; the first component is the clock. *)
Inductive srv_step (fsync : FsyncPolicy) : Z * Server -> Z * Server -> Prop :=
| ss_turn t s now bs :
    t <= now -> Forall loggable (batch_records s now bs) ->
    srv_step fsync (t, s) (now, sequencer_turn fsync now s bs)
| ss_gc t s : srv_step fsync (t, s)
    (t, with_inner s (gc_sweep (sv_inner s) (min_active_snapshot (sv_inner s))))
| ss_pin t s ts :
    ts <= last_commit (sv_inner s) -> srv_step fsync (t, s) (t, with_inner s (pin_insert (sv_inner s) ts))
| ss_drop t s ts : srv_step fsync (t, s) (t, with_inner s (snapshot_drop (sv_inner s) ts))
| ss_reopen t s now :
    t <= now -> srv_step fsync (t, s) (now, store_open fsync now (sv_disk s)).

Lemma sv_disk_eq s a :
  sv_aof s = Some a -> sv_disk s = {| d_snap := sv_snap s; d_aof := Some (aw_file a) |}.
Proof. unfold sv_disk. by intros ->. Qed.

Lemma srv_inner_ok t s i :
  srv_ok t s -> wf_inner i -> last_commit i = last_commit (sv_inner s) ->
  (forall nk, latest i nk = latest (sv_inner s) nk) -> srv_ok t (with_inner s i).
Proof.
  intros [Hw Hr [Hl Ha] Hlog] Hwf Hli Hlat. split; cbn; [done|done| |by rewrite Hli].
  split; [by rewrite Hli|]. intros nk. rewrite Hlat. apply Ha.
Qed.

Lemma log_after_records t s a rs0 m rs i' file :
  srv_ok t s -> sv_aof s = Some a -> aw_file a = frames rs0 -> Forall loggable rs0 ->
  replay (Some file) = rs0 ++ rs -> logged m (sv_inner s) rs i' ->
  wf_inner (recover {| d_snap := sv_snap s; d_aof := Some file |}) /\
  agree t i' (recover {| d_snap := sv_snap s; d_aof := Some file |}).
Proof.
  intros [Hw Hr Ha _] Hs Hf Hlg Hrep Hl. rewrite (sv_disk_eq s a Hs) in *.
  pose proof (logged_ts _ _ _ _ Hl) as Hts. rewrite (proj1 Ha) in Hts.
  rewrite (recover_append (sv_snap s) (Some (aw_file a)) (Some file) rs); [| |exact Hts].
  - split; [by apply replay_one_wf|by eapply logged_agree].
  - by rewrite Hrep, Hf, replay_frames.
Qed.

Lemma logged_rec_le m i rs i' :
  logged m i rs i' ->
  last_commit i <= last_commit i' /\ Forall (fun r => rec_ts r <= last_commit i') rs.
Proof.
  induction 1 as [i|i r rs i' Hr _ [IH1 IH2]]; [by split|]. cbn in IH1.
  split; [lia|]. constructor; [lia|done].
Qed.

Lemma maybe_sync_file a now : aw_file (maybe_sync a now) = aw_file a.
Proof. unfold maybe_sync. by repeat case_match. Qed.

Lemma group_commit_file fsync a rs now :
  aw_file (group_commit fsync a rs now) = aw_file a ++ frames rs.
Proof.
  unfold group_commit. destruct rs as [|r rs].
  - rewrite andb_false_r. unfold frames. cbn. rewrite app_nil_r.
    apply maybe_sync_file.
  - destruct (_ && _); [done|apply maybe_sync_file].
Qed.

Lemma frames_app rs1 rs2 : frames (rs1 ++ rs2) = frames rs1 ++ frames rs2.
Proof. unfold frames. by rewrite map_app, concat_app. Qed.

Lemma do_save_ok fsync t s now : srv_ok t s -> t <= now -> srv_ok now (do_save fsync s now).
Proof.
  intros Hok Ht. pose proof Hok as [Hw Hr Ha (a & rs & Hs & Hlog)].
  assert (Hmono : srv_ok now s).
  { split; [done|done|by eapply agree_mono|by exists a, rs]. }
  unfold do_save. rewrite Hs. destruct (snapshot_bytes _ _) as [b|] eqn:Eb; [|done].
  destruct (snap_state_saved _ _ _ Hw Eb) as [Hwf Hag].
  split; cbn [sv_inner sv_disk sv_snap sv_aof]; unfold sv_disk; cbn [sv_snap sv_aof fmap option_fmap option_map aw_file aof_truncate]; [done| | |].
  - by rewrite recover_covered by constructor.
  - by rewrite recover_covered by constructor.
  - exists (aof_truncate fsync now), []. by repeat split.
Qed.

Lemma turn_ok fsync t s now bs :
  srv_ok t s -> t <= now -> Forall loggable (batch_records s now bs) ->
  srv_ok now (sequencer_turn fsync now s bs).
Proof.
  intros Hok Ht Hlg. unfold sequencer_turn, batch_records in *.
  destruct (run_batches (sv_inner s) now bs) as [[i' rs] sv] eqn:E. cbn in Hlg.
  apply run_batches_logged in E. pose proof Hok as [Hw Hr Ha (a & rs0 & Hs & Hf & Hl0 & Hts)].
  rewrite Hs. set (s1 := {| sv_inner := i'; sv_aof := _; sv_snap := _ |}).
  assert (Hok1 : srv_ok now s1).
  { assert (Hf1 : aw_file (group_commit fsync a rs now) = frames (rs0 ++ rs))
      by (by rewrite group_commit_file, frames_app, Hf).
    destruct (log_after_records t s a rs0 (min_active_snapshot (sv_inner s)) rs i' (frames (rs0 ++ rs)) Hok Hs Hf Hl0) as [H1 H2];
      [by apply replay_frames, Forall_app|exact E|].
    pose proof (logged_rec_le _ _ _ _ E) as [Hle Hrs].
    split; cbn; unfold sv_disk; cbn; rewrite ?Hf1; [by eapply logged_wf|done| |].
    - by eapply agree_mono.
    - eexists _, (rs0 ++ rs). split; [done|]. split; [done|]. split; [by apply Forall_app|].
      apply Forall_app. split; [|done]. eapply Forall_impl; [exact Hts|]. cbn. lia. }
  destruct sv; [|done]. by apply (do_save_ok fsync now).
Qed.

Lemma srv_step_ok fsync t s t' s' :
  srv_ok t s -> srv_step fsync (t, s) (t', s') -> srv_ok t' s' /\ t <= t'.
Proof.
  intros Hok Hs. inversion Hs; subst; clear Hs; (split; [|done || lia]).
  - by eapply turn_ok.
  - apply srv_inner_ok; [done|apply gc_sweep_wf, Hok|done|].
    intros nk. apply (gc_bind_latest _ _ (min_active_snapshot (sv_inner s))). apply lookup_omap.
  - apply srv_inner_ok; [done|apply wf_at_snaps, Hok|done|done].
  - apply srv_inner_ok; [done| |apply drop_last|].
    + unfold wf_inner. rewrite drop_last. apply drop_wf, Hok.
    + intros nk. unfold latest, chain_of. by rewrite drop_chains.
  - destruct Hok as [Hw Hr Ha (a & rs & Hsv & Hf & Hlg & Hts)].
    rewrite (sv_disk_eq s a Hsv) in *.
    split; [done|done|apply agree_refl|].
    eexists _, rs. split; [done|]. split; [done|]. split; [done|].
    cbn [store_open sv_inner]. by rewrite <- (proj1 Ha).
Qed.

Lemma fresh_ok fsync t : srv_ok t (store_open fsync t {| d_snap := None; d_aof := None |}).
Proof.
  split; cbn; [apply inner_new_wf|apply inner_new_wf|apply agree_refl|].
  eexists _, []. by repeat split.
Qed.

(** The stores a process can reach from an empty directory. *)
Definition srv_reachable fsync t s : Prop :=
  exists t0, rtc (srv_step fsync)
    (t0, store_open fsync t0 {| d_snap := None; d_aof := None |}) (t, s).

Lemma reachable_ok fsync t s : srv_reachable fsync t s -> srv_ok t s.
Proof.
  intros [t0 H].
  enough (Hgen : forall p q, rtc (srv_step fsync) p q -> srv_ok p.1 p.2 -> srv_ok q.1 q.2)
    by (by apply (Hgen _ _ H), fresh_ok).
  clear -L. induction 1 as [p|[t1 s1] [t2 s2] q Hs _ IH]; [done|]. intros Hok. apply IH.
  by eapply srv_step_ok.
Qed.

Lemma agree_reads t i i' ns k now :
  agree t i i' -> wf_inner i -> wf_inner i' -> t <= now -> get i' ns k now = get i ns k now.
Proof. intros Ha Hw Hw' Ht. by eapply agree_get; eauto; intros; apply head_le_last. Qed.
End Running.

(** ** Properties *)

Section Properties.
Context `{C : Codec} `{L : !CodecLaws C}.

(** Appending a group to a log and replaying the file gives the earlier records and
    then the group, in order and unchanged, for every sequence of records within the
    64 MiB cap. *)
Theorem replay_append_roundtrip a rs0 rs :
  aw_file a = frames rs0 -> Forall loggable rs0 -> Forall loggable rs ->
  replay (Some (aw_file (append_records a rs))) = rs0 ++ rs.
Proof.
  intros Hf H0 H1. cbn [append_records aw_file]. rewrite Hf.
  change (concat (map frame_record rs)) with (frames rs). rewrite <- frames_app.
  by apply replay_frames, Forall_app.
Qed.

(** A log cut at any byte replays to a prefix of its records, and that prefix contains
    every record whose frame was wholly written: a torn write loses only the records it
    tore. *)
Theorem torn_log_prefix rs n :
  Forall loggable rs ->
  exists k, replay (Some (take n (frames rs))) = take k rs /\
    forall j, (length (frames (take j rs)) <= n)%nat -> (j <= length rs)%nat -> (j <= k)%nat.
Proof.
  intros H. exists (whole_records rs n). split; [by apply replay_cut_frames|].
  intros j Hj Hl. by apply whole_records_ge.
Qed.

(** C4: recovery is exact: from the files of any store reached by sequencer turns, sweeps,
    snapshots registered and dropped, and reopenings, in which every logged record is below
    MAX_RECORD and the log is whole whenever it is reopened, at any point between sequencer turns,
    [recover] rebuilds a well-formed state (counters and expiry index included) with the same last
    commit, and every read from then on answers as it did before the restart. (After a log with a
    torn tail was reopened, later records are not read: torn_tail_hides_later_commits; nor are
    those after a record above the limit: oversized_record_ends_replay.) *)
Theorem recovery_exact fsync t s ns k now :
  srv_reachable fsync t s -> t <= now ->
  wf_inner (recover (sv_disk s)) /\
  last_commit (recover (sv_disk s)) = last_commit (sv_inner s) /\
  get (recover (sv_disk s)) ns k now = get (sv_inner s) ns k now.
Proof.
  intros Hr Ht. destruct (reachable_ok _ _ _ Hr) as [Hw Hrw Ha _].
  split; [done|]. split; [by rewrite (proj1 Ha)|]. by eapply agree_reads.
Qed.

(** A crash inside a group commit is atomic per batch: whatever part of the group
    reached the file, recovery restores the state after some prefix of the group's commits,
    one that includes every commit whose record was wholly written. *)
Theorem group_commit_crash_atomic fsync t s now bs n i' rs sv :
  srv_reachable fsync t s ->
  run_batches (sv_inner s) now bs = (i', rs, sv) -> Forall loggable rs ->
  exists k ik,
    logged (min_active_snapshot (sv_inner s)) (sv_inner s) (take k rs) ik /\
    (forall j, (length (frames (take j rs)) <= n)%nat -> (j <= length rs)%nat -> (j <= k)%nat) /\
    agree t ik (recover {| d_snap := sv_snap s;
                           d_aof := (fun f => f ++ take n (frames rs)) <$> d_aof (sv_disk s) |}).
Proof.
  intros Hr E Hlg. pose proof (reachable_ok _ _ _ Hr) as Hok.
  destruct (so_log _ _ Hok) as (a & rs0 & Hs & Hf & Hl0 & _).
  apply run_batches_logged in E. exists (whole_records rs n).
  destruct (logged_take _ _ _ _ (whole_records rs n) E) as [ik Hik]. exists ik.
  split; [done|]. split; [by intros; apply whole_records_ge|].
  rewrite (sv_disk_eq s a Hs). cbn [d_aof fmap option_fmap option_map]. rewrite Hf.
  eapply log_after_records; [exact Hok|exact Hs|exact Hf|exact Hl0| |exact Hik].
  by rewrite replay_frames_app, replay_cut_frames.
Qed.

(** SAVE can be interrupted anywhere: the directory before the snapshot's rename,
    between the rename and the truncation of the log, and after both recovers to the same
    last commit and the same answer to every read. *)
Theorem save_crash_safe fsync t s now d ns k now' :
  srv_reachable fsync t s -> t <= now -> now <= now' ->
  d ∈ save_steps (sv_inner s) now (sv_disk s) ->
  last_commit (recover d) = last_commit (sv_inner s) /\
  get (recover d) ns k now' = get (sv_inner s) ns k now'.
Proof.
  intros Hr Ht Hn Hd. pose proof (reachable_ok _ _ _ Hr) as Hok.
  pose proof Hok as [Hw Hrw Ha (a & rs & Hs & Hf & Hlg & Hts)].
  assert (wf_inner (recover d) /\ agree now (sv_inner s) (recover d)) as [Hwd Had];
    [|split; [by rewrite (proj1 Had)|by eapply agree_reads]].
  assert (H0 : wf_inner (recover (sv_disk s)) /\ agree now (sv_inner s) (recover (sv_disk s)))
    by (split; [done|by eapply agree_mono]).
  unfold save_steps in Hd. destruct (snapshot_bytes _ _) as [b|] eqn:Eb.
  - destruct (snap_state_saved _ _ _ Hw Eb) as [Hwf Hag].
    rewrite (sv_disk_eq s a Hs) in *. cbn [d_snap d_aof] in Hd.
    rewrite !elem_of_cons, elem_of_nil in Hd. destruct Hd as [->|[->|[->|[]]]]; [done| |].
    + rewrite recover_covered; [done|]. rewrite Hf, replay_frames by done.
      by rewrite <- (proj1 Hag).
    + by rewrite recover_covered by constructor.
  - by apply list_elem_of_singleton in Hd as ->.
Qed.

(** With [FsyncPolicy::Always] what is acknowledged is durable: after a turn that
    committed anything, a power loss that keeps only synced bytes recovers the state the
    clients were told about. *)
Theorem always_acknowledged_durable t s now bs a n ns k now' :
  srv_reachable Always t s -> t <= now -> now <= now' ->
  Forall loggable (batch_records s now bs) -> batch_records s now bs <> [] ->
  sv_aof (sequencer_turn Always now s bs) = Some a -> (aw_durable a <= n)%nat ->
  get (recover {| d_snap := sv_snap (sequencer_turn Always now s bs);
                  d_aof := Some (take n (aw_file a)) |}) ns k now'
  = get (sv_inner (sequencer_turn Always now s bs)) ns k now'.
Proof.
  intros Hr Ht Hn Hlg Hne Ha Hd. pose proof (reachable_ok _ _ _ Hr) as Hok.
  assert (Hfull : take n (aw_file a) = aw_file a).
  { revert Ha Hd. unfold sequencer_turn, batch_records in *.
    destruct (so_log _ _ Hok) as (a0 & rs0 & Hs & _). rewrite Hs.
    destruct (run_batches (sv_inner s) now bs) as [[i' rs] sv]. cbn in Hne.
    assert (Hg : forall m, (aw_durable (group_commit Always a0 rs now) <= m)%nat ->
      take m (aw_file (group_commit Always a0 rs now)) = aw_file (group_commit Always a0 rs now)).
    { intros m. unfold group_commit. rewrite (bool_decide_eq_false_2 _ Hne). cbn.
      intros. by apply take_ge. }
    destruct sv; [|cbn; intros [= <-]; apply Hg]. unfold do_save. cbn [sv_aof fmap option_fmap option_map].
    destruct (snapshot_bytes _ _); cbn; intros [= <-]; [by destruct n|apply Hg]. }
  rewrite Hfull, <- (sv_disk_eq _ _ Ha).
  destruct (turn_ok Always t s now bs Hok Ht Hlg) as [Hw Hrw Hag _]. by eapply agree_reads.
Qed.

(** A record above the cap is written, and acknowledged, but replay stops at it: the
    record and everything logged after it are ignored by recovery. *)
Theorem oversized_record_ends_replay r p rs rest :
  Forall loggable rs -> rmp_to_vec r = Some p -> MAX_RECORD < zlen p < 2 ^ 32 ->
  replay (Some (frames rs ++ frame_record r ++ rest)) = rs.
Proof.
  intros Hlg Hp Hl. rewrite replay_frames_app by done.
  enough (replay (Some (frame_record r ++ rest)) = []) as -> by apply app_nil_r.
  unfold frame_record. rewrite Hp. unfold replay, to_le_bytes. cbn [app length replay_loop].
  unfold wrap_u32. rewrite (Z.mod_small (zlen p) (2 ^ 32)), (le_bytes_roundtrip (zlen p)) by (unfold MAX_RECORD in Hl; lia).
  by rewrite (zlt_true MAX_RECORD), orb_true_r by lia.
Qed.
End Properties.

(** ** A concrete codec

    One-effect records on one-byte keys and strings are encoded by listing their fields. *)

Definition demo_to_vec (r : AofRecord) : option Bytes :=
  match rec_ops r with
  | [Put ns [k] (DStr [v]) None] => Some [rec_ts r; ns; k; v]
  | [Del ns [k]] => Some [rec_ts r; ns; k]
  | _ => None
  end.

Definition demo_from_slice (b : Bytes) : option AofRecord :=
  match b with
  | [t; ns; k; v] => Some {| rec_ts := t; rec_ops := [Put ns [k] (DStr [v]) None] |}
  | [t; ns; k] => Some {| rec_ts := t; rec_ops := [Del ns [k]] |}
  | _ => None
  end.

Definition demo_snap_to_vec (s : SnapFile) : option Bytes :=
  match sf_entries s with
  | [] => Some [sf_ts s]
  | [{| se_ns := ns; se_key := [k]; se_value := DStr [v]; se_expires_at_ms := None |}] =>
      Some [sf_ts s; ns; k; v]
  | _ => None
  end.

Definition demo_snap_from_slice (b : Bytes) : option SnapFile :=
  match b with
  | [t] => Some {| sf_ts := t; sf_entries := [] |}
  | [t; ns; k; v] => Some {| sf_ts := t; sf_entries :=
      [{| se_ns := ns; se_key := [k]; se_value := DStr [v]; se_expires_at_ms := None |}] |}
  | _ => None
  end.

Definition demo_crc (b : Bytes) : Z := foldl (fun h x => (h * 31 + x + 1) mod 2 ^ 32) 7 b.

#[local] Instance demo_codec : Codec := {|
  rmp_to_vec := demo_to_vec; rmp_from_slice := demo_from_slice;
  snap_to_vec := demo_snap_to_vec; snap_from_slice := demo_snap_from_slice;
  crc32 := demo_crc |}.

#[local] Instance demo_codec_laws : CodecLaws demo_codec.
Proof.
  split; cbn.
  - intros [t ops] p. unfold demo_to_vec. cbn. intros. by repeat case_match; simplify_eq.
  - intros [t ops] p. unfold demo_to_vec. cbn. intros. by repeat case_match; simplify_eq.
  - intros [t es] p. unfold demo_snap_to_vec. cbn. intros. by repeat case_match; simplify_eq.
  - intros b. unfold demo_crc. destruct b as [|x b] using rev_ind; [done|].
    rewrite foldl_snoc. apply Z.mod_pos_bound. done.
Qed.

Definition demo_rec (t v : Z) : AofRecord :=
  {| rec_ts := t; rec_ops := [Put 0 [107] (DStr [v]) None] |}.

Lemma demo_loggable t v : loggable (demo_rec t v).
Proof. by eexists. Qed.

(** Recovery leaves the torn bytes in the file and [AofWriter::open] appends after
    them: a commit acknowledged and synced after such a restart is not there after the next
    one. *)
Theorem torn_tail_hides_later_commits :
  exists torn s1 s2,
    s1 = store_open Always 0 {| d_snap := None; d_aof := Some (frame_record (demo_rec 1 1) ++ torn) |} /\
    s2 = sequencer_turn Always 0 s1 [Commit {| read_ts := 1;
           writes := [Put 0 [107] (DStr [2]) None]; conflict_keys := [(0, [107])] |}] /\
    get (sv_inner s2) 0 [107] 0 = Some (DStr [2]) /\
    get (recover (sv_disk s2)) 0 [107] 0 = Some (DStr [1]).
Proof.
  exists (take 9 (frame_record (demo_rec 2 5))). eexists _, _.
  split; [reflexivity|]. split; [reflexivity|]. split; by vm_compute.
Qed.

(** *** Witnesses *)

Definition demo_put (v : Z) : Batch :=
  Apply (fun w => (tt, writer_put 0 [107] (DStr [v]) None w)).

Definition demo_fresh : Server := store_open Always 0 {| d_snap := None; d_aof := None |}.
Definition demo_srv : Server := sequencer_turn Always 1 demo_fresh [demo_put 1; Save].

Lemma demo_records v i now :
  Forall loggable (snd (fst (run_batches i now [demo_put v]))).
Proof. cbn. by repeat constructor; eexists. Qed.

Lemma demo_reachable : srv_reachable Always 1 demo_srv.
Proof.
  exists 0. eapply rtc_l; [|constructor]. constructor; [lia|].
  cbn. by repeat constructor; eexists.
Qed.

Lemma replay_append_roundtrip_witness :
  replay (Some (aw_file (append_records (aof_open (frames [demo_rec 1 1]) No 0)
    [demo_rec 2 2; demo_rec 3 3]))) = [demo_rec 1 1; demo_rec 2 2; demo_rec 3 3].
Proof.
  apply (replay_append_roundtrip _ [demo_rec 1 1]); [reflexivity| |];
    repeat constructor; apply demo_loggable.
Defined.

Lemma torn_log_prefix_witness :
  exists k, replay (Some (take 15 (frames [demo_rec 1 1; demo_rec 2 2])))
            = take k [demo_rec 1 1; demo_rec 2 2] /\
    forall j, (length (frames (take j [demo_rec 1 1; demo_rec 2 2])) <= 15)%nat ->
              (j <= 2)%nat -> (j <= k)%nat.
Proof. apply torn_log_prefix. repeat constructor; apply demo_loggable. Defined.

Lemma recovery_exact_witness :
  get (recover (sv_disk demo_srv)) 0 [107] 5 = Some (DStr [1]).
Proof.
  etransitivity; [apply (recovery_exact Always 1 demo_srv 0 [107] 5 demo_reachable); lia|].
  by vm_compute.
Defined.

Lemma group_commit_crash_atomic_witness :
  exists k ik,
    logged (min_active_snapshot (sv_inner demo_srv)) (sv_inner demo_srv)
      (take k [demo_rec 2 2]) ik /\
    (forall j, (length (frames (take j [demo_rec 2 2])) <= 4)%nat -> (j <= 1)%nat -> (j <= k)%nat) /\
    agree 1 ik (recover {| d_snap := sv_snap demo_srv;
      d_aof := (fun f => f ++ take 4 (frames [demo_rec 2 2])) <$> d_aof (sv_disk demo_srv) |}).
Proof.
  apply (group_commit_crash_atomic Always 1 demo_srv 1 [demo_put 2] 4
           (fst (fst (run_batches (sv_inner demo_srv) 1 [demo_put 2]))) [demo_rec 2 2]
           (snd (run_batches (sv_inner demo_srv) 1 [demo_put 2])) demo_reachable).
  - reflexivity.
  - repeat constructor; apply demo_loggable.
Defined.

Lemma save_crash_safe_witness :
  get (recover {| d_snap := snapshot_bytes 1 (save_entries (sv_inner demo_srv) 2);
                  d_aof := d_aof (sv_disk demo_srv) |}) 0 [107] 3 = Some (DStr [1]).
Proof.
  etransitivity.
  - apply (save_crash_safe Always 1 demo_srv 2 _ 0 [107] 3 demo_reachable); [lia|lia|].
    vm_compute. right. left.
  - by vm_compute.
Defined.

Lemma always_acknowledged_durable_witness :
  get (recover {| d_snap := sv_snap (sequencer_turn Always 2 demo_srv [demo_put 7]);
                  d_aof := Some (frames [demo_rec 2 7]) |}) 0 [107] 3 = Some (DStr [7]).
Proof.
  etransitivity; [|by vm_compute].
  exact (always_acknowledged_durable 1 demo_srv 2 [demo_put 7]
           (aof_sync (append_records (aof_truncate Always 1) [demo_rec 2 7]) 2) 12 0 [107] 3
           demo_reachable ltac:(lia) ltac:(lia) (demo_records 7 _ _) ltac:(done) eq_refl
           ltac:(by vm_compute)).
Defined.

(** A codec with one record just above the cap. *)
Definition big_payload : Bytes := repeat 0 (Z.to_nat (MAX_RECORD + 1)).

#[local] Instance big_codec : Codec := {|
  rmp_to_vec r := match rec_ops r, rec_ts r with [], 1 => Some big_payload | _, _ => None end;
  rmp_from_slice _ := Some {| rec_ts := 1; rec_ops := [] |};
  snap_to_vec _ := None; snap_from_slice _ := None; crc32 _ := 0 |}.

Lemma big_payload_length : zlen big_payload = MAX_RECORD + 1.
Proof. unfold big_payload. rewrite repeat_length, Z2Nat.id; done. Qed.

#[local] Instance big_codec_laws : CodecLaws big_codec.
Proof.
  split; cbn; [|intros r p; repeat (case_match; try done); intros [= <-] Hn|done|done].
  - intros [t ops] p. cbn. by repeat case_match; intros; simplify_eq.
  - pose proof big_payload_length as Hb. by rewrite Hn in Hb.
Qed.

Lemma oversized_record_ends_replay_witness :
  @replay big_codec (Some (@frames big_codec [] ++
    @frame_record big_codec {| rec_ts := 1; rec_ops := [] |} ++ [1; 2; 3])) = [].
Proof.
  apply (@oversized_record_ends_replay big_codec big_codec_laws _ big_payload).
  - constructor.
  - reflexivity.
  - rewrite big_payload_length. split; reflexivity.
Defined.
