(* ===== verification/Engine.v ===== *)
(** * The command engine core (src/redis/engine.rs)

    Every data command is written once against the trait [Db]. Here a command is a program
    over the trait's operations, [prog]; an implementation of the trait is an instance of
    the class [Db], and [interp] runs a program against it. A command that returns early
    does so with [early], as the source's [return]. *)

From S2P Require Import Prelude Util Resp Mvcc.

(** ** The trait and programs over it *)

Class Db (S : Type) := {
  db_get : Z -> Bytes -> st S (option Datum);
  db_expiry : Z -> Bytes -> st S (option Z);
  db_put : Z -> Bytes -> Datum -> option Z -> st S unit;
  db_del : Z -> Bytes -> st S bool;
  db_keys : Z -> st S (list Bytes);
  db_dbsize : Z -> st S Z;
  db_now_ms : S -> Z }.

Inductive prog (A : Type) : Type :=
| Ret (a : A)
| Get (ns : Z) (k : Bytes) (c : option Datum -> prog A)
| Expiry (ns : Z) (k : Bytes) (c : option Z -> prog A)
| PutK (ns : Z) (k : Bytes) (d : Datum) (e : option Z) (c : prog A)
| DelK (ns : Z) (k : Bytes) (c : bool -> prog A)
| Keys (ns : Z) (c : list Bytes -> prog A)
| DbSize (ns : Z) (c : Z -> prog A)
| NowMs (c : Z -> prog A).
Arguments Ret {A} a.
Arguments Get {A} ns k c.
Arguments Expiry {A} ns k c.
Arguments PutK {A} ns k d e c.
Arguments DelK {A} ns k c.
Arguments Keys {A} ns c.
Arguments DbSize {A} ns c.
Arguments NowMs {A} c.

Fixpoint prog_bind {A B} (f : A -> prog B) (p : prog A) : prog B :=
  match p with
  | Ret a => f a
  | Get ns k c => Get ns k (fun x => prog_bind f (c x))
  | Expiry ns k c => Expiry ns k (fun x => prog_bind f (c x))
  | PutK ns k d e c => PutK ns k d e (prog_bind f c)
  | DelK ns k c => DelK ns k (fun x => prog_bind f (c x))
  | Keys ns c => Keys ns (fun x => prog_bind f (c x))
  | DbSize ns c => DbSize ns (fun x => prog_bind f (c x))
  | NowMs c => NowMs (fun x => prog_bind f (c x))
  end.

Fixpoint interp {S A} `{Db S} (p : prog A) : st S A :=
  match p with
  | Ret a => mret a
  | Get ns k c => x ← db_get ns k; interp (c x)
  | Expiry ns k c => x ← db_expiry ns k; interp (c x)
  | PutK ns k d e c => _ ← db_put ns k d e; interp c
  | DelK ns k c => x ← db_del ns k; interp (c x)
  | Keys ns c => x ← db_keys ns; interp (c x)
  | DbSize ns c => x ← db_dbsize ns; interp (c x)
  | NowMs c => fun s => interp (c (db_now_ms s)) s
  end.

(** ** Commands: programs with early return

    A command ends with a value, with an early [return], or with a panic; the release
    profile aborts the process on a panic, which is the reply [None]. *)

Inductive Exit : Type := Return (r : Resp) | Panic.

Definition cmd (A : Type) : Type := prog (result Exit A).

#[export] Instance cmd_ret : MRet cmd := fun _ a => Ret (Ok a).
#[export] Instance cmd_bind : MBind cmd := fun _ _ f m =>
  prog_bind (fun r => match r with Ok a => f a | Err e => Ret (Err e) end) m.

(** [return r] *)
Definition early {A} (r : Resp) : cmd A := Ret (Err (Return r)).
Definition panic {A} : cmd A := Ret (Err Panic).

(** [if b { return r }] *)
Definition return_if (b : bool) (r : Resp) : cmd unit := if b then early r else mret tt.

(** [let Some(x) = o else { return r }] *)
Definition let_some {A} (o : option A) (r : Resp) : cmd A :=
  match o with Some a => mret a | None => early r end.

Abbreviation Reply := (option Resp).

(** A command's reply, returned early or at its end. *)
Definition reply (c : cmd Resp) : prog Reply :=
  prog_bind (fun r => match r with
                      | Ok a => Ret (Some a)
                      | Err (Return e) => Ret (Some e)
                      | Err Panic => Ret None
                      end) c.

Definition get_ (ns : Z) (k : Bytes) : cmd (option Datum) := Get ns k (fun x => Ret (Ok x)).
Definition expiry_ (ns : Z) (k : Bytes) : cmd (option Z) := Expiry ns k (fun x => Ret (Ok x)).
Definition put_ (ns : Z) (k : Bytes) (d : Datum) (e : option Z) : cmd unit :=
  PutK ns k d e (Ret (Ok tt)).
Definition del_ (ns : Z) (k : Bytes) : cmd bool := DelK ns k (fun x => Ret (Ok x)).
Definition keys_ (ns : Z) : cmd (list Bytes) := Keys ns (fun x => Ret (Ok x)).
Definition dbsize_ (ns : Z) : cmd Z := DbSize ns (fun x => Ret (Ok x)).
Definition now_ms_ : cmd Z := NowMs (fun x => Ret (Ok x)).

(** [for a in l { .. }] with an accumulator. *)
Fixpoint cmd_fold {A B} (f : B -> A -> cmd B) (b : B) (l : list A) : cmd B :=
  match l with
  | [] => mret b
  | a :: l' => b' ← f b a; cmd_fold f b' l'
  end.

(** [l.iter().map(f).collect()] *)
Fixpoint cmd_map {A B} (f : A -> cmd B) (l : list A) : cmd (list B) :=
  match l with
  | [] => mret []
  | a :: l' => b ← f a; r ← cmd_map f l'; mret (b :: r)
  end.

(** [for a in l { .. }] *)
Definition cmd_iter {A} (f : A -> cmd unit) (l : list A) : cmd unit :=
  cmd_fold (fun _ a => f a) tt l.

(** ** The two implementations of the trait *)

#[export] Instance writer_db : Db Writer := {
  db_get := writer_get;
  db_expiry ns k w :=
    (match writer_get_expiry w ns k with
     | Some e => if w_now w <? e then Some e else None
     | None => None
     end, w);
  db_put ns k d e w := (tt, writer_put ns k d e w);
  db_del := writer_del;
  db_keys ns w := (sort_keys (writer_live_keys w ns), w);
  db_dbsize ns w := (writer_dbsize w ns, w);
  db_now_ms := w_now }.

(** A read-only view at a pinned timestamp. The store and the clock are those of the moment
    the command runs. *)
Record SnapDb := { sd_store : Inner; sd_ts : TxnId; sd_now : Z }.

#[export] Instance snap_db : Db SnapDb := {
  db_get ns k s := (get_at (sd_store s) ns k (sd_ts s) (sd_now s), s);
  db_expiry ns k s :=
    (match get_expiry (sd_store s) ns k with
     | Some e => if sd_now s <? e then Some e else None
     | None => None
     end, s);
  db_put ns k d e s := (tt, s);
  db_del ns k s := (false, s);
  db_keys ns s := (visible_keys_sorted (sd_store s) ns (sd_ts s) (sd_now s), s);
  db_dbsize ns s := (ns_len (sd_store s) ns, s);
  db_now_ms := sd_now }.

(** ** Typed read helpers *)

Definition read_str (ns : Z) (key : Bytes) : cmd (option Bytes * option Z) :=
  v ← get_ ns key;
  match v with
  | Some (DStr s) => e ← expiry_ ns key; mret (Some s, e)
  | Some _ => early wrong_type
  | None => mret (None, None)
  end.

Definition read_hash (ns : Z) (key : Bytes) : cmd (gmap Bytes Bytes * option Z) :=
  v ← get_ ns key;
  match v with
  | Some (DHash h) => e ← expiry_ ns key; mret (h, e)
  | Some _ => early wrong_type
  | None => mret (∅, None)
  end.

Definition read_list (ns : Z) (key : Bytes) : cmd (list Bytes * option Z) :=
  v ← get_ ns key;
  match v with
  | Some (DList l) => e ← expiry_ ns key; mret (l, e)
  | Some _ => early wrong_type
  | None => mret ([], None)
  end.

Definition read_set (ns : Z) (key : Bytes) : cmd (gset Bytes * option Z) :=
  v ← get_ ns key;
  match v with
  | Some (DSet s) => e ← expiry_ ns key; mret (s, e)
  | Some _ => early wrong_type
  | None => mret (∅, None)
  end.

Definition read_zset (ns : Z) (key : Bytes) : cmd (ZSet * option Z) :=
  v ← get_ ns key;
  match v with
  | Some (DZSet z) => e ← expiry_ ns key; mret (z, e)
  | Some _ => early wrong_type
  | None => mret (zset_default, None)
  end.

Definition xstream_default : XStream :=
  {| entries := ∅; last_id := stream_id_min; max_deleted_id := stream_id_min;
     entries_added := 0 |}.

Definition read_stream (ns : Z) (key : Bytes) : cmd (XStream * option Z) :=
  v ← get_ ns key;
  match v with
  | Some (DStream x) => e ← expiry_ ns key; mret (x, e)
  | Some _ => early wrong_type
  | None => mret (xstream_default, None)
  end.

Definition coll_empty (d : Datum) : bool :=
  match d with
  | DHash h => bool_decide (h = ∅)
  | DList l => bool_decide (l = [])
  | DSet s => bool_decide (s = ∅)
  | DZSet z => zset_is_empty z
  | _ => false
  end.

(** Store a collection back; an emptied collection deletes its key. *)
Definition store_coll (ns : Z) (key : Bytes) (val : Datum) (exp : option Z) : cmd unit :=
  if coll_empty val then _ ← del_ ns key; mret tt else put_ ns key val exp.

(** ** Ranges, cursors, the generator *)

Definition norm_range (start stop len : Z) : option (Z * Z) :=
  let s := if start <? 0 then len + start else start in
  let e := if stop <? 0 then len + stop else stop in
  let s := if s <? 0 then 0 else s in
  let e := if len <=? e then len - 1 else e in
  if (e <? s) || (len =? 0) then None else Some (s, e).

(** The elements [s..=e]. *)
Definition slice_incl {A} (s e : Z) (l : list A) : list A :=
  slice (Z.to_nat s) (Z.to_nat (e + 1)) l.

Definition scan_page {A} (items : list A) (cursor count : Z) : Z * list A :=
  let start := cursor in
  if zlen items <=? start then (0, [])
  else
    let e := Z.min (start + Z.max count 1) (zlen items) in
    let next := if zlen items <=? e then 0 else e in
    (next, slice (Z.to_nat start) (Z.to_nat e) items).

(** xorshift over [u64] *)
Definition rng_seeded (seed : Z) : Z := Z.lor seed 1.

Definition rng_next (x : Z) : Z :=
  let x := Z.lxor x (wrap_u64 (Z.shiftl x 13)) in
  let x := Z.lxor x (Z.shiftr x 7) in
  Z.lxor x (wrap_u64 (Z.shiftl x 17)).

Definition rng_below (n : Z) (x : Z) : Z * Z :=
  if n =? 0 then (0, x) else let x' := rng_next x in (x' mod n, x').

Inductive ExpireUnit : Type := Sec | Ms.
Inductive SetOp : Type := Union | Inter | Diff.

(** [Vec::remove(i)] for [i < len]. *)
Definition vec_remove {A} (i : Z) (l : list A) : option (A * list A) :=
  a ← l !! Z.to_nat i; Some (a, take (Z.to_nat i) l ++ drop (S (Z.to_nat i)) l).

(** [for _ in 0..n { picked.push(pool.remove(rng.below(pool.len()))) }] for [n] within the
    pool: what is picked, the pool and the generator left. *)
Fixpoint draw_distinct {A} (n : nat) (pool : list A) (rng : Z) : list A * list A * Z :=
  match n with
  | O => ([], pool, rng)
  | S n' =>
      let '(i, rng') := rng_below (zlen pool) rng in
      match vec_remove i pool with
      | Some (a, pool') =>
          let '(r, p, g) := draw_distinct n' pool' rng' in (a :: r, p, g)
      | None => ([], pool, rng')
      end
  end.

(** [for _ in 0..n { if pool.is_empty() { break } out.push(pool[rng.below(..)].clone()) }] *)
Fixpoint draw_repeat {A} (n : nat) (pool : list A) (rng : Z) : list A :=
  match n with
  | O => []
  | S n' =>
      let '(i, rng') := rng_below (zlen pool) rng in
      match pool !! Z.to_nat i with
      | Some a => a :: draw_repeat n' pool rng'
      | None => []
      end
  end.
