(* ===== verification/CmdString.v ===== *)
(** * String, bitmap and key commands (src/redis/cmd_string.rs)

    One definition per command, in the source's order, as a program over the trait [Db].
    [arg args i] is [args[i]]: every use is behind the arity test that bounds [i]. *)

From S2P Require Import Prelude Util Resp Glob Mvcc Engine.

Definition arg (args : list Bytes) (i : nat) : Bytes := default [] (args !! i).

(** [e?] for a [Result] whose error is a reply. *)
Definition try_ {A} (r : result Resp A) : cmd A :=
  match r with Ok a => mret a | Err e => early e end.

(** [old.map(Resp::Bulk).unwrap_or(Resp::Null)] *)
Definition bulk_or_null (o : option Bytes) : Resp :=
  match o with Some b => Bulk b | None => Null end.

(** [args.chunks(2)] of an even number of arguments. *)
Fixpoint pairs (l : list Bytes) : list (Bytes * Bytes) :=
  match l with
  | a :: b :: l' => (a, b) :: pairs l'
  | _ => []
  end.

Definition str_or_empty (ns : Z) (key : Bytes) : cmd (Bytes * option Z) :=
  '(v, e) ← read_str ns key; mret (default [] v, e).

(** ** GET and SET *)

Definition get (ns : Z) (args : list Bytes) : prog Reply := reply (
  _ ← return_if (negb (zlen args =? 1)) (arity (bs "get"));
  '(v, _) ← read_str ns (arg args 0);
  mret (bulk_or_null v)).

Record SetOpts := {
  so_expires : option (option Z);
  so_keep_ttl : bool;
  so_nx : bool;
  so_xx : bool;
  so_want_get : bool }.

Definition set_opts0 : SetOpts :=
  {| so_expires := None; so_keep_ttl := false; so_nx := false; so_xx := false;
     so_want_get := false |}.

(** The loop over the options of SET; [n as u64] wraps, and so does the release profile's
    [now + n * 1000]. *)
Fixpoint set_opts (now : Z) (l : list Bytes) (o : SetOpts) : result Resp SetOpts :=
  match l with
  | [] => Ok o
  | a :: l' =>
      let u := upper a in
      if beq u (bs "EX") || beq u (bs "PX") || beq u (bs "EXAT") || beq u (bs "PXAT") then
        match l' with
        | [] => Err not_int
        | v :: l'' =>
            match parse_i64 v with
            | None => Err not_int
            | Some n =>
                if (n <=? 0) && (beq u (bs "EX") || beq u (bs "PX")) then
                  Err (err (bs "ERR invalid expire time in 'set' command"))
                else
                  let expire_at :=
                    if beq u (bs "EX") then wrap_u64 (now + wrap_u64 (wrap_u64 n * 1000))
                    else if beq u (bs "PX") then wrap_u64 (now + wrap_u64 n)
                    else if beq u (bs "EXAT") then wrap_u64 (wrap_u64 n * 1000)
                    else wrap_u64 n in
                  set_opts now l''
                    {| so_expires := Some (Some expire_at); so_keep_ttl := so_keep_ttl o;
                       so_nx := so_nx o; so_xx := so_xx o; so_want_get := so_want_get o |}
            end
        end
      else if beq u (bs "KEEPTTL") then
        set_opts now l' {| so_expires := so_expires o; so_keep_ttl := true;
                           so_nx := so_nx o; so_xx := so_xx o; so_want_get := so_want_get o |}
      else if beq u (bs "NX") then
        set_opts now l' {| so_expires := so_expires o; so_keep_ttl := so_keep_ttl o;
                           so_nx := true; so_xx := so_xx o; so_want_get := so_want_get o |}
      else if beq u (bs "XX") then
        set_opts now l' {| so_expires := so_expires o; so_keep_ttl := so_keep_ttl o;
                           so_nx := so_nx o; so_xx := true; so_want_get := so_want_get o |}
      else if beq u (bs "GET") then
        set_opts now l' {| so_expires := so_expires o; so_keep_ttl := so_keep_ttl o;
                           so_nx := so_nx o; so_xx := so_xx o; so_want_get := true |}
      else Err syntax
  end.

Definition set (ns : Z) (args : list Bytes) : prog Reply := reply (
  _ ← return_if (zlen args <? 2) (arity (bs "set"));
  now ← now_ms_;
  o ← try_ (set_opts now (drop 2 args) set_opts0);
  _ ← return_if (so_nx o && so_xx o) syntax;
  '(old, old_exp) ← read_str ns (arg args 0);
  _ ← return_if ((so_nx o && bool_decide (is_Some old))
                 || (so_xx o && bool_decide (old = None)))
        (if so_want_get o then bulk_or_null old else Null);
  let exp := if so_keep_ttl o then old_exp else so_expires o ≫= id in
  _ ← put_ ns (arg args 0) (DStr (arg args 1)) exp;
  mret (if so_want_get o then bulk_or_null old else ok)).

Definition setnx (ns : Z) (args : list Bytes) : prog Reply := reply (
  _ ← return_if (negb (zlen args =? 2)) (arity (bs "setnx"));
  v ← get_ ns (arg args 0);
  _ ← return_if (bool_decide (is_Some v)) (Int 0);
  _ ← put_ ns (arg args 0) (DStr (arg args 1)) None;
  mret (Int 1)).

Definition setex (ns : Z) (args : list Bytes) (ms : bool) : prog Reply := reply (
  _ ← return_if (negb (zlen args =? 3)) (arity (if ms then bs "psetex" else bs "setex"));
  n ← let_some (parse_i64 (arg args 1)) not_int;
  _ ← return_if (n <=? 0) (err (bs "ERR invalid expire time"));
  now ← now_ms_;
  let expire_at := wrap_u64 (now + if ms then wrap_u64 n else wrap_u64 (wrap_u64 n * 1000)) in
  _ ← put_ ns (arg args 0) (DStr (arg args 2)) (Some expire_at);
  mret ok).

Definition mget (ns : Z) (args : list Bytes) : prog Reply := reply (
  _ ← return_if (bool_decide (args = [])) (arity (bs "mget"));
  l ← cmd_map (fun k => v ← get_ ns k;
                 mret (match v with Some (DStr s) => Bulk s | _ => Null end)) args;
  mret (Array l)).

Definition put_pairs (ns : Z) (l : list (Bytes * Bytes)) : cmd unit :=
  cmd_iter (fun p : Bytes * Bytes => put_ ns p.1 (DStr p.2) None) l.

Definition mset (ns : Z) (args : list Bytes) : prog Reply := reply (
  _ ← return_if (bool_decide (args = []) || negb (Nat.even (length args))) (arity (bs "mset"));
  _ ← put_pairs ns (pairs args);
  mret ok).

Definition msetnx (ns : Z) (args : list Bytes) : prog Reply := reply (
  _ ← return_if (bool_decide (args = []) || negb (Nat.even (length args)))
        (arity (bs "msetnx"));
  _ ← cmd_iter (fun p : Bytes * Bytes => v ← get_ ns p.1;
                  return_if (bool_decide (is_Some v)) (Int 0)) (pairs args);
  _ ← put_pairs ns (pairs args);
  mret (Int 1)).

Definition append (ns : Z) (args : list Bytes) : prog Reply := reply (
  _ ← return_if (negb (zlen args =? 2)) (arity (bs "append"));
  '(old, exp) ← str_or_empty ns (arg args 0);
  let buf := old ++ arg args 1 in
  _ ← put_ ns (arg args 0) (DStr buf) exp;
  mret (Int (zlen buf))).

Definition strlen (ns : Z) (args : list Bytes) : prog Reply := reply (
  _ ← return_if (negb (zlen args =? 1)) (arity (bs "strlen"));
  '(v, _) ← read_str ns (arg args 0);
  mret (Int (match v with Some b => zlen b | None => 0 end))).

(** ** Counters *)

Definition incr_by (ns : Z) (args : list Bytes) (sign : Z) (implicit : bool) : prog Reply :=
  reply (
  let want := if implicit then 1 else 2 in
  _ ← return_if (negb (zlen args =? want)) (arity (bs "incr"));
  delta ← (if implicit then mret sign
           else match parse_i64 (arg args 1) with
                | Some d => mret (wrap_i64 (sign * d))
                | None => early not_int
                end);
  '(old, exp) ← read_str ns (arg args 0);
  cur ← (match old with
         | Some b => let_some (parse_i64 b) not_int
         | None => mret 0
         end);
  newv ← let_some (checked_add_i64 cur delta) not_int;
  _ ← put_ ns (arg args 0) (DStr (dec newv)) exp;
  mret (Int newv)).

Definition incr_by_float (ns : Z) (args : list Bytes) : prog Reply := reply (
  _ ← return_if (negb (zlen args =? 2)) (arity (bs "incrbyfloat"));
  delta ← let_some (parse_f64 (arg args 1)) not_float;
  '(old, exp) ← read_str ns (arg args 0);
  cur ← (match old with
         | Some b => let_some (parse_f64 b) not_float
         | None => mret f64_zero
         end);
  let newv := f64_add cur delta in
  _ ← return_if (is_nan newv || is_infinite newv)
        (err (bs "ERR increment would produce NaN or Infinity"));
  let s := fmt_f64 newv in
  _ ← put_ ns (arg args 0) (DStr s) exp;
  mret (bulk_str s)).

Definition getset (ns : Z) (args : list Bytes) : prog Reply := reply (
  _ ← return_if (negb (zlen args =? 2)) (arity (bs "getset"));
  '(old, _) ← read_str ns (arg args 0);
  _ ← put_ ns (arg args 0) (DStr (arg args 1)) None;
  mret (bulk_or_null old)).

Definition getdel (ns : Z) (args : list Bytes) : prog Reply := reply (
  _ ← return_if (negb (zlen args =? 1)) (arity (bs "getdel"));
  '(old, _) ← read_str ns (arg args 0);
  _ ← (if bool_decide (is_Some old) then del_ ns (arg args 0) else mret false);
  mret (bulk_or_null old)).

(** The loop over the options of GETEX: the new expiry and whether to write it. *)
Fixpoint getex_opts (now : Z) (l : list Bytes) (new_exp : option Z) (changed : bool)
  : result Resp (option Z * bool) :=
  match l with
  | [] => Ok (new_exp, changed)
  | a :: l' =>
      let u := upper a in
      if beq u (bs "PERSIST") then getex_opts now l' None true
      else if beq u (bs "EX") || beq u (bs "PX") || beq u (bs "EXAT") || beq u (bs "PXAT") then
        match l' with
        | [] => Err not_int
        | v :: l'' =>
            match parse_i64 v with
            | None => Err not_int
            | Some n =>
                getex_opts now l''
                  (Some (if beq u (bs "EX") then wrap_u64 (now + wrap_u64 (wrap_u64 n * 1000))
                         else if beq u (bs "PX") then wrap_u64 (now + wrap_u64 n)
                         else if beq u (bs "EXAT") then wrap_u64 (wrap_u64 n * 1000)
                         else wrap_u64 n)) true
            end
        end
      else Err syntax
  end.

Definition getex (ns : Z) (args : list Bytes) : prog Reply := reply (
  _ ← return_if (bool_decide (args = [])) (arity (bs "getex"));
  '(old, cur_exp) ← read_str ns (arg args 0);
  val ← let_some old Null;
  now ← now_ms_;
  '(new_exp, changed) ← try_ (getex_opts now (drop 1 args) cur_exp false);
  _ ← (if changed : bool then put_ ns (arg args 0) (DStr val) new_exp else mret tt);
  mret (Bulk val)).

Definition getrange (ns : Z) (args : list Bytes) : prog Reply := reply (
  _ ← return_if (negb (zlen args =? 3)) (arity (bs "getrange"));
  start ← let_some (parse_i64 (arg args 1)) not_int;
  stop ← let_some (parse_i64 (arg args 2)) not_int;
  '(v, _) ← str_or_empty ns (arg args 0);
  mret (match norm_range start stop (zlen v) with
        | Some (s, e) => Bulk (slice_incl s e v)
        | None => bulk_str []
        end)).

(** [buf.resize(n, 0)] for [n >= buf.len()] *)
Definition resize (n : nat) (buf : Bytes) : Bytes := buf ++ repeat 0 (n - length buf).

(** [buf[o..o + d.len()].copy_from_slice(d)] *)
Definition copy_at (o : nat) (d buf : Bytes) : Bytes :=
  take o buf ++ d ++ drop (o + length d) buf.

(** [opt.filter(p)] *)
Definition filter_opt {A} (p : A -> bool) (o : option A) : option A :=
  match o with Some a => if p a then Some a else None | None => None end.

Definition setrange (ns : Z) (args : list Bytes) : prog Reply := reply (
  _ ← return_if (negb (zlen args =? 3)) (arity (bs "setrange"));
  offset ← let_some (filter_opt (fun o => 0 <=? o) (parse_i64 (arg args 1)))
             (err (bs "ERR offset is out of range"));
  _ ← return_if (512 * 1024 * 1024 <? offset + zlen (arg args 2))
        (err (bs "ERR string exceeds maximum allowed size (512MB)"));
  '(old, exp) ← str_or_empty ns (arg args 0);
  let e := (Z.to_nat offset + length (arg args 2))%nat in
  let buf := if (length old <? e)%nat then resize e old else old in
  let buf := copy_at (Z.to_nat offset) (arg args 2) buf in
  _ ← put_ ns (arg args 0) (DStr buf) exp;
  mret (Int (zlen buf))).

(** ** Bitmaps *)

(** [(b >> i) & 1] *)
Definition bit_at (b i : Z) : Z := Z.land (Z.shiftr b i) 1.

Definition count_ones (b : Z) : Z := foldl (fun n i => n + bit_at b i) 0 (seqZ 0 8).

Definition setbit (ns : Z) (args : list Bytes) : prog Reply := reply (
  _ ← return_if (negb (zlen args =? 3)) (arity (bs "setbit"));
  pos ← let_some (filter_opt (fun p => (0 <=? p) && (p <? 4294967296)) (parse_i64 (arg args 1)))
          (err (bs "ERR bit offset is not an integer or out of range"));
  bit ← (match parse_i64 (arg args 2) with
         | Some 0 => mret 0
         | Some 1 => mret 1
         | _ => early (err (bs "ERR bit is not an integer or out of range"))
         end);
  '(old, exp) ← str_or_empty ns (arg args 0);
  let byte_idx := Z.to_nat (pos / 8) in
  let bit_idx := 7 - pos mod 8 in
  let buf := if (length old <=? byte_idx)%nat then resize (byte_idx + 1) old else old in
  let b := default 0 (buf !! byte_idx) in
  let old_bit := bit_at b bit_idx in
  let b' := if bit =? 1 then Z.lor b (Z.shiftl 1 bit_idx)
            else Z.land b (255 - Z.shiftl 1 bit_idx) in
  _ ← put_ ns (arg args 0) (DStr (<[byte_idx := b']> buf)) exp;
  mret (Int old_bit)).

Definition getbit (ns : Z) (args : list Bytes) : prog Reply := reply (
  _ ← return_if (negb (zlen args =? 2)) (arity (bs "getbit"));
  pos ← let_some (filter_opt (fun p => 0 <=? p) (parse_i64 (arg args 1)))
          (err (bs "ERR bit offset is not an integer or out of range"));
  '(v, _) ← str_or_empty ns (arg args 0);
  match v !! Z.to_nat (pos / 8) with
  | None => mret (Int 0)
  | Some b => mret (Int (bit_at b (7 - pos mod 8)))
  end).

Definition sum_ones (l : Bytes) : Z := foldl (fun n b => n + count_ones b) 0 l.

(** The loop over the bit positions [s..=e]. *)
Definition count_bits (v : Bytes) (s e : Z) : Z :=
  foldl (fun n bit =>
    if bit_at (default 0 (v !! Z.to_nat (bit / 8))) (7 - bit mod 8) =? 1 then n + 1 else n)
    0 (seqZ s (e - s + 1)).

Definition bitcount (ns : Z) (args : list Bytes) : prog Reply := reply (
  _ ← return_if (bool_decide (args = [])) (arity (bs "bitcount"));
  '(v, _) ← str_or_empty ns (arg args 0);
  _ ← return_if (zlen args =? 1) (Int (sum_ones v));
  _ ← return_if (zlen args <? 3) syntax;
  start ← let_some (parse_i64 (arg args 1)) not_int;
  stop ← let_some (parse_i64 (arg args 2)) not_int;
  let bit_mode := (zlen args =? 4) && beq (upper (arg args 3)) (bs "BIT") in
  _ ← return_if ((zlen args =? 4) && negb bit_mode && negb (beq (upper (arg args 3)) (bs "BYTE")))
        syntax;
  if bit_mode : bool then
    '(s, e) ← let_some (norm_range start stop (zlen v * 8)) (Int 0);
    mret (Int (count_bits v s e))
  else
    mret (match norm_range start stop (zlen v) with
          | Some (s, e) => Int (sum_ones (slice_incl s e v))
          | None => Int 0
          end)).

(** ** Keys *)

Definition b2i (b : bool) : Z := if b then 1 else 0.

Definition del (ns : Z) (args : list Bytes) : prog Reply := reply (
  _ ← return_if (bool_decide (args = [])) (arity (bs "del"));
  n ← cmd_fold (fun n k => existed ← del_ ns k; mret (n + b2i existed)) 0 args;
  mret (Int n)).

Definition exists_ (ns : Z) (args : list Bytes) : prog Reply := reply (
  _ ← return_if (bool_decide (args = [])) (arity (bs "exists"));
  n ← cmd_fold (fun n k => v ← get_ ns k; mret (n + b2i (bool_decide (is_Some v)))) 0 args;
  mret (Int n)).

Definition type_cmd (ns : Z) (args : list Bytes) : prog Reply := reply (
  _ ← return_if (negb (zlen args =? 1)) (arity (bs "type"));
  v ← get_ ns (arg args 0);
  mret (Simple (match v with Some d => type_name d | None => bs "none" end))).

Definition ttl (ns : Z) (args : list Bytes) (ms : bool) : prog Reply := reply (
  _ ← return_if (negb (zlen args =? 1)) (arity (bs "ttl"));
  v ← get_ ns (arg args 0);
  _ ← return_if (bool_decide (v = None)) (Int (-2));
  e ← expiry_ ns (arg args 0);
  match e with
  | Some expire_at =>
      now ← now_ms_;
      let rem := saturating_sub_u64 expire_at now in
      mret (Int (wrap_i64 (if ms then rem else (rem + 999) / 1000)))
  | None => mret (Int (-1))
  end).

Definition expiretime (ns : Z) (args : list Bytes) (ms : bool) : prog Reply := reply (
  _ ← return_if (negb (zlen args =? 1)) (arity (bs "expiretime"));
  v ← get_ ns (arg args 0);
  _ ← return_if (bool_decide (v = None)) (Int (-2));
  e ← expiry_ ns (arg args 0);
  mret (match e with
        | Some expire_at => Int (wrap_i64 (if ms then expire_at else expire_at / 1000))
        | None => Int (-1)
        end)).

Inductive ExpireCond : Type := CondNX | CondXX | CondGT | CondLT.

Definition parse_cond (a : Bytes) : option ExpireCond :=
  let u := upper a in
  if beq u (bs "NX") then Some CondNX
  else if beq u (bs "XX") then Some CondXX
  else if beq u (bs "GT") then Some CondGT
  else if beq u (bs "LT") then Some CondLT
  else None.

(** The absolute expiry the argument asks for. *)
Definition expire_at_of (unit : ExpireUnit) (absolute : bool) (now n : Z) : Z :=
  match unit, absolute with
  | Sec, false => saturating_add_signed now (saturating_mul_i64 n 1000)
  | Ms, false => saturating_add_signed now n
  | Sec, true => saturating_mul_u64 (Z.max n 0) 1000
  | Ms, true => Z.max n 0
  end.

Definition cond_allows (cond : option ExpireCond) (cur : option Z) (expire_at : Z) : bool :=
  match cond with
  | Some CondNX => bool_decide (cur = None)
  | Some CondXX => bool_decide (is_Some cur)
  | Some CondGT => match cur with Some c => c <? expire_at | None => false end
  | Some CondLT => match cur with Some c => expire_at <? c | None => true end
  | None => true
  end.

Definition expire (ns : Z) (args : list Bytes) (unit : ExpireUnit) (absolute : bool)
  : prog Reply := reply (
  _ ← return_if (zlen args <? 2) (arity (bs "expire"));
  n ← let_some (parse_i64 (arg args 1)) not_int;
  cond ← (if zlen args =? 3 then
            match parse_cond (arg args 2) with
            | Some c => mret (Some c)
            | None => early syntax
            end
          else if 3 <? zlen args then early syntax else mret None);
  v ← get_ ns (arg args 0);
  val ← let_some v (Int 0);
  now ← now_ms_;
  let expire_at := expire_at_of unit absolute now n in
  cur ← expiry_ ns (arg args 0);
  _ ← return_if (negb (cond_allows cond cur expire_at)) (Int 0);
  _ ← (if expire_at <=? now then _ ← del_ ns (arg args 0); mret tt
       else put_ ns (arg args 0) val (Some expire_at));
  mret (Int 1)).

Definition persist (ns : Z) (args : list Bytes) : prog Reply := reply (
  _ ← return_if (negb (zlen args =? 1)) (arity (bs "persist"));
  v ← get_ ns (arg args 0);
  val ← let_some v (Int 0);
  e ← expiry_ ns (arg args 0);
  _ ← return_if (bool_decide (e = None)) (Int 0);
  _ ← put_ ns (arg args 0) val None;
  mret (Int 1)).

Definition rename (ns : Z) (args : list Bytes) (nx : bool) : prog Reply := reply (
  _ ← return_if (negb (zlen args =? 2)) (arity (bs "rename"));
  v ← get_ ns (arg args 0);
  val ← let_some v (err (bs "ERR no such key"));
  _ ← (if nx then d ← get_ ns (arg args 1); return_if (bool_decide (is_Some d)) (Int 0)
       else mret tt);
  exp ← expiry_ ns (arg args 0);
  _ ← del_ ns (arg args 0);
  _ ← put_ ns (arg args 1) val exp;
  mret (if nx then Int 1 else ok)).

(** The options of COPY: destination database and REPLACE. *)
Fixpoint copy_opts (l : list Bytes) (dst_ns : Z) (replace : bool) : result Resp (Z * bool) :=
  match l with
  | [] => Ok (dst_ns, replace)
  | a :: l' =>
      let u := upper a in
      if beq u (bs "DB") then
        match l' with
        | [] => Err (err (bs "ERR DB index is out of range"))
        | v :: l'' =>
            match filter_opt (fun n => (0 <=? n) && (n <? 16)) (parse_i64 v) with
            | Some n => copy_opts l'' n replace
            | None => Err (err (bs "ERR DB index is out of range"))
            end
        end
      else if beq u (bs "REPLACE") then copy_opts l' dst_ns true
      else Err syntax
  end.

Definition copy (ns : Z) (args : list Bytes) : prog Reply := reply (
  _ ← return_if (zlen args <? 2) (arity (bs "copy"));
  '(dst_ns, replace) ← try_ (copy_opts (drop 2 args) ns false);
  v ← get_ ns (arg args 0);
  val ← let_some v (Int 0);
  _ ← (if replace : bool then mret tt
       else d ← get_ dst_ns (arg args 1); return_if (bool_decide (is_Some d)) (Int 0));
  exp ← expiry_ ns (arg args 0);
  _ ← put_ dst_ns (arg args 1) val exp;
  mret (Int 1)).

Definition keys (ns : Z) (args : list Bytes) : prog Reply := reply (
  _ ← return_if (negb (zlen args =? 1)) (arity (bs "keys"));
  l ← keys_ ns;
  mret (Array (map Bulk (filter (fun k => glob_match (arg args 0) k = true) l)))).

Record ScanOpts := {
  sc_pattern : option Bytes;
  sc_count : Z;
  sc_type : option Bytes }.

Fixpoint scan_cmd_opts (l : list Bytes) (o : ScanOpts) : result Resp ScanOpts :=
  match l with
  | [] => Ok o
  | a :: l' =>
      let u := upper a in
      if beq u (bs "MATCH") then
        match l' with
        | [] => Err syntax
        | p :: l'' => scan_cmd_opts l''
            {| sc_pattern := Some p; sc_count := sc_count o; sc_type := sc_type o |}
        end
      else if beq u (bs "COUNT") then
        match l' with
        | [] => Err syntax
        | c :: l'' =>
            match filter_opt (fun c => 0 <? c) (parse_i64 c) with
            | Some c => scan_cmd_opts l''
                {| sc_pattern := sc_pattern o; sc_count := c; sc_type := sc_type o |}
            | None => Err syntax
            end
        end
      else if beq u (bs "TYPE") then
        match l' with
        | [] => Err syntax
        | t :: l'' => scan_cmd_opts l''
            {| sc_pattern := sc_pattern o; sc_count := sc_count o; sc_type := Some (lossy t) |}
        end
      else Err syntax
  end.

Definition pattern_ok (p : option Bytes) (k : Bytes) : bool :=
  match p with Some p => glob_match p k | None => true end.

Definition scan (ns : Z) (args : list Bytes) : prog Reply := reply (
  _ ← return_if (bool_decide (args = [])) (arity (bs "scan"));
  cursor ← let_some (filter_opt (fun c => 0 <=? c) (parse_i64 (arg args 0)))
             (err (bs "ERR invalid cursor"));
  o ← try_ (scan_cmd_opts (drop 1 args)
              {| sc_pattern := None; sc_count := 10; sc_type := None |});
  all ← keys_ ns;
  let '(next, page) := scan_page all cursor (sc_count o) in
  out ← cmd_fold (fun out k =>
          if negb (pattern_ok (sc_pattern o) k) then mret out
          else match sc_type o with
               | Some t =>
                   v ← get_ ns k;
                   mret (if match v with Some d => beq (type_name d) t | None => false end
                         then out ++ [Bulk k] else out)
               | None => mret (out ++ [Bulk k])
               end) [] page;
  mret (Array [bulk_str (dec_u next); Array out])).

Definition randomkey (ns : Z) (args : list Bytes) : prog Reply := reply (
  l ← keys_ ns;
  _ ← return_if (bool_decide (l = [])) Null;
  now ← now_ms_;
  let '(i, _) := rng_below (zlen l) (rng_seeded (Z.lxor now (zlen l))) in
  mret (Bulk (arg l (Z.to_nat i)))).

Definition del_all (ns : Z) (l : list Bytes) : cmd unit :=
  cmd_iter (fun k => _ ← del_ ns k; mret tt) l.

Definition flushdb (ns : Z) (args : list Bytes) : prog Reply := reply (
  l ← keys_ ns; _ ← del_all ns l; mret ok).

Definition flushall (args : list Bytes) : prog Reply := reply (
  _ ← cmd_iter (fun ns => l ← keys_ ns; del_all ns l) (seqZ 0 16); mret ok).

(** [keys.iter().filter_map(|k| db.get(a, k).map(|v| (k, v, db.expiry(a, k))))] *)
Definition read_all (ns : Z) (l : list Bytes) : cmd (list (Bytes * Datum * option Z)) :=
  cmd_fold (fun acc k =>
    v ← get_ ns k;
    match v with
    | Some d => e ← expiry_ ns k; mret (acc ++ [(k, d, e)])
    | None => mret acc
    end) [] l.

Definition put_all (ns : Z) (l : list (Bytes * Datum * option Z)) : cmd unit :=
  cmd_iter (fun kde : Bytes * Datum * option Z => put_ ns kde.1.1 kde.1.2 kde.2) l.

Definition swapdb (args : list Bytes) : prog Reply := reply (
  _ ← return_if (negb (zlen args =? 2)) (arity (bs "swapdb"));
  a ← let_some (parse_i64 (arg args 0)) not_int;
  b ← let_some (parse_i64 (arg args 1)) not_int;
  _ ← return_if (negb ((0 <=? a) && (a <? 16)) || negb ((0 <=? b) && (b <? 16)))
        (err (bs "ERR DB index is out of range"));
  _ ← return_if (a =? b) ok;
  keys_a ← keys_ a;
  keys_b ← keys_ b;
  vals_a ← read_all a keys_a;
  vals_b ← read_all b keys_b;
  _ ← del_all a keys_a;
  _ ← del_all b keys_b;
  _ ← put_all b vals_a;
  _ ← put_all a vals_b;
  mret ok).

Definition encoding (d : Datum) : Bytes :=
  match d with
  | DStr _ => bs "embstr"
  | DHash _ => bs "hashtable"
  | DList _ => bs "quicklist"
  | DSet _ => bs "hashtable"
  | DZSet _ => bs "skiplist"
  | DRow _ => bs "raw"
  | DStream _ => bs "stream"
  end.

Definition object (ns : Z) (args : list Bytes) : prog Reply := reply (
  _ ← return_if (zlen args <? 2) (arity (bs "object"));
  v ← get_ ns (arg args 1);
  d ← let_some v (err (bs "ERR no such key"));
  let sub := upper (arg args 0) in
  mret (if beq sub (bs "ENCODING") then bulk_str (encoding d)
        else if beq sub (bs "REFCOUNT") then Int 1
        else if beq sub (bs "IDLETIME") then Int 0
        else if beq sub (bs "FREQ") then Int 0
        else err (bs "ERR Unknown OBJECT subcommand '" ++ lossy (arg args 0) ++ bs "'"))).
