(* ===== verification/CmdHashList.v ===== *)
(** * Hash and list commands (src/redis/cmd_hash_list.rs)

    One definition per command, as programs over the trait [Db]. The replies that list a
    hash sort its fields, so no command's answer depends on the map's iteration order. *)

From S2P Require Import Prelude Util Resp Glob Mvcc Engine CmdString.

(** ** Hashes *)

(** [h.iter().collect()] then [sort_by(|a, b| a.0.cmp(&b.0))] *)
Definition entry_le (a b : Bytes * Bytes) : Prop := bytes_le a.1 b.1.
#[export] Instance entry_le_dec : RelDecision entry_le.
Proof. intros a b. unfold entry_le. apply _. Defined.

Definition sorted_entries (h : gmap Bytes Bytes) : list (Bytes * Bytes) :=
  merge_sort entry_le (map_to_list h).

(** Insert pairs in order, counting the fields that were new. *)
Definition insert_pairs (h : gmap Bytes Bytes) (l : list (Bytes * Bytes))
  : gmap Bytes Bytes * Z :=
  foldl (fun acc p =>
    (<[p.1 := p.2]> acc.1, acc.2 + if bool_decide (acc.1 !! p.1 = None) then 1 else 0)) (h, 0) l.

Definition hset (ns : Z) (args : list Bytes) (hmset_compat : bool) : prog Reply := reply (
  _ ← return_if ((zlen args <? 3) || Nat.even (length args))
        (arity (if hmset_compat then bs "hmset" else bs "hset"));
  '(h, exp) ← read_hash ns (arg args 0);
  let '(h, added) := insert_pairs h (pairs (drop 1 args)) in
  _ ← put_ ns (arg args 0) (DHash h) exp;
  mret (if hmset_compat then ok else Int added)).

Definition hsetnx (ns : Z) (args : list Bytes) : prog Reply := reply (
  _ ← return_if (negb (zlen args =? 3)) (arity (bs "hsetnx"));
  '(h, exp) ← read_hash ns (arg args 0);
  _ ← return_if (bool_decide (is_Some (h !! arg args 1))) (Int 0);
  _ ← put_ ns (arg args 0) (DHash (<[arg args 1 := arg args 2]> h)) exp;
  mret (Int 1)).

Definition hget (ns : Z) (args : list Bytes) : prog Reply := reply (
  _ ← return_if (negb (zlen args =? 2)) (arity (bs "hget"));
  '(h, _) ← read_hash ns (arg args 0);
  mret (bulk_or_null (h !! arg args 1))).

Definition hmget (ns : Z) (args : list Bytes) : prog Reply := reply (
  _ ← return_if (zlen args <? 2) (arity (bs "hmget"));
  '(h, _) ← read_hash ns (arg args 0);
  mret (Array (map (fun f => bulk_or_null (h !! f)) (drop 1 args)))).

(** Remove fields in order, counting those that were present. *)
Definition remove_fields (h : gmap Bytes Bytes) (l : list Bytes) : gmap Bytes Bytes * Z :=
  foldl (fun acc f =>
    (delete f acc.1, acc.2 + b2i (bool_decide (is_Some (acc.1 !! f))))) (h, 0) l.

Definition hdel (ns : Z) (args : list Bytes) : prog Reply := reply (
  _ ← return_if (zlen args <? 2) (arity (bs "hdel"));
  '(h, exp) ← read_hash ns (arg args 0);
  let '(h, removed) := remove_fields h (drop 1 args) in
  _ ← store_coll ns (arg args 0) (DHash h) exp;
  mret (Int removed)).

Definition hlen (ns : Z) (args : list Bytes) : prog Reply := reply (
  _ ← return_if (negb (zlen args =? 1)) (arity (bs "hlen"));
  '(h, _) ← read_hash ns (arg args 0);
  mret (Int (Z.of_nat (size h)))).

Definition hexists (ns : Z) (args : list Bytes) : prog Reply := reply (
  _ ← return_if (negb (zlen args =? 2)) (arity (bs "hexists"));
  '(h, _) ← read_hash ns (arg args 0);
  mret (Int (b2i (bool_decide (is_Some (h !! arg args 1)))))).

Definition hkeys (ns : Z) (args : list Bytes) (want_keys : bool) : prog Reply := reply (
  _ ← return_if (negb (zlen args =? 1)) (arity (if want_keys then bs "hkeys" else bs "hvals"));
  '(h, _) ← read_hash ns (arg args 0);
  mret (Array (map (fun kv : Bytes * Bytes => Bulk (if want_keys then kv.1 else kv.2))
                 (sorted_entries h)))).

Definition hgetall (ns : Z) (args : list Bytes) : prog Reply := reply (
  _ ← return_if (negb (zlen args =? 1)) (arity (bs "hgetall"));
  '(h, _) ← read_hash ns (arg args 0);
  mret (RMap (map (fun kv : Bytes * Bytes => (Bulk kv.1, Bulk kv.2)) (sorted_entries h)))).

Definition hstrlen (ns : Z) (args : list Bytes) : prog Reply := reply (
  _ ← return_if (negb (zlen args =? 2)) (arity (bs "hstrlen"));
  '(h, _) ← read_hash ns (arg args 0);
  mret (Int (match h !! arg args 1 with Some v => zlen v | None => 0 end))).

Definition hincrby (ns : Z) (args : list Bytes) : prog Reply := reply (
  _ ← return_if (negb (zlen args =? 3)) (arity (bs "hincrby"));
  delta ← let_some (parse_i64 (arg args 2)) not_int;
  '(h, exp) ← read_hash ns (arg args 0);
  cur ← (match h !! arg args 1 with
         | Some v => let_some (parse_i64 v) (err (bs "ERR hash value is not an integer"))
         | None => mret 0
         end);
  newv ← let_some (checked_add_i64 cur delta) not_int;
  _ ← put_ ns (arg args 0) (DHash (<[arg args 1 := dec newv]> h)) exp;
  mret (Int newv)).

Definition hincrbyfloat (ns : Z) (args : list Bytes) : prog Reply := reply (
  _ ← return_if (negb (zlen args =? 3)) (arity (bs "hincrbyfloat"));
  delta ← let_some (parse_f64 (arg args 2)) not_float;
  '(h, exp) ← read_hash ns (arg args 0);
  cur ← (match h !! arg args 1 with
         | Some v => let_some (parse_f64 v) (err (bs "ERR hash value is not a float"))
         | None => mret f64_zero
         end);
  let newv := f64_add cur delta in
  _ ← return_if (is_nan newv || is_infinite newv)
        (err (bs "ERR increment would produce NaN or Infinity"));
  let s := fmt_f64 newv in
  _ ← put_ ns (arg args 0) (DHash (<[arg args 1 := s]> h)) exp;
  mret (bulk_str s)).

(** [(-count) as usize] for a negative count: the negation wraps. *)
Definition neg_as_usize (count : Z) : Z := wrap_u64 (wrap_i64 (- count)).

Definition hrandfield (ns : Z) (args : list Bytes) : prog Reply := reply (
  _ ← return_if (bool_decide (args = []) || (3 <? zlen args)) (arity (bs "hrandfield"));
  '(h, _) ← read_hash ns (arg args 0);
  let fields := sorted_entries h in
  now ← now_ms_;
  let rng := rng_seeded (Z.lxor now (zlen fields)) in
  _ ← (if zlen args =? 1 then
         match fields !! Z.to_nat (fst (rng_below (zlen fields) rng)) with
         | None => early Null
         | Some kv => early (Bulk kv.1)
         end
       else mret tt);
  count ← let_some (parse_i64 (arg args 1)) not_int;
  let with_values := (zlen args =? 3) && beq (upper (arg args 2)) (bs "WITHVALUES") in
  _ ← return_if ((zlen args =? 3) && negb with_values) syntax;
  let picked :=
    if 0 <=? count
    then fst (fst (draw_distinct (Z.to_nat (Z.min count (zlen fields))) fields rng))
    else draw_repeat (Z.to_nat (neg_as_usize count)) fields rng in
  mret (Array (concat (map (fun kv : Bytes * Bytes =>
    Bulk kv.1 :: if with_values then [Bulk kv.2] else []) picked)))).

Record HScanOpts := { hs_pattern : option Bytes; hs_count : Z; hs_novalues : bool }.

Fixpoint hscan_opts (l : list Bytes) (o : HScanOpts) : result Resp HScanOpts :=
  match l with
  | [] => Ok o
  | a :: l' =>
      let u := upper a in
      if beq u (bs "MATCH") then
        match l' with
        | [] => Err syntax
        | p :: l'' => hscan_opts l''
            {| hs_pattern := Some p; hs_count := hs_count o; hs_novalues := hs_novalues o |}
        end
      else if beq u (bs "COUNT") then
        match l' with
        | [] => Err syntax
        | c :: l'' =>
            match filter_opt (fun c => 0 <? c) (parse_i64 c) with
            | Some c => hscan_opts l''
                {| hs_pattern := hs_pattern o; hs_count := c; hs_novalues := hs_novalues o |}
            | None => Err syntax
            end
        end
      else if beq u (bs "NOVALUES") then
        hscan_opts l' {| hs_pattern := hs_pattern o; hs_count := hs_count o; hs_novalues := true |}
      else Err syntax
  end.

Definition hscan (ns : Z) (args : list Bytes) : prog Reply := reply (
  _ ← return_if (zlen args <? 2) (arity (bs "hscan"));
  cursor ← let_some (filter_opt (fun c => 0 <=? c) (parse_i64 (arg args 1)))
             (err (bs "ERR invalid cursor"));
  o ← try_ (hscan_opts (drop 2 args)
              {| hs_pattern := None; hs_count := 10; hs_novalues := false |});
  '(h, _) ← read_hash ns (arg args 0);
  let '(next, page) := scan_page (sorted_entries h) cursor (hs_count o) in
  let out := concat (map (fun kv : Bytes * Bytes =>
    if negb (pattern_ok (hs_pattern o) kv.1) then []
    else Bulk kv.1 :: if hs_novalues o then [] else [Bulk kv.2]) page) in
  mret (Array [bulk_str (dec_u next); Array out])).

(** ** Lists *)

Definition push_front (v : Bytes) (l : list Bytes) : list Bytes := v :: l.
Definition push_back (v : Bytes) (l : list Bytes) : list Bytes := l ++ [v].

Definition pop_front (l : list Bytes) : option (Bytes * list Bytes) :=
  match l with v :: l' => Some (v, l') | [] => None end.
Definition pop_back (l : list Bytes) : option (Bytes * list Bytes) :=
  v ← last l; Some (v, take (length l - 1) l).

Definition pop_end (left : bool) (l : list Bytes) : option (Bytes * list Bytes) :=
  if left then pop_front l else pop_back l.
Definition push_end (left : bool) (v : Bytes) (l : list Bytes) : list Bytes :=
  if left then push_front v l else push_back v l.

Definition push (ns : Z) (args : list Bytes) (left exists_only : bool) : prog Reply := reply (
  _ ← return_if (zlen args <? 2) (arity (if left then bs "lpush" else bs "rpush"));
  '(l, exp) ← read_list ns (arg args 0);
  _ ← return_if (exists_only && bool_decide (l = [])) (Int 0);
  let l := foldl (fun l v => push_end left v l) l (drop 1 args) in
  _ ← put_ ns (arg args 0) (DList l) exp;
  mret (Int (zlen l))).

(** [for _ in 0..n { if let Some(v) = l.pop() { popped.push(v) } }] *)
Fixpoint pop_n (left : bool) (n : nat) (l : list Bytes) : list Bytes * list Bytes :=
  match n with
  | O => ([], l)
  | S n' =>
      match pop_end left l with
      | Some (v, l') => let '(popped, r) := pop_n left n' l' in (v :: popped, r)
      | None => pop_n left n' l
      end
  end.

(** The optional count of LPOP, RPOP and SPOP. *)
Definition pop_count (args : list Bytes) : cmd (option Z) :=
  match args !! 1%nat with
  | Some c =>
      n ← let_some (filter_opt (fun n => 0 <=? n) (parse_i64 c))
            (err (bs "ERR value is out of range, must be positive"));
      mret (Some n)
  | None => mret None
  end.

Definition pop (ns : Z) (args : list Bytes) (left : bool) : prog Reply := reply (
  _ ← return_if (bool_decide (args = []) || (2 <? zlen args))
        (arity (if left then bs "lpop" else bs "rpop"));
  count ← pop_count args;
  '(l, exp) ← read_list ns (arg args 0);
  _ ← return_if (bool_decide (l = [])) (if count is Some _ then NullArray else Null);
  let n := Z.min (default 1 count) (zlen l) in
  let '(popped, l) := pop_n left (Z.to_nat n) l in
  _ ← store_coll ns (arg args 0) (DList l) exp;
  mret (if count is Some _ then Array (map Bulk popped) else Bulk (arg popped 0))).

Definition llen (ns : Z) (args : list Bytes) : prog Reply := reply (
  _ ← return_if (negb (zlen args =? 1)) (arity (bs "llen"));
  '(l, _) ← read_list ns (arg args 0);
  mret (Int (zlen l))).

(** The elements [l.iter().skip(s).take(e - s + 1)] of the normalised range. *)
Definition list_range (start stop : Z) (l : list Bytes) : list Bytes :=
  match norm_range start stop (zlen l) with
  | Some (s, e) => take (Z.to_nat (e - s + 1)) (drop (Z.to_nat s) l)
  | None => []
  end.

Definition lrange (ns : Z) (args : list Bytes) : prog Reply := reply (
  _ ← return_if (negb (zlen args =? 3)) (arity (bs "lrange"));
  start ← let_some (parse_i64 (arg args 1)) not_int;
  stop ← let_some (parse_i64 (arg args 2)) not_int;
  '(l, _) ← read_list ns (arg args 0);
  mret (Array (map Bulk (list_range start stop l)))).

(** The position an index stands for, when it is inside the list. *)
Definition real_index (idx len : Z) : option Z :=
  let real := if idx <? 0 then len + idx else idx in
  if (real <? 0) || (len <=? real) then None else Some real.

Definition lindex (ns : Z) (args : list Bytes) : prog Reply := reply (
  _ ← return_if (negb (zlen args =? 2)) (arity (bs "lindex"));
  idx ← let_some (parse_i64 (arg args 1)) not_int;
  '(l, _) ← read_list ns (arg args 0);
  mret (match real_index idx (zlen l) with
        | Some real => bulk_or_null (l !! Z.to_nat real)
        | None => Null
        end)).

Definition lset (ns : Z) (args : list Bytes) : prog Reply := reply (
  _ ← return_if (negb (zlen args =? 3)) (arity (bs "lset"));
  idx ← let_some (parse_i64 (arg args 1)) not_int;
  '(l, exp) ← read_list ns (arg args 0);
  _ ← return_if (bool_decide (l = [])) (err (bs "ERR no such key"));
  real ← let_some (real_index idx (zlen l)) (err (bs "ERR index out of range"));
  _ ← put_ ns (arg args 0) (DList (<[Z.to_nat real := arg args 2]> l)) exp;
  mret ok).

(** The loop of LREM: the elements kept and the number removed; [bounded] is whether the
    limit applies. *)
Fixpoint lrem_loop (items : list Bytes) (target : Bytes) (bounded : bool) (limit removed : Z)
  : list Bytes * Z :=
  match items with
  | [] => ([], removed)
  | v :: items' =>
      if beq v target && (negb bounded || (removed <? limit))
      then lrem_loop items' target bounded limit (removed + 1)
      else let '(keep, r) := lrem_loop items' target bounded limit removed in (v :: keep, r)
  end.

Definition lrem_list (count : Z) (target : Bytes) (l : list Bytes) : list Bytes * Z :=
  let limit := Z.abs count in
  if 0 <=? count then lrem_loop l target (negb (limit =? 0)) limit 0
  else let '(keep, r) := lrem_loop (rev l) target true limit 0 in (rev keep, r).

Definition lrem (ns : Z) (args : list Bytes) : prog Reply := reply (
  _ ← return_if (negb (zlen args =? 3)) (arity (bs "lrem"));
  count ← let_some (parse_i64 (arg args 1)) not_int;
  '(l, exp) ← read_list ns (arg args 0);
  let '(keep, removed) := lrem_list count (arg args 2) l in
  _ ← store_coll ns (arg args 0) (DList keep) exp;
  mret (Int removed)).

Definition ltrim (ns : Z) (args : list Bytes) : prog Reply := reply (
  _ ← return_if (negb (zlen args =? 3)) (arity (bs "ltrim"));
  start ← let_some (parse_i64 (arg args 1)) not_int;
  stop ← let_some (parse_i64 (arg args 2)) not_int;
  '(l, exp) ← read_list ns (arg args 0);
  _ ← store_coll ns (arg args 0) (DList (list_range start stop l)) exp;
  mret ok).

(** [l.iter().position(|v| v == x)] *)
Fixpoint index_of (x : Bytes) (l : list Bytes) : option nat :=
  match l with
  | [] => None
  | v :: l' => if beq v x then Some 0%nat else S <$> index_of x l'
  end.

(** [Vector::insert(i, v)] for [i <= len] *)
Definition insert_at (i : nat) (v : Bytes) (l : list Bytes) : list Bytes :=
  take i l ++ v :: drop i l.

Definition linsert (ns : Z) (args : list Bytes) : prog Reply := reply (
  _ ← return_if (negb (zlen args =? 4)) (arity (bs "linsert"));
  before ← (let u := upper (arg args 1) in
            if beq u (bs "BEFORE") then mret true
            else if beq u (bs "AFTER") then mret false
            else early syntax);
  '(l, exp) ← read_list ns (arg args 0);
  _ ← return_if (bool_decide (l = [])) (Int 0);
  match index_of (arg args 2) l with
  | Some i =>
      let l := insert_at (if before : bool then i else S i) (arg args 3) l in
      _ ← put_ ns (arg args 0) (DList l) exp;
      mret (Int (zlen l))
  | None => mret (Int (-1))
  end).

Definition do_lmove (ns : Z) (src dst : Bytes) (from_left to_left : bool) : cmd Resp :=
  '(s, s_exp) ← read_list ns src;
  '(val, s) ← let_some (pop_end from_left s) Null;
  if beq src dst then
    _ ← put_ ns src (DList (push_end to_left val s)) s_exp;
    mret (Bulk val)
  else
    _ ← store_coll ns src (DList s) s_exp;
    '(d, d_exp) ← read_list ns dst;
    _ ← put_ ns dst (DList (push_end to_left val d)) d_exp;
    mret (Bulk val).

(** LEFT or RIGHT *)
Definition parse_side (a : Bytes) : cmd bool :=
  let u := upper a in
  if beq u (bs "LEFT") then mret true
  else if beq u (bs "RIGHT") then mret false
  else early syntax.

Definition lmove (ns : Z) (args : list Bytes) : prog Reply := reply (
  _ ← return_if (negb (zlen args =? 4)) (arity (bs "lmove"));
  from_left ← parse_side (arg args 2);
  to_left ← parse_side (arg args 3);
  do_lmove ns (arg args 0) (arg args 1) from_left to_left).

Definition lmove_compat (ns : Z) (args : list Bytes) : prog Reply := reply (
  _ ← return_if (negb (zlen args =? 2)) (arity (bs "rpoplpush"));
  do_lmove ns (arg args 0) (arg args 1) false true).

(** The options of LPOS: rank and count. *)
Fixpoint lpos_opts (l : list Bytes) (rank : Z) (count : option Z)
  : result Resp (Z * option Z) :=
  match l with
  | [] => Ok (rank, count)
  | a :: l' =>
      let u := upper a in
      if beq u (bs "RANK") then
        match l' with
        | [] => Err (err (bs "ERR RANK can't be zero"))
        | v :: l'' =>
            match filter_opt (fun r => negb (r =? 0)) (parse_i64 v) with
            | Some r => lpos_opts l'' r count
            | None => Err (err (bs "ERR RANK can't be zero"))
            end
        end
      else if beq u (bs "COUNT") then
        match l' with
        | [] => Err (err (bs "ERR COUNT can't be negative"))
        | v :: l'' =>
            match filter_opt (fun c => 0 <=? c) (parse_i64 v) with
            | Some c => lpos_opts l'' rank (Some c)
            | None => Err (err (bs "ERR COUNT can't be negative"))
            end
        end
      else Err syntax
  end.

(** The loop over the indexed items: skip the first matches, stop at the limit. *)
Fixpoint lpos_loop (items : list (Z * Bytes)) (target : Bytes) (skip limit : Z)
    (found : list Z) : list Z :=
  match items with
  | [] => found
  | (idx, v) :: items' =>
      if beq v target then
        if 0 <? skip then lpos_loop items' target (skip - 1) limit found
        else
          let found := found ++ [idx] in
          if negb (limit =? 0) && (limit <=? zlen found) then found
          else lpos_loop items' target skip limit found
      else lpos_loop items' target skip limit found
  end.

Definition enumerate (l : list Bytes) : list (Z * Bytes) := zip (seqZ 0 (zlen l)) l.

Definition lpos (ns : Z) (args : list Bytes) : prog Reply := reply (
  _ ← return_if (zlen args <? 2) (arity (bs "lpos"));
  '(rank, count) ← try_ (lpos_opts (drop 2 args) 1 None);
  '(l, _) ← read_list ns (arg args 0);
  let items := enumerate l in
  let found := lpos_loop (if 0 <? rank then items else rev items) (arg args 1)
                 (Z.abs rank - 1) (default 1 count) [] in
  mret (match count with
        | Some _ => Array (map Int found)
        | None => match found with i :: _ => Int i | [] => Null end
        end)).
