(* ===== verification/CmdSet.v ===== *)
(** * Set commands (src/redis/cmd_set_zset.rs, first half)

    One definition per command, as programs over the trait [Db]. Members are sorted before
    they are replied or drawn from, so no answer depends on the set's iteration order. *)

From S2P Require Import Prelude Util Resp Glob Mvcc Engine CmdString CmdHashList.

(** Insert members in order, counting the new ones. *)
Definition add_members (s : gset Bytes) (l : list Bytes) : gset Bytes * Z :=
  foldl (fun acc m => (acc.1 ∪ {[m]}, acc.2 + if bool_decide (m ∈ acc.1) then 0 else 1)) (s, 0) l.

(** Remove members in order, counting those that were present. *)
Definition remove_members (s : gset Bytes) (l : list Bytes) : gset Bytes * Z :=
  foldl (fun acc m => (acc.1 ∖ {[m]}, acc.2 + b2i (bool_decide (m ∈ acc.1)))) (s, 0) l.

Definition sorted_members (s : gset Bytes) : list Bytes := sort_keys (elements s).

Definition sadd (ns : Z) (args : list Bytes) : prog Reply := reply (
  _ ← return_if (zlen args <? 2) (arity (bs "sadd"));
  '(s, exp) ← read_set ns (arg args 0);
  let '(s, added) := add_members s (drop 1 args) in
  _ ← put_ ns (arg args 0) (DSet s) exp;
  mret (Int added)).

Definition srem (ns : Z) (args : list Bytes) : prog Reply := reply (
  _ ← return_if (zlen args <? 2) (arity (bs "srem"));
  '(s, exp) ← read_set ns (arg args 0);
  let '(s, removed) := remove_members s (drop 1 args) in
  _ ← store_coll ns (arg args 0) (DSet s) exp;
  mret (Int removed)).

Definition smembers (ns : Z) (args : list Bytes) : prog Reply := reply (
  _ ← return_if (negb (zlen args =? 1)) (arity (bs "smembers"));
  '(s, _) ← read_set ns (arg args 0);
  mret (SetReply (map Bulk (sorted_members s)))).

Definition sismember (ns : Z) (args : list Bytes) : prog Reply := reply (
  _ ← return_if (negb (zlen args =? 2)) (arity (bs "sismember"));
  '(s, _) ← read_set ns (arg args 0);
  mret (Int (b2i (bool_decide (arg args 1 ∈ s))))).

Definition smismember (ns : Z) (args : list Bytes) : prog Reply := reply (
  _ ← return_if (zlen args <? 2) (arity (bs "smismember"));
  '(s, _) ← read_set ns (arg args 0);
  mret (Array (map (fun m => Int (b2i (bool_decide (m ∈ s)))) (drop 1 args)))).

Definition scard (ns : Z) (args : list Bytes) : prog Reply := reply (
  _ ← return_if (negb (zlen args =? 1)) (arity (bs "scard"));
  '(s, _) ← read_set ns (arg args 0);
  mret (Int (Z.of_nat (size s)))).

Definition spop (ns : Z) (args : list Bytes) : prog Reply := reply (
  _ ← return_if (bool_decide (args = []) || (2 <? zlen args)) (arity (bs "spop"));
  count ← pop_count args;
  '(s, exp) ← read_set ns (arg args 0);
  _ ← return_if (bool_decide (s = ∅)) (if count is Some _ then SetReply [] else Null);
  let pool := sorted_members s in
  now ← now_ms_;
  let rng := rng_seeded (Z.lxor now (zlen pool)) in
  let n := Z.min (default 1 count) (zlen pool) in
  let popped := fst (fst (draw_distinct (Z.to_nat n) pool rng)) in
  let s := foldl (fun s m => s ∖ {[m]}) s popped in
  _ ← store_coll ns (arg args 0) (DSet s) exp;
  mret (if count is Some _ then SetReply (map Bulk popped) else Bulk (arg popped 0))).

Definition srandmember (ns : Z) (args : list Bytes) : prog Reply := reply (
  _ ← return_if (bool_decide (args = []) || (2 <? zlen args)) (arity (bs "srandmember"));
  '(s, _) ← read_set ns (arg args 0);
  let pool := sorted_members s in
  now ← now_ms_;
  let rng := rng_seeded (Z.lxor (Z.lxor now (zlen pool)) 24301) in
  match args !! 1%nat with
  | None => mret (bulk_or_null (pool !! Z.to_nat (fst (rng_below (zlen pool) rng))))
  | Some c =>
      count ← let_some (parse_i64 c) not_int;
      let out :=
        if 0 <=? count
        then fst (fst (draw_distinct (Z.to_nat (Z.min count (zlen pool))) pool rng))
        else draw_repeat (Z.to_nat (neg_as_usize count)) pool rng in
      mret (Array (map Bulk out))
  end).

Definition smove (ns : Z) (args : list Bytes) : prog Reply := reply (
  _ ← return_if (negb (zlen args =? 3)) (arity (bs "smove"));
  '(src, src_exp) ← read_set ns (arg args 0);
  _ ← return_if (negb (bool_decide (arg args 2 ∈ src))) (Int 0);
  let src := src ∖ {[arg args 2]} in
  if beq (arg args 0) (arg args 1) then
    _ ← put_ ns (arg args 0) (DSet (src ∪ {[arg args 2]})) src_exp;
    mret (Int 1)
  else
    '(dst, dst_exp) ← read_set ns (arg args 1);
    _ ← store_coll ns (arg args 0) (DSet src) src_exp;
    _ ← put_ ns (arg args 1) (DSet (dst ∪ {[arg args 2]})) dst_exp;
    mret (Int 1)).

(** The accumulator after one more input set. *)
Definition setop_step (op : SetOp) (acc : option (gset Bytes)) (s : gset Bytes) : gset Bytes :=
  match acc with
  | None => s
  | Some a =>
      match op with
      | Union => foldl (fun u m => u ∪ {[m]}) a (elements s)
      | Inter => foldl (fun r m => if bool_decide (m ∈ s) then r ∪ {[m]} else r) ∅ (elements a)
      | Diff => foldl (fun r m => r ∖ {[m]}) a (elements s)
      end
  end.

(** The loop over the input keys. *)
Definition setop_fold (ns : Z) (op : SetOp) (ks : list Bytes) : cmd (option (gset Bytes)) :=
  cmd_fold (fun acc k => '(s, _) ← read_set ns k; mret (Some (setop_step op acc s))) None ks.

Definition setop (ns : Z) (args : list Bytes) (op : SetOp) (store : bool) : prog Reply := reply (
  let min_args := if store then 2 else 1 in
  _ ← return_if (zlen args <? min_args) (arity (bs "sunion"));
  let ks := if store then drop 1 args else args in
  acc ← setop_fold ns op ks;
  let res := default ∅ acc in
  if store then
    _ ← store_coll ns (arg args 0) (DSet res) None;
    mret (Int (Z.of_nat (size res)))
  else mret (SetReply (map Bulk (sorted_members res)))).

Definition USIZE_MAX : Z := 2 ^ 64 - 1.

Definition sintercard (ns : Z) (args : list Bytes) : prog Reply := reply (
  _ ← return_if (zlen args <? 2) (arity (bs "sintercard"));
  numkeys ← let_some (filter_opt (fun n => 0 <? n) (parse_i64 (arg args 0)))
              (err (bs "ERR numkeys should be greater than 0"));
  _ ← return_if (zlen args <? 1 + numkeys) syntax;
  let nk := Z.to_nat numkeys in
  limit ← (if 1 + numkeys <? zlen args then
             if negb (zlen args =? 3 + numkeys) || negb (beq (upper (arg args (1 + nk))) (bs "LIMIT"))
             then early syntax
             else match filter_opt (fun l => 0 <=? l) (parse_i64 (arg args (2 + nk))) with
                  | Some l => mret (if l =? 0 then USIZE_MAX else l)
                  | None => early (err (bs "ERR LIMIT can't be negative"))
                  end
           else mret USIZE_MAX);
  acc ← setop_fold ns Inter (slice 1 (1 + nk) args);
  mret (Int (match acc with Some s => Z.min (Z.of_nat (size s)) limit | None => 0 end))).

Fixpoint scan_opts (l : list Bytes) (pattern : option Bytes) (count : Z)
  : result Resp (option Bytes * Z) :=
  match l with
  | [] => Ok (pattern, count)
  | a :: l' =>
      let u := upper a in
      if beq u (bs "MATCH") then
        match l' with
        | [] => Err syntax
        | p :: l'' => scan_opts l'' (Some p) count
        end
      else if beq u (bs "COUNT") then
        match l' with
        | [] => Err syntax
        | c :: l'' =>
            match filter_opt (fun c => 0 <? c) (parse_i64 c) with
            | Some c => scan_opts l'' pattern c
            | None => Err syntax
            end
        end
      else Err syntax
  end.

Definition sscan (ns : Z) (args : list Bytes) : prog Reply := reply (
  _ ← return_if (zlen args <? 2) (arity (bs "sscan"));
  cursor ← let_some (filter_opt (fun c => 0 <=? c) (parse_i64 (arg args 1)))
             (err (bs "ERR invalid cursor"));
  '(pattern, count) ← try_ (scan_opts (drop 2 args) None 10);
  '(s, _) ← read_set ns (arg args 0);
  let '(next, page) := scan_page (sorted_members s) cursor count in
  mret (Array [bulk_str (dec_u next);
               Array (map Bulk (filter (fun m => pattern_ok pattern m = true) page))])).
