(* ===== verification/ZSet.v ===== *)
(** * Sorted sets (src/mvcc/mod.rs, [ZSet])

    The two indexes and the operations that keep them in step. The score index is the sorted
    list of its elements, in the order of [OrderedFloat]: zeros equal, NaN above everything
    and equal to itself, then the member bytes. *)

From S2P Require Import Prelude Mvcc.
From Stdlib Require Import SpecFloat.

(** ** The order of the score index *)

(** A float as a triple whose lexicographic order is the order of the floats. *)
Definition score_key (f : f64) : Z * Z * Z :=
  match f with
  | S754_nan => (3, 0, 0)
  | S754_infinity false => (2, 0, 0)
  | S754_finite false m e => (1, e, Zpos m)
  | S754_zero _ => (0, 0, 0)
  | S754_finite true m e => (-1, - e, Zneg m)
  | S754_infinity true => (-2, 0, 0)
  end.

Definition key_ltb (a b : Z * Z * Z) : bool :=
  let '(a1, a2, a3) := a in let '(b1, b2, b3) := b in
  if a1 =? b1 then if a2 =? b2 then a3 <? b3 else a2 <? b2 else a1 <? b1.

Definition score_ltb (a b : f64) : bool := key_ltb (score_key a) (score_key b).

Abbreviation ScoreEntry := (f64 * Bytes)%type.

Definition entry_ltb (x y : ScoreEntry) : bool :=
  if score_ltb x.1 y.1 then true
  else if score_ltb y.1 x.1 then false
  else bytes_ltb x.2 y.2.

(** ** The index as a sorted list *)

(** [OrdSet::insert]: an equal element is replaced. *)
Fixpoint score_insert (x : ScoreEntry) (l : list ScoreEntry) : list ScoreEntry :=
  match l with
  | [] => [x]
  | y :: l' =>
      if entry_ltb x y then x :: y :: l'
      else if entry_ltb y x then y :: score_insert x l'
      else x :: l'
  end.

(** [OrdSet::remove] *)
Fixpoint score_remove (x : ScoreEntry) (l : list ScoreEntry) : list ScoreEntry :=
  match l with
  | [] => []
  | y :: l' => if entry_ltb x y || entry_ltb y x then y :: score_remove x l' else l'
  end.

(** ** Operations *)

Definition zset_score (z : ZSet) (member : Bytes) : option f64 := by_member z !! member.

Definition zset_insert (member : Bytes) (score : f64) (z : ZSet) : option f64 * ZSet :=
  let old := by_member z !! member in
  let idx := match old with
             | Some o => score_remove (o, member) (by_score z)
             | None => by_score z
             end in
  (old, {| by_member := <[member := score]> (by_member z);
           by_score := score_insert (score, member) idx |}).

Definition zset_remove (member : Bytes) (z : ZSet) : option f64 * ZSet :=
  match by_member z !! member with
  | Some score =>
      (Some score, {| by_member := delete member (by_member z);
                      by_score := score_remove (score, member) (by_score z) |})
  | None => (None, z)
  end.

(** ** The order is a strict total order *)

Section Order.
Implicit Types (x y z : ScoreEntry).

Lemma key_ltb_irrefl k : key_ltb k k = false.
Proof. destruct k as [[k1 k2] k3]. cbn. rewrite !Z.eqb_refl. apply Z.ltb_irrefl. Qed.

Lemma key_ltb_trans k l m : key_ltb k l = true -> key_ltb l m = true -> key_ltb k m = true.
Proof.
  destruct k as [[a1 a2] a3], l as [[b1 b2] b3], m as [[c1 c2] c3]. cbn.
  repeat match goal with |- context [?u =? ?v] => destruct (Z.eqb_spec u v) end;
    subst; try (intros; zbool; lia || (apply zlt_true; lia)); try congruence.
Qed.

(** Incomparable keys are equally placed against every other key. *)
Lemma key_tie k l :
  key_ltb k l = false -> key_ltb l k = false -> k = l.
Proof.
  destruct k as [[a1 a2] a3], l as [[b1 b2] b3]. cbn.
  rewrite (Z.eqb_sym b1 a1), (Z.eqb_sym b2 a2).
  destruct (Z.eqb_spec a1 b1), (Z.eqb_spec a2 b2); subst; intros; zbool;
    try lia; repeat f_equal; lia.
Qed.

Lemma entry_ltb_irrefl x : entry_ltb x x = false.
Proof. unfold entry_ltb, score_ltb. by rewrite key_ltb_irrefl, bytes_ltb_irrefl. Qed.

Lemma entry_ltb_trans x y z :
  entry_ltb x y = true -> entry_ltb y z = true -> entry_ltb x z = true.
Proof.
  unfold entry_ltb, score_ltb. generalize (score_key x.1) (score_key y.1) (score_key z.1).
  intros kx ky kz.
  destruct (key_ltb kx ky) eqn:E1; [|destruct (key_ltb ky kx) eqn:E2; [done|]].
  - intros _. destruct (key_ltb ky kz) eqn:E3.
    + by rewrite (key_ltb_trans _ _ _ E1 E3).
    + destruct (key_ltb kz ky) eqn:E4; [done|]. pose proof (key_tie _ _ E3 E4) as ->. by rewrite E1.
  - rewrite (key_tie _ _ E1 E2). intros Hb. destruct (key_ltb ky kz); [done|].
    destruct (key_ltb kz ky); [done|]. by apply bytes_ltb_trans.
Qed.

(** Two entries neither of which precedes the other have the same member. *)
Lemma entry_tie_member x y : entry_ltb x y = false -> entry_ltb y x = false -> x.2 = y.2.
Proof.
  unfold entry_ltb, score_ltb. destruct (key_ltb _ _) eqn:E1; [done|].
  destruct (key_ltb (score_key y.1) _) eqn:E2; [done|]. apply bytes_ltb_tie.
Qed.

Lemma entry_ltb_asym x y : entry_ltb x y = true -> entry_ltb y x = false.
Proof.
  intros H. destruct (entry_ltb y x) eqn:E; [|done].
  pose proof (entry_ltb_trans _ _ _ H E). by rewrite entry_ltb_irrefl in *.
Qed.
End Order.

(** ** The two indexes agree *)

Definition score_sorted (l : list ScoreEntry) : Prop :=
  StronglySorted (fun x y => entry_ltb x y = true) l.

(** The well-formedness invariant of a sorted set: the score index is strictly sorted and
    holds exactly the bindings of the member index. *)
Record zset_ok (z : ZSet) : Prop := {
  zok_sorted : score_sorted (by_score z);
  zok_index : forall s m, (s, m) ∈ by_score z <-> by_member z !! m = Some s }.

Section Index.
Implicit Types (x y : ScoreEntry) (l : list ScoreEntry) (z : ZSet) (m : Bytes) (s : f64).

Lemma score_insert_elem x y l :
  (forall u, u ∈ l -> u.2 <> x.2) ->
  y ∈ score_insert x l <-> y = x \/ y ∈ l.
Proof.
  induction l as [|u l IH]; intros Hl; cbn; [by rewrite elem_of_cons, elem_of_nil|].
  destruct (entry_ltb x u) eqn:E1; [by rewrite !elem_of_cons|].
  destruct (entry_ltb u x) eqn:E2.
  - rewrite !elem_of_cons, IH; [tauto|]. intros v Hv. apply Hl. by right.
  - exfalso. apply (Hl u); [by left|]. symmetry. by apply entry_tie_member.
Qed.

Lemma score_insert_sorted x l : score_sorted l -> score_sorted (score_insert x l).
Proof.
  induction 1 as [|u l Hs IH Hu]; [by repeat constructor|]. cbn.
  destruct (entry_ltb x u) eqn:E1; [|destruct (entry_ltb u x) eqn:E2].
  - constructor; [by constructor|]. constructor; [done|].
    eapply Forall_impl; [exact Hu|]. cbn. intros v. by apply entry_ltb_trans.
  - constructor; [done|]. clear IH Hs E1. induction l as [|v l IHl]; cbn; [by constructor|].
    apply Forall_cons in Hu as [Huv Hul].
    destruct (entry_ltb x v); [by repeat constructor|].
    destruct (entry_ltb v x); constructor; auto.
  - constructor; [done|]. eapply Forall_impl; [exact Hu|]. cbn. intros v Hv.
    (* [x] and [u] tie, so [x] precedes what [u] precedes. *)
    unfold entry_ltb, score_ltb in *.
    destruct (key_ltb (score_key x.1) (score_key u.1)) eqn:F1; [done|].
    destruct (key_ltb (score_key u.1) (score_key x.1)) eqn:F2; [done|].
    rewrite (key_tie _ _ F1 F2). by rewrite (bytes_ltb_tie x.2 u.2).
Qed.

Lemma score_remove_elem x y l :
  score_sorted l -> x ∈ l -> y ∈ score_remove x l <-> y ∈ l /\ y <> x.
Proof.
  induction 1 as [|u l Hs IH Hu]; intros Hin; [by apply elem_of_nil in Hin|]. cbn.
  rewrite Forall_forall in Hu.
  apply elem_of_cons in Hin as [->|Hin].
  - rewrite entry_ltb_irrefl. cbn. split.
    + intros Hy. split; [by right|]. intros ->. specialize (Hu _ Hy).
      by rewrite entry_ltb_irrefl in Hu.
    + intros [[->|Hy]%elem_of_cons Hne]; [done|done].
  - rewrite (Hu x Hin), orb_true_r. rewrite !elem_of_cons, (IH Hin). split.
    + intros [->|[? ?]]; [|by split; [right|]]. split; [by left|]. intros ->.
      specialize (Hu _ Hin). by rewrite entry_ltb_irrefl in Hu.
    + intros [[->|?] ?]; [by left|by right].
Qed.

Lemma score_remove_sorted x l : score_sorted l -> score_sorted (score_remove x l).
Proof.
  induction 1 as [|u l Hs IH Hu]; [constructor|]. cbn.
  destruct (entry_ltb x u || entry_ltb u x); [|done].
  constructor; [done|]. rewrite Forall_forall in *. intros v Hv. apply Hu.
  revert Hv. clear. induction l as [|w l IH]; cbn; [done|].
  destruct (_ || _); rewrite ?elem_of_cons; tauto.
Qed.

Lemma zset_default_ok : zset_ok zset_default.
Proof.
  split; [constructor|]. intros s m. cbn. rewrite elem_of_nil, lookup_empty. done.
Qed.

Lemma zset_insert_ok m s z : zset_ok z -> zset_ok (snd (zset_insert m s z)).
Proof.
  intros [Hs Hi]. unfold zset_insert. cbn.
  set (idx := match by_member z !! m with
              | Some o => score_remove (o, m) (by_score z) | None => by_score z end).
  assert (Hidx : score_sorted idx /\ forall u, u ∈ idx <-> u ∈ by_score z /\ u.2 <> m).
  { unfold idx. destruct (by_member z !! m) as [o|] eqn:E.
    - split; [by apply score_remove_sorted|]. intros [s' m'].
      rewrite score_remove_elem by (done || by apply Hi). cbn. split.
      + intros [H Hne]. split; [done|]. intros ->. apply Hne. apply Hi in H. congruence.
      + intros [H Hne]. split; [done|]. congruence.
    - split; [done|]. intros [s' m']. cbn. split; [|tauto]. intros H. split; [done|].
      intros ->. apply Hi in H. congruence. }
  destruct Hidx as [Hsi Hel]. split; cbn.
  - by apply score_insert_sorted.
  - intros s' m'. rewrite score_insert_elem by (intros u; rewrite Hel; cbn; tauto).
    rewrite Hel, Hi, lookup_insert. cbn. case_decide as Hd; [subst|].
    + split; [intros [[=]|[? ?]]; [by subst|done]|]. intros [= ->]. by left.
    + split; [intros [[=]|[? ?]]; [congruence|done]|]. intros. right. split; [done|congruence].
Qed.

Lemma zset_remove_ok m z : zset_ok z -> zset_ok (snd (zset_remove m z)).
Proof.
  intros [Hs Hi]. unfold zset_remove. destruct (by_member z !! m) as [s|] eqn:E; [|done].
  split; cbn; [by apply score_remove_sorted|]. intros s' m'.
  rewrite score_remove_elem by (done || by apply Hi). rewrite Hi, lookup_delete.
  case_decide as Hd; [subst|].
  - split; [|done]. intros [H Hne]. exfalso. apply Hne. congruence.
  - split; [tauto|]. intros H. split; [done|]. congruence.
Qed.
End Index.
