(* ===== verification/CmdZSet.v ===== *)
(** * Sorted-set commands (src/redis/cmd_set_zset.rs, second half)

    One definition per command, as programs over the trait [Db]. Where the source iterates
    a hash map, the order is that of [map_to_list]; no reply depends on it. *)

From S2P Require Import Prelude Util Resp Glob Mvcc Engine CmdString CmdHashList CmdSet ZSet.
From Stdlib Require Import SpecFloat.

(** ** Bounds *)

Definition parse_score_bound (b : Bytes) : option (f64 * bool) :=
  match b with
  | c :: r => if c =? 40 then (fun f => (f, true)) <$> parse_f64 r
              else (fun f => (f, false)) <$> parse_f64 b
  | [] => (fun f => (f, false)) <$> parse_f64 b
  end.

Inductive LexBound : Type :=
| LexNegInf
| LexPosInf
| LexIncl (b : Bytes)
| LexExcl (b : Bytes).

Definition parse_lex_bound (b : Bytes) : option LexBound :=
  match b with
  | c :: r =>
      if (c =? 45) && bool_decide (r = []) then Some LexNegInf
      else if (c =? 43) && bool_decide (r = []) then Some LexPosInf
      else if c =? 91 then Some (LexIncl r)
      else if c =? 40 then Some (LexExcl r)
      else None
  | [] => None
  end.

Definition lex_ge (m : Bytes) (bound : LexBound) : bool :=
  match bound with
  | LexNegInf => true
  | LexPosInf => false
  | LexIncl b => bytes_leb b m
  | LexExcl b => bytes_ltb b m
  end.

Definition lex_le (m : Bytes) (bound : LexBound) : bool :=
  match bound with
  | LexNegInf => false
  | LexPosInf => true
  | LexIncl b => bytes_leb m b
  | LexExcl b => bytes_ltb m b
  end.

Definition ordered (z : ZSet) : list ScoreEntry := by_score z.

(** A score within two bounds, each possibly exclusive. *)
Definition in_score_range (lo hi : f64 * bool) (s : f64) : bool :=
  (if lo.2 then f64_ltb lo.1 s else f64_leb lo.1 s)
  && (if hi.2 then f64_ltb s hi.1 else f64_leb s hi.1).

Definition in_lex_range (lo hi : LexBound) (m : Bytes) : bool := lex_ge m lo && lex_le m hi.

Definition with_scores_reply (items : list ScoreEntry) (with_scores : bool) : Resp :=
  Array (concat (map (fun it : ScoreEntry =>
    Bulk it.2 :: if with_scores then [bulk_str (fmt_f64 it.1)] else []) items)).

Definition score_reply (o : option f64) : Resp :=
  match o with Some s => bulk_str (fmt_f64 s) | None => Null end.

(** ** ZADD *)

Record ZAddFlags := {
  zf_nx : bool; zf_xx : bool; zf_gt : bool; zf_lt : bool; zf_ch : bool; zf_incr : bool }.

(** The leading flags and the arguments after them. *)
Fixpoint zadd_flags (l : list Bytes) (f : ZAddFlags) : ZAddFlags * list Bytes :=
  match l with
  | [] => (f, [])
  | a :: l' =>
      let u := upper a in
      if beq u (bs "NX") then zadd_flags l' {| zf_nx := true; zf_xx := zf_xx f; zf_gt := zf_gt f;
        zf_lt := zf_lt f; zf_ch := zf_ch f; zf_incr := zf_incr f |}
      else if beq u (bs "XX") then zadd_flags l' {| zf_nx := zf_nx f; zf_xx := true;
        zf_gt := zf_gt f; zf_lt := zf_lt f; zf_ch := zf_ch f; zf_incr := zf_incr f |}
      else if beq u (bs "GT") then zadd_flags l' {| zf_nx := zf_nx f; zf_xx := zf_xx f;
        zf_gt := true; zf_lt := zf_lt f; zf_ch := zf_ch f; zf_incr := zf_incr f |}
      else if beq u (bs "LT") then zadd_flags l' {| zf_nx := zf_nx f; zf_xx := zf_xx f;
        zf_gt := zf_gt f; zf_lt := true; zf_ch := zf_ch f; zf_incr := zf_incr f |}
      else if beq u (bs "CH") then zadd_flags l' {| zf_nx := zf_nx f; zf_xx := zf_xx f;
        zf_gt := zf_gt f; zf_lt := zf_lt f; zf_ch := true; zf_incr := zf_incr f |}
      else if beq u (bs "INCR") then zadd_flags l' {| zf_nx := zf_nx f; zf_xx := zf_xx f;
        zf_gt := zf_gt f; zf_lt := zf_lt f; zf_ch := zf_ch f; zf_incr := true |}
      else (f, l)
  end.

(** Whether the flags let a pair update the set. *)
Definition zadd_allowed (f : ZAddFlags) (cur : option f64) (new_score : f64) : bool :=
  match cur with
  | Some c =>
      if zf_nx f then false
      else if zf_gt f then f64_ltb c new_score
      else if zf_lt f then f64_ltb new_score c
      else true
  | None => negb (zf_xx f)
  end.

Record ZAddAcc := { za_z : ZSet; za_added : Z; za_changed : Z; za_incr : option f64 }.

(** The loop over the score-member pairs. *)
Fixpoint zadd_loop (f : ZAddFlags) (l : list (Bytes * Bytes)) (a : ZAddAcc)
  : result Resp ZAddAcc :=
  match l with
  | [] => Ok a
  | (sc, member) :: l' =>
      match parse_f64 sc with
      | None => Err not_float
      | Some score =>
          let cur := zset_score (za_z a) member in
          let new_score := if zf_incr f then f64_add (default f64_zero cur) score else score in
          if negb (zadd_allowed f cur new_score) then
            if zf_incr f then Err Null else zadd_loop f l' a
          else
            let '(da, dc) := match cur with
                             | None => (1, 1)
                             | Some c => if f64_eqb c new_score then (0, 0) else (0, 1)
                             end in
            zadd_loop f l'
              {| za_z := snd (zset_insert member new_score (za_z a));
                 za_added := za_added a + da; za_changed := za_changed a + dc;
                 za_incr := if zf_incr f then Some new_score else za_incr a |}
      end
  end.

Definition zadd (ns : Z) (args : list Bytes) : prog Reply := reply (
  _ ← return_if (zlen args <? 3) (arity (bs "zadd"));
  let '(f, rest) := zadd_flags (drop 1 args) {| zf_nx := false; zf_xx := false; zf_gt := false;
                      zf_lt := false; zf_ch := false; zf_incr := false |} in
  _ ← return_if (zf_nx f && zf_xx f)
        (err (bs "ERR XX and NX options at the same time are not compatible"));
  _ ← return_if ((zf_gt f && zf_lt f) || (zf_nx f && (zf_gt f || zf_lt f)))
        (err (bs "ERR GT, LT, and/or NX options at the same time are not compatible"));
  _ ← return_if (bool_decide (rest = []) || negb (Nat.even (length rest))) syntax;
  _ ← return_if (zf_incr f && negb (zlen rest =? 2))
        (err (bs "ERR INCR option supports a single increment-element pair"));
  '(z, exp) ← read_zset ns (arg args 0);
  a ← try_ (zadd_loop f (pairs rest)
              {| za_z := z; za_added := 0; za_changed := 0; za_incr := None |});
  _ ← store_coll ns (arg args 0) (DZSet (za_z a)) exp;
  mret (if zf_incr f then score_reply (za_incr a)
        else Int (if zf_ch f then za_changed a else za_added a))).

(** ** Members, scores, ranks *)

(** Remove members in order, counting those that were present. *)
Definition zremove_members (z : ZSet) (l : list Bytes) : ZSet * Z :=
  foldl (fun acc m =>
    let '(old, z') := zset_remove m acc.1 in
    (z', acc.2 + b2i (bool_decide (is_Some old)))) (z, 0) l.

Definition zrem (ns : Z) (args : list Bytes) : prog Reply := reply (
  _ ← return_if (zlen args <? 2) (arity (bs "zrem"));
  '(z, exp) ← read_zset ns (arg args 0);
  let '(z, removed) := zremove_members z (drop 1 args) in
  _ ← store_coll ns (arg args 0) (DZSet z) exp;
  mret (Int removed)).

Definition zscore (ns : Z) (args : list Bytes) : prog Reply := reply (
  _ ← return_if (negb (zlen args =? 2)) (arity (bs "zscore"));
  '(z, _) ← read_zset ns (arg args 0);
  mret (score_reply (zset_score z (arg args 1)))).

Definition zmscore (ns : Z) (args : list Bytes) : prog Reply := reply (
  _ ← return_if (zlen args <? 2) (arity (bs "zmscore"));
  '(z, _) ← read_zset ns (arg args 0);
  mret (Array (map (fun m => score_reply (zset_score z m)) (drop 1 args)))).

Definition zcard (ns : Z) (args : list Bytes) : prog Reply := reply (
  _ ← return_if (negb (zlen args =? 1)) (arity (bs "zcard"));
  '(z, _) ← read_zset ns (arg args 0);
  mret (Int (zset_len z))).

Definition score_err : Resp := err (bs "ERR min or max is not a float").
Definition lex_err : Resp := err (bs "ERR min or max not valid string range item").

(** The items whose score is within two parsed bounds. *)
Definition by_score_range (lo hi : f64 * bool) (l : list ScoreEntry) : list ScoreEntry :=
  List.filter (fun it : ScoreEntry => in_score_range lo hi it.1) l.

Definition by_lex_range (lo hi : LexBound) (l : list ScoreEntry) : list ScoreEntry :=
  List.filter (fun it : ScoreEntry => in_lex_range lo hi it.2) l.

Definition zcount (ns : Z) (args : list Bytes) : prog Reply := reply (
  _ ← return_if (negb (zlen args =? 3)) (arity (bs "zcount"));
  lo ← let_some (parse_score_bound (arg args 1)) score_err;
  hi ← let_some (parse_score_bound (arg args 2)) score_err;
  '(z, _) ← read_zset ns (arg args 0);
  mret (Int (zlen (by_score_range lo hi (ordered z))))).

Definition zincrby (ns : Z) (args : list Bytes) : prog Reply := reply (
  _ ← return_if (negb (zlen args =? 3)) (arity (bs "zincrby"));
  delta ← let_some (parse_f64 (arg args 1)) not_float;
  '(z, exp) ← read_zset ns (arg args 0);
  let newv := f64_add (default f64_zero (zset_score z (arg args 2))) delta in
  _ ← return_if (is_nan newv) (err (bs "ERR resulting score is not a number (NaN)"));
  _ ← put_ ns (arg args 0) (DZSet (snd (zset_insert (arg args 2) newv z))) exp;
  mret (bulk_str (fmt_f64 newv))).

(** [items.iter().position(|(_, m)| m == x)] with the item found. *)
Fixpoint rank_of (x : Bytes) (l : list ScoreEntry) (i : Z) : option (Z * f64) :=
  match l with
  | [] => None
  | (s, m) :: l' => if beq m x then Some (i, s) else rank_of x l' (i + 1)
  end.

Definition zrank (ns : Z) (args : list Bytes) (rev : bool) : prog Reply := reply (
  _ ← return_if ((zlen args <? 2) || (3 <? zlen args)) (arity (bs "zrank"));
  let with_score := (zlen args =? 3) && beq (upper (arg args 2)) (bs "WITHSCORE") in
  _ ← return_if ((zlen args =? 3) && negb with_score) syntax;
  '(z, _) ← read_zset ns (arg args 0);
  let items := ordered z in
  mret (match rank_of (arg args 1) items 0 with
        | Some (i, s) =>
            let rank := if rev then zlen items - 1 - i else i in
            if with_score : bool then Array [Int rank; bulk_str (fmt_f64 s)] else Int rank
        | None => if with_score then NullArray else Null
        end)).

(** ** Ranges *)

Record ZRangeOpts := {
  zr_by_score : bool; zr_by_lex : bool; zr_rev : bool; zr_with_scores : bool;
  zr_limit : option (Z * Z) }.

Definition zrange_opts0 : ZRangeOpts :=
  {| zr_by_score := false; zr_by_lex := false; zr_rev := false; zr_with_scores := false;
     zr_limit := None |}.

(** [LIMIT off cnt] *)
Definition parse_limit (a b : Bytes) : option (Z * Z) :=
  off ← parse_i64 a; cnt ← parse_i64 b; Some (off, cnt).

Fixpoint zrange_opts (l : list Bytes) (o : ZRangeOpts) : result Resp ZRangeOpts :=
  match l with
  | [] => Ok o
  | a :: l' =>
      let u := upper a in
      if beq u (bs "BYSCORE") then
        zrange_opts l' {| zr_by_score := true; zr_by_lex := zr_by_lex o; zr_rev := zr_rev o;
                          zr_with_scores := zr_with_scores o; zr_limit := zr_limit o |}
      else if beq u (bs "BYLEX") then
        zrange_opts l' {| zr_by_score := zr_by_score o; zr_by_lex := true; zr_rev := zr_rev o;
                          zr_with_scores := zr_with_scores o; zr_limit := zr_limit o |}
      else if beq u (bs "REV") then
        zrange_opts l' {| zr_by_score := zr_by_score o; zr_by_lex := zr_by_lex o; zr_rev := true;
                          zr_with_scores := zr_with_scores o; zr_limit := zr_limit o |}
      else if beq u (bs "WITHSCORES") then
        zrange_opts l' {| zr_by_score := zr_by_score o; zr_by_lex := zr_by_lex o;
                          zr_rev := zr_rev o; zr_with_scores := true; zr_limit := zr_limit o |}
      else if beq u (bs "LIMIT") then
        match l' with
        | off :: cnt :: l'' =>
            match parse_limit off cnt with
            | Some lim =>
                zrange_opts l'' {| zr_by_score := zr_by_score o; zr_by_lex := zr_by_lex o;
                                   zr_rev := zr_rev o; zr_with_scores := zr_with_scores o;
                                   zr_limit := Some lim |}
            | None => Err syntax
            end
        | _ => Err syntax
        end
      else Err syntax
  end.

Definition apply_limit (items : list ScoreEntry) (off cnt : Z) : list ScoreEntry :=
  let off := Z.max off 0 in
  if zlen items <=? off then []
  else take (Z.to_nat (if cnt <? 0 then zlen items else cnt)) (drop (Z.to_nat off) items).

Definition limited (limit : option (Z * Z)) (items : list ScoreEntry) : list ScoreEntry :=
  match limit with Some (off, cnt) => apply_limit items off cnt | None => items end.

Definition rev_if {A} (b : bool) (l : list A) : list A := if b then rev l else l.

Definition index_reply (start stop : Z) (items : list ScoreEntry) (with_scores : bool) : Resp :=
  match norm_range start stop (zlen items) with
  | Some (s, e) => with_scores_reply (slice_incl s e items) with_scores
  | None => Array []
  end.

Definition zrange (ns : Z) (args : list Bytes) : prog Reply := reply (
  _ ← return_if (zlen args <? 3) (arity (bs "zrange"));
  o ← try_ (zrange_opts (drop 3 args) zrange_opts0);
  _ ← return_if (zr_by_score o && zr_by_lex o) syntax;
  _ ← return_if (bool_decide (is_Some (zr_limit o)) && negb (zr_by_score o) && negb (zr_by_lex o))
        (err (bs "ERR syntax error, LIMIT is only supported in combination with either BYSCORE or BYLEX"));
  _ ← return_if (zr_by_lex o && zr_with_scores o) syntax;
  '(z, _) ← read_zset ns (arg args 0);
  let items := ordered z in
  let lo_raw := if zr_rev o then arg args 2 else arg args 1 in
  let hi_raw := if zr_rev o then arg args 1 else arg args 2 in
  if zr_by_score o then
    lo ← let_some (parse_score_bound lo_raw) score_err;
    hi ← let_some (parse_score_bound hi_raw) score_err;
    let items := rev_if (zr_rev o) (by_score_range lo hi items) in
    mret (with_scores_reply (limited (zr_limit o) items) (zr_with_scores o))
  else if zr_by_lex o then
    lo ← let_some (parse_lex_bound lo_raw) lex_err;
    hi ← let_some (parse_lex_bound hi_raw) lex_err;
    let items := rev_if (zr_rev o) (by_lex_range lo hi items) in
    mret (with_scores_reply (limited (zr_limit o) items) false)
  else
    start ← let_some (parse_i64 (arg args 1)) not_int;
    stop ← let_some (parse_i64 (arg args 2)) not_int;
    mret (index_reply start stop (rev_if (zr_rev o) items) (zr_with_scores o))).

Definition zrevrange (ns : Z) (args : list Bytes) : prog Reply := reply (
  _ ← return_if ((zlen args <? 3) || (4 <? zlen args)) (arity (bs "zrevrange"));
  let with_scores := (zlen args =? 4) && beq (upper (arg args 3)) (bs "WITHSCORES") in
  _ ← return_if ((zlen args =? 4) && negb with_scores) syntax;
  start ← let_some (parse_i64 (arg args 1)) not_int;
  stop ← let_some (parse_i64 (arg args 2)) not_int;
  '(z, _) ← read_zset ns (arg args 0);
  mret (index_reply start stop (rev (ordered z)) with_scores)).

(** The options of ZRANGEBYSCORE: WITHSCORES and LIMIT. *)
Fixpoint zrbs_opts (l : list Bytes) (with_scores : bool) (limit : option (Z * Z))
  : result Resp (bool * option (Z * Z)) :=
  match l with
  | [] => Ok (with_scores, limit)
  | a :: l' =>
      let u := upper a in
      if beq u (bs "WITHSCORES") then zrbs_opts l' true limit
      else if beq u (bs "LIMIT") then
        match l' with
        | off :: cnt :: l'' =>
            match parse_limit off cnt with
            | Some lim => zrbs_opts l'' with_scores (Some lim)
            | None => Err syntax
            end
        | _ => Err syntax
        end
      else Err syntax
  end.

Definition zrangebyscore (ns : Z) (args : list Bytes) (rev : bool) : prog Reply := reply (
  _ ← return_if (zlen args <? 3) (arity (bs "zrangebyscore"));
  '(with_scores, limit) ← try_ (zrbs_opts (drop 3 args) false None);
  lo ← let_some (parse_score_bound (if rev then arg args 2 else arg args 1)) score_err;
  hi ← let_some (parse_score_bound (if rev then arg args 1 else arg args 2)) score_err;
  '(z, _) ← read_zset ns (arg args 0);
  let items := rev_if rev (by_score_range lo hi (ordered z)) in
  mret (with_scores_reply (limited limit items) with_scores)).

Definition zrangebylex (ns : Z) (args : list Bytes) (rev : bool) : prog Reply := reply (
  _ ← return_if (zlen args <? 3) (arity (bs "zrangebylex"));
  limit ← (if 3 <? zlen args then
             if negb (zlen args =? 6) || negb (beq (upper (arg args 3)) (bs "LIMIT"))
             then early syntax
             else match parse_limit (arg args 4) (arg args 5) with
                  | Some lim => mret (Some lim)
                  | None => early syntax
                  end
           else mret None);
  lo ← let_some (parse_lex_bound (if rev then arg args 2 else arg args 1)) lex_err;
  hi ← let_some (parse_lex_bound (if rev then arg args 1 else arg args 2)) lex_err;
  '(z, _) ← read_zset ns (arg args 0);
  let items := rev_if rev (by_lex_range lo hi (ordered z)) in
  mret (with_scores_reply (limited limit items) false)).

Definition zlexcount (ns : Z) (args : list Bytes) : prog Reply := reply (
  _ ← return_if (negb (zlen args =? 3)) (arity (bs "zlexcount"));
  lo ← let_some (parse_lex_bound (arg args 1)) lex_err;
  hi ← let_some (parse_lex_bound (arg args 2)) lex_err;
  '(z, _) ← read_zset ns (arg args 0);
  mret (Int (zlen (by_lex_range lo hi (ordered z))))).

(** ** Removal *)

Definition remove_items (z : ZSet) (l : list ScoreEntry) : ZSet :=
  foldl (fun z it => snd (zset_remove it.2 z)) z l.

Definition zpop (ns : Z) (args : list Bytes) (min : bool) : prog Reply := reply (
  _ ← return_if (bool_decide (args = []) || (2 <? zlen args))
        (arity (if min then bs "zpopmin" else bs "zpopmax"));
  count ← (match args !! 1%nat with
           | Some c => let_some (filter_opt (fun n => 0 <=? n) (parse_i64 c)) not_int
           | None => mret 1
           end);
  '(z, exp) ← read_zset ns (arg args 0);
  let items := take (Z.to_nat count) (rev_if (negb min) (ordered z)) in
  _ ← store_coll ns (arg args 0) (DZSet (remove_items z items)) exp;
  mret (with_scores_reply items true)).

Definition zrandmember (ns : Z) (args : list Bytes) : prog Reply := reply (
  _ ← return_if (bool_decide (args = []) || (3 <? zlen args)) (arity (bs "zrandmember"));
  '(z, _) ← read_zset ns (arg args 0);
  let pool := ordered z in
  now ← now_ms_;
  let rng := rng_seeded (Z.lxor (Z.lxor now (zlen pool)) 172317) in
  _ ← (if zlen args =? 1 then
         match pool !! Z.to_nat (fst (rng_below (zlen pool) rng)) with
         | None => early Null
         | Some it => early (Bulk it.2)
         end
       else mret tt);
  count ← let_some (parse_i64 (arg args 1)) not_int;
  let with_scores := (zlen args =? 3) && beq (upper (arg args 2)) (bs "WITHSCORES") in
  _ ← return_if ((zlen args =? 3) && negb with_scores) syntax;
  let picked :=
    if 0 <=? count
    then fst (fst (draw_distinct (Z.to_nat (Z.min count (zlen pool))) pool rng))
    else draw_repeat (Z.to_nat (neg_as_usize count)) pool rng in
  mret (with_scores_reply picked with_scores)).

Definition zremrangebyrank (ns : Z) (args : list Bytes) : prog Reply := reply (
  _ ← return_if (negb (zlen args =? 3)) (arity (bs "zremrangebyrank"));
  start ← let_some (parse_i64 (arg args 1)) not_int;
  stop ← let_some (parse_i64 (arg args 2)) not_int;
  '(z, exp) ← read_zset ns (arg args 0);
  let items := ordered z in
  '(s, e) ← let_some (norm_range start stop (zlen items)) (Int 0);
  let victims := slice_incl s e items in
  _ ← store_coll ns (arg args 0) (DZSet (remove_items z victims)) exp;
  mret (Int (zlen victims))).

Definition zremrangebyscore (ns : Z) (args : list Bytes) : prog Reply := reply (
  _ ← return_if (negb (zlen args =? 3)) (arity (bs "zremrangebyscore"));
  lo ← let_some (parse_score_bound (arg args 1)) score_err;
  hi ← let_some (parse_score_bound (arg args 2)) score_err;
  '(z, exp) ← read_zset ns (arg args 0);
  let victims := by_score_range lo hi (ordered z) in
  _ ← store_coll ns (arg args 0) (DZSet (remove_items z victims)) exp;
  mret (Int (zlen victims))).

Definition zremrangebylex (ns : Z) (args : list Bytes) : prog Reply := reply (
  _ ← return_if (negb (zlen args =? 3)) (arity (bs "zremrangebylex"));
  lo ← let_some (parse_lex_bound (arg args 1)) lex_err;
  hi ← let_some (parse_lex_bound (arg args 2)) lex_err;
  '(z, exp) ← read_zset ns (arg args 0);
  let victims := by_lex_range lo hi (ordered z) in
  _ ← store_coll ns (arg args 0) (DZSet (remove_items z victims)) exp;
  mret (Int (zlen victims))).

Definition zscan (ns : Z) (args : list Bytes) : prog Reply := reply (
  _ ← return_if (zlen args <? 2) (arity (bs "zscan"));
  cursor ← let_some (filter_opt (fun c => 0 <=? c) (parse_i64 (arg args 1)))
             (err (bs "ERR invalid cursor"));
  '(pattern, count) ← try_ (scan_opts (drop 2 args) None 10);
  '(z, _) ← read_zset ns (arg args 0);
  let '(next, page) := scan_page (ordered z) cursor count in
  let kept := List.filter (fun it : ScoreEntry => pattern_ok pattern it.2) page in
  mret (Array [bulk_str (dec_u next); with_scores_reply kept true])).

(** ** ZUNIONSTORE, ZINTERSTORE, ZDIFFSTORE *)

Inductive Aggregate : Type := AggSum | AggMin | AggMax.

Definition combine (agg : Aggregate) (cur w : f64) : f64 :=
  match agg with AggMin => f64_min cur w | AggMax => f64_max cur w | AggSum => f64_add cur w end.

(** [n] weights from the front of the arguments. *)
Fixpoint parse_weights (n : nat) (l : list Bytes) : option (list f64) :=
  match n with
  | O => Some []
  | S n' =>
      match l with
      | [] => None
      | a :: l' => f ← parse_f64 a; r ← parse_weights n' l'; Some (f :: r)
      end
  end.

(** The loop over the options; each turn consumes at least one argument. *)
Fixpoint zstore_opts (fuel : nat) (op : SetOp) (numkeys : nat) (l : list Bytes)
    (weights : list f64) (agg : Aggregate) : result Resp (list f64 * Aggregate) :=
  match fuel, l with
  | S f, a :: l' =>
      let u := upper a in
      let is_diff := match op with Diff => true | _ => false end in
      if beq u (bs "WEIGHTS") then
        if is_diff then Err syntax
        else match parse_weights numkeys l' with
             | Some ws => zstore_opts f op numkeys (drop numkeys l') ws agg
             | None => Err (err (bs "ERR weight value is not a float"))
             end
      else if beq u (bs "AGGREGATE") then
        if is_diff then Err syntax
        else match l' with
             | [] => Err syntax
             | v :: l'' =>
                 let w := upper v in
                 if beq w (bs "SUM") then zstore_opts f op numkeys l'' weights AggSum
                 else if beq w (bs "MIN") then zstore_opts f op numkeys l'' weights AggMin
                 else if beq w (bs "MAX") then zstore_opts f op numkeys l'' weights AggMax
                 else Err syntax
             end
      else Err syntax
  | _, _ => Ok (weights, agg)
  end.

(** The inputs: sorted sets, or sets with every score one. *)
Definition zstore_inputs (ns : Z) (ks : list Bytes) : cmd (list (gmap Bytes f64)) :=
  cmd_map (fun k =>
    v ← get_ ns k;
    match v with
    | Some (DZSet z) => mret (by_member z)
    | Some (DSet s) => mret (gset_to_gmap f64_one s)
    | Some _ => early wrong_type
    | None => mret ∅
    end) ks.

Definition zunion_step (agg : Aggregate) (acc : gmap Bytes f64) (iw : gmap Bytes f64 * f64)
  : gmap Bytes f64 :=
  foldl (fun acc ms =>
    let w := f64_mul ms.2 iw.2 in
    <[ms.1 := match acc !! ms.1 with Some cur => combine agg cur w | None => w end]> acc)
    acc (map_to_list iw.1).

(** The aggregate of one member over the other inputs, [None] when one lacks it. *)
Fixpoint zinter_member (agg : Aggregate) (m : Bytes) (l : list (gmap Bytes f64 * f64)) (a : f64)
  : option f64 :=
  match l with
  | [] => Some a
  | (input, w) :: l' =>
      match input !! m with
      | Some s => zinter_member agg m l' (combine agg a (f64_mul s w))
      | None => None
      end
  end.

Definition zcombine (op : SetOp) (agg : Aggregate) (l : list (gmap Bytes f64 * f64))
  : gmap Bytes f64 :=
  match op with
  | Union => foldl (zunion_step agg) ∅ l
  | Inter =>
      match l with
      | (first, w) :: others =>
          foldl (fun acc ms =>
            match zinter_member agg ms.1 others (f64_mul ms.2 w) with
            | Some a => <[ms.1 := a]> acc
            | None => acc
            end) ∅ (map_to_list first)
      | [] => ∅
      end
  | Diff =>
      match l with
      | (first, _) :: others =>
          foldl (fun acc ms =>
            if existsb (fun iw : gmap Bytes f64 * f64 => bool_decide (is_Some (iw.1 !! ms.1))) others
            then acc else <[ms.1 := ms.2]> acc) ∅ (map_to_list first)
      | [] => ∅
      end
  end.

Definition zset_of (m : gmap Bytes f64) : ZSet :=
  foldl (fun z ms => snd (zset_insert ms.1 ms.2 z)) zset_default (map_to_list m).

Definition zstore (ns : Z) (args : list Bytes) (op : SetOp) : prog Reply := reply (
  _ ← return_if (zlen args <? 3) (arity (bs "zunionstore"));
  numkeys ← let_some (filter_opt (fun n => 0 <? n) (parse_i64 (arg args 1)))
              (err (bs "ERR at least 1 input key is needed"));
  _ ← return_if (zlen args <? 2 + numkeys) syntax;
  let nk := Z.to_nat numkeys in
  let rest := drop (2 + nk) args in
  '(weights, agg) ← try_ (zstore_opts (length rest) op nk rest (repeat f64_one nk) AggSum);
  inputs ← zstore_inputs ns (slice 2 (2 + nk) args);
  let z := zset_of (zcombine op agg (zip inputs weights)) in
  _ ← store_coll ns (arg args 0) (DZSet z) None;
  mret (Int (zset_len z))).
