(* ===== verification/CmdStream.v ===== *)
(** * Stream commands (src/redis/cmd_stream.rs)

    One definition per command, as programs over the trait [Db]. The ordered map of a
    stream is a finite map; ranges and minima go through its list of bindings sorted by
    identifier. [xread] slices its arguments at a position that may lie past their end,
    where the source panics. *)

From S2P Require Import Prelude Util Resp Mvcc Engine CmdString CmdHashList.

(** ** Identifiers *)

(** The derived order: [ms], then [seq]. *)
Definition sid_ltb (a b : StreamId) : bool :=
  if ms a =? ms b then seq_no a <? seq_no b else ms a <? ms b.
Definition sid_leb (a b : StreamId) : bool := negb (sid_ltb b a).
Definition sid_eqb (a b : StreamId) : bool := bool_decide (a = b).

Definition show_id (i : StreamId) : Bytes := dec_u (ms i) ++ [45] ++ dec_u (seq_no i).

Definition parse_explicit_id (b : Bytes) (default_seq : Z) : option StreamId :=
  s ← from_utf8 b;
  match split_once 45 s with
  | Some (m, q) =>
      m' ← parse_u64_str m; q' ← parse_u64_str q; Some {| ms := m'; seq_no := q' |}
  | None => m' ← parse_u64_str s; Some {| ms := m'; seq_no := default_seq |}
  end.

Definition parse_range_bound (b : Bytes) (is_start : bool) : option (StreamId * bool) :=
  s ← from_utf8 b;
  if beq s [45] then Some (stream_id_min, false)
  else if beq s [43] then Some (stream_id_max, false)
  else
    let '(exclusive, rest) := match s with
                              | c :: r => if c =? 40 then (true, r) else (false, s)
                              | [] => (false, s)
                              end in
    id ← parse_explicit_id rest (if is_start then 0 else U64_MAX); Some (id, exclusive).

(** ** Entries in order *)

Abbreviation Fields := (list (Bytes * Bytes)).

Definition sid_le (a b : StreamId * Fields) : Prop := sid_leb a.1 b.1 = true.
#[export] Instance sid_le_dec : RelDecision sid_le.
Proof. intros a b. unfold sid_le. apply _. Defined.

Definition sorted_stream (m : gmap StreamId Fields) : list (StreamId * Fields) :=
  merge_sort sid_le (map_to_list m).

Definition id_to_resp (e : StreamId * Fields) : Resp :=
  Array [bulk_str (show_id e.1);
         Array (concat (map (fun kv : Bytes * Bytes => [Bulk kv.1; Bulk kv.2]) e.2))].

(** Remove one entry, remembering the highest identifier removed. *)
Definition drop_entry (id : StreamId) (x : XStream) : XStream :=
  {| entries := delete id (entries x); last_id := last_id x;
     max_deleted_id := if sid_ltb (max_deleted_id x) id then id else max_deleted_id x;
     entries_added := entries_added x |}.

(** The trimming loops; each turn removes one entry, so their number bounds the turns. *)
Fixpoint trim_to_maxlen_loop (fuel : nat) (maxlen : Z) (x : XStream) : XStream :=
  match fuel with
  | O => x
  | S f =>
      if maxlen <? Z.of_nat (size (entries x)) then
        match sorted_stream (entries x) with
        | (id, _) :: _ => trim_to_maxlen_loop f maxlen (drop_entry id x)
        | [] => x
        end
      else x
  end.

Definition trim_to_maxlen (maxlen : Z) (x : XStream) : XStream :=
  trim_to_maxlen_loop (size (entries x)) maxlen x.

Fixpoint trim_to_minid_loop (fuel : nat) (minid : StreamId) (x : XStream) : XStream :=
  match fuel with
  | O => x
  | S f =>
      match sorted_stream (entries x) with
      | (id, _) :: _ =>
          if sid_ltb id minid then trim_to_minid_loop f minid (drop_entry id x) else x
      | [] => x
      end
  end.

Definition trim_to_minid (minid : StreamId) (x : XStream) : XStream :=
  trim_to_minid_loop (size (entries x)) minid x.

(** ** XADD *)

Definition id_err : Resp :=
  err (bs "ERR Invalid stream ID specified as stream command argument").

Inductive Trim : Type := TrimMaxlen (n : Z) | TrimMinid (id : StreamId).

Definition is_approx (a : Bytes) : bool := beq a [126] || beq a [61].

(** Skip an optional [~] or [=]. *)
Definition skip_approx (l : list Bytes) : list Bytes :=
  match l with a :: l' => if is_approx a then l' else l | [] => [] end.

(** The optional trimming clause and the arguments after it. *)
Definition xadd_trim (l : list Bytes) : result Resp (option Trim * list Bytes) :=
  match l with
  | a :: l' =>
      let u := upper a in
      if beq u (bs "MAXLEN") || beq u (bs "MINID") then
        match skip_approx l' with
        | [] => Err syntax
        | bound :: l2 =>
            t ← (if beq u (bs "MAXLEN") then
                   match filter_opt (fun n => 0 <=? n) (parse_i64 bound) with
                   | Some n => Ok (TrimMaxlen n)
                   | None => Err not_int
                   end
                 else match parse_explicit_id bound 0 with
                      | Some id => Ok (TrimMinid id)
                      | None => Err id_err
                      end);
            Ok (Some t, match l2 with
                        | lim :: l3 => if beq (upper lim) (bs "LIMIT") then drop 1 l3 else l2
                        | [] => []
                        end)
        end
      else Ok (None, l)
  | [] => Ok (None, [])
  end.

(** [arg_str.strip_suffix("-*")] *)
Definition strip_dash_star (s : Bytes) : option Bytes :=
  let n := (length s - 2)%nat in
  if (2 <=? length s)%nat && beq (drop n s) [45; 42] then Some (take n s) else None.

(** The identifier of the new entry. *)
Definition xadd_id (id_arg : Bytes) (now : Z) (last : StreamId) : result Resp StreamId :=
  if beq id_arg [42] then
    Ok (if ms last <? now then {| ms := now; seq_no := 0 |} else stream_id_next last)
  else
    match strip_dash_star (default [] (from_utf8 id_arg)) with
    | Some ms_part =>
        match parse_u64_str ms_part with
        | Some m => Ok (if m =? ms last then stream_id_next last else {| ms := m; seq_no := 0 |})
        | None => Err id_err
        end
    | None => match parse_explicit_id id_arg 0 with Some id => Ok id | None => Err id_err end
    end.

(** The test against the top item and against 0-0. *)
Definition xadd_check (new_id : StreamId) (x : XStream) : option Resp :=
  if sid_leb new_id (last_id x)
     && ((0 <? entries_added x) || negb (sid_eqb (last_id x) stream_id_min))
  then Some (err (bs "ERR The ID specified in XADD is equal or smaller than the target stream top item"))
  else if sid_eqb new_id stream_id_min
  then Some (err (bs "ERR The ID specified in XADD must be greater than 0-0"))
  else None.

Definition append_entry (id : StreamId) (fields : Fields) (x : XStream) : XStream :=
  {| entries := <[id := fields]> (entries x); last_id := id;
     max_deleted_id := max_deleted_id x; entries_added := wrap_u64 (entries_added x + 1) |}.

Definition apply_trim (t : option Trim) (x : XStream) : XStream :=
  match t with
  | Some (TrimMaxlen n) => trim_to_maxlen n x
  | Some (TrimMinid id) => trim_to_minid id x
  | None => x
  end.

Definition xadd (ns : Z) (args : list Bytes) : prog Reply := reply (
  _ ← return_if (zlen args <? 4) (arity (bs "xadd"));
  let nomkstream := beq (upper (arg args 1)) (bs "NOMKSTREAM") in
  let l := drop (if nomkstream then 2 else 1) args in
  '(trim, l) ← try_ (xadd_trim l);
  id_arg ← let_some (head l) (arity (bs "xadd"));
  let field_args := drop 1 l in
  _ ← return_if (bool_decide (field_args = []) || negb (Nat.even (length field_args)))
        (arity (bs "xadd"));
  v ← get_ ns (arg args 0);
  _ ← return_if (nomkstream && bool_decide (v = None)) Null;
  '(x, exp) ← read_stream ns (arg args 0);
  now ← (if beq id_arg [42] then now_ms_ else mret 0);
  new_id ← try_ (xadd_id id_arg now (last_id x));
  _ ← (match xadd_check new_id x with Some e => early e | None => mret tt end);
  let x := apply_trim trim (append_entry new_id (pairs field_args) x) in
  _ ← put_ ns (arg args 0) (DStream x) exp;
  mret (bulk_str (show_id new_id))).

(** ** XLEN, XDEL, XTRIM *)

Definition xlen (ns : Z) (args : list Bytes) : prog Reply := reply (
  _ ← return_if (negb (zlen args =? 1)) (arity (bs "xlen"));
  v ← get_ ns (arg args 0);
  mret (match v with
        | Some (DStream x) => Int (Z.of_nat (size (entries x)))
        | Some _ => wrong_type
        | None => Int 0
        end)).

(** The loop over the identifiers to delete. *)
Fixpoint xdel_loop (l : list Bytes) (x : XStream) (removed : Z) : result Resp (XStream * Z) :=
  match l with
  | [] => Ok (x, removed)
  | a :: l' =>
      match parse_explicit_id a 0 with
      | None => Err id_err
      | Some id =>
          if bool_decide (is_Some (entries x !! id))
          then xdel_loop l' (drop_entry id x) (removed + 1)
          else xdel_loop l' x removed
      end
  end.

Definition xdel (ns : Z) (args : list Bytes) : prog Reply := reply (
  _ ← return_if (zlen args <? 2) (arity (bs "xdel"));
  '(x, exp) ← read_stream ns (arg args 0);
  '(x, removed) ← try_ (xdel_loop (drop 1 args) x 0);
  _ ← put_ ns (arg args 0) (DStream x) exp;
  mret (Int removed)).

Definition xtrim (ns : Z) (args : list Bytes) : prog Reply := reply (
  _ ← return_if (zlen args <? 2) (arity (bs "xtrim"));
  '(x, exp) ← read_stream ns (arg args 0);
  let before := Z.of_nat (size (entries x)) in
  let u := upper (arg args 1) in
  let bound := head (skip_approx (drop 2 args)) in
  x ← (if beq u (bs "MAXLEN") then
         n ← let_some (filter_opt (fun n => 0 <=? n) (bound ≫= parse_i64)) not_int;
         mret (trim_to_maxlen n x)
       else if beq u (bs "MINID") then
         id ← let_some (bound ≫= fun b => parse_explicit_id b 0) id_err;
         mret (trim_to_minid id x)
       else early syntax);
  _ ← put_ ns (arg args 0) (DStream x) exp;
  mret (Int (before - Z.of_nat (size (entries x))))).

(** ** XRANGE, XREVRANGE, XREAD *)

(** [s.entries.range(lo..=hi)] and [s.entries.range(lo..)] *)
Definition range_incl (lo hi : StreamId) (x : XStream) : list (StreamId * Fields) :=
  List.filter (fun e : StreamId * Fields => sid_leb lo e.1 && sid_leb e.1 hi)
    (sorted_stream (entries x)).

Definition range_from (lo : StreamId) (x : XStream) : list (StreamId * Fields) :=
  List.filter (fun e : StreamId * Fields => sid_leb lo e.1) (sorted_stream (entries x)).

Definition truncate (count : option Z) (l : list Resp) : list Resp :=
  match count with Some c => take (Z.to_nat c) l | None => l end.

Definition xrange (ns : Z) (args : list Bytes) (rev : bool) : prog Reply := reply (
  _ ← return_if (zlen args <? 3) (arity (if rev then bs "xrevrange" else bs "xrange"));
  '(lo, lo_ex) ← let_some (parse_range_bound (if rev then arg args 2 else arg args 1) true) id_err;
  '(hi, hi_ex) ← let_some (parse_range_bound (if rev then arg args 1 else arg args 2) false) id_err;
  count ← (if (5 <=? zlen args) && beq (upper (arg args 3)) (bs "COUNT") then
             match filter_opt (fun n => 0 <=? n) (parse_i64 (arg args 4)) with
             | Some n => mret (Some n)
             | None => early not_int
             end
           else if negb (zlen args =? 3) then early syntax else mret None);
  '(x, _) ← read_stream ns (arg args 0);
  let lo_bound := if lo_ex : bool then stream_id_next lo else lo in
  let hi_bound := if hi_ex : bool then stream_id_prev hi else hi in
  _ ← return_if (sid_ltb hi_bound lo_bound) (Array []);
  let items := map id_to_resp (range_incl lo_bound hi_bound x) in
  mret (Array (truncate count (if rev then List.rev items else items)))).

(** The option loop of XREAD: the count, and what is left of the arguments after STREAMS;
    [None] for the rest when the position ends up past the end of the arguments. *)
Fixpoint xread_opts (l : list Bytes) (count : option Z)
  : result Resp (option Z * option (list Bytes)) :=
  match l with
  | [] => Ok (count, Some [])
  | a :: l' =>
      let u := upper a in
      if beq u (bs "COUNT") then
        match l' with
        | [] => Err not_int
        | v :: l'' =>
            match filter_opt (fun n => 0 <=? n) (parse_i64 v) with
            | Some n => xread_opts l'' (Some n)
            | None => Err not_int
            end
        end
      else if beq u (bs "BLOCK") then
        match l' with
        | [] => Ok (count, None)
        | _ :: l'' => xread_opts l'' count
        end
      else if beq u (bs "STREAMS") then Ok (count, Some l')
      else Err syntax
  end.

(** The loop over the pairs of key and identifier. *)
Definition xread_streams (ns : Z) (count : option Z) (l : list (Bytes * Bytes)) : cmd (list Resp) :=
  cmd_fold (fun out (p : Bytes * Bytes) =>
    '(x, _) ← read_stream ns p.1;
    after ← (if beq p.2 [36] then mret (last_id x)
             else let_some (parse_explicit_id p.2 U64_MAX) id_err);
    let items := truncate count (map id_to_resp (range_from (stream_id_next after) x)) in
    mret (if bool_decide (items = []) then out
          else out ++ [Array [Bulk p.1; Array items]])) [] l.

Definition xread (ns : Z) (args : list Bytes) : prog Reply := reply (
  '(count, rest) ← try_ (xread_opts args None);
  rest ← (match rest with Some l => mret l | None => panic end);
  _ ← return_if (bool_decide (rest = []) || negb (Nat.even (length rest)))
        (err (bs "ERR Unbalanced XREAD list of streams: for each stream key an ID or '$' must be specified."));
  let n := (length rest / 2)%nat in
  out ← xread_streams ns count (zip (take n rest) (drop n rest));
  mret (if bool_decide (out = []) then NullArray else Array out)).
