(* ===== verification/CmdGeo.v ===== *)
(** * Geospatial commands (src/redis/cmd_geo.rs)

    A geo set is a sorted set whose scores are 52-bit interleaved geohashes. The
    trigonometric functions of the platform's mathematical library are the class [Libm]. *)

From S2P Require Import Prelude Util Resp Mvcc Engine CmdString CmdHashList CmdSet ZSet.
From Stdlib Require Import SpecFloat.

Class Libm := { f64_sin : f64 -> f64; f64_cos : f64 -> f64; f64_asin : f64 -> f64 }.

Definition GEO_STEP : Z := 26.
Definition LON_MIN : f64 := f64_of_dec true 180 0.
Definition LON_MAX : f64 := f64_of_dec false 180 0.
Definition LAT_MIN : f64 := f64_of_dec true 8505112878 (-8).
Definition LAT_MAX : f64 := f64_of_dec false 8505112878 (-8).
Definition EARTH_RADIUS_M : f64 := f64_of_dec false 6372797560856 (-6).
Definition f64_two : f64 := f64_of_uint 2.

(** ** Interleaving *)

Definition spread (v : Z) : Z :=
  let v := Z.land v 0xFFFFFFFF in
  let v := Z.land (Z.lor v (Z.shiftl v 16)) 0x0000FFFF0000FFFF in
  let v := Z.land (Z.lor v (Z.shiftl v 8)) 0x00FF00FF00FF00FF in
  let v := Z.land (Z.lor v (Z.shiftl v 4)) 0x0F0F0F0F0F0F0F0F in
  let v := Z.land (Z.lor v (Z.shiftl v 2)) 0x3333333333333333 in
  Z.land (Z.lor v (Z.shiftl v 1)) 0x5555555555555555.

Definition interleave64 (xlo ylo : Z) : Z :=
  Z.lor (spread xlo) (wrap_u64 (Z.shiftl (spread ylo) 1)).

Definition squash (v : Z) : Z :=
  let v := Z.land v 0x5555555555555555 in
  let v := Z.land (Z.lor v (Z.shiftr v 1)) 0x3333333333333333 in
  let v := Z.land (Z.lor v (Z.shiftr v 2)) 0x0F0F0F0F0F0F0F0F in
  let v := Z.land (Z.lor v (Z.shiftr v 4)) 0x00FF00FF00FF00FF in
  let v := Z.land (Z.lor v (Z.shiftr v 8)) 0x0000FFFF0000FFFF in
  wrap_u32 (Z.land (Z.lor v (Z.shiftr v 16)) 0x00000000FFFFFFFF).

Definition deinterleave64 (interleaved : Z) : Z * Z :=
  (squash interleaved, squash (Z.shiftr interleaved 1)).

Definition U32_MAX : Z := 2 ^ 32 - 1.

(** [(1u64 << GEO_STEP) as f64] *)
Definition geo_scale : f64 := f64_of_uint (Z.shiftl 1 GEO_STEP).

Definition geohash_encode (lon lat : f64) : Z :=
  let lat_off := f64_div (f64_sub lat LAT_MIN) (f64_sub LAT_MAX LAT_MIN) in
  let lon_off := f64_div (f64_sub lon LON_MIN) (f64_sub LON_MAX LON_MIN) in
  let ilat := f64_to_uint U32_MAX (f64_mul lat_off geo_scale) in
  let ilon := f64_to_uint U32_MAX (f64_mul lon_off geo_scale) in
  interleave64 ilat ilon.

(** [MIN + (i as f64 / scale) * (MAX - MIN)] *)
Definition cell_edge (lo hi : f64) (i : Z) : f64 :=
  f64_add lo (f64_mul (f64_div (f64_of_uint i) geo_scale) (f64_sub hi lo)).

Definition geohash_decode (bits : Z) : f64 * f64 :=
  let '(ilat, ilon) := deinterleave64 bits in
  let lat_min := cell_edge LAT_MIN LAT_MAX ilat in
  let lat_max := cell_edge LAT_MIN LAT_MAX (wrap_u32 (ilat + 1)) in
  let lon_min := cell_edge LON_MIN LON_MAX ilon in
  let lon_max := cell_edge LON_MIN LON_MAX (wrap_u32 (ilon + 1)) in
  (f64_div (f64_add lon_min lon_max) f64_two, f64_div (f64_add lat_min lat_max) f64_two).

Definition PI : f64 := f64_of_dec false 314159265358979323846264338327950288 (-35).
Definition to_radians (f : f64) : f64 := f64_mul f (f64_div PI (f64_of_uint 180)).

Definition unit_to_meters (unit : Bytes) : option f64 :=
  let u := to_ascii_lowercase unit in
  if beq u (bs "m") then Some f64_one
  else if beq u (bs "km") then Some (f64_of_uint 1000)
  else if beq u (bs "mi") then Some (f64_of_dec false 160934 (-2))
  else if beq u (bs "ft") then Some (f64_of_dec false 3048 (-4))
  else None.

(** ** The base-32 string *)

Definition ALPHABET : Bytes := bs "0123456789bcdefghjkmnpqrstuvwxyz".

(** The bisection loop: [n] more bits, longitude first when [even]. *)
Fixpoint geohash_bits (n : nat) (even : bool) (lat_range lon_range : f64 * f64) (lon lat : f64)
  : list bool :=
  match n with
  | O => []
  | S n' =>
      if even then
        let mid := f64_div (f64_add lon_range.1 lon_range.2) f64_two in
        if f64_leb mid lon
        then true :: geohash_bits n' false lat_range (mid, lon_range.2) lon lat
        else false :: geohash_bits n' false lat_range (lon_range.1, mid) lon lat
      else
        let mid := f64_div (f64_add lat_range.1 lat_range.2) f64_two in
        if f64_leb mid lat
        then true :: geohash_bits n' true (mid, lat_range.2) lon_range lon lat
        else false :: geohash_bits n' true (lat_range.1, mid) lon_range lon lat
  end.

(** Five bits per character, the first one highest. *)
Fixpoint base32 (bits : list bool) : Bytes :=
  match bits with
  | b4 :: b3 :: b2 :: b1 :: b0 :: r =>
      let idx := 16 * b2i b4 + 8 * b2i b3 + 4 * b2i b2 + 2 * b2i b1 + b2i b0 in
      default 0 (ALPHABET !! Z.to_nat idx) :: base32 r
  | _ => []
  end.

Definition geohash_string (lon lat : f64) : Bytes :=
  base32 (geohash_bits 55 true (f64_of_dec true 90 0, f64_of_uint 90)
            (f64_of_dec true 180 0, f64_of_uint 180) lon lat).

(** ** GEOADD *)

Record GeoAddFlags := { ga_nx : bool; ga_xx : bool; ga_ch : bool }.

Fixpoint geoadd_flags (l : list Bytes) (f : GeoAddFlags) : GeoAddFlags * list Bytes :=
  match l with
  | [] => (f, [])
  | a :: l' =>
      let u := upper a in
      if beq u (bs "NX") then
        geoadd_flags l' {| ga_nx := true; ga_xx := ga_xx f; ga_ch := ga_ch f |}
      else if beq u (bs "XX") then
        geoadd_flags l' {| ga_nx := ga_nx f; ga_xx := true; ga_ch := ga_ch f |}
      else if beq u (bs "CH") then
        geoadd_flags l' {| ga_nx := ga_nx f; ga_xx := ga_xx f; ga_ch := true |}
      else (f, l)
  end.

Definition in_bounds (lo hi x : f64) : bool := f64_leb lo x && f64_leb x hi.

(** The loop over longitude, latitude, member: the set, the added and the changed. *)
Fixpoint geoadd_loop (nx xx : bool) (l : list Bytes) (z : ZSet) (added changed : Z)
  : result Resp (ZSet * Z * Z) :=
  match l with
  | a :: b :: member :: l' =>
      match parse_f64 a, parse_f64 b with
      | Some lon, Some lat =>
          if negb (in_bounds LON_MIN LON_MAX lon) || negb (in_bounds LAT_MIN LAT_MAX lat) then
            Err (err (bs "ERR invalid longitude,latitude pair " ++ fmt_fixed 6 lon ++ bs ","
                      ++ fmt_fixed 6 lat))
          else
            let present := bool_decide (is_Some (zset_score z member)) in
            if (nx && present) || (xx && negb present) then geoadd_loop nx xx l' z added changed
            else
              let score := f64_of_uint (geohash_encode lon lat) in
              let '(prev, z') := zset_insert member score z in
              match prev with
              | None => geoadd_loop nx xx l' z' (added + 1) changed
              | Some p => geoadd_loop nx xx l' z' added
                            (if f64_eqb p score then changed else changed + 1)
              end
      | _, _ => Err (err (bs "ERR value is not a valid float"))
      end
  | _ => Ok (z, added, changed)
  end.

Definition geoadd (ns : Z) (args : list Bytes) : prog Reply := reply (
  _ ← return_if (zlen args <? 4) (arity (bs "geoadd"));
  let '(f, rest) := geoadd_flags (drop 1 args) {| ga_nx := false; ga_xx := false; ga_ch := false |} in
  _ ← return_if (ga_nx f && ga_xx f)
        (err (bs "ERR XX and NX options at the same time are not compatible"));
  _ ← return_if (bool_decide (rest = []) || negb (zlen rest mod 3 =? 0)) syntax;
  '(z, exp) ← read_zset ns (arg args 0);
  '(z, added, changed) ← try_ (geoadd_loop (ga_nx f) (ga_xx f) rest z 0 0);
  _ ← store_coll ns (arg args 0) (DZSet z) exp;
  mret (Int (if ga_ch f then added + changed else added))).

(** ** GEOPOS, GEOHASH *)

(** The pair of coordinates of a cell. *)
Definition coord_reply (lon lat : f64) : Resp :=
  Array [bulk_str (fmt_fixed 17 lon); bulk_str (fmt_fixed 17 lat)].

(** [score as u64] *)
Definition hash_of (score : f64) : Z := f64_to_uint U64_MAX score.

Definition geopos (ns : Z) (args : list Bytes) : prog Reply := reply (
  _ ← return_if (bool_decide (args = [])) (arity (bs "geopos"));
  '(z, _) ← read_zset ns (arg args 0);
  mret (Array (map (fun m =>
    match zset_score z m with
    | Some score => let '(lon, lat) := geohash_decode (hash_of score) in coord_reply lon lat
    | None => NullArray
    end) (drop 1 args)))).

Definition geohash_cmd (ns : Z) (args : list Bytes) : prog Reply := reply (
  _ ← return_if (bool_decide (args = [])) (arity (bs "geohash"));
  '(z, _) ← read_zset ns (arg args 0);
  mret (Array (map (fun m =>
    match zset_score z m with
    | Some score =>
        let '(lon, lat) := geohash_decode (hash_of score) in bulk_str (geohash_string lon lat)
    | None => Null
    end) (drop 1 args)))).

(** ** Distances and searches *)

Record SearchOpts := {
  with_coord : bool; with_dist : bool; with_hash : bool;
  so_count : option Z; so_any : bool; so_asc : option bool;
  store_key : option Bytes; storedist_key : option Bytes }.

Definition search_opts0 : SearchOpts :=
  {| with_coord := false; with_dist := false; with_hash := false; so_count := None;
     so_any := false; so_asc := None; store_key := None; storedist_key := None |}.

Definition set_asc (b : bool) (o : SearchOpts) : SearchOpts :=
  {| with_coord := with_coord o; with_dist := with_dist o; with_hash := with_hash o;
     so_count := so_count o; so_any := so_any o; so_asc := Some b;
     store_key := store_key o; storedist_key := storedist_key o |}.
Definition set_count (n : Z) (any : bool) (o : SearchOpts) : SearchOpts :=
  {| with_coord := with_coord o; with_dist := with_dist o; with_hash := with_hash o;
     so_count := Some n; so_any := so_any o || any; so_asc := so_asc o;
     store_key := store_key o; storedist_key := storedist_key o |}.
Definition set_with_coord (o : SearchOpts) : SearchOpts :=
  {| with_coord := true; with_dist := with_dist o; with_hash := with_hash o;
     so_count := so_count o; so_any := so_any o; so_asc := so_asc o;
     store_key := store_key o; storedist_key := storedist_key o |}.
Definition set_with_dist (o : SearchOpts) : SearchOpts :=
  {| with_coord := with_coord o; with_dist := true; with_hash := with_hash o;
     so_count := so_count o; so_any := so_any o; so_asc := so_asc o;
     store_key := store_key o; storedist_key := storedist_key o |}.
Definition set_with_hash (o : SearchOpts) : SearchOpts :=
  {| with_coord := with_coord o; with_dist := with_dist o; with_hash := true;
     so_count := so_count o; so_any := so_any o; so_asc := so_asc o;
     store_key := store_key o; storedist_key := storedist_key o |}.
Definition set_store (k : Bytes) (o : SearchOpts) : SearchOpts :=
  {| with_coord := with_coord o; with_dist := with_dist o; with_hash := with_hash o;
     so_count := so_count o; so_any := so_any o; so_asc := so_asc o;
     store_key := Some k; storedist_key := storedist_key o |}.
Definition set_storedist (k : Bytes) (o : SearchOpts) : SearchOpts :=
  {| with_coord := with_coord o; with_dist := with_dist o; with_hash := with_hash o;
     so_count := so_count o; so_any := so_any o; so_asc := so_asc o;
     store_key := store_key o; storedist_key := Some k |}.

(** The width and height of a box are in meters. *)
Inductive Shape : Type := Radius (r : f64) | Box (w h : f64).

Record Hit := { h_member : Bytes; h_dist : f64; h_lon : f64; h_lat : f64; h_hash : Z }.

Definition build_reply (h : Hit) (factor : f64) (o : SearchOpts) : Resp :=
  if negb (with_coord o) && negb (with_dist o) && negb (with_hash o) then Bulk (h_member h)
  else Array (
    Bulk (h_member h)
    :: (if with_dist o then [bulk_str (fmt_fixed 4 (f64_div (h_dist h) factor))] else [])
    ++ (if with_hash o then [Int (wrap_i64 (h_hash h))] else [])
    ++ (if with_coord o then [coord_reply (h_lon h) (h_lat h)] else [])).

(** A stable sort by distance. *)
Fixpoint insert_hit (ltb : f64 -> f64 -> bool) (h : Hit) (l : list Hit) : list Hit :=
  match l with
  | [] => [h]
  | x :: l' => if ltb (h_dist x) (h_dist h) then x :: insert_hit ltb h l' else h :: x :: l'
  end.

(** [sort_by(|a, b| a.1.partial_cmp(&b.1).unwrap())]: a comparison with NaN panics. *)
Definition sort_hits (ltb : f64 -> f64 -> bool) (l : list Hit) : cmd (list Hit) :=
  if (2 <=? zlen l) && existsb (fun h => is_nan (h_dist h)) l then panic
  else mret (foldr (insert_hit ltb) [] l).

Definition unit_err : Resp := err (bs "ERR unsupported unit provided. please use M, KM, FT, MI").

Section Search.
Context `{Libm}.

Definition haversine_m (lon1 lat1 lon2 lat2 : f64) : f64 :=
  let lat1r := to_radians lat1 in
  let lat2r := to_radians lat2 in
  let u := f64_sin (f64_div (f64_sub lat2r lat1r) f64_two) in
  let v := f64_sin (f64_div (to_radians (f64_sub lon2 lon1)) f64_two) in
  f64_mul (f64_mul f64_two EARTH_RADIUS_M)
    (f64_asin (f64_sqrt (f64_add (f64_mul u u)
       (f64_mul (f64_mul (f64_mul (f64_cos lat1r) (f64_cos lat2r)) v) v)))).

Definition geodist (ns : Z) (args : list Bytes) : prog Reply := reply (
  _ ← return_if ((zlen args <? 3) || (4 <? zlen args)) (arity (bs "geodist"));
  let unit := match args !! 3%nat with Some b => lossy b | None => bs "m" end in
  factor ← let_some (unit_to_meters unit) unit_err;
  '(z, _) ← read_zset ns (arg args 0);
  s1 ← let_some (zset_score z (arg args 1)) Null;
  s2 ← let_some (zset_score z (arg args 2)) Null;
  let '(lon1, lat1) := geohash_decode (hash_of s1) in
  let '(lon2, lat2) := geohash_decode (hash_of s2) in
  mret (bulk_str (fmt_fixed 4 (f64_div (haversine_m lon1 lat1 lon2 lat2) factor)))).

Definition within (shape : Shape) (clon clat lon lat dist : f64) : bool :=
  match shape with
  | Radius r => f64_leb dist r
  | Box w h =>
      let dy := haversine_m clon clat clon lat in
      let dx := haversine_m clon clat lon clat in
      f64_leb dx (f64_div w f64_two) && f64_leb dy (f64_div h f64_two)
  end.

(** The loop over the members, stopped early by [COUNT n ANY]. *)
Fixpoint hits_loop (shape : Shape) (clon clat : f64) (o : SearchOpts)
    (l : list (Bytes * f64)) (hits : list Hit) : list Hit :=
  match l with
  | [] => hits
  | (member, score) :: l' =>
      let hash := hash_of score in
      let '(lon, lat) := geohash_decode hash in
      let dist := haversine_m clon clat lon lat in
      let hits := if within shape clon clat lon lat dist
                  then hits ++ [{| h_member := member; h_dist := dist; h_lon := lon;
                                   h_lat := lat; h_hash := hash |}]
                  else hits in
      if so_any o && match so_count o with Some c => c <=? zlen hits | None => false end
      then hits else hits_loop shape clon clat o l' hits
  end.

Definition stored (score : Hit -> f64) (hits : list Hit) : ZSet :=
  foldl (fun z h => snd (zset_insert (h_member h) (score h) z)) zset_default hits.

Definition run_search (ns : Z) (key : Bytes) (clon clat : f64) (shape : Shape) (factor : f64)
    (o : SearchOpts) : cmd Resp :=
  '(z, exp) ← read_zset ns key;
  let hits := hits_loop shape clon clat o (map_to_list (by_member z)) [] in
  hits ← (match so_asc o with
          | Some true => sort_hits f64_ltb hits
          | Some false => sort_hits (fun a b => f64_ltb b a) hits
          | None =>
              if bool_decide (is_Some (store_key o)) || bool_decide (is_Some (storedist_key o))
              then sort_hits f64_ltb hits else mret hits
          end);
  let hits := match so_count o with Some c => take (Z.to_nat c) hits | None => hits end in
  match store_key o, storedist_key o with
  | Some k, _ =>
      let out := stored (fun h => f64_of_uint (h_hash h)) hits in
      _ ← store_coll ns k (DZSet out) exp;
      mret (Int (zset_len out))
  | None, Some k =>
      let out := stored h_dist hits in
      _ ← store_coll ns k (DZSet out) exp;
      mret (Int (zset_len out))
  | None, None => mret (Array (map (fun h => build_reply h factor o) hits))
  end.

(** The options shared by the searches; [None] when the option is not one of them. *)
Record GeoSearch := {
  gs_center : option (f64 * f64); gs_member : option Bytes;
  gs_shape : option (Shape * f64); gs_opts : SearchOpts }.

Definition with_opts (g : GeoSearch) (o : SearchOpts) : GeoSearch :=
  {| gs_center := gs_center g; gs_member := gs_member g; gs_shape := gs_shape g; gs_opts := o |}.

Definition count_err : Resp := err (bs "ERR COUNT must be > 0").

Fixpoint geosearch_opts (l : list Bytes) (g : GeoSearch) : result Resp GeoSearch :=
  match l with
  | [] => Ok g
  | a :: l' =>
      let u := upper a in
      if beq u (bs "FROMMEMBER") then
        match l' with
        | m :: l2 => geosearch_opts l2 {| gs_center := gs_center g; gs_member := Some m;
                                          gs_shape := gs_shape g; gs_opts := gs_opts g |}
        | [] => Err syntax
        end
      else if beq u (bs "FROMLONLAT") then
        match l' with
        | lo :: la :: l2 =>
            match parse_f64 lo, parse_f64 la with
            | Some lon, Some lat =>
                geosearch_opts l2 {| gs_center := Some (lon, lat); gs_member := gs_member g;
                                     gs_shape := gs_shape g; gs_opts := gs_opts g |}
            | _, _ => Err syntax
            end
        | _ => Err syntax
        end
      else if beq u (bs "BYRADIUS") then
        match l' with
        | r :: unit :: l2 =>
            match parse_f64 r with
            | Some r =>
                match unit_to_meters (lossy unit) with
                | Some factor =>
                    geosearch_opts l2 {| gs_center := gs_center g; gs_member := gs_member g;
                      gs_shape := Some (Radius (f64_mul r factor), factor); gs_opts := gs_opts g |}
                | None => Err unit_err
                end
            | None => Err syntax
            end
        | _ => Err syntax
        end
      else if beq u (bs "BYBOX") then
        match l' with
        | w :: h :: unit :: l2 =>
            match parse_f64 w, parse_f64 h with
            | Some w, Some h =>
                match unit_to_meters (lossy unit) with
                | Some factor =>
                    geosearch_opts l2 {| gs_center := gs_center g; gs_member := gs_member g;
                      gs_shape := Some (Box (f64_mul w factor) (f64_mul h factor), factor);
                      gs_opts := gs_opts g |}
                | None => Err unit_err
                end
            | _, _ => Err syntax
            end
        | _ => Err syntax
        end
      else if beq u (bs "ASC") then geosearch_opts l' (with_opts g (set_asc true (gs_opts g)))
      else if beq u (bs "DESC") then geosearch_opts l' (with_opts g (set_asc false (gs_opts g)))
      else if beq u (bs "COUNT") then
        match l' with
        | c :: l2 =>
            match filter_opt (fun n => 0 <? n) (parse_i64 c) with
            | Some n =>
                match l2 with
                | any :: l3 =>
                    if beq (upper any) (bs "ANY")
                    then geosearch_opts l3 (with_opts g (set_count n true (gs_opts g)))
                    else geosearch_opts l2 (with_opts g (set_count n false (gs_opts g)))
                | [] => Ok (with_opts g (set_count n false (gs_opts g)))
                end
            | None => Err count_err
            end
        | [] => Err count_err
        end
      else if beq u (bs "WITHCOORD") then
        geosearch_opts l' (with_opts g (set_with_coord (gs_opts g)))
      else if beq u (bs "WITHDIST") then
        geosearch_opts l' (with_opts g (set_with_dist (gs_opts g)))
      else if beq u (bs "WITHHASH") then
        geosearch_opts l' (with_opts g (set_with_hash (gs_opts g)))
      else Err syntax
  end.

Definition no_center : Resp :=
  err (bs "ERR exactly one of FROMMEMBER, FROMLONLAT is required").
Definition no_member : Resp := err (bs "ERR could not decode requested zset member").

Definition geosearch (ns : Z) (args : list Bytes) : prog Reply := reply (
  _ ← return_if (bool_decide (args = [])) (arity (bs "geosearch"));
  g ← try_ (geosearch_opts (drop 1 args)
              {| gs_center := None; gs_member := None; gs_shape := None; gs_opts := search_opts0 |});
  '(shape, factor) ← let_some (gs_shape g) no_center;
  '(z, _) ← read_zset ns (arg args 0);
  '(clon, clat) ← (match gs_member g with
                   | Some m => s ← let_some (zset_score z m) no_member;
                               mret (geohash_decode (hash_of s))
                   | None => let_some (gs_center g) no_center
                   end);
  run_search ns (arg args 0) clon clat shape factor (gs_opts g)).

Fixpoint georadius_opts (l : list Bytes) (o : SearchOpts) : result Resp SearchOpts :=
  match l with
  | [] => Ok o
  | a :: l' =>
      let u := upper a in
      if beq u (bs "ASC") then georadius_opts l' (set_asc true o)
      else if beq u (bs "DESC") then georadius_opts l' (set_asc false o)
      else if beq u (bs "COUNT") then
        match l' with
        | c :: l2 =>
            match filter_opt (fun n => 0 <? n) (parse_i64 c) with
            | Some n =>
                match l2 with
                | any :: l3 =>
                    if beq (upper any) (bs "ANY") then georadius_opts l3 (set_count n true o)
                    else georadius_opts l2 (set_count n false o)
                | [] => Ok (set_count n false o)
                end
            | None => Err count_err
            end
        | [] => Err count_err
        end
      else if beq u (bs "WITHCOORD") then georadius_opts l' (set_with_coord o)
      else if beq u (bs "WITHDIST") then georadius_opts l' (set_with_dist o)
      else if beq u (bs "WITHHASH") then georadius_opts l' (set_with_hash o)
      else if beq u (bs "STORE") then
        match l' with k :: l2 => georadius_opts l2 (set_store k o) | [] => Err syntax end
      else if beq u (bs "STOREDIST") then
        match l' with k :: l2 => georadius_opts l2 (set_storedist k o) | [] => Err syntax end
      else Err syntax
  end.

Definition float_err : Resp := err (bs "ERR value is not a valid float").

Definition georadius (ns : Z) (args : list Bytes) (by_member : bool) : prog Reply := reply (
  let min_args := if by_member then 4 else 5 in
  _ ← return_if (zlen args <? min_args)
        (arity (if by_member then bs "georadiusbymember" else bs "georadius"));
  center ← (if by_member then mret None
            else lon ← let_some (parse_f64 (arg args 1)) float_err;
                 lat ← let_some (parse_f64 (arg args 2)) float_err;
                 mret (Some (lon, lat)));
  let i := if by_member then 2%nat else 3%nat in
  radius ← let_some (parse_f64 (arg args i)) float_err;
  unit ← let_some (args !! S i) syntax;
  factor ← let_some (unit_to_meters (lossy unit)) unit_err;
  o ← try_ (georadius_opts (drop (i + 2) args) search_opts0);
  '(z, _) ← read_zset ns (arg args 0);
  '(clon, clat) ← (match center with
                   | Some c => mret c
                   | None => s ← let_some (zset_score z (arg args 1)) no_member;
                             mret (geohash_decode (hash_of s))
                   end);
  run_search ns (arg args 0) clon clat (Radius (f64_mul radius factor)) factor o).
End Search.
