(* ===== verification/Model.v ===== *)
(** * The contract of [Db] and its two implementations

    [Model] is a plain map of unexpired-or-just-staged bindings: what a command is written
    against. [DbSim] states when an implementation answers like it, [interp_sim] lifts that
    to every program, and the instances show that a sequencer writer implements the whole
    contract and a snapshot its reading half. *)

From S2P Require Import Prelude Util Resp Mvcc MvccFacts Isolation ZSet Engine.

(** ** The reference implementation *)

Record Model := {
  m_data : gmap NsKey (Datum * option Z);
  m_now : Z;
  m_sizes : gmap Z Z }.

Definition with_data (m : Model) (d : gmap NsKey (Datum * option Z)) : Model :=
  {| m_data := d; m_now := m_now m; m_sizes := m_sizes m |}.

(** The unexpired value of a key. *)
Definition live (m : Model) (nk : NsKey) : option Datum :=
  match m_data m !! nk with
  | Some (d, e) => if is_expired e (m_now m) then None else Some d
  | None => None
  end.

Definition model_expiry (m : Model) (nk : NsKey) : option Z :=
  match m_data m !! nk with
  | Some (_, Some e) => if m_now m <? e then Some e else None
  | _ => None
  end.

Definition model_keys (m : Model) (ns : Z) : list Bytes :=
  sort_keys (omap (fun kv : NsKey * (Datum * option Z) =>
    if kv.1.1 =? ns then Some kv.1.2 else None) (map_to_list (m_data m))).

#[export] Instance model_db : Db Model := {
  db_get ns k m := (live m (ns, k), m);
  db_expiry ns k m := (model_expiry m (ns, k), m);
  db_put ns k d e m := (tt, with_data m (<[(ns, k) := (d, e)]> (m_data m)));
  db_del ns k m :=
    (bool_decide (is_Some (m_data m !! (ns, k))), with_data m (delete (ns, k) (m_data m)));
  db_keys ns m := (model_keys m ns, m);
  db_dbsize ns m := (Z.max (default 0 (m_sizes m !! ns)) 0, m);
  db_now_ms := m_now }.

(** ** Simulation between implementations *)

Class DbSim {S1 S2} `{Db S1} `{Db S2} (R : S1 -> S2 -> Prop) : Prop := {
  sim_get s1 s2 ns k : R s1 s2 ->
    fst (db_get ns k s1) = fst (db_get ns k s2) /\ R (snd (db_get ns k s1)) (snd (db_get ns k s2));
  sim_expiry s1 s2 ns k : R s1 s2 ->
    fst (db_expiry ns k s1) = fst (db_expiry ns k s2) /\
    R (snd (db_expiry ns k s1)) (snd (db_expiry ns k s2));
  sim_keys s1 s2 ns : R s1 s2 ->
    fst (db_keys ns s1) = fst (db_keys ns s2) /\ R (snd (db_keys ns s1)) (snd (db_keys ns s2));
  sim_dbsize s1 s2 ns : R s1 s2 ->
    fst (db_dbsize ns s1) = fst (db_dbsize ns s2) /\
    R (snd (db_dbsize ns s1)) (snd (db_dbsize ns s2));
  sim_now s1 s2 : R s1 s2 -> db_now_ms s1 = db_now_ms s2 }.

Class DbSimW {S1 S2} `{Db S1} `{Db S2} (R : S1 -> S2 -> Prop) : Prop := {
  simw_read :: DbSim R;
  sim_put s1 s2 ns k d e : R s1 s2 -> R (snd (db_put ns k d e s1)) (snd (db_put ns k d e s2));
  sim_del s1 s2 ns k : R s1 s2 ->
    fst (db_del ns k s1) = fst (db_del ns k s2) /\ R (snd (db_del ns k s1)) (snd (db_del ns k s2)) }.

(** ** What a program may do

    A policy bounds what a program is shown and what it may do: the values reads return,
    the values it may store, whether it may delete. [wp pol p Q]: under the policy every run
    of [p] keeps to it and ends in [Q]. *)

Record Policy := {
  pol_read : Datum -> Prop;
  pol_put : Datum -> Prop;
  pol_del : Prop }.

Fixpoint wp {A} (pol : Policy) (p : prog A) (Q : A -> Prop) : Prop :=
  match p with
  | Ret a => Q a
  | Get _ _ c => forall x, (forall d, x = Some d -> pol_read pol d) -> wp pol (c x) Q
  | Expiry _ _ c => forall x, wp pol (c x) Q
  | PutK _ _ d _ c => pol_put pol d /\ wp pol c Q
  | DelK _ _ c => pol_del pol /\ forall x, wp pol (c x) Q
  | Keys _ c => forall x, wp pol (c x) Q
  | DbSize _ c => forall x, wp pol (c x) Q
  | NowMs c => forall x, wp pol (c x) Q
  end.

(** Neither puts nor deletes. *)
Definition reads_only : Policy :=
  {| pol_read := fun _ => True; pol_put := fun _ => False; pol_del := False |}.

Definition read_only {A} (p : prog A) : Prop := wp reads_only p (fun _ => True).

Section Simulation.
Context {S1 S2 : Type} `{Db S1} `{Db S2} (R : S1 -> S2 -> Prop).

Lemma st_bind_eq {S A B} (m : st S A) (f : A -> st S B) s :
  (m ≫= f) s = f (fst (m s)) (snd (m s)).
Proof. unfold mbind, st_mbind. by destruct (m s). Qed.

(** Implementations that simulate each other run every program alike. *)
Lemma interp_sim {A} `{!DbSimW R} (p : prog A) s1 s2 :
  R s1 s2 ->
  fst (interp p s1) = fst (interp p s2) /\ R (snd (interp p s1)) (snd (interp p s2)).
Proof.
  revert s1 s2. induction p as [a|ns k c IH|ns k c IH|ns k d e c IH|ns k c IH|ns c IH|ns c IH|c IH];
    intros s1 s2 HR; cbn [interp]; rewrite ?st_bind_eq; [done|..].
  - destruct (sim_get s1 s2 ns k HR) as [-> ?]. by apply IH.
  - destruct (sim_expiry s1 s2 ns k HR) as [-> ?]. by apply IH.
  - apply IH. by apply sim_put.
  - destruct (sim_del s1 s2 ns k HR) as [-> ?]. by apply IH.
  - destruct (sim_keys s1 s2 ns HR) as [-> ?]. by apply IH.
  - destruct (sim_dbsize s1 s2 ns HR) as [-> ?]. by apply IH.
  - rewrite (sim_now s1 s2 HR). by apply IH.
Qed.

Lemma interp_sim_read {A} `{!DbSim R} (p : prog A) s1 s2 :
  read_only p -> R s1 s2 ->
  fst (interp p s1) = fst (interp p s2) /\ R (snd (interp p s1)) (snd (interp p s2)).
Proof.
  unfold read_only. revert s1 s2.
  induction p as [a|ns k c IH|ns k c IH|ns k d e c IH|ns k c IH|ns c IH|ns c IH|c IH];
    intros s1 s2 Hp HR; cbn in Hp |- *; rewrite ?st_bind_eq; try done.
  - destruct (sim_get s1 s2 ns k HR) as [-> ?]. apply IH; auto.
  - destruct (sim_expiry s1 s2 ns k HR) as [-> ?]. by apply IH.
  - by destruct Hp.
  - by destruct Hp.
  - destruct (sim_keys s1 s2 ns HR) as [-> ?]. by apply IH.
  - destruct (sim_dbsize s1 s2 ns HR) as [-> ?]. by apply IH.
  - rewrite (sim_now s1 s2 HR). by apply IH.
Qed.
End Simulation.

(** A read-only program leaves the reference implementation unchanged. *)
Lemma read_only_model {A} (p : prog A) (m : Model) : read_only p -> snd (interp p m) = m.
Proof.
  unfold read_only. revert m.
  induction p as [a|ns k c IH|ns k c IH|ns k d e c IH|ns k c IH|ns c IH|ns c IH|c IH];
    intros m Hp; cbn in Hp |- *; rewrite ?st_bind_eq; try done; try (by apply IH); try (by destruct Hp).
  apply IH; auto.
Qed.

(** A run under a policy on a state whose values the policy admits. *)
Definition data_ok (P : Datum -> Prop) (m : Model) : Prop :=
  forall nk d e, m_data m !! nk = Some (d, e) -> P d.

Lemma wp_model {A} pol (p : prog A) (Q : A -> Prop) (m : Model) :
  wp pol p Q -> (forall d, pol_put pol d -> pol_read pol d) -> data_ok (pol_read pol) m ->
  Q (fst (interp p m)) /\ data_ok (pol_read pol) (snd (interp p m)).
Proof.
  intros Hp Hsub. revert m.
  induction p as [a|ns k c IH|ns k c IH|ns k d e c IH|ns k c IH|ns c IH|ns c IH|c IH];
    intros m Hm; cbn in Hp |- *; rewrite ?st_bind_eq; try (by split); try (by apply IH).
  - apply IH; [|done]. apply Hp. cbn. intros d. unfold live. intros Hd.
    destruct (m_data m !! (ns, k)) as [[d' e']|] eqn:E; [|done].
    destruct (is_expired _ _); simplify_eq. by eapply Hm.
  - destruct Hp as [Hput Hp]. apply IH; [done|]. cbn. intros nk d' e'. cbn.
    rewrite lookup_insert. case_decide; [intros; simplify_eq; by apply Hsub|apply Hm].
  - destruct Hp as [_ Hp]. apply IH; [done|]. cbn. intros nk d' e'. cbn.
    intros [_ Hl]%lookup_delete_Some. by eapply Hm.
Qed.

(** *** The policy through the combinators *)

Section Wp.
Context (pol : Policy).

Lemma wp_mono {A} (p : prog A) (Q Q' : A -> Prop) :
  wp pol p Q -> (forall a, Q a -> Q' a) -> wp pol p Q'.
Proof.
  intros Hp HQ. induction p; cbn in *; intros; eauto; try (destruct Hp; split; eauto).
Qed.

Lemma wp_prog_bind {A B} (p : prog A) (f : A -> prog B) Q :
  wp pol p (fun a => wp pol (f a) Q) -> wp pol (prog_bind f p) Q.
Proof. intros Hp. induction p; cbn in *; intros; eauto; try (destruct Hp; split; eauto). Qed.

(** The postcondition of a command that may return early. *)
Definition on_ok {A B} (f : A -> cmd B) (Q : result Exit B -> Prop) (r : result Exit A) : Prop :=
  match r with Ok a => wp pol (f a) Q | Err e => Q (Err e) end.

Lemma wp_bind {A B} (m : cmd A) (f : A -> cmd B) Q :
  wp pol m (on_ok f Q) -> wp pol (m ≫= f) Q.
Proof.
  intros Hm. apply wp_prog_bind. eapply wp_mono; [exact Hm|]. by intros [a|e].
Qed.

Lemma wp_reply (m : cmd Resp) (Q : Reply -> Prop) :
  wp pol m (fun r => match r with
                     | Ok a => Q (Some a)
                     | Err (Return e) => Q (Some e)
                     | Err Panic => Q None
                     end) -> wp pol (reply m) Q.
Proof.
  intros Hm. apply wp_prog_bind. eapply wp_mono; [exact Hm|]. by intros [a|[e|]].
Qed.

Lemma wp_fold {A B} (f : B -> A -> cmd B) (I : B -> Prop) b l (Q : result Exit B -> Prop) :
  I b -> (forall e, Q (Err e)) -> (forall b, I b -> Q (Ok b)) ->
  (forall b a, I b -> a ∈ l -> wp pol (f b a) (fun r => match r with Ok b => I b | Err _ => True end)) ->
  wp pol (cmd_fold f b l) Q.
Proof.
  intros Hb He Hq Hf. revert b Hb. induction l as [|a l IH]; intros b Hb; cbn [cmd_fold]; [by apply Hq|].
  apply wp_bind. eapply wp_mono; [apply Hf; [done|by left]|].
  intros [b'|e]; cbn; intros; [|done]. apply IH; [|done].
  intros. apply Hf; [done|by right].
Qed.

Lemma wp_map {A B} (f : A -> cmd B) l (Q : result Exit (list B) -> Prop) :
  (forall e, Q (Err e)) -> (forall r, Q (Ok r)) ->
  (forall a, wp pol (f a) (fun _ => True)) -> wp pol (cmd_map f l) Q.
Proof.
  revert Q. induction l as [|a l IH]; intros Q He Hq Hf; cbn [cmd_map]; [by apply Hq|].
  apply wp_bind. eapply wp_mono; [apply Hf|]. intros [b|e] _; cbn; [|done].
  apply wp_bind. apply IH; [done| |done]. intros r. by apply Hq.
Qed.

Lemma wp_return_if b r (Q : result Exit unit -> Prop) :
  (b = true -> Q (Err (Return r))) -> (b = false -> Q (Ok tt)) -> wp pol (return_if b r) Q.
Proof. destruct b; cbn; auto. Qed.

Lemma wp_let_some {A} (o : option A) r (Q : result Exit A -> Prop) :
  (o = None -> Q (Err (Return r))) -> (forall a, o = Some a -> Q (Ok a)) -> wp pol (let_some o r) Q.
Proof. destruct o; cbn; auto. Qed.
End Wp.

(** ** Sorted key lists *)

Lemma sort_keys_perm l1 l2 : l1 ≡ₚ l2 -> sort_keys l1 = sort_keys l2.
Proof.
  intros Hp. apply (StronglySorted_unique bytes_le); unfold sort_keys.
  - apply (StronglySorted_merge_sort _).
  - apply (StronglySorted_merge_sort _).
  - by rewrite !merge_sort_Permutation.
Qed.

Lemma sort_keys_elem k l : k ∈ sort_keys l <-> k ∈ l.
Proof. unfold sort_keys. by rewrite merge_sort_Permutation. Qed.

Lemma sort_keys_ext l1 l2 :
  NoDup l1 -> NoDup l2 -> (forall k, k ∈ l1 <-> k ∈ l2) -> sort_keys l1 = sort_keys l2.
Proof. intros H1 H2 He. apply sort_keys_perm. by apply NoDup_Permutation. Qed.

(** Keys of one namespace selected from a list of distinct bindings. *)
Lemma omap_ns_nodup {X} (f : NsKey * X -> option Bytes) (l : list (NsKey * X)) ns :
  NoDup l.*1 -> (forall kv k, f kv = Some k -> kv.1 = (ns, k)) -> NoDup (omap f l).
Proof.
  intros Hnd Hf. induction l as [|kv l IH]; [constructor|].
  apply NoDup_cons in Hnd as [Hn Hnd]. cbn. destruct (f kv) as [k|] eqn:E; [|by apply IH].
  constructor; [|by apply IH]. intros (kv' & Hin & Hk)%list_elem_of_omap.
  apply Hn. rewrite (Hf _ _ E), <- (Hf _ _ Hk). by apply list_elem_of_fmap_2.
Qed.

(** ** The writer implements the contract *)

(** The unexpired latest binding of a key. *)
Definition unexpired (now : Z) (o : option (Datum * option Z)) : option (Datum * option Z) :=
  match o with
  | Some (d, e) => if is_expired e now then None else Some (d, e)
  | None => None
  end.

Lemma unexpired_idem now o : unexpired now (unexpired now o) = unexpired now o.
Proof.
  destruct o as [[d e]|]; [|done]. cbn. destruct (is_expired e now) eqn:E; [done|]. cbn. by rewrite E.
Qed.

Record writer_sim (w : Writer) (m : Model) : Prop := {
  ws_now : w_now w = m_now m;
  ws_sizes : counts (w_inner w) = m_sizes m;
  ws_wf : wf_inner (w_inner w);
  ws_data : forall nk, m_data m !! nk =
    match overlay w !! nk with
    | Some o => o
    | None => unexpired (w_now w) (latest (w_inner w) nk)
    end }.

Section WriterSim.
Implicit Types (w : Writer) (m : Model) (nk : NsKey) (i : Inner).

Lemma latest_chain i nk :
  wf_inner i ->
  latest i nk = match chains i !! nk with
                | Some (v :: _) => (fun d => (d, expires_at_ms v)) <$> value v
                | _ => None
                end.
Proof. intros _. unfold latest, chain_of. by destruct (chains i !! nk) as [[|v c]|]. Qed.

Lemma tombstone_no_expiry i nk v c :
  wf_inner i -> chains i !! nk = Some (v :: c) -> value v = None -> expires_at_ms v = None.
Proof.
  intros Hwf Hc. apply (wf_chains _ _ Hwf) in Hc as [_ _ _ Ht].
  by apply Forall_cons in Ht as [? _].
Qed.

Lemma stage_sim w m op o :
  writer_sim w m ->
  writer_sim (stage w op o)
    (with_data m (match o with
                  | Some b => <[op_key op := b]> (m_data m)
                  | None => delete (op_key op) (m_data m)
                  end)).
Proof.
  intros [Hn Hs Hw Hd]. split; cbn; [done..|]. intros nk. rewrite lookup_insert.
  destruct o as [b|]; rewrite ?lookup_insert, ?lookup_delete; case_decide; try done; apply Hd.
Qed.

(** Staging the deletion of a key the model does not have. *)
Lemma stage_del_absent w m ns k :
  writer_sim w m -> m_data m !! (ns, k) = None -> writer_sim (stage w (Del ns k) None) m.
Proof.
  intros Hs Hn. pose proof (stage_sim w m (Del ns k) None Hs) as H. cbn in H.
  rewrite delete_id in H by done. by destruct m.
Qed.

Lemma writer_get_sim w m ns k :
  writer_sim w m ->
  fst (writer_get ns k w) = live m (ns, k) /\ writer_sim (snd (writer_get ns k w)) m.
Proof.
  intros Hs. pose proof Hs as [Hn _ Hw Hd]. specialize (Hd (ns, k)). unfold writer_get, live.
  rewrite Hn in Hd. destruct (overlay w !! (ns, k)) as [[[d e]|]|] eqn:Eo; rewrite Hd, ?Hn; [done|done|].
  rewrite latest_chain in * by done.
  destruct (chains (w_inner w) !! (ns, k)) as [[|v c]|] eqn:Ec; [done| |done].
  destruct (value v) as [d|] eqn:Ev; [|done]. cbn in *.
  destruct (is_expired (expires_at_ms v) (m_now m)) eqn:Ex; rewrite ?Ex; cbn.
  - split; [done|]. by apply stage_del_absent.
  - done.
Qed.

Lemma writer_expiry_sim w m ns k :
  writer_sim w m -> fst (db_expiry ns k w) = model_expiry m (ns, k).
Proof.
  intros [Hn _ Hw Hd]. specialize (Hd (ns, k)). cbn. unfold writer_get_expiry, model_expiry.
  rewrite Hd, Hn. destruct (overlay w !! (ns, k)) as [[[d e]|]|] eqn:Eo; cbn; [by destruct e|done|].
  rewrite latest_chain in * by done.
  destruct (chains (w_inner w) !! (ns, k)) as [[|v c]|] eqn:Ec; [done| |done].
  destruct (value v) as [d|] eqn:Ev; cbn.
  - destruct (expires_at_ms v) as [e|]; cbn; [|done].
    destruct (e <=? m_now m) eqn:E1; zbool; [by rewrite zlt_false by lia|].
    by rewrite zlt_true by lia.
  - by rewrite (tombstone_no_expiry _ _ _ _ Hw Ec Ev).
Qed.

Lemma writer_del_sim w m ns k :
  writer_sim w m ->
  fst (writer_del ns k w) = bool_decide (is_Some (m_data m !! (ns, k))) /\
  writer_sim (snd (writer_del ns k w)) (with_data m (delete (ns, k) (m_data m))).
Proof.
  intros Hs. split; [|by apply (stage_sim w m (Del ns k) None)].
  destruct Hs as [Hn _ Hw Hd]. unfold writer_del. cbn. rewrite Hd.
  destruct (overlay w !! (ns, k)) as [o|] eqn:Eo; [done|].
  rewrite latest_chain by done.
  destruct (chains (w_inner w) !! (ns, k)) as [[|v c]|]; [done| |done].
  destruct (value v) as [d|]; [|done]. cbn. by destruct (is_expired _ _).
Qed.

Lemma writer_live_keys_elem w ns k :
  wf_inner (w_inner w) ->
  k ∈ writer_live_keys w ns <->
  is_Some (match overlay w !! (ns, k) with
           | Some o => o
           | None => unexpired (w_now w) (latest (w_inner w) (ns, k))
           end).
Proof.
  intros Hw. unfold writer_live_keys. rewrite elem_of_app, !list_elem_of_omap.
  rewrite latest_chain by done. split.
  - intros [([[ns' k'] c] & Hin & Hf)|([[ns' k'] o] & Hin & Hf)];
      apply elem_of_map_to_list in Hin; cbn in Hf.
    + destruct (ns' =? ns) eqn:En; [|done]. zbool. subst. cbn in Hf.
      destruct (overlay w !! (ns, k')) eqn:Eo; [done|]. destruct c as [|v c]; [done|].
      destruct (value v) as [d|] eqn:Ev; [|done]. cbn in Hf.
      destruct (is_expired (expires_at_ms v) (w_now w)) eqn:Ex; [done|]. simplify_eq/=.
      rewrite Eo, Hin, Ev. cbn. by rewrite Ex.
    + destruct (ns' =? ns) eqn:En; [|done]. zbool. subst. cbn in Hf.
      destruct o; simplify_eq/=. by rewrite Hin.
  - destruct (overlay w !! (ns, k)) as [o|] eqn:Eo.
    + intros Ho. right. exists ((ns, k), o). rewrite elem_of_map_to_list. split; [done|].
      cbn. rewrite Z.eqb_refl. by rewrite bool_decide_eq_true_2.
    + destruct (chains (w_inner w) !! (ns, k)) as [[|v c]|] eqn:Ec; [by intros []| |by intros []].
      intros Ho. left. exists ((ns, k), v :: c). rewrite elem_of_map_to_list. split; [done|].
      cbn. rewrite Z.eqb_refl, Eo. cbn. destruct (value v) as [d|]; [|by destruct Ho]. cbn in *.
      destruct (is_expired _ _); [by destruct Ho|done].
Qed.

Lemma writer_live_keys_nodup w ns : NoDup (writer_live_keys w ns).
Proof.
  unfold writer_live_keys. apply NoDup_app. split; [|split].
  - apply (omap_ns_nodup _ _ ns); [apply NoDup_fst_map_to_list|].
    intros [[ns' k'] c] k Hf. cbn in Hf. repeat case_match; simplify_eq/=; try done.
    apply negb_false_iff in H. zbool. by subst.
  - intros k (kv & Hin & Hf)%list_elem_of_omap (kv' & Hin' & Hf')%list_elem_of_omap.
    destruct kv as [[n1 k1] c], kv' as [[n2 k2] o]. apply elem_of_map_to_list in Hin, Hin'. cbn in *.
    repeat case_match; simplify_eq/=. destruct (n1 =? ns) eqn:E1; [|done]. zbool. subst. congruence.
  - apply (omap_ns_nodup _ _ ns); [apply NoDup_fst_map_to_list|].
    intros [[ns' k'] o] k Hf. cbn in Hf. destruct (ns' =? ns) eqn:E; [|done]. zbool. subst.
    cbn in Hf. case_match; by simplify_eq.
Qed.

Lemma model_keys_elem m ns k :
  k ∈ omap (fun kv : NsKey * (Datum * option Z) =>
    if kv.1.1 =? ns then Some kv.1.2 else None) (map_to_list (m_data m))
  <-> is_Some (m_data m !! (ns, k)).
Proof.
  rewrite list_elem_of_omap. split.
  - intros ([[n1 k1] b] & Hin & Hf). apply elem_of_map_to_list in Hin. cbn in Hf.
    destruct (n1 =? ns) eqn:E; [|done]. zbool. simplify_eq. by exists b.
  - intros [b Hb]. exists ((ns, k), b). rewrite elem_of_map_to_list. split; [done|].
    cbn. by rewrite Z.eqb_refl.
Qed.

Lemma model_keys_nodup m ns :
  NoDup (omap (fun kv : NsKey * (Datum * option Z) =>
    if kv.1.1 =? ns then Some kv.1.2 else None) (map_to_list (m_data m))).
Proof.
  apply (omap_ns_nodup _ _ ns); [apply NoDup_fst_map_to_list|].
  intros [[n1 k1] b] k Hf. cbn in Hf. destruct (n1 =? ns) eqn:E; [|done]. zbool. by simplify_eq.
Qed.

#[export] Instance writer_db_sim : DbSimW writer_sim.
Proof.
  split; [split|..].
  - intros w m ns k. apply writer_get_sim.
  - intros w m ns k Hs. split; [by apply writer_expiry_sim|done].
  - intros w m ns Hs. split; [|done]. cbn. unfold model_keys. apply sort_keys_ext.
    + apply writer_live_keys_nodup.
    + apply model_keys_nodup.
    + intros k. rewrite writer_live_keys_elem, model_keys_elem by apply Hs. by rewrite (ws_data _ _ Hs).
  - intros w m ns Hs. split; [|done]. cbn. unfold writer_dbsize. by rewrite (ws_sizes _ _ Hs).
  - intros w m Hs. apply Hs.
  - intros w m ns k d e Hs. by apply (stage_sim w m (Put ns k d e) (Some (d, e))).
  - intros w m ns k. apply writer_del_sim.
Qed.
End WriterSim.

(** ** The current snapshot implements the reading half *)

Record snap_sim (s : SnapDb) (m : Model) : Prop := {
  ss_now : sd_now s = m_now m;
  ss_sizes : counts (sd_store s) = m_sizes m;
  ss_wf : wf_inner (sd_store s);
  ss_ts : sd_ts s = last_commit (sd_store s);
  ss_data : forall nk, m_data m !! nk = unexpired (sd_now s) (latest (sd_store s) nk) }.

Lemma wf_head_le i nk : wf_inner i -> head_ts (chain_of i nk) <= last_commit i.
Proof.
  intros Hwf. destruct (chain_of i nk) as [|v c] eqn:E; cbn; [apply (wf_last _ _ Hwf)|].
  pose proof (chain_of_wf _ i nk Hwf) as H. rewrite E in H. destruct (H ltac:(done)) as [_ _ Hb _].
  apply Forall_cons in Hb as [? _]. lia.
Qed.

Lemma seen_current i nk : wf_inner i -> seen i nk (last_commit i) = latest i nk.
Proof. intros Hwf. apply seen_head. by apply wf_head_le. Qed.

Lemma snap_keys_elem i ns ts now k :
  k ∈ visible_keys_sorted i ns ts now <-> is_Some (unexpired now (seen i (ns, k) ts)).
Proof.
  unfold visible_keys_sorted. rewrite sort_keys_elem, list_elem_of_omap. split.
  - intros ([[n1 k1] c] & Hin & Hf). apply elem_of_map_to_list in Hin. cbn in Hf.
    destruct (n1 =? ns) eqn:E; [|done]. zbool. subst.
    destruct (visible_at c ts) as [v|] eqn:Ev; [|done]. destruct (value v) as [d|] eqn:Ed; [|done].
    destruct (is_expired (expires_at_ms v) now) eqn:Ex; [done|]. simplify_eq.
    unfold seen, chain_of. rewrite Hin. cbn. rewrite Ev. cbn. rewrite Ed. cbn. by rewrite Ex.
  - unfold seen, chain_of. destruct (chains i !! (ns, k)) as [c|] eqn:Ec; [|by intros []].
    cbn. intros Hs. exists ((ns, k), c). rewrite elem_of_map_to_list. split; [done|]. cbn.
    rewrite Z.eqb_refl. destruct (visible_at c ts) as [v|]; [|by destruct Hs]. cbn in *.
    destruct (value v) as [d|]; [|by destruct Hs]. cbn in *.
    destruct (is_expired _ _); [by destruct Hs|done].
Qed.

#[export] Instance snap_db_sim : DbSim snap_sim.
Proof.
  split.
  - intros s m ns k Hs. split; [|done]. cbn. rewrite seen_get_at, (ss_ts _ _ Hs), seen_current by apply Hs.
    unfold live. rewrite (ss_data _ _ Hs). rewrite <- (ss_now _ _ Hs).
    destruct (latest (sd_store s) (ns, k)) as [[d e]|]; [|done]. cbn.
    destruct (is_expired e (sd_now s)) eqn:Ex; [done|]. by rewrite Ex.
  - intros s m ns k Hs. split; [|done]. cbn. unfold model_expiry. rewrite (ss_data _ _ Hs).
    rewrite <- (ss_now _ _ Hs). unfold get_expiry, current_ts.
    pose proof (seen_current (sd_store s) (ns, k) (ss_wf _ _ Hs)) as Hl. unfold seen, chain_of in Hl.
    rewrite <- Hl. destruct (chains (sd_store s) !! (ns, k)) as [c|]; [|done]. cbn.
    destruct (visible_at c _) as [v|]; [|done]. cbn. destruct (value v) as [d|]; [|done]. cbn.
    destruct (expires_at_ms v) as [e|]; [|done]. cbn.
    destruct (e <=? sd_now s) eqn:E; zbool; [by rewrite zlt_false by lia|by rewrite zlt_true by lia].
  - intros s m ns Hs. split; [|done]. cbn. unfold model_keys, visible_keys_sorted.
    apply sort_keys_ext; [|apply model_keys_nodup|].
    + apply (omap_ns_nodup _ _ ns); [apply NoDup_fst_map_to_list|].
      intros [[n1 k1] c] k Hf. cbn in Hf. destruct (n1 =? ns) eqn:E; [|done]. zbool. subst.
      repeat case_match; by simplify_eq.
    + intros k. rewrite model_keys_elem, (ss_data _ _ Hs).
      rewrite <- (seen_current (sd_store s)) by apply Hs. rewrite <- (ss_ts _ _ Hs).
      rewrite <- snap_keys_elem. unfold visible_keys_sorted. by rewrite sort_keys_elem.
  - intros s m ns Hs. split; [|done]. cbn. unfold ns_len. by rewrite (ss_sizes _ _ Hs).
  - intros s m Hs. apply Hs.
Qed.

(** ** The model of a store *)

Definition model_of (i : Inner) (now : Z) : Model :=
  {| m_data := omap (fun c : Chain => match c with
                     | v :: _ => d ← value v; unexpired now (Some (d, expires_at_ms v))
                     | [] => None
                     end) (chains i);
     m_now := now; m_sizes := counts i |}.

Lemma model_of_data i now nk : m_data (model_of i now) !! nk = unexpired now (latest i nk).
Proof.
  cbn. rewrite lookup_omap. unfold latest, chain_of.
  destruct (chains i !! nk) as [[|v c]|]; [done| |done]. cbn. by destruct (value v).
Qed.

Lemma writer_new_sim i now : wf_inner i -> writer_sim (writer_new i now) (model_of i now).
Proof. intros Hwf. split; [done|done|done|]. intros nk. by rewrite model_of_data. Qed.

Lemma snap_new_sim i now :
  wf_inner i -> snap_sim {| sd_store := i; sd_ts := current_ts i; sd_now := now |} (model_of i now).
Proof. intros Hwf. split; [done..|]. intros nk. by rewrite model_of_data. Qed.
