(* ===== verification/Dispatch.v ===== *)
(** * Command dispatch (src/redis/engine.rs)

    The command tables and [dispatch_data], whose arms are the rows of [arms]. *)

From S2P Require Import Prelude Util Resp Mvcc Engine.
From S2P Require Import CmdString CmdHashList CmdSet CmdZSet CmdStream CmdGeo.

Definition write_commands : list Bytes :=
  [bs "SET"; bs "SETNX"; bs "SETEX"; bs "PSETEX"; bs "MSET"; bs "MSETNX"; bs "APPEND";
   bs "INCR"; bs "DECR"; bs "INCRBY"; bs "DECRBY"; bs "INCRBYFLOAT"; bs "GETSET"; bs "GETDEL";
   bs "GETEX"; bs "SETRANGE"; bs "SETBIT"; bs "DEL"; bs "UNLINK"; bs "EXPIRE"; bs "PEXPIRE";
   bs "EXPIREAT"; bs "PEXPIREAT"; bs "PERSIST"; bs "RENAME"; bs "RENAMENX"; bs "COPY";
   bs "FLUSHDB"; bs "FLUSHALL"; bs "SWAPDB"; bs "HSET"; bs "HSETNX"; bs "HMSET"; bs "HDEL";
   bs "HINCRBY"; bs "HINCRBYFLOAT"; bs "LPUSH"; bs "RPUSH"; bs "LPUSHX"; bs "RPUSHX";
   bs "LPOP"; bs "RPOP"; bs "LSET"; bs "LREM"; bs "LTRIM"; bs "LINSERT"; bs "RPOPLPUSH";
   bs "LMOVE"; bs "SADD"; bs "SREM"; bs "SPOP"; bs "SMOVE"; bs "SUNIONSTORE"; bs "SINTERSTORE";
   bs "SDIFFSTORE"; bs "ZADD"; bs "ZREM"; bs "ZINCRBY"; bs "ZPOPMIN"; bs "ZPOPMAX";
   bs "ZREMRANGEBYRANK"; bs "ZREMRANGEBYSCORE"; bs "ZREMRANGEBYLEX"; bs "ZUNIONSTORE";
   bs "ZINTERSTORE"; bs "ZDIFFSTORE"; bs "XADD"; bs "XDEL"; bs "XTRIM"; bs "GEOADD";
   bs "GEORADIUS"; bs "GEORADIUSBYMEMBER"].

Definition read_commands : list Bytes :=
  [bs "GET"; bs "MGET"; bs "STRLEN"; bs "GETRANGE"; bs "SUBSTR"; bs "GETBIT"; bs "BITCOUNT";
   bs "EXISTS"; bs "TYPE"; bs "TTL"; bs "PTTL"; bs "EXPIRETIME"; bs "PEXPIRETIME"; bs "KEYS";
   bs "SCAN"; bs "RANDOMKEY"; bs "TOUCH"; bs "DBSIZE"; bs "OBJECT"; bs "HGET"; bs "HMGET";
   bs "HLEN"; bs "HEXISTS"; bs "HKEYS"; bs "HVALS"; bs "HGETALL"; bs "HSTRLEN";
   bs "HRANDFIELD"; bs "HSCAN"; bs "LLEN"; bs "LRANGE"; bs "LINDEX"; bs "LPOS"; bs "SMEMBERS";
   bs "SISMEMBER"; bs "SMISMEMBER"; bs "SCARD"; bs "SRANDMEMBER"; bs "SUNION"; bs "SINTER";
   bs "SDIFF"; bs "SINTERCARD"; bs "SSCAN"; bs "ZSCORE"; bs "ZMSCORE"; bs "ZCARD"; bs "ZCOUNT";
   bs "ZRANK"; bs "ZREVRANK"; bs "ZRANGE"; bs "ZREVRANGE"; bs "ZRANGEBYSCORE";
   bs "ZREVRANGEBYSCORE"; bs "ZRANGEBYLEX"; bs "ZREVRANGEBYLEX"; bs "ZLEXCOUNT";
   bs "ZRANDMEMBER"; bs "ZSCAN"; bs "XLEN"; bs "XRANGE"; bs "XREVRANGE"; bs "XREAD";
   bs "GEOPOS"; bs "GEODIST"; bs "GEOHASH"; bs "GEOSEARCH"; bs "GEORADIUS_RO";
   bs "GEORADIUSBYMEMBER_RO"].

Definition mem (c : Bytes) (l : list Bytes) : bool := existsb (beq c) l.

(** True if a command mutates data and must run inside the sequencer. *)
Definition is_write (c : Bytes) : bool := mem c write_commands.

(** True for commands implemented in the data plane. *)
Definition is_data_command (c : Bytes) : bool := is_write c || mem c read_commands.

Definition Handler : Type := list Bytes -> prog Reply.

Section Dispatch.
Context `{CmdGeo.Libm}.

Definition arms (dbi : Z) : list (Bytes * Handler) :=
  [(bs "GET", CmdString.get dbi);
   (bs "SET", CmdString.set dbi);
   (bs "SETNX", CmdString.setnx dbi);
   (bs "SETEX", fun a => CmdString.setex dbi a false);
   (bs "PSETEX", fun a => CmdString.setex dbi a true);
   (bs "MGET", CmdString.mget dbi);
   (bs "MSET", CmdString.mset dbi);
   (bs "MSETNX", CmdString.msetnx dbi);
   (bs "APPEND", CmdString.append dbi);
   (bs "STRLEN", CmdString.strlen dbi);
   (bs "INCR", fun a => CmdString.incr_by dbi a 1 true);
   (bs "DECR", fun a => CmdString.incr_by dbi a (-1) true);
   (bs "INCRBY", fun a => CmdString.incr_by dbi a 1 false);
   (bs "DECRBY", fun a => CmdString.incr_by dbi a (-1) false);
   (bs "INCRBYFLOAT", CmdString.incr_by_float dbi);
   (bs "GETSET", CmdString.getset dbi);
   (bs "GETDEL", CmdString.getdel dbi);
   (bs "GETEX", CmdString.getex dbi);
   (bs "GETRANGE", CmdString.getrange dbi);
   (bs "SUBSTR", CmdString.getrange dbi);
   (bs "SETRANGE", CmdString.setrange dbi);
   (bs "SETBIT", CmdString.setbit dbi);
   (bs "GETBIT", CmdString.getbit dbi);
   (bs "BITCOUNT", CmdString.bitcount dbi);
   (bs "DEL", CmdString.del dbi);
   (bs "UNLINK", CmdString.del dbi);
   (bs "EXISTS", CmdString.exists_ dbi);
   (bs "TYPE", CmdString.type_cmd dbi);
   (bs "TTL", fun a => CmdString.ttl dbi a false);
   (bs "PTTL", fun a => CmdString.ttl dbi a true);
   (bs "EXPIRETIME", fun a => CmdString.expiretime dbi a false);
   (bs "PEXPIRETIME", fun a => CmdString.expiretime dbi a true);
   (bs "EXPIRE", fun a => CmdString.expire dbi a Engine.Sec false);
   (bs "PEXPIRE", fun a => CmdString.expire dbi a Engine.Ms false);
   (bs "EXPIREAT", fun a => CmdString.expire dbi a Engine.Sec true);
   (bs "PEXPIREAT", fun a => CmdString.expire dbi a Engine.Ms true);
   (bs "PERSIST", CmdString.persist dbi);
   (bs "RENAME", fun a => CmdString.rename dbi a false);
   (bs "RENAMENX", fun a => CmdString.rename dbi a true);
   (bs "COPY", CmdString.copy dbi);
   (bs "TOUCH", CmdString.exists_ dbi);
   (bs "KEYS", CmdString.keys dbi);
   (bs "SCAN", CmdString.scan dbi);
   (bs "RANDOMKEY", CmdString.randomkey dbi);
   (bs "DBSIZE", fun _ => reply (n ← dbsize_ dbi; mret (Int (wrap_i64 n))));
   (bs "FLUSHDB", CmdString.flushdb dbi);
   (bs "FLUSHALL", CmdString.flushall);
   (bs "SWAPDB", CmdString.swapdb);
   (bs "OBJECT", CmdString.object dbi);
   (bs "HSET", fun a => CmdHashList.hset dbi a false);
   (bs "HMSET", fun a => CmdHashList.hset dbi a true);
   (bs "HSETNX", CmdHashList.hsetnx dbi);
   (bs "HGET", CmdHashList.hget dbi);
   (bs "HMGET", CmdHashList.hmget dbi);
   (bs "HDEL", CmdHashList.hdel dbi);
   (bs "HLEN", CmdHashList.hlen dbi);
   (bs "HEXISTS", CmdHashList.hexists dbi);
   (bs "HKEYS", fun a => CmdHashList.hkeys dbi a true);
   (bs "HVALS", fun a => CmdHashList.hkeys dbi a false);
   (bs "HGETALL", CmdHashList.hgetall dbi);
   (bs "HSTRLEN", CmdHashList.hstrlen dbi);
   (bs "HINCRBY", CmdHashList.hincrby dbi);
   (bs "HINCRBYFLOAT", CmdHashList.hincrbyfloat dbi);
   (bs "HRANDFIELD", CmdHashList.hrandfield dbi);
   (bs "HSCAN", CmdHashList.hscan dbi);
   (bs "LPUSH", fun a => CmdHashList.push dbi a true false);
   (bs "RPUSH", fun a => CmdHashList.push dbi a false false);
   (bs "LPUSHX", fun a => CmdHashList.push dbi a true true);
   (bs "RPUSHX", fun a => CmdHashList.push dbi a false true);
   (bs "LPOP", fun a => CmdHashList.pop dbi a true);
   (bs "RPOP", fun a => CmdHashList.pop dbi a false);
   (bs "LLEN", CmdHashList.llen dbi);
   (bs "LRANGE", CmdHashList.lrange dbi);
   (bs "LINDEX", CmdHashList.lindex dbi);
   (bs "LSET", CmdHashList.lset dbi);
   (bs "LREM", CmdHashList.lrem dbi);
   (bs "LTRIM", CmdHashList.ltrim dbi);
   (bs "LINSERT", CmdHashList.linsert dbi);
   (bs "RPOPLPUSH", CmdHashList.lmove_compat dbi);
   (bs "LMOVE", CmdHashList.lmove dbi);
   (bs "LPOS", CmdHashList.lpos dbi);
   (bs "SADD", CmdSet.sadd dbi);
   (bs "SREM", CmdSet.srem dbi);
   (bs "SMEMBERS", CmdSet.smembers dbi);
   (bs "SISMEMBER", CmdSet.sismember dbi);
   (bs "SMISMEMBER", CmdSet.smismember dbi);
   (bs "SCARD", CmdSet.scard dbi);
   (bs "SPOP", CmdSet.spop dbi);
   (bs "SRANDMEMBER", CmdSet.srandmember dbi);
   (bs "SMOVE", CmdSet.smove dbi);
   (bs "SUNION", fun a => CmdSet.setop dbi a Engine.Union false);
   (bs "SINTER", fun a => CmdSet.setop dbi a Engine.Inter false);
   (bs "SDIFF", fun a => CmdSet.setop dbi a Engine.Diff false);
   (bs "SUNIONSTORE", fun a => CmdSet.setop dbi a Engine.Union true);
   (bs "SINTERSTORE", fun a => CmdSet.setop dbi a Engine.Inter true);
   (bs "SDIFFSTORE", fun a => CmdSet.setop dbi a Engine.Diff true);
   (bs "SINTERCARD", CmdSet.sintercard dbi);
   (bs "SSCAN", CmdSet.sscan dbi);
   (bs "ZADD", CmdZSet.zadd dbi);
   (bs "ZREM", CmdZSet.zrem dbi);
   (bs "ZSCORE", CmdZSet.zscore dbi);
   (bs "ZMSCORE", CmdZSet.zmscore dbi);
   (bs "ZCARD", CmdZSet.zcard dbi);
   (bs "ZCOUNT", CmdZSet.zcount dbi);
   (bs "ZINCRBY", CmdZSet.zincrby dbi);
   (bs "ZRANK", fun a => CmdZSet.zrank dbi a false);
   (bs "ZREVRANK", fun a => CmdZSet.zrank dbi a true);
   (bs "ZRANGE", CmdZSet.zrange dbi);
   (bs "ZREVRANGE", CmdZSet.zrevrange dbi);
   (bs "ZRANGEBYSCORE", fun a => CmdZSet.zrangebyscore dbi a false);
   (bs "ZREVRANGEBYSCORE", fun a => CmdZSet.zrangebyscore dbi a true);
   (bs "ZRANGEBYLEX", fun a => CmdZSet.zrangebylex dbi a false);
   (bs "ZREVRANGEBYLEX", fun a => CmdZSet.zrangebylex dbi a true);
   (bs "ZLEXCOUNT", CmdZSet.zlexcount dbi);
   (bs "ZPOPMIN", fun a => CmdZSet.zpop dbi a true);
   (bs "ZPOPMAX", fun a => CmdZSet.zpop dbi a false);
   (bs "ZRANDMEMBER", CmdZSet.zrandmember dbi);
   (bs "ZREMRANGEBYRANK", CmdZSet.zremrangebyrank dbi);
   (bs "ZREMRANGEBYSCORE", CmdZSet.zremrangebyscore dbi);
   (bs "ZREMRANGEBYLEX", CmdZSet.zremrangebylex dbi);
   (bs "ZSCAN", CmdZSet.zscan dbi);
   (bs "ZUNIONSTORE", fun a => CmdZSet.zstore dbi a Engine.Union);
   (bs "ZINTERSTORE", fun a => CmdZSet.zstore dbi a Engine.Inter);
   (bs "ZDIFFSTORE", fun a => CmdZSet.zstore dbi a Engine.Diff);
   (bs "XADD", CmdStream.xadd dbi);
   (bs "XLEN", CmdStream.xlen dbi);
   (bs "XDEL", CmdStream.xdel dbi);
   (bs "XTRIM", CmdStream.xtrim dbi);
   (bs "XRANGE", fun a => CmdStream.xrange dbi a false);
   (bs "XREVRANGE", fun a => CmdStream.xrange dbi a true);
   (bs "XREAD", CmdStream.xread dbi);
   (bs "GEOADD", CmdGeo.geoadd dbi);
   (bs "GEOPOS", CmdGeo.geopos dbi);
   (bs "GEODIST", CmdGeo.geodist dbi);
   (bs "GEOHASH", CmdGeo.geohash_cmd dbi);
   (bs "GEOSEARCH", CmdGeo.geosearch dbi);
   (bs "GEORADIUS_RO", fun a => CmdGeo.georadius dbi a false);
   (bs "GEORADIUS", fun a => CmdGeo.georadius dbi a false);
   (bs "GEORADIUSBYMEMBER_RO", fun a => CmdGeo.georadius dbi a true);
   (bs "GEORADIUSBYMEMBER", fun a => CmdGeo.georadius dbi a true)].

Fixpoint find_arm (c : Bytes) (l : list (Bytes * Handler)) : option Handler :=
  match l with
  | [] => None
  | (n, h) :: l' => if beq c n then Some h else find_arm c l'
  end.

Definition dispatch_data (dbi : Z) (c : Bytes) (args : list Bytes) : prog Reply :=
  match find_arm c (arms dbi) with
  | Some h => h args
  | None => Ret (Some (err (bs "ERR unknown command '" ++ to_ascii_lowercase c ++ bs "'")))
  end.
End Dispatch.
