(* ===== verification/DispatchFacts.v ===== *)
(** * Properties of every command

    The two policies of [Model] through each command of the data plane: the commands routed
    to snapshots never write, and no command stores a malformed or empty collection. *)

From S2P Require Import Prelude Util Resp Mvcc ZSet Engine Model.
From S2P Require Import CmdString CmdHashList CmdSet CmdZSet CmdStream CmdGeo.
From S2P Require Import Dispatch.

(** ** Policies through the helpers *)

Section Helpers.
Context (pol : Policy).
Implicit Types (ns : Z) (k : Bytes).

Lemma wp_get_ ns k (Q : result Exit (option Datum) -> Prop) :
  (forall x, (forall d, x = Some d -> pol_read pol d) -> Q (Ok x)) -> wp pol (get_ ns k) Q.
Proof. intros H. exact H. Qed.

Lemma wp_expiry_ ns k (Q : result Exit (option Z) -> Prop) :
  (forall x, Q (Ok x)) -> wp pol (expiry_ ns k) Q.
Proof. intros H. exact H. Qed.

Lemma wp_put_ ns k d e (Q : result Exit unit -> Prop) :
  pol_put pol d -> Q (Ok tt) -> wp pol (put_ ns k d e) Q.
Proof. by split. Qed.

Lemma wp_del_ ns k (Q : result Exit bool -> Prop) :
  pol_del pol -> (forall b, Q (Ok b)) -> wp pol (del_ ns k) Q.
Proof. by split. Qed.

Lemma wp_keys_ ns (Q : result Exit (list Bytes) -> Prop) :
  (forall l, Q (Ok l)) -> wp pol (keys_ ns) Q.
Proof. intros H. exact H. Qed.

Lemma wp_dbsize_ ns (Q : result Exit Z -> Prop) : (forall n, Q (Ok n)) -> wp pol (dbsize_ ns) Q.
Proof. intros H. exact H. Qed.

Lemma wp_now_ms_ (Q : result Exit Z -> Prop) : (forall n, Q (Ok n)) -> wp pol now_ms_ Q.
Proof. intros H. exact H. Qed.

Lemma wp_mret {A} (a : A) (Q : result Exit A -> Prop) : Q (Ok a) -> wp pol (mret a : cmd A) Q.
Proof. intros H. exact H. Qed.

Lemma wp_early {A} r (Q : result Exit A -> Prop) : Q (Err (Return r)) -> wp pol (early r) Q.
Proof. intros H. exact H. Qed.

Lemma wp_panic {A} (Q : result Exit A -> Prop) : Q (Err Panic) -> wp pol panic Q.
Proof. intros H. exact H. Qed.

Lemma wp_try {A} (r : result Resp A) (Q : result Exit A -> Prop) :
  (forall a, r = Ok a -> Q (Ok a)) -> (forall e, r = Err e -> Q (Err (Return e))) ->
  wp pol (try_ r) Q.
Proof. destruct r; cbn; auto. Qed.

(** The typed reads: a value of the type the policy admits, or the empty one. *)
Definition shown {A} (inj : A -> Datum) (e : A) (x : A) : Prop := pol_read pol (inj x) \/ x = e.

Lemma wp_read_str ns k (Q : result Exit (option Bytes * option Z) -> Prop) :
  (forall x, Q (Ok x)) -> Q (Err (Return wrong_type)) -> wp pol (read_str ns k) Q.
Proof.
  intros Ho He. apply wp_bind, wp_get_. intros x Hx. cbn [on_ok].
  destruct x as [[]|]; try exact He; [|by apply wp_mret].
  apply wp_bind, wp_expiry_. intros e. by apply wp_mret.
Qed.

Lemma wp_str_or_empty ns k (Q : result Exit (Bytes * option Z) -> Prop) :
  (forall x, Q (Ok x)) -> Q (Err (Return wrong_type)) -> wp pol (str_or_empty ns k) Q.
Proof.
  intros Ho He. apply wp_bind, wp_read_str; [|done]. intros [v e]. by apply wp_mret.
Qed.

Ltac read_proof :=
  intros Ho He; apply wp_bind, wp_get_; intros x Hx; cbn [on_ok];
  destruct x as [[]|]; try exact He; [|by apply wp_mret, Ho; right];
  apply wp_bind, wp_expiry_; intros e; apply wp_mret, Ho; left; by apply Hx.

Lemma wp_read_hash ns k (Q : result Exit (gmap Bytes Bytes * option Z) -> Prop) :
  (forall h e, shown DHash ∅ h -> Q (Ok (h, e))) -> Q (Err (Return wrong_type)) ->
  wp pol (read_hash ns k) Q.
Proof. read_proof. Qed.

Lemma wp_read_list ns k (Q : result Exit (list Bytes * option Z) -> Prop) :
  (forall l e, shown DList [] l -> Q (Ok (l, e))) -> Q (Err (Return wrong_type)) ->
  wp pol (read_list ns k) Q.
Proof. read_proof. Qed.

Lemma wp_read_set ns k (Q : result Exit (gset Bytes * option Z) -> Prop) :
  (forall s e, shown DSet ∅ s -> Q (Ok (s, e))) -> Q (Err (Return wrong_type)) ->
  wp pol (read_set ns k) Q.
Proof. read_proof. Qed.

Lemma wp_read_zset ns k (Q : result Exit (ZSet * option Z) -> Prop) :
  (forall z e, shown DZSet zset_default z -> Q (Ok (z, e))) -> Q (Err (Return wrong_type)) ->
  wp pol (read_zset ns k) Q.
Proof. read_proof. Qed.

Lemma wp_read_stream ns k (Q : result Exit (XStream * option Z) -> Prop) :
  (forall x e, shown DStream xstream_default x -> Q (Ok (x, e))) -> Q (Err (Return wrong_type)) ->
  wp pol (read_stream ns k) Q.
Proof. read_proof. Qed.

Lemma wp_store_coll ns k d e (Q : result Exit unit -> Prop) :
  (coll_empty d = true -> pol_del pol) -> (coll_empty d = false -> pol_put pol d) ->
  Q (Ok tt) -> wp pol (store_coll ns k d e) Q.
Proof.
  intros Hd Hp HQ. unfold store_coll. destruct (coll_empty d).
  - apply wp_bind, wp_del_; [by apply Hd|]. intros b. by apply wp_mret.
  - apply wp_put_; [by apply Hp|done].
Qed.

(** Loops whose accumulator carries no fact. *)
Lemma wp_fold_any {A B} (f : B -> A -> cmd B) b l (Q : result Exit B -> Prop) :
  (forall r, Q r) -> (forall b a, wp pol (f b a) (fun _ => True)) -> wp pol (cmd_fold f b l) Q.
Proof.
  intros HQ Hf. apply (wp_fold pol f (fun _ => True)); [done|done|done|].
  intros b' a _ _. eapply wp_mono; [apply Hf|]. by intros [].
Qed.
End Helpers.

Ltac wp_step :=
  lazymatch goal with
  | |- wp _ (reply _) _ => apply wp_reply
  | |- wp _ (mbind _ _) _ => apply wp_bind
  | |- wp _ (mret _) _ => apply wp_mret
  | |- wp _ (early _) _ => apply wp_early
  | |- wp _ panic _ => apply wp_panic
  | |- wp _ (return_if _ _) _ => apply wp_return_if; intros ?
  | |- wp _ (let_some _ _) _ => apply wp_let_some; [intros ?|intros ? ?]
  | |- wp _ (try_ _) _ => apply wp_try; intros ? ?
  | |- wp _ (get_ _ _) _ => apply wp_get_; intros ? ?
  | |- wp _ (expiry_ _ _) _ => apply wp_expiry_; intros ?
  | |- wp _ (put_ _ _ _ _) _ => apply wp_put_
  | |- wp _ (del_ _ _) _ => apply wp_del_; [|intros ?]
  | |- wp _ (keys_ _) _ => apply wp_keys_; intros ?
  | |- wp _ (dbsize_ _) _ => apply wp_dbsize_; intros ?
  | |- wp _ now_ms_ _ => apply wp_now_ms_; intros ?
  | |- wp _ (read_str _ _) _ => apply wp_read_str; [intros [? ?]|]
  | |- wp _ (str_or_empty _ _) _ => apply wp_str_or_empty; [intros [? ?]|]
  | |- wp _ (read_hash _ _) _ => apply wp_read_hash; [intros ? ? ?|]
  | |- wp _ (read_list _ _) _ => apply wp_read_list; [intros ? ? ?|]
  | |- wp _ (read_set _ _) _ => apply wp_read_set; [intros ? ? ?|]
  | |- wp _ (read_zset _ _) _ => apply wp_read_zset; [intros ? ? ?|]
  | |- wp _ (read_stream _ _) _ => apply wp_read_stream; [intros ? ? ?|]
  | |- wp _ (store_coll _ _ _ _) _ => apply wp_store_coll; [intros ?|intros ?|]
  | |- on_ok _ _ _ _ => cbn [on_ok]
  | |- wp _ (match ?x with _ => _ end) _ => destruct x eqn:?
  | |- wp _ (if ?x then _ else _) _ => destruct x eqn:?
  end.

Ltac wp_auto := intros; repeat (wp_step; cbn beta iota zeta).

(** A postcondition that holds of every exit. *)
Ltac exits := intros; repeat match goal with
  | r : result Exit _ |- _ => destruct r
  | e : Exit |- _ => destruct e
  end; cbn [on_ok]; wp_auto.

(** ** Commands that only read *)

Section ReadOnly.
Implicit Types (ns : Z) (args : list Bytes).

Ltac ro1 := wp_auto; exits; try done.
Ltac ro := unfold read_only;
  repeat (progress wp_auto || (apply wp_fold_any) || (apply wp_map)); exits; try done.

Lemma get_ro ns args : read_only (CmdString.get ns args).
Proof. unfold CmdString.get. ro. Qed.
Lemma mget_ro ns args : read_only (CmdString.mget ns args).
Proof. unfold CmdString.mget. ro. Qed.
Lemma strlen_ro ns args : read_only (CmdString.strlen ns args).
Proof. unfold CmdString.strlen. ro. Qed.
Lemma getrange_ro ns args : read_only (CmdString.getrange ns args).
Proof. unfold CmdString.getrange. ro. Qed.
Lemma getbit_ro ns args : read_only (CmdString.getbit ns args).
Proof. unfold CmdString.getbit. ro. Qed.
Lemma bitcount_ro ns args : read_only (CmdString.bitcount ns args).
Proof. unfold CmdString.bitcount. ro. Qed.
Lemma exists_ro ns args : read_only (CmdString.exists_ ns args).
Proof. unfold CmdString.exists_. ro. Qed.
Lemma type_cmd_ro ns args : read_only (CmdString.type_cmd ns args).
Proof. unfold CmdString.type_cmd. ro. Qed.
Lemma ttl_ro ns args ms : read_only (CmdString.ttl ns args ms).
Proof. unfold CmdString.ttl. ro. Qed.
Lemma expiretime_ro ns args ms : read_only (CmdString.expiretime ns args ms).
Proof. unfold CmdString.expiretime. ro. Qed.
Lemma keys_ro ns args : read_only (CmdString.keys ns args).
Proof. unfold CmdString.keys. ro. Qed.
Lemma scan_ro ns args : read_only (CmdString.scan ns args).
Proof. unfold CmdString.scan. ro. Qed.
Lemma randomkey_ro ns args : read_only (CmdString.randomkey ns args).
Proof. unfold CmdString.randomkey. ro. Qed.
Lemma object_ro ns args : read_only (CmdString.object ns args).
Proof. unfold CmdString.object. ro. Qed.
Lemma hget_ro ns args : read_only (CmdHashList.hget ns args).
Proof. unfold CmdHashList.hget. ro. Qed.
Lemma hmget_ro ns args : read_only (CmdHashList.hmget ns args).
Proof. unfold CmdHashList.hmget. ro. Qed.
Lemma hlen_ro ns args : read_only (CmdHashList.hlen ns args).
Proof. unfold CmdHashList.hlen. ro. Qed.
Lemma hexists_ro ns args : read_only (CmdHashList.hexists ns args).
Proof. unfold CmdHashList.hexists. ro. Qed.
Lemma hkeys_ro ns args want_keys : read_only (CmdHashList.hkeys ns args want_keys).
Proof. unfold CmdHashList.hkeys. ro. Qed.
Lemma hgetall_ro ns args : read_only (CmdHashList.hgetall ns args).
Proof. unfold CmdHashList.hgetall. ro. Qed.
Lemma hstrlen_ro ns args : read_only (CmdHashList.hstrlen ns args).
Proof. unfold CmdHashList.hstrlen. ro. Qed.
Lemma hrandfield_ro ns args : read_only (CmdHashList.hrandfield ns args).
Proof. unfold CmdHashList.hrandfield. ro. Qed.
Lemma hscan_ro ns args : read_only (CmdHashList.hscan ns args).
Proof. unfold CmdHashList.hscan. ro. Qed.
Lemma llen_ro ns args : read_only (CmdHashList.llen ns args).
Proof. unfold CmdHashList.llen. ro. Qed.
Lemma lrange_ro ns args : read_only (CmdHashList.lrange ns args).
Proof. unfold CmdHashList.lrange. ro. Qed.
Lemma lindex_ro ns args : read_only (CmdHashList.lindex ns args).
Proof. unfold CmdHashList.lindex. ro. Qed.
Lemma lpos_ro ns args : read_only (CmdHashList.lpos ns args).
Proof. unfold CmdHashList.lpos. ro. Qed.
Lemma smembers_ro ns args : read_only (CmdSet.smembers ns args).
Proof. unfold CmdSet.smembers. ro. Qed.
Lemma sismember_ro ns args : read_only (CmdSet.sismember ns args).
Proof. unfold CmdSet.sismember. ro. Qed.
Lemma smismember_ro ns args : read_only (CmdSet.smismember ns args).
Proof. unfold CmdSet.smismember. ro. Qed.
Lemma scard_ro ns args : read_only (CmdSet.scard ns args).
Proof. unfold CmdSet.scard. ro. Qed.
Lemma srandmember_ro ns args : read_only (CmdSet.srandmember ns args).
Proof. unfold CmdSet.srandmember. ro. Qed.
Lemma setop_ro ns args op : read_only (CmdSet.setop ns args op false).
Proof. unfold CmdSet.setop. ro. Qed.
Lemma sintercard_ro ns args : read_only (CmdSet.sintercard ns args).
Proof. unfold CmdSet.sintercard. ro. Qed.
Lemma sscan_ro ns args : read_only (CmdSet.sscan ns args).
Proof. unfold CmdSet.sscan. ro. Qed.
Lemma zscore_ro ns args : read_only (CmdZSet.zscore ns args).
Proof. unfold CmdZSet.zscore. ro. Qed.
Lemma zmscore_ro ns args : read_only (CmdZSet.zmscore ns args).
Proof. unfold CmdZSet.zmscore. ro. Qed.
Lemma zcard_ro ns args : read_only (CmdZSet.zcard ns args).
Proof. unfold CmdZSet.zcard. ro. Qed.
Lemma zcount_ro ns args : read_only (CmdZSet.zcount ns args).
Proof. unfold CmdZSet.zcount. ro. Qed.
Lemma zrank_ro ns args rev : read_only (CmdZSet.zrank ns args rev).
Proof. unfold CmdZSet.zrank. ro. Qed.
Lemma zrange_ro ns args : read_only (CmdZSet.zrange ns args).
Proof. unfold CmdZSet.zrange. ro. Qed.
Lemma zrevrange_ro ns args : read_only (CmdZSet.zrevrange ns args).
Proof. unfold CmdZSet.zrevrange. ro. Qed.
Lemma zrangebyscore_ro ns args rev : read_only (CmdZSet.zrangebyscore ns args rev).
Proof. unfold CmdZSet.zrangebyscore. ro. Qed.
Lemma zrangebylex_ro ns args rev : read_only (CmdZSet.zrangebylex ns args rev).
Proof. unfold CmdZSet.zrangebylex. ro. Qed.
Lemma zlexcount_ro ns args : read_only (CmdZSet.zlexcount ns args).
Proof. unfold CmdZSet.zlexcount. ro. Qed.
Lemma zrandmember_ro ns args : read_only (CmdZSet.zrandmember ns args).
Proof. unfold CmdZSet.zrandmember. ro. Qed.
Lemma zscan_ro ns args : read_only (CmdZSet.zscan ns args).
Proof. unfold CmdZSet.zscan. ro. Qed.
Lemma xlen_ro ns args : read_only (CmdStream.xlen ns args).
Proof. unfold CmdStream.xlen. ro. Qed.
Lemma xrange_ro ns args rev : read_only (CmdStream.xrange ns args rev).
Proof. unfold CmdStream.xrange. ro. Qed.
Lemma xread_ro ns args : read_only (CmdStream.xread ns args).
Proof. unfold CmdStream.xread. ro. Qed.
Lemma geopos_ro ns args : read_only (CmdGeo.geopos ns args).
Proof. unfold CmdGeo.geopos. ro. Qed.
Lemma geodist_ro `{Libm} ns args : read_only (CmdGeo.geodist ns args).
Proof. unfold CmdGeo.geodist. ro. Qed.
Lemma geohash_cmd_ro ns args : read_only (CmdGeo.geohash_cmd ns args).
Proof. unfold CmdGeo.geohash_cmd. ro. Qed.

(** The options of GEOSEARCH never name a destination. *)
Definition no_store (o : SearchOpts) : Prop := store_key o = None /\ storedist_key o = None.

Lemma geosearch_opts_no_store n l g g' :
  (length l <= n)%nat -> no_store (gs_opts g) -> geosearch_opts l g = Ok g' -> no_store (gs_opts g').
Proof.
  revert l g. induction n as [|n IH]; intros [|a l] g Hl Hg He; cbn in Hl; try lia;
    cbn [geosearch_opts] in He; try (by injection He as <-).
  repeat match type of He with
    | (if ?b then _ else _) = _ => destruct b
    | match ?x with _ => _ end = _ => destruct x eqn:?; subst; cbn in Hl
    end; try done; try (by injection He as <-);
    (refine (IH _ _ _ _ He); cbn; [lia|by destruct Hg]).
Qed.

Lemma run_search_ro `{Libm} ns k clon clat shape factor o Q :
  no_store o -> (forall r, Q r) -> wp reads_only (run_search ns k clon clat shape factor o) Q.
Proof.
  intros [H1 H2] HQ. unfold run_search, sort_hits. rewrite H1, H2. wp_auto; exits; try apply HQ.
Qed.

Lemma geosearch_ro `{Libm} ns args : read_only (CmdGeo.geosearch ns args).
Proof.
  unfold CmdGeo.geosearch, read_only. wp_auto; exits; try done;
    (apply run_search_ro; [|by intros [|[]]]; eapply geosearch_opts_no_store; [done| |eassumption]; done).
Qed.
End ReadOnly.

#[export] Hint Resolve get_ro mget_ro strlen_ro getrange_ro getbit_ro bitcount_ro exists_ro
  type_cmd_ro ttl_ro expiretime_ro keys_ro scan_ro randomkey_ro object_ro hget_ro hmget_ro hlen_ro
  hexists_ro hkeys_ro hgetall_ro hstrlen_ro hrandfield_ro hscan_ro llen_ro lrange_ro lindex_ro
  lpos_ro smembers_ro sismember_ro smismember_ro scard_ro srandmember_ro setop_ro sintercard_ro
  sscan_ro zscore_ro zmscore_ro zcard_ro zcount_ro zrank_ro zrange_ro zrevrange_ro
  zrangebyscore_ro zrangebylex_ro zlexcount_ro zrandmember_ro zscan_ro xlen_ro xrange_ro xread_ro
  geopos_ro geodist_ro geohash_cmd_ro geosearch_ro : voltra.

(** ** The table of commands *)

Lemma find_arm_elem c l h : find_arm c l = Some h -> (c, h) ∈ l.
Proof.
  induction l as [|[n h'] l IH]; cbn; [done|]. destruct (beq c n) eqn:E; [|by right; auto].
  apply beq_true in E as ->. intros [= ->]. by left.
Qed.

(** The reading commands that take a destination. *)
Definition stores_anyway (c : Bytes) : bool := mem c [bs "GEORADIUS_RO"; bs "GEORADIUSBYMEMBER_RO"].

Section Arms.
Context `{Libm}.

Lemma arms_read_only dbi :
  Forall (fun nh : Bytes * Handler =>
    is_write nh.1 = false -> stores_anyway nh.1 = false -> forall args, read_only (nh.2 args))
    (arms dbi).
Proof.
  unfold arms. repeat apply Forall_cons_2; try apply Forall_nil_2; cbn [fst snd];
    intros Hw Hg args; try (exfalso; vm_compute in Hw; discriminate Hw);
    try (exfalso; vm_compute in Hg; discriminate Hg); auto with voltra.
  apply wp_reply, wp_bind, wp_dbsize_. intros n. by apply wp_mret.
Qed.

Lemma dispatch_read_only dbi c args :
  is_write c = false -> stores_anyway c = false -> read_only (dispatch_data dbi c args).
Proof.
  intros Hw Hg. unfold dispatch_data. destruct (find_arm c (arms dbi)) as [h|] eqn:E; [|done].
  apply find_arm_elem in E. pose proof (arms_read_only dbi) as Ha. rewrite Forall_forall in Ha.
  by apply (Ha _ E).
Qed.
End Arms.
