(* ===== verification/WellFormed.v ===== *)
(** * Well-formed values

    No command stores an empty hash, list, set or sorted set, a sorted set whose two indexes
    disagree, or a stream with an entry past its top item. The proof is the policy
    [well_formed] of [Model] through every writing command. *)

From S2P Require Import Prelude Util Resp Mvcc ZSet Engine Model.
From S2P Require Import CmdString CmdHashList CmdSet CmdZSet CmdStream CmdGeo.
From S2P Require Import Dispatch DispatchFacts.

(** Every entry of a stream is at or below its top item. *)
Definition stream_ok (x : XStream) : Prop :=
  forall id, is_Some (entries x !! id) -> sid_leb id (last_id x) = true.

Definition datum_ok (d : Datum) : Prop :=
  match d with
  | DStr _ | DRow _ => True
  | DHash h => h <> ∅
  | DList l => l <> []
  | DSet s => s <> ∅
  | DZSet z => zset_ok z /\ by_member z <> ∅
  | DStream x => stream_ok x
  end.

Definition well_formed : Policy :=
  {| pol_read := datum_ok; pol_put := datum_ok; pol_del := True |}.

(** A program that only reads keeps to any policy. *)
Lemma read_only_wp {A} pol (p : prog A) Q :
  wp reads_only p Q -> wp pol p Q.
Proof.
  revert Q. induction p; cbn; intros Q Hp; eauto; by destruct Hp.
Qed.

(** ** Streams *)

Section Streams.
Implicit Types (x : XStream) (i : StreamId).

Lemma sid_ltb_irrefl i : sid_ltb i i = false.
Proof. unfold sid_ltb. rewrite Z.eqb_refl. apply Z.ltb_irrefl. Qed.

Lemma sid_ltb_spec i j :
  sid_ltb i j = true <-> ms i < ms j \/ (ms i = ms j /\ seq_no i < seq_no j).
Proof.
  unfold sid_ltb. destruct (Z.eqb_spec (ms i) (ms j)); rewrite Z.ltb_lt; lia.
Qed.

Lemma sid_leb_spec i j :
  sid_leb i j = true <-> ms i < ms j \/ (ms i = ms j /\ seq_no i <= seq_no j).
Proof.
  unfold sid_leb, sid_ltb. rewrite negb_true_iff.
  destruct (Z.eqb_spec (ms j) (ms i)); rewrite Z.ltb_ge; lia.
Qed.

Lemma sid_leb_refl i : sid_leb i i = true.
Proof. apply sid_leb_spec. lia. Qed.

Lemma sid_leb_lt_trans i j k : sid_leb i j = true -> sid_ltb j k = true -> sid_leb i k = true.
Proof. rewrite !sid_leb_spec, sid_ltb_spec. lia. Qed.

Lemma xstream_default_ok : stream_ok xstream_default.
Proof. intros id. cbn. rewrite lookup_empty. by intros []. Qed.

Lemma drop_entry_ok id x : stream_ok x -> stream_ok (drop_entry id x).
Proof.
  intros Hx j. cbn. rewrite lookup_delete. case_decide; [by intros []|apply Hx].
Qed.

Lemma trim_to_maxlen_ok n x : stream_ok x -> stream_ok (trim_to_maxlen n x).
Proof.
  unfold trim_to_maxlen. generalize (size (entries x)). intros f. revert x.
  induction f as [|f IH]; intros x Hx; cbn; [done|]. destruct (n <? _); [|done].
  destruct (sorted_stream _) as [|[id ?] ?]; [done|]. by apply IH, drop_entry_ok.
Qed.

Lemma trim_to_minid_ok m x : stream_ok x -> stream_ok (trim_to_minid m x).
Proof.
  unfold trim_to_minid. generalize (size (entries x)). intros f. revert x.
  induction f as [|f IH]; intros x Hx; cbn; [done|].
  destruct (sorted_stream _) as [|[id ?] ?]; [done|]. destruct (sid_ltb id m); [|done].
  by apply IH, drop_entry_ok.
Qed.

Lemma apply_trim_ok t x : stream_ok x -> stream_ok (apply_trim t x).
Proof. destruct t as [[]|]; cbn; auto using trim_to_maxlen_ok, trim_to_minid_ok. Qed.

Lemma xdel_loop_ok l x n x' n' :
  stream_ok x -> xdel_loop l x n = Ok (x', n') -> stream_ok x'.
Proof.
  revert x n. induction l as [|a l IH]; intros x n Hx He; cbn in He; [by injection He as <- <-|].
  destruct (parse_explicit_id a 0) as [id|]; [|done]. case_bool_decide; eauto using drop_entry_ok.
Qed.

Lemma parse_int_range lo hi b v : parse_int lo hi b = Some v -> lo <= v <= hi.
Proof.
  unfold parse_int. destruct (match b with [] => None | _ => _ end) as [w|]; [|done]. cbn.
  destruct (lo <=? w) eqn:E1, (w <=? hi) eqn:E2; cbn; try done. intros [= ->]. zbool. lia.
Qed.

Lemma parse_explicit_id_nonneg b q i :
  0 <= q -> parse_explicit_id b q = Some i -> 0 <= ms i /\ 0 <= seq_no i.
Proof.
  unfold parse_explicit_id. intros Hq. destruct (from_utf8 b) as [s|]; [|done]. cbn.
  destruct (split_once 45 s) as [[m r]|].
  - destruct (parse_u64_str m) as [m'|] eqn:E1; [|done]. cbn.
    destruct (parse_u64_str r) as [r'|] eqn:E2; [|done]. cbn. intros [= <-]. cbn.
    apply parse_int_range in E1, E2. lia.
  - destruct (parse_u64_str s) as [m'|] eqn:E1; [|done]. cbn. intros [= <-]. cbn.
    apply parse_int_range in E1. lia.
Qed.

(** The identifier chosen after the top item 0-0 is not below it. *)
Lemma xadd_id_from_min a now i :
  xadd_id a now stream_id_min = Ok i -> sid_leb stream_id_min i = true.
Proof.
  unfold xadd_id. destruct (beq a [42]).
  - cbn. destruct (0 <? now) eqn:E; intros [= <-]; [|done]. zbool. apply sid_leb_spec. cbn. lia.
  - destruct (strip_dash_star _) as [m|].
    + destruct (parse_u64_str m) as [m'|] eqn:E; [|done]. apply parse_int_range in E. cbn.
      destruct (m' =? 0); intros [= <-]; [done|]. apply sid_leb_spec. cbn. lia.
    + destruct (parse_explicit_id a 0) as [j|] eqn:E; [|done]. intros [= <-].
      apply parse_explicit_id_nonneg in E; [|lia]. apply sid_leb_spec. cbn. lia.
Qed.

(** An accepted identifier is above the top item. *)
Lemma xadd_check_above a now x i :
  xadd_id a now (last_id x) = Ok i -> xadd_check i x = None -> sid_ltb (last_id x) i = true.
Proof.
  intros Hi. unfold xadd_check.
  destruct (sid_leb i (last_id x)) eqn:E; cbn.
  - destruct ((0 <? entries_added x) || _) eqn:E2; [done|]. apply orb_false_iff in E2 as [_ E2].
    apply negb_false_iff, bool_decide_eq_true in E2. rewrite E2 in *.
    destruct (sid_eqb i stream_id_min) eqn:E3; [done|]. apply bool_decide_eq_false in E3.
    apply xadd_id_from_min in Hi. intros _. rewrite sid_leb_spec in *. rewrite sid_ltb_spec.
    cbn in *. exfalso. apply E3. destruct i as [a1 a2]. unfold stream_id_min. cbn in *. f_equal; lia.
  - intros _. unfold sid_leb in E. by apply negb_false_iff in E.
Qed.

Lemma append_entry_ok id fields x :
  stream_ok x -> sid_ltb (last_id x) id = true -> stream_ok (append_entry id fields x).
Proof.
  intros Hx Hl j. cbn. rewrite lookup_insert. case_decide as Hd; [|intros Hj].
  - subst. intros _. apply sid_leb_refl.
  - eapply sid_leb_lt_trans; [by apply Hx|done].
Qed.

Lemma xadd_entry_ok a now i t fields x :
  stream_ok x -> xadd_id a now (last_id x) = Ok i -> xadd_check i x = None ->
  stream_ok (apply_trim t (append_entry i fields x)).
Proof. intros. apply apply_trim_ok, append_entry_ok; [done|]. by eapply xadd_check_above. Qed.
End Streams.

(** ** Sorted sets *)

Section SortedSets.
Implicit Types (z : ZSet).

Lemma zset_insert_ne m s z : by_member (snd (zset_insert m s z)) <> ∅.
Proof. cbn. apply insert_non_empty. Qed.

Lemma zset_ok_fold {A} (f : ZSet -> A -> ZSet) l z :
  (forall z a, zset_ok z -> zset_ok (f z a)) -> zset_ok z -> zset_ok (foldl f z l).
Proof. intros Hf. revert z. induction l; cbn; auto. Qed.

Lemma zadd_loop_ok f l a a' : zset_ok (za_z a) -> zadd_loop f l a = Ok a' -> zset_ok (za_z a').
Proof.
  revert a. induction l as [|[sc m] l IH]; intros a Ha He; cbn in He; [by injection He as <-|].
  destruct (parse_f64 sc) as [s|]; [|done].
  destruct (negb _); [destruct (zf_incr f); [done|]; by eapply IH|].
  destruct (match zset_score (za_z a) m with Some _ => _ | None => _ end) as [da dc].
  eapply IH; [|exact He]. by apply (zset_insert_ok m).
Qed.

Lemma zremove_members_ok z l z' n : zset_ok z -> zremove_members z l = (z', n) -> zset_ok z'.
Proof.
  unfold zremove_members. generalize 0. revert z.
  induction l as [|m l IH]; intros z k Hz; cbn; [by intros [= <- _]|].
  pose proof (zset_remove_ok m z Hz) as Hr. destruct (zset_remove m z) as [o z1]. by apply IH.
Qed.

Lemma remove_items_ok z l : zset_ok z -> zset_ok (remove_items z l).
Proof. apply zset_ok_fold. intros. by apply zset_remove_ok. Qed.

Lemma zset_of_ok m : zset_ok (zset_of m).
Proof. apply zset_ok_fold; [|apply zset_default_ok]. intros. by apply zset_insert_ok. Qed.

Lemma stored_ok f l : zset_ok (stored f l).
Proof. apply zset_ok_fold; [|apply zset_default_ok]. intros. by apply zset_insert_ok. Qed.

Lemma geoadd_loop_ok nx xx l z n c z' n' c' :
  zset_ok z -> geoadd_loop nx xx l z n c = Ok (z', n', c') -> zset_ok z'.
Proof.
  remember (length l) as len eqn:Hlen. assert (Hle : (length l <= len)%nat) by lia. clear Hlen.
  revert l z n c Hle. induction len as [|len IH]; intros [|a [|b [|m l]]] z n c Hle Hz He;
    cbn [geoadd_loop length] in *; try lia; try (by injection He as <- <- <-).
  destruct (parse_f64 a) as [lon|]; [|done]. destruct (parse_f64 b) as [lat|]; [|done].
  destruct (_ || _); [done|]. destruct (_ || _); [eapply IH; [|exact Hz|exact He]; lia|].
  destruct (zset_insert m _ z) as [prev z1] eqn:Ei.
  assert (Hz1 : zset_ok z1).
  { replace z1 with (zset_insert m (f64_of_uint (geohash_encode lon lat)) z).2 by (by rewrite Ei).
    by apply zset_insert_ok. }
  destruct prev; (eapply IH; [|exact Hz1|exact He]; lia).
Qed.
End SortedSets.

(** ** Every writing command *)

Definition keeps_ok {A} (p : prog A) : Prop := wp well_formed p (fun _ => True).

Section Collections.
Implicit Types (z : ZSet) (x : XStream).

Lemma coll_hash_ok h : coll_empty (DHash h) = false -> datum_ok (DHash h).
Proof. intros H. by apply bool_decide_eq_false in H. Qed.
Lemma coll_list_ok l : coll_empty (DList l) = false -> datum_ok (DList l).
Proof. intros H. by apply bool_decide_eq_false in H. Qed.
Lemma coll_set_ok s : coll_empty (DSet s) = false -> datum_ok (DSet s).
Proof. intros H. by apply bool_decide_eq_false in H. Qed.
Lemma coll_zset_ok z : coll_empty (DZSet z) = false -> zset_ok z -> datum_ok (DZSet z).
Proof. intros H Hz. apply bool_decide_eq_false in H. done. Qed.

Lemma shown_zset z : shown well_formed DZSet zset_default z -> zset_ok z.
Proof. intros [[? _]| ->]; [done|apply zset_default_ok]. Qed.
Lemma shown_stream x : shown well_formed DStream xstream_default x -> stream_ok x.
Proof. intros [?| ->]; [done|apply xstream_default_ok]. Qed.

Lemma insert_hash_ok (h : gmap Bytes Bytes) k v : datum_ok (DHash (<[k := v]> h)).
Proof. apply insert_non_empty. Qed.
Lemma insert_zset_ok m s z : zset_ok z -> datum_ok (DZSet (zset_insert m s z).2).
Proof. split; [by apply zset_insert_ok|apply zset_insert_ne]. Qed.
Lemma union_set_ok (s : gset Bytes) m : datum_ok (DSet (s ∪ {[m]})).
Proof. cbn. set_solver. Qed.

Lemma push_end_ne left v l : push_end left v l <> [].
Proof. destruct left; cbn; [done|]. unfold push_back. by destruct l. Qed.

Lemma push_ok left l vs : vs <> [] -> foldl (fun l v => push_end left v l) l vs <> [].
Proof.
  destruct vs as [|v vs _] using rev_ind; [done|]. intros _. rewrite foldl_snoc. apply push_end_ne.
Qed.

Lemma add_members_ne s l s' n : add_members s l = (s', n) -> l <> [] -> s' <> ∅.
Proof.
  destruct l as [|m l _] using rev_ind; [done|]. unfold add_members. rewrite foldl_snoc.
  intros [= <- _] _. set_solver.
Qed.

Lemma insert_pairs_ne h l h' n : insert_pairs h l = (h', n) -> l <> [] -> h' <> ∅.
Proof.
  destruct l as [|p l _] using rev_ind; [done|]. unfold insert_pairs. rewrite foldl_snoc.
  intros [= <- _] _. apply insert_non_empty.
Qed.

Lemma insert_list_ne (l : list Bytes) i v : l <> [] -> <[i := v]> l <> [].
Proof. destruct l; [done|]. by destruct i. Qed.

Lemma insert_at_ne i v l : insert_at i v l <> [].
Proof. unfold insert_at. by destruct (take i l). Qed.

Lemma drop_ne {A} n (l : list A) : (n < length l)%nat -> drop n l <> [].
Proof. intros H E. apply (f_equal length) in E. rewrite length_drop in E. cbn in E. lia. Qed.
End Collections.

Lemma push_end_ok left v l : datum_ok (DList (push_end left v l)).
Proof. apply push_end_ne. Qed.
Lemma insert_at_ok i v l : datum_ok (DList (insert_at i v l)).
Proof. apply insert_at_ne. Qed.
Lemma stream_datum_ok x : stream_ok x -> datum_ok (DStream x).
Proof. done. Qed.

(** The arity tests leave something to insert. *)
Lemma pairs_ne (l : list Bytes) : (2 <= length l)%nat -> pairs l <> [].
Proof. by destruct l as [|? [|? ?]]; cbn; [lia|lia|]. Qed.

#[export] Hint Resolve coll_hash_ok coll_list_ok coll_set_ok coll_zset_ok insert_hash_ok
  insert_zset_ok union_set_ok push_end_ok insert_at_ok stream_datum_ok zset_insert_ok zset_remove_ok zset_of_ok
  stored_ok remove_items_ok trim_to_maxlen_ok trim_to_minid_ok apply_trim_ok
  shown_zset shown_stream : voltra.

Section Writes.
Implicit Types (ns : Z) (args : list Bytes).

Ltac exit1 := match goal with
  | r : result Exit _ |- _ => destruct r
  | e : Exit |- _ => destruct e
  end; cbn [on_ok].
Ltac wf := unfold keeps_ok;
  repeat (progress wp_auto || (apply wp_fold_any) || (apply wp_map) || exit1);
  cbn [pol_put pol_read pol_del well_formed] in *; try done; eauto with voltra.

Lemma set_keeps ns args : keeps_ok (set ns args).
Proof. unfold CmdString.set. wf. Qed.
Lemma setnx_keeps ns args : keeps_ok (setnx ns args).
Proof. unfold setnx. wf. Qed.
Lemma setex_keeps ns args ms : keeps_ok (setex ns args ms).
Proof. unfold setex. wf. Qed.
Lemma mset_keeps ns args : keeps_ok (mset ns args).
Proof. unfold mset, put_pairs, cmd_iter. wf. Qed.
Lemma msetnx_keeps ns args : keeps_ok (msetnx ns args).
Proof. unfold msetnx, put_pairs, cmd_iter. wf. Qed.
Lemma append_keeps ns args : keeps_ok (append ns args).
Proof. unfold append. wf. Qed.
Lemma incr_by_keeps ns args sign implicit : keeps_ok (incr_by ns args sign implicit).
Proof. unfold incr_by. wf. Qed.
Lemma incr_by_float_keeps ns args : keeps_ok (incr_by_float ns args).
Proof. unfold incr_by_float. wf. Qed.
Lemma getset_keeps ns args : keeps_ok (getset ns args).
Proof. unfold getset. wf. Qed.
Lemma getdel_keeps ns args : keeps_ok (getdel ns args).
Proof. unfold getdel. wf. Qed.
Lemma getex_keeps ns args : keeps_ok (getex ns args).
Proof. unfold getex. wf. Qed.
Lemma setrange_keeps ns args : keeps_ok (setrange ns args).
Proof. unfold setrange. wf. Qed.
Lemma setbit_keeps ns args : keeps_ok (setbit ns args).
Proof. unfold setbit. wf. Qed.
Lemma del_keeps ns args : keeps_ok (del ns args).
Proof. unfold del. wf. Qed.
Lemma expire_keeps ns args unit absolute : keeps_ok (expire ns args unit absolute).
Proof. unfold expire. wf. Qed.
Lemma persist_keeps ns args : keeps_ok (persist ns args).
Proof. unfold persist. wf. Qed.
Lemma rename_keeps ns args nx : keeps_ok (rename ns args nx).
Proof. unfold rename. wf. Qed.
Lemma copy_keeps ns args : keeps_ok (copy ns args).
Proof. unfold copy. wf. Qed.
Lemma flushdb_keeps ns args : keeps_ok (flushdb ns args).
Proof. unfold flushdb, del_all, cmd_iter. wf. Qed.
Lemma flushall_keeps args : keeps_ok (flushall args).
Proof. unfold flushall, del_all, cmd_iter. wf. Qed.

(** SWAPDB reads both databases before it writes either. *)
Lemma read_all_ok ns l (Q : result Exit (list (Bytes * Datum * option Z)) -> Prop) :
  (forall e, Q (Err e)) -> (forall r, Forall (fun kde => datum_ok kde.1.2) r -> Q (Ok r)) ->
  wp well_formed (read_all ns l) Q.
Proof.
  intros He Hq. apply (wp_fold well_formed _ (Forall (fun kde => datum_ok kde.1.2)));
    [constructor|done|done|]. intros acc k Hacc _. wf.
  apply Forall_app. split; [done|]. constructor; [|done]. cbn. eauto.
Qed.

Lemma put_all_ok ns l (Q : result Exit unit -> Prop) :
  (forall r, Q r) -> Forall (fun kde : Bytes * Datum * option Z => datum_ok kde.1.2) l ->
  wp well_formed (put_all ns l) Q.
Proof.
  intros HQ Hl. rewrite Forall_forall in Hl.
  apply (wp_fold well_formed _ (fun _ => True)); [done|done|done|].
  intros _ kde _ Hin. by apply wp_put_; [apply Hl|].
Qed.

Lemma swapdb_keeps args : keeps_ok (swapdb args).
Proof.
  unfold swapdb, del_all, cmd_iter, keeps_ok. repeat (progress wp_auto || exit1); try done.
  apply read_all_ok; [by intros []|]. intros va Hva. wp_auto.
  apply read_all_ok; [by intros []|]. intros vb Hvb. wp_auto.
  apply wp_fold_any; [|wf]. intros [|[]]; wp_auto; try done.
  apply wp_fold_any; [|wf]. intros [|[]]; wp_auto; try done.
  apply put_all_ok; [|done]. intros [|[]]; wp_auto; try done.
  apply put_all_ok; [|done]. intros [|[]]; wp_auto; try done.
Qed.

Lemma hset_keeps ns args compat : keeps_ok (hset ns args compat).
Proof.
  unfold hset. wf. eapply insert_pairs_ne; [done|]. apply pairs_ne. rewrite length_drop.
  apply orb_false_iff in H as [H _]. zbool. lia.
Qed.
Lemma hsetnx_keeps ns args : keeps_ok (hsetnx ns args).
Proof. unfold hsetnx. wf. Qed.
Lemma hdel_keeps ns args : keeps_ok (hdel ns args).
Proof. unfold hdel. wf. Qed.
Lemma hincrby_keeps ns args : keeps_ok (hincrby ns args).
Proof. unfold hincrby. wf. Qed.
Lemma hincrbyfloat_keeps ns args : keeps_ok (hincrbyfloat ns args).
Proof. unfold hincrbyfloat. wf. Qed.
Lemma push_keeps ns args left exists_only : keeps_ok (push ns args left exists_only).
Proof.
  unfold push. wf. apply push_ok, drop_ne. zbool. lia.
Qed.
Lemma pop_keeps ns args left : keeps_ok (pop ns args left).
Proof. unfold pop, pop_count. wf. Qed.
Lemma lset_keeps ns args : keeps_ok (lset ns args).
Proof.
  unfold lset. wf. apply insert_list_ne. by zbool.
Qed.
Lemma lrem_keeps ns args : keeps_ok (lrem ns args).
Proof. unfold lrem. wf. Qed.
Lemma ltrim_keeps ns args : keeps_ok (ltrim ns args).
Proof. unfold ltrim. wf. Qed.
Lemma linsert_keeps ns args : keeps_ok (linsert ns args).
Proof. unfold linsert. wf. Qed.
Lemma lmove_keeps ns args : keeps_ok (lmove ns args).
Proof. unfold lmove, do_lmove, parse_side. wf. Qed.
Lemma lmove_compat_keeps ns args : keeps_ok (lmove_compat ns args).
Proof. unfold lmove_compat, do_lmove. wf. Qed.
Lemma sadd_keeps ns args : keeps_ok (sadd ns args).
Proof.
  unfold sadd. wf. eapply add_members_ne; [done|]. apply drop_ne. zbool. lia.
Qed.
Lemma srem_keeps ns args : keeps_ok (srem ns args).
Proof. unfold srem. wf. Qed.
Lemma spop_keeps ns args : keeps_ok (spop ns args).
Proof. unfold spop, pop_count. wf. Qed.
Lemma smove_keeps ns args : keeps_ok (smove ns args).
Proof. unfold smove. wf. Qed.
Lemma setop_keeps ns args op store : keeps_ok (setop ns args op store).
Proof. unfold setop, setop_fold. wf. Qed.
Lemma zadd_keeps ns args : keeps_ok (zadd ns args).
Proof.
  unfold zadd. wf. apply coll_zset_ok; [done|]. eapply zadd_loop_ok; [|done]. cbn. eauto with voltra.
Qed.
Lemma zrem_keeps ns args : keeps_ok (zrem ns args).
Proof.
  unfold zrem. wf. apply coll_zset_ok; [done|]. eapply zremove_members_ok; [|done].
  eauto with voltra.
Qed.
Lemma zincrby_keeps ns args : keeps_ok (zincrby ns args).
Proof. unfold zincrby. wf. Qed.
Lemma zpop_keeps ns args min : keeps_ok (zpop ns args min).
Proof. unfold zpop. wf. Qed.
Lemma zremrangebyrank_keeps ns args : keeps_ok (zremrangebyrank ns args).
Proof. unfold zremrangebyrank. wf. Qed.
Lemma zremrangebyscore_keeps ns args : keeps_ok (zremrangebyscore ns args).
Proof. unfold zremrangebyscore. wf. Qed.
Lemma zremrangebylex_keeps ns args : keeps_ok (zremrangebylex ns args).
Proof. unfold zremrangebylex. wf. Qed.
Lemma zstore_keeps ns args op : keeps_ok (zstore ns args op).
Proof. unfold zstore, zstore_inputs. wf. Qed.
Lemma xadd_keeps ns args : keeps_ok (xadd ns args).
Proof.
  unfold xadd. wf; eapply stream_datum_ok, xadd_entry_ok; eauto with voltra.
Qed.
Lemma xdel_keeps ns args : keeps_ok (xdel ns args).
Proof.
  unfold xdel. wf. apply stream_datum_ok. eapply xdel_loop_ok; [|done]. eauto with voltra.
Qed.
Lemma xtrim_keeps ns args : keeps_ok (xtrim ns args).
Proof. unfold xtrim. wf. Qed.
Lemma geoadd_keeps ns args : keeps_ok (geoadd ns args).
Proof.
  unfold geoadd. wf. apply coll_zset_ok; [done|]. eapply geoadd_loop_ok; [|done]. eauto with voltra.
Qed.

Lemma run_search_keeps `{Libm} ns k clon clat shape factor o (Q : result Exit Resp -> Prop) :
  (forall r, Q r) -> wp well_formed (run_search ns k clon clat shape factor o) Q.
Proof. intros HQ. unfold run_search, sort_hits. wf. Qed.

Lemma georadius_keeps `{Libm} ns args by_member : keeps_ok (georadius ns args by_member).
Proof.
  unfold georadius, keeps_ok. destruct by_member; wf; apply run_search_keeps; by intros [|[]].
Qed.
End Writes.

#[export] Hint Resolve set_keeps setnx_keeps setex_keeps mset_keeps msetnx_keeps append_keeps
  incr_by_keeps incr_by_float_keeps getset_keeps getdel_keeps getex_keeps setrange_keeps
  setbit_keeps del_keeps expire_keeps persist_keeps rename_keeps copy_keeps flushdb_keeps
  flushall_keeps swapdb_keeps hset_keeps hsetnx_keeps hdel_keeps hincrby_keeps hincrbyfloat_keeps
  push_keeps pop_keeps lset_keeps lrem_keeps ltrim_keeps linsert_keeps lmove_keeps
  lmove_compat_keeps sadd_keeps srem_keeps spop_keeps smove_keeps setop_keeps zadd_keeps zrem_keeps
  zincrby_keeps zpop_keeps zremrangebyrank_keeps zremrangebyscore_keeps zremrangebylex_keeps
  zstore_keeps xadd_keeps xdel_keeps xtrim_keeps geoadd_keeps georadius_keeps : voltra.

(** ** The table of commands *)

Section Table.
Context `{Libm}.

Lemma arms_writes_keep_ok dbi :
  Forall (fun nh : Bytes * Handler =>
    is_write nh.1 || stores_anyway nh.1 = true -> forall args, keeps_ok (nh.2 args)) (arms dbi).
Proof.
  unfold arms. repeat apply Forall_cons_2; try apply Forall_nil_2; cbn [fst snd];
    intros Hw args; first [exfalso; vm_compute in Hw; discriminate Hw | auto with voltra].
Qed.

Lemma arms_keep_ok dbi :
  Forall (fun nh : Bytes * Handler => forall args, keeps_ok (nh.2 args)) (arms dbi).
Proof.
  eapply Forall_impl; [apply Forall_and; exact (conj (arms_read_only dbi) (arms_writes_keep_ok dbi))|].
  intros [n h] [Hr Hw] args. cbn in *. destruct (is_write n || stores_anyway n) eqn:E; [by apply Hw|].
  apply orb_false_iff in E as [? ?]. apply read_only_wp. by apply Hr.
Qed.

Lemma dispatch_keeps_ok dbi c args : keeps_ok (dispatch_data dbi c args).
Proof.
  unfold dispatch_data. destruct (find_arm c (arms dbi)) as [h|] eqn:E; [|done].
  apply find_arm_elem in E. pose proof (arms_keep_ok dbi) as Ha. rewrite Forall_forall in Ha.
  by apply (Ha _ E).
Qed.
End Table.
