(* ===== verification/Run.v ===== *)
(** * Evaluating commands on the reference map

    Equations of [interp] on [Model] for the combinators and the typed helpers, and the
    tactic [run] that rewrites a command with them until its control flow shows. *)

From S2P Require Import Prelude Util Resp Mvcc ZSet Engine Model CmdString.

Abbreviation run p m := (interp (S := Model) p m).

(** Store, erase. *)
Definition set_key (m : Model) (nk : NsKey) (d : Datum) (e : option Z) : Model :=
  with_data m (<[nk := (d, e)]> (m_data m)).
Definition del_key (m : Model) (nk : NsKey) : Model := with_data m (delete nk (m_data m)).

Section Run.
Implicit Types (m : Model) (ns : Z) (k : Bytes).

Lemma run_prog_bind {A B} (p : prog A) (f : A -> prog B) m :
  run (prog_bind f p) m = run (f (fst (run p m))) (snd (run p m)).
Proof.
  revert m. induction p; intros m; cbn; rewrite ?st_bind_eq; auto.
Qed.

Lemma run_bind {A B} (c : cmd A) (f : A -> cmd B) m :
  run (c ≫= f) m = match fst (run c m) with
                   | Ok a => run (f a) (snd (run c m))
                   | Err e => (Err e, snd (run c m))
                   end.
Proof.
  unfold mbind, cmd_bind. rewrite run_prog_bind. by destruct (fst (run c m)).
Qed.

Lemma run_reply (c : cmd Resp) m :
  run (reply c) m = (match fst (run c m) with
                     | Ok a => Some a | Err (Return e) => Some e | Err Panic => None
                     end, snd (run c m)).
Proof.
  unfold reply. rewrite run_prog_bind. by destruct (fst (run c m)) as [a|[e|]].
Qed.

Lemma run_mret {A} (a : A) m : run (mret a : cmd A) m = (Ok a, m).
Proof. done. Qed.
Lemma run_early {A} r m : run (early r : cmd A) m = (Err (Return r), m).
Proof. done. Qed.
Lemma run_return_if b r m :
  run (return_if b r) m = (if b then Err (Return r) else Ok tt, m).
Proof. by destruct b. Qed.
Lemma run_let_some {A} (o : option A) r m :
  run (let_some o r) m = (match o with Some a => Ok a | None => Err (Return r) end, m).
Proof. by destruct o. Qed.
Lemma run_try {A} (r : result Resp A) m :
  run (try_ r) m = (match r with Ok a => Ok a | Err e => Err (Return e) end, m).
Proof. by destruct r. Qed.
Lemma run_if {A} (b : bool) (p q : cmd A) m : run (if b then p else q) m = if b then run p m else run q m.
Proof. by destruct b. Qed.
Lemma run_get ns k m : run (get_ ns k) m = (Ok (live m (ns, k)), m).
Proof. done. Qed.
Lemma run_expiry ns k m : run (expiry_ ns k) m = (Ok (model_expiry m (ns, k)), m).
Proof. done. Qed.
Lemma run_put ns k d e m : run (put_ ns k d e) m = (Ok tt, set_key m (ns, k) d e).
Proof. done. Qed.
Lemma run_del ns k m :
  run (del_ ns k) m = (Ok (bool_decide (is_Some (m_data m !! (ns, k)))), del_key m (ns, k)).
Proof. done. Qed.
Lemma run_keys ns m : run (keys_ ns) m = (Ok (model_keys m ns), m).
Proof. done. Qed.
Lemma run_now m : run now_ms_ m = (Ok (m_now m), m).
Proof. done. Qed.

Lemma run_store_coll ns k d e m :
  run (store_coll ns k d e) m
  = (Ok tt, if coll_empty d then del_key m (ns, k) else set_key m (ns, k) d e).
Proof. unfold store_coll. by destruct (coll_empty d). Qed.

Lemma run_read_str ns k m :
  run (read_str ns k) m
  = (match live m (ns, k) with
     | Some (DStr s) => Ok (Some s, model_expiry m (ns, k))
     | Some _ => Err (Return wrong_type)
     | None => Ok (None, None)
     end, m).
Proof. unfold read_str. rewrite run_bind, run_get. cbn. by destruct (live m (ns, k)) as [[]|]. Qed.

Lemma run_str_or_empty ns k m :
  run (str_or_empty ns k) m
  = (match live m (ns, k) with
     | Some (DStr s) => Ok (s, model_expiry m (ns, k))
     | Some _ => Err (Return wrong_type)
     | None => Ok ([], None)
     end, m).
Proof.
  unfold str_or_empty. rewrite run_bind, run_read_str. cbn. by destruct (live m (ns, k)) as [[]|].
Qed.

Lemma run_read_list ns k m :
  run (read_list ns k) m
  = (match live m (ns, k) with
     | Some (DList l) => Ok (l, model_expiry m (ns, k))
     | Some _ => Err (Return wrong_type)
     | None => Ok ([], None)
     end, m).
Proof. unfold read_list. rewrite run_bind, run_get. cbn. by destruct (live m (ns, k)) as [[]|]. Qed.

Lemma run_read_set ns k m :
  run (read_set ns k) m
  = (match live m (ns, k) with
     | Some (DSet s) => Ok (s, model_expiry m (ns, k))
     | Some _ => Err (Return wrong_type)
     | None => Ok (∅, None)
     end, m).
Proof. unfold read_set. rewrite run_bind, run_get. cbn. by destruct (live m (ns, k)) as [[]|]. Qed.

Lemma run_read_stream ns k m :
  run (read_stream ns k) m
  = (match live m (ns, k) with
     | Some (DStream x) => Ok (x, model_expiry m (ns, k))
     | Some _ => Err (Return wrong_type)
     | None => Ok (xstream_default, None)
     end, m).
Proof. unfold read_stream. rewrite run_bind, run_get. cbn. by destruct (live m (ns, k)) as [[]|]. Qed.

(** Reading back. *)
Lemma live_set m nk d e nk' :
  is_expired e (m_now m) = false ->
  live (set_key m nk d e) nk' = if decide (nk = nk') then Some d else live m nk'.
Proof.
  intros He. unfold live, set_key. cbn. rewrite lookup_insert. case_decide; [by rewrite He|done].
Qed.

Lemma live_del m nk nk' :
  live (del_key m nk) nk' = if decide (nk = nk') then None else live m nk'.
Proof. unfold live, del_key. cbn. rewrite lookup_delete. by case_decide. Qed.

(** The expiry read with a value is still ahead. *)
Lemma expiry_ahead m nk : is_expired (model_expiry m nk) (m_now m) = false.
Proof.
  unfold model_expiry. destruct (m_data m !! nk) as [[d [e|]]|]; [|done..].
  destruct (m_now m <? e) eqn:E; [|done]. cbn. zbool. by apply zle_false.
Qed.

(** Loops that read, and loops that write. *)
Lemma run_fold_read {A B} (f : B -> A -> cmd B) (g : B -> A -> B) b l m :
  (forall b a, run (f b a) m = (Ok (g b a), m)) -> run (cmd_fold f b l) m = (Ok (foldl g b l), m).
Proof.
  intros Hf. revert b. induction l as [|a l IH]; intros b; cbn [cmd_fold foldl]; [done|].
  rewrite run_bind, Hf. cbn. apply IH.
Qed.

Lemma run_iter {A} (f : A -> cmd unit) (h : Model -> A -> Model) l m :
  (forall a m, run (f a) m = (Ok tt, h m a)) -> run (cmd_iter f l) m = (Ok tt, foldl h m l).
Proof.
  intros Hf. unfold cmd_iter. revert m. induction l as [|a l IH]; intros m; cbn [cmd_fold foldl]; [done|].
  rewrite run_bind, Hf. cbn. apply IH.
Qed.
End Run.

#[export] Hint Rewrite @run_bind run_reply @run_mret @run_early run_return_if @run_let_some @run_try
  @run_if run_get run_expiry run_put run_del run_keys run_now run_store_coll run_read_str
  run_str_or_empty run_read_list run_read_set run_read_stream : run.

(** Positions in a literal argument list. *)
Lemma arg_0 a l : arg (a :: l) 0 = a.
Proof. done. Qed.
Lemma arg_S a l n : arg (a :: l) (S n) = arg l n.
Proof. done. Qed.
#[export] Hint Rewrite arg_0 arg_S : run.

(** Decide the comparisons of numerals. *)
Ltac ground_bool b :=
  let v := eval compute in b in
  lazymatch v with true => change b with true | false => change b with false end.
Ltac ground_tests := repeat match goal with
  | |- context [?a =? ?b] => ground_bool (a =? b)
  | |- context [?a <? ?b] => ground_bool (a <? b)
  | |- context [?a <=? ?b] => ground_bool (a <=? b)
  end.

(** Rewrite with the equations and reduce what they expose. *)
Ltac run := repeat (progress (autorewrite with run; cbn [fst snd length drop]; ground_tests;
  cbn [negb andb orb])).
