(* ===== verification/CmdFacts.v ===== *)
(** * Functional properties of the commands

    Each command family against the mathematics its data stands for: counters, bit arrays,
    lists, sets, cursors, geohashes. Stated on the plain map of [Model], which by
    [Serving.command_refines_model] is what the server answers from. *)

From S2P Require Import Prelude Util Resp Mvcc ZSet Engine Model Run WellFormed.
From S2P Require Import CmdString CmdHashList CmdSet CmdZSet CmdStream CmdGeo.

(** A pipeline of commands: the replies and the final map. *)
Fixpoint run_all (l : list (prog Reply)) (m : Model) : list Reply * Model :=
  match l with
  | [] => ([], m)
  | p :: l' => let '(r, m') := run p m in let '(rs, m'') := run_all l' m' in (r :: rs, m'')
  end.

(** ** Counters *)

(** The integer a key counts: absent is zero. *)
Definition counter (m : Model) (nk : NsKey) : option Z :=
  match live m nk with Some (DStr s) => parse_i64 s | Some _ => None | None => Some 0 end.

(** Partial sums. *)
Fixpoint sums (c : Z) (l : list Z) : list Z :=
  match l with [] => [] | d :: l' => (c + d) :: sums (c + d) l' end.

Section Counters.
Implicit Types (m : Model) (ns : Z) (k : Bytes) (c d : Z).

Lemma in_i64_spec z : in_i64 z = true <-> is_i64 z.
Proof. unfold in_i64, is_i64. rewrite andb_true_iff, !Z.leb_le. done. Qed.

Lemma wrap_i64_id z : is_i64 z -> wrap_i64 z = z.
Proof.
  unfold is_i64, I64_MIN, I64_MAX, wrap_i64. intros Hz.
  rewrite Z.mod_small by lia. lia.
Qed.

Lemma incr_step ns k c d m :
  is_i64 d -> is_i64 (c + d) -> counter m (ns, k) = Some c ->
  exists m', run (incr_by ns [k; dec d] 1 false) m = (Some (Int (c + d)), m') /\
    counter m' (ns, k) = Some (c + d).
Proof.
  intros Hd Hs Hc. unfold incr_by, counter in *.
  assert (Hadd : checked_add_i64 c d = Some (c + d)).
  { unfold checked_add_i64. by rewrite (proj2 (in_i64_spec _) Hs). }
  run. rewrite (parse_i64_dec d Hd). rewrite Z.mul_1_l, (wrap_i64_id d Hd). run.
  destruct (live m (ns, k)) as [[s| | | | | |]|]; try done; run;
    [rewrite Hc; run|injection Hc as <-; run]; rewrite Hadd; run; eexists; (split; [reflexivity|]);
    rewrite live_set by (done || apply expiry_ahead);
    rewrite decide_True by done; by apply parse_i64_dec.
Qed.

Lemma incr_overflow ns k c d m :
  is_i64 d -> ~ is_i64 (c + d) -> counter m (ns, k) = Some c ->
  run (incr_by ns [k; dec d] 1 false) m = (Some not_int, m).
Proof.
  intros Hd Hs Hc. unfold incr_by, counter in *.
  assert (Hadd : checked_add_i64 c d = None).
  { unfold checked_add_i64. destruct (in_i64 (c + d)) eqn:E; [|done]. by apply in_i64_spec in E. }
  run. rewrite (parse_i64_dec d Hd). rewrite Z.mul_1_l, (wrap_i64_id d Hd). run.
  destruct (live m (ns, k)) as [[s| | | | | |]|]; try done; run;
    [rewrite Hc; run|injection Hc as <-; run]; by rewrite Hadd; run.
Qed.
End Counters.

(** ** Bitmaps *)

Section Bits.
Implicit Types (m : Model) (ns : Z) (k v : Bytes) (b p q : Z).

(** Bit [q] of a string, most significant first; zero past its end. *)
Definition bit_of v q : Z := bit_at (default 0 (v !! Z.to_nat (q / 8))) (7 - q mod 8).

Definition set_bit_byte b bit j : Z :=
  if bit =? 1 then Z.lor b (Z.shiftl 1 j) else Z.land b (255 - Z.shiftl 1 j).

Lemma bit_at_testbit b i : 0 <= i -> bit_at b i = Z.b2z (Z.testbit b i).
Proof.
  intros Hi. unfold bit_at. change 1 with (Z.ones 1). rewrite Z.land_ones by lia.
  change (2 ^ 1) with 2. by rewrite <- Z.bit0_mod, Z.shiftr_spec, Z.add_0_l by lia.
Qed.

Lemma bit_at_0 i : bit_at 0 i = 0.
Proof. unfold bit_at. by rewrite Z.shiftr_0_l. Qed.

Lemma small_cases (P : Z -> Prop) :
  P 0 -> P 1 -> P 2 -> P 3 -> P 4 -> P 5 -> P 6 -> P 7 -> forall j, 0 <= j < 8 -> P j.
Proof.
  intros. assert (j = 0 \/ j = 1 \/ j = 2 \/ j = 3 \/ j = 4 \/ j = 5 \/ j = 6 \/ j = 7) as
    [->|[->|[->|[->|[->|[->|[->| ->]]]]]]] by lia; done.
Qed.

Lemma testbit_one j i : 0 <= j < 8 -> 0 <= i < 8 -> Z.testbit (Z.shiftl 1 j) i = (i =? j).
Proof. intros Hj. revert i. revert j Hj. by refine (small_cases _ _ _ _ _ _ _ _ _); refine (small_cases _ _ _ _ _ _ _ _ _). Qed.

Lemma testbit_mask j i :
  0 <= j < 8 -> 0 <= i < 8 -> Z.testbit (255 - Z.shiftl 1 j) i = negb (i =? j).
Proof. intros Hj. revert i. revert j Hj. by refine (small_cases _ _ _ _ _ _ _ _ _); refine (small_cases _ _ _ _ _ _ _ _ _). Qed.

Lemma set_bit_byte_at b bit j i :
  bit = 0 \/ bit = 1 -> 0 <= j < 8 -> 0 <= i < 8 ->
  bit_at (set_bit_byte b bit j) i = if decide (i = j) then bit else bit_at b i.
Proof.
  intros Hbit Hj Hi. rewrite !bit_at_testbit by lia. unfold set_bit_byte.
  destruct Hbit as [-> | ->].
  - change (0 =? 1) with false. cbv iota. rewrite Z.land_spec, testbit_mask by done.
    case_decide as Hd; [rewrite zeq_true by done|rewrite zeq_false by done]; by rewrite ?andb_true_r, ?andb_false_r.
  - change (1 =? 1) with true. cbv iota. rewrite Z.lor_spec, testbit_one by done.
    case_decide as Hd; [rewrite zeq_true by done|rewrite zeq_false by done]; by rewrite ?orb_true_r, ?orb_false_r.
Qed.

(** The buffer of SETBIT: zero-extended to the byte, one bit changed. *)
Definition with_bit v p bit : Bytes :=
  let i := Z.to_nat (p / 8) in
  let buf := if (length v <=? i)%nat then resize (i + 1) v else v in
  <[i := set_bit_byte (default 0 (buf !! i)) bit (7 - p mod 8)]> buf.

Lemma resize_lookup n v i : default 0 (resize n v !! i) = default 0 (v !! i).
Proof.
  unfold resize. destruct (decide (i < length v)%nat) as [Hi|Hi].
  - by rewrite lookup_app_l.
  - rewrite lookup_app_r, (lookup_ge_None_2 v) by lia. cbn.
    destruct (repeat 0 (n - length v) !! (i - length v)%nat) as [x|] eqn:E; [|done].
    apply list_elem_of_lookup_2, list_elem_of_In, repeat_spec in E. by subst.
Qed.

Lemma grown_lookup v i j :
  default 0 ((if (length v <=? i)%nat then resize (i + 1) v else v) !! j) = default 0 (v !! j).
Proof. destruct (_ <=? _)%nat; [apply resize_lookup|done]. Qed.

Lemma bit_of_with_bit v p bit q :
  bit = 0 \/ bit = 1 -> 0 <= p -> 0 <= q ->
  bit_of (with_bit v p bit) q = if decide (q = p) then bit else bit_of v q.
Proof.
  intros Hb Hp Hq. unfold with_bit, bit_of.
  set (i := Z.to_nat (p / 8)).
  set (buf := if (length v <=? i)%nat then resize (i + 1) v else v).
  assert (Hbuf : forall j, default 0 (buf !! j) = default 0 (v !! j)).
  { intros j. apply grown_lookup. }
  assert (Hlen : (i < length buf)%nat).
  { unfold buf. destruct (length v <=? i)%nat eqn:E; [|by apply Nat.leb_gt in E].
    apply Nat.leb_le in E. unfold resize. rewrite length_app, repeat_length. lia. }
  pose proof (Z.mod_pos_bound p 8). pose proof (Z.mod_pos_bound q 8).
  pose proof (Z.div_mod p 8). pose proof (Z.div_mod q 8).
  pose proof (Z.div_pos p 8). pose proof (Z.div_pos q 8).
  destruct (decide (Z.to_nat (q / 8) = i)) as [Hqi|Hqi]; unfold i in *.
  - rewrite Hqi, list_lookup_insert_eq by done. cbn. rewrite set_bit_byte_at by (done || lia).
    rewrite Hbuf. apply Z2Nat.inj in Hqi; [|lia..].
    case_decide; case_decide; done || lia.
  - rewrite list_lookup_insert_ne by done. rewrite Hbuf. rewrite decide_False; [done|].
    intros ->. done.
Qed.

(** The string a key holds: absent is empty. *)
Definition text m (nk : NsKey) : option Bytes :=
  match live m nk with Some (DStr s) => Some s | Some _ => None | None => Some [] end.

Lemma getbit_run ns k q v m :
  is_i64 q -> 0 <= q -> text m (ns, k) = Some v ->
  run (getbit ns [k; dec q]) m = (Some (Int (bit_of v q)), m).
Proof.
  intros Hi Hq Hv. unfold getbit. run. rewrite parse_i64_dec by done. cbn [filter_opt].
  rewrite zle_true by done. run. unfold text, bit_of in *.
  destruct (live m (ns, k)) as [[s| | | | | |]|]; simplify_eq; run;
    destruct (_ !! Z.to_nat (q / 8)) as [b|]; run; cbn; by rewrite ?bit_at_0.
Qed.

Lemma setbit_run ns k p bit v m :
  0 <= p < 4294967296 -> bit = 0 \/ bit = 1 -> text m (ns, k) = Some v ->
  exists e, is_expired e (m_now m) = false /\
    run (setbit ns [k; dec p; dec bit]) m
    = (Some (Int (bit_of v p)), set_key m (ns, k) (DStr (with_bit v p bit)) e).
Proof.
  intros Hp Hb Hv. unfold setbit. run.
  assert (is_i64 p) by (unfold is_i64, I64_MIN, I64_MAX; lia). rewrite parse_i64_dec by done.
  cbn [filter_opt]. rewrite zle_true, zlt_true by lia. cbn [andb]. run.
  assert (is_i64 bit) by (unfold is_i64, I64_MIN, I64_MAX; lia). rewrite parse_i64_dec by done.
  unfold text in Hv. exists (match live m (ns, k) with Some _ => model_expiry m (ns, k) | None => None end).
  split; [destruct (live m (ns, k)); [apply expiry_ahead|done]|].
  unfold bit_of. rewrite <- (grown_lookup v (Z.to_nat (p / 8))).
  destruct Hb as [-> | ->]; run;
    destruct (live m (ns, k)) as [[s| | | | | |]|]; simplify_eq; run; done.
Qed.
End Bits.

(** ** Cursors *)

(** A client that follows the cursor until it is zero again: the items seen and the calls. *)
Fixpoint scan_all {A} (fuel : nat) (items : list A) (cursor count : Z) : list A * nat :=
  match fuel with
  | O => ([], 0%nat)
  | S f =>
      let '(next, page) := scan_page items cursor count in
      if next =? 0 then (page, 1%nat)
      else let '(r, n) := scan_all f items next count in (page ++ r, S n)
  end.

Section Cursors.
Context {A : Type}.
Implicit Types (items : list A) (count : Z).

Lemma scan_page_spec items c count :
  0 < count -> (Z.of_nat c < zlen items) ->
  let e := (c + Z.to_nat count)%nat in
  scan_page items (Z.of_nat c) count =
    if (length items <=? e)%nat then (0, drop c items)
    else (Z.of_nat e, take (Z.to_nat count) (drop c items)).
Proof.
  intros Hc Hl. cbn. unfold scan_page. rewrite zle_false by done. rewrite Z.max_l by lia.
  destruct (Nat.leb_spec (length items) (c + Z.to_nat count)) as [He|He].
  - rewrite Z.min_r by lia. rewrite zle_true by lia. f_equal. unfold slice.
    rewrite !Nat2Z.id. apply take_ge. by rewrite length_drop.
  - rewrite Z.min_l by lia. rewrite zle_false by lia. f_equal; [lia|]. unfold slice.
    rewrite Nat2Z.id. f_equal. lia.
Qed.

Lemma scan_all_from items count f c :
  0 < count -> (c < length items)%nat -> (length items - c <= f)%nat ->
  fst (scan_all f items (Z.of_nat c) count) = drop c items /\
  (snd (scan_all f items (Z.of_nat c) count) <= length items - c)%nat.
Proof.
  intros Hc. revert c. induction f as [|f IH]; intros c Hl Hf; [lia|]. cbn [scan_all].
  rewrite scan_page_spec by lia.
  destruct (Nat.leb_spec (length items) (c + Z.to_nat count)) as [He|He]; cbn; [split; [done|lia]|].
  rewrite zeq_false by lia.
  destruct (IH (c + Z.to_nat count)%nat) as [H1 H2]; [lia|lia|].
  destruct (scan_all f items _ count) as [r n]. cbn in *. subst r. split; [|lia].
  rewrite <- drop_drop. by rewrite take_drop.
Qed.
End Cursors.

(** ** Random draws *)

Section Draws.
Context {A : Type}.
Implicit Types (pool : list A) (rng : Z).

Lemma rng_below_range (n : Z) rng : 0 < n -> 0 <= fst (rng_below n rng) < n.
Proof. intros Hn. unfold rng_below. rewrite zeq_false by lia. cbn. by apply Z.mod_pos_bound. Qed.

Lemma draw_distinct_perm (n : nat) pool rng picked rest g :
  (n <= length pool)%nat -> draw_distinct n pool rng = (picked, rest, g) ->
  picked ++ rest ≡ₚ pool /\ length picked = n.
Proof.
  revert pool rng picked rest g. induction n as [|n IH]; intros pool rng picked rest g Hn; cbn.
  - by intros [= <- <- <-].
  - destruct (rng_below (zlen pool) rng) as [i r1] eqn:Er.
    pose proof (rng_below_range (zlen pool) rng ltac:(lia)) as Hi. rewrite Er in Hi. cbn in Hi.
    unfold vec_remove. destruct (lookup_lt_is_Some_2 pool (Z.to_nat i)) as [a Ha]; [lia|].
    rewrite Ha. cbn.
    destruct (draw_distinct n _ r1) as [[r p] g1] eqn:Ed. intros [= <- <- <-].
    apply IH in Ed as [Hp Hl].
    + split; [|cbn; lia]. cbn. rewrite Hp. rewrite Permutation_middle.
      by rewrite (take_drop_middle pool).
    + rewrite length_app, length_take, length_drop. lia.
Qed.
End Draws.

(** ** Lists *)

Section Lists.
Implicit Types (l keep : list Bytes) (t : Bytes).

(** Occurrences of an element. *)
Definition occurs t l : Z := zlen (List.filter (fun v => beq v t) l).
Definition without t l : list Bytes := List.filter (fun v => negb (beq v t)) l.

(** At its limit the loop removes nothing more. *)
Lemma lrem_loop_full t limit removed l :
  limit <= removed -> lrem_loop l t true limit removed = (l, removed).
Proof.
  intros Hl. induction l as [|v l IH]; cbn; [done|].
  rewrite zlt_false, andb_false_r by done. by rewrite IH.
Qed.

Lemma lrem_loop_spec t bounded limit l removed keep r :
  lrem_loop l t bounded limit removed = (keep, r) -> (bounded = true -> removed <= limit) ->
  exists l1 l2, l = l1 ++ l2 /\ keep = without t l1 ++ l2 /\ r = removed + occurs t l1 /\
    (bounded = false -> l2 = []) /\ (bounded = true -> r <= limit /\ (r = limit \/ l2 = [])).
Proof.
  revert removed keep r. induction l as [|v l IH]; intros removed keep r; cbn.
  - intros [= <- <-] Hl. exists [], []. unfold occurs. cbn. split_and!; auto; lia.
  - destruct (beq v t) eqn:Ev; cbn.
    + destruct (negb bounded || (removed <? limit)) eqn:Eb.
      * intros He Hl. apply IH in He as (l1 & l2 & -> & -> & -> & Hu & Hb).
        -- exists (v :: l1), l2. unfold occurs, without in *. cbn. rewrite Ev. cbn [length negb].
           split_and!; [done..|lia|done|]. intros Hbd. destruct (Hb Hbd) as [? [?|?]]; lia || auto.
        -- intros ->. cbn in Eb. zbool. lia.
      * apply orb_false_iff in Eb as [Eb1 Eb2]. apply negb_false_iff in Eb1 as ->. zbool.
        rewrite lrem_loop_full by done. intros [= <- <-] Hl. specialize (Hl eq_refl).
        exists [], (v :: l). unfold occurs. cbn. split_and!; try done; lia || (split; [lia|left; lia]).
    + destruct (lrem_loop l t bounded limit removed) as [keep' r'] eqn:E. intros [= <- <-] Hl.
      apply IH in E as (l1 & l2 & -> & -> & -> & Hu & Hb); [|done].
      exists (v :: l1), l2. unfold occurs, without in *. cbn. rewrite Ev. cbn. by split_and!.
Qed.

Lemma without_rev t l : without t (rev l) = rev (without t l).
Proof.
  unfold without. induction l as [|v l IH]; [done|]. cbn. rewrite List.filter_app, IH. cbn.
  destruct (negb (beq v t)); cbn; by rewrite ?app_nil_r.
Qed.

Lemma occurs_rev t l : occurs t (rev l) = occurs t l.
Proof.
  unfold occurs. induction l as [|v l IH]; [done|]. cbn. rewrite List.filter_app, length_app. cbn.
  destruct (beq v t); cbn [length]; lia.
Qed.

Lemma lrem_list_spec n t l keep r :
  lrem_list n t l = (keep, r) ->
  exists l1 l2, r = occurs t l1 /\ (n <> 0 -> r <= Z.abs n) /\ (l2 = [] \/ r = Z.abs n) /\
    (n = 0 -> l2 = []) /\
    if decide (0 <= n) then l = l1 ++ l2 /\ keep = without t l1 ++ l2
    else l = l2 ++ l1 /\ keep = l2 ++ without t l1.
Proof.
  unfold lrem_list. destruct (0 <=? n) eqn:En; zbool.
  - intros (l1 & l2 & -> & -> & -> & Hu & Hb)%lrem_loop_spec; [|lia]. exists l1, l2.
    rewrite decide_True by done. destruct (Z.eqb_spec (Z.abs n) 0) as [H0|H0]; cbn in Hu, Hb.
    + rewrite Hu by done. split_and!; try done; [lia|by left].
    + destruct Hb as [? [?|?]]; [done|..]; split_and!; try done; lia || auto.
  - destruct (lrem_loop (rev l) t true (Z.abs n) 0) as [kp r0] eqn:E. intros [= <- <-].
    apply lrem_loop_spec in E as (l1 & l2 & Hl & -> & -> & _ & Hb); [|lia].
    exists (rev l1), (rev l2). rewrite decide_False by lia. rewrite occurs_rev, without_rev.
    destruct Hb as [H1 H2]; [done|]. split_and!; try lia.
    + destruct H2 as [?| ->]; [right; lia|by left].
    + rewrite <- (rev_involutive l), Hl. by rewrite rev_app_distr.
    + by rewrite rev_app_distr.
Qed.
End Lists.

(** ** Sets *)

Section Sets.
Implicit Types (m : Model) (ns : Z) (s a : gset Bytes) (x : Bytes) (op : SetOp).

(** The set a key holds: absent is empty. *)
Definition set_of m (nk : NsKey) : option (gset Bytes) :=
  match live m nk with Some (DSet s) => Some s | Some _ => None | None => Some ∅ end.

(** Membership in the union, intersection or difference of a list of sets. *)
Definition in_op op x (l : list (gset Bytes)) : Prop :=
  match op with
  | Union => Exists (fun s => x ∈ s) l
  | Inter => Forall (fun s => x ∈ s) l
  | Diff => match l with s :: l' => x ∈ s /\ Forall (fun s' => x ∉ s') l' | [] => False end
  end.

Lemma foldl_union a l : foldl (fun u x => u ∪ {[x]}) a l = a ∪ list_to_set l.
Proof. revert a. induction l as [|x l IH]; intros a; cbn; [set_solver|]. rewrite IH. set_solver. Qed.

Lemma foldl_diff a l : foldl (fun r x => r ∖ {[x]}) a l = a ∖ list_to_set l.
Proof. revert a. induction l as [|x l IH]; intros a; cbn; [set_solver|]. rewrite IH. set_solver. Qed.

Lemma foldl_inter a s l :
  foldl (fun r x => if bool_decide (x ∈ s) then r ∪ {[x]} else r) a l = a ∪ (list_to_set l ∩ s).
Proof.
  revert a. induction l as [|x l IH]; intros a; cbn; [set_solver|]. rewrite IH.
  case_bool_decide; set_solver.
Qed.

Lemma setop_step_spec op a s :
  setop_step op (Some a) s
  = match op with Union => a ∪ s | Inter => a ∩ s | Diff => a ∖ s end.
Proof.
  destruct op; cbn.
  - by rewrite foldl_union, list_to_set_elements_L.
  - rewrite foldl_inter, list_to_set_elements_L. set_solver.
  - by rewrite foldl_diff, list_to_set_elements_L.
Qed.

Lemma setop_fold_run ns op ks l m acc :
  Forall2 (fun k s => set_of m (ns, k) = Some s) ks l ->
  run (cmd_fold (fun acc k => '(s, _) ← read_set ns k; mret (Some (setop_step op acc s))) acc ks) m
  = (Ok (foldl (fun acc s => Some (setop_step op acc s)) acc l), m).
Proof.
  intros Hl. revert acc. induction Hl as [|k s ks l Hk Hl IH]; intros acc; cbn [cmd_fold foldl]; [done|].
  unfold set_of in Hk. run. destruct (live m (ns, k)) as [[]|]; simplify_eq; cbn; apply IH.
Qed.

Lemma setop_members op l acc x :
  x ∈ default ∅ (foldl (fun acc s => Some (setop_step op acc s)) acc l) <->
  match acc with
  | None => match l with [] => False | _ => in_op op x l end
  | Some a => in_op op x (a :: l)
  end.
Proof.
  revert acc. induction l as [|s l IH]; intros acc; cbn [foldl].
  - destruct acc as [a|]; cbn; [|set_solver].
    destruct op; cbn; rewrite ?Exists_cons, ?Exists_nil, ?Forall_cons, ?Forall_nil; tauto.
  - rewrite IH. destruct acc as [a|]; [|done]. rewrite setop_step_spec.
    destruct op; cbn; rewrite ?Exists_cons, ?Forall_cons; set_solver.
Qed.

Lemma sorted_members_elem s x : x ∈ sorted_members s <-> x ∈ s.
Proof. unfold sorted_members. by rewrite sort_keys_elem, elem_of_elements. Qed.
End Sets.

(** ** Sorted sets *)

Section Ranks.
Implicit Types (z : ZSet) (x : Bytes) (l : list ScoreEntry).

Lemma rank_of_sorted x l i j s :
  score_sorted l -> rank_of x l i = Some (j, s) ->
  (s, x) ∈ l /\ j = i + zlen (List.filter (fun it => entry_ltb it (s, x)) l).
Proof.
  intros Hs. revert i. induction Hs as [|[s' x'] l Hs IH Hall]; intros i; cbn; [done|].
  destruct (beq x' x) eqn:E.
  - apply beq_true in E as ->. intros [= <- <-]. split; [by left|]. rewrite entry_ltb_irrefl.
    assert (List.filter (fun it => entry_ltb it (s', x)) l = []) as ->.
    { clear -Hall. induction Hall as [|y l Hy _ IH]; [done|]. cbn.
      by rewrite (entry_ltb_asym _ _ Hy). }
    cbn. lia.
  - intros Hr. apply IH in Hr as [Hin ->]. split; [by right|].
    rewrite Forall_forall in Hall. rewrite (Hall _ Hin). cbn. lia.
Qed.

Lemma rank_of_None x l i : rank_of x l i = None <-> forall s, (s, x) ∉ l.
Proof.
  revert i. induction l as [|[s x'] l IH]; intros i; cbn.
  - split; [|done]. intros _ s. apply not_elem_of_nil.
  - destruct (beq x' x) eqn:E.
    + apply beq_true in E as ->. split; [done|]. intros H. destruct (H s). by left.
    + rewrite IH. split; intros H s'; [|intros Hin; by apply (H s'), list_elem_of_further].
      intros [[= -> ->]|Hin]%elem_of_cons; [by rewrite beq_refl in E|by apply (H s')].
Qed.
End Ranks.

(** ** Geohashes *)

Section Geo.
Implicit Types (a b v x y : Z).

(** The bit tricks distribute over disjunction, so they are determined by single bytes. *)
Definition lor_hom (f : Z -> Z) : Prop := forall a b, f (Z.lor a b) = Z.lor (f a) (f b).

Definition up (n m v : Z) : Z := Z.land (Z.lor v (Z.shiftl v n)) m.
Definition down (n m v : Z) : Z := Z.land (Z.lor v (Z.shiftr v n)) m.

Lemma lor_hom_land m : lor_hom (fun v => Z.land v m).
Proof. intros a b. apply Z.land_lor_distr_l. Qed.

Lemma lor_swap a b c d : Z.lor (Z.lor a b) (Z.lor c d) = Z.lor (Z.lor a c) (Z.lor b d).
Proof. rewrite <- !Z.lor_assoc. f_equal. rewrite !Z.lor_assoc. f_equal. apply Z.lor_comm. Qed.

Lemma lor_hom_up n m : lor_hom (up n m).
Proof. intros a b. unfold up. by rewrite Z.shiftl_lor, lor_swap, Z.land_lor_distr_l. Qed.
Lemma lor_hom_down n m : lor_hom (down n m).
Proof. intros a b. unfold down. by rewrite Z.shiftr_lor, lor_swap, Z.land_lor_distr_l. Qed.
Lemma lor_hom_comp f g : lor_hom f -> lor_hom g -> lor_hom (fun v => f (g v)).
Proof. intros Hf Hg a b. by rewrite Hg, Hf. Qed.

Lemma wrap_u32_land v : wrap_u32 v = Z.land v (Z.ones 32).
Proof. by rewrite Z.land_ones. Qed.
Lemma wrap_u64_land v : wrap_u64 v = Z.land v (Z.ones 64).
Proof. by rewrite Z.land_ones. Qed.

Lemma spread_hom : lor_hom spread.
Proof.
  change (lor_hom (fun v => up 1 0x5555555555555555 (up 2 0x3333333333333333
    (up 4 0x0F0F0F0F0F0F0F0F (up 8 0x00FF00FF00FF00FF (up 16 0x0000FFFF0000FFFF
    (Z.land v 0xFFFFFFFF))))))).
  do 5 (apply lor_hom_comp; [apply lor_hom_up|]). apply lor_hom_land.
Qed.

Lemma squash_hom : lor_hom squash.
Proof.
  intros a b. unfold squash. rewrite !wrap_u32_land. revert a b.
  change (lor_hom (fun v => Z.land (down 16 0x00000000FFFFFFFF (down 8 0x0000FFFF0000FFFF
    (down 4 0x00FF00FF00FF00FF (down 2 0x0F0F0F0F0F0F0F0F (down 1 0x3333333333333333
    (Z.land v 0x5555555555555555)))))) (Z.ones 32))).
  apply (lor_hom_comp (fun v => Z.land v _)); [apply lor_hom_land|].
  do 5 (apply lor_hom_comp; [apply lor_hom_down|]). apply lor_hom_land.
Qed.

(** A 32-bit word is the disjunction of its bytes. *)
Lemma u32_bytes v :
  0 <= v < 2 ^ 32 -> exists b0 b1 b2 b3,
    0 <= b0 < 256 /\ 0 <= b1 < 256 /\ 0 <= b2 < 256 /\ 0 <= b3 < 256 /\
    v = Z.lor (Z.lor b0 (Z.shiftl b1 8)) (Z.lor (Z.shiftl b2 16) (Z.shiftl b3 24)).
Proof.
  intros Hv. set (byte n := Z.land (Z.shiftr v n) (Z.ones 8)).
  assert (Hb : forall n, 0 <= byte n < 256).
  { intros n. unfold byte. rewrite Z.land_ones by lia. by apply Z.mod_pos_bound. }
  exists (byte 0), (byte 8), (byte 16), (byte 24). split_and!; try apply Hb.
  apply Z.bits_inj'. intros n Hn. rewrite !Z.lor_spec, !Z.shiftl_spec by lia. unfold byte.
  rewrite !Z.land_spec.
  assert (Hs : forall k, 0 <= k -> Z.testbit (Z.shiftr v k) (n - k) = (k <=? n) && Z.testbit v n).
  { intros k Hk. destruct (k <=? n) eqn:E; zbool.
    - rewrite Z.shiftr_spec by lia. by replace (n - k + k) with n by lia.
    - by rewrite Z.testbit_neg_r by lia. }
  rewrite Z.shiftr_0_r. rewrite !Hs by lia.
  destruct (Z.testbit v n) eqn:Ev; [|by rewrite !andb_false_r].
  assert (n < 32).
  { destruct (Z.lt_ge_cases n 32); [done|]. rewrite Z.bits_above_log2 in Ev; [done|lia|].
    destruct (decide (v = 0)) as [->|]; [cbn; lia|]. apply Z.log2_lt_pow2; [lia|].
    eapply Z.lt_le_trans; [apply Hv|]. apply Z.pow_le_mono_r; lia. }
  assert (Ho : forall k, Z.testbit (Z.ones 8) k = (0 <=? k) && (k <? 8)).
  { intros k. destruct (0 <=? k) eqn:E1; zbool; [|by apply Z.testbit_neg_r].
    destruct (k <? 8) eqn:E2; zbool; [by apply Z.ones_spec_low|by apply Z.ones_spec_high]. }
  rewrite !Ho. symmetry.
  destruct (Z.lt_ge_cases n 8); [|destruct (Z.lt_ge_cases n 16); [|destruct (Z.lt_ge_cases n 24)]].
  - by rewrite (zle_true 0 n), (zlt_true n 8) by lia.
  - rewrite (zle_true 8 n), (zle_true 0 (n - 8)), (zlt_true (n - 8) 8) by lia.
    cbn [andb]. by rewrite !orb_true_r.
  - rewrite (zle_true 16 n), (zle_true 0 (n - 16)), (zlt_true (n - 16) 8) by lia.
    cbn [andb]. by rewrite !orb_true_r.
  - rewrite (zle_true 24 n), (zle_true 0 (n - 24)), (zlt_true (n - 24) 8) by lia.
    cbn [andb]. by rewrite !orb_true_r.
Qed.

(** Identities between such functions follow from their values on shifted bytes. *)
Lemma lor_hom_ext f g :
  lor_hom f -> lor_hom g ->
  forallb (fun b => forallb (fun n => f (Z.shiftl b n) =? g (Z.shiftl b n)) [0; 8; 16; 24])
    (seqZ 0 256) = true ->
  forall v, 0 <= v < 2 ^ 32 -> f v = g v.
Proof.
  intros Hf Hg Hall v Hv. destruct (u32_bytes v Hv) as (b0 & b1 & b2 & b3 & H0 & H1 & H2 & H3 & ->).
  rewrite forallb_forall in Hall.
  assert (Hb : forall b n, 0 <= b < 256 -> n ∈ [0; 8; 16; 24] -> f (Z.shiftl b n) = g (Z.shiftl b n)).
  { intros b n Hb Hn. apply Z.eqb_eq. specialize (Hall b). rewrite forallb_forall in Hall.
    apply Hall; [|by apply list_elem_of_In]. apply list_elem_of_In, elem_of_seqZ. lia. }
  rewrite !Hf, !Hg. rewrite <- (Z.shiftl_0_r b0).
  rewrite !Hb; try done; set_solver.
Qed.

Lemma squash_spread v : 0 <= v < 2 ^ 32 -> squash (spread v) = v.
Proof.
  apply (lor_hom_ext (fun v => squash (spread v)) (fun v => v)); [|done|by vm_compute].
  apply lor_hom_comp; [apply squash_hom|apply spread_hom].
Qed.

Lemma squash_odd v : 0 <= v < 2 ^ 32 -> squash (wrap_u64 (Z.shiftl (spread v) 1)) = 0.
Proof.
  apply (lor_hom_ext (fun v => squash (wrap_u64 (Z.shiftl (spread v) 1))) (fun _ => 0));
    [|done|by vm_compute].
  intros a b. by rewrite spread_hom, Z.shiftl_lor, !wrap_u64_land, Z.land_lor_distr_l, squash_hom.
Qed.

Lemma squash_even v : 0 <= v < 2 ^ 32 -> squash (Z.shiftr (spread v) 1) = 0.
Proof.
  apply (lor_hom_ext (fun v => squash (Z.shiftr (spread v) 1)) (fun _ => 0)); [|done|by vm_compute].
  intros a b. by rewrite spread_hom, Z.shiftr_lor, squash_hom.
Qed.

Lemma squash_back v :
  0 <= v < 2 ^ 32 -> squash (Z.shiftr (wrap_u64 (Z.shiftl (spread v) 1)) 1) = v.
Proof.
  apply (lor_hom_ext (fun v => squash (Z.shiftr (wrap_u64 (Z.shiftl (spread v) 1)) 1)) (fun v => v));
    [|done|by vm_compute].
  intros a b. by rewrite spread_hom, Z.shiftl_lor, !wrap_u64_land, Z.land_lor_distr_l,
    Z.shiftr_lor, squash_hom.
Qed.
End Geo.
