(* ===== verification/KeyFacts.v ===== *)
(** * Properties that move keys and elements

    Streams under trimming, elements moved between lists, whole databases exchanged. *)

From S2P Require Import Prelude Util Resp Mvcc ZSet Engine Model Run WellFormed.
From S2P Require Import CmdString CmdHashList CmdStream.

(** ** Trimming keeps the newest entries *)

Section Streams.
Implicit Types (x : XStream) (i j : StreamId).

Lemma sid_leb_trans i j k : sid_leb i j = true -> sid_leb j k = true -> sid_leb i k = true.
Proof. rewrite !sid_leb_spec. lia. Qed.

#[export] Instance sid_le_trans : Transitive sid_le.
Proof. intros [a ?] [b ?] [c ?]. unfold sid_le. cbn. apply sid_leb_trans. Qed.
#[export] Instance sid_le_total : Total sid_le.
Proof. intros [a ?] [b ?]. unfold sid_le. cbn. rewrite !sid_leb_spec. lia. Qed.

Lemma sid_leb_ltb i j : sid_leb i j = true -> i <> j -> sid_ltb i j = true.
Proof.
  rewrite sid_leb_spec, sid_ltb_spec. intros H Hne.
  destruct (decide (ms i = ms j /\ seq_no i = seq_no j)) as [[? ?]|]; [|lia].
  destruct Hne. destruct i, j. cbn in *. congruence.
Qed.

(** The first binding of a sorted stream is the least one. *)
Lemma sorted_stream_head m i f l :
  sorted_stream m = (i, f) :: l ->
  m !! i = Some f /\ forall j, is_Some (m !! j) -> sid_leb i j = true.
Proof.
  intros E. assert (Hp : (i, f) :: l ≡ₚ map_to_list m).
  { rewrite <- E. apply merge_sort_Permutation. }
  split.
  - apply elem_of_map_to_list. rewrite <- Hp. by left.
  - intros j [g Hg]. apply elem_of_map_to_list in Hg. rewrite <- Hp in Hg.
    pose proof (StronglySorted_merge_sort sid_le (map_to_list m)) as Hs.
    unfold sorted_stream in E. rewrite E in Hs. apply StronglySorted_inv in Hs as [_ Hs].
    apply elem_of_cons in Hg as [[= -> ->]|Hg]; [apply sid_leb_refl|].
    rewrite Forall_forall in Hs. apply (Hs _ Hg).
Qed.

Lemma sorted_stream_nil m : sorted_stream m = [] -> m = ∅.
Proof.
  intros E. apply map_to_list_empty_iff, Permutation_nil_r.
  rewrite <- E. symmetry. apply merge_sort_Permutation.
Qed.

(** [y] is [x] without some of its least entries. *)
Definition drops_oldest x y : Prop :=
  (forall i f, entries y !! i = Some f -> entries x !! i = Some f) /\
  (forall i j, is_Some (entries x !! i) -> entries y !! i = None -> is_Some (entries y !! j) ->
    sid_ltb i j = true) /\
  last_id y = last_id x.

Lemma drops_oldest_refl x : drops_oldest x x.
Proof. split_and!; [done| |done]. intros i j [f Hf] Hn. congruence. Qed.

Lemma drops_oldest_step x y i f l :
  sorted_stream (entries x) = (i, f) :: l -> drops_oldest (drop_entry i x) y -> drops_oldest x y.
Proof.
  intros E (Hsub & Hlt & Hl). apply sorted_stream_head in E as [Hi Hmin].
  cbn in *. split_and!; [| |done].
  - intros j g Hj. apply Hsub, lookup_delete_Some in Hj as [_ Hj]. done.
  - intros a b Ha Hna Hb. destruct (decide (a = i)) as [->|Hne].
    + destruct Hb as [g Hb]. apply Hsub, lookup_delete_Some in Hb as [Hne Hb].
      apply sid_leb_ltb; [apply Hmin; by eexists|done].
    + apply Hlt; [by rewrite lookup_delete_ne|done|done].
Qed.

Lemma trim_to_maxlen_loop_spec fuel n x :
  (size (entries x) <= fuel)%nat -> 0 <= n ->
  drops_oldest x (trim_to_maxlen_loop fuel n x) /\
  Z.of_nat (size (entries (trim_to_maxlen_loop fuel n x))) = Z.min n (Z.of_nat (size (entries x))).
Proof.
  revert x. induction fuel as [|fuel IH]; intros x Hf Hn; cbn.
  - split; [apply drops_oldest_refl|]. lia.
  - destruct (n <? Z.of_nat (size (entries x))) eqn:E; zbool;
      [|split; [apply drops_oldest_refl|lia]].
    destruct (sorted_stream (entries x)) as [|[i f] l] eqn:Es.
    + apply sorted_stream_nil in Es. rewrite Es, map_size_empty in E. lia.
    + pose proof (sorted_stream_head _ _ _ _ Es) as [Hi _].
      assert (Hsz : size (entries (drop_entry i x)) = pred (size (entries x))).
      { cbn. by rewrite map_size_delete, Hi. }
      assert (size (entries x) <> 0)%nat.
      { intros H0. apply map_size_empty_iff in H0. by rewrite H0 in Hi. }
      destruct (IH (drop_entry i x)) as [Hd He]; [lia|done|].
      split; [by eapply drops_oldest_step|]. rewrite He, Hsz. lia.
Qed.
End Streams.

(** ** Moving an element between lists *)

Section Moves.
Implicit Types (m : Model) (ns : Z) (k : Bytes) (l : list Bytes).

(** The list a key holds: absent is empty. *)
Definition list_of m (nk : NsKey) : option (list Bytes) :=
  match live m nk with Some (DList l) => Some l | Some _ => None | None => Some [] end.

Lemma pop_end_perm left l v r : pop_end left l = Some (v, r) -> v :: r ≡ₚ l.
Proof.
  destruct left; cbn.
  - destruct l; [done|]. intros [= -> ->]. done.
  - unfold pop_back. destruct (last l) as [u|] eqn:E; [|done]. cbn. intros [= -> <-].
    apply last_Some in E as [l' ->]. rewrite length_app. cbn.
    replace (length l' + 1 - 1)%nat with (length l') by lia. rewrite take_app_length.
    by rewrite Permutation_app_comm.
Qed.

Lemma push_end_perm left v l : push_end left v l ≡ₚ v :: l.
Proof. destruct left; cbn; [done|]. unfold push_back. by rewrite Permutation_app_comm. Qed.

Lemma list_of_store m nk l e nk' :
  is_expired e (m_now m) = false ->
  list_of (if coll_empty (DList l) then del_key m nk else set_key m nk (DList l) e) nk'
  = if decide (nk = nk') then Some l else list_of m nk'.
Proof.
  intros He. unfold list_of. destruct (coll_empty (DList l)) eqn:E.
  - apply bool_decide_eq_true in E as ->. rewrite live_del. by case_decide.
  - rewrite live_set by done. by case_decide.
Qed.

Lemma store_now m nk d e :
  m_now (if coll_empty d then del_key m nk else set_key m nk d e) = m_now m.
Proof. by destruct (coll_empty d). Qed.

(** What the first half of LMOVE leaves: the source without the element. *)
Lemma do_lmove_other ns src dst fl tl l v r m :
  src <> dst -> list_of m (ns, src) = Some l -> pop_end fl l = Some (v, r) ->
  exists m1, (forall nk, list_of m1 nk = if decide ((ns, src) = nk) then Some r else list_of m nk) /\
    run (do_lmove ns src dst fl tl) m =
      match list_of m (ns, dst) with
      | Some l2 => (Ok (Bulk v), set_key m1 (ns, dst) (DList (push_end tl v l2))
                       (match live m (ns, dst) with Some _ => model_expiry m1 (ns, dst) | None => None end))
      | None => (Err (Return wrong_type), m1)
      end.
Proof.
  intros Hne Hl Hp. unfold list_of in Hl.
  set (e := match live m (ns, src) with Some _ => model_expiry m (ns, src) | None => None end).
  assert (He : is_expired e (m_now m) = false).
  { unfold e. destruct (live m (ns, src)); [apply expiry_ahead|done]. }
  exists (if coll_empty (DList r) then del_key m (ns, src) else set_key m (ns, src) (DList r) e).
  split; [intros nk; by apply list_of_store|]. unfold do_lmove. run.
  assert (Hb : beq src dst = false) by (by apply bool_decide_eq_false).
  assert (Hlive : live (if coll_empty (DList r) then del_key m (ns, src)
                        else set_key m (ns, src) (DList r) e) (ns, dst) = live m (ns, dst)).
  { destruct (coll_empty _); rewrite ?live_del, ?live_set by done; by rewrite decide_False by congruence. }
  unfold e in *. unfold list_of.
  destruct (live m (ns, src)) as [[| |l0| | | |]|]; simplify_eq; [|by destruct fl].
  run. rewrite Hp. run. rewrite Hb. run. rewrite Hlive. destruct (live m (ns, dst)) as [[]|]; by run.
Qed.

Lemma do_lmove_same ns k fl tl l v r m :
  list_of m (ns, k) = Some l -> pop_end fl l = Some (v, r) ->
  exists m', run (do_lmove ns k k fl tl) m = (Ok (Bulk v), m') /\
    forall nk, list_of m' nk = if decide ((ns, k) = nk) then Some (push_end tl v r) else list_of m nk.
Proof.
  intros Hl Hp. unfold list_of in Hl. unfold do_lmove. run. rewrite beq_refl.
  destruct (live m (ns, k)) as [[| |l0| | | |]|]; simplify_eq; [|by destruct fl].
  run. rewrite Hp. run. eexists. split; [reflexivity|]. intros nk. unfold list_of.
  rewrite live_set by apply expiry_ahead. by case_decide.
Qed.
End Moves.

(** ** Exchanging databases *)

Section Swap.
Implicit Types (m : Model) (a b : Z) (k : Bytes).

(** The binding SWAPDB reads: an unexpired value with its expiry. *)
Definition binding m (nk : NsKey) : option (Datum * option Z) :=
  d ← live m nk; Some (d, model_expiry m nk).

Lemma foldl_omap {A B} (g : A -> option B) l acc :
  foldl (fun acc x => acc ++ match g x with Some y => [y] | None => [] end) acc l
  = acc ++ omap g l.
Proof.
  revert acc. induction l as [|x l IH]; intros acc; cbn; [by rewrite app_nil_r|].
  rewrite IH. destruct (g x); cbn; by rewrite ?app_nil_r, <- ?app_assoc.
Qed.

Lemma read_all_run ns l m :
  run (read_all ns l) m
  = (Ok (omap (fun k => de ← binding m (ns, k); Some (k, de.1, de.2)) l), m).
Proof.
  unfold read_all. rewrite (run_fold_read _ (fun acc k => acc ++
    match de ← binding m (ns, k); Some (k, de.1, de.2) with Some y => [y] | None => [] end)).
  - f_equal. f_equal. by rewrite foldl_omap.
  - intros acc k. unfold binding. run. destruct (live m (ns, k)); run; cbn; by rewrite ?app_nil_r.
Qed.

Lemma del_all_run ns l m :
  run (del_all ns l) m = (Ok tt, foldl (fun m k => del_key m (ns, k)) m l).
Proof. unfold del_all. apply run_iter. intros k m'. by run. Qed.

Lemma put_all_run ns l m :
  run (put_all ns l) m
  = (Ok tt, foldl (fun m kde => set_key m (ns, kde.1.1) kde.1.2 kde.2) m l).
Proof. unfold put_all. apply run_iter. intros k m'. by run. Qed.

Lemma dels_data ns l m nk :
  m_data (foldl (fun m k => del_key m (ns, k)) m l) !! nk
  = if decide (nk.1 = ns /\ nk.2 ∈ l) then None else m_data m !! nk.
Proof.
  revert m. induction l as [|k l IH]; intros m; cbn.
  - rewrite decide_False; [done|]. rewrite elem_of_nil. tauto.
  - rewrite IH. destruct nk as [n k']. cbn. rewrite lookup_delete.
    repeat case_decide; try done; simplify_eq/=; rewrite elem_of_cons in *; naive_solver.
Qed.

Lemma puts_data ns l m nk :
  NoDup (l.*1.*1) ->
  m_data (foldl (fun m kde => set_key m (ns, kde.1.1) kde.1.2 kde.2) m l) !! nk
  = if decide (nk.1 = ns /\ nk.2 ∈ l.*1.*1)
    then (list_to_map ((fun kde => (kde.1.1, (kde.1.2, kde.2))) <$> l) : gmap Bytes _) !! nk.2
    else m_data m !! nk.
Proof.
  revert m. induction l as [|[[k d] e] l IH]; intros m Hnd; cbn in *.
  - rewrite decide_False; [done|]. rewrite elem_of_nil. tauto.
  - apply NoDup_cons in Hnd as [Hk Hnd]. rewrite IH by done. destruct nk as [n k']. cbn.
    rewrite !lookup_insert.
    repeat case_decide; try done; simplify_eq/=; rewrite ?elem_of_cons in *; naive_solver.
Qed.

Lemma same_now_dels ns l m : m_now (foldl (fun m k => del_key m (ns, k)) m l) = m_now m.
Proof. revert m. induction l as [|k l IH]; intros m; cbn; [done|]. by rewrite IH. Qed.
Lemma same_now_puts ns l m :
  m_now (foldl (fun m kde => set_key m (ns, kde.1.1) kde.1.2 kde.2) m l) = m_now m.
Proof. revert m. induction l as [|k l IH]; intros m; cbn; [done|]. by rewrite IH. Qed.

Lemma binding_unexpired m nk : binding m nk = unexpired (m_now m) (m_data m !! nk).
Proof.
  unfold binding, live, model_expiry. destruct (m_data m !! nk) as [[d e]|]; [|done]. cbn.
  destruct (is_expired e (m_now m)) eqn:E; [done|]. cbn. destruct e as [e|]; [|done]. cbn in E. zbool.
  by rewrite zlt_true.
Qed.

(** What SWAPDB reads of a database, by key. *)
Definition bindings m (ns : Z) : list (Bytes * Datum * option Z) :=
  omap (fun k => de ← binding m (ns, k); Some (k, de.1, de.2)) (model_keys m ns).

Lemma model_keys_in m ns k : k ∈ model_keys m ns <-> is_Some (m_data m !! (ns, k)).
Proof. unfold model_keys. by rewrite sort_keys_elem, model_keys_elem. Qed.

Lemma bindings_elem m ns k d e : (k, d, e) ∈ bindings m ns <-> binding m (ns, k) = Some (d, e).
Proof.
  unfold bindings. rewrite list_elem_of_omap. split.
  - intros (k' & _ & Hb). destruct (binding m (ns, k')) as [[d' e']|] eqn:E; [|done]. cbn in Hb.
    by simplify_eq.
  - intros Hb. exists k. rewrite Hb. split; [|done]. apply model_keys_in.
    rewrite binding_unexpired in Hb. destruct (m_data m !! (ns, k)); [done|done].
Qed.

Lemma bindings_nodup m ns : NoDup ((bindings m ns).*1.*1).
Proof.
  unfold bindings.
  assert (Hnd : NoDup (model_keys m ns)).
  { unfold model_keys, sort_keys. rewrite merge_sort_Permutation. apply model_keys_nodup. }
  induction Hnd as [|k l Hk Hnd IH]; cbn; [constructor|].
  destruct (binding m (ns, k)) as [[d e]|]; cbn; [|done]. constructor; [|done].
  intros Hin. apply Hk. apply list_elem_of_fmap in Hin as ([k' d'] & -> & Hin). cbn in *.
  apply list_elem_of_fmap in Hin as ([[k1 d1] e1] & [= -> ->] & Hin).
  apply list_elem_of_omap in Hin as (k2 & Hk2 & Hb). by destruct (binding m (ns, k2)); simplify_eq/=.
Qed.

Lemma bindings_map m ns k :
  (list_to_map ((fun kde => (kde.1.1, (kde.1.2, kde.2))) <$> bindings m ns) : gmap Bytes _) !! k
  = binding m (ns, k).
Proof.
  set (l := (fun kde : Bytes * Datum * option Z => (kde.1.1, (kde.1.2, kde.2))) <$> bindings m ns).
  assert (Hnd : NoDup l.*1).
  { unfold l. rewrite <- list_fmap_compose. pose proof (bindings_nodup m ns) as Hb.
    by rewrite <- list_fmap_compose in Hb. }
  assert (Hel : forall d e, (k, (d, e)) ∈ l <-> binding m (ns, k) = Some (d, e)).
  { intros d e. rewrite <- bindings_elem. unfold l. rewrite list_elem_of_fmap. split.
    - intros ([[k' d'] e'] & ? & Hin). by simplify_eq/=.
    - intros Hin. by exists (k, d, e). }
  destruct (binding m (ns, k)) as [[d e]|] eqn:E.
  - apply elem_of_list_to_map_1; [done|]. by apply Hel.
  - apply not_elem_of_list_to_map_1. intros ([k' [d e]] & -> & Hin)%list_elem_of_fmap.
    cbn in *. apply Hel in Hin. congruence.
Qed.

Lemma bindings_keys m ns k : k ∈ (bindings m ns).*1.*1 <-> is_Some (binding m (ns, k)).
Proof.
  rewrite list_elem_of_fmap. split.
  - intros ([k' d] & -> & Hin). apply list_elem_of_fmap in Hin as ([[k1 d1] e1] & [= -> ->] & Hin).
    apply bindings_elem in Hin. by eexists.
  - intros [[d e] Hb]. exists (k, d). split; [done|]. apply list_elem_of_fmap.
    exists (k, d, e). split; [done|]. by apply bindings_elem.
Qed.

(** The map after both databases were cleared and refilled. *)
Definition swapped m a b : Model :=
  foldl (fun m kde => set_key m (a, kde.1.1) kde.1.2 kde.2)
    (foldl (fun m kde => set_key m (b, kde.1.1) kde.1.2 kde.2)
      (foldl (fun m k => del_key m (b, k))
        (foldl (fun m k => del_key m (a, k)) m (model_keys m a)) (model_keys m b))
      (bindings m a)) (bindings m b).

Lemma swapped_data m a b nk :
  a <> b ->
  m_data (swapped m a b) !! nk =
    if decide (nk.1 = a) then binding m (b, nk.2)
    else if decide (nk.1 = b) then binding m (a, nk.2) else m_data m !! nk.
Proof.
  intros Hab. destruct nk as [n k]. unfold swapped. cbn [fst snd].
  rewrite !puts_data, !dels_data by apply bindings_nodup. cbn [fst snd].
  rewrite !bindings_map.
  assert (Hnone : forall ns, k ∉ (bindings m ns).*1.*1 -> binding m (ns, k) = None).
  { intros ns Hk. apply eq_None_not_Some. by rewrite <- bindings_keys. }
  assert (Habs : forall ns, k ∉ model_keys m ns -> m_data m !! (ns, k) = None).
  { intros ns Hk. apply eq_None_not_Some. by rewrite <- model_keys_in. }
  destruct (decide (n = a)) as [->|Ha].
  - destruct (decide (k ∈ (bindings m b).*1.*1)) as [Hk|Hk]; [by rewrite decide_True|].
    rewrite Hnone by done. rewrite !decide_False by tauto.
    case_decide; [done|]. apply Habs. tauto.
  - rewrite (decide_False (P := n = a /\ k ∈ (bindings m b).*1.*1)) by tauto.
    destruct (decide (n = b)) as [->|Hb].
    + destruct (decide (k ∈ (bindings m a).*1.*1)) as [Hk|Hk]; [by rewrite decide_True|].
      rewrite Hnone by done. rewrite decide_False by tauto.
      case_decide; [done|]. rewrite decide_False by tauto. apply Habs. tauto.
    + by rewrite !decide_False by tauto.
Qed.
End Swap.

#[export] Hint Rewrite read_all_run del_all_run put_all_run : run.
