(* ===== verification/CmdProps.v ===== *)
(** * What the commands do

    The functional properties of the command families, each on the plain map of unexpired
    values that [Serving.command_refines_model] relates to the store. *)

From S2P Require Import Prelude Util Resp Mvcc ZSet Engine Model Run WellFormed.
From S2P Require Import CmdString CmdHashList CmdSet CmdZSet CmdStream CmdGeo.
From S2P Require Import CmdFacts KeyFacts.

(** A pipeline of INCRBY counts exactly: every reply is the running sum, the key holds the
    total, and the increment that would leave the 64-bit range is refused without touching
    anything. *)
Theorem incrby_counts l ns k c m :
  counter m (ns, k) = Some c -> Forall is_i64 l -> Forall is_i64 (sums c l) ->
  let '(rs, m') := run_all (map (fun d => incr_by ns [k; dec d] 1 false) l) m in
  let total := foldl Z.add c l in
  rs = map (fun s => Some (Int s)) (sums c l) /\ counter m' (ns, k) = Some total /\
  forall d, is_i64 d -> ~ is_i64 (total + d) ->
    run (incr_by ns [k; dec d] 1 false) m' = (Some not_int, m').
Proof.
  revert c m. induction l as [|d l IH]; intros c m Hc Hl Hs;
    cbn [map run_all sums foldl] in *.
  - split_and!; [done..|]. intros d Hd Ho. by eapply incr_overflow.
  - apply Forall_cons in Hl as [Hd Hl]. apply Forall_cons in Hs as [Hcd Hs].
    destruct (incr_step ns k c d m Hd Hcd Hc) as (m1 & -> & Hm1).
    specialize (IH _ _ Hm1 Hl Hs). destruct (run_all _ m1) as [rs m2].
    destruct IH as (-> & Ht & Ho). done.
Qed.

(** SETBIT replies the old bit and afterwards GETBIT answers the new bit at that
    position and what it answered before at every other, also beyond the old end. *)
Theorem setbit_getbit ns k p bit v m :
  0 <= p < 4294967296 -> bit = 0 \/ bit = 1 -> text m (ns, k) = Some v ->
  exists m', run (setbit ns [k; dec p; dec bit]) m = (Some (Int (bit_of v p)), m') /\
    forall q, is_i64 q -> 0 <= q ->
      run (getbit ns [k; dec q]) m'
      = (if decide (q = p) then Some (Int bit) else fst (run (getbit ns [k; dec q]) m), m').
Proof.
  intros Hp Hb Hv. destruct (setbit_run ns k p bit v m Hp Hb Hv) as (e & He & Hr).
  eexists. split; [exact Hr|]. intros q Hi Hq.
  rewrite (getbit_run ns k q v m) by done.
  rewrite (getbit_run ns k q (with_bit v p bit)); [|done|done|].
  - rewrite bit_of_with_bit by (done || lia). by case_decide.
  - unfold text. rewrite live_set by done. by rewrite decide_True.
Qed.

(** Following a scan cursor from zero until it is zero again shows every item of an
    unchanged collection exactly once, in order, within one call per item. *)
Theorem scan_covers {A} (items : list A) (count : Z) :
  0 < count ->
  fst (scan_all (S (length items)) items 0 count) = items /\
  (snd (scan_all (S (length items)) items 0 count) <= S (length items))%nat.
Proof.
  intros Hc. destruct items as [|a items]; [done|].
  destruct (scan_all_from (a :: items) count (S (length (a :: items))) 0) as [H1 H2];
    [done|cbn; lia|cbn; lia|]. change (Z.of_nat 0) with 0 in *.
  rewrite drop_0 in H1. split; [done|]. cbn in *. lia.
Qed.

(** SPOP with a count replies distinct members of the set, as many as asked for or as
    there are, and leaves exactly the others. *)
Theorem spop_takes_members ns k n s m :
  is_i64 n -> 0 <= n -> set_of m (ns, k) = Some s -> s <> ∅ ->
  exists popped m', run (spop ns [k; dec n]) m = (Some (SetReply (map Bulk popped)), m') /\
    NoDup popped /\ zlen popped = Z.min n (Z.of_nat (size s)) /\
    (forall x, x ∈ popped -> x ∈ s) /\
    set_of m' (ns, k) = Some (s ∖ list_to_set popped).
Proof.
  intros Hi Hn Hs Hne. unfold set_of in Hs. unfold spop, pop_count. run.
  change ([k; dec n] !! 1%nat) with (Some (dec n)). rewrite bool_decide_eq_false_2 by done.
  run. rewrite parse_i64_dec by done. cbn [filter_opt]. rewrite zle_true by done. run.
  destruct (live m (ns, k)) as [[| | |s0| | |]|] eqn:El; simplify_eq; run.
  rewrite bool_decide_eq_false_2 by done. run. cbn [default].
  set (pool := sorted_members s). set (rng := rng_seeded _).
  assert (Hlen : length pool = size s).
  { unfold pool, sorted_members, sort_keys. by rewrite merge_sort_Permutation. }
  destruct (draw_distinct _ pool rng) as [[popped rest] g] eqn:Ed. cbn [fst snd].
  apply draw_distinct_perm in Ed as [Hp Hl]; [|lia].
  assert (Hnd : NoDup (popped ++ rest)).
  { rewrite Hp. unfold pool, sorted_members, sort_keys. rewrite merge_sort_Permutation.
    apply NoDup_elements. }
  eexists popped, _. split; [reflexivity|]. split_and!.
  - by apply NoDup_app in Hnd as [? _].
  - rewrite Hl. change (id n) with n. lia.
  - intros x Hx. apply sorted_members_elem. fold pool. rewrite <- Hp. apply elem_of_app. by left.
  - rewrite foldl_diff. set (s' := s ∖ _). unfold set_of.
    destruct (coll_empty (DSet s')) eqn:E.
    + apply bool_decide_eq_true in E as ->. by rewrite live_del, decide_True.
    + rewrite live_set by apply expiry_ahead. by rewrite decide_True.
Qed.

(** LREM with a positive count removes the first occurrences, with a negative count the
    last, with zero all, never more than asked for and never anything else; the reply is the
    number removed. *)
Theorem lrem_removes ns k n t l m :
  is_i64 n -> list_of m (ns, k) = Some l ->
  exists l1 l2 r m', run (lrem ns [k; dec n; t]) m = (Some (Int r), m') /\
    r = occurs t l1 /\ (n <> 0 -> r <= Z.abs n) /\ (l2 = [] \/ r = Z.abs n) /\
    (n = 0 -> l2 = []) /\
    if decide (0 <= n)
    then l = l1 ++ l2 /\ list_of m' (ns, k) = Some (without t l1 ++ l2)
    else l = l2 ++ l1 /\ list_of m' (ns, k) = Some (l2 ++ without t l1).
Proof.
  intros Hi Hl. destruct (lrem_list n t l) as [kp r] eqn:Er.
  destruct (lrem_list_spec n t l kp r Er) as (l1 & l2 & H1 & H2 & H3 & H4 & H5).
  exists l1, l2, r. unfold lrem. run. rewrite parse_i64_dec by done. run. unfold list_of in Hl.
  set (e := match live m (ns, k) with Some _ => model_expiry m (ns, k) | None => None end).
  assert (He : is_expired e (m_now m) = false).
  { unfold e. destruct (live m (ns, k)); [apply expiry_ahead|done]. }
  exists (if coll_empty (DList kp) then del_key m (ns, k) else set_key m (ns, k) (DList kp) e).
  rewrite list_of_store by done. rewrite (decide_True (P := (ns, k) = (ns, k))) by done.
  split; [|split_and!; try done].
  - unfold e in *. destruct (live m (ns, k)) as [[| |l0| | | |]|]; simplify_eq; run; rewrite Er; by run.
  - case_decide; destruct H5 as [-> ->]; done.
Qed.

(** SUNION, SINTER and SDIFF reply exactly the members of the union, the intersection and
    the difference of the sets at the keys, in byte order. *)
Theorem setop_replies ns op ks l m :
  ks <> [] -> Forall2 (fun k s => set_of m (ns, k) = Some s) ks l ->
  exists members, run (setop ns ks op false) m = (Some (SetReply (map Bulk members)), m) /\
    (forall x, x ∈ members <-> in_op op x l) /\ NoDup members /\ Sorted bytes_le members.
Proof.
  intros Hne Hl. unfold setop. run.
  assert (Hz : (zlen ks <? 1) = false) by (apply zlt_false; destruct ks; [done|cbn; lia]).
  rewrite Hz. unfold setop_fold. run. rewrite (setop_fold_run ns op ks l m None Hl). run.
  set (res := default ∅ _). exists (sorted_members res). split; [done|]. split_and!.
  - intros x. rewrite sorted_members_elem. unfold res. rewrite setop_members.
    destruct l; [by inversion Hl; subst|done].
  - unfold sorted_members, sort_keys. rewrite merge_sort_Permutation. apply NoDup_elements.
  - apply (Sorted_merge_sort _).
Qed.

(** ZRANK replies the number of entries strictly before the member's, by score and then
    by member bytes, and the null reply exactly for non-members. *)
Theorem zrank_counts_before ns k x z m :
  live m (ns, k) = Some (DZSet z) -> zset_ok z ->
  run (zrank ns [k; x] false) m =
    (Some match zset_score z x with
          | Some s => Int (zlen (List.filter (fun it => entry_ltb it (s, x)) (by_score z)))
          | None => Null
          end, m).
Proof.
  intros Hl [Hs Hi]. unfold zrank, read_zset, zset_score. run. rewrite Hl. run.
  destruct (rank_of x (ordered z) 0) as [[j s]|] eqn:E; run.
  - apply rank_of_sorted in E as [Hin ->]; [|done]. apply Hi in Hin. by rewrite Hin.
  - apply (rank_of_None x (ordered z) 0) in E || rewrite rank_of_None in E.
    destruct (by_member z !! x) as [s|] eqn:Eb; [|done]. apply Hi in Eb. by apply E in Eb.
Qed.

(** Interleaving two 32-bit coordinates and separating them again gives them back. *)
Theorem deinterleave_interleave x y :
  0 <= x < 2 ^ 32 -> 0 <= y < 2 ^ 32 -> deinterleave64 (interleave64 x y) = (x, y).
Proof.
  intros Hx Hy. unfold deinterleave64, interleave64. rewrite Z.shiftr_lor, !squash_hom.
  by rewrite squash_spread, squash_odd, squash_even, squash_back, Z.lor_0_r by done.
Qed.

(** Trimming a stream to a length keeps that many entries, or all of them, with their
    fields; every entry removed is older than every entry kept, and the top item stays. *)
Theorem trim_keeps_newest x n :
  0 <= n ->
  Z.of_nat (size (entries (trim_to_maxlen n x))) = Z.min n (Z.of_nat (size (entries x))) /\
  drops_oldest x (trim_to_maxlen n x).
Proof. intros Hn. by destruct (trim_to_maxlen_loop_spec (size (entries x)) n x). Qed.

(** LMOVE neither creates nor destroys elements: when both keys hold lists, the reply is
    the element taken from the requested end, and the two lists together, or the one list
    rotated onto itself, hold what they held. *)
Theorem lmove_conserves ns src dst fl tl l1 l2 v r m :
  list_of m (ns, src) = Some l1 -> list_of m (ns, dst) = Some l2 ->
  pop_end fl l1 = Some (v, r) ->
  exists m', run (reply (do_lmove ns src dst fl tl)) m = (Some (Bulk v), m') /\
    (forall k, k <> src -> k <> dst -> list_of m' (ns, k) = list_of m (ns, k)) /\
    exists l1' l2', list_of m' (ns, src) = Some l1' /\ list_of m' (ns, dst) = Some l2' /\
      if decide (src = dst) then l1' = push_end tl v r /\ l1' ≡ₚ l1
      else l1' = r /\ l2' = push_end tl v l2 /\ l1' ++ l2' ≡ₚ l1 ++ l2.
Proof.
  intros H1 H2 Hp. rewrite run_reply. pose proof (pop_end_perm _ _ _ _ Hp) as Hperm.
  destruct (decide (src = dst)) as [->|Hne].
  - destruct (do_lmove_same ns dst fl tl l1 v r m H1 Hp) as (m' & -> & Hm').
    exists m'. split; [done|]. split.
    + intros k Hk _. rewrite Hm', decide_False; [done|congruence].
    + exists (push_end tl v r), (push_end tl v r). rewrite Hm', decide_True by done.
      split_and!; [done..|]. by rewrite push_end_perm.
  - destruct (do_lmove_other ns src dst fl tl l1 v r m Hne H1 Hp) as (m1 & Hm1 & ->).
    rewrite H2. cbn [fst snd].
    set (e := match live m (ns, dst) with Some _ => _ | None => _ end).
    assert (He : is_expired e (m_now m1) = false).
    { unfold e. destruct (live m (ns, dst)); [apply expiry_ahead|done]. }
    assert (Hset : forall nk, list_of (set_key m1 (ns, dst) (DList (push_end tl v l2)) e) nk =
      if decide ((ns, dst) = nk) then Some (push_end tl v l2) else list_of m1 nk).
    { intros nk. unfold list_of. rewrite live_set by done. by case_decide. }
    eexists. split; [reflexivity|]. split.
    + intros k Hk1 Hk2. rewrite Hset, Hm1. by rewrite !decide_False by congruence.
    + exists r, (push_end tl v l2). rewrite !Hset, !Hm1. rewrite !(decide_False (P := (_, _) = (_, _))) by congruence.
      rewrite !decide_True by done. split_and!; [done..|]. rewrite push_end_perm, <- Hperm. cbn. by rewrite <- Permutation_middle.
Qed.

(** LMOVE checks the type of the destination only after it has stored the shortened
    source: when the destination holds another type, the client gets WRONGTYPE and the
    element is gone. *)
Theorem lmove_wrong_type_loses ns src dst fl tl l v r m :
  src <> dst -> list_of m (ns, src) = Some l -> pop_end fl l = Some (v, r) ->
  list_of m (ns, dst) = None ->
  exists m', run (reply (do_lmove ns src dst fl tl)) m = (Some wrong_type, m') /\
    forall nk, list_of m' nk = if decide ((ns, src) = nk) then Some r else list_of m nk.
Proof.
  intros Hne H1 Hp H2. rewrite run_reply.
  destruct (do_lmove_other ns src dst fl tl l v r m Hne H1 Hp) as (m1 & Hm1 & ->). rewrite H2.
  by exists m1.
Qed.

(** SWAPDB exchanges the two databases: every unexpired binding, value and expiry, is
    afterwards in the other one, and the remaining databases are untouched. *)
Theorem swapdb_exchanges a b m :
  0 <= a < 16 -> 0 <= b < 16 ->
  exists m', run (swapdb [dec a; dec b]) m = (Some ok, m') /\
    forall n k, unexpired (m_now m) (m_data m' !! (n, k)) =
      unexpired (m_now m) (m_data m !! (if decide (n = a) then b else if decide (n = b) then a else n, k)).
Proof.
  intros Ha Hb. unfold swapdb. run.
  rewrite !parse_i64_dec by (unfold is_i64, I64_MIN, I64_MAX; lia). run.
  rewrite !zle_true, !zlt_true by lia. run. destruct (a =? b) eqn:E; zbool; run.
  - subst. exists m. split; [done|]. intros n k. case_decide; [by subst|]. done.
  - exists (swapped m a b). split; [reflexivity|]. intros n k. rewrite swapped_data by done. cbn [fst snd].
    rewrite !binding_unexpired. repeat case_decide; subst; by rewrite ?unexpired_idem.
Qed.

(** ** Witnesses *)

(** A database with one key of each kind used below. *)
Definition demo_set : gset Bytes := {[bs "x"; bs "y"]}.
Definition demo_zset : ZSet :=
  snd (zset_insert (bs "p") f64_one (snd (zset_insert (bs "q") f64_zero zset_default))).
Definition demo_model : Model :=
  {| m_data := <[(0, bs "s") := (DSet demo_set, None)]>
       (<[(0, bs "l") := (DList [bs "a"; bs "b"; bs "a"], Some 500)]>
       (<[(1, bs "z") := (DZSet demo_zset, None)]> ∅));
     m_now := 100; m_sizes := ∅ |}.

Lemma demo_zset_ok : zset_ok demo_zset.
Proof. by apply zset_insert_ok, zset_insert_ok, zset_default_ok. Qed.

Lemma incrby_counts_witness :
  fst (run_all (map (fun d => incr_by 0 [bs "n"; dec d] 1 false) [5; -7]) demo_model)
  = [Some (Int 5); Some (Int (-2))].
Proof.
  assert (H : counter demo_model (0, bs "n") = Some 0) by reflexivity.
  assert (Hl : Forall is_i64 [5; -7]) by (repeat constructor; unfold is_i64, I64_MIN, I64_MAX; lia).
  assert (Hs : Forall is_i64 (sums 0 [5; -7])).
  { repeat constructor; unfold is_i64, I64_MIN, I64_MAX; cbn; lia. }
  pose proof (incrby_counts [5; -7] 0 (bs "n") 0 demo_model H Hl Hs) as Hw.
  destruct (run_all _ demo_model) as [rs m']. apply Hw.
Defined.

Lemma setbit_getbit_witness :
  exists m', run (setbit 0 [bs "b"; dec 9; dec 1]) demo_model = (Some (Int 0), m').
Proof.
  destruct (setbit_getbit 0 (bs "b") 9 1 [] demo_model) as (m' & Hr & _);
    [lia|by right|reflexivity|]. by exists m'.
Defined.

Lemma scan_covers_witness : fst (scan_all 4 [1; 2; 3] 0 2) = [1; 2; 3].
Proof. by apply (scan_covers [1; 2; 3] 2). Defined.

Lemma spop_takes_members_witness :
  exists popped m', run (spop 0 [bs "s"; dec 1]) demo_model = (Some (SetReply (map Bulk popped)), m')
    /\ zlen popped = 1.
Proof.
  destruct (spop_takes_members 0 (bs "s") 1 demo_set demo_model) as (p & m' & Hr & _ & Hl & _);
    [unfold is_i64, I64_MIN, I64_MAX; lia|lia|reflexivity|by vm_compute|].
  exists p, m'. split; [done|]. by rewrite Hl.
Defined.

Lemma lrem_removes_witness :
  exists r m', run (lrem 0 [bs "l"; dec 1; bs "a"]) demo_model = (Some (Int r), m') /\ r <= 1.
Proof.
  destruct (lrem_removes 0 (bs "l") 1 (bs "a") [bs "a"; bs "b"; bs "a"] demo_model)
    as (l1 & l2 & r & m' & Hr & _ & Hle & _);
    [unfold is_i64, I64_MIN, I64_MAX; lia|reflexivity|]. exists r, m'. split; [done|]. by apply Hle.
Defined.

Lemma setop_replies_witness :
  exists members, run (setop 0 [bs "s"; bs "none"] Inter false) demo_model
    = (Some (SetReply (map Bulk members)), demo_model) /\ forall x, x ∉ members.
Proof.
  destruct (setop_replies 0 Inter [bs "s"; bs "none"] [demo_set; ∅] demo_model)
    as (members & Hr & Hin & _); [done|repeat constructor|].
  exists members. split; [done|]. intros x Hx. apply Hin in Hx. cbn in Hx.
  apply Forall_cons in Hx as [_ Hx]. apply Forall_cons in Hx as [Hx _]. set_solver.
Defined.

Lemma zrank_counts_before_witness :
  run (zrank 1 [bs "z"; bs "p"] false) demo_model = (Some (Int 1), demo_model).
Proof.
  etransitivity; [apply (zrank_counts_before 1 (bs "z") (bs "p") demo_zset demo_model)|].
  - reflexivity.
  - apply demo_zset_ok.
  - by vm_compute.
Defined.

Lemma deinterleave_interleave_witness : deinterleave64 (interleave64 123 456) = (123, 456).
Proof. by apply (deinterleave_interleave 123 456). Defined.

Definition demo_stream : XStream :=
  append_entry {| ms := 7; seq_no := 0 |} [] (append_entry {| ms := 5; seq_no := 0 |} [] xstream_default).

Lemma trim_keeps_newest_witness : size (entries (trim_to_maxlen 1 demo_stream)) = 1%nat.
Proof. destruct (trim_keeps_newest demo_stream 1) as [H _]; [lia|]. apply Nat2Z.inj. by rewrite H. Defined.

Lemma lmove_conserves_witness :
  exists m', run (reply (do_lmove 0 (bs "l") (bs "d") true true)) demo_model = (Some (Bulk (bs "a")), m').
Proof.
  destruct (lmove_conserves 0 (bs "l") (bs "d") true true [bs "a"; bs "b"; bs "a"] [] (bs "a")
              [bs "b"; bs "a"] demo_model) as (m' & Hr & _); [reflexivity..|]. by exists m'.
Defined.

Lemma lmove_wrong_type_loses_witness :
  exists m', run (reply (do_lmove 0 (bs "l") (bs "s") true true)) demo_model = (Some wrong_type, m').
Proof.
  destruct (lmove_wrong_type_loses 0 (bs "l") (bs "s") true true [bs "a"; bs "b"; bs "a"] (bs "a")
              [bs "b"; bs "a"] demo_model) as (m' & Hr & _); [done|reflexivity..|]. by exists m'.
Defined.

Lemma swapdb_exchanges_witness :
  exists m', run (swapdb [dec 0; dec 1]) demo_model = (Some ok, m') /\
    unexpired 100 (m_data m' !! (0, bs "z")) = Some (DZSet demo_zset, None).
Proof.
  destruct (swapdb_exchanges 0 1 demo_model) as (m' & Hr & Hd); [lia|lia|].
  exists m'. split; [done|]. change 100 with (m_now demo_model). by rewrite (Hd 0 (bs "z")).
Defined.
