(* ===== verification/Serving.v ===== *)
(** * Commands against the store

    What a client gets: a write command runs in one sequencer batch on a [Writer], a read
    command on a [SnapDb] at the current timestamp (src/redis/mod.rs, [step]). Both answer as
    the command does on the plain map of unexpired values, and the committed store is what
    that map becomes. *)

From S2P Require Import Prelude Util Resp Mvcc MvccFacts Isolation ZSet Engine Model.
From S2P Require Import CmdString CmdHashList CmdSet CmdZSet CmdStream CmdGeo.
From S2P Require Import Dispatch DispatchFacts WellFormed.

(** ** Programs as sequencer closures *)

Section Closures.
Implicit Types (i : Inner) (nk : NsKey) (now : Z).

Lemma interp_writer_prog {A} (p : prog A) : writer_prog (interp p : st Writer A).
Proof.
  induction p; cbn [interp]; try (apply mbind_prog; [|by intros; auto]).
  - apply mret_prog.
  - apply get_prog.
  - by intros w Hw.
  - apply put_prog.
  - apply del_prog.
  - by intros w Hw.
  - by intros w Hw.
  - intros w Hw. by apply H.
Qed.

Lemma writer_sim_view w m nk :
  writer_sim w m -> unexpired (w_now w) (wview w nk) = unexpired (w_now w) (m_data m !! nk).
Proof.
  intros Hs. rewrite (ws_data _ _ Hs). unfold wview.
  destruct (overlay w !! nk) as [o|]; [done|]. by rewrite unexpired_idem.
Qed.

Lemma interp_now {A} (p : prog A) (w : Writer) : w_now (snd (interp p w)) = w_now w.
Proof.
  revert w. induction p; intros w; cbn; rewrite ?st_bind_eq; cbn;
    try done; try (etrans; [apply H|]); try (etrans; [apply IHp|]); try done.
  unfold writer_get. repeat case_match; done.
Qed.

Lemma seq_apply_wf {A} i m now (f : st Writer A) :
  wf_inner i -> wf_inner (snd (fst (seq_apply i m now f))).
Proof.
  intros Hwf. unfold seq_apply. destruct (f _) as [a w]. destruct (staged w) as [|op ops]; [done|].
  by apply commit_wf.
Qed.

Lemma seq_apply_fst {A} i m now (f : st Writer A) :
  fst (fst (seq_apply i m now f)) = fst (f (writer_new i now)).
Proof. unfold seq_apply. destruct (f _) as [a w]. by destruct (staged w). Qed.

(** A program in a batch of its own: the reply and the unexpired contents committed. *)
Lemma seq_apply_model {A} i m now (p : prog A) :
  wf_inner i ->
  let res := seq_apply i m now (interp p) in
  let md := interp p (model_of i now) in
  fst (fst res) = fst md /\
  forall nk, unexpired now (latest (snd (fst res)) nk) = unexpired now (m_data (snd md) !! nk).
Proof.
  intros Hwf. cbn. destruct (interp_sim writer_sim p _ _ (writer_new_sim i now Hwf)) as [Hf Hs].
  rewrite seq_apply_fst. split; [done|]. intros nk.
  rewrite seq_apply_latest by apply interp_writer_prog.
  pose proof (writer_sim_view _ _ nk Hs) as Hv. by rewrite interp_now in Hv.
Qed.
End Closures.

(** ** A history of write commands *)

Record Call := {
  call_db : Z; call_name : Bytes; call_args : list Bytes;
  call_now : Z; call_floor : TxnId }.

Section Calls.
Context `{Libm}.

(** The batch of one write command ([step], the write arm). *)
Definition run_call (i : Inner) (c : Call) : Reply * Inner * option AofRecord :=
  seq_apply i (call_floor c) (call_now c)
    (interp (dispatch_data (call_db c) (call_name c) (call_args c))).

Definition run_calls (i : Inner) (l : list Call) : Inner :=
  foldl (fun i c => snd (fst (run_call i c))) i l.

(** Each batch prunes with the floor of the store it runs on. *)
Fixpoint own_floors (i : Inner) (l : list Call) : Prop :=
  match l with
  | [] => True
  | c :: l' => call_floor c = min_active_snapshot i /\ own_floors (snd (fst (run_call i c))) l'
  end.

(** The reply of a command served from a snapshot ([step], the read arm). *)
Definition run_read (i : Inner) (ts : TxnId) (now dbi : Z) (c : Bytes) (args : list Bytes) : Reply :=
  fst (interp (dispatch_data dbi c args) {| sd_store := i; sd_ts := ts; sd_now := now |}).

(** Every value stored, expired or not, is well-formed. *)
Definition store_ok (i : Inner) : Prop := forall nk d e, latest i nk = Some (d, e) -> datum_ok d.

Lemma model_of_ok i now : store_ok i -> data_ok datum_ok (model_of i now).
Proof.
  intros Hi nk d e. rewrite model_of_data. destruct (latest i nk) as [[d' e']|] eqn:E; [|done]. cbn.
  destruct (is_expired e' now); [done|]. intros [= -> ->]. by eapply Hi.
Qed.

Lemma run_call_ok i c : wf_inner i -> store_ok i -> store_ok (snd (fst (run_call i c))).
Proof.
  intros Hwf Hi nk d e. unfold run_call. rewrite seq_apply_latest by apply interp_writer_prog.
  set (p := dispatch_data _ _ _).
  destruct (interp_sim writer_sim p _ _ (writer_new_sim i (call_now c) Hwf)) as [_ Hs].
  destruct (wp_model well_formed p (fun _ => True) (model_of i (call_now c))) as [_ Hm];
    [apply dispatch_keeps_ok|done|by apply model_of_ok|].
  destruct (interp_writer_prog p (writer_new i (call_now c)) (writer_new_ok _ _)) as [_ Hin].
  unfold wview. destruct (overlay _ !! nk) as [o|] eqn:Eo.
  - intros ->. eapply (Hm nk). by rewrite (ws_data _ _ Hs), Eo.
  - rewrite Hin. apply Hi.
Qed.

Lemma run_calls_ok l i : wf_inner i -> store_ok i -> wf_inner (run_calls i l) /\ store_ok (run_calls i l).
Proof.
  revert i. induction l as [|c l IH]; intros i Hwf Hi; cbn; [done|].
  apply IH; [by apply seq_apply_wf|by apply run_call_ok].
Qed.
End Calls.

(** ** Properties *)


(** A command that the router sends to a snapshot answers there exactly as the sequencer
    would at that moment, and running it in the sequencer would change no unexpired value.
    The two commands that accept a destination although they are routed to snapshots are
    excluded. *)
Theorem read_commands_agree `{Libm} i m now dbi c args :
  wf_inner i -> is_write c = false -> stores_anyway c = false ->
  let res := seq_apply i m now (interp (dispatch_data dbi c args)) in
  run_read i (current_ts i) now dbi c args = fst (fst res) /\
  forall nk, unexpired now (latest (snd (fst res)) nk) = unexpired now (latest i nk).
Proof.
  intros Hwf Hw Hs. pose proof (dispatch_read_only dbi c args Hw Hs) as Hro. cbn.
  destruct (seq_apply_model i m now (dispatch_data dbi c args) Hwf) as [Hr Hl].
  destruct (interp_sim_read snap_sim _ _ _ Hro (snap_new_sim i now Hwf)) as [He _].
  split; [by rewrite Hr|]. intros nk.
  by rewrite Hl, read_only_model, model_of_data, unexpired_idem by done.
Qed.

(** C37: no sequence of commands, whatever their names and arguments, stores an empty hash, list,
    set or sorted set, a sorted set whose score index disagrees with its member index, or a stream
    holding an entry above its top item. (Streams may be empty, as in Redis.) *)
Theorem stored_values_well_formed `{Libm} l nk d e :
  latest (run_calls inner_new l) nk = Some (d, e) -> datum_ok d.
Proof. apply (run_calls_ok l inner_new); [apply inner_new_wf|]. by intros nk' d' e'. Qed.

(** A snapshot command loads the current timestamp but does not register it, so nothing
    holds back pruning while it runs. A client that reads a key which every committed state
    holds can be told that the key does not exist: two commits to the key between the load
    and the read remove the version the timestamp stands for. *)
Theorem unpinned_read_loses_value `{Libm} :
  exists calls1 calls2 k,
    let i1 := run_calls inner_new calls1 in
    own_floors inner_new (calls1 ++ calls2) /\
    (forall n, is_Some (latest (run_calls i1 (take n calls2)) (0, k))) /\
    run_read (run_calls i1 calls2) (current_ts i1) 0 0 (bs "GET") [k] = Some Null.
Proof.
  set (put v floor := {| call_db := 0; call_name := bs "SET"; call_args := [bs "k"; v];
                         call_now := 0; call_floor := floor |}).
  exists [put (bs "1") 0], [put (bs "2") 1; put (bs "3") 2], (bs "k").
  split; [repeat split|]. split; [|reflexivity].
  intros [|[|[|n]]]; vm_compute; eexists; reflexivity.
Qed.

(** ** Witnesses *)

(** Some platform library, for concrete runs. *)
Definition demo_libm : Libm := {| f64_sin f := f; f64_cos _ := f64_one; f64_asin f := f |}.

Definition demo_push : Call :=
  {| call_db := 0; call_name := bs "RPUSH"; call_args := [bs "l"; bs "a"; bs "b"];
     call_now := 5; call_floor := 0 |}.


Lemma read_commands_agree_witness :
  run_read (H := demo_libm) demo_store (current_ts demo_store) 5 0 (bs "GET") [bs "k"]
  = Some (Bulk (bs "v")).
Proof.
  etransitivity;
    [apply (read_commands_agree (H := demo_libm) demo_store 0 5 0 (bs "GET") [bs "k"] demo_store_wf);
     reflexivity|].
  by vm_compute.
Defined.

Lemma stored_values_well_formed_witness :
  datum_ok (DList [bs "a"; bs "b"]).
Proof.
  apply (stored_values_well_formed (H := demo_libm) [demo_push] (0, bs "l") _ None).
  reflexivity.
Defined.
