(* ===== verification/PubSub.v ===== *)
(** * The subscription registry (src/redis/pubsub.rs)

    Two concurrent maps from channels and from patterns to the subscribed connections. The
    sender the source stores with a connection is that connection's own channel, so the
    connection identifier stands for it; [live] is the set of connections whose receiving end
    still exists, to which alone a send succeeds. Every operation of the source is short and
    leaves the maps in a state of this type; [publish] reads both maps. *)

From S2P Require Import Prelude Glob Mvcc.

Inductive PubMsg : Type :=
| Message (channel payload : Bytes)
| PMessage (pattern channel payload : Bytes).

Record PubSub := { channels : gmap Bytes (gset Z); patterns : gmap Bytes (gset Z) }.

Definition pubsub_default : PubSub := {| channels := ∅; patterns := ∅ |}.

(** [map.entry(k).or_default().insert(conn_id, tx)] *)
Definition sub_add (conn : Z) (k : Bytes) (m : gmap Bytes (gset Z)) : gmap Bytes (gset Z) :=
  <[k := default ∅ (m !! k) ∪ {[conn]}]> m.

(** [map.retain(|_, subs| !subs.is_empty())] *)
Definition retain_nonempty (m : gmap Bytes (gset Z)) : gmap Bytes (gset Z) :=
  omap (fun s : gset Z => if bool_decide (s = ∅) then None else Some s) m.

(** [if let Some(subs) = map.get_mut(k) { subs.remove(&conn_id) }], then the retain. *)
Definition sub_remove (conn : Z) (k : Bytes) (m : gmap Bytes (gset Z)) : gmap Bytes (gset Z) :=
  retain_nonempty (alter (fun s => s ∖ {[conn]}) k m).

Definition sub_drop (conn : Z) (m : gmap Bytes (gset Z)) : gmap Bytes (gset Z) :=
  retain_nonempty ((fun s => s ∖ {[conn]}) <$> m).

Definition subscribe (conn : Z) (channel : Bytes) (ps : PubSub) : PubSub :=
  {| channels := sub_add conn channel (channels ps); patterns := patterns ps |}.

Definition unsubscribe (conn : Z) (channel : Bytes) (ps : PubSub) : PubSub :=
  {| channels := sub_remove conn channel (channels ps); patterns := patterns ps |}.

Definition psubscribe (conn : Z) (pattern : Bytes) (ps : PubSub) : PubSub :=
  {| channels := channels ps; patterns := sub_add conn pattern (patterns ps) |}.

Definition punsubscribe (conn : Z) (pattern : Bytes) (ps : PubSub) : PubSub :=
  {| channels := channels ps; patterns := sub_remove conn pattern (patterns ps) |}.

Definition drop_conn (conn : Z) (ps : PubSub) : PubSub :=
  {| channels := sub_drop conn (channels ps); patterns := sub_drop conn (patterns ps) |}.

(** The sends that succeed, with their targets. *)
Definition publish (live : gset Z) (channel payload : Bytes) (ps : PubSub) : list (Z * PubMsg) :=
  map (fun c => (c, Message channel payload))
    (elements (default ∅ (channels ps !! channel) ∩ live))
  ++ concat (map (fun e : Bytes * gset Z =>
       if glob_match e.1 channel
       then map (fun c => (c, PMessage e.1 channel payload)) (elements (e.2 ∩ live))
       else []) (map_to_list (patterns ps))).

(** The returned count. *)
Definition delivered (l : list (Z * PubMsg)) : Z := zlen l.

Definition channels_list (pattern : option Bytes) (ps : PubSub) : list Bytes :=
  sort_keys (omap (fun e : Bytes * gset Z =>
    if negb (bool_decide (e.2 = ∅))
       && (match pattern with Some p => glob_match p e.1 | None => true end)
    then Some e.1 else None) (map_to_list (channels ps))).

Definition numsub (channel : Bytes) (ps : PubSub) : Z :=
  match channels ps !! channel with Some s => Z.of_nat (size s) | None => 0 end.

Definition numpat (ps : PubSub) : Z :=
  zlen (List.filter (fun e : Bytes * gset Z => negb (bool_decide (e.2 = ∅)))
    (map_to_list (patterns ps))).

(** ** Membership *)

(** Whether a connection is subscribed to a key of one of the maps. *)
Definition in_map (m : gmap Bytes (gset Z)) (k : Bytes) (conn : Z) : Prop :=
  conn ∈ default ∅ (m !! k).

Section Membership.
Implicit Types (m : gmap Bytes (gset Z)) (k : Bytes) (c : Z).

Lemma retain_lookup m k : default ∅ (retain_nonempty m !! k) = default ∅ (m !! k).
Proof.
  unfold retain_nonempty. rewrite lookup_omap. destruct (m !! k) as [s|]; [|done]. cbn.
  by case_bool_decide; subst.
Qed.

Lemma in_add m k k' c c' : in_map (sub_add c k m) k' c' <-> (k = k' /\ c = c') \/ in_map m k' c'.
Proof.
  unfold in_map, sub_add. rewrite lookup_insert. case_decide; subst; cbn; set_solver.
Qed.

Lemma in_remove m k k' c c' :
  in_map (sub_remove c k m) k' c' <-> in_map m k' c' /\ ~ (k = k' /\ c = c').
Proof.
  unfold in_map, sub_remove. rewrite retain_lookup, lookup_alter.
  case_decide; subst; [destruct (m !! k'); cbn; set_solver|tauto].
Qed.

Lemma in_drop m k c c' : in_map (sub_drop c m) k c' <-> in_map m k c' /\ c <> c'.
Proof.
  unfold in_map, sub_drop. rewrite retain_lookup, lookup_fmap.
  destruct (m !! k); cbn; set_solver.
Qed.
End Membership.

(** No entry without a subscriber is kept. *)
Definition no_empty (m : gmap Bytes (gset Z)) : Prop := forall k s, m !! k = Some s -> s <> ∅.

Lemma retain_no_empty m : no_empty (retain_nonempty m).
Proof.
  intros k s. unfold retain_nonempty. rewrite lookup_omap. destruct (m !! k) as [s'|]; [|done].
  cbn. case_bool_decide; [done|]. by intros [= ->].
Qed.

Lemma add_no_empty c k m : no_empty m -> no_empty (sub_add c k m).
Proof.
  intros Hm k' s. unfold sub_add. rewrite lookup_insert. case_decide; [|apply Hm].
  intros [= <-]. set_solver.
Qed.
