(* ===== verification/Server.v ===== *)
(** * The Redis server: connections (src/redis/mod.rs)

    The state of a connection, and [step], which processes one command of it. A step
    touches the store through at most one sequencer closure or one snapshot, so it is a
    function of the world at that moment; the blocking commands, which poll the sequencer
    in a loop, are a first poll inside [step] and further ones by [poll]. What the process
    observes of its surroundings (clocks, whether the sequencer still runs, the outcome of a
    save, which receivers are alive) is the record [Env]. *)

From S2P Require Import Prelude Util Resp Glob Mvcc Isolation Engine CmdString Dispatch PubSub.
From S2P Require CmdGeo.

Record Env := {
  e_now : Z;                  (* now_ms() *)
  e_floor : TxnId;            (* the floor of the sequencer's iteration *)
  e_closed : bool;            (* the sequencer has stopped *)
  e_live : gset Z;            (* connections whose receiver is alive *)
  e_mono : Z;                 (* Instant::now(), whole seconds *)
  e_secs : Z; e_micros : Z;   (* SystemTime since the epoch *)
  e_uptime : Z; e_pid : Z;
  e_save : result Bytes unit;         (* store.save(): the error as text *)
  e_packed : Datum -> Z;              (* the length of rmp_serde's encoding *)
  e_passed : bool }.                  (* Instant::now() >= deadline *)

Record Conn := {
  c_id : Z; c_db : Z; c_name : Bytes; c_proto : Z; c_auth : bool;
  c_multi : option (list (Bytes * list Bytes)); c_multi_error : bool;
  c_watch : list NsKey; c_watch_ts : TxnId;
  c_subs : gset Bytes; c_psubs : gset Bytes }.

Record World := {
  w_store : Inner; w_pubsub : PubSub; w_mail : list (Z * PubMsg);
  w_last_save : Z; w_connected : Z; w_total_conns : Z; w_total_cmds : Z }.

(** What a blocked connection waits for; [timed] is whether it has a deadline. *)
Inductive Wait : Type :=
| WaitPop (ks : list Bytes) (left timed : bool)
| WaitMove (args : list Bytes) (timed : bool).

Inductive Outcome : Type :=
| Done (c : Conn) (w : World) (frames : list Resp) (quit : bool)
| Blocked (c : Conn) (w : World) (b : Wait)
| Abort.

(** *** Field updates *)

Definition set_db (n : Z) (c : Conn) : Conn :=
  {| c_id := c_id c; c_db := n; c_name := c_name c; c_proto := c_proto c; c_auth := c_auth c;
     c_multi := c_multi c; c_multi_error := c_multi_error c; c_watch := c_watch c;
     c_watch_ts := c_watch_ts c; c_subs := c_subs c; c_psubs := c_psubs c |}.
Definition set_name (n : Bytes) (c : Conn) : Conn :=
  {| c_id := c_id c; c_db := c_db c; c_name := n; c_proto := c_proto c; c_auth := c_auth c;
     c_multi := c_multi c; c_multi_error := c_multi_error c; c_watch := c_watch c;
     c_watch_ts := c_watch_ts c; c_subs := c_subs c; c_psubs := c_psubs c |}.
Definition set_proto (p : Z) (c : Conn) : Conn :=
  {| c_id := c_id c; c_db := c_db c; c_name := c_name c; c_proto := p; c_auth := c_auth c;
     c_multi := c_multi c; c_multi_error := c_multi_error c; c_watch := c_watch c;
     c_watch_ts := c_watch_ts c; c_subs := c_subs c; c_psubs := c_psubs c |}.
Definition set_auth (b : bool) (c : Conn) : Conn :=
  {| c_id := c_id c; c_db := c_db c; c_name := c_name c; c_proto := c_proto c; c_auth := b;
     c_multi := c_multi c; c_multi_error := c_multi_error c; c_watch := c_watch c;
     c_watch_ts := c_watch_ts c; c_subs := c_subs c; c_psubs := c_psubs c |}.
Definition set_multi (q : option (list (Bytes * list Bytes))) (e : bool) (c : Conn) : Conn :=
  {| c_id := c_id c; c_db := c_db c; c_name := c_name c; c_proto := c_proto c; c_auth := c_auth c;
     c_multi := q; c_multi_error := e; c_watch := c_watch c;
     c_watch_ts := c_watch_ts c; c_subs := c_subs c; c_psubs := c_psubs c |}.
Definition set_watch (l : list NsKey) (ts : TxnId) (c : Conn) : Conn :=
  {| c_id := c_id c; c_db := c_db c; c_name := c_name c; c_proto := c_proto c; c_auth := c_auth c;
     c_multi := c_multi c; c_multi_error := c_multi_error c; c_watch := l;
     c_watch_ts := ts; c_subs := c_subs c; c_psubs := c_psubs c |}.
Definition set_subs (s p : gset Bytes) (c : Conn) : Conn :=
  {| c_id := c_id c; c_db := c_db c; c_name := c_name c; c_proto := c_proto c; c_auth := c_auth c;
     c_multi := c_multi c; c_multi_error := c_multi_error c; c_watch := c_watch c;
     c_watch_ts := c_watch_ts c; c_subs := s; c_psubs := p |}.

Definition clear_watch (c : Conn) : Conn := set_watch [] (c_watch_ts c) c.

Definition with_store (w : World) (i : Inner) : World :=
  {| w_store := i; w_pubsub := w_pubsub w; w_mail := w_mail w; w_last_save := w_last_save w;
     w_connected := w_connected w; w_total_conns := w_total_conns w; w_total_cmds := w_total_cmds w |}.
Definition with_pubsub (w : World) (ps : PubSub) : World :=
  {| w_store := w_store w; w_pubsub := ps; w_mail := w_mail w; w_last_save := w_last_save w;
     w_connected := w_connected w; w_total_conns := w_total_conns w; w_total_cmds := w_total_cmds w |}.
Definition with_mail (w : World) (l : list (Z * PubMsg)) : World :=
  {| w_store := w_store w; w_pubsub := w_pubsub w; w_mail := w_mail w ++ l;
     w_last_save := w_last_save w;
     w_connected := w_connected w; w_total_conns := w_total_conns w; w_total_cmds := w_total_cmds w |}.
Definition with_last_save (w : World) (n : Z) : World :=
  {| w_store := w_store w; w_pubsub := w_pubsub w; w_mail := w_mail w; w_last_save := n;
     w_connected := w_connected w; w_total_conns := w_total_conns w; w_total_cmds := w_total_cmds w |}.

(** The connection [handle_conn] starts with. *)
Definition conn_new (id : Z) (password : option Bytes) : Conn :=
  {| c_id := id; c_db := 0; c_name := []; c_proto := 2; c_auth := bool_decide (password = None);
     c_multi := None; c_multi_error := false; c_watch := []; c_watch_ts := 0;
     c_subs := ∅; c_psubs := ∅ |}.

Definition in_subscribe_mode (c : Conn) : bool :=
  negb (bool_decide (c_subs c = ∅)) || negb (bool_decide (c_psubs c = ∅)).

(** [matches!(cmd, "A" | "B" ..)] *)
Definition one_of (c : Bytes) (l : list Bytes) : bool := mem c l.

Definition store_closed : Resp := err (bs "ERR store closed").

(** ** Sequencer closures *)

Section Closures.
Context `{CmdGeo.Libm}.

(** [store.apply] of a closure that runs one program; a panic inside it aborts. *)
Definition apply_prog (env : Env) (w : World) (p : prog Reply) : option (Resp * World) :=
  if e_closed env then Some (store_closed, w)
  else
    let '(r, i, _) := seq_apply (w_store w) (e_floor env) (e_now env) (interp p) in
    match r with Some r => Some (r, with_store w i) | None => None end.

(** The loop of EXEC over the queued commands: the replies, the messages published and the
    state after. *)
Fixpoint exec_loop {S} `{Db S} (live : gset Z) (ps : PubSub) (dbi : Z)
    (q : list (Bytes * list Bytes)) (s : S) : option (list Resp) * list (Z * PubMsg) * S :=
  match q with
  | [] => (Some [], [], s)
  | (c, a) :: q' =>
      if beq c (bs "PUBLISH") then
        let sent := match a with [ch; pl] => publish live ch pl ps | _ => [] end in
        let '(rs, mail, s') := exec_loop live ps dbi q' s in
        (cons (Int (delivered sent)) <$> rs, sent ++ mail, s')
      else
        let '(r, s1) := interp (dispatch_data dbi c a) s in
        match r with
        | None => (None, [], s1)
        | Some r =>
            let '(rs, mail, s') := exec_loop live ps dbi q' s1 in (cons r <$> rs, mail, s')
        end
  end.

(** The closure of EXEC: the WATCH test, then the queue. *)
Definition exec_closure (live : gset Z) (ps : PubSub) (dbi : Z) (watch : list NsKey)
    (watch_ts : TxnId) (q : list (Bytes * list Bytes)) (w : Writer)
  : option Resp * list (Z * PubMsg) * Writer :=
  if watch_ok w watch watch_ts then
    let '(rs, mail, w') := exec_loop live ps dbi q w in (Array <$> rs, mail, w')
  else (Some NullArray, [], w).

(** [store.apply] of that closure. *)
Definition apply_exec (env : Env) (w : World) (dbi : Z) (watch : list NsKey) (watch_ts : TxnId)
    (q : list (Bytes * list Bytes)) : option (Resp * World) :=
  if e_closed env then Some (store_closed, w)
  else
    let '(rm, i, _) := seq_apply (w_store w) (e_floor env) (e_now env)
                         (exec_closure (e_live env) (w_pubsub w) dbi watch watch_ts q) in
    match rm with
    | (Some r, mail) => Some (r, with_mail (with_store w i) mail)
    | (None, _) => None
    end.

(** ** Blocking commands *)

(** The closure of BLPOP and BRPOP: the first key that yields an element or an error. *)
Fixpoint bpop_prog (dbi : Z) (left : bool) (ks : list Bytes) : prog Reply :=
  match ks with
  | [] => Ret (Some NullArray)
  | k :: ks' =>
      prog_bind (fun r =>
        match r with
        | Some (Bulk v) => Ret (Some (Array [Bulk k; Bulk v]))
        | Some (Error e) => Ret (Some (Error e))
        | None => Ret None
        | _ => bpop_prog dbi left ks'
        end) (dispatch_data dbi (if left then bs "LPOP" else bs "RPOP") [k])
  end.

Definition wait_prog (dbi : Z) (b : Wait) : prog Reply :=
  match b with
  | WaitPop ks lf _ => bpop_prog dbi lf ks
  | WaitMove args _ => dispatch_data dbi (bs "LMOVE") args
  end.

(** The reply that means not yet, which is also the reply at the deadline. *)
Definition wait_null (b : Wait) : Resp :=
  match b with WaitPop _ _ _ => NullArray | WaitMove _ _ => Null end.

Definition is_wait_null (b : Wait) (r : Resp) : bool :=
  match b, r with
  | WaitPop _ _ _, NullArray => true
  | WaitMove _ _, Null => true
  | _, _ => false
  end.

Definition wait_timed (b : Wait) : bool :=
  match b with WaitPop _ _ t => t | WaitMove _ t => t end.

(** One turn of the polling loops. *)
Definition poll (env : Env) (c : Conn) (w : World) (b : Wait) : Outcome :=
  if e_closed env then Done c w [store_closed] false
  else match apply_prog env w (wait_prog (c_db c) b) with
       | None => Abort
       | Some (r, w') =>
           if negb (is_wait_null b r) then Done c w' [r] false
           else if wait_timed b && e_passed env then Done c w' [wait_null b] false
           else Blocked c w' b
       end.

(** [Instant::now() + Duration::from_secs_f64(t)] panics: the duration or the instant
    overflows. *)
Definition deadline_panics (env : Env) (t : f64) : bool :=
  negb (f64_ltb t (f64_of_dec false (2 ^ 64) 0))
  || (I64_MAX <? e_mono env + f64_to_uint U64_MAX t).

Definition timeout_err : Resp := err (bs "ERR timeout is not a float or out of range").

(** The deadline computed from a timeout argument, then the first turn of the loop. *)
Definition start_wait (env : Env) (c : Conn) (w : World) (timeout : Bytes) (b : bool -> Wait)
  : Outcome :=
  match filter_opt (fun t => f64_leb f64_zero t) (parse_f64 timeout) with
  | None => Done c w [timeout_err] false
  | Some t =>
      if f64_eqb t f64_zero then poll env c w (b false)
      else if deadline_panics env t then Abort
      else poll env c w (b true)
  end.

Definition blocking_pop (env : Env) (c : Conn) (w : World) (args : list Bytes) (left : bool)
  : Outcome :=
  if zlen args <? 2 then Done c w [arity (if left then bs "blpop" else bs "brpop")] false
  else start_wait env c w (default [] (last args)) (WaitPop (take (length args - 1) args) left).

Definition blocking_lmove (env : Env) (c : Conn) (w : World) (args : list Bytes) : Outcome :=
  if negb (zlen args =? 5) then Done c w [arity (bs "blmove")] false
  else start_wait env c w (arg args 4) (WaitMove (take 4 args)).
End Closures.

(** ** Informational replies *)

Definition REDIS_VERSION : Bytes := bs "7.4.0".
Definition eol : Bytes := [13; 10].

(** [INFO]'s section test. *)
Definition want (section : Bytes) (s : string) : bool :=
  bool_decide (section = []) || beq section (bs "ALL") || beq section (bs "EVERYTHING")
  || beq section (bs s).

Definition lines (l : list Bytes) : Bytes := concat (map (fun x => x ++ eol) l).

Definition keyspace_line (i : Inner) (db : Z) : Bytes :=
  let n := ns_len i db in
  if 0 <? n then bs "db" ++ dec db ++ bs ":keys=" ++ dec n ++ bs ",expires=" ++ dec (ttl_count i db)
                 ++ bs ",avg_ttl=0" ++ eol
  else [].

Definition info_reply (env : Env) (w : World) (args : list Bytes) : Resp :=
  let section := match head args with Some a => upper a | None => [] end in
  let part s l := if want section s then lines l else [] in
  Verbatim (bs "txt") (
    part "SERVER"
      [bs "# Server"; bs "redis_version:" ++ REDIS_VERSION; bs "redis_git_sha1:0";
       bs "redis_mode:standalone"; bs "os:Voltra"; bs "arch_bits:64";
       bs "process_id:" ++ dec (e_pid env); bs "tcp_port:6379";
       bs "uptime_in_seconds:" ++ dec (e_uptime env);
       bs "uptime_in_days:" ++ dec (e_uptime env / 86400); bs "executable:voltra";
       bs "config_file:"; []]
    ++ part "CLIENTS"
      [bs "# Clients"; bs "connected_clients:" ++ dec (Z.max (w_connected w) 0);
       bs "blocked_clients:0"; bs "maxclients:50000"; []]
    ++ part "MEMORY"
      [bs "# Memory"; bs "used_memory:0"; bs "used_memory_human:0B"; bs "maxmemory:0";
       bs "maxmemory_policy:noeviction"; []]
    ++ part "PERSISTENCE"
      [bs "# Persistence"; bs "loading:0"; bs "rdb_last_save_time:" ++ dec (w_last_save w);
       bs "rdb_bgsave_in_progress:0"; bs "aof_enabled:1"; bs "aof_rewrite_in_progress:0"; []]
    ++ part "STATS"
      [bs "# Stats"; bs "total_connections_received:" ++ dec (w_total_conns w);
       bs "total_commands_processed:" ++ dec (w_total_cmds w);
       bs "instantaneous_ops_per_sec:0"; bs "keyspace_hits:0"; bs "keyspace_misses:0";
       bs "pubsub_channels:" ++ dec (zlen (channels_list None (w_pubsub w)));
       bs "pubsub_patterns:" ++ dec (numpat (w_pubsub w)); []]
    ++ part "REPLICATION"
      [bs "# Replication"; bs "role:master"; bs "connected_slaves:0";
       bs "master_replid:voltra000000000000000000000000000000000000";
       bs "master_repl_offset:0"; []]
    ++ part "CPU" [bs "# CPU"; bs "used_cpu_sys:0.0"; bs "used_cpu_user:0.0"; []]
    ++ (if want section "KEYSPACE"
        then lines [bs "# Keyspace"] ++ concat (map (keyspace_line (w_store w)) (seqZ 0 16)) ++ eol
        else [])).

Definition config_defaults : list (Bytes * Bytes) :=
  [(bs "maxmemory", bs "0"); (bs "maxmemory-policy", bs "noeviction"); (bs "appendonly", bs "yes");
   (bs "save", bs "3600 1 300 100 60 10000"); (bs "timeout", bs "0"); (bs "databases", bs "16");
   (bs "maxclients", bs "50000"); (bs "tcp-keepalive", bs "300");
   (bs "proto-max-bulk-len", bs "536870912")].

(** The loops of CONFIG GET: patterns, then defaults; a key is listed once. *)
Definition config_get (patterns : list Bytes) : list (Bytes * Bytes) :=
  foldl (fun acc pat =>
    foldl (fun acc (kv : Bytes * Bytes) =>
      if glob_match pat kv.1 && negb (existsb (fun p : Bytes * Bytes => beq p.1 kv.1) acc)
      then acc ++ [kv] else acc) acc config_defaults) [] patterns.

Definition subcommand (args : list Bytes) : Bytes :=
  match head args with Some a => upper a | None => [] end.

Definition config_reply (args : list Bytes) : Resp :=
  let sub := subcommand args in
  if beq sub (bs "GET") then
    RMap (map (fun kv : Bytes * Bytes => (bulk_str kv.1, bulk_str kv.2)) (config_get (drop 1 args)))
  else if one_of sub [bs "SET"; bs "RESETSTAT"; bs "REWRITE"] then ok
  else err (bs "ERR Unknown CONFIG subcommand '" ++ sub ++ bs "'").

Definition client_info (c : Conn) : Bytes :=
  bs "id=" ++ dec (c_id c) ++ bs " addr=0.0.0.0:0 name=" ++ c_name c ++ bs " db=" ++ dec (c_db c)
  ++ bs " resp=" ++ dec (c_proto c).

Definition client_reply (c : Conn) (args : list Bytes) : Conn * Resp :=
  let sub := subcommand args in
  if beq sub (bs "ID") then (c, Int (wrap_i64 (c_id c)))
  else if beq sub (bs "GETNAME") then (c, bulk_str (c_name c))
  else if beq sub (bs "SETNAME") then
    match args !! 1%nat with
    | Some n =>
        if existsb (Z.eqb 32) n
        then (c, err (bs "ERR Client names cannot contain spaces, newlines or special characters."))
        else (set_name (lossy n) c, ok)
    | None => (c, arity (bs "client|setname"))
    end
  else if beq sub (bs "SETINFO") then (c, ok)
  else if beq sub (bs "INFO") then (c, bulk_str (client_info c))
  else if beq sub (bs "LIST") then (c, bulk_str (client_info c ++ [10]))
  else if one_of sub [bs "NO-EVICT"; bs "NO-TOUCH"; bs "UNPAUSE"] then (c, ok)
  else (c, err (bs "ERR Unknown CLIENT subcommand '" ++ sub ++ bs "'")).

(** MEMORY USAGE; the value is read at the current timestamp. *)
Definition memory_usage (env : Env) (c : Conn) (w : World) (key : Bytes) : Resp :=
  match get_at (w_store w) (c_db c) key (current_ts (w_store w)) (e_now env) with
  | Some d => Int (wrap_i64 (e_packed env d + zlen key + 64))
  | None => Null
  end.

(** ** HELLO and AUTH *)

Definition wrongpass : Bytes :=
  bs "WRONGPASS invalid username-password pair or user is disabled.".

Section Auth.
Variable password : option Bytes.

(** The option loop of HELLO; the flag is whether an AUTH clause failed. *)
Fixpoint hello_opts (l : list Bytes) (c : Conn) (auth_err : bool) : Conn * bool :=
  match l with
  | [] => (c, auth_err)
  | a :: l' =>
      let u := upper a in
      if beq u (bs "AUTH") then
        match l' with
        | user :: pass :: l3 =>
            match password with
            | Some expected =>
                if beq (lossy user) (bs "default") && beq (lossy pass) expected
                then hello_opts l3 (set_auth true c) auth_err
                else hello_opts l3 c true
            | None => hello_opts l3 c auth_err
            end
        | [user] =>
            match password with
            | Some expected =>
                if beq (lossy user) (bs "default") && beq [] expected
                then (set_auth true c, auth_err) else (c, true)
            | None => (c, auth_err)
            end
        | [] => (c, auth_err)
        end
      else if beq u (bs "SETNAME") then
        match l' with
        | n :: l2 => hello_opts l2 (set_name (lossy n) c) auth_err
        | [] => (c, auth_err)
        end
      else hello_opts l' c auth_err
  end.

Definition hello_map (c : Conn) (proto : Z) : Resp :=
  RMap [(bulk_str (bs "server"), bulk_str (bs "redis"));
        (bulk_str (bs "version"), bulk_str REDIS_VERSION);
        (bulk_str (bs "proto"), Int proto);
        (bulk_str (bs "id"), Int (wrap_i64 (c_id c)));
        (bulk_str (bs "mode"), bulk_str (bs "standalone"));
        (bulk_str (bs "role"), bulk_str (bs "master"));
        (bulk_str (bs "modules"), Array [])].

(** The options, then the reply with the protocol version asked for. *)
Definition hello_with (c : Conn) (proto : Z) (rest : list Bytes) : Conn * Resp :=
  let '(c, auth_err) := hello_opts rest c false in
  if auth_err then (c, err wrongpass)
  else if negb (c_auth c) then
    (c, err (bs "NOAUTH HELLO must be called with the client already authenticated, otherwise the HELLO <proto> AUTH <user> <pass> option can be used to authenticate the client and select the RESP protocol version at the same time"))
  else (set_proto proto c, hello_map c proto).

Definition hello (c : Conn) (rest : list Bytes) : Conn * Resp :=
  match rest with
  | [] => hello_with c (c_proto c) []
  | p :: rest' =>
      match parse_i64 p with
      | Some 2 => hello_with c 2 rest'
      | Some 3 => hello_with c 3 rest'
      | _ => (c, err (bs "NOPROTO unsupported protocol version"))
      end
  end.

Definition auth (c : Conn) (rest : list Bytes) : Conn * Resp :=
  let supplied := match rest with
                  | [p] => Some (None, lossy p)
                  | [u; p] => Some (Some (lossy u), lossy p)
                  | _ => None
                  end in
  match supplied, password with
  | Some (user, pass), Some expected =>
      let user_ok := match user with Some u => beq u (bs "default") | None => true end in
      if user_ok && beq pass expected then (set_auth true c, ok) else (c, err wrongpass)
  | Some _, None =>
      (c, err (bs "ERR Client sent AUTH, but no password is set. Did you mean AUTH <username> <password>?"))
  | None, _ => (c, arity (bs "auth"))
  end.
End Auth.

(** ** Subscriptions *)

Definition sub_total (c : Conn) : Z := Z.of_nat (size (c_subs c)) + Z.of_nat (size (c_psubs c)).

(** The loop of SUBSCRIBE and PSUBSCRIBE. *)
Fixpoint sub_loop (pattern_mode : bool) (l : list Bytes) (c : Conn) (ps : PubSub)
  : Conn * PubSub * list Resp :=
  match l with
  | [] => (c, ps, [])
  | ch :: l' =>
      let c1 := if pattern_mode then set_subs (c_subs c) (c_psubs c ∪ {[ch]}) c
                else set_subs (c_subs c ∪ {[ch]}) (c_psubs c) c in
      let ps1 := if pattern_mode then psubscribe (c_id c) ch ps else subscribe (c_id c) ch ps in
      let frame := Push [bulk_str (if pattern_mode then bs "psubscribe" else bs "subscribe");
                         Bulk ch; Int (sub_total c1)] in
      let '(c2, ps2, fs) := sub_loop pattern_mode l' c1 ps1 in (c2, ps2, frame :: fs)
  end.

Definition unsub_name (pattern_mode : bool) : Bytes :=
  if pattern_mode then bs "punsubscribe" else bs "unsubscribe".

(** The loop of UNSUBSCRIBE and PUNSUBSCRIBE. *)
Fixpoint unsub_loop (pattern_mode : bool) (l : list Bytes) (c : Conn) (ps : PubSub)
  : Conn * PubSub * list Resp :=
  match l with
  | [] => (c, ps, [])
  | ch :: l' =>
      let c1 := if pattern_mode then set_subs (c_subs c) (c_psubs c ∖ {[ch]}) c
                else set_subs (c_subs c ∖ {[ch]}) (c_psubs c) c in
      let ps1 := if pattern_mode then punsubscribe (c_id c) ch ps
                 else unsubscribe (c_id c) ch ps in
      let frame := Push [bulk_str (unsub_name pattern_mode); Bulk ch; Int (sub_total c1)] in
      let '(c2, ps2, fs) := unsub_loop pattern_mode l' c1 ps1 in (c2, ps2, frame :: fs)
  end.

Definition unsubscribe_cmd (pattern_mode : bool) (c : Conn) (w : World) (rest : list Bytes)
  : Outcome :=
  let targets := if bool_decide (rest = [])
                 then elements (if pattern_mode then c_psubs c else c_subs c) else rest in
  let first := if bool_decide (targets = [])
               then [Push [bulk_str (unsub_name pattern_mode); Null; Int (sub_total c)]] else [] in
  let '(c', ps, fs) := unsub_loop pattern_mode targets c (w_pubsub w) in
  Done c' (with_pubsub w ps) (first ++ fs) false.

(** RESET: the transaction, the subscriptions, the database and the authentication. *)
Definition reset (password : option Bytes) (c : Conn) (w : World) : Conn * World :=
  let ps1 := foldl (fun ps ch => unsubscribe (c_id c) ch ps) (w_pubsub w) (elements (c_subs c)) in
  let ps2 := foldl (fun ps p => punsubscribe (c_id c) p ps) ps1 (elements (c_psubs c)) in
  (set_auth (bool_decide (password = None)) (set_db 0 (set_subs ∅ ∅ (clear_watch
     (set_multi None false c)))), with_pubsub w ps2).

Definition pubsub_cmd (w : World) (rest : list Bytes) : Resp :=
  let sub := subcommand rest in
  let ps := w_pubsub w in
  if beq sub (bs "CHANNELS") then Array (map Bulk (channels_list (rest !! 1%nat) ps))
  else if beq sub (bs "NUMSUB") then
    Array (concat (map (fun ch => [Bulk ch; Int (numsub ch ps)]) (drop 1 rest)))
  else if beq sub (bs "NUMPAT") then Int (numpat ps)
  else if beq sub (bs "SHARDCHANNELS") then Array []
  else if beq sub (bs "SHARDNUMSUB") then Array []
  else err (bs "ERR Unknown PUBSUB subcommand '" ++ sub ++ bs "'").

(** ** One command *)

Section Step.
Context `{CmdGeo.Libm} `{Lowercase}.
Variable password : option Bytes.

(** The arms that only compute a reply. *)
Definition reply_arm (env : Env) (c : Conn) (w : World) (cmd : Bytes) (rest : list Bytes)
  : option Resp :=
  let sub := subcommand rest in
  if beq cmd (bs "ECHO") then
    Some (match rest with m :: _ => Bulk m | [] => arity (bs "echo") end)
  else if beq cmd (bs "PUBSUB") then Some (pubsub_cmd w rest)
  else if beq cmd (bs "INFO") then Some (info_reply env w rest)
  else if beq cmd (bs "COMMAND") then
    Some (if beq sub (bs "COUNT") then Int 178
          else if one_of sub [bs "DOCS"; bs "INFO"] then RMap [] else Array [])
  else if beq cmd (bs "CONFIG") then Some (config_reply rest)
  else if beq cmd (bs "TIME") then
    Some (Array [bulk_str (dec (e_secs env)); bulk_str (dec (e_micros env))])
  else if beq cmd (bs "DEBUG") then
    Some (if one_of sub [bs "SLEEP"; bs "JMAP"; bs "SET-ACTIVE-EXPIRE";
                         bs "QUICKLIST-PACKED-THRESHOLD"; bs "CHANGE-REPL-ID"] then ok
          else err (bs "ERR DEBUG subcommand '" ++ sub ++ bs "' not supported"))
  else if beq cmd (bs "LASTSAVE") then Some (Int (wrap_i64 (w_last_save w)))
  else if beq cmd (bs "WAIT") then Some (Int 0)
  else if beq cmd (bs "MEMORY") then
    Some (if beq sub (bs "USAGE") then
            match rest !! 1%nat with
            | Some key => memory_usage env c w key
            | None => arity (bs "memory|usage")
            end
          else if beq sub (bs "DOCTOR") then bulk_str (bs "Sam, I detected no memory issues.")
          else err (bs "ERR MEMORY subcommand '" ++ sub ++ bs "' not supported"))
  else if beq cmd (bs "SHUTDOWN") then
    Some (err (bs "ERR SHUTDOWN is disabled — Voltra manages this process lifecycle"))
  else if beq cmd (bs "SLOWLOG") then
    Some (if beq sub (bs "GET") then Array [] else if beq sub (bs "LEN") then Int 0
          else if beq sub (bs "RESET") then ok else err (bs "ERR Unknown SLOWLOG subcommand"))
  else if beq cmd (bs "ACL") then
    Some (if beq sub (bs "WHOAMI") then bulk_str (bs "default")
          else if beq sub (bs "LIST") then
            Array [bulk_str (bs "user default on nopass ~* &* +@all")]
          else if beq sub (bs "CAT") then Array [] else err (bs "ERR Unknown ACL subcommand"))
  else if one_of cmd [bs "REPLICAOF"; bs "SLAVEOF"] then
    Some (err (bs "ERR REPLICAOF is not supported — use Voltra replication (VOLTRA_ROLE/VOLTRA_PRIMARY_URL)"))
  else if one_of cmd [bs "SCRIPT"; bs "EVAL"; bs "EVALSHA"; bs "FUNCTION"; bs "FCALL"] then
    Some (err (bs "ERR Lua scripting is not supported — use Voltra reducers (JS/WASM/native) for server-side logic"))
  else None.

(** SAVE, BGSAVE and BGREWRITEAOF: the time is recorded whatever the outcome. *)
Definition save_arm (env : Env) (w : World) (cmd : Bytes) : World * Resp :=
  (with_last_save w (e_secs env),
   match e_save env with
   | Ok _ => if beq cmd (bs "SAVE") then ok
             else if beq cmd (bs "BGSAVE") then Simple (bs "Background saving started")
             else Simple (bs "Background append only file rewriting started")
   | Err e => err (bs "ERR save failed: " ++ e)
   end).

(** The arms of the transaction commands. *)
Definition exec_arm (env : Env) (c : Conn) (w : World) : Outcome :=
  match c_multi c with
  | None => Done c w [err (bs "ERR EXEC without MULTI")] false
  | Some q =>
      if c_multi_error c then
        Done (clear_watch (set_multi None false c)) w
          [err (bs "EXECABORT Transaction discarded because of previous errors.")] false
      else
        match apply_exec env w (c_db c) (c_watch c) (c_watch_ts c) q with
        | Some (r, w') => Done (clear_watch (set_multi None false c)) w' [r] false
        | None => Abort
        end
  end.

Definition watch_arm (c : Conn) (w : World) (rest : list Bytes) : Conn * Resp :=
  if bool_decide (is_Some (c_multi c)) then (c, err (bs "ERR WATCH inside MULTI is not allowed"))
  else if bool_decide (rest = []) then (c, arity (bs "watch"))
  else
    let ts := if bool_decide (c_watch c = []) then current_ts (w_store w) else c_watch_ts c in
    (set_watch (c_watch c ++ map (fun k => (c_db c, k)) rest) ts c, ok).

(** The data plane: writes in the sequencer, reads on the current timestamp. *)
Definition data_arm (env : Env) (c : Conn) (w : World) (cmd : Bytes) (rest : list Bytes)
  : Outcome :=
  let p := dispatch_data (c_db c) cmd rest in
  if is_write cmd then
    match apply_prog env w p with
    | Some (r, w') => Done c w' [r] false
    | None => Abort
    end
  else
    match fst (interp p {| sd_store := w_store w; sd_ts := current_ts (w_store w);
                           sd_now := e_now env |}) with
    | Some r => Done c w [r] false
    | None => Abort
    end.

(** The [match cmd.as_str()]. *)
Definition step_match (env : Env) (c : Conn) (w : World) (cmd : Bytes) (rest : list Bytes)
  : Outcome :=
  if beq cmd (bs "PING") then
    Done c w [if (c_proto c =? 2) && in_subscribe_mode c
              then Push [bulk_str (bs "pong");
                         match rest with m :: _ => Bulk m | [] => bulk_str [] end]
              else match rest with m :: _ => Bulk m | [] => Simple (bs "PONG") end] false
  else if beq cmd (bs "QUIT") then Done c w [ok] true
  else if beq cmd (bs "SELECT") then
    match head rest ≫= parse_i64 with
    | Some n =>
        if (0 <=? n) && (n <? 16) then Done (set_db n c) w [ok] false
        else Done c w [err (bs "ERR DB index is out of range")] false
    | None => Done c w [not_int] false
    end
  else if beq cmd (bs "AUTH") then let '(c, r) := auth password c rest in Done c w [r] false
  else if beq cmd (bs "HELLO") then let '(c, r) := hello password c rest in Done c w [r] false
  else if beq cmd (bs "RESET") then
    let '(c, w) := reset password c w in Done c w [Simple (bs "RESET")] false
  else if beq cmd (bs "MULTI") then
    if bool_decide (is_Some (c_multi c))
    then Done c w [err (bs "ERR MULTI calls can not be nested")] false
    else Done (set_multi (Some []) false c) w [ok] false
  else if beq cmd (bs "DISCARD") then
    if bool_decide (is_Some (c_multi c))
    then Done (clear_watch (set_multi None false c)) w [ok] false
    else Done c w [err (bs "ERR DISCARD without MULTI")] false
  else if beq cmd (bs "WATCH") then let '(c, r) := watch_arm c w rest in Done c w [r] false
  else if beq cmd (bs "UNWATCH") then Done (clear_watch c) w [ok] false
  else if beq cmd (bs "EXEC") then exec_arm env c w
  else if one_of cmd [bs "SUBSCRIBE"; bs "PSUBSCRIBE"] then
    if bool_decide (rest = []) then Done c w [arity cmd] false
    else let '(c, ps, fs) := sub_loop (beq cmd (bs "PSUBSCRIBE")) rest c (w_pubsub w) in
         Done c (with_pubsub w ps) fs false
  else if one_of cmd [bs "UNSUBSCRIBE"; bs "PUNSUBSCRIBE"] then
    unsubscribe_cmd (beq cmd (bs "PUNSUBSCRIBE")) c w rest
  else if beq cmd (bs "PUBLISH") then
    match rest with
    | [ch; pl] =>
        let sent := publish (e_live env) ch pl (w_pubsub w) in
        Done c (with_mail w sent) [Int (delivered sent)] false
    | _ => Done c w [arity (bs "publish")] false
    end
  else if one_of cmd [bs "BLPOP"; bs "BRPOP"] then
    blocking_pop env c w rest (beq cmd (bs "BLPOP"))
  else if beq cmd (bs "BLMOVE") then blocking_lmove env c w rest
  else if beq cmd (bs "BRPOPLPUSH") then
    match rest with
    | [s; d; t] => blocking_lmove env c w [s; d; bs "RIGHT"; bs "LEFT"; t]
    | _ => Done c w [arity (bs "brpoplpush")] false
    end
  else if beq cmd (bs "CLIENT") then let '(c, r) := client_reply c rest in Done c w [r] false
  else if one_of cmd [bs "SAVE"; bs "BGSAVE"; bs "BGREWRITEAOF"] then
    let '(w, r) := save_arm env w cmd in Done c w [r] false
  else match reply_arm env c w cmd rest with
       | Some r => Done c w [r] false
       | None =>
           if is_data_command cmd then data_arm env c w cmd rest
           else Done c w [err (bs "ERR unknown command '" ++ to_lowercase cmd
                               ++ bs "', with args beginning with: ")] false
       end.

Definition subscriber_commands : list Bytes :=
  [bs "SUBSCRIBE"; bs "UNSUBSCRIBE"; bs "PSUBSCRIBE"; bs "PUNSUBSCRIBE"; bs "PING"; bs "QUIT";
   bs "RESET"].

Definition never_queued : list Bytes :=
  [bs "EXEC"; bs "DISCARD"; bs "MULTI"; bs "WATCH"; bs "RESET"; bs "QUIT"].

(** [step]: the authentication gate, the subscriber restriction, the queue of MULTI, then
    the command. [args] is not empty. *)
Definition step (env : Env) (c : Conn) (w : World) (args : list Bytes) : Outcome :=
  let cmd := upper (arg args 0) in
  let rest := drop 1 args in
  if negb (c_auth c) && negb (one_of cmd [bs "AUTH"; bs "HELLO"; bs "QUIT"; bs "RESET"]) then
    Done c w [err (bs "NOAUTH Authentication required.")] false
  else if (c_proto c =? 2) && in_subscribe_mode c && negb (one_of cmd subscriber_commands) then
    Done c w [err (bs "ERR Can't execute '" ++ to_lowercase cmd
      ++ bs "': only (P|S)SUBSCRIBE / (P|S)UNSUBSCRIBE / PING / QUIT / RESET are allowed in this context")] false
  else match c_multi c with
       | Some q =>
           if one_of cmd never_queued then step_match env c w cmd rest
           else if is_data_command cmd || beq cmd (bs "PUBLISH") then
             Done (set_multi (Some (q ++ [(cmd, rest)])) (c_multi_error c) c) w
               [Simple (bs "QUEUED")] false
           else
             Done (set_multi (Some q) true c) w
               [err (bs "ERR unknown command '" ++ to_lowercase cmd ++ bs "'")] false
       | None => step_match env c w cmd rest
       end.
End Step.

(** What is appended to the output buffer. *)
Definition send (c : Conn) (frames : list Resp) : Bytes :=
  concat (map (fun f => encode f (c_proto c)) frames).

(** ** The read loop of a connection *)

Definition count_cmd (w : World) : World :=
  {| w_store := w_store w; w_pubsub := w_pubsub w; w_mail := w_mail w;
     w_last_save := w_last_save w; w_connected := w_connected w;
     w_total_conns := w_total_conns w; w_total_cmds := w_total_cmds w + 1 |}.

Definition hang_up (w : World) (c : Conn) : World :=
  {| w_store := w_store w; w_pubsub := drop_conn (c_id c) (w_pubsub w); w_mail := w_mail w;
     w_last_save := w_last_save w; w_connected := w_connected w - 1;
     w_total_conns := w_total_conns w; w_total_cmds := w_total_cmds w |}.

(** How draining the input buffer ends: everything read and the output to flush, a closed
    connection with what was written to it, a blocked command, an aborted process. *)
Inductive Turn : Type :=
| Flush (c : Conn) (w : World) (buf out : Bytes)
| Closed (w : World) (written : Bytes)
| Waiting (c : Conn) (w : World) (buf out : Bytes) (b : Wait)
| Aborted.

(** The inner loop of [handle_conn]: every complete command of the buffer. A command uses at
    least one byte, so the length of the buffer bounds the turns. [env] is what each step
    observes, in order. *)
Fixpoint drain `{CmdGeo.Libm} `{Lowercase} (fuel : nat) (password : option Bytes)
    (env : nat -> Env) (c : Conn) (w : World) (buf out : Bytes) : Turn :=
  match fuel with
  | O => Flush c w buf out
  | S f =>
      match parse_command buf with
      | Ok (Some (args, used)) =>
          let buf := drop used buf in
          match args with
          | [] => drain f password env c w buf out
          | _ =>
              match step password (env 0%nat) c (count_cmd w) args with
              | Done c' w' frames quit =>
                  let out := out ++ send c' frames in
                  if quit then Closed (hang_up w' c') out
                  else drain f password (fun n => env (S n)) c' w' buf out
              | Blocked c' w' b => Waiting c' w' buf out b
              | Abort => Aborted
              end
          end
      | Ok None => Flush c w buf out
      | Err e => Closed (hang_up w c) (send c [err (bs "ERR " ++ e)])
      end
  end.

Definition read_turn `{CmdGeo.Libm} `{Lowercase} (password : option Bytes) (env : nat -> Env)
    (c : Conn) (w : World) (buf : Bytes) : Turn :=
  drain (S (length buf)) password env c w buf [].

(** A message received from the registry, as the frame written to the socket. *)
Definition push_frame (m : PubMsg) : Resp :=
  match m with
  | Message channel payload => Push [bulk_str (bs "message"); Bulk channel; Bulk payload]
  | PMessage pattern channel payload =>
      Push [bulk_str (bs "pmessage"); Bulk pattern; Bulk channel; Bulk payload]
  end.
