(* ===== verification/ServerFacts.v ===== *)
(** * Properties of the server

    EXEC is one atomic, isolated batch guarded by WATCH; an unauthenticated client can do
    nothing; the registry and the connections agree on subscriptions; pipelined input is
    processed command by command whatever its segmentation. *)

From S2P Require Import Prelude Util Resp Glob Mvcc MvccFacts Isolation Engine Model.
From S2P Require Import CmdString Dispatch PubSub Server Serving.
From S2P Require CmdGeo.

(** Decide a comparison of literal names. *)
Ltac ground_names := repeat match goal with
  | |- context [beq ?a ?b] => let v := eval vm_compute in (beq a b) in
      lazymatch v with true => change (beq a b) with true | false => change (beq a b) with false end
  | |- context [one_of ?a ?b] => let v := eval vm_compute in (one_of a b) in
      lazymatch v with true => change (one_of a b) with true | false => change (one_of a b) with false end
  | |- context [is_data_command ?a] => let v := eval vm_compute in (is_data_command a) in
      lazymatch v with true => change (is_data_command a) with true
                     | false => change (is_data_command a) with false end
  end; cbv iota; cbn [negb andb orb].

Lemma one_of_elem c l : one_of c l = true <-> c ∈ l.
Proof.
  unfold one_of, mem. rewrite existsb_exists. split.
  - intros (x & Hx & Hb). apply beq_true in Hb as ->. by apply list_elem_of_In.
  - intros Hc. exists c. split; [by apply list_elem_of_In|apply beq_refl].
Qed.

(** ** EXEC *)

Section Exec.
Context `{CmdGeo.Libm}.
Implicit Types (q : list (Bytes * list Bytes)).

Lemma exec_loop_sim live ps dbi q (w : Writer) (m : Model) :
  writer_sim w m ->
  fst (exec_loop live ps dbi q w) = fst (exec_loop live ps dbi q m) /\
  writer_sim (snd (exec_loop live ps dbi q w)) (snd (exec_loop live ps dbi q m)).
Proof.
  revert w m. induction q as [|[c a] q IH]; intros w m Hs; cbn [exec_loop]; [done|].
  destruct (beq c (bs "PUBLISH")).
  - specialize (IH w m Hs). destruct (exec_loop _ _ _ q w) as [[r1 m1] w1], (exec_loop _ _ _ q m) as [[r2 m2] w2].
    cbn in *. destruct IH as [[= -> ->] ?]. done.
  - destruct (interp_sim writer_sim (dispatch_data dbi c a) w m Hs) as [Hf Hs'].
    destruct (interp _ w) as [r w1], (interp _ m) as [r' m1]. cbn in *. subst r'.
    destruct r as [r|]; [|done]. specialize (IH w1 m1 Hs').
    destruct (exec_loop _ _ _ q w1) as [[r1 l1] w2], (exec_loop _ _ _ q m1) as [[r2 l2] w3].
    cbn in *. destruct IH as [[= -> ->] ?]. done.
Qed.

Lemma exec_loop_prog live ps dbi q : writer_prog (exec_loop live ps dbi q : st Writer _).
Proof.
  induction q as [|[c a] q IH]; intros w Hw; cbn [exec_loop]; [done|].
  destruct (beq c (bs "PUBLISH")).
  - specialize (IH w Hw). by destruct (exec_loop _ _ _ q w) as [[r1 m1] w1].
  - pose proof (interp_writer_prog (dispatch_data dbi c a) w Hw) as [H1 H2].
    destruct (interp _ w) as [[r|] w1]; [|done]. cbn in *.
    specialize (IH w1 H1). destruct (exec_loop _ _ _ q w1) as [[r1 m1] w2]. cbn in *.
    destruct IH as [? ?]. split; [done|]. congruence.
Qed.

Lemma exec_closure_prog live ps dbi watch ts q :
  writer_prog (exec_closure live ps dbi watch ts q : st Writer _).
Proof.
  intros w Hw. unfold exec_closure. destruct (watch_ok w watch ts); [|done].
  pose proof (exec_loop_prog live ps dbi q w Hw) as Hp.
  by destruct (exec_loop live ps dbi q w) as [[r1 m1] w1].
Qed.

Lemma exec_loop_now live ps dbi q (w : Writer) : w_now (snd (exec_loop live ps dbi q w)) = w_now w.
Proof.
  revert w. induction q as [|[c a] q IH]; intros w; cbn [exec_loop]; [done|].
  destruct (beq c (bs "PUBLISH")).
  - specialize (IH w). by destruct (exec_loop _ _ _ q w) as [[r1 m1] w1].
  - pose proof (interp_now (dispatch_data dbi c a) w) as H1.
    destruct (interp _ w) as [[r|] w1]; [|done]. cbn in *.
    specialize (IH w1). destruct (exec_loop _ _ _ q w1) as [[r1 m1] w2]. cbn in *. congruence.
Qed.

Lemma watch_ok_new i now watch ts :
  watch_ok (writer_new i now) watch ts = true <->
  forall nk, nk ∈ watch -> head_ts (chain_of i nk) <= ts.
Proof.
  unfold watch_ok, writer_head_ts, chain_of. rewrite forallb_forall. cbn. split.
  - intros Hf [n k] Hin. specialize (Hf (n, k) (proj1 (list_elem_of_In _ _) Hin)). cbn in Hf.
    destruct (chains i !! (n, k)); cbn; [|]; try (apply negb_true_iff in Hf); zbool; lia.
  - intros Hf [n k] Hin. apply list_elem_of_In in Hin. specialize (Hf _ Hin). cbn.
    destruct (chains i !! (n, k)); cbn in *; try apply negb_true_iff; (apply zle_true || apply zlt_false); lia.
Qed.
End Exec.

(** ** The gate *)

Section Gate.
Context `{CmdGeo.Libm} `{Lowercase}.
Implicit Types (c : Conn) (w : World) (args : list Bytes).

(** The secret is in the arguments, or there is none to know. *)
Definition knows (pw : Bytes) (l : list Bytes) : Prop := pw = [] \/ exists a, a ∈ l /\ lossy a = pw.

Lemma knows_mono pw l l' : (forall a, a ∈ l -> a ∈ l') -> knows pw l -> knows pw l'.
Proof. intros Hl [?|(a & ? & ?)]; [by left|right; exists a; auto]. Qed.

Lemma hello_opts_auth pw n l c e c' e' :
  (length l <= n)%nat -> hello_opts (Some pw) l c e = (c', e') ->
  c_auth c' = true -> c_auth c = true \/ knows pw l.
Proof.
  revert l c e. induction n as [|n IH]; intros [|a l] c e Hn; cbn in Hn; try lia; cbn [hello_opts].
  1,2: intros [= <- <-]; by left.
  assert (Hmono : forall l2, (forall x, x ∈ l2 -> x ∈ a :: l) -> (length l2 <= n)%nat ->
    forall c2 e2, hello_opts (Some pw) l2 c2 e2 = (c', e') -> c_auth c' = true ->
    c_auth c2 = true \/ knows pw (a :: l)).
  { intros l2 Hin Hl c2 e2 Hh Ha. destruct (IH _ _ _ Hl Hh Ha) as [?|?]; [by left|right].
    by eapply knows_mono. }
  destruct (beq (upper a) (bs "AUTH")).
  - destruct l as [|user [|pass l]].
    + intros [= <- <-]. by left.
    + destruct (_ && beq [] pw) eqn:E; intros [= <- <-]; [|by left].
      apply andb_true_iff in E as [_ E]. apply beq_true in E as <-. right. by left.
    + cbn in Hn. destruct (beq (lossy user) (bs "default") && beq (lossy pass) pw) eqn:E.
      * apply andb_true_iff in E as [_ E]. apply beq_true in E. intros _ _. right. right.
        exists pass. split; [set_solver|done].
      * apply Hmono; [set_solver|lia].
  - destruct (beq (upper a) (bs "SETNAME")).
    + destruct l as [|m l]; [intros [= <- <-]; by left|]. cbn in Hn.
      intros Hh Ha. eapply (Hmono l) in Hh; [|set_solver|lia|done]. exact Hh.
    + apply Hmono; [set_solver|lia].
Qed.

Lemma hello_auth pw c rest c' r :
  hello (Some pw) c rest = (c', r) -> c_auth c' = true -> c_auth c = true \/ knows pw rest.
Proof.
  assert (Hw : forall l p, hello_with (Some pw) c p l = (c', r) -> c_auth c' = true ->
    c_auth c = true \/ knows pw l).
  { intros l p. unfold hello_with. destruct (hello_opts (Some pw) l c false) as [c1 e] eqn:E.
    intros Hh Ha. eapply hello_opts_auth; [reflexivity|exact E|].
    destruct e; [by injection Hh as <- _|]. destruct (negb (c_auth c1)) eqn:En; injection Hh as <- _; done. }
  unfold hello. destruct rest as [|p rest]; [apply Hw|].
  assert (Hp : forall q, hello_with (Some pw) c q rest = (c', r) -> c_auth c' = true ->
    c_auth c = true \/ knows pw (p :: rest)).
  { intros q Hh Ha. destruct (Hw _ _ Hh Ha); [by left|right]. eapply knows_mono; [|done]. set_solver. }
  destruct (parse_i64 p) as [[|[[|[]|]|[|[]|]|]|]|]; try apply Hp; intros [= <- _]; by left.
Qed.

Lemma auth_auth pw c rest c' r :
  auth (Some pw) c rest = (c', r) -> c_auth c' = true -> c_auth c = true \/ knows pw rest.
Proof.
  unfold auth. destruct rest as [|u [|p [|x rest]]].
  - intros [= <- _]. by left.
  - destruct (true && beq (lossy u) pw) eqn:E; intros [= <- _]; [|by left].
    apply beq_true in E. intros _. right. right. exists u. split; [set_solver|done].
  - destruct (_ && beq (lossy p) pw) eqn:E; intros [= <- _]; [|by left].
    apply andb_true_iff in E as [_ E]. apply beq_true in E. intros _. right. right.
    exists p. split; [set_solver|done].
  - intros [= <- _]. by left.
Qed.
End Gate.

(** ** Subscriptions *)

Section Registry.
Context `{CmdGeo.Libm} `{Lowercase}.
Implicit Types (c : Conn) (w : World) (ps : PubSub) (k : Bytes) (n : Z).

(** The registry holds of a connection exactly what the connection remembers. *)
Definition reg_ok c ps : Prop :=
  (forall k, in_map (channels ps) k (c_id c) <-> k ∈ c_subs c) /\
  (forall k, in_map (patterns ps) k (c_id c) <-> k ∈ c_psubs c).

(** The subscriptions of every other connection are the same. *)
Definition others_same (id : Z) ps ps' : Prop :=
  forall n k, n <> id -> (in_map (channels ps') k n <-> in_map (channels ps) k n) /\
                       (in_map (patterns ps') k n <-> in_map (patterns ps) k n).

Definition reg_step c ps c' ps' : Prop :=
  c_id c' = c_id c /\ (reg_ok c ps -> reg_ok c' ps') /\ others_same (c_id c) ps ps'.

Lemma reg_step_same c c' ps :
  c_id c' = c_id c -> c_subs c' = c_subs c -> c_psubs c' = c_psubs c -> reg_step c ps c' ps.
Proof. intros H1 H2 H3. unfold reg_step, reg_ok, others_same. rewrite H1, H2, H3. naive_solver. Qed.

Lemma reg_step_trans c1 p1 c2 p2 c3 p3 :
  reg_step c1 p1 c2 p2 -> reg_step c2 p2 c3 p3 -> reg_step c1 p1 c3 p3.
Proof.
  intros (H1 & H2 & H3) (G1 & G2 & G3). split_and!; [congruence|tauto|].
  intros n k Hn. rewrite <- H1 in Hn. destruct (H3 n k) as [? ?]; [congruence|].
  destruct (G3 n k Hn) as [? ?]. tauto.
Qed.

Lemma subscribe_step c ps k :
  reg_step c ps (set_subs (c_subs c ∪ {[k]}) (c_psubs c) c) (subscribe (c_id c) k ps).
Proof.
  split_and!; [done| |].
  - intros [H1 H2]. split; intros k'; cbn; [|apply H2]. rewrite in_add, H1. set_solver.
  - intros n k' Hn. cbn. rewrite in_add. naive_solver.
Qed.

Lemma psubscribe_step c ps k :
  reg_step c ps (set_subs (c_subs c) (c_psubs c ∪ {[k]}) c) (psubscribe (c_id c) k ps).
Proof.
  split_and!; [done| |].
  - intros [H1 H2]. split; intros k'; cbn; [apply H1|]. rewrite in_add, H2. set_solver.
  - intros n k' Hn. cbn. rewrite in_add. naive_solver.
Qed.

Lemma unsubscribe_step c ps k :
  reg_step c ps (set_subs (c_subs c ∖ {[k]}) (c_psubs c) c) (unsubscribe (c_id c) k ps).
Proof.
  split_and!; [done| |].
  - intros [H1 H2]. split; intros k'; cbn; [|apply H2]. rewrite in_remove, H1. set_solver.
  - intros n k' Hn. cbn. rewrite in_remove. naive_solver.
Qed.

Lemma punsubscribe_step c ps k :
  reg_step c ps (set_subs (c_subs c) (c_psubs c ∖ {[k]}) c) (punsubscribe (c_id c) k ps).
Proof.
  split_and!; [done| |].
  - intros [H1 H2]. split; intros k'; cbn; [apply H1|]. rewrite in_remove, H2. set_solver.
  - intros n k' Hn. cbn. rewrite in_remove. naive_solver.
Qed.

Lemma sub_loop_step pm l c ps c' ps' fs :
  sub_loop pm l c ps = (c', ps', fs) -> reg_step c ps c' ps'.
Proof.
  revert c ps c' ps' fs. induction l as [|k l IH]; intros c ps c' ps' fs; cbn [sub_loop].
  - intros [= <- <- _]. by apply reg_step_same.
  - destruct (sub_loop pm l _ _) as [[c2 ps2] fs2] eqn:E. intros [= <- <- _].
    apply IH in E. eapply reg_step_trans; [|exact E].
    destruct pm; [apply psubscribe_step|apply subscribe_step].
Qed.

Lemma unsub_loop_step pm l c ps c' ps' fs :
  unsub_loop pm l c ps = (c', ps', fs) -> reg_step c ps c' ps'.
Proof.
  revert c ps c' ps' fs. induction l as [|k l IH]; intros c ps c' ps' fs; cbn [unsub_loop].
  - intros [= <- <- _]. by apply reg_step_same.
  - destruct (unsub_loop pm l _ _) as [[c2 ps2] fs2] eqn:E. intros [= <- <- _].
    apply IH in E. eapply reg_step_trans; [|exact E].
    destruct pm; [apply punsubscribe_step|apply unsubscribe_step].
Qed.

Lemma unsubs_in id l ps k n :
  in_map (channels (foldl (fun ps ch => unsubscribe id ch ps) ps l)) k n <->
  in_map (channels ps) k n /\ ~ (n = id /\ k ∈ l).
Proof.
  revert ps. induction l as [|x l IH]; intros ps; cbn; [set_solver|].
  rewrite IH. cbn. rewrite in_remove. set_solver.
Qed.
Lemma unsubs_patterns id l ps :
  patterns (foldl (fun ps ch => unsubscribe id ch ps) ps l) = patterns ps.
Proof. revert ps. induction l as [|x l IH]; intros ps; cbn; [done|]. by rewrite IH. Qed.
Lemma punsubs_in id l ps k n :
  in_map (patterns (foldl (fun ps ch => punsubscribe id ch ps) ps l)) k n <->
  in_map (patterns ps) k n /\ ~ (n = id /\ k ∈ l).
Proof.
  revert ps. induction l as [|x l IH]; intros ps; cbn; [set_solver|].
  rewrite IH. cbn. rewrite in_remove. set_solver.
Qed.
Lemma punsubs_channels id l ps :
  channels (foldl (fun ps ch => punsubscribe id ch ps) ps l) = channels ps.
Proof. revert ps. induction l as [|x l IH]; intros ps; cbn; [done|]. by rewrite IH. Qed.

Lemma reset_step pw c w c' w' :
  reset pw c w = (c', w') -> reg_step c (w_pubsub w) c' (w_pubsub w').
Proof.
  unfold reset. intros [= <- <-]. split_and!; [done| |].
  - intros [H1 H2]. split; intros k; cbn.
    + rewrite punsubs_channels, unsubs_in, H1, elem_of_elements. set_solver.
    + rewrite punsubs_in, unsubs_patterns, H2, elem_of_elements. set_solver.
  - intros n k Hn. cbn. rewrite punsubs_channels, punsubs_in, unsubs_in, unsubs_patterns.
    naive_solver.
Qed.

(** What a step leaves of the subscriptions, whatever its outcome. *)
Definition outcome_reg c ps (o : Outcome) : Prop :=
  match o with
  | Done c' w' _ _ | Blocked c' w' _ => reg_step c ps c' (w_pubsub w')
  | Abort => True
  end.

Lemma apply_prog_pubsub env w p r w' : apply_prog env w p = Some (r, w') -> w_pubsub w' = w_pubsub w.
Proof.
  unfold apply_prog. destruct (e_closed env); [by intros [= _ <-]|].
  destruct (seq_apply _ _ _ _) as [[[r0|] i] rec]; [|done]. by intros [= _ <-].
Qed.

Lemma apply_exec_pubsub env w dbi watch ts q r w' :
  apply_exec env w dbi watch ts q = Some (r, w') -> w_pubsub w' = w_pubsub w.
Proof.
  unfold apply_exec. destruct (e_closed env); [by intros [= _ <-]|].
  destruct (seq_apply _ _ _ _) as [[[[r0|] l] i] rec]; [|done]. by intros [= _ <-].
Qed.

Lemma poll_reg env c w b : outcome_reg c (w_pubsub w) (poll env c w b).
Proof.
  unfold poll. destruct (e_closed env); [by apply reg_step_same|].
  destruct (apply_prog env w _) as [[r w']|] eqn:E; [|done].
  apply apply_prog_pubsub in E. destruct (negb _); [|destruct (_ && _)]; cbn; rewrite E;
    by apply reg_step_same.
Qed.

Lemma start_wait_reg env c w t b : outcome_reg c (w_pubsub w) (start_wait env c w t b).
Proof.
  unfold start_wait. destruct (filter_opt _ _) as [f|]; [|by apply reg_step_same].
  destruct (f64_eqb _ _); [apply poll_reg|]. destruct (deadline_panics _ _); [done|apply poll_reg].
Qed.

Lemma hello_opts_subs pw (n : nat) l c e :
  (length l <= n)%nat ->
  let c' := (hello_opts pw l c e).1 in c_id c' = c_id c /\ c_subs c' = c_subs c /\ c_psubs c' = c_psubs c.
Proof.
  revert l c e. induction n as [|n IH]; intros [|a l] c e Hn; cbn in Hn; try lia; try done.
  cbn [hello_opts].
  destruct (beq (upper a) (bs "AUTH")).
  - destruct l as [|user [|pass l]]; cbn in Hn.
    + done.
    + destruct pw as [p|]; [|done]. by destruct (_ && _).
    + destruct pw as [p|]; [|apply IH; lia]. destruct (_ && _).
      * destruct (IH l (set_auth true c) e) as (-> & -> & ->); [lia|done].
      * apply IH. lia.
  - destruct (beq (upper a) (bs "SETNAME")); [|apply IH; lia]. destruct l as [|m l]; [done|].
    cbn in Hn. destruct (IH l (set_name (lossy m) c) e) as (-> & -> & ->); [lia|done].
Qed.

Lemma hello_subs pw c rest c' r :
  hello pw c rest = (c', r) -> c_id c' = c_id c /\ c_subs c' = c_subs c /\ c_psubs c' = c_psubs c.
Proof.
  assert (Hw : forall p l, let c' := (hello_with pw c p l).1 in
    c_id c' = c_id c /\ c_subs c' = c_subs c /\ c_psubs c' = c_psubs c).
  { intros p l. unfold hello_with. pose proof (hello_opts_subs pw (length l) l c false ltac:(lia)) as Ho.
    destruct (hello_opts pw l c false) as [c1 [|]]; [done|]. by destruct (negb (c_auth c1)). }
  unfold hello. intros E. assert (c' = (c', r).1) as -> by done. rewrite <- E.
  destruct rest as [|p rest]; [apply Hw|].
  destruct (parse_i64 p) as [[|[[|[]|]|[|[]|]|]|]|]; done || apply Hw.
Qed.

Lemma auth_subs pw c rest c' r :
  auth pw c rest = (c', r) -> c_id c' = c_id c /\ c_subs c' = c_subs c /\ c_psubs c' = c_psubs c.
Proof.
  unfold auth. destruct (match rest with [] => _ | _ => _ end) as [[u p]|], pw as [e|];
    try (by intros [= <- _]). destruct (_ && _); by intros [= <- _].
Qed.

Lemma client_subs c rest c' r :
  client_reply c rest = (c', r) -> c_id c' = c_id c /\ c_subs c' = c_subs c /\ c_psubs c' = c_psubs c.
Proof.
  unfold client_reply. repeat (case_match; try (by intros [= <- _])).
Qed.

Lemma watch_subs c w rest c' r :
  watch_arm c w rest = (c', r) -> c_id c' = c_id c /\ c_subs c' = c_subs c /\ c_psubs c' = c_psubs c.
Proof. unfold watch_arm. repeat (case_match; try (by intros [= <- _])). Qed.

(** A reply arm: the same subscriptions, the same registry. *)
Lemma done_reg c c' w w' fs quit :
  w_pubsub w' = w_pubsub w -> c_id c' = c_id c /\ c_subs c' = c_subs c /\ c_psubs c' = c_psubs c ->
  outcome_reg c (w_pubsub w) (Done c' w' fs quit).
Proof. intros Hw (?&?&?). cbn. rewrite Hw. by apply reg_step_same. Qed.

Lemma exec_reg env c w : outcome_reg c (w_pubsub w) (exec_arm env c w).
Proof.
  unfold exec_arm. destruct (c_multi c) as [q|]; [|by apply done_reg].
  destruct (c_multi_error c); [by apply done_reg|].
  destruct (apply_exec _ _ _ _ _ _) as [[r w']|] eqn:E; [|done].
  apply done_reg; [by apply apply_exec_pubsub in E|done].
Qed.

Lemma data_reg env c w cmd rest : outcome_reg c (w_pubsub w) (data_arm env c w cmd rest).
Proof.
  unfold data_arm. destruct (is_write cmd).
  - destruct (apply_prog _ _ _) as [[r w']|] eqn:E; [|done].
    apply done_reg; [by apply apply_prog_pubsub in E|done].
  - destruct (interp _ _).1; [by apply done_reg|done].
Qed.

Lemma unsubscribe_reg pm c w rest : outcome_reg c (w_pubsub w) (unsubscribe_cmd pm c w rest).
Proof.
  unfold unsubscribe_cmd. destruct (unsub_loop pm _ c _) as [[c' ps] fs] eqn:E. cbn.
  by apply unsub_loop_step in E.
Qed.

Lemma blocking_reg env c w rest left :
  outcome_reg c (w_pubsub w) (blocking_pop env c w rest left) /\
  outcome_reg c (w_pubsub w) (blocking_lmove env c w rest).
Proof.
  unfold blocking_pop, blocking_lmove. split.
  - destruct (_ <? _); [by apply done_reg|apply start_wait_reg].
  - destruct (negb _); [by apply done_reg|apply start_wait_reg].
Qed.

Ltac reg_leaf := first
  [ by apply done_reg | apply exec_reg | apply data_reg | apply unsubscribe_reg
  | apply (blocking_reg _ _ _ _ true) | apply blocking_reg ].

Ltac reg_split := repeat match goal with
  | |- outcome_reg _ _ (if ?b then _ else _) => destruct b
  | |- outcome_reg _ _ (match ?x with _ => _ end) => destruct x eqn:?
  end.

Lemma step_match_reg pw env c w cmd rest :
  outcome_reg c (w_pubsub w) (step_match pw env c w cmd rest).
Proof.
  unfold step_match. reg_split; try reg_leaf;
    try (apply done_reg; [done|]; first [by eapply auth_subs|by eapply hello_subs|by eapply watch_subs|by eapply client_subs]).
  - by eapply reset_step.
  - by eapply sub_loop_step.
  - apply done_reg; [|done]. unfold save_arm in *. by simplify_eq.
Qed.

Lemma step_reg pw env c w args : outcome_reg c (w_pubsub w) (step pw env c w args).
Proof.
  unfold step. destruct (_ && _); [by apply done_reg|]. destruct (_ && _); [by apply done_reg|].
  destruct (c_multi c); [|apply step_match_reg]. destruct (one_of _ never_queued); [apply step_match_reg|].
  destruct (_ || _); by apply done_reg.
Qed.
End Registry.

(** ** Properties *)

(** C2: EXEC is all or nothing, isolated and optimistic, for a client that has authenticated, is
    not in subscribe mode and has queued its commands without an error. If, of a watched key, the
    newest version still stored is later than the WATCH, the reply is null and nothing changed.
    Otherwise the queued commands ran back to back on one state of the store, which no other
    client's command can enter: the replies, the messages published and the unexpired contents
    committed are those of running the queue alone on the map of unexpired values. Either way the
    transaction and the watch are over. (A watched key that was deleted since, and whose versions
    the collector has dropped, has no newer version stored and does not count:
    Isolation.watch_misses_collected_delete.) *)
Theorem exec_atomic `{CmdGeo.Libm} `{Lowercase} password env c w q args c' w' frames quit :
  upper (arg args 0) = bs "EXEC" -> c_auth c = true -> in_subscribe_mode c = false ->
  c_multi c = Some q -> c_multi_error c = false -> e_closed env = false ->
  wf_inner (w_store w) -> step password env c w args = Done c' w' frames quit ->
  let changed := exists nk, nk ∈ c_watch c /\ c_watch_ts c < head_ts (chain_of (w_store w) nk) in
  c_multi c' = None /\ c_watch c' = [] /\ quit = false /\
  (changed /\ frames = [NullArray] /\ w_store w' = w_store w /\ w_mail w' = w_mail w \/
   ~ changed /\
   let '(rs, mail, md) := exec_loop (e_live env) (w_pubsub w) (c_db c) q
                            (model_of (w_store w) (e_now env)) in
   exists replies, rs = Some replies /\ frames = [Array replies] /\
     w_mail w' = w_mail w ++ mail /\
     forall nk, unexpired (e_now env) (latest (w_store w') nk)
                = unexpired (e_now env) (m_data md !! nk)).
Proof.
  intros Hcmd Hau Hsub Hq He Hcl Hwf. unfold step. rewrite Hcmd, Hau, Hsub, Hq.
  rewrite andb_false_r. ground_names. unfold step_match. ground_names.
  unfold exec_arm. rewrite Hq, He. unfold apply_exec. rewrite Hcl.
  set (i := w_store w) in *. set (now := e_now env).
  set (f := exec_closure _ _ _ _ _ _).
  assert (Hlat := fun nk => seq_apply_latest i (e_floor env) now f nk
                    (exec_closure_prog _ _ _ _ _ _)).
  assert (Hfst := seq_apply_fst i (e_floor env) now f).
  destruct (watch_ok (writer_new i now) (c_watch c) (c_watch_ts c)) eqn:Ew.
  - pose proof (proj1 (watch_ok_new _ _ _ _) Ew) as Hw.
    destruct (exec_loop_sim (e_live env) (w_pubsub w) (c_db c) q _ _ (writer_new_sim i now Hwf))
      as [Hr Hs].
    pose proof (exec_loop_now (e_live env) (w_pubsub w) (c_db c) q (writer_new i now)) as Hnow.
    unfold f, exec_closure in Hfst, Hlat. rewrite Ew in Hfst, Hlat.
    destruct (exec_loop _ _ _ q (writer_new i now)) as [[rs mail] w1].
    destruct (exec_loop _ _ _ q (model_of i now)) as [[rs' mail'] md]. cbn in Hr, Hs, Hnow.
    injection Hr as <- <-. destruct (seq_apply i _ now _) as [[[r m] i'] rec]. cbn in Hfst, Hlat.
    injection Hfst as -> ->. destruct rs as [replies|]; [|done]. cbn. intros [= <- <- <- <-].
    split_and!; [done..|]. right. split.
    { intros (nk & Hin & Hlt). specialize (Hw nk Hin). lia. }
    exists replies. split_and!; [done..|]. intros nk. rewrite Hlat.
    pose proof (writer_sim_view _ _ nk Hs) as Hv. by rewrite Hnow in Hv.
  - assert (Hsame : seq_apply i (e_floor env) now f = ((Some NullArray, []), i, None)).
    { unfold seq_apply, f, exec_closure. by rewrite Ew. }
    rewrite Hsame. intros [= <- <- <- <-]. split_and!; [done..|]. left.
    split_and!; [|done|done|by cbn; rewrite app_nil_r].
    unfold watch_ok in Ew. apply not_true_iff_false in Ew. rewrite forallb_forall in Ew.
    destruct (decide (Exists (fun nk => c_watch_ts c < head_ts (chain_of i nk)) (c_watch c))) as [Hex|Hex].
    { by apply Exists_exists in Hex. }
    exfalso. apply Ew. intros nk Hin. apply list_elem_of_In in Hin.
    assert (Hle : ~ (c_watch_ts c < head_ts (chain_of i nk))).
    { intros Hlt. apply Hex. apply Exists_exists. by exists nk. }
    pose proof (proj2 (watch_ok_new i now [nk] (c_watch_ts c))) as Hk. unfold watch_ok in Hk.
    rewrite forallb_forall in Hk. apply Hk; [|by left]. intros nk' ->%list_elem_of_singleton. lia.
Qed.

(** Until a client has given the password, none of its commands reads or writes the
    store or sends a message, and it does not become authenticated: a step always completes,
    leaves both as they were, and authenticates only when the password itself is among the
    arguments. *)
Theorem unauthenticated_harmless `{CmdGeo.Libm} `{Lowercase} pw env c w args :
  c_auth c = false ->
  exists c' w' frames quit, step (Some pw) env c w args = Done c' w' frames quit /\
    w_store w' = w_store w /\ w_mail w' = w_mail w /\
    (c_auth c' = true -> knows pw (drop 1 args)).
Proof.
  intros Hau. unfold step. rewrite Hau. cbn [negb andb].
  destruct (one_of (upper (arg args 0)) [bs "AUTH"; bs "HELLO"; bs "QUIT"; bs "RESET"]) eqn:Ec.
  2: { eexists _, _, _, _. split_and!; [reflexivity..|]. congruence. }
  cbn [negb]. destruct ((c_proto c =? 2) && _ && _).
  { eexists _, _, _, _. split_and!; [reflexivity..|]. congruence. }
  set (rest := drop 1 args). set (cmd := upper (arg args 0)) in *.
  assert (Hm : exists c' w' frames quit, step_match (Some pw) env c w cmd rest = Done c' w' frames quit /\
    w_store w' = w_store w /\ w_mail w' = w_mail w /\ (c_auth c' = true -> knows pw rest)).
  { apply one_of_elem in Ec.
    repeat apply elem_of_cons in Ec as [->|Ec]; [..|by apply elem_of_nil in Ec];
      unfold step_match; ground_names.
    - destruct (auth (Some pw) c rest) as [c1 r] eqn:E. eexists _, _, _, _. split_and!; [reflexivity..|].
      intros Ha. destruct (auth_auth _ _ _ _ _ E Ha); congruence.
    - destruct (hello (Some pw) c rest) as [c1 r] eqn:E. eexists _, _, _, _. split_and!; [reflexivity..|].
      intros Ha. destruct (hello_auth _ _ _ _ _ E Ha); congruence.
    - eexists _, _, _, _. split_and!; [reflexivity..|]. congruence.
    - eexists _, _, _, _. split_and!; [reflexivity..|]. done. }
  destruct (c_multi c) as [q|]; [|done]. destruct (one_of cmd never_queued); [done|].
  destruct (is_data_command cmd || beq cmd (bs "PUBLISH"));
    eexists _, _, _, _; (split_and!; [reflexivity..|]); cbn; congruence.
Qed.

(** The registry and the connections never disagree: through any command, blocked or not,
    the registry lists a connection under exactly the channels and patterns the connection
    believes it is subscribed to, and no command touches another connection's subscriptions;
    after the connection hangs up nothing is registered for it. *)
Theorem subscriptions_agree `{CmdGeo.Libm} `{Lowercase} pw env c w args c' w' :
  reg_ok c (w_pubsub w) ->
  (exists frames quit, step pw env c w args = Done c' w' frames quit) \/
    (exists b, step pw env c w args = Blocked c' w' b) ->
  c_id c' = c_id c /\ reg_ok c' (w_pubsub w') /\ others_same (c_id c) (w_pubsub w) (w_pubsub w') /\
  forall k, ~ in_map (channels (w_pubsub (hang_up w' c'))) k (c_id c) /\
            ~ in_map (patterns (w_pubsub (hang_up w' c'))) k (c_id c).
Proof.
  intros Hok Hstep. pose proof (step_reg pw env c w args) as Hr.
  assert (Hs : reg_step c (w_pubsub w) c' (w_pubsub w')).
  { destruct Hstep as [(fs & quit & E)|(b & E)]; by rewrite E in Hr. }
  destruct Hs as (Hid & Hs & Ho). split_and!; [done|by apply Hs|done|]. intros k.
  cbn. rewrite !in_drop, Hid. tauto.
Qed.

(** Commands processed one after the other, each to completion. *)
Fixpoint run_steps `{CmdGeo.Libm} `{Lowercase} (pw : option Bytes) (env : nat -> Env)
    (c : Conn) (w : World) (out : Bytes) (l : list (list Bytes)) : option (Conn * World * Bytes) :=
  match l with
  | [] => Some (c, w, out)
  | args :: l' =>
      match step pw (env 0%nat) c (count_cmd w) args with
      | Done c' w' frames false => run_steps pw (fun n => env (S n)) c' w' (out ++ send c' frames) l'
      | _ => None
      end
  end.

Lemma drain_pipeline `{CmdGeo.Libm} `{Lowercase} pw l : forall fuel env c w tail out c' w' out',
  Forall (fun args => args <> [] /\ sendable args) l -> parse_command tail = Ok None ->
  run_steps pw env c w out l = Some (c', w', out') -> (length l < fuel)%nat ->
  drain fuel pw env c w (concat (map enc_command l) ++ tail) out = Flush c' w' tail out'.
Proof.
  induction l as [|args l IH]; intros fuel env c w tail out c' w' out' Hl Ht Hr Hf;
    (destruct fuel as [|fuel]; [cbn in Hf; lia|]); cbn [map concat app drain].
  - rewrite Ht. cbn in Hr. by injection Hr as -> -> ->.
  - apply Forall_cons in Hl as [[Hne Hs] Hl]. rewrite <- app_assoc, parse_enc_command by done.
    rewrite drop_app_length. destruct args as [|a args]; [done|]. cbn [run_steps] in Hr.
    destruct (step pw (env 0%nat) c (count_cmd w) (a :: args)) as [c1 w1 fs [|]| |]; [done| |done|done].
    apply IH; [done|done|done|]. cbn in Hf. lia.
Qed.

(** Pipelining and segmentation are invisible: a buffer of encoded commands followed by
    any cut of the next one is processed exactly as the complete commands one by one, with
    the replies in order, and the cut bytes stay in the buffer for the next read. *)
Theorem pipeline_steps `{CmdGeo.Libm} `{Lowercase} pw env c w l next n c' w' out' :
  Forall (fun args => args <> [] /\ sendable args) l -> sendable next ->
  (n < length (enc_command next))%nat ->
  run_steps pw env c w [] l = Some (c', w', out') ->
  read_turn pw env c w (concat (map enc_command l) ++ take n (enc_command next))
  = Flush c' w' (take n (enc_command next)) out'.
Proof.
  intros Hl Hs Hn Hr. unfold read_turn. apply drain_pipeline; [done|by apply parse_command_cut|done|].
  rewrite length_app. cut (length l <= length (concat (map enc_command l)))%nat; [lia|].
  clear -Hl. induction Hl as [|args l _ _ IH]; cbn; [lia|]. rewrite length_app.
  assert (1 <= length (enc_command args))%nat by (unfold enc_command, line; cbn; lia). lia.
Qed.

(** A client that may run commands can stop the server: BLPOP with an infinite timeout
    makes the computation of its deadline panic, and XREAD with a BLOCK option that lacks its
    value slices past its arguments; the release profile aborts the process on a panic. *)
Theorem client_can_abort `{CmdGeo.Libm} `{Lowercase} pw env c w :
  c_auth c = true -> in_subscribe_mode c = false -> c_multi c = None ->
  step pw env c w [bs "BLPOP"; bs "k"; bs "inf"] = Abort /\
  step pw env c w [bs "XREAD"; bs "BLOCK"] = Abort.
Proof.
  intros Ha Hs Hm. split; unfold step; rewrite Ha, Hs, Hm, andb_false_r; cbn [negb andb];
    unfold step_match.
  - change (upper (arg [bs "BLPOP"; bs "k"; bs "inf"] 0)) with (bs "BLPOP"). ground_names.
    unfold blocking_pop. cbn [drop]. unfold start_wait.
    change (parse_f64 _) with (Some (SpecFloat.S754_infinity false)). reflexivity.
  - change (upper (arg [bs "XREAD"; bs "BLOCK"] 0)) with (bs "XREAD"). ground_names. reflexivity.
Qed.

(** A protocol error discards the replies to the commands already executed in the same read:
    only the error is written. *)
Lemma protocol_error_drops_replies `{CmdGeo.Libm} `{Lowercase} env w :
  exists w', read_turn None (fun _ => env) (conn_new 1 None) w
    (enc_command [bs "PING"] ++ bs "*x" ++ CRLF)
  = Closed w' (send (conn_new 1 None) [err (bs "ERR Protocol error: invalid multibulk length")]).
Proof. eexists. reflexivity. Qed.

(** ** Witnesses *)

Definition demo_lower : Lowercase := {| to_lowercase := map lower_byte |}.

Definition demo_env : Env :=
  {| e_now := 5; e_floor := 0; e_closed := false; e_live := ∅; e_mono := 0; e_secs := 0;
     e_micros := 0; e_uptime := 0; e_pid := 1; e_save := Ok tt; e_packed _ := 0;
     e_passed := false |}.

Definition demo_world : World :=
  {| w_store := demo_store; w_pubsub := pubsub_default; w_mail := []; w_last_save := 0;
     w_connected := 1; w_total_conns := 1; w_total_cmds := 0 |}.

(** A connection with two commands queued, which watches a key at the current timestamp. *)
Definition demo_conn : Conn :=
  set_watch [(0, bs "k")] (current_ts demo_store)
    (set_multi (Some [(bs "APPEND", [bs "k"; bs "w"]); (bs "GET", [bs "k"])]) false
       (conn_new 1 None)).

(** The state after a step that completes. *)
Definition done_of (o : Outcome) : option (Conn * World * list Resp * bool) :=
  match o with Done c w fs q => Some (c, w, fs, q) | _ => None end.

Lemma exec_atomic_witness : exists c' w',
  step (H := demo_libm) (H0 := demo_lower) None demo_env demo_conn demo_world [bs "exec"]
  = Done c' w' [Array [Int 2; Bulk (bs "vw")]] false /\
  latest (w_store w') (0, bs "k") = Some (DStr (bs "vw"), None) /\ c_multi c' = None.
Proof.
  eexists _, _. split; [vm_compute; reflexivity|]. split; [vm_compute; reflexivity|].
  eapply (exec_atomic (H := demo_libm) (H0 := demo_lower) None demo_env demo_conn demo_world
           _ [bs "exec"]); try reflexivity; apply demo_store_wf.
Defined.

Lemma unauthenticated_harmless_witness : exists c' w' frames quit,
  step (H := demo_libm) (H0 := demo_lower) (Some (bs "pw")) demo_env (conn_new 1 (Some (bs "pw")))
    demo_world [bs "AUTH"; bs "no"] = Done c' w' frames quit /\ c_auth c' = false /\
  w_store w' = demo_store.
Proof.
  destruct (unauthenticated_harmless (H := demo_libm) (H0 := demo_lower) (bs "pw") demo_env
    (conn_new 1 (Some (bs "pw"))) demo_world [bs "AUTH"; bs "no"] eq_refl)
    as (c' & w' & fs & q & E & Hw & _).
  exists c', w', fs, q. split; [exact E|]. split; [|exact Hw].
  vm_compute in E. injection E as <- _ _ _. reflexivity.
Defined.

Lemma subscriptions_agree_witness : exists c' w',
  step (H := demo_libm) (H0 := demo_lower) None demo_env (conn_new 1 None) demo_world
    [bs "SUBSCRIBE"; bs "news"]
  = Done c' w' [Push [bulk_str (bs "subscribe"); Bulk (bs "news"); Int 1]] false /\
  reg_ok c' (w_pubsub w') /\ in_map (channels (w_pubsub w')) (bs "news") 1.
Proof.
  eexists _, _. split; [vm_compute; reflexivity|]. split.
  - eapply (subscriptions_agree (H := demo_libm) (H0 := demo_lower) None demo_env (conn_new 1 None)
      demo_world [bs "SUBSCRIBE"; bs "news"]).
    + split; intros k; unfold in_map; (split; intros Hk; [exact Hk|]);
        by apply elem_of_empty in Hk.
    + left. eexists _, _. vm_compute. reflexivity.
  - vm_compute. reflexivity.
Defined.

Lemma pipeline_steps_witness :
  read_turn (H := demo_libm) (H0 := demo_lower) None (fun _ => demo_env) (conn_new 1 None) demo_world
    (concat (map enc_command [[bs "SET"; bs "k"; bs "x"]; [bs "GET"; bs "k"]])
     ++ take 5 (enc_command [bs "PING"])) =
  match run_steps (H := demo_libm) (H0 := demo_lower) None (fun _ => demo_env) (conn_new 1 None)
          demo_world [] [[bs "SET"; bs "k"; bs "x"]; [bs "GET"; bs "k"]] with
  | Some (c', w', out') => Flush c' w' (bs "*1" ++ CRLF ++ bs "$") out'
  | None => Aborted
  end.
Proof.
  set (r := run_steps _ _ _ _ _ _). destruct r as [[[c' w'] out']|] eqn:E; [|vm_compute in E; discriminate E].
  apply (pipeline_steps (H := demo_libm) (H0 := demo_lower)); [| |vm_compute; lia|exact E].
  - repeat constructor; try discriminate; vm_compute; discriminate.
  - split; [vm_compute; discriminate|]. repeat constructor; vm_compute; discriminate.
Defined.

Lemma client_can_abort_witness :
  step (H := demo_libm) (H0 := demo_lower) None demo_env (conn_new 1 None) demo_world
    [bs "BLPOP"; bs "k"; bs "inf"] = Abort.
Proof.
  apply (client_can_abort (H := demo_libm) (H0 := demo_lower) None demo_env (conn_new 1 None) demo_world);
    reflexivity.
Defined.
