(* ===== verification/Json.v ===== *)
(** * JSON values and their encodings (used by src/table/mod.rs)

    The data model of [serde_json]: [Value], its numbers, its ordered maps. What the source
    delegates to libraries is the class [Serde]: JSON and MessagePack bytes, compression, the
    text of a float. [SerdeLaws] is what it relies on: decoding inverts encoding for the
    values a row can hold ([storable]). *)

From S2P Require Import Prelude Util.
From Stdlib Require Import SpecFloat.

(** [serde_json::Number] *)
Inductive Number : Type :=
| PosInt (n : Z)
| NegInt (n : Z)
| Float (f : f64).

(** [serde_json::Value]; an object is its bindings in ascending key order. *)
Inductive Value : Type :=
| Null
| Bool (b : bool)
| Num (n : Number)
| Str (s : Bytes)
| Array (l : list Value)
| Object (m : list (Bytes * Value)).

(** Induction that reaches into arrays and objects. *)
Section ValueInd.
Variable P : Value -> Prop.
Hypothesis Hnull : P Null.
Hypothesis Hbool : forall b, P (Bool b).
Hypothesis Hnum : forall n, P (Num n).
Hypothesis Hstr : forall s, P (Str s).
Hypothesis Harray : forall l, Forall P l -> P (Array l).
Hypothesis Hobject : forall m, Forall (fun kv => P kv.2) m -> P (Object m).

Fixpoint value_rect' (v : Value) : P v :=
  match v with
  | Null => Hnull
  | Bool b => Hbool b
  | Num n => Hnum n
  | Str s => Hstr s
  | Array l =>
      Harray l ((fix go l := match l return Forall P l with
                             | [] => @List.Forall_nil _ _
                             | v :: l' => @List.Forall_cons _ P v l' (value_rect' v) (go l')
                             end) l)
  | Object m =>
      Hobject m ((fix go m := match m return Forall (fun kv => P kv.2) m with
                              | [] => @List.Forall_nil _ _
                              | kv :: m' => @List.Forall_cons _ (fun kv => P kv.2) kv m' (value_rect' kv.2) (go m')
                              end) m)
  end.
End ValueInd.

(** ** Objects *)

(** [Map::get] *)
Fixpoint map_get (m : list (Bytes * Value)) (k : Bytes) : option Value :=
  match m with
  | [] => None
  | (k', v) :: m' => if beq k k' then Some v else map_get m' k
  end.

(** [Map::insert] *)
Fixpoint map_insert (k : Bytes) (v : Value) (m : list (Bytes * Value)) : list (Bytes * Value) :=
  match m with
  | [] => [(k, v)]
  | (k', v') :: m' =>
      if beq k k' then (k, v) :: m'
      else if bytes_ltb k k' then (k, v) :: m
      else (k', v') :: map_insert k v m'
  end.

(** [Value::get] with a string index. *)
Definition get_field (v : Value) (k : Bytes) : option Value :=
  match v with Object m => map_get m k | _ => None end.

(** [if let Some(obj) = value.as_object_mut() { obj.insert(k, x); }] *)
Definition set_field (k : Bytes) (x : Value) (v : Value) : Value :=
  match v with Object m => Object (map_insert k x m) | _ => v end.

(** [Number::as_f64] *)
Definition as_f64 (n : Number) : f64 :=
  match n with
  | PosInt n => f64_of_uint n
  | NegInt n => f64_of_dec true (- n) 0
  | Float f => f
  end.

(** [Number::as_i64] *)
Definition as_i64 (n : Number) : option Z :=
  match n with
  | PosInt n => if n <=? I64_MAX then Some n else None
  | NegInt n => Some n
  | Float _ => None
  end.

(** ** Library code *)

Class Serde := {
  json_to_vec : Value -> Bytes;              (* serde_json::to_vec, to_string *)
  json_from_slice : Bytes -> option Value;   (* serde_json::from_slice *)
  float_to_json : f64 -> Bytes;              (* the text of a float *)
  rmp_to_vec_named : Value -> option Bytes;  (* rmp_serde::to_vec_named *)
  rmp_from_slice : Bytes -> option Value;    (* rmp_serde::from_slice: one value, then anything *)
  zstd_encode : Bytes -> option Bytes;       (* zstd::encode_all at level 1 *)
  zstd_decode : Bytes -> option Bytes }.     (* zstd::decode_all *)

(** [Number::to_string] *)
Definition number_to_string `{Serde} (n : Number) : Bytes :=
  match n with PosInt n | NegInt n => dec n | Float f => float_to_json f end.

(** ** Values a row can hold *)

Definition number_ok (n : Number) : bool :=
  match n with
  | PosInt n => (0 <=? n) && (n <? U64)
  | NegInt n => (I64_MIN <=? n) && (n <? 0)
  | Float f => negb (is_nan f) && negb (is_infinite f)
  end.

Fixpoint ascending (l : list Bytes) : bool :=
  match l with
  | a :: (b :: _) as l' => bytes_ltb a b && ascending l'
  | _ => true
  end.

(** The decoders' limit on nesting. *)
Definition DEPTH : nat := 100.

(** Built by the library's own operations and nested at most [d] deep. *)
Fixpoint nested_ok (d : nat) (v : Value) {struct d} : bool :=
  match v with
  | Num n => number_ok n
  | Array l => match d with O => false | S d' => forallb (nested_ok d') l end
  | Object m =>
      match d with
      | O => false
      | S d' => ascending (map fst m) && forallb (fun kv => nested_ok d' kv.2) m
      end
  | _ => true
  end.

Definition storable (v : Value) : bool := nested_ok DEPTH v.

(** No float: the JSON text of a float may be read back with another last digit. *)
Fixpoint float_free (v : Value) : bool :=
  match v with
  | Num (Float _) => false
  | Array l => forallb float_free l
  | Object m => forallb (fun kv => float_free kv.2) m
  | _ => true
  end.

Class SerdeLaws `{Serde} := {
  rmp_round : forall v b r, storable v = true -> rmp_to_vec_named v = Some b ->
    rmp_from_slice (b ++ r) = Some v;
  zstd_round : forall b c, zstd_encode b = Some c -> zstd_decode c = Some b;
  json_round : forall v, storable v = true -> float_free v = true ->
    json_from_slice (json_to_vec v) = Some v }.

(** ** Lemmas on objects *)

Section Objects.
Implicit Types (m : list (Bytes * Value)) (k : Bytes).

Lemma map_get_insert m k k' v :
  map_get (map_insert k v m) k' = if beq k' k then Some v else map_get m k'.
Proof.
  induction m as [|[j w] m IH]; cbn; [done|].
  destruct (beq k j) eqn:E; cbn.
  - apply beq_true in E as <-. by destruct (beq k' k).
  - destruct (bytes_ltb k j); cbn; [done|]. rewrite IH. destruct (beq k' j) eqn:Ej; [|done].
    apply beq_true in Ej as ->. destruct (beq j k) eqn:Ek; [|done].
    apply beq_true in Ek as ->. by rewrite beq_refl in E.
Qed.

Lemma get_set_field v k k' x :
  get_field (set_field k x v) k' =
  match v with Object _ => if beq k' k then Some x else get_field v k' | _ => None end.
Proof. destruct v; try done. apply map_get_insert. Qed.

Lemma ascending_cons k l : ascending (k :: l) = true ->
  ascending l = true /\ Forall (fun j => bytes_ltb k j = true) l.
Proof.
  revert k. induction l as [|a l IH]; intros k; [done|]. cbn [ascending].
  rewrite andb_true_iff. intros [H1 H2]. split; [done|]. constructor; [done|].
  apply IH in H2 as [_ H2]. eapply Forall_impl; [exact H2|]. intros j. by apply bytes_ltb_trans.
Qed.

Lemma ascending_build k l :
  ascending l = true -> Forall (fun j => bytes_ltb k j = true) l -> ascending (k :: l) = true.
Proof. destruct l as [|a l]; [done|]. intros H1 H2. cbn. apply Forall_cons in H2 as [-> _]. done. Qed.

Lemma map_insert_keys m k v (P : Bytes -> Prop) :
  Forall P (map fst m) -> P k -> Forall P (map fst (map_insert k v m)).
Proof.
  induction m as [|[j w] m IH]; cbn; intros Hm Hk; [by constructor|].
  apply Forall_cons in Hm as [Hj Hm].
  destruct (beq k j); [by constructor|]. destruct (bytes_ltb k j); cbn; repeat constructor; auto.
Qed.

Lemma map_insert_ascending m k v :
  ascending (map fst m) = true -> ascending (map fst (map_insert k v m)) = true.
Proof.
  induction m as [|[j w] m IH]; [done|]. intros Ha. cbn [map fst] in Ha.
  pose proof (ascending_cons _ _ Ha) as [Ha1 Ha2]. cbn [map_insert].
  destruct (beq k j) eqn:E; [apply beq_true in E as ->; done|].
  destruct (bytes_ltb k j) eqn:E2; cbn [map fst].
  - apply ascending_build; [done|]. constructor; [done|]. eapply Forall_impl; [exact Ha2|].
    intros i. by apply bytes_ltb_trans.
  - apply ascending_build; [by apply IH|]. apply map_insert_keys; [done|].
    destruct (bytes_ltb j k) eqn:E3; [done|]. rewrite (bytes_ltb_tie k j E2 E3), beq_refl in E. done.
Qed.

Lemma set_field_nested d k x v :
  nested_ok (S d) v = true -> nested_ok d x = true -> nested_ok (S d) (set_field k x v) = true.
Proof.
  destruct v as [| | | | |m]; try done. cbn. rewrite !andb_true_iff. intros [Ha Hv] Hx.
  split; [by apply map_insert_ascending|]. clear Ha. induction m as [|[j w] m IH]; cbn in *.
  - by rewrite Hx.
  - apply andb_true_iff in Hv as [Hw Hv]. destruct (beq k j); cbn; [by rewrite Hx|].
    destruct (bytes_ltb k j); cbn; [by rewrite Hx, Hw|]. by rewrite Hw, IH.
Qed.

Lemma DEPTH_S : exists d, DEPTH = S d.
Proof. by exists 99%nat. Qed.

Lemma storable_set_field k x v :
  storable v = true -> (forall d, nested_ok d x = true) -> storable (set_field k x v) = true.
Proof.
  unfold storable. destruct DEPTH_S as [d ->]. intros Hv Hx. by apply set_field_nested.
Qed.

Lemma map_get_below m k : Forall (fun j => bytes_ltb k j = true) (map fst m) -> map_get m k = None.
Proof.
  induction m as [|[j w] m IH]; [done|]. cbn. intros [Hj Hm]%Forall_cons.
  destruct (beq k j) eqn:E; [|by apply IH]. apply beq_true in E as ->. by rewrite bytes_ltb_irrefl in Hj.
Qed.

(** Objects with the same fields are equal. *)
Lemma map_get_ext m1 : forall m2, ascending (map fst m1) = true -> ascending (map fst m2) = true ->
  (forall k, map_get m1 k = map_get m2 k) -> m1 = m2.
Proof.
  induction m1 as [|[k1 v1] m1 IH]; intros [|[k2 v2] m2] H1 H2 Hg; [done| | |].
  - specialize (Hg k2). cbn in Hg. by rewrite beq_refl in Hg.
  - specialize (Hg k1). cbn in Hg. by rewrite beq_refl in Hg.
  - cbn [map fst] in H1, H2. apply ascending_cons in H1 as [A1 F1], H2 as [A2 F2].
    assert (Hk : k1 = k2).
    { destruct (bytes_ltb k1 k2) eqn:E; [|destruct (bytes_ltb k2 k1) eqn:E2; [|by apply bytes_ltb_tie]].
      - specialize (Hg k1). rewrite (map_get_below ((k2, v2) :: m2)) in Hg; [by cbn in Hg; rewrite beq_refl in Hg|].
        constructor; [done|]. eapply Forall_impl; [exact F2|]. intros j. by apply bytes_ltb_trans.
      - specialize (Hg k2). rewrite (map_get_below ((k1, v1) :: m1)) in Hg; [by cbn in Hg; rewrite beq_refl in Hg|].
        constructor; [done|]. eapply Forall_impl; [exact F1|]. intros j. by apply bytes_ltb_trans. }
    subst k2. pose proof (Hg k1) as Hv. cbn in Hv. rewrite beq_refl in Hv. injection Hv as <-. f_equal.
    apply IH; [done..|]. intros k. specialize (Hg k). cbn in Hg. destruct (beq k k1) eqn:E; [|done].
    apply beq_true in E as ->. by rewrite !map_get_below.
Qed.

Lemma nested_ok_mono d : forall v, nested_ok d v = true -> nested_ok (S d) v = true.
Proof.
  induction d as [|d IH]; intros v; destruct v as [| | | |l|m]; try done.
  - intros Hl. cbn [nested_ok] in Hl. change (forallb (nested_ok (S d)) l = true).
    rewrite List.forallb_forall in *. auto.
  - intros Hm. cbn [nested_ok] in Hm. change (ascending (map fst m) && forallb (fun kv => nested_ok (S d) kv.2) m = true).
    rewrite andb_true_iff, List.forallb_forall in *. destruct Hm as [? Hm]. split; auto.
Qed.

Lemma map_get_in m k v : map_get m k = Some v -> In (k, v) m.
Proof.
  induction m as [|[j w] m IH]; cbn; [done|]. destruct (beq k j) eqn:E; [|auto].
  apply beq_true in E as ->. intros [= ->]. by left.
Qed.

Lemma storable_field v k x : storable v = true -> get_field v k = Some x -> storable x = true.
Proof.
  unfold storable. destruct DEPTH_S as [d ->]. destruct v as [| | | | |m]; try done.
  cbn [nested_ok get_field]. rewrite andb_true_iff, List.forallb_forall. intros [_ Hm] Hx%map_get_in.
  by apply nested_ok_mono, (Hm (k, x)).
Qed.
End Objects.

(** The limit is a number to compare with, never one to count down from. *)
#[global] Opaque DEPTH.
#[global] Arguments storable : simpl never.
