(* ===== verification/JsonCodec.v ===== *)
(** * A concrete codec

    An instance of [Serde] with its laws: values are written as numbers in a self-delimiting
    form. It stands for the libraries where a theorem is applied to a concrete input. *)

From S2P Require Import Prelude Util Json.
From stdpp Require Import countable.
From Stdlib Require Import SpecFloat.
#[local] Open Scope Z_scope.

Definition f64_code : Type := unit + (bool + (bool + (bool * positive * Z))).

Definition f64_to_code (f : f64) : f64_code :=
  match f with
  | S754_nan => inl tt
  | S754_zero s => inr (inl s)
  | S754_infinity s => inr (inr (inl s))
  | S754_finite s m e => inr (inr (inr (s, m, e)))
  end.

Definition f64_of_code (c : f64_code) : f64 :=
  match c with
  | inl _ => S754_nan
  | inr (inl s) => S754_zero s
  | inr (inr (inl s)) => S754_infinity s
  | inr (inr (inr (s, m, e))) => S754_finite s m e
  end.

Lemma f64_code_round f : f64_of_code (f64_to_code f) = f.
Proof. by destruct f. Qed.

#[export] Instance f64_countable : Countable f64 := inj_countable' _ _ f64_code_round.

(** Scalars are the leaves of a tree, arrays and objects its nodes. *)
Definition leaf : Type := bool + (Z + (f64 + Bytes)).

Fixpoint to_tree (v : Value) : gen_tree leaf :=
  match v with
  | Null => GenNode 0 []
  | Bool b => GenLeaf (inl b)
  | Num (PosInt n) => GenNode 3 [GenLeaf (inr (inl n))]
  | Num (NegInt n) => GenNode 4 [GenLeaf (inr (inl n))]
  | Num (Float f) => GenLeaf (inr (inr (inl f)))
  | Str s => GenLeaf (inr (inr (inr s)))
  | Array l => GenNode 1 (map to_tree l)
  | Object m => GenNode 2 (map (fun kv => GenNode 5 [GenLeaf (inr (inr (inr kv.1))); to_tree kv.2]) m)
  end.

Fixpoint of_tree (t : gen_tree leaf) : Value :=
  match t with
  | GenLeaf (inl b) => Bool b
  | GenLeaf (inr (inl n)) => Null
  | GenLeaf (inr (inr (inl f))) => Num (Float f)
  | GenLeaf (inr (inr (inr s))) => Str s
  | GenNode 3 [GenLeaf (inr (inl n))] => Num (PosInt n)
  | GenNode 4 [GenLeaf (inr (inl n))] => Num (NegInt n)
  | GenNode 1 l => Array (map of_tree l)
  | GenNode 2 l =>
      Object (map (fun t => match t with
                            | GenNode _ [GenLeaf (inr (inr (inr k))); v] => (k, of_tree v)
                            | _ => ([], Null)
                            end) l)
  | GenNode _ _ => Null
  end.

Lemma tree_round v : of_tree (to_tree v) = v.
Proof.
  induction v as [| | [] | | l IH | m IH] using value_rect'; try done; cbn; f_equal.
  - induction IH as [|v l Hv _ IHl]; cbn; [done|]. by rewrite Hv, IHl.
  - induction IH as [|[k v] m Hv _ IHm]; cbn in *; [done|]. by rewrite Hv, IHm.
Qed.

#[export] Instance value_eq_dec : EqDecision Value.
Proof.
  refine (fun v w => cast_if (decide (to_tree v = to_tree w))).
  - abstract (rewrite <- (tree_round v), <- (tree_round w); by f_equal).
  - abstract (by intros ->).
Defined.
#[export] Instance value_countable : Countable Value := inj_countable' to_tree of_tree tree_round.

(** A number, low bit first, closed by a mark. *)
Fixpoint pos_bytes (p : positive) : Bytes :=
  match p with xO p => 0 :: pos_bytes p | xI p => 1 :: pos_bytes p | xH => [2] end.

Fixpoint bytes_pos (b : Bytes) : option positive :=
  match b with
  | [] => None
  | c :: b => if c =? 0 then xO <$> bytes_pos b else if c =? 1 then xI <$> bytes_pos b else Some xH
  end.

Lemma bytes_pos_app p r : bytes_pos (pos_bytes p ++ r) = Some p.
Proof. induction p as [p IH|p IH|]; cbn; by rewrite ?IH. Qed.

Definition enc_value (v : Value) : Bytes := pos_bytes (encode v).
Definition dec_value (b : Bytes) : option Value := p ← bytes_pos b; decode p.

Lemma dec_enc_value v r : dec_value (enc_value v ++ r) = Some v.
Proof. unfold dec_value, enc_value. rewrite bytes_pos_app. cbn. apply decode_encode. Qed.

Definition demo_serde : Serde :=
  {| json_to_vec := enc_value; json_from_slice := dec_value; float_to_json := fmt_f64;
     rmp_to_vec_named v := Some (enc_value v); rmp_from_slice := dec_value;
     zstd_encode := Some; zstd_decode := Some |}.

Lemma demo_laws : @SerdeLaws demo_serde.
Proof.
  split.
  - intros v b r _ [= <-]. apply dec_enc_value.
  - by intros b c [= <-].
  - intros v _ _. cbn. rewrite <- (app_nil_r (enc_value v)). apply dec_enc_value.
Qed.
