(* ===== verification/Errors.v ===== *)
(** * Errors of the reducer world (src/error.rs)

    [VoltraError] and functions that fail while they change a state. An I/O error and a
    serialization error carry the text of a library, which is left out. And evaluations that
    may panic. *)

From S2P Require Import Prelude.
From Stdlib Require Import Sorting.Sorted.

Inductive VoltraError : Type :=
| Io
| WalError (m : Bytes)
| SerializationError
| TableError (m : Bytes)
| ReducerError (m : Bytes)
| NetworkError (m : Bytes)
| RowNotFound (m : Bytes)
| InvalidArgument (m : Bytes)
| Internal (m : Bytes)
| PermissionDenied (m : Bytes)
| StorageError (m : Bytes)
| TxnConflict (m : Bytes).

(** [?] in a function over a state. *)
Definition tx (S A : Type) : Type := S -> result VoltraError A * S.

#[export] Instance tx_ret {S} : MRet (tx S) := fun _ a s => (Ok a, s).
#[export] Instance tx_bind {S} : MBind (tx S) :=
  fun _ _ f m s => match m s with (Ok a, s') => f a s' | (Err e, s') => (Err e, s') end.

(** What an error of a bind comes from. *)
Lemma bind_err {A B} (m : result VoltraError A) (f : A -> result VoltraError B) e (P : VoltraError -> Prop) :
  (forall e, m = Err e -> P e) -> (forall a, f a = Err e -> P e) -> m ≫= f = Err e -> P e.
Proof. destruct m; cbn; intros; simplify_eq; eauto. Qed.

Lemma bind_ok {A B} (m : result VoltraError A) (f : A -> result VoltraError B) b :
  m ≫= f = Ok b -> exists a, m = Ok a /\ f a = Ok b.
Proof. destruct m; cbn; intros; simplify_eq; eauto. Qed.

Lemma ok_or_err {A} (o : option A) (e e' : VoltraError) : ok_or o e = Err e' -> e' = e.
Proof. by destruct o; intros [=]. Qed.

(** ** Calls that may panic

    A call ends with a value or an error, or, where the source panics, with neither. *)

Definition ev (A : Type) : Type := option (result VoltraError A).

Definition eret {A} (a : A) : ev A := Some (Ok a).
Definition eerr {A} (e : VoltraError) : ev A := Some (Err e).
(** [?] *)
Definition ebind {A B} (m : ev A) (f : A -> ev B) : ev B :=
  match m with Some (Ok a) => f a | Some (Err e) => Some (Err e) | None => None end.
(** [unwrap_or] *)
Definition or_default {A} (d : A) (m : ev A) : option A :=
  match m with Some (Ok a) => Some a | Some (Err _) => Some d | None => None end.
(** [ok()] *)
Definition eok {A} (m : ev A) : option (option A) :=
  match m with Some (Ok a) => Some (Some a) | Some (Err _) => Some None | None => None end.

Declare Scope ev_scope.
Notation "'let?' x := p 'in' q" := (ebind p (fun x => q)) (at level 10, x name, p at level 100, q at level 200) : ev_scope.
Notation "'let!' x := p 'in' q" := (mbind (M := option) (fun x => q) p) (at level 10, x name, p at level 100, q at level 200) : ev_scope.
#[local] Open Scope ev_scope.

Fixpoint omapM {A B} (f : A -> option B) (l : list A) : option (list B) :=
  match l with [] => Some [] | a :: l' => let! b := f a in let! r := omapM f l' in Some (b :: r) end.
Fixpoint emapM {A B} (f : A -> ev B) (l : list A) : ev (list B) :=
  match l with [] => eret [] | a :: l' => let? b := f a in let? r := emapM f l' in eret (b :: r) end.
Fixpoint efold {A B} (f : B -> A -> ev B) (l : list A) (b : B) : ev B :=
  match l with [] => eret b | a :: l' => let? b := f b a in efold f l' b end.

(** [Vec::retain] *)
Fixpoint retain {A} (p : A -> option bool) (l : list A) : option (list A) :=
  match l with
  | [] => Some []
  | a :: l' => let! b := p a in let! r := retain p l' in Some (if b : bool then a :: r else r)
  end.

(** [any] *)
Fixpoint any_of {A} (p : A -> option bool) (l : list A) : option bool :=
  match l with [] => Some false | a :: l' => let! b := p a in if b : bool then Some true else any_of p l' end.

(** A stable sort: an element goes behind those that are not greater. *)
Fixpoint sort_insert {A} (cmp : A -> A -> option comparison) (x : A) (l : list A) : option (list A) :=
  match l with
  | [] => Some [x]
  | y :: l' =>
      let! c := cmp x y in
      match c with
      | Lt | Eq => Some (x :: y :: l')
      | Gt => let! r := sort_insert cmp x l' in Some (y :: r)
      end
  end.
Fixpoint sort_by {A} (cmp : A -> A -> option comparison) (l : list A) : option (list A) :=
  match l with [] => Some [] | x :: l' => let! r := sort_by cmp l' in sort_insert cmp x r end.

(** ** Loops on equal functions *)

Lemma ebind_ext {A B} (m m' : ev A) (f f' : A -> ev B) :
  m = m' -> (forall a, f a = f' a) -> ebind m f = ebind m' f'.
Proof. intros <- Hf. destruct m as [[a|e]|]; cbn; auto. Qed.

Lemma mbind_ext {A B} (m m' : option A) (f f' : A -> option B) :
  m = m' -> (forall a, f a = f' a) -> m ≫= f = m' ≫= f'.
Proof. intros <- Hf. destruct m; cbn; auto. Qed.

Lemma omapM_ext {A B} (f f' : A -> option B) l : (forall a, a ∈ l -> f a = f' a) -> omapM f l = omapM f' l.
Proof.
  induction l as [|a l IH]; intros Hf; cbn; [done|]. rewrite Hf by left. rewrite IH; [done|]. intros b Hb. apply Hf. by right.
Qed.

Lemma emapM_ext {A B} (f f' : A -> ev B) l : (forall a, f a = f' a) -> emapM f l = emapM f' l.
Proof. intros Hf. induction l as [|a l IH]; cbn; [done|]. rewrite Hf, IH. done. Qed.

Lemma efold_ext {A B} (f f' : B -> A -> ev B) l : (forall a b, a ∈ l -> f b a = f' b a) -> forall b, efold f l b = efold f' l b.
Proof.
  induction l as [|a l IH]; intros Hf b; cbn; [done|]. apply ebind_ext; [apply Hf; left|].
  intros c. apply IH. intros. apply Hf. by right.
Qed.

Lemma retain_ext {A} (f f' : A -> option bool) l : (forall a, f a = f' a) -> retain f l = retain f' l.
Proof. intros Hf. induction l as [|a l IH]; cbn; [done|]. rewrite Hf, IH. done. Qed.

Lemma any_of_ext {A} (f f' : A -> option bool) l : (forall a, a ∈ l -> f a = f' a) -> any_of f l = any_of f' l.
Proof.
  induction l as [|a l IH]; intros Hf; cbn; [done|]. rewrite Hf by left. rewrite IH; [done|]. intros b Hb. apply Hf. by right.
Qed.

Lemma sort_by_ext {A} (c c' : A -> A -> option comparison) l : (forall a b, c a b = c' a b) -> sort_by c l = sort_by c' l.
Proof.
  intros Hc. induction l as [|a l IH]; cbn; [done|]. rewrite IH. apply mbind_ext; [done|]. intros r. clear IH.
  induction r as [|b r IH]; cbn; [done|]. rewrite Hc, IH. done.
Qed.

(** ** Sorting *)

Section Sorting.
Context {A : Type}.
Variable cmp : A -> A -> option comparison.
Hypothesis cmp_swap : forall a b c, cmp a b = Some c -> cmp b a = Some (CompOpp c).

(** Not after. *)
Definition in_order (a b : A) : Prop := cmp a b <> Some Gt.

Lemma sort_insert_sorted x l l' : Sorted in_order l -> sort_insert cmp x l = Some l' -> Sorted in_order l' /\ l' ≡ₚ x :: l.
Proof.
  revert l'. induction l as [|y l IH]; intros l' Hl Hi; cbn in Hi.
  - simplify_eq. split; [by repeat constructor|done].
  - destruct (cmp x y) as [c|] eqn:Hc; [|done].
    assert (Hgo : c <> Gt -> l' = x :: y :: l -> Sorted in_order l' /\ l' ≡ₚ x :: y :: l).
    { intros Hn ->. split; [|done]. constructor; [done|]. constructor. unfold in_order. congruence. }
    destruct c; cbn in Hi; simplify_eq; [by apply Hgo|by apply Hgo|].
    destruct (sort_insert cmp x l) as [r|] eqn:Hr; cbn in Hi; simplify_eq.
    apply Sorted_inv in Hl as [Hl Hh]. destruct (IH r Hl eq_refl) as [Hs Hp]. split.
    + constructor; [done|]. assert (Hyx : in_order y x).
      { unfold in_order. rewrite (cmp_swap _ _ _ Hc). done. }
      destruct l as [|z l]; cbn in Hr; simplify_eq; [by constructor|].
      apply HdRel_inv in Hh. destruct (cmp x z) as [[]|]; cbn in Hr; simplify_eq; try by constructor.
      destruct (sort_insert cmp x l); cbn in Hr; simplify_eq. by constructor.
    + rewrite Hp. constructor.
Qed.

Lemma sort_by_sorted l : forall l', sort_by cmp l = Some l' -> Sorted in_order l' /\ l' ≡ₚ l.
Proof.
  induction l as [|x l IH]; intros l' Hs; cbn in Hs; simplify_eq; [split; [constructor|done]|].
  destruct (sort_by cmp l) as [r|]; cbn in Hs; [|done]. destruct (IH r eq_refl) as [Hr Hp].
  destruct (sort_insert_sorted x r l' Hr Hs) as [? Hp']. split; [done|]. by rewrite Hp', Hp.
Qed.
End Sorting.

Lemma Sorted_drop {A} (R : A -> A -> Prop) n l : Sorted R l -> Sorted R (drop n l).
Proof. revert l. induction n; intros l Hl; [done|]. destruct Hl; cbn; [constructor|auto]. Qed.

Lemma Sorted_take {A} (R : A -> A -> Prop) n l : Sorted R l -> Sorted R (take n l).
Proof.
  revert l. induction n as [|n IH]; intros l Hl; [constructor|]. destruct Hl as [|a l Hl Hh]; cbn; [constructor|].
  constructor; [auto|]. destruct Hh, n; cbn; by constructor.
Qed.
