(* ===== verification/Schema.v ===== *)
(** * Table schemas and row-level security (src/schema.rs)

    Column types, defaults, the validation of a row, and the policy that says which rows a
    caller may touch. Loading schema.toml is a third-party parser: a registry is a map. *)

From S2P Require Import Prelude Errors Util Json JsonCodec.
From Stdlib Require Import SpecFloat.

(** ** Column types *)

Inductive ColumnType : Type := CtString | CtI64 | CtF64 | CtBool | CtBytes | CtAny.

#[export] Instance ColumnType_eq_dec : EqDecision ColumnType.
Proof. solve_decision. Defined.

Definition one_of (l : list Bytes) (s : Bytes) : bool := existsb (beq s) l.

Definition from_str `{Lowercase} (s : Bytes) : option ColumnType :=
  let s := to_lowercase s in
  if one_of [bs "string"; bs "str"; bs "text"] s then Some CtString
  else if one_of [bs "i64"; bs "i32"; bs "int"; bs "integer"; bs "number"] s then Some CtI64
  else if one_of [bs "f64"; bs "f32"; bs "float"; bs "double"] s then Some CtF64
  else if one_of [bs "bool"; bs "boolean"] s then Some CtBool
  else if one_of [bs "bytes"; bs "blob"] s then Some CtBytes
  else if one_of [bs "any"; bs "json"; bs "object"] s then Some CtAny
  else None.

Definition display (t : ColumnType) : Bytes :=
  match t with
  | CtString => bs "String" | CtI64 => bs "i64" | CtF64 => bs "f64"
  | CtBool => bs "bool" | CtBytes => bs "bytes" | CtAny => bs "any"
  end.

Definition is_null (v : Value) : bool := match v with Null => true | _ => false end.

Definition accepts (t : ColumnType) (v : Value) : bool :=
  match t, v with
  | CtString, Str _ => true
  | CtI64, Num (PosInt _ | NegInt _) => true
  | CtF64, Num (Float _) => true
  | CtBool, Bool _ => true
  | CtBytes, (Str _ | Array _) => true
  | CtAny, _ => true
  | _, _ => false
  end.

(** An integer where a float is expected is stored as a float. *)
Definition coerce (t : ColumnType) (v : Value) : option Value :=
  match t, v with
  | CtF64, Num (Float _) => Some v
  | CtF64, Num n =>
      match as_i64 n with
      | Some _ => Some (Num (Float (as_f64 n)))
      | None => None
      end
  | _, _ => None
  end.

Definition json_type_name (v : Value) : Bytes :=
  match v with
  | Str _ => bs "String"
  | Num (Float _) => bs "float"
  | Num _ => bs "integer"
  | Bool _ => bs "bool"
  | Null => bs "null"
  | Array _ => bs "array"
  | Object _ => bs "object"
  end.

(** ** Row-level security *)

Inductive RlsPolicy : Type :=
| Public
| OwnerField (field : Bytes)
| RoleGated (roles : list Bytes)
| OwnerFieldWithAdmin (field : Bytes) (admin_roles : list Bytes).

(** The row's owner is the caller; a row that is not there is anyone's. *)
Definition owned (field caller_id : Bytes) (row : option Value) : bool :=
  match row with
  | None => true
  | Some v => match get_field v field with Some (Str o) => beq o caller_id | _ => false end
  end.

Definition rls_check (policy : RlsPolicy) (row : option Value) (caller_id caller_role : Bytes) : bool :=
  if one_of [bs "scheduler"; bs "system"] caller_role then true
  else
    match policy with
    | Public => true
    | OwnerField field => owned field caller_id row
    | RoleGated roles => one_of roles caller_role
    | OwnerFieldWithAdmin field admin_roles => one_of admin_roles caller_role || owned field caller_id row
    end.

(** ** Tables *)

Record ColumnDef := { col_name : Bytes; type_str : Bytes; col_default : option Bytes; required : bool }.

Record TableSchema := {
  schema_name : Bytes; primary_key : option Bytes; columns : list ColumnDef; rls : RlsPolicy }.

(** [SchemaRegistry] *)
Abbreviation SchemaRegistry := (gmap Bytes TableSchema).

Section Schema.
Context `{Serde} `{Lowercase}.

Definition col_type (c : ColumnDef) : ColumnType := default CtAny (from_str (type_str c)).

(** The default as JSON, or as a string when it is not JSON. *)
Definition default_value (c : ColumnDef) : option Value :=
  s ← col_default c; Some (default (Str s) (json_from_slice s)).

Definition violation (table : Bytes) (m : Bytes) : VoltraError :=
  TableError (bs "Schema violation on table '" ++ table ++ bs "': " ++ m).

Definition null_at (k : Bytes) (obj : list (Bytes * Value)) : bool :=
  match map_get obj k with Some v => is_null v | None => true end.

(** A column that is missing or null takes its default, or is an error when it is required
    and typed. *)
Definition fill_column (table : Bytes) (col : ColumnDef) (obj : list (Bytes * Value))
  : result VoltraError (list (Bytes * Value)) :=
  let reject :=
    if required col && negb (bool_decide (col_type col = CtAny)) then
      Err (violation table
        match map_get obj (col_name col) with
        | Some _ => bs "required column '" ++ col_name col ++ bs "' must not be null"
        | None => bs "required column '" ++ col_name col ++ bs "' (" ++ display (col_type col)
                    ++ bs ") is missing and has no default"
        end)
    else Ok obj in
  if null_at (col_name col) obj then
    match default_value col with
    | Some d => if negb (is_null d) then Ok (map_insert (col_name col) d obj) else reject
    | None => reject
    end
  else Ok obj.

Fixpoint fill_columns (table : Bytes) (cols : list ColumnDef) (obj : list (Bytes * Value))
  : result VoltraError (list (Bytes * Value)) :=
  match cols with
  | [] => Ok obj
  | col :: cols' => obj ← fill_column table col obj; fill_columns table cols' obj
  end.

(** [column_map]: of two columns with one name the last. *)
Definition column_map (cols : list ColumnDef) (key : Bytes) : option ColumnDef :=
  List.find (fun c => beq (col_name c) key) (rev cols).

(** Fields the table engine writes itself are not checked. *)
Definition internal (key : Bytes) : bool := one_of [bs "row_key"; bs "shard_id"] key.

Definition check_field (table : Bytes) (cols : list ColumnDef) (key : Bytes) (val : Value)
  : result VoltraError Value :=
  if internal key then Ok val
  else
    match column_map cols key with
    | None => Ok val
    | Some col =>
        if is_null val || accepts (col_type col) val then Ok val
        else match coerce (col_type col) val with
             | Some c => Ok c
             | None => Err (violation table (bs "column '" ++ key ++ bs "' expects " ++
                 display (col_type col) ++ bs " but got " ++ json_type_name val))
             end
    end.

Fixpoint check_fields (table : Bytes) (cols : list ColumnDef) (obj : list (Bytes * Value))
  : result VoltraError (list (Bytes * Value)) :=
  match obj with
  | [] => Ok []
  | (k, v) :: obj' =>
      v' ← check_field table cols k v; r ← check_fields table cols obj'; Ok ((k, v') :: r)
  end.

Definition validate_and_fill (ts : TableSchema) (value : Value) : result VoltraError Value :=
  match value with
  | Object obj =>
      obj ← fill_columns (schema_name ts) (columns ts) obj;
      obj ← check_fields (schema_name ts) (columns ts) obj;
      Ok (Object obj)
  | _ => Ok value
  end.

(** ** The registry *)

Definition register (ts : TableSchema) (r : SchemaRegistry) : SchemaRegistry := <[schema_name ts := ts]> r.

Definition validate (r : SchemaRegistry) (table : Bytes) (value : Value) : result VoltraError Value :=
  match r !! table with Some ts => validate_and_fill ts value | None => Ok value end.

(** ** What the validation guarantees *)

Implicit Types (obj : list (Bytes * Value)) (col : ColumnDef).

(** More fields hold something. *)
Definition fuller obj obj' : Prop := forall k, null_at k obj = false -> null_at k obj' = false.

Lemma fill_column_spec table col obj obj' : fill_column table col obj = Ok obj' ->
  fuller obj obj' /\ (forall k, k <> col_name col -> map_get obj' k = map_get obj k) /\
  (ascending (map fst obj) = true -> ascending (map fst obj') = true) /\
  (forall obj2, fuller obj' obj2 -> fill_column table col obj2 = Ok obj2).
Proof.
  intros Hfill. unfold fill_column in Hfill. revert Hfill. destruct (null_at (col_name col) obj) eqn:En.
  - set (rej := if required col && _ then _ else _).
    assert (Hrej : rej = Ok obj' -> obj' = obj /\ required col && negb (bool_decide (col_type col = CtAny)) = false).
    { unfold rej. destruct (_ && _); [done|]. by intros [= ->]. }
    assert (Hcase : (exists d, default_value col = Some d /\ is_null d = false /\ obj' = map_insert (col_name col) d obj) \/
      (obj' = obj /\ required col && negb (bool_decide (col_type col = CtAny)) = false /\
       match default_value col with Some d => is_null d = true | None => True end) ->
      fuller obj obj' /\ (forall k, k <> col_name col -> map_get obj' k = map_get obj k) /\
      (ascending (map fst obj) = true -> ascending (map fst obj') = true) /\
      (forall obj2, fuller obj' obj2 -> fill_column table col obj2 = Ok obj2)).
    { intros [(d & Ed & Hd & ->)|(-> & Hr & Hd)].
      - split_and!.
        + intros k. unfold null_at. rewrite map_get_insert. by destruct (beq k _).
        + intros k Hk. rewrite map_get_insert. destruct (beq k _) eqn:E; [by apply beq_true in E|done].
        + apply map_insert_ascending.
        + intros obj2 Hf. unfold fill_column. rewrite (Hf (col_name col)); [done|].
          unfold null_at. by rewrite map_get_insert, beq_refl.
      - split_and!; [by intros k|done|done|]. intros obj2 _. unfold fill_column. rewrite Hr.
        destruct (null_at _ obj2); [|done]. destruct (default_value col); [by rewrite Hd|done]. }
    destruct (default_value col) as [d|] eqn:Ed; [destruct (is_null d) eqn:Ed2; cbn [negb]|].
    + intros [-> ?]%Hrej. apply Hcase. auto.
    + intros [= <-]. apply Hcase. left. by exists d.
    + intros [-> ?]%Hrej. apply Hcase. auto.
  - intros [= <-]. split_and!; [by intros k|done|done|].
    intros obj2 Hf. unfold fill_column. by rewrite Hf.
Qed.

Lemma fuller_trans obj1 obj2 obj3 : fuller obj1 obj2 -> fuller obj2 obj3 -> fuller obj1 obj3.
Proof. intros H1 H2 k Hk. auto. Qed.

Lemma fill_columns_spec table cols : forall obj obj', fill_columns table cols obj = Ok obj' ->
  fuller obj obj' /\ (forall k, Forall (fun c => col_name c <> k) cols -> map_get obj' k = map_get obj k) /\
  (ascending (map fst obj) = true -> ascending (map fst obj') = true) /\
  (forall obj2, fuller obj' obj2 -> Forall (fun c => fill_column table c obj2 = Ok obj2) cols).
Proof.
  induction cols as [|col cols IH]; intros obj obj'; cbn [fill_columns].
  { intros [= <-]. split_and!; [by intros k|done|done|by constructor]. }
  intros (obj1 & H1 & H2)%bind_ok. apply fill_column_spec in H1 as (Hf1 & Hg1 & Ha1 & Hi1).
  apply IH in H2 as (Hf2 & Hg2 & Ha2 & Hi2). split_and!.
  - by eapply fuller_trans.
  - intros k [Hk Hks]%Forall_cons. rewrite Hg2 by done. apply Hg1. congruence.
  - auto.
  - intros obj2 Hf. constructor; [apply Hi1; by eapply fuller_trans|by apply Hi2].
Qed.

Lemma fill_columns_fixed table cols obj :
  Forall (fun c => fill_column table c obj = Ok obj) cols -> fill_columns table cols obj = Ok obj.
Proof. induction 1 as [|c cols Hc _ IH]; [done|]. cbn. by rewrite Hc. Qed.

Lemma check_field_spec table cols k v v' : check_field table cols k v = Ok v' ->
  is_null v' = is_null v /\ check_field table cols k v' = Ok v' /\
  (column_map cols k = None -> v' = v) /\
  (internal k = false -> forall col, column_map cols k = Some col ->
    is_null v' || accepts (col_type col) v' = true).
Proof.
  intros Hc. unfold check_field in Hc |- *. destruct (internal k); [by injection Hc as ->|].
  destruct (column_map cols k) as [col|]; [|by injection Hc as ->].
  destruct (is_null v || accepts (col_type col) v) eqn:Ev.
  - injection Hc as ->. rewrite Ev. split_and!; [done..|]. intros _ ? [= <-]. by rewrite Ev.
  - destruct (coerce (col_type col) v) as [c|] eqn:Ec; [|done]. injection Hc as ->.
    assert (Hf : is_null v' = false /\ accepts (col_type col) v' = true /\ is_null v = false).
    { destruct (col_type col), v as [| |[]| | |]; try done; cbn in Ec;
        try destruct (_ <=? _); by simplify_eq. }
    destruct Hf as (H1 & H2 & H3). rewrite H1, H2, H3. split_and!; [done..|]. intros _ ? [= <-]. by rewrite H2.
Qed.

Lemma check_fields_spec table cols : forall obj obj', check_fields table cols obj = Ok obj' ->
  map fst obj' = map fst obj /\ check_fields table cols obj' = Ok obj' /\
  forall k, match map_get obj k with
            | None => map_get obj' k = None
            | Some v => exists v', map_get obj' k = Some v' /\ check_field table cols k v = Ok v'
            end.
Proof.
  induction obj as [|[j v] obj IH]; intros obj'; cbn [check_fields]; [by intros [= <-]|].
  intros (v' & Hv & (r & Hr & [= <-])%bind_ok)%bind_ok. apply IH in Hr as (Hk & Hi & Hg).
  apply check_field_spec in Hv as Hv2. destruct Hv2 as (_ & Hv2 & _).
  split; [by cbn; rewrite Hk|]. split; [cbn; by rewrite Hv2; cbn; rewrite Hi|].
  intros k. cbn. destruct (beq k j) eqn:E; [|apply Hg]. apply beq_true in E as ->. eauto.
Qed.

Lemma check_fields_null table cols obj obj' k : check_fields table cols obj = Ok obj' ->
  null_at k obj' = null_at k obj.
Proof.
  intros (_ & _ & Hg)%check_fields_spec. specialize (Hg k). unfold null_at.
  destruct (map_get obj k) as [v|]; [|by rewrite Hg]. destruct Hg as (v' & -> & Hv).
  by apply check_field_spec in Hv as [-> _].
Qed.

Lemma fill_required table col obj : fill_column table col obj = Ok obj ->
  required col = true -> col_type col <> CtAny -> null_at (col_name col) obj = false.
Proof.
  intros Hf Hr Ht. destruct (null_at (col_name col) obj) eqn:En; [|done]. unfold fill_column in Hf.
  rewrite En, Hr, bool_decide_eq_false_2 in Hf by done. cbn in Hf.
  destruct (default_value col) as [d|]; [|done]. destruct (is_null d) eqn:Ed; [done|]. cbn in Hf.
  injection Hf as Hf. unfold null_at in En. rewrite <- Hf, map_get_insert, beq_refl in En. congruence.
Qed.

(** C40: an object that passes the validation as a row has the types of its schema: required typed
    columns hold a value, every other column that is there, row_key and shard_id aside, holds null
    or a value of its type, fields outside the schema are as they were given, and validating the
    row again changes nothing. (What is not an object passes as it is: schema_skips_non_objects.)
    *)
Theorem validate_conforms ts obj v :
  validate_and_fill ts (Object obj) = Ok v ->
  exists obj', v = Object obj' /\
    (forall col, col ∈ columns ts -> required col = true -> col_type col <> CtAny ->
      exists x, map_get obj' (col_name col) = Some x /\ x <> Null) /\
    (forall k col x, column_map (columns ts) k = Some col -> internal k = false ->
      map_get obj' k = Some x -> x = Null \/ accepts (col_type col) x = true) /\
    (forall k, Forall (fun c => col_name c <> k) (columns ts) -> map_get obj' k = map_get obj k) /\
    (ascending (map fst obj) = true -> ascending (map fst obj') = true) /\
    validate_and_fill ts v = Ok v.
Proof.
  unfold validate_and_fill at 1. intros (o1 & H1 & (o2 & H2 & [= <-])%bind_ok)%bind_ok. exists o2.
  split; [done|]. pose proof (fill_columns_spec _ _ _ _ H1) as (_ & Hg1 & Ha1 & Hi1).
  pose proof (check_fields_spec _ _ _ _ H2) as (Hk2 & Hi2 & Hg2).
  assert (Hfix : Forall (fun c => fill_column (schema_name ts) c o2 = Ok o2) (columns ts)).
  { apply Hi1. intros k. by rewrite (check_fields_null _ _ _ _ k H2). }
  split_and!.
  - intros col Hin Hr Ht. rewrite Forall_forall in Hfix. apply Hfix in Hin.
    pose proof (fill_required _ _ _ Hin Hr Ht) as Hn. unfold null_at in Hn.
    destruct (map_get o2 (col_name col)) as [x|]; [|done]. exists x. split; [done|]. by intros ->.
  - intros k col x Hc Hin Hx. specialize (Hg2 k). destruct (map_get o1 k) as [v|]; [|congruence].
    destruct Hg2 as (v' & Hv' & Hf). apply check_field_spec in Hf as (_ & _ & _ & Hf).
    specialize (Hf Hin col Hc). assert (v' = x) as -> by congruence.
    destruct x; auto.
  - intros k Hk. rewrite <- Hg1 by done. specialize (Hg2 k).
    destruct (map_get o1 k) as [v|]; [|done]. destruct Hg2 as (v' & -> & Hf). f_equal.
    apply check_field_spec in Hf as (_ & _ & Hf & _). apply Hf. unfold column_map.
    destruct (List.find _ _) as [c|] eqn:E; [|done]. apply find_some in E as [Hin He].
    rewrite <- in_rev in Hin. apply beq_true in He. rewrite List.Forall_forall in Hk. by apply Hk in Hin.
  - intros Ha. rewrite Hk2. auto.
  - cbn. by rewrite (fill_columns_fixed _ _ _ Hfix); cbn; rewrite Hi2.
Qed.
End Schema.

(** ** Witness *)

#[local] Existing Instance demo_serde.
#[local] Instance demo_lowercase : Lowercase := {| to_lowercase := to_ascii_lowercase |}.

Definition demo_schema : TableSchema :=
  {| schema_name := bs "players"; primary_key := Some (bs "id");
     columns := [{| col_name := bs "name"; type_str := bs "String"; col_default := Some (bs "guest"); required := true |};
                 {| col_name := bs "score"; type_str := bs "f64"; col_default := None; required := true |}];
     rls := OwnerField (bs "owner") |}.

Lemma validate_conforms_witness :
  exists x, map_get [(bs "name", Str (bs "guest")); (bs "score", Num (Float (f64_of_uint 3)))] (bs "score") = Some x
    /\ x <> Null.
Proof.
  set (obj := [(bs "score", Num (PosInt 3))]).
  assert (Hv : validate_and_fill demo_schema (Object obj)
    = Ok (Object [(bs "name", Str (bs "guest")); (bs "score", Num (Float (f64_of_uint 3)))])) by by vm_compute.
  destruct (validate_conforms demo_schema obj _ Hv) as (obj' & [= <-] & Hreq & _).
  apply (Hreq {| col_name := bs "score"; type_str := bs "f64"; col_default := None; required := true |}).
  - apply list_elem_of_further, list_elem_of_here.
  - reflexivity.
  - discriminate.
Defined.

(** Only objects are checked: a row that is a number passes any schema. *)
Lemma schema_skips_non_objects : validate_and_fill demo_schema (Num (PosInt 1)) = Ok (Num (PosInt 1)).
Proof. reflexivity. Qed.
