(* ===== verification/Table.v ===== *)
(** * The table engine (src/table/mod.rs, src/table/eviction.rs)

    Tables of JSON rows with hash and sorted indexes, blobs kept in a file, and the batch
    commit of reducers: optimistic version checks, counters added under the locks, rollback,
    eviction. A [Store] is one [TableStore] of the source without its lobby map; [TableStore]
    here is the root store, its lobby sub-stores and the blob file they all append to. The
    row locks make a batch one step with respect to every other batch: [batch_inner] is that
    step, the eviction that follows it once the locks are dropped included, and [lock_plan]
    the order in which its locks are taken. Versions are unbounded: a
    [u64] takes 2^64 writes to wrap. I/O errors are not modelled, short reads are. *)

From S2P Require Import Prelude Errors Util ZSet Json.
From Stdlib Require Import SpecFloat.

(** ** Names *)

Fixpoint split_underscore (s : Bytes) : option (Bytes * Bytes) :=
  match s with
  | [] => None
  | c :: s' =>
      if c =? 95 then Some ([], s')
      else '(a, b) ← split_underscore s'; Some (c :: a, b)
  end.

(** [l<digits>_<table>] names a table of a lobby. *)
Definition parse_lobby_key (physical_table : Bytes) : option (Bytes * Bytes) :=
  match physical_table with
  | c :: r =>
      if negb (c =? 108) then None
      else
        '(prefix, logical) ← split_underscore r;
        if negb (bool_decide (prefix = [])) && forallb is_digit prefix
        then Some (prefix, logical) else None
  | [] => None
  end.

(** ** Data *)

Record Counter := { c_id : Z; c_name : Bytes; c_value : Z; c_last_modified : Z }.

Record RowDelta := {
  table_name : Bytes; operation : Bytes; row_key : Bytes; d_row_id : Z; d_shard_id : Z;
  payload_arc : option Bytes; row_data : option Value;
  counter_add_amount : Z; counter_add_timestamp : Z }.

Record StoredRow := {
  row_id : Z; row_shard : Z; data : Bytes; blob_offset : option Z; version : Z }.

(** A hash index: the keys of the rows that hold each value. *)
Abbreviation FieldIndex := (gmap Bytes (gset Bytes)).

Inductive OrderedField : Type :=
| OfNull
| OfBool (b : bool)
| OfNum (f : f64)
| OfStr (s : Bytes).

(** A sorted index: ascending values, each with its keys. *)
Abbreviation SortedIndex := (list (OrderedField * gset Bytes)).

Record Table := {
  rows : gmap Bytes StoredRow;
  field_indexes : gmap Bytes FieldIndex;
  sorted_indexes : gmap Bytes SortedIndex }.

Inductive EvictionPolicy : Type :=
| NoEviction
| LruRowCap (max_rows_per_table : Z)
| LruByteCap (max_bytes_total : Z).

(** [LruTracker]: when each row was last written. *)
Abbreviation LruTracker := (gmap (Bytes * Bytes) Z).

Record Store := {
  tables : gmap Bytes Table; next_offset : Z; next_row_id : Z; shard_id : Z; shard_count : Z;
  eviction_policy : EvictionPolicy; lru : option LruTracker }.

(** A store and the blob file. *)
Abbreviation SD := (Store * Bytes)%type.

Definition table_new : Table := {| rows := ∅; field_indexes := ∅; sorted_indexes := ∅ |}.

(** [with_eviction], the file being what it is at the time. *)
Definition with_eviction (policy : EvictionPolicy) (file : Bytes) : Store :=
  {| tables := ∅; next_offset := zlen file; next_row_id := 1; shard_id := 0; shard_count := 1;
     eviction_policy := policy;
     lru := match policy with NoEviction => None | _ => Some ∅ end |}.

Definition for_lobby (file : Bytes) : Store := with_eviction NoEviction file.

Definition set_tables (s : Store) (m : gmap Bytes Table) : Store :=
  {| tables := m; next_offset := next_offset s; next_row_id := next_row_id s;
     shard_id := shard_id s; shard_count := shard_count s;
     eviction_policy := eviction_policy s; lru := lru s |}.
Definition set_offset (s : Store) (n : Z) : Store :=
  {| tables := tables s; next_offset := n; next_row_id := next_row_id s;
     shard_id := shard_id s; shard_count := shard_count s;
     eviction_policy := eviction_policy s; lru := lru s |}.
Definition set_row_ids (s : Store) (n : Z) : Store :=
  {| tables := tables s; next_offset := next_offset s; next_row_id := n;
     shard_id := shard_id s; shard_count := shard_count s;
     eviction_policy := eviction_policy s; lru := lru s |}.
Definition set_lru (s : Store) (l : option LruTracker) : Store :=
  {| tables := tables s; next_offset := next_offset s; next_row_id := next_row_id s;
     shard_id := shard_id s; shard_count := shard_count s;
     eviction_policy := eviction_policy s; lru := l |}.

Definition set_rows (t : Table) (m : gmap Bytes StoredRow) : Table :=
  {| rows := m; field_indexes := field_indexes t; sorted_indexes := sorted_indexes t |}.

(** [alloc_row_id]: [fetch_add] on a [u32]. *)
Definition alloc_row_id (s : Store) : Z * Store :=
  (next_row_id s, set_row_ids s (wrap_u32 (next_row_id s + 1))).

Definition table_of (s : Store) (name : Bytes) : Table := default table_new (tables s !! name).

Definition get_or_create_table (name : Bytes) (s : Store) : Store :=
  match tables s !! name with
  | Some _ => s
  | None => set_tables s (<[name := table_new]> (tables s))
  end.

Definition row_matches_shard (s : Store) (id : Z) : bool :=
  (shard_count s <=? 1) || (id =? shard_id s).

(** ** Blobs *)

Fixpoint le_bytes (n : nat) (z : Z) : Bytes :=
  match n with O => [] | S n' => z mod 256 :: le_bytes n' (z / 256) end.

Fixpoint le_val (l : Bytes) : Z :=
  match l with [] => 0 | b :: l' => b + 256 * le_val l' end.

(** [BlobStore::store_blob]: the file is open for append. *)
Definition store_blob (max : Z) (payload : Bytes) : tx SD Z :=
  fun '(s, file) =>
    if max <? zlen payload then
      (Err (InvalidArgument (bs "Blob size " ++ dec (zlen payload) ++ bs " exceeds max " ++ dec max)),
       (s, file))
    else
      (Ok (next_offset s),
       (set_offset s (next_offset s + (8 + zlen payload)),
        file ++ le_bytes 8 (zlen payload) ++ payload)).

(** [BlobStore::load_blob] *)
Definition load_blob (file : Bytes) (offset : Z) : result VoltraError Bytes :=
  let r := drop (Z.to_nat offset) file in
  if zlen r <? 8 then Err Io
  else
    let len := le_val (take 8 r) in
    let r := drop 8 r in
    if zlen r <? len then Err Io else Ok (take (Z.to_nat len) r).

(** ** Hash indexes *)

Definition idx_insert (fv key : Bytes) (idx : FieldIndex) : FieldIndex :=
  <[fv := {[key]} ∪ default ∅ (idx !! fv)]> idx.

(** The bucket is dropped once empty. *)
Definition idx_remove (fv key : Bytes) (idx : FieldIndex) : FieldIndex :=
  match idx !! fv with
  | None => idx
  | Some b => let b' := b ∖ {[key]} in
              if bool_decide (b' = ∅) then delete fv idx else <[fv := b']> idx
  end.

Definition idx_lookup (fv : Bytes) (idx : FieldIndex) : list Bytes :=
  elements (default ∅ (idx !! fv)).

Definition idx_counts (idx : FieldIndex) : gmap Bytes Z := (fun b => Z.of_nat (size b)) <$> idx.

(** ** Sorted indexes *)

Definition rank (o : OrderedField) : Z :=
  match o with OfNull => 0 | OfBool _ => 1 | OfNum _ => 2 | OfStr _ => 3 end.

Definition from_value (v : Value) : option OrderedField :=
  match v with
  | Null => Some OfNull
  | Bool b => Some (OfBool b)
  | Num n => Some (OfNum (as_f64 n))
  | Str s => Some (OfStr s)
  | _ => None
  end.

(** [f64::total_cmp] less, on numbers: the order of the floats with -0 before +0. *)
Definition total_ltb (a b : f64) : bool :=
  if score_ltb a b then true
  else match a, b with S754_zero true, S754_zero false => true | _, _ => false end.

Definition of_ltb (a b : OrderedField) : bool :=
  match a, b with
  | OfBool a, OfBool b => negb a && b
  | OfNum a, OfNum b => total_ltb a b
  | OfStr a, OfStr b => bytes_ltb a b
  | _, _ => rank a <? rank b
  end.

Fixpoint tree_insert (o : OrderedField) (key : Bytes) (t : SortedIndex) : SortedIndex :=
  match t with
  | [] => [(o, {[key]})]
  | (o', ks) :: t' =>
      if of_ltb o o' then (o, {[key]}) :: t
      else if of_ltb o' o then (o', ks) :: tree_insert o key t'
      else (o', {[key]} ∪ ks) :: t'
  end.

Fixpoint tree_remove (o : OrderedField) (key : Bytes) (t : SortedIndex) : SortedIndex :=
  match t with
  | [] => []
  | (o', ks) :: t' =>
      if of_ltb o o' || of_ltb o' o then (o', ks) :: tree_remove o key t'
      else let ks' := ks ∖ {[key]} in
           if bool_decide (ks' = ∅) then t' else (o', ks') :: t'
  end.

(** The loops of [top_n]: they return when the output has reached the limit after a push. *)
Fixpoint push_upto (limit : Z) (l out : list Bytes) : list Bytes :=
  match l with
  | [] => out
  | k :: l' =>
      let out := out ++ [k] in
      if zlen out =? limit then out else push_upto limit l' out
  end.

Definition sorted_top_n (limit : Z) (desc : bool) (t : SortedIndex) : list Bytes :=
  push_upto limit
    (concat (map (fun kv : OrderedField * gset Bytes => sort_keys (elements kv.2))
                 (if desc then rev t else t))) [].

(** ** Locks *)

Definition LOCK_SLOTS : Z := 512.

(** FNV-1a. *)
Definition slot_for_key (key : Bytes) : Z :=
  foldl (fun h b => wrap_u64 (Z.lxor h b * 1099511628211)) 14695981039346656037 key
  mod LOCK_SLOTS.

(** Pairs of names compare lexicographically. *)
Definition pair_leb (a b : Bytes * Bytes) : bool :=
  if beq a.1 b.1 then bytes_leb a.2 b.2 else bytes_leb a.1 b.1.
Definition pair_le (a b : Bytes * Bytes) : Prop := pair_leb a b = true.
#[export] Instance pair_le_dec : RelDecision pair_le.
Proof. intros a b. unfold pair_le. apply _. Defined.

Definition slot_le (a b : Z * Z) : Prop := a.1 < b.1 \/ a.1 = b.1 /\ a.2 <= b.2.
#[export] Instance slot_le_dec : RelDecision slot_le.
Proof. intros a b. unfold slot_le. apply _. Defined.

(** The rows a batch writes in this store. *)
Definition lock_keys (s : Store) (deltas : list RowDelta) : list (Bytes * Bytes) :=
  remove_dups (merge_sort pair_le
    (map (fun d => (table_name d, row_key d))
         (List.filter (fun d => row_matches_shard s (d_shard_id d)) deltas))).

(** The mutexes it takes, in order: [addr] is the address of a table. *)
Definition lock_plan (addr : Bytes -> Z) (s : Store) (deltas : list RowDelta) : list (Z * Z) :=
  remove_dups (merge_sort slot_le
    (map (fun tk => (addr tk.1, slot_for_key tk.2)) (lock_keys s deltas))).

(** ** Counters as rows *)

Definition int_value (z : Z) : Value := Num (if 0 <=? z then PosInt z else NegInt z).

(** [serde_json::to_value(counter)] *)
Definition counter_to_value (c : Counter) : Value :=
  Object [(bs "id", int_value (c_id c)); (bs "last_modified", int_value (c_last_modified c));
          (bs "name", Str (c_name c)); (bs "value", int_value (c_value c))].

(** An integer of a given width, deserialized. *)
Definition int_of (lo hi : Z) (v : Value) : option Z :=
  match v with
  | Num (PosInt n) | Num (NegInt n) => if (lo <=? n) && (n <=? hi) then Some n else None
  | _ => None
  end.

Definition counter_of (id name value last : Value) : option Counter :=
  i ← int_of 0 (2 ^ 32 - 1) id;
  n ← match name with Str s => Some s | _ => None end;
  x ← int_of (- 2 ^ 31) (2 ^ 31 - 1) value;
  l ← int_of I64_MIN I64_MAX last;
  Some {| c_id := i; c_name := n; c_value := x; c_last_modified := l |}.

(** [serde_json::from_value::<Counter>]: by field names, others ignored, or by position. *)
Definition counter_of_value (v : Value) : option Counter :=
  match v with
  | Object m =>
      i ← map_get m (bs "id"); n ← map_get m (bs "name");
      x ← map_get m (bs "value"); l ← map_get m (bs "last_modified");
      counter_of i n x l
  | Array [i; n; x; l] => counter_of i n x l
  | _ => None
  end.

(** What a delta overwrites, kept for the rollback. *)
Abbreviation Undo := (Bytes * Bytes * option StoredRow)%type.

Section Rows.
Context `{Serde}.
Variable max_blob : Z.

(** ** Row bytes *)

Definition ZSTD_THRESHOLD : Z := 256.

Definition encode_row (value : Value) : result VoltraError Bytes :=
  mp ← ok_or (rmp_to_vec_named value) SerializationError;
  if zlen mp <? ZSTD_THRESHOLD then Ok (0 :: mp)
  else c ← ok_or (zstd_encode mp) SerializationError; Ok (1 :: c).

Definition decode_row_bytes (d : Bytes) : result VoltraError Value :=
  match d with
  | [] => Err SerializationError
  | tag :: payload =>
      if tag =? 0 then ok_or (rmp_from_slice payload) SerializationError
      else if tag =? 1 then
        p ← ok_or (zstd_decode payload) SerializationError;
        ok_or (rmp_from_slice p) SerializationError
      else Err SerializationError
  end.

(** [.ok()] *)
Definition ok_opt {E A} (r : result E A) : option A :=
  match r with Ok a => Some a | Err _ => None end.

Definition row_data_value (d : RowDelta) : option Value :=
  match payload_arc d with Some b => json_from_slice b | None => row_data d end.

(** The key of a value in a hash index; [None] is not indexed. *)
Definition value_to_index_key (v : Value) : option Bytes :=
  match v with
  | Str s => Some s
  | Num n => Some (number_to_string n)
  | Bool b => Some (if b then bs "true" else bs "false")
  | Null => None
  | other => Some (json_to_vec other)
  end.

(** ** Writing a row *)

Definition should_store_blob (value : Value) : bool :=
  match get_field value (bs "inventory") with Some (Array (_ :: _)) => true | _ => false end.

(** A non-empty inventory goes to the blob file. *)
Definition take_inventory (value : Value) : tx SD (Value * option Z) :=
  fun sd =>
    match get_field value (bs "inventory") with
    | Some inv =>
        if should_store_blob value then
          match store_blob max_blob (json_to_vec inv) sd with
          | (Ok o, sd) => (Ok (set_field (bs "inventory") Null value, Some o), sd)
          | (Err e, sd) => (Err e, sd)
          end
        else (Ok (value, None), sd)
    | None => (Ok (value, None), sd)
    end.

(** The key, and for players the shard, go into the row. *)
Definition stamp (shard : Z) (name key : Bytes) (v : Value) : Value :=
  let v := if beq name (bs "players") then set_field (bs "shard_id") (Num (PosInt shard)) v else v in
  set_field (bs "row_key") (Str key) v.

Definition prepare_value (name key : Bytes) (value : Value) : tx SD (Value * option Z) :=
  fun sd =>
    match take_inventory value sd with
    | (Ok (v, off), (s, file)) => (Ok (stamp (shard_id s) name key v, off), (s, file))
    | (Err e, sd) => (Err e, sd)
    end.

(** What a field contributes to a hash index. *)
Definition index_key (f : Bytes) (v : option Value) : option Bytes :=
  v ≫= fun v => get_field v f ≫= value_to_index_key.
Definition order_key (f : Bytes) (v : option Value) : option OrderedField :=
  v ≫= fun v => get_field v f ≫= from_value.

(** The old value leaves an index, the new one enters it. *)
Definition reindex_field (key : Bytes) (old new : option Value) (f : Bytes) (idx : FieldIndex)
  : FieldIndex :=
  let idx := match index_key f old with Some fv => idx_remove fv key idx | None => idx end in
  match index_key f new with Some fv => idx_insert fv key idx | None => idx end.

Definition reindex_sorted (key : Bytes) (old new : option Value) (f : Bytes) (t : SortedIndex)
  : SortedIndex :=
  let t := match order_key f old with Some o => tree_remove o key t | None => t end in
  match order_key f new with Some o => tree_insert o key t | None => t end.

Definition reindex (key : Bytes) (old new : option Value) (t : Table) : Table :=
  {| rows := rows t;
     field_indexes := map_imap (fun f i => Some (reindex_field key old new f i)) (field_indexes t);
     sorted_indexes := map_imap (fun f i => Some (reindex_sorted key old new f i)) (sorted_indexes t) |}.

Definition row_value (r : StoredRow) : option Value := ok_opt (decode_row_bytes (data r)).

Definition write_row_unlocked (name key : Bytes) (value : Value) : tx SD RowDelta :=
  fun '(s, file) =>
    let s := get_or_create_table name s in
    let existing := rows (table_of s name) !! key in
    let '(op, id, ver, s) :=
      match existing with
      | Some ex => (bs "update", row_id ex, version ex + 1, s)
      | None => let '(id, s) := alloc_row_id s in (bs "insert", id, 1, s)
      end in
    match prepare_value name key value (s, file) with
    | (Err e, sd) => (Err e, sd)
    | (Ok (final_value, off), (s, file)) =>
        match encode_row final_value with
        | Err e => (Err e, (s, file))
        | Ok d =>
            let t := table_of s name in
            let stored := {| row_id := id; row_shard := shard_id s; data := d;
                             blob_offset := off; version := ver |} in
            let t := reindex key (existing ≫= row_value) (Some final_value)
                       (set_rows t (<[key := stored]> (rows t))) in
            (Ok {| table_name := name; operation := op; row_key := key; d_row_id := id;
                   d_shard_id := shard_id s; payload_arc := None; row_data := Some final_value;
                   counter_add_amount := 0; counter_add_timestamp := 0 |},
             (set_tables s (<[name := t]> (tables s)), file))
        end
    end.

Definition delete_row_unlocked (name key : Bytes) : tx SD RowDelta :=
  fun '(s, file) =>
    let existing := tables s !! name ≫= fun t => rows t !! key in
    let s' :=
      match tables s !! name with
      | None => s
      | Some t =>
          let t := match existing ≫= row_value with
                   | Some v => reindex key (Some v) None t
                   | None => t
                   end in
          set_tables s (<[name := set_rows t (delete key (rows t))]> (tables s))
      end in
    (Ok {| table_name := name; operation := bs "delete"; row_key := key;
           d_row_id := match existing with Some r => row_id r | None => 0 end;
           d_shard_id := shard_id s; payload_arc := None; row_data := None;
           counter_add_amount := 0; counter_add_timestamp := 0 |}, (s', file)).

(** ** Reading a row *)

Definition load_blob_into_value (file : Bytes) (v : Value) (offset : Z) : result VoltraError Value :=
  blob ← load_blob file offset;
  inventory ← ok_or (json_from_slice blob) SerializationError;
  Ok (set_field (bs "inventory") inventory v).

(** A stored row as its readers see it, the blob included. *)
Definition full_value (file : Bytes) (r : StoredRow) : result VoltraError Value :=
  v ← decode_row_bytes (data r);
  match blob_offset r with Some o => load_blob_into_value file v o | None => Ok v end.

(** [get_row_with_version] in one store; a sub-store has no lobbies of its own. *)
Definition get_row_with_version_in (s : Store) (file name key : Bytes)
  : result VoltraError (option (Value * Z)) :=
  if bool_decide (is_Some (parse_lobby_key name)) then Ok None
  else match tables s !! name ≫= fun t => rows t !! key with
       | None => Ok None
       | Some r =>
           if negb (row_matches_shard s (row_shard r)) then Ok None
           else v ← full_value file r; Ok (Some (v, version r))
       end.

Definition get_row_in (s : Store) (file name key : Bytes) : result VoltraError (option Value) :=
  o ← get_row_with_version_in s file name key; Ok (option_map fst o).

Definition row_version_in (s : Store) (name key : Bytes) : Z :=
  if bool_decide (is_Some (parse_lobby_key name)) then 0
  else match tables s !! name ≫= fun t => rows t !! key with
       | Some r => version r
       | None => 0
       end.

Definition get_counter_in (s : Store) (file name key : Bytes) : result VoltraError (option Counter) :=
  o ← get_row_in s file name key;
  match o with
  | Some v => c ← ok_or (counter_of_value v) SerializationError; Ok (Some c)
  | None => Ok None
  end.

(** ** The batch commit *)

Definition unlisted (op : Bytes) : VoltraError := TableError (bs "Unknown operation: " ++ op).
Definition missing_row_data : VoltraError :=
  TableError (bs "insert/update delta missing row_data").

(** How one delta of the loop ends: the [?] of the source leaves the whole function, a
    [result] is looked at by the loop. *)
Inductive Ending : Type :=
| Return (e : VoltraError)
| Result (r : result VoltraError RowDelta).

Definition undo_of (s : Store) (name key : Bytes) : Undo :=
  (name, key, tables s !! name ≫= fun t => rows t !! key).

Definition counter_delta (d : RowDelta) : tx SD Value :=
  fun '(s, file) =>
    match get_counter_in s file (table_name d) (row_key d) with
    | Err e => (Err e, (s, file))
    | Ok existing =>
        let new_val := wrap_i32 (match existing with Some c => c_value c | None => 0 end
                                 + counter_add_amount d) in
        let '(id, s) := match existing with
                        | Some c => (c_id c, s)
                        | None => alloc_row_id s
                        end in
        (Ok (counter_to_value {| c_id := id; c_name := row_key d; c_value := new_val;
                                 c_last_modified := counter_add_timestamp d |}), (s, file))
    end.

(** One delta: its ending, what it recorded for the rollback, the state. *)
Definition apply_one (d : RowDelta) (sd : SD) : Ending * list Undo * SD :=
  let op := operation d in
  if beq op (bs "insert") || beq op (bs "update") then
    match row_data_value d with
    | None => (Return missing_row_data, [], sd)
    | Some value =>
        let u := undo_of sd.1 (table_name d) (row_key d) in
        let '(r, sd) := write_row_unlocked (table_name d) (row_key d) value sd in
        (Result r, [u], sd)
    end
  else if beq op (bs "delete") then
    let u := undo_of sd.1 (table_name d) (row_key d) in
    let '(r, sd) := delete_row_unlocked (table_name d) (row_key d) sd in
    (Result r, [u], sd)
  else if beq op (bs "counter_add") then
    match counter_delta d sd with
    | (Err e, sd) => (Return e, [], sd)
    | (Ok value, sd) =>
        let u := undo_of sd.1 (table_name d) (row_key d) in
        let '(r, sd) := write_row_unlocked (table_name d) (row_key d) value sd in
        (Result r, [u], sd)
    end
  else (Result (Err (unlisted op)), [], sd).

(** One row put back: only the rows, not the indexes. *)
Definition restore (s : Store) (u : Undo) : Store :=
  let '(name, key, old) := u in
  match tables s !! name with
  | Some t =>
      let m := match old with Some r => <[key := r]> (rows t) | None => delete key (rows t) end in
      set_tables s (<[name := set_rows t m]> (tables s))
  | None => s
  end.

(** In reverse order. *)
Definition rollback (s : Store) (applied : list Undo) : Store := foldl restore s (rev applied).

(** [LruTracker::touch] on a write, [remove] on a delete. *)
Definition track (now : Z) (d : RowDelta) (s : Store) : Store :=
  match lru s with
  | None => s
  | Some l =>
      let tk := (table_name d, row_key d) in
      if beq (operation d) (bs "insert") || beq (operation d) (bs "update")
      then set_lru s (Some (<[tk := now]> l))
      else if beq (operation d) (bs "delete") then set_lru s (Some (delete tk l))
      else s
  end.

(** The loop over the deltas; [now] gives the instants read, in order. *)
Fixpoint apply_loop (now : nat -> Z) (deltas : list RowDelta) (applied : list Undo)
    (committed : list RowDelta) (sd : SD) : result VoltraError (list RowDelta) * SD :=
  match deltas with
  | [] => (Ok committed, sd)
  | d :: deltas' =>
      if negb (row_matches_shard sd.1 (d_shard_id d)) then
        apply_loop now deltas' applied committed sd
      else
        let '(ending, undo, (s, file)) := apply_one d sd in
        match ending with
        | Return e => (Err e, (s, file))
        | Result (Ok c) =>
            apply_loop (fun n => now (S n)) deltas' (applied ++ undo) (committed ++ [c])
              (track (now 0%nat) c s, file)
        | Result (Err e) => (Err e, (rollback s (applied ++ undo), file))
        end
  end.

(** The version test on the rows both read and written. *)
Fixpoint occ_check (s : Store) (written : list (Bytes * Bytes)) (rv : list (Bytes * Bytes * Z))
  : result VoltraError unit :=
  match rv with
  | [] => Ok tt
  | (t, k, seen) :: rv' =>
      let current := row_version_in s t k in
      if bool_decide ((t, k) ∈ written) && negb (current =? seen) then
        Err (TxnConflict (t ++ bs "/" ++ k ++ bs ": read v" ++ dec seen ++ bs ", now v" ++ dec current))
      else occ_check s written rv'
  end.

(** ** Eviction *)

Definition older (a b : Bytes * Bytes * Z) : Prop := a.2 <= b.2.
#[export] Instance older_dec : RelDecision older.
Proof. intros a b. unfold older. apply _. Defined.

(** [evict_oldest]: the keys of a table last written longest ago. *)
Definition evict_oldest (name : Bytes) (count : Z) (l : LruTracker) : list Bytes :=
  map (fun e : Bytes * Bytes * Z => e.1.2)
    (take (Z.to_nat count)
       (merge_sort older
          (List.filter (fun e : Bytes * Bytes * Z => beq e.1.1 name) (map_to_list l)))).

Definition evict_one (name : Bytes) (s : Store) (key : Bytes) : Store :=
  let s := match tables s !! name with
           | Some t => set_tables s (<[name := set_rows t (delete key (rows t))]> (tables s))
           | None => s
           end in
  set_lru s (delete (name, key) <$> lru s).

Definition row_count (s : Store) (name : Bytes) : Z :=
  match tables s !! name with Some t => Z.of_nat (size (rows t)) | None => 0 end.

Definition evict_from (name : Bytes) (count : Z) (s : Store) : Store :=
  foldl (evict_one name) s (match lru s with Some l => evict_oldest name count l | None => [] end).

Definition total_bytes (s : Store) : Z :=
  foldr Z.add 0 (map (fun t : Bytes * Table =>
    foldr Z.add 0 (map (fun r : Bytes * StoredRow => zlen (data r.2)) (map_to_list (rows t.2))))
    (map_to_list (tables s))).

Definition touched_tables (committed : list RowDelta) : list Bytes :=
  remove_dups (sort_keys (map table_name
    (List.filter (fun d => beq (operation d) (bs "insert") || beq (operation d) (bs "update"))
       committed))).

Definition evict (committed : list RowDelta) (s : Store) : Store :=
  match lru s with
  | None => s
  | Some _ =>
      match eviction_policy s with
      | NoEviction => s
      | LruRowCap cap =>
          foldl (fun s name =>
            let n := row_count s name in
            if cap <? n then evict_from name (n - cap) s else s) s (touched_tables committed)
      | LruByteCap cap =>
          if cap <? total_bytes s then
            foldl (fun s name =>
              let n := row_count s name in
              if n =? 0 then s else evict_from name (Z.max (n / 10) 1) s) s
              (map fst (map_to_list (tables s)))
          else s
      end
  end.

(** [apply_delta_batch_inner]: every row written is locked throughout. *)
Definition batch_inner (now : nat -> Z) (deltas : list RowDelta) (rv : list (Bytes * Bytes * Z))
  : tx SD (list RowDelta) :=
  fun '(s, file) =>
    match deltas with
    | [] => (Ok [], (s, file))
    | _ =>
        let written := lock_keys s deltas in
        let s := foldl (fun s tk => get_or_create_table tk.1 s) s written in
        match occ_check s written rv with
        | Err e => (Err e, (s, file))
        | Ok _ =>
            match apply_loop now deltas [] [] (s, file) with
            | (Ok committed, (s, file)) => (Ok committed, (evict committed s, file))
            | (Err e, sd) => (Err e, sd)
            end
        end
    end.

(** ** Indexes and columns of one store *)

(** The index keys of every row, for a new index. *)
Definition backfill (f : Bytes) (t : Table) : FieldIndex :=
  foldr (fun (kr : Bytes * StoredRow) idx =>
    match index_key f (row_value kr.2) with Some fv => idx_insert fv kr.1 idx | None => idx end)
    ∅ (map_to_list (rows t)).

Definition create_index_in (name f : Bytes) (s : Store) : Store :=
  let s := get_or_create_table name s in
  let t := table_of s name in
  match field_indexes t !! f with
  | Some _ => s
  | None =>
      set_tables s (<[name := {| rows := rows t;
        field_indexes := <[f := backfill f t]> (field_indexes t);
        sorted_indexes := sorted_indexes t |}]> (tables s))
  end.

Definition backfill_sorted (f : Bytes) (t : Table) : SortedIndex :=
  foldr (fun (kr : Bytes * StoredRow) idx =>
    match order_key f (row_value kr.2) with Some o => tree_insert o kr.1 idx | None => idx end)
    [] (map_to_list (rows t)).

Definition create_sorted_index_in (name f : Bytes) (s : Store) : Store :=
  let s := get_or_create_table name s in
  let t := table_of s name in
  match sorted_indexes t !! f with
  | Some _ => s
  | None =>
      set_tables s (<[name := {| rows := rows t; field_indexes := field_indexes t;
        sorted_indexes := <[f := backfill_sorted f t]> (sorted_indexes t) |}]> (tables s))
  end.

Definition drop_index_in (name f : Bytes) (s : Store) : Store :=
  match tables s !! name with
  | None => s
  | Some t =>
      set_tables s (<[name := {| rows := rows t; field_indexes := delete f (field_indexes t);
        sorted_indexes := sorted_indexes t |}]> (tables s))
  end.

Definition index_lookup_in (s : Store) (name f : Bytes) (v : Value) : option (list Bytes) :=
  t ← tables s !! name; idx ← field_indexes t !! f; fv ← value_to_index_key v;
  Some (idx_lookup fv idx).

Definition top_n_in (name f : Bytes) (limit : Z) (desc : bool) (s : Store) : list Bytes * Store :=
  match tables s !! name with
  | None => ([], s)
  | Some _ =>
      let s := create_sorted_index_in name f s in
      (match sorted_indexes (table_of s name) !! f with
       | Some t => sorted_top_n limit desc t
       | None => []
       end, s)
  end.

Definition count_by_field_in (name f : Bytes) (s : Store) : gmap Bytes Z * Store :=
  match tables s !! name with
  | None => (∅, s)
  | Some _ =>
      let s := create_index_in name f s in
      (match field_indexes (table_of s name) !! f with
       | Some idx => idx_counts idx
       | None => ∅
       end, s)
  end.

(** The rows of a table this shard owns. *)
Definition own_rows (s : Store) (name : Bytes) : list (Bytes * StoredRow) :=
  List.filter (fun kr : Bytes * StoredRow => row_matches_shard s (row_shard kr.2))
    (map_to_list (rows (table_of s name))).

(** [obj.get(field)] of a row; a row that does not decode is passed over. *)
Definition column (s : Store) (name f : Bytes) : list (Bytes * Value) :=
  omap (fun kr : Bytes * StoredRow => v ← row_value kr.2; x ← get_field v f; Some (kr.1, x))
    (own_rows s name).

Definition key_le (a b : Bytes * Value) : Prop := bytes_le a.1 b.1.
#[export] Instance key_le_dec : RelDecision key_le.
Proof. intros a b. unfold key_le. apply _. Defined.

Definition scan_column_in (s : Store) (name f : Bytes) : list (Bytes * Value) :=
  merge_sort key_le (column s name f).

(** The first value with each index key, in the order of the rows. *)
Fixpoint distinct (seen : list Bytes) (l : list Value) : list Value :=
  match l with
  | [] => []
  | v :: l' =>
      let k := default (bs "null") (value_to_index_key v) in
      if existsb (beq k) seen then distinct seen l' else v :: distinct (k :: seen) l'
  end.

Definition distinct_field_values_in (s : Store) (name f : Bytes) : list Value :=
  distinct [] (map snd (column s name f)).

Definition list_rows_with_keys_in (s : Store) (file name : Bytes)
  : result VoltraError (list (Bytes * Value)) :=
  foldr (fun (kr : Bytes * StoredRow) acc =>
    v ← full_value file kr.2; l ← acc; Ok ((kr.1, v) :: l)) (Ok []) (own_rows s name).

Definition list_rows_with_keys_raw_in (s : Store) (name : Bytes) : list (Bytes * Bytes) :=
  map (fun kr : Bytes * StoredRow => (kr.1, data kr.2)) (own_rows s name).

Definition total_row_count_in (s : Store) : Z :=
  foldr Z.add 0 (map (fun t : Bytes * Table => Z.of_nat (size (rows t.2))) (map_to_list (tables s))).

(** ** The store with its lobbies *)

Record TableStore := { root : Store; lobbies : gmap Bytes Store; blob_file : Bytes }.

Definition table_store_new (policy : EvictionPolicy) (file : Bytes) : TableStore :=
  {| root := with_eviction policy file; lobbies := ∅; blob_file := file |}.

(** [get_lobby_store]: the sub-store is created on first use, by a read too. *)
Definition lobby_store (ts : TableStore) (lid : Bytes) : Store :=
  default (for_lobby (blob_file ts)) (lobbies ts !! lid).

Definition on_root {A} (f : SD -> A * SD) (ts : TableStore) : A * TableStore :=
  let '(a, (s, file)) := f (root ts, blob_file ts) in
  (a, {| root := s; lobbies := lobbies ts; blob_file := file |}).

Definition on_lobby {A} (lid : Bytes) (f : SD -> A * SD) (ts : TableStore) : A * TableStore :=
  let '(a, (s, file)) := f (lobby_store ts lid, blob_file ts) in
  (a, {| root := root ts; lobbies := <[lid := s]> (lobbies ts); blob_file := file |}).

(** The routing every method starts with; [f] is applied to the name within the store. In a
    sub-store a name that itself names a lobby has no store to go to: [none]. *)
Definition route {A} (name : Bytes) (none : A) (f : Bytes -> SD -> A * SD) (ts : TableStore)
  : A * TableStore :=
  match parse_lobby_key name with
  | None => on_root (f name) ts
  | Some (lid, logical) =>
      on_lobby lid (fun sd => if bool_decide (is_Some (parse_lobby_key logical))
                              then (none, sd) else f logical sd) ts
  end.

(** A read of one store. *)
Definition reads {A} (f : Store -> Bytes -> A) : SD -> A * SD := fun sd => (f sd.1 sd.2, sd).

Definition no_lobby_store {A} : result VoltraError A := Err (TableError (bs "lobby store unavailable")).

Definition get_row (name key : Bytes) : st TableStore (result VoltraError (option Value)) :=
  route name (Ok None) (fun n => reads (fun s file => get_row_in s file n key)).
Definition get_row_with_version (name key : Bytes)
  : st TableStore (result VoltraError (option (Value * Z))) :=
  route name (Ok None) (fun n => reads (fun s file => get_row_with_version_in s file n key)).
Definition row_version (name key : Bytes) : st TableStore Z :=
  route name 0 (fun n => reads (fun s _ => row_version_in s n key)).
Definition set_row (name key : Bytes) (value : Value) : st TableStore (result VoltraError RowDelta) :=
  route name no_lobby_store (fun n => write_row_unlocked n key value).
Definition delete_row (name key : Bytes) : st TableStore (result VoltraError RowDelta) :=
  route name no_lobby_store (fun n => delete_row_unlocked n key).
Definition list_rows_with_keys (name : Bytes)
  : st TableStore (result VoltraError (list (Bytes * Value))) :=
  route name (Ok []) (fun n => reads (fun s file => list_rows_with_keys_in s file n)).
Definition list_rows (name : Bytes) : st TableStore (result VoltraError (list Value)) :=
  fun ts => let '(r, ts) := list_rows_with_keys name ts in (l ← r; Ok (map snd l), ts).
Definition list_rows_with_keys_raw (name : Bytes) : st TableStore (list (Bytes * Bytes)) :=
  route name [] (fun n => reads (fun s _ => list_rows_with_keys_raw_in s n)).
Definition scan_column (name f : Bytes) : st TableStore (list (Bytes * Value)) :=
  route name [] (fun n => reads (fun s _ => scan_column_in s n f)).
Definition distinct_field_values (name f : Bytes) : st TableStore (list Value) :=
  route name [] (fun n => reads (fun s _ => distinct_field_values_in s n f)).
Definition top_n (name f : Bytes) (limit : Z) (desc : bool) : st TableStore (list Bytes) :=
  route name [] (fun n '(s, file) => let '(l, s) := top_n_in n f limit desc s in (l, (s, file))).
Definition count_by_field (name f : Bytes) : st TableStore (gmap Bytes Z) :=
  route name ∅ (fun n '(s, file) => let '(l, s) := count_by_field_in n f s in (l, (s, file))).

(** The index methods do not route: a lobby's table name is a table of the root store here. *)
Definition create_index (name f : Bytes) : st TableStore unit :=
  on_root (fun '(s, file) => (tt, (create_index_in name f s, file))).
Definition create_sorted_index (name f : Bytes) : st TableStore unit :=
  on_root (fun '(s, file) => (tt, (create_sorted_index_in name f s, file))).
Definition drop_index (name f : Bytes) : st TableStore unit :=
  on_root (fun '(s, file) => (tt, (drop_index_in name f s, file))).
Definition index_lookup (ts : TableStore) (name f : Bytes) (v : Value) : option (list Bytes) :=
  index_lookup_in (root ts) name f v.
Definition list_indexes (ts : TableStore) (name : Bytes) : list Bytes :=
  map fst (map_to_list (field_indexes (table_of (root ts) name))).

Definition count_matching (name f : Bytes) (v : Value) : st TableStore Z :=
  fun ts =>
    match index_lookup ts name f v with
    | Some keys => (zlen keys, ts)
    | None =>
        let serialized := default (bs "null") (value_to_index_key v) in
        let '(l, ts) := scan_column name f ts in
        (zlen (List.filter (fun kv : Bytes * Value =>
           bool_decide (value_to_index_key kv.2 = Some serialized)) l), ts)
    end.

Definition list_tables (ts : TableStore) : list Bytes :=
  map fst (map_to_list (tables (root ts)))
  ++ concat (map (fun l : Bytes * Store =>
       map (fun t : Bytes * Table => bs "l" ++ l.1 ++ bs "_" ++ t.1) (map_to_list (tables l.2)))
       (map_to_list (lobbies ts))).

Definition total_row_count (ts : TableStore) : Z :=
  total_row_count_in (root ts)
  + foldr Z.add 0 (map (fun l : Bytes * Store => total_row_count_in l.2) (map_to_list (lobbies ts))).

Definition clear_all (ts : TableStore) : TableStore :=
  {| root := set_tables (root ts) ∅; lobbies := ∅; blob_file := blob_file ts |}.

Definition lobby_count (ts : TableStore) : Z := Z.of_nat (size (lobbies ts)).
Definition active_lobby_ids (ts : TableStore) : list Bytes := map fst (map_to_list (lobbies ts)).

Definition set_shard (id count : Z) (ts : TableStore) : TableStore :=
  let s := root ts in
  {| root := {| tables := tables s; next_offset := next_offset s; next_row_id := next_row_id s;
                shard_id := id; shard_count := Z.max count 1;
                eviction_policy := eviction_policy s; lru := lru s |};
     lobbies := lobbies ts; blob_file := blob_file ts |}.

Definition current_next_row_id (ts : TableStore) : Z := next_row_id (root ts).
Definition set_next_row_id (n : Z) (ts : TableStore) : TableStore :=
  {| root := set_row_ids (root ts) n; lobbies := lobbies ts; blob_file := blob_file ts |}.

(** *** Counters and migrations *)

Definition get_counter (name : Bytes) : st TableStore (result VoltraError (option Counter)) :=
  fun ts => (get_counter_in (root ts) (blob_file ts) (bs "counters") name, ts).

Definition list_counters : st TableStore (result VoltraError (list Counter)) :=
  fun ts =>
    let '(r, ts) := list_rows (bs "counters") ts in
    (vs ← r; foldr (fun v acc => c ← ok_or (counter_of_value v) SerializationError; l ← acc; Ok (c :: l))
               (Ok []) vs, ts).

Definition set_counter (name : Bytes) (value last_modified : Z)
  : st TableStore (result VoltraError RowDelta) :=
  fun ts =>
    match get_counter_in (root ts) (blob_file ts) (bs "counters") name with
    | Err e => (Err e, ts)
    | Ok existing =>
        let '(id, s) := match existing with
                        | Some c => (c_id c, root ts)
                        | None => alloc_row_id (root ts)
                        end in
        set_row (bs "counters") name
          (counter_to_value {| c_id := id; c_name := name; c_value := value;
                               c_last_modified := last_modified |})
          {| root := s; lobbies := lobbies ts; blob_file := blob_file ts |}
    end.

Definition delete_counter (name : Bytes) : st TableStore (result VoltraError RowDelta) :=
  delete_row (bs "counters") name.

Definition applied_migration_versions : st TableStore (result VoltraError (list Bytes)) :=
  fun ts => let '(r, ts) := list_rows_with_keys (bs "__migrations") ts in
            (l ← r; Ok (map fst l), ts).

Definition mark_migration_applied (now_nanos : Z) (filename : Bytes) (version : Z)
  : st TableStore (result VoltraError unit) :=
  fun ts =>
    let '(r, ts) := set_row (bs "__migrations") filename
      (Object [(bs "applied_at", Num (PosInt (wrap_u64 now_nanos))); (bs "version", Num (PosInt version))])
      ts in
    (_ ← r; Ok tt, ts).

(** *** Batches *)

(** The deltas and read versions of one lobby, renamed. *)
Definition of_lobby (lid : Bytes) (d : RowDelta) : option RowDelta :=
  match parse_lobby_key (table_name d) with
  | Some (l, logical) =>
      if beq l lid then
        Some {| table_name := logical; operation := operation d; row_key := row_key d;
                d_row_id := d_row_id d; d_shard_id := d_shard_id d; payload_arc := payload_arc d;
                row_data := row_data d; counter_add_amount := counter_add_amount d;
                counter_add_timestamp := counter_add_timestamp d |}
      else None
  | None => None
  end.

Definition rv_of_lobby (lid : Bytes) (r : Bytes * Bytes * Z) : option (Bytes * Bytes * Z) :=
  match parse_lobby_key r.1.1 with
  | Some (l, logical) => if beq l lid then Some (logical, r.1.2, r.2) else None
  | None => None
  end.

Definition is_global (name : Bytes) : bool := bool_decide (parse_lobby_key name = None).

(** The lobbies a batch writes; the source's map gives them in some order. *)
Definition lobbies_of (deltas : list RowDelta) : list Bytes :=
  remove_dups (omap (fun d => fst <$> parse_lobby_key (table_name d)) deltas).

(** The lobbies one after the other, until one fails. *)
Fixpoint batch_lobbies (now : nat -> Z) (lids : list Bytes) (deltas : list RowDelta)
    (rv : list (Bytes * Bytes * Z)) (results : list RowDelta) (ts : TableStore)
  : result VoltraError (list RowDelta) * TableStore :=
  match lids with
  | [] => (Ok results, ts)
  | lid :: lids' =>
      match on_lobby lid (batch_inner now (omap (of_lobby lid) deltas) (omap (rv_of_lobby lid) rv)) ts with
      | (Err e, ts) => (Err e, ts)
      | (Ok r, ts) => batch_lobbies now lids' deltas rv (results ++ r) ts
      end
  end.

Definition apply_delta_batch_versioned (now : nat -> Z) (deltas : list RowDelta)
    (rv : list (Bytes * Bytes * Z)) : st TableStore (result VoltraError (list RowDelta)) :=
  fun ts =>
    match deltas with
    | [] => (Ok [], ts)
    | _ =>
        match on_root (batch_inner now (List.filter (fun d => is_global (table_name d)) deltas)
                         (List.filter (fun r => is_global r.1.1) rv)) ts with
        | (Err e, ts) => (Err e, ts)
        | (Ok r, ts) => batch_lobbies now (lobbies_of deltas) deltas rv r ts
        end
    end.

Definition apply_delta_batch (now : nat -> Z) (deltas : list RowDelta)
  : st TableStore (result VoltraError (list RowDelta)) := apply_delta_batch_versioned now deltas [].

Definition apply_delta (now : nat -> Z) (d : RowDelta) : st TableStore (result VoltraError unit) :=
  fun ts => let '(r, ts) := apply_delta_batch now [d] ts in (_ ← r; Ok tt, ts).
End Rows.
