(* ===== verification/TableIndex.v ===== *)
(** * Indexes of the table engine

    Hash and sorted indexes agree with the rows: the operations of one index, then
    [table_ok] through every operation of the store that neither rolls back nor evicts, then
    what the index reads answer. *)

From S2P Require Import Prelude Util ZSet Json JsonCodec Table.
From Stdlib Require Import SpecFloat Sorted.

(** ** The order of sorted indexes *)

Section Order.
Implicit Types (a b c : f64) (x y z : OrderedField).

Lemma score_key_tie a b :
  score_key a = score_key b -> a = b \/ exists s t, a = S754_zero s /\ b = S754_zero t.
Proof. destruct a as [|[]| |[]], b as [|[]| |[]]; cbn; intros; simplify_eq; eauto; left; f_equal; lia. Qed.

Lemma score_ltb_tie a b : score_ltb a b = false -> score_ltb b a = false -> score_key a = score_key b.
Proof. apply key_tie. Qed.

Lemma total_ltb_irrefl a : total_ltb a a = false.
Proof. unfold total_ltb, score_ltb. rewrite key_ltb_irrefl. by destruct a as [[]| | |]. Qed.

Lemma total_ltb_tie a b : total_ltb a b = false -> total_ltb b a = false -> a = b.
Proof.
  unfold total_ltb. destruct (score_ltb a b) eqn:E1; [done|]. destruct (score_ltb b a) eqn:E2; [done|].
  intros H1 H2. destruct (score_key_tie a b (score_ltb_tie _ _ E1 E2)) as [|(s & t & -> & ->)]; [done|].
  by destruct s, t.
Qed.

Lemma total_ltb_trans a b c : total_ltb a b = true -> total_ltb b c = true -> total_ltb a c = true.
Proof.
  unfold total_ltb, score_ltb.
  destruct (key_ltb (score_key a) (score_key b)) eqn:E1.
  - intros _. destruct (key_ltb (score_key b) (score_key c)) eqn:E2; intros H.
    + by rewrite (key_ltb_trans _ _ _ E1 E2).
    + destruct b as [[]| | |], c as [[]| | |]; try done.
      change (score_key (S754_zero true)) with (score_key (S754_zero false)) in E1. by rewrite E1.
  - intros H. destruct a as [[]| | |], b as [[]| | |]; try done.
    destruct (key_ltb (score_key (S754_zero false)) (score_key c)) eqn:E2; intros H2.
    + change (score_key (S754_zero true)) with (score_key (S754_zero false)). by rewrite E2.
    + by destruct c.
Qed.

Lemma of_ltb_irrefl x : of_ltb x x = false.
Proof. destruct x as [|[]| |]; cbn; try done; [apply total_ltb_irrefl|apply bytes_ltb_irrefl]. Qed.

Lemma of_ltb_tie x y : of_ltb x y = false -> of_ltb y x = false -> x = y.
Proof.
  destruct x as [|[]| |], y as [|[]| |]; try done; cbn; intros H1 H2; f_equal;
    [by apply total_ltb_tie|by apply bytes_ltb_tie].
Qed.

Lemma of_ltb_trans x y z : of_ltb x y = true -> of_ltb y z = true -> of_ltb x z = true.
Proof.
  destruct x as [|[]| |], y as [|[]| |], z as [|[]| |]; try done;
    [apply total_ltb_trans|apply bytes_ltb_trans].
Qed.
End Order.

Definition of_lt (x y : OrderedField) : Prop := of_ltb x y = true.

(** ** Trees *)

Definition tree_has (t : SortedIndex) (o : OrderedField) (k : Bytes) : Prop :=
  exists ks, (o, ks) ∈ t /\ k ∈ ks.

Definition tree_ok (t : SortedIndex) : Prop :=
  StronglySorted of_lt (map fst t) /\ Forall (fun e => e.2 <> ∅) t.

Lemma tree_has_nil o k : ~ tree_has [] o k.
Proof. intros (ks & H & _). by apply elem_of_nil in H. Qed.

Lemma tree_has_cons o' ks t o k :
  tree_has ((o', ks) :: t) o k <-> (o = o' /\ k ∈ ks) \/ tree_has t o k.
Proof.
  unfold tree_has. split.
  - intros (js & H & Hk). apply elem_of_cons in H as [H|H]; [simplify_eq; by left|right; eauto].
  - intros [[-> Hk]|(js & H & Hk)]; [exists ks|exists js]; by rewrite elem_of_cons; auto.
Qed.

Lemma tree_has_insert o k t o' k' :
  tree_has (tree_insert o k t) o' k' <-> (o' = o /\ k' = k) \/ tree_has t o' k'.
Proof.
  induction t as [|[p ks] t IH]; cbn [tree_insert].
  - rewrite tree_has_cons, elem_of_singleton. done.
  - destruct (of_ltb o p) eqn:E1; [by rewrite tree_has_cons, elem_of_singleton|].
    destruct (of_ltb p o) eqn:E2; rewrite !tree_has_cons; [rewrite IH; tauto|].
    rewrite (of_ltb_tie _ _ E1 E2), elem_of_union, elem_of_singleton. tauto.
Qed.

Lemma tree_has_above p t o k :
  Forall (of_lt p) (map fst t) -> tree_has t o k -> of_ltb p o = true.
Proof.
  intros Hf (ks & H & _). rewrite Forall_map, Forall_forall in Hf. by apply (Hf _ H).
Qed.

Lemma tree_has_remove o k t o' k' :
  StronglySorted of_lt (map fst t) ->
  tree_has (tree_remove o k t) o' k' <-> tree_has t o' k' /\ ~ (o' = o /\ k' = k).
Proof.
  induction t as [|[p ks] t IH]; cbn [tree_remove]; intros Hs.
  { split; [by intros ?%tree_has_nil|by intros [?%tree_has_nil _]]. }
  cbn [map fst] in Hs. apply StronglySorted_inv in Hs as [Hs Hp].
  destruct (of_ltb o p || of_ltb p o) eqn:E.
  - rewrite !tree_has_cons, IH by done. assert (o <> p) by (intros ->; by rewrite of_ltb_irrefl in E).
    naive_solver.
  - apply orb_false_iff in E as [E1 E2]. pose proof (of_ltb_tie _ _ E1 E2) as ->.
    assert (Hno : forall j, ~ tree_has t p j).
    { intros j Hj. apply (tree_has_above _ _ _ _ Hp) in Hj. by rewrite of_ltb_irrefl in Hj. }
    case_bool_decide as Hd; rewrite ?tree_has_cons, ?elem_of_difference, ?elem_of_singleton.
    + split; [intros H; split; [by right|intros [-> ->]; by eapply Hno]|].
      intros [[[-> Hk]|H] Hn]; [|done]. destruct (decide (k' = k)) as [->|]; [naive_solver|].
      assert (k' ∈ ks ∖ {[k]}) by set_solver. set_solver.
    + split; [|naive_solver]. intros [[-> [Hk Hne]]|H]; [naive_solver|].
      split; [by right|]. intros [-> ->]. by eapply Hno.
Qed.

Lemma tree_insert_keys (P : OrderedField -> Prop) o k t :
  Forall P (map fst t) -> P o -> Forall P (map fst (tree_insert o k t)).
Proof.
  intros Ht Ho. induction t as [|[p ks] t IH]; cbn [tree_insert]; [by repeat constructor|].
  cbn [map fst] in Ht. apply Forall_cons in Ht as [Hp Ht].
  destruct (of_ltb o p); [by repeat constructor|].
  destruct (of_ltb p o); constructor; auto.
Qed.

Lemma tree_insert_ok o k t : tree_ok t -> tree_ok (tree_insert o k t).
Proof.
  intros [Hs Hn]. split.
  - clear Hn. induction t as [|[p ks] t IH]; cbn [tree_insert]; [by repeat constructor|].
    pose proof (StronglySorted_inv Hs) as [Hs' Hp].
    destruct (of_ltb o p) eqn:E1.
    + constructor; [done|]. constructor; [done|]. eapply Forall_impl; [exact Hp|].
      intros x. by apply of_ltb_trans.
    + destruct (of_ltb p o) eqn:E2; constructor; auto. by apply tree_insert_keys.
  - clear Hs. induction t as [|[p ks] t IH]; cbn [tree_insert].
    + constructor; [cbn; set_solver|done].
    + apply Forall_cons in Hn as [Hk Hn].
      destruct (of_ltb o p); [constructor; [cbn; set_solver|by constructor]|].
      destruct (of_ltb p o); constructor; auto; cbn in *; set_solver.
Qed.

Lemma tree_remove_keys (P : OrderedField -> Prop) o k t :
  Forall P (map fst t) -> Forall P (map fst (tree_remove o k t)).
Proof.
  intros Ht. induction t as [|[p ks] t IH]; cbn [tree_remove]; [done|].
  cbn [map fst] in Ht. apply Forall_cons in Ht as [Hp Ht].
  destruct (_ || _); [constructor; auto|]. case_bool_decide; [done|by constructor].
Qed.

Lemma tree_remove_ok o k t : tree_ok t -> tree_ok (tree_remove o k t).
Proof.
  intros [Hs Hn]. split.
  - clear Hn. induction t as [|[p ks] t IH]; cbn [tree_remove]; [done|].
    pose proof (StronglySorted_inv Hs) as [Hs' Hp].
    destruct (_ || _); [constructor; auto; by apply tree_remove_keys|].
    case_bool_decide; [done|by constructor].
  - clear Hs. induction t as [|[p ks] t IH]; cbn [tree_remove]; [done|].
    apply Forall_cons in Hn as [Hk Hn]. destruct (_ || _); [constructor; auto|].
    case_bool_decide; [done|by constructor].
Qed.

(** ** Buckets *)

Definition idx_has (idx : FieldIndex) (fv k : Bytes) : Prop := k ∈ default ∅ (idx !! fv).

Definition buckets_ok (idx : FieldIndex) : Prop := map_Forall (fun _ b => b <> ∅) idx.

Lemma idx_has_insert fv k idx fv' k' :
  idx_has (idx_insert fv k idx) fv' k' <-> (fv' = fv /\ k' = k) \/ idx_has idx fv' k'.
Proof.
  unfold idx_has, idx_insert. destruct (decide (fv' = fv)) as [->|Hne].
  - rewrite lookup_insert_eq. cbn. rewrite elem_of_union, elem_of_singleton. tauto.
  - rewrite lookup_insert_ne by done. tauto.
Qed.

Lemma idx_has_remove fv k idx fv' k' :
  idx_has (idx_remove fv k idx) fv' k' <-> idx_has idx fv' k' /\ ~ (fv' = fv /\ k' = k).
Proof.
  unfold idx_has, idx_remove. destruct (idx !! fv) as [b|] eqn:E.
  - destruct (decide (fv' = fv)) as [->|Hne].
    + rewrite E. cbn. case_bool_decide as Hd.
      * rewrite lookup_delete_eq. cbn. set_solver.
      * rewrite lookup_insert_eq. cbn. set_solver.
    + case_bool_decide; rewrite ?lookup_delete_ne, ?lookup_insert_ne by done; naive_solver.
  - split; [|tauto]. intros H. split; [done|]. intros [-> ->]. rewrite E in H. cbn in H. set_solver.
Qed.

Lemma idx_insert_ok fv k idx : buckets_ok idx -> buckets_ok (idx_insert fv k idx).
Proof. intros H. apply map_Forall_insert_2; [set_solver|done]. Qed.

Lemma idx_remove_ok fv k idx : buckets_ok idx -> buckets_ok (idx_remove fv k idx).
Proof.
  intros H. unfold idx_remove. destruct (idx !! fv); [|done].
  case_bool_decide; [by apply map_Forall_delete|by apply map_Forall_insert_2].
Qed.

#[export] Hint Resolve tree_insert_ok tree_remove_ok idx_insert_ok idx_remove_ok : voltra.

(** ** Tables *)

Section Indexes.
Context `{Serde}.
Implicit Types (s : Store) (vals : Bytes -> option Value).

(** An index on [f] over rows whose values are [vals]. *)
Definition field_index_ok (f : Bytes) vals (idx : FieldIndex) : Prop :=
  buckets_ok idx /\ forall fv k, idx_has idx fv k <-> index_key f (vals k) = Some fv.

Definition sorted_index_ok (f : Bytes) vals (t : SortedIndex) : Prop :=
  tree_ok t /\ forall o k, tree_has t o k <-> order_key f (vals k) = Some o.

Definition vals_of (m : gmap Bytes StoredRow) (k : Bytes) : option Value := m !! k ≫= row_value.

Definition table_ok (t : Table) : Prop :=
  map_Forall (fun f idx => field_index_ok f (vals_of (rows t)) idx) (field_indexes t) /\
  map_Forall (fun f idx => sorted_index_ok f (vals_of (rows t)) idx) (sorted_indexes t).

Lemma field_index_ok_ext f vals vals' idx :
  (forall k, vals k = vals' k) -> field_index_ok f vals idx -> field_index_ok f vals' idx.
Proof. intros E [Hb Hi]. split; [done|]. intros fv k. by rewrite <- E. Qed.

Lemma sorted_index_ok_ext f vals vals' t :
  (forall k, vals k = vals' k) -> sorted_index_ok f vals t -> sorted_index_ok f vals' t.
Proof. intros E [Hb Hi]. split; [done|]. intros fv k. by rewrite <- E. Qed.

Definition upd (k : Bytes) (v : option Value) vals (k' : Bytes) : option Value :=
  if decide (k' = k) then v else vals k'.

Lemma reindex_field_ok f vals idx k new :
  field_index_ok f vals idx -> field_index_ok f (upd k new vals) (reindex_field k (vals k) new f idx).
Proof.
  intros [Hb Hi]. unfold reindex_field, field_index_ok.
  set (mid := match index_key f (vals k) with Some fv => _ | None => _ end).
  assert (Hmid : buckets_ok mid /\ forall fv j, idx_has mid fv j <-> j <> k /\ index_key f (vals j) = Some fv).
  { unfold mid. destruct (index_key f (vals k)) eqn:E.
    - split; [by apply idx_remove_ok|]. intros fv j. rewrite idx_has_remove, Hi. naive_solver.
    - split; [done|]. intros fv j. rewrite Hi. naive_solver. }
  destruct Hmid as [Hb' Hm]. destruct (index_key f new) as [fv0|] eqn:E.
  - split; [by apply idx_insert_ok|]. intros fv j. rewrite idx_has_insert, Hm. unfold upd.
    case_decide; naive_solver.
  - split; [done|]. intros fv j. rewrite Hm. unfold upd. case_decide; naive_solver.
Qed.

Lemma reindex_sorted_ok f vals t k new :
  sorted_index_ok f vals t -> sorted_index_ok f (upd k new vals) (reindex_sorted k (vals k) new f t).
Proof.
  intros [Hb Hi]. unfold reindex_sorted, sorted_index_ok.
  set (mid := match order_key f (vals k) with Some o => _ | None => _ end).
  assert (Hmid : tree_ok mid /\ forall o j, tree_has mid o j <-> j <> k /\ order_key f (vals j) = Some o).
  { unfold mid. destruct (order_key f (vals k)) eqn:E.
    - split; [by apply tree_remove_ok|]. intros o' j. rewrite tree_has_remove by apply Hb.
      rewrite Hi. naive_solver.
    - split; [done|]. intros o' j. rewrite Hi. naive_solver. }
  destruct Hmid as [Hb' Hm]. destruct (order_key f new) as [o0|] eqn:E.
  - split; [by apply tree_insert_ok|]. intros o j. rewrite tree_has_insert, Hm. unfold upd.
    case_decide; naive_solver.
  - split; [done|]. intros o j. rewrite Hm. unfold upd. case_decide; naive_solver.
Qed.

(** Reindexing follows the rows. *)
Lemma reindex_ok k t m new :
  table_ok t -> (forall j, vals_of m j = upd k new (vals_of (rows t)) j) ->
  table_ok (reindex k (vals_of (rows t) k) new (set_rows t m)).
Proof.
  intros [Hf Hs] E. split; cbn; intros f idx Hl; rewrite map_lookup_imap in Hl;
    apply bind_Some in Hl as (idx0 & Hl & [= <-]).
  - apply (field_index_ok_ext f (upd k new (vals_of (rows t)))); [intros j; by rewrite E|]. apply reindex_field_ok. by apply Hf.
  - apply (sorted_index_ok_ext f (upd k new (vals_of (rows t)))); [intros j; by rewrite E|]. apply reindex_sorted_ok. by apply Hs.
Qed.

Lemma table_new_ok : table_ok table_new.
Proof. split; apply map_Forall_empty. Qed.

(** ** What a write and a delete do to the tables *)

Definition row_at s (name key : Bytes) : option StoredRow := tables s !! name ≫= fun t => rows t !! key.

Definition same_env s s' : Prop :=
  shard_id s' = shard_id s /\ shard_count s' = shard_count s /\
  eviction_policy s' = eviction_policy s /\ lru s' = lru s.

Lemma table_of_row s name key : rows (table_of s name) !! key = row_at s name key.
Proof. unfold table_of, row_at. destruct (tables s !! name); [done|]. apply lookup_empty. Qed.

Lemma get_or_create_tables name s :
  tables (get_or_create_table name s) = <[name := table_of s name]> (tables s).
Proof.
  unfold get_or_create_table, table_of. destruct (tables s !! name) as [t|] eqn:E; cbn; [|done].
  by rewrite insert_id.
Qed.

Lemma get_or_create_env name s : same_env s (get_or_create_table name s).
Proof. unfold get_or_create_table. by destruct (tables s !! name). Qed.

Lemma row_at_insert s m name t n k :
  row_at (set_tables s (<[name := t]> m)) n k
  = if decide (n = name) then rows t !! k else m !! n ≫= fun t => rows t !! k.
Proof. unfold row_at. cbn. case_decide as E; [subst; by rewrite lookup_insert_eq|by rewrite lookup_insert_ne]. Qed.

Variable max_blob : Z.

Lemma take_inventory_frame v s file r s' file' :
  take_inventory max_blob v (s, file) = (r, (s', file')) -> tables s' = tables s /\ same_env s s' /\
  next_row_id s' = next_row_id s.
Proof.
  unfold take_inventory, store_blob. repeat case_match; intros; simplify_eq; repeat split; done.
Qed.

(** The row a write stores. *)
Definition written_row s (name key : Bytes) (id : Z) (bytes : Bytes) (off : option Z) : StoredRow :=
  {| row_id := id; row_shard := shard_id s; data := bytes; blob_offset := off;
     version := match row_at s name key with Some r => version r + 1 | None => 1 end |}.

Definition write_effect s (name key : Bytes) (final : Value) (row : StoredRow) : gmap Bytes Table :=
  <[name := reindex key (vals_of (rows (table_of s name)) key) (Some final)
              (set_rows (table_of s name) (<[key := row]> (rows (table_of s name))))]> (tables s).

Lemma write_row_spec name key v s file r s' file' :
  write_row_unlocked max_blob name key v (s, file) = (r, (s', file')) ->
  same_env s s' /\
  match r with
  | Ok d => exists v1 off id bytes s1,
      take_inventory max_blob v (s1, file) = (Ok (v1, off), (set_tables s' (tables s1), file')) /\
      tables s1 = <[name := table_of s name]> (tables s) /\ next_offset s1 = next_offset s /\
      let final := stamp (shard_id s) name key v1 in
      encode_row final = Ok bytes /\
      tables s' = write_effect s name key final (written_row s name key id bytes off) /\
      (id = match row_at s name key with Some r => row_id r | None => next_row_id s end) /\
      d = {| table_name := name;
             operation := match row_at s name key with Some _ => bs "update" | None => bs "insert" end;
             row_key := key; d_row_id := id; d_shard_id := shard_id s; payload_arc := None;
             row_data := Some final; counter_add_amount := 0; counter_add_timestamp := 0 |}
  | Err e => tables s' = <[name := table_of s name]> (tables s)
  end.
Proof.
  intros Hw. unfold write_row_unlocked in Hw.
  assert (Hrow : rows (table_of (get_or_create_table name s) name) !! key = row_at s name key).
  { rewrite <- table_of_row. unfold table_of at 1. by rewrite get_or_create_tables, lookup_insert_eq. }
  rewrite Hrow in Hw. set (s0 := get_or_create_table name s) in *.
  set (q := match row_at s name key with Some ex => _ | None => _ end) in Hw.
  assert (Hq : exists s1, q = (match row_at s name key with Some _ => bs "update" | None => bs "insert" end,
      match row_at s name key with Some r => row_id r | None => next_row_id s end,
      match row_at s name key with Some r => version r + 1 | None => 1 end, s1) /\
      tables s1 = <[name := table_of s name]> (tables s) /\ same_env s s1 /\ next_offset s1 = next_offset s).
  { pose proof (get_or_create_tables name s) as Ht. pose proof (get_or_create_env name s) as He.
    assert (Hn : next_row_id s0 = next_row_id s /\ next_offset s0 = next_offset s)
      by (unfold s0, get_or_create_table; by destruct (tables s !! name)).
    destruct Hn as [Hn Ho]. unfold q, alloc_row_id. destruct (row_at s name key); eexists; rewrite ?Hn;
      (split; [reflexivity|]); by repeat split; try apply He. }
  destruct Hq as (s1 & -> & Ht1 & He1 & Ho1).
  unfold prepare_value in Hw.
  destruct (take_inventory max_blob v (s1, file)) as [[[v1 off]|e] [s2 file2]] eqn:Etake;
    pose proof (take_inventory_frame _ _ _ _ _ _ Etake) as (Ht2 & He2 & _).
  2: { simplify_eq. split; [|by rewrite Ht2]. unfold same_env in *. intuition congruence. }
  assert (Hsh : shard_id s2 = shard_id s) by (unfold same_env in *; intuition congruence).
  rewrite Hsh in Hw. destruct (encode_row _) as [bytes|e] eqn:Eenc; simplify_eq.
  - split; [unfold same_env in *; cbn; intuition congruence|].
    exists v1, off, (match row_at s name key with Some r => row_id r | None => next_row_id s end), bytes, s1.
    assert (Htab : table_of s2 name = table_of s name).
    { unfold table_of at 1. by rewrite Ht2, Ht1, lookup_insert_eq. }
    split_and!; try done.
    + rewrite Etake. f_equal. f_equal. destruct s2. cbn in *. by subst.
    + cbn. rewrite Ht2, Ht1, insert_insert_eq, Htab. unfold write_effect, written_row.
      unfold vals_of. by rewrite table_of_row.
  - split; [unfold same_env in *; intuition congruence|]. by rewrite Ht2.
Qed.

Lemma delete_row_spec name key s file r s' file' :
  delete_row_unlocked name key (s, file) = (r, (s', file')) ->
  same_env s s' /\ file' = file /\ next_row_id s' = next_row_id s /\ next_offset s' = next_offset s /\
  (exists d, r = Ok d /\ table_name d = name /\ row_key d = key /\ operation d = bs "delete") /\
  tables s' = match tables s !! name with
              | None => tables s
              | Some t => <[name := set_rows (match vals_of (rows t) key with
                                              | Some v => reindex key (Some v) None t
                                              | None => t
                                              end) (delete key (rows t))]> (tables s)
              end.
Proof.
  unfold delete_row_unlocked. intros [= <- <- <-].
  split; [by destruct (tables s !! name)|]. split; [done|].
  split; [by destruct (tables s !! name)|]. split; [by destruct (tables s !! name)|].
  split; [by eexists|]. destruct (tables s !! name) as [t|]; [|done]. cbn. unfold vals_of.
  by destruct (rows t !! key ≫= row_value).
Qed.

(** ** Storable values *)

Context `{!SerdeLaws}.

Lemma encode_decode v d : storable v = true -> encode_row v = Ok d -> decode_row_bytes d = Ok v.
Proof.
  intros Hs. unfold encode_row. destruct (rmp_to_vec_named v) as [mp|] eqn:E; [|done]. cbn.
  pose proof (rmp_round v mp [] Hs E) as Hr. rewrite app_nil_r in Hr.
  destruct (zlen mp <? ZSTD_THRESHOLD).
  - intros [= <-]. cbn. by rewrite Hr.
  - destruct (zstd_encode mp) as [c|] eqn:Ec; cbn; [|done]. intros [= <-]. cbn.
    rewrite (zstd_round _ _ Ec). cbn. by rewrite Hr.
Qed.

Lemma stamp_storable shard name key v :
  0 <= shard < 2 ^ 32 -> storable v = true -> storable (stamp shard name key v) = true.
Proof.
  intros Hr Hs. unfold stamp. apply storable_set_field; [|by intros []].
  destruct (beq name (bs "players")); [|done]. apply storable_set_field; [done|].
  intros d. assert (Hn : number_ok (PosInt shard) = true).
  { cbn. unfold U64. by rewrite zle_true, zlt_true by lia. }
  by destruct d.
Qed.

Lemma take_inventory_storable v sd v1 off sd' :
  take_inventory max_blob v sd = (Ok (v1, off), sd') -> storable v = true -> storable v1 = true.
Proof.
  unfold take_inventory. destruct sd as [s file]. unfold store_blob.
  repeat case_match; intros; simplify_eq; try done. apply storable_set_field; [done|by intros []].
Qed.

(** ** The invariant of a store *)

Definition store_ok s : Prop := map_Forall (fun _ t => table_ok t) (tables s) /\ 0 <= shard_id s < 2 ^ 32.

Lemma table_of_ok s name : store_ok s -> table_ok (table_of s name).
Proof.
  intros [Ht _]. unfold table_of. destruct (tables s !! name) eqn:E; [by eapply Ht|apply table_new_ok].
Qed.

Lemma store_ok_insert s s' name t :
  store_ok s -> same_env s s' -> table_ok t -> tables s' = <[name := t]> (tables s) -> store_ok s'.
Proof.
  intros [Ht Hr] (E & _) Hok Hs. split; [|by rewrite E]. rewrite Hs. by apply map_Forall_insert_2.
Qed.

Lemma write_row_ok name key v s file r s' file' :
  store_ok s -> storable v = true ->
  write_row_unlocked max_blob name key v (s, file) = (r, (s', file')) -> store_ok s'.
Proof.
  intros Hok Hv Hw. pose proof (table_of_ok s name Hok) as Ht.
  apply write_row_spec in Hw as [He Hw]. destruct r as [d|e]; [|by eapply store_ok_insert].
  destruct Hw as (v1 & off & id & bytes & s1 & Hti & _ & _ & Henc & Htab & _).
  eapply store_ok_insert; [done|done| |exact Htab]. apply reindex_ok; [done|].
  intros j. unfold upd, vals_of. case_decide as E; [subst; rewrite lookup_insert_eq; cbn|].
  - unfold row_value. cbn. rewrite (encode_decode _ _ (stamp_storable _ _ _ _ (proj2 Hok)
      (take_inventory_storable _ _ _ _ _ Hti Hv)) Henc). done.
  - by rewrite lookup_insert_ne.
Qed.

Lemma delete_row_ok name key s file r s' file' :
  store_ok s -> delete_row_unlocked name key (s, file) = (r, (s', file')) -> store_ok s'.
Proof.
  intros Hok Hd. apply delete_row_spec in Hd as (He & _ & _ & _ & _ & Hd).
  destruct (tables s !! name) as [t|] eqn:Et.
  2: { split; [rewrite Hd; apply Hok|]. rewrite (proj1 He). apply Hok. }
  assert (Ht : table_ok t) by (by eapply (proj1 Hok)).
  eapply store_ok_insert; [done|done| |exact Hd].
  assert (Hvals : forall j, vals_of (delete key (rows t)) j = upd key None (vals_of (rows t)) j).
  { intros j. unfold upd, vals_of. case_decide; [subst; by rewrite lookup_delete_eq|].
    by rewrite lookup_delete_ne. }
  pose proof (reindex_ok key t (delete key (rows t)) None Ht Hvals) as Hr.
  destruct (vals_of (rows t) key) eqn:Ev; [done|]. destruct t as [m fi si].
  split; cbn; intros f idx Hl.
  - apply (field_index_ok_ext f (vals_of m)); [|by apply (proj1 Ht)]. intros j. cbn in Hvals.
    rewrite Hvals. unfold upd. by case_decide; subst.
  - apply (sorted_index_ok_ext f (vals_of m)); [|by apply (proj2 Ht)]. intros j. cbn in Hvals.
    rewrite Hvals. unfold upd. by case_decide; subst.
Qed.

(** ** Row identifiers stay in range *)

Definition ids_ok s : Prop := 0 <= next_row_id s < 2 ^ 32.

Lemma alloc_ids s : ids_ok s -> ids_ok (snd (alloc_row_id s)).
Proof. intros _. unfold ids_ok, alloc_row_id, wrap_u32. cbn. by apply Z.mod_pos_bound. Qed.

Lemma get_or_create_ids name s : next_row_id (get_or_create_table name s) = next_row_id s.
Proof. unfold get_or_create_table. by destruct (tables s !! name). Qed.

Lemma write_row_ids name key v s file r s' file' :
  ids_ok s -> write_row_unlocked max_blob name key v (s, file) = (r, (s', file')) -> ids_ok s'.
Proof.
  intros Hi Hw. unfold write_row_unlocked, prepare_value in Hw.
  destruct (rows (table_of _ name) !! key) as [ex|] in Hw; cbn [alloc_row_id] in Hw;
  match type of Hw with context [take_inventory max_blob v (?s1, file)] =>
    assert (Hi1 : ids_ok s1)
  end; try (unfold ids_ok; by rewrite get_or_create_ids).
  2: { unfold ids_ok, wrap_u32. cbn. by apply Z.mod_pos_bound. }
  all: destruct (take_inventory _ _ _) as [[[v1 off]|e] [s2 f2]] eqn:Et;
    apply take_inventory_frame in Et as (_ & _ & Hn); unfold ids_ok in *;
    [destruct (encode_row _)|]; simplify_eq; cbn; lia.
Qed.

(** ** Batches *)

Lemma counter_value_storable c :
  0 <= c_id c < 2 ^ 32 -> is_i64 (c_value c) -> is_i64 (c_last_modified c) ->
  storable (counter_to_value c) = true.
Proof.
  intros Hi Hv Hl. assert (Hn : forall z, is_i64 z -> forall d, nested_ok d (int_value z) = true).
  { intros z Hz d. unfold is_i64, I64_MIN, I64_MAX in Hz.
    assert (Hk : number_ok (if 0 <=? z then PosInt z else NegInt z) = true).
    { destruct (0 <=? z) eqn:E; cbn; unfold U64, I64_MIN; zbool;
        rewrite zle_true, zlt_true by lia; done. }
    by destruct d. }
  unfold storable. destruct DEPTH_S as [d ->]. unfold counter_to_value. cbn [nested_ok map fst snd forallb].
  rewrite !Hn by (done || (unfold is_i64, I64_MIN, I64_MAX; lia)).
  assert (Ha : ascending [bs "id"; bs "last_modified"; bs "name"; bs "value"] = true) by by vm_compute.
  rewrite Ha. by destruct d.
Qed.

Lemma int_of_range lo hi v z : int_of lo hi v = Some z -> lo <= z <= hi.
Proof. unfold int_of. repeat case_match; intros; simplify_eq; zbool; lia. Qed.

Lemma counter_of_value_range v c :
  counter_of_value v = Some c ->
  0 <= c_id c < 2 ^ 32 /\ - 2 ^ 31 <= c_value c < 2 ^ 31 /\ is_i64 (c_last_modified c).
Proof.
  assert (Hc : forall i n x l, counter_of i n x l = Some c ->
    0 <= c_id c < 2 ^ 32 /\ - 2 ^ 31 <= c_value c < 2 ^ 31 /\ is_i64 (c_last_modified c)).
  { intros i n x l. unfold counter_of. intros H1.
    apply bind_Some in H1 as (i' & Hi & H1). apply bind_Some in H1 as (n' & _ & H1).
    apply bind_Some in H1 as (x' & Hx & H1). apply bind_Some in H1 as (l' & Hl & [= <-]).
    apply int_of_range in Hi, Hx, Hl. cbn. unfold is_i64. lia. }
  destruct v as [| | | |l|m]; try done; cbn; intros Hv.
  - destruct l as [|i [|n [|x [|y [|? ?]]]]]; try done. by eapply Hc.
  - apply bind_Some in Hv as (i & _ & Hv). apply bind_Some in Hv as (n & _ & Hv).
    apply bind_Some in Hv as (x & _ & Hv). apply bind_Some in Hv as (l & _ & Hv). by eapply Hc.
Qed.

(** The row data a delta carries can be stored. *)
Definition delta_ok (d : RowDelta) : Prop :=
  (forall v, row_data_value d = Some v -> storable v = true) /\ is_i64 (counter_add_timestamp d).

Definition inv s : Prop := store_ok s /\ ids_ok s.

Lemma counter_delta_ok d s file v s' file' :
  inv s -> delta_ok d -> counter_delta d (s, file) = (Ok v, (s', file')) ->
  inv s' /\ storable v = true.
Proof.
  intros [Hs Hi] [_ Ht]. unfold counter_delta, get_counter_in.
  assert (Hw : forall z, is_i64 (wrap_i32 z)).
  { intros z. unfold wrap_i32, is_i64, I64_MIN, I64_MAX.
    pose proof (Z.mod_pos_bound (z + 2 ^ 31) (2 ^ 32) ltac:(lia)). lia. }
  destruct (get_row_in s file (table_name d) (row_key d)) as [[w|]|];
    cbn [mbind result_bind]; [|intros E|done].
  - destruct (counter_of_value w) as [c|] eqn:Ec; cbn [ok_or mbind result_bind]; [|done].
    intros E. simplify_eq.
    apply counter_of_value_range in Ec. split; [done|]. apply counter_value_storable; cbn; auto. lia.
  - injection E as <- <- <-. split; [split; [apply Hs|by apply (alloc_ids s)]|].
    apply counter_value_storable; cbn; auto.
Qed.

Lemma apply_one_ok d s file r u s' file' :
  inv s -> delta_ok d -> apply_one max_blob d (s, file) = (Result r, u, (s', file')) -> inv s'.
Proof.
  intros [Hs Hi] Hd. unfold apply_one.
  destruct (beq _ _ || beq _ _) eqn:Eop.
  - destruct (row_data_value d) as [v|] eqn:Ev; [|done].
    destruct (write_row_unlocked _ _ _ _ _) as [r1 [s1 f1]] eqn:Ew. intros E. simplify_eq.
    split; [eapply write_row_ok; [done| |exact Ew]; by apply Hd|by eapply write_row_ids].
  - destruct (beq (operation d) (bs "delete")).
    + destruct (delete_row_unlocked _ _ _) as [r1 [s1 f1]] eqn:Ew. intros E. simplify_eq.
      split; [by eapply delete_row_ok|]. apply delete_row_spec in Ew as (_ & _ & Hn & _).
      unfold ids_ok in *. by rewrite Hn.
    + destruct (beq (operation d) (bs "counter_add")); [|intros E; by simplify_eq].
      destruct (counter_delta d (s, file)) as [[v|e] [s1 f1]] eqn:Ec; [|done].
      apply counter_delta_ok in Ec as [[Hs1 Hi1] Hv]; [|done|done].
      destruct (write_row_unlocked _ _ _ _ _) as [r1 [s2 f2]] eqn:Ew. intros E. simplify_eq.
      split; [by eapply write_row_ok|by eapply write_row_ids].
Qed.

Lemma track_inv now d s : inv s -> inv (track now d s).
Proof. unfold track. destruct (lru s); [|done]. repeat case_match; done. Qed.

Lemma apply_loop_ok now ds : forall applied committed s file l s' file',
  inv s -> Forall delta_ok ds ->
  apply_loop max_blob now ds applied committed (s, file) = (Ok l, (s', file')) -> inv s'.
Proof.
  revert now. induction ds as [|d ds IH]; intros now applied committed s file l s' file' Hs Hd;
    cbn [apply_loop]; [by intros; simplify_eq|].
  apply Forall_cons in Hd as [Hd Hds]. cbn [fst]. destruct (negb _); [by apply IH|].
  destruct (apply_one max_blob d (s, file)) as [[[e|[c|e]] u] [s1 f1]] eqn:E; [done| |done].
  apply IH; [|done]. apply track_inv. by eapply apply_one_ok.
Qed.

Lemma create_tables_inv l s : inv s -> inv (foldl (fun s (tk : Bytes * Bytes) => get_or_create_table tk.1 s) s l).
Proof.
  revert s. induction l as [|tk l IH]; intros s Hs; [done|]. apply IH. destruct Hs as [Hs Hi]. split.
  - eapply store_ok_insert; [done|apply get_or_create_env|by apply table_of_ok|apply get_or_create_tables].
  - unfold ids_ok. by rewrite get_or_create_ids.
Qed.

Lemma evict_none committed s : lru s = None -> evict committed s = s.
Proof. unfold evict. by intros ->. Qed.

(** ** New indexes *)

Lemma foldr_index_ok {A} (val : A -> option Value) (key : A -> Bytes) f (l : list A) :
  let idx := foldr (fun a idx => match index_key f (val a) with
                                 | Some fv => idx_insert fv (key a) idx | None => idx end) ∅ l in
  buckets_ok idx /\
  forall fv k, idx_has idx fv k <-> exists a, a ∈ l /\ key a = k /\ index_key f (val a) = Some fv.
Proof.
  induction l as [|a l [Hb IH]]; cbn.
  - split; [apply map_Forall_empty|]. intros fv k. unfold idx_has. rewrite lookup_empty. cbn.
    split; [set_solver|]. intros (? & H1 & _). by apply elem_of_nil in H1.
  - destruct (index_key f (val a)) as [fv0|] eqn:E.
    + split; [by apply idx_insert_ok|]. intros fv k. rewrite idx_has_insert, IH.
      setoid_rewrite elem_of_cons. naive_solver.
    + split; [done|]. intros fv k. rewrite IH. setoid_rewrite elem_of_cons. naive_solver.
Qed.

Lemma foldr_sorted_ok {A} (val : A -> option Value) (key : A -> Bytes) f (l : list A) :
  let t := foldr (fun a t => match order_key f (val a) with
                             | Some o => tree_insert o (key a) t | None => t end) [] l in
  tree_ok t /\
  forall o k, tree_has t o k <-> exists a, a ∈ l /\ key a = k /\ order_key f (val a) = Some o.
Proof.
  induction l as [|a l [Hb IH]]; cbn.
  - split; [split; constructor|]. intros o k. split; [by intros ?%tree_has_nil|].
    intros (? & H1 & _). by apply elem_of_nil in H1.
  - destruct (order_key f (val a)) as [o0|] eqn:E.
    + split; [by apply tree_insert_ok|]. intros o k. rewrite tree_has_insert, IH.
      setoid_rewrite elem_of_cons. naive_solver.
    + split; [done|]. intros o k. rewrite IH. setoid_rewrite elem_of_cons. naive_solver.
Qed.

Lemma row_pairs (m : gmap Bytes StoredRow) k (P : option Value -> Prop) :
  ~ P None ->
  (exists kr, kr ∈ map_to_list m /\ kr.1 = k /\ P (row_value kr.2)) <-> P (vals_of m k).
Proof.
  intros Hn. unfold vals_of. split.
  - intros ([k' r] & Hin & <- & HP). apply elem_of_map_to_list in Hin. cbn in *. by rewrite Hin.
  - intros HP. destruct (m !! k) as [r|] eqn:E; [|done]. exists (k, r).
    by rewrite elem_of_map_to_list.
Qed.

Lemma backfill_ok f t : field_index_ok f (vals_of (rows t)) (backfill f t).
Proof.
  destruct (foldr_index_ok (fun kr : Bytes * StoredRow => row_value kr.2) fst f (map_to_list (rows t)))
    as [Hb Hi]. split; [exact Hb|]. intros fv k. unfold backfill. rewrite Hi.
  by apply (row_pairs _ _ (fun v => index_key f v = Some fv)).
Qed.

Lemma backfill_sorted_ok f t : sorted_index_ok f (vals_of (rows t)) (backfill_sorted f t).
Proof.
  destruct (foldr_sorted_ok (fun kr : Bytes * StoredRow => row_value kr.2) fst f (map_to_list (rows t)))
    as [Hb Hi]. split; [exact Hb|]. intros o k. unfold backfill_sorted. rewrite Hi.
  by apply (row_pairs _ _ (fun v => order_key f v = Some o)).
Qed.

(** ** The store under operations that neither roll back nor evict *)

Definition kept s : Prop := inv s /\ lru s = None.

Lemma kept_tables s s' name t :
  kept s -> same_env s s' -> next_row_id s' = next_row_id s -> table_ok t ->
  tables s' = <[name := t]> (tables s) -> kept s'.
Proof.
  intros [[Hs Hi] Hl] He Hn Ht E. split; [split|].
  - by eapply store_ok_insert.
  - unfold ids_ok in *. by rewrite Hn.
  - destruct He as (_ & _ & _ & ->). done.
Qed.

Lemma kept_create name s : kept s -> kept (get_or_create_table name s).
Proof.
  intros H1. eapply kept_tables; [done|apply get_or_create_env|apply get_or_create_ids| |
    apply get_or_create_tables]. apply table_of_ok, H1.
Qed.

Lemma create_index_kept name f s : kept s -> kept (create_index_in name f s).
Proof.
  intros Hk%(kept_create name). unfold create_index_in. destruct (field_indexes _ !! f); [done|].
  set (t := table_of _ name). assert (Ht : table_ok t) by apply table_of_ok, Hk.
  eapply kept_tables; [exact Hk|done|done| |done]. split; [|apply Ht]. cbn.
  apply map_Forall_insert_2; [apply backfill_ok|apply Ht].
Qed.

Lemma create_sorted_index_kept name f s : kept s -> kept (create_sorted_index_in name f s).
Proof.
  intros Hk%(kept_create name). unfold create_sorted_index_in. destruct (sorted_indexes _ !! f); [done|].
  set (t := table_of _ name). assert (Ht : table_ok t) by apply table_of_ok, Hk.
  eapply kept_tables; [exact Hk|done|done| |done]. split; [apply Ht|]. cbn.
  apply map_Forall_insert_2; [apply backfill_sorted_ok|apply Ht].
Qed.

Lemma drop_index_kept name f s : kept s -> kept (drop_index_in name f s).
Proof.
  intros Hk. unfold drop_index_in. destruct (tables s !! name) as [t|] eqn:E; [|done].
  assert (Ht : table_ok t) by (by eapply (proj1 (proj1 (proj1 Hk)))).
  eapply kept_tables; [exact Hk|done|done| |done]. split; [|apply Ht]. cbn.
  apply map_Forall_delete, Ht.
Qed.

Lemma write_row_kept name key v s file r s' file' :
  kept s -> storable v = true -> write_row_unlocked max_blob name key v (s, file) = (r, (s', file')) ->
  kept s'.
Proof.
  intros [[Hs Hi] Hl] Hv Hw. split; [split|].
  - by eapply write_row_ok.
  - by eapply write_row_ids.
  - apply write_row_spec in Hw as [(_ & _ & _ & ->) _]. done.
Qed.

Lemma delete_row_kept name key s file r s' file' :
  kept s -> delete_row_unlocked name key (s, file) = (r, (s', file')) -> kept s'.
Proof.
  intros [[Hs Hi] Hl] Hw. split; [split|].
  - by eapply delete_row_ok.
  - apply delete_row_spec in Hw as (_ & _ & Hn & _). unfold ids_ok in *. by rewrite Hn.
  - apply delete_row_spec in Hw as [(_ & _ & _ & ->) _]. done.
Qed.

Lemma apply_one_lru d s file e u s' file' :
  apply_one max_blob d (s, file) = (e, u, (s', file')) -> lru s' = lru s.
Proof.
  unfold apply_one. destruct (beq _ _ || beq _ _).
  - destruct (row_data_value d); [|intros; by simplify_eq].
    destruct (write_row_unlocked _ _ _ _ _) as [? [s1 f1]] eqn:E. intros. simplify_eq.
    apply write_row_spec in E as [E _]. apply E.
  - destruct (beq (operation d) (bs "delete")).
    + destruct (delete_row_unlocked _ _ _) as [? [s1 f1]] eqn:E. intros. simplify_eq.
      apply delete_row_spec in E as [E _]. apply E.
    + destruct (beq _ _); [|intros; by simplify_eq].
      destruct (counter_delta d (s, file)) as [r1 [s1 f1]] eqn:Ec.
      assert (Hl : lru s1 = lru s).
      { unfold counter_delta in Ec. destruct (get_counter_in _ _ _ _) as [[c|]|];
          unfold alloc_row_id in Ec; injection Ec as _ <- _; done. }
      destruct r1; [|intros; by simplify_eq].
      destruct (write_row_unlocked _ _ _ _ _) as [? [s2 f2]] eqn:E. intros. simplify_eq.
      apply write_row_spec in E as [E _]. rewrite <- Hl. apply E.
Qed.

Lemma apply_loop_lru now ds : forall applied committed s file l s' file',
  lru s = None -> apply_loop max_blob now ds applied committed (s, file) = (Ok l, (s', file')) ->
  lru s' = None.
Proof.
  revert now. induction ds as [|d ds IH]; intros now applied committed s file l s' file' Hl;
    cbn [apply_loop]; [by intros; simplify_eq|]. destruct (negb _); [by apply IH|].
  destruct (apply_one max_blob d (s, file)) as [[[e|[c|e]] u] [s1 f1]] eqn:E; [done| |done].
  apply apply_one_lru in E. apply IH. rewrite Hl in E. unfold track. by rewrite E.
Qed.

Lemma batch_kept now ds rv s file l s' file' :
  kept s -> Forall delta_ok ds -> batch_inner max_blob now ds rv (s, file) = (Ok l, (s', file')) ->
  kept s'.
Proof.
  intros [Hi Hl] Hd. unfold batch_inner. destruct ds as [|d ds]; [by intros; simplify_eq|].
  set (s1 := foldl _ s _). assert (Hi1 : inv s1) by by apply create_tables_inv.
  assert (Hl1 : lru s1 = None).
  { unfold s1. generalize (lock_keys s (d :: ds)). intros lk. revert Hl. generalize s. clear.
    induction lk as [|tk lk IH]; intros s Hl; [done|]. apply IH.
    unfold get_or_create_table. by destruct (tables s !! tk.1). }
  destruct (occ_check _ _ _); [|done].
  destruct (apply_loop _ _ _ _ _ _) as [[c|e] [s2 f2]] eqn:E; [|done].
  intros Hr. injection Hr as <- <- <-. pose proof (apply_loop_lru _ _ _ _ _ _ _ _ _ Hl1 E) as Hl2.
  rewrite evict_none by done. split; [|done]. by eapply apply_loop_ok.
Qed.

(** ** Reachable stores *)

Definition ts_ok (ts : TableStore) : Prop :=
  kept (root ts) /\ map_Forall (fun _ s => kept s) (lobbies ts).

Lemma for_lobby_kept file : kept (for_lobby file).
Proof.
  split; [split|done]; [|unfold ids_ok; cbn; lia]. split; [apply map_Forall_empty|cbn; lia].
Qed.

Lemma lobby_store_kept ts lid : ts_ok ts -> kept (lobby_store ts lid).
Proof.
  intros [_ Hl]. unfold lobby_store. destruct (lobbies ts !! lid) eqn:E; [by eapply Hl|].
  apply for_lobby_kept.
Qed.

(** A store operation that keeps [kept]. *)
Definition keeps {A} (f : SD -> A * SD) : Prop :=
  forall s file a s' file', kept s -> f (s, file) = (a, (s', file')) -> kept s'.

Lemma on_root_ok {A} (f : SD -> A * SD) ts a ts' :
  keeps f -> ts_ok ts -> on_root f ts = (a, ts') -> ts_ok ts'.
Proof.
  intros Hf [Hr Hl]. unfold on_root. destruct (f _) as [b [s file]] eqn:E. intros [= <- <-].
  split; [by eapply Hf|done].
Qed.

Lemma on_lobby_ok {A} lid (f : SD -> A * SD) ts a ts' :
  keeps f -> ts_ok ts -> on_lobby lid f ts = (a, ts') -> ts_ok ts'.
Proof.
  intros Hf Hts. unfold on_lobby. destruct (f _) as [b [s file]] eqn:E. intros [= <- <-].
  split; [apply Hts|]. apply map_Forall_insert_2; [|apply Hts].
  eapply Hf; [|exact E]. by apply lobby_store_kept.
Qed.

Lemma route_ok {A} name (none : A) f ts a ts' :
  (forall n, keeps (f n)) -> ts_ok ts -> route name none f ts = (a, ts') -> ts_ok ts'.
Proof.
  intros Hf Hts. unfold route. destruct (parse_lobby_key name) as [[lid logical]|].
  - apply on_lobby_ok; [|done]. intros s file b s' file' Hk. case_bool_decide; [by intros; simplify_eq|].
    by apply Hf.
  - by apply on_root_ok.
Qed.

(** The operations of the engine, as long as no batch fails and nothing is evicted. *)
Inductive grows : TableStore -> TableStore -> Prop :=
| grows_set name key v r ts ts' :
    storable v = true -> set_row max_blob name key v ts = (r, ts') -> grows ts ts'
| grows_delete name key r ts ts' : delete_row name key ts = (r, ts') -> grows ts ts'
| grows_batch now ds rv l ts ts' :
    Forall delta_ok ds ->
    apply_delta_batch_versioned max_blob now ds rv ts = (Ok l, ts') -> grows ts ts'
| grows_index name f r ts ts' : create_index name f ts = (r, ts') -> grows ts ts'
| grows_sorted name f r ts ts' : create_sorted_index name f ts = (r, ts') -> grows ts ts'
| grows_drop name f r ts ts' : drop_index name f ts = (r, ts') -> grows ts ts'
| grows_read {A} name (none : A) f r ts ts' :
    route name none (fun n => reads (f n)) ts = (r, ts') -> grows ts ts'
| grows_top name f limit desc r ts ts' : top_n name f limit desc ts = (r, ts') -> grows ts ts'
| grows_count name f r ts ts' : count_by_field name f ts = (r, ts') -> grows ts ts'
| grows_clear ts : grows ts (clear_all ts).

Lemma of_lobby_ok lid d d' : of_lobby lid d = Some d' -> delta_ok d -> delta_ok d'.
Proof. unfold of_lobby. repeat case_match; intros; simplify_eq. done. Qed.

Lemma batch_lobbies_ok now lids : forall ds rv res ts l ts',
  ts_ok ts -> Forall delta_ok ds ->
  batch_lobbies max_blob now lids ds rv res ts = (Ok l, ts') -> ts_ok ts'.
Proof.
  induction lids as [|lid lids IH]; intros ds rv res ts l ts' Hts Hd; cbn [batch_lobbies];
    [by intros; simplify_eq|].
  destruct (on_lobby _ _ ts) as [[r|e] ts1] eqn:E; [|done]. apply IH; [|done].
  unfold on_lobby in E. destruct (batch_inner _ _ _ _ _) as [b [s file]] eqn:Eb.
  injection E as -> <-. split; [apply Hts|]. apply map_Forall_insert_2; [|apply Hts].
  eapply batch_kept; [by apply (lobby_store_kept ts lid)| |exact Eb].
  rewrite Forall_forall. intros d' Hin. apply list_elem_of_omap in Hin as (d & Hin & Hd').
  rewrite Forall_forall in Hd. eapply of_lobby_ok; [exact Hd'|by apply Hd].
Qed.

Lemma Forall_filter {A} (P : A -> Prop) (g : A -> bool) l : Forall P l -> Forall P (List.filter g l).
Proof. rewrite !List.Forall_forall. intros Hl x [Hx _]%filter_In. by apply Hl. Qed.

Lemma grows_ok ts ts' : grows ts ts' -> ts_ok ts -> ts_ok ts'.
Proof.
  intros Hg Hts. destruct Hg as [name key v r ts ts' Hv E|name key r ts ts' E|now ds rv l ts ts' Hd E
    |name f r ts ts' E|name f r ts ts' E|name f r ts ts' E|A name none f r ts ts' E
    |name f limit desc r ts ts' E|name f r ts ts' E|ts].
  - eapply route_ok; [|done|exact E]. intros n s file a s' file' Hk E'. by eapply write_row_kept.
  - eapply route_ok; [|done|exact E]. intros n s file a s' file' Hk E'. by eapply delete_row_kept.
  - unfold apply_delta_batch_versioned in E. destruct ds as [|d ds]; [by simplify_eq|].
    destruct (on_root _ ts) as [[r|e] ts1] eqn:E1; [|done].
    eapply batch_lobbies_ok; [|exact Hd|exact E]. unfold on_root in E1.
    destruct (batch_inner _ _ _ _ _) as [b [s file]] eqn:Eb. injection E1 as -> <-.
    split; [|apply Hts]. eapply batch_kept; [apply Hts| |exact Eb]. by apply Forall_filter.
  - eapply on_root_ok; [|done|exact E]. intros s file a s' file' Hk [= <- <- <-].
    by apply create_index_kept.
  - eapply on_root_ok; [|done|exact E]. intros s file a s' file' Hk [= <- <- <-].
    by apply create_sorted_index_kept.
  - eapply on_root_ok; [|done|exact E]. intros s file a s' file' Hk [= <- <- <-].
    by apply drop_index_kept.
  - eapply route_ok; [|done|exact E]. by intros n s file a s' file' Hk [= <- <- <-].
  - eapply route_ok; [|done|exact E]. intros n s file a s' file' Hk. unfold top_n_in.
    destruct (tables s !! n); intros [= <- <- <-]; [|done]. by apply create_sorted_index_kept.
  - eapply route_ok; [|done|exact E]. intros n s file a s' file' Hk. unfold count_by_field_in.
    destruct (tables s !! n); intros [= <- <- <-]; [|done]. by apply create_index_kept.
  - split; [|apply map_Forall_empty]. destruct Hts as [[[[_ Hr] Hi] Hl] _].
    split; [split; [split; [apply map_Forall_empty|done]|done]|done].
Qed.

Lemma grown_ok file ts : rtc grows (table_store_new NoEviction file) ts -> ts_ok ts.
Proof.
  intros Hr. assert (Hnew : ts_ok (table_store_new NoEviction file)).
  { split; [apply for_lobby_kept|apply map_Forall_empty]. }
  induction Hr as [|x y z Hxy _ IH]; [done|]. apply IH. by eapply grows_ok.
Qed.

Lemma reachable_table file ts name :
  rtc grows (table_store_new NoEviction file) ts -> table_ok (table_of (root ts) name).
Proof. intros [[[Hs _] _] _]%grown_ok. by apply table_of_ok. Qed.

Lemma vals_row s name k : vals_of (rows (table_of s name)) k = row_at s name k ≫= row_value.
Proof. unfold vals_of. by rewrite table_of_row. Qed.

(** ** What the index reads answer *)

Lemma idx_lookup_has idx fv k : k ∈ idx_lookup fv idx <-> idx_has idx fv k.
Proof. apply elem_of_elements. Qed.


(** *** Sorted reads *)

(** The entries of a sorted index in ascending order. *)
Definition tree_entries (t : SortedIndex) : list (OrderedField * Bytes) :=
  concat (map (fun e => map (pair e.1) (sort_keys (elements e.2))) t).

(** Ascending values; keys ascending among equal values. *)
Definition entry_lt (desc : bool) (x y : OrderedField * Bytes) : Prop :=
  (if desc then of_lt y.1 x.1 else of_lt x.1 y.1) \/ x.1 = y.1 /\ bytes_ltb x.2 y.2 = true.

Lemma StronglySorted_concat {A} (R : A -> A -> Prop) (ls : list (list A)) :
  Forall (StronglySorted R) ls ->
  StronglySorted (fun l1 l2 => forall a b, a ∈ l1 -> b ∈ l2 -> R a b) ls ->
  StronglySorted R (concat ls).
Proof.
  induction ls as [|l ls IH]; cbn; intros Hl Hs; [constructor|].
  apply Forall_cons in Hl as [Hl Hls]. apply StronglySorted_inv in Hs as [Hs Hf].
  apply StronglySorted_app. split_and!; [|done|by apply IH].
  intros a b Ha Hb. apply list_elem_of_In, in_concat in Hb as (l2 & H2%list_elem_of_In & Hb%list_elem_of_In).
  rewrite Forall_forall in Hf. by eapply Hf.
Qed.

Lemma sort_keys_strict (s : gset Bytes) :
  StronglySorted (fun a b => bytes_ltb a b = true) (sort_keys (elements s)).
Proof.
  assert (Hs : StronglySorted bytes_le (sort_keys (elements s))).
  { apply Sorted_StronglySorted; [intros a b c; apply bytes_leb_trans|]. apply Sorted_merge_sort. apply _. }
  assert (Hn : NoDup (sort_keys (elements s))).
  { unfold sort_keys. rewrite merge_sort_Permutation. apply NoDup_elements. }
  induction Hs as [|a l Hs IH Hf]; [constructor|]. apply NoDup_cons in Hn as [Ha Hn].
  constructor; [by apply IH|]. rewrite Forall_forall in *. intros b Hb. unfold bytes_ltb.
  apply andb_true_iff. split; [by apply Hf|]. apply negb_true_iff, bool_decide_eq_false. by intros ->.
Qed.

Lemma elem_sort_keys (s : gset Bytes) k : k ∈ sort_keys (elements s) <-> k ∈ s.
Proof. unfold sort_keys. by rewrite merge_sort_Permutation, elem_of_elements. Qed.

Lemma tree_entries_elem t o k : (o, k) ∈ tree_entries t <-> tree_has t o k.
Proof.
  unfold tree_entries. rewrite list_elem_of_In, in_concat. split.
  - intros (l & H1 & H2). apply in_map_iff in H1 as ([o' ks] & <- & Hin).
    apply in_map_iff in H2 as (k' & [= -> ->] & Hk). exists ks.
    rewrite list_elem_of_In. split; [done|]. by apply elem_sort_keys, list_elem_of_In.
  - intros (ks & Hin & Hk). exists (map (pair o) (sort_keys (elements ks))).
    rewrite !in_map_iff. split; [exists (o, ks); by rewrite <- list_elem_of_In|].
    exists k. split; [done|]. by apply list_elem_of_In, elem_sort_keys.
Qed.

Lemma elem_of_rev {A} (x : A) l : x ∈ rev l <-> x ∈ l.
Proof. rewrite !list_elem_of_In. symmetry. apply in_rev. Qed.

Lemma StronglySorted_rev {A} (R : A -> A -> Prop) l :
  StronglySorted R l -> StronglySorted (fun a b => R b a) (rev l).
Proof.
  induction 1 as [|a l Hs IH Hf]; cbn; [constructor|]. apply StronglySorted_app.
  split_and!; [|done|by repeat constructor]. intros x y Hx ->%list_elem_of_singleton.
  rewrite Forall_forall in Hf. apply Hf. by rewrite <- elem_of_rev.
Qed.

Lemma StronglySorted_map {A B} (f : A -> B) (R : B -> B -> Prop) (Q : A -> A -> Prop) l :
  (forall a b, Q a b -> R (f a) (f b)) -> StronglySorted Q l -> StronglySorted R (map f l).
Proof.
  intros Hq. induction 1 as [|a l Hs IH Hf]; cbn; constructor; [done|].
  rewrite Forall_map. eapply Forall_impl; [exact Hf|]. auto.
Qed.

Lemma StronglySorted_unmap {A B} (f : A -> B) (R : B -> B -> Prop) l :
  StronglySorted R (map f l) -> StronglySorted (fun a b => R (f a) (f b)) l.
Proof.
  induction l as [|a l IH]; cbn; [constructor|]. intros [Hs Hf]%StronglySorted_inv.
  constructor; [by apply IH|]. by rewrite Forall_map in Hf.
Qed.

Lemma tree_entries_sorted desc t :
  tree_ok t -> StronglySorted (entry_lt desc) (tree_entries (if desc then rev t else t)).
Proof.
  intros [Hs _]. apply StronglySorted_unmap in Hs. apply StronglySorted_concat.
  - rewrite Forall_map. apply Forall_forall. intros e _.
    eapply StronglySorted_map; [|apply sort_keys_strict]. intros a b Hab. right. by split.
  - eapply (StronglySorted_map _ _ (fun a b => if desc then of_lt b.1 a.1 else of_lt a.1 b.1)).
    + intros [o1 k1] [o2 k2] Ho x y (? & -> & _)%list_elem_of_fmap (? & -> & _)%list_elem_of_fmap.
      left. by destruct desc.
    + destruct desc; [|done]. by apply StronglySorted_rev in Hs.
Qed.

Lemma push_upto_spec limit l : forall out,
  push_upto limit l out
  = out ++ if zlen out <? limit then take (Z.to_nat (limit - zlen out)) l else l.
Proof.
  induction l as [|k l IH]; intros out; cbn [push_upto].
  - destruct (zlen out <? limit); by rewrite ?take_nil, app_nil_r.
  - len_norm. destruct (_ =? limit) eqn:E; zbool.
    + rewrite zlt_true by lia. replace (Z.to_nat (limit - zlen out)) with 1%nat by lia. done.
    + rewrite IH. len_norm. rewrite <- app_assoc. f_equal. destruct (zlen out <? limit) eqn:E2; zbool.
      * rewrite zlt_true by lia.
        replace (Z.to_nat (limit - zlen out)) with (S (Z.to_nat (limit - Z.of_nat (length out + 1)))) by lia.
        done.
      * rewrite zlt_false by lia. done.
Qed.

Lemma sorted_top_n_spec limit desc t :
  sorted_top_n limit desc t
  = let l := map snd (tree_entries (if desc then rev t else t)) in
    if 0 <? limit then take (Z.to_nat limit) l else l.
Proof.
  unfold sorted_top_n. rewrite push_upto_spec. cbn [length app]. rewrite Z.sub_0_r.
  assert (E : forall t, concat (map (fun kv : OrderedField * gset Bytes => sort_keys (elements kv.2)) t)
                      = map snd (tree_entries t)).
  { clear. intros t. unfold tree_entries. rewrite concat_map, map_map. f_equal. apply map_ext.
    intros [o ks]. cbn. rewrite map_map. cbn. by rewrite map_id. }
  by rewrite E.
Qed.

Lemma tree_has_rev (desc : bool) t o k : tree_has (if desc then rev t else t) o k <-> tree_has t o k.
Proof. unfold tree_has. destruct desc; [|done]. by setoid_rewrite elem_of_rev. Qed.

(** The top-N read is a correct ORDER BY: in a reachable store it lists the keys of the
    rows whose field can be ordered, each once, by value (numbers by magnitude, whatever their
    textual form) and by key among equal values, from the top or the bottom, and cuts the
    list at the limit; a limit of zero cuts nothing. *)
Theorem top_n_orders file ts name f limit desc keys ts' :
  rtc grows (table_store_new NoEviction file) ts -> parse_lobby_key name = None ->
  top_n name f limit desc ts = (keys, ts') ->
  exists l : list (OrderedField * Bytes),
    StronglySorted (entry_lt desc) l /\
    (forall o k, (o, k) ∈ l <-> order_key f (row_at (root ts) name k ≫= row_value) = Some o) /\
    keys = if 0 <? limit then take (Z.to_nat limit) (map snd l) else map snd l.
Proof.
  intros Hr Hg Htop. pose proof (grown_ok _ _ Hr) as [[[Hs _] _] _].
  unfold top_n, route, on_root, top_n_in in Htop. rewrite Hg in Htop.
  destruct (tables (root ts) !! name) as [t|] eqn:Et.
  2: { injection Htop as <- _. exists []. split; [constructor|]. split.
       - intros o k. rewrite <- table_of_row. unfold table_of. rewrite Et. cbn.
         rewrite lookup_empty. cbn. split; [by intros ?%elem_of_nil|done].
       - destruct (0 <? limit); cbn; [by rewrite take_nil|done]. }
  injection Htop as <- _. set (s2 := create_sorted_index_in name f (root ts)).
  assert (Hidx : exists tr, sorted_indexes (table_of s2 name) !! f = Some tr /\
    sorted_index_ok f (vals_of (rows (table_of (root ts) name))) tr).
  { unfold s2, create_sorted_index_in, get_or_create_table. rewrite Et.
    destruct (sorted_indexes (table_of (root ts) name) !! f) as [tr|] eqn:Ei.
    - exists tr. split; [done|]. by apply (proj2 (table_of_ok _ name Hs)) in Ei.
    - eexists. split; [|apply backfill_sorted_ok]. unfold table_of at 1. cbn.
      rewrite lookup_insert_eq. cbn. by rewrite lookup_insert_eq. }
  destruct Hidx as (tr & Ei & Hok & Hi). rewrite Ei.
  exists (tree_entries (if desc then rev tr else tr)). split; [by apply tree_entries_sorted|].
  split; [|apply sorted_top_n_spec]. intros o k.
  by rewrite tree_entries_elem, tree_has_rev, Hi, vals_row.
Qed.
End Indexes.

(** ** Witnesses *)

Definition demo_row (n : Z) : Value := Object [(bs "score", Num (PosInt n))].

#[local] Existing Instances demo_serde demo_laws.

Definition demo_t1 : TableStore :=
  snd (set_row 1000 (bs "t") (bs "a") (demo_row 10) (table_store_new NoEviction [])).
Definition demo_t2 : TableStore := snd (set_row 1000 (bs "t") (bs "b") (demo_row 9) demo_t1).
Definition demo_t3 : TableStore := snd (create_index (bs "t") (bs "score") demo_t2).

Lemma demo_t3_reachable : rtc (grows 1000) (table_store_new NoEviction []) demo_t3.
Proof.
  eapply rtc_l; [eapply (grows_set 1000 (bs "t") (bs "a") (demo_row 10)); [by vm_compute|apply surjective_pairing]|].
  eapply rtc_l; [eapply (grows_set 1000 (bs "t") (bs "b") (demo_row 9)); [by vm_compute|apply surjective_pairing]|].
  eapply rtc_l; [eapply (grows_index 1000 (bs "t") (bs "score")); apply surjective_pairing|].
  apply rtc_refl.
Qed.


Lemma top_n_orders_witness :
  fst (top_n (bs "t") (bs "score") 5 true demo_t3) = [bs "a"; bs "b"] /\
  exists l, StronglySorted (entry_lt true) l /\ [bs "a"; bs "b"] = take 5 (map snd l).
Proof.
  assert (Ht : fst (top_n (bs "t") (bs "score") 5 true demo_t3) = [bs "a"; bs "b"]) by by vm_compute.
  split; [exact Ht|].
  destruct (top_n_orders 1000 [] demo_t3 (bs "t") (bs "score") 5 true _ _ demo_t3_reachable eq_refl
              (surjective_pairing _)) as (l & Hs & _ & Hk).
  exists l. split; [exact Hs|]. rewrite <- Ht. exact Hk.
Defined.
