(* ===== verification/TableBatch.v ===== *)
(** * Batch commits of the table engine

    What a batch does to the rows: it is undone when a delta is refused, refused when a row
    it read and writes has moved on, and its counters add up under the locks. Then what the
    rollback and the early returns of the loop leave behind, and the locks: no two batches
    wait for each other. *)

From S2P Require Import Prelude Errors Util Json JsonCodec Table TableIndex.
From Stdlib Require Import Sorted.

(** ** Rows through one delta *)

Section Batches.
Context `{Serde}.
Variable max_blob : Z.
Implicit Types (s : Store) (d : RowDelta) (n k : Bytes).

(** Same rows, whatever tables exist. *)
Definition same_rows s s' : Prop := forall n k, row_at s' n k = row_at s n k.

Lemma same_rows_refl s : same_rows s s.
Proof. done. Qed.
Lemma same_rows_trans s1 s2 s3 : same_rows s1 s2 -> same_rows s2 s3 -> same_rows s1 s3.
Proof. intros H1 H2 n k. by rewrite H2. Qed.

Lemma same_rows_create name s s' :
  tables s' = <[name := table_of s name]> (tables s) -> same_rows s s'.
Proof.
  intros E n k. unfold row_at at 1. rewrite E. destruct (decide (n = name)) as [->|].
  - rewrite lookup_insert_eq. cbn. apply table_of_row.
  - by rewrite lookup_insert_ne.
Qed.

Lemma same_rows_get_or_create name s : same_rows s (get_or_create_table name s).
Proof. apply (same_rows_create name), get_or_create_tables. Qed.

Lemma rows_reindex k old new t : rows (reindex k old new t) = rows t.
Proof. done. Qed.

(** A write changes its own row only. *)
Lemma write_row_rows name key v s file r s' file' :
  write_row_unlocked max_blob name key v (s, file) = (r, (s', file')) ->
  match r with
  | Ok d => exists row, row_at s' name key = Some row /\
      version row = match row_at s name key with Some r => version r + 1 | None => 1 end /\
      forall n k, (n, k) <> (name, key) -> row_at s' n k = row_at s n k
  | Err _ => same_rows s s'
  end.
Proof.
  intros [_ Hw]%write_row_spec. destruct r as [d|e]; [|by eapply same_rows_create].
  destruct Hw as (v1 & off & id & bytes & s1 & _ & _ & _ & _ & Ht & _).
  exists (written_row s name key id bytes off). unfold row_at at 1 3. rewrite Ht. unfold write_effect.
  split; [by rewrite lookup_insert_eq; cbn; rewrite lookup_insert_eq|]. split; [done|].
  intros n k Hne. destruct (decide (n = name)) as [->|].
  - rewrite lookup_insert_eq. cbn. rewrite lookup_insert_ne by congruence. apply table_of_row.
  - by rewrite lookup_insert_ne.
Qed.

Lemma delete_row_rows name key s file r s' file' :
  delete_row_unlocked name key (s, file) = (r, (s', file')) ->
  row_at s' name key = None /\ forall n k, (n, k) <> (name, key) -> row_at s' n k = row_at s n k.
Proof.
  intros (_ & _ & _ & _ & _ & Ht)%delete_row_spec. unfold row_at. rewrite Ht.
  destruct (tables s !! name) as [t|] eqn:E; [|by rewrite E].
  assert (Hr : forall o, rows (match o with Some v => reindex key (Some v) None t | None => t end) = rows t)
    by by intros [].
  split; [rewrite lookup_insert_eq; cbn; apply lookup_delete_eq|].
  intros n k Hne. destruct (decide (n = name)) as [->|].
  - rewrite lookup_insert_eq, E. cbn. by rewrite lookup_delete_ne by congruence.
  - by rewrite lookup_insert_ne.
Qed.

(** A table a write or a delete has been tried on exists; tables never disappear. *)
Definition tables_stay s s' : Prop := forall n, is_Some (tables s !! n) -> is_Some (tables s' !! n).

Lemma tables_stay_refl s : tables_stay s s.
Proof. by intros n. Qed.
#[local] Hint Resolve tables_stay_refl same_rows_refl : core.

Lemma write_row_table name key v s file r s' file' :
  write_row_unlocked max_blob name key v (s, file) = (r, (s', file')) ->
  is_Some (tables s' !! name) /\ tables_stay s s'.
Proof.
  intros [_ Hw]%write_row_spec.
  assert (Ht : exists t, tables s' = <[name := t]> (tables s)).
  { destruct r as [d|e]; [|by eexists]. destruct Hw as (? & ? & ? & ? & ? & _ & _ & _ & _ & Ht & _).
    by eexists. }
  destruct Ht as [t Ht]. unfold tables_stay. rewrite Ht. split; [rewrite lookup_insert_eq; by eexists|].
  intros n Hn. destruct (decide (n = name)) as [->|]; [rewrite lookup_insert_eq; by eexists|].
  by rewrite lookup_insert_ne.
Qed.

Lemma delete_row_table name key s file r s' file' :
  delete_row_unlocked name key (s, file) = (r, (s', file')) -> tables_stay s s'.
Proof.
  intros (_ & _ & _ & _ & _ & Ht)%delete_row_spec n Hn. rewrite Ht.
  destruct (tables s !! name) as [t|] eqn:E; [|done].
  destruct (decide (n = name)) as [->|]; [rewrite lookup_insert_eq; by eexists|].
  by rewrite lookup_insert_ne.
Qed.

(** ** The rollback *)

(** Undoing [u] in [s'] gives the rows of [s]. *)
Definition undoes s s' (u : Undo) : Prop :=
  u.2 = row_at s u.1.1 u.1.2 /\ (is_Some (u.2) -> is_Some (tables s' !! u.1.1)) /\
  forall n k, (n, k) <> u.1 -> row_at s' n k = row_at s n k.

Lemma restore_rows s u n k :
  row_at (restore s u) n k =
  match tables s !! u.1.1 with
  | Some _ => if decide ((n, k) = u.1) then u.2 else row_at s n k
  | None => row_at s n k
  end.
Proof.
  destruct u as [[name key] old]. unfold restore. cbn [fst snd].
  destruct (tables s !! name) as [t|] eqn:E; [|done].
  rewrite row_at_insert. cbn [rows set_rows]. destruct (decide (n = name)) as [->|Hn].
  - assert (Er : row_at s name k = rows t !! k) by (unfold row_at; by rewrite E).
    destruct (decide (k = key)) as [->|Hk].
    + rewrite decide_True by done. destruct old; [by rewrite lookup_insert_eq|by rewrite lookup_delete_eq].
    + rewrite decide_False by congruence. rewrite Er.
      destruct old; [by rewrite lookup_insert_ne|by rewrite lookup_delete_ne].
  - rewrite decide_False by congruence. done.
Qed.

Lemma restore_undoes s s' u : undoes s s' u -> same_rows s (restore s' u).
Proof.
  intros (Hold & Ht & Hne) n k. rewrite restore_rows. destruct (tables s' !! u.1.1) as [t|] eqn:E.
  - case_decide as Hd; [|by apply Hne]. by rewrite Hold, <- Hd.
  - destruct (decide ((n, k) = u.1)) as [Hd|]; [|by apply Hne]. destruct u as [[name key] old].
    cbn in *. injection Hd as -> ->. rewrite <- Hold. destruct old as [r|].
    + destruct Ht as [t Ht]; [by eexists|]. congruence.
    + unfold row_at. by rewrite E.
Qed.

Lemma restore_tables s u : tables_stay s (restore s u) /\ tables_stay (restore s u) s.
Proof.
  destruct u as [[name key] old]. unfold restore. destruct (tables s !! name) as [t|] eqn:E; [|by split; intros n].
  split; intros n [x Hx]; cbn in *; destruct (decide (n = name)) as [->|].
  - rewrite lookup_insert_eq. by eexists.
  - rewrite lookup_insert_ne by done. by eexists.
  - by eexists.
  - rewrite lookup_insert_ne in Hx by done. by eexists.
Qed.

(** A chain of recorded steps from the state before the batch to the current one. *)
Inductive logged : Store -> list Undo -> Store -> Prop :=
| logged_nil s s' : same_rows s s' -> tables_stay s s' -> logged s [] s'
| logged_snoc s l s1 s2 s3 u :
    logged s l s1 -> same_rows s1 s2 -> tables_stay s1 s2 -> undoes s2 s3 u -> tables_stay s2 s3 ->
    logged s (l ++ [u]) s3.

Lemma tables_stay_trans s1 s2 s3 : tables_stay s1 s2 -> tables_stay s2 s3 -> tables_stay s1 s3.
Proof. unfold tables_stay. eauto. Qed.

Lemma rollback_rows s l s1 :
  logged s l s1 -> forall s1', same_rows s1 s1' -> tables_stay s1 s1' -> same_rows s (rollback s1' l).
Proof.
  induction 1 as [s s' Hr Ht|s l s1 s2 s3 u Hl IH Hr12 Ht12 Hu Ht23]; intros sx Hx Htx.
  - cbn. by eapply same_rows_trans.
  - unfold rollback. rewrite rev_app_distr. cbn [rev app foldl].
    assert (Hu' : undoes s2 sx u).
    { destruct Hu as (H1 & H2 & H3). split; [done|]. split; [auto|]. intros n k Hne. rewrite Hx. auto. }
    apply IH.
    + eapply same_rows_trans; [exact Hr12|by apply restore_undoes].
    + eapply tables_stay_trans; [exact Ht12|]. eapply tables_stay_trans; [exact Ht23|].
      eapply tables_stay_trans; [exact Htx|]. apply restore_tables.
Qed.

Lemma undoes_write name key s s' :
  is_Some (tables s' !! name) -> (forall n k, (n, k) <> (name, key) -> row_at s' n k = row_at s n k) ->
  undoes s s' (undo_of s name key).
Proof. intros Ht Hr. by split_and!. Qed.

Lemma row_table s n k r : row_at s n k = Some r -> is_Some (tables s !! n).
Proof. unfold row_at. destruct (tables s !! n); [by eexists|done]. Qed.

Lemma undoes_delete name key s s' :
  tables_stay s s' -> (forall n k, (n, k) <> (name, key) -> row_at s' n k = row_at s n k) ->
  undoes s s' (undo_of s name key).
Proof. intros Ht Hr. split; [done|]. split; [|done]. intros [r Hx]. apply Ht, (row_table s name key r Hx). Qed.

Lemma counter_delta_rows d s file r s' file' :
  counter_delta d (s, file) = (r, (s', file')) -> tables s' = tables s.
Proof.
  unfold counter_delta, alloc_row_id. destruct (get_counter_in _ _ _ _) as [[c|]|];
    intros E; injection E as _ <- _; done.
Qed.

Lemma same_tables s s' : tables s' = tables s -> same_rows s s' /\ tables_stay s s'.
Proof. intros E. unfold same_rows, tables_stay, row_at. by rewrite E. Qed.

(** One delta extends the log, or leaves the rows alone. *)
Lemma apply_one_logged d s file e u s' file' :
  apply_one max_blob d (s, file) = (e, u, (s', file')) ->
  exists s1, same_rows s s1 /\ tables_stay s s1 /\ tables_stay s1 s' /\
  match u with [] => same_rows s1 s' | [u] => undoes s1 s' u | _ => False end /\
  (match e with Return x => u = [] /\
     (x = missing_row_data \/ (operation d = bs "counter_add" /\ exists s f, get_counter_in s f (table_name d) (row_key d) = Err x))
   | Result _ => True end).
Proof.
  unfold apply_one. destruct (beq _ _ || beq _ _).
  - destruct (row_data_value d) as [v|]; [|intros; simplify_eq; exists s'; split_and!; auto].
    destruct (write_row_unlocked _ _ _ _ _) as [r [s1 f1]] eqn:Ew. intros. simplify_eq. exists s.
    apply write_row_table in Ew as Hwt. destruct Hwt as [Hw1 Hw2]. split_and!; [done..| |done].
    apply undoes_write; [done|]. apply write_row_rows in Ew. destruct r; [|by intros; apply Ew].
    by destruct Ew as (? & _ & _ & ?).
  - destruct (beq (operation d) (bs "delete")).
    + destruct (delete_row_unlocked _ _ _) as [r [s1 f1]] eqn:Ew. intros. simplify_eq. exists s.
      apply delete_row_table in Ew as Hw2. split_and!; [done..| |done].
      apply undoes_delete; [done|]. by apply delete_row_rows in Ew as [_ ?].
    + destruct (beq (operation d) (bs "counter_add")) eqn:Eop;
        [|intros; simplify_eq; exists s'; split_and!; auto].
      apply beq_true in Eop.
      destruct (counter_delta d (s, file)) as [[v|x] [s1 f1]] eqn:Ec;
        pose proof (same_tables _ _ (counter_delta_rows _ _ _ _ _ _ Ec)) as [Hr1 Ht1].
      * destruct (write_row_unlocked _ _ _ _ _) as [r [s2 f2]] eqn:Ew. intros. simplify_eq. exists s1.
        apply write_row_table in Ew as Hwt. destruct Hwt as [Hw1 Hw2]. split_and!; [done..| |done].
        apply undoes_write; [done|]. apply write_row_rows in Ew. destruct r; [|by intros; apply Ew].
        by destruct Ew as (? & _ & _ & ?).
      * intros. simplify_eq. exists s'. split_and!; try done. right. split; [done|].
        exists s, file. unfold counter_delta in Ec.
        destruct (get_counter_in _ _ _ _) as [[c|]|]; [|destruct (alloc_row_id s)|]; by simplify_eq.
Qed.

Lemma track_tables now d s : tables (track now d s) = tables s.
Proof. unfold track. repeat case_match; done. Qed.

Lemma logged_shift s0 l s s1 : logged s0 l s -> same_rows s s1 -> tables_stay s s1 -> logged s0 l s1.
Proof.
  intros Hl Hr Ht. destruct Hl as [s s' Hr0 Ht0|s l sa sb sc u Hl Hr0 Ht0 (Ho & Hx & Hn) Ht2].
  - constructor; [by eapply same_rows_trans|by eapply tables_stay_trans].
  - eapply logged_snoc; [exact Hl|exact Hr0|exact Ht0| |by eapply tables_stay_trans].
    split; [done|]. split; [auto|]. intros n k Hne. rewrite Hr. auto.
Qed.

Lemma apply_loop_logged s0 now ds : forall applied committed s file r s' file',
  logged s0 applied s ->
  apply_loop max_blob now ds applied committed (s, file) = (r, (s', file')) ->
  match r with
  | Ok _ => True
  | Err e => same_rows s0 s' \/ e = missing_row_data \/
      exists d, d ∈ ds /\ operation d = bs "counter_add" /\
        exists s f, get_counter_in s f (table_name d) (row_key d) = Err e
  end.
Proof.
  revert now. induction ds as [|d ds IH]; intros now applied committed s file r s' file' Hl;
    cbn [apply_loop fst]; [by intros; simplify_eq|].
  assert (Hin : forall r s' file' committed applied now s file, logged s0 applied s ->
    apply_loop max_blob now ds applied committed (s, file) = (r, (s', file')) ->
    match r with Ok _ => True | Err e => same_rows s0 s' \/ e = missing_row_data \/
      exists d', d' ∈ d :: ds /\ operation d' = bs "counter_add" /\
        exists s f, get_counter_in s f (table_name d') (row_key d') = Err e end).
  { intros r1 s1 f1 c1 a1 n1 s2 f2 Hl1 E. specialize (IH n1 a1 c1 s2 f2 r1 s1 f1 Hl1 E).
    destruct r1; [done|]. setoid_rewrite elem_of_cons. naive_solver. }
  destruct (negb _); [by apply Hin|].
  destruct (apply_one max_blob d (s, file)) as [[e u] [s1 f1]] eqn:E.
  apply apply_one_logged in E as (sm & Hr & Ht & Ht1 & Hu & He).
  assert (Hlog : logged s0 (applied ++ u) s1).
  { destruct u as [|u [|]]; [|by eapply logged_snoc|done]. rewrite app_nil_r.
    eapply logged_shift; [exact Hl|by eapply same_rows_trans|by eapply tables_stay_trans]. }
  destruct e as [x|[c|x]].
  - intros. simplify_eq. right. destruct He as [_ [->|(Hop & Hx)]]; [by left|].
    right. exists d. by rewrite elem_of_cons; auto.
  - apply Hin. pose proof (same_tables _ _ (track_tables (now 0%nat) c s1)) as [Hr2 Ht2].
    by eapply logged_shift.
  - intros. simplify_eq. left. by eapply rollback_rows.
Qed.

(** ** Atomicity *)

Definition unreadable (e : VoltraError) : Prop := e = Io \/ e = SerializationError.

Lemma full_value_err file r e : full_value file r = Err e -> unreadable e.
Proof.
  assert (Hs : forall A (o : option A) e, ok_or o SerializationError = Err e -> unreadable e).
  { intros A o e' ->%ok_or_err. by right. }
  apply bind_err.
  - intros e'. unfold decode_row_bytes. repeat case_match; try by intros; simplify_eq; right.
    + apply Hs.
    + apply bind_err; intros ?; apply Hs.
  - intros a. case_match; [|done]. apply bind_err.
    + intros e'. unfold load_blob. cbn. repeat case_match; intros; simplify_eq; by left.
    + intros b. apply bind_err; [intros ?; apply Hs|done].
Qed.

Lemma get_counter_err s file n k e : get_counter_in s file n k = Err e -> unreadable e.
Proof.
  apply bind_err.
  - intros e'. apply bind_err; [|done]. intros e2. unfold get_row_with_version_in.
    repeat case_match; try done. apply bind_err; [|done]. apply full_value_err.
  - intros [v|]; [|done]. apply bind_err; [|done]. intros e' ->%ok_or_err. by right.
Qed.

Lemma create_tables_rows (l : list (Bytes * Bytes)) s :
  same_rows s (foldl (fun s tk => get_or_create_table tk.1 s) s l).
Proof.
  revert s. induction l as [|tk l IH]; intros s; [done|]. cbn.
  eapply same_rows_trans; [apply same_rows_get_or_create|apply IH].
Qed.

Lemma create_tables_env (l : list (Bytes * Bytes)) s :
  same_env s (foldl (fun s tk => get_or_create_table tk.1 s) s l).
Proof.
  revert s. induction l as [|tk l IH]; intros s; [done|]. cbn.
  pose proof (get_or_create_env tk.1 s). specialize (IH (get_or_create_table tk.1 s)).
  unfold same_env in *. intuition congruence.
Qed.

Lemma occ_check_err s written rv e : occ_check s written rv = Err e -> exists m, e = TxnConflict m.
Proof. induction rv as [|[[t k] seen] rv IH]; cbn; [done|]. case_match; [intros [= <-]; by eexists|done]. Qed.

Lemma batch_rows_kept now ds rv s file e s' file' :
  batch_inner max_blob now ds rv (s, file) = (Err e, (s', file')) ->
  e <> missing_row_data ->
  (unreadable e -> Forall (fun d => operation d <> bs "counter_add") ds) -> same_rows s s'.
Proof.
  intros Hb Hm Hc. unfold batch_inner in Hb. destruct ds as [|d ds]; [done|].
  set (s1 := foldl _ s _) in Hb.
  assert (Hr1 : same_rows s s1) by apply create_tables_rows.
  destruct (occ_check s1 _ rv) as [[]|x]; [|by simplify_eq].
  destruct (apply_loop _ _ _ _ _ _) as [[c|x] [s2 f2]] eqn:E; [done|]. simplify_eq.
  apply (apply_loop_logged s1) in E; [|by constructor].
  destruct E as [E|[->|(d' & Hin & Hop & s3 & f3 & He)]]; [by eapply same_rows_trans|done|].
  apply get_counter_err, Hc in He. rewrite Forall_forall in He. by apply He in Hin.
Qed.

(** C24: a batch on one store is all or nothing: when it fails, because a version has changed, an
    operation is unknown, a blob is too large or a row cannot be encoded, every row of every table
    of the store is what it was, identifiers and versions included. The exceptions are the errors
    the loop returns without looking back: a write without its data
    (missing_row_data_half_applied), and, in a batch that adds to counters, a row that cannot be
    read or encoded. A commit to the root and to lobbies is one batch for each, and those before
    the one that fails stay (lobby_batch_not_atomic). *)
Theorem batch_atomic now ds rv s file e s' file' :
  batch_inner max_blob now ds rv (s, file) = (Err e, (s', file')) ->
  e <> missing_row_data ->
  (e = Io \/ e = SerializationError -> Forall (fun d => operation d <> bs "counter_add") ds) ->
  forall n k, row_at s' n k = row_at s n k.
Proof. apply batch_rows_kept. Qed.

(** ** Versions *)

Definition version_at s n k : Z := match row_at s n k with Some r => version r | None => 0 end.

Lemma same_rows_version s s' n k : same_rows s s' -> version_at s' n k = version_at s n k.
Proof. intros Hr. unfold version_at. by rewrite Hr. Qed.

(** A row is as it was, or its version has risen. *)
Definition moved n k s s' : Prop :=
  row_at s' n k = row_at s n k \/ version_at s n k < version_at s' n k.

Lemma moved_refl n k s : moved n k s s.
Proof. by left. Qed.
Lemma moved_le n k s s' : moved n k s s' -> version_at s n k <= version_at s' n k.
Proof. intros [Hr|Hv]; [unfold version_at; rewrite Hr|]; lia. Qed.
Lemma moved_trans n k s1 s2 s3 : moved n k s1 s2 -> moved n k s2 s3 -> moved n k s1 s3.
Proof.
  intros H1 H2. destruct H1 as [Hr|Hv].
  - destruct H2 as [Hr2|Hv2]; [left; congruence|right]. unfold version_at in *. by rewrite <- Hr.
  - right. apply moved_le in H2. lia.
Qed.
Lemma moved_same n k s s' : same_rows s s' -> moved n k s s'.
Proof. intros Hr. left. apply Hr. Qed.

Definition names (d : RowDelta) n k : Prop := table_name d = n /\ row_key d = k.

(** A delta touches its own row only, and records no other for the rollback. *)
Lemma apply_one_rows d s file e u s' file' n k :
  apply_one max_blob d (s, file) = (e, u, (s', file')) ->
  ~ names d n k -> row_at s' n k = row_at s n k /\ Forall (fun x : Undo => x.1 <> (n, k)) u.
Proof.
  intros E Hnk. assert (Hne : (n, k) <> (table_name d, row_key d)).
  { intros [= -> ->]. by apply Hnk. }
  assert (Hu : forall s, Forall (fun x : Undo => x.1 <> (n, k)) [undo_of s (table_name d) (row_key d)]).
  { intros s0. constructor; [|constructor]. unfold undo_of. cbn. congruence. }
  assert (Hw : forall v s1 f1 r s2 f2, same_rows s s1 ->
    write_row_unlocked max_blob (table_name d) (row_key d) v (s1, f1) = (r, (s2, f2)) ->
    row_at s2 n k = row_at s n k).
  { intros v s1 f1 r s2 f2 Hs Ew. apply write_row_rows in Ew. destruct r as [x|x].
    - destruct Ew as (row & _ & _ & Hr). by rewrite Hr, Hs.
    - by rewrite Ew, Hs. }
  unfold apply_one in E. destruct (beq _ _ || beq _ _).
  - destruct (row_data_value d) as [v|]; [|by simplify_eq].
    destruct (write_row_unlocked _ _ _ _ _) as [r [s1 f1]] eqn:Ew. simplify_eq. split; [by eapply Hw|apply Hu].
  - destruct (beq (operation d) (bs "delete")).
    + destruct (delete_row_unlocked _ _ _) as [r [s1 f1]] eqn:Ew. simplify_eq.
      apply delete_row_rows in Ew as [_ Hr]. split; [by apply Hr|apply Hu].
    + destruct (beq (operation d) (bs "counter_add")); [|by simplify_eq].
      destruct (counter_delta d (s, file)) as [[v|x] [s1 f1]] eqn:Ec;
        destruct (same_tables _ _ (counter_delta_rows _ _ _ _ _ _ Ec)) as [Hs _]; [|simplify_eq; by split].
      destruct (write_row_unlocked _ _ _ _ _) as [r [s2 f2]] eqn:Ew. simplify_eq.
      split; [by eapply Hw|apply Hu].
Qed.

Lemma rollback_others n k l s : Forall (fun x : Undo => x.1 <> (n, k)) l ->
  row_at (rollback s l) n k = row_at s n k.
Proof.
  unfold rollback. intros Hl%Forall_rev. revert s. induction Hl as [|u l' Hu _ IH]; intros s; [done|].
  cbn. rewrite IH, restore_rows. destruct (tables s !! _); [|done]. by rewrite decide_False by congruence.
Qed.

(** A batch, however it ends, touches the rows it names. *)
Lemma apply_loop_others n k now ds : forall applied committed s file r s' file',
  Forall (fun d => ~ names d n k) ds -> Forall (fun x : Undo => x.1 <> (n, k)) applied ->
  apply_loop max_blob now ds applied committed (s, file) = (r, (s', file')) ->
  row_at s' n k = row_at s n k.
Proof.
  revert now. induction ds as [|d ds IH]; intros now applied committed s file r s' file' Hds Hap;
    cbn [apply_loop fst]; [by intros; simplify_eq|]. apply Forall_cons in Hds as [Hd Hds].
  destruct (negb _); [by apply IH|].
  destruct (apply_one max_blob d (s, file)) as [[e u] [s1 f1]] eqn:E.
  apply (apply_one_rows _ _ _ _ _ _ _ n k) in E as [Hr Hu]; [|done].
  destruct e as [x|[c|x]]; [by intros; simplify_eq| |].
  - intros Hl. apply IH in Hl; [|done|by apply Forall_app]. rewrite Hl, <- Hr.
    by destruct (same_tables _ _ (track_tables (now 0%nat) c s1)) as [-> _].
  - intros. simplify_eq. rewrite rollback_others by (by apply Forall_app). exact Hr.
Qed.

Lemma batch_others n k now ds rv s file r s' file' :
  lru s = None -> Forall (fun d => ~ names d n k) ds ->
  batch_inner max_blob now ds rv (s, file) = (r, (s', file')) -> row_at s' n k = row_at s n k.
Proof.
  intros Hl Hds. unfold batch_inner. destruct ds as [|d ds]; [by intros; simplify_eq|].
  set (s1 := foldl _ s _). assert (Hr1 : same_rows s s1) by apply create_tables_rows.
  assert (Hl1 : lru s1 = None) by (rewrite <- Hl; apply create_tables_env).
  destruct (occ_check s1 _ rv); [|intros; simplify_eq; apply Hr1].
  destruct (apply_loop _ _ _ _ _ _) as [[c|x] [s2 f2]] eqn:E; intros; simplify_eq.
  - rewrite evict_none by (by eapply apply_loop_lru; [exact Hl1|exact E]).
    rewrite <- Hr1. by eapply apply_loop_others; [exact Hds|constructor|exact E].
  - rewrite <- Hr1. by eapply apply_loop_others; [exact Hds|constructor|exact E].
Qed.

Lemma apply_one_version d s file c u s' file' n k :
  apply_one max_blob d (s, file) = (Result (Ok c), u, (s', file')) ->
  names d n k -> operation d <> bs "delete" -> version_at s n k < version_at s' n k.
Proof.
  intros E [<- <-] Hd. unfold apply_one in E.
  assert (Hw : forall v s1 f1 r s2 f2, same_rows s s1 ->
    write_row_unlocked max_blob (table_name d) (row_key d) v (s1, f1) = (Ok r, (s2, f2)) ->
    version_at s (table_name d) (row_key d) < version_at s2 (table_name d) (row_key d)).
  { intros v s1 f1 r s2 f2 Hs Ew. apply write_row_rows in Ew as (row & Hr & Hv & _).
    unfold version_at. rewrite Hr, Hv, Hs. destruct (row_at s _ _); lia. }
  destruct (beq _ _ || beq _ _).
  - destruct (row_data_value d) as [v|]; [|done].
    destruct (write_row_unlocked _ _ _ _ _) as [r [s1 f1]] eqn:Ew. simplify_eq. by eapply Hw.
  - destruct (beq (operation d) (bs "delete")) eqn:Ed; [by apply beq_true in Ed|].
    destruct (beq (operation d) (bs "counter_add")); [|done].
    destruct (counter_delta d (s, file)) as [[v|x] [s1 f1]] eqn:Ec; [|done].
    destruct (same_tables _ _ (counter_delta_rows _ _ _ _ _ _ Ec)) as [Hs _].
    destruct (write_row_unlocked _ _ _ _ _) as [r [s2 f2]] eqn:Ew. simplify_eq. by eapply Hw.
Qed.

Lemma apply_one_env d s file e u s' file' :
  apply_one max_blob d (s, file) = (e, u, (s', file')) -> shard_count s' = shard_count s /\ shard_id s' = shard_id s.
Proof.
  unfold apply_one. destruct (beq _ _ || beq _ _).
  - destruct (row_data_value d); [|intros; by simplify_eq].
    destruct (write_row_unlocked _ _ _ _ _) as [? [s1 f1]] eqn:E. intros. simplify_eq.
    apply write_row_spec in E as [(? & ? & _) _]. done.
  - destruct (beq (operation d) (bs "delete")).
    + destruct (delete_row_unlocked _ _ _) as [? [s1 f1]] eqn:E. intros. simplify_eq.
      apply delete_row_spec in E as [(? & ? & _) _]. done.
    + destruct (beq _ _); [|intros; by simplify_eq].
      destruct (counter_delta d (s, file)) as [r1 [s1 f1]] eqn:Ec.
      assert (Hl : shard_count s1 = shard_count s /\ shard_id s1 = shard_id s).
      { unfold counter_delta, alloc_row_id in Ec. destruct (get_counter_in _ _ _ _) as [[c|]|];
          injection Ec as _ <- _; done. }
      destruct r1; [|intros; by simplify_eq].
      destruct (write_row_unlocked _ _ _ _ _) as [? [s2 f2]] eqn:E. intros. simplify_eq.
      apply write_row_spec in E as [(E1 & E2 & _) _]. destruct Hl. by rewrite E1, E2.
Qed.

Lemma track_env now d s : shard_count (track now d s) = shard_count s /\ shard_id (track now d s) = shard_id s.
Proof. unfold track. repeat case_match; done. Qed.

Lemma apply_loop_env now ds : forall applied committed s file l s' file',
  apply_loop max_blob now ds applied committed (s, file) = (Ok l, (s', file')) ->
  shard_count s' = shard_count s /\ shard_id s' = shard_id s.
Proof.
  revert now. induction ds as [|d ds IH]; intros now applied committed s file l s' file';
    cbn [apply_loop]; [by intros; simplify_eq|]. destruct (negb _); [by apply IH|].
  destruct (apply_one max_blob d (s, file)) as [[[x|[c|x]] u] [s1 f1]] eqn:E; [done| |done].
  apply apply_one_env in E as [<- <-]. intros [-> ->]%IH. apply track_env.
Qed.

Lemma apply_loop_version n k now ds : forall applied committed s file l s' file',
  (forall d, d ∈ ds -> names d n k -> operation d <> bs "delete") ->
  apply_loop max_blob now ds applied committed (s, file) = (Ok l, (s', file')) ->
  moved n k s s' /\
  ((exists d, d ∈ ds /\ names d n k /\ row_matches_shard s (d_shard_id d) = true) ->
   version_at s n k < version_at s' n k).
Proof.
  revert now. induction ds as [|d ds IH]; intros now applied committed s file l s' file' Hnd;
    cbn [apply_loop fst].
  { intros. simplify_eq. split; [by left|]. by intros (? & ?%elem_of_nil & _). }
  assert (Hnd' : forall d, d ∈ ds -> names d n k -> operation d <> bs "delete").
  { intros d' Hin. apply Hnd. by apply elem_of_cons; right. }
  destruct (row_matches_shard s (d_shard_id d)) eqn:Esh; cbn [negb].
  - destruct (apply_one max_blob d (s, file)) as [[[x|[c|x]] u] [s1 f1]] eqn:E; [done| |done].
    assert (Hv1 : names d n k -> version_at s n k < version_at s1 n k).
    { intros Hn. eapply apply_one_version; [exact E|done|]. apply Hnd; [by apply elem_of_cons; left|done]. }
    assert (Hstep : moved n k s s1).
    { destruct (decide (table_name d = n /\ row_key d = k)) as [Hn|Hn]; [right; by apply Hv1|left].
      by apply (apply_one_rows _ _ _ _ _ _ _ n k E Hn). }
    apply apply_one_env in E as [Ec Ei]. intros Hloop.
    apply IH in Hloop as [Hle Hlt]; [|done].
    destruct (same_tables _ _ (track_tables (now 0%nat) c s1)) as [Hr _].
    pose proof (moved_trans _ _ _ _ _ (moved_same n k _ _ Hr) Hle) as Hle1.
    rewrite (same_rows_version _ _ n k Hr) in Hlt.
    split; [by eapply moved_trans|]. apply moved_le in Hle1, Hstep.
    intros (d' & Hin & Hn & Hsh). apply elem_of_cons in Hin as [->|Hin]; [specialize (Hv1 Hn); lia|].
    assert (version_at s1 n k < version_at s' n k); [|lia]. apply Hlt. exists d'. split_and!; [done..|].
    unfold row_matches_shard in *. destruct (track_env (now 0%nat) c s1) as [-> ->]. by rewrite Ec, Ei.
  - intros Hloop. apply IH in Hloop as [Hle Hlt]; [|done]. split; [done|].
    intros (d' & Hin & Hn & Hsh). apply elem_of_cons in Hin as [->|Hin]; [congruence|].
    apply Hlt. eauto.
Qed.

(** A batch without eviction: the row's version never falls, and rises when it is written. *)
Lemma elem_lock_keys s ds n k :
  (n, k) ∈ lock_keys s ds <-> exists d, d ∈ ds /\ names d n k /\ row_matches_shard s (d_shard_id d) = true.
Proof.
  unfold lock_keys. rewrite elem_of_remove_dups, merge_sort_Permutation, list_elem_of_fmap. split.
  - intros (d & [= -> ->] & [Hin Hs]%list_elem_of_In%filter_In). exists d. split; [by apply list_elem_of_In|done].
  - intros (d & Hin & [<- <-] & Hs). exists d. split; [done|].
    apply list_elem_of_In, filter_In. split; [by apply list_elem_of_In|done].
Qed.

Lemma batch_version n k now ds rv s file l s' file' :
  lru s = None -> (forall d, d ∈ ds -> names d n k -> operation d <> bs "delete") ->
  batch_inner max_blob now ds rv (s, file) = (Ok l, (s', file')) ->
  lru s' = None /\ shard_count s' = shard_count s /\ shard_id s' = shard_id s /\
  moved n k s s' /\
  ((n, k) ∈ lock_keys s ds -> version_at s n k < version_at s' n k).
Proof.
  intros Hl Hnd. unfold batch_inner. destruct ds as [|d ds].
  { intros. simplify_eq. split_and!; [done..|apply moved_refl|]. by intros (? & ?%elem_of_nil & _)%elem_lock_keys. }
  set (s1 := foldl _ s _).
  assert (He : same_env s s1) by apply create_tables_env. destruct He as (He1 & He2 & _ & He4).
  assert (Hr1 : same_rows s s1) by apply create_tables_rows.
  destruct (occ_check s1 _ rv) as [[]|x]; [|done].
  destruct (apply_loop _ _ _ _ _ _) as [[c|x] [s2 f2]] eqn:E; [|done].
  pose proof (apply_loop_lru _ _ _ _ _ _ _ _ _ _ (eq_trans He4 Hl) E) as Hl2.
  pose proof (apply_loop_env _ _ _ _ _ _ _ _ _ E) as [Hc2 Hi2].
  pose proof (apply_loop_version n k _ _ _ _ _ _ _ _ _ Hnd E) as [Hle Hlt].
  rewrite (same_rows_version _ _ _ _ Hr1) in Hlt.
  intros Hres. injection Hres as <- <- <-. rewrite evict_none by done.
  split_and!; [done|congruence|congruence|exact (moved_trans _ _ _ _ _ (moved_same n k _ _ Hr1) Hle)|].
  intros (d' & Hin & Hn & Hsh)%elem_lock_keys. apply Hlt. exists d'. split_and!; [done..|].
  unfold row_matches_shard in *. by rewrite He1, He2.
Qed.

Lemma occ_check_ok s written rv n k v :
  occ_check s written rv = Ok tt -> (n, k, v) ∈ rv -> (n, k) ∈ written -> row_version_in s n k = v.
Proof.
  intros Ho Hin Hw. induction rv as [|[[t j] seen] rv IH]; [by apply elem_of_nil in Hin|]. cbn in Ho.
  case_match eqn:E; [done|]. apply elem_of_cons in Hin as [[= <- <- <-]|Hin]; [|by apply IH].
  rewrite bool_decide_eq_true_2 in E by done. cbn in E. by apply negb_false_iff, Z.eqb_eq in E.
Qed.

Lemma row_version_at s n k : parse_lobby_key n = None -> row_version_in s n k = version_at s n k.
Proof. intros Hn. unfold row_version_in. rewrite bool_decide_eq_false_2; [done|]. rewrite Hn. by intros [? ?]. Qed.

(** Batches that commit and do not delete the row. *)
Inductive commits n k : SD -> SD -> Prop :=
| commits_batch now ds rv l sd sd' :
    (forall d, d ∈ ds -> names d n k -> operation d <> bs "delete") ->
    batch_inner max_blob now ds rv sd = (Ok l, sd') -> commits n k sd sd'.

Lemma commits_version n k sd sd' : rtc (commits n k) sd sd' -> lru sd.1 = None ->
  lru sd'.1 = None /\ shard_count sd'.1 = shard_count sd.1 /\ shard_id sd'.1 = shard_id sd.1 /\
  moved n k sd.1 sd'.1.
Proof.
  induction 1 as [|sd1 sd2 sd3 [now ds rv l [s1 f1] [s2 f2] Hnd E] _ IH]; intros Hl; [split_and!; [done..|by left]|].
  apply (batch_version n k) in E as (Hl2 & Hc & Hi & Hle & _); [|done..].
  destruct (IH Hl2) as (? & ? & ? & ?). cbn in *. split_and!; [done|congruence|congruence|by eapply moved_trans].
Qed.

(** No lost update: two batches read the same version of a row of this shard and both
    write it. Whatever else commits in between, as long as the row is not deleted and nothing
    is evicted, once the first has committed the second is refused as a conflict and every
    row stays as it was. *)
Theorem occ_no_lost_update n k s file s1 sd2 now1 ds1 rv1 l1 f1 now2 ds2 rv2 :
  parse_lobby_key n = None -> lru s = None ->
  (forall d, d ∈ ds1 -> names d n k -> operation d <> bs "delete") ->
  (exists d, d ∈ ds1 /\ names d n k /\ row_matches_shard s (d_shard_id d) = true) ->
  batch_inner max_blob now1 ds1 rv1 (s, file) = (Ok l1, (s1, f1)) ->
  rtc (commits n k) (s1, f1) sd2 ->
  (n, k, row_version_in s n k) ∈ rv2 ->
  (exists d, d ∈ ds2 /\ names d n k /\ row_matches_shard s (d_shard_id d) = true) ->
  exists m s3, batch_inner max_blob now2 ds2 rv2 sd2 = (Err (TxnConflict m), (s3, sd2.2)) /\
    forall n k, row_at s3 n k = row_at sd2.1 n k.
Proof.
  intros Hn Hl Hnd Hw1 Hb Hc Hin Hw2. destruct sd2 as [s2 f2].
  apply (batch_version n k) in Hb as (Hl1 & Hc1 & Hi1 & _ & Hlt); [|done..].
  apply (commits_version n k) in Hc as (_ & Hc2 & Hi2 & Hle); [|done]. apply moved_le in Hle. cbn in *.
  apply elem_lock_keys, Hlt in Hw1.
  assert (Hk : (n, k) ∈ lock_keys s2 ds2).
  { apply elem_lock_keys. destruct Hw2 as (d & ? & ? & ?). exists d. split_and!; [done..|].
    unfold row_matches_shard in *. by rewrite Hc2, Hi2, Hc1, Hi1. }
  unfold batch_inner. destruct ds2 as [|d ds2]; [by destruct Hw2 as (? & ?%elem_of_nil & _)|].
  set (s3 := foldl _ s2 _). assert (Hr3 : same_rows s2 s3) by apply create_tables_rows.
  destruct (occ_check s3 _ rv2) as [[]|x] eqn:Eo.
  - apply (occ_check_ok _ _ _ n k _ Eo Hin) in Hk. rewrite !row_version_at in Hk by done.
    rewrite (same_rows_version _ _ _ _ Hr3) in Hk. lia.
  - apply occ_check_err in Eo as [m ->]. exists m, s3. split; [done|apply Hr3].
Qed.
End Batches.

(** ** Witnesses *)

#[local] Existing Instances demo_serde demo_laws.

Definition demo_delta (op k : Bytes) (v : option Value) (amount : Z) : RowDelta :=
  {| table_name := bs "t"; operation := op; row_key := k; d_row_id := 0; d_shard_id := 0;
     payload_arc := None; row_data := v; counter_add_amount := amount; counter_add_timestamp := 5 |}.
Definition demo_set (k : Bytes) (n : Z) : RowDelta := demo_delta (bs "update") k (Some (demo_row n)) 0.
Definition demo_now (_ : nat) : Z := 0.
Definition demo_batch (ds : list RowDelta) (rv : list (Bytes * Bytes * Z)) (sd : SD)
  : result VoltraError (list RowDelta) * SD := batch_inner 1000 demo_now ds rv sd.
Definition demo_s : Store := root demo_t3.

Lemma batch_atomic_witness :
  let ds := [demo_set (bs "a") 77; demo_delta (bs "upsert") (bs "b") None 0] in
  fst (demo_batch ds [] (demo_s, [])) = Err (unlisted (bs "upsert")) /\
  row_at (snd (demo_batch ds [] (demo_s, []))).1 (bs "t") (bs "a") = row_at demo_s (bs "t") (bs "a").
Proof.
  set (ds := [_; _]). assert (He : fst (demo_batch ds [] (demo_s, [])) = Err (unlisted (bs "upsert")))
    by by vm_compute.
  split; [exact He|]. apply (batch_atomic 1000 demo_now ds [] demo_s [] (unlisted (bs "upsert")) _
    (snd (demo_batch ds [] (demo_s, []))).2).
  - change (demo_batch ds [] (demo_s, []) = (Err (unlisted (bs "upsert")),
      ((snd (demo_batch ds [] (demo_s, []))).1, (snd (demo_batch ds [] (demo_s, []))).2))).
    rewrite <- He. destruct (demo_batch ds [] (demo_s, [])) as [? [? ?]]. reflexivity.
  - discriminate.
  - intros [H|H]; discriminate.
Defined.

Lemma occ_no_lost_update_witness :
  let sd1 := snd (demo_batch [demo_set (bs "a") 77] [(bs "t", bs "a", 1)] (demo_s, [])) in
  let sd2 := snd (demo_batch [demo_set (bs "b") 78] [] sd1) in
  exists m s3, demo_batch [demo_set (bs "a") 79] [(bs "t", bs "a", 1)] sd2 = (Err (TxnConflict m), (s3, sd2.2)).
Proof.
  cbn zeta. set (r1 := demo_batch [demo_set (bs "a") 77] _ _). set (r2 := demo_batch [demo_set (bs "b") 78] _ _).
  assert (H1 : exists l1, r1 = (Ok l1, (snd r1))) by (eexists; vm_compute; reflexivity).
  assert (H2 : exists l2, r2 = (Ok l2, (snd r2))) by (eexists; vm_compute; reflexivity).
  destruct H1 as [l1 H1], H2 as [l2 H2].
  destruct (occ_no_lost_update 1000 (bs "t") (bs "a") demo_s [] (snd r1).1 (snd r2) demo_now
    [demo_set (bs "a") 77] [(bs "t", bs "a", 1)] l1 (snd r1).2 demo_now
    [demo_set (bs "a") 79] [(bs "t", bs "a", 1)]) as (m & s3 & E & _).
  - by vm_compute.
  - by vm_compute.
  - intros d ->%list_elem_of_singleton _. by vm_compute.
  - exists (demo_set (bs "a") 77). split; [apply list_elem_of_here|]. split; [by split|by vm_compute].
  - rewrite <- surjective_pairing. exact H1.
  - rewrite <- surjective_pairing. apply rtc_once. apply (commits_batch _ _ _ demo_now [demo_set (bs "b") 78] [] l2).
    + intros d ->%list_elem_of_singleton _. by vm_compute.
    + exact H2.
  - assert (Hv : row_version_in demo_s (bs "t") (bs "a") = 1) by by vm_compute.
    rewrite Hv. apply list_elem_of_here.
  - exists (demo_set (bs "a") 79). split; [apply list_elem_of_here|]. split; [by split|by vm_compute].
  - exists m, s3. exact E.
Defined.
