(* ===== verification/TableReads.v ===== *)
(** * Reads after writes in the table engine

    What a write stores is what a read decodes, blobs included, the counters of a sequence of
    batches add up, and rows are read back through the routed store operations. *)

From S2P Require Import Prelude Util Json JsonCodec Errors Table TableIndex TableBatch.

Section Reads.
Context `{SerdeLaws}.
Variable max_blob : Z.
Implicit Types (s : Store) (d : RowDelta) (n k : Bytes).

(** ** What no operation of a batch changes *)

Definition frame (sd sd' : SD) : Prop :=
  shard_id sd'.1 = shard_id sd.1 /\ shard_count sd'.1 = shard_count sd.1 /\
  (lru sd.1 = None -> lru sd'.1 = None) /\ (ids_ok sd.1 -> ids_ok sd'.1) /\
  exists x, sd'.2 = sd.2 ++ x.

Lemma frame_refl sd : frame sd sd.
Proof. split_and!; auto. exists []. by rewrite app_nil_r. Qed.

Lemma frame_trans sd1 sd2 sd3 : frame sd1 sd2 -> frame sd2 sd3 -> frame sd1 sd3.
Proof.
  intros (? & ? & ? & ? & x & Hx) (? & ? & ? & ? & y & Hy). split_and!; try congruence; auto.
  exists (x ++ y). by rewrite Hy, Hx, app_assoc.
Qed.

Lemma frame_env s s' file : same_env s s' -> next_row_id s' = next_row_id s -> frame (s, file) (s', file).
Proof.
  intros (? & ? & ? & Hl) Hn. split_and!; cbn; [done|done|congruence| |].
  - unfold ids_ok. by rewrite Hn.
  - exists []. by rewrite app_nil_r.
Qed.

Lemma take_inventory_file v s file r s' file' :
  take_inventory max_blob v (s, file) = (r, (s', file')) -> exists x, file' = file ++ x.
Proof.
  unfold take_inventory, store_blob. repeat case_match; intros; simplify_eq;
    first [by eexists|by exists []; rewrite app_nil_r].
Qed.

Lemma write_row_frame name key v s file r s' file' :
  write_row_unlocked max_blob name key v (s, file) = (r, (s', file')) -> frame (s, file) (s', file').
Proof.
  intros Hw. pose proof (write_row_spec _ _ _ _ _ _ _ _ _ Hw) as [(? & ? & ? & Hl) _].
  split_and!; cbn; [done|done|congruence|by intros; eapply write_row_ids|].
  unfold write_row_unlocked, prepare_value in Hw.
  destruct (rows (table_of _ name) !! key) as [ex|] in Hw; cbn [alloc_row_id] in Hw;
    destruct (take_inventory _ _ _) as [[[v1 off]|e] [s2 f2]] eqn:Et;
    apply take_inventory_file in Et; [destruct (encode_row _)| |destruct (encode_row _)|];
    by simplify_eq.
Qed.

Lemma delete_row_frame name key s file r s' file' :
  delete_row_unlocked name key (s, file) = (r, (s', file')) -> frame (s, file) (s', file').
Proof.
  intros Hw. pose proof (delete_row_spec _ _ _ _ _ _ _ Hw) as (He & -> & Hn & _). by apply frame_env.
Qed.

Lemma counter_delta_frame d s file r s' file' :
  counter_delta d (s, file) = (r, (s', file')) -> frame (s, file) (s', file').
Proof.
  unfold counter_delta, alloc_row_id.
  destruct (get_counter_in _ _ _ _) as [[c|]|]; intros E; simplify_eq; try apply frame_refl.
  split_and!; cbn; [done..| |by exists []; rewrite app_nil_r]. apply (alloc_ids s).
Qed.

Lemma apply_one_frame d s file e u s' file' :
  apply_one max_blob d (s, file) = (e, u, (s', file')) -> frame (s, file) (s', file').
Proof.
  unfold apply_one. destruct (beq _ _ || beq _ _).
  - destruct (row_data_value d); [|intros; simplify_eq; apply frame_refl].
    destruct (write_row_unlocked _ _ _ _ _) as [? [s1 f1]] eqn:E. intros. simplify_eq.
    by eapply write_row_frame.
  - destruct (beq (operation d) (bs "delete")).
    + destruct (delete_row_unlocked _ _ _) as [? [s1 f1]] eqn:E. intros. simplify_eq.
      by eapply delete_row_frame.
    + destruct (beq _ _); [|intros; simplify_eq; apply frame_refl].
      destruct (counter_delta d (s, file)) as [r1 [s1 f1]] eqn:Ec. apply counter_delta_frame in Ec.
      destruct r1; [|intros; by simplify_eq].
      destruct (write_row_unlocked _ _ _ _ _) as [? [s2 f2]] eqn:E. intros. simplify_eq.
      eapply frame_trans; [exact Ec|by eapply write_row_frame].
Qed.

Lemma frame_restore s u file : frame (s, file) (restore s u, file).
Proof.
  destruct u as [[n k] old]. unfold restore. destruct (tables s !! n); [|apply frame_refl].
  apply frame_env; [by repeat split|done].
Qed.

Lemma frame_rollback l s file : frame (s, file) (rollback s l, file).
Proof.
  unfold rollback. revert s. induction (rev l) as [|u l' IH]; intros s; [apply frame_refl|]. cbn.
  eapply frame_trans; [apply frame_restore|apply IH].
Qed.

Lemma frame_track now d s file : frame (s, file) (track now d s, file).
Proof.
  destruct (track_env now d s). unfold frame. cbn. split_and!; [done..| | |].
  - intros Hl. unfold track. by rewrite Hl.
  - unfold track, ids_ok. by repeat case_match.
  - exists []. by rewrite app_nil_r.
Qed.

Lemma apply_loop_frame now ds : forall applied committed s file r s' file',
  apply_loop max_blob now ds applied committed (s, file) = (r, (s', file')) ->
  frame (s, file) (s', file').
Proof.
  revert now. induction ds as [|d ds IH]; intros now applied committed s file r s' file';
    cbn [apply_loop]; [intros; simplify_eq; apply frame_refl|]. destruct (negb _); [by apply IH|].
  destruct (apply_one max_blob d (s, file)) as [[e u] [s1 f1]] eqn:E. apply apply_one_frame in E.
  destruct e as [x|[c|x]]; [by intros; simplify_eq| |].
  - intros Hl%IH. eapply frame_trans; [exact E|]. eapply frame_trans; [apply frame_track|exact Hl].
  - intros. simplify_eq. eapply frame_trans; [exact E|apply frame_rollback].
Qed.

Lemma create_tables_frame (l : list (Bytes * Bytes)) s file :
  frame (s, file) (foldl (fun s tk => get_or_create_table tk.1 s) s l, file).
Proof.
  apply frame_env; [apply create_tables_env|]. revert s.
  induction l as [|tk l IH]; intros s; [done|]. cbn. by rewrite IH, get_or_create_ids.
Qed.

Lemma batch_frame now ds rv s file r s' file' :
  lru s = None -> batch_inner max_blob now ds rv (s, file) = (r, (s', file')) ->
  frame (s, file) (s', file').
Proof.
  intros Hl. unfold batch_inner. destruct ds as [|d ds]; [intros; simplify_eq; apply frame_refl|].
  set (s1 := foldl _ s _). assert (Hf : frame (s, file) (s1, file)) by apply create_tables_frame.
  destruct (occ_check s1 _ rv); [|by intros; simplify_eq].
  destruct (apply_loop _ _ _ _ _ _) as [[c|x] [s2 f2]] eqn:E;
    apply apply_loop_frame in E; intros; simplify_eq; [|by eapply frame_trans].
  rewrite evict_none; [by eapply frame_trans|]. apply E, Hf, Hl.
Qed.

(** ** Reading what was written *)

Lemma load_blob_app file x o b : load_blob file o = Ok b -> load_blob (file ++ x) o = Ok b.
Proof.
  unfold load_blob. set (i := Z.to_nat o). intros Hb.
  destruct (zlen (drop i file) <? 8) eqn:E; [done|]. zbool.
  assert (Hi : (i <= length file)%nat).
  { destruct (decide (i <= length file)%nat); [done|].
    rewrite drop_ge in E by lia. cbn in E. lia. }
  rewrite drop_app_le by done. set (r := drop i file) in *.
  rewrite zlt_false by (rewrite length_app; lia). rewrite take_app_le, drop_app_le by lia.
  destruct (zlen (drop 8 r) <? le_val (take 8 r)) eqn:E2; [done|]. zbool.
  rewrite zlt_false by (rewrite length_app; lia). rewrite take_app_le by lia. done.
Qed.

Lemma full_value_app file x r v : full_value file r = Ok v -> full_value (file ++ x) r = Ok v.
Proof.
  unfold full_value. destruct (decode_row_bytes (data r)) as [w|]; [|done]. cbn.
  destruct (blob_offset r) as [o|]; [|done]. unfold load_blob_into_value.
  destruct (load_blob file o) as [b|] eqn:E; [|done]. by rewrite (load_blob_app _ x _ _ E).
Qed.

(** A read answers the same as long as the row stays, whatever else is appended. *)
Lemma get_row_frame s file s' file' n k o :
  frame (s, file) (s', file') -> row_at s' n k = row_at s n k ->
  get_row_in s file n k = Ok o -> get_row_in s' file' n k = Ok o.
Proof.
  intros (Hi & Hc & _ & _ & x & Hx) Hr. cbn in *. subst file'. unfold get_row_in, get_row_with_version_in.
  case_bool_decide; [done|]. fold (row_at s n k) (row_at s' n k). rewrite Hr.
  destruct (row_at s n k) as [r|]; [|done]. unfold row_matches_shard. rewrite Hi, Hc.
  destruct (negb _); [done|]. destruct (full_value file r) as [v|] eqn:E; [|done].
  by rewrite (full_value_app _ x _ _ E).
Qed.

(** A row as it is read right after it is written. *)
Lemma get_written s s' name key final id bytes off f :
  parse_lobby_key name = None -> same_env s s' ->
  tables s' = write_effect s name key final (written_row s name key id bytes off) ->
  get_row_in s' f name key = v ← full_value f (written_row s name key id bytes off); Ok (Some v).
Proof.
  intros Hn (Hid & _) Hts. unfold get_row_in, get_row_with_version_in.
  rewrite bool_decide_eq_false_2 by (rewrite Hn; by intros [? ?]).
  rewrite Hts. unfold write_effect. rewrite lookup_insert_eq. cbn [mbind option_bind rows reindex set_rows].
  rewrite lookup_insert_eq. cbn [written_row row_shard].
  unfold row_matches_shard. rewrite Hid, Z.eqb_refl, orb_true_r. cbn [negb].
  by destruct (full_value _ _).
Qed.

(** A row written without an inventory. *)
Lemma write_row_read name key v s file d s' file' :
  0 <= shard_id s < 2 ^ 32 ->
  parse_lobby_key name = None -> storable v = true -> get_field v (bs "inventory") = None ->
  write_row_unlocked max_blob name key v (s, file) = (Ok d, (s', file')) ->
  get_row_in s' file' name key = Ok (Some (stamp (shard_id s) name key v)).
Proof.
  intros Hsh Hn Hv Hf Hw. pose proof (write_row_spec _ _ _ _ _ _ _ _ _ Hw)
    as [Henv (v1 & off & id & bytes & s1 & Ht & _ & _ & He & Hts & _)].
  unfold take_inventory in Ht. rewrite Hf in Ht. injection Ht as <- <- _ _.
  rewrite (get_written _ _ _ _ _ _ _ _ _ Hn Henv Hts). unfold full_value. cbn [written_row data blob_offset].
  by rewrite (encode_decode _ _ (stamp_storable _ _ _ _ Hsh Hv) He).
Qed.

(** ** Counters *)

Lemma counter_of_set_field k x v :
  Forall (fun f => beq f k = false) [bs "id"; bs "name"; bs "value"; bs "last_modified"] ->
  counter_of_value (set_field k x v) = counter_of_value v.
Proof.
  intros Hk. destruct v as [| | | | |m]; try done. cbn [set_field counter_of_value]. rewrite !Forall_cons in Hk.
  destruct Hk as (H1 & H2 & H3 & H4 & _). by rewrite !map_get_insert, H1, H2, H3, H4.
Qed.

Lemma counter_of_fields (i l n x : Value) :
  counter_of_value (Object [(bs "id", i); (bs "last_modified", l); (bs "name", n); (bs "value", x)])
  = counter_of i n x l.
Proof. reflexivity. Qed.

Lemma int_of_value lo hi z : lo <= z <= hi -> int_of lo hi (int_value z) = Some z.
Proof.
  intros Hz. unfold int_value, int_of. by destruct (0 <=? z); rewrite !zle_true by lia.
Qed.

Lemma counter_round shard n k c :
  0 <= c_id c < 2 ^ 32 -> - 2 ^ 31 <= c_value c < 2 ^ 31 -> is_i64 (c_last_modified c) ->
  counter_of_value (stamp shard n k (counter_to_value c)) = Some c.
Proof.
  intros Hi Hv Hl.
  assert (Hc : counter_of_value (counter_to_value c) = Some c).
  { unfold counter_to_value. rewrite counter_of_fields. unfold counter_of.
    rewrite !int_of_value by (unfold is_i64, I64_MIN, I64_MAX in *; lia). by destruct c. }
  unfold stamp. rewrite counter_of_set_field by by repeat constructor.
  destruct (beq n (bs "players")); [|done]. by rewrite counter_of_set_field by by repeat constructor.
Qed.

(** The value of a counter, 0 while there is none. *)
Definition counter_now (sd : SD) n k : result VoltraError Z :=
  o ← get_counter_in sd.1 sd.2 n k; Ok (match o with Some c => c_value c | None => 0 end).

Lemma get_counter_range s file n k c : get_counter_in s file n k = Ok (Some c) ->
  0 <= c_id c < 2 ^ 32 /\ - 2 ^ 31 <= c_value c < 2 ^ 31 /\ is_i64 (c_last_modified c).
Proof.
  unfold get_counter_in. destruct (get_row_in _ _ _ _) as [[v|]|]; cbn; [|done|done].
  destruct (counter_of_value v) as [c0|] eqn:E; cbn; [|done]. intros. simplify_eq.
  by apply (counter_of_value_range v).
Qed.

Lemma counter_now_range sd n k x : counter_now sd n k = Ok x -> - 2 ^ 31 <= x < 2 ^ 31.
Proof.
  unfold counter_now. destruct (get_counter_in _ _ _ _) as [[c|]|] eqn:E; cbn; intros; simplify_eq; [|lia].
  apply get_counter_range in E. lia.
Qed.

Lemma counter_now_frame sd sd' n k x :
  frame sd sd' -> row_at sd'.1 n k = row_at sd.1 n k -> counter_now sd n k = Ok x ->
  counter_now sd' n k = Ok x.
Proof.
  destruct sd as [s file], sd' as [s' file']. intros Hf Hr. unfold counter_now, get_counter_in. cbn.
  destruct (get_row_in s file n k) as [o|] eqn:E; [|done].
  by rewrite (get_row_frame _ _ _ _ _ _ _ Hf Hr E).
Qed.

Lemma wrap_i32_range z : - 2 ^ 31 <= wrap_i32 z < 2 ^ 31.
Proof. unfold wrap_i32. pose proof (Z.mod_pos_bound (z + 2 ^ 31) (2 ^ 32) ltac:(lia)). lia. Qed.

Lemma wrap_i32_id z : - 2 ^ 31 <= z < 2 ^ 31 -> wrap_i32 z = z.
Proof. intros Hz. unfold wrap_i32. rewrite Z.mod_small by lia. lia. Qed.

Lemma wrap_i32_add a b : wrap_i32 (wrap_i32 a + b) = wrap_i32 (a + b).
Proof.
  unfold wrap_i32. replace ((a + 2 ^ 31) mod 2 ^ 32 - 2 ^ 31 + b + 2 ^ 31)
    with ((a + 2 ^ 31) mod 2 ^ 32 + b) by lia. rewrite Zplus_mod_idemp_l. do 2 f_equal. lia.
Qed.

(** The delta adds to this counter in this store. *)
Definition adds s n k d : bool :=
  beq (table_name d) n && beq (row_key d) k && row_matches_shard s (d_shard_id d).

Definition added s n k (ds : list RowDelta) : Z :=
  foldr Z.add 0 (map counter_add_amount (List.filter (adds s n k) ds)).

(** Nothing but additions is done to the counter. *)
Definition only_adds n k d : Prop :=
  (names d n k -> operation d = bs "counter_add") /\ is_i64 (counter_add_timestamp d).

Definition fit (sd : SD) : Prop := ids_ok sd.1 /\ 0 <= shard_id sd.1 < 2 ^ 32.

Lemma frame_fit sd sd' : frame sd sd' -> fit sd -> fit sd'.
Proof. intros (Hi & _ & _ & Hid & _) [? ?]. split; [auto|by rewrite Hi]. Qed.

Lemma apply_one_counter d sd : operation d = bs "counter_add" ->
  apply_one max_blob d sd =
  match counter_delta d sd with
  | (Err e, sd) => (Return e, [], sd)
  | (Ok value, sd) =>
      let u := undo_of sd.1 (table_name d) (row_key d) in
      let '(r, sd) := write_row_unlocked max_blob (table_name d) (row_key d) value sd in
      (Result r, [u], sd)
  end.
Proof. intros Hop. unfold apply_one. by rewrite Hop. Qed.

Lemma counter_add_step d s file c u s' file' n k x :
  fit (s, file) -> parse_lobby_key n = None -> only_adds n k d ->
  counter_now (s, file) n k = Ok x ->
  apply_one max_blob d (s, file) = (Result (Ok c), u, (s', file')) ->
  counter_now (s', file') n k
    = Ok (if bool_decide (names d n k) then wrap_i32 (x + counter_add_amount d) else x).
Proof.
  intros [Hid Hsh] Hn [Hop Hts] Hx E. pose proof (apply_one_frame _ _ _ _ _ _ _ E) as Hf.
  case_bool_decide as Hk.
  2: { pose proof (apply_one_rows _ _ _ _ _ _ _ _ n k E Hk) as [Hr _].
       exact (counter_now_frame _ _ _ _ _ Hf Hr Hx). }
  destruct Hk as [<- <-]. rewrite apply_one_counter in E by by apply Hop.
  destruct (counter_delta d (s, file)) as [[v|e] [s1 f1]] eqn:Ec; [|done].
  destruct (write_row_unlocked _ _ _ _ _) as [r [s2 f2]] eqn:Ew. injection E as -> _ -> ->.
  unfold counter_now in Hx. cbn in Hx. unfold counter_delta, alloc_row_id in Ec.
  destruct (get_counter_in s file (table_name d) (row_key d)) as [o|] eqn:Eg; [|done]. cbn in Hx. simplify_eq.
  set (x := match o with Some c => c_value c | None => 0 end) in *.
  assert (Hcv : exists c0, v = counter_to_value c0 /\ c_value c0 = wrap_i32 (x + counter_add_amount d) /\
    0 <= c_id c0 < 2 ^ 32 /\ is_i64 (c_last_modified c0) /\ shard_id s1 = shard_id s).
  { destruct o as [c0|]; injection Ec as <- <- _; eexists; split_and!; try reflexivity; cbn; try apply Hts; try apply Hid.
    - apply (get_counter_range _ _ _ _ _ Eg).
    - apply (get_counter_range _ _ _ _ _ Eg). }
  destruct Hcv as (c0 & -> & Hval & Hcid & Hlm & Hs1).
  assert (Hst : storable (counter_to_value c0) = true).
  { apply counter_value_storable; [done| |done]. pose proof (wrap_i32_range (x + counter_add_amount d)).
    unfold is_i64, I64_MIN, I64_MAX. lia. }
  apply write_row_read in Ew; [|by rewrite Hs1|done|done|by vm_compute].
  unfold counter_now, get_counter_in. cbn [fst snd]. rewrite Ew. cbn [mbind result_bind].
  rewrite counter_round; [|done| |done]; [cbn; by rewrite Hval|]. rewrite Hval. apply wrap_i32_range.
Qed.

Lemma added_cons s n k d ds :
  added s n k (d :: ds) = (if adds s n k d then counter_add_amount d else 0) + added s n k ds.
Proof. unfold added. cbn [List.filter]. by destruct (adds s n k d). Qed.

Lemma adds_names s n k d : row_matches_shard s (d_shard_id d) = true ->
  adds s n k d = bool_decide (names d n k).
Proof.
  intros Hs. unfold adds. rewrite Hs, andb_true_r. case_bool_decide as Hk.
  - destruct Hk as [-> ->]. by rewrite !beq_refl.
  - apply not_true_is_false. rewrite andb_true_iff. intros [H1%beq_true H2%beq_true]. by apply Hk.
Qed.

Lemma added_frame s file s' file' n k ds : frame (s, file) (s', file') -> added s' n k ds = added s n k ds.
Proof.
  intros (Hi & Hc & _). cbn in *. unfold added. do 2 f_equal.
  induction ds as [|d ds IH]; [done|]. cbn [List.filter]. rewrite IH.
  replace (adds s' n k d) with (adds s n k d); [done|].
  unfold adds, row_matches_shard. by rewrite Hi, Hc.
Qed.

Lemma apply_loop_counts n k now ds : forall applied committed s file l s' file' x,
  fit (s, file) -> parse_lobby_key n = None -> Forall (only_adds n k) ds ->
  counter_now (s, file) n k = Ok x ->
  apply_loop max_blob now ds applied committed (s, file) = (Ok l, (s', file')) ->
  counter_now (s', file') n k = Ok (wrap_i32 (x + added s n k ds)).
Proof.
  revert now. induction ds as [|d ds IH]; intros now applied committed s file l s' file' x Hfit Hn Hd Hx;
    cbn [apply_loop fst].
  { intros. simplify_eq. rewrite Hx. change (added s' n k []) with 0.
    by rewrite Z.add_0_r, wrap_i32_id by by eapply counter_now_range. }
  apply Forall_cons in Hd as [Hd1 Hd]. rewrite added_cons.
  destruct (row_matches_shard s (d_shard_id d)) eqn:Esh; cbn [negb].
  - destruct (apply_one max_blob d (s, file)) as [[[e|[c|e]] u] [s1 f1]] eqn:E; [done| |done].
    pose proof (apply_one_frame _ _ _ _ _ _ _ E) as Hf1.
    pose proof (counter_add_step _ _ _ _ _ _ _ _ _ _ Hfit Hn Hd1 Hx E) as Hx1.
    pose proof (frame_track (now 0%nat) c s1 f1) as Hf2.
    assert (Hr : row_at (track (now 0%nat) c s1) n k = row_at s1 n k).
    { unfold row_at. by rewrite track_tables. }
    pose proof (counter_now_frame _ _ _ _ _ Hf2 Hr Hx1) as Hx2.
    pose proof (frame_trans _ _ _ Hf1 Hf2) as Hf. intros Hloop.
    apply (IH _ _ _ _ _ _ _ _ _ (frame_fit _ _ Hf Hfit) Hn Hd Hx2) in Hloop.
    rewrite Hloop, (added_frame _ _ _ _ _ _ _ Hf), (adds_names _ _ _ _ Esh). f_equal.
    case_bool_decide; [rewrite wrap_i32_add|]; f_equal; lia.
  - intros Hloop. unfold adds. rewrite Esh, andb_false_r, Z.add_0_l. by eapply IH.
Qed.

Lemma batch_counts n k now ds rv s file l s' file' x :
  fit (s, file) -> lru s = None -> parse_lobby_key n = None -> Forall (only_adds n k) ds ->
  counter_now (s, file) n k = Ok x ->
  batch_inner max_blob now ds rv (s, file) = (Ok l, (s', file')) ->
  counter_now (s', file') n k = Ok (wrap_i32 (x + added s n k ds)).
Proof.
  intros Hfit Hl Hn Hd Hx. unfold batch_inner. destruct ds as [|d ds].
  { intros. simplify_eq. rewrite Hx. change (added s' n k []) with 0.
    by rewrite Z.add_0_r, wrap_i32_id by by eapply counter_now_range. }
  set (s1 := foldl _ s _). assert (Hf : frame (s, file) (s1, file)) by apply create_tables_frame.
  assert (Hr : row_at s1 n k = row_at s n k) by apply create_tables_rows.
  destruct (occ_check s1 _ rv); [|done].
  destruct (apply_loop _ _ _ _ _ _) as [[c|e] [s2 f2]] eqn:E; [|done].
  pose proof (apply_loop_frame _ _ _ _ _ _ _ _ _ E) as (_ & _ & Hl2 & _).
  assert (Hl1 : lru s1 = None) by by apply Hf.
  apply (apply_loop_counts n k _ _ _ _ _ _ _ _ _ x (frame_fit _ _ Hf Hfit) Hn Hd
    (counter_now_frame _ _ _ _ _ Hf Hr Hx)) in E.
  intros Hres. injection Hres as _ <- <-. rewrite evict_none by by apply Hl2.
  by rewrite E, (added_frame _ _ _ _ _ _ _ Hf).
Qed.

(** Batches that commit and batches that are refused and rolled back, with what the
    committed ones add. *)
Inductive tally n k : SD -> Z -> SD -> Prop :=
| tally_done sd : tally n k sd 0 sd
| tally_commits now ds rv l sd sd1 t sd2 :
    Forall (only_adds n k) ds -> batch_inner max_blob now ds rv sd = (Ok l, sd1) ->
    tally n k sd1 t sd2 -> tally n k sd (added sd.1 n k ds + t) sd2
| tally_refused now ds rv e sd sd1 t sd2 :
    e <> missing_row_data -> ~ unreadable e -> batch_inner max_blob now ds rv sd = (Err e, sd1) ->
    tally n k sd1 t sd2 -> tally n k sd t sd2.

(** C36: counters add up: whatever batches run on the root store, one after the other as the row
    locks let them in, that only add to the counter, with nothing evicted, it ends at its value
    before plus the sum of the amounts of every batch that committed, wrapped to 32 bits: no
    increment is lost, none is counted twice, and a refused batch adds nothing. Batches refused
    for a write without its data, or because a row cannot be read or encoded, are left out: they
    are not rolled back. *)
Theorem counters_add_up n k sd t sd' x :
  0 <= next_row_id sd.1 < 2 ^ 32 -> 0 <= shard_id sd.1 < 2 ^ 32 ->
  lru sd.1 = None -> parse_lobby_key n = None ->
  tally n k sd t sd' -> counter_now sd n k = Ok x ->
  counter_now sd' n k = Ok (wrap_i32 (x + t)).
Proof.
  intros Hi Hs Hl Hn Ht. assert (Hfit : fit sd) by by split. clear Hi Hs. revert x.
  induction Ht as [sd|now ds rv l [s file] [s1 f1] t sd2 Hd Hb _ IH
                  |now ds rv e [s file] [s1 f1] t sd2 He Hu Hb _ IH]; intros x Hx.
  - rewrite Z.add_0_r, wrap_i32_id by by eapply counter_now_range. exact Hx.
  - pose proof (batch_frame _ _ _ _ _ _ _ _ Hl Hb) as Hf.
    rewrite (IH ltac:(by apply Hf) ltac:(by eapply frame_fit) (wrap_i32 (x + added s n k ds))).
    + f_equal. rewrite wrap_i32_add. f_equal. cbn. lia.
    + by eapply batch_counts.
  - pose proof (batch_frame _ _ _ _ _ _ _ _ Hl Hb) as Hf.
    rewrite (IH ltac:(by apply Hf) ltac:(by eapply frame_fit) x); [done|].
    eapply counter_now_frame; [exact Hf| |exact Hx]. by eapply batch_rows_kept.
Qed.

(** ** Set, then get *)

Lemma le_val_bytes j : forall z, 0 <= z < 256 ^ Z.of_nat j -> le_val (le_bytes j z) = z.
Proof.
  induction j as [|j IH]; intros z Hz; [cbn in *; lia|]. cbn [le_bytes le_val].
  rewrite Nat2Z.inj_succ, Z.pow_succ_r in Hz by lia. rewrite IH.
  - pose proof (Z_div_mod_eq_full z 256). lia.
  - split; [apply Z.div_pos; lia|]. apply Z.div_lt_upper_bound; lia.
Qed.

Lemma le_bytes_length j z : length (le_bytes j z) = j.
Proof. revert z. induction j; intros; cbn; auto. Qed.

Lemma load_stored file b : zlen b < U64 -> load_blob (file ++ le_bytes 8 (zlen b) ++ b) (zlen file) = Ok b.
Proof.
  intros Hb. unfold load_blob. rewrite Nat2Z.id, drop_app_length.
  rewrite zlt_false by (rewrite length_app, le_bytes_length; lia).
  rewrite (take_app_length' (le_bytes 8 (zlen b))), (drop_app_length' (le_bytes 8 (zlen b)))
    by by rewrite le_bytes_length.
  rewrite le_val_bytes by (unfold U64 in Hb; cbn; lia).
  rewrite zlt_false, Nat2Z.id, firstn_all by lia. done.
Qed.

(** Stamping and taking the inventory out touch different fields. *)
Lemma stamp_inventory shard n k v x : storable v = true -> get_field v (bs "inventory") = Some x ->
  set_field (bs "inventory") x (stamp shard n k (set_field (bs "inventory") Null v)) = stamp shard n k v.
Proof.
  intros Hv Hx. destruct v as [| | | | |m]; try done. cbn [get_field] in Hx.
  assert (Hm : ascending (map fst m) = true).
  { unfold storable in Hv. destruct DEPTH_S as [d Ed]. rewrite Ed in Hv. cbn in Hv. by apply andb_true_iff in Hv as [? _]. }
  unfold stamp. destruct (beq n (bs "players")); cbn [set_field]; f_equal;
    (apply map_get_ext; [by repeat apply map_insert_ascending..|]); intros j; rewrite !map_get_insert;
    destruct (beq j (bs "inventory")) eqn:Ej; try done;
    apply beq_true in Ej as ->; cbn; by rewrite ?Hx.
Qed.

(** The store and the name a table name is routed to. *)
Definition routed (ts : TableStore) (name : Bytes) : option (Store * Bytes) :=
  match parse_lobby_key name with
  | None => Some (root ts, name)
  | Some (lid, logical) =>
      if bool_decide (is_Some (parse_lobby_key logical)) then None
      else Some (lobby_store ts lid, logical)
  end.

(** What a write of this value can be read back from: the blobs are appended where the store
    thinks, and the inventory survives JSON. *)
Definition writable s (file : Bytes) (v : Value) : Prop :=
  0 <= shard_id s < 2 ^ 32 /\ next_offset s = zlen file /\ storable v = true /\
  forall inv, get_field v (bs "inventory") = Some inv -> float_free inv = true.

Lemma take_inventory_read s file v s' file' v1 off shard n k :
  max_blob < U64 -> writable s file v ->
  take_inventory max_blob v (s, file) = (Ok (v1, off), (s', file')) ->
  storable v1 = true /\
  match off with
  | Some o => load_blob_into_value file' (stamp shard n k v1) o
  | None => Ok (stamp shard n k v1)
  end = Ok (stamp shard n k v).
Proof.
  intros Hmax (_ & Ho & Hv & Hfl). unfold take_inventory.
  destruct (get_field v (bs "inventory")) as [inv|] eqn:Einv; [|by intros; simplify_eq].
  destruct (should_store_blob v); [|by intros; simplify_eq].
  unfold store_blob. destruct (max_blob <? _) eqn:E; [done|]. intros. simplify_eq. zbool.
  split; [by apply storable_set_field; [done|intros []]|].
  unfold load_blob_into_value. rewrite Ho, load_stored by lia. cbn [mbind result_bind].
  rewrite json_round; [|by eapply storable_field|by apply Hfl]. cbn [ok_or mbind result_bind].
  by rewrite stamp_inventory.
Qed.

Lemma write_then_read name key v s file d s' file' :
  max_blob < U64 -> parse_lobby_key name = None -> writable s file v ->
  write_row_unlocked max_blob name key v (s, file) = (Ok d, (s', file')) ->
  get_row_in s' file' name key = Ok (Some (stamp (shard_id s) name key v)).
Proof.
  intros Hmax Hn Hv Hw. pose proof (write_row_spec _ _ _ _ _ _ _ _ _ Hw)
    as [Henv (v1 & off & id & bytes & s1 & Ht & _ & Hno & He & Hts & _)].
  assert (Hv1 : writable s1 file v).
  { destruct Hv as (? & ? & ? & ?). split; [|split_and!; [congruence|done..]].
    apply take_inventory_frame in Ht as (_ & (Hs & _) & _). cbn in Hs. by rewrite <- Hs, (proj1 Henv). }
  destruct (take_inventory_read _ _ _ _ _ _ _ (shard_id s) name key Hmax Hv1 Ht) as [Hst Hread].
  rewrite (get_written _ _ _ _ _ _ _ _ _ Hn Henv Hts). unfold full_value. cbn [written_row data blob_offset].
  rewrite (encode_decode _ _ (stamp_storable _ _ _ _ (proj1 Hv) Hst) He). cbn [mbind result_bind].
  by rewrite Hread.
Qed.

(** What is set is what is got: after a row is written, through the root store or a
    lobby's, reading it gives the value that was written with the key (and for players the
    shard) stamped in, an inventory moved to the blob file included. *)
Theorem set_get name key v ts d ts' s n :
  max_blob < U64 -> routed ts name = Some (s, n) -> writable s (blob_file ts) v ->
  set_row max_blob name key v ts = (Ok d, ts') ->
  fst (get_row name key ts') = Ok (Some (stamp (shard_id s) n key v)).
Proof.
  intros Hmax Hroute Hv. unfold set_row, get_row, route, routed in *.
  destruct (parse_lobby_key name) as [[lid logical]|] eqn:En.
  - case_bool_decide as Hb; [done|]. injection Hroute as <- <-. unfold on_lobby.
    destruct (write_row_unlocked _ _ _ _ _) as [r [s1 f1]] eqn:Ew. intros. simplify_eq.
    apply write_then_read in Ew; [|done| |done].
    + unfold on_lobby, reads. cbn. unfold lobby_store at 1 2. cbn. by rewrite lookup_insert_eq.
    + destruct (parse_lobby_key logical); [|done]. by destruct Hb.
  - injection Hroute as <- <-. unfold on_root.
    destruct (write_row_unlocked _ _ _ _ _) as [r [s1 f1]] eqn:Ew. intros. simplify_eq.
    by apply write_then_read in Ew.
Qed.
End Reads.

(** ** Witnesses *)

#[local] Existing Instances demo_serde demo_laws.

Definition demo_add (amount : Z) : RowDelta := demo_delta (bs "counter_add") (bs "hits") None amount.

Lemma counters_add_up_witness :
  let sd0 := (demo_s, []) in
  let sd1 := snd (demo_batch [demo_add 5; demo_set (bs "a") 1; demo_add (2 ^ 31 - 1)] [] sd0) in
  counter_now sd1 (bs "t") (bs "hits") = Ok (- 2 ^ 31 + 4).
Proof.
  cbn zeta. set (ds := [_; _; _]). set (r := demo_batch ds _ _).
  assert (Hr : exists l, r = (Ok l, snd r)) by (eexists; vm_compute; reflexivity). destruct Hr as [l Hr].
  rewrite (counters_add_up 1000 (bs "t") (bs "hits") (demo_s, []) (added demo_s (bs "t") (bs "hits") ds + 0)
    (snd r) 0).
  - by vm_compute.
  - split; [apply Z.leb_le|apply Z.ltb_lt]; by vm_compute.
  - split; [apply Z.leb_le|apply Z.ltb_lt]; by vm_compute.
  - by vm_compute.
  - by vm_compute.
  - eapply (tally_commits 1000 _ _ demo_now ds [] l (demo_s, [])); [|exact Hr|apply tally_done].
    assert (Ht : is_i64 5) by (unfold is_i64, I64_MIN, I64_MAX; lia).
    apply Forall_cons_2; [split; [intros _; reflexivity|exact Ht]|].
    apply Forall_cons_2; [split; [intros [_ Hk]; discriminate Hk|exact Ht]|].
    apply Forall_cons_2; [split; [intros _; reflexivity|exact Ht]|apply Forall_nil_2].
  - by vm_compute.
Defined.

Definition demo_player : Value :=
  Object [(bs "inventory", Array [Str (bs "sword"); Num (PosInt 3)]); (bs "level", Num (PosInt 7))].

Lemma set_get_witness :
  fst (get_row (bs "l42_players") (bs "p1") (snd (set_row 1000 (bs "l42_players") (bs "p1") demo_player demo_t3)))
  = Ok (Some (Object [(bs "inventory", Array [Str (bs "sword"); Num (PosInt 3)]); (bs "level", Num (PosInt 7));
                      (bs "row_key", Str (bs "p1")); (bs "shard_id", Num (PosInt 0))])).
Proof.
  set (r := set_row 1000 _ _ _ _). assert (Hr : exists d, r = (Ok d, snd r)) by (eexists; vm_compute; reflexivity).
  destruct Hr as [d Hr].
  rewrite (set_get 1000 (bs "l42_players") (bs "p1") demo_player demo_t3 d (snd r)
    (lobby_store demo_t3 (bs "42")) (bs "players")).
  - by vm_compute.
  - done.
  - by vm_compute.
  - split_and!; [done|done|done|by vm_compute|]. by intros inv [= <-].
  - exact Hr.
Defined.

(** ** Rows of the whole store, read through the routing

    What a reader of [TableStore] sees of a row, whatever store it is routed to: reads change
    nothing anybody sees, a delete hides one row and no other, a listing names the rows that
    can be read. *)

Section Rows.
Context `{Serde}.
Implicit Types (ts : TableStore) (t k : Bytes).

Definition row_of ts t k : result VoltraError (option Value) := fst (get_row t k ts).

(** The same contents, whichever sub-stores have been created. *)
Record same_store ts ts' : Prop := {
  same_root : root ts' = root ts;
  same_file : blob_file ts' = blob_file ts;
  same_lobbies : forall lid, lobby_store ts' lid = lobby_store ts lid }.

#[export] Instance same_store_equiv : Equivalence same_store.
Proof.
  split.
  - by intros ts.
  - intros ts ts' [? ? ?]. by split; symmetry; auto.
  - intros ts1 ts2 ts3 [? ? E1] [? ? E2]. split; [congruence..|]. intros lid. by rewrite E2.
Qed.

Lemma lobby_store_insert ts lid s lid' :
  lobby_store {| root := root ts; lobbies := <[lid := s]> (lobbies ts); blob_file := blob_file ts |} lid' =
  if decide (lid' = lid) then s else lobby_store ts lid'.
Proof. unfold lobby_store. cbn. case_decide as E; [subst; by rewrite lookup_insert_eq|by rewrite lookup_insert_ne]. Qed.

(** Creating a sub-store changes nothing. *)
Lemma same_created ts lid :
  same_store ts {| root := root ts; lobbies := <[lid := lobby_store ts lid]> (lobbies ts); blob_file := blob_file ts |}.
Proof. split; [done..|]. intros lid'. rewrite lobby_store_insert. by case_decide; subst. Qed.

Lemma route_reads {A} name (none : A) f ts : same_store ts (snd (route name none (fun n => reads (f n)) ts)).
Proof.
  unfold route, on_root, on_lobby. destruct (parse_lobby_key name) as [[lid logical]|]; [|by split].
  case_bool_decide; apply same_created.
Qed.

Lemma route_same {A} name (none : A) f ts ts' : same_store ts ts' ->
  fst (route name none (fun n => reads (f n)) ts') = fst (route name none (fun n => reads (f n)) ts).
Proof.
  intros [Er Ef El]. unfold route, on_root, on_lobby. rewrite Er, Ef.
  destruct (parse_lobby_key name) as [[lid logical]|]; [|done]. rewrite El. by case_bool_decide.
Qed.

Lemma get_row_same t k ts : same_store ts (snd (get_row t k ts)).
Proof. apply route_reads. Qed.
Lemma row_of_same ts ts' t k : same_store ts ts' -> row_of ts' t k = row_of ts t k.
Proof. apply route_same. Qed.
Lemma list_rows_same t ts : same_store ts (snd (list_rows_with_keys t ts)).
Proof. apply route_reads. Qed.
Lemma list_rows_of_same t ts ts' : same_store ts ts' -> fst (list_rows_with_keys t ts') = fst (list_rows_with_keys t ts).
Proof. apply route_same. Qed.

(** ** Deletes *)

Lemma split_underscore_join s a b : split_underscore s = Some (a, b) -> s = a ++ [95] ++ b.
Proof.
  revert a. induction s as [|c s IH]; intros a; cbn; [done|]. destruct (c =? 95) eqn:E.
  - intros [= <- <-]. zbool. by subst.
  - destruct (split_underscore s) as [[a' b']|]; [|done]. intros [= <- <-]. by rewrite (IH a').
Qed.

Lemma parse_lobby_key_join t lid logical : parse_lobby_key t = Some (lid, logical) -> t = [108] ++ lid ++ [95] ++ logical.
Proof.
  unfold parse_lobby_key. destruct t as [|c r]; [done|]. destruct (c =? 108) eqn:E; cbn; [|done]. zbool. subst.
  destruct (split_underscore r) as [[a b]|] eqn:Es; cbn; [|done]. case_match; [|done]. intros [= -> ->].
  by rewrite (split_underscore_join _ _ _ Es).
Qed.

(** Deleting in one store. *)
Lemma delete_in_store name key s file n k :
  let sd := snd (delete_row_unlocked name key (s, file)) in
  get_row_in sd.1 sd.2 n k = if decide ((n, k) = (name, key)) then Ok None else get_row_in s file n k.
Proof.
  cbv zeta. destruct (delete_row_unlocked name key (s, file)) as [r [s' file']] eqn:E. cbn [snd fst].
  pose proof (delete_row_rows _ _ _ _ _ _ _ E) as [Hgone Hkept].
  apply delete_row_spec in E as ((Hi & Hc & _) & -> & _).
  unfold get_row_in, get_row_with_version_in. fold (row_at s' n k) (row_at s n k).
  case_bool_decide; [by case_decide|]. case_decide as Hd.
  - injection Hd as -> ->. by rewrite Hgone.
  - rewrite Hkept by done. unfold row_matches_shard. by rewrite Hi, Hc.
Qed.

Lemma delete_row_of t k ts t' k' :
  row_of (snd (delete_row t k ts)) t' k' = if decide ((t', k') = (t, k)) then Ok None else row_of ts t' k'.
Proof.
  unfold row_of, delete_row, get_row. unfold route at 2, on_root, on_lobby.
  destruct (parse_lobby_key t) as [[lid logical]|] eqn:E.
  - case_bool_decide as Hn.
    + cbn [snd]. rewrite (route_same _ _ _ ts) by apply same_created.
      case_decide as Hd; [|done]. injection Hd as -> ->. unfold route. rewrite E.
      by rewrite bool_decide_eq_true_2.
    + pose proof (delete_in_store logical k (lobby_store ts lid) (blob_file ts)) as Hin. cbv zeta in Hin.
      destruct (delete_row_unlocked logical k (lobby_store ts lid, blob_file ts)) as [r [s' file']] eqn:Ed.
      assert (file' = blob_file ts) as -> by (by apply delete_row_spec in Ed as (_ & -> & _)). cbn in Hin |- *.
      unfold route, on_root, on_lobby, reads. cbn. destruct (parse_lobby_key t') as [[lid' logical']|] eqn:E'.
      * rewrite lobby_store_insert. destruct (decide (lid' = lid)) as [->|Hne].
        -- case_bool_decide as Hn'; cbn [fst]; [by case_decide|]. cbn. rewrite Hin.
           apply parse_lobby_key_join in E, E'. subst.
           destruct (decide ((logical', k') = _)) as [Hd|Hd]; [injection Hd as -> ->; by rewrite decide_True|].
           rewrite decide_False; [done|]. intros Hd'. apply Hd. injection Hd' as Hd' ->.
           apply app_inv_head in Hd'. by injection Hd' as ->.
        -- rewrite decide_False by (intros [= -> ->]; congruence). by case_bool_decide.
      * rewrite decide_False by (intros [= -> ->]; congruence). done.
  - pose proof (delete_in_store t k (root ts) (blob_file ts)) as Hin. cbv zeta in Hin.
    destruct (delete_row_unlocked t k (root ts, blob_file ts)) as [r [s' file']] eqn:Ed.
    assert (file' = blob_file ts) as -> by (by apply delete_row_spec in Ed as (_ & -> & _)). cbn in Hin |- *.
    unfold route, on_root, on_lobby, reads. cbn. destruct (parse_lobby_key t') as [[lid' logical']|] eqn:E'.
    + rewrite decide_False by (intros [= -> ->]; congruence). by case_bool_decide.
    + apply Hin.
Qed.

(** ** Listings *)

Lemma listed_in s file name l : list_rows_with_keys_in s file name = Ok l ->
  l.*1 = (own_rows s name).*1 /\
  forall k v, (k, v) ∈ l -> exists r, (k, r) ∈ own_rows s name /\ full_value file r = Ok v.
Proof.
  unfold list_rows_with_keys_in. revert l. induction (own_rows s name) as [|[k r] rs IH]; intros l; cbn.
  { intros [= <-]. split; [done|]. by intros ? ? ?%elem_of_nil. }
  destruct (full_value file r) as [v|] eqn:Ev; cbn; [|done].
  destruct (foldr _ _ rs) as [l'|] eqn:El; cbn; [|done]. intros [= <-].
  destruct (IH l' eq_refl) as [Ek Hl]. cbn. split; [by rewrite Ek|].
  intros k' v' [[= -> ->]|Hin]%elem_of_cons; [exists r; split; [left|done]|].
  destruct (Hl _ _ Hin) as (r' & ? & ?). exists r'. split; [by right|done].
Qed.

Lemma own_rows_keys s name : NoDup (own_rows s name).*1.
Proof.
  unfold own_rows. pose proof (NoDup_fst_map_to_list (rows (table_of s name))) as Hd. revert Hd.
  generalize (map_to_list (rows (table_of s name))) as l. induction l as [|[k r] l IH]; cbn; [done|].
  intros [Hk Hd]%NoDup_cons. destruct (row_matches_shard s (row_shard r)); cbn; [|by apply IH].
  constructor; [|by apply IH]. intros (x & E & Hx)%list_elem_of_fmap. apply Hk. apply list_elem_of_fmap.
  exists x. split; [done|]. apply list_elem_of_In, filter_In in Hx as [Hx _]. by apply list_elem_of_In.
Qed.

Lemma own_row_read s file name k r v : parse_lobby_key name = None -> (k, r) ∈ own_rows s name ->
  full_value file r = Ok v -> get_row_in s file name k = Ok (Some v).
Proof.
  intros Hn Hin Hv. unfold own_rows in Hin. apply list_elem_of_In, filter_In in Hin as [Hin Hm]. cbn in Hm.
  apply list_elem_of_In, elem_of_map_to_list in Hin. rewrite table_of_row in Hin.
  unfold get_row_in, get_row_with_version_in. rewrite bool_decide_eq_false_2 by (rewrite Hn; by intros [? ?]).
  fold (row_at s name k). rewrite Hin, Hm. cbn. by rewrite Hv.
Qed.

(** A listing names rows that can be read, each once. *)
Lemma listed t ts l : fst (list_rows_with_keys t ts) = Ok l ->
  NoDup l.*1 /\ forall k v, (k, v) ∈ l -> row_of ts t k = Ok (Some v).
Proof.
  unfold list_rows_with_keys, row_of, get_row, route, on_root, on_lobby, reads.
  destruct (parse_lobby_key t) as [[lid logical]|] eqn:E; cbn.
  - case_bool_decide as Hn; cbn.
    + intros [= <-]. split; [constructor|]. by intros ? ? ?%elem_of_nil.
    + intros Hl. apply listed_in in Hl as [Ek Hl]. rewrite Ek. split; [apply own_rows_keys|].
      intros k v (r & Hr & Hv)%Hl. eapply own_row_read; [|done..]. destruct (parse_lobby_key logical); [|done].
      exfalso. apply Hn. by eexists.
  - intros Hl. apply listed_in in Hl as [Ek Hl]. rewrite Ek. split; [apply own_rows_keys|].
    intros k v (r & Hr & Hv)%Hl. by eapply own_row_read.
Qed.
End Rows.
