(* ===== verification/TableFacts.v ===== *)
(** * Locks of the table engine, and what it leaves behind

    Batches that lock their rows in the order of [lock_plan] never wait for each other for
    ever. Then inputs on which the engine does something it does not mean to: each is an
    evaluation of the definitions of Table.v. *)

From S2P Require Import Prelude Errors Util Json JsonCodec Table TableIndex TableBatch TableReads.
From Stdlib Require Import Sorted.

(** ** The order of the locks *)

Definition slot_lt (a b : Z * Z) : Prop := a.1 < b.1 \/ a.1 = b.1 /\ a.2 < b.2.

Lemma slot_lt_trans a b c : slot_lt a b -> slot_lt b c -> slot_lt a c.
Proof. unfold slot_lt. lia. Qed.
Lemma slot_lt_irrefl a : ~ slot_lt a a.
Proof. unfold slot_lt. lia. Qed.
Lemma slot_lt_total a b : slot_lt a b \/ a = b \/ slot_lt b a.
Proof.
  destruct a as [a1 a2], b as [b1 b2]. unfold slot_lt. cbn.
  destruct (decide (a1 = b1)) as [->|]; [|lia]. destruct (decide (a2 = b2)) as [->|]; [auto|lia].
Qed.

Lemma remove_dups_sorted l : StronglySorted slot_le l -> StronglySorted slot_lt (remove_dups l).
Proof.
  induction 1 as [|a l Hl IH Ha]; [constructor|]. cbn. case_decide as Hin; [done|]. constructor; [done|].
  rewrite Forall_forall in *. intros b Hb. rewrite elem_of_remove_dups in Hb.
  assert (a <> b) by congruence. specialize (Ha b Hb). destruct a as [a1 a2], b as [b1 b2].
  unfold slot_le, slot_lt in *. cbn in *. assert (a1 <> b1 \/ a2 <> b2) by (destruct (decide (a1 = b1)); [right|left]; congruence).
  lia.
Qed.

Lemma lock_plan_sorted addr s ds : StronglySorted slot_lt (lock_plan addr s ds).
Proof.
  apply remove_dups_sorted. apply StronglySorted_merge_sort.
  - intros a b c. unfold slot_le. lia.
  - intros a b. unfold slot_le. lia.
Qed.

(** ** Workers that take their locks one by one *)

Record Worker := { held : list (Z * Z); wanted : list (Z * Z); finished : bool }.

Definition start (plan : list (Z * Z)) : Worker := {| held := []; wanted := plan; finished := false |}.

Definition is_free (m : Z * Z) (ws : list Worker) : Prop := forall w, w ∈ ws -> m ∉ held w.

(** A worker takes the next mutex when nobody holds it; with all of them it runs its batch and
    lets them go. *)
Inductive lock_step : list Worker -> list Worker -> Prop :=
| step_take l w r m rest :
    wanted w = m :: rest -> finished w = false -> is_free m (l ++ w :: r) ->
    lock_step (l ++ w :: r) (l ++ {| held := held w ++ [m]; wanted := rest; finished := false |} :: r)
| step_run l w r :
    wanted w = [] -> finished w = false ->
    lock_step (l ++ w :: r) (l ++ {| held := []; wanted := []; finished := true |} :: r).

(** What is held and what is wanted is one ascending plan. *)
Definition worker_ok (w : Worker) : Prop :=
  StronglySorted slot_lt (held w ++ wanted w) /\ (finished w = true -> held w = [] /\ wanted w = []).

Definition todo (w : Worker) : nat := (length (wanted w) + if finished w then 0 else 1)%nat.
Definition work (ws : list Worker) : nat := foldr Nat.add 0%nat (map todo ws).

Lemma work_app l r : work (l ++ r) = (work l + work r)%nat.
Proof. unfold work. induction l as [|w l IH]; cbn; [done|]. rewrite IH. lia. Qed.

Lemma work_cons w r : work (w :: r) = (todo w + work r)%nat.
Proof. done. Qed.

Lemma lock_step_ok ws ws' : lock_step ws ws' -> Forall worker_ok ws ->
  Forall worker_ok ws' /\ work ws = S (work ws').
Proof.
  intros Hs Hok. destruct Hs as [l w r m rest Hw Hf _|l w r Hw Hf];
    rewrite Forall_app, Forall_cons in *; destruct Hok as (Hl & (Hsort & Hfin) & Hr);
    rewrite !work_app, !work_cons; unfold todo; cbn [wanted finished]; rewrite Hw, Hf; cbn [length].
  - split; [|lia]. split_and!; [done| |done]. split; cbn; [|done].
    rewrite <- app_assoc. cbn. by rewrite <- Hw.
  - split; [|lia]. split_and!; [done| |done]. split; cbn; [constructor|done].
Qed.

(** Among unfinished workers that all want something, one wants the greatest mutex. *)
Lemma greatest_wanted (ws : list Worker) : Forall (fun w => finished w = false -> wanted w <> []) ws ->
  (exists w, w ∈ ws /\ finished w = false) ->
  exists w m rest, w ∈ ws /\ finished w = false /\ wanted w = m :: rest /\
    forall w' m' rest', w' ∈ ws -> finished w' = false -> wanted w' = m' :: rest' -> ~ slot_lt m m'.
Proof.
  induction ws as [|v ws IH]; intros Hall Hex; [by destruct Hex as (? & ?%elem_of_nil & _)|].
  apply Forall_cons in Hall as [Hv Hall].
  destruct (decide (Exists (fun w => finished w = false) ws)) as [Hex'|Hno].
  - apply Exists_exists in Hex'. destruct (IH Hall Hex') as (w & m & rest & Hin & Hf & Hw & Hmax).
    destruct (finished v) eqn:Fv.
    { exists w, m, rest. split_and!; [by apply list_elem_of_further|done..|].
      intros w' m' rest' [->|Hin']%elem_of_cons; [congruence|by apply (Hmax w')]. }
    specialize (Hv eq_refl). destruct (wanted v) as [|mv rv] eqn:Wv; [done|].
    destruct (slot_lt_total m mv) as [Hlt|Hge].
    + exists v, mv, rv. split_and!; [apply list_elem_of_here|done..|].
      intros w' m' rest' [->|Hin']%elem_of_cons F' W'; [rewrite Wv in W'; simplify_eq; apply slot_lt_irrefl|].
      intros Hc. eapply (Hmax w' m' rest'); [done..|]. by eapply slot_lt_trans.
    + exists w, m, rest. split_and!; [by apply list_elem_of_further|done..|].
      intros w' m' rest' [->|Hin']%elem_of_cons F' W'; [|by eapply Hmax].
      rewrite Wv in W'. simplify_eq. intros Hc. destruct Hge as [->|Hge]; [by eapply slot_lt_irrefl|].
      eapply slot_lt_irrefl, slot_lt_trans; eassumption.
  - destruct Hex as (w & Hin & Hf). apply elem_of_cons in Hin as [->|Hin].
    2: { destruct Hno. apply Exists_exists. by exists w. }
    specialize (Hv Hf). destruct (wanted v) as [|mv rv] eqn:Wv; [done|].
    exists v, mv, rv. split_and!; [apply list_elem_of_here|done..|].
    intros w' m' rest' [->|Hin']%elem_of_cons F' W'; [rewrite Wv in W'; simplify_eq; apply slot_lt_irrefl|].
    destruct Hno. apply Exists_exists. by exists w'.
Qed.

Lemma held_below l x y rest : StronglySorted slot_lt (l ++ y :: rest) -> x ∈ l -> slot_lt x y.
Proof.
  induction l as [|z l IH]; cbn; [by intros _ ?%elem_of_nil|].
  intros [Hs Hz]%StronglySorted_inv [->|Hin]%elem_of_cons; [|by apply IH].
  rewrite Forall_forall in Hz. apply Hz, elem_of_app. right. apply list_elem_of_here.
Qed.

(** As long as a worker has not finished, one can go on. *)
Lemma lock_progress ws : Forall worker_ok ws -> (exists w, w ∈ ws /\ finished w = false) ->
  exists ws', lock_step ws ws'.
Proof.
  intros Hok Hex.
  destruct (decide (Exists (fun w => finished w = false /\ wanted w = []) ws)) as [Hd|Hd].
  { apply Exists_exists in Hd as (w & Hin & Hf & Hw). apply list_elem_of_split in Hin as (l & r & ->).
    eexists. by apply step_run. }
  destruct (greatest_wanted ws) as (w & m & rest & Hin & Hf & Hw & Hmax); [|done|].
  { apply Forall_forall. intros w Hin Hf Hw. destruct Hd. apply Exists_exists. by exists w. }
  assert (Hfree : is_free m ws).
  { intros v Hv Hm. rewrite Forall_forall in Hok. destruct (Hok v Hv) as [Hs Hfin].
    destruct (finished v) eqn:Fv; [destruct (Hfin eq_refl) as [E _]; rewrite E in Hm; by apply elem_of_nil in Hm|].
    destruct (wanted v) as [|mv rv] eqn:Wv.
    - destruct Hd. apply Exists_exists. by exists v.
    - apply (Hmax v mv rv Hv Fv Wv). by eapply held_below. }
  apply list_elem_of_split in Hin as (l & r & ->). eexists. by eapply step_take.
Qed.

Lemma lock_steps_ok j ws ws' : nsteps lock_step j ws ws' -> Forall worker_ok ws ->
  Forall worker_ok ws' /\ work ws = (j + work ws')%nat.
Proof.
  induction 1 as [ws|j ws1 ws2 ws3 Hs _ IH]; intros Hok; [done|].
  apply lock_step_ok in Hs as [Hok2 Hw]; [|done]. destruct (IH Hok2) as [? ?]. split; [done|lia].
Qed.

Definition plans (addr : Bytes -> Z) (jobs : list (Store * list RowDelta)) : list Worker :=
  map (fun j => start (lock_plan addr j.1 j.2)) jobs.

(** C39: batches do not deadlock: any number of batches take their row locks in any
    interleaving; each run is over within as many steps as there are locks to take and batches
    to run, and where it can go no further every batch has run. *)
Theorem batches_finish addr jobs j ws :
  nsteps lock_step j (plans addr jobs) ws ->
  (j <= work (plans addr jobs))%nat /\
  ((forall ws', ~ lock_step ws ws') -> Forall (fun w => finished w = true) ws).
Proof.
  intros Hn. assert (Hok : Forall worker_ok (plans addr jobs)).
  { apply Forall_forall. intros w (p & -> & _)%list_elem_of_fmap. split; [apply lock_plan_sorted|done]. }
  apply lock_steps_ok in Hn as [Hok' Hw]; [|done]. split; [lia|]. intros Hstuck.
  apply Forall_forall. intros w Hin. destruct (finished w) eqn:Hf; [done|].
  destruct (lock_progress ws Hok') as [ws' Hs]; [by exists w|]. by apply Hstuck in Hs.
Qed.

Lemma batches_finish_witness :
  let jobs := [(demo_s, [demo_set (bs "a") 1; demo_set (bs "b") 2]); (demo_s, [demo_set (bs "b") 3])] in
  nsteps lock_step 0 (plans (fun _ => 7) jobs) (plans (fun _ => 7) jobs) /\
  (0 <= work (plans (fun _ => 7%Z) jobs))%nat /\ work (plans (fun _ => 7%Z) jobs) = 5%nat.
Proof.
  cbn zeta. set (jobs := [_; _]). assert (Hn : nsteps lock_step 0 (plans (fun _ => 7) jobs) (plans (fun _ => 7) jobs))
    by constructor.
  split; [exact Hn|]. split; [exact (proj1 (batches_finish _ _ _ _ Hn))|by vm_compute].
Defined.

(** ** What is left behind *)

#[local] Existing Instances demo_serde demo_laws.

Definition ok_with {A} (f : A -> bool) (r : result VoltraError A) : bool :=
  match r with Ok a => f a | Err _ => false end.

Definition score_at (s : Store) (k : Bytes) : option Value :=
  r ← row_at s (bs "t") k; v ← row_value r; get_field v (bs "score").

(** The rollback restores the rows, not the indexes: after a refused batch the index finds a row
    by the value it never got, and no longer by the one it has. *)
Lemma rollback_leaves_index :
  let ts := snd (apply_delta_batch 1000 demo_now
                   [demo_set (bs "a") 77; demo_delta (bs "upsert") (bs "b") None 0] demo_t3) in
  index_lookup ts (bs "t") (bs "score") (Num (PosInt 10)) = Some [] /\
  index_lookup ts (bs "t") (bs "score") (Num (PosInt 77)) = Some [bs "a"] /\
  score_at (root ts) (bs "a")
    = Some (Num (PosInt 10)).
Proof. vm_compute. auto. Qed.

(** A write without its data ends the batch at once: the deltas before it stay applied. *)
Lemma missing_row_data_half_applied :
  let '(r, ts) := apply_delta_batch 1000 demo_now
                    [demo_set (bs "a") 77; demo_delta (bs "update") (bs "b") None 0] demo_t3 in
  r = Err missing_row_data /\ version_at (root ts) (bs "t") (bs "a") = 2.
Proof. by vm_compute. Qed.

(** Versions start again after a delete: a batch that deletes a row and inserts it anew is not
    noticed by a batch that read the row before. *)
Lemma occ_misses_reinsertion :
  let rv := [(bs "t", bs "a", version_at demo_s (bs "t") (bs "a"))] in
  let ts := snd (apply_delta_batch 1000 demo_now
                   [demo_delta (bs "delete") (bs "a") None 0; demo_set (bs "a") 50] demo_t3) in
  let '(r, ts') := apply_delta_batch_versioned 1000 demo_now [demo_set (bs "a") 11] rv ts in
  ok_with (fun l => zlen l =? 1) r = true /\
  score_at (root ts') (bs "a")
    = Some (Num (PosInt 11)).
Proof. by vm_compute. Qed.

(** Two stores append to one blob file, each with its own idea of where it ends: the second
    lobby's player gets the first one's inventory. *)
Definition demo_hero (item : Bytes) : Value := Object [(bs "inventory", Array [Str item])].

Lemma blob_of_another_lobby :
  let ts := snd (get_row (bs "l1_players") (bs "x") (table_store_new NoEviction [])) in
  let ts := snd (get_row (bs "l2_players") (bs "x") ts) in
  let ts := snd (set_row 1000 (bs "l1_players") (bs "p") (demo_hero (bs "shield")) ts) in
  let ts := snd (set_row 1000 (bs "l2_players") (bs "q") (demo_hero (bs "potion")) ts) in
  option_map (fun v => get_field v (bs "inventory"))
    (match fst (get_row (bs "l2_players") (bs "q") ts) with Ok o => o | Err _ => None end)
  = Some (Some (Array [Str (bs "shield")])).
Proof. by vm_compute. Qed.

(** A limit of 0 is no limit: the loop tests it after each push. *)
Lemma top_n_zero : fst (top_n (bs "t") (bs "score") 0 true demo_t3) = [bs "a"; bs "b"].
Proof. by vm_compute. Qed.

(** An index on a lobby's table is built on a root table of that name, which is empty; the
    counting reads it and finds nothing. *)
Lemma lobby_index_misses :
  let ts := snd (set_row 1000 (bs "l1_t") (bs "a") (demo_row 10) (table_store_new NoEviction [])) in
  fst (count_matching (bs "l1_t") (bs "score") (Num (PosInt 10)) ts) = 1 /\
  fst (count_matching (bs "l1_t") (bs "score") (Num (PosInt 10))
         (snd (create_index (bs "l1_t") (bs "score") ts))) = 0.
Proof. by vm_compute. Qed.

(** A batch over the root and a lobby is two batches: the first stays when the second fails. *)
Lemma lobby_batch_not_atomic :
  let bad := {| table_name := bs "l1_t"; operation := bs "upsert"; row_key := bs "z"; d_row_id := 0;
                d_shard_id := 0; payload_arc := None; row_data := None;
                counter_add_amount := 0; counter_add_timestamp := 0 |} in
  let '(r, ts) := apply_delta_batch 1000 demo_now [demo_set (bs "a") 77; bad] demo_t3 in
  r = Err (unlisted (bs "upsert")) /\ version_at (root ts) (bs "t") (bs "a") = 2.
Proof. by vm_compute. Qed.

(** Counting the rows whose field is null counts those whose field is the string null. *)
Lemma count_matching_null :
  let ts := snd (set_row 1000 (bs "t") (bs "c") (Object [(bs "tag", Null)]) demo_t3) in
  let ts := snd (set_row 1000 (bs "t") (bs "d") (Object [(bs "tag", Str (bs "null"))]) ts) in
  scan_column (bs "t") (bs "tag") ts = ([(bs "c", Null); (bs "d", Str (bs "null"))], ts) /\
  fst (count_matching (bs "t") (bs "tag") Null ts) = 1.
Proof. vm_compute. auto. Qed.
