(* ===== verification/Columnar.v ===== *)
(** * Column indexes (src/table/columnar.rs)

    The keys of the rows under the text of a field. The lists an index answers are in the
    order of its maps. *)

From S2P Require Import Prelude Util Json JsonCodec Table TableIndex.

Section Columns.
Context `{Serde}.

Record ColumnIndex := { buckets : gmap Bytes (gset Bytes); field_name : Bytes }.
Implicit Types (ix : ColumnIndex) (v : Value) (k : Bytes).

Definition column_new (name : Bytes) : ColumnIndex := {| buckets := ∅; field_name := name |}.
Definition set_buckets (b : gmap Bytes (gset Bytes)) ix : ColumnIndex := {| buckets := b; field_name := field_name ix |}.

Definition value_to_key v : Bytes :=
  match v with
  | Null => bs "null"
  | Bool b => if b then bs "true" else bs "false"
  | Num n => number_to_string n
  | Str s => s
  | Array _ | Object _ => json_to_vec v
  end.

Definition column_insert v k ix : ColumnIndex := set_buckets (idx_insert (value_to_key v) k (buckets ix)) ix.
Definition column_remove v k ix : ColumnIndex := set_buckets (idx_remove (value_to_key v) k (buckets ix)) ix.
Definition column_lookup ix v : list Bytes := idx_lookup (value_to_key v) (buckets ix).
Definition column_clear ix : ColumnIndex := set_buckets ∅ ix.
Definition distinct_value_count ix : Z := Z.of_nat (size (buckets ix)).
Definition indexed_row_count ix : Z := foldr Z.add 0 (map (fun b => Z.of_nat (size b.2)) (map_to_list (buckets ix))).

Definition lookup_prefix ix (prefix : Bytes) : list Bytes :=
  concat (map (fun b => elements b.2)
    (List.filter (fun b => bool_decide (is_Some (strip_prefix prefix b.1))) (map_to_list (buckets ix)))).

(** The first of the shortest results. *)
Fixpoint smallest (best : list Bytes) (l : list (list Bytes)) : list Bytes :=
  match l with
  | [] => best
  | r :: l' => smallest (if (length r <? length best)%nat then r else best) l'
  end.

Definition intersect_results (results : list (list Bytes)) : list Bytes :=
  match results with
  | [] => []
  | [r] => r
  | r0 :: rest =>
      List.filter (fun key => forallb (fun r => existsb (beq key) r) results) (smallest r0 (r0 :: rest))
  end.

(** ** What the index answers *)

Lemma lookup_insert v w k j ix : k ∈ column_lookup (column_insert w j ix) v <->
  (value_to_key v = value_to_key w /\ k = j) \/ k ∈ column_lookup ix v.
Proof. unfold column_lookup. rewrite !idx_lookup_has. apply idx_has_insert. Qed.

Lemma lookup_remove v w k j ix : k ∈ column_lookup (column_remove w j ix) v <->
  k ∈ column_lookup ix v /\ ~ (value_to_key v = value_to_key w /\ k = j).
Proof. unfold column_lookup. rewrite !idx_lookup_has. apply idx_has_remove. Qed.

(** The index of rows whose fields are [m]. *)
Definition indexes (m : gmap Bytes Value) ix : Prop :=
  forall v k, k ∈ column_lookup ix v <-> exists w, m !! k = Some w /\ value_to_key w = value_to_key v.

(** A write as a delta batch makes it: the old value out first, then the new one in. *)
Definition rewrite_column (k : Bytes) (old new : option Value) ix : ColumnIndex :=
  let ix := match old with Some w => column_remove w k ix | None => ix end in
  match new with Some w => column_insert w k ix | None => ix end.

(** An index kept that way answers, for a value, the rows that hold it or a value of the same text. *)
Theorem column_index_kept m ix k new : indexes m ix ->
  indexes (partial_alter (fun _ => new) k m) (rewrite_column k (m !! k) new ix).
Proof.
  intros Hm v j. unfold rewrite_column.
  assert (Hr : j ∈ column_lookup (match m !! k with Some w => column_remove w k ix | None => ix end) v <->
    j <> k /\ exists w, m !! j = Some w /\ value_to_key w = value_to_key v).
  { destruct (m !! k) as [w|] eqn:E.
    - rewrite lookup_remove, (Hm v j). split.
      + intros [(w' & Hw & Hk) Hn]. split; [|by eauto]. intros ->. apply Hn. split; congruence.
      + intros [Hne Hw]. split; [done|]. by intros [_ ?].
    - rewrite (Hm v j). split; [|by intros [_ ?]]. intros (w & Hw & Hk). split; [congruence|by eauto]. }
  destruct new as [w|].
  - rewrite lookup_insert, Hr. destruct (decide (j = k)) as [->|Hne].
    + rewrite lookup_partial_alter_eq. split; [intros [[? _]|[[] _]]; [by eexists|done]|intros (w' & [= <-] & ?); by left].
    + rewrite lookup_partial_alter_ne by done. split; [intros [[_ ?]|[_ ?]]; done|by right].
  - rewrite Hr. destruct (decide (j = k)) as [->|Hne].
    + rewrite lookup_partial_alter_eq. split; [by intros [? _]|by intros (? & ? & _)].
    + rewrite lookup_partial_alter_ne by done. split; [by intros [_ ?]|done].
Qed.

Lemma prefix_exact ix prefix k : k ∈ lookup_prefix ix prefix <->
  exists fv b, buckets ix !! fv = Some b /\ is_Some (strip_prefix prefix fv) /\ k ∈ b.
Proof.
  unfold lookup_prefix. rewrite list_elem_of_In, in_concat. split.
  - intros (l & Hl & Hk). apply in_map_iff in Hl as ([fv b] & <- & [Hb Hp]%filter_In). exists fv, b.
    apply bool_decide_eq_true in Hp. split_and!; [|done|].
    + by apply elem_of_map_to_list, list_elem_of_In.
    + by apply elem_of_elements, list_elem_of_In.
  - intros (fv & b & Hb & Hp & Hk). exists (elements b). split.
    + apply in_map_iff. exists (fv, b). split; [done|]. apply filter_In. split; [|by apply bool_decide_eq_true].
      by apply list_elem_of_In, elem_of_map_to_list.
    + by apply list_elem_of_In, elem_of_elements.
Qed.

Lemma smallest_in l : forall best, smallest best l = best \/ smallest best l ∈ l.
Proof.
  induction l as [|r l IH]; intros best; [by left|]. cbn [smallest]. destruct (length r <? length best)%nat.
  - destruct (IH r) as [->|?]; right; [left|by right].
  - destruct (IH best) as [->|?]; [by left|right; by right].
Qed.

Lemma existsb_beq k l : existsb (beq k) l = true <-> k ∈ l.
Proof.
  rewrite existsb_exists, list_elem_of_In. split; [intros (x & Hx & ->%beq_true); done|]. intros Hk. exists k.
  split; [done|apply beq_refl].
Qed.

(** The intersection holds exactly what is in every result. *)
Theorem intersect_exact results k : results <> [] -> k ∈ intersect_results results <-> forall r, r ∈ results -> k ∈ r.
Proof.
  intros Hne. destruct results as [|r0 [|r1 rest]]; [done| |].
  - cbn. split; [by intros ? r ->%list_elem_of_singleton|intros Hr; by apply Hr, list_elem_of_singleton].
  - set (rs := r0 :: r1 :: rest) in *. change (intersect_results rs)
      with (List.filter (fun key => forallb (fun r => existsb (beq key) r) rs) (smallest r0 rs)).
    rewrite list_elem_of_In, filter_In, <- list_elem_of_In, forallb_forall.
    assert (Hs : smallest r0 rs ∈ rs) by (destruct (smallest_in rs r0) as [->|?]; [left|done]).
    split.
    + intros [_ Hall] r Hr. apply existsb_beq, Hall. by apply list_elem_of_In.
    + intros Hall. split; [by apply Hall|]. intros r Hr. apply existsb_beq, Hall. by apply list_elem_of_In.
Qed.
End Columns.

#[local] Existing Instance demo_serde.

(** Values of different types share a bucket when their texts agree. *)
Lemma lookup_mixes_types :
  column_lookup (column_insert (Str (bs "10")) (bs "p1") (column_new (bs "level"))) (Num (PosInt 10)) = [bs "p1"] /\
  column_lookup (column_insert (Str (bs "null")) (bs "p1") (column_new (bs "opt"))) Null = [bs "p1"].
Proof. vm_compute. split; reflexivity. Qed.
