(* ===== verification/SchemaMigrate.v ===== *)
(** * Migrations of table rows (src/migrations.rs, POST /migrate of src/admin.rs)

    Migration files change the rows of a table one by one and are recorded in the table
    [__migrations]. Reading the directory and the files is an argument; the TOML parser is the
    class [Toml]. *)

From S2P Require Import Prelude Errors Util Json JsonCodec Table TableIndex TableBatch TableReads.

(** ** Migration files *)

Record MigrationStep := {
  step_table : Bytes; op : Bytes; field : option Bytes; default_value : option Value;
  old_field : option Bytes; new_field : option Bytes }.

Record MigrationFile := { mig_version : Z; description : option Bytes; steps : list MigrationStep }.

(** [toml::from_str::<MigrationFile>] *)
Class Toml := { toml_from_str : Bytes -> option MigrationFile }.

Definition MIGRATIONS_TABLE : Bytes := bs "__migrations".

(** ** Fields *)

(** [Map::remove] *)
Definition map_remove (k : Bytes) (m : list (Bytes * Value)) : list (Bytes * Value) :=
  List.filter (fun kv => negb (beq kv.1 k)) m.

(** What each step does to a row; [None] leaves it as it is, and a row that is no object too. *)
Definition with_field (f : Bytes) (default : Value) (v : Value) : option Value :=
  match v with
  | Object m => match map_get m f with None => Some (Object (map_insert f default m)) | Some _ => None end
  | _ => None
  end.
Definition without_field (f : Bytes) (v : Value) : option Value :=
  match v with
  | Object m => match map_get m f with Some _ => Some (Object (map_remove f m)) | None => None end
  | _ => None
  end.
Definition with_renamed (old new : Bytes) (v : Value) : option Value :=
  match v with
  | Object m => match map_get m old with Some x => Some (Object (map_insert new x (map_remove old m))) | None => None end
  | _ => None
  end.

Section Migrations.
Context `{Serde}.
Variable max_blob : Z.

(** ** Steps *)

Definition rows_of (table : Bytes) : tx TableStore (list (Bytes * Value)) := list_rows_with_keys table.
Definition write (table key : Bytes) (v : Value) : tx TableStore RowDelta := set_row max_blob table key v.
Definition read (table key : Bytes) : tx TableStore (option Value) := get_row table key.
Definition fails {A} (e : VoltraError) : tx TableStore A := fun ts => (Err e, ts).

Fixpoint change_loop (change : Value -> option Value) (table : Bytes) (rows : list (Bytes * Value)) : tx TableStore unit :=
  match rows with
  | [] => mret tt
  | (k, v) :: rows' =>
      match change v with
      | None => change_loop change table rows'
      | Some v' => _ ← write table k v'; change_loop change table rows'
      end
  end.

Definition change_rows (change : Value -> option Value) (table : Bytes) : tx TableStore unit :=
  rows ← rows_of table; change_loop change table rows.

Definition add_field (table f : Bytes) (default : Value) : tx TableStore unit :=
  change_rows (with_field f default) table.
Definition remove_field (table f : Bytes) : tx TableStore unit := change_rows (without_field f) table.
Definition rename_field (table old new : Bytes) : tx TableStore unit :=
  change_rows (with_renamed old new) table.

(** The change a step stands for, its fields being there. *)
Definition step_change (s : MigrationStep) : result VoltraError (Value -> option Value) :=
  if beq (op s) (bs "add_field") then
    f ← ok_or (field s) (InvalidArgument (bs "add_field requires 'field'"));
    d ← ok_or (default_value s) (InvalidArgument (bs "add_field requires 'default'"));
    Ok (with_field f d)
  else if beq (op s) (bs "remove_field") then
    f ← ok_or (field s) (InvalidArgument (bs "remove_field requires 'field'"));
    Ok (without_field f)
  else if beq (op s) (bs "rename_field") then
    old ← ok_or (old_field s) (InvalidArgument (bs "rename_field requires 'old_field'"));
    new ← ok_or (new_field s) (InvalidArgument (bs "rename_field requires 'new_field'"));
    Ok (with_renamed old new)
  else Err (InvalidArgument (bs "Unknown migration op '" ++ op s ++ bs "'")).

Fixpoint apply_steps (l : list MigrationStep) : tx TableStore unit :=
  match l with
  | [] => mret tt
  | s :: l' =>
      match step_change s with
      | Err e => fails e
      | Ok change => _ ← change_rows change (step_table s); apply_steps l'
      end
  end.

Definition apply_migration (mig : MigrationFile) : tx TableStore unit := apply_steps (steps mig).

(** ** Files *)

Context `{Toml}.

(** The row that records a migration. *)
Definition applied_row (now_nanos version : Z) : Value :=
  Object [(bs "applied_at", Num (PosInt (wrap_u64 now_nanos))); (bs "version", Num (PosInt version))].

(** Parse, apply, record. *)
Definition run_migration (now_nanos : Z) (filename content : Bytes) : tx TableStore unit :=
  match toml_from_str content with
  | None => fails (Internal (bs "Failed to parse migration"))
  | Some mig =>
      _ ← apply_migration mig;
      _ ← write MIGRATIONS_TABLE filename (applied_row now_nanos (mig_version mig)); mret tt
  end.

(** [true] when the migration was applied, [false] when it had been. *)
Definition apply_migration_str (now_nanos : Z) (filename content : Bytes) : tx TableStore bool :=
  o ← read MIGRATIONS_TABLE filename;
  match o with Some _ => mret false | None => _ ← run_migration now_nanos filename content; mret true end.

(** [Path::extension]: after the last dot, where something is before it. *)
Definition extension (name : Bytes) : option Bytes :=
  match split_once 46 (rev name) with
  | Some (e, b) => match b with [] => None | _ => Some (rev e) end
  | None => None
  end.

Definition is_toml (name : Bytes) : bool :=
  match extension name with Some e => beq (to_ascii_lowercase e) (bs "toml") | None => false end.

Definition name_le (a b : Bytes * option Bytes) : Prop := bytes_le a.1 b.1.
#[export] Instance name_le_dec : RelDecision name_le.
Proof. intros a b. unfold name_le. apply _. Defined.

Fixpoint apply_files (now : nat -> Z) (files : list (Bytes * option Bytes)) (applied : Z) : tx TableStore Z :=
  match files with
  | [] => mret applied
  | (name, contents) :: files' =>
      o ← read MIGRATIONS_TABLE name;
      match o with
      | Some _ => apply_files (fun i => now (S i)) files' applied
      | None =>
          match contents with
          | None => fails (Internal (bs "Failed to read migration"))
          | Some c => _ ← run_migration (now O) name c; apply_files (fun i => now (S i)) files' (applied + 1)
          end
      end
  end.

(** The directory, when there is one: its entries, each with its contents if it can be read. *)
Definition apply_migrations (now : nat -> Z) (dir : option (list (Bytes * option Bytes))) : tx TableStore Z :=
  match dir with
  | None => mret 0
  | Some entries => apply_files now (merge_sort name_le (List.filter (fun e => is_toml e.1) entries)) 0
  end.

(** ** The endpoint *)

Inductive MigrateProblem : Type :=
| MissingFilename
| MissingContent (filename : Bytes)
| Failed (filename : Bytes) (e : VoltraError).

Record MigrateReport := { applied : Z; skipped : Z; problems : list MigrateProblem }.

Definition as_str (v : option Value) : option Bytes := match v with Some (Str s) => Some s | _ => None end.

Definition problem (p : MigrateProblem) (r : MigrateReport) : MigrateReport :=
  {| applied := applied r; skipped := skipped r + 1; problems := problems r ++ [p] |}.

Definition migrate_entry (now : Z) (entry : Value) (r : MigrateReport) : st TableStore MigrateReport :=
  fun ts =>
    match as_str (get_field entry (bs "filename")) with
    | None => (problem MissingFilename r, ts)
    | Some f =>
        match as_str (get_field entry (bs "content")) with
        | None => (problem (MissingContent f) r, ts)
        | Some c =>
            match apply_migration_str now f c ts with
            | (Ok true, ts) => ({| applied := applied r + 1; skipped := skipped r; problems := problems r |}, ts)
            | (Ok false, ts) => ({| applied := applied r; skipped := skipped r + 1; problems := problems r |}, ts)
            | (Err e, ts) => (problem (Failed f e) r, ts)
            end
        end
    end.

Fixpoint migrate_entries (now : nat -> Z) (l : list Value) (r : MigrateReport) : st TableStore MigrateReport :=
  fun ts =>
    match l with
    | [] => (r, ts)
    | e :: l' => let '(r, ts) := migrate_entry (now O) e r ts in migrate_entries (fun i => now (S i)) l' r ts
    end.

(** [None] is the answer 400. *)
Definition post_migrate (now : nat -> Z) (body : Bytes) : st TableStore (option MigrateReport) :=
  fun ts =>
    match json_from_slice body ≫= fun p => get_field p (bs "migrations") with
    | Some (Array l) =>
        let '(r, ts) := migrate_entries now l {| applied := 0; skipped := 0; problems := [] |} ts in (Some r, ts)
    | _ => (None, ts)
    end.
End Migrations.

(** ** What a step does to the rows *)

Section Facts.
Context `{SerdeLaws}.
Variable max_blob : Z.
Hypothesis Hmax : max_blob < U64.
Implicit Types (ts : TableStore).

(** The root store numbers its shard and appends its blobs at the end of the file. *)
Definition sane ts : Prop := 0 <= shard_id (root ts) < 2 ^ 32 /\ next_offset (root ts) = zlen (blob_file ts).

Definition inventory_ok (v : Value) : Prop :=
  storable v = true /\ forall inv, get_field v (bs "inventory") = Some inv -> float_free inv = true.

Lemma write_offset name key v s file d s' file' : next_offset s = zlen file ->
  write_row_unlocked max_blob name key v (s, file) = (Ok d, (s', file')) -> next_offset s' = zlen file'.
Proof.
  intros Ho Hw. pose proof (write_row_spec _ _ _ _ _ _ _ _ _ Hw) as [_ (v1 & off & id & bytes & s1 & Ht & _ & Hn & _)].
  rewrite <- Hn in Ho. unfold take_inventory in Ht.
  assert (Hsame : forall w, (Ok (v, None), (s1, file)) = (Ok w, (set_tables s' (tables s1), file')) :> result VoltraError (Value * option Z) * _ ->
    next_offset s' = zlen file') by (intros w E; injection E; intros; apply (f_equal (fun x => next_offset x.2.1)) in E; cbn in E; congruence).
  destruct (get_field v (bs "inventory")) as [inv|]; [|by apply Hsame in Ht].
  destruct (should_store_blob v); [|by apply Hsame in Ht].
  unfold store_blob in Ht. destruct (max_blob <? _); [done|]. pose proof (f_equal (fun x => next_offset x.2.1) Ht) as E. cbn in E.
  pose proof (f_equal (fun x => x.2.2) Ht) as Ef. cbn [snd] in Ef. rewrite <- E, <- Ef, !length_app, le_bytes_length. lia.
Qed.

Lemma set_row_root t k v ts d ts' : parse_lobby_key t = None -> sane ts -> inventory_ok v ->
  set_row max_blob t k v ts = (Ok d, ts') ->
  sane ts' /\ shard_id (root ts') = shard_id (root ts) /\ lobbies ts' = lobbies ts /\
  row_of ts' t k = Ok (Some (stamp (shard_id (root ts)) t k v)) /\
  forall n k' o, parse_lobby_key n = None -> (n, k') <> (t, k) -> row_of ts n k' = Ok o -> row_of ts' n k' = Ok o.
Proof.
  intros Ht [Hs Ho] [Hv Hi] Hset. pose proof Hset as Hget.
  apply (set_get max_blob t k v ts d ts' (root ts) t) in Hget; [|done|unfold routed; by rewrite Ht|exact (conj Hs (conj Ho (conj Hv Hi)))].
  unfold set_row, route, on_root in Hset. rewrite Ht in Hset.
  destruct (write_row_unlocked _ _ _ _ _) as [r [s1 f1]] eqn:Ew. injection Hset as -> <-.
  pose proof (write_row_frame _ _ _ _ _ _ _ _ _ Ew) as Hf. pose proof Hf as (Hsh & _). cbn in Hsh.
  split_and!; cbn; [split; cbn; [lia|by eapply write_offset]|done|done|exact Hget|].
  intros n k' o Hn Hne. unfold row_of, get_row, route, on_root, reads. rewrite Hn. cbn.
  apply (get_row_frame _ _ _ _ _ _ _ Hf). pose proof (write_row_rows _ _ _ _ _ _ _ _ _ Ew) as (row & _ & _ & Hk). by apply Hk.
Qed.

(** Changing rows one by one, each known to read as it was listed. *)
Lemma change_loop_exact change t : parse_lobby_key t = None -> forall l ts ts', sane ts -> NoDup l.*1 ->
  (forall k v, (k, v) ∈ l -> row_of ts t k = Ok (Some v)) ->
  (forall k v v', (k, v) ∈ l -> change v = Some v' -> inventory_ok v') ->
  change_loop max_blob change t l ts = (Ok tt, ts') ->
  sane ts' /\ shard_id (root ts') = shard_id (root ts) /\ lobbies ts' = lobbies ts /\
  (forall k v, (k, v) ∈ l ->
     row_of ts' t k = Ok (Some (match change v with Some v' => stamp (shard_id (root ts)) t k v' | None => v end))) /\
  forall n k o, parse_lobby_key n = None -> (n = t -> k ∉ l.*1) -> row_of ts n k = Ok o -> row_of ts' n k = Ok o.
Proof.
  intros Ht. induction l as [|[k v] l IH]; intros ts ts' Hs Hnd Hread Hok.
  { intros [= <-]. split_and!; [done|done|done| |done]. by intros ? ? ?%elem_of_nil. }
  cbn [change_loop fmap list_fmap fst] in *. apply NoDup_cons in Hnd as [Hk Hnd].
  assert (Hl : forall k' v', (k', v') ∈ l -> k' <> k)
    by (intros k' v' Hin ->; apply Hk; apply list_elem_of_fmap; by exists (k, v')).
  destruct (change v) as [v'|] eqn:Ec.
  - unfold mbind, tx_bind, write. destruct (set_row max_blob t k v' ts) as [[d|e] ts1] eqn:Es; [|done]. intros Hrest.
    destruct (set_row_root _ _ _ _ _ _ Ht Hs (Hok k v v' ltac:(by left) Ec) Es) as (Hs1 & Hsh1 & Hlb1 & Hr1 & Ho1).
    destruct (IH ts1 ts' Hs1 Hnd) as (Hs2 & Hsh2 & Hlb2 & Hr2 & Ho2); [| |exact Hrest|].
    + intros k' w Hin. apply Ho1; [done|intros [= E]; exact (Hl _ _ Hin E)|]. apply Hread. by right.
    + intros k' w w' Hin. apply (Hok k' w w'). by right.
    + split_and!; [done|congruence|congruence| |].
      * intros k' w [[= -> ->]|Hin]%elem_of_cons; [rewrite Ec; by apply Ho2|]. rewrite (Hr2 _ _ Hin). by rewrite Hsh1.
      * intros n k' o Hn Hnot Ho. apply Ho2; [done|intros Hnt Hin; apply (Hnot Hnt); by right|].
        apply Ho1; [done| |done]. intros [= -> ->]. apply (Hnot eq_refl). by left.
  - intros Hrest. destruct (IH ts ts' Hs Hnd) as (Hs2 & Hsh2 & Hlb2 & Hr2 & Ho2); [| |exact Hrest|].
    + intros k' w Hin. apply Hread. by right.
    + intros k' w w' Hin. apply (Hok k' w w'). by right.
    + split_and!; [done|done|done| |].
      * intros k' w [[= -> ->]|Hin]%elem_of_cons; [|by apply Hr2]. rewrite Ec. apply Ho2; [done|done|]. apply Hread. by left.
      * intros n k' o Hn Hnot. apply Ho2; [done|]. intros Hnt Hin. apply (Hnot Hnt). by right.
Qed.

(** A step of a schema migration changes exactly what it says: when it ends well, every
    row of its table that was listed reads as the step makes it, stamped with its key, or as
    it was where the step leaves it alone; rows of other tables read as they did, and no
    lobby's store is touched. *)
Theorem migration_step_exact step change ts ts' l :
  step_change step = Ok change -> parse_lobby_key (step_table step) = None -> sane ts ->
  fst (rows_of (step_table step) ts) = Ok l ->
  (forall k v v', (k, v) ∈ l -> change v = Some v' -> inventory_ok v') ->
  apply_steps max_blob [step] ts = (Ok tt, ts') ->
  (forall k v, (k, v) ∈ l -> row_of ts' (step_table step) k =
     Ok (Some (match change v with Some v' => stamp (shard_id (root ts)) (step_table step) k v' | None => v end))) /\
  (forall n k o, parse_lobby_key n = None -> n <> step_table step -> row_of ts n k = Ok o -> row_of ts' n k = Ok o) /\
  lobbies ts' = lobbies ts.
Proof.
  intros Hc Ht Hs Hl Hok Ha. cbn [apply_steps] in Ha. rewrite Hc in Ha. unfold change_rows, mbind, tx_bind in Ha.
  destruct (listed _ _ _ Hl) as [Hnd Hread].
  assert (Hsame : snd (rows_of (step_table step) ts) = ts) by (unfold rows_of, list_rows_with_keys, route, on_root, reads; rewrite Ht; by destruct ts).
  destruct (rows_of (step_table step) ts) as [r ts1]. cbn in Hl, Hsame. subst r ts1.
  destruct (change_loop _ _ _ _ _) as [[[]|e] ts2] eqn:E; [|done]. injection Ha as <-.
  destruct (change_loop_exact change _ Ht l ts ts2 Hs Hnd Hread Hok E) as (_ & _ & Hlb & Hr & Ho). split_and!; [done| |done].
  intros n k o Hn Hne. by apply Ho.
Qed.

(** ** A migration is applied once *)

Context `{Toml}.

Lemma applied_row_storable now version : 0 <= version < U64 -> storable (applied_row now version) = true.
Proof.
  intros Hv. unfold storable. destruct DEPTH_S as [d ->]. unfold applied_row. cbn [nested_ok map fst forallb snd].
  assert (Hw : 0 <= wrap_u64 now < U64) by (unfold wrap_u64; apply Z.mod_pos_bound; done).
  assert (Hn : forall z, 0 <= z < U64 -> nested_ok d (Num (PosInt z)) = true)
    by (intros z Hz; destruct d; cbn; by rewrite zle_true, zlt_true by lia).
  rewrite !Hn by done. by vm_compute.
Qed.
(** The shard of the root store stays what it is. *)
Definition same_shard {A} (m : tx TableStore A) : Prop := forall ts, shard_id (root (snd (m ts))) = shard_id (root ts).

Lemma shard_bind {A B} (m : tx TableStore A) (f : A -> tx TableStore B) :
  same_shard m -> (forall a, same_shard (f a)) -> same_shard (a ← m; f a).
Proof.
  intros Hm Hf ts. specialize (Hm ts). unfold mbind, tx_bind. destruct (m ts) as [[a|e] ts1]; [|done].
  cbn [snd] in Hm. rewrite <- Hm. apply Hf.
Qed.

Lemma shard_write table key v : same_shard (write max_blob table key v).
Proof.
  intros ts. unfold write, set_row, route, on_root, on_lobby. destruct (parse_lobby_key table) as [[lid logical]|].
  - case_bool_decide; [done|]. by destruct (write_row_unlocked _ _ _ _ _) as [r [s f]].
  - destruct (write_row_unlocked _ _ _ _ _) as [r [s f]] eqn:E. cbn. by apply write_row_frame in E as [? _].
Qed.

Lemma shard_rows table : same_shard (rows_of table).
Proof. intros ts. by rewrite (same_root _ _ (list_rows_same table ts)). Qed.

Lemma shard_change change table rows : same_shard (change_loop max_blob change table rows).
Proof.
  induction rows as [|[k v] rows IH]; [done|]. cbn [change_loop]. destruct (change v); [|done].
  apply shard_bind; [apply shard_write|done].
Qed.

Lemma shard_steps l : same_shard (apply_steps max_blob l).
Proof.
  induction l as [|s l IH]; [done|]. cbn [apply_steps]. destruct (step_change s); [|done].
  apply shard_bind; [|done]. apply shard_bind; [apply shard_rows|]. intros rows. apply shard_change.
Qed.

(** A migration that was applied is recorded: the same file, whatever it holds by then, is
    passed over and changes nothing. *)
Theorem migration_applied_once now filename content ts ts' :
  0 <= shard_id (root ts) < 2 ^ 32 ->
  (forall mig, toml_from_str content = Some mig -> 0 <= mig_version mig < U64) ->
  apply_migration_str max_blob now filename content ts = (Ok true, ts') ->
  forall now' content', exists ts'', apply_migration_str max_blob now' filename content' ts' = (Ok false, ts'') /\ same_store ts' ts''.
Proof.
  intros Hsh Hver Ha now' content'.
  assert (Hr : exists v, row_of ts' MIGRATIONS_TABLE filename = Ok (Some v)).
  { unfold apply_migration_str, mbind, tx_bind in Ha. pose proof (get_row_same MIGRATIONS_TABLE filename ts) as Hs0.
    unfold read in Ha. destruct (get_row _ _ ts) as [[[o|]|e] ts0] eqn:E0; [done| |done]. cbn [snd] in Hs0.
    unfold run_migration in Ha. destruct (toml_from_str content) as [mig|]; [|done]. unfold mbind, tx_bind in Ha.
    pose proof (shard_steps (steps mig) ts0) as Hs1. unfold apply_migration in Ha.
    destruct (apply_steps _ _ ts0) as [[[]|e] ts1]; [|done]. cbn [snd] in Hs1. rewrite (same_root _ _ Hs0) in Hs1.
    unfold write, set_row, route, on_root in Ha. change (parse_lobby_key MIGRATIONS_TABLE) with (@None (Bytes * Bytes)) in Ha. cbn iota in Ha.
    destruct (write_row_unlocked _ _ _ _ _) as [[d|e] [s1 f1]] eqn:Ew; [|done]. injection Ha as <-. eexists.
    apply write_row_read in Ew; [exact Ew|lia|done|apply applied_row_storable; by apply Hver|done]. }
  destruct Hr as [v Hr]. unfold apply_migration_str, mbind, tx_bind, read, row_of in *.
  pose proof (get_row_same MIGRATIONS_TABLE filename ts') as Hs. destruct (get_row _ _ ts') as [r ts2]. cbn in Hr, Hs. subst r.
  by exists ts2.
Qed.
End Facts.

(** ** Witnesses *)

#[local] Existing Instances demo_serde demo_laws.

Definition demo_rename : MigrationStep :=
  {| step_table := bs "t"; op := bs "rename_field"; field := None; default_value := None;
     old_field := Some (bs "score"); new_field := Some (bs "points") |}.
Definition demo_add_score : MigrationStep :=
  {| step_table := bs "t"; op := bs "add_field"; field := Some (bs "score"); default_value := Some (Num (PosInt 0));
     old_field := None; new_field := None |}.
Definition demo_unknown : MigrationStep :=
  {| step_table := bs "t"; op := bs "drop"; field := None; default_value := None; old_field := None; new_field := None |}.

Lemma migration_step_exact_witness :
  row_of (snd (apply_steps 1000 [demo_rename] demo_t3)) (bs "t") (bs "a")
  = Ok (Some (Object [(bs "points", Num (PosInt 10)); (bs "row_key", Str (bs "a"))])).
Proof.
  set (r := apply_steps 1000 [demo_rename] demo_t3). assert (Hr : r = (Ok tt, snd r)) by by vm_compute.
  assert (Hl : exists l, fst (rows_of (bs "t") demo_t3) = Ok l /\ (bs "a", Object [(bs "row_key", Str (bs "a")); (bs "score", Num (PosInt 10))]) ∈ l
    /\ Forall (fun kv => forall v', with_renamed (bs "score") (bs "points") kv.2 = Some v' -> inventory_ok v') l).
  { eexists. split; [vm_compute; reflexivity|]. split; [right; left|].
    do 2 (apply Forall_cons_2; [intros v' Hv; vm_compute in Hv; injection Hv as <-; split; [by vm_compute|by intros inv Hi; vm_compute in Hi]|]).
    apply Forall_nil_2. }
  destruct Hl as (l & Hl & Hin & Hok).
  refine (eq_trans (proj1 (migration_step_exact 1000 ltac:(by vm_compute) demo_rename (with_renamed (bs "score") (bs "points")) demo_t3 (snd r) l
    eq_refl eq_refl ltac:(split; [split; [apply Z.leb_le|apply Z.ltb_lt]|]; by vm_compute) Hl
    ltac:(intros k v v' Hkv; rewrite Forall_forall in Hok; exact (Hok _ Hkv v')) Hr) _ _ Hin) _).
  by vm_compute.
Defined.

(** A migration whose last step fails leaves the earlier ones applied and is not recorded; run
    again at the next start, the renaming overwrites the scores it had saved with the default. *)
Lemma failed_migration_repeats :
  let mig := {| mig_version := 1; description := None; steps := [demo_rename; demo_add_score; demo_unknown] |} in
  let points ts := match row_of ts (bs "t") (bs "a") with Ok (Some v) => get_field v (bs "points") | _ => None end in
  let '(r1, ts1) := apply_migration 1000 mig demo_t3 in
  let '(r2, ts2) := apply_migration 1000 mig ts1 in
  r1 = Err (InvalidArgument (bs "Unknown migration op 'drop'")) /\ points ts1 = Some (Num (PosInt 10)) /\
  points ts2 = Some (Num (PosInt 0)).
Proof. vm_compute. repeat split. Qed.
