(* ===== verification/Presence.v ===== *)
(** * Presence of connected users (src/presence.rs)

    Users by name, with heartbeats in milliseconds; the clock is an argument. A sweep takes
    the users that are late and then changes them, and others may act in between. The names it
    answers are in the order of the map. *)

From S2P Require Import Prelude Util Json.

Module Status.
Inductive PresenceStatus : Type := Online | Idle | Away | Custom (message : Bytes).
End Status.
Abbreviation PresenceStatus := Status.PresenceStatus.
#[export] Instance presence_status_eq : EqDecision PresenceStatus.
Proof. solve_decision. Defined.

Record PresenceEntry := {
  user_id : Bytes; status : PresenceStatus; last_heartbeat : Z; connected_at : Z; metadata : option Value }.

Record PresenceManager := {
  entries : gmap Bytes PresenceEntry; heartbeat_timeout_ms : Z; offline_timeout_ms : Z }.

Implicit Types (pm : PresenceManager) (u : Bytes).

Definition presence_new (heartbeat_timeout offline_timeout : Z) : PresenceManager :=
  {| entries := ∅; heartbeat_timeout_ms := heartbeat_timeout; offline_timeout_ms := offline_timeout |}.

Definition set_entries (m : gmap Bytes PresenceEntry) pm : PresenceManager :=
  {| entries := m; heartbeat_timeout_ms := heartbeat_timeout_ms pm; offline_timeout_ms := offline_timeout_ms pm |}.

(** [if let Some(mut entry) = self.entries.get_mut(user_id)] *)
Definition edit (u : Bytes) (f : PresenceEntry -> PresenceEntry) pm : PresenceManager := set_entries (alter f u (entries pm)) pm.

Definition with_status (s : PresenceStatus) (e : PresenceEntry) : PresenceEntry :=
  {| user_id := user_id e; status := s; last_heartbeat := last_heartbeat e; connected_at := connected_at e; metadata := metadata e |}.
Definition with_metadata (v : Value) (e : PresenceEntry) : PresenceEntry :=
  {| user_id := user_id e; status := status e; last_heartbeat := last_heartbeat e; connected_at := connected_at e; metadata := Some v |}.
Definition beat (now : Z) (e : PresenceEntry) : PresenceEntry :=
  {| user_id := user_id e; status := (if bool_decide (status e = Status.Idle) then Status.Online else status e);
     last_heartbeat := now; connected_at := connected_at e; metadata := metadata e |}.

Definition set_online_at u (now : Z) (meta : option Value) pm : PresenceManager :=
  set_entries (<[u := {| user_id := u; status := Status.Online; last_heartbeat := now; connected_at := now; metadata := meta |}]>
                 (entries pm)) pm.
Definition heartbeat_at u (now : Z) pm : PresenceManager := edit u (beat now) pm.
Definition set_status u (s : PresenceStatus) pm : PresenceManager := edit u (with_status s) pm.
Definition update_metadata u (v : Value) pm : PresenceManager := edit u (with_metadata v) pm.
Definition set_offline u pm : option PresenceEntry * PresenceManager :=
  (entries pm !! u, set_entries (delete u (entries pm)) pm).
Definition presence_get pm u : option PresenceEntry := entries pm !! u.
Definition online_users pm : list PresenceEntry := map snd (map_to_list (entries pm)).
Definition users_with_status pm (s : PresenceStatus) : list PresenceEntry :=
  List.filter (fun e => bool_decide (status e = s)) (online_users pm).
Definition presence_count pm : Z := Z.of_nat (size (entries pm)).

(** ** The sweep *)

(** [now_ms.saturating_sub(entry.last_heartbeat)] *)
Definition elapsed (now : Z) (e : PresenceEntry) : Z := Z.max 0 (now - last_heartbeat e).

Definition is_gone pm (now : Z) (e : PresenceEntry) : bool := offline_timeout_ms pm <=? elapsed now e.
Definition is_late pm (now : Z) (e : PresenceEntry) : bool :=
  negb (is_gone pm now e) && ((heartbeat_timeout_ms pm <=? elapsed now e) && bool_decide (status e = Status.Online)).

(** The first pass: whom to make idle and whom to remove. *)
Definition sweep_collect (now : Z) pm : list Bytes * list Bytes :=
  let es := online_users pm in
  (map user_id (List.filter (is_late pm now) es), map user_id (List.filter (is_gone pm now) es)).

Fixpoint remove_loop (l : list Bytes) pm (removed : list Bytes) : list Bytes * PresenceManager :=
  match l with
  | [] => (removed, pm)
  | u :: l' => match set_offline u pm with
               | (Some _, pm) => remove_loop l' pm (removed ++ [u])
               | (None, pm) => remove_loop l' pm removed
               end
  end.

Fixpoint idle_loop (l : list Bytes) pm (newly_idle : list Bytes) : list Bytes * PresenceManager :=
  match l with
  | [] => (newly_idle, pm)
  | u :: l' =>
      match entries pm !! u with
      | Some e => if bool_decide (status e = Status.Online) then idle_loop l' (set_status u Status.Idle pm) (newly_idle ++ [u])
                  else idle_loop l' pm newly_idle
      | None => idle_loop l' pm newly_idle
      end
  end.

(** The second pass, on the manager as it is by then. *)
Definition sweep_apply (late gone : list Bytes) pm : list Bytes * list Bytes * PresenceManager :=
  let '(removed, pm) := remove_loop gone pm [] in
  let '(newly_idle, pm) := idle_loop late pm [] in
  (newly_idle, removed, pm).

Definition sweep (now : Z) pm : list Bytes * list Bytes * PresenceManager :=
  let '(late, gone) := sweep_collect now pm in sweep_apply late gone pm.

(** ** What a sweep does *)

(** Every entry is under the name of its user. *)
Definition named pm : Prop := forall u e, entries pm !! u = Some e -> user_id e = u.

(** What becomes of an entry. *)
Definition swept pm (now : Z) (e : PresenceEntry) : option PresenceEntry :=
  if is_gone pm now e then None else if is_late pm now e then Some (with_status Status.Idle e) else Some e.

Lemma collected pm (P : PresenceEntry -> bool) : named pm ->
  let l := map user_id (List.filter P (online_users pm)) in
  NoDup l /\ forall u, u ∈ l <-> exists e, entries pm !! u = Some e /\ P e = true.
Proof.
  intros Hn. cbv zeta.
  assert (Hl : map user_id (List.filter P (online_users pm)) = map fst (List.filter (fun kv => P kv.2) (map_to_list (entries pm)))).
  { unfold online_users. assert (Hk : forall kv, kv ∈ map_to_list (entries pm) -> user_id kv.2 = kv.1)
      by (intros [u e] ?%elem_of_map_to_list; by apply Hn).
    revert Hk. induction (map_to_list (entries pm)) as [|[u e] l IH]; intros Hk; [done|]. cbn.
    destruct (P e); cbn; [|apply IH; intros kv ?; apply Hk; by right].
    f_equal; [exact (Hk (u, e) ltac:(by left))|apply IH; intros kv ?; apply Hk; by right]. }
  rewrite Hl. split.
  - pose proof (NoDup_fst_map_to_list (entries pm)) as Hd. revert Hd. generalize (map_to_list (entries pm)) as l.
    induction l as [|[u e] l IH]; [done|]. cbn. intros [Hu Hd]%NoDup_cons. destruct (P e); cbn; [|by apply IH].
    constructor; [|by apply IH]. intros (x & E & Hx)%list_elem_of_fmap. apply Hu, list_elem_of_fmap. exists x.
    split; [done|]. apply list_elem_of_In, filter_In in Hx as [Hx _]. by apply list_elem_of_In.
  - intros u. rewrite list_elem_of_fmap. split.
    + intros ([u' e] & -> & Hx). apply list_elem_of_In, filter_In in Hx as [Hx HP]. exists e. split; [|done].
      by apply list_elem_of_In, elem_of_map_to_list in Hx.
    + intros (e & He & HP). exists (u, e). split; [done|]. apply list_elem_of_In, filter_In. split; [|done].
      by apply list_elem_of_In, elem_of_map_to_list.
Qed.

Lemma remove_loop_spec l : forall pm acc, NoDup l -> (forall u, u ∈ l -> is_Some (entries pm !! u)) ->
  remove_loop l pm acc = (acc ++ l, set_entries (filter (fun kv => kv.1 ∉ l) (entries pm)) pm).
Proof.
  induction l as [|u l IH]; intros pm acc Hd Hl.
  { cbn. rewrite app_nil_r. f_equal. destruct pm as [m h o]. unfold set_entries. cbn. f_equal. symmetry.
    apply map_filter_id. intros ? ? _. cbn. apply not_elem_of_nil. }
  apply NoDup_cons in Hd as [Hu Hd]. cbn [remove_loop]. unfold set_offline. destruct (Hl u ltac:(left)) as [e He]. rewrite He.
  rewrite IH; [|done|].
  - rewrite <- app_assoc. f_equal. unfold set_entries. cbn. f_equal. apply map_eq. intros k.
    apply option_eq. intros x. rewrite !map_lookup_filter_Some. cbn. rewrite lookup_delete_Some, not_elem_of_cons. naive_solver.
  - intros k Hk. cbn. rewrite lookup_delete_ne by (intros ->; done). apply Hl. by right.
Qed.

Lemma idle_loop_spec l : forall pm acc, NoDup l ->
  (forall u, u ∈ l -> exists e, entries pm !! u = Some e /\ status e = Status.Online) ->
  exists pm', idle_loop l pm acc = (acc ++ l, pm') /\
    forall u, entries pm' !! u = if decide (u ∈ l) then with_status Status.Idle <$> entries pm !! u else entries pm !! u.
Proof.
  induction l as [|u l IH]; intros pm acc Hd Hl.
  { exists pm. cbn. rewrite app_nil_r. split; [done|]. intros u. rewrite decide_False; [done|]. apply not_elem_of_nil. }
  apply NoDup_cons in Hd as [Hu Hd]. cbn [idle_loop]. destruct (Hl u ltac:(left)) as (e & He & Hs). rewrite He, bool_decide_eq_true_2 by done.
  destruct (IH (set_status u Status.Idle pm) (acc ++ [u]) Hd) as (pm' & Hp & He').
  { intros k Hk. destruct (Hl k ltac:(by right)) as (e' & ? & ?). exists e'. split; [|done]. cbn.
    rewrite lookup_alter_ne by (intros ->; done). done. }
  exists pm'. rewrite Hp, <- app_assoc. split; [done|]. intros k. rewrite He'. cbn. destruct (decide (k = u)) as [->|Hne].
  - rewrite decide_False by done. rewrite decide_True by left. by rewrite lookup_alter_eq.
  - rewrite lookup_alter_ne by done. destruct (decide (k ∈ l)).
    + rewrite decide_True by (by right). done.
    + rewrite decide_False; [done|]. rewrite not_elem_of_cons. done.
Qed.

(** A sweep that nobody interrupts does to each user what his heartbeat asks for: gone
    after the offline timeout, idle when late and still online, otherwise as he was; and it
    names exactly the users it removed and those it made idle, each once. *)
Theorem sweep_exact (now : Z) pm : named pm ->
  let '(newly_idle, removed, pm') := sweep now pm in
  (forall u, entries pm' !! u = entries pm !! u ≫= swept pm now) /\
  NoDup newly_idle /\ NoDup removed /\
  (forall u, u ∈ removed <-> exists e, entries pm !! u = Some e /\ is_gone pm now e = true) /\
  (forall u, u ∈ newly_idle <-> exists e, entries pm !! u = Some e /\ is_late pm now e = true).
Proof.
  intros Hn. unfold sweep, sweep_collect, sweep_apply.
  destruct (collected pm (is_gone pm now) Hn) as [Hdg Hg]. destruct (collected pm (is_late pm now) Hn) as [Hdl Hl].
  set (gone := map user_id (List.filter (is_gone pm now) _)) in *. set (late := map user_id (List.filter (is_late pm now) _)) in *.
  rewrite remove_loop_spec; [|done|intros u (e & He & _)%Hg; by exists e]. cbn [app].
  destruct (idle_loop_spec late (set_entries (filter (fun kv => kv.1 ∉ gone) (entries pm)) pm) [] Hdl) as (pm' & -> & He).
  { intros u (e & He & Hlate)%Hl. exists e. unfold is_late in Hlate. apply andb_true_iff in Hlate as [Hng Ho%andb_true_iff].
    destruct Ho as [_ Ho%bool_decide_eq_true]. split; [|done]. cbn. apply map_lookup_filter_Some. split; [done|]. cbn.
    intros (e' & He' & Hgone)%Hg. assert (e' = e) as -> by congruence. by rewrite Hgone in Hng. }
  cbn [app]. split_and!; [|done..]. intros u. rewrite He. cbn. unfold swept. destruct (entries pm !! u) as [e|] eqn:Eu; cbn.
  - destruct (is_gone pm now e) eqn:Eg.
    + assert (Hug : u ∈ gone) by (apply Hg; by exists e).
      rewrite decide_False; [apply map_lookup_filter_None; right; cbn; by intros ? _ []|].
      intros (e' & He' & Hlate)%Hl. assert (e' = e) as -> by congruence. unfold is_late in Hlate. by rewrite Eg in Hlate.
    + assert (Hk : filter (fun kv : Bytes * PresenceEntry => kv.1 ∉ gone) (entries pm) !! u = Some e).
      { apply map_lookup_filter_Some. split; [done|]. cbn. intros (e' & He' & Hgone)%Hg. congruence. }
      rewrite Hk. destruct (is_late pm now e) eqn:El.
      * rewrite decide_True by (apply Hl; by exists e). done.
      * rewrite decide_False; [done|]. intros (e' & He' & Hlate)%Hl. congruence.
  - assert (Hk : filter (fun kv : Bytes * PresenceEntry => kv.1 ∉ gone) (entries pm) !! u = None)
      by (apply map_lookup_filter_None; by left).
    rewrite Hk. by case_decide.
Qed.

(** ** Users who keep beating *)

Inductive Event : Type :=
| Connect (u : Bytes) (now : Z) (meta : option Value)
| Heartbeat (u : Bytes) (now : Z)
| SetStatus (u : Bytes) (s : PresenceStatus)
| SetMetadata (u : Bytes) (v : Value)
| Disconnect (u : Bytes)
| Sweep (now : Z).

Definition act (ev : Event) pm : PresenceManager :=
  match ev with
  | Connect u now meta => set_online_at u now meta pm
  | Heartbeat u now => heartbeat_at u now pm
  | SetStatus u s => set_status u s pm
  | SetMetadata u v => update_metadata u v pm
  | Disconnect u => snd (set_offline u pm)
  | Sweep now => snd (sweep now pm)
  end.

(** From the last sign of life at [last] on, no sweep comes as late as the heartbeat timeout;
    others do not take the user offline nor set him idle. *)
Fixpoint prompt (timeout : Z) (u : Bytes) (last : Z) (evs : list Event) : Prop :=
  match evs with
  | [] => True
  | Connect u' now _ :: evs | Heartbeat u' now :: evs => prompt timeout u (if decide (u' = u) then now else last) evs
  | SetStatus u' s :: evs => (u' = u -> s <> Status.Idle) /\ prompt timeout u last evs
  | Disconnect u' :: evs => u' <> u /\ prompt timeout u last evs
  | Sweep now :: evs => now - last < timeout /\ prompt timeout u last evs
  | SetMetadata _ _ :: evs => prompt timeout u last evs
  end.

Definition alive_at pm u (last : Z) : Prop :=
  exists e, entries pm !! u = Some e /\ status e <> Status.Idle /\ last_heartbeat e = last.

Lemma named_edit pm u f : named pm -> (forall e, user_id (f e) = user_id e) -> named (edit u f pm).
Proof.
  intros Hn Hf k e. cbn. rewrite lookup_alter_Some. intros [(-> & e' & He & ->)|[? He]]; [rewrite Hf|]; by apply Hn.
Qed.

Lemma named_act ev pm : named pm -> named (act ev pm).
Proof.
  intros Hn. destruct ev as [u now meta|u now|u s|u v|u|now]; cbn [act].
  - intros k e. cbn. rewrite lookup_insert_Some. intros [[<- <-]|[_ ?]]; [done|by apply Hn].
  - by apply named_edit.
  - by apply named_edit.
  - by apply named_edit.
  - intros k e. cbn. rewrite lookup_delete_Some. intros [_ ?]. by apply Hn.
  - pose proof (sweep_exact now pm Hn) as Hs. destruct (sweep now pm) as [[ni rm] pm']. destruct Hs as [He _].
    intros k e. cbn. rewrite He. destruct (entries pm !! k) as [e0|] eqn:E; [|done]. cbn. unfold swept.
    destruct (is_gone pm now e0); [done|]. destruct (is_late pm now e0); intros [= <-]; by apply Hn in E.
Qed.

(** An event of another user, or one that only changes what the entry says besides. *)
Lemma alive_edit pm u u' last f : alive_at pm u last -> (u' = u -> forall e, status e <> Status.Idle ->
  status (f e) <> Status.Idle /\ last_heartbeat (f e) = last_heartbeat e) -> alive_at (edit u' f pm) u last.
Proof.
  intros (e & He & Hs & Hl) Hf. unfold alive_at. cbn. destruct (decide (u = u')) as [->|Hne].
  - rewrite lookup_alter_eq, He. destruct (Hf eq_refl e Hs) as [? ?]. exists (f e). by rewrite <- Hl.
  - rewrite lookup_alter_ne by done. by exists e.
Qed.

Lemma alive_sweep pm u last now : named pm -> 0 < heartbeat_timeout_ms pm <= offline_timeout_ms pm ->
  now - last < heartbeat_timeout_ms pm -> alive_at pm u last -> alive_at (snd (sweep now pm)) u last.
Proof.
  intros Hn Ht Hnow (e & He & Hs & Hl). pose proof (sweep_exact now pm Hn) as Hx. destruct (sweep now pm) as [[ni rm] pm'].
  destruct Hx as [Hx _]. exists e. split; [|done]. cbn. rewrite Hx, He. cbn. unfold swept, is_late, is_gone, elapsed.
  rewrite !zle_false by lia. done.
Qed.

Lemma sweep_timeouts now pm : heartbeat_timeout_ms (snd (sweep now pm)) = heartbeat_timeout_ms pm /\
  offline_timeout_ms (snd (sweep now pm)) = offline_timeout_ms pm.
Proof.
  unfold sweep, sweep_collect, sweep_apply. generalize (map user_id (List.filter (is_late pm now) (online_users pm))) as late.
  generalize (map user_id (List.filter (is_gone pm now) (online_users pm))) as gone. intros gone late.
  assert (Hr : forall l pm0 acc, heartbeat_timeout_ms (snd (remove_loop l pm0 acc)) = heartbeat_timeout_ms pm0 /\
    offline_timeout_ms (snd (remove_loop l pm0 acc)) = offline_timeout_ms pm0).
  { induction l as [|u l IH]; intros pm0 acc; [done|]. cbn [remove_loop]. unfold set_offline.
    destruct (entries pm0 !! u); apply (IH (set_entries _ pm0)). }
  assert (Hi : forall l pm0 acc, heartbeat_timeout_ms (snd (idle_loop l pm0 acc)) = heartbeat_timeout_ms pm0 /\
    offline_timeout_ms (snd (idle_loop l pm0 acc)) = offline_timeout_ms pm0).
  { induction l as [|u l IH]; intros pm0 acc; [done|]. cbn [idle_loop].
    destruct (entries pm0 !! u); [|apply IH]. case_bool_decide; [apply (IH (set_status u Status.Idle pm0))|apply IH]. }
  specialize (Hr gone pm []). destruct (remove_loop gone pm []) as [rm pm1]. cbn [snd] in Hr.
  specialize (Hi late pm1 []). destruct (idle_loop late pm1 []) as [ni pm2]. cbn [snd] in *. intuition congruence.
Qed.

(** A user who gives a sign of life more often than the heartbeat timeout is neither set idle
    nor removed by the sweeps, whatever other users do. *)
Theorem heartbeats_keep_online u evs : forall pm last, named pm -> 0 < heartbeat_timeout_ms pm <= offline_timeout_ms pm ->
  alive_at pm u last -> prompt (heartbeat_timeout_ms pm) u last evs ->
  exists last', alive_at (foldl (fun pm ev => act ev pm) pm evs) u last'.
Proof.
  induction evs as [|ev evs IH]; intros pm last Hn Ht Ha Hp; [by exists last|]. cbn [foldl].
  assert (Hto : heartbeat_timeout_ms (act ev pm) = heartbeat_timeout_ms pm /\ offline_timeout_ms (act ev pm) = offline_timeout_ms pm)
    by (destruct ev; try done; apply sweep_timeouts).
  destruct Hto as [Hh Ho]. assert (Hn' := named_act ev pm Hn).
  assert (Hgo : forall last', alive_at (act ev pm) u last' -> prompt (heartbeat_timeout_ms pm) u last' evs ->
    exists l, alive_at (foldl (fun pm ev => act ev pm) (act ev pm) evs) u l)
    by (intros last' ? ?; apply (IH (act ev pm) last'); [done|by rewrite Hh, Ho|done|by rewrite Hh]).
  destruct ev as [u' now meta|u' now|u' s|u' v|u'|now]; cbn [prompt] in Hp; cbn [act] in *.
  - apply (Hgo _ ) in Hp; [done|]. case_decide as E; [subst u'|].
    + eexists. cbn. rewrite lookup_insert_eq. by split_and!.
    + destruct Ha as (e & He & ?). exists e. cbn. by rewrite lookup_insert_ne.
  - apply (Hgo _ ) in Hp; [done|]. case_decide as E; [subst u'|by apply alive_edit].
    destruct Ha as (e & He & Hs & Hl). eexists. cbn. rewrite lookup_alter_eq, He. split; [done|].
    unfold beat. cbn. by rewrite bool_decide_eq_false_2.
  - destruct Hp as [Hs Hp]. apply (Hgo last); [|done]. apply alive_edit; [done|]. intros -> e He. cbn. split; [by apply Hs|done].
  - apply (Hgo last); [|done]. by apply alive_edit.
  - destruct Hp as [Hne Hp]. apply (Hgo last); [|done]. destruct Ha as (e & He & ?). exists e. cbn. by rewrite lookup_delete_ne.
  - destruct Hp as [Hnow Hp]. apply (Hgo last); [|done]. by apply alive_sweep.
Qed.

(** A heartbeat between the two passes of a sweep comes too late: the user is removed just
    after it, unlike one who was to be made idle, whose status is looked at again. *)
Lemma sweep_removes_beating_user :
  let a := bs "a" in
  let pm := set_online_at a 1000 None (presence_new 5000 15000) in
  let '(late, gone) := sweep_collect 20000 pm in
  let pm := heartbeat_at a 20000 pm in
  let '(_, removed, pm') := sweep_apply late gone pm in
  removed = [a] /\ presence_get pm' a = None.
Proof. vm_compute. split; reflexivity. Qed.
