(* ===== verification/Parsing.v ===== *)
(** * Parsers as functions of their input

    What the recursive-descent parsers share. A parser answers with what it read and what is
    left of its input, with an error, or, where the model's fuel ends, with neither. *)

From S2P Require Import Prelude.

Section Parsers.
Context {Input E : Type}.

Inductive presult (A : Type) : Type :=
| Done (a : A) (rest : Input)
| Fail (e : E)
| OutOfFuel.
#[global] Arguments Done {A}.
#[global] Arguments Fail {A}.
#[global] Arguments OutOfFuel {A}.

Definition parser (A : Type) : Type := Input -> presult A.

Definition pret {A} (a : A) : parser A := fun s => Done a s.
Definition pbind {A B} (p : parser A) (f : A -> parser B) : parser B :=
  fun s => match p s with Done a r => f a r | Fail e => Fail e | OutOfFuel => OutOfFuel end.

(** What a parser reads. *)
Definition reads {A} (p : parser A) (s : Input) (a : A) (r : Input) : Prop := p s = Done a r.

Lemma reads_ret {A} (a : A) s : reads (pret a) s a s.
Proof. done. Qed.

Lemma reads_bind {A B} (p : parser A) (f : A -> parser B) s a r b r' :
  reads p s a r -> reads (f a) r b r' -> reads (pbind p f) s b r'.
Proof. unfold reads, pbind. by intros ->. Qed.
End Parsers.

Arguments presult : clear implicits.
Arguments parser : clear implicits.

Declare Scope parser_scope.
Notation "'let*' x := p 'in' q" := (pbind p (fun x => q))
  (at level 10, x name, p at level 100, q at level 200) : parser_scope.
