(* ===== verification/FloatBits.v ===== *)
(** * The bits of a float

    [f64::to_bits] and [from_bits] on the one NaN of the model, and the sortable form of the
    bits: the order of the unsigned integers is the total order of the floats. *)

From S2P Require Import Prelude Util ZSet Table.
From Stdlib Require Import SpecFloat.

Definition BIT63 : Z := 2 ^ 63.

(** The bits but the sign. *)
Definition magnitude (f : f64) : Z :=
  match f with
  | S754_zero _ => 0
  | S754_finite _ m e => (e + 1074) * 2 ^ 52 + Zpos m
  | S754_infinity _ => 2047 * 2 ^ 52
  | S754_nan => 2047 * 2 ^ 52 + 2 ^ 51
  end.

Definition sign_of (f : f64) : bool :=
  match f with S754_zero s | S754_finite s _ _ | S754_infinity s => s | S754_nan => false end.

Definition to_bits (f : f64) : Z := (if sign_of f then BIT63 else 0) + magnitude f.

Definition from_bits (b : Z) : f64 :=
  let s := Z.testbit b 63 in
  let ef := b / 2 ^ 52 mod 2 ^ 11 in
  let mant := b mod 2 ^ 52 in
  if ef =? 2047 then if mant =? 0 then S754_infinity s else S754_nan
  else if ef =? 0 then match mant with Zpos m => S754_finite s m (-1074) | _ => S754_zero s end
  else match mant + 2 ^ 52 with Zpos m => S754_finite s m (ef - 1075) | _ => S754_zero s end.

(** [!x] on 64 bits. *)
Definition u64_not (x : Z) : Z := Z.lxor x (U64 - 1).

(** ** Bit operations as arithmetic *)

Lemma testbit_63 x : 0 <= x < 2 ^ 64 -> Z.testbit x 63 = (2 ^ 63 <=? x).
Proof.
  intros Hx. rewrite Z.testbit_odd, Z.shiftr_div_pow2 by lia.
  destruct (Z.leb_spec (2 ^ 63) x).
  - assert (x / 2 ^ 63 = 1) as -> by (symmetry; apply Z.div_unique with (x - 2 ^ 63); lia). done.
  - by rewrite Z.div_small by lia.
Qed.

Lemma land_bit63 x : 0 <= x < 2 ^ 64 -> (Z.land x BIT63 =? 0) = negb (2 ^ 63 <=? x).
Proof.
  intros Hx. rewrite <- testbit_63 by done. unfold BIT63.
  assert (E : Z.land x (2 ^ 63) = if Z.testbit x 63 then 2 ^ 63 else 0).
  { apply Z.bits_inj'. intros n Hn. rewrite Z.land_spec. destruct (Z.eq_dec n 63) as [->|Hne].
    - rewrite Z.pow2_bits_true by lia. rewrite andb_true_r.
      destruct (Z.testbit x 63) eqn:E; [by rewrite Z.pow2_bits_true by lia|by rewrite Z.testbit_0_l].
    - rewrite Z.pow2_bits_false by lia. rewrite andb_false_r.
      destruct (Z.testbit x 63); [by rewrite Z.pow2_bits_false by lia|by rewrite Z.testbit_0_l]. }
  rewrite E. by destruct (Z.testbit x 63).
Qed.

(** Flipping the high bit. *)
Lemma lxor_high x : 0 <= x < 2 ^ 63 -> Z.lxor x (2 ^ 63) = 2 ^ 63 + x.
Proof.
  intros Hx. rewrite (Z.add_comm (2 ^ 63)). symmetry. apply Z.add_nocarry_lxor.
  apply Z.bits_inj'. intros n Hn. rewrite Z.land_spec, Z.testbit_0_l.
  destruct (Z.eq_dec n 63) as [->|]; [|by rewrite Z.pow2_bits_false, andb_false_r by lia].
  rewrite testbit_63 by lia. by rewrite zle_false by lia.
Qed.

Lemma lxor_low x : 0 <= x < 2 ^ 63 -> Z.lxor (2 ^ 63 + x) (2 ^ 63) = x.
Proof.
  intros Hx. rewrite <- lxor_high by done. by rewrite Z.lxor_assoc, Z.lxor_nilpotent, Z.lxor_0_r.
Qed.

Lemma high_bits x n : 0 <= x < 2 ^ 64 -> 64 <= n -> Z.testbit x n = false.
Proof.
  intros Hx Hn. destruct (Z.eq_dec x 0) as [->|]; [by rewrite Z.testbit_0_l|].
  apply Z.bits_above_log2; [lia|]. apply Z.lt_le_trans with 64; [|done]. apply Z.log2_lt_pow2; lia.
Qed.

Lemma u64_not_sub x : 0 <= x < 2 ^ 64 -> u64_not x = 2 ^ 64 - 1 - x.
Proof.
  intros Hx. unfold u64_not, U64. replace (2 ^ 64 - 1) with (Z.ones 64) by done.
  rewrite Z.sub_nocarry_ldiff; apply Z.bits_inj'; intros n Hn; rewrite ?Z.lxor_spec, Z.ldiff_spec.
  - destruct (Z.lt_ge_cases n 64).
    + rewrite Z.ones_spec_low by lia. by destruct (Z.testbit x n).
    + by rewrite Z.ones_spec_high, high_bits by lia.
  - rewrite Z.testbit_0_l. destruct (Z.lt_ge_cases n 64).
    + rewrite Z.ones_spec_low by lia. by rewrite andb_false_r.
    + by rewrite high_bits by lia.
Qed.

(** ** Floats of the format *)

(** A binary64. *)
Definition f64_ok (f : f64) : Prop := valid_binary prec emax f = true.

Lemma digits2_bound m : Zpos m < 2 ^ Zpos (digits2_pos m) <= 2 * Zpos m.
Proof.
  induction m as [m IH|m IH|]; cbn [digits2_pos]; [..|done];
    rewrite Pos2Z.inj_succ, Z.pow_succ_r by lia; lia.
Qed.

(** A finite one is normal, or has the least exponent. *)
Lemma finite_ok s m e : f64_ok (S754_finite s m e) ->
  -1074 <= e <= 971 /\ Zpos m < 2 ^ 53 /\ (e = -1074 \/ 2 ^ 52 <= Zpos m).
Proof.
  unfold f64_ok, valid_binary, bounded, canonical_mantissa, fexp, emin, prec, emax.
  rewrite andb_true_iff, Z.eqb_eq, Z.leb_le. intros [He Hmax]. pose proof (digits2_bound m) as [Hlo Hhi].
  set (d := Zpos (digits2_pos m)) in *. assert (Hd : 0 < d) by lia.
  split; [lia|]. split.
  - apply Z.lt_le_trans with (2 ^ d); [done|]. apply Z.pow_le_mono_r; lia.
  - destruct (Z.eq_dec e (-1074)) as [|Hne]; [by left|right]. assert (d = 53) as E by lia. rewrite E in *. lia.
Qed.

Lemma magnitude_range f : f64_ok f -> 0 <= magnitude f < 2 ^ 63.
Proof.
  intros Hf. destruct f as [s|s| |s m e]; cbn; [lia..|]. apply finite_ok in Hf as (He & Hm & _). lia.
Qed.

Lemma to_bits_range f : f64_ok f -> 0 <= to_bits f < 2 ^ 64.
Proof. intros Hf%magnitude_range. unfold to_bits, BIT63. destruct (sign_of f); lia. Qed.

(** ** The bits determine the float *)

Lemma to_from_bits f : f64_ok f -> from_bits (to_bits f) = f.
Proof.
  intros Hf. pose proof (to_bits_range f Hf) as Hr. pose proof (magnitude_range f Hf) as Hm.
  unfold from_bits. rewrite testbit_63 by done.
  assert (Hs : (2 ^ 63 <=? to_bits f) = sign_of f).
  { unfold to_bits, BIT63. destruct (sign_of f); [apply Z.leb_le|apply Z.leb_gt]; lia. }
  rewrite Hs.
  assert (Hmant : to_bits f mod 2 ^ 52 = magnitude f mod 2 ^ 52).
  { unfold to_bits, BIT63. destruct (sign_of f); [|done].
    rewrite Z.add_comm. change (2 ^ 63) with (2 ^ 11 * 2 ^ 52). apply Z_mod_plus_full. }
  assert (Hexp : to_bits f / 2 ^ 52 mod 2 ^ 11 = magnitude f / 2 ^ 52).
  { assert (0 <= magnitude f / 2 ^ 52 < 2 ^ 11) by (split; [apply Z.div_pos|apply Z.div_lt_upper_bound]; lia).
    unfold to_bits, BIT63. destruct (sign_of f); [|by rewrite Z.add_0_l, Z.mod_small].
    rewrite Z.add_comm. change (2 ^ 63) with (2 ^ 11 * 2 ^ 52). rewrite Z.div_add by lia.
    rewrite <- Zplus_mod_idemp_r, Z_mod_same_full, Z.add_0_r. by apply Z.mod_small. }
  rewrite Hmant, Hexp. destruct f as [s|s| |s m e]; [done..|].
  apply finite_ok in Hf as (He & Hm53 & Hn). cbn [magnitude sign_of].
  assert (Hcase : Zpos m < 2 ^ 52 \/ 2 ^ 52 <= Zpos m) by lia. destruct Hcase as [Hlt|Hge].
  - destruct Hn as [->|]; [|lia]. change ((-1074 + 1074) * 2 ^ 52 + Zpos m) with (Zpos m).
    rewrite Z.div_small, Z.mod_small by lia. done.
  - assert (E : (e + 1074) * 2 ^ 52 + Zpos m = (Zpos m - 2 ^ 52) + (e + 1075) * 2 ^ 52) by ring.
    rewrite E, Z.div_add, Z_mod_plus_full, Z.div_small, Z.mod_small, Z.add_0_l by lia.
    rewrite !zeq_false by lia. replace (Zpos m - 2 ^ 52 + 2 ^ 52) with (Zpos m) by ring.
    f_equal. lia.
Qed.

(** ** The order of the bits *)

(** The bits, sign flipped or all flipped, so that they sort. *)
Definition sortable (f : f64) : Z := if sign_of f then 2 ^ 63 - 1 - magnitude f else 2 ^ 63 + magnitude f.

Lemma mag_lex e1 m1 e2 m2 s1 s2 : f64_ok (S754_finite s1 m1 e1) -> f64_ok (S754_finite s2 m2 e2) ->
  ((e1 + 1074) * 2 ^ 52 + Zpos m1 <? (e2 + 1074) * 2 ^ 52 + Zpos m2)
  = if e1 =? e2 then Zpos m1 <? Zpos m2 else e1 <? e2.
Proof.
  intros (He1 & Hm1 & Hn1)%finite_ok (He2 & Hm2 & Hn2)%finite_ok.
  destruct (Z.eqb_spec e1 e2) as [->|Hne].
  - destruct (Z.ltb_spec (Zpos m1) (Zpos m2)); [apply Z.ltb_lt|apply Z.ltb_ge]; lia.
  - destruct (Z.ltb_spec e1 e2); [apply Z.ltb_lt|apply Z.ltb_ge]; lia.
Qed.

Lemma sortable_order f g : f64_ok f -> f64_ok g -> (sortable f <? sortable g) = total_ltb f g.
Proof.
  intros Hf Hg. pose proof (magnitude_range f Hf) as Mf. pose proof (magnitude_range g Hg) as Mg.
  assert (Hsub : forall a b, (2 ^ 63 - 1 - a <? 2 ^ 63 - 1 - b) = (b <? a)).
  { intros a b. destruct (Z.ltb_spec b a); [apply Z.ltb_lt|apply Z.ltb_ge]; lia. }
  assert (Hadd : forall a b, (2 ^ 63 + a <? 2 ^ 63 + b) = (a <? b)).
  { intros a b. destruct (Z.ltb_spec a b); [apply Z.ltb_lt|apply Z.ltb_ge]; lia. }
  unfold sortable, total_ltb, score_ltb.
  destruct f as [s|s| |s m e], g as [t|t| |t n d]; try (destruct s); try (destruct t);
    cbn [sign_of]; rewrite ?Hsub, ?Hadd; try reflexivity;
    try (pose proof (finite_ok _ _ _ Hf) as (? & ? & ?)); try (pose proof (finite_ok _ _ _ Hg) as (? & ? & ?));
    cbn [magnitude score_key key_ltb];
    try (apply Z.ltb_lt; lia); try (apply Z.ltb_ge; lia);
    cbn -[Z.mul Z.add Z.pow Z.ltb Z.opp Z.eqb].
  all: try (apply Z.ltb_lt; lia); try (apply Z.ltb_ge; lia).
  all: erewrite mag_lex by eassumption.
  all: repeat match goal with |- context [?u =? ?v] => destruct (Z.eqb_spec u v) end; subst; try lia.
  all: try done.
  all: repeat match goal with |- context [?u <? ?v] => destruct (Z.ltb_spec u v) end; try lia; done.
Qed.

(** ** Comparison *)

Lemma SFcompare_swap a b : SFcompare b a = CompOpp <$> SFcompare a b.
Proof.
  destruct a as [[]|[]| |[] m e], b as [[]|[]| |[] n d]; try reflexivity; cbn [SFcompare fmap option_fmap option_map];
    change (Pos.compare_cont Eq n m) with (n ?= m)%positive;
    change (Pos.compare_cont Eq m n) with (m ?= n)%positive;
    rewrite (Z.compare_antisym e d), (Pos.compare_antisym m n); destruct (e ?= d); cbn; try done;
    by destruct (m ?= n)%positive.
Qed.

(** ** Integers of 53 bits are exact *)

Lemma iter_xO m n : digits2_pos (Pos.iter xO m n) = (digits2_pos m + n)%positive /\ Zpos (Pos.iter xO m n) = Zpos m * 2 ^ Zpos n.
Proof.
  induction n as [|n [IH1 IH2]] using Pos.peano_ind; [cbn; lia|]. rewrite Pos.iter_succ. cbn [digits2_pos]. rewrite IH1.
  rewrite Pos2Z.inj_succ, Z.pow_succ_r, Pos2Z.inj_xO, IH2 by lia. split; [lia|ring].
Qed.

Lemma round_int s p : Zpos p < 2 ^ 53 -> exists q,
  binary_round prec emax s p 0 = S754_finite s q (Zpos (digits2_pos p) - 53) /\ Zpos q = Zpos p * 2 ^ (53 - Zpos (digits2_pos p)).
Proof.
  intros Hp. set (d := Zpos (digits2_pos p)). pose proof (digits2_bound p) as [Hlo Hhi]. fold d in Hlo, Hhi.
  assert (Hd : 1 <= d <= 53).
  { split; [lia|]. assert (Hlt : ~ 53 <= d - 1); [|lia]. intros Hge. apply (Z.pow_le_mono_r 2) in Hge; [|lia].
    replace d with (Z.succ (d - 1)) in Hhi by lia. rewrite Z.pow_succ_r in Hhi by lia. lia. }
  assert (Hq : exists q, shl_align p 0 (fexp prec emax (d + 0)) = (q, d - 53) /\ Zpos q = Zpos p * 2 ^ (53 - d) /\ Zpos (digits2_pos q) = 53).
  { unfold fexp, emin, prec, emax. replace (Z.max (d + 0 - 53) (3 - 1024 - 53)) with (d - 53) by lia. unfold shl_align. rewrite Z.sub_0_r.
    destruct (d - 53) as [|e|e] eqn:E; [|lia|].
    - exists p. split; [done|]. replace (53 - d) with 0 by lia. split; [lia|]. fold d. lia.
    - exists (Pos.iter xO p e). destruct (iter_xO p e) as [H1 H2]. split; [done|]. rewrite H2. replace (53 - d) with (Zpos e) by lia.
      split; [done|]. rewrite H1, Pos2Z.inj_add. fold d. lia. }
  destruct Hq as (q & Hs & Hv & Hdq). exists q. split; [|done]. unfold binary_round. fold d. rewrite Hs.
  assert (Hsh : shr_fexp prec emax (Zpos q) (d - 53) loc_Exact = (Build_shr_record (Zpos q) false false, d - 53)).
  { unfold shr_fexp. cbn [Zdigits2]. rewrite Hdq. unfold fexp, emin, prec, emax.
    replace (Z.max (53 + (d - 53) - 53) (3 - 1024 - 53) - (d - 53)) with 0 by lia. done. }
  unfold binary_round_aux. rewrite Hsh. cbn [shr_m loc_of_shr_record round_nearest_even]. rewrite Hsh. cbn [shr_m].
  unfold prec, emax. by rewrite zle_true by lia.
Qed.

Lemma int_order p1 p2 q1 q2 : Zpos p1 < 2 ^ 53 -> Zpos p2 < 2 ^ 53 ->
  Zpos q1 = Zpos p1 * 2 ^ (53 - Zpos (digits2_pos p1)) -> Zpos q2 = Zpos p2 * 2 ^ (53 - Zpos (digits2_pos p2)) ->
  match Zpos (digits2_pos p1) - 53 ?= Zpos (digits2_pos p2) - 53 with Lt => Lt | Gt => Gt | Eq => Pos.compare_cont Eq q1 q2 end
  = (Zpos p1 ?= Zpos p2).
Proof.
  intros H1 H2 E1 E2. pose proof (digits2_bound p1) as [L1 U1]. pose proof (digits2_bound p2) as [L2 U2].
  set (d1 := Zpos (digits2_pos p1)) in *. set (d2 := Zpos (digits2_pos p2)) in *.
  assert (Hmono : forall a b, 0 <= a < b -> 2 * 2 ^ a <= 2 ^ b).
  { intros a b Hab. rewrite <- Z.pow_succ_r by lia. apply Z.pow_le_mono_r; lia. }
  destruct (Z.compare_spec (d1 - 53) (d2 - 53)) as [Hd|Hd|Hd]; symmetry.
  - replace d2 with d1 in E2 by lia. assert (0 < 2 ^ (53 - d1)).
    { apply Z.pow_pos_nonneg; [lia|]. destruct (Z.le_gt_cases d1 53); [lia|]. exfalso.
      rewrite Z.pow_neg_r in E1 by lia. lia. }
    change (Pos.compare_cont Eq q1 q2) with (Zpos q1 ?= Zpos q2). rewrite E1, E2. apply Zmult_compare_compat_r. lia.
  - apply Z.compare_lt_iff. specialize (Hmono d1 d2). lia.
  - apply Z.compare_gt_iff. specialize (Hmono d2 d1). lia.
Qed.

(** An integer as a float. *)
Definition f64_of_int (z : Z) : f64 := if 0 <=? z then f64_of_dec false z 0 else f64_of_dec true (- z) 0.

Lemma f64_of_int_spec z : Z.abs z < 2 ^ 53 -> f64_of_int z = match z with Z0 => S754_zero false | Zpos p => binary_round prec emax false p 0 | Zneg p => binary_round prec emax true p 0 end.
Proof.
  intros Hz. unfold f64_of_int, f64_of_dec. destruct z as [|p|p]; [done| |].
  - rewrite zle_true, zeq_false, zle_true, Z.pow_0_r, Z.mul_1_r by lia. done.
  - rewrite zle_false, zeq_false, zle_true, Z.pow_0_r, Z.mul_1_r by lia. done.
Qed.

Lemma f64_of_int_order x y : Z.abs x < 2 ^ 53 -> Z.abs y < 2 ^ 53 -> SFcompare (f64_of_int x) (f64_of_int y) = Some (x ?= y).
Proof.
  intros Hx Hy. rewrite !f64_of_int_spec by done.
  destruct x as [|p1|p1], y as [|p2|p2]; cbn in Hx, Hy; try done;
    repeat match goal with |- context [binary_round prec emax ?s ?p 0] =>
      let q := fresh "q" in let E := fresh "E" in destruct (round_int s p ltac:(lia)) as (q & -> & E) end; try done; cbn [SFcompare].
  - f_equal. by apply int_order.
  - f_equal. change (Z.neg p1 ?= Z.neg p2) with (CompOpp (Z.pos p1 ?= Z.pos p2)). rewrite <- (int_order p1 p2 q q0) by lia.
    by destruct (_ - 53 ?= _).
Qed.
