(* ===== verification/SqlValue.v ===== *)
(** * Values in SQL (the helper functions of src/sql/executor.rs)

    Truth, equality, order, arithmetic, casts and LIKE on JSON values. Integers are [i64] and
    wrap as in a release build; the text of a value that is not a string is its JSON text. *)

From S2P Require Import Prelude Errors Util Json.
From Stdlib Require Import SpecFloat.

(** What the executor asks of the platform besides [Lowercase]: [str::to_uppercase] and
    [10f64.powi(n)]. *)
Class SqlLib := { to_uppercase : Bytes -> Bytes; powi10 : Z -> f64 }.

(** ** Characters *)

Definition trim_start (s : Bytes) : Bytes := trim_loop white_space (length s) s.
Definition trim_end (s : Bytes) : Bytes := rev (trim_loop (map (@rev Z) white_space) (length s) (rev s)).

(** [str::replace] *)
Fixpoint replace_loop (fuel : nat) (from to s : Bytes) : Bytes :=
  match fuel with
  | O => s
  | S f =>
      match strip_prefix from s with
      | Some r => to ++ replace_loop f from to r
      | None => match s with [] => [] | b :: s' => b :: replace_loop f from to s' end
      end
  end.

Definition str_replace (s from to : Bytes) : Bytes :=
  match from with
  | [] => to ++ concat (map (fun c => c ++ to) (chars s))
  | _ => replace_loop (S (length s)) from to s
  end.

(** ** Floats *)

(** [f as i64] *)
Definition f64_to_i64 (f : f64) : Z :=
  match f with
  | S754_finite s m e =>
      let '(num, den) := as_fraction m e in
      if s then Z.max I64_MIN (- (num / den)) else Z.min I64_MAX (num / den)
  | S754_infinity s => if s then I64_MIN else I64_MAX
  | _ => 0
  end.

Definition f64_neg (f : f64) : f64 := SFopp f.
Definition f64_abs (f : f64) : f64 := SFabs f.

(** An integral value near a finite one, its magnitude given by [near]. *)
Definition to_integral (near : bool -> Z -> Z -> Z) (f : f64) : f64 :=
  match f with
  | S754_finite s m e => let '(num, den) := as_fraction m e in f64_of_dec s (near s num den) 0
  | _ => f
  end.
Definition f64_floor : f64 -> f64 := to_integral (fun s num den => if s then - ((- num) / den) else num / den).
Definition f64_ceil : f64 -> f64 := to_integral (fun s num den => if s then num / den else - ((- num) / den)).
(** Half away from zero. *)
Definition f64_round : f64 -> f64 := to_integral (fun _ num den => (2 * num + den) / (2 * den)).

Section SqlValue.
Context `{Serde} `{Lowercase} `{SqlLib}.

(** ** Views of a value *)

Definition to_string (v : Value) : Bytes := json_to_vec v.

Definition is_truthy (v : Value) : bool :=
  match v with
  | Bool b => b
  | Null => false
  | Num n => negb (f64_eqb (Json.as_f64 n) f64_zero)
  | Str s => match s with [] => false | _ => true end
  | Array a => match a with [] => false | _ => true end
  | Object o => match o with [] => false | _ => true end
  end.

Definition as_f64 (v : Value) : option f64 :=
  match v with
  | Num n => Some (Json.as_f64 n)
  | Str s => parse_float s
  | Bool b => Some (if b then f64_one else f64_zero)
  | _ => None
  end.

Definition as_i64 (v : Value) : option Z :=
  match v with
  | Num n => Some (default (f64_to_i64 (Json.as_f64 n)) (Json.as_i64 n))
  | Str s => parse_i64_str s
  | Bool b => Some (if b then 1 else 0)
  | _ => None
  end.

(** [Value::is_i64], [Value::is_u64] *)
Definition is_i64 (v : Value) : bool :=
  match v with Num n => match Json.as_i64 n with Some _ => true | None => false end | _ => false end.
Definition is_u64 (v : Value) : bool := match v with Num (PosInt _) => true | _ => false end.

(** [Value::from] of an [i64]; [json_f64] *)
Definition from_i64 (z : Z) : Value := Num (if 0 <=? z then PosInt z else NegInt z).
Definition json_f64 (f : f64) : Value := if is_nan f || is_infinite f then Null else Num (Float f).

Definition value_to_string (v : Value) : Bytes :=
  match v with Str s => s | Null => [] | _ => to_string v end.

(** ** Equality and order *)

(** The derived [==] of [Value]. *)
Definition number_eqb (a b : Number) : bool :=
  match a, b with
  | PosInt x, PosInt y => x =? y
  | NegInt x, NegInt y => x =? y
  | Float x, Float y => f64_eqb x y
  | _, _ => false
  end.

Fixpoint value_eqb (a b : Value) {struct a} : bool :=
  match a, b with
  | Null, Null => true
  | Bool x, Bool y => eqb x y
  | Num x, Num y => number_eqb x y
  | Str x, Str y => beq x y
  | Array x, Array y =>
      (fix go x y := match x, y with
                     | [], [] => true
                     | v :: x', w :: y' => value_eqb v w && go x' y'
                     | _, _ => false
                     end) x y
  | Object x, Object y =>
      (fix go x y := match x, y with
                     | [], [] => true
                     | (k, v) :: x', (j, w) :: y' => beq k j && value_eqb v w && go x' y'
                     | _, _ => false
                     end) x y
  | _, _ => false
  end.

Definition values_equal (a b : Value) : bool :=
  match a, b with
  | Null, Null => true
  | Null, _ | _, Null => false
  | Num an, Num bn =>
      match Json.as_i64 an, Json.as_i64 bn with
      | Some ai, Some bi => ai =? bi
      | _, _ => f64_eqb (Json.as_f64 an) (Json.as_f64 bn)
      end
  | _, _ => value_eqb a b
  end.

Definition bytes_cmp (a b : Bytes) : comparison := if beq a b then Eq else if bytes_ltb a b then Lt else Gt.
Definition bool_cmp (a b : bool) : comparison :=
  match a, b with false, true => Lt | true, false => Gt | _, _ => Eq end.
Definition f64_cmp (a b : f64) : comparison := default Eq (SFcompare a b).

Definition compare_values_ord (a b : Value) (nulls_first : bool) : comparison :=
  match a, b with
  | Null, Null => Eq
  | Null, _ => if nulls_first then Lt else Gt
  | _, Null => if nulls_first then Gt else Lt
  | Num an, Num bn => f64_cmp (Json.as_f64 an) (Json.as_f64 bn)
  | Str x, Str y => bytes_cmp x y
  | Bool x, Bool y => bool_cmp x y
  | _, _ => bytes_cmp (to_string a) (to_string b)
  end.

(** ** Arithmetic *)

Definition negate_value (v : Value) : Value :=
  match v with
  | Num n => match Json.as_i64 n with Some i => from_i64 (wrap_i64 (- i)) | None => json_f64 (f64_neg (Json.as_f64 n)) end
  | _ => Null
  end.

Definition numeric_op (int_op : Z -> Z -> Z) (float_op : f64 -> f64 -> f64) (l r : Value) : Value :=
  match as_i64 l, as_i64 r with
  | Some a, Some b =>
      if is_i64 l && is_i64 r then from_i64 (wrap_i64 (int_op a b))
      else match as_f64 l, as_f64 r with Some a, Some b => json_f64 (float_op a b) | _, _ => Null end
  | _, _ => match as_f64 l, as_f64 r with Some a, Some b => json_f64 (float_op a b) | _, _ => Null end
  end.

Definition divide (l r : Value) : Value :=
  match as_f64 l, as_f64 r with
  | Some a, Some b => if f64_eqb b f64_zero then Null else json_f64 (f64_div a b)
  | _, _ => Null
  end.

(** [None] where the remainder overflows, which panics. *)
Definition remainder (l r : Value) : option Value :=
  match as_i64 l, as_i64 r with
  | Some a, Some b =>
      if b =? 0 then Some Null
      else if (a =? I64_MIN) && (b =? -1) then None
      else Some (from_i64 (Z.rem a b))
  | _, _ => Some Null
  end.

Definition concat_values (l r : Value) : Value := Str (value_to_string l ++ value_to_string r).

Definition cast_value (v : Value) (type_name : Bytes) : Value :=
  let one_of l := existsb (fun t => beq type_name (bs t)) l in
  if one_of ["integer"; "int"; "bigint"]%string then default Null (from_i64 <$> as_i64 v)
  else if one_of ["float"; "real"; "double"]%string then default Null (json_f64 <$> as_f64 v)
  else if one_of ["text"; "varchar"; "string"]%string then Str (value_to_string v)
  else if one_of ["boolean"; "bool"]%string then Bool (is_truthy v)
  else v.

(** ** LIKE *)

(** [like_dp] on the rest of the characters and of the pattern. *)
Fixpoint like_dp (p : list Bytes) : list Bytes -> bool :=
  match p with
  | [] => fun s => match s with [] => true | _ => false end
  | c :: p' =>
      if beq c [37] then
        (fix any (s : list Bytes) : bool :=
           like_dp p' s || match s with _ :: s' => any s' | [] => false end)
      else fun s => match s with
                    | x :: s' => if beq c [95] || beq c x then like_dp p' s' else false
                    | [] => false
                    end
  end.

Definition like_match (s pattern : Bytes) : bool := like_dp (chars pattern) (chars s).
End SqlValue.
