(* ===== verification/SqlParser.v ===== *)
(** * The SQL lexer, syntax and parser (src/sql/lexer.rs, ast.rs, parser.rs)

    Tokens and the lexer, the syntax tree, and the parser that goes by recursive descent over
    the tokens. *)

From S2P Require Import Prelude Util Json Errors Parsing.
From Stdlib Require Import SpecFloat.

(** ** SQL tokens (src/sql/lexer.rs)

    The lexer reads bytes and pushes each as a character, so a byte above 127 becomes the
    two bytes of that code point. Its position is the rest of the input. *)

Module Tok.
Inductive Token : Type :=
| Integer (n : Z)
| Float (f : f64)
| StringLit (s : Bytes)
| BoolLit (b : bool)
| Null
| Ident (s : Bytes)
| Select | From | Where | Join | Inner | Left | Right | Full | Outer | Cross | On | As | And | Or | Not | In | Is
| Like | Between | Exists | Union | All | Distinct | Group | By | Having | Order | Limit | Offset | Asc | Desc
| Count | Sum | Avg | Min | Max | Insert | Into | Values | Update | SetKw | Delete | Case | When | Then | Else | End
| Coalesce | Nullif | Cast | SubStr | Length | Upper | Lower | Trim | Replace | Round | Floor | Ceil | Abs | Now
| Concat
| Eq | Ne | Lt | Le | Gt | Ge | Plus | Minus | Star | Slash | Percent | Concat2
| LParen | RParen | Comma | Dot | Semi
| Eof.
End Tok.
Abbreviation Token := Tok.Token.

#[export] Instance token_dec : EqDecision Token.
Proof. solve_decision. Defined.

(** ** Keywords *)

Definition keywords : list (Bytes * Token) := [
  (bs "select", Tok.Select); (bs "from", Tok.From); (bs "where", Tok.Where); (bs "join", Tok.Join);
  (bs "inner", Tok.Inner); (bs "left", Tok.Left); (bs "right", Tok.Right); (bs "full", Tok.Full);
  (bs "outer", Tok.Outer); (bs "cross", Tok.Cross); (bs "on", Tok.On); (bs "as", Tok.As); (bs "and", Tok.And);
  (bs "or", Tok.Or); (bs "not", Tok.Not); (bs "in", Tok.In); (bs "is", Tok.Is); (bs "like", Tok.Like);
  (bs "between", Tok.Between); (bs "exists", Tok.Exists); (bs "union", Tok.Union); (bs "all", Tok.All);
  (bs "distinct", Tok.Distinct); (bs "group", Tok.Group); (bs "by", Tok.By); (bs "having", Tok.Having);
  (bs "order", Tok.Order); (bs "limit", Tok.Limit); (bs "offset", Tok.Offset); (bs "asc", Tok.Asc);
  (bs "desc", Tok.Desc); (bs "count", Tok.Count); (bs "sum", Tok.Sum); (bs "avg", Tok.Avg); (bs "min", Tok.Min);
  (bs "max", Tok.Max); (bs "insert", Tok.Insert); (bs "into", Tok.Into); (bs "values", Tok.Values);
  (bs "update", Tok.Update); (bs "set", Tok.SetKw); (bs "delete", Tok.Delete); (bs "case", Tok.Case);
  (bs "when", Tok.When); (bs "then", Tok.Then); (bs "else", Tok.Else); (bs "end", Tok.End);
  (bs "true", Tok.BoolLit true); (bs "false", Tok.BoolLit false); (bs "null", Tok.Null);
  (bs "coalesce", Tok.Coalesce); (bs "nullif", Tok.Nullif); (bs "cast", Tok.Cast); (bs "substr", Tok.SubStr);
  (bs "substring", Tok.SubStr); (bs "length", Tok.Length); (bs "upper", Tok.Upper); (bs "lower", Tok.Lower);
  (bs "trim", Tok.Trim); (bs "replace", Tok.Replace); (bs "round", Tok.Round); (bs "floor", Tok.Floor);
  (bs "ceil", Tok.Ceil); (bs "ceiling", Tok.Ceil); (bs "abs", Tok.Abs); (bs "now", Tok.Now);
  (bs "concat", Tok.Concat)].

Fixpoint keyword_in (l : list (Bytes * Token)) (s : Bytes) : Token :=
  match l with
  | [] => Tok.Ident s
  | (k, t) :: l' => if beq s k then t else keyword_in l' s
  end.

Definition keyword_or_ident (s : Bytes) : Token := keyword_in keywords s.

(** ** Characters *)

Definition is_ascii_whitespace (c : Z) : bool := existsb (Z.eqb c) [32; 9; 10; 12; 13].
Definition is_ascii_digit (c : Z) : bool := between 48 57 c.
Definition is_ascii_alphabetic (c : Z) : bool := between 65 90 c || between 97 122 c.
Definition is_ident_start (c : Z) : bool := is_ascii_alphabetic c || (c =? 95).
Definition is_ident_char (c : Z) : bool := is_ascii_alphabetic c || is_ascii_digit c || (c =? 95).

(** [b as char], pushed onto a [String] *)
Definition push_byte (b : Z) : Bytes := if b <? 128 then [b] else [192 + b / 64; 128 + b mod 64].

(** ** The readers *)

Fixpoint skip_whitespace (l : Bytes) : Bytes :=
  match l with
  | c :: l' => if is_ascii_whitespace c then skip_whitespace l' else l
  | [] => []
  end.

Fixpoint skip_line_comment (l : Bytes) : Bytes :=
  match l with
  | c :: l' => if c =? 10 then l' else skip_line_comment l'
  | [] => []
  end.

(** After a backslash. *)
Definition escaped (c : Z) : Bytes :=
  if c =? 110 then [10] else if c =? 116 then [9] else if c =? 114 then [13]
  else if c =? 92 then [92] else 92 :: push_byte c.

Fixpoint read_string (quote : Z) (s : Bytes) (l : Bytes) : result VoltraError (Token * Bytes) :=
  match l with
  | [] => Err (InvalidArgument (bs "Unterminated string literal"))
  | ch :: l' =>
      if ch =? quote then
        match l' with
        | c :: l'' => if c =? quote then read_string quote (s ++ push_byte quote) l'' else Ok (Tok.StringLit s, l')
        | [] => Ok (Tok.StringLit s, l')
        end
      else if ch =? 92 then
        match l' with
        | [] => Err (InvalidArgument (bs "Unterminated escape"))
        | c :: l'' => read_string quote (s ++ escaped c) l''
        end
      else read_string quote (s ++ push_byte ch) l'
  end.

Fixpoint read_quoted_ident (s : Bytes) (l : Bytes) : result VoltraError (Token * Bytes) :=
  match l with
  | [] => Err (InvalidArgument (bs "Unterminated quoted identifier"))
  | ch :: l' =>
      if (ch =? 96) || (ch =? 34) then Ok (Tok.Ident s, l') else read_quoted_ident (s ++ push_byte ch) l'
  end.

Definition has_exponent (s : Bytes) : bool := existsb (fun c => (c =? 101) || (c =? 69)) s.

Fixpoint read_number_loop (s : Bytes) (is_float : bool) (l : Bytes) : Bytes * bool * Bytes :=
  match l with
  | [] => (s, is_float, [])
  | ch :: l' =>
      if is_ascii_digit ch then read_number_loop (s ++ [ch]) is_float l'
      else if (ch =? 46) && negb is_float && match l' with d :: _ => is_ascii_digit d | [] => false end then
        read_number_loop (s ++ [46]) true l'
      else if ((ch =? 101) || (ch =? 69)) && negb (has_exponent s) then
        match l' with
        | sign :: l'' =>
            if (sign =? 43) || (sign =? 45) then read_number_loop (s ++ [ch; sign]) true l''
            else read_number_loop (s ++ [ch]) true l'
        | [] => (s ++ [ch], true, [])
        end
      else (s, is_float, l)
  end.

Definition read_number (first : Z) (l : Bytes) : Token * Bytes :=
  let '(s, is_float, l) := read_number_loop [first] false l in
  (if is_float then Tok.Float (default f64_zero (parse_float s)) else Tok.Integer (default 0 (parse_i64_str s)), l).

Fixpoint ident_chars (l : Bytes) : Bytes * Bytes :=
  match l with
  | ch :: l' => if is_ident_char ch then let '(s, r) := ident_chars l' in (lower_byte ch :: s, r) else ([], l)
  | [] => ([], [])
  end.

Definition read_ident (first : Z) (l : Bytes) : Token * Bytes :=
  let '(s, l) := ident_chars l in (keyword_or_ident (lower_byte first :: s), l).

(** ** The loop *)

(** One token after its first byte; [None] is a comment skipped. *)
Definition token_at (ch : Z) (l : Bytes) : result VoltraError (option Token * Bytes) :=
  let one t := Ok (Some t, l) in
  let two c2 t2 other :=
    match l with
    | c :: l' => if c =? c2 then Ok (Some t2, l') else other
    | [] => other
    end in
  if ch =? 39 then '(t, l) ← read_string 39 [] l; Ok (Some t, l)
  else if (ch =? 34) || (ch =? 96) then '(t, l) ← read_quoted_ident [] l; Ok (Some t, l)
  else if ch =? 40 then one Tok.LParen
  else if ch =? 41 then one Tok.RParen
  else if ch =? 44 then one Tok.Comma
  else if ch =? 46 then one Tok.Dot
  else if ch =? 59 then one Tok.Semi
  else if ch =? 43 then one Tok.Plus
  else if ch =? 45 then
    match l with
    | c :: l' => if c =? 45 then Ok (None, skip_line_comment l') else one Tok.Minus
    | [] => one Tok.Minus
    end
  else if ch =? 42 then one Tok.Star
  else if ch =? 47 then one Tok.Slash
  else if ch =? 37 then one Tok.Percent
  else if ch =? 61 then one Tok.Eq
  else if ch =? 33 then two 61 Tok.Ne (Err (InvalidArgument (bs "Unexpected char '!'")))
  else if ch =? 60 then two 61 Tok.Le (two 62 Tok.Ne (one Tok.Lt))
  else if ch =? 62 then two 61 Tok.Ge (one Tok.Gt)
  else if ch =? 124 then two 124 Tok.Concat2 (Err (InvalidArgument (bs "Expected '||'")))
  else if is_ascii_digit ch then let '(t, l) := read_number ch l in Ok (Some t, l)
  else if is_ident_start ch then let '(t, l) := read_ident ch l in Ok (Some t, l)
  else Err (InvalidArgument (bs "Unexpected character: '" ++ push_byte ch ++ bs "'")).

(** [None] when the fuel runs out. *)
Fixpoint tokenize_loop (fuel : nat) (l : Bytes) (tokens : list Token) : option (result VoltraError (list Token)) :=
  match fuel with
  | O => None
  | S f =>
      match skip_whitespace l with
      | [] => Some (Ok (tokens ++ [Tok.Eof]))
      | ch :: l' =>
          match token_at ch l' with
          | Err e => Some (Err e)
          | Ok (Some t, r) => tokenize_loop f r (tokens ++ [t])
          | Ok (None, r) => tokenize_loop f r tokens
          end
      end
  end.

Definition tokenize (sql : Bytes) : option (result VoltraError (list Token)) := tokenize_loop (S (length sql)) sql [].

(** ** SQL syntax trees (src/sql/ast.rs) *)

Module Bin.
Inductive BinOp : Type := Eq | Ne | Lt | Le | Gt | Ge | And | Or | Add | Sub | Mul | Div | Mod | Concat.
End Bin.
Abbreviation BinOp := Bin.BinOp.

Module Un.
Inductive UnaryOp : Type := Not | Neg | Pos.
End Un.

Module Agg.
Inductive AggFunc : Type := Count | Sum | Avg | Min | Max.
End Agg.
Abbreviation AggFunc := Agg.AggFunc.

Module Kind.
Inductive JoinKind : Type := Inner | Left | Right | Full | Cross.
End Kind.
Abbreviation JoinKind := Kind.JoinKind.

Inductive Expr : Type :=
| Literal (v : Value)
| Column (table : option Bytes) (name : Bytes)
| Wildcard (table : option Bytes)
| BinaryOp (left : Expr) (op : BinOp) (right : Expr)
| UnaryOp (op : Un.UnaryOp) (expr : Expr)
| IsNull (expr : Expr) (negated : bool)
| InList (expr : Expr) (l : list Expr) (negated : bool)
| InSubquery (expr : Expr) (query : SelectStmt) (negated : bool)
| Between (expr low high : Expr) (negated : bool)
| Like (expr pattern : Expr) (negated : bool)
| Aggregate (func : AggFunc) (distinct : bool) (arg : option Expr)
| Function (name : Bytes) (args : list Expr)
| Case (operand : option Expr) (branches : list (Expr * Expr)) (else_ : option Expr)
| Subquery (query : SelectStmt)
| Exists (query : SelectStmt) (negated : bool)
| Alias (expr : Expr) (alias : Bytes)
with TableRef : Type :=
| Named (name : Bytes) (alias : option Bytes)
| Derived (query : SelectStmt) (alias : Bytes)
with Join : Type :=
| MkJoin (kind : JoinKind) (table : TableRef) (on : option Expr)
with OrderByItem : Type :=
| MkOrderBy (expr : Expr) (asc : bool) (nulls_first : option bool)
with SelectStmt : Type :=
| MkSelect (distinct : bool) (columns : list Expr) (from : list TableRef) (joins : list Join) (where_ : option Expr)
    (group_by : list Expr) (having : option Expr) (order_by : list OrderByItem) (limit offset : option Z)
    (union : option (bool * SelectStmt)).

Definition s_distinct (s : SelectStmt) : bool := let 'MkSelect d _ _ _ _ _ _ _ _ _ _ := s in d.
Definition s_columns (s : SelectStmt) : list Expr := let 'MkSelect _ c _ _ _ _ _ _ _ _ _ := s in c.
Definition s_from (s : SelectStmt) : list TableRef := let 'MkSelect _ _ f _ _ _ _ _ _ _ _ := s in f.
Definition s_joins (s : SelectStmt) : list Join := let 'MkSelect _ _ _ j _ _ _ _ _ _ _ := s in j.
Definition s_where (s : SelectStmt) : option Expr := let 'MkSelect _ _ _ _ w _ _ _ _ _ _ := s in w.
Definition s_group_by (s : SelectStmt) : list Expr := let 'MkSelect _ _ _ _ _ g _ _ _ _ _ := s in g.
Definition s_having (s : SelectStmt) : option Expr := let 'MkSelect _ _ _ _ _ _ h _ _ _ _ := s in h.
Definition s_order_by (s : SelectStmt) : list OrderByItem := let 'MkSelect _ _ _ _ _ _ _ o _ _ _ := s in o.
Definition s_limit (s : SelectStmt) : option Z := let 'MkSelect _ _ _ _ _ _ _ _ l _ _ := s in l.
Definition s_offset (s : SelectStmt) : option Z := let 'MkSelect _ _ _ _ _ _ _ _ _ o _ := s in o.
Definition s_union (s : SelectStmt) : option (bool * SelectStmt) := let 'MkSelect _ _ _ _ _ _ _ _ _ _ u := s in u.

Record InsertStmt := { i_table : Bytes; i_columns : list Bytes; i_values : list (list Expr) }.
Record UpdateStmt := { u_table : Bytes; u_alias : option Bytes; u_sets : list (Bytes * Expr); u_where : option Expr }.
Record DeleteStmt := { d_table : Bytes; d_where : option Expr }.

Inductive Statement : Type :=
| SelectS (s : SelectStmt)
| InsertS (s : InsertStmt)
| UpdateS (s : UpdateStmt)
| DeleteS (s : DeleteStmt).

(** ** The parser (src/sql/parser.rs)

    A parser answers with what it read and the rest, with an error, or, where the model's fuel
    ends, with neither; fuel counts how deep expressions and queries nest, and loops are
    bounded by the tokens left. Error texts that quote a token end before it. *)

Abbreviation parser := (Parsing.parser (list Token) VoltraError).
Abbreviation presult := (Parsing.presult (list Token) VoltraError).
#[local] Open Scope parser_scope.

Definition pfail {A} (m : Bytes) : parser A := fun _ => Fail (InvalidArgument m).

(** ** Tokens *)

Definition peek (ts : list Token) : Token := match ts with t :: _ => t | [] => Tok.Eof end.
Definition peek2 (ts : list Token) : Token := peek (tail ts).
Definition advance : parser Token := fun ts => Done (peek ts) (tail ts).

(** [if self.peek() == &t { self.pos += 1; true } else { false }] *)
Definition accept (t : Token) : parser bool :=
  fun ts => if bool_decide (peek ts = t) then Done true (tail ts) else Done false ts.

(** [if self.peek() == &t { self.pos += 1; Some(p) } else { None }] *)
Definition optional {A} (t : Token) (p : parser A) : parser (option A) :=
  let* b := accept t in if b : bool then let* a := p in pret (Some a) else pret None.

Definition eat (t : Token) : parser unit :=
  let* b := accept t in if b : bool then pret tt else pfail (bs "Expected token").

Definition ident_of (t : Token) : option Bytes :=
  match t with
  | Tok.Ident s => Some s
  | Tok.Count => Some (bs "count") | Tok.Sum => Some (bs "sum") | Tok.Avg => Some (bs "avg")
  | Tok.Min => Some (bs "min") | Tok.Max => Some (bs "max") | Tok.Now => Some (bs "now")
  | Tok.Length => Some (bs "length") | Tok.Upper => Some (bs "upper") | Tok.Lower => Some (bs "lower")
  | _ => None
  end.

Definition expect_ident : parser Bytes :=
  let* t := advance in match ident_of t with Some s => pret s | None => pfail (bs "Expected identifier") end.

Definition is_ident (t : Token) : bool := match t with Tok.Ident _ => true | _ => false end.

(** An alias after [AS], or a bare identifier. *)
Definition parse_alias : parser (option Bytes) :=
  let* b := accept Tok.As in
  if b : bool then let* a := expect_ident in pret (Some a)
  else fun ts => if is_ident (peek ts) then (let* a := expect_ident in pret (Some a)) ts else Done None ts.

Definition parse_usize : parser Z :=
  let* t := advance in
  match t with
  | Tok.Integer n => if 0 <=? n then pret n else pfail (bs "requires a non-negative integer")
  | _ => pfail (bs "requires a non-negative integer")
  end.

(** ** Loops *)

(** [while self.peek() == &sep { self.pos += 1; v.push(p) }] *)
Fixpoint more_loop {A} (fuel : nat) (sep : Token) (p : parser A) (v : list A) : parser (list A) :=
  fun ts =>
  match fuel with
  | O => OutOfFuel
  | S f => (let* b := accept sep in if b : bool then let* a := p in more_loop f sep p (v ++ [a]) else pret v) ts
  end.

Definition list_of {A} (sep : Token) (p : parser A) : parser (list A) :=
  let* a := p in fun ts => more_loop (S (length ts)) sep p [a] ts.

(** [left = BinaryOp { left, op, right }] while there is an operator. *)
Fixpoint binary_loop (fuel : nat) (op_of : Token -> option BinOp) (p : parser Expr) (left : Expr) : parser Expr :=
  fun ts =>
  match fuel with
  | O => OutOfFuel
  | S f =>
      match op_of (peek ts) with
      | Some op => (let* right := p in binary_loop f op_of p (BinaryOp left op right)) (tail ts)
      | None => Done left ts
      end
  end.

Definition left_assoc (op_of : Token -> option BinOp) (p : parser Expr) : parser Expr :=
  let* a := p in fun ts => binary_loop (S (length ts)) op_of p a ts.

Definition or_op (t : Token) : option BinOp := match t with Tok.Or => Some Bin.Or | _ => None end.
Definition and_op (t : Token) : option BinOp := match t with Tok.And => Some Bin.And | _ => None end.
Definition add_op (t : Token) : option BinOp :=
  match t with Tok.Plus => Some Bin.Add | Tok.Minus => Some Bin.Sub | Tok.Concat2 => Some Bin.Concat | _ => None end.
Definition mul_op (t : Token) : option BinOp :=
  match t with Tok.Star => Some Bin.Mul | Tok.Slash => Some Bin.Div | Tok.Percent => Some Bin.Mod | _ => None end.
Definition cmp_op (t : Token) : option BinOp :=
  match t with
  | Tok.Eq => Some Bin.Eq | Tok.Ne => Some Bin.Ne | Tok.Lt => Some Bin.Lt | Tok.Le => Some Bin.Le
  | Tok.Gt => Some Bin.Gt | Tok.Ge => Some Bin.Ge | _ => None
  end.

(** ** Expressions

    The parsers that call themselves through nested expressions and queries take those two
    as parameters. *)

Section Parsers.
Variable parse_expr : parser Expr.
Variable parse_select : parser SelectStmt.

Definition parse_expr_list : parser (list Expr) := list_of Tok.Comma parse_expr.

(** The arguments of a call after its opening parenthesis. *)
Definition call_args : parser (list Expr) :=
  fun ts => (let* args := (if bool_decide (peek ts = Tok.RParen) then pret [] else parse_expr_list) in
             let* _ := eat Tok.RParen in pret args) ts.

Definition parse_scalar_fn (name : Bytes) : parser Expr :=
  let* _ := advance in let* _ := eat Tok.LParen in let* args := call_args in pret (Function name args).

Definition parse_cast : parser Expr :=
  let* _ := advance in let* _ := eat Tok.LParen in let* e := parse_expr in let* _ := eat Tok.As in let* t := expect_ident in let* _ := eat Tok.RParen in
  pret (Function (bs "cast::" ++ t) [e]).

Definition is_count (f : AggFunc) : bool := match f with Agg.Count => true | _ => false end.

Definition parse_aggregate (func : AggFunc) : parser Expr :=
  let* _ := advance in let* _ := eat Tok.LParen in let* distinct := accept Tok.Distinct in
  let* arg := (fun ts => if bool_decide (peek ts = Tok.Star) && is_count func then Done None (tail ts)
                   else (let* e := parse_expr in pret (Some e)) ts) in
  let* _ := eat Tok.RParen in pret (Aggregate func distinct arg).

Fixpoint when_loop (fuel : nat) (branches : list (Expr * Expr)) : parser (list (Expr * Expr)) :=
  fun ts =>
  match fuel with
  | O => OutOfFuel
  | S f =>
      (let* b := accept Tok.When in
       if b : bool then
         let* cond := parse_expr in let* _ := eat Tok.Then in let* result := parse_expr in when_loop f (branches ++ [(cond, result)])
       else pret branches) ts
  end.

Definition parse_case : parser Expr :=
  let* _ := eat Tok.Case in
  let* operand := (fun ts => if bool_decide (peek ts = Tok.When) then Done None ts
                       else (let* e := parse_expr in pret (Some e)) ts) in
  let* branches := (fun ts => when_loop (S (length ts)) [] ts) in
  let* else_ := optional Tok.Else parse_expr in
  let* _ := eat Tok.End in pret (Case operand branches else_).

(** A query in parentheses, the opening one read. *)
Definition closed_select : parser SelectStmt := let* q := parse_select in let* _ := eat Tok.RParen in pret q.

Definition parse_named (name : Bytes) : parser Expr :=
  let* dot := accept Tok.Dot in
  if dot : bool then
    let* star := accept Tok.Star in
    if star : bool then pret (Wildcard (Some name)) else let* col := expect_ident in pret (Column (Some name) col)
  else
    let* call := accept Tok.LParen in
    if call : bool then let* args := call_args in pret (Function name args) else pret (Column None name).

(** [json!(n)] of an [i64] *)
Definition json_i64 (n : Z) : Value := Num (if 0 <=? n then PosInt n else NegInt n).

(** [json!(f)] of an [f64] *)
Definition json_float (f : f64) : Value := if is_nan f || is_infinite f then Null else Num (Float f).

Definition literal (v : Value) : parser Expr := let* _ := advance in pret (Literal v).

Definition parse_primary : parser Expr := fun ts =>
  match peek ts with
  | Tok.Integer n => literal (json_i64 n) ts
  | Tok.Float f => literal (json_float f) ts
  | Tok.StringLit s => literal (Str s) ts
  | Tok.BoolLit b => literal (Bool b) ts
  | Tok.Null => literal Null ts
  | Tok.LParen =>
      (let* _ := advance in
       fun ts => if bool_decide (peek ts = Tok.Select) then (let* q := closed_select in pret (Subquery q)) ts
                 else (let* e := parse_expr in let* _ := eat Tok.RParen in pret e) ts) ts
  | Tok.Exists => (let* _ := advance in let* _ := eat Tok.LParen in let* q := closed_select in pret (Exists q false)) ts
  | Tok.Case => parse_case ts
  | Tok.Count => parse_aggregate Agg.Count ts
  | Tok.Sum => parse_aggregate Agg.Sum ts
  | Tok.Avg => parse_aggregate Agg.Avg ts
  | Tok.Min => parse_aggregate Agg.Min ts
  | Tok.Max => parse_aggregate Agg.Max ts
  | Tok.Upper => parse_scalar_fn (bs "upper") ts
  | Tok.Lower => parse_scalar_fn (bs "lower") ts
  | Tok.Length => parse_scalar_fn (bs "length") ts
  | Tok.Trim => parse_scalar_fn (bs "trim") ts
  | Tok.Replace => parse_scalar_fn (bs "replace") ts
  | Tok.Round => parse_scalar_fn (bs "round") ts
  | Tok.Floor => parse_scalar_fn (bs "floor") ts
  | Tok.Ceil => parse_scalar_fn (bs "ceil") ts
  | Tok.Abs => parse_scalar_fn (bs "abs") ts
  | Tok.Coalesce => parse_scalar_fn (bs "coalesce") ts
  | Tok.Nullif => parse_scalar_fn (bs "nullif") ts
  | Tok.SubStr => parse_scalar_fn (bs "substr") ts
  | Tok.Now => parse_scalar_fn (bs "now") ts
  | Tok.Concat => parse_scalar_fn (bs "concat") ts
  | Tok.Cast => parse_cast ts
  | Tok.Ident name => (let* _ := advance in parse_named name) ts
  | _ => Fail (InvalidArgument (bs "Unexpected token in expression"))
  end.

Definition unary_op (t : Token) : option Un.UnaryOp :=
  match t with Tok.Minus => Some Un.Neg | Tok.Plus => Some Un.Pos | Tok.Not => Some Un.Not | _ => None end.

Fixpoint parse_unary (ts : list Token) : presult Expr :=
  match ts with
  | t :: ts' =>
      match unary_op t with
      | Some op => match parse_unary ts' with
                   | Done e r => Done (UnaryOp op e) r
                   | Fail e => Fail e
                   | OutOfFuel => OutOfFuel
                   end
      | None => parse_primary ts
      end
  | [] => parse_primary ts
  end.

Definition parse_mul : parser Expr := left_assoc mul_op parse_unary.
Definition parse_add : parser Expr := left_assoc add_op parse_mul.

(** [NOT] before [t]. *)
Definition negation (t : Token) : parser bool := fun ts =>
  if bool_decide (peek ts = Tok.Not) && bool_decide (peek2 ts = t) then Done true (tail ts) else Done false ts.

(** What follows the left operand. *)
Definition parse_in (left : Expr) (negated : bool) : parser Expr :=
  let* _ := eat Tok.LParen in
  fun ts => if bool_decide (peek ts = Tok.Select) then (let* q := closed_select in pret (InSubquery left q negated)) ts
            else (let* l := parse_expr_list in let* _ := eat Tok.RParen in pret (InList left l negated)) ts.

Definition parse_operator (left : Expr) : parser Expr := fun ts =>
  match cmp_op (peek ts) with
  | Some op => (let* right := parse_add in pret (BinaryOp left op right)) (tail ts)
  | None => Done left ts
  end.

Definition parse_comparison : parser Expr :=
  let* left := parse_add in
  let* is_ := accept Tok.Is in
  if is_ : bool then let* negated := accept Tok.Not in let* _ := eat Tok.Null in pret (IsNull left negated)
  else
    let* negated_between := negation Tok.Between in
    let* between := accept Tok.Between in
    if between : bool then
      let* low := parse_add in let* _ := eat Tok.And in let* high := parse_add in pret (Between left low high negated_between)
    else
      let* negated_like := negation Tok.Like in
      let* like := accept Tok.Like in
      if like : bool then let* pattern := parse_add in pret (Like left pattern negated_like)
      else
        let* negated_in := negation Tok.In in
        let* in_ := accept Tok.In in
        if in_ : bool then parse_in left negated_in else parse_operator left.

Fixpoint parse_not (ts : list Token) : presult Expr :=
  match ts with
  | Tok.Not :: ts' => match parse_not ts' with
                      | Done e r => Done (UnaryOp Un.Not e) r
                      | Fail e => Fail e
                      | OutOfFuel => OutOfFuel
                      end
  | _ => parse_comparison ts
  end.

Definition parse_and : parser Expr := left_assoc and_op parse_not.
Definition parse_or : parser Expr := left_assoc or_op parse_and.

(** ** Queries *)

Definition parse_projection_item : parser Expr := fun ts =>
  match ts with
  | Tok.Star :: ts' => Done (Wildcard None) ts'
  | Tok.Ident tbl :: Tok.Dot :: Tok.Star :: ts' => Done (Wildcard (Some tbl)) ts'
  | _ => (let* e := parse_expr in let* alias := parse_alias in
          pret (match alias with Some a => Alias e a | None => e end)) ts
  end.

Definition parse_table_ref : parser TableRef :=
  let* paren := accept Tok.LParen in
  if paren : bool then let* q := closed_select in let* _ := accept Tok.As in let* alias := expect_ident in pret (Derived q alias)
  else let* name := expect_ident in let* alias := parse_alias in pret (Named name alias).

(** The kind of join, its words read; [None] ends the joins. *)
Definition join_kind : parser (option JoinKind) := fun ts =>
  let outer k := (let* _ := advance in let* _ := accept Tok.Outer in let* _ := eat Tok.Join in pret (Some k)) ts in
  match peek ts with
  | Tok.Join => (let* _ := advance in pret (Some Kind.Inner)) ts
  | Tok.Inner => (let* _ := advance in let* _ := eat Tok.Join in pret (Some Kind.Inner)) ts
  | Tok.Left => outer Kind.Left
  | Tok.Right => outer Kind.Right
  | Tok.Full => outer Kind.Full
  | Tok.Cross => (let* _ := advance in let* _ := eat Tok.Join in pret (Some Kind.Cross)) ts
  | _ => Done None ts
  end.

Fixpoint joins_loop (fuel : nat) (joins : list Join) : parser (list Join) :=
  fun ts =>
  match fuel with
  | O => OutOfFuel
  | S f =>
      (let* kind := join_kind in
       match kind with
       | None => pret joins
       | Some k => let* table := parse_table_ref in let* on := optional Tok.On parse_expr in
                   joins_loop f (joins ++ [MkJoin k table on])
       end) ts
  end.

Definition parse_joins : parser (list Join) := fun ts => joins_loop (S (length ts)) [] ts.

Definition parse_nulls : parser (option bool) := fun ts =>
  if bool_decide (peek ts = Tok.Ident (bs "nulls")) then
    let ts := tail ts in
    if bool_decide (peek ts = Tok.Ident (bs "first")) then Done (Some true) (tail ts)
    else if bool_decide (peek ts = Tok.Ident (bs "last")) then Done (Some false) (tail ts)
    else Done None ts
  else Done None ts.

Definition parse_order_by_item : parser OrderByItem :=
  let* e := parse_expr in
  let* asc := (fun ts => match peek ts with
                   | Tok.Asc => Done true (tail ts)
                   | Tok.Desc => Done false (tail ts)
                   | _ => Done true ts
                   end) in
  let* nulls := parse_nulls in pret (MkOrderBy e asc nulls).

Definition parse_from : parser (list TableRef * list Join) :=
  let* b := accept Tok.From in
  if b : bool then let* refs := list_of Tok.Comma parse_table_ref in let* joins := parse_joins in pret (refs, joins)
  else pret ([], []).

(** [t BY p], or nothing. *)
Definition by_clause {A} (t : Token) (p : parser (list A)) : parser (list A) :=
  let* b := accept t in if b : bool then let* _ := eat Tok.By in p else pret [].

Definition parse_union : parser (option (bool * SelectStmt)) :=
  optional Tok.Union (let* all := accept Tok.All in let* rhs := parse_select in pret (all, rhs)).

Definition select_body : parser SelectStmt :=
  let* _ := eat Tok.Select in
  let* distinct := accept Tok.Distinct in
  let* columns := list_of Tok.Comma parse_projection_item in
  let* from := parse_from in
  let* where_ := optional Tok.Where parse_expr in
  let* group_by := by_clause Tok.Group parse_expr_list in
  let* having := optional Tok.Having parse_expr in
  let* order_by := by_clause Tok.Order (list_of Tok.Comma parse_order_by_item) in
  let* limit := optional Tok.Limit parse_usize in
  let* offset := optional Tok.Offset parse_usize in
  let* union := parse_union in
  pret (MkSelect distinct columns (fst from) (snd from) where_ group_by having order_by limit offset union).
End Parsers.

(** Expressions and queries nested at most [n] deep. *)
Fixpoint parse_nested (n : nat) : parser Expr * parser SelectStmt :=
  match n with
  | O => (fun _ => OutOfFuel, fun _ => OutOfFuel)
  | S m => let '(e, s) := parse_nested m in (parse_or e s, select_body e s)
  end.

Definition parse_expr (n : nat) : parser Expr := fst (parse_nested n).
Definition parse_select_stmt (n : nat) : parser SelectStmt := snd (parse_nested n).

(** ** Statements *)

Section Statements.
Variable n : nat.

Fixpoint value_rows (fuel : nat) (rows : list (list Expr)) : parser (list (list Expr)) :=
  fun ts =>
  match fuel with
  | O => OutOfFuel
  | S f =>
      (let* _ := eat Tok.LParen in let* row := parse_expr_list (parse_expr n) in let* _ := eat Tok.RParen in let* comma := accept Tok.Comma in
       if comma : bool then value_rows f (rows ++ [row]) else pret (rows ++ [row])) ts
  end.

Definition parse_insert : parser InsertStmt :=
  let* _ := eat Tok.Insert in let* _ := eat Tok.Into in let* table := expect_ident in
  let* paren := accept Tok.LParen in
  let* columns := (if paren : bool then let* cols := list_of Tok.Comma expect_ident in let* _ := eat Tok.RParen in pret cols else pret []) in
  let* _ := eat Tok.Values in
  let* values := (fun ts => value_rows (S (length ts)) [] ts) in
  pret {| i_table := table; i_columns := columns; i_values := values |}.

Definition parse_set_item : parser (Bytes * Expr) :=
  let* col := expect_ident in let* _ := eat Tok.Eq in let* e := parse_expr n in pret (col, e).

Definition parse_update : parser UpdateStmt :=
  let* _ := eat Tok.Update in let* table := expect_ident in let* alias := parse_alias in let* _ := eat Tok.SetKw in
  let* sets := list_of Tok.Comma parse_set_item in
  let* where_ := optional Tok.Where (parse_expr n) in
  pret {| u_table := table; u_alias := alias; u_sets := sets; u_where := where_ |}.

Definition parse_delete : parser DeleteStmt :=
  let* _ := eat Tok.Delete in let* _ := eat Tok.From in let* table := expect_ident in let* where_ := optional Tok.Where (parse_expr n) in
  pret {| d_table := table; d_where := where_ |}.

Definition parse_statement : parser Statement := fun ts =>
  match peek ts with
  | Tok.Select => (let* s := parse_select_stmt n in pret (SelectS s)) ts
  | Tok.Insert => (let* s := parse_insert in pret (InsertS s)) ts
  | Tok.Update => (let* s := parse_update in pret (UpdateS s)) ts
  | Tok.Delete => (let* s := parse_delete in pret (DeleteS s)) ts
  | _ => Fail (InvalidArgument (bs "Expected SELECT/INSERT/UPDATE/DELETE"))
  end.
End Statements.

(** What follows the statement, a semicolon apart, is ignored. *)
Definition parse_tokens (ts : list Token) : option (result VoltraError Statement) :=
  match parse_statement (S (length ts)) ts with
  | Done s _ => Some (Ok s)
  | Fail e => Some (Err e)
  | OutOfFuel => None
  end.

Definition parse (sql : Bytes) : option (result VoltraError Statement) :=
  r ← tokenize sql; match r with Ok ts => parse_tokens ts | Err e => Some (Err e) end.

Definition parse_select (sql : Bytes) : option (result VoltraError SelectStmt) :=
  r ← parse sql;
  Some (s ← r; match s with SelectS s => Ok s | _ => Err (InvalidArgument (bs "Expected SELECT statement")) end).

(** ** The SQL front end reads every text, and reads back what is written

    Lexing and parsing end on every input: fuel of one more than the bytes, or the tokens, is
    enough. And a printer that puts parentheses where precedence asks for them shows that
    every query of the grammar has a text of tokens that parses to it. *)

#[local] Open Scope parser_scope.

(** ** Progress *)

(** On fewer than [k] tokens the parser does not run out of fuel, and leaves at least [d]
    fewer than it was given. *)
Definition fine {A} (k d : nat) (p : parser A) : Prop := forall ts, (length ts < k)%nat ->
  match p ts with Done _ r => (length r + d <= length ts)%nat | Fail _ => True | OutOfFuel => False end.

Lemma fine_ret {A} k (a : A) : fine k 0 (pret a).
Proof. intros ts _. cbn. lia. Qed.

Lemma fine_fail {A} k d m : fine k d (@pfail A m).
Proof. by intros ts _. Qed.

Lemma fine_weaken {A} k k' d d' (p : parser A) : fine k d p -> (k' <= k)%nat -> (d' <= d)%nat -> fine k' d' p.
Proof. intros Hp Hk Hd ts Hl. specialize (Hp ts ltac:(lia)). destruct (p ts); [lia|done|done]. Qed.

Lemma fine_bind {A B} k d d' (p : parser A) (f : A -> parser B) :
  fine k d p -> (forall a, fine (k - d) d' (f a)) -> fine k (d + d') (pbind p f).
Proof.
  intros Hp Hf ts Hl. unfold pbind. specialize (Hp ts Hl). destruct (p ts) as [a r|e|]; [|done|done].
  specialize (Hf a r ltac:(lia)). destruct (f a r); [lia|done|done].
Qed.

Lemma fine_bind0 {A B} k d (p : parser A) (f : A -> parser B) :
  fine k d p -> (forall a, fine (k - d) 0 (f a)) -> fine k d (pbind p f).
Proof. intros Hp Hf. rewrite (plus_n_O d). by apply fine_bind. Qed.

Lemma fine_bind_r {A B} k d (p : parser A) (f : A -> parser B) :
  fine k 0 p -> (forall a, fine k d (f a)) -> fine k d (pbind p f).
Proof. intros Hp Hf. apply (fine_bind k 0 d); [done|]. intros a. by rewrite Nat.sub_0_r. Qed.

Lemma fine_fun {A} k d (p : list Token -> presult A) :
  (forall ts, (length ts < k)%nat ->
     match p ts with Done _ r => (length r + d <= length ts)%nat | Fail _ => True | OutOfFuel => False end) -> fine k d p.
Proof. done. Qed.

Lemma fine_accept k t : fine k 0 (accept t).
Proof. intros ts _. unfold accept. case_bool_decide; [destruct ts; cbn; lia|lia]. Qed.

(** After a token is accepted there is one less. *)
Lemma fine_accept_if {A} k t (p q : parser A) : t <> Tok.Eof ->
  fine (k - 1) 0 p -> fine k 0 q -> fine k 0 (let* b := accept t in if b : bool then p else q).
Proof.
  intros Ht Hp Hq ts Hl. unfold pbind, accept. case_bool_decide as E; [|exact (Hq ts Hl)].
  destruct ts as [|t' ts]; [cbn in E; congruence|]. cbn [tail] in *. cbn [length] in Hl. specialize (Hp ts ltac:(lia)).
  destruct (p ts); [cbn; lia|done|done].
Qed.

Lemma fine_eat k t : t <> Tok.Eof -> fine k 1 (eat t).
Proof.
  intros Ht ts Hl. unfold eat, pbind, accept. case_bool_decide as E; [|done].
  destruct ts as [|t' ts]; [cbn in E; congruence|]. cbn. lia.
Qed.

Lemma fine_expect_ident k : fine k 1 expect_ident.
Proof.
  intros [|t ts] Hl; [done|]. unfold expect_ident, pbind, advance. cbn [peek tail].
  destruct (ident_of t); cbn; [lia|done].
Qed.

Lemma fine_optional {A} k t (p : parser A) : t <> Tok.Eof -> fine (k - 1) 0 p -> fine k 0 (optional t p).
Proof.
  intros Ht Hp. unfold optional. apply fine_accept_if; [done| |apply fine_ret].
  apply fine_bind_r; [done|]. intros a. apply fine_ret.
Qed.

Lemma fine_alias k : fine k 0 parse_alias.
Proof.
  unfold parse_alias. apply fine_accept_if; [done| |].
  - apply (fine_weaken (k - 1) _ 1); [apply fine_bind0; [apply fine_expect_ident|intros a; apply fine_ret]|lia|lia].
  - apply fine_fun. intros ts Hl. destruct (is_ident (peek ts)); [|lia].
    assert (Hf : fine k 1 (let* a := expect_ident in pret (Some a)))
      by (apply fine_bind0; [apply fine_expect_ident|intros a; apply fine_ret]).
    specialize (Hf ts Hl). destruct (pbind _ _ ts); [lia|done|done].
Qed.

Lemma fine_usize k : fine k 0 parse_usize.
Proof.
  intros ts Hl. unfold parse_usize, pbind, advance. destruct (peek ts); try done. destruct (0 <=? n); [|done].
  destruct ts; cbn; lia.
Qed.

Create HintDb fine.
#[local] Hint Resolve fine_ret fine_fail fine_accept fine_expect_ident fine_alias fine_usize : fine.
#[local] Hint Extern 2 (fine _ _ (eat _)) => (apply fine_eat; discriminate) : fine.

(** ** Loops *)

Lemma fine_nothing {A} d (p : parser A) : fine 0 d p.
Proof. intros ts Hl. lia. Qed.

Lemma fine_more {A} sep (p : parser A) : sep <> Tok.Eof -> forall f k v, fine (k - 1) 0 p -> (k <= f)%nat ->
  fine k 0 (more_loop f sep p v).
Proof.
  intros Hs. induction f as [|f IH]; intros k v Hp Hf; [replace k with 0%nat by lia; apply fine_nothing|].
  change (fine k 0 (let* b := accept sep in if b : bool then let* a := p in more_loop f sep p (v ++ [a]) else pret v)).
  apply fine_accept_if; [done| |apply fine_ret]. apply fine_bind_r; [done|]. intros a. apply IH; [|lia].
  eapply fine_weaken; [exact Hp|lia|lia].
Qed.

(** A loop started with fuel for the tokens it gets. *)
Lemma fine_started {A} k (loop : nat -> parser A) :
  (forall f k', (k' <= k)%nat -> (k' <= f)%nat -> fine k' 0 (loop f)) -> fine k 0 (fun ts => loop (S (length ts)) ts).
Proof. intros Hl ts Ht. apply (Hl (S (length ts)) (S (length ts))); lia. Qed.

Lemma fine_list_of {A} k d sep (p : parser A) : sep <> Tok.Eof -> fine k d p -> fine k d (list_of sep p).
Proof.
  intros Hs Hp. unfold list_of. apply fine_bind0; [done|]. intros a.
  apply (fine_started (k - d) (fun f => more_loop f sep p [a])). intros f k' Hk' Hf. apply fine_more; [done| |done].
  eapply fine_weaken; [exact Hp|lia|lia].
Qed.

Lemma op_progress {B} (op_of : Token -> option B) ts op : op_of Tok.Eof = None -> op_of (peek ts) = Some op ->
  exists t ts', ts = t :: ts'.
Proof. intros H0 H1. destruct ts as [|t ts]; [cbn in H1; congruence|by eauto]. Qed.

Lemma fine_binary op_of (p : parser Expr) : op_of Tok.Eof = None -> forall f k e, fine (k - 1) 0 p -> (k <= f)%nat ->
  fine k 0 (binary_loop f op_of p e).
Proof.
  intros H0. induction f as [|f IH]; intros k e Hp Hf; [replace k with 0%nat by lia; apply fine_nothing|].
  intros ts Hl. cbn [binary_loop].
  destruct (op_of (peek ts)) as [op|] eqn:E; [|cbn; lia]. destruct (op_progress _ _ _ H0 E) as (t & ts' & ->).
  cbn [tail]. cbn [length] in *.
  assert (Hb : fine (k - 1) 0 (let* right := p in binary_loop f op_of p (BinaryOp e op right))).
  { apply fine_bind_r; [done|]. intros a. apply IH; [|lia]. eapply fine_weaken; [exact Hp|lia|lia]. }
  specialize (Hb ts' ltac:(lia)). destruct (pbind _ _ ts'); [lia|done|done].
Qed.

Lemma fine_left_assoc k op_of p : op_of Tok.Eof = None -> fine k 1 p -> fine k 1 (left_assoc op_of p).
Proof.
  intros H0 Hp. unfold left_assoc. apply fine_bind0; [done|]. intros a.
  apply (fine_started (k - 1) (fun f => binary_loop f op_of p a)). intros f k' Hk' Hf. apply fine_binary; [done| |done].
  eapply fine_weaken; [exact Hp|lia|lia].
Qed.

(** A first token that is there. *)
Lemma fine_advance {A} k d t ts (p : Token -> parser A) : (length (t :: ts) < k)%nat -> fine (k - 1) d (p t) ->
  match pbind advance p (t :: ts) with Done _ r => (length r + S d <= length (t :: ts))%nat | Fail _ => True | OutOfFuel => False end.
Proof.
  intros Hl Hp. unfold pbind, advance. cbn [peek tail]. cbn [length] in *. specialize (Hp ts ltac:(lia)).
  destruct (p t ts); [lia|done|done].
Qed.

Lemma fine_advance0 k : fine k 0 advance.
Proof. intros [|t ts] _; cbn; lia. Qed.

(** ** The parsers *)

(** Steps of a parser written as binds. *)
Ltac fine_step :=
  match goal with
  | |- fine _ _ (let* b := accept _ in if b then _ else _) => apply fine_accept_if; [discriminate| |]
  | |- fine _ 0 (pbind _ _) => eapply (fine_bind_r _ 0); [|intros ?]
  | |- fine _ _ (pret _) => apply fine_ret
  | |- fine _ _ (pfail _) => apply fine_fail
  | |- fine _ 0 (optional _ _) => apply fine_optional; [discriminate|]
  end.

(** A weaker form of what is known. *)
Ltac fine_known H := eapply fine_weaken; [exact H|lia|lia].

Section Parsers.
Variables (parse_expr : parser Expr) (parse_select : parser SelectStmt) (m : nat).
Hypothesis He : fine m 1 parse_expr.
Hypothesis Hs : fine m 1 parse_select.

Lemma fine_expr k d : (k <= m)%nat -> (d <= 1)%nat -> fine k d parse_expr.
Proof. intros ? ?. fine_known He. Qed.
Lemma fine_select k d : (k <= m)%nat -> (d <= 1)%nat -> fine k d parse_select.
Proof. intros ? ?. fine_known Hs. Qed.
Lemma fine_eat0 k t : t <> Tok.Eof -> fine k 0 (eat t).
Proof. intros Ht. fine_known (fine_eat k t Ht). Qed.
Lemma fine_ident0 k : fine k 0 expect_ident.
Proof. fine_known (fine_expect_ident k). Qed.

#[local] Hint Resolve fine_expr fine_select fine_ident0 : fine.
#[local] Hint Extern 2 (fine _ 0 (eat _)) => (apply fine_eat0; discriminate) : fine.
#[local] Hint Extern 5 (_ <= _)%nat => lia : fine.

Lemma fine_expr_list k : (k <= m)%nat -> fine k 0 (parse_expr_list parse_expr).
Proof. intros Hk. apply fine_list_of; [done|auto with fine]. Qed.
#[local] Hint Resolve fine_expr_list : fine.

Ltac go := repeat (fine_step; auto with fine).

Lemma fine_if {A} k d (c : list Token -> bool) (p q : parser A) :
  fine k d p -> fine k d q -> fine k d (fun ts => if c ts then p ts else q ts).
Proof. intros Hp Hq ts Hl. destruct (c ts); [exact (Hp ts Hl)|exact (Hq ts Hl)]. Qed.

Lemma fine_call_args k : (k <= m)%nat -> fine k 0 (call_args parse_expr).
Proof.
  intros Hk. unfold call_args.
  change (fine k 0 (fun ts => (let* args := (if bool_decide (peek ts = Tok.RParen) then pret [] else parse_expr_list parse_expr) in
                               let* _ := eat Tok.RParen in pret args) ts)).
  intros ts Hl. case_bool_decide; refine ((_ : fine k 0 _) ts Hl); go.
Qed.
#[local] Hint Resolve fine_call_args : fine.

Lemma fine_closed k : (k <= m)%nat -> fine k 0 (closed_select parse_select).
Proof. intros Hk. unfold closed_select. go. Qed.
#[local] Hint Resolve fine_closed : fine.

Lemma fine_literal v t ts : (length (t :: ts) < S m)%nat ->
  match literal v (t :: ts) with Done _ r => (length r + 1 <= length (t :: ts))%nat | Fail _ => True | OutOfFuel => False end.
Proof. intros Hl. apply (fine_advance (S m) 0 t ts (fun _ => pret (Literal v)) Hl). apply fine_ret. Qed.

Lemma fine_when : forall f k branches, (k <= m)%nat -> (k <= f)%nat -> fine k 0 (when_loop parse_expr f branches).
Proof.
  induction f as [|f IH]; intros k branches Hk Hf; [replace k with 0%nat by lia; apply fine_nothing|].
  change (fine k 0 (let* b := accept Tok.When in
    if b : bool then let* cond := parse_expr in let* _ := eat Tok.Then in let* result := parse_expr in
      when_loop parse_expr f (branches ++ [(cond, result)]) else pret branches)).
  apply fine_accept_if; [done| |apply fine_ret]. do 3 (fine_step; [auto with fine|]). apply IH; lia.
Qed.

Lemma fine_case k : (k <= m)%nat -> fine (S k) 1 (parse_case parse_expr).
Proof.
  intros Hk. unfold parse_case. apply fine_bind0; [apply fine_eat; done|]. intros _.
  replace (S k - 1)%nat with k by lia. fine_step.
  { apply (fine_if k 0 (fun ts => bool_decide (peek ts = Tok.When)) (fun ts => Done None ts)
             (let* e := parse_expr in pret (Some e))); [apply fine_ret|go]. }
  fine_step. { apply (fine_started k (fun f => when_loop parse_expr f [])). intros f k' ? ?. apply fine_when; lia. }
  go.
Qed.

Lemma fine_named name k : (k <= m)%nat -> fine k 0 (parse_named parse_expr name).
Proof.
  intros Hk. unfold parse_named. fine_step; [fine_step; [apply fine_ret|go]|].
  fine_step; [|apply fine_ret]. fine_step; [auto with fine|apply fine_ret].
Qed.

(** A token, then a parser that may nest. *)
Lemma fine_after {A} t ts (p : parser A) : (length (t :: ts) < S m)%nat -> fine m 0 p ->
  match pbind advance (fun _ => p) (t :: ts) with
  | Done _ r => (length r + 1 <= length (t :: ts))%nat | Fail _ => True | OutOfFuel => False end.
Proof. intros Hl Hp. apply (fine_advance (S m) 0 t ts (fun _ => p) Hl). fine_known Hp. Qed.

Lemma fine_fn name t ts : (length (t :: ts) < S m)%nat ->
  match parse_scalar_fn parse_expr name (t :: ts) with
  | Done _ r => (length r + 1 <= length (t :: ts))%nat | Fail _ => True | OutOfFuel => False end.
Proof. intros Hl. unfold parse_scalar_fn. apply fine_after; [done|]. go. Qed.

Lemma fine_aggregate func t ts : (length (t :: ts) < S m)%nat ->
  match parse_aggregate parse_expr func (t :: ts) with
  | Done _ r => (length r + 1 <= length (t :: ts))%nat | Fail _ => True | OutOfFuel => False end.
Proof.
  intros Hl. unfold parse_aggregate. apply fine_after; [done|]. do 2 (fine_step; [auto with fine|]). fine_step.
  { intros ts' Hl'. destruct (_ && _); [destruct ts'; cbn; lia|].
    refine ((_ : fine m 0 (let* e := parse_expr in pret (Some e))) ts' Hl'). go. }
  go.
Qed.

Lemma fine_cast t ts : (length (t :: ts) < S m)%nat ->
  match parse_cast parse_expr (t :: ts) with
  | Done _ r => (length r + 1 <= length (t :: ts))%nat | Fail _ => True | OutOfFuel => False end.
Proof. intros Hl. unfold parse_cast. apply fine_after; [done|]. go. Qed.

Lemma fine_paren t ts : (length (t :: ts) < S m)%nat ->
  match pbind advance (fun _ ts => if bool_decide (peek ts = Tok.Select)
      then (let* q := closed_select parse_select in pret (Subquery q)) ts
      else (let* e := parse_expr in let* _ := eat Tok.RParen in pret e) ts) (t :: ts) with
  | Done _ r => (length r + 1 <= length (t :: ts))%nat | Fail _ => True | OutOfFuel => False end.
Proof. intros Hl. apply fine_after; [done|]. apply fine_if; go. Qed.

Lemma fine_primary : fine (S m) 1 (parse_primary parse_expr parse_select).
Proof.
  intros [|t ts] Hl; [done|]. unfold parse_primary. cbn [peek].
  destruct t; cbn iota; try exact I;
    lazymatch goal with
    | |- match literal ?v _ with _ => _ end => exact (fine_literal v _ _ Hl)
    | |- match parse_scalar_fn _ ?n _ with _ => _ end => exact (fine_fn n _ _ Hl)
    | |- match parse_aggregate _ ?f _ with _ => _ end => exact (fine_aggregate f _ _ Hl)
    | |- match parse_cast _ _ with _ => _ end => exact (fine_cast _ _ Hl)
    | _ => idtac
    end.
  - apply fine_after; [done|]. by apply fine_named.
  - apply fine_after; [done|]. go.
  - exact (fine_case m (le_n m) (Tok.Case :: ts) Hl).
  - exact (fine_paren _ _ Hl).
Qed.

Lemma fine_unary : fine (S m) 1 (parse_unary parse_expr parse_select).
Proof.
  intros ts. induction ts as [|t ts IH]; intros Hl; [done|]. cbn [parse_unary].
  destruct (unary_op t) as [op|]; [|exact (fine_primary (t :: ts) Hl)]. cbn [length] in *. specialize (IH ltac:(lia)).
  destruct (parse_unary _ _ ts); [lia|done|done].
Qed.

Lemma fine_mul : fine (S m) 1 (parse_mul parse_expr parse_select).
Proof. apply fine_left_assoc; [done|apply fine_unary]. Qed.
Lemma fine_add : fine (S m) 1 (parse_add parse_expr parse_select).
Proof. apply fine_left_assoc; [done|apply fine_mul]. Qed.
Lemma fine_add0 k : (k <= S m)%nat -> fine k 0 (parse_add parse_expr parse_select).
Proof. intros Hk. fine_known fine_add. Qed.
#[local] Hint Resolve fine_add0 : fine.

Lemma fine_negation k t : fine k 0 (negation t).
Proof. intros ts _. unfold negation. destruct (_ && _); [destruct ts; cbn; lia|lia]. Qed.
#[local] Hint Resolve fine_negation : fine.

Lemma fine_in e negated : fine m 0 (parse_in parse_expr parse_select e negated).
Proof. unfold parse_in. fine_step; [auto with fine|]. apply fine_if; go. Qed.

Lemma fine_operator e : fine m 0 (parse_operator parse_expr parse_select e).
Proof.
  intros ts Hl. unfold parse_operator. destruct (cmp_op (peek ts)) as [op|] eqn:E; [|lia].
  destruct (op_progress cmp_op ts op eq_refl E) as (t & ts' & ->). cbn [tail]. cbn [length] in *.
  assert (Hp : fine m 0 (let* right := parse_add parse_expr parse_select in pret (BinaryOp e op right))) by go.
  specialize (Hp ts' ltac:(lia)). destruct (pbind _ _ ts'); [lia|done|done].
Qed.

Lemma fine_bool_if {A} k d (p q : bool -> parser A) b :
  fine k d (p b) -> fine k d (q b) -> fine k d (if b then p b else q b).
Proof. by destruct b. Qed.

Lemma fine_comparison : fine (S m) 1 (parse_comparison parse_expr parse_select).
Proof.
  unfold parse_comparison. apply fine_bind0; [apply fine_add|]. intros e. replace (S m - 1)%nat with m by lia.
  fine_step; [go|]. do 2 (fine_step; [auto with fine|]; fine_step; [go|]).
  fine_step; [auto with fine|]. fine_step; [apply (fine_weaken m _ 0 0); [apply fine_in|lia|lia]|apply fine_operator].
Qed.

Lemma fine_not : fine (S m) 1 (parse_not parse_expr parse_select).
Proof.
  intros ts. induction ts as [|t ts IH]; intros Hl; [exact (fine_comparison [] Hl)|].
  destruct (decide (t = Tok.Not)) as [->|Hn].
  - cbn [parse_not length] in *. specialize (IH ltac:(lia)). destruct (parse_not _ _ ts); [lia|done|done].
  - replace (parse_not parse_expr parse_select (t :: ts)) with (parse_comparison parse_expr parse_select (t :: ts))
      by (by destruct t). exact (fine_comparison (t :: ts) Hl).
Qed.

Lemma fine_or : fine (S m) 1 (parse_or parse_expr parse_select).
Proof. do 2 (apply fine_left_assoc; [done|]). apply fine_not. Qed.

(** ** Queries *)

Lemma fine_item k : (k <= m)%nat -> fine k 1 (parse_projection_item parse_expr).
Proof.
  intros Hk ts Hl. unfold parse_projection_item.
  assert (Hd : fine k 1 (let* e := parse_expr in let* alias := parse_alias in
                         pret (match alias with Some a => Alias e a | None => e end))).
  { apply fine_bind0; [fine_known He|]. intros e. go. }
  specialize (Hd ts Hl). destruct ts as [|t ts]; [exact Hd|].
  destruct t; try exact Hd; [|cbn; lia].
  destruct ts as [|t2 ts]; [exact Hd|]. destruct t2; try exact Hd.
  destruct ts as [|t3 ts]; [exact Hd|]. destruct t3; try exact Hd. cbn. lia.
Qed.

Lemma fine_table_ref k : (k <= m)%nat -> fine k 0 (parse_table_ref parse_select).
Proof. intros Hk. unfold parse_table_ref. fine_step; go. Qed.

Lemma fine_join_kind k : fine k 0 join_kind.
Proof.
  intros ts Hl. unfold join_kind.
  assert (Hk : forall o : JoinKind, fine k 0 (let* _ := advance in let* _ := accept Tok.Outer in let* _ := eat Tok.Join in pret (Some o))).
  { intros o. fine_step; [apply fine_advance0|go]. }
  assert (Hj : forall o : JoinKind, fine k 0 (let* _ := advance in let* _ := eat Tok.Join in pret (Some o))).
  { intros o. fine_step; [apply fine_advance0|go]. }
  assert (Ha : forall o : JoinKind, fine k 0 (let* _ := advance in pret (Some o))).
  { intros o. fine_step; [apply fine_advance0|go]. }
  destruct (peek ts); try (cbn; lia);
    [exact (Ha Kind.Inner ts Hl)|exact (Hj Kind.Inner ts Hl)|exact (Hk Kind.Left ts Hl)|exact (Hk Kind.Right ts Hl)
    |exact (Hk Kind.Full ts Hl)|exact (Hj Kind.Cross ts Hl)].
Qed.

Lemma join_kind_progress k o ts r : join_kind ts = Done (Some o) r -> (length ts < k)%nat -> (length r < length ts)%nat.
Proof.
  unfold join_kind. destruct ts as [|t ts]; [done|]. cbn [peek].
  assert (Hj : forall (p : parser (option JoinKind)), fine k 0 p -> (let* _ := advance in p) (t :: ts) = Done (Some o) r ->
    (length (t :: ts) < k)%nat -> (length r < length (t :: ts))%nat).
  { intros p Hp E Hl. unfold pbind, advance in E. cbn [tail] in E. cbn [length] in *. specialize (Hp ts ltac:(lia)).
    rewrite E in Hp. lia. }
  destruct t; cbn iota zeta; try done; intros E; (eapply Hj; [|exact E]); clear; go.
Qed.

Lemma fine_joins : forall f k joins, (k <= m)%nat -> (k <= f)%nat -> fine k 0 (joins_loop parse_expr parse_select f joins).
Proof.
  induction f as [|f IH]; intros k joins Hk Hf; [replace k with 0%nat by lia; apply fine_nothing|].
  intros ts Hl. cbn [joins_loop]. unfold pbind at 1. pose proof (fine_join_kind k ts Hl) as Hj.
  destruct (join_kind ts) as [[o|] r|e|] eqn:E; [|cbn in *; lia|done|done].
  pose proof (join_kind_progress k o ts r E Hl) as Hp.
  assert (Hr : fine (k - 1) 0 (let* table := parse_table_ref parse_select in let* on := optional Tok.On parse_expr in
    joins_loop parse_expr parse_select f (joins ++ [MkJoin o table on]))).
  { fine_step; [apply fine_table_ref; lia|]. fine_step; [go|]. apply IH; lia. }
  specialize (Hr r ltac:(lia)). destruct (pbind _ _ r); [lia|done|done].
Qed.

Lemma fine_nulls k : fine k 0 parse_nulls.
Proof.
  intros ts _. unfold parse_nulls. 
  destruct ts as [|t [|t2 ts]]; cbn [peek tail]; repeat case_bool_decide; cbn; lia.
Qed.

Lemma fine_order_item k : (k <= m)%nat -> fine k 0 (parse_order_by_item parse_expr).
Proof.
  intros Hk. unfold parse_order_by_item. fine_step; [auto with fine|]. fine_step.
  { intros ts _. destruct (peek ts); try lia; destruct ts; cbn; lia. }
  fine_step; [apply fine_nulls|apply fine_ret].
Qed.

Lemma fine_from k : (k <= m)%nat -> fine k 0 (parse_from parse_expr parse_select).
Proof.
  intros Hk. unfold parse_from. fine_step; [|apply fine_ret].
  fine_step; [apply fine_list_of; [done|apply fine_table_ref; lia]|].
  fine_step; [|apply fine_ret]. unfold parse_joins.
  apply (fine_started (k - 1) (fun f => joins_loop parse_expr parse_select f [])). intros f k' ? ?. apply fine_joins; lia.
Qed.

Lemma fine_by {A} k t (p : parser (list A)) : t <> Tok.Eof -> (forall k', (k' <= k)%nat -> fine k' 0 p) -> fine k 0 (by_clause t p).
Proof.
  intros Ht Hp. unfold by_clause. apply fine_accept_if; [done| |apply fine_ret]. fine_step; [auto with fine|]. apply Hp. lia.
Qed.

Lemma fine_body : fine (S m) 1 (select_body parse_expr parse_select).
Proof.
  unfold select_body. apply fine_bind0; [apply fine_eat; done|]. intros _. replace (S m - 1)%nat with m by lia.
  fine_step; [auto with fine|].
  fine_step; [eapply fine_weaken; [apply (fine_list_of m 1); [done|apply fine_item; lia]|lia|lia]|].
  fine_step; [by apply fine_from|]. fine_step; [go|].
  fine_step; [apply fine_by; [done|auto with fine]|]. fine_step; [go|].
  fine_step; [apply fine_by; [done|intros k' ?; apply fine_list_of; [done|by apply fine_order_item]]|].
  do 2 (fine_step; [go|]). fine_step; [|apply fine_ret]. unfold parse_union. go.
Qed.
End Parsers.

Lemma parse_nested_fine n : fine n 1 (fst (parse_nested n)) /\ fine n 1 (snd (parse_nested n)).
Proof.
  induction n as [|n [IHe IHs]]; [split; apply fine_nothing|]. cbn [parse_nested].
  destruct (parse_nested n) as [e s]. cbn [fst snd] in *. split; [by apply fine_or|by apply fine_body].
Qed.

Lemma fine_expr_n n k : (k <= n)%nat -> fine k 0 (parse_expr n).
Proof. intros Hk. fine_known (proj1 (parse_nested_fine n)). Qed.

(** ** Statements *)

Section Statements.
Variable n : nat.
#[local] Hint Resolve fine_expr_n fine_ident0 : fine.
#[local] Hint Extern 2 (fine _ 0 (eat _)) => (apply fine_eat0; discriminate) : fine.
#[local] Hint Extern 5 (_ <= _)%nat => lia : fine.
Ltac go := repeat (fine_step; auto with fine).

Lemma fine_value_rows : forall f k rows, (k <= n)%nat -> (k <= f)%nat -> fine k 0 (value_rows n f rows).
Proof.
  induction f as [|f IH]; intros k rows Hk Hf; [replace k with 0%nat by lia; apply fine_nothing|].
  change (fine k 0 (let* _ := eat Tok.LParen in let* row := parse_expr_list (parse_expr n) in let* _ := eat Tok.RParen in
    let* comma := accept Tok.Comma in if comma : bool then value_rows n f (rows ++ [row]) else pret (rows ++ [row]))).
  fine_step; [auto with fine|]. fine_step; [apply fine_list_of; [done|auto with fine]|]. fine_step; [auto with fine|].
  fine_step; [apply IH; lia|apply fine_ret].
Qed.

Lemma fine_insert : fine n 0 (parse_insert n).
Proof.
  unfold parse_insert. do 3 (fine_step; [auto with fine|]). fine_step; [auto with fine|].
  fine_step; [match goal with |- fine _ _ (if ?b then _ else _) => destruct b end;
              [fine_step; [apply fine_list_of; [done|auto with fine]|go]|go]|].
  fine_step; [auto with fine|]. fine_step; [|apply fine_ret].
  apply (fine_started n (fun f => value_rows n f [])). intros f k' ? ?. apply fine_value_rows; lia.
Qed.

Lemma fine_update : fine n 0 (parse_update n).
Proof.
  unfold parse_update. do 4 (fine_step; [auto with fine|]).
  fine_step; [apply fine_list_of; [done|unfold parse_set_item; go]|]. go.
Qed.

Lemma fine_delete : fine n 0 (parse_delete n).
Proof. unfold parse_delete. go. Qed.

Lemma fine_statement : fine n 0 (parse_statement n).
Proof.
  intros ts Hl. unfold parse_statement. destruct (peek ts); try done.
  - refine ((_ : fine n 0 (let* s := parse_select_stmt n in pret (SelectS s))) ts Hl).
    fine_step; [fine_known (proj2 (parse_nested_fine n))|apply fine_ret].
  - refine ((_ : fine n 0 (let* s := parse_insert n in pret (InsertS s))) ts Hl). fine_step; [apply fine_insert|apply fine_ret].
  - refine ((_ : fine n 0 (let* s := parse_update n in pret (UpdateS s))) ts Hl). fine_step; [apply fine_update|apply fine_ret].
  - refine ((_ : fine n 0 (let* s := parse_delete n in pret (DeleteS s))) ts Hl). fine_step; [apply fine_delete|apply fine_ret].
Qed.
End Statements.

Lemma parse_tokens_total ts : is_Some (parse_tokens ts).
Proof.
  unfold parse_tokens. pose proof (fine_statement (S (length ts)) ts ltac:(lia)) as Hf.
  destruct (parse_statement _ ts); [by eexists|by eexists|done].
Qed.

(** ** The lexer *)

Lemma skip_whitespace_shorter l : (length (skip_whitespace l) <= length l)%nat.
Proof. induction l as [|c l IH]; [done|]. cbn [skip_whitespace]. destruct (is_ascii_whitespace c); cbn [length]; lia. Qed.

Lemma skip_line_comment_shorter l : (length (skip_line_comment l) <= length l)%nat.
Proof. induction l as [|c l IH]; [done|]. cbn [skip_line_comment]. destruct (c =? 10); cbn [length]; lia. Qed.

Lemma read_string_shorter q : forall n l s t r, (length l <= n)%nat -> read_string q s l = Ok (t, r) -> (length r <= length l)%nat.
Proof.
  induction n as [|n IH]; intros l s t r Hn; [destruct l; [done|cbn in Hn; lia]|].
  destruct l as [|c l]; [done|]. cbn [read_string length] in *. destruct (c =? q).
  - destruct l as [|c2 l]; [intros [= <- <-]; cbn; lia|]. cbn [length] in *.
    destruct (c2 =? q); [|intros [= <- <-]; cbn; lia]. intros H%IH; lia.
  - destruct (c =? 92).
    + destruct l as [|c2 l]; [done|]. cbn [length] in *. intros H%IH; lia.
    + intros H%IH; lia.
Qed.

Lemma read_quoted_shorter l : forall s t r, read_quoted_ident s l = Ok (t, r) -> (length r <= length l)%nat.
Proof.
  induction l as [|c l IH]; intros s t r; [done|]. cbn [read_quoted_ident length].
  destruct (_ || _); [intros [= <- <-]; lia|]. intros H%IH. lia.
Qed.

Lemma read_number_shorter : forall n l s b s' b' r, (length l <= n)%nat ->
  read_number_loop s b l = (s', b', r) -> (length r <= length l)%nat.
Proof.
  induction n as [|n IH]; intros l s b s' b' r Hn; [destruct l; [intros [= <- <- <-]; lia|cbn in Hn; lia]|].
  destruct l as [|c l]; [intros [= <- <- <-]; lia|]. cbn [read_number_loop length] in *.
  destruct (is_ascii_digit c); [intros H%IH; lia|].
  destruct (_ && _ && _); [intros H%IH; lia|].
  destruct (_ && _); [|intros [= <- <- <-]; cbn; lia].
  destruct l as [|c2 l]; [intros [= <- <- <-]; cbn; lia|]. cbn [length] in *.
  destruct (_ || _); intros H%IH; cbn [length] in *; lia.
Qed.

Lemma ident_chars_shorter l : forall s r, ident_chars l = (s, r) -> (length r <= length l)%nat.
Proof.
  induction l as [|c l IH]; intros s r; [intros [= <- <-]; cbn; lia|]. cbn [ident_chars length].
  destruct (is_ident_char c); [|intros [= <- <-]; cbn; lia].
  destruct (ident_chars l) as [s' r']. intros [= <- <-]. specialize (IH _ _ eq_refl). lia.
Qed.

Lemma token_at_shorter c l t r : token_at c l = Ok (t, r) -> (length r <= length l)%nat.
Proof.
  unfold token_at. cbv zeta.
  assert (Hone : forall a, Ok (Some a, l) = Ok (t, r) :> result VoltraError (option Token * Bytes) -> (length r <= length l)%nat)
    by (by intros a [= _ <-]).
  assert (Htwo : forall c2 t2 other, (other = Ok (t, r) -> (length r <= length l)%nat) ->
    match l with c :: l' => if c =? c2 then Ok (Some t2, l') else other | [] => other end
      = Ok (t, r) :> result VoltraError (option Token * Bytes) -> (length r <= length l)%nat).
  { intros c2 t2 other Ho. destruct l as [|c' l']; [exact Ho|]. destruct (c' =? c2); [intros [= _ <-]; cbn; lia|exact Ho]. }
  destruct (c =? 39).
  { destruct (read_string 39 [] l) as [[t' r']|e] eqn:E; [|done]. intros [= _ <-]. by eapply read_string_shorter. }
  destruct (_ || _).
  { destruct (read_quoted_ident [] l) as [[t' r']|e] eqn:E; [|done]. intros [= _ <-]. by eapply read_quoted_shorter. }
  repeat match goal with
  | |- (if c =? 45 then _ else _) = _ -> _ => destruct (c =? 45);
      [destruct l as [|c' l']; [apply Hone|]; destruct (c' =? 45); [|apply Hone];
       intros [= _ <-]; pose proof (skip_line_comment_shorter l'); cbn; lia|]
  | |- (if c =? ?k then _ else _) = _ -> _ => destruct (c =? k); [first [apply Hone|repeat (apply Htwo; try done); try apply Hone]|]
  end.
  destruct (is_ascii_digit c).
  { unfold read_number. destruct (read_number_loop [c] false l) as [[s b] r'] eqn:E. intros [= _ <-].
    by eapply read_number_shorter. }
  destruct (is_ident_start c); [|done].
  unfold read_ident. destruct (ident_chars l) as [s r'] eqn:E. intros [= _ <-]. by eapply ident_chars_shorter.
Qed.

Lemma tokenize_loop_total : forall f l tokens, (length l < f)%nat -> is_Some (tokenize_loop f l tokens).
Proof.
  induction f as [|f IH]; intros l tokens Hf; [lia|]. cbn [tokenize_loop].
  pose proof (skip_whitespace_shorter l) as Hs. destruct (skip_whitespace l) as [|c l']; [by eexists|].
  destruct (token_at c l') as [[[t|] r]|e] eqn:E; [| |by eexists]; apply token_at_shorter in E; cbn in Hs; apply IH; lia.
Qed.

(** C34: the SQL front end answers every text: lexing and parsing end, with a statement or an
    error, within fuel of one more than the bytes and the tokens. *)
Theorem parse_total sql : is_Some (parse sql).
Proof.
  unfold parse, tokenize. destruct (tokenize_loop_total (S (length sql)) sql [] ltac:(lia)) as [[ts|e] ->]; cbn;
    [apply parse_tokens_total|by eexists].
Qed.
