(* ===== verification/SqlExec.v ===== *)
(** * The SQL executor (src/sql/executor.rs)

    Expressions and queries against a view of the tables, and the statements that change
    them. An evaluation is a value, an error, or [None] where the source panics. The functions
    that evaluate nested expressions and queries take both evaluators as parameters; the
    recursion is tied with fuel, which [depth] of the syntax tree makes enough. Within a
    statement the clock stands still, except between inserted rows. *)

From S2P Require Import Prelude Util Json Errors Table SqlParser SqlValue.
From Stdlib Require Import SpecFloat.

#[local] Open Scope ev_scope.

Abbreviation Row := (list (Bytes * Value)).

Record QueryResult := { q_rows : list Row; q_columns : list Bytes; rows_affected : Z }.

Definition select_result (rows : list Row) (columns : list Bytes) : QueryResult :=
  {| q_rows := rows; q_columns := columns; rows_affected := zlen rows |}.
Definition dml_result (n : Z) : QueryResult := {| q_rows := []; q_columns := []; rows_affected := n |}.

(** ** Rows *)

Definition map_remove (k : Bytes) (m : Row) : Row := List.filter (fun kv => negb (beq k kv.1)) m.
(** [entry(k).or_insert(v)] *)
Definition or_insert (k : Bytes) (v : Value) (m : Row) : Row :=
  match map_get m k with Some _ => m | None => map_insert k v m end.

(** What follows the last dot. *)
Fixpoint bare_loop (cur s : Bytes) : Bytes :=
  match s with [] => cur | c :: s' => if c =? 46 then bare_loop s' s' else bare_loop cur s' end.
Definition bare_col_name (qualified : Bytes) : Bytes := bare_loop qualified qualified.

Definition qualify_row (val : Value) (alias : Bytes) : Row :=
  match val with
  | Object obj => foldl (fun out kv => map_insert (alias ++ 46 :: kv.1) kv.2 out) [] obj
  | _ => []
  end.

Definition merge_rows (left right : Row) : Row := foldl (fun m kv => map_insert kv.1 kv.2 m) left right.
Definition cross_product (left right : list Row) : list Row := flat_map (fun l => map (merge_rows l) right) left.
Definition null_row_like (template : option Row) : Row :=
  match template with None => [] | Some t => map (fun kv => (kv.1, Null)) t end.

(** ** Names and aggregates of an expression *)

Definition op_name (op : BinOp) : Bytes :=
  match op with
  | Bin.Eq => bs "eq" | Bin.Ne => bs "ne" | Bin.Lt => bs "lt" | Bin.Le => bs "le" | Bin.Gt => bs "gt"
  | Bin.Ge => bs "ge" | Bin.And => bs "and" | Bin.Or => bs "or" | Bin.Add => bs "add" | Bin.Sub => bs "sub"
  | Bin.Mul => bs "mul" | Bin.Div => bs "div" | Bin.Mod => bs "mod" | Bin.Concat => bs "concat"
  end.
Definition func_name (f : AggFunc) : Bytes :=
  match f with
  | Agg.Count => bs "count" | Agg.Sum => bs "sum" | Agg.Avg => bs "avg" | Agg.Min => bs "min" | Agg.Max => bs "max"
  end.

Fixpoint expr_has_aggregate (e : Expr) : bool :=
  match e with
  | Aggregate _ _ _ => true
  | Alias e _ => expr_has_aggregate e
  | BinaryOp l _ r => expr_has_aggregate l || expr_has_aggregate r
  | UnaryOp _ e => expr_has_aggregate e
  | Function _ args => existsb expr_has_aggregate args
  | _ => false
  end.
Definition has_aggregate (cols : list Expr) : bool := existsb expr_has_aggregate cols.

Section Names.
Context `{Serde}.

Fixpoint expr_output_name (e : Expr) : Bytes :=
  match e with
  | Column _ name => name
  | Alias _ alias => alias
  | Aggregate func _ _ => func_name func
  | Literal v => to_string v
  | BinaryOp l op r => expr_output_name l ++ 95 :: op_name op ++ 95 :: expr_output_name r
  | Function name _ => name
  | _ => bs "expr"
  end.

Definition value_fingerprint (row : Row) : Bytes := json_to_vec (Object row).

(** Those whose text has not been seen, and what has been seen then. *)
Fixpoint dedup_by {A} (text : A -> Bytes) (seen : list Bytes) (l : list A) : list A :=
  match l with
  | [] => []
  | a :: l' => if existsb (beq (text a)) seen then dedup_by text seen l' else a :: dedup_by text (text a :: seen) l'
  end.
Definition dedup_values (vals : list Value) : list Value := dedup_by json_to_vec [] vals.
End Names.

Section Exec.
Context `{Serde} `{Lowercase} `{SqlLib}.

(** [TableStore::list_rows_with_keys], and [now()] in milliseconds. *)
Variable scan : Bytes -> result VoltraError (list (Bytes * Value)).
Variable now_ms : Z.

Variable eval_expr : Expr -> Row -> ev Value.
Variable execute_select : SelectStmt -> ev QueryResult.

Definition truthy (e : Expr) (row : Row) : option bool := is_truthy <$> or_default Null (eval_expr e row).

(** A condition that may be missing. *)
Definition passes (cond : option Expr) (row : Row) : option bool :=
  match cond with None => Some true | Some e => truthy e row end.

(** ** Expressions *)

Definition column_value (table : option Bytes) (name : Bytes) (row : Row) : Value :=
  let bare :=
    match map_get row name with
    | Some v => v
    | None =>
        match List.find (fun kv : Bytes * Value => match strip_suffix (46 :: name) kv.1 with Some _ => true | None => false end) row with
        | Some (_, v) => v
        | None => Null
        end
    end in
  match table with
  | Some tbl => match map_get row (tbl ++ 46 :: name) with Some v => v | None => bare end
  | None => bare
  end.

(** A comparison with a null is false. *)
Definition compare_op (test : comparison -> bool) (l r : Value) : Value :=
  match l, r with
  | Null, _ | _, Null => Bool false
  | _, _ => Bool (test (compare_values_ord l r false))
  end.

Definition is_lt (c : comparison) : bool := match c with Lt => true | _ => false end.
Definition is_gt (c : comparison) : bool := match c with Gt => true | _ => false end.

(** The operators other than AND and OR, on values. *)
Definition apply_op (cmp : (comparison -> bool) -> Value -> Value -> Value) (op : BinOp) (l r : Value) : option Value :=
  match op with
  | Bin.Eq => Some (Bool (values_equal l r))
  | Bin.Ne => Some (Bool (negb (values_equal l r)))
  | Bin.Lt => Some (cmp is_lt l r)
  | Bin.Le => Some (cmp (fun c => negb (is_gt c)) l r)
  | Bin.Gt => Some (cmp is_gt l r)
  | Bin.Ge => Some (cmp (fun c => negb (is_lt c)) l r)
  | Bin.Add => Some (numeric_op Z.add f64_add l r)
  | Bin.Sub => Some (numeric_op Z.sub f64_sub l r)
  | Bin.Mul => Some (numeric_op Z.mul f64_mul l r)
  | Bin.Div => Some (divide l r)
  | Bin.Mod => remainder l r
  | Bin.Concat => Some (concat_values l r)
  | Bin.And | Bin.Or => None
  end.

Definition eval_binary (op : BinOp) (left right : Expr) (row : Row) : ev Value :=
  match op with
  | Bin.And => let? l := eval_expr left row in
               if negb (is_truthy l) then eret (Bool false)
               else let? r := eval_expr right row in eret (Bool (is_truthy r))
  | Bin.Or => let? l := eval_expr left row in
              if is_truthy l then eret (Bool true)
              else let? r := eval_expr right row in eret (Bool (is_truthy r))
  | _ => let? l := eval_expr left row in
         let? r := eval_expr right row in
         let! v := apply_op compare_op op l r in eret v
  end.

Fixpoint coalesce (args : list Expr) (row : Row) : ev Value :=
  match args with
  | [] => eret Null
  | e :: args' => let? v := eval_expr e row in match v with Null => coalesce args' row | _ => eret v end
  end.

Fixpoint concat_args (args : list Expr) (row : Row) : option Bytes :=
  match args with
  | [] => Some []
  | e :: args' =>
      let! v := eok (eval_expr e row) in
      let! r := concat_args args' row in
      Some (match v with Some v => value_to_string v | None => [] end ++ r)
  end.

Definition substr (s : Bytes) (start : Z) (len : option Z) : Bytes :=
  let rest := drop (Z.to_nat (Z.max start 1 - 1)) (chars s) in
  concat (match len with Some n => take (Z.to_nat (Z.max n 0)) rest | None => rest end).

Definition abs_value (v : Value) : Value :=
  match as_i64 v with
  | Some i => from_i64 (wrap_i64 (Z.abs i))
  | None => match as_f64 v with Some f => json_f64 (f64_abs f) | None => Null end
  end.

Definition round_value (v decimals : Value) : Value :=
  let n := default f64_zero (as_f64 v) in
  let d := wrap_i32 (wrap_u32 (Z.max (default 0 (as_i64 decimals)) 0)) in
  json_f64 (f64_div (f64_round (f64_mul n (powi10 d))) (powi10 d)).

(** The functions of one, two and three values. *)
Definition function1 (name : Bytes) : option (Value -> Value) :=
  if beq name (bs "upper") then Some (fun v => Str (to_uppercase (value_to_string v)))
  else if beq name (bs "lower") then Some (fun v => Str (to_lowercase (value_to_string v)))
  else if beq name (bs "length") then Some (fun v => from_i64 (zlen (chars (value_to_string v))))
  else if beq name (bs "trim") then Some (fun v => Str (trim (value_to_string v)))
  else if beq name (bs "ltrim") then Some (fun v => Str (trim_start (value_to_string v)))
  else if beq name (bs "rtrim") then Some (fun v => Str (trim_end (value_to_string v)))
  else if beq name (bs "floor") then Some (fun v => default Null ((fun n => json_f64 (f64_floor n)) <$> as_f64 v))
  else if beq name (bs "ceil") then Some (fun v => default Null ((fun n => json_f64 (f64_ceil n)) <$> as_f64 v))
  else if beq name (bs "abs") then Some abs_value
  else None.

Definition eval_function (name : Bytes) (args : list Expr) (row : Row) : ev Value :=
  let eval i := match args !! i with Some e => or_default Null (eval_expr e row) | None => Some Null end in
  match function1 name with
  | Some f => let! v := eval 0%nat in eret (f v)
  | None =>
      if beq name (bs "replace") then
        let! s := eval 0%nat in let! from := eval 1%nat in let! to := eval 2%nat in
        eret (Str (str_replace (value_to_string s) (value_to_string from) (value_to_string to)))
      else if beq name (bs "substr") || beq name (bs "substring") then
        let! s := eval 0%nat in let! start := eval 1%nat in
        if 3 <=? zlen args then
          let! len := eval 2%nat in
          eret (Str (substr (value_to_string s) (default 1 (as_i64 start)) (Some (default 0 (as_i64 len)))))
        else eret (Str (substr (value_to_string s) (default 1 (as_i64 start)) None))
      else if beq name (bs "round") then
        let! n := eval 0%nat in let! d := eval 1%nat in eret (round_value n d)
      else if beq name (bs "coalesce") then coalesce args row
      else if beq name (bs "nullif") then
        let! a := eval 0%nat in let! b := eval 1%nat in eret (if values_equal a b then Null else a)
      else if beq name (bs "concat") then let! s := concat_args args row in eret (Str s)
      else if beq name (bs "now") then eret (from_i64 now_ms)
      else match strip_prefix (bs "cast::") name with
           | Some type_name => let! v := eval 0%nat in eret (cast_value v type_name)
           | None => eerr (InvalidArgument (bs "Unknown function: " ++ name))
           end
  end.

Fixpoint eval_branches (base : option Value) (branches : list (Expr * Expr)) (else_ : option Expr) (row : Row) : ev Value :=
  match branches with
  | [] => match else_ with Some e => eval_expr e row | None => eret Null end
  | (cond, then_) :: branches' =>
      match base with
      | Some b => let? w := eval_expr cond row in
                  if values_equal b w then eval_expr then_ row else eval_branches base branches' else_ row
      | None => let! t := truthy cond row in
                if t : bool then eval_expr then_ row else eval_branches base branches' else_ row
      end
  end.

Definition negate_if (negated b : bool) : Value := Bool (if negated then negb b else b).

Definition eval_step (e : Expr) (row : Row) : ev Value :=
  match e with
  | Literal v => eret v
  | Column table name => eret (column_value table name row)
  | Wildcard _ => eret (Object row)
  | BinaryOp e1 op e2 => eval_binary op e1 e2 row
  | UnaryOp op e =>
      let? v := eval_expr e row in
      eret (match op with Un.Neg => negate_value v | Un.Pos => v | Un.Not => Bool (negb (is_truthy v)) end)
  | IsNull e negated =>
      let? v := eval_expr e row in eret (negate_if negated (match v with Null => true | _ => false end))
  | InList e l negated =>
      let? needle := eval_expr e row in
      let! found := any_of (fun item => or_default false (let? v := eval_expr item row in eret (values_equal needle v))) l in
      eret (negate_if negated found)
  | InSubquery e query negated =>
      let? needle := eval_expr e row in
      let? r := execute_select query in
      eret (negate_if negated (existsb (fun r : Row => existsb (fun kv => values_equal needle kv.2) r) (q_rows r)))
  | Between e low high negated =>
      let? v := eval_expr e row in
      let? lo := eval_expr low row in
      let? hi := eval_expr high row in
      eret (negate_if negated (negb (is_lt (compare_values_ord v lo false)) && negb (is_gt (compare_values_ord v hi false))))
  | Like e pattern negated =>
      let? v := eval_expr e row in
      let? p := eval_expr pattern row in
      eret (negate_if negated (match v, p with Str s, Str p => like_match s p | _, _ => false end))
  | Aggregate _ _ _ => eret Null
  | Function name args => eval_function name args row
  | Case operand branches else_ =>
      let? base := (match operand with None => eret None | Some e => let? v := eval_expr e row in eret (Some v) end) in
      eval_branches base branches else_ row
  | Subquery query =>
      let? r := execute_select query in
      eret (match q_rows r with ((_, v) :: _) :: _ => v | _ => Null end)
  | Exists query negated =>
      let? r := execute_select query in eret (negate_if negated (match q_rows r with [] => false | _ => true end))
  | Alias e _ => eval_expr e row
  end.

(** ** FROM and JOIN *)

(** What the engine adds and hides. *)
Definition exposed (key : Bytes) (val : Value) : Value :=
  match val with
  | Object obj => Object (map_remove (bs "shard_id") (or_insert (bs "row_key") (Str key) obj))
  | _ => val
  end.

Definition eval_table_ref (t : TableRef) : ev (list Row) :=
  match t with
  | Named name alias =>
      match scan name with
      | Err e => eerr e
      | Ok raw => eret (map (fun kv : Bytes * Value => qualify_row (exposed kv.1 kv.2) (default name alias)) raw)
      end
  | Derived query alias =>
      let? r := execute_select query in eret (map (fun row => qualify_row (Object row) alias) (q_rows r))
  end.

(** The rows a left row joins with, and the positions they are at. *)
Fixpoint join_one (on : option Expr) (l : Row) (i : nat) (rrows : list Row) : option (list Row * list nat) :=
  match rrows with
  | [] => Some ([], [])
  | r :: rrows' =>
      let combined := merge_rows l r in
      let! b := passes on combined in
      let! rest := join_one on l (S i) rrows' in
      Some (if b : bool then (combined :: fst rest, i :: snd rest) else rest)
  end.

Fixpoint join_left (on : option Expr) (preserve_left : bool) (null_right : Row) (lrows rrows : list Row)
  : option (list Row * list nat) :=
  match lrows with
  | [] => Some ([], [])
  | l :: lrows' =>
      let! one := join_one on l 0 rrows in
      let! rest := join_left on preserve_left null_right lrows' rrows in
      let rows := match fst one with [] => if preserve_left then [merge_rows l null_right] else [] | rows => rows end in
      Some (rows ++ fst rest, snd one ++ snd rest)
  end.

(** The right rows at positions that were not matched. *)
Definition unmatched (null_left : Row) (matched : list nat) (rrows : list Row) : list Row :=
  concat (imap (fun i r => if bool_decide (i ∈ matched) then [] else [merge_rows null_left r]) rrows).

Definition nested_loop_join (lrows rrows : list Row) (on : option Expr) (preserve_left preserve_right : bool)
  : option (list Row) :=
  let! jm := join_left on preserve_left (null_row_like (head rrows)) lrows rrows in
  Some (fst jm ++ (if preserve_right then unmatched (null_row_like (head lrows)) (snd jm) rrows else [])).

Definition full_outer_join (lrows rrows : list Row) (on : option Expr) : option (list Row) :=
  let! rows := nested_loop_join lrows rrows on true false in
  let! jm := join_left on false [] lrows rrows in
  Some (rows ++ unmatched (null_row_like (head lrows)) (snd jm) rrows).

Definition eval_join (rows : list Row) (j : Join) : ev (list Row) :=
  let 'MkJoin kind table on := j in
  let? right := eval_table_ref table in
  match kind with
  | Kind.Inner => let! r := nested_loop_join rows right on false false in eret r
  | Kind.Left => let! r := nested_loop_join rows right on true false in eret r
  | Kind.Right => let! r := nested_loop_join rows right on false true in eret r
  | Kind.Full => let! r := full_outer_join rows right on in eret r
  | Kind.Cross => eret (cross_product rows right)
  end.

Definition eval_from (from : list TableRef) (joins : list Join) : ev (list Row) :=
  match from with
  | [] => eret [[]]
  | t :: from' =>
      let? first := eval_table_ref t in
      let? rows := efold (fun rows t => let? right := eval_table_ref t in eret (cross_product rows right)) from' first in
      efold eval_join joins rows
  end.

(** ** Projection *)

Definition project_expr (row : Row) (agg_vals : option Row) (out : Row) (e : Expr) : option Row :=
  match e with
  | Wildcard None =>
      Some (foldl (fun out (kv : Bytes * Value) =>
        let bare := bare_col_name kv.1 in
        if beq bare (bs "row_key") || beq bare (bs "shard_id") then out else or_insert bare kv.2 out) out row)
  | Wildcard (Some tbl) =>
      Some (foldl (fun out (kv : Bytes * Value) =>
        match strip_prefix (tbl ++ [46]) kv.1 with Some k => map_insert k kv.2 out | None => out end) out row)
  | Alias inner alias =>
      let! v := (match agg_vals with
                 | Some agg => match map_get agg alias with Some v => Some v | None => or_default Null (eval_expr inner row) end
                 | None => or_default Null (eval_expr inner row)
                 end) in
      Some (map_insert alias v out)
  | Aggregate _ _ _ =>
      let name := expr_output_name e in
      Some (map_insert name (default Null (agg ← agg_vals; map_get agg name)) out)
  | _ => let! v := or_default Null (eval_expr e row) in Some (map_insert (expr_output_name e) v out)
  end.

Fixpoint project_loop (cols : list Expr) (row : Row) (agg_vals : option Row) (out : Row) : option Row :=
  match cols with
  | [] => Some out
  | e :: cols' => let! out := project_expr row agg_vals out e in project_loop cols' row agg_vals out
  end.
Definition project_row (cols : list Expr) (row : Row) (agg_vals : option Row) : option Row :=
  project_loop cols row agg_vals [].

(** ** Aggregation *)

(** The values of the argument on the rows, errors left out. *)
Fixpoint arg_values (arg : Expr) (rows : list Row) : option (list Value) :=
  match rows with
  | [] => Some []
  | row :: rows' =>
      let! v := eok (eval_expr arg row) in
      let! r := arg_values arg rows' in
      Some (match v with Some v => v :: r | None => r end)
  end.

Definition not_null (v : Value) : bool := match v with Null => false | _ => true end.

Definition sum_step (acc : f64 * bool * bool) (v : Value) : f64 * bool * bool :=
  let '(total, any, is_int) := acc in
  match as_f64 v with
  | Some n => (f64_add total n, true, is_int && (is_i64 v || is_u64 v))
  | None => acc
  end.

Definition avg_step (acc : f64 * Z) (v : Value) : f64 * Z :=
  match as_f64 v with Some n => (f64_add (fst acc) n, snd acc + 1) | None => acc end.

(** [Iterator::min_by] keeps the first of equals, [max_by] the last. *)
Definition min_step (acc : option Value) (v : Value) : option Value :=
  match acc with
  | None => Some v
  | Some m => Some (match compare_values_ord m v false with Gt => v | _ => m end)
  end.
Definition max_step (acc : option Value) (v : Value) : option Value :=
  match acc with
  | None => Some v
  | Some m => Some (match compare_values_ord m v false with Gt => m | _ => v end)
  end.

Definition required (func : Bytes) (arg : option Expr) : ev Expr :=
  match arg with Some e => eret e | None => eerr (InvalidArgument (func ++ bs " requires an argument")) end.

Definition eval_aggregate (func : AggFunc) (distinct : bool) (arg : option Expr) (rows : list Row) : ev Value :=
  match func with
  | Agg.Count =>
      match arg with
      | None => eret (from_i64 (zlen rows))
      | Some arg =>
          let! vals := arg_values arg rows in
          let vals := List.filter not_null vals in
          eret (from_i64 (zlen (if distinct then dedup_values vals else vals)))
      end
  | Agg.Sum =>
      let? arg := required (bs "SUM") arg in
      let! vals := arg_values arg rows in
      let '(total, any, is_int) := foldl sum_step (f64_zero, false, true) vals in
      eret (if negb any then Null else if is_int then from_i64 (f64_to_i64 total) else json_f64 total)
  | Agg.Avg =>
      let? arg := required (bs "AVG") arg in
      let! vals := arg_values arg rows in
      let '(total, count) := foldl avg_step (f64_zero, 0) vals in
      eret (if count =? 0 then Null else json_f64 (f64_div total (f64_of_uint count)))
  | Agg.Min =>
      let? arg := required (bs "MIN") arg in
      let! vals := arg_values arg rows in
      eret (default Null (foldl min_step None (List.filter not_null vals)))
  | Agg.Max =>
      let? arg := required (bs "MAX") arg in
      let! vals := arg_values arg rows in
      eret (default Null (foldl max_step None (List.filter not_null vals)))
  end.

(** A comparison in HAVING takes nulls as they come. *)
Definition compare_any (test : comparison -> bool) (l r : Value) : Value := Bool (test (compare_values_ord l r false)).

Fixpoint eval_expr_with_aggs (e : Expr) (row agg_vals : Row) : ev Value :=
  match e with
  | Aggregate _ _ _ => eret (default Null (map_get agg_vals (expr_output_name e)))
  | Alias inner _ => eval_expr_with_aggs inner row agg_vals
  | BinaryOp e1 op e2 =>
      let? l := eval_expr_with_aggs e1 row agg_vals in
      let? r := eval_expr_with_aggs e2 row agg_vals in
      let! v := apply_op compare_any op l r in eret v
  | _ => eval_expr e row
  end.

Fixpoint compute_agg_expr (e : Expr) (group : list Row) (agg_vals : Row) : ev Row :=
  match e with
  | Aggregate func distinct arg =>
      let name := expr_output_name e in
      match map_get agg_vals name with
      | Some _ => eret agg_vals
      | None => let? v := eval_aggregate func distinct arg group in eret (map_insert name v agg_vals)
      end
  | Alias inner alias =>
      let? agg_vals := compute_agg_expr inner group agg_vals in
      let inner_name := expr_output_name inner in
      eret (match map_get agg_vals inner_name with
            | Some v => map_insert alias v (map_remove inner_name agg_vals)
            | None => agg_vals
            end)
  | BinaryOp e1 _ e2 =>
      let? agg_vals := compute_agg_expr e1 group agg_vals in compute_agg_expr e2 group agg_vals
  | UnaryOp _ inner => compute_agg_expr inner group agg_vals
  | Function _ args =>
      (fix go (args : list Expr) (agg_vals : Row) : ev Row :=
         match args with
         | [] => eret agg_vals
         | a :: args' => let? agg_vals := compute_agg_expr a group agg_vals in go args' agg_vals
         end) args agg_vals
  | _ => eret agg_vals
  end.

(** The groups in the order they are first seen, each under the text of its key. *)
Fixpoint add_to_group (key : Bytes) (row : Row) (groups : list (Bytes * list Row)) : list (Bytes * list Row) :=
  match groups with
  | [] => [(key, [row])]
  | (k, rows) :: groups' => if beq key k then (k, rows ++ [row]) :: groups' else (k, rows) :: add_to_group key row groups'
  end.

Definition group_key (group_by : list Expr) (row : Row) : option Bytes :=
  let! key := omapM (fun e => or_default Null (eval_expr e row)) group_by in Some (json_to_vec (Array key)).

Fixpoint group_rows (group_by : list Expr) (rows : list Row) (groups : list (Bytes * list Row)) : option (list (Bytes * list Row)) :=
  match rows with
  | [] => Some groups
  | row :: rows' => let! key := group_key group_by row in group_rows group_by rows' (add_to_group key row groups)
  end.

(** One group: its row, unless HAVING rejects it. *)
Definition eval_group (columns : list Expr) (having : option Expr) (group : list Row) : ev (option Row) :=
  let representative := default [] (head group) in
  let? agg_vals := efold (fun agg e => compute_agg_expr e group agg) columns [] in
  let? agg_vals := (match having with None => eret agg_vals | Some h => compute_agg_expr h group agg_vals end) in
  let! ok := (match having with
              | None => Some true
              | Some h => is_truthy <$> or_default Null (eval_expr_with_aggs h representative agg_vals)
              end) in
  if ok : bool then let! r := project_row columns representative (Some agg_vals) in eret (Some r) else eret None.

Definition eval_group_by (columns group_by : list Expr) (having : option Expr) (rows : list Row) : ev (list Row) :=
  let! groups := group_rows group_by rows [] in
  let? out := emapM (eval_group columns having) (match groups with [] => [[]] | _ => map snd groups end) in
  eret (omap (fun r => r) out).

(** ** SELECT *)

Fixpoint compare_rows (order_by : list OrderByItem) (a b : Row) : option comparison :=
  match order_by with
  | [] => Some Eq
  | MkOrderBy e asc nulls_first :: order_by' =>
      let! av := or_default Null (eval_expr e a) in
      let! bv := or_default Null (eval_expr e b) in
      let ord := compare_values_ord av bv (default (negb asc) nulls_first) in
      let ord := if asc then ord else CompOpp ord in
      match ord with Eq => compare_rows order_by' a b | _ => Some ord end
  end.

Definition eval_select_core (stmt : SelectStmt) : ev (list Row) :=
  let 'MkSelect distinct columns from joins where_ group_by having order_by limit offset _ := stmt in
  let? rows := eval_from from joins in
  let! rows := retain (passes where_) rows in
  let grouped := negb (match group_by with [] => true | _ => false end) || has_aggregate columns in
  let? rows := (if grouped then eval_group_by columns group_by having rows
                else let! r := omapM (fun row => project_row columns row None) rows in eret r) in
  let! rows := (match having with
                | Some h => if grouped || expr_has_aggregate h then Some rows else retain (truthy h) rows
                | None => Some rows
                end) in
  let rows := if distinct then dedup_by value_fingerprint [] rows else rows in
  let! rows := (match order_by with [] => Some rows | _ => sort_by (compare_rows order_by) rows end) in
  let rows := match offset with Some n => drop (Z.to_nat n) rows | None => rows end in
  eret (match limit with Some n => take (Z.to_nat n) rows | None => rows end).

Definition select_step (stmt : SelectStmt) : ev QueryResult :=
  let? rows := eval_select_core stmt in
  let? all_rows := (match s_union stmt with
                    | None => eret rows
                    | Some (all, rhs) =>
                        let? r := execute_select rhs in
                        eret (rows ++ (if all : bool then q_rows r
                                       else dedup_by value_fingerprint (map value_fingerprint rows) (q_rows r)))
                    end) in
  eret (select_result all_rows (match all_rows with [] => [] | row :: _ => map fst row end)).
End Exec.

(** ** The knot *)

Section Queries.
Context `{Serde} `{Lowercase} `{SqlLib}.
Variable scan : Bytes -> result VoltraError (list (Bytes * Value)).
Variable now_ms : Z.

(** Syntax nested at most [n] deep; beyond, an error of its own. *)
Fixpoint eval_nested (n : nat) : (Expr -> Row -> ev Value) * (SelectStmt -> ev QueryResult) :=
  match n with
  | O => (fun _ _ => eerr (Internal []), fun _ => eerr (Internal []))
  | S m => let '(e, s) := eval_nested m in (eval_step now_ms e s, select_step scan e s)
  end.
End Queries.

(** ** SQL statements (src/sql/executor.rs)

    How deep syntax nests, queries with fuel enough for it, and the statements that change
    the tables, row after row: what a row of a statement does is seen by its later rows, and
    an error leaves what was done before it. *)

Definition max_of {A} (f : A -> nat) : list A -> nat :=
  fix go (l : list A) : nat := match l with [] => O | a :: l' => Nat.max (f a) (go l') end.
Definition of_option {A} (f : A -> nat) (o : option A) : nat := match o with Some a => f a | None => O end.

Fixpoint depth (e : Expr) : nat :=
  match e with
  | Literal _ | Column _ _ | Wildcard _ => 1
  | BinaryOp e1 _ e2 => S (Nat.max (depth e1) (depth e2))
  | UnaryOp _ e | IsNull e _ | Alias e _ => S (depth e)
  | InList e l _ => S (Nat.max (depth e) (max_of depth l))
  | InSubquery e q _ => S (Nat.max (depth e) (depth_select q))
  | Between e lo hi _ => S (Nat.max (depth e) (Nat.max (depth lo) (depth hi)))
  | Like e p _ => S (Nat.max (depth e) (depth p))
  | Aggregate _ _ arg => S (match arg with Some e => depth e | None => O end)
  | Function _ args => S (max_of depth args)
  | Case operand branches else_ =>
      S (Nat.max (match operand with Some e => depth e | None => O end)
           (Nat.max (max_of (fun '(c, t) => Nat.max (depth c) (depth t)) branches)
                    (match else_ with Some e => depth e | None => O end)))
  | Subquery q | Exists q _ => S (depth_select q)
  end
with depth_table (t : TableRef) : nat :=
  match t with Named _ _ => O | Derived q _ => depth_select q end
with depth_join (j : Join) : nat :=
  match j with MkJoin _ t on => Nat.max (depth_table t) (match on with Some e => depth e | None => O end) end
with depth_order (o : OrderByItem) : nat := match o with MkOrderBy e _ _ => depth e end
with depth_select (s : SelectStmt) : nat :=
  match s with
  | MkSelect _ columns from joins where_ group_by having order_by _ _ union =>
      S (Nat.max (max_of depth columns) (Nat.max (max_of depth_table from) (Nat.max (max_of depth_join joins)
          (Nat.max (match where_ with Some e => depth e | None => O end) (Nat.max (max_of depth group_by)
          (Nat.max (match having with Some e => depth e | None => O end) (Nat.max (max_of depth_order order_by)
          (match union with Some (_, q) => depth_select q | None => O end))))))))
  end.

Section Statements.
Context `{Serde} `{Lowercase} `{SqlLib}.
Variable now_ms : Z.
Variable nanos : nat -> Z.
Variable max_blob : Z.

Definition scan_of (ts : TableStore) (name : Bytes) : result VoltraError (list (Bytes * Value)) :=
  fst (list_rows_with_keys name ts).

Definition eval_expr (ts : TableStore) (e : Expr) (row : Row) : ev Value :=
  fst (eval_nested (scan_of ts) now_ms (depth e)) e row.
Definition execute_select (ts : TableStore) (s : SelectStmt) : ev QueryResult :=
  snd (eval_nested (scan_of ts) now_ms (depth_select s)) s.

(** What a statement does to the tables: [None] is a panic. *)
Definition stm (A : Type) : Type := TableStore -> option (result VoltraError A * TableStore).
Definition sret {A} (a : A) : stm A := fun ts => Some (Ok a, ts).
Definition sbind {A B} (m : stm A) (f : A -> stm B) : stm B := fun ts =>
  match m ts with
  | Some (Ok a, ts') => f a ts'
  | Some (Err e, ts') => Some (Err e, ts')
  | None => None
  end.
Notation "'let#' x := p 'in' q" := (sbind p (fun x => q)) (at level 10, x name, p at level 100, q at level 200).

(** A call on the tables; an evaluation on them as they are. *)
Definition on_tables {A} (f : st TableStore (result VoltraError A)) : stm A := fun ts => Some (f ts).
Definition reading {A} (f : TableStore -> ev A) : stm A :=
  fun ts => match f ts with Some r => Some (r, ts) | None => None end.

Definition as_str (v : Value) : option Bytes := match v with Str s => Some s | _ => None end.
Definition as_object (v : Value) : Row := match v with Object m => m | _ => [] end.

(** ** INSERT *)

Fixpoint insert_cols (i : nat) (columns : list Bytes) (exprs : list Expr) (obj : Row) (ts : TableStore) : ev Row :=
  match exprs with
  | [] => eret obj
  | e :: exprs' =>
      ebind (eval_expr ts e []) (fun val =>
        let name := default (bs "col" ++ dec (Z.of_nat i)) (columns !! i) in
        insert_cols (S i) columns exprs' (map_insert name val obj) ts)
  end.

Definition insert_key (obj : Row) (nanos : Z) : Bytes :=
  let id := match map_get obj (bs "id") with Some v => Some v | None => map_get obj (bs "row_key") end in
  default (bs "row_" ++ dec nanos) (v ← id; as_str v).

Fixpoint insert_rows (stmt : InsertStmt) (i : nat) (rows : list (list Expr)) (count : Z) : stm Z :=
  match rows with
  | [] => sret count
  | exprs :: rows' =>
      let# obj := reading (insert_cols 0 (i_columns stmt) exprs []) in
      let# _ := on_tables (set_row max_blob (i_table stmt) (insert_key obj (nanos i)) (Object obj)) in
      insert_rows stmt (S i) rows' (count + 1)
  end.

Definition execute_insert (stmt : InsertStmt) : stm QueryResult :=
  let# count := insert_rows stmt 0 (i_values stmt) 0 in sret (dml_result count).

(** ** UPDATE and DELETE *)

Definition row_passes (cond : option Expr) (row : Row) (ts : TableStore) : ev bool :=
  match passes (eval_expr ts) cond row with Some b => eret b | None => None end.

Fixpoint apply_sets (sets : list (Bytes * Expr)) (updated : Row) (ts : TableStore) : ev Row :=
  match sets with
  | [] => eret updated
  | (col, e) :: sets' => ebind (eval_expr ts e updated) (fun v => apply_sets sets' (map_insert col v updated) ts)
  end.

Fixpoint update_rows (stmt : UpdateStmt) (raw : list (Bytes * Value)) (count : Z) : stm Z :=
  match raw with
  | [] => sret count
  | (key, val) :: raw' =>
      let row := as_object val in
      let# b := reading (row_passes (u_where stmt) row) in
      if b : bool then
        let# updated := reading (apply_sets (u_sets stmt) row) in
        let# _ := on_tables (set_row max_blob (u_table stmt) key (Object updated)) in
        update_rows stmt raw' (count + 1)
      else update_rows stmt raw' count
  end.

Definition execute_update (stmt : UpdateStmt) : stm QueryResult :=
  let# raw := on_tables (list_rows_with_keys (u_table stmt)) in
  let# count := update_rows stmt raw 0 in sret (dml_result count).

Fixpoint delete_rows (stmt : DeleteStmt) (raw : list (Bytes * Value)) (count : Z) : stm Z :=
  match raw with
  | [] => sret count
  | (key, val) :: raw' =>
      let# b := reading (row_passes (d_where stmt) (as_object val)) in
      if b : bool then
        let# _ := on_tables (delete_row (d_table stmt) key) in delete_rows stmt raw' (count + 1)
      else delete_rows stmt raw' count
  end.

Definition execute_delete (stmt : DeleteStmt) : stm QueryResult :=
  let# raw := on_tables (list_rows_with_keys (d_table stmt)) in
  let# count := delete_rows stmt raw 0 in sret (dml_result count).

Definition execute_statement (stmt : Statement) : stm QueryResult :=
  match stmt with
  | SelectS s => reading (fun ts => execute_select ts s)
  | InsertS s => execute_insert s
  | UpdateS s => execute_update s
  | DeleteS s => execute_delete s
  end.
End Statements.
