(* ===== verification/SqlEval.v ===== *)
(** * Evaluation needs no more fuel than syntax is deep

    The evaluators of [SqlExec] call themselves only on smaller syntax, so their results do
    not depend on the fuel beyond [depth], and the evaluator of the model satisfies the
    recursive equations of the source. *)

From S2P Require Import Prelude Errors Util Json Table SqlParser SqlValue SqlExec.
#[local] Open Scope ev_scope.

Lemma max_of_le {A} (f : A -> nat) l a : a ∈ l -> (f a <= max_of f l)%nat.
Proof. induction 1 as [a l|a b l _ IH]; cbn; lia. Qed.

(** [max_of] on every list at hand. *)
Ltac member :=
  repeat match goal with
  | H : ?a ∈ ?l |- context [max_of ?f ?l] =>
      lazymatch goal with K : (_ <= max_of f l)%nat |- _ => fail | _ => idtac end;
      pose proof (max_of_le f l a H)
  end.

Section Ext.
Context `{Serde} `{Lowercase} `{SqlLib}.
Variable scan : Bytes -> result VoltraError (list (Bytes * Value)).
Variable now_ms : Z.
Variables E E' : Expr -> Row -> ev Value.
Variables S1 S2 : SelectStmt -> ev QueryResult.

Lemma truthy_ext e row : E e row = E' e row -> truthy E e row = truthy E' e row.
Proof. unfold truthy. by intros ->. Qed.

Lemma passes_ext c row : (forall e, c = Some e -> E e row = E' e row) -> passes E c row = passes E' c row.
Proof. destruct c; cbn; [|done]. intros He. apply truthy_ext. auto. Qed.

(** ** Expressions *)

Lemma coalesce_ext args row : (forall e, e ∈ args -> E e row = E' e row) -> coalesce E args row = coalesce E' args row.
Proof.
  induction args as [|e args IH]; intros He; cbn; [done|]. apply ebind_ext; [apply He; left|].
  intros v. rewrite IH; [done|]. intros. apply He. by right.
Qed.

Lemma concat_args_ext args row : (forall e, e ∈ args -> E e row = E' e row) -> concat_args E args row = concat_args E' args row.
Proof.
  induction args as [|e args IH]; intros He; cbn; [done|]. rewrite He by left. rewrite IH; [done|]. intros. apply He. by right.
Qed.

Lemma eval_function_ext name args row :
  (forall e, e ∈ args -> E e row = E' e row) -> eval_function now_ms E name args row = eval_function now_ms E' name args row.
Proof.
  intros He.
  assert (Hev : forall i, match args !! i with Some e => or_default Null (E e row) | None => Some Null end
                        = match args !! i with Some e => or_default Null (E' e row) | None => Some Null end).
  { intros i. destruct (args !! i) eqn:Hi; [|done]. rewrite He; [done|]. by apply list_elem_of_lookup_2 with i. }
  unfold eval_function. rewrite !(Hev 0%nat), !(Hev 1%nat), !(Hev 2%nat), coalesce_ext, concat_args_ext by done. done.
Qed.

Lemma eval_branches_ext base branches else_ row :
  (forall c t, (c, t) ∈ branches -> E c row = E' c row /\ E t row = E' t row) ->
  (forall e, else_ = Some e -> E e row = E' e row) ->
  eval_branches E base branches else_ row = eval_branches E' base branches else_ row.
Proof.
  intros Hb He. induction branches as [|[c t] branches IH]; cbn; [destruct else_; auto|].
  destruct (Hb c t) as [Hc Ht]; [left|]. rewrite (truthy_ext _ _ Hc), Hc, Ht.
  rewrite IH; [done|]. intros. apply Hb. by right.
Qed.

(** No query inside. *)
Fixpoint plain (e : Expr) : bool :=
  match e with
  | Literal _ | Column _ _ | Wildcard _ | Aggregate _ _ _ => true
  | BinaryOp e1 _ e2 => plain e1 && plain e2
  | UnaryOp _ e | IsNull e _ | Alias e _ => plain e
  | InList e l _ => plain e && forallb plain l
  | Between e lo hi _ => plain e && plain lo && plain hi
  | Like e p _ => plain e && plain p
  | Function _ args => forallb plain args
  | Case operand branches else_ =>
      match operand with Some e => plain e | None => true end &&
      forallb (fun '(c, t) => plain c && plain t) branches &&
      match else_ with Some e => plain e | None => true end
  | InSubquery _ _ _ | Subquery _ | Exists _ _ => false
  end.

Lemma forallb_at {A} (f : A -> bool) l a : a ∈ l -> forallb f l = true -> f a = true.
Proof. rewrite forallb_forall. intros Ha Hf. apply Hf. by apply list_elem_of_In. Qed.

(** [plain] of a subexpression. *)
Ltac inside := intros; rewrite ?andb_true_iff in *; destruct_and?; eauto using forallb_at.

Definition agree (n : nat) : Prop :=
  (forall e, (depth e < n)%nat -> forall row, E e row = E' e row) /\
  (forall q, (depth_select q < n)%nat -> S1 q = S2 q).

Lemma eval_step_inside e row :
  (forall e', (depth e' < depth e)%nat -> (plain e = true -> plain e' = true) -> E e' row = E' e' row) ->
  (forall q, (depth_select q < depth e)%nat -> plain e = false -> S1 q = S2 q) ->
  eval_step now_ms E S1 e row = eval_step now_ms E' S2 e row.
Proof.
  intros He Hs.
  destruct e as [| | |e1 op e2| |e ?|e l ?|e q ?|e lo hi ?|e p ?|f d arg|name args|operand branches else_|q|q ?|]; cbn in *; try done.
  - destruct op; cbn; rewrite !He by (cbn; (lia || inside)); try done.
  - by rewrite He by (lia || inside).
  - by rewrite He by (lia || inside).
  - rewrite He by (lia || inside). apply ebind_ext; [done|]. intros v.
    rewrite (any_of_ext _ (fun item => or_default false (ebind (E' item row) (fun w => eret (values_equal v w))))); [done|].
    intros a Ha. rewrite He; [done| |inside]. pose proof (max_of_le depth l a Ha). lia.
  - by rewrite He, Hs by (lia || inside || done).
  - by rewrite !He by (lia || inside).
  - by rewrite !He by (lia || inside).
  - apply eval_function_ext. intros e Hin. apply He; [|inside]. pose proof (max_of_le depth args e Hin). lia.
  - apply ebind_ext.
    { destruct operand; [|done]. by rewrite He by (lia || inside). }
    intros base. apply eval_branches_ext.
    + intros c t Hin. pose proof (max_of_le (fun '(c, t) => Nat.max (depth c) (depth t)) branches (c, t) Hin). cbn in *.
      assert (Hp : forallb (fun '(c, t) => plain c && plain t) branches = true -> plain c && plain t = true)
        by exact (forallb_at _ branches (c, t) Hin).
      split; apply He; (lia || (intros Hb; rewrite !andb_true_iff in Hb; destruct Hb as [[_ Hb] _]; apply Hp in Hb; inside)).
    + intros e ->. apply He; [lia|inside].
  - by rewrite Hs by (lia || done).
  - by rewrite Hs by (lia || done).
  - apply He; [lia|inside].
Qed.

Lemma eval_step_ext e row : agree (depth e) -> eval_step now_ms E S1 e row = eval_step now_ms E' S2 e row.
Proof. intros [He Hs]. apply eval_step_inside; auto. Qed.

(** ** FROM *)

Lemma eval_table_ref_ext t : (forall q, (depth_select q <= depth_table t)%nat -> S1 q = S2 q) ->
  eval_table_ref scan S1 t = eval_table_ref scan S2 t.
Proof. destruct t; cbn; intros Hs; [done|]. by rewrite Hs by lia. Qed.

Definition agree_on (c : option Expr) : Prop := forall e row, c = Some e -> E e row = E' e row.

Lemma join_one_ext on l rrows : agree_on on -> forall i, join_one E on l i rrows = join_one E' on l i rrows.
Proof.
  intros Hon. induction rrows as [|r rrows IH]; intros i; cbn; [done|].
  rewrite (passes_ext on (merge_rows l r)) by (intros; by apply Hon). by rewrite IH.
Qed.

Lemma join_left_ext on pl nr rrows lrows : agree_on on -> join_left E on pl nr lrows rrows = join_left E' on pl nr lrows rrows.
Proof. intros Hon. induction lrows as [|l lrows IH]; cbn; [done|]. by rewrite join_one_ext, IH. Qed.

Lemma nested_loop_join_ext on lrows rrows pl pr :
  agree_on on -> nested_loop_join E lrows rrows on pl pr = nested_loop_join E' lrows rrows on pl pr.
Proof. intros Hon. unfold nested_loop_join. by rewrite join_left_ext. Qed.

Lemma eval_join_ext rows j : (forall e, (depth e <= depth_join j)%nat -> forall row, E e row = E' e row) ->
  (forall q, (depth_select q <= depth_join j)%nat -> S1 q = S2 q) ->
  eval_join scan E S1 rows j = eval_join scan E' S2 rows j.
Proof.
  destruct j as [kind t on]. cbn. intros He Hs. apply ebind_ext.
  { apply eval_table_ref_ext. intros. apply Hs. lia. }
  intros right.
  assert (Hon : agree_on on) by (intros e row ->; apply He; lia).
  destruct kind; rewrite ?nested_loop_join_ext by done; try done.
  unfold full_outer_join. by rewrite nested_loop_join_ext, join_left_ext.
Qed.

Lemma eval_from_ext from joins :
  (forall e, (depth e <= max_of depth_join joins)%nat -> forall row, E e row = E' e row) ->
  (forall q, (depth_select q <= Nat.max (max_of depth_table from) (max_of depth_join joins))%nat -> S1 q = S2 q) ->
  eval_from scan E S1 from joins = eval_from scan E' S2 from joins.
Proof.
  intros He Hs. destruct from as [|t from]; cbn in *; [done|]. apply ebind_ext.
  { apply eval_table_ref_ext. intros. apply Hs. lia. }
  intros first. apply ebind_ext.
  - apply efold_ext. intros u rows Hu. rewrite eval_table_ref_ext; [done|].
    intros. apply Hs. pose proof (max_of_le depth_table from u Hu). lia.
  - intros rows. apply efold_ext. intros j rs Hj. pose proof (max_of_le depth_join joins j Hj).
    apply eval_join_ext; intros; [apply He|apply Hs]; lia.
Qed.

(** ** Projection and aggregates *)

Definition agree_to (n : nat) : Prop := forall e, (depth e <= n)%nat -> forall row, E e row = E' e row.

Lemma agree_to_le n m : (m <= n)%nat -> agree_to n -> agree_to m.
Proof. intros Hle Hn e He. apply Hn. lia. Qed.

Lemma project_expr_ext row agg out e : agree_to (depth e) -> project_expr E row agg out e = project_expr E' row agg out e.
Proof.
  intros He. destruct e as [| |tbl| | | | | | | | | | | | |e a]; cbn in *; try (rewrite He by (cbn; lia); done); done.
Qed.

Lemma project_row_ext cols row agg : agree_to (max_of depth cols) -> project_row E cols row agg = project_row E' cols row agg.
Proof.
  unfold project_row. generalize (@nil (Bytes * Value)). induction cols as [|e cols IH]; intros out He; cbn in *; [done|].
  rewrite project_expr_ext by (eapply agree_to_le; [|done]; lia). apply mbind_ext; [done|].
  intros o. apply IH. eapply agree_to_le; [|done]. lia.
Qed.

Lemma arg_values_ext e rows : agree_to (depth e) -> arg_values E e rows = arg_values E' e rows.
Proof. intros He. induction rows as [|row rows IH]; cbn; [done|]. by rewrite He, IH. Qed.

Lemma eval_aggregate_ext f d arg rows : (forall e, arg = Some e -> agree_to (depth e)) ->
  eval_aggregate E f d arg rows = eval_aggregate E' f d arg rows.
Proof. intros He. destruct f, arg as [e|]; cbn; rewrite ?(arg_values_ext e) by auto; done. Qed.

Lemma with_aggs_ext row agg e : agree_to (depth e) -> eval_expr_with_aggs E e row agg = eval_expr_with_aggs E' e row agg.
Proof.
  induction e; intros He; try (cbn [eval_expr_with_aggs]; apply He; lia); cbn in *; try done.
  - rewrite IHe1, IHe2 by (eapply agree_to_le; [|done]; lia). done.
  - apply IHe. eapply agree_to_le; [|done]. lia.
Qed.

Fixpoint compute_agg_expr_ext group e {struct e} : agree_to (depth e) -> forall agg,
  compute_agg_expr E e group agg = compute_agg_expr E' e group agg.
Proof.
  destruct e as [| | |e1 op e2| op e| | | | | |f d arg|name args| | | |e a]; intros He agg; cbn in *; try done.
  - rewrite compute_agg_expr_ext by (eapply agree_to_le; [|done]; lia). apply ebind_ext; [done|].
    intros. apply compute_agg_expr_ext. eapply agree_to_le; [|done]. lia.
  - apply compute_agg_expr_ext. eapply agree_to_le; [|done]. lia.
  - rewrite eval_aggregate_ext; [done|]. intros e ->. eapply agree_to_le; [|done]. lia.
  - revert agg. induction args as [|e args IH]; intros agg; cbn in *; [done|].
    rewrite compute_agg_expr_ext by (eapply agree_to_le; [|done]; lia). apply ebind_ext; [done|].
    apply IH. eapply agree_to_le; [|done]. lia.
  - rewrite compute_agg_expr_ext; [done|]. eapply agree_to_le; [|done]. lia.
Qed.

Lemma group_rows_ext g rows groups : agree_to (max_of depth g) -> group_rows E g rows groups = group_rows E' g rows groups.
Proof.
  intros He. revert groups. induction rows as [|row rows IH]; intros groups; cbn; [done|].
  assert (Hk : group_key E g row = group_key E' g row).
  { unfold group_key. rewrite (omapM_ext _ (fun e => or_default Null (E' e row))); [done|].
    intros e Hin. rewrite He; [done|]. by apply max_of_le. }
  rewrite Hk. apply mbind_ext; auto.
Qed.

Lemma eval_group_ext cols having group :
  agree_to (Nat.max (max_of depth cols) (match having with Some e => depth e | None => O end)) ->
  eval_group E cols having group = eval_group E' cols having group.
Proof.
  intros He. unfold eval_group.
  assert (Hc : forall a, a ∈ cols -> agree_to (depth a)).
  { intros a Ha. eapply agree_to_le; [|done]. pose proof (max_of_le depth cols a Ha). lia. }
  rewrite (efold_ext (fun agg e => compute_agg_expr E e group agg) (fun agg e => compute_agg_expr E' e group agg)).
  2:{ intros a b Ha. apply compute_agg_expr_ext. auto. }
  apply ebind_ext; [done|]. intros agg. apply ebind_ext.
  { destruct having as [h|]; [|done]. apply compute_agg_expr_ext. eapply agree_to_le; [|done]. lia. }
  intros agg2. apply mbind_ext.
  { destruct having as [h|]; [|done]. rewrite with_aggs_ext; [done|]. eapply agree_to_le; [|done]. lia. }
  intros ok. rewrite project_row_ext; [done|]. eapply agree_to_le; [|done]. lia.
Qed.

Lemma eval_group_by_ext cols g having rows :
  agree_to (Nat.max (max_of depth cols) (Nat.max (max_of depth g) (match having with Some e => depth e | None => O end))) ->
  eval_group_by E cols g having rows = eval_group_by E' cols g having rows.
Proof.
  intros He. unfold eval_group_by. rewrite group_rows_ext by (eapply agree_to_le; [|done]; lia).
  apply mbind_ext; [done|]. intros groups. apply ebind_ext; [|done]. apply emapM_ext. intros group.
  apply eval_group_ext. eapply agree_to_le; [|done]. lia.
Qed.

(** ** Queries *)

Lemma compare_rows_ext order a b : agree_to (max_of depth_order order) -> compare_rows E order a b = compare_rows E' order a b.
Proof.
  induction order as [|[e asc nf] order IH]; intros He; cbn in *; [done|].
  rewrite !He by lia. rewrite IH by (eapply agree_to_le; [|done]; lia). done.
Qed.

Lemma select_step_ext q : agree (depth_select q) -> select_step scan E S1 q = select_step scan E' S2 q.
Proof.
  destruct q as [distinct cols from joins w g having order limit offset union]. intros [He Hs].
  cbn -[Nat.max] in He, Hs. unfold select_step.
  assert (Hat : forall n, (n <= Nat.max (max_of depth cols) (Nat.max (max_of depth_table from) (Nat.max (max_of depth_join joins)
          (Nat.max (match w with Some e => depth e | None => O end) (Nat.max (max_of depth g)
          (Nat.max (match having with Some e => depth e | None => O end) (Nat.max (max_of depth_order order)
          (match union with Some (_, q) => depth_select q | None => O end)))))))) %nat -> agree_to n).
  { intros n Hn e Hen. apply He. lia. }
  apply ebind_ext.
  - cbn -[Nat.max]. apply ebind_ext.
    { apply eval_from_ext; [apply Hat; lia|]. intros q Hq. apply Hs. lia. }
    intros rows. apply mbind_ext.
    { apply retain_ext. intros row. apply passes_ext. intros e ->. apply He. lia. }
    intros rows2. apply ebind_ext.
    { rewrite eval_group_by_ext by (apply Hat; lia).
      rewrite (omapM_ext (fun row => project_row E cols row None) (fun row => project_row E' cols row None)); [done|].
      intros. apply project_row_ext, Hat. lia. }
    intros rows3. apply mbind_ext.
    { destruct having as [h|]; [|done]. rewrite (retain_ext (truthy E h) (truthy E' h)); [done|].
      intros. apply truthy_ext, He. lia. }
    intros rows4. rewrite (sort_by_ext (compare_rows E order) (compare_rows E' order)); [done|].
    intros. apply compare_rows_ext, Hat. lia.
  - intros rows. cbn -[Nat.max]. destruct union as [[all rhs]|]; [|done]. rewrite Hs; [done|]. lia.
Qed.
End Ext.

(** ** The evaluators *)

Section Fuel.
Context `{Serde} `{Lowercase} `{SqlLib}.
Variable scan : Bytes -> result VoltraError (list (Bytes * Value)).
Variable now_ms : Z.

Lemma eval_nested_fuel n : forall m,
  (forall e, (depth e <= n)%nat -> (depth e <= m)%nat -> forall row,
     fst (eval_nested scan now_ms n) e row = fst (eval_nested scan now_ms m) e row) /\
  (forall q, (depth_select q <= n)%nat -> (depth_select q <= m)%nat ->
     snd (eval_nested scan now_ms n) q = snd (eval_nested scan now_ms m) q).
Proof.
  induction n as [|n IH]; intros m.
  - split; [intros e He|intros q Hq]; exfalso; [destruct e|destruct q]; cbn in *; lia.
  - destruct m as [|m].
    + split; [intros e _ He|intros q _ Hq]; exfalso; [destruct e|destruct q]; cbn in *; lia.
    + destruct (IH m) as [IHe IHq]. cbn. destruct (eval_nested scan now_ms n) as [E1 Q1], (eval_nested scan now_ms m) as [E2 Q2].
      cbn in *. split.
      * intros e Hn Hm row. apply eval_step_ext. split; intros; [apply IHe|apply IHq]; lia.
      * intros q Hn Hm. apply select_step_ext. split; intros; [apply IHe|apply IHq]; lia.
Qed.

(** Without a query inside, what the tables hold does not matter. *)
Lemma eval_nested_plain scan2 n : forall e row, plain e = true ->
  fst (eval_nested scan now_ms n) e row = fst (eval_nested scan2 now_ms n) e row.
Proof.
  induction n as [|n IH]; intros e row Hp; cbn; [done|].
  destruct (eval_nested scan now_ms n) as [E1 Q1], (eval_nested scan2 now_ms n) as [E2 Q2]. cbn in *.
  apply eval_step_inside; intros; [auto|congruence].
Qed.
End Fuel.

Section Equations.
Context `{Serde} `{Lowercase} `{SqlLib}.
Variable now_ms : Z.

Lemma nested_agrees ts n :
  agree (fst (eval_nested (scan_of ts) now_ms n)) (eval_expr now_ms ts)
        (snd (eval_nested (scan_of ts) now_ms n)) (execute_select now_ms ts) (S n).
Proof.
  split.
  - intros e He row. destruct (eval_nested_fuel (scan_of ts) now_ms n (depth e)) as [Hf _]. apply Hf; lia.
  - intros q Hq. destruct (eval_nested_fuel (scan_of ts) now_ms n (depth_select q)) as [_ Hf]. apply Hf; lia.
Qed.

Lemma eval_expr_eq ts e row :
  eval_expr now_ms ts e row = eval_step now_ms (eval_expr now_ms ts) (execute_select now_ms ts) e row.
Proof.
  unfold eval_expr at 1. destruct (depth e) as [|n] eqn:Hd; [destruct e; cbn in Hd; lia|].
  cbn. pose proof (nested_agrees ts n) as Hag. destruct (eval_nested (scan_of ts) now_ms n). cbn in *.
  apply eval_step_ext. by rewrite Hd.
Qed.

Lemma execute_select_eq ts q :
  execute_select now_ms ts q = select_step (scan_of ts) (eval_expr now_ms ts) (execute_select now_ms ts) q.
Proof.
  unfold execute_select at 1. destruct (depth_select q) as [|n] eqn:Hd; [destruct q; cbn in Hd; lia|].
  cbn. pose proof (nested_agrees ts n) as Hag. destruct (eval_nested (scan_of ts) now_ms n). cbn in *.
  apply select_step_ext. by rewrite Hd.
Qed.

Lemma eval_expr_plain ts ts' e row : plain e = true -> eval_expr now_ms ts e row = eval_expr now_ms ts' e row.
Proof. apply eval_nested_plain. Qed.
End Equations.
