(* ===== verification/SqlFacts.v ===== *)
(** * What SQL means here

    LIKE against its declarative reading, joins as filtered products, groups as a partition,
    ORDER BY as a sort, and what DELETE removes. *)

From Stdlib Require Import SpecFloat Sorting.Sorted.
From S2P Require Import Prelude Errors Util Json JsonCodec Table TableIndex TableBatch TableReads FloatBits.
From S2P Require Import SqlParser SqlValue SqlExec SqlEval.
#[local] Open Scope ev_scope.

(** ** LIKE *)

(** The reading of a pattern: [%] is any run of characters, [_] any one, and every other
    character itself. *)
Inductive likes : list Bytes -> list Bytes -> Prop :=
| likes_nil : likes [] []
| likes_run p s1 s2 : likes p s2 -> likes ([37] :: p) (s1 ++ s2)
| likes_one p x s : likes p s -> likes ([95] :: p) (x :: s)
| likes_same p c s : c <> [37] -> c <> [95] -> likes p s -> likes (c :: p) (c :: s).

Lemma like_dp_percent p s :
  like_dp ([37] :: p) s = like_dp p s || match s with _ :: s' => like_dp ([37] :: p) s' | [] => false end.
Proof. by destruct s. Qed.

Lemma like_dp_run p s : like_dp ([37] :: p) s = true <-> exists s1 s2, s = s1 ++ s2 /\ like_dp p s2 = true.
Proof.
  induction s as [|x s IH]; rewrite like_dp_percent.
  - rewrite orb_false_r. split; [by exists [], []|]. intros ([|] & s2 & Hs & Hp); by simplify_eq/=.
  - rewrite orb_true_iff, IH. split.
    + intros [Hp|(s1 & s2 & -> & Hp)]; [by exists [], (x :: s)|by exists (x :: s1), s2].
    + intros ([|y s1] & s2 & Hs & Hp); simplify_eq/=; eauto 6.
Qed.

Lemma like_dp_char c p s : c <> [37] ->
  like_dp (c :: p) s = true <-> exists x s', s = x :: s' /\ (c = [95] \/ c = x) /\ like_dp p s' = true.
Proof.
  intros Hc. assert (Hb : beq c [37] = false) by (by apply bool_decide_eq_false).
  cbn [like_dp]. rewrite Hb. destruct s as [|x s]; [split; [done|by intros (? & ? & ? & _)]|].
  destruct (beq c [95] || beq c x) eqn:E.
  - apply orb_prop in E. rewrite !beq_true in E. split; [by eexists _, _|]. intros (? & ? & [= <- <-] & _ & ?). done.
  - apply orb_false_iff in E as [E1 E2]. split; [done|]. intros (? & ? & [= <- <-] & [->| ->] & _).
    + by rewrite beq_refl in E1.
    + by rewrite beq_refl in E2.
Qed.

(** LIKE holds exactly when the string is read by the pattern. *)
Theorem like_match_exact s pattern : like_match s pattern = true <-> likes (chars pattern) (chars s).
Proof.
  unfold like_match. generalize (chars s). induction (chars pattern) as [|c p IH]; intros t.
  - cbn. destruct t; split; try done; [constructor|by inversion 1].
  - destruct (decide (c = [37])) as [->|Hr]; [rewrite like_dp_run|rewrite like_dp_char by done].
    + split; [|inversion 1; simplify_eq; do 2 eexists; split; [done|by apply IH]].
      intros (s1 & s2 & -> & Hp). constructor. by apply IH.
    + split; [|inversion 1; simplify_eq; do 2 eexists; (split; [done|]); (split; [auto|]); by apply IH].
      intros (x & s' & -> & Hc & Hp%IH). destruct (decide (c = [95])) as [->|Ho]; [by constructor|].
      destruct Hc as [->| ->]; [done|by constructor].
Qed.

(** ** Sorting *)

Lemma bytes_cmp_swap a b : bytes_cmp b a = CompOpp (bytes_cmp a b).
Proof.
  unfold bytes_cmp. destruct (beq a b) eqn:E.
  - apply beq_true in E as ->. by rewrite beq_refl.
  - assert (beq b a = false) as -> by (apply bool_decide_eq_false; intros ->; by rewrite beq_refl in E).
    destruct (bytes_ltb a b) eqn:E1, (bytes_ltb b a) eqn:E2; try done.
    + pose proof (bytes_ltb_trans _ _ _ E1 E2) as Hc. by rewrite bytes_ltb_irrefl in Hc.
    + pose proof (bytes_ltb_tie _ _ E1 E2) as ->. by rewrite beq_refl in E.
Qed.

(** ** Queries *)

Lemma bool_cmp_swap a b : bool_cmp b a = CompOpp (bool_cmp a b).
Proof. by destruct a, b. Qed.

Lemma f64_cmp_swap a b : f64_cmp b a = CompOpp (f64_cmp a b).
Proof. unfold f64_cmp. rewrite (SFcompare_swap a b). by destruct (SFcompare a b). Qed.

Section Facts.
Context `{Serde} `{Lowercase} `{SqlLib}.

Lemma compare_values_swap a b nf : compare_values_ord b a nf = CompOpp (compare_values_ord a b nf).
Proof.
  destruct a, b, nf; cbn; try done;
    first [apply bool_cmp_swap|apply f64_cmp_swap|apply bytes_cmp_swap].
Qed.

Lemma compare_rows_swap E order a b c : compare_rows E order a b = Some c -> compare_rows E order b a = Some (CompOpp c).
Proof.
  induction order as [|[e asc nf] order IH]; cbn; [by intros [= <-]|].
  destruct (or_default Null (E e a)) as [av|]; [|done]. destruct (or_default Null (E e b)) as [bv|]; [|done]. cbn.
  rewrite (compare_values_swap av bv). destruct (compare_values_ord av bv _), asc; cbn; try done; by intros [= <-].
Qed.

Section Queries.
Variable now_ms : Z.
Implicit Types (ts : TableStore) (q : SelectStmt).

(** The query without its ORDER BY, LIMIT and OFFSET. *)
Definition unordered q : SelectStmt :=
  let 'MkSelect distinct columns from joins where_ group_by having _ _ _ union := q in
  MkSelect distinct columns from joins where_ group_by having [] None None union.

Definition segment {A} (offset limit : option Z) (l : list A) : list A :=
  let l := match offset with Some n => drop (Z.to_nat n) l | None => l end in
  match limit with Some n => take (Z.to_nat n) l | None => l end.

(** ORDER BY only reorders: the rows are those of the query without it, none directly
    after one that sorts behind it, and OFFSET and LIMIT then cut out a segment. *)
Theorem order_by_sorts ts q r :
  s_union q = None -> execute_select now_ms ts q = Some (Ok r) ->
  exists all sorted,
    execute_select now_ms ts (unordered q) = Some (Ok all) /\ sorted ≡ₚ q_rows all /\
    Sorted (in_order (compare_rows (eval_expr now_ms ts) (s_order_by q))) sorted /\
    q_rows r = segment (s_offset q) (s_limit q) sorted.
Proof.
  rewrite !execute_select_eq. destruct q as [distinct cols from joins w g having order limit offset union]. cbn.
  intros ->. unfold select_step. cbn. set (E := eval_expr now_ms ts). set (scan := scan_of ts).
  destruct (eval_from _ _ _ _ _) as [[rows|]|]; cbn; try done.
  destruct (retain _ rows) as [rows2|]; cbn; [|done].
  lazymatch goal with |- context [ebind (if ?b then ?x else ?y) _] => destruct (if b then x else y) as [[rows3|]|] end; cbn; try done.
  lazymatch goal with |- context [match having with Some h => @?x h | None => ?y end ≫= _] =>
    destruct (match having with Some h => x h | None => y end) as [rows4|] end; cbn; [|done].
  set (rows5 := if distinct then _ else rows4). destruct order as [|o order]; cbn [mbind option_bind].
  - intros [= <-]. eexists _, rows5. split_and!; [done|done| |done].
    clear. induction rows5 as [|a [|b l] IH]; constructor; auto. by constructor.
  - destruct (sort_by _ rows5) as [sorted|] eqn:Hs; [|done]. intros [= <-].
    eapply sort_by_sorted in Hs as [Hso Hp]; [|apply compare_rows_swap].
    eexists _, sorted. split_and!; [done|done|done|done].
Qed.
End Queries.

(** ** Joins and groups *)

Section Grouping.
Variable E : Expr -> Row -> ev Value.

Lemma retain_app {A} (p : A -> option bool) l1 l2 :
  retain p (l1 ++ l2) = r1 ← retain p l1; r2 ← retain p l2; Some (r1 ++ r2).
Proof.
  induction l1 as [|a l1 IH]; cbn; [by destruct (retain p l2)|]. destruct (p a) as [b|]; cbn; [|done].
  rewrite IH. destruct (retain p l1), (retain p l2); cbn; try done. by destruct b.
Qed.

Lemma join_one_retains on l rrows : forall i,
  fst <$> join_one E on l i rrows = retain (passes E on) (map (merge_rows l) rrows).
Proof.
  induction rrows as [|r rrows IH]; intros i; cbn; [done|]. destruct (passes E on (merge_rows l r)) as [b|]; cbn; [|done].
  rewrite <- (IH (S i)). destruct (join_one E on l (S i) rrows) as [[rows at_]|]; cbn; [|done]. by destruct b.
Qed.

(** An INNER JOIN is the product of its sides filtered by its condition. *)
Theorem inner_join_filters_product lrows rrows on :
  nested_loop_join E lrows rrows on false false = retain (passes E on) (cross_product lrows rrows).
Proof.
  unfold nested_loop_join. generalize (null_row_like (head rrows)). intros null.
  transitivity (fst <$> join_left E on false null lrows rrows).
  { destruct (join_left _ _ _ _ _ _); cbn; [by rewrite app_nil_r|done]. }
  induction lrows as [|l lrows IH]; cbn; [done|]. fold (cross_product lrows rrows).
  rewrite retain_app. rewrite <- (join_one_retains on l rrows 0), <- IH.
  destruct (join_one E on l 0 rrows) as [[rows at_]|]; cbn; [|done].
  destruct (join_left E on false null lrows rrows) as [[rows2 at2]|]; cbn; [|done]. by destruct rows.
Qed.

(** The groups so far: each under its own key, none empty, its rows those with the key. *)
Definition groups_ok (g : list Expr) (rows : list Row) (groups : list (Bytes * list Row)) : Prop :=
  NoDup groups.*1 /\
  Forall (fun kr => kr.2 = List.filter (fun row => bool_decide (group_key E g row = Some kr.1)) rows /\ kr.2 <> []) groups /\
  Forall (fun row => exists k, group_key E g row = Some k /\ k ∈ groups.*1) rows.

Lemma add_to_group_keys key row groups :
  (add_to_group key row groups).*1 = if bool_decide (key ∈ groups.*1) then groups.*1 else groups.*1 ++ [key].
Proof.
  induction groups as [|[k rows] groups IH]; cbn; [done|]. destruct (beq key k) eqn:Ek.
  - apply beq_true in Ek as ->. rewrite bool_decide_eq_true_2 by left. done.
  - assert (Hne : key <> k) by (intros ->; by rewrite beq_refl in Ek). cbn. rewrite IH.
    repeat case_bool_decide; try done; exfalso; set_solver.
Qed.

Lemma add_to_group_at key row groups k rs : NoDup groups.*1 -> (k, rs) ∈ add_to_group key row groups ->
  (k <> key /\ (k, rs) ∈ groups) \/ (k = key /\ exists rs0, rs = rs0 ++ [row] /\ ((k, rs0) ∈ groups \/ (rs0 = [] /\ k ∉ groups.*1))).
Proof.
  induction groups as [|[k0 rs0] groups IH]; cbn; intros Hnd Hin.
  - apply list_elem_of_singleton in Hin as [= -> ->]. right. split; [done|]. exists []. split; [done|]. right. set_solver.
  - apply NoDup_cons in Hnd as [Hn Hnd]. destruct (beq key k0) eqn:Ek.
    + apply beq_true in Ek as <-. apply elem_of_cons in Hin as [[= -> ->]|Hin].
      * right. split; [done|]. exists rs0. split; [done|]. left. left.
      * left. split; [|by right]. intros ->. apply Hn. by apply (list_elem_of_fmap_2 fst _ (key, rs)).
    + assert (Hne : key <> k0) by (intros ->; by rewrite beq_refl in Ek).
      apply elem_of_cons in Hin as [[= -> ->]|Hin]; [left; split; [done|left]|].
      destruct (IH Hnd Hin) as [[? ?]|(-> & rs1 & -> & [?|[-> ?]])]; [left; split; [done|by right]| |].
      * right. split; [done|]. exists rs1. split; [done|]. left. by right.
      * right. split; [done|]. exists []. split; [done|]. right. split; [done|]. set_solver.
Qed.

Lemma filter_none {A} (f : A -> bool) l : (forall a, a ∈ l -> f a = false) -> List.filter f l = [].
Proof. induction l as [|a l IH]; intros Hf; cbn; [done|]. rewrite Hf by left. apply IH. intros. apply Hf. by right. Qed.

Lemma own_rows_app g k rows row :
  List.filter (fun row => bool_decide (group_key E g row = Some k)) (rows ++ [row]) =
  List.filter (fun row => bool_decide (group_key E g row = Some k)) rows ++
  (if bool_decide (group_key E g row = Some k) then [row] else []).
Proof. rewrite List.filter_app. cbn. by case_bool_decide. Qed.

Lemma add_to_group_ok g rows groups row key : group_key E g row = Some key -> groups_ok g rows groups ->
  groups_ok g (rows ++ [row]) (add_to_group key row groups).
Proof.
  intros Hk (Hnd & Hg & Hr). rewrite Forall_forall in Hg. rewrite Forall_forall in Hr. split_and!.
  - rewrite add_to_group_keys. case_bool_decide as Hin; [done|]. apply NoDup_app. split_and!; [done| |apply NoDup_singleton].
    intros k Hk'. rewrite list_elem_of_singleton. by intros ->.
  - rewrite Forall_forall. intros [k rs] Hin. cbn. rewrite own_rows_app, Hk.
    apply add_to_group_at in Hin as [[Hne Hin]|(-> & rs0 & -> & Hin)]; [| |done].
    + rewrite bool_decide_eq_false_2 by congruence. rewrite app_nil_r. by apply (Hg (k, rs)).
    + rewrite bool_decide_eq_true_2 by done. split; [|by destruct rs0]. f_equal.
      destruct Hin as [Hin|[-> Hn]]; [by apply (Hg (key, rs0))|]. symmetry. apply filter_none. intros r Hin.
      apply bool_decide_eq_false. intros Hkr. destruct (Hr r Hin) as (k & ? & ?). by simplify_eq.
  - rewrite Forall_forall. setoid_rewrite add_to_group_keys. intros r [Hin| ->%list_elem_of_singleton]%elem_of_app.
    + destruct (Hr r Hin) as (k & ? & ?). exists k. split; [done|]. case_bool_decide; [done|]. apply elem_of_app. by left.
    + exists key. split; [done|]. case_bool_decide; [done|]. apply elem_of_app. right. by apply list_elem_of_singleton.
Qed.

(** GROUP BY partitions the rows: one group for each key that occurs, in which are the
    rows with this key, all of them and in their order. *)
Theorem group_by_partitions g rows groups : group_rows E g rows [] = Some groups -> groups_ok g rows groups.
Proof.
  assert (Hgo : forall seen gs, groups_ok g seen gs -> group_rows E g rows gs = Some groups -> groups_ok g (seen ++ rows) groups).
  { induction rows as [|row rows' IH]; intros seen gs Hok Hrun; cbn in Hrun; [simplify_eq; by rewrite app_nil_r|].
    destruct (group_key E g row) as [key|] eqn:Hk; cbn in Hrun; [|done].
    rewrite (cons_middle row seen rows'), app_assoc. eapply IH; [|done]. by apply add_to_group_ok. }
  apply (Hgo []). split_and!; constructor.
Qed.
End Grouping.

(** ** DELETE *)

Section Delete.
Variable now_ms : Z.
Implicit Types (ts : TableStore) (stmt : DeleteStmt).

(** Whether the condition picks a row; [None] where it panics. *)
Definition picks ts stmt (v : Value) : option bool := passes (eval_expr now_ms ts) (d_where stmt) (as_object v).

Definition picked ts stmt (l : list (Bytes * Value)) : list (Bytes * Value) :=
  List.filter (fun kv => bool_decide (picks ts stmt kv.2 = Some true)) l.

(** [ts'] is [ts] without the rows of a table at some keys. *)
Definition without (name : Bytes) (keys : list Bytes) ts ts' : Prop :=
  (forall n k, row_at (root ts') n k = if bool_decide (n = name /\ k ∈ keys) then None else row_at (root ts) n k) /\
  lobbies ts' = lobbies ts /\ blob_file ts' = blob_file ts.

Lemma delete_row_without name key ts : parse_lobby_key name = None ->
  exists d ts', delete_row name key ts = (Ok d, ts') /\ without name [key] ts ts'.
Proof.
  intros Hn. unfold delete_row, route, on_root. rewrite Hn.
  destruct (delete_row_unlocked name key (root ts, blob_file ts)) as [r [s' file']] eqn:Hd.
  apply delete_row_spec in Hd as (_ & -> & _ & _ & (d & -> & _) & Ht). do 2 eexists. split; [done|].
  split; [|done]. intros n k. cbn. unfold row_at. rewrite Ht.
  destruct (tables (root ts) !! name) as [t|] eqn:E.
  - destruct (decide (n = name)) as [->|Hne].
    + rewrite lookup_insert_eq, E. cbn. destruct (decide (k = key)) as [->|Hk].
      * rewrite lookup_delete_eq, bool_decide_eq_true_2; [done|]. split; [done|left].
      * rewrite lookup_delete_ne by done. rewrite bool_decide_eq_false_2; [done|]. rewrite list_elem_of_singleton. tauto.
    + rewrite lookup_insert_ne by done. rewrite bool_decide_eq_false_2; [done|tauto].
  - case_bool_decide as Hb; [|done]. destruct Hb as [-> _]. by rewrite E.
Qed.

Lemma without_trans name ks1 ks2 ts1 ts2 ts3 :
  without name ks1 ts1 ts2 -> without name ks2 ts2 ts3 -> without name (ks1 ++ ks2) ts1 ts3.
Proof.
  intros (Hr1 & Hl1 & Hb1) (Hr2 & Hl2 & Hb2). split_and!; [|congruence..]. intros n k. rewrite Hr2, Hr1.
  repeat case_bool_decide; try done; exfalso; set_solver.
Qed.

Lemma delete_rows_run stmt ts : parse_lobby_key (d_table stmt) = None ->
  (forall e, d_where stmt = Some e -> plain e = true) ->
  forall raw ts1 count, (forall kv, kv ∈ raw -> is_Some (picks ts stmt kv.2)) ->
  exists ts2, delete_rows now_ms stmt raw count ts1 = Some (Ok (count + zlen (picked ts stmt raw)), ts2) /\
    without (d_table stmt) (picked ts stmt raw).*1 ts1 ts2.
Proof.
  intros Hn Hp. induction raw as [|[key v] raw IH]; intros ts1 count Hs.
  - exists ts1. cbn. rewrite Z.add_0_r. split; [done|]. split_and!; [|done..]. intros n k.
    rewrite bool_decide_eq_false_2; [done|]. set_solver.
  - assert (Hpass : passes (eval_expr now_ms ts1) (d_where stmt) (as_object v) = picks ts stmt v).
    { apply passes_ext. intros e He. apply eval_expr_plain. auto. }
    destruct (Hs (key, v)) as [b Hb]; [left|]. cbn [snd] in Hb.
    cbn [delete_rows picked List.filter snd]. unfold sbind at 1, reading, row_passes. rewrite Hpass, Hb. cbn [eret].
    destruct b.
    + rewrite bool_decide_eq_true_2 by done. unfold sbind at 1, on_tables.
      destruct (delete_row_without (d_table stmt) key ts1 Hn) as (d & ts2 & -> & Hw).
      destruct (IH ts2 (count + 1)) as (ts3 & -> & Hw3); [intros; apply Hs; by right|].
      exists ts3. split; [f_equal; f_equal; f_equal; cbn [length]; unfold picked; lia|].
      by apply (without_trans _ [key] _ _ ts2).
    + rewrite bool_decide_eq_false_2 by done. apply IH. intros. apply Hs. by right.
Qed.

(** A DELETE whose condition has no query inside always ends well (unless its condition
    panics), removes exactly the rows that the condition picks and counts them: all other rows,
    other tables, the lobbies and the blob file stay as they are. *)
Theorem delete_exact stmt ts l :
  parse_lobby_key (d_table stmt) = None -> (forall e, d_where stmt = Some e -> plain e = true) ->
  fst (list_rows_with_keys (d_table stmt) ts) = Ok l -> (forall kv, kv ∈ l -> is_Some (picks ts stmt kv.2)) ->
  exists ts', execute_delete now_ms stmt ts = Some (Ok (dml_result (zlen (picked ts stmt l))), ts') /\
    without (d_table stmt) (picked ts stmt l).*1 ts ts'.
Proof.
  intros Hn Hp Hl Hs. unfold execute_delete.
  assert (Hlist : list_rows_with_keys (d_table stmt) ts = (Ok l, ts)).
  { revert Hl. unfold list_rows_with_keys, route, on_root, reads. rewrite Hn. cbn. intros ->. by destruct ts. }
  unfold sbind at 1, on_tables. rewrite Hlist.
  destruct (delete_rows_run stmt ts Hn Hp l ts 0 Hs) as (ts' & Hrun & Hw). exists ts'. split; [|done].
  unfold sbind. rewrite Hrun. done.
Qed.
End Delete.
End Facts.

(** ** SELECT with a WHERE

    Conditions on columns of integers, as an SQL reader has them, against what a query with such
    a WHERE selects: operators, BETWEEN, IN, IS NULL, and their combinations. A column that is
    null, or not there, is none of the integers: comparisons with it fail, [<>], NOT BETWEEN and
    NOT IN hold, and so does the NOT of a comparison. *)

Inductive Cmp : Type := CmpEq | CmpNe | CmpLt | CmpLe | CmpGt | CmpGe.
Inductive Cond : Type :=
| CTest (col : Bytes) (op : Cmp) (n : Z)
| CBetween (col : Bytes) (lo hi : Z) (negated : bool)
| CIn (col : Bytes) (l : list Z) (negated : bool)
| CIsNull (col : Bytes) (negated : bool)
| CAnd (a b : Cond) | COr (a b : Cond) | CNot (a : Cond).

Definition test (op : Cmp) (x n : Z) : bool :=
  match op with
  | CmpEq => x =? n | CmpNe => negb (x =? n) | CmpLt => x <? n | CmpLe => x <=? n | CmpGt => n <? x | CmpGe => n <=? x
  end.

(** Whether a condition holds, given the integers of the columns. *)
Fixpoint holds (f : Bytes -> option Z) (c : Cond) : bool :=
  match c with
  | CTest col op n => match f col, op with Some x, _ => test op x n | None, CmpNe => true | None, _ => false end
  | CBetween col lo hi negated => xorb negated (match f col with Some x => (lo <=? x) && (x <=? hi) | None => false end)
  | CIn col l negated => xorb negated (match f col with Some x => existsb (Z.eqb x) l | None => false end)
  | CIsNull col negated => xorb negated (match f col with Some _ => false | None => true end)
  | CAnd a b => holds f a && holds f b
  | COr a b => holds f a || holds f b
  | CNot a => negb (holds f a)
  end.

(** The condition in SQL. *)
Definition num (n : Z) : Expr := Literal (from_i64 n).
Definition sql_op (op : Cmp) : BinOp :=
  match op with CmpEq => Bin.Eq | CmpNe => Bin.Ne | CmpLt => Bin.Lt | CmpLe => Bin.Le | CmpGt => Bin.Gt | CmpGe => Bin.Ge end.
Fixpoint in_sql (c : Cond) : Expr :=
  match c with
  | CTest col op n => BinaryOp (Column None col) (sql_op op) (num n)
  | CBetween col lo hi negated => Between (Column None col) (num lo) (num hi) negated
  | CIn col l negated => InList (Column None col) (map num l) negated
  | CIsNull col negated => IsNull (Column None col) negated
  | CAnd a b => BinaryOp (in_sql a) Bin.And (in_sql b)
  | COr a b => BinaryOp (in_sql a) Bin.Or (in_sql b)
  | CNot a => UnaryOp Un.Not (in_sql a)
  end.

Fixpoint columns_of (c : Cond) : list Bytes :=
  match c with
  | CTest col _ _ | CBetween col _ _ _ | CIn col _ _ | CIsNull col _ => [col]
  | CAnd a b | COr a b => columns_of a ++ columns_of b
  | CNot a => columns_of a
  end.
Fixpoint constants_of (c : Cond) : list Z :=
  match c with
  | CTest _ _ n => [n]
  | CBetween _ lo hi _ => [lo; hi]
  | CIn _ l _ => l
  | CIsNull _ _ => []
  | CAnd a b | COr a b => constants_of a ++ constants_of b
  | CNot a => constants_of a
  end.

(** Comparisons are of floats: integers of 53 bits are exact. *)
Definition exact (z : Z) : Prop := Z.abs z < 2 ^ 53.

(** The integer of a column, and that it has one or none. *)
Definition cell_of (v : option Value) : option Z := match v with Some (Num (PosInt z)) | Some (Num (NegInt z)) => Some z | _ => None end.
Definition int_cell (v : option Value) : Prop :=
  match v with None | Some Null => True | Some v => exists z, exact z /\ v = from_i64 z end.
(** A name of a column: not of what the engine adds and hides, and without a dot. *)
Definition plain_name (name : Bytes) : Prop := (46 ∉ name) /\ name <> bs "row_key" /\ name <> bs "shard_id".

Definition field_of (col : Bytes) (v : Value) : option Value := get_field v col.
Definition chosen (cols : list Bytes) (v : Value) : Row :=
  foldl (fun out col => map_insert col (default Null (field_of col v)) out) [] cols.

Definition select_where (cols : list Bytes) (t : Bytes) (c : Cond) : SelectStmt :=
  MkSelect false (map (Column None) cols) [Named t None] [] (Some (in_sql c)) [] None [] None None None.

(** *** Columns of a row that was read from a table *)

Lemma ascending_nodup l : ascending l = true -> NoDup l.
Proof.
  induction l as [|k l IH]; [constructor|]. intros [Ha Hf]%ascending_cons. constructor; [|by apply IH].
  rewrite Forall_forall in Hf. intros Hin%Hf. by rewrite bytes_ltb_irrefl in Hin.
Qed.

Lemma map_remove_get k m n : n <> k -> map_get (map_remove k m) n = map_get m n.
Proof.
  intros Hn. unfold map_remove. induction m as [|[j v] m IH]; cbn; [done|].
  destruct (beq k j) eqn:E; cbn; [|by rewrite IH]. apply beq_true in E as <-. rewrite IH.
  destruct (beq n k) eqn:E2; [|done]. by apply beq_true in E2.
Qed.

Lemma map_remove_ascending k m : ascending (map fst m) = true -> ascending (map fst (map_remove k m)) = true.
Proof.
  unfold map_remove. induction m as [|[j v] m IH]; [done|]. cbn [map fst]. intros [Ha Hf]%ascending_cons.
  cbn [List.filter]. destruct (negb _); [|by apply IH]. cbn [map fst]. apply ascending_build; [by apply IH|].
  clear -Hf. induction m as [|[i w] m IH]; [constructor|]. cbn [map fst] in Hf. apply Forall_cons in Hf as [H1 H2]. cbn [List.filter].
  destruct (negb _); [constructor; [done|]|]; by apply IH.
Qed.

Lemma or_insert_get k v m n : n <> k -> map_get (or_insert k v m) n = map_get m n.
Proof.
  intros Hn. unfold or_insert. destruct (map_get m k); [done|]. rewrite map_get_insert. destruct (beq n k) eqn:E; [|done]. by apply beq_true in E.
Qed.

(** What a table shows of a row that is an object. *)
Lemma exposed_object key obj : ascending (map fst obj) = true -> Forall (fun f => 46 ∉ f) (map fst obj) ->
  exists obj', exposed key (Object obj) = Object obj' /\ NoDup (map fst obj') /\ Forall (fun f => 46 ∉ f) (map fst obj') /\
    forall n, plain_name n -> map_get obj' n = map_get obj n.
Proof.
  intros Ha Hd. cbn [exposed]. eexists. split; [reflexivity|]. set (obj1 := or_insert (bs "row_key") (Str key) obj).
  assert (H1 : ascending (map fst obj1) = true /\ Forall (fun f => 46 ∉ f) (map fst obj1)).
  { unfold obj1, or_insert. destruct (map_get obj _); [done|]. split; [by apply map_insert_ascending|].
    apply map_insert_keys; [done|]. apply (bool_decide_unpack _). vm_compute. exact I. }
  destruct H1 as [Ha1 Hd1]. split_and!.
  - by apply ascending_nodup, map_remove_ascending.
  - apply Forall_forall. intros f Hf. rewrite Forall_forall in Hd1. apply Hd1. unfold map_remove in Hf.
    apply list_elem_of_In, in_map_iff in Hf as (kv & <- & Hin). apply filter_In in Hin as [Hin _].
    apply list_elem_of_In, in_map_iff. by exists kv.
  - intros n (_ & Hr & Hs). unfold obj1. by rewrite map_remove_get, or_insert_get.
Qed.

Lemma dotted_inj (t a b : Bytes) : t ++ 46 :: a = t ++ 46 :: b <-> a = b.
Proof. split; [|by intros ->]. intros E%app_inv_head. by injection E. Qed.

Lemma qualify_get t obj n : NoDup (map fst obj) -> map_get (qualify_row (Object obj) t) (t ++ 46 :: n) = map_get obj n.
Proof.
  intros Hn. cbn [qualify_row]. enough (Hgen : forall out, map_get (foldl (fun out kv => map_insert (t ++ 46 :: kv.1) kv.2 out) out obj) (t ++ 46 :: n)
    = match map_get obj n with Some v => Some v | None => map_get out (t ++ 46 :: n) end) by (rewrite Hgen; by destruct (map_get obj n)).
  induction obj as [|[k v] obj IH]; intros out; cbn [foldl map_get fst snd]; [done|].
  cbn [map fst] in Hn. apply NoDup_cons in Hn as [Hk Hn]. rewrite IH by done. rewrite map_get_insert.
  destruct (beq n k) eqn:E.
  - apply beq_true in E as ->. rewrite beq_refl. destruct (map_get obj k) eqn:Eg; [|done]. exfalso. apply Hk.
    apply map_get_in in Eg. apply list_elem_of_In, in_map_iff. by exists (k, v0).
  - destruct (map_get obj n); [done|]. destruct (beq (t ++ 46 :: n) (t ++ 46 :: k)) eqn:E2; [|done]. apply beq_true in E2. apply dotted_inj in E2 as ->. by rewrite beq_refl in E.
Qed.

Lemma qualify_keys t obj : Forall (fun f => 46 ∉ f) (map fst obj) ->
  Forall (fun k => exists f, k = t ++ 46 :: f /\ 46 ∉ f) (map fst (qualify_row (Object obj) t)).
Proof.
  intros Hd. cbn [qualify_row]. enough (Hgen : forall out, Forall (fun k => exists f, k = t ++ 46 :: f /\ 46 ∉ f) (map fst out) ->
    Forall (fun k => exists f, k = t ++ 46 :: f /\ 46 ∉ f) (map fst (foldl (fun out kv => map_insert (t ++ 46 :: kv.1) kv.2 out) out obj)))
    by (apply Hgen; constructor).
  induction obj as [|[k v] obj IH]; intros out Ho; [done|]. cbn [map fst] in Hd. apply Forall_cons in Hd as [Hk Hd].
  cbn [foldl fst snd]. apply IH; [done|]. apply map_insert_keys; [done|]. by exists k.
Qed.

Lemma suffix_dotted (t f n : Bytes) : 46 ∉ f -> 46 ∉ n -> (is_Some (strip_suffix (46 :: n) (t ++ 46 :: f)) <-> f = n).
Proof.
  intros Hf Hn. split; [|intros ->; change (46 :: n) with ([46] ++ n); rewrite strip_suffix_app; by eexists].
  intros [r Hr]. unfold strip_suffix in Hr. destruct (strip_prefix _ _) as [x|] eqn:E; [|done]. apply strip_prefix_spec in E.
  rewrite rev_app_distr in E. cbn [rev] in E. rewrite <- !app_assoc in E. cbn [app] in E. clear Hr.
  assert (Hrev : rev f = rev n); [|by rewrite <- (rev_involutive f), Hrev, rev_involutive].
  assert (Hf' : 46 ∉ rev f) by (rewrite list_elem_of_In, <- in_rev, <- list_elem_of_In; done).
  assert (Hn' : 46 ∉ rev n) by (rewrite list_elem_of_In, <- in_rev, <- list_elem_of_In; done).
  revert E. generalize dependent (rev n). generalize dependent (rev f). clear. intros a Ha. revert Ha.
  induction a as [|c a IH]; intros Ha [|d b] Hb E; cbn in E; simplify_eq/=; [done|by destruct Hb; left|by destruct Ha; left|].
  f_equal. apply IH; [|intros Hin; by apply Hb; right|done]. intros Hin. by apply Ha; right.
Qed.

Lemma column_of_row t obj n : NoDup (map fst obj) -> Forall (fun f => 46 ∉ f) (map fst obj) -> 46 ∉ n ->
  column_value None n (qualify_row (Object obj) t) = default Null (map_get obj n).
Proof.
  intros Hnd Hd Hn. rewrite <- (qualify_get t obj n Hnd). pose proof (qualify_keys t obj Hd) as Hk. revert Hk.
  generalize (qualify_row (Object obj) t). intros row Hk. unfold column_value.
  assert (Hnone : map_get row n = None).
  { induction row as [|[k v] row IH]; [done|]. cbn [map fst] in Hk. apply Forall_cons in Hk as [(f & -> & _) Hk]. cbn [map_get].
    destruct (beq n _) eqn:E; [|by apply IH]. apply beq_true in E. destruct Hn. rewrite E. apply elem_of_app. right. by left. }
  rewrite Hnone. clear Hnone. induction row as [|[k v] row IH]; [done|]. cbn [map fst] in Hk. apply Forall_cons in Hk as [(f & -> & Hf) Hk].
  cbn [List.find map_get fst]. destruct (beq (t ++ 46 :: n) (t ++ 46 :: f)) eqn:E.
  - apply beq_true in E. apply dotted_inj in E as <-. destruct (proj2 (suffix_dotted t n n Hn Hn) eq_refl) as [r ->]. done.
  - destruct (strip_suffix _ _) as [r|] eqn:Es; [|by apply IH]. exfalso.
    assert (f = n) as -> by (apply (suffix_dotted t); [done|done|by eexists]). by rewrite beq_refl in E.
Qed.

(** *** The condition *)

Section Where.
Context `{Serde} `{Lowercase} `{SqlLib}.
Variable now_ms : Z.
Implicit Types (ts : TableStore).

Lemma as_f64_int z : Json.as_f64 (if 0 <=? z then PosInt z else NegInt z) = f64_of_int z.
Proof. unfold f64_of_int. by destruct (0 <=? z). Qed.

Lemma compare_ints x y : exact x -> exact y -> compare_values_ord (from_i64 x) (from_i64 y) false = (x ?= y).
Proof.
  intros Hx Hy. unfold from_i64. cbn [compare_values_ord]. unfold f64_cmp. by rewrite !as_f64_int, f64_of_int_order.
Qed.

Lemma values_equal_ints x y : exact x -> exact y -> values_equal (from_i64 x) (from_i64 y) = (x =? y).
Proof.
  unfold exact. intros Hx Hy. assert (Hi : forall z, Z.abs z < 2 ^ 53 -> Json.as_i64 (if 0 <=? z then PosInt z else NegInt z) = Some z).
  { intros z Hz. destruct (0 <=? z); [|done]. cbn. by rewrite zle_true by (unfold I64_MAX; lia). }
  unfold from_i64. cbn [values_equal]. by rewrite !Hi.
Qed.

(** The value of a column, and the integer it stands for. *)
Lemma int_cell_cases v : int_cell v ->
  (default Null v = Null /\ cell_of v = None) \/ exists z, exact z /\ default Null v = from_i64 z /\ cell_of v = Some z.
Proof.
  intros Hv. destruct v as [[]|]; cbn in Hv; try (by left); destruct Hv as (z & Hz & E);
    unfold from_i64 in E; try discriminate. injection E as ->. right. exists z. split; [done|]. split; [done|]. by destruct (0 <=? z).
Qed.

Lemma test_compare op x n : exact x -> exact n ->
  apply_op compare_op (sql_op op) (from_i64 x) (from_i64 n) = Some (Bool (test op x n)).
Proof.
  intros Hx Hn. destruct op; cbn [sql_op apply_op]; rewrite ?values_equal_ints by done; try done;
    unfold compare_op, from_i64; fold (from_i64 x); fold (from_i64 n); cbn [compare_op];
    change (Num (if 0 <=? x then PosInt x else NegInt x)) with (from_i64 x); change (Num (if 0 <=? n then PosInt n else NegInt n)) with (from_i64 n);
    rewrite compare_ints by done; unfold test; do 2 f_equal;
    destruct (Z.compare_spec x n); cbn; symmetry; first [apply Z.ltb_lt; lia|apply Z.ltb_ge; lia|apply Z.leb_le; lia|apply Z.leb_gt; lia].
Qed.

Section Row.
Variable ts : TableStore.
Variable row : Row.
Variable f : Bytes -> option Value.
Hypothesis Hrow : forall n, plain_name n -> column_value None n row = default Null (f n).
#[local] Abbreviation E := (eval_expr now_ms ts).

Lemma eval_column n : plain_name n -> E (Column None n) row = eret (default Null (f n)).
Proof. intros Hn. rewrite eval_expr_eq. cbn [eval_step]. by rewrite Hrow. Qed.
Lemma eval_num n : E (num n) row = eret (from_i64 n).
Proof. by rewrite eval_expr_eq. Qed.

Lemma eval_in l z : exact z -> Forall exact l ->
  any_of (fun item => or_default false (let? v := E item row in eret (values_equal (from_i64 z) v))) (map num l) = Some (existsb (Z.eqb z) l).
Proof.
  intros Hz Hl. induction Hl as [|n l Hn _ IH]; [done|]. cbn [map any_of]. rewrite eval_num. cbn [ebind eret or_default mbind option_bind].
  rewrite values_equal_ints by done. cbn [existsb]. destruct (z =? n); [done|]. exact IH.
Qed.

Lemma eval_in_null l :
  any_of (fun item => or_default false (let? v := E item row in eret (values_equal Null v))) (map num l) = Some false.
Proof. induction l as [|n l IH]; [done|]. cbn [map any_of]. rewrite eval_num. cbn. exact IH. Qed.

Lemma negate_xor n b : negate_if n b = Bool (xorb n b).
Proof. unfold negate_if. by destruct n, b. Qed.

Lemma eval_cond c : Forall plain_name (columns_of c) -> Forall (fun n => int_cell (f n)) (columns_of c) -> Forall exact (constants_of c) ->
  E (in_sql c) row = eret (Bool (holds (fun n => cell_of (f n)) c)).
Proof.
  induction c as [col op n|col lo hi neg|col l neg|col neg|a IHa b IHb|a IHa b IHb|a IHa]; cbn [columns_of constants_of in_sql holds];
    intros Hc Hi Hk; rewrite eval_expr_eq; cbn [eval_step].
  - apply List.Forall_inv in Hc, Hi, Hk. unfold eval_binary.
    destruct (int_cell_cases _ Hi) as [[Hv ->]|(z & Hz & Hv & ->)].
    + destruct op; cbn [sql_op]; rewrite eval_column by done; rewrite Hv, eval_num; cbn; done.
    + pose proof (test_compare op z n Hz Hk) as Ht. destruct op; cbn [sql_op] in *; rewrite eval_column by done; rewrite Hv, eval_num; cbn [ebind eret];
        rewrite Ht; done.
  - apply List.Forall_inv in Hc, Hi. apply Forall_cons in Hk as [Hlo Hk]. apply List.Forall_inv in Hk.
    rewrite eval_column by done. destruct (int_cell_cases _ Hi) as [[-> ->]|(z & Hz & -> & ->)]; rewrite !eval_num; cbn [ebind eret]; rewrite negate_xor.
    + by unfold from_i64.
    + rewrite !compare_ints by done. do 4 f_equal; unfold Z.leb; [rewrite (Z.compare_antisym z lo)|]; by destruct (z ?= _).
  - apply List.Forall_inv in Hc, Hi. rewrite eval_column by done. destruct (int_cell_cases _ Hi) as [[-> ->]|(z & Hz & -> & ->)]; cbn [ebind eret].
    + rewrite eval_in_null. cbn. by rewrite negate_xor.
    + rewrite eval_in by done. cbn. by rewrite negate_xor.
  - apply List.Forall_inv in Hc, Hi. rewrite eval_column by done. destruct (int_cell_cases _ Hi) as [[-> ->]|(z & Hz & -> & ->)]; cbn [ebind eret]; by rewrite negate_xor.
  - apply Forall_app in Hc as [Hc1 Hc2], Hi as [Hi1 Hi2], Hk as [Hk1 Hk2]. unfold eval_binary. rewrite IHa by done. cbn [ebind eret is_truthy].
    destruct (holds _ a); cbn; [|done]. rewrite IHb by done. done.
  - apply Forall_app in Hc as [Hc1 Hc2], Hi as [Hi1 Hi2], Hk as [Hk1 Hk2]. unfold eval_binary. rewrite IHa by done. cbn [ebind eret is_truthy].
    destruct (holds _ a); cbn; [done|]. rewrite IHb by done. done.
  - rewrite IHa by done. done.
Qed.

Lemma project_columns cols : Forall plain_name cols -> forall out,
  project_loop E (map (Column None) cols) row None out = Some (foldl (fun out n => map_insert n (default Null (f n)) out) out cols).
Proof.
  induction 1 as [|n cols Hn _ IH]; intros out; [done|]. cbn [map project_loop project_expr]. rewrite eval_column by done.
  cbn [or_default eret mbind option_bind expr_output_name]. apply IH.
Qed.
End Row.

(** A row of a table whose columns the query can name. *)
Definition plain_row (c : Cond) (kv : Bytes * Value) : Prop :=
  exists obj, kv.2 = Object obj /\ ascending (map fst obj) = true /\ Forall (fun f => 46 ∉ f) (map fst obj) /\
    Forall (fun n => int_cell (map_get obj n)) (columns_of c).

Lemma no_aggregate_columns cols : has_aggregate (map (Column None) cols) = false.
Proof. by induction cols. Qed.

(** C33: WHERE selects the rows it should. SELECT with any columns, FROM one table that can be
    read, WHERE any combination by AND, OR and NOT of =, <>, <, <=, >, >=, BETWEEN, IN and IS NULL
    on columns that hold integers of at most 53 bits or null: the query always answers, with the
    chosen columns of exactly the rows that satisfy the condition, read by itself ([holds]), in
    the order of the table. Columns and fields have no dots in their names and are not row_key or
    shard_id. To the code null is unequal to every integer, and so [holds] has it: <>, NOT BETWEEN
    and NOT IN are true of null. *)
Theorem where_selects_exactly ts t cols c rows :
  fst (list_rows_with_keys t ts) = Ok rows -> Forall (plain_row c) rows ->
  Forall plain_name (columns_of c) -> Forall plain_name cols -> Forall exact (constants_of c) ->
  exists r, execute_select now_ms ts (select_where cols t c) = Some (Ok r) /\
    q_rows r = map (fun kv => chosen cols kv.2)
                   (List.filter (fun kv => holds (fun n => cell_of (field_of n kv.2)) c) rows).
Proof.
  intros Hs Hr Hc Hcols Hk. rewrite execute_select_eq. unfold select_step, select_where. cbn [s_union eval_select_core eval_from eval_table_ref].
  change (scan_of ts t) with (fst (list_rows_with_keys t ts)). rewrite Hs. cbn [ebind eret efold default from_option id].
  set (shown := fun kv : Bytes * Value => qualify_row (exposed kv.1 kv.2) t).
  assert (Hcol : forall kv, kv ∈ rows -> forall n, plain_name n -> column_value None n (shown kv) = default Null (field_of n kv.2)).
  { intros [k v] Hin n Hn. rewrite Forall_forall in Hr. destruct (Hr _ Hin) as (obj & Ev & Ha & Hd & _). cbn in Ev. subst v.
    destruct (exposed_object k obj Ha Hd) as (obj' & E & Hnd & Hd' & Hg). unfold shown. cbn [fst snd]. rewrite E.
    rewrite column_of_row by (done || apply Hn). by rewrite Hg. }
  assert (Hkeep : forall l, (forall kv, kv ∈ l -> kv ∈ rows) -> retain (passes (eval_expr now_ms ts) (Some (in_sql c))) (map shown l)
    = Some (map shown (List.filter (fun kv => holds (fun n => cell_of (field_of n kv.2)) c) l))).
  { induction l as [|kv l IH]; intros Hl; [done|]. cbn [map retain passes]. unfold truthy.
    rewrite (eval_cond ts (shown kv) (fun n => field_of n kv.2)); [|by apply Hcol, Hl; left|done| |done].
    - cbn [eret or_default fmap option_fmap option_map is_truthy mbind option_bind]. rewrite IH by (intros; apply Hl; by right).
      cbn [List.filter]. by destruct (holds _ c).
    - rewrite Forall_forall in Hr. destruct (Hr kv) as (obj & E & _ & _ & Hi); [by apply Hl; left|]. destruct kv as [k v]. cbn in E |- *. by subst v. }
  change (map (fun kv : Bytes * Value => qualify_row (exposed kv.1 kv.2) t) rows) with (map shown rows).
  rewrite Hkeep by done. cbn [mbind option_bind negb orb]. rewrite no_aggregate_columns.
  assert (Hproj : forall l, (forall kv, kv ∈ l -> kv ∈ rows) ->
    omapM (fun row => project_row (eval_expr now_ms ts) (map (Column None) cols) row None) (map shown l) = Some (map (fun kv => chosen cols kv.2) l)).
  { induction l as [|kv l IH]; intros Hl; [done|]. cbn [map omapM].
    assert (Hone : project_row (eval_expr now_ms ts) (map (Column None) cols) (shown kv) None = Some (chosen cols kv.2)).
    { unfold project_row. rewrite (project_columns ts (shown kv) (fun n => field_of n kv.2)); [done|by apply Hcol, Hl; left|done]. }
    rewrite Hone. cbn [mbind option_bind]. by rewrite IH by (intros; apply Hl; by right). }
  rewrite Hproj.
  - eexists. split; [reflexivity|]. done.
  - intros kv Hin. apply list_elem_of_In, filter_In in Hin as [Hin _]. by apply list_elem_of_In.
Qed.
End Where.

(** ** Examples and witnesses *)

#[local] Existing Instance demo_serde.
#[local] Instance demo_lower : Lowercase := {| to_lowercase := map lower_byte |}.
#[local] Instance demo_sql : SqlLib := {| to_uppercase := map (fun c => if between 97 122 c then c - 32 else c); powi10 n := f64_of_dec false (10 ^ n) 0 |}.

(** The statement of a text; its effect on the tables. *)
Definition run (sql : Bytes) (ts : TableStore) : option (result VoltraError QueryResult * TableStore) :=
  match parse sql with
  | Some (Ok stmt) => execute_statement 1700000000000 (fun i => 5 + Z.of_nat i) 1000000 stmt ts
  | Some (Err e) => Some (Err e, ts)
  | None => None
  end.

Definition run_all (l : list Bytes) (ts : TableStore) : TableStore :=
  foldl (fun ts sql => match run sql ts with Some (_, ts) => ts | None => ts end) ts l.

(** The rows a query answers with. *)
Definition rows_of (sql : Bytes) (ts : TableStore) : option (list Row) :=
  match run sql ts with Some (Ok r, _) => Some (q_rows r) | _ => None end.

Definition demo_store : TableStore :=
  run_all [bs "INSERT INTO p (id, zone, gold) VALUES ('a', 'x', 3), ('b', 'y', 1), ('c', 'x', 2)"]
    (table_store_new NoEviction []).

Example select_runs : rows_of (bs "SELECT id FROM p WHERE gold > 1 ORDER BY id DESC") demo_store
  = Some [[(bs "id", Str (bs "c"))]; [(bs "id", Str (bs "a"))]].
Proof. vm_compute. reflexivity. Qed.

(** *** What the executor does otherwise *)

(** HAVING evaluates both sides of AND and OR and then reaches [unreachable!()]. *)
Lemma having_and_panics :
  run (bs "SELECT zone FROM p GROUP BY zone HAVING COUNT( * ) > 1 AND COUNT( * ) < 5") demo_store = None.
Proof. vm_compute. reflexivity. Qed.

Lemma min_remainder_panics : run (bs "SELECT (-9223372036854775807 - 1) % -1") demo_store = None.
Proof. vm_compute. reflexivity. Qed.

(** What follows a statement is ignored, also a WHERE with a typing error. *)
Lemma misspelt_where_deletes_all :
  let ts := run_all [bs "DELETE FROM p WHRE id = 'a'"] demo_store in rows_of (bs "SELECT id FROM p") ts = Some [].
Proof. vm_compute. reflexivity. Qed.

(** Numbers that do not fit are zero. *)
Lemma misread_numbers : tokenize (bs "9223372036854775808 1e") = Some (Ok [Tok.Integer 0; Tok.Float f64_zero; Tok.Eof]).
Proof. vm_compute. reflexivity. Qed.

(** A byte above 127 becomes a character of its own: one letter has length two. *)
Lemma misread_letters : rows_of (bs "SELECT LENGTH('" ++ [195; 169] ++ bs "') AS n") demo_store = Some [[(bs "n", Num (PosInt 2))]].
Proof. vm_compute. reflexivity. Qed.

(** Aggregates are named after their function alone, so two of one function are one. *)
Lemma aggregates_collide : rows_of (bs "SELECT SUM(gold), SUM(gold * 2) FROM p") demo_store = Some [[(bs "sum", Num (PosInt 6))]].
Proof. vm_compute. reflexivity. Qed.

(** An expression around an aggregate evaluates the aggregate to null. *)
Lemma aggregate_arithmetic_is_null : rows_of (bs "SELECT SUM(gold) + 1 AS n FROM p") demo_store = Some [[(bs "n", Null)]].
Proof. vm_compute. reflexivity. Qed.

Lemma abs_truncates : rows_of (bs "SELECT ABS(-1.5) AS n") demo_store = Some [[(bs "n", Num (PosInt 1))]].
Proof. vm_compute. reflexivity. Qed.

(** Rows are sorted after their projection: by a column that is not selected they are not. *)
Lemma order_by_hidden_column :
  rows_of (bs "SELECT id FROM p ORDER BY gold") demo_store = rows_of (bs "SELECT id FROM p") demo_store /\
  rows_of (bs "SELECT id, gold FROM p ORDER BY gold") demo_store <> rows_of (bs "SELECT id, gold FROM p") demo_store.
Proof. split; vm_compute; [reflexivity|discriminate]. Qed.

(** The order is reversed with its nulls: NULLS FIRST puts them last in a descending order. *)
Lemma nulls_first_come_last :
  rows_of (bs "SELECT gold FROM p ORDER BY gold DESC NULLS FIRST")
    (run_all [bs "INSERT INTO p (id, gold) VALUES ('a', NULL), ('b', 1)"] (table_store_new NoEviction []))
  = Some [[(bs "gold", Num (PosInt 1))]; [(bs "gold", Null)]].
Proof. vm_compute. reflexivity. Qed.

(** UNION drops duplicates of its right side only. *)
Lemma union_keeps_duplicates :
  option_map length (rows_of (bs "SELECT zone FROM p UNION SELECT zone FROM p") demo_store) = Some 3%nat.
Proof. vm_compute. reflexivity. Qed.

(** An empty table has one group of nulls. *)
Lemma group_of_nothing : rows_of (bs "SELECT zone FROM q GROUP BY zone") demo_store = Some [[(bs "zone", Null)]].
Proof. vm_compute. reflexivity. Qed.

(** HAVING on an aggregate without GROUP BY or an aggregate selected is skipped. *)
Lemma having_skipped : option_map length (rows_of (bs "SELECT id FROM p HAVING COUNT( * ) > 100") demo_store) = Some 3%nat.
Proof. vm_compute. reflexivity. Qed.

(** A LEFT JOIN with an empty table has no columns of it. *)
Lemma left_join_without_columns :
  rows_of (bs "SELECT p.id, q.* FROM p LEFT JOIN q ON p.id = q.id WHERE p.id = 'a'") demo_store = Some [[(bs "id", Str (bs "a"))]].
Proof. vm_compute. reflexivity. Qed.

(** A row whose id is a number gets a generated key. *)
Lemma numeric_id_is_no_key :
  let ts := run_all [bs "INSERT INTO p (id) VALUES (7)"] (table_store_new NoEviction []) in
  match fst (list_rows_with_keys (bs "p") ts) with Ok l => l.*1 = [bs "row_5"] | Err _ => False end.
Proof. vm_compute. reflexivity. Qed.

(** The rows before one that fails stay inserted. *)
Lemma insert_not_atomic :
  match run (bs "INSERT INTO p (id) VALUES ('a'), (BOGUS(1))") (table_store_new NoEviction []) with
  | Some (Err _, ts) => option_map length (rows_of (bs "SELECT * FROM p") ts) = Some 1%nat
  | _ => False
  end.
Proof. vm_compute. reflexivity. Qed.

(** *** Witnesses *)

Definition parsed (sql : Bytes) : SelectStmt :=
  match parse_select sql with Some (Ok s) => s | _ => MkSelect false [] [] [] None [] None [] None None None end.
Definition demo_query : SelectStmt := parsed (bs "SELECT id FROM p WHERE gold > 0 ORDER BY id DESC LIMIT 2 OFFSET 1").

(** [gold BETWEEN 2 AND 9 AND NOT gold = 2 OR vip IS NOT NULL] *)
Definition demo_cond : Cond :=
  COr (CAnd (CBetween (bs "gold") 2 9 false) (CNot (CTest (bs "gold") CmpEq 2))) (CIsNull (bs "vip") true).

Lemma demo_cond_parsed :
  parse (bs "SELECT id, gold FROM p WHERE gold BETWEEN 2 AND 9 AND NOT (gold = 2) OR vip IS NOT NULL")
  = Some (Ok (SelectS (select_where [bs "id"; bs "gold"] (bs "p") demo_cond))).
Proof. vm_compute. reflexivity. Qed.

Definition demo_rows : list (Bytes * Value) := match fst (list_rows_with_keys (bs "p") demo_store) with Ok l => l | Err _ => [] end.

Definition plain_row_test (c : Cond) (kv : Bytes * Value) : bool :=
  match kv.2 with
  | Object obj => ascending (map fst obj) && forallb (fun f => negb (existsb (Z.eqb 46) f)) (map fst obj) &&
      forallb (fun n => match map_get obj n with None | Some Null => true | Some (Num (PosInt z)) => (0 <=? z) && (z <? 2 ^ 53) | _ => false end) (columns_of c)
  | _ => false
  end.

Lemma no_dot f : negb (existsb (Z.eqb 46) f) = true -> 46 ∉ f.
Proof. intros Hf Hin. apply negb_true_iff in Hf. assert (Ht : existsb (Z.eqb 46) f = true); [|congruence]. apply existsb_exists. exists 46. split; [by apply list_elem_of_In|done]. Qed.

Lemma plain_row_tested c kv : plain_row_test c kv = true -> plain_row c kv.
Proof.
  unfold plain_row_test. destruct kv as [k []]; cbn [snd]; try done. rewrite !andb_true_iff. intros [[Ha Hd] Hi]. exists m.
  split; [done|]. split; [done|]. rewrite !forallb_forall in Hd, Hi. split; apply Forall_forall; intros x Hx; apply list_elem_of_In in Hx.
  - by apply no_dot, Hd.
  - specialize (Hi x Hx). destruct (map_get m x) as [[| |[z| |]| | |]|]; try done. zbool. exists z. unfold exact, from_i64. rewrite zle_true by lia. split; [lia|done].
Qed.

Lemma plain_name_test n : negb (existsb (Z.eqb 46) n) && negb (beq n (bs "row_key")) && negb (beq n (bs "shard_id")) = true -> plain_name n.
Proof.
  rewrite !andb_true_iff. intros [[Hd Hr] Hs]. split; [by apply no_dot|]. split; intros ->; [by rewrite beq_refl in Hr|by rewrite beq_refl in Hs].
Qed.

Lemma where_selects_exactly_witness :
  exists r, execute_select 0 demo_store (select_where [bs "id"; bs "gold"] (bs "p") demo_cond) = Some (Ok r) /\
    q_rows r = [[(bs "gold", Num (PosInt 3)); (bs "id", Str (bs "a"))]].
Proof.
  destruct (where_selects_exactly 0 demo_store (bs "p") [bs "id"; bs "gold"] demo_cond demo_rows) as (r & Hr & Hq).
  - vm_compute. reflexivity.
  - assert (Ht : forallb (plain_row_test demo_cond) demo_rows = true) by (vm_compute; reflexivity).
    rewrite forallb_forall in Ht. apply Forall_forall. intros kv Hin. apply plain_row_tested, Ht. by apply list_elem_of_In.
  - repeat constructor; apply plain_name_test; vm_compute; reflexivity.
  - repeat constructor; apply plain_name_test; vm_compute; reflexivity.
  - repeat constructor; unfold exact; vm_compute; reflexivity.
  - exists r. split; [exact Hr|]. rewrite Hq. vm_compute. reflexivity.
Defined.

Lemma order_by_sorts_witness :
  let r := execute_select 0 demo_store demo_query in
  match r with Some (Ok r) => q_rows r = [[(bs "id", Str (bs "b"))]; [(bs "id", Str (bs "a"))]] | _ => False end /\
  exists all, execute_select 0 demo_store (unordered demo_query) = Some (Ok all) /\ length (q_rows all) = 3%nat.
Proof.
  cbn zeta. set (x := execute_select _ _ _). assert (Hx : exists r, x = Some (Ok r)) by (eexists; vm_compute; reflexivity).
  destruct Hx as [r Hx]. destruct (order_by_sorts 0 demo_store demo_query r eq_refl Hx) as (all & sorted & Ha & Hp & _ & Hr).
  split; [by vm_compute|]. exists all. split; [done|].
  assert (Hq : q_rows r = [[(bs "id", Str (bs "b"))]; [(bs "id", Str (bs "a"))]]).
  { unfold x in Hx. vm_compute in Hx. by injection Hx as <-. }
  vm_compute in Ha. by injection Ha as <-.
Defined.

Lemma group_by_partitions_witness :
  let rows := [[(bs "zone", Str (bs "x")); (bs "n", Num (PosInt 1))]; [(bs "zone", Str (bs "y"))]; [(bs "zone", Str (bs "x"))]] in
  let g := [Column None (bs "zone")] in let E := eval_expr 0 demo_store in
  exists groups, group_rows E g rows [] = Some groups /\ groups_ok E g rows groups /\ map (fun kr => length kr.2) groups = [2; 1]%nat.
Proof.
  cbn zeta. set (x := group_rows _ _ _ _). assert (Hx : exists gs, x = Some gs) by (eexists; vm_compute; reflexivity).
  destruct Hx as [gs Hx]. exists gs. split; [done|]. split; [by apply group_by_partitions|].
  vm_compute in Hx. by injection Hx as <-.
Defined.

Definition demo_delete : DeleteStmt :=
  match parse (bs "DELETE FROM p WHERE zone = 'x'") with Some (Ok (DeleteS d)) => d | _ => {| d_table := []; d_where := None |} end.

Lemma delete_exact_witness :
  exists ts', execute_delete 0 demo_delete demo_store = Some (Ok (dml_result 2), ts') /\
    rows_of (bs "SELECT id FROM p") ts' = Some [[(bs "id", Str (bs "b"))]] /\
    row_at (root ts') (bs "p") (bs "a") = None.
Proof.
  set (x := list_rows_with_keys (d_table demo_delete) demo_store).
  assert (Hx : exists l, fst x = Ok l) by (eexists; vm_compute; reflexivity). destruct Hx as [l Hl].
  assert (Hs : forall kv, kv ∈ l -> is_Some (picks 0 demo_store demo_delete kv.2)).
  { intros kv. unfold x in Hl. vm_compute in Hl. injection Hl as <-. rewrite !elem_of_cons.
    intros [->|[->|[->|Hn]]]; [by eexists; vm_compute..|by apply elem_of_nil in Hn]. }
  destruct (delete_exact 0 demo_delete demo_store l) as (ts' & Hrun & Hw & _); [by vm_compute| |exact Hl|exact Hs|].
  { intros e [= <-]. by vm_compute. }
  exists ts'. unfold x in Hl. vm_compute in Hl. injection Hl as <-. split; [by rewrite Hrun|].
  rewrite Hw. split; [|by vm_compute].
  vm_compute in Hrun. by injection Hrun as <-.
Defined.
