(* ===== verification/DslParser.v ===== *)
(** * The front end of the reducer language (src/dsl/ast.rs, error.rs, lexer.rs, parser.rs)

    Syntax, lexer and a parser by recursive descent. *)

From S2P Require Import Prelude Util Parsing.

(** ** Syntax of the reducer language (src/dsl/ast.rs, error.rs)

    Programs of tables and reducers. Lines are those of the source text; the texts of errors
    quote tokens in the notation of the host language, so an error names them instead. *)

Module Op.
Inductive BinOp : Type :=
| Add | Sub | Mul | Div | Mod | Eq | Ne | Lt | Gt | Le | Ge | And | Or | BitAnd | BitOr | BitXor | Shl | Shr.
End Op.
Abbreviation BinOp := Op.BinOp.

Definition binop_to_rust (op : BinOp) : Bytes :=
  match op with
  | Op.Add => bs "+" | Op.Sub => bs "-" | Op.Mul => bs "*" | Op.Div => bs "/" | Op.Mod => bs "%"
  | Op.Eq => bs "==" | Op.Ne => bs "!=" | Op.Lt => bs "<" | Op.Gt => bs ">" | Op.Le => bs "<=" | Op.Ge => bs ">="
  | Op.And => bs "&&" | Op.Or => bs "||" | Op.BitAnd => bs "&" | Op.BitOr => bs "|" | Op.BitXor => bs "^"
  | Op.Shl => bs "<<" | Op.Shr => bs ">>"
  end.

Module Ty.
Inductive Type_ : Type := Str | Int | Float | Bool.
End Ty.
Abbreviation Type_ := Ty.Type_.

Definition type_to_rust (t : Type_) : Bytes :=
  match t with Ty.Str => bs "String" | Ty.Int => bs "i64" | Ty.Float => bs "f64" | Ty.Bool => bs "bool" end.
Definition zero_rust (t : Type_) : Bytes :=
  match t with Ty.Str => bs "String::new()" | Ty.Int => bs "0i64" | Ty.Float => bs "0.0f64" | Ty.Bool => bs "false" end.
Definition json_getter (t : Type_) : Bytes :=
  match t with Ty.Str => bs "as_str" | Ty.Int => bs "as_i64" | Ty.Float => bs "as_f64" | Ty.Bool => bs "as_bool" end.

Module Lit.
Inductive Literal : Type := Int (n : Z) | Float (f : f64) | Str (s : Bytes) | Bool (b : bool).
End Lit.
Abbreviation Literal := Lit.Literal.

Inductive Expr : Type :=
| ELit (l : Literal)
| EVar (name : Bytes)
| ERowRead (table : Bytes) (key : Expr)
| EFieldAccess (object : Expr) (field : Bytes)
| ERowLiteral (fields : list (Bytes * Expr))
| EArrayLit (elems : list Expr)
| EBinOp (left : Expr) (op : BinOp) (right : Expr)
| ENot (e : Expr)
| EFnCall (name : Bytes) (args : list Expr).

Inductive Stmt : Type :=
| SLetRow (name table : Bytes) (key : Expr) (else_body : option (list Stmt)) (line : Z)
| SLet (name : Bytes) (value : Expr) (line : Z)
| SAssignRow (table : Bytes) (key value : Expr) (line : Z)
| SAssignField (table : Bytes) (key : Expr) (field : Bytes) (value : Expr) (line : Z)
| SDeleteRow (table : Bytes) (key : Expr) (line : Z)
| SIf (condition : Expr) (then_body : list Stmt) (else_body : option (list Stmt)) (line : Z)
| SReturn (value : Expr) (line : Z)
| SError (message : Bytes) (line : Z)
| SForRow (key_var val_var table : Bytes) (body : list Stmt) (line : Z)
| SForArray (item_var : Bytes) (array : Expr) (body : list Stmt) (line : Z)
| SWhile (condition : Expr) (body : list Stmt) (line : Z)
| SBreak (line : Z)
| SContinue (line : Z)
| SAssignFieldOp (table : Bytes) (key : Expr) (field : Bytes) (op : BinOp) (value : Expr) (line : Z)
| SAssign (name : Bytes) (value : Expr) (line : Z)
| SCallStmt (name : Bytes) (args : list Expr) (line : Z).

Record FieldDef := { fd_name : Bytes; fd_ty : Type_; fd_default : option Literal; fd_line : Z }.
Record TableDecl := { td_name : Bytes; td_fields : list FieldDef; td_line : Z }.
Record Param := { p_name : Bytes; p_ty : Type_ }.
Record ReducerDecl := { rd_name : Bytes; rd_params : list Param; rd_body : list Stmt; rd_line : Z }.
Record Program_ := { pg_tables : list TableDecl; pg_reducers : list ReducerDecl }.

(** ** Tokens *)

Module Tok.
Inductive Token : Type :=
| Table | Reducer | Let | If | Else | Delete | Return | Error | For | In | While | Break | Continue
| TStr | TInt | TFloat | TBool
| LBrace | RBrace | LParen | RParen | LBracket | RBracket | Comma | Colon | Dot
| Eq | EqEq | BangEq | Lt | Gt | LtEq | GtEq | LtLt | GtGt | AmpAmp | PipePipe | Bang | Amp | Pipe | Caret
| Plus | Minus | Star | Slash | Percent | PlusEq | MinusEq | StarEq | SlashEq
| IntLit (n : Z) | FloatLit (f : f64) | StrLit (s : Bytes) | BoolLit (b : bool)
| Ident (s : Bytes)
| Eof.
End Tok.
Abbreviation Token := Tok.Token.
#[export] Instance token_eq_dec : EqDecision Token.
Proof. solve_decision. Defined.

Record Spanned := { token : Token; s_line : Z }.

(** ** Errors *)

Inductive Message : Type :=
| UnterminatedEscape
| UnterminatedString
| InvalidFloat (text : Bytes)
| InvalidInteger (text : Bytes)
| UnexpectedCharacter (c : Bytes)
| Expected (what found : Token)
| ExpectedIdentifier (found : Token)
| ExpectedType (found : Token)
| ExpectedDeclaration (found : Token)
| ExpectedNumber (found : Token)
| ExpectedLiteral (found : Token)
| ExpectedMessage (found : Token)
| UnexpectedStatement (found : Token)
| UnexpectedExpression (found : Token).

Record DslError := { e_line : Z; message : Message }.

(** ** The lexer of the reducer language (src/dsl/lexer.rs)

    One pass over the characters, a character being its UTF-8 bytes. *)

(** Letters and digits beyond ASCII, of Unicode: [char::is_alphabetic] and [char::is_numeric];
    a character is alphanumeric when it is one of the two. *)
Class Alphabet := { alphabetic : Bytes -> bool; numeric : Bytes -> bool }.

Section Lexer.
Context `{Alphabet}.
Implicit Types (c : Bytes) (cs : list Bytes).

Definition is_lower c : bool := match c with [b] => between 97 122 b | _ => false end.
Definition is_upper c : bool := match c with [b] => between 65 90 b | _ => false end.
Definition is_ascii_digit c : bool := match c with [b] => between 48 57 b | _ => false end.
Definition is_alphabetic c : bool :=
  match c with [_] => is_lower c || is_upper c | _ => alphabetic c end.
Definition is_alphanumeric c : bool :=
  is_alphabetic c || match c with [_] => is_ascii_digit c | _ => numeric c end.
Definition starts_ident c : bool := is_alphabetic c || beq c [95].
Definition in_ident c : bool := is_alphanumeric c || beq c [95].

(** [while chars.peek().map(p).unwrap_or(false)] *)
Fixpoint take_chars (p : Bytes -> bool) cs : Bytes * list Bytes :=
  match cs with
  | c :: cs' => if p c then let '(s, r) := take_chars p cs' in (c ++ s, r) else ([], cs)
  | [] => ([], [])
  end.

(** After the opening quote. *)
Fixpoint lex_string (line : Z) (s : Bytes) cs : result DslError (Bytes * list Bytes) :=
  match cs with
  | [] => Err {| e_line := line; message := UnterminatedString |}
  | c :: cs' =>
      if beq c [34] then Ok (s, cs')
      else if beq c [92] then
        match cs' with
        | [] => Err {| e_line := line; message := UnterminatedEscape |}
        | e :: cs'' =>
            lex_string line (s ++ (if beq e (bs "n") then [10] else if beq e (bs "t") then [9] else e)) cs''
        end
      else if beq c [10] then Err {| e_line := line; message := UnterminatedString |}
      else lex_string line (s ++ c) cs'
  end.

Definition lex_number (line : Z) cs : result DslError (Token * list Bytes) :=
  let '(num, cs) := take_chars is_ascii_digit cs in
  match cs with
  | dot :: d :: _ =>
      if beq dot [46] && is_ascii_digit d then
        let '(frac, cs) := take_chars is_ascii_digit (tail cs) in
        let num := num ++ [46] ++ frac in
        match parse_float num with
        | Some f => Ok (Tok.FloatLit f, cs)
        | None => Err {| e_line := line; message := InvalidFloat num |}
        end
      else match parse_i64_str num with
           | Some n => Ok (Tok.IntLit n, cs)
           | None => Err {| e_line := line; message := InvalidInteger num |}
           end
  | _ => match parse_i64_str num with
         | Some n => Ok (Tok.IntLit n, cs)
         | None => Err {| e_line := line; message := InvalidInteger num |}
         end
  end.

Definition keywords : list (Bytes * Token) :=
  [(bs "table", Tok.Table); (bs "reducer", Tok.Reducer); (bs "let", Tok.Let); (bs "if", Tok.If); (bs "else", Tok.Else);
   (bs "delete", Tok.Delete); (bs "return", Tok.Return); (bs "error", Tok.Error); (bs "for", Tok.For); (bs "in", Tok.In);
   (bs "while", Tok.While); (bs "break", Tok.Break); (bs "continue", Tok.Continue); (bs "str", Tok.TStr);
   (bs "int", Tok.TInt); (bs "float", Tok.TFloat); (bs "bool", Tok.TBool); (bs "true", Tok.BoolLit true);
   (bs "false", Tok.BoolLit false)].

Definition lookup_token (t : list (Bytes * Token)) (s : Bytes) : option Token :=
  snd <$> List.find (fun e => beq e.1 s) t.

Definition word (s : Bytes) : Token := default (Tok.Ident s) (lookup_token keywords s).

Definition two_char : list (Bytes * Token) :=
  [(bs "==", Tok.EqEq); (bs "!=", Tok.BangEq); (bs "<<", Tok.LtLt); (bs "<=", Tok.LtEq); (bs ">>", Tok.GtGt);
   (bs ">=", Tok.GtEq); (bs "&&", Tok.AmpAmp); (bs "||", Tok.PipePipe); (bs "+=", Tok.PlusEq); (bs "-=", Tok.MinusEq);
   (bs "*=", Tok.StarEq); (bs "/=", Tok.SlashEq)].

Definition one_char : list (Bytes * Token) :=
  [(bs "{", Tok.LBrace); (bs "}", Tok.RBrace); (bs "(", Tok.LParen); (bs ")", Tok.RParen); (bs "[", Tok.LBracket);
   (bs "]", Tok.RBracket); (bs ",", Tok.Comma); (bs ":", Tok.Colon); (bs ".", Tok.Dot); (bs "=", Tok.Eq);
   (bs "<", Tok.Lt); (bs ">", Tok.Gt); (bs "!", Tok.Bang); (bs "+", Tok.Plus); (bs "-", Tok.Minus); (bs "*", Tok.Star);
   (bs "/", Tok.Slash); (bs "%", Tok.Percent); (bs "&", Tok.Amp); (bs "|", Tok.Pipe); (bs "^", Tok.Caret)].

(** An operator: two characters before one. *)
Definition lex_operator (line : Z) c cs : result DslError (Token * list Bytes) :=
  match (match cs with d :: cs' => t ← lookup_token two_char (c ++ d); Some (t, cs') | [] => None end) with
  | Some r => Ok r
  | None =>
      match lookup_token one_char c with
      | Some t => Ok (t, cs)
      | None => Err {| e_line := line; message := UnexpectedCharacter c |}
      end
  end.

Definition is_comment c cs : bool := beq c [47] && match cs with d :: _ => beq d [47] | [] => false end.

(** The loop; every turn takes a character at least. *)
Fixpoint lex_loop (fuel : nat) (line : Z) cs (tokens : list Spanned) : option (result DslError (list Spanned)) :=
  match fuel with
  | O => None
  | S f =>
      let emit (r : result DslError (Token * list Bytes)) :=
        match r with
        | Ok (t, cs') => lex_loop f line cs' (tokens ++ [{| token := t; s_line := line |}])
        | Err e => Some (Err e)
        end in
      match cs with
      | [] => Some (Ok (tokens ++ [{| token := Tok.Eof; s_line := line |}]))
      | c :: cs' =>
          if beq c [32] || beq c [9] || beq c [13] then lex_loop f line cs' tokens
          else if beq c [10] then lex_loop f (line + 1) cs' tokens
          else if is_comment c cs' then lex_loop f line (snd (take_chars (fun d => negb (beq d [10])) cs)) tokens
          else if beq c [34] then
            emit (match lex_string line [] cs' with Ok (s, r) => Ok (Tok.StrLit s, r) | Err e => Err e end)
          else if is_ascii_digit c then emit (lex_number line cs)
          else if starts_ident c then
            let '(s, r) := take_chars in_ident cs in emit (Ok (word s, r))
          else emit (lex_operator line c cs')
      end
  end.

Definition tokenize (src : Bytes) : option (result DslError (list Spanned)) :=
  let cs := chars src in lex_loop (S (length cs)) 1 cs [].
End Lexer.

(** ** The parser (src/dsl/parser.rs)

    The state is the token at the position and those after it, so there always is one;
    advancing on the last token stays on it. Fuel counts how deep expressions and blocks nest,
    and loops are bounded by the tokens left. *)

#[local] Open Scope parser_scope.

Definition State : Type := Spanned * list Spanned.
Abbreviation parser := (Parsing.parser State DslError).
Implicit Types (s : State) (line : Z).

(** ** Tokens *)

Definition peek s : Token := token s.1.
Definition line_of s : Z := s_line s.1.
Definition next_state s : State := match s with (t, []) => (t, []) | (_, t :: r) => (t, r) end.
Definition advance : parser unit := fun s => Done tt (next_state s).

(** [VoltraError::new(line, ..)] with the token that is found. *)
Definition error_at {A} line (m : Token -> Message) : parser A :=
  fun s => Fail {| e_line := line; message := m (peek s) |}.
Definition fail_here {A} (m : Token -> Message) : parser A := fun s => error_at (line_of s) m s.

(** Branches on what is next. *)
Definition peeked {A} (f : Token -> parser A) : parser A := fun s => f (peek s) s.
Definition with_line {A} (f : Z -> parser A) : parser A := fun s => f (line_of s) s.

Definition eat (expected : Token) : parser unit :=
  peeked (fun t => if bool_decide (t = expected) then advance else fail_here (Expected expected)).

Definition eat_ident : parser Bytes :=
  peeked (fun t => match t with Tok.Ident n => let* _ := advance in pret n | _ => fail_here ExpectedIdentifier end).

Definition type_of (t : Token) : option Type_ :=
  match t with
  | Tok.TStr => Some Ty.Str | Tok.TInt => Some Ty.Int | Tok.TFloat => Some Ty.Float | Tok.TBool => Some Ty.Bool
  | _ => None
  end.

Definition eat_type : parser Type_ :=
  peeked (fun t => match type_of t with Some ty => let* _ := advance in pret ty | None => fail_here ExpectedType end).

Definition at_end s : bool := bool_decide (peek s = Tok.Eof).

(** [if self.peek() == &t { self.advance(); yes } else { no }] *)
Definition when_next {A} (t : Token) (yes no : parser A) : parser A :=
  peeked (fun t' => if bool_decide (t' = t) then let* _ := advance in yes else no).

(** [if self.peek() == &Token::Comma { self.advance(); }] *)
Definition skip_comma : parser unit := when_next Tok.Comma (pret tt) (pret tt).

(** [while self.peek() != &close && !self.at_end() { v.push(p) }] *)
Fixpoint until_loop {A} (fuel : nat) (close : Token) (p : parser A) (v : list A) : parser (list A) :=
  fun s =>
  match fuel with
  | O => OutOfFuel
  | S f =>
      if bool_decide (peek s = close) || at_end s then Done v s
      else (let* a := p in until_loop f close p (v ++ [a])) s
  end.

Definition until {A} (close : Token) (p : parser A) : parser (list A) :=
  fun s => until_loop (S (length s.2)) close p [] s.

(** A loop whose turns end with an optional comma. *)
Definition comma_item {A} (p : parser A) : parser A := let* a := p in let* _ := skip_comma in pret a.

(** ** Expressions *)

Definition or_op (t : Token) : option BinOp := match t with Tok.PipePipe => Some Op.Or | _ => None end.
Definition and_op (t : Token) : option BinOp := match t with Tok.AmpAmp => Some Op.And | _ => None end.
Definition bitor_op (t : Token) : option BinOp := match t with Tok.Pipe => Some Op.BitOr | _ => None end.
Definition bitxor_op (t : Token) : option BinOp := match t with Tok.Caret => Some Op.BitXor | _ => None end.
Definition bitand_op (t : Token) : option BinOp := match t with Tok.Amp => Some Op.BitAnd | _ => None end.
Definition equality_op (t : Token) : option BinOp :=
  match t with Tok.EqEq => Some Op.Eq | Tok.BangEq => Some Op.Ne | _ => None end.
Definition comparison_op (t : Token) : option BinOp :=
  match t with
  | Tok.Lt => Some Op.Lt | Tok.Gt => Some Op.Gt | Tok.LtEq => Some Op.Le | Tok.GtEq => Some Op.Ge | _ => None
  end.
Definition shift_op (t : Token) : option BinOp :=
  match t with Tok.LtLt => Some Op.Shl | Tok.GtGt => Some Op.Shr | _ => None end.
Definition additive_op (t : Token) : option BinOp :=
  match t with Tok.Plus => Some Op.Add | Tok.Minus => Some Op.Sub | _ => None end.
Definition multiplicative_op (t : Token) : option BinOp :=
  match t with Tok.Star => Some Op.Mul | Tok.Slash => Some Op.Div | Tok.Percent => Some Op.Mod | _ => None end.

(** [left = Expr::BinOp { left, op, right }] while there is an operator. *)
Fixpoint binary_loop (fuel : nat) (op_of : Token -> option BinOp) (p : parser Expr) (left : Expr) : parser Expr :=
  fun s =>
  match fuel with
  | O => OutOfFuel
  | S f =>
      match op_of (peek s) with
      | Some op => (let* _ := advance in let* right := p in binary_loop f op_of p (EBinOp left op right)) s
      | None => Done left s
      end
  end.

Definition left_assoc (op_of : Token -> option BinOp) (p : parser Expr) : parser Expr :=
  let* a := p in fun s => binary_loop (S (length s.2)) op_of p a s.

(** [while self.peek() == &Token::Dot] *)
Fixpoint postfix_loop (fuel : nat) (e : Expr) : parser Expr :=
  fun s =>
  match fuel with
  | O => OutOfFuel
  | S f => when_next Tok.Dot (let* field := eat_ident in postfix_loop f (EFieldAccess e field)) (pret e) s
  end.

Definition literal_of (t : Token) : option Literal :=
  match t with
  | Tok.IntLit n => Some (Lit.Int n) | Tok.FloatLit f => Some (Lit.Float f)
  | Tok.StrLit s => Some (Lit.Str s) | Tok.BoolLit b => Some (Lit.Bool b)
  | _ => None
  end.

Definition special_global (name : Bytes) : bool := beq name (bs "caller_id") || beq name (bs "caller_role").

(** The function a type keyword names as a cast. *)
Definition cast_of (t : Token) : option Bytes :=
  match t with
  | Tok.TInt => Some (bs "int") | Tok.TFloat => Some (bs "float") | Tok.TStr => Some (bs "str")
  | Tok.TBool => Some (bs "bool") | _ => None
  end.

(** [self.tokens.get(self.pos + 1) == Some(&t)] *)
Definition second_is (t : Token) s : bool := match s.2 with t' :: _ => bool_decide (token t' = t) | [] => false end.

Section Expressions.
Variable parse_expr : parser Expr.

Definition parse_arg_list : parser (list Expr) := until Tok.RParen (comma_item parse_expr).

(** [name(] read. *)
Definition call (name : Bytes) : parser Expr :=
  let* args := parse_arg_list in let* _ := eat Tok.RParen in pret (EFnCall name args).

Definition row_field : parser (Bytes * Expr) :=
  let* name := eat_ident in let* _ := eat Tok.Colon in let* val := parse_expr in pret (name, val).

Definition parse_named (name : Bytes) : parser Expr :=
  if special_global name then pret (EVar name)
  else when_next Tok.LParen (call name)
         (when_next Tok.LBracket (let* key := parse_expr in let* _ := eat Tok.RBracket in pret (ERowRead name key))
            (pret (EVar name))).

Definition parse_cast (name : Bytes) : parser Expr := fun s =>
  if second_is Tok.LParen s then (let* _ := advance in let* _ := advance in call name) s
  else fail_here UnexpectedExpression s.

Definition parse_primary : parser Expr := peeked (fun t =>
  match literal_of t with
  | Some l => let* _ := advance in pret (ELit l)
  | None =>
  match cast_of t with
  | Some name => parse_cast name
  | None =>
  match t with
  | Tok.LParen => let* _ := advance in let* inner := parse_expr in let* _ := eat Tok.RParen in pret inner
  | Tok.LBracket =>
      let* _ := advance in let* elems := until Tok.RBracket (comma_item parse_expr) in
      let* _ := eat Tok.RBracket in pret (EArrayLit elems)
  | Tok.LBrace =>
      let* _ := advance in let* fields := until Tok.RBrace (comma_item row_field) in
      let* _ := eat Tok.RBrace in pret (ERowLiteral fields)
  | Tok.Ident name => let* _ := advance in parse_named name
  | _ => fail_here UnexpectedExpression
  end end end).

Definition parse_postfix : parser Expr :=
  let* e := parse_primary in fun s => postfix_loop (S (length s.2)) e s.

Fixpoint unary_loop (fuel : nat) : parser Expr :=
  fun s =>
  match fuel with
  | O => OutOfFuel
  | S f =>
      when_next Tok.Bang (let* inner := unary_loop f in pret (ENot inner))
        (when_next Tok.Minus (let* inner := unary_loop f in pret (EBinOp (ELit (Lit.Int 0)) Op.Sub inner))
           parse_postfix) s
  end.

Definition parse_unary : parser Expr := fun s => unary_loop (S (length s.2)) s.

Definition parse_multiplicative : parser Expr := left_assoc multiplicative_op parse_unary.
Definition parse_additive : parser Expr := left_assoc additive_op parse_multiplicative.
Definition parse_shift : parser Expr := left_assoc shift_op parse_additive.
Definition parse_comparison : parser Expr := left_assoc comparison_op parse_shift.
Definition parse_equality : parser Expr := left_assoc equality_op parse_comparison.
Definition parse_bitand : parser Expr := left_assoc bitand_op parse_equality.
Definition parse_bitxor : parser Expr := left_assoc bitxor_op parse_bitand.
Definition parse_bitor : parser Expr := left_assoc bitor_op parse_bitxor.
Definition parse_and : parser Expr := left_assoc and_op parse_bitor.
Definition parse_or : parser Expr := left_assoc or_op parse_and.
End Expressions.

Fixpoint expr_nested (n : nat) : parser Expr :=
  match n with O => fun _ => OutOfFuel | S n => parse_or (expr_nested n) end.

Definition parse_expr : parser Expr := fun s => expr_nested (S (length s.2)) s.

(** ** Statements *)

Section Statements.
Variable parse_block : parser (list Stmt).
Variable nested_if : Z -> parser Stmt.

(** [ident\[] read. *)
Definition bracketed_key : parser Expr := let* key := parse_expr in let* _ := eat Tok.RBracket in pret key.

Definition optional_else : parser (option (list Stmt)) :=
  when_next Tok.Else (let* b := parse_block in pret (Some b)) (pret None).

Definition let_value (name : Bytes) line : parser Stmt := let* value := parse_expr in pret (SLet name value line).

(** [ident\[] ahead makes it a row, and the statement ends after the bracket; the position is
    set back when it is not. *)
Definition parse_let line : parser Stmt :=
  let* _ := eat Tok.Let in let* name := eat_ident in let* _ := eat Tok.Eq in
  fun s =>
    match peek s with
    | Tok.Ident table =>
        if bool_decide (peek (next_state s) = Tok.LBracket) then
          (let* _ := advance in let* _ := advance in let* key := bracketed_key in let* else_body := optional_else in
           pret (SLetRow name table key else_body line)) s
        else let_value name line s
    | _ => let_value name line s
    end.

Definition parse_delete line : parser Stmt :=
  let* _ := eat Tok.Delete in let* table := eat_ident in let* _ := eat Tok.LBracket in let* key := bracketed_key in
  pret (SDeleteRow table key line).

Definition else_branch : parser (list Stmt) :=
  peeked (fun t => if bool_decide (t = Tok.If) then with_line (fun l => let* nested := nested_if l in pret [nested])
                   else parse_block).

Definition parse_if line : parser Stmt :=
  let* _ := eat Tok.If in let* condition := parse_expr in let* then_body := parse_block in
  let* else_body := when_next Tok.Else (let* b := else_branch in pret (Some b)) (pret None) in
  pret (SIf condition then_body else_body line).

Definition parse_return line : parser Stmt :=
  let* _ := eat Tok.Return in let* value := parse_expr in pret (SReturn value line).

Definition parse_error_stmt line : parser Stmt :=
  let* _ := eat Tok.Error in let* _ := eat Tok.LParen in
  let* message := peeked (fun t => match t with
                                   | Tok.StrLit m => let* _ := advance in pret m
                                   | _ => error_at line ExpectedMessage
                                   end) in
  let* _ := eat Tok.RParen in pret (SError message line).

Definition parse_for_stmt line : parser Stmt :=
  let* _ := eat Tok.For in let* first_var := eat_ident in
  when_next Tok.Comma
    (let* val_var := eat_ident in let* _ := eat Tok.In in let* table := eat_ident in let* body := parse_block in
     pret (SForRow first_var val_var table body line))
    (let* _ := eat Tok.In in let* array := parse_expr in let* body := parse_block in
     pret (SForArray first_var array body line)).

Definition parse_while_stmt line : parser Stmt :=
  let* _ := eat Tok.While in let* condition := parse_expr in let* body := parse_block in
  pret (SWhile condition body line).

Definition compound_op (t : Token) : option BinOp :=
  match t with
  | Tok.PlusEq => Some Op.Add | Tok.MinusEq => Some Op.Sub | Tok.StarEq => Some Op.Mul | Tok.SlashEq => Some Op.Div
  | _ => None
  end.

Definition assign_field (table : Bytes) (key : Expr) line : parser Stmt :=
  let* field := eat_ident in
  peeked (fun t =>
    match compound_op t with
    | Some op => let* _ := advance in let* value := parse_expr in pret (SAssignFieldOp table key field op value line)
    | None => let* _ := eat Tok.Eq in let* value := parse_expr in pret (SAssignField table key field value line)
    end).

Definition parse_ident_stmt (name : Bytes) line : parser Stmt :=
  let* _ := advance in
  when_next Tok.LParen
    (let* args := parse_arg_list parse_expr in let* _ := eat Tok.RParen in pret (SCallStmt name args line))
    (when_next Tok.Eq
      (let* value := parse_expr in pret (SAssign name value line))
      (let* _ := eat Tok.LBracket in let* key := bracketed_key in
       when_next Tok.Dot
         (assign_field name key line)
         (let* _ := eat Tok.Eq in let* value := parse_expr in pret (SAssignRow name key value line)))).

Definition parse_stmt : parser Stmt :=
  with_line (fun line => peeked (fun t =>
    match t with
    | Tok.Let => parse_let line
    | Tok.Delete => parse_delete line
    | Tok.If => parse_if line
    | Tok.Return => parse_return line
    | Tok.Error => parse_error_stmt line
    | Tok.For => parse_for_stmt line
    | Tok.While => parse_while_stmt line
    | Tok.Break => let* _ := advance in pret (SBreak line)
    | Tok.Continue => let* _ := advance in pret (SContinue line)
    | Tok.Ident name => parse_ident_stmt name line
    | _ => error_at line UnexpectedStatement
    end)).

Definition block_of_stmts : parser (list Stmt) :=
  let* _ := eat Tok.LBrace in let* stmts := until Tok.RBrace parse_stmt in let* _ := eat Tok.RBrace in pret stmts.
End Statements.

Fixpoint nested (n : nat) : parser (list Stmt) * (Z -> parser Stmt) :=
  match n with
  | O => (fun _ => OutOfFuel, fun _ _ => OutOfFuel)
  | S n => let '(b, i) := nested n in (block_of_stmts b i, parse_if b i)
  end.

Definition parse_block : parser (list Stmt) := fun s => fst (nested (S (length s.2))) s.

(** ** Declarations *)

Definition parse_literal : parser Literal :=
  with_line (fun line =>
    when_next Tok.Minus
      (peeked (fun t => match t with
                        | Tok.IntLit n => let* _ := advance in pret (Lit.Int (- n))
                        | Tok.FloatLit f => let* _ := advance in pret (Lit.Float (SpecFloat.SFopp f))
                        | _ => error_at line ExpectedNumber
                        end))
      (peeked (fun t => match literal_of t with
                        | Some l => let* _ := advance in pret l
                        | None => error_at line ExpectedLiteral
                        end))).

Definition parse_field_def : parser FieldDef :=
  with_line (fun line =>
    let* name := eat_ident in let* _ := eat Tok.Colon in let* ty := eat_type in
    let* default := when_next Tok.Eq (let* l := parse_literal in pret (Some l)) (pret None) in
    pret {| fd_name := name; fd_ty := ty; fd_default := default; fd_line := line |}).

Definition parse_table : parser TableDecl :=
  with_line (fun line =>
    let* _ := eat Tok.Table in let* name := eat_ident in let* _ := eat Tok.LBrace in
    let* fields := until Tok.RBrace (comma_item parse_field_def) in
    let* _ := eat Tok.RBrace in pret {| td_name := name; td_fields := fields; td_line := line |}).

Definition parse_param : parser Param :=
  let* name := eat_ident in let* _ := eat Tok.Colon in let* ty := eat_type in pret {| p_name := name; p_ty := ty |}.

Definition parse_reducer : parser ReducerDecl :=
  with_line (fun line =>
    let* _ := eat Tok.Reducer in let* name := eat_ident in let* _ := eat Tok.LParen in
    let* params := until Tok.RParen (comma_item parse_param) in
    let* _ := eat Tok.RParen in let* body := parse_block in
    pret {| rd_name := name; rd_params := params; rd_body := body; rd_line := line |}).

Fixpoint program_loop (fuel : nat) (tables : list TableDecl) (reducers : list ReducerDecl) : parser Program_ :=
  fun s =>
  match fuel with
  | O => OutOfFuel
  | S f =>
      match peek s with
      | Tok.Eof => Done {| pg_tables := tables; pg_reducers := reducers |} s
      | Tok.Table => (let* t := parse_table in program_loop f (tables ++ [t]) reducers) s
      | Tok.Reducer => (let* r := parse_reducer in program_loop f tables (reducers ++ [r])) s
      | _ => fail_here ExpectedDeclaration s
      end
  end.

Definition parse_program : parser Program_ := fun s => program_loop (S (length s.2)) [] [] s.

(** [None] where the model's fuel ends, and where [parse] panics, which is on no tokens. *)
Definition parse (tokens : list Spanned) : option (result DslError Program_) :=
  match tokens with
  | [] => None
  | t :: r => match parse_program (t, r) with
              | Done p _ => Some (Ok p)
              | Fail e => Some (Err e)
              | OutOfFuel => None
              end
  end.

(** [lexer::tokenize] and [parser::parse], as [compile] calls them. *)
Definition front_end `{Alphabet} (source : Bytes) : option (result DslError Program_) :=
  r ← tokenize source; match r with Ok tokens => parse tokens | Err e => Some (Err e) end.
