(* ===== verification/DslTotal.v ===== *)
(** * The reducer language's front end answers every text

    Lexing and parsing end on every source, with a program or an error, and a program that is
    read is well formed: the names of calls and row reads are not the special globals, and
    compound assignments are of the four operators that have one. *)

From S2P Require Import Prelude Util Parsing DslParser.
#[local] Open Scope parser_scope.

(** ** Well-formed programs *)

Fixpoint wf_expr (e : Expr) : bool :=
  match e with
  | ELit _ | EVar _ => true
  | ERowRead t k => negb (special_global t) && wf_expr k
  | EFieldAccess o _ | ENot o => wf_expr o
  | ERowLiteral fs => forallb (fun f => wf_expr f.2) fs
  | EArrayLit es => forallb wf_expr es
  | EBinOp l _ r => wf_expr l && wf_expr r
  | EFnCall n args => negb (special_global n) && forallb wf_expr args
  end.

Definition compound (op : BinOp) : bool :=
  match op with Op.Add | Op.Sub | Op.Mul | Op.Div => true | _ => false end.

Fixpoint wf_stmt (s : Stmt) : bool :=
  match s with
  | SLetRow _ _ k b _ => wf_expr k && match b with Some b => forallb wf_stmt b | None => true end
  | SLet _ e _ | SReturn e _ | SAssign _ e _ | SDeleteRow _ e _ => wf_expr e
  | SAssignRow _ k v _ | SAssignField _ k _ v _ => wf_expr k && wf_expr v
  | SAssignFieldOp _ k _ op v _ => wf_expr k && compound op && wf_expr v
  | SIf c t b _ => wf_expr c && forallb wf_stmt t && match b with Some b => forallb wf_stmt b | None => true end
  | SForRow _ _ _ b _ => forallb wf_stmt b
  | SForArray _ e b _ | SWhile e b _ => wf_expr e && forallb wf_stmt b
  | SCallStmt _ args _ => forallb wf_expr args
  | SError _ _ | SBreak _ | SContinue _ => true
  end.

Definition wf_program (p : Program_) : bool := forallb (fun r => forallb wf_stmt (rd_body r)) (pg_reducers p).

(** ** Progress *)

Definition size (s : State) : nat := length s.2.
Definition ended (s : State) : Prop := token (List.last s.2 s.1) = Tok.Eof.

(** What a parser answers on [s]: it does not run out of fuel, and what it reads satisfies
    [Q] and leaves [d] tokens fewer at least. *)
Definition answers {A} (d : nat) (Q : A -> Prop) (s : State) (r : presult State DslError A) : Prop :=
  match r with Done a s' => ended s' /\ (size s' + d <= size s)%nat /\ Q a | Fail _ => True | OutOfFuel => False end.

(** On tokens that end in [Eof], of which there are fewer than [k] after the next. *)
Definition fine {A} (k d : nat) (Q : A -> Prop) (p : parser A) : Prop :=
  forall s, ended s -> (size s < k)%nat -> answers d Q s (p s).

(** The same where the next token is [t]. *)
Definition prog_at (t : Token) {A} (k d : nat) (Q : A -> Prop) (p : parser A) : Prop :=
  forall s, ended s -> (size s < k)%nat -> peek s = t -> answers d Q s (p s).

Definition any {A} (a : A) : Prop := True.

Lemma prog_to_at t {A} k d (Q : A -> Prop) p : fine k d Q p -> prog_at t k d Q p.
Proof. intros H s He Hs _. by apply H. Qed.

Lemma prog_peeked {A} k d (Q : A -> Prop) f : (forall t, prog_at t k d Q (f t)) -> fine k d Q (peeked f).
Proof. intros H s He Hs. unfold peeked. by apply (H (peek s)). Qed.

Lemma prog_with_line {A} k d (Q : A -> Prop) f : (forall l, fine k d Q (f l)) -> fine k d Q (with_line f).
Proof. intros H s He Hs. unfold with_line. by apply H. Qed.

Lemma prog_ret {A} k (Q : A -> Prop) a : Q a -> fine k 0 Q (pret a).
Proof. intros H s He Hs. cbn. repeat split; [done|lia|done]. Qed.

Lemma prog_error {A} k d (Q : A -> Prop) l m : fine k d Q (error_at l m).
Proof. done. Qed.
Lemma prog_fail {A} k d (Q : A -> Prop) m : fine k d Q (fail_here m).
Proof. done. Qed.
Lemma at_fail {A} t k d (Q : A -> Prop) m : prog_at t k d Q (fail_here m).
Proof. done. Qed.

Lemma prog_weaken {A} k k' d d' (Q Q' : A -> Prop) p :
  fine k d Q p -> (k' <= k)%nat -> (d' <= d)%nat -> (forall a, Q a -> Q' a) -> fine k' d' Q' p.
Proof.
  intros H Hk Hd HQ s He Hs. specialize (H s He ltac:(lia)). unfold answers in *.
  destruct (p s); [|done|done]. destruct H as (? & ? & ?). repeat split; [done|lia|auto].
Qed.

Lemma prog_nothing {A} d (Q : A -> Prop) p : fine 0 d Q p.
Proof. intros s He Hs. lia. Qed.

Lemma prog_bind {A B} k d d' (P : A -> Prop) (Q : B -> Prop) p f :
  fine k d P p -> (forall a, P a -> fine (k - d) d' Q (f a)) -> fine k (d + d') Q (pbind p f).
Proof.
  intros Hp Hf s He Hs. specialize (Hp s He Hs). unfold answers, pbind in *. destruct (p s) as [a r|e|]; [|done|done].
  destruct Hp as (Hr & Hl & HP). specialize (Hf a HP r Hr ltac:(lia)). unfold answers in Hf.
  destruct (f a r); [|done|done]. destruct Hf as (? & ? & ?). repeat split; [done|lia|done].
Qed.

(** The progress of the first part is enough. *)
Lemma prog_seq {A B} k d (P : A -> Prop) (Q : B -> Prop) p f :
  fine k d P p -> (forall a, P a -> fine (k - d) 0 Q (f a)) -> fine k d Q (pbind p f).
Proof. intros Hp Hf. rewrite (plus_n_O d). by eapply prog_bind. Qed.

Lemma prog_then {A B} k d (P : A -> Prop) (Q : B -> Prop) p f :
  fine k 0 P p -> (forall a, P a -> fine k d Q (f a)) -> fine k d Q (pbind p f).
Proof. intros Hp Hf. apply (prog_bind k 0 d P); [done|]. intros a Ha. rewrite Nat.sub_0_r. by apply Hf. Qed.

Lemma last_cons {A} (x : A) l d : List.last (x :: l) d = List.last l x.
Proof. revert x d. induction l as [|y l IH]; intros x d; [done|]. change (List.last (y :: l) d = List.last (y :: l) x). by rewrite !IH. Qed.

Lemma next_ended s : ended s -> peek s <> Tok.Eof -> ended (next_state s) /\ size s = S (size (next_state s)).
Proof.
  unfold ended, peek, size. destruct s as [t [|t' r]]; cbn [fst snd next_state length]; [done|].
  by rewrite last_cons.
Qed.

Lemma at_advance {A} t k d (Q : A -> Prop) p : t <> Tok.Eof -> fine (k - 1) d Q p ->
  prog_at t k (S d) Q (let* _ := advance in p).
Proof.
  intros Ht Hp s He Hs Hpk. unfold pbind, advance. destruct (next_ended s He) as [He' Hs']; [congruence|].
  specialize (Hp (next_state s) He' ltac:(lia)). unfold answers in *. destruct (p _); [|done|done].
  destruct Hp as (? & ? & ?). repeat split; [done|lia|done].
Qed.

Lemma at_weaken {A} t k d d' (Q : A -> Prop) p : prog_at t k d Q p -> (d' <= d)%nat -> prog_at t k d' Q p.
Proof.
  intros H Hd s He Hs Hpk. specialize (H s He Hs Hpk). unfold answers in *. destruct (p s); [|done|done].
  destruct H as (? & ? & ?). repeat split; [done|lia|done].
Qed.

Lemma prog_when {A} t k d (Q : A -> Prop) yes no : t <> Tok.Eof -> fine (k - 1) (d - 1) Q yes -> fine k d Q no ->
  fine k d Q (when_next t yes no).
Proof.
  intros Ht Hy Hn. apply prog_peeked. intros t'. case_bool_decide as E; [subst t'|by apply prog_to_at].
  apply (at_weaken t k (S (d - 1))); [by apply at_advance|lia].
Qed.

Lemma at_advance_ret {A} t k (Q : A -> Prop) a : t <> Tok.Eof -> Q a -> prog_at t k 1 Q (let* _ := advance in pret a).
Proof. intros Ht Ha. apply at_advance; [done|]. by apply prog_ret. Qed.

Lemma prog_eat k t : t <> Tok.Eof -> fine k 1 any (eat t).
Proof.
  intros Ht. apply prog_peeked. intros t'. case_bool_decide as E; [subst t'|done].
  intros s He Hs Hpk. destruct (next_ended s He) as [? ?]; [congruence|]. cbn. repeat split; [done|lia].
Qed.

Lemma prog_ident k : fine k 1 any eat_ident.
Proof. apply prog_peeked. intros []; try done. by apply at_advance_ret. Qed.

Lemma prog_type k : fine k 1 any eat_type.
Proof. apply prog_peeked. intros []; try done; by apply at_advance_ret. Qed.

Lemma prog_comma k : fine k 0 any skip_comma.
Proof. apply prog_when; [done|by apply prog_ret|by apply prog_ret]. Qed.

(** ** Loops *)

(** A loop started with fuel for the tokens it gets. *)
Lemma prog_started {A} k (Q : A -> Prop) (loop : nat -> parser A) :
  (forall f k', (k' <= k)%nat -> (k' <= f)%nat -> fine k' 0 Q (loop f)) -> fine k 0 Q (fun s => loop (S (length s.2)) s).
Proof. intros Hl s He Hs. apply (Hl (S (size s)) (S (size s))); [lia|lia|done|lia]. Qed.

Lemma prog_until_loop {A} (Q : A -> bool) close (p : parser A) : forall f k v,
  fine k 1 (fun a => Q a = true) p -> (k <= f)%nat -> forallb Q v = true ->
  fine k 0 (fun v => forallb Q v = true) (until_loop f close p v).
Proof.
  induction f as [|f IH]; intros k v Hp Hf Hv; [replace k with 0%nat by lia; apply prog_nothing|].
  intros s He Hs. cbn [until_loop]. destruct (_ || _); [cbn; repeat split; [done|lia|done]|].
  assert (Hb : fine k 1 (fun v => forallb Q v = true) (let* a := p in until_loop f close p (v ++ [a]))).
  { eapply prog_seq; [exact Hp|]. intros a Ha. apply IH; [|lia|].
    - eapply prog_weaken; [exact Hp|lia|lia|done].
    - by rewrite forallb_app, Hv; cbn; rewrite Ha. }
  specialize (Hb s He Hs). unfold answers in *. destruct (pbind _ _ s); [|done|done].
  destruct Hb as (? & ? & ?). repeat split; [done|lia|done].
Qed.

Lemma prog_until {A} k (Q : A -> bool) close (p : parser A) : fine k 1 (fun a => Q a = true) p ->
  fine k 0 (fun v => forallb Q v = true) (until close p).
Proof.
  intros Hp. apply (prog_started k _ (fun f => until_loop f close p [])). intros f k' Hk Hf.
  apply prog_until_loop; [|done|done]. eapply prog_weaken; [exact Hp|done|lia|done].
Qed.

Lemma prog_item {A} k (Q : A -> Prop) (p : parser A) : fine k 1 Q p -> fine k 1 Q (comma_item p).
Proof.
  intros Hp. eapply prog_seq; [exact Hp|]. intros a Ha. eapply prog_then; [apply prog_comma|]. intros _ _. by apply prog_ret.
Qed.

Definition good (e : Expr) : Prop := wf_expr e = true.

Lemma prog_binary op_of (p : parser Expr) : op_of Tok.Eof = None -> forall f k e,
  fine k 1 good p -> (k <= f)%nat -> good e -> fine k 0 good (binary_loop f op_of p e).
Proof.
  intros H0. induction f as [|f IH]; intros k e Hp Hf Hg; [replace k with 0%nat by lia; apply prog_nothing|].
  intros s He Hs. cbn [binary_loop]. destruct (op_of (peek s)) as [op|] eqn:E; [|cbn; repeat split; [done|lia|done]].
  assert (Hb : prog_at (peek s) k 1 good (let* _ := advance in let* right := p in binary_loop f op_of p (EBinOp e op right))).
  { apply at_advance; [congruence|]. eapply prog_then; [eapply prog_weaken; [exact Hp|lia|lia|done]|]. intros a Ha. apply IH.
    - eapply prog_weaken; [exact Hp|lia|lia|done].
    - lia.
    - unfold good in *. cbn. by rewrite Hg, Ha. }
  eapply at_weaken; [exact Hb| |done|done|done]. lia.
Qed.

Lemma prog_left_assoc k op_of p : op_of Tok.Eof = None -> fine k 1 good p -> fine k 1 good (left_assoc op_of p).
Proof.
  intros H0 Hp. eapply prog_seq; [exact Hp|]. intros e Hg.
  apply (prog_started (k - 1) good (fun f => binary_loop f op_of p e)). intros f k' Hk Hf.
  apply prog_binary; [done| |done|done]. eapply prog_weaken; [exact Hp|lia|lia|done].
Qed.

(** ** Expressions *)

(** A weaker form of what is known. *)
Ltac prog_known H := eapply prog_weaken; [exact H|lia|lia|done].

Lemma answers_weaken {A} d d' (Q : A -> Prop) s r : answers d Q s r -> (d' <= d)%nat -> answers d' Q s r.
Proof. unfold answers. destruct r; [|done|done]. intros (? & ? & ?) ?. repeat split; [done|lia|done]. Qed.

Lemma two_advances {A} k d (Q : A -> Prop) p s : ended s -> (size s < k)%nat -> peek s <> Tok.Eof ->
  peek (next_state s) <> Tok.Eof -> fine (k - 2) d Q p ->
  answers (S (S d)) Q s ((let* _ := advance in let* _ := advance in p) s).
Proof.
  intros He Hs H1 H2 Hp. destruct (next_ended s He H1) as [He1 Hz1]. destruct (next_ended _ He1 H2) as [He2 Hz2].
  specialize (Hp _ He2 ltac:(lia)). unfold pbind, advance, answers in *. destruct (p _); [|done|done].
  destruct Hp as (? & ? & ?). repeat split; [done|lia|done].
Qed.

Lemma prog_drop {A} k d (Q : A -> Prop) p : fine k d Q p -> fine k 0 Q p.
Proof. intros H. prog_known H. Qed.

Create HintDb fine.
#[export] Hint Resolve prog_ret prog_error prog_fail prog_ident prog_type prog_comma : fine.
#[export] Hint Extern 2 (fine _ _ _ (eat _)) => (apply prog_eat; discriminate) : fine.
#[export] Hint Extern 1 (any _) => exact I : fine.
#[export] Hint Extern 5 (_ <= _)%nat => lia : fine.

(** One step of a parser written as binds: a token, then what may be empty. *)
Ltac prog_eat1 := eapply prog_seq; [solve [auto with fine]|intros ? ?].
Ltac prog_step := eapply prog_then; [eapply prog_drop; solve [eauto with fine]|intros ? ?].
Ltac prog_go := repeat prog_step; try (apply prog_ret; done).

Section Expressions.
Variables (parse_expr : parser Expr) (m : nat).
Hypothesis Hexpr : fine m 1 good parse_expr.

Lemma prog_expr k : (k <= m)%nat -> fine k 1 good parse_expr.
Proof. intros ?. prog_known Hexpr. Qed.
#[local] Hint Resolve prog_expr : fine.

Lemma prog_args k : (k <= m)%nat -> fine k 0 (fun v => forallb wf_expr v = true) (parse_arg_list parse_expr).
Proof. intros Hk. apply prog_until, prog_item, prog_expr, Hk. Qed.
#[local] Hint Resolve prog_args : fine.

Lemma prog_call k name : (k <= m)%nat -> special_global name = false -> fine k 0 good (call parse_expr name).
Proof.
  intros Hk Hn. unfold call. eapply prog_then; [by apply prog_args|]. intros args Ha. prog_step.
  apply prog_ret. unfold good. cbn. by rewrite Hn, Ha.
Qed.

Lemma prog_row_field k : (k <= m)%nat -> fine k 1 (fun f => wf_expr f.2 = true) (row_field parse_expr).
Proof.
  intros Hk. unfold row_field. prog_eat1. prog_step. eapply prog_then; [prog_known (prog_expr (k - 1) ltac:(lia))|].
  intros e Hg. by apply prog_ret.
Qed.

Lemma prog_named k name : (k <= m)%nat -> fine k 0 good (parse_named parse_expr name).
Proof.
  intros Hk. unfold parse_named. destruct (special_global name) eqn:E; [by apply prog_ret|].
  apply prog_when; [done|apply prog_call; [lia|done]|]. apply prog_when; [done| |by apply prog_ret].
  eapply prog_then; [prog_known (prog_expr (k - 1) ltac:(lia))|]. intros e Hg. prog_step.
  apply prog_ret. unfold good in *. cbn. by rewrite E, Hg.
Qed.

(** A token, then a parser that may nest. *)
Lemma at_after {A} t (Q : A -> Prop) p : t <> Tok.Eof -> fine m 0 Q p -> prog_at t (S m) 1 Q (let* _ := advance in p).
Proof. intros Ht Hp. apply at_advance; [done|]. prog_known Hp. Qed.

Lemma at_cast t name : cast_of t = Some name -> prog_at t (S m) 1 good (parse_cast parse_expr name).
Proof.
  intros Ht s He Hs Hpk. unfold parse_cast. destruct (second_is _ s) eqn:E2; [|done].
  assert (Hs' : special_global name = false) by (by destruct t; inversion Ht).
  assert (Hp : peek (next_state s) = Tok.LParen).
  { unfold second_is, peek in *. destruct s as [? [|t' r]]; cbn in *; [done|]. by apply bool_decide_eq_true in E2. }
  apply (answers_weaken 2); [|lia]. apply (two_advances (S m)); [done|done|by destruct t; rewrite Hpk|by rewrite Hp|].
  eapply prog_weaken; [by apply (prog_call m name)|lia|lia|done].
Qed.

Lemma prog_primary : fine (S m) 1 good (parse_primary parse_expr).
Proof.
  apply prog_peeked. intros t. destruct (literal_of t) as [l|] eqn:El.
  { apply at_advance_ret; [by destruct t|done]. }
  destruct (cast_of t) as [name|] eqn:Ec; [by apply at_cast|].
  destruct t; try apply at_fail.
  - apply at_after; [done|]. eapply prog_then; [prog_known (prog_until m (fun f => wf_expr f.2) Tok.RBrace _ (prog_item _ _ _ (prog_row_field m (le_n m))))|].
    intros fs Hf. prog_step. by apply prog_ret.
  - apply at_after; [done|]. eapply prog_then; [prog_known Hexpr|]. intros e Hg. prog_step. by apply prog_ret.
  - apply at_after; [done|]. eapply prog_then; [apply prog_until, prog_item, Hexpr|]. intros es Hf. prog_step. by apply prog_ret.
  - apply at_after; [done|]. by apply prog_named.
Qed.

Lemma prog_postfix_loop : forall f k e, (k <= f)%nat -> good e -> fine k 0 good (postfix_loop f e).
Proof.
  induction f as [|f IH]; intros k e Hf Hg; [replace k with 0%nat by lia; apply prog_nothing|].
  change (fine k 0 good (when_next Tok.Dot (let* field := eat_ident in postfix_loop f (EFieldAccess e field)) (pret e))).
  apply prog_when; [done| |by apply prog_ret]. prog_step. apply IH; [lia|done].
Qed.

Lemma prog_postfix : fine (S m) 1 good (parse_postfix parse_expr).
Proof.
  eapply prog_seq; [apply prog_primary|]. intros e Hg.
  apply (prog_started (S m - 1) good (fun f => postfix_loop f e)). intros f k' _ Hf. by apply prog_postfix_loop.
Qed.

Lemma prog_unary_loop : forall f k, (k <= f)%nat -> (k <= S m)%nat -> fine k 1 good (unary_loop parse_expr f).
Proof.
  induction f as [|f IH]; intros k Hf Hm; [replace k with 0%nat by lia; apply prog_nothing|].
  change (fine k 1 good (when_next Tok.Bang (let* inner := unary_loop parse_expr f in pret (ENot inner))
    (when_next Tok.Minus (let* inner := unary_loop parse_expr f in pret (EBinOp (ELit (Lit.Int 0)) Op.Sub inner))
       (parse_postfix parse_expr)))).
  assert (Hu : forall g, (forall e, good e -> good (g e)) -> fine (k - 1) 0 good (let* inner := unary_loop parse_expr f in pret (g inner))).
  { intros g Hg. eapply prog_then; [prog_known (IH (k - 1)%nat ltac:(lia) ltac:(lia))|]. intros e He. apply prog_ret. by apply Hg. }
  apply prog_when; [done|by apply Hu|]. apply prog_when; [done|by apply (Hu (EBinOp (ELit (Lit.Int 0)) Op.Sub))|].
  prog_known prog_postfix.
Qed.

Lemma prog_unary : fine (S m) 1 good (parse_unary parse_expr).
Proof. intros s He Hs. by apply (prog_unary_loop (S (size s)) (S (size s))); [lia|lia|done|lia]. Qed.

Lemma prog_or : fine (S m) 1 good (parse_or parse_expr).
Proof. do 10 (apply prog_left_assoc; [done|]). apply prog_unary. Qed.
End Expressions.

Lemma prog_nested_expr n : fine n 1 good (expr_nested n).
Proof. induction n as [|n IH]; [apply prog_nothing|by apply prog_or]. Qed.

Lemma prog_parse_expr k : fine k 1 good parse_expr.
Proof. intros s He Hs. apply prog_nested_expr; [done|unfold size; lia]. Qed.
#[export] Hint Resolve prog_parse_expr : fine.

(** ** Statements *)

Definition good_stmt (s : Stmt) : Prop := wf_stmt s = true.
Definition good_block (b : list Stmt) : Prop := forallb wf_stmt b = true.
Definition good_else (b : option (list Stmt)) : Prop := match b with Some b => good_block b | None => True end.

(** An expression, with what is known of it. *)
Ltac prog_value := eapply prog_then; [eapply prog_drop, prog_parse_expr|intros ? ?].
Ltac prog_end := apply prog_ret; unfold good, good_stmt, good_block in *; cbn; by repeat (match goal with H : _ = true |- _ => rewrite H; clear H end).

Section Statements.
Variables (parse_block : parser (list Stmt)) (nested_if : Z -> parser Stmt) (m : nat).
Hypothesis Hblock : fine m 1 good_block parse_block.
Hypothesis Hif : forall l, fine m 1 good_stmt (nested_if l).

Lemma prog_block k d : (k <= m)%nat -> (d <= 1)%nat -> fine k d good_block parse_block.
Proof. intros ? ?. prog_known Hblock. Qed.

Ltac prog_body := eapply prog_then; [apply prog_block; lia|intros ? ?].

Lemma prog_key k : fine k 0 good bracketed_key.
Proof. unfold bracketed_key. prog_value. prog_step. by apply prog_ret. Qed.

Lemma prog_some k : (k <= m)%nat -> fine k 0 good_else (let* b := parse_block in pret (Some b)).
Proof. intros Hk. prog_body. by apply prog_ret. Qed.

Lemma prog_else k : (k <= m)%nat -> fine k 0 good_else (optional_else parse_block).
Proof. intros Hk. apply prog_when; [done|apply prog_some; lia|by apply prog_ret]. Qed.

Lemma good_else_wf b : good_else b -> match b with Some b => forallb wf_stmt b | None => true end = true.
Proof. by destruct b. Qed.

Lemma prog_let l : fine (S m) 1 good_stmt (parse_let parse_block l).
Proof.
  unfold parse_let. prog_eat1. replace (S m - 1)%nat with m by lia. do 2 prog_step. rename a0 into name.
  assert (Hv : fine m 0 good_stmt (let_value name l)) by (unfold let_value; prog_value; prog_end).
  intros s He Hs. destruct (peek s) eqn:E; try (by apply Hv). case_bool_decide as E2; [|by apply Hv].
  rename s0 into table.
  apply (answers_weaken 2); [|lia]. apply (two_advances m); [done|done|by rewrite E|by rewrite E2|].
  eapply prog_then; [apply prog_key|]. intros key Hk. eapply prog_then; [apply prog_else; lia|]. intros eb Hb.
  apply prog_ret. unfold good, good_stmt in *. cbn. by rewrite Hk, good_else_wf.
Qed.

Lemma prog_delete l : fine (S m) 1 good_stmt (parse_delete l).
Proof.
  unfold parse_delete. prog_eat1. do 2 prog_step. eapply prog_then; [apply prog_key|]. intros key Hk. by apply prog_ret.
Qed.

Lemma prog_else_branch k : (k <= m)%nat -> fine k 0 good_block (else_branch parse_block nested_if).
Proof.
  intros Hk. apply prog_peeked. intros t. apply prog_to_at. case_bool_decide; [|apply prog_block; lia].
  apply prog_with_line. intros l. eapply prog_then; [prog_known (Hif l)|]. intros s Hs.
  apply prog_ret. unfold good_block, good_stmt in *. cbn. by rewrite Hs.
Qed.

Lemma prog_if l : fine (S m) 1 good_stmt (parse_if parse_block nested_if l).
Proof.
  unfold parse_if. prog_eat1. replace (S m - 1)%nat with m by lia. prog_value. prog_body.
  eapply (prog_then _ _ good_else).
  { apply prog_when; [done| |by apply prog_ret]. eapply prog_then; [apply prog_else_branch; lia|]. intros b Hb. by apply prog_ret. }
  intros eb Hb. apply prog_ret. unfold good, good_stmt, good_block in *. cbn. rewrite good_else_wf by done.
  by match goal with H1 : wf_expr _ = true, H2 : forallb _ _ = true |- _ => rewrite H1, H2 end.
Qed.

Lemma prog_return l : fine (S m) 1 good_stmt (parse_return l).
Proof. unfold parse_return. prog_eat1. prog_value. by apply prog_ret. Qed.

Lemma prog_error_stmt l : fine (S m) 1 good_stmt (parse_error_stmt l).
Proof.
  unfold parse_error_stmt. prog_eat1. prog_step. eapply (prog_then _ _ any).
  { apply (prog_weaken (S m - 1) _ 1 _ any); [|lia|lia|done]. apply prog_peeked. intros []; try done. by apply at_advance_ret. }
  intros msg _. prog_step. by apply prog_ret.
Qed.

Lemma prog_for l : fine (S m) 1 good_stmt (parse_for_stmt parse_block l).
Proof.
  unfold parse_for_stmt. prog_eat1. replace (S m - 1)%nat with m by lia. prog_step. apply prog_when; [done| |].
  - do 3 prog_step. prog_body. by apply prog_ret.
  - prog_step. prog_value. prog_body. prog_end.
Qed.

Lemma prog_while l : fine (S m) 1 good_stmt (parse_while_stmt parse_block l).
Proof. unfold parse_while_stmt. prog_eat1. replace (S m - 1)%nat with m by lia. prog_value. prog_body. prog_end. Qed.

Lemma compound_op_wf t op : compound_op t = Some op -> compound op = true.
Proof. by destruct t; intros [= <-]. Qed.

Lemma prog_assign_field table key l k : good key -> fine k 0 good_stmt (assign_field table key l).
Proof.
  intros Hk. unfold assign_field. prog_step. apply prog_peeked. intros t. destruct (compound_op t) as [op|] eqn:E.
  - eapply at_weaken; [apply at_advance; [by destruct t|]|lia]. prog_value. apply prog_ret. unfold good, good_stmt in *. cbn.
    rewrite Hk, (compound_op_wf _ _ E). done.
  - apply prog_to_at. prog_step. prog_value. prog_end.
Qed.

Lemma at_ident_stmt t name l : t <> Tok.Eof -> prog_at t (S m) 1 good_stmt (parse_ident_stmt name l).
Proof.
  intros Ht. apply at_advance; [done|]. replace (S m - 1)%nat with m by lia. apply prog_when; [done| |].
  { eapply prog_then; [apply (prog_args _ m); [apply prog_parse_expr|lia]|]. intros args Ha. prog_step. by apply prog_ret. }
  apply prog_when; [done|prog_value; by apply prog_ret|]. prog_step. eapply prog_then; [apply prog_key|]. intros key Hk.
  apply prog_when; [done|by apply prog_assign_field|]. prog_step. prog_value. prog_end.
Qed.

Lemma prog_stmt : fine (S m) 1 good_stmt (parse_stmt parse_block nested_if).
Proof.
  apply prog_with_line. intros l. apply prog_peeked. intros t.
  destruct t; try done; try (by apply at_advance_ret); try (by apply at_ident_stmt); apply prog_to_at.
  - apply prog_let.
  - apply prog_if.
  - apply prog_delete.
  - apply prog_return.
  - apply prog_error_stmt.
  - apply prog_for.
  - apply prog_while.
Qed.

Lemma prog_block_of_stmts : fine (S m) 1 good_block (block_of_stmts parse_block nested_if).
Proof.
  unfold block_of_stmts. prog_eat1. eapply prog_then; [apply (prog_until _ wf_stmt); prog_known prog_stmt|]. intros b Hb. prog_step.
  by apply prog_ret.
Qed.
End Statements.

Lemma prog_nested n : fine n 1 good_block (fst (nested n)) /\ forall l, fine n 1 good_stmt (snd (nested n) l).
Proof.
  induction n as [|n [IHb IHi]]; [split; intros; apply prog_nothing|]. cbn [nested]. destruct (nested n) as [b i].
  cbn [fst snd] in *. split; [by apply prog_block_of_stmts|]. intros l. by apply prog_if.
Qed.

Lemma prog_parse_block k : fine k 1 good_block parse_block.
Proof. intros s He Hs. apply (proj1 (prog_nested _)); [done|unfold size; lia]. Qed.

(** ** Declarations *)

Lemma prog_literal k : fine k 1 any parse_literal.
Proof.
  apply prog_with_line. intros l. apply prog_when; [done| |].
  - apply (prog_weaken (k - 1) _ 1 _ any); [|lia|lia|done]. apply prog_peeked. intros []; try done; by apply at_advance_ret.
  - apply prog_peeked. intros t. destruct (literal_of t) eqn:E; [|done]. apply at_advance_ret; [by destruct t|done].
Qed.

Lemma prog_field_def k : fine k 1 (fun _ => true = true) parse_field_def.
Proof.
  apply prog_with_line. intros l. prog_eat1. do 2 prog_step. eapply (prog_then _ _ any); [|intros d _; by apply prog_ret].
  apply prog_when; [done| |by apply prog_ret]. eapply prog_then; [eapply prog_drop, prog_literal|]. intros ? _. by apply prog_ret.
Qed.

Lemma prog_table k : fine k 1 any parse_table.
Proof.
  apply prog_with_line. intros l. prog_eat1. do 2 prog_step.
  eapply prog_then; [apply (prog_until _ (fun _ => true)), prog_item, prog_field_def|]. intros fs _. prog_step. by apply prog_ret.
Qed.

Lemma prog_param k : fine k 1 (fun _ => true = true) parse_param.
Proof. unfold parse_param. prog_eat1. do 2 prog_step. by apply prog_ret. Qed.

Lemma prog_reducer k : fine k 1 (fun r => forallb wf_stmt (rd_body r) = true) parse_reducer.
Proof.
  apply prog_with_line. intros l. prog_eat1. do 2 prog_step.
  eapply prog_then; [apply (prog_until _ (fun _ => true)), prog_item, prog_param|]. intros ps _. prog_step.
  eapply prog_then; [eapply prog_drop, prog_parse_block|]. intros b Hb. by apply prog_ret.
Qed.

Definition good_program (p : Program_) : Prop := wf_program p = true.

Lemma prog_program_loop : forall f k tables reducers, (k <= f)%nat ->
  forallb (fun r => forallb wf_stmt (rd_body r)) reducers = true -> fine k 0 good_program (program_loop f tables reducers).
Proof.
  induction f as [|f IH]; intros k ts rs Hf Hr; [replace k with 0%nat by lia; apply prog_nothing|].
  intros s He Hs. cbn [program_loop]. destruct (peek s); try done.
  - eapply answers_weaken; [|apply (Nat.le_0_l 1)].
    refine ((_ : fine k 1 good_program (let* t := parse_table in program_loop f (ts ++ [t]) rs)) s He Hs).
    eapply prog_seq; [apply prog_table|]. intros t _. apply IH; [lia|done].
  - eapply answers_weaken; [|apply (Nat.le_0_l 1)].
    refine ((_ : fine k 1 good_program (let* r := parse_reducer in program_loop f ts (rs ++ [r]))) s He Hs).
    eapply prog_seq; [apply prog_reducer|]. intros r Hw. apply IH; [lia|]. rewrite forallb_app, Hr. cbn. by rewrite Hw.
  - cbn. repeat split; [done|lia|done].
Qed.

(** Tokens that end in [Eof] have an answer, and a program that is read is well formed. *)
Lemma parse_answers t r : ended (t, r) ->
  match parse (t :: r) with Some (Ok p) => wf_program p = true | Some (Err _) => True | None => False end.
Proof.
  intros He. unfold parse, parse_program. pose proof (prog_program_loop (S (size (t, r))) (S (size (t, r))) [] [] ltac:(lia) eq_refl
    (t, r) He ltac:(lia)) as H. unfold size in H. unfold answers in H. cbn [snd] in *.
  destruct (program_loop _ _ _ _); [|done|done]. by destruct H as (_ & _ & ?).
Qed.

(** ** The lexer *)

Section Lexer.
Context `{Alphabet}.

Lemma take_chars_shorter p cs : (length (snd (take_chars p cs)) <= length cs)%nat.
Proof.
  induction cs as [|c cs IH]; [done|]. cbn [take_chars]. destruct (p c); [|done].
  destruct (take_chars p cs). cbn in *. lia.
Qed.

Lemma take_chars_first p c cs : p c = true -> (length (snd (take_chars p (c :: cs))) <= length cs)%nat.
Proof.
  intros Hp. cbn [take_chars]. rewrite Hp. pose proof (take_chars_shorter p cs) as Hs. by destruct (take_chars p cs).
Qed.

(** What is left of the characters. *)
Definition leaves {A} (k : nat) (r : result DslError (A * list Bytes)) : Prop :=
  match r with Ok (_, cs) => (length cs <= k)%nat | Err _ => True end.

Lemma lex_string_leaves l : forall n cs s, (length cs <= n)%nat -> leaves n (lex_string l s cs).
Proof.
  induction n as [n IH] using lt_wf_ind. intros [|c cs] s Hn; [done|]. cbn [lex_string length] in *.
  assert (Hw : forall m (r : result DslError (Bytes * list Bytes)), (m < n)%nat -> leaves m r -> leaves n r)
    by (intros m [[? ?]|?] ?; cbn; [lia|done]).
  destruct (beq c [34]); [cbn; lia|]. destruct (beq c [92]).
  - destruct cs as [|e cs]; [done|]. cbn [length] in *. apply (Hw (length cs)); [lia|]. apply IH; lia.
  - destruct (beq c [10]); [done|]. apply (Hw (length cs)); [lia|]. apply IH; lia.
Qed.

Lemma lex_number_leaves l c cs : is_ascii_digit c = true -> leaves (length cs) (lex_number l (c :: cs)).
Proof.
  intros Hd. unfold lex_number. pose proof (take_chars_first _ _ cs Hd) as Hs.
  destruct (take_chars is_ascii_digit (c :: cs)) as [num r]. cbn [snd] in Hs.
  assert (Hi : leaves (length cs) (match parse_i64_str num with
    | Some n => Ok (Tok.IntLit n, r) | None => Err {| e_line := l; message := InvalidInteger num |} end))
    by (by destruct (parse_i64_str num)).
  destruct r as [|dot [|d r]]; [exact Hi|exact Hi|]. destruct (_ && _); [|exact Hi]. cbn [tail length] in *.
  pose proof (take_chars_shorter is_ascii_digit (d :: r)) as Hf. destruct (take_chars is_ascii_digit (d :: r)) as [frac r'].
  destruct (parse_float _); [|done]. cbn in *. lia.
Qed.

Lemma lex_operator_leaves l c cs : leaves (length cs) (lex_operator l c cs).
Proof.
  unfold lex_operator. destruct cs as [|d cs]; [destruct (lookup_token one_char c); cbn; [lia|done]|].
  destruct (lookup_token two_char (c ++ d)) as [t|]; cbn [mbind option_bind]; [cbn; lia|].
  destruct (lookup_token one_char c); cbn; [lia|done].
Qed.

Definition ends (r : option (result DslError (list Spanned))) : Prop :=
  match r with Some (Ok ts) => exists ts' l, ts = ts' ++ [{| token := Tok.Eof; s_line := l |}] | Some (Err _) => True | None => False end.

Lemma lex_loop_ends : forall f l cs tokens, (length cs < f)%nat -> ends (lex_loop f l cs tokens).
Proof.
  induction f as [|f IH]; intros l cs tokens Hf; [lia|]. cbn [lex_loop]. destruct cs as [|c cs]; [by do 2 eexists|].
  cbn [length] in Hf. cbv zeta.
  assert (He : forall r, leaves (length cs) r -> ends (match r with
    | Ok (t, cs') => lex_loop f l cs' (tokens ++ [{| token := t; s_line := l |}]) | Err e => Some (Err e) end)).
  { intros [[t r]|e]; cbn [leaves]; [intros ?; apply IH; lia|done]. }
  destruct (_ || _ || _); [apply IH; lia|]. destruct (beq c [10]) eqn:E10; [apply IH; lia|].
  destruct (is_comment c cs).
  { apply IH. pose proof (take_chars_first (fun d => negb (beq d [10])) c cs) as Hs. cbn beta in Hs. rewrite E10 in Hs.
    specialize (Hs eq_refl). lia. }
  destruct (beq c [34]).
  { apply He. pose proof (lex_string_leaves l (length cs) cs [] (le_n _)) as Hs. by destruct (lex_string l [] cs) as [[? ?]|?]. }
  destruct (is_ascii_digit c) eqn:Ed; [by apply He, lex_number_leaves|].
  destruct (starts_ident c) eqn:Es; [|apply He, lex_operator_leaves].
  assert (Hi : in_ident c = true).
  { unfold starts_ident, in_ident, is_alphanumeric in *. destruct (is_alphabetic c); [done|].
    cbn in Es. by rewrite Es, orb_true_r. }
  pose proof (take_chars_first in_ident c cs Hi) as Hs. destruct (take_chars in_ident (c :: cs)) as [s r]. by apply (He (Ok (word s, r))).
Qed.

Lemma tokenize_ends src : ends (tokenize src).
Proof. apply lex_loop_ends. lia. Qed.

Lemma ended_snoc ts l : match ts ++ [{| token := Tok.Eof; s_line := l |}] with t :: r => ended (t, r) | [] => False end.
Proof.
  destruct ts as [|t ts]; [done|]. cbn [app]. unfold ended. cbn [fst snd]. by rewrite List.last_last.
Qed.

Lemma front_end_answers src :
  match front_end src with Some (Ok p) => wf_program p = true | Some (Err _) => True | None => False end.
Proof.
  unfold front_end. pose proof (tokenize_ends src) as He. destruct (tokenize src) as [[ts|e]|]; cbn in *; [|done|done].
  destruct He as (ts' & l & ->). pose proof (ended_snoc ts' l) as He. destruct (ts' ++ _) as [|t r]; [done|].
  by apply parse_answers.
Qed.
End Lexer.
