(* ===== verification/DslShow.v ===== *)
(** * Printing programs of the reducer language

    The program has no printer: this one is a reference for its parser, and says how a syntax tree
    is written. It prints to tokens, with parentheses where precedence asks for them, and round
    the value of a [let] that begins with a name and a bracket, since the parser takes those for a
    row ([let_reads_rows_only]). Lists end with a comma; every token of a statement is on the
    statement's line. *)

From S2P Require Import Prelude Util Parsing DslParser DslTotal.
#[local] Open Scope parser_scope.

(** ** Levels *)

Definition op_prec (op : BinOp) : nat :=
  match op with
  | Op.Or => 0 | Op.And => 1 | Op.BitOr => 2 | Op.BitXor => 3 | Op.BitAnd => 4 | Op.Eq | Op.Ne => 5
  | Op.Lt | Op.Gt | Op.Le | Op.Ge => 6 | Op.Shl | Op.Shr => 7 | Op.Add | Op.Sub => 8 | Op.Mul | Op.Div | Op.Mod => 9
  end%nat.

Definition op_token (op : BinOp) : Token :=
  match op with
  | Op.Or => Tok.PipePipe | Op.And => Tok.AmpAmp | Op.BitOr => Tok.Pipe | Op.BitXor => Tok.Caret | Op.BitAnd => Tok.Amp
  | Op.Eq => Tok.EqEq | Op.Ne => Tok.BangEq | Op.Lt => Tok.Lt | Op.Gt => Tok.Gt | Op.Le => Tok.LtEq | Op.Ge => Tok.GtEq
  | Op.Shl => Tok.LtLt | Op.Shr => Tok.GtGt | Op.Add => Tok.Plus | Op.Sub => Tok.Minus
  | Op.Mul => Tok.Star | Op.Div => Tok.Slash | Op.Mod => Tok.Percent
  end.

(** Not is at level 10, fields are at 11, and what is closed at 12. *)
Definition prec (e : Expr) : nat :=
  match e with EBinOp _ op _ => op_prec op | ENot _ => 10 | EFieldAccess _ _ => 11 | _ => 12 end%nat.

Definition literal_token (l : Literal) : Token :=
  match l with Lit.Int n => Tok.IntLit n | Lit.Float f => Tok.FloatLit f | Lit.Str s => Tok.StrLit s | Lit.Bool b => Tok.BoolLit b end.

(** A cast is written with the keyword of its type. *)
Definition call_token (name : Bytes) : Token :=
  if beq name (bs "int") then Tok.TInt else if beq name (bs "float") then Tok.TFloat
  else if beq name (bs "str") then Tok.TStr else if beq name (bs "bool") then Tok.TBool else Tok.Ident name.

Definition type_token (t : Type_) : Token :=
  match t with Ty.Str => Tok.TStr | Ty.Int => Tok.TInt | Ty.Float => Tok.TFloat | Ty.Bool => Tok.TBool end.

(** ** The printer *)

(** An expression where operators of level [p] and above need no parentheses. *)
Fixpoint show (p : nat) (e : Expr) : list Token :=
  let body :=
    match e with
    | ELit l => [literal_token l]
    | EVar n => [Tok.Ident n]
    | ERowRead t k => Tok.Ident t :: Tok.LBracket :: show 0 k ++ [Tok.RBracket]
    | EFieldAccess o f => show 11 o ++ [Tok.Dot; Tok.Ident f]
    | ERowLiteral fs =>
        Tok.LBrace :: concat (map (fun f => Tok.Ident f.1 :: Tok.Colon :: show 0 f.2 ++ [Tok.Comma]) fs) ++ [Tok.RBrace]
    | EArrayLit es => Tok.LBracket :: concat (map (fun e => show 0 e ++ [Tok.Comma]) es) ++ [Tok.RBracket]
    | EBinOp l op r => show (op_prec op) l ++ op_token op :: show (S (op_prec op)) r
    | ENot e => Tok.Bang :: show 10 e
    | EFnCall n args => call_token n :: Tok.LParen :: concat (map (fun e => show 0 e ++ [Tok.Comma]) args) ++ [Tok.RParen]
    end in
  if (prec e <? p)%nat then Tok.LParen :: body ++ [Tok.RParen] else body.

Definition show_args (args : list Expr) : list Token := concat (map (fun e => show 0 e ++ [Tok.Comma]) args).
Definition show_fields (fs : list (Bytes * Expr)) : list Token :=
  concat (map (fun f => Tok.Ident f.1 :: Tok.Colon :: show 0 f.2 ++ [Tok.Comma]) fs).
Definition parens (e : Expr) : list Token := Tok.LParen :: show 0 e ++ [Tok.RParen].

(** What [parse_let] takes for a row. *)
Definition reads_row (ts : list Token) : bool := match ts with Tok.Ident _ :: Tok.LBracket :: _ => true | _ => false end.
Definition let_tokens (e : Expr) : list Token := if reads_row (show 0 e) then parens e else show 0 e.

Definition at_line (line : Z) (ts : list Token) : list Spanned := map (fun t => {| token := t; s_line := line |}) ts.

Definition key_tokens (table : Bytes) (key : Expr) : list Token :=
  Tok.Ident table :: Tok.LBracket :: show 0 key ++ [Tok.RBracket].

Definition compound_token (op : BinOp) : Token :=
  match op with Op.Sub => Tok.MinusEq | Op.Mul => Tok.StarEq | Op.Div => Tok.SlashEq | _ => Tok.PlusEq end.

Definition block (line : Z) (body : list Spanned) : list Spanned :=
  at_line line [Tok.LBrace] ++ body ++ at_line line [Tok.RBrace].

Fixpoint show_stmt (s : Stmt) : list Spanned :=
  match s with
  | SLetRow n t k b l =>
      at_line l (Tok.Let :: Tok.Ident n :: Tok.Eq :: key_tokens t k) ++
      match b with Some b => at_line l [Tok.Else] ++ block l (concat (map show_stmt b)) | None => [] end
  | SLet n e l => at_line l (Tok.Let :: Tok.Ident n :: Tok.Eq :: let_tokens e)
  | SAssignRow t k v l => at_line l (key_tokens t k ++ Tok.Eq :: show 0 v)
  | SAssignField t k f v l => at_line l (key_tokens t k ++ Tok.Dot :: Tok.Ident f :: Tok.Eq :: show 0 v)
  | SAssignFieldOp t k f op v l => at_line l (key_tokens t k ++ Tok.Dot :: Tok.Ident f :: compound_token op :: show 0 v)
  | SDeleteRow t k l => at_line l (Tok.Delete :: key_tokens t k)
  | SIf c t b l =>
      at_line l (Tok.If :: show 0 c) ++ block l (concat (map show_stmt t)) ++
      match b with Some b => at_line l [Tok.Else] ++ block l (concat (map show_stmt b)) | None => [] end
  | SReturn e l => at_line l (Tok.Return :: show 0 e)
  | SError m l => at_line l [Tok.Error; Tok.LParen; Tok.StrLit m; Tok.RParen]
  | SForRow k v t b l =>
      at_line l [Tok.For; Tok.Ident k; Tok.Comma; Tok.Ident v; Tok.In; Tok.Ident t] ++ block l (concat (map show_stmt b))
  | SForArray x e b l => at_line l (Tok.For :: Tok.Ident x :: Tok.In :: show 0 e) ++ block l (concat (map show_stmt b))
  | SWhile c b l => at_line l (Tok.While :: show 0 c) ++ block l (concat (map show_stmt b))
  | SBreak l => at_line l [Tok.Break]
  | SContinue l => at_line l [Tok.Continue]
  | SAssign n v l => at_line l (Tok.Ident n :: Tok.Eq :: show 0 v)
  | SCallStmt n args l => at_line l (Tok.Ident n :: Tok.LParen :: show_args args ++ [Tok.RParen])
  end.

Definition show_stmts (b : list Stmt) : list Spanned := concat (map show_stmt b).

Definition show_field (f : FieldDef) : list Spanned :=
  at_line (fd_line f) ([Tok.Ident (fd_name f); Tok.Colon; type_token (fd_ty f)] ++
    match fd_default f with Some l => [Tok.Eq; literal_token l] | None => [] end ++ [Tok.Comma]).

Definition show_table (t : TableDecl) : list Spanned :=
  at_line (td_line t) [Tok.Table; Tok.Ident (td_name t)] ++ block (td_line t) (concat (map show_field (td_fields t))).

Definition show_param (p : Param) : list Token := [Tok.Ident (p_name p); Tok.Colon; type_token (p_ty p); Tok.Comma].

Definition show_reducer (r : ReducerDecl) : list Spanned :=
  at_line (rd_line r) (Tok.Reducer :: Tok.Ident (rd_name r) :: Tok.LParen :: concat (map show_param (rd_params r)) ++ [Tok.RParen]) ++
  block (rd_line r) (show_stmts (rd_body r)).

Definition show_program (p : Program_) : list Spanned :=
  concat (map show_table (pg_tables p)) ++ concat (map show_reducer (pg_reducers p)) ++ at_line 0 [Tok.Eof].

(** ** States of printed tokens *)

(** The tokens [ts] before those of [s]. *)
Definition push (t : Spanned) (s : State) : State := (t, s.1 :: s.2).
Definition put (ts : list Spanned) (s : State) : State := fold_right push s ts.

Lemma put_app a b s : put (a ++ b) s = put a (put b s).
Proof. apply foldr_app. Qed.

Lemma put_cons t ts s : put (t :: ts) s = push t (put ts s).
Proof. done. Qed.

Lemma at_line_app l a b : at_line l (a ++ b) = at_line l a ++ at_line l b.
Proof. apply map_app. Qed.

Lemma at_line_cons l t ts : at_line l (t :: ts) = {| token := t; s_line := l |} :: at_line l ts.
Proof. done. Qed.

Lemma size_push t s : size (push t s) = S (size s).
Proof. done. Qed.

Lemma size_put ts s : size (put ts s) = (length ts + size s)%nat.
Proof. induction ts as [|t ts IH]; [done|]. rewrite put_cons, size_push, IH. done. Qed.

Lemma next_push t s : next_state (push t s) = s.
Proof. by destruct s. Qed.

Lemma peek_push t s : peek (push t s) = token t.
Proof. done. Qed.

(** ** What parsers do on them *)

Lemma bind_done {A B} (p : parser A) (f : A -> parser B) s a r : p s = Done a r -> (let* x := p in f x) s = f a r.
Proof. unfold pbind. by intros ->. Qed.

Lemma advance_push {B} (p : parser B) t s : (let* _ := advance in p) (push t s) = p s.
Proof. unfold pbind, advance. by rewrite next_push. Qed.

Lemma eat_push {B} (p : parser B) t l s : (let* _ := eat t in p) (push {| token := t; s_line := l |} s) = p s.
Proof. unfold pbind, eat, peeked. cbn. rewrite bool_decide_eq_true_2 by done. unfold advance. by rewrite next_push. Qed.

Lemma ident_push {B} (f : Bytes -> parser B) n l s :
  (let* x := eat_ident in f x) (push {| token := Tok.Ident n; s_line := l |} s) = f n s.
Proof. unfold pbind at 1, eat_ident, peeked. cbn. by destruct s. Qed.

Lemma type_push {B} (f : Type_ -> parser B) ty l s :
  (let* x := eat_type in f x) (push {| token := type_token ty; s_line := l |} s) = f ty s.
Proof. unfold pbind at 1, eat_type, peeked. by destruct ty, s. Qed.

Lemma when_yes {A} t l (yes no : parser A) s : when_next t yes no (push {| token := t; s_line := l |} s) = yes s.
Proof. unfold when_next, peeked. cbn. rewrite bool_decide_eq_true_2 by done. apply advance_push. Qed.

Lemma when_no {A} t (yes no : parser A) s : peek s <> t -> when_next t yes no s = no s.
Proof. intros H. unfold when_next, peeked. by rewrite bool_decide_eq_false_2. Qed.

Lemma peeked_push {A} (f : Token -> parser A) t l s :
  peeked f (push {| token := t; s_line := l |} s) = f t (push {| token := t; s_line := l |} s).
Proof. done. Qed.

Lemma comma_push {A} (p : parser A) a l s s' :
  p s' = Done a (push {| token := Tok.Comma; s_line := l |} s) -> comma_item p s' = Done a s.
Proof. intros H. unfold comma_item. rewrite (bind_done _ _ _ _ _ H). unfold skip_comma, pbind at 1. by rewrite when_yes. Qed.

(** Items up to a closing token. [F] is what an item needs of the token after it; [N] bounds
    the tokens it is read from. *)
Definition item_reads {A} (F : Token -> Prop) (close : Token) (p : parser A) (sh : A -> list Spanned) (N : nat) (x : A) : Prop :=
  (exists t r, sh x = t :: r /\ token t <> close /\ token t <> Tok.Eof /\ F (token t)) /\
  forall s, F (peek s) -> (size (put (sh x) s) <= N)%nat -> p (put (sh x) s) = Done x s.

Lemma until_loop_reads {A} F close (p : parser A) sh N s : F close -> peek s = close -> forall xs f v,
  (size (put (concat (map sh xs)) s) < f)%nat -> (size (put (concat (map sh xs)) s) <= N)%nat ->
  Forall (item_reads F close p sh N) xs -> until_loop f close p v (put (concat (map sh xs)) s) = Done (v ++ xs) s.
Proof.
  intros HF Hs. induction xs as [|x xs IH]; intros f v Hf HN Hx; (destruct f as [|f]; [lia|]); cbn [until_loop].
  { cbn [map concat put fold_right]. rewrite bool_decide_eq_true_2 by done. by rewrite app_nil_r. }
  apply Forall_cons in Hx as [[(t & r & E & H1 & H2 & H3) Hr] Hx]. cbn [map concat] in *. rewrite put_app in *.
  assert (Hp : peek (put (sh x) (put (concat (map sh xs)) s)) = token t) by (by rewrite E).
  unfold at_end. rewrite Hp, !bool_decide_eq_false_2 by done. cbn [orb].
  assert (Hn : F (peek (put (concat (map sh xs)) s))).
  { destruct xs as [|y ys]; [cbn; by rewrite Hs|]. apply Forall_cons in Hx as [[(t' & r' & E' & _ & _ & H3') _] _].
    cbn [map concat]. by rewrite put_app, E'. }
  rewrite (bind_done _ _ _ x (put (concat (map sh xs)) s)) by (by apply Hr).
  rewrite size_put in Hf, HN. rewrite E in Hf, HN. cbn [length] in Hf, HN. rewrite IH; [by rewrite <- app_assoc|lia|lia|done].
Qed.

Lemma until_reads {A} F close (p : parser A) sh xs s : F close -> peek s = close ->
  Forall (item_reads F close p sh (size (put (concat (map sh xs)) s))) xs ->
  until close p (put (concat (map sh xs)) s) = Done xs s.
Proof.
  intros HF Hs Hx. set (N := size (put (concat (map sh xs)) s)) in *.
  exact (until_loop_reads F close p sh N s HF Hs xs (S N) [] (le_n _) (le_n _) Hx).
Qed.

(** ** Expressions *)

Definition op_at (p : nat) : Token -> option BinOp :=
  nth p [or_op; and_op; bitor_op; bitxor_op; bitand_op; equality_op; comparison_op; shift_op; additive_op; multiplicative_op]
    (fun _ => None).

Definition level (E : parser Expr) (p : nat) : parser Expr :=
  match p with
  | 0 => parse_or E | 1 => parse_and E | 2 => parse_bitor E | 3 => parse_bitxor E | 4 => parse_bitand E
  | 5 => parse_equality E | 6 => parse_comparison E | 7 => parse_shift E | 8 => parse_additive E
  | 9 => parse_multiplicative E | 10 => parse_unary E | 11 => parse_postfix E | _ => parse_primary E
  end%nat.

(** The levels that are loops, and their loops. *)
Definition chain (p : nat) : bool := (p <? 10)%nat || (p =? 11)%nat.
Definition loop_at (E : parser Expr) (p f : nat) (e : Expr) : parser Expr :=
  if (p =? 11)%nat then postfix_loop f e else binary_loop f (op_at p) (level E (S p)) e.

Lemma level_chain E p : chain p = true ->
  level E p = (let* e := level E (S p) in fun s => loop_at E p (S (size s)) e s).
Proof. intros Hp. do 12 (destruct p as [|p]; [done|]). done. Qed.

(** The level of what a token would go on with after an expression. *)
Definition tok_level (t : Token) : option nat :=
  match t with
  | Tok.PipePipe => Some 0 | Tok.AmpAmp => Some 1 | Tok.Pipe => Some 2 | Tok.Caret => Some 3 | Tok.Amp => Some 4
  | Tok.EqEq | Tok.BangEq => Some 5 | Tok.Lt | Tok.Gt | Tok.LtEq | Tok.GtEq => Some 6 | Tok.LtLt | Tok.GtGt => Some 7
  | Tok.Plus | Tok.Minus => Some 8 | Tok.Star | Tok.Slash | Tok.Percent => Some 9
  | Tok.Dot => Some 11 | Tok.LParen | Tok.LBracket => Some 12 | _ => None
  end%nat.
Definition follow (p : nat) (t : Token) : bool := match tok_level t with Some q => (q <? p)%nat | None => true end.

Lemma follow_mono p q t : follow p t = true -> (p <= q)%nat -> follow q t = true.
Proof. unfold follow. destruct (tok_level t); [|done]. intros H%Nat.ltb_lt ?. apply Nat.ltb_lt. lia. Qed.

Lemma op_at_level p t op : op_at p t = Some op -> tok_level t = Some p.
Proof. do 10 (destruct p as [|p]; [by destruct t|]). by destruct p. Qed.

Lemma op_at_follow p t : follow p t = true -> op_at p t = None.
Proof.
  unfold follow. destruct (op_at p t) as [op|] eqn:E; [|done]. rewrite (op_at_level _ _ _ E). intros H%Nat.ltb_lt. lia.
Qed.

Lemma op_at_token op : op_at (op_prec op) (op_token op) = Some op.
Proof. by destruct op. Qed.

Lemma follow_token op : follow (S (op_prec op)) (op_token op) = true.
Proof. by destruct op. Qed.

Lemma op_prec_chain op : chain (op_prec op) = true.
Proof. by destruct op. Qed.

(** The loop ends where nothing goes on. *)
Lemma loop_ends E p f e s : chain p = true -> follow p (peek s) = true -> (0 < f)%nat -> loop_at E p f e s = Done e s.
Proof.
  intros Hc Hp Hf. destruct f as [|f]; [lia|]. unfold loop_at. destruct (p =? 11)%nat eqn:E11.
  - apply Nat.eqb_eq in E11 as ->. cbn [postfix_loop]. rewrite when_no; [done|]. by intros Hd; rewrite Hd in Hp.
  - cbn [binary_loop]. by rewrite op_at_follow.
Qed.

(** The tokens [ts] are read as [e] at level [p]; and as far as its loop. *)
Definition parses (p : nat) (ts : list Spanned) (e : Expr) : Prop := forall n s,
  follow p (peek s) = true -> (size (put ts s) <= n)%nat -> level (expr_nested n) p (put ts s) = Done e s.
Definition reaches (p : nat) (ts : list Spanned) (e : Expr) : Prop := forall n s,
  follow (S p) (peek s) = true -> (size (put ts s) <= n)%nat ->
  exists f, (size s < f)%nat /\ level (expr_nested n) p (put ts s) = loop_at (expr_nested n) p f e s.

Lemma parses_reaches p ts e : chain p = true -> parses (S p) ts e -> reaches p ts e.
Proof.
  intros Hc H n s Hf Hn. exists (S (size s)). split; [lia|]. rewrite level_chain by done.
  by rewrite (bind_done _ _ _ e s (H n s Hf Hn)).
Qed.

Lemma reaches_parses p ts e : chain p = true -> reaches p ts e -> parses p ts e.
Proof.
  intros Hc H n s Hf Hn. destruct (H n s (follow_mono p (S p) _ Hf ltac:(lia)) Hn) as (f & Hf' & ->).
  apply loop_ends; [done|done|lia].
Qed.

(** Not [!] nor [-], which the unary level would read. *)
Definition no_unary (ts : list Spanned) : Prop := exists t r, ts = t :: r /\ token t <> Tok.Bang /\ token t <> Tok.Minus.

Lemma parses_unary ts e : no_unary ts -> parses 11 ts e -> parses 10 ts e.
Proof.
  intros (t & r & -> & H1 & H2) H n s Hf Hn. cbn [level]. unfold parse_unary. cbn [unary_loop].
  rewrite !when_no by done. apply H; [apply (follow_mono 10 11); [done|lia]|done].
Qed.

Lemma parses_down p ts e : (10 < p -> no_unary ts)%nat -> (p <= 12)%nat -> parses p ts e -> forall q, (q <= p)%nat -> parses q ts e.
Proof.
  intros Hu. induction p as [|p IH]; intros Hp H q Hq; [by assert (q = 0%nat) as -> by lia|].
  destruct (decide (q = S p)) as [->|Hne]; [done|]. apply IH; [intros ?; apply Hu; lia|lia| |lia].
  destruct (chain p) eqn:Hc; [by apply reaches_parses, parses_reaches|].
  assert (p = 10%nat) as -> by (unfold chain in Hc; apply orb_false_iff in Hc as [?%Nat.ltb_ge ?%Nat.eqb_neq]; lia).
  apply parses_unary; [apply Hu; lia|done].
Qed.

(** An expression between tokens of its own. *)
Lemma nested_reads ts e n s : parses 0 ts e -> follow 0 (peek s) = true -> (size (put ts s) < n)%nat ->
  expr_nested n (put ts s) = Done e s.
Proof. intros H Hf Hn. destruct n as [|n]; [lia|]. apply (H n s Hf). lia. Qed.

Lemma expr_reads ts e s : parses 0 ts e -> follow 0 (peek s) = true -> parse_expr (put ts s) = Done e s.
Proof. intros H Hf. unfold parse_expr. apply nested_reads; [done|done|unfold size; lia]. Qed.

(** ** Every expression is read back *)

Section ExprInd.
Variable P : Expr -> Prop.
Hypotheses (HLit : forall l, P (ELit l)) (HVar : forall n, P (EVar n))
  (HRow : forall t k, P k -> P (ERowRead t k)) (HField : forall o f, P o -> P (EFieldAccess o f))
  (HLitRow : forall fs, Forall (fun f => P f.2) fs -> P (ERowLiteral fs)) (HArr : forall es, Forall P es -> P (EArrayLit es))
  (HBin : forall l op r, P l -> P r -> P (EBinOp l op r)) (HNot : forall e, P e -> P (ENot e))
  (HCall : forall n args, Forall P args -> P (EFnCall n args)).

(** Induction under the lists of an expression. *)
Fixpoint expr_rect' (e : Expr) : P e :=
  let all := fix all (es : list Expr) : Forall P es :=
    match es with [] => Forall_nil_2 _ | e :: es => Forall_cons_2 _ _ _ (expr_rect' e) (all es) end in
  let all_fields := fix all_fields (fs : list (Bytes * Expr)) : Forall (fun f => P f.2) fs :=
    match fs with [] => Forall_nil_2 _ | f :: fs => Forall_cons_2 _ _ _ (expr_rect' f.2) (all_fields fs) end in
  match e with
  | ELit l => HLit l | EVar n => HVar n | ERowRead t k => HRow t k (expr_rect' k)
  | EFieldAccess o f => HField o f (expr_rect' o) | ERowLiteral fs => HLitRow fs (all_fields fs)
  | EArrayLit es => HArr es (all es) | EBinOp l op r => HBin l op r (expr_rect' l) (expr_rect' r)
  | ENot e => HNot e (expr_rect' e) | EFnCall n args => HCall n args (all args)
  end.
End ExprInd.

(** What an expression can start with. *)
Definition starts (t : Token) : bool :=
  match t with
  | Tok.IntLit _ | Tok.FloatLit _ | Tok.StrLit _ | Tok.BoolLit _ | Tok.Ident _ | Tok.LBrace | Tok.LParen | Tok.LBracket
  | Tok.TStr | Tok.TInt | Tok.TFloat | Tok.TBool => true
  | _ => false
  end.

Lemma show_parens p e : (prec e < p)%nat -> show p e = parens e.
Proof.
  intros Hp. unfold parens. assert (H : (prec e <? p)%nat = true) by (by apply Nat.ltb_lt).
  destruct e; cbn [show]; cbv zeta; rewrite H; by rewrite (proj2 (Nat.ltb_ge _ 0) (Nat.le_0_l _)).
Qed.

Lemma show_body p q e : (p <= q)%nat -> (q <= prec e)%nat -> show p e = show q e.
Proof.
  intros Hp Hq. destruct e; cbn [show]; cbv zeta; by rewrite !(proj2 (Nat.ltb_ge _ _)) by (cbn [prec] in *; lia).
Qed.

Lemma call_token_starts n : starts (call_token n) = true.
Proof. unfold call_token. repeat (case_match; [done|]). done. Qed.

Lemma show_head e : forall p, exists t r, show p e = t :: r /\ (starts t = true \/ (t = Tok.Bang /\ (p <= 10)%nat)).
Proof.
  induction e as [l|n|t k _|o f IH|fs _|es _|l op r IHl _|e _|n args _] using expr_rect'; intros p;
    match goal with |- context [show p ?e] =>
      destruct (decide (prec e < p)%nat) as [Hp|Hp];
        [rewrite show_parens by exact Hp; do 2 eexists; split; [done|by left]|rewrite (show_body p (prec e)) by lia]
    end.
  - exists (literal_token l), []. split; [done|left; by destruct l].
  - by do 2 eexists; split; [|left].
  - by do 2 eexists; split; [|left].
  - destruct (IH 11%nat) as (t & r & E & [Ht|[_ ?]]); [|lia]. do 2 eexists. split; [cbn; by rewrite E|by left].
  - by do 2 eexists; split; [|left].
  - by do 2 eexists; split; [|left].
  - cbn [prec] in *. destruct (IHl (op_prec op)) as (t & r' & E & Ht). exists t. eexists. split.
    + cbn [show prec]. cbv zeta. rewrite Nat.ltb_irrefl, E. done.
    + destruct Ht as [?|[-> ?]]; [by left|right]. split; [done|]. lia.
  - cbn [prec] in *. do 2 eexists. split; [done|right]. split; [done|lia].
  - do 2 eexists. split; [done|left; apply call_token_starts].
Qed.

Lemma show_no_unary l p e : (10 < p)%nat -> no_unary (at_line l (show p e)).
Proof.
  intros Hp. destruct (show_head e p) as (t & r & E & [Ht|[_ ?]]); [|lia]. rewrite E. do 2 eexists.
  split; [done|]. by destruct t.
Qed.

(** An expression is read back wherever it is printed. *)
Definition shown (e : Expr) : Prop := forall l p, (p <= 12)%nat ->
  parses p (at_line l (show p e)) e /\ (chain p = true -> reaches p (at_line l (show p e)) e).

Lemma shown_expr e l s : shown e -> follow 0 (peek s) = true -> parse_expr (put (at_line l (show 0 e)) s) = Done e s.
Proof. intros H Hf. apply expr_reads; [by apply H; lia|done]. Qed.

Lemma shown_nested e l n s : shown e -> follow 0 (peek s) = true -> (size (put (at_line l (show 0 e)) s) < n)%nat ->
  expr_nested n (put (at_line l (show 0 e)) s) = Done e s.
Proof. intros H Hf Hn. apply nested_reads; [by apply H; lia|done|done]. Qed.

Lemma parens_parses e l : parses 0 (at_line l (show 0 e)) e -> parses 12 (at_line l (parens e)) e.
Proof.
  intros H n s Hf Hn. unfold parens in *. rewrite at_line_cons, at_line_app, put_cons, put_app in *. cbn [level].
  unfold parse_primary. rewrite peeked_push. cbn [literal_of cast_of]. rewrite advance_push.
  rewrite (bind_done _ _ _ e (put (at_line l [Tok.RParen]) s)).
  - cbn [at_line map put fold_right]. by rewrite eat_push.
  - apply nested_reads; [done|done|]. rewrite size_push in Hn. lia.
Qed.

(** From the level of its own to all. *)
Lemma assemble e : (prec e <= 12)%nat -> (forall l, parses (prec e) (at_line l (show (prec e) e)) e) ->
  (chain (prec e) = true -> forall l, reaches (prec e) (at_line l (show (prec e) e)) e) -> shown e.
Proof.
  intros Hq Hp Hr l.
  assert (Hlow : forall p, (p <= prec e)%nat -> parses p (at_line l (show p e)) e).
  { intros p Hpq. rewrite (show_body p (prec e)) by lia. apply (parses_down (prec e)); [|done|apply Hp|done].
    intros ?. by apply show_no_unary. }
  assert (Hall : forall p, (p <= 12)%nat -> parses p (at_line l (show p e)) e).
  { intros p Hp12. destruct (decide (p <= prec e)%nat); [by apply Hlow|]. rewrite show_parens by lia.
    apply (parses_down 12); [|done|apply parens_parses, Hlow; lia|done].
    intros _. by do 2 eexists. }
  intros p Hp12. split; [by apply Hall|]. intros Hc. destruct (decide (p = prec e)) as [->|Hne]; [by apply Hr|].
  apply parses_reaches; [done|].
  assert (p < 12)%nat by (unfold chain in Hc; apply orb_true_iff in Hc as [?%Nat.ltb_lt|?%Nat.eqb_eq]; lia).
  destruct (decide (p < prec e)%nat).
  - rewrite (show_body p (S p)) by lia. apply Hall. lia.
  - rewrite show_parens by lia. rewrite <- (show_parens (S p) e) by lia. apply Hall. lia.
Qed.

(** What is read at the closed level. *)
Lemma assemble_closed e : prec e = 12%nat -> (forall l, parses 12 (at_line l (show 12 e)) e) -> shown e.
Proof. intros Hq Hp. apply assemble; rewrite Hq; [done|done|done]. Qed.

(** Items of a bracketed list. *)
Definition with_comma (l : Z) (e : Expr) : list Spanned := at_line l (show 0 e ++ [Tok.Comma]).

Lemma args_line l es : at_line l (concat (map (fun e => show 0 e ++ [Tok.Comma]) es)) = concat (map (with_comma l) es).
Proof. induction es as [|e es IH]; [done|]. cbn [map concat]. by rewrite at_line_app, IH. Qed.

Definition closes (t : Token) : Prop := starts t = false /\ t <> Tok.Bang /\ t <> Tok.Eof.

Lemma show_first l p e : exists t r, at_line l (show p e) = t :: r /\ (starts (token t) = true \/ token t = Tok.Bang).
Proof. destruct (show_head e p) as (t & r & -> & Ht). do 2 eexists. split; [done|]. cbn. tauto. Qed.

Lemma args_read l close es E N s : closes close -> peek s = close -> Forall shown es ->
  (forall e l s', shown e -> follow 0 (peek s') = true -> (size (put (at_line l (show 0 e)) s') <= N)%nat ->
     E (put (at_line l (show 0 e)) s') = Done e s') ->
  (size (put (concat (map (with_comma l) es)) s) <= N)%nat ->
  until close (comma_item E) (put (concat (map (with_comma l) es)) s) = Done es s.
Proof.
  intros (Hc1 & Hc2 & Hc3) Hs Hes HE HN. apply (until_reads (fun _ => True)); [done|done|].
  eapply Forall_impl; [exact Hes|]. intros e He. cbn beta in He. split.
  - unfold with_comma. rewrite at_line_app. destruct (show_first l 0 e) as (t & r & -> & Ht). do 2 eexists. split; [done|].
    repeat split; destruct Ht as [Ht|Ht]; intros Hx; rewrite Hx in Ht; (discriminate || congruence).
  - intros s' _ Hn. unfold with_comma in *. rewrite at_line_app, put_app in *. apply (comma_push _ _ l).
    apply HE; [done|done|]. etrans; [exact Hn|exact HN].
Qed.

Lemma shown_lit lit : shown (ELit lit).
Proof.
  apply assemble_closed; [done|]. intros l n s _ _. cbn [show prec level]. cbv zeta. cbn [Nat.ltb Nat.leb at_line map put fold_right].
  unfold parse_primary. rewrite peeked_push. assert (literal_of (literal_token lit) = Some lit) as -> by (by destruct lit).
  apply advance_push.
Qed.

Lemma primary_ident E name l s :
  parse_primary E (push {| token := Tok.Ident name; s_line := l |} s) = parse_named E name s.
Proof. unfold parse_primary. rewrite peeked_push. cbn [literal_of cast_of]. apply advance_push. Qed.

Lemma shown_var name : shown (EVar name).
Proof.
  apply assemble_closed; [done|]. intros l n s Hf _. cbn [show prec]. cbv zeta. cbn [Nat.ltb Nat.leb level at_line map put fold_right].
  rewrite primary_ident. unfold parse_named. destruct (special_global name); [done|].
  by rewrite !when_no by (intros Hp; by rewrite Hp in Hf).
Qed.

Lemma shown_row t k : special_global t = false -> shown k -> shown (ERowRead t k).
Proof.
  intros Ht Hk. apply assemble_closed; [done|]. intros l n s Hf Hn. cbn [show prec] in *. cbv zeta in *.
  cbn [Nat.ltb Nat.leb] in *. rewrite !at_line_cons, !put_cons, !at_line_app, !put_app in *.
  cbn [level]. rewrite primary_ident. unfold parse_named. rewrite Ht. rewrite when_no by done. rewrite when_yes.
  rewrite (bind_done _ _ _ k (put (at_line l [Tok.RBracket]) s)).
  - cbn [at_line map put fold_right]. by rewrite eat_push.
  - apply shown_nested; [done|done|]. rewrite !size_push in Hn. lia.
Qed.

(** The call after its parenthesis. *)
Lemma call_reads n name args l s : Forall shown args -> 
  (size (put (at_line l (concat (map (fun e => show 0 e ++ [Tok.Comma]) args) ++ [Tok.RParen])) s) < n)%nat ->
  call (expr_nested n) name (put (at_line l (concat (map (fun e => show 0 e ++ [Tok.Comma]) args) ++ [Tok.RParen])) s)
    = Done (EFnCall name args) s.
Proof.
  intros Ha Hn. rewrite at_line_app, put_app, args_line in *. unfold call, parse_arg_list.
  rewrite (bind_done _ _ _ args (put (at_line l [Tok.RParen]) s)).
  - cbn [at_line map put fold_right]. by rewrite eat_push.
  - apply (args_read l Tok.RParen args (expr_nested n) (n - 1)); [done|done|done| |lia].
    intros e l' s' He Hf Hs. apply shown_nested; [done|done|lia].
Qed.

Lemma cast_reads n t name s l l' : cast_of t = Some name ->
  parse_primary (expr_nested n) (push {| token := t; s_line := l |} (push {| token := Tok.LParen; s_line := l' |} s))
    = call (expr_nested n) name s.
Proof.
  intros Ht. unfold parse_primary. rewrite peeked_push. assert (literal_of t = None) as -> by (by destruct t).
  rewrite Ht. unfold parse_cast. cbn [second_is push snd token]. rewrite bool_decide_eq_true_2 by done. by rewrite !advance_push.
Qed.

Lemma shown_call name args : special_global name = false -> Forall shown args -> shown (EFnCall name args).
Proof.
  intros Hs Ha. apply assemble_closed; [done|]. intros l n s Hf Hn. cbn [show prec] in *. cbv zeta in *.
  cbn [Nat.ltb Nat.leb] in *. rewrite !at_line_cons, !put_cons, !size_push in *. cbn [level].
  assert (Hc : forall t, cast_of t = Some name \/ t = Tok.Ident name ->
    parse_primary (expr_nested n) (push {| token := t; s_line := l |} (push {| token := Tok.LParen; s_line := l |}
      (put (at_line l (concat (map (fun e => show 0 e ++ [Tok.Comma]) args) ++ [Tok.RParen])) s))) = Done (EFnCall name args) s).
  { intros t [Ht| ->].
    - rewrite (cast_reads n t name _ _ _ Ht). apply call_reads; [done|lia].
    - rewrite primary_ident. unfold parse_named. rewrite Hs, when_yes. apply call_reads; [done|lia]. }
  apply Hc. unfold call_token. repeat (case_match; [left; by match goal with H : beq name _ = true |- _ => apply beq_true in H as -> end|]).
  by right.
Qed.

Lemma shown_array es : Forall shown es -> shown (EArrayLit es).
Proof.
  intros He. apply assemble_closed; [done|]. intros l n s Hf Hn. cbn [show prec] in *. cbv zeta in *.
  cbn [Nat.ltb Nat.leb] in *. rewrite !at_line_cons, !put_cons, !at_line_app, !put_app, args_line, size_push in *. cbn [level].
  unfold parse_primary. rewrite peeked_push. cbn [literal_of cast_of]. rewrite advance_push.
  rewrite (bind_done _ _ _ es (put (at_line l [Tok.RBracket]) s)).
  - cbn [at_line map put fold_right]. by rewrite eat_push.
  - apply (args_read l Tok.RBracket es (expr_nested n) (n - 1)); [done|done|done| |lia].
    intros e l' s' He' Hf' Hs. apply shown_nested; [done|done|lia].
Qed.

Definition field_line (l : Z) (f : Bytes * Expr) : list Spanned := at_line l (Tok.Ident f.1 :: Tok.Colon :: show 0 f.2 ++ [Tok.Comma]).

Lemma fields_line l fs :
  at_line l (concat (map (fun f => Tok.Ident f.1 :: Tok.Colon :: show 0 f.2 ++ [Tok.Comma]) fs)) = concat (map (field_line l) fs).
Proof. induction fs as [|f fs IH]; [done|]. cbn [map concat]. by rewrite at_line_app, IH. Qed.

Lemma row_field_reads n l f s : shown f.2 -> (size (put (field_line l f) s) < n)%nat ->
  comma_item (row_field (expr_nested n)) (put (field_line l f) s) = Done f s.
Proof.
  intros Hf Hn. destruct f as [name e]. unfold field_line in *. cbn [fst snd] in *.
  rewrite !at_line_cons, !put_cons, !at_line_app, !put_app, !size_push in *. apply (comma_push _ _ l).
  unfold row_field. rewrite ident_push, eat_push.
  rewrite (bind_done _ _ _ e (put (at_line l [Tok.Comma]) s)); [done|]. apply shown_nested; [done|done|lia].
Qed.

Lemma shown_fields fs : Forall (fun f => shown f.2) fs -> shown (ERowLiteral fs).
Proof.
  intros He. apply assemble_closed; [done|]. intros l n s Hf Hn. cbn [show prec] in *. cbv zeta in *.
  cbn [Nat.ltb Nat.leb] in *. rewrite !at_line_cons, !put_cons, !at_line_app, !put_app, fields_line, size_push in *. cbn [level].
  unfold parse_primary. rewrite peeked_push. cbn [literal_of cast_of]. rewrite advance_push.
  rewrite (bind_done _ _ _ fs (put (at_line l [Tok.RBrace]) s)).
  - cbn [at_line map put fold_right]. by rewrite eat_push.
  - apply (until_reads (fun _ => True)); [done|done|]. eapply Forall_impl; [exact He|]. intros f Hf'. split.
    + do 2 eexists. split; [done|]. done.
    + intros s' _ Hs. apply row_field_reads; [done|lia].
Qed.

Lemma shown_field o f : shown o -> shown (EFieldAccess o f).
Proof.
  intros Ho. assert (Hr : forall l, reaches 11 (at_line l (show 11 (EFieldAccess o f))) (EFieldAccess o f)).
  { intros l n s Hf Hn. cbn [show prec] in *. cbv zeta in *. cbn [Nat.ltb Nat.leb] in *. rewrite at_line_app, put_app in *.
    destruct (proj2 (Ho l 11%nat ltac:(lia)) eq_refl n (put (at_line l [Tok.Dot; Tok.Ident f]) s) eq_refl Hn) as (g & Hg & ->).
    destruct g as [|g]; [lia|]. exists g. cbn [at_line map put fold_right] in *. rewrite !size_push in Hg. split; [lia|].
    unfold loop_at. cbn [Nat.eqb postfix_loop]. by rewrite when_yes, ident_push. }
  apply assemble; [cbn; lia|intros l; by apply reaches_parses|done].
Qed.

Lemma shown_bin a op b : shown a -> shown b -> shown (EBinOp a op b).
Proof.
  intros Ha Hb. pose proof (op_prec_chain op) as Hc. assert (Hp : (S (op_prec op) <= 12)%nat) by (destruct op; cbn; lia).
  assert (Hne : (op_prec op =? 11)%nat = false) by (by destruct op).
  assert (Hr : forall l, reaches (op_prec op) (at_line l (show (op_prec op) (EBinOp a op b))) (EBinOp a op b)).
  { intros l n s Hf Hn. cbn [show prec] in *. cbv zeta in *. rewrite Nat.ltb_irrefl in *.
    rewrite at_line_app, at_line_cons, put_app, put_cons in *.
    destruct (proj2 (Ha l (op_prec op) ltac:(lia)) Hc n
      (push {| token := op_token op; s_line := l |} (put (at_line l (show (S (op_prec op)) b)) s)) (follow_token op) Hn) as (g & Hg & ->).
    destruct g as [|g]; [lia|]. exists g. rewrite size_push in Hg.
    pose proof (size_put (at_line l (show (S (op_prec op)) b)) s) as Hz. split; [lia|].
    unfold loop_at. rewrite Hne. cbn [binary_loop]. rewrite peek_push. cbn [token]. rewrite op_at_token, advance_push.
    rewrite (bind_done _ _ _ b s); [done|]. apply (proj1 (Hb l (S (op_prec op)) Hp)); [done|].
    rewrite size_put, size_push in Hn. lia. }
  apply assemble; [cbn; lia|intros l; by apply reaches_parses|done].
Qed.

Lemma shown_not e : shown e -> shown (ENot e).
Proof.
  intros He. apply assemble; [cbn; lia| |done]. intros l n s Hf Hn. cbn [show prec] in *. cbv zeta in *.
  cbn [Nat.ltb Nat.leb] in *. rewrite at_line_cons, put_cons, size_push in *. cbn [level]. unfold parse_unary. cbn [push snd length unary_loop].
  rewrite when_yes. rewrite (bind_done _ _ _ e s); [done|].
  apply (proj1 (He l 10%nat ltac:(lia)) n s Hf). lia.
Qed.

Lemma forallb_Forall_shown {A} (f : A -> Expr) es : Forall (fun x => wf_expr (f x) = true -> shown (f x)) es ->
  forallb (fun x => wf_expr (f x)) es = true -> Forall (fun x => shown (f x)) es.
Proof.
  induction 1 as [|x es Hx _ IH]; [done|]. cbn [forallb]. intros [H1 H2]%andb_true_iff. constructor; auto.
Qed.

Lemma expr_shown e : wf_expr e = true -> shown e.
Proof.
  induction e as [l|n|t k IH|o f IH|fs IH|es IH|l op r IHl IHr|e IH|n args IH] using expr_rect'; cbn [wf_expr]; intros Hw.
  - apply shown_lit.
  - apply shown_var.
  - apply andb_true_iff in Hw as [?%negb_true_iff ?]. apply shown_row; auto.
  - apply shown_field; auto.
  - apply shown_fields. by apply (forallb_Forall_shown snd).
  - apply shown_array. by apply (forallb_Forall_shown id).
  - apply andb_true_iff in Hw as [? ?]. apply shown_bin; auto.
  - apply shown_not; auto.
  - apply andb_true_iff in Hw as [?%negb_true_iff ?]. apply shown_call; [done|]. by apply (forallb_Forall_shown id).
Qed.

(** ** Every statement *)

Section StmtInd.
Variable P : Stmt -> Prop.
Let PO (b : option (list Stmt)) : Prop := match b with Some b => Forall P b | None => True end.
Hypotheses (HLetRow : forall n t k b l, PO b -> P (SLetRow n t k b l)) (HIf : forall c t b l, Forall P t -> PO b -> P (SIf c t b l))
  (HForRow : forall k v t b l, Forall P b -> P (SForRow k v t b l)) (HForArray : forall x e b l, Forall P b -> P (SForArray x e b l))
  (HWhile : forall c b l, Forall P b -> P (SWhile c b l))
  (HFlat : forall s, match s with SLetRow _ _ _ _ _ | SIf _ _ _ _ | SForRow _ _ _ _ _ | SForArray _ _ _ _ | SWhile _ _ _ => False
                     | _ => True end -> P s).

(** Induction under the blocks of a statement. *)
Fixpoint stmt_rect' (s : Stmt) : P s :=
  let all := fix all (b : list Stmt) : Forall P b :=
    match b with [] => Forall_nil_2 _ | s :: b => Forall_cons_2 _ _ _ (stmt_rect' s) (all b) end in
  match s with
  | SLetRow n t k b l => HLetRow n t k b l (match b with Some b => all b | None => I end)
  | SIf c t b l => HIf c t b l (all t) (match b with Some b => all b | None => I end)
  | SForRow k v t b l => HForRow k v t b l (all b)
  | SForArray x e b l => HForArray x e b l (all b)
  | SWhile c b l => HWhile c b l (all b)
  | s => HFlat s I
  end.
End StmtInd.

(** What may come after a statement. *)
Definition after (t : Token) : Prop := follow 0 t = true /\ t <> Tok.Else.

(** A statement is read back wherever it is printed, and so is a block. *)
Definition stmt_shown (st : Stmt) : Prop := forall n s, after (peek s) -> (size (put (show_stmt st) s) < n)%nat ->
  parse_stmt (fst (nested n)) (snd (nested n)) (put (show_stmt st) s) = Done st s.

Lemma show_stmt_head st : exists t r, show_stmt st = t :: r /\ token t <> Tok.RBrace /\ token t <> Tok.Eof /\ after (token t).
Proof. by destruct st; do 2 eexists; (split; [done|]). Qed.

Lemma block_reads l b : Forall stmt_shown b -> forall n s, (size (put (block l (concat (map show_stmt b))) s) < n)%nat ->
  fst (nested n) (put (block l (concat (map show_stmt b))) s) = Done b s.
Proof.
  intros Hb n s Hn. destruct n as [|n]; [lia|]. cbn [nested]. destruct (nested n) as [pb pi] eqn:En. cbn [fst].
  unfold block in *. rewrite !put_app in *. unfold block_of_stmts. cbn [at_line map] in *.
  rewrite put_cons, size_push in *. cbn [put fold_right] in Hn |- *. rewrite eat_push.
  match goal with |- context [put (concat _) ?x] => rewrite (bind_done _ _ _ b x) end; [by rewrite eat_push|].
  apply (until_reads after); [done|done|]. eapply Forall_impl; [exact Hb|]. intros st Hst. split; [apply show_stmt_head|].
  intros s' Hs' Hz. specialize (Hst n s' Hs'). rewrite En in Hst. apply Hst. cbn [push] in *. unfold size in *. lia.
Qed.

Lemma type_of_token t : type_of (type_token t) = Some t.
Proof. by destruct t. Qed.

Lemma shown_of e : wf_expr e = true -> shown e.
Proof. apply expr_shown. Qed.

(** Reading what is printed first, a value, a bracketed key. *)
Lemma value_then {B} e l (f : Expr -> parser B) s : wf_expr e = true -> follow 0 (peek s) = true ->
  (let* x := parse_expr in f x) (put (at_line l (show 0 e)) s) = f e s.
Proof. intros He Hf. apply bind_done, shown_expr; [by apply expr_shown|done]. Qed.

Lemma key_then {B} e l (f : Expr -> parser B) s : wf_expr e = true ->
  (let* x := bracketed_key in f x) (put (at_line l (show 0 e)) (push {| token := Tok.RBracket; s_line := l |} s)) = f e s.
Proof.
  intros He. apply bind_done. unfold bracketed_key. rewrite value_then by done. by rewrite eat_push.
Qed.

Lemma args_then {B} args l (f : list Expr -> parser B) s : forallb wf_expr args = true ->
  (let* x := parse_arg_list parse_expr in f x) (put (at_line l (show_args args)) (push {| token := Tok.RParen; s_line := l |} s))
    = f args (push {| token := Tok.RParen; s_line := l |} s).
Proof.
  intros Ha. apply bind_done. unfold show_args. rewrite args_line. eapply (args_read l); [done|done| | |reflexivity].
  - apply (forallb_Forall_shown id); [|done]. apply Forall_forall. intros e _. apply expr_shown.
  - intros e l' s' He Hf _. by apply shown_expr.
Qed.

Lemma parens_then {B} e l (f : Expr -> parser B) s : wf_expr e = true -> follow 0 (peek s) = true ->
  (let* x := parse_expr in f x) (put (at_line l (parens e)) s) = f e s.
Proof.
  intros He Hf. apply bind_done, expr_reads; [|done]. apply (parses_down 12); [|done| |lia].
  - intros _. by do 2 eexists.
  - apply parens_parses, expr_shown; [done|lia].
Qed.

(** The value of a [let] that is printed is not read as a row. *)
Lemma let_then pb e l name line s : follow 0 (peek s) = true -> forall s', s' = put (at_line l (let_tokens e)) s ->
  match peek s' with
  | Tok.Ident table =>
      if bool_decide (peek (next_state s') = Tok.LBracket) then
        (let* _ := advance in let* _ := advance in let* key := bracketed_key in let* else_body := optional_else pb in
         pret (SLetRow name table key else_body line)) s'
      else let_value name line s'
  | _ => let_value name line s'
  end = let_value name line s'.
Proof.
  intros Hf s' ->. unfold let_tokens. destruct (reads_row (show 0 e)) eqn:Er; [done|].
  destruct (show_head e 0) as (t & r & E & _). rewrite E in *. rewrite at_line_cons, put_cons, peek_push, next_push. cbn [token].
  destruct t; try done. rewrite bool_decide_eq_false_2; [done|]. destruct r as [|t2 r].
  - cbn [at_line map put fold_right]. intros Hp. by rewrite Hp in Hf.
  - rewrite at_line_cons, put_cons, peek_push. cbn [token]. by intros ->.
Qed.

Lemma let_value_reads e l name line s : wf_expr e = true -> follow 0 (peek s) = true ->
  let_value name line (put (at_line l (let_tokens e)) s) = Done (SLet name e line) s.
Proof.
  intros He Hf. unfold let_value, let_tokens. destruct (reads_row _); [by rewrite parens_then|by rewrite value_then].
Qed.

Lemma parse_stmt_push pb pi t l s : parse_stmt pb pi (push {| token := t; s_line := l |} s) =
  match t with
  | Tok.Let => parse_let pb l | Tok.Delete => parse_delete l | Tok.If => parse_if pb pi l | Tok.Return => parse_return l
  | Tok.Error => parse_error_stmt l | Tok.For => parse_for_stmt pb l | Tok.While => parse_while_stmt pb l
  | Tok.Break => let* _ := advance in pret (SBreak l) | Tok.Continue => let* _ := advance in pret (SContinue l)
  | Tok.Ident name => parse_ident_stmt name l | _ => error_at l UnexpectedStatement
  end (push {| token := t; s_line := l |} s).
Proof. done. Qed.

(** Lay the printed tokens out, and read those that are known. *)
Ltac lay := unfold key_tokens in *; repeat (rewrite ?at_line_cons, ?at_line_app, ?put_cons, ?put_app);
  change (at_line ?l []) with (@nil Spanned); cbn [put fold_right].
Ltac rd := repeat (rewrite ?eat_push, ?ident_push, ?advance_push, ?when_yes).
Ltac sz := repeat (rewrite ?size_push, ?size_put, ?length_app in *; cbn [length] in *); lia.
Ltac split_wf := repeat match goal with H : _ && _ = true |- _ => apply andb_true_iff in H as [? ?] end.

(** The [else] of a statement. *)
Definition else_part (l : Z) (b : option (list Stmt)) : list Spanned :=
  match b with Some b => at_line l [Tok.Else] ++ block l (concat (map show_stmt b)) | None => [] end.

Lemma else_reads l b n s : match b with Some b => Forall stmt_shown b | None => True end -> peek s <> Tok.Else ->
  (size (put (else_part l b) s) < n)%nat ->
  optional_else (fst (nested n)) (put (else_part l b) s)
    = Done b s.
Proof.
  intros Hb Hs Hn. unfold optional_else, else_part in *. destruct b as [b|]; [|by rewrite when_no].
  rewrite put_app in *. cbn [at_line map put fold_right] in *. rewrite size_push in Hn. rewrite when_yes.
  rewrite (bind_done _ _ _ b s); [done|]. apply block_reads; [done|lia].
Qed.

Lemma if_else_reads l b n s : match b with Some b => Forall stmt_shown b | None => True end -> peek s <> Tok.Else ->
  (size (put (else_part l b) s) < n)%nat ->
  when_next Tok.Else (let* b := else_branch (fst (nested n)) (snd (nested n)) in pret (Some b)) (pret None)
    (put (else_part l b) s) = Done b s.
Proof.
  intros Hb Hs Hn. unfold else_part in *. destruct b as [b|]; [|by rewrite when_no].
  rewrite put_app in *. cbn [at_line map put fold_right] in *. rewrite size_push in Hn. rewrite when_yes.
  rewrite (bind_done _ _ _ b s); [done|]. unfold else_branch, peeked. rewrite bool_decide_eq_false_2 by done.
  apply block_reads; [done|lia].
Qed.

Lemma compound_op_token op : compound op = true -> compound_op (compound_token op) = Some op.
Proof. by destruct op. Qed.

Lemma flat_shown st : wf_stmt st = true -> match st with SLetRow _ _ _ _ _ | SIf _ _ _ _ | SForRow _ _ _ _ _ | SForArray _ _ _ _ | SWhile _ _ _ => False
                     | _ => True end -> stmt_shown st.
Proof.
  intros Hw Hf n s [Hs _] _. destruct st; try done; cbn [show_stmt wf_stmt] in *; split_wf; lay; rewrite parse_stmt_push.
  - unfold parse_let. rd. rewrite (let_then _ value line name line s Hs _ eq_refl). by apply let_value_reads.
  - unfold parse_ident_stmt. rd. rewrite !when_no by done. rd. rewrite key_then by done. rewrite when_no by done. rd.
    by rewrite value_then.
  - unfold parse_ident_stmt. rd. rewrite !when_no by done. rd. rewrite key_then by done. rd. unfold assign_field. rd.
    rewrite peeked_push. cbn [compound_op]. rd. by rewrite value_then.
  - unfold parse_delete. rd. by rewrite key_then.
  - unfold parse_return. rd. by rewrite value_then.
  - unfold parse_error_stmt. rd. unfold pbind at 1. rewrite peeked_push. rewrite advance_push. cbn [pret]. by rd.
  - by rd.
  - by rd.
  - unfold parse_ident_stmt. rd. rewrite !when_no by done. rd. rewrite key_then by done. rd. unfold assign_field. rd.
    rewrite peeked_push, compound_op_token by done. rd. by rewrite value_then.
  - unfold parse_ident_stmt. rd. rewrite when_no by done. rd. by rewrite value_then.
  - unfold parse_ident_stmt. rd. rewrite args_then by done. by rd.
Qed.

Lemma forallb_shown b : Forall (fun s => wf_stmt s = true -> stmt_shown s) b -> forallb wf_stmt b = true -> Forall stmt_shown b.
Proof. induction 1 as [|s b Hs _ IH]; [done|]. cbn [forallb]. intros [? ?]%andb_true_iff. constructor; auto. Qed.

Lemma option_shown (b : option (list Stmt)) : match b with Some b => Forall (fun s => wf_stmt s = true -> stmt_shown s) b | None => True end ->
  match b with Some b => forallb wf_stmt b | None => true end = true -> match b with Some b => Forall stmt_shown b | None => True end.
Proof. destruct b; [apply forallb_shown|done]. Qed.

Lemma block_then {B} l b n (f : list Stmt -> parser B) s : Forall stmt_shown b ->
  (size (put (block l (concat (map show_stmt b))) s) < n)%nat ->
  (let* x := fst (nested n) in f x) (put (block l (concat (map show_stmt b))) s) = f b s.
Proof. intros Hb Hn. by apply bind_done, block_reads. Qed.

Ltac fold_else := repeat match goal with
  | |- context [match ?o with Some b => at_line ?l [Tok.Else] ++ _ | None => [] end] =>
      change (match o with Some b => at_line l [Tok.Else] ++ block l (concat (map show_stmt b)) | None => [] end) with (else_part l o) in *
  end.

Lemma stmt_all_shown st : wf_stmt st = true -> stmt_shown st.
Proof.
  induction st as [x t k b l Hb|c t b l Ht Hb|k v t b l Hb|x e b l Hb|c b l Hb|st Hf] using stmt_rect';
    [| | | | |intros Hw; by apply flat_shown]; cbn [wf_stmt]; intros Hw; split_wf; intros n s [Hs Hs'] Hn; cbn [show_stmt] in *; fold_else;
    repeat (rewrite put_app in *); unfold key_tokens in *; repeat (rewrite at_line_cons in *); repeat (rewrite put_cons in *);
    rewrite parse_stmt_push.
  - unfold parse_let. rd. lay. cbn [peek push fst token]. rewrite next_push. rewrite bool_decide_eq_true_2 by done. rd.
    rewrite key_then by done. rewrite (bind_done _ _ _ b s); [done|]. apply else_reads; [by apply option_shown|done|].
    sz.
  - unfold parse_if. rd. rewrite value_then by done. rewrite (block_then l t n) by (by first [apply forallb_shown|sz]).
    rewrite (bind_done _ _ _ b s); [done|]. apply if_else_reads; [by apply option_shown|done|sz].
  - lay. unfold parse_for_stmt. rd. rewrite (block_then l b n) by (by first [apply forallb_shown|sz]). done.
  - unfold parse_for_stmt. rd. rewrite when_no by done. rd. rewrite value_then by done.
    rewrite (block_then l b n) by (by first [apply forallb_shown|sz]). done.
  - unfold parse_while_stmt. rd. rewrite value_then by done. rewrite (block_then l b n) by (by first [apply forallb_shown|sz]). done.
Qed.

(** ** Declarations *)

Lemma literal_reads lit l s : parse_literal (push {| token := literal_token lit; s_line := l |} s) = Done lit s.
Proof.
  unfold parse_literal, with_line. rewrite when_no by (by destruct lit). rewrite peeked_push.
  assert (literal_of (literal_token lit) = Some lit) as -> by (by destruct lit). by rewrite advance_push.
Qed.

Lemma field_reads f s : comma_item parse_field_def (put (show_field f) s) = Done f s.
Proof.
  destruct f as [name ty d l]. unfold show_field. cbn [fd_name fd_ty fd_default fd_line]. rewrite !app_assoc, at_line_app, put_app.
  apply (comma_push _ _ l). rewrite at_line_app, put_app. cbn [at_line map put fold_right].
  unfold parse_field_def, with_line. cbn [line_of push fst s_line]. rewrite ident_push, eat_push, type_push.
  rewrite (bind_done _ _ _ d (push {| token := Tok.Comma; s_line := l |} s)); [done|].
  destruct d as [lit|]; [|by apply when_no]. cbn [at_line map put fold_right]. rewrite when_yes.
  by rewrite (bind_done _ _ _ _ _ (literal_reads lit l _)).
Qed.

Lemma table_reads t s : parse_table (put (show_table t) s) = Done t s.
Proof.
  destruct t as [name fs l]. unfold show_table, block. cbn [td_name td_fields td_line]. lay. unfold parse_table, with_line. cbn [line_of push fst s_line]. rewrite eat_push, ident_push, eat_push.
  match goal with |- context [put (concat _) ?x] => rewrite (bind_done _ _ _ fs x) end; [by rewrite eat_push|].
  apply (until_reads (fun _ => True)); [done|done|]. apply Forall_forall. intros f _. split; [by do 2 eexists|].
  intros s' _ _. apply field_reads.
Qed.

Definition param_line (l : Z) (p : Param) : list Spanned := at_line l (show_param p).

Lemma params_line l ps : at_line l (concat (map show_param ps)) = concat (map (param_line l) ps).
Proof. induction ps as [|p ps IH]; [done|]. cbn [map concat]. by rewrite at_line_app, IH. Qed.

Lemma param_reads p l s : comma_item parse_param (put (param_line l p) s) = Done p s.
Proof.
  destruct p as [name ty]. unfold param_line, show_param. cbn [p_name p_ty at_line map put fold_right].
  apply (comma_push _ _ l). unfold parse_param. by rewrite ident_push, eat_push, type_push.
Qed.

Lemma reducer_reads r s : forallb wf_stmt (rd_body r) = true -> parse_reducer (put (show_reducer r) s) = Done r s.
Proof.
  intros Hw. destruct r as [name ps b l]. unfold show_reducer, show_stmts. cbn [rd_name rd_params rd_body rd_line] in *.
  rewrite !put_app. lay. rewrite params_line.
  unfold parse_reducer, with_line. cbn [line_of push fst s_line]. rewrite eat_push, ident_push, eat_push.
  match goal with |- context [put (concat _) ?x] => rewrite (bind_done _ _ _ ps x) end.
  - rewrite eat_push. rewrite (bind_done _ _ _ b s); [done|]. unfold parse_block. apply block_reads; [|unfold size; lia].
    apply forallb_shown; [|done]. apply Forall_forall. intros st _. apply stmt_all_shown.
  - apply (until_reads (fun _ => True)); [done|done|]. apply Forall_forall. intros p _. split; [by do 2 eexists|].
    intros s' _ _. apply param_reads.
Qed.

Lemma reducers_read rs l : forallb (fun r => forallb wf_stmt (rd_body r)) rs = true -> forall f ts done_,
  (size (put (concat (map show_reducer rs)) ({| token := Tok.Eof; s_line := l |}, [])) < f)%nat ->
  exists s, program_loop f ts done_ (put (concat (map show_reducer rs)) ({| token := Tok.Eof; s_line := l |}, []))
    = Done {| pg_tables := ts; pg_reducers := done_ ++ rs |} s.
Proof.
  induction rs as [|r rs IH]; intros Hw f ts rs0 Hf; (destruct f as [|f]; [lia|]); cbn [program_loop].
  { cbn [map concat put fold_right peek fst token]. rewrite app_nil_r. by eexists. }
  cbn [forallb map concat] in *. apply andb_true_iff in Hw as [Hr Hw]. rewrite put_app in *.
  match goal with |- context [peek (put (show_reducer r) ?s)] => change (peek (put (show_reducer r) s)) with Tok.Reducer;
    rewrite (bind_done _ _ _ r s) by (by apply reducer_reads) end. cbn iota.
  destruct (IH Hw f ts (rs0 ++ [r])) as (s & Hs); [|exists s; by rewrite Hs, <- app_assoc].
  rewrite size_put in Hf. assert (1 <= length (show_reducer r))%nat by (cbn; lia). lia.
Qed.

Lemma tables_read tl p f l : wf_program p = true -> forall ts,
  (size (put (concat (map show_table tl) ++ concat (map show_reducer (pg_reducers p))) ({| token := Tok.Eof; s_line := l |}, [])) < f)%nat ->
  exists s, program_loop f ts [] (put (concat (map show_table tl) ++ concat (map show_reducer (pg_reducers p))) ({| token := Tok.Eof; s_line := l |}, []))
    = Done {| pg_tables := ts ++ tl; pg_reducers := pg_reducers p |} s.
Proof.
  intros Hw. revert f. induction tl as [|t tl IH]; intros f ts Hf.
  { cbn [map concat app] in *. rewrite app_nil_r. by apply (reducers_read _ l Hw f ts []). }
  destruct f as [|f]; [lia|]. cbn [program_loop map concat] in *. rewrite <- app_assoc, put_app in *.
  match goal with |- context [peek (put (show_table t) ?s)] => change (peek (put (show_table t) s)) with Tok.Table;
    rewrite (bind_done _ _ _ t s) by apply table_reads end. cbn iota.
  destruct (IH f (ts ++ [t])) as (s & Hs); rewrite put_app in *; [|exists s; by rewrite Hs, <- app_assoc].
  rewrite size_put in Hf. assert (1 <= length (show_table t))%nat by (cbn; lia). lia.
Qed.

Lemma put_one ts t : put ts (t, []) = match ts ++ [t] with x :: r => (x, r) | [] => (t, []) end.
Proof.
  induction ts as [|x ts IH]; [done|]. rewrite put_cons, IH. cbn [app]. unfold push. by destruct ts.
Qed.

(** A well-formed program is read back from what is printed. *)
Lemma show_parses p : wf_program p = true -> parse (show_program p) = Some (Ok p).
Proof.
  intros Hw. unfold parse, show_program. rewrite app_assoc. cbn [at_line map].
  destruct (tables_read (pg_tables p) p _ 0 Hw [] (le_n _)) as (s & Hs). revert Hs.
  set (X := concat (map show_table (pg_tables p)) ++ concat (map show_reducer (pg_reducers p))). rewrite put_one.
  destruct (X ++ [_]) as [|t r] eqn:E; [by destruct X|]. unfold parse_program, size. intros ->. by destruct p.
Qed.

(** ** Properties *)

Section Source.
Context `{Alphabet}.

(** The front end of the reducer language answers every source text: lexing and parsing
    end, with a program or an error, within fuel of one more than the characters and the tokens. *)
Theorem front_end_total source : is_Some (front_end source).
Proof. pose proof (front_end_answers source) as Ha. destruct (front_end source); [by eexists|done]. Qed.

(** C35: the parser reads back what it has read: a program that was read from a source text,
    written down as tokens by the printer of this file, is parsed as the same program, lines
    included. The printer puts parentheses where precedence asks for them and round the value of a
    [let] that begins with a row. *)
Theorem printed_program_reads_back source p : front_end source = Some (Ok p) -> parse (show_program p) = Some (Ok p).
Proof. intros Hf. apply show_parses. pose proof (front_end_answers source) as Ha. by rewrite Hf in Ha. Qed.
End Source.

(** ** A program *)

(** Letters of ASCII only. *)
#[local] Instance no_letters : Alphabet := {| alphabetic := fun _ => false; numeric := fun _ => false |}.

Definition demo_source : Bytes :=
  (bs "table players { hp: int = 100, name: str }
reducer hit(id: str, by: int) {
  let n = by * 2
  let m = (players[id].hp)
  let p = players[id] else { error(") ++ [34] ++ bs "no player" ++ [34] ++ bs ") }
  players[id].hp -= by * (1 + 2) // not less
  while !(by == 0) { break }
  return players[id].hp - (1 - by)
}".

Lemma printed_program_reads_back_witness : exists p, front_end demo_source = Some (Ok p) /\
  length (pg_tables p) = 1%nat /\ length (pg_reducers p) = 1%nat /\ parse (show_program p) = Some (Ok p).
Proof.
  destruct (front_end demo_source) as [[p|e]|] eqn:E; [|exfalso; vm_compute in E; discriminate..].
  exists p. split; [done|]. pose proof (printed_program_reads_back demo_source p E) as Hb.
  split; [|split; [|exact Hb]]; vm_compute in E; injection E as <-; reflexivity.
Defined.

(** ** What the front end does not read *)

(** [let] commits to reading a row when a name and a bracket follow: an expression that goes on
    after the row is no statement, although it is one everywhere else. *)
Lemma let_reads_rows_only :
  (exists p, front_end (bs "reducer r() { return t[1].f }") = Some (Ok p)) /\
  (exists p, front_end (bs "reducer r() { let x = (t[1].f) }") = Some (Ok p)) /\
  front_end (bs "reducer r() { let x = t[1].f }") = Some (Err {| e_line := 1; message := UnexpectedStatement Tok.Dot |}) /\
  front_end (bs "reducer r() { let x = t[1] + 1 }") = Some (Err {| e_line := 1; message := UnexpectedStatement Tok.Plus |}).
Proof. split; [eexists; vm_compute; reflexivity|]. split; [eexists; vm_compute; reflexivity|]. split; vm_compute; reflexivity. Qed.

(** A newline behind a backslash in a string is not counted: the lines of what follows are
    too small by one. *)
Lemma escaped_newline_is_not_counted :
  tokenize ([34; 92; 10; 34; 10; 125] : Bytes) =
  Some (Ok [{| token := Tok.StrLit [10]; s_line := 1 |}; {| token := Tok.RBrace; s_line := 2 |}; {| token := Tok.Eof; s_line := 2 |}]).
Proof. vm_compute. reflexivity. Qed.
