(* ===== verification/SubQuery.v ===== *)
(** * Subscription queries (src/subscriptions.rs)

    The text of a subscription, [table WHERE predicate ORDER BY field LIMIT n], is cut at
    keywords found in its lower-case copy; positions are byte positions, and a slice that is
    out of range or splits a character panics, which is [None] here. *)

From S2P Require Import Prelude Errors Util Json Table SqlValue.
From Stdlib Require Import SpecFloat.
#[local] Open Scope ev_scope.

(** ** Searching and slicing text *)

(** [str::find], [str::rfind] *)
Fixpoint find (pat s : Bytes) : option nat :=
  match strip_prefix pat s with
  | Some _ => Some O
  | None => match s with [] => None | _ :: s' => S <$> find pat s' end
  end.
Fixpoint rfind (pat s : Bytes) : option nat :=
  match match s with [] => None | _ :: s' => rfind pat s' end with
  | Some i => Some (S i)
  | None => match strip_prefix pat s with Some _ => Some O | None => None end
  end.

(** A character does not begin with a continuation byte. *)
Definition at_boundary (rest : Bytes) : bool := match rest with b :: _ => negb (is_cont b) | [] => true end.

(** [&s[i..]], [&s[..i]], [&s[i..j]] *)
Definition slice_from (i : nat) (s : Bytes) : option Bytes :=
  if Nat.leb i (length s) && at_boundary (drop i s) then Some (drop i s) else None.
Definition slice_to (i : nat) (s : Bytes) : option Bytes :=
  if Nat.leb i (length s) && at_boundary (drop i s) then Some (take i s) else None.
Definition slice (i j : nat) (s : Bytes) : option Bytes :=
  if Nat.leb i j then let! t := slice_to j s in slice_from i t else None.

(** [splitn(2, char::is_whitespace)] *)
Fixpoint split_space (s : Bytes) : Bytes * option Bytes :=
  match strip_any white_space s with
  | Some r => ([], Some r)
  | None => match s with [] => ([], None) | b :: s' => let '(f, r) := split_space s' in (b :: f, r) end
  end.

Definition starts_with (p s : Bytes) : bool := match strip_prefix p s with Some _ => true | None => false end.
Definition ends_with (p s : Bytes) : bool := match strip_suffix p s with Some _ => true | None => false end.

(** ** Filters *)

Inductive SortDirection : Type := Asc | Desc.
Record OrderBy := { ob_field : Bytes; direction : SortDirection }.

Module Cmp.
Inductive ComparisonOp : Type := Eq | Ne | Gt | Lt | Ge | Le.
End Cmp.
Abbreviation ComparisonOp := Cmp.ComparisonOp.

Inductive Predicate : Type :=
| Comparison (field : Bytes) (op : ComparisonOp) (value : Value)
| In (field : Bytes) (values : list Value)
| And (left right : Predicate)
| Or (left right : Predicate).

Record SubscriptionFilter := {
  f_table_name : Bytes; predicate : option Predicate; order_by : option OrderBy; limit : option Z }.

Definition from_str (op : Bytes) : option ComparisonOp :=
  if beq op (bs "==") || beq op (bs "=") then Some Cmp.Eq
  else if beq op (bs "!=") || beq op (bs "<>") then Some Cmp.Ne
  else if beq op (bs ">=") then Some Cmp.Ge
  else if beq op (bs "<=") then Some Cmp.Le
  else if beq op (bs ">") then Some Cmp.Gt
  else if beq op (bs "<") then Some Cmp.Lt
  else None.

(** [Number::as_u64] *)
Definition as_u64 (n : Number) : option Z := match n with PosInt n => Some n | _ => None end.

Definition compare_number (l r : Number) : option comparison :=
  match Json.as_i64 l, Json.as_i64 r with
  | Some a, Some b => Some (a ?= b)
  | _, _ =>
      match as_u64 l, as_u64 r with
      | Some a, Some b => Some (a ?= b)
      | _, _ => SFcompare (Json.as_f64 l) (Json.as_f64 r)
      end
  end.

Definition compare (op : ComparisonOp) (actual : option Value) (expected : Value) : bool :=
  match actual with
  | None => false
  | Some actual =>
      match actual, expected with
      | Str s, Str e => match op with Cmp.Eq => beq s e | Cmp.Ne => negb (beq s e) | _ => false end
      | Num n, Num e =>
          let ord := compare_number n e in
          match op with
          | Cmp.Eq => number_eqb n e
          | Cmp.Ne => negb (number_eqb n e)
          | Cmp.Gt => bool_decide (ord = Some Gt)
          | Cmp.Lt => bool_decide (ord = Some Lt)
          | Cmp.Ge => bool_decide (ord = Some Gt) || bool_decide (ord = Some Eq)
          | Cmp.Le => bool_decide (ord = Some Lt) || bool_decide (ord = Some Eq)
          end
      | Bool b, Bool e => match op with Cmp.Eq => eqb b e | Cmp.Ne => negb (eqb b e) | _ => false end
      | _, _ => false
      end
  end.

Section Filters.
Context `{Serde}.

Definition extract_field (d : RowDelta) (field : Bytes) : option Value :=
  if beq field (bs "row_key") then Some (Str (row_key d))
  else v ← row_data_value d; get_field v field.

Fixpoint eval (p : Predicate) (d : RowDelta) : bool :=
  match p with
  | Comparison field op value => compare op (extract_field d field) value
  | In field values =>
      match extract_field d field with None => false | Some v => existsb (fun w => value_eqb w v) values end
  | And l r => eval l d && eval r d
  | Or l r => eval l d || eval r d
  end.

(** A delete goes to every subscriber of the table: it has no row to test. *)
Definition matches (f : SubscriptionFilter) (d : RowDelta) : bool :=
  if negb (beq (f_table_name f) (table_name d)) then false
  else if beq (operation d) (bs "delete") then true
  else match predicate f with None => true | Some p => eval p d end.

(** The fields compared with [=]. *)
Fixpoint collect_eq_fields (p : Predicate) : list Bytes :=
  match p with
  | Comparison field Cmp.Eq _ => [field]
  | Comparison _ _ _ | In _ _ => []
  | And l r | Or l r => collect_eq_fields l ++ collect_eq_fields r
  end.

(** [sort_unstable] and [dedup] *)
Definition sort_dedup (l : list Bytes) : list Bytes := remove_dups (sort_keys l).

(** The keys of rows that may satisfy the predicate, from the indexes there are. *)
Fixpoint index_candidates (p : Predicate) (name : Bytes) (ts : TableStore) : option (list Bytes) :=
  match p with
  | Comparison field Cmp.Eq value => index_lookup ts name field value
  | Comparison _ _ _ => None
  | In field values =>
      let! keys := omapM (index_lookup ts name field) values in Some (sort_dedup (concat keys))
  | And l r =>
      match index_candidates l name ts, index_candidates r name ts with
      | Some lk, Some rk => Some (List.filter (fun k => bool_decide (k ∈ rk)) lk)
      | Some lk, None => Some lk
      | None, Some rk => Some rk
      | None, None => None
      end
  | Or l r =>
      match index_candidates l name ts, index_candidates r name ts with
      | Some lk, Some rk => Some (sort_dedup (lk ++ rk))
      | _, _ => None
      end
  end.

(** The order of the first snapshot: a missing field last. *)
Definition compare_values (a b : option Value) : comparison :=
  match a, b with
  | None, None => Eq
  | None, Some _ => Gt
  | Some _, None => Lt
  | Some (Num an), Some (Num bn) => default Eq (compare_number an bn)
  | Some (Str x), Some (Str y) => bytes_cmp x y
  | Some (Bool x), Some (Bool y) => bool_cmp x y
  | Some av, Some bv => bytes_cmp (json_to_vec av) (json_to_vec bv)
  end.
End Filters.

(** ** The parser *)

Section Parser.
Context `{Lowercase} `{SqlLib}.

(** A trailing [LIMIT n]. *)
Definition extract_limit (query : Bytes) : option (Bytes * option Z) :=
  match rfind (bs " limit ") (to_lowercase query) with
  | Some pos =>
      let! after := slice_from (pos + 7) query in
      match parse_u64_str (trim after) with
      | Some n => let! before := slice_to pos query in Some (before, Some n)
      | None => Some (query, None)
      end
  | None => Some (query, None)
  end.

(** A trailing [ORDER BY field direction]. *)
Definition extract_order_by (query : Bytes) : option (Bytes * option OrderBy) :=
  match rfind (bs " order by ") (to_lowercase query) with
  | Some pos =>
      let! rest := slice_from (pos + 10) query in
      let '(field, more) := split_space (trim rest) in
      match trim field with
      | [] => Some (query, None)
      | field =>
          let! before := slice_to pos query in
          let word := to_uppercase (default [] (trim <$> more)) in
          Some (before, Some {| ob_field := field; direction := if beq word (bs "DESC") then Desc else Asc |})
      end
  | None => Some (query, None)
  end.

(** The first occurrence of a keyword outside parentheses, the two sides trimmed; [pre] is
    what was passed, in reverse. *)
Fixpoint split_loop (kw : Bytes) (depth : nat) (pre rest : Bytes) : option (option (Bytes * Bytes)) :=
  match rest with
  | [] => Some None
  | b :: rest' =>
      let next depth := split_loop kw depth (b :: pre) rest' in
      if b =? 40 then next (S depth)
      else if b =? 41 then next (Nat.pred depth)
      else if Nat.eqb depth 0 && Nat.leb (length kw) (length rest) then
        if at_boundary rest && at_boundary (drop (length kw) rest) then
          if beq (to_lowercase (take (length kw) rest)) kw then Some (Some (trim (rev pre), trim (drop (length kw) rest)))
          else next depth
        else None
      else next depth
  end.
Definition split_on_keyword (predicate kw : Bytes) : option (option (Bytes * Bytes)) := split_loop kw 0 [] predicate.

(** A literal: quoted text, a number, a truth value, or plain text. *)
Definition parse_predicate_value (value : Bytes) : ev Value :=
  let t := trim value in
  let quoted q := starts_with q t && ends_with q t in
  if quoted [34] || quoted [39] then let! s := slice 1 (length t - 1) t in eret (Str s)
  else match parse_i64_str t with
  | Some i => eret (int_value i)
  | None =>
      match parse_float t with
      | Some f => if is_nan f || is_infinite f then eerr (InvalidArgument (bs "Invalid numeric literal")) else eret (Num (Float f))
      | None =>
          if beq (to_ascii_lowercase t) (bs "true") then eret (Bool true)
          else if beq (to_ascii_lowercase t) (bs "false") then eret (Bool false)
          else eret (Str t)
      end
  end.

Definition comparators : list Bytes := map bs [">="; "<="; "=="; "!="; "<>"; ">"; "<"; "="]%string.

(** Whether [=] at a position is part of another comparator. *)
Definition other_comparator (predicate : Bytes) (i : nat) : bool :=
  (match i with O => false | S j => match predicate !! j with Some b => existsb (Z.eqb b) [62; 60; 33; 61] | None => false end end)
  || match predicate !! S i with Some b => b =? 61 | None => false end.

Fixpoint comparison_loop (ops : list Bytes) (predicate : Bytes) : ev Predicate :=
  match ops with
  | [] => eerr (InvalidArgument (bs "Subscription predicate invalid"))
  | op :: ops' =>
      match find op predicate with
      | None => comparison_loop ops' predicate
      | Some i =>
          if beq op (bs "=") && other_comparator predicate i then comparison_loop ops' predicate
          else
            let! field := slice_to i predicate in
            let! value_part := slice_from (i + length op) predicate in
            match from_str op with
            | None => eerr (InvalidArgument (bs "Unsupported comparator"))
            | Some cmp_op => let? value := parse_predicate_value (trim value_part) in eret (Comparison (trim field) cmp_op value)
            end
      end
  end.
Definition parse_comparison (predicate : Bytes) : ev Predicate := comparison_loop comparators predicate.

(** [field IN (v, ...)], or a comparison. *)
Definition parse_leaf (predicate : Bytes) : ev Predicate :=
  match find (bs " in ") (to_lowercase predicate) with
  | None => parse_comparison predicate
  | Some i =>
      let! field := slice_to i predicate in
      let! rest := slice_from (i + 4) predicate in
      let rest := trim rest in
      if starts_with [40] rest && ends_with [41] rest then
        let! inner := slice 1 (length rest - 1) rest in
        let? values := emapM (fun s => parse_predicate_value (trim s)) (split_byte 44 inner) in
        eret (In (trim field) values)
      else parse_comparison predicate
  end.

(** OR binds weaker than AND; [n] bounds the nesting, and the length of the text is enough. *)
Fixpoint parse_nested (n : nat) (predicate : Bytes) : ev Predicate :=
  match n with
  | O => eerr (Internal [])
  | S m =>
      let! o := split_on_keyword predicate (bs " or ") in
      match o with
      | Some (l, r) => let? left := parse_nested m l in let? right := parse_nested m r in eret (Or left right)
      | None =>
          let! a := split_on_keyword predicate (bs " and ") in
          match a with
          | Some (l, r) => let? left := parse_nested m l in let? right := parse_nested m r in eret (And left right)
          | None => parse_leaf predicate
          end
      end
  end.
Definition parse_predicate (predicate : Bytes) : ev Predicate := parse_nested (S (length predicate)) predicate.

Definition parse_subscription_query (query : Bytes) : ev SubscriptionFilter :=
  let normalized := trim query in
  let! normalized := (if starts_with (bs "subscribe ") (to_lowercase normalized)
                      then let! r := slice_from 10 normalized in Some (trim r) else Some normalized) in
  let! lim := extract_limit normalized in
  let! ord := extract_order_by (fst lim) in
  let text := fst ord in
  let! parts := (match find (bs " where ") (to_lowercase text) with
                 | Some i => let! name := slice_to i text in
                             let! p := slice_from (i + 7) text in Some (name, Some (trim p))
                 | None => Some (text, None)
                 end) in
  let name := trim (fst parts) in
  match name with
  | [] => eerr (InvalidArgument (bs "Subscription query missing table name"))
  | _ =>
      let? p := (match snd parts with Some p => let? p := parse_predicate (trim p) in eret (Some p) | None => eret None end) in
      eret {| f_table_name := name; predicate := p; order_by := snd ord; limit := snd lim |}
  end.
End Parser.
