(* ===== verification/Subscriptions.v ===== *)
(** * The subscription manager (src/subscriptions.rs, src/compression.rs)

    Clients with their subscriptions, the index from tables to clients, the first snapshot,
    and the two ways deltas go out: at once, or gathered per row and sent with each tick. The
    channels to the connections are queues of frames with a capacity. *)

From S2P Require Import Prelude Util Json Errors Table SqlValue SubQuery.
From Stdlib Require Import SpecFloat.

(** ** Compression of subscription frames (src/compression.rs)

    Small payloads go out as they are, larger ones compressed at a level that the pressure on
    the queue lowers. The ratio is an [f32]. *)

(** [zstd::encode_all] at a level. *)
Class Zstd := { encode_all : Bytes -> Z -> option Bytes }.

Inductive CompressionTier : Type := TierNone | Basic | Heavy.

Record HybridCompressor := {
  queue_capacity : Z; queue_depth : Z; bytes_saved : Z; batches_compressed : Z; batches_skipped : Z }.

Definition TIER_NONE_CEILING : Z := 128.
Definition TIER_BASIC_CEILING : Z := 2048.

Definition compressor_new (capacity : Z) : HybridCompressor :=
  {| queue_capacity := capacity; queue_depth := 0; bytes_saved := 0; batches_compressed := 0; batches_skipped := 0 |}.

Definition update_queue_depth (depth : Z) (c : HybridCompressor) : HybridCompressor :=
  {| queue_capacity := queue_capacity c; queue_depth := depth; bytes_saved := bytes_saved c;
     batches_compressed := batches_compressed c; batches_skipped := batches_skipped c |}.

(** [n as f32] *)
Definition f32_of_u64 (n : Z) : spec_float := binary_normalize 24 128 n 0 false.

Definition queue_pressure (c : HybridCompressor) : spec_float :=
  if queue_capacity c =? 0 then S754_zero false
  else SFdiv 24 128 (f32_of_u64 (queue_depth c)) (f32_of_u64 (queue_capacity c)).

Definition PRESSURE_DOWNGRADE : spec_float := S754_finite false 8388608 (-24).

Definition select_tier (payload_bytes : Z) (c : HybridCompressor) : CompressionTier :=
  if payload_bytes <? TIER_NONE_CEILING then TierNone
  else if (payload_bytes <? TIER_BASIC_CEILING) || SFltb PRESSURE_DOWNGRADE (queue_pressure c) then Basic
  else Heavy.

Definition skipped (c : HybridCompressor) : HybridCompressor :=
  {| queue_capacity := queue_capacity c; queue_depth := queue_depth c; bytes_saved := bytes_saved c;
     batches_compressed := batches_compressed c; batches_skipped := wrap_u64 (batches_skipped c + 1) |}.
Definition saved (n : Z) (c : HybridCompressor) : HybridCompressor :=
  {| queue_capacity := queue_capacity c; queue_depth := queue_depth c; bytes_saved := wrap_u64 (bytes_saved c + n);
     batches_compressed := wrap_u64 (batches_compressed c + 1); batches_skipped := batches_skipped c |}.

Definition compress `{Zstd} (raw : Bytes) (c : HybridCompressor) : Bytes * bool * HybridCompressor :=
  let attempt level :=
    match encode_all raw level with
    | Some out => if zlen out <? zlen raw then (out, true, saved (zlen raw - zlen out) c) else (raw, false, skipped c)
    | None => (raw, false, skipped c)
    end in
  match select_tier (zlen raw) c with
  | TierNone => (raw, false, skipped c)
  | Basic => attempt 1
  | Heavy => attempt 6
  end.

#[local] Open Scope ev_scope.

(** ** Messages (src/network/message.rs) *)

Record SubscriptionDiff := {
  subscription_id : Bytes; sd_table : Bytes; sd_key : Bytes; sd_operation : Bytes; sd_data : option Value }.

Record SubscriptionBody := { sb_table : Bytes; sb_key : Bytes; sb_operation : Bytes; sb_data : option Value }.

Inductive ServerMessage : Type :=
| DiffMessage (d : SubscriptionDiff)
| RouteMessage (subscription_ids : list Bytes)
| BodyMessage (b : SubscriptionBody)
| BatchUpdate (compressed : bool) (payload : Bytes).

(** [rmp_serde::to_vec] of a message, of the diffs of a batch, and of a row. *)
Class MsgCodec := {
  encode_server : ServerMessage -> option Bytes;
  diffs_to_vec : list SubscriptionDiff -> option Bytes;
  value_to_vec : Value -> option Bytes }.

Inductive OutboundFrames : Type :=
| One (frame : Bytes)
| Two (first second : Bytes).

(** ** Channels *)

Record Chan := { queue : list OutboundFrames; capacity : nat; closed : bool }.

Inductive TrySend : Type := Sent | Full | Closed.

Definition try_send (f : OutboundFrames) (c : Chan) : TrySend * Chan :=
  if closed c then (Closed, c)
  else if Nat.leb (capacity c) (length (queue c)) then (Full, c)
  else (Sent, {| queue := queue c ++ [f]; capacity := capacity c; closed := closed c |}).

(** ** The manager *)

Abbreviation RowKey := (Bytes * Bytes)%type.

(** A client: its channel is under its number in [channels]. *)
Record ClientInfo := {
  subscriptions : gmap Bytes SubscriptionFilter; missed_ticks : Z; row_cache : gmap RowKey Value }.

Record SubscriptionManager := {
  clients : gmap Z ClientInfo;
  table_index : gmap Bytes (gmap Z (list Bytes));
  next_id : Z;
  two_frame : bool;
  pending : gmap RowKey RowDelta;
  tick_enabled : bool;
  compressor : HybridCompressor;
  channels : gmap Z Chan }.

Definition with_clients (f : gmap Z ClientInfo -> gmap Z ClientInfo) (m : SubscriptionManager) : SubscriptionManager :=
  {| clients := f (clients m); table_index := table_index m; next_id := next_id m; two_frame := two_frame m;
     pending := pending m; tick_enabled := tick_enabled m; compressor := compressor m; channels := channels m |}.
Definition with_index (i : gmap Bytes (gmap Z (list Bytes))) (m : SubscriptionManager) : SubscriptionManager :=
  {| clients := clients m; table_index := i; next_id := next_id m; two_frame := two_frame m;
     pending := pending m; tick_enabled := tick_enabled m; compressor := compressor m; channels := channels m |}.
Definition with_pending (p : gmap RowKey RowDelta) (m : SubscriptionManager) : SubscriptionManager :=
  {| clients := clients m; table_index := table_index m; next_id := next_id m; two_frame := two_frame m;
     pending := p; tick_enabled := tick_enabled m; compressor := compressor m; channels := channels m |}.
Definition with_compressor (c : HybridCompressor) (m : SubscriptionManager) : SubscriptionManager :=
  {| clients := clients m; table_index := table_index m; next_id := next_id m; two_frame := two_frame m;
     pending := pending m; tick_enabled := tick_enabled m; compressor := c; channels := channels m |}.
Definition with_channels (c : gmap Z Chan) (m : SubscriptionManager) : SubscriptionManager :=
  {| clients := clients m; table_index := table_index m; next_id := next_id m; two_frame := two_frame m;
     pending := pending m; tick_enabled := tick_enabled m; compressor := compressor m; channels := c |}.

Definition manager_new (two_frame : bool) : SubscriptionManager :=
  {| clients := ∅; table_index := ∅; next_id := 1; two_frame := two_frame; pending := ∅; tick_enabled := false;
     compressor := compressor_new 16384; channels := ∅ |}.

(** A send on the channel of a client; one that does not exist is closed. *)
Definition send (id : Z) (f : OutboundFrames) (m : SubscriptionManager) : TrySend * SubscriptionManager :=
  match channels m !! id with
  | None => (Closed, m)
  | Some c => let '(r, c) := try_send f c in (r, with_channels (<[id := c]> (channels m)) m)
  end.

(** ** Clients and subscriptions *)

Definition register_client (c : Chan) (m : SubscriptionManager) : Z * SubscriptionManager :=
  let id := next_id m in
  (id, {| clients := <[id := {| subscriptions := ∅; missed_ticks := 0; row_cache := ∅ |}]> (clients m);
          table_index := table_index m; next_id := wrap_u64 (id + 1); two_frame := two_frame m;
          pending := pending m; tick_enabled := tick_enabled m; compressor := compressor m;
          channels := <[id := c]> (channels m) |}).

Definition remove_from_table_index (name : Bytes) (id : Z) (sub : Bytes) (i : gmap Bytes (gmap Z (list Bytes)))
  : gmap Bytes (gmap Z (list Bytes)) :=
  match i !! name with
  | None => i
  | Some cs =>
      let cs := match cs !! id with
                | None => cs
                | Some ids => match List.filter (fun s => negb (beq s sub)) ids with
                              | [] => delete id cs
                              | ids => <[id := ids]> cs
                              end
                end in
      if bool_decide (cs = ∅) then delete name i else <[name := cs]> i
  end.

Definition unregister_client (id : Z) (m : SubscriptionManager) : SubscriptionManager :=
  match clients m !! id with
  | None => m
  | Some c =>
      with_index (foldl (fun i (sf : Bytes * SubscriptionFilter) => remove_from_table_index (f_table_name sf.2) id sf.1 i)
                    (table_index m) (map_to_list (subscriptions c)))
        (with_clients (delete id) m)
  end.

Definition unknown_client (id : Z) : VoltraError := InvalidArgument (bs "Unknown client: " ++ dec id).

Definition unsubscribe (id : Z) (sub : Bytes) (m : SubscriptionManager) : result VoltraError bool * SubscriptionManager :=
  match clients m !! id with
  | None => (Err (unknown_client id), m)
  | Some c =>
      match subscriptions c !! sub with
      | None => (Ok false, m)
      | Some f =>
          (Ok true, with_index (remove_from_table_index (f_table_name f) id sub (table_index m))
                      (with_clients (<[id := {| subscriptions := delete sub (subscriptions c);
                                                missed_ticks := missed_ticks c; row_cache := row_cache c |}]>) m))
      end
  end.

(** Into the client's map and the index. *)
Definition add_subscription (id : Z) (sub : Bytes) (f : SubscriptionFilter) (c : ClientInfo) (m : SubscriptionManager)
  : SubscriptionManager :=
  let cs := default ∅ (table_index m !! f_table_name f) in
  with_index (<[f_table_name f := <[id := default [] (cs !! id) ++ [sub]]> cs]> (table_index m))
    (with_clients (<[id := {| subscriptions := <[sub := f]> (subscriptions c);
                              missed_ticks := missed_ticks c; row_cache := row_cache c |}]>) m).

(** The diffs a batch gathers for each client. *)
Abbreviation Gathered := (gmap Z (list SubscriptionDiff)).

Section Manager.
Context `{Serde} `{Lowercase} `{SqlLib} `{MsgCodec} `{Zstd}.

(** ** The first snapshot *)

Definition snapshot_delta (name key : Bytes) (v : Value) : RowDelta :=
  {| table_name := name; operation := bs "initial_snapshot"; row_key := key; d_row_id := 0; d_shard_id := 0;
     payload_arc := None; row_data := Some v; counter_add_amount := 0; counter_add_timestamp := 0 |}.

(** The rows of the keys that are there. *)
Fixpoint fetch_rows (name : Bytes) (keys : list Bytes) : st TableStore (list (Bytes * Value)) :=
  match keys with
  | [] => mret []
  | k :: keys' =>
      r ← get_row name k; l ← fetch_rows name keys';
      mret (match r with Ok (Some v) => (k, v) :: l | _ => l end)
  end.

Definition all_rows (name : Bytes) : st TableStore (list (Bytes * Value)) :=
  r ← list_rows_with_keys name; mret (match r with Ok l => l | Err _ => [] end).

Definition candidate_rows (f : SubscriptionFilter) : st TableStore (list (Bytes * Value)) :=
  match predicate f with
  | None => all_rows (f_table_name f)
  | Some p => fun ts =>
      let ts := foldl (fun ts field => snd (create_index (f_table_name f) field ts)) ts (collect_eq_fields p) in
      match index_candidates p (f_table_name f) ts with
      | Some keys => fetch_rows (f_table_name f) keys ts
      | None => all_rows (f_table_name f) ts
      end
  end.

Definition compare_snapshot (ob : OrderBy) (a b : Bytes * Value) : option comparison :=
  let ord := compare_values (get_field a.2 (ob_field ob)) (get_field b.2 (ob_field ob)) in
  Some (match direction ob with Desc => CompOpp ord | Asc => ord end).

(** The rows of the snapshot, from the candidates. *)
Definition snapshot_rows (f : SubscriptionFilter) (rows : list (Bytes * Value)) : list (Bytes * Value) :=
  let rows := List.filter (fun kv : Bytes * Value => matches f (snapshot_delta (f_table_name f) kv.1 kv.2)) rows in
  let rows := match order_by f with Some ob => default [] (sort_by (compare_snapshot ob) rows) | None => rows end in
  match limit f with Some n => take (Z.to_nat n) rows | None => rows end.

Definition snapshot_frame (two_frame : bool) (sub : Bytes) (name key : Bytes) (v : Value) : option OutboundFrames :=
  if two_frame then
    route ← encode_server (RouteMessage [sub]);
    body ← encode_server (BodyMessage {| sb_table := name; sb_key := key; sb_operation := bs "initial_snapshot"; sb_data := Some v |});
    Some (Two route body)
  else
    One <$> encode_server (DiffMessage {| subscription_id := sub; sd_table := name; sd_key := key;
                                          sd_operation := bs "initial_snapshot"; sd_data := Some v |}).

(** A full channel ends the delivery. *)
Fixpoint send_snapshot (id : Z) (sub name : Bytes) (rows : list (Bytes * Value)) (m : SubscriptionManager) : SubscriptionManager :=
  match rows with
  | [] => m
  | (key, v) :: rows' =>
      match snapshot_frame (two_frame m) sub name key v with
      | None => send_snapshot id sub name rows' m
      | Some f => let '(r, m) := send id f m in match r with Full => m | _ => send_snapshot id sub name rows' m end
      end
  end.

Definition subscribe_with_snapshot (id : Z) (sub query : Bytes) (tables : option TableStore) (m : SubscriptionManager)
  : ev unit * SubscriptionManager * option TableStore :=
  match parse_subscription_query query with
  | None => (None, m, tables)
  | Some (Err e) => (eerr e, m, tables)
  | Some (Ok f) =>
      match clients m !! id with
      | None => (eerr (unknown_client id), m, tables)
      | Some c =>
          let m := add_subscription id sub f c m in
          match tables with
          | None => (eret tt, m, None)
          | Some ts =>
              let '(rows, ts) := candidate_rows f ts in
              (eret tt, send_snapshot id sub (f_table_name f) (snapshot_rows f rows) m, Some ts)
          end
      end
  end.

(** ** Deltas at once *)

(** The matching subscriptions of one client. *)
Definition matching_subs (d : RowDelta) (ids : list Bytes) (c : ClientInfo) : list Bytes :=
  List.filter (fun s => match subscriptions c !! s with Some f => matches f d | None => false end) ids.

Definition matching (d : RowDelta) (m : SubscriptionManager) : list (Z * list Bytes) :=
  match table_index m !! table_name d with
  | None => []
  | Some cs =>
      omap (fun ci : Z * list Bytes =>
              c ← clients m !! ci.1; Some (ci.1, matching_subs d ci.2 c)) (map_to_list cs)
  end.

Definition unregister_all (ids : list Z) (m : SubscriptionManager) : SubscriptionManager :=
  foldl (fun m id => unregister_client id m) m ids.

(** The sends of one delta; the clients whose channel is full. *)
Fixpoint send_all (l : list (Z * option OutboundFrames)) (m : SubscriptionManager) : list Z * SubscriptionManager :=
  match l with
  | [] => ([], m)
  | (id, None) :: l' => send_all l' m
  | (id, Some f) :: l' =>
      let '(r, m) := send id f m in
      let '(full, m) := send_all l' m in
      (match r with Full => id :: full | _ => full end, m)
  end.

Definition two_frames (d : RowDelta) (body : Bytes) (m : SubscriptionManager) : list (Z * option OutboundFrames) :=
  omap (fun '(id, subs) =>
          match subs with
          | [] => None
          | _ => Some (id, (fun route => Two route body) <$> encode_server (RouteMessage subs))
          end) (matching d m).

(** One frame per client and subscription, in the order of the subscription names. *)
Definition by_sub (a b : Z * Bytes) : Prop := bytes_le a.2 b.2.
#[export] Instance by_sub_dec : RelDecision by_sub.
Proof. intros a b. unfold by_sub. apply _. Defined.

Definition diff_of (sub : Bytes) (d : RowDelta) : SubscriptionDiff :=
  {| subscription_id := sub; sd_table := table_name d; sd_key := row_key d; sd_operation := operation d; sd_data := row_data d |}.

Definition legacy_frames (d : RowDelta) (m : SubscriptionManager) : list (Z * option OutboundFrames) :=
  map (fun '(id, sub) => (id, One <$> encode_server (DiffMessage (diff_of sub d))))
    (merge_sort by_sub (concat (map (fun '(id, subs) => map (pair id) subs) (matching d m)))).

Definition body_of (d : RowDelta) : SubscriptionBody :=
  {| sb_table := table_name d; sb_key := row_key d; sb_operation := operation d; sb_data := row_data d |}.

(** A client whose channel is full is unregistered while the guard on the table's entry of the
    index is held; [remove_if] then waits for this very guard, so
    the publisher never returns: [None]. *)
Definition publish_one (d : RowDelta) (m : SubscriptionManager) : option SubscriptionManager :=
  let frames :=
    if two_frame m then match encode_server (BodyMessage (body_of d)) with Some body => two_frames d body m | None => [] end
    else legacy_frames d m in
  let '(full, m) := send_all frames m in
  match full with [] => Some m | _ => None end.

Fixpoint publish_loop (ds : list RowDelta) (m : SubscriptionManager) : option SubscriptionManager :=
  match ds with [] => Some m | d :: ds' => let! m := publish_one d m in publish_loop ds' m end.

Definition publish_now (ds : list RowDelta) (m : SubscriptionManager) : option SubscriptionManager :=
  if bool_decide (clients m = ∅) then Some m else publish_loop ds m.

Definition publish_deltas (ds : list RowDelta) (m : SubscriptionManager) : option SubscriptionManager :=
  if bool_decide (clients m = ∅) then Some m
  else if tick_enabled m then
    Some (with_pending (foldl (fun p d => <[(table_name d, row_key d) := d]> p) (pending m) ds) m)
  else publish_now ds m.

(** ** Deltas of a tick *)

Definition compute_patch (old_val new_val : Value) : option Value :=
  match old_val, new_val with
  | Object old_obj, Object new_obj =>
      match List.filter (fun kv : Bytes * Value =>
              negb (match map_get old_obj kv.1 with Some v => value_eqb v kv.2 | None => false end)) new_obj with
      | [] => None
      | patch => Some (Object patch)
      end
  | _, _ => None
  end.

Definition vec_len (v : Value) : Z := zlen (default [] (value_to_vec v)).

(** What a client is told of a delta: an update of a row it knows as a patch where that is shorter. *)
Definition told (d : RowDelta) (cache : gmap RowKey Value) : Bytes * option Value :=
  let whole := (operation d, row_data d) in
  if beq (operation d) (bs "update") then
    match row_data d, cache !! (table_name d, row_key d) with
    | Some new_data, Some old_val =>
        match compute_patch old_val new_data with
        | Some patch => if vec_len patch <? vec_len new_data then (bs "patch", Some patch) else whole
        | None => whole
        end
    | _, _ => whole
    end
  else whole.

Definition cache_row (d : RowDelta) (op : Bytes) (cache : gmap RowKey Value) : gmap RowKey Value :=
  if beq op (bs "delete") then delete (table_name d, row_key d) cache
  else match row_data d with Some v => <[(table_name d, row_key d) := v]> cache | None => cache end.

(** The diff of one client for one delta, through its first matching subscription. *)
Definition batch_client (d : RowDelta) (ids : list Bytes) (c : ClientInfo) : option (SubscriptionDiff * ClientInfo) :=
  match matching_subs d ids c with
  | [] => None
  | sub :: _ =>
      let '(op, v) := told d (row_cache c) in
      Some ({| subscription_id := sub; sd_table := table_name d; sd_key := row_key d; sd_operation := op; sd_data := v |},
            {| subscriptions := subscriptions c; missed_ticks := missed_ticks c; row_cache := cache_row d op (row_cache c) |})
  end.

Definition gather_client (d : RowDelta) (ci : Z * list Bytes) (g : Gathered * gmap Z ClientInfo) : Gathered * gmap Z ClientInfo :=
  let '(acc, cs) := g in
  match cs !! ci.1 with
  | None => g
  | Some c =>
      match batch_client d ci.2 c with
      | None => g
      | Some (diff, c) => (<[ci.1 := default [] (acc !! ci.1) ++ [diff]]> acc, <[ci.1 := c]> cs)
      end
  end.

Definition gather_delta (index : gmap Bytes (gmap Z (list Bytes))) (g : Gathered * gmap Z ClientInfo) (d : RowDelta)
  : Gathered * gmap Z ClientInfo :=
  match index !! table_name d with
  | None => g
  | Some cs => foldl (fun g ci => gather_client d ci g) g (map_to_list cs)
  end.

Definition encode_batch (diffs : list SubscriptionDiff) (m : SubscriptionManager) : option Bytes * SubscriptionManager :=
  match diffs_to_vec diffs with
  | None => (None, m)
  | Some raw =>
      let '(payload, compressed, c) := compress raw (compressor m) in
      (encode_server (BatchUpdate compressed payload), with_compressor c m)
  end.

Definition SLOW_CONSUMER_EVICT_AFTER : Z := 3.

Definition set_missed (id n : Z) (m : SubscriptionManager) : SubscriptionManager :=
  with_clients (alter (fun c => {| subscriptions := subscriptions c; missed_ticks := n; row_cache := row_cache c |}) id) m.

(** One client's frame; whether the client is to go. *)
Definition send_batch (id : Z) (diffs : list SubscriptionDiff) (m : SubscriptionManager) : bool * SubscriptionManager :=
  let '(frame, m) := encode_batch diffs m in
  match frame with
  | None => (false, m)
  | Some frame =>
      let '(r, m) := send id (One frame) m in
      match r with
      | Sent => (false, set_missed id 0 m)
      | Closed => (true, m)
      | Full =>
          match clients m !! id with
          | None => (true, m)
          | Some c => let missed := wrap_u32 (missed_ticks c + 1) in
                      (SLOW_CONSUMER_EVICT_AFTER <=? missed, set_missed id missed m)
          end
      end
  end.

Fixpoint send_batches (l : list (Z * list SubscriptionDiff)) (m : SubscriptionManager) : list Z * SubscriptionManager :=
  match l with
  | [] => ([], m)
  | (id, diffs) :: l' =>
      let '(gone, m) := send_batch id diffs m in
      let '(ids, m) := send_batches l' m in (if gone : bool then id :: ids else ids, m)
  end.

Definition publish_batch (ds : list RowDelta) (m : SubscriptionManager) : SubscriptionManager :=
  if bool_decide (clients m = ∅) then m
  else
    let '(acc, cs) := foldl (gather_delta (table_index m)) (∅, clients m) ds in
    let '(gone, m) := send_batches (map_to_list acc) (with_clients (fun _ => cs) m) in
    unregister_all gone m.

(** One turn of the flusher, with the idle ticks so far. *)
Definition flusher_turn (idle_ticks : Z) (m : SubscriptionManager) : Z * SubscriptionManager :=
  if bool_decide (pending m = ∅) then (Z.min (2 ^ 32 - 1) (idle_ticks + 1), m)
  else (0, publish_batch (map snd (map_to_list (pending m))) (with_pending ∅ m)).

Definition flusher_sleep (tick_ms idle_ticks : Z) : Z := if 3 <=? idle_ticks then tick_ms * 4 else tick_ms.

Definition start_tick_flusher (tick_ms : Z) (m : SubscriptionManager) : SubscriptionManager :=
  if tick_ms =? 0 then m
  else {| clients := clients m; table_index := table_index m; next_id := next_id m; two_frame := two_frame m;
          pending := pending m; tick_enabled := true; compressor := compressor m; channels := channels m |}.

Definition active_subscriptions (m : SubscriptionManager) : Z :=
  foldr Z.add 0 (map (fun c : Z * ClientInfo => Z.of_nat (size (subscriptions c.2))) (map_to_list (clients m))).
Definition active_connections (m : SubscriptionManager) : Z := Z.of_nat (size (clients m)).
End Manager.
