(* ===== verification/SubFacts.v ===== *)
(** * What subscribers receive

    The query parser ends; the index knows every subscription; a delta reaches exactly the
    subscriptions it matches; patches rebuild the rows; a tick sends what the deltas amount to. *)

From Stdlib Require Import SpecFloat.
From S2P Require Import Prelude Errors Util Json JsonCodec Table SqlValue SubQuery Subscriptions.
#[local] Open Scope ev_scope.

(** ** The query parser *)

Lemma strip_any_length ps l r : Forall (fun p => p <> []) ps -> strip_any ps l = Some r -> (length r <= length l)%nat.
Proof.
  induction ps as [|p ps IH]; cbn; [done|]. intros [_ Hf]%Forall_cons. destruct (beq _ p); [|auto].
  intros [= <-]. rewrite length_drop. lia.
Qed.

Lemma trim_loop_length ps fuel l : (length (trim_loop ps fuel l) <= length l)%nat.
Proof.
  revert l. induction fuel as [|f IH]; intros l; cbn; [done|]. destruct (strip_any ps l) as [r|] eqn:E; [|done].
  etransitivity; [apply IH|]. clear IH. induction ps as [|p ps IHp]; cbn in E; [done|].
  destruct (beq _ p); [|auto]. injection E as <-. rewrite length_drop. lia.
Qed.

Lemma trim_length s : (length (trim s) <= length s)%nat.
Proof.
  unfold trim. rewrite length_rev. etransitivity; [apply trim_loop_length|]. rewrite length_rev. apply trim_loop_length.
Qed.

Section Parser.
Context `{Lowercase} `{SqlLib}.

Lemma split_loop_shorter kw depth pre rest l r : kw <> [] -> split_loop kw depth pre rest = Some (Some (l, r)) ->
  (length l < length pre + length rest)%nat /\ (length r < length pre + length rest)%nat.
Proof.
  intros Hkw. assert (Hlen : (0 < length kw)%nat) by (destruct kw; [done|cbn; lia]). revert depth pre.
  induction rest as [|b rest IH]; intros depth pre; cbn [split_loop]; [done|].
  assert (Hnext : forall d, split_loop kw d (b :: pre) rest = Some (Some (l, r)) ->
    (length l < length pre + length (b :: rest))%nat /\ (length r < length pre + length (b :: rest))%nat).
  { intros d Hd%IH. cbn [length] in *. lia. }
  destruct (b =? 40); [apply Hnext|]. destruct (b =? 41); [apply Hnext|].
  destruct (Nat.eqb depth 0 && _) eqn:Hd; [|apply Hnext]. destruct (at_boundary _ && _); [|done].
  destruct (beq _ kw); [|apply Hnext]. intros [= <- <-].
  apply andb_prop in Hd as [_ Hd%Nat.leb_le].
  pose proof (trim_length (rev pre)) as H1'. rewrite length_rev in H1'.
  pose proof (trim_length (drop (length kw) (b :: rest))) as H2'. rewrite length_drop in H2'. lia.
Qed.

Lemma split_shorter s kw l r : kw <> [] -> split_on_keyword s kw = Some (Some (l, r)) ->
  (length l < length s)%nat /\ (length r < length s)%nat.
Proof. intros Hkw Hs. by apply (split_loop_shorter kw 0 [] s). Qed.

Lemma ebind2_ext {A} (m1 m1' m2 m2' : ev A) (f : A -> A -> ev A) : m1 = m1' -> m2 = m2' ->
  (let? a := m1 in let? b := m2 in f a b) = (let? a := m1' in let? b := m2' in f a b).
Proof. by intros -> ->. Qed.

Lemma parse_step_ext (rec rec' : Bytes -> ev Predicate) s :
  (forall t, (length t < length s)%nat -> rec t = rec' t) ->
  (let! o := split_on_keyword s (bs " or ") in
   match o with
   | Some (l, r) => let? left := rec l in let? right := rec r in eret (Or left right)
   | None =>
       let! a := split_on_keyword s (bs " and ") in
       match a with
       | Some (l, r) => let? left := rec l in let? right := rec r in eret (And left right)
       | None => parse_leaf s
       end
   end) =
  (let! o := split_on_keyword s (bs " or ") in
   match o with
   | Some (l, r) => let? left := rec' l in let? right := rec' r in eret (Or left right)
   | None =>
       let! a := split_on_keyword s (bs " and ") in
       match a with
       | Some (l, r) => let? left := rec' l in let? right := rec' r in eret (And left right)
       | None => parse_leaf s
       end
   end).
Proof.
  intros Hrec. destruct (split_on_keyword s (bs " or ")) as [[[l r]|]|] eqn:Eo; [| |done].
  - apply split_shorter in Eo as [Hl Hr]; [|done]. apply ebind2_ext; auto.
  - destruct (split_on_keyword s (bs " and ")) as [[[l r]|]|] eqn:Ea; [|done..].
    apply split_shorter in Ea as [Hl Hr]; [|done]. apply ebind2_ext; auto.
Qed.

Lemma parse_nested_fuel n : forall m s, (length s < n)%nat -> (length s < m)%nat -> parse_nested n s = parse_nested m s.
Proof.
  induction n as [|n IH]; intros m s Hn Hm; [lia|]. destruct m as [|m]; [lia|].
  apply parse_step_ext. intros t Ht. apply IH; lia.
Qed.

(** The predicate parser ends on every text: with the length of the text as fuel it
    satisfies the recursive equation of the source, OR split before AND before leaves. *)
Theorem parse_predicate_equation s :
  parse_predicate s =
  let! o := split_on_keyword s (bs " or ") in
  match o with
  | Some (l, r) => let? left := parse_predicate l in let? right := parse_predicate r in eret (Or left right)
  | None =>
      let! a := split_on_keyword s (bs " and ") in
      match a with
      | Some (l, r) => let? left := parse_predicate l in let? right := parse_predicate r in eret (And left right)
      | None => parse_leaf s
      end
  end.
Proof. apply parse_step_ext. intros t Ht. apply parse_nested_fuel; lia. Qed.
End Parser.

(** ** The index *)

(** The index lists under each table and client exactly the client's subscriptions there, each
    once, and no client that has none. *)
Definition listed (m : SubscriptionManager) (name : Bytes) (id : Z) : list Bytes :=
  default [] (default ∅ (table_index m !! name) !! id).
Definition subscribed (m : SubscriptionManager) (name : Bytes) (id : Z) (sub : Bytes) : Prop :=
  exists c f, clients m !! id = Some c /\ subscriptions c !! sub = Some f /\ f_table_name f = name.

Definition well_indexed (m : SubscriptionManager) : Prop :=
  forall name id, NoDup (listed m name id) /\ forall sub, sub ∈ listed m name id <-> subscribed m name id sub.

Definition listed_in (i : gmap Bytes (gmap Z (list Bytes))) (name : Bytes) (id : Z) : list Bytes :=
  default [] (default ∅ (i !! name) !! id).

Lemma listed_remove i name id sub n j :
  listed_in (remove_from_table_index name id sub i) n j =
  if bool_decide (n = name /\ j = id) then List.filter (fun s => negb (beq s sub)) (listed_in i n j) else listed_in i n j.
Proof.
  unfold remove_from_table_index, listed_in. destruct (i !! name) as [cs|] eqn:E.
  2:{ case_bool_decide as Hb; [|done]. destruct Hb as [-> ->]. by rewrite E. }
  set (cs' := match cs !! id with Some _ => _ | None => _ end).
  assert (Hcs : forall j, default [] (cs' !! j) =
                if bool_decide (j = id) then List.filter (fun s => negb (beq s sub)) (default [] (cs !! j)) else default [] (cs !! j)).
  { intros j'. unfold cs'. destruct (decide (j' = id)) as [->|Hj].
    - rewrite bool_decide_eq_true_2 by done. destruct (cs !! id) as [ids|] eqn:Ei; cbn; [|by rewrite Ei].
      destruct (List.filter _ ids) as [|s l] eqn:Ef; [by rewrite lookup_delete_eq|by rewrite lookup_insert_eq].
    - rewrite bool_decide_eq_false_2 by done. destruct (cs !! id) as [ids|]; [|done].
      destruct (List.filter _ ids); [by rewrite lookup_delete_ne|by rewrite lookup_insert_ne]. }
  assert (Hn : forall j, default [] (default ∅ ((if bool_decide (cs' = ∅) then delete name i else <[name := cs']> i) !! name) !! j)
                         = default [] (cs' !! j)).
  { intros j'. case_bool_decide as Hc; [by rewrite Hc, lookup_delete_eq|by rewrite lookup_insert_eq]. }
  destruct (decide (n = name)) as [->|Hne].
  - rewrite Hn, Hcs, E. cbn. destruct (decide (j = id)) as [->|]; [by rewrite !bool_decide_eq_true_2|].
    rewrite !bool_decide_eq_false_2 by tauto. done.
  - rewrite (bool_decide_eq_false_2 (n = name /\ j = id)) by tauto. case_bool_decide; [rewrite lookup_delete_ne by congruence; done|rewrite lookup_insert_ne by congruence; done].
Qed.

Lemma elem_filter_not s sub ids : s ∈ List.filter (fun s => negb (beq s sub)) ids <-> s ∈ ids /\ s <> sub.
Proof.
  rewrite !list_elem_of_In, List.filter_In, negb_true_iff. unfold beq. by rewrite bool_decide_eq_false.
Qed.

Lemma NoDup_filter_not (f : Bytes -> bool) ids : NoDup ids -> NoDup (List.filter f ids).
Proof. rewrite !NoDup_ListNoDup. apply List.NoDup_filter. Qed.

Lemma well_indexed_new b : well_indexed (manager_new b).
Proof.
  intros name id. change (listed (manager_new b) name id) with (@nil Bytes). split; [constructor|].
  intros sub. split; [by intros ?%elem_of_nil|]. by intros (c & f & Hc & _).
Qed.

Lemma filter_filter {A} (f g : A -> bool) l : List.filter f (List.filter g l) = List.filter (fun x => g x && f x) l.
Proof. induction l as [|x l IH]; cbn; [done|]. destruct (g x); cbn; [by rewrite IH|exact IH]. Qed.

Lemma listed_foldl id subs i n j :
  listed_in (foldl (fun i (sf : Bytes * SubscriptionFilter) => remove_from_table_index (f_table_name sf.2) id sf.1 i) i subs) n j =
  if bool_decide (j = id) then
    List.filter (fun s => negb (existsb (fun sf : Bytes * SubscriptionFilter => beq s sf.1 && beq (f_table_name sf.2) n) subs)) (listed_in i n j)
  else listed_in i n j.
Proof.
  assert (Hid : forall l : list Bytes, List.filter (fun _ => true) l = l) by (intros l; induction l; cbn; congruence).
  revert i. induction subs as [|[s f] subs IH]; intros i; cbn [foldl existsb].
  - case_bool_decide; [|done]. by rewrite Hid.
  - rewrite IH, listed_remove. cbn [fst snd]. destruct (decide (j = id)) as [->|Hj].
    + rewrite !(bool_decide_eq_true_2 (id = id)) by done. destruct (decide (n = f_table_name f)) as [->|Hn].
      * rewrite (bool_decide_eq_true_2 (f_table_name f = _ /\ _)) by done.
        rewrite filter_filter. apply List.filter_ext. intros x. by rewrite beq_refl, andb_true_r, negb_orb.
      * rewrite (bool_decide_eq_false_2 (n = _ /\ _)) by tauto.
        apply List.filter_ext. intros x. assert (beq (f_table_name f) n = false) as ->.
        { apply bool_decide_eq_false. congruence. }
        by rewrite andb_false_r.
    + rewrite (bool_decide_eq_false_2 (j = id)), (bool_decide_eq_false_2 (n = _ /\ _)) by tauto. done.
Qed.

Lemma well_indexed_register c m : clients m !! next_id m = None -> well_indexed m -> well_indexed (snd (register_client c m)).
Proof.
  intros Hf Hw name id. destruct (Hw name id) as [Hnd Hin]. split; [done|]. intros sub. unfold listed in *. cbn.
  rewrite Hin. unfold subscribed. cbn. split; intros (c' & f & Hc & Hs & Ht).
  - exists c', f. split; [|done]. rewrite lookup_insert_ne; [done|]. congruence.
  - destruct (decide (id = next_id m)) as [->|Hne].
    + rewrite lookup_insert_eq in Hc. injection Hc as <-. cbn in Hs. by rewrite lookup_empty in Hs.
    + rewrite lookup_insert_ne in Hc by done. by exists c', f.
Qed.

Lemma well_indexed_unregister id m : well_indexed m -> well_indexed (unregister_client id m).
Proof.
  intros Hw. unfold unregister_client. destruct (clients m !! id) as [c|] eqn:Hc; [|done].
  intros name j. destruct (Hw name j) as [Hnd Hin]. unfold listed. cbn. fold (listed_in (table_index m) name j).
  change (default [] (default ∅ (?i !! name) !! j)) with (listed_in i name j).
  rewrite listed_foldl. unfold listed in Hnd, Hin. fold (listed_in (table_index m) name j) in Hnd, Hin.
  destruct (decide (j = id)) as [->|Hj].
  - rewrite bool_decide_eq_true_2 by done. split; [by apply NoDup_filter_not|]. intros sub. split.
    + rewrite list_elem_of_In, List.filter_In, <- list_elem_of_In. intros [Hl Hn]. exfalso.
      apply Hin in Hl as (c' & f & Hc' & Hs & Ht). rewrite Hc in Hc'. injection Hc' as <-.
      apply negb_true_iff, Bool.not_true_iff_false in Hn. apply Hn. apply List.existsb_exists. exists (sub, f).
      split; [|cbn; rewrite beq_refl; by apply beq_true]. by apply list_elem_of_In, elem_of_map_to_list.
    + intros (c' & f & Hc' & _). cbn in Hc'. by rewrite lookup_delete_eq in Hc'.
  - rewrite bool_decide_eq_false_2 by done. split; [done|]. intros sub. rewrite Hin. unfold subscribed. cbn.
    by rewrite lookup_delete_ne.
Qed.

Lemma well_indexed_unsubscribe id sub m : well_indexed m -> well_indexed (snd (unsubscribe id sub m)).
Proof.
  intros Hw. unfold unsubscribe. destruct (clients m !! id) as [c|] eqn:Hc; [|done].
  destruct (subscriptions c !! sub) as [f|] eqn:Hf; [|done]. cbn [snd].
  intros name j. destruct (Hw name j) as [Hnd Hin]. unfold listed in *. cbn [table_index with_index with_clients].
  change (default [] (default ∅ (?i !! name) !! j)) with (listed_in i name j) in *. rewrite listed_remove.
  split.
  - case_bool_decide; [by apply NoDup_filter_not|done].
  - intros s. case_bool_decide as Hb.
    + destruct Hb as [-> ->]. rewrite elem_filter_not, Hin. unfold subscribed. cbn. split.
      * intros [(c' & f' & Hc' & Hs & Ht) Hne]. simplify_eq. do 2 eexists. rewrite lookup_insert_eq. split; [done|]. cbn.
        by rewrite lookup_delete_ne.
      * intros (c' & f' & Hc' & Hs & Ht). rewrite lookup_insert_eq in Hc'. simplify_eq. cbn in Hs.
        apply lookup_delete_Some in Hs as [Hne Hs]. split; [by exists c, f'|done].
    + rewrite Hin. unfold subscribed. cbn. destruct (decide (j = id)) as [->|Hj].
      * rewrite lookup_insert_eq. split; intros (c' & f' & Hc' & Hs & Ht); simplify_eq/=.
        -- do 2 eexists. split; [done|]. cbn. rewrite lookup_delete_ne; [done|]. intros ->. simplify_eq. tauto.
        -- apply lookup_delete_Some in Hs as [Hne Hs]. by exists c, f'.
      * by rewrite lookup_insert_ne.
Qed.

Lemma well_indexed_subscribe id sub f c m : clients m !! id = Some c -> subscriptions c !! sub = None ->
  well_indexed m -> well_indexed (add_subscription id sub f c m).
Proof.
  intros Hc Hf Hw name j. unfold listed. cbn [table_index add_subscription with_index].
  assert (Hl : default [] (default ∅ (<[f_table_name f := <[id := default [] (default ∅ (table_index m !! f_table_name f) !! id) ++ [sub]]>
                 (default ∅ (table_index m !! f_table_name f))]> (table_index m) !! name) !! j)
               = if bool_decide (name = f_table_name f /\ j = id) then listed m name j ++ [sub] else listed m name j).
  { unfold listed. destruct (decide (name = f_table_name f)) as [->|Hn].
    - rewrite lookup_insert_eq. cbn. destruct (decide (j = id)) as [->|Hj].
      + by rewrite lookup_insert_eq, bool_decide_eq_true_2.
      + rewrite lookup_insert_ne by done. rewrite bool_decide_eq_false_2; [done|tauto].
    - rewrite lookup_insert_ne by done. rewrite bool_decide_eq_false_2; [done|tauto]. }
  rewrite Hl. destruct (Hw name j) as [Hnd Hin]. case_bool_decide as Hb.
  - destruct Hb as [-> ->]. split.
    + apply NoDup_app. split_and!; [done| |apply NoDup_singleton]. intros s Hs%Hin. rewrite list_elem_of_singleton. intros ->.
      destruct Hs as (c' & f' & Hc' & Hs & _). by simplify_eq.
    + intros s. rewrite elem_of_app, list_elem_of_singleton, Hin. unfold subscribed. cbn. rewrite lookup_insert_eq. split.
      * intros [(c' & f' & Hc' & Hs & Ht)| ->]; simplify_eq.
        -- do 2 eexists. split; [done|]. cbn. rewrite lookup_insert_ne; [done|]. congruence.
        -- do 2 eexists. split; [done|]. cbn. by rewrite lookup_insert_eq.
      * intros (c' & f' & [= <-] & Hs & Ht). cbn in Hs. destruct (decide (s = sub)) as [->|Hne]; [by right|].
        rewrite lookup_insert_ne in Hs by done. left. by exists c, f'.
  - split; [done|]. intros s. rewrite Hin. unfold subscribed. cbn. destruct (decide (j = id)) as [->|Hj].
    + rewrite lookup_insert_eq. split; intros (c' & f' & Hc' & Hs & Ht); simplify_eq/=.
      * do 2 eexists. split; [done|]. cbn. rewrite lookup_insert_ne; [done|]. congruence.
      * destruct (decide (s = sub)) as [->|Hne]; [rewrite lookup_insert_eq in Hs; simplify_eq; tauto|].
        rewrite lookup_insert_ne in Hs by done. by exists c, f'.
    + by rewrite lookup_insert_ne.
Qed.

(** Reachable managers, subscription names used once per client. *)
Inductive sub_step : SubscriptionManager -> SubscriptionManager -> Prop :=
| step_register c m : clients m !! next_id m = None -> sub_step m (snd (register_client c m))
| step_unregister id m : sub_step m (unregister_client id m)
| step_unsubscribe id sub m : sub_step m (snd (unsubscribe id sub m))
| step_subscribe id sub f c m : clients m !! id = Some c -> subscriptions c !! sub = None ->
    sub_step m (add_subscription id sub f c m).

Lemma reachable_indexed b m : rtc sub_step (manager_new b) m -> well_indexed m.
Proof.
  intros Hr. cut (forall m0, rtc sub_step m0 m -> well_indexed m0 -> well_indexed m).
  { intros Hc. eapply Hc; [exact Hr|apply well_indexed_new]. }
  clear Hr. intros m0. induction 1 as [|m1 m2 m3 Hs _ IH]; [done|]. intros Hw. apply IH.
  destruct Hs; [by apply well_indexed_register|by apply well_indexed_unregister|by apply well_indexed_unsubscribe|
                by apply well_indexed_subscribe].
Qed.

(** ** Deltas at once *)

Section Delivery.
Context `{Serde} `{MsgCodec}.

Definition frames_of (id : Z) (l : list (Z * option OutboundFrames)) : list OutboundFrames :=
  omap (fun jf : Z * option OutboundFrames => if bool_decide (jf.1 = id) then jf.2 else None) l.

Lemma send_all_queue l : forall m m', send_all l m = ([], m') ->
  m' = with_channels (channels m') m /\
  forall id, channels m' !! id =
    (fun ch => {| queue := queue ch ++ (if closed ch then [] else frames_of id l); capacity := capacity ch; closed := closed ch |})
    <$> channels m !! id.
Proof.
  induction l as [|[j [f|]] l IH]; intros m m'; cbn [send_all].
  - intros [= <-]. split; [by destruct m|]. intros id. destruct (channels m !! id) as [[q cap cl]|]; cbn; [|done].
    by destruct cl; rewrite app_nil_r.
  - unfold send. destruct (channels m !! j) as [ch|] eqn:Hj.
    + unfold try_send. destruct (closed ch) eqn:Hcl.
      * destruct (send_all l _) as [full m2] eqn:Hs. intros [= -> <-]. apply IH in Hs as [-> Hq]. split; [done|].
        intros id. rewrite Hq. cbn. destruct (decide (id = j)) as [->|Hne].
        -- rewrite lookup_insert_eq, Hj. cbn. by rewrite Hcl.
        -- rewrite lookup_insert_ne by done. rewrite bool_decide_eq_false_2 by done. done.
      * destruct (Nat.leb _ _); destruct (send_all l _) as [full m2] eqn:Hs; [done|]. intros [= -> <-].
        apply IH in Hs as [-> Hq]. split; [done|]. intros id. rewrite Hq. cbn.
        destruct (decide (id = j)) as [->|Hne].
        -- rewrite lookup_insert_eq, Hj. cbn. rewrite Hcl, bool_decide_eq_true_2 by done. cbn. by rewrite <- app_assoc.
        -- rewrite lookup_insert_ne by done. rewrite bool_decide_eq_false_2 by done. done.
    + destruct (send_all l m) as [full m2] eqn:Hs. intros [= -> <-]. apply IH in Hs as [Hm Hq]. split; [done|].
      intros id. rewrite Hq. cbn. destruct (decide (id = j)) as [->|Hne]; [by rewrite Hj|].
      rewrite bool_decide_eq_false_2 by done. done.
  - intros Hs. apply IH in Hs as [Hm Hq]. split; [done|]. intros id. rewrite Hq. cbn. by case_bool_decide.
Qed.

(** The subscriptions of a client that a delta matches. *)
Definition wanted (d : RowDelta) (c : ClientInfo) : list Bytes :=
  map fst (List.filter (fun sf : Bytes * SubscriptionFilter => matches sf.2 d) (map_to_list (subscriptions c))).

Lemma elem_wanted d c s : s ∈ wanted d c <-> exists f, subscriptions c !! s = Some f /\ matches f d = true.
Proof.
  unfold wanted. rewrite list_elem_of_In, List.in_map_iff. split.
  - intros ([s' f] & <- & Hin). apply List.filter_In in Hin as [Hin Hm]. exists f. split; [|done].
    by apply elem_of_map_to_list, list_elem_of_In.
  - intros (f & Hs & Hm). exists (s, f). split; [done|]. apply List.filter_In. split; [|done].
    by apply list_elem_of_In, elem_of_map_to_list.
Qed.

Lemma NoDup_wanted d c : NoDup (wanted d c).
Proof.
  unfold wanted. pose proof (NoDup_fst_map_to_list (subscriptions c)) as Hn. revert Hn.
  change (fst <$> ?l) with (map fst l). generalize (map_to_list (subscriptions c)). intros l.
  induction l as [|[s f] l IH]; cbn; [constructor|]. intros [Hs Hn]%NoDup_cons. destruct (matches f d); cbn; [|auto].
  constructor; [|auto]. rewrite list_elem_of_In, List.in_map_iff. intros ([s' f'] & Heq & Hin). apply List.filter_In in Hin as [Hin _].
  apply Hs, list_elem_of_In, List.in_map_iff. by exists (s', f').
Qed.

Lemma matches_table f d : matches f d = true -> f_table_name f = table_name d.
Proof. unfold matches. destruct (beq _ _) eqn:E; [|done]. by apply beq_true in E. Qed.

Lemma matching_wanted m d id c : well_indexed m -> clients m !! id = Some c ->
  matching_subs d (listed m (table_name d) id) c ≡ₚ wanted d c.
Proof.
  intros Hw Hc. destruct (Hw (table_name d) id) as [Hnd Hin].
  apply NoDup_Permutation; [by apply NoDup_filter_not|apply NoDup_wanted|]. intros s. rewrite elem_wanted.
  unfold matching_subs. rewrite list_elem_of_In, List.filter_In, <- list_elem_of_In, Hin. split.
  - intros [(c' & f & Hc' & Hs & Ht) Hm]. simplify_eq. exists f. by rewrite Hs in Hm.
  - intros (f & Hs & Hm). rewrite Hs. split; [|done]. exists c, f. auto using matches_table.
Qed.

(** What is said to one client in a list of pairs. *)
Definition of_client (id : Z) (l : list (Z * Bytes)) : list Bytes :=
  omap (fun js : Z * Bytes => if bool_decide (js.1 = id) then Some js.2 else None) l.

#[export] Instance of_client_proper id : Proper ((≡ₚ) ==> (≡ₚ)) (of_client id).
Proof. intros l l' Hl. unfold of_client. by rewrite Hl. Qed.

Lemma of_client_sorted id l : StronglySorted by_sub l -> StronglySorted bytes_le (of_client id l).
Proof.
  induction 1 as [|[j s] l _ IH Hall]; cbn; [constructor|]. case_bool_decide; [|done]. constructor; [done|].
  apply Forall_forall. intros t Ht. rewrite Forall_forall in Hall. apply list_elem_of_omap in Ht as ([j' s'] & Hin & Hs).
  case_bool_decide; [|done]. injection Hs as <-. by apply (Hall (j', s')).
Qed.

#[export] Instance by_sub_total : Total by_sub.
Proof. intros a b. apply bytes_le_total. Qed.
#[export] Instance by_sub_trans : Transitive by_sub.
Proof. intros a b c. apply bytes_leb_trans. Qed.

Lemma of_client_app id l l' : of_client id (l ++ l') = of_client id l ++ of_client id l'.
Proof. apply omap_app. Qed.

Lemma of_client_pairs id j subs : of_client id (map (pair j) subs) = if bool_decide (j = id) then subs else [].
Proof. unfold of_client. induction subs as [|s subs IH]; cbn; [by case_bool_decide|]. rewrite IH. by case_bool_decide. Qed.

Lemma of_client_concat id (l : list (Z * list Bytes)) : NoDup l.*1 ->
  of_client id (concat (map (fun '(j, subs) => map (pair j) subs) l)) = default [] (snd <$> List.find (fun js => bool_decide (js.1 = id)) l).
Proof.
  induction l as [|[j subs] l IH]; [done|]. intros [Hj Hn]%NoDup_cons. cbn [map concat List.find fst]. rewrite of_client_app, of_client_pairs.
  case_bool_decide as Hjid; [|by apply IH]. cbn. rewrite IH by done. subst j.
  destruct (List.find _ l) as [[k ks]|] eqn:Hf; [|cbn; by rewrite app_nil_r].
  apply List.find_some in Hf as [Hin Hk%bool_decide_eq_true]. cbn in Hk. subst k. exfalso. apply Hj.
  apply list_elem_of_In, List.in_map_iff. by exists (id, ks).
Qed.

Lemma matching_ids d m : NoDup (matching d m).*1.
Proof.
  unfold matching. destruct (table_index m !! table_name d) as [cs|]; [|constructor].
  pose proof (NoDup_fst_map_to_list cs) as Hn. revert Hn. generalize (map_to_list cs). intros l.
  induction l as [|[j ids] l IH]; cbn; [done|]. intros [Hj Hn]%NoDup_cons. destruct (clients m !! j); cbn; [|auto].
  constructor; [|auto]. intros Hin. apply Hj. apply list_elem_of_fmap in Hin as ([k ks] & Hk & Hin). cbn in Hk. subst k.
  apply list_elem_of_omap in Hin as ([k ids'] & Hin & Heq). cbn in Heq. destruct (clients m !! k); cbn in Heq; [|done].
  injection Heq as -> _. apply list_elem_of_fmap. by exists (j, ids').
Qed.

Lemma matching_at d m id c : clients m !! id = Some c ->
  default [] (snd <$> List.find (fun js => bool_decide (js.1 = id)) (matching d m)) = matching_subs d (listed m (table_name d) id) c.
Proof.
  intros Hc. unfold matching, listed. destruct (table_index m !! table_name d) as [cs|]; [|done]. cbn.
  assert (Hl : forall ids, cs !! id = Some ids <-> (id, ids) ∈ map_to_list cs) by (intros; by rewrite elem_of_map_to_list).
  pose proof (NoDup_fst_map_to_list cs) as Hn. revert Hl Hn. generalize (map_to_list cs). intros l.
  destruct (cs !! id) as [ids|]; cbn.
  - intros Hl. assert (Hin : (id, ids) ∈ l) by (by apply Hl). clear Hl. induction l as [|[j js] l IH]; [by apply elem_of_nil in Hin|].
    cbn. intros [Hj Hn]%NoDup_cons. apply elem_of_cons in Hin as [[= <- <-]|Hin].
    + rewrite Hc. cbn. by rewrite bool_decide_eq_true_2.
    + assert (j <> id). { intros ->. apply Hj, list_elem_of_fmap. by exists (id, ids). }
      destruct (clients m !! j); cbn; [rewrite bool_decide_eq_false_2 by done|]; by apply IH.
  - intros Hl _. assert (Hni : forall ids, (id, ids) ∉ l) by (intros ids Hi; by apply Hl in Hi). clear Hl.
    induction l as [|[j js] l IH]; cbn; [done|]. assert (j <> id). { intros ->. apply (Hni js). left. }
    destruct (clients m !! j); cbn; [rewrite bool_decide_eq_false_2 by done|]; apply IH; intros ids Hi; apply (Hni ids); by right.
Qed.

Definition diff_frame (d : RowDelta) (sub : Bytes) : option OutboundFrames := One <$> encode_server (DiffMessage (diff_of sub d)).

Lemma frames_of_legacy id d l :
  frames_of id (map (fun '(j, sub) => (j, One <$> encode_server (DiffMessage (diff_of sub d)))) l) = omap (diff_frame d) (of_client id l).
Proof. unfold frames_of, of_client. induction l as [|[j s] l IH]; cbn; [done|]. rewrite IH. by case_bool_decide. Qed.

Lemma sorted_unique l l' : StronglySorted bytes_le l -> l ≡ₚ l' -> l = sort_keys l'.
Proof.
  intros Hs Hp. apply (StronglySorted_unique bytes_le); [done|apply StronglySorted_merge_sort; apply _|].
  unfold sort_keys. by rewrite merge_sort_Permutation.
Qed.

Lemma publish_one_delivers d m m' : well_indexed m -> two_frame m = false -> publish_one d m = Some m' ->
  m' = with_channels (channels m') m /\
  forall id c ch, clients m !! id = Some c -> channels m !! id = Some ch -> closed ch = false ->
    channels m' !! id = Some {| queue := queue ch ++ omap (diff_frame d) (sort_keys (wanted d c)); capacity := capacity ch; closed := false |}.
Proof.
  intros Hw Ht. unfold publish_one. rewrite Ht. destruct (send_all _ m) as [full m2] eqn:Hs.
  destruct full; [|done]. intros [= <-]. apply send_all_queue in Hs as [Hm Hq]. split; [done|].
  intros id c ch Hc Hch Hcl. rewrite Hq, Hch. cbn. rewrite Hcl. do 3 f_equal. unfold legacy_frames.
  rewrite frames_of_legacy. f_equal. apply sorted_unique.
  - apply of_client_sorted, StronglySorted_merge_sort; apply _.
  - rewrite merge_sort_Permutation, of_client_concat by apply matching_ids. rewrite (matching_at d m id c Hc).
    by apply matching_wanted.
Qed.

(** C30: a delta reaches exactly those it concerns, when subscription ticks are off and each
    message is one frame: whatever clients came, subscribed under names they did not use yet,
    unsubscribed and left before, if the publication comes to its end (it hangs at a full channel:
    full_channel_hangs), each connected client is sent, delta after delta, one message for each of
    its subscriptions that match, in the order of their names. *)
Theorem deltas_reach_subscribers b ds m m' id c ch :
  rtc sub_step (manager_new b) m -> two_frame m = false -> tick_enabled m = false ->
  publish_deltas ds m = Some m' -> clients m !! id = Some c -> channels m !! id = Some ch -> closed ch = false ->
  channels m' !! id = Some {| queue := queue ch ++ concat (map (fun d => omap (diff_frame d) (sort_keys (wanted d c))) ds);
                              capacity := capacity ch; closed := false |}.
Proof.
  intros Hr%reachable_indexed Ht Hk. unfold publish_deltas, publish_now. rewrite Hk. case_bool_decide as He.
  { intros _ Hc. rewrite He in Hc. done. }
  clear He. revert m ch Hr Ht Hk. induction ds as [|d ds IH]; intros m ch Hr Ht Hk Hrun Hc Hch Hcl; cbn in Hrun.
  - injection Hrun as <-. rewrite Hch. cbn. rewrite app_nil_r. by destruct ch; cbn in *; subst.
  - destruct (publish_one d m) as [m1|] eqn:Hd; cbn in Hrun; [|done].
    apply publish_one_delivers in Hd as [Hm1 Hq]; [|done..]. specialize (Hq id c ch Hc Hch Hcl).
    assert (Hw1 : well_indexed m1) by (rewrite Hm1; done).
    rewrite (IH m1 {| queue := queue ch ++ omap (diff_frame d) (sort_keys (wanted d c)); capacity := capacity ch; closed := false |});
      [|done|by rewrite Hm1|by rewrite Hm1|done|by rewrite Hm1|done|done]. cbn. by rewrite <- app_assoc.
Qed.
End Delivery.

(** ** What a client makes of the batches *)

(** Floats with one zero. *)
Definition one_zero (f : f64) : f64 := match f with S754_zero _ => S754_zero false | _ => f end.

Fixpoint norm (v : Value) : Value :=
  match v with
  | Num (Float f) => Num (Float (one_zero f))
  | Array l => Array (map norm l)
  | Object m => Object (map (fun '(k, x) => (k, norm x)) m)
  | _ => v
  end.

Lemma f64_eqb_one_zero a b : f64_eqb a b = true -> one_zero a = one_zero b.
Proof.
  unfold f64_eqb, SFeqb. destruct a as [s|s| |s m e], b as [t|t| |t n d]; cbn; try done;
    try (destruct s; done); try (destruct s, t; done).
  destruct s, t; cbn; try done; destruct (e ?= d) eqn:Ee; try done; apply Z.compare_eq in Ee as ->;
    change (Pos.compare_cont Eq m n) with (m ?= n)%positive; destruct (m ?= n)%positive eqn:Em; try done;
    by apply Pos.compare_eq in Em as ->.
Qed.

Fixpoint value_eqb_norm (v w : Value) {struct v} : value_eqb v w = true -> norm v = norm w.
Proof.
  destruct v as [|b|[x|x|x]|s|l|m], w as [|c|[y|y|y]|t|k|n]; cbn; try done.
  - intros E. by apply eqb_prop in E as ->.
  - intros E%Z.eqb_eq. by subst.
  - intros E%Z.eqb_eq. by subst.
  - intros E%f64_eqb_one_zero. by rewrite E.
  - intros E. by apply beq_true in E as ->.
  - intros E. f_equal. revert k E. induction l as [|a l IH]; intros [|b k]; try done.
    intros [Ea El]%andb_prop. cbn. f_equal; [by apply value_eqb_norm|by apply IH].
  - intros E. f_equal. revert n E. induction m as [|[j a] m IH]; intros [|[i b] n]; try done.
    intros [[Ej Ea]%andb_prop El]%andb_prop. apply beq_true in Ej as ->. cbn. f_equal; [f_equal; by apply value_eqb_norm|by apply IH].
Qed.

(** The client library's cache of rows (src/voltra-client-rust/src/client.rs), a table and a
    key together. *)
Definition apply_to_base (base : gmap RowKey Value) (d : SubscriptionDiff) : gmap RowKey Value :=
  let key := (sd_table d, sd_key d) in
  if beq (sd_operation d) (bs "delete") then delete key base
  else if beq (sd_operation d) (bs "patch") then
    match sd_data d with
    | Some (Object patch) =>
        match default (Object []) (base !! key) with
        | Object existing => <[key := Object (foldl (fun o (kv : Bytes * Value) => map_insert kv.1 kv.2 o) existing patch)]> base
        | other => <[key := other]> base
        end
    | _ => base
    end
  else match sd_data d with Some v => <[key := v]> base | None => base end.

(** The client has every row the server keeps for it, up to the sign of zeros. *)
Definition coherent (cache base : gmap RowKey Value) : Prop :=
  forall k v, cache !! k = Some v -> norm <$> base !! k = Some (norm v).

(** An update keeps the fields of the row it replaces. *)
Definition keeps_fields (old new : Value) : Prop :=
  forall f, is_Some (get_field old f) -> is_Some (get_field new f).

Definition well_formed (v : Value) : Prop := match v with Object m => ascending (map fst m) = true | _ => True end.

Lemma map_get_above m k : Forall (fun j => bytes_ltb k j = true) (map fst m) -> map_get m k = None.
Proof.
  induction m as [|[j v] m IH]; cbn; [done|]. intros [Hj Hm]%Forall_cons. destruct (beq k j) eqn:E; [|auto].
  apply beq_true in E as ->. by rewrite bytes_ltb_irrefl in Hj.
Qed.

Lemma map_get_filter p m k : ascending (map fst m) = true ->
  map_get (List.filter p m) k = v ← map_get m k; if p (k, v) : bool then Some v else None.
Proof.
  induction m as [|[j v] m IH]; [done|]. cbn [map fst]. intros Ha. destruct (ascending_cons _ _ Ha) as [Ha' Hf].
  cbn [List.filter map_get]. destruct (beq k j) eqn:E.
  - apply beq_true in E as ->. cbn. destruct (p (j, v)); cbn; [by rewrite beq_refl|].
    rewrite IH by done. by rewrite map_get_above.
  - destruct (p (j, v)); cbn; [rewrite E|]; by apply IH.
Qed.

Lemma map_get_merge p : forall o k, ascending (map fst p) = true ->
  map_get (foldl (fun o (kv : Bytes * Value) => map_insert kv.1 kv.2 o) o p) k =
  match map_get p k with Some v => Some v | None => map_get o k end.
Proof.
  induction p as [|[j w] p IH]; intros o k; [done|]. cbn [map fst foldl map_get snd]. intros Ha.
  destruct (ascending_cons _ _ Ha) as [Ha' Hf]. rewrite IH by done. rewrite map_get_insert. destruct (beq k j) eqn:E; [|done].
  apply beq_true in E as ->. by rewrite map_get_above.
Qed.

Lemma merge_ascending p : forall o, ascending (map fst o) = true ->
  ascending (map fst (foldl (fun o (kv : Bytes * Value) => map_insert kv.1 kv.2 o) o p)) = true.
Proof. induction p as [|[j w] p IH]; intros o Ho; cbn; [done|]. by apply IH, map_insert_ascending. Qed.

Lemma filter_ascending p (m : list (Bytes * Value)) : ascending (map fst m) = true -> ascending (map fst (List.filter p m)) = true.
Proof.
  intros Ha. assert (Hs : StronglySorted (fun a b => bytes_ltb a b = true) (map fst m)).
  { revert Ha. generalize (map fst m). intros l. induction l as [|a l IH]; [constructor|]. intros Ha.
    destruct (ascending_cons _ _ Ha) as [Ha' Hf]. constructor; auto. }
  clear Ha. assert (Hf : StronglySorted (fun a b => bytes_ltb a b = true) (map fst (List.filter p m))).
  { induction m as [|[k v] m IH]; cbn in *; [done|]. inversion Hs as [|? ? Hs' Hall]; subst.
    destruct (p (k, v)); cbn; [|auto]. constructor; [auto|]. rewrite Forall_forall in Hall. apply Forall_forall.
    intros j Hj. apply Hall. apply list_elem_of_In, List.in_map_iff in Hj as ([j' v'] & <- & Hin).
    apply List.filter_In in Hin as [Hin _]. apply list_elem_of_In, List.in_map_iff. by exists (j', v'). }
  revert Hf. generalize (map fst (List.filter p m)). intros l. induction 1 as [|a l Hl IH Hall]; [done|].
  destruct l as [|b l]; [done|]. cbn [ascending] in *. apply Forall_cons in Hall as [Hab _]. by rewrite Hab, IH.
Qed.

Definition norm_map (m : list (Bytes * Value)) : list (Bytes * Value) := map (fun '(k, x) => (k, norm x)) m.

Lemma map_get_norm m k : map_get (norm_map m) k = norm <$> map_get m k.
Proof. unfold norm_map. induction m as [|[j v] m IH]; cbn; [done|]. by destruct (beq k j). Qed.

Lemma norm_map_keys m : map fst (norm_map m) = map fst m.
Proof. unfold norm_map. rewrite map_map. apply map_ext. by intros []. Qed.

(** The patch from an old row, merged into a copy of it, gives the new row. *)
Lemma patch_rebuilds old new patch o existing :
  compute_patch (Object old) (Object new) = Some (Object patch) ->
  ascending (map fst old) = true -> ascending (map fst new) = true -> keeps_fields (Object old) (Object new) ->
  o = Object existing -> norm o = norm (Object old) ->
  norm (Object (foldl (fun o (kv : Bytes * Value) => map_insert kv.1 kv.2 o) existing patch)) = norm (Object new).
Proof.
  unfold compute_patch. set (p := fun kv : Bytes * Value => negb _). intros Hp Ho Hn Hk -> Hex.
  assert (Epatch : patch = List.filter p new) by (destruct (List.filter p new); congruence). clear Hp. subst patch.
  cbn [norm] in Hex |- *. injection Hex as Hex. fold (norm_map existing) (norm_map old) in Hex. f_equal.
  assert (Hkeys : map fst existing = map fst old) by (by rewrite <- (norm_map_keys existing), Hex, norm_map_keys).
  fold (norm_map (foldl (fun o (kv : Bytes * Value) => map_insert kv.1 kv.2 o) existing (List.filter p new))) (norm_map new).
  apply map_get_ext; rewrite ?norm_map_keys; [apply merge_ascending; by rewrite Hkeys|done|].
  intros k. rewrite !map_get_norm, map_get_merge by (by apply filter_ascending). rewrite map_get_filter by done.
  assert (Hok : norm <$> map_get existing k = norm <$> map_get old k) by (by rewrite <- !map_get_norm, Hex).
  destruct (map_get new k) as [v|] eqn:Ev; cbn.
  - destruct (map_get old k) as [u|] eqn:Eu.
    + unfold p. cbn [fst snd]. rewrite Eu. destruct (value_eqb u v) eqn:E; cbn; [|done].
      rewrite Hok. cbn. by rewrite (value_eqb_norm _ _ E).
    + unfold p. cbn [fst snd]. by rewrite Eu.
  - rewrite Hok. specialize (Hk k). cbn [get_field] in Hk. rewrite Ev in Hk. destruct (map_get old k); [|done].
    destruct Hk as [? ?]; [by eexists|done].
Qed.

Section Replica.
Context `{MsgCodec}.

(** What a batch may hold: no operation called patch, rows in form, updates that keep fields. *)
Definition delta_ok (d : RowDelta) (cache : gmap RowKey Value) : Prop :=
  operation d <> bs "patch" /\ (forall v, row_data d = Some v -> well_formed v) /\
  (operation d = bs "update" -> forall old new, cache !! (table_name d, row_key d) = Some old -> row_data d = Some new ->
     keeps_fields old new).

Definition cache_ok (cache : gmap RowKey Value) : Prop := forall k v, cache !! k = Some v -> well_formed v.

Definition told_diff (sub : Bytes) (d : RowDelta) (cache : gmap RowKey Value) : SubscriptionDiff :=
  {| subscription_id := sub; sd_table := table_name d; sd_key := row_key d;
     sd_operation := fst (told d cache); sd_data := snd (told d cache) |}.

Lemma coherent_insert cache base k v w : norm w = norm v -> coherent cache base -> coherent (<[k := v]> cache) (<[k := w]> base).
Proof.
  intros Hv Hc j x. destruct (decide (j = k)) as [->|Hne].
  - rewrite !lookup_insert_eq. intros [= <-]. cbn. by rewrite Hv.
  - rewrite !lookup_insert_ne by done. apply Hc.
Qed.

Lemma coherent_delete cache base k : coherent cache base -> coherent (delete k cache) (delete k base).
Proof. intros Hc j x [Hne Hj]%lookup_delete_Some. rewrite lookup_delete_ne by done. by apply Hc. Qed.

Lemma whole_coherent sub d cache base : operation d <> bs "patch" -> coherent cache base ->
  coherent (cache_row d (operation d) cache)
    (apply_to_base base {| subscription_id := sub; sd_table := table_name d; sd_key := row_key d;
                           sd_operation := operation d; sd_data := row_data d |}).
Proof.
  intros Hop Hc. unfold cache_row, apply_to_base. cbn [sd_table sd_key sd_operation sd_data].
  destruct (beq (operation d) (bs "delete")); [by apply coherent_delete|].
  assert (beq (operation d) (bs "patch") = false) as -> by (by apply bool_decide_eq_false).
  destruct (row_data d); [by apply coherent_insert|done].
Qed.

Lemma told_cases d cache :
  told d cache = (operation d, row_data d) \/
  exists old new patch, operation d = bs "update" /\ row_data d = Some new /\ cache !! (table_name d, row_key d) = Some old /\
    compute_patch old new = Some patch /\ told d cache = (bs "patch", Some patch).
Proof.
  unfold told. destruct (beq (operation d) (bs "update")) eqn:E; [|by left]. apply beq_true in E.
  destruct (row_data d) as [new|]; [|by left]. destruct (cache !! _) as [old|] eqn:Eo; [|by left].
  destruct (compute_patch old new) as [patch|] eqn:Ep; [|by left]. destruct (_ <? _); [|by left]. right. by exists old, new, patch.
Qed.

Lemma told_coherent sub d cache base : delta_ok d cache -> cache_ok cache -> coherent cache base ->
  coherent (cache_row d (fst (told d cache)) cache) (apply_to_base base (told_diff sub d cache)).
Proof.
  intros (Hop & Hwf & Hkeep) Hcok Hc. unfold told_diff.
  destruct (told_cases d cache) as [->|(old & new & patch & Eu & En & Eo & Ep & ->)]; [by apply whole_coherent|].
  cbn [fst snd]. unfold cache_row, apply_to_base. cbn [sd_table sd_key sd_operation sd_data].
  assert (beq (bs "patch") (bs "delete") = false) as -> by done. rewrite beq_refl, En.
  pose proof (Hkeep Eu old new Eo En) as Hkf. pose proof (Hwf new En) as Hnew. pose proof (Hcok _ _ Eo) as Hold.
  specialize (Hc _ _ Eo) as Hb. destruct old as [| | | | |old], new as [| | | | |new]; try done.
  assert (exists p, patch = Object p) as [p ->] by (unfold compute_patch in Ep; destruct (List.filter _ new); [done|by eexists; injection Ep]).
  destruct (base !! (table_name d, row_key d)) as [o|] eqn:Ebase; [|done]. cbn in Hb. injection Hb as Hb.
  cbn [default]. destruct o as [| |[]| | |existing]; try (by cbn in Hb).
  apply coherent_insert; [|done]. by eapply patch_rebuilds.
Qed.

(** *** Whole batches *)

Context `{Serde}.

(** The rows a client may have been told of, and what each delta adds to them. *)
Definition row_of (d : RowDelta) : list (RowKey * Value) :=
  match row_data d with Some v => [((table_name d, row_key d), v)] | None => [] end.

(** Updates keep the fields of every earlier image of their row. *)
Fixpoint rows_grow (seen : list (RowKey * Value)) (ds : list RowDelta) : Prop :=
  match ds with
  | [] => True
  | d :: ds' =>
      operation d <> bs "patch" /\ (forall v, row_data d = Some v -> well_formed v) /\
      (operation d = bs "update" -> forall old new, ((table_name d, row_key d), old) ∈ seen -> row_data d = Some new -> keeps_fields old new) /\
      rows_grow (row_of d ++ seen) ds'
  end.

(** A client in the middle of a batch. *)
Definition following (seen : list (RowKey * Value)) (base : gmap RowKey Value) (id : Z) (g : Gathered * gmap Z ClientInfo) : Prop :=
  exists c, g.2 !! id = Some c /\ cache_ok (row_cache c) /\ (forall k v, row_cache c !! k = Some v -> (k, v) ∈ seen) /\
    coherent (row_cache c) (foldl apply_to_base base (default [] (g.1 !! id))).

Lemma batch_client_follows seen base d ids id g :
  operation d <> bs "patch" -> (forall v, row_data d = Some v -> well_formed v) ->
  (operation d = bs "update" -> forall old new, ((table_name d, row_key d), old) ∈ seen -> row_data d = Some new -> keeps_fields old new) ->
  following seen base id g -> following (row_of d ++ seen) base id (gather_client d (id, ids) g).
Proof.
  intros Hop Hwf Hk (c & Hc & Hok & Hin & Hco). destruct g as [acc cs]. cbn [fst snd] in *. unfold gather_client, batch_client.
  cbn [fst snd]. rewrite Hc.
  assert (Hin' : forall k v, row_cache c !! k = Some v -> (k, v) ∈ row_of d ++ seen) by (intros; apply elem_of_app; right; auto).
  destruct (matching_subs d ids c) as [|sub ?]; [by exists c|].
  pose proof (told_coherent sub d (row_cache c) (foldl apply_to_base base (default [] (acc !! id)))) as Ht.
  specialize (Ht (conj Hop (conj Hwf (fun Hu old new Ho => Hk Hu old new (Hin _ _ Ho)))) Hok Hco). unfold told_diff in Ht.
  destruct (told d (row_cache c)) as [op v] eqn:Etold. cbn [fst snd] in *. eexists. cbn. rewrite !lookup_insert_eq.
  split; [done|]. cbn [row_cache]. change (default [] (Some ?l)) with l. rewrite foldl_snoc. split_and!; [| |done].
  - intros k w. unfold cache_row. destruct (beq op _); [intros [_ Hw]%lookup_delete_Some; by apply (Hok k)|].
    destruct (row_data d) as [x|] eqn:Ex; [|by apply Hok]. rewrite lookup_insert_Some. intros [[<- <-]|[_ Hw]]; [by apply Hwf|by apply (Hok k)].
  - intros k w. unfold cache_row, row_of. destruct (beq op _); [intros [_ Hw]%lookup_delete_Some; apply elem_of_app; right; auto|].
    destruct (row_data d) as [x|]; [|intros; apply elem_of_app; right; auto].
    rewrite lookup_insert_Some. intros [[<- <-]|[_ Hw]]; [left|right; auto].
Qed.

Lemma gather_other d ci id seen base g : ci.1 <> id -> following seen base id g -> following seen base id (gather_client d ci g).
Proof.
  intros Hne (c & Hc & Hrest). destruct g as [acc cs]. unfold gather_client. cbn in *. destruct (cs !! ci.1) as [c1|]; [|by exists c].
  destruct (batch_client d ci.2 c1) as [[diff c2]|]; [|by exists c]. exists c. cbn. by rewrite !lookup_insert_ne.
Qed.

Lemma following_weaken seen seen' base id g : (forall kv, kv ∈ seen -> kv ∈ seen') -> following seen base id g -> following seen' base id g.
Proof. intros Hs (c & Hc & Hok & Hin & Hco). exists c. split_and!; auto. Qed.

Lemma gather_delta_follows seen base d id index g :
  operation d <> bs "patch" -> (forall v, row_data d = Some v -> well_formed v) ->
  (operation d = bs "update" -> forall old new, ((table_name d, row_key d), old) ∈ seen -> row_data d = Some new -> keeps_fields old new) ->
  following seen base id g -> following (row_of d ++ seen) base id (gather_delta index g d).
Proof.
  intros Hop Hwf Hk Hg. unfold gather_delta. destruct (index !! table_name d) as [cs|].
  2:{ eapply following_weaken; [|done]. intros; apply elem_of_app; by right. }
  pose proof (NoDup_fst_map_to_list cs) as Hnd. revert g Hg Hnd. generalize (map_to_list cs). intros l.
  induction l as [|[j ids] l IH]; intros g Hg Hnd; cbn [foldl].
  - eapply following_weaken; [|done]. intros; apply elem_of_app; by right.
  - apply NoDup_cons in Hnd as [Hj Hnd]. destruct (decide (j = id)) as [->|Hne]; [|apply IH; [by apply gather_other|done]].
    apply (batch_client_follows _ _ d ids) in Hg; [|done..]. clear IH. revert Hg. generalize (gather_client d (id, ids) g).
    induction l as [|[k ks] l IH]; intros g' Hg; cbn [foldl]; [done|]. cbn in Hj. apply not_elem_of_cons in Hj as [Hj1 Hj2].
    apply NoDup_cons in Hnd as [_ Hnd]. apply IH; [done..|]. apply gather_other; [cbn; congruence|done].
Qed.

(** C29: patches lose nothing: of a client that merges each batch into its cache as the client
    library does, the server keeps in [row_cache] each row as it last told it; after any batch the
    client's cache has every row of [row_cache] with that value, up to the sign of zeros, however
    many updates came as patches, provided the rows are objects with their fields in order and no
    update of a row drops a field of it. (Whether the client is told is another matter: a row that
    leaves the filter of a subscription is not, leaving_row_not_told, and stays in both caches.)
    *)
Theorem batch_rebuilds_rows m ds id c base :
  clients m !! id = Some c -> cache_ok (row_cache c) -> rows_grow (map_to_list (row_cache c)) ds ->
  coherent (row_cache c) base ->
  let '(acc, cs) := foldl (gather_delta (table_index m)) (∅, clients m) ds in
  exists c', cs !! id = Some c' /\ coherent (row_cache c') (foldl apply_to_base base (default [] (acc !! id))).
Proof.
  intros Hc Hok Hg Hco.
  assert (Hf : following (map_to_list (row_cache c)) base id (∅, clients m)).
  { exists c. split_and!; [done|done| |done]. intros k v Hv. by apply elem_of_map_to_list. }
  clear Hc Hok Hco. revert Hg Hf. generalize (map_to_list (row_cache c)) (@empty Gathered _, clients m).
  induction ds as [|d ds IH]; intros seen g Hg Hf; cbn [foldl].
  - destruct g as [acc cs]. destruct Hf as (c' & ? & _ & _ & ?). by exists c'.
  - destruct Hg as (Hop & Hwf & Hk & Hg). apply (IH (row_of d ++ seen)); [done|]. by apply gather_delta_follows.
Qed.
End Replica.

(** ** Ticks *)

(** Rows as deltas leave them. *)
Definition apply_delta_row (rows : gmap RowKey Value) (d : RowDelta) : gmap RowKey Value :=
  let key := (table_name d, row_key d) in
  if beq (operation d) (bs "delete") then delete key rows
  else match row_data d with Some v => <[key := v]> rows | None => rows end.

Definition settles (d : RowDelta) : Prop := operation d = bs "delete" \/ is_Some (row_data d).
Definition key_of (d : RowDelta) : RowKey := (table_name d, row_key d).

Definition gather_pending (p : gmap RowKey RowDelta) (ds : list RowDelta) : gmap RowKey RowDelta :=
  foldl (fun p d => <[key_of d := d]> p) p ds.

(** The row a settling delta leaves. *)
Definition leaves (d : RowDelta) : option Value := if beq (operation d) (bs "delete") then None else row_data d.

Lemma apply_delta_row_at rows d k : settles d ->
  apply_delta_row rows d !! k = if bool_decide (k = key_of d) then leaves d else rows !! k.
Proof.
  intros Hs. unfold apply_delta_row, leaves, key_of. destruct (beq (operation d) (bs "delete")) eqn:E.
  - case_bool_decide as Hk; [subst; by rewrite lookup_delete_eq|by rewrite lookup_delete_ne].
  - destruct Hs as [Hd|[v Hv]]; [rewrite Hd, beq_refl in E; done|]. rewrite Hv.
    case_bool_decide as Hk; [subst; by rewrite lookup_insert_eq|by rewrite lookup_insert_ne].
Qed.

Lemma apply_all_at ds : Forall settles ds -> forall rows k,
  foldl apply_delta_row rows ds !! k =
  match gather_pending ∅ ds !! k with Some d => leaves d | None => rows !! k end.
Proof.
  intros Hs. induction ds as [|d ds IH] using rev_ind; intros rows k; [done|].
  apply Forall_app in Hs as [Hs [Hd _]%Forall_cons]. unfold gather_pending. rewrite !foldl_snoc, apply_delta_row_at by done.
  case_bool_decide as Hk; [subst; by rewrite lookup_insert_eq|]. rewrite lookup_insert_ne by done. by apply IH.
Qed.

Lemma gather_pending_keys ds : forall k d, gather_pending ∅ ds !! k = Some d -> key_of d = k /\ d ∈ ds.
Proof.
  induction ds as [|d ds IH] using rev_ind; intros k e; [done|]. unfold gather_pending. rewrite foldl_snoc, lookup_insert_Some.
  rewrite elem_of_app, list_elem_of_singleton. intros [[<- <-]|[_ He]]; [auto|]. apply IH in He. tauto.
Qed.

Lemma gather_pending_elem l k d : NoDup (map key_of l) -> gather_pending ∅ l !! k = Some d <-> d ∈ l /\ key_of d = k.
Proof.
  intros Hnd. split; [intros Hd%gather_pending_keys; tauto|]. induction l as [|e l IH] using rev_ind; [by intros [?%elem_of_nil _]|].
  rewrite map_app in Hnd. apply NoDup_app in Hnd as (Hnd & Hdis & _). unfold gather_pending. rewrite foldl_snoc.
  rewrite elem_of_app, list_elem_of_singleton. intros [[Hd| ->] <-]; [|by rewrite lookup_insert_eq].
  rewrite lookup_insert_ne; [by apply IH|]. intros He. apply (Hdis (key_of d)); [|rewrite <- He; left].
  apply list_elem_of_In, List.in_map_iff. exists d. split; [done|]. by apply list_elem_of_In.
Qed.

Section Ticks.
Context `{Serde} `{MsgCodec}.

(** A tick sends what its deltas amount to: replaying the deltas kept for the tick, one per
    row, in any order, leaves the rows that replaying all of them in their order leaves. *)
Theorem tick_amounts_to_deltas m ds rows kept :
  Forall settles ds -> tick_enabled m = true -> pending m = ∅ -> clients m <> ∅ ->
  (forall m', publish_deltas ds m = Some m' -> kept ≡ₚ map snd (map_to_list (pending m'))) ->
  foldl apply_delta_row rows kept = foldl apply_delta_row rows ds.
Proof.
  intros Hs Ht Hp Hc Hk. unfold publish_deltas in Hk. rewrite bool_decide_eq_false_2, Ht, Hp in Hk by done.
  specialize (Hk _ eq_refl). cbn [with_pending pending] in Hk. change (foldl _ ∅ ds) with (gather_pending ∅ ds) in Hk.
  assert (Hel : forall d, d ∈ kept <-> gather_pending ∅ ds !! key_of d = Some d).
  { intros d. rewrite Hk, list_elem_of_In, List.in_map_iff. split.
    - intros ([k e] & <- & Hin). apply list_elem_of_In, elem_of_map_to_list in Hin. cbn in *.
      by destruct (gather_pending_keys _ _ _ Hin) as [-> _].
    - intros Hd. exists (key_of d, d). split; [done|]. by apply list_elem_of_In, elem_of_map_to_list. }
  assert (Hnd : NoDup (map key_of kept)).
  { rewrite Hk, map_map. erewrite List.map_ext_in; [apply NoDup_fst_map_to_list|]. intros [k d] Hin. cbn.
    apply list_elem_of_In, elem_of_map_to_list in Hin. by destruct (gather_pending_keys _ _ _ Hin). }
  assert (Hks : Forall settles kept).
  { apply Forall_forall. intros d [_ Hd]%Hel%gather_pending_keys. rewrite Forall_forall in Hs. auto. }
  apply map_eq. intros k. rewrite !apply_all_at by done.
  assert (Heq : gather_pending ∅ kept !! k = gather_pending ∅ ds !! k); [|by rewrite Heq].
  apply option_eq. intros d. rewrite gather_pending_elem, Hel by done. split; [by intros [Hd <-]|].
  intros Hd. destruct (gather_pending_keys _ _ _ Hd) as [<- _]. done.
Qed.
End Ticks.

(** ** Examples and witnesses *)

#[local] Existing Instance demo_serde.
#[local] Instance demo_lower : Lowercase := {| to_lowercase := to_ascii_lowercase |}.
#[local] Instance demo_sql : SqlLib := {| to_uppercase := map (fun c => if between 97 122 c then c - 32 else c); powi10 _ := f64_one |}.
#[local] Instance demo_zstd : Zstd := {| encode_all b _ := Some b |}.

Definition diff_value (d : SubscriptionDiff) : Value :=
  Array [Str (subscription_id d); Str (sd_table d); Str (sd_key d); Str (sd_operation d); default Null (sd_data d)].
#[local] Instance demo_codec : MsgCodec :=
  {| encode_server m := Some (match m with
       | DiffMessage d => 1 :: enc_value (diff_value d)
       | RouteMessage ids => 2 :: enc_value (Array (map Str ids))
       | BodyMessage b => 3 :: enc_value (Array [Str (sb_table b); Str (sb_key b); Str (sb_operation b); default Null (sb_data b)])
       | BatchUpdate c payload => (if c then 4 else 5) :: payload
       end);
     diffs_to_vec l := Some (enc_value (Array (map diff_value l)));
     value_to_vec v := Some (enc_value v) |}.

Definition row_delta (op key : string) (data : option Value) : RowDelta :=
  {| table_name := bs "p"; operation := bs op; row_key := bs key; d_row_id := 1; d_shard_id := 0; payload_arc := None;
     row_data := data; counter_add_amount := 0; counter_add_timestamp := 0 |}.

Definition wide_channel : Chan := {| queue := []; capacity := 10; closed := false |}.
Definition manager_with (c : Chan) (queries : list (string * string)) : SubscriptionManager :=
  foldl (fun m (sq : string * string) => snd (fst (subscribe_with_snapshot 1 (bs sq.1) (bs sq.2) None m)))
    (snd (register_client c (manager_new false))) queries.

Definition received (id : Z) (m : SubscriptionManager) : list OutboundFrames :=
  match channels m !! id with Some c => queue c | None => [] end.

(** *** What the manager does otherwise *)

(** A byte position inside a letter ends the connection's task: any text beyond ASCII that a
    keyword search passes panics. *)
Lemma letters_panic : parse_subscription_query (bs "p WHERE name = '" ++ [195; 169] ++ bs "cole'") = None.
Proof. vm_compute. reflexivity. Qed.

Lemma lone_quote_panics : parse_subscription_query (bs "p WHERE name = '") = None.
Proof. vm_compute. reflexivity. Qed.

(** Keywords and comparators are found inside quoted text. *)
Lemma quoted_and_splits : match parse_subscription_query (bs "p WHERE name = 'salt and pepper'") with Some (Err _) => True | _ => False end.
Proof. vm_compute. exact I. Qed.

Lemma quoted_comparator :
  parse_subscription_query (bs "p WHERE name = 'a>b'") =
  Some (Ok {| f_table_name := bs "p"; predicate := Some (Comparison (bs "name = 'a") Cmp.Gt (Str (bs "b'")));
              order_by := None; limit := None |}).
Proof. vm_compute. reflexivity. Qed.

(** Parentheses are no grouping: they only keep the keywords inside from being found. *)
Lemma parentheses_do_not_group :
  parse_subscription_query (bs "p WHERE (a = 1 OR b = 2)") =
  Some (Ok {| f_table_name := bs "p"; predicate := Some (Comparison (bs "(a") Cmp.Eq (Str (bs "1 OR b = 2)")));
              order_by := None; limit := None |}).
Proof. vm_compute. reflexivity. Qed.

(** A second subscription under the same name is listed twice and told twice. *)
Lemma resubscribed_told_twice :
  let m := manager_with wide_channel [("s", "p"); ("s", "p")]%string in
  option_map (fun m => length (received 1 m)) (publish_deltas [row_delta "insert" "k" (Some (Bool true))] m) = Some 2%nat.
Proof. vm_compute. reflexivity. Qed.

(** A full channel, without ticks: the publisher waits for itself. *)
Lemma full_channel_hangs :
  let m := manager_with {| queue := []; capacity := 0; closed := false |} [("s", "p")]%string in
  publish_deltas [row_delta "insert" "k" (Some (Bool true))] m = None.
Proof. vm_compute. reflexivity. Qed.

(** An update after which a row no longer matches is not told: the client keeps the row. *)
Lemma leaving_row_not_told :
  let m := manager_with wide_channel [("s", "p WHERE level > 5")]%string in
  let low := Object [(bs "level", Num (PosInt 1))] in
  option_map (received 1) (publish_deltas [row_delta "update" "k" (Some low)] m) = Some [].
Proof. vm_compute. reflexivity. Qed.

(** The frames of the tick path, undone by the client library. *)
Definition ticked (ds : list RowDelta) (m : SubscriptionManager) : SubscriptionManager := publish_batch ds m.
Definition client_cache (id : Z) (m : SubscriptionManager) : option Value :=
  c ← clients m !! id; row_cache c !! (bs "p", bs "k").

Definition small : Value := Object [(bs "a", Num (PosInt 1)); (bs "b", Str (bs "long text that does not change"))].
Definition smaller : Value := Object [(bs "a", Num (PosInt 2))].
Definition changed : Value := Object [(bs "a", Num (PosInt 2)); (bs "b", Str (bs "long text that does not change"))].

(** A field that an update drops stays with the client. *)
Lemma dropped_field_stays :
  let cache : gmap RowKey Value := <[(bs "p", bs "k") := Object [(bs "a", Num (PosInt 1)); (bs "b", Bool true); (bs "c", Null)]]> ∅ in
  let d := row_delta "update" "k" (Some (Object [(bs "a", Num (PosInt 1)); (bs "c", Bool false)])) in
  apply_to_base cache (told_diff (bs "s") d cache) !! (bs "p", bs "k")
  = Some (Object [(bs "a", Num (PosInt 1)); (bs "b", Bool true); (bs "c", Bool false)]).
Proof. vm_compute. reflexivity. Qed.

(** The row kept for a client advances although its channel was full: the next update comes as a
    patch of a row the client never got. *)
Lemma patch_of_a_missed_row :
  let m := ticked [row_delta "insert" "k" (Some small)] (manager_with {| queue := []; capacity := 0; closed := false |} [("s", "p")]%string) in
  received 1 m = [] /\ client_cache 1 m = Some small /\
  match clients m !! 1 with
  | Some c => told (row_delta "update" "k" (Some changed)) (row_cache c) = (bs "patch", Some smaller)
  | None => False
  end.
Proof. vm_compute. auto. Qed.

(** An index made for the query of a lobby's table is one of an empty root table: the first
    snapshot of a filtered subscription on a lobby has no rows. *)
Lemma lobby_snapshot_is_empty :
  let row := Object [(bs "zone", Str (bs "x"))] in
  let ts := snd (set_row 1000 (bs "l1_p") (bs "k") row (table_store_new NoEviction [])) in
  let snap q := received 1 (snd (fst (subscribe_with_snapshot 1 (bs "s") (bs q) (Some ts) (manager_with wide_channel [])))) in
  length (snap "l1_p"%string) = 1%nat /\ snap "l1_p WHERE zone = 'x'"%string = [].
Proof. vm_compute. auto. Qed.

(** *** Witnesses *)

Definition subscribing (sub : string) (f : SubscriptionFilter) (m : SubscriptionManager) : SubscriptionManager :=
  match clients m !! 1 with Some c => add_subscription 1 (bs sub) f c m | None => m end.

Lemma subscribing_step sub f m0 m : rtc sub_step m0 m ->
  match clients m !! 1 with Some c => subscriptions c !! bs sub | None => None end = None ->
  rtc sub_step m0 (subscribing sub f m).
Proof.
  intros Hr Hn. unfold subscribing. destruct (clients m !! 1) as [c|] eqn:Hc; [|done].
  eapply rtc_r; [done|]. by apply step_subscribe.
Qed.

Definition whole_table (name : string) : SubscriptionFilter :=
  {| f_table_name := bs name; predicate := None; order_by := None; limit := None |}.
Definition high_levels : SubscriptionFilter :=
  {| f_table_name := bs "p"; predicate := Some (Comparison (bs "level") Cmp.Gt (Num (PosInt 5))); order_by := None; limit := None |}.

Definition demo_manager : SubscriptionManager :=
  subscribing "c" (whole_table "q") (subscribing "a" high_levels (subscribing "b" (whole_table "p")
    (snd (register_client wide_channel (manager_new false))))).

Lemma demo_manager_reachable : rtc sub_step (manager_new false) demo_manager.
Proof.
  do 3 (apply subscribing_step; [|by vm_compute]). eapply rtc_l; [|apply rtc_refl]. by apply step_register.
Qed.

Lemma demo_manager_parsed :
  demo_manager = manager_with wide_channel [("b", "p"); ("a", "p WHERE level > 5"); ("c", "q")]%string.
Proof. vm_compute. reflexivity. Qed.

Lemma deltas_reach_subscribers_witness :
  let d := row_delta "update" "k" (Some (Object [(bs "level", Num (PosInt 7))])) in
  exists m', publish_deltas [d] demo_manager = Some m' /\
    received 1 m' = omap (diff_frame d) [bs "a"; bs "b"] /\ length (received 1 m') = 2%nat.
Proof.
  cbn zeta. set (d := row_delta _ _ _).
  set (x := publish_deltas [d] demo_manager). assert (Hx : exists m', x = Some m') by (eexists; vm_compute; reflexivity).
  destruct Hx as [m' Hx]. exists m'. split; [done|].
  set (oc := clients demo_manager !! 1). assert (Hc : exists c, oc = Some c) by (eexists; vm_compute; reflexivity).
  destruct Hc as [c Hc].
  assert (Hch : channels demo_manager !! 1 = Some wide_channel) by (vm_compute; reflexivity).
  pose proof (deltas_reach_subscribers false [d] demo_manager m' 1 c wide_channel demo_manager_reachable eq_refl eq_refl Hx Hc Hch eq_refl) as Hd.
  unfold received. rewrite Hd. unfold oc in Hc. vm_compute in Hc. injection Hc as <-. split; by vm_compute.
Defined.

Lemma batch_rebuilds_rows_witness :
  let m := demo_manager in let ds := [row_delta "insert" "k" (Some small); row_delta "update" "k" (Some changed)] in
  let '(acc, cs) := foldl (gather_delta (table_index m)) (∅, clients m) ds in
  map sd_operation (default [] (acc !! 1)) = [bs "insert"; bs "patch"] /\
  foldl apply_to_base ∅ (default [] (acc !! 1)) !! (bs "p", bs "k") = Some changed.
Proof.
  cbn zeta. set (ds := [_; _]). set (oc := clients demo_manager !! 1).
  assert (Hc : oc = Some {| subscriptions := subscriptions (default {| subscriptions := ∅; missed_ticks := 0; row_cache := ∅ |} oc);
                            missed_ticks := 0; row_cache := ∅ |}) by (vm_compute; reflexivity).
  assert (Hok : cache_ok ∅) by (by intros k v).
  assert (Hg : rows_grow (map_to_list (∅ : gmap RowKey Value)) ds).
  { unfold ds. cbn [rows_grow]. split_and!; try done; try (by intros v [= <-]).
    intros _ old new Hin [= <-]. apply list_elem_of_singleton in Hin as [= ->]. intros f. cbn [get_field map_get small changed].
    destruct (beq f (bs "a")); [intros _; by eexists|]. by destruct (beq f (bs "b")). }
  pose proof (batch_rebuilds_rows demo_manager ds 1 _ ∅ Hc Hok Hg) as Hb.
  destruct (foldl _ (∅, clients demo_manager) ds) as [acc cs] eqn:Ef. vm_compute in Ef. injection Ef as <- <-.
  split; by vm_compute.
Defined.

Lemma tick_amounts_to_deltas_witness :
  let ds := [row_delta "insert" "k" (Some small); row_delta "update" "k" (Some changed); row_delta "delete" "j" None] in
  let m := start_tick_flusher 50 demo_manager in
  exists kept, length kept = 2%nat /\ foldl apply_delta_row ∅ kept = foldl apply_delta_row ∅ ds.
Proof.
  cbn zeta. set (ds := [_; _; _]). set (m := start_tick_flusher 50 demo_manager).
  exists (match publish_deltas ds m with Some m' => map snd (map_to_list (pending m')) | None => [] end).
  split; [by vm_compute|]. apply (tick_amounts_to_deltas m).
  - unfold ds. rewrite !Forall_cons. split_and!; [right; by eexists|right; by eexists|by left|constructor].
  - by vm_compute.
  - by vm_compute.
  - intros He. assert (Hs : clients m !! 1 = None) by (by rewrite He). by vm_compute in Hs.
  - intros m' ->. done.
Defined.
