(* ===== verification/Ecs.v ===== *)
(** * Entities and components of the game runtime (src/runtime/ecs.rs)

    Entity handles with generations, the slot allocator, component storage as a dense vector
    under a sparse index, the world. Slots, lengths and generations are [u32] or [usize] as in
    the source; indexing out of bounds, which panics there, is [None]. *)

From S2P Require Import Prelude Util.
From Stdlib Require Import SpecFloat.

(** ** Single precision *)

Abbreviation f32 := spec_float.
Definition f32_add : f32 -> f32 -> f32 := SFadd 24 128.
Definition f32_sub : f32 -> f32 -> f32 := SFsub 24 128.
Definition f32_mul : f32 -> f32 -> f32 := SFmul 24 128.
Definition f32_div : f32 -> f32 -> f32 := SFdiv 24 128.
Definition f32_leb : f32 -> f32 -> bool := SFleb.
Definition f32_ltb : f32 -> f32 -> bool := SFltb.
Definition f32_abs (x : f32) : f32 := SFabs x.
Definition f32_of_dec (neg : bool) (m e : Z) : f32 :=
  if m =? 0 then S754_zero neg
  else if 0 <=? e then
    binary_normalize 24 128 (if neg then - (m * 10 ^ e) else m * 10 ^ e) 0 neg
  else let '(q, e', l) := SFdiv_core_binary 24 128 m 0 (10 ^ (- e)) 0 in
       binary_round_aux 24 128 neg q e' l.
Definition f32_of_int (z : Z) : f32 := f32_of_dec (z <? 0) (Z.abs z) 0.

(** ** Entities *)

Record EntityId := { e_index : Z; e_generation : Z }.

#[export] Instance entity_dec : EqDecision EntityId.
Proof. solve_decision. Defined.
#[export] Instance entity_countable : Countable EntityId.
Proof.
  refine (inj_countable (fun e => (e_index e, e_generation e))
            (fun p => Some {| e_index := p.1; e_generation := p.2 |}) _). by intros [].
Defined.

Record EntityAllocator := { generations : list Z; free_list : list Z }.

Definition allocator_new : EntityAllocator := {| generations := []; free_list := [] |}.

(** The free list is a stack, its top first. *)
Definition alloc (a : EntityAllocator) : option (EntityId * EntityAllocator) :=
  match free_list a with
  | i :: rest =>
      g ← generations a !! Z.to_nat i;
      Some ({| e_index := i; e_generation := g |}, {| generations := generations a; free_list := rest |})
  | [] =>
      Some ({| e_index := wrap_u32 (zlen (generations a)); e_generation := 0 |},
            {| generations := generations a ++ [0]; free_list := [] |})
  end.

Definition free (id : EntityId) (a : EntityAllocator) : option EntityAllocator :=
  g ← generations a !! Z.to_nat (e_index id);
  Some {| generations := <[Z.to_nat (e_index id) := wrap_u32 (g + 1)]> (generations a);
          free_list := e_index id :: free_list a |}.

Definition alive_in (a : EntityAllocator) (id : EntityId) : bool :=
  match generations a !! Z.to_nat (e_index id) with
  | Some g => (e_index id <? zlen (generations a)) && (g =? e_generation id)
  | None => false
  end.

(** ** Component maps *)

Record ComponentMap (T : Type) := { dense : list (option T); sparse : gmap EntityId Z; cm_len : Z }.
Arguments dense {T}.
Arguments sparse {T}.
Arguments cm_len {T}.

Section ComponentMap.
Context {T : Type}.
Implicit Types (m : ComponentMap T) (id : EntityId).

Definition cm_new : ComponentMap T := {| dense := []; sparse := ∅; cm_len := 0 |}.

Definition cm_insert id (component : T) m : ComponentMap T :=
  match sparse m !! id with
  | Some slot =>
      {| dense := <[Z.to_nat slot := Some component]> (dense m); sparse := sparse m; cm_len := cm_len m |}
  | None =>
      let slot := wrap_u32 (zlen (dense m)) in
      {| dense := dense m ++ [Some component]; sparse := <[id := slot]> (sparse m); cm_len := cm_len m + 1 |}
  end.

Definition cm_get id m : option T := slot ← sparse m !! id; mjoin (dense m !! Z.to_nat slot).

(** A change through [get_mut]. *)
Definition cm_modify id (f : T -> T) m : ComponentMap T :=
  match sparse m !! id with
  | Some slot =>
      {| dense := alter (fmap f) (Z.to_nat slot) (dense m); sparse := sparse m; cm_len := cm_len m |}
  | None => m
  end.

Definition cm_remove id m : option T * ComponentMap T :=
  match sparse m !! id with
  | None => (None, m)
  | Some slot =>
      let val := mjoin (dense m !! Z.to_nat slot) in
      (val, {| dense := <[Z.to_nat slot := None]> (dense m); sparse := delete id (sparse m);
               cm_len := match val with Some _ => cm_len m - 1 | None => cm_len m end |})
  end.

Definition cm_has id m : bool := bool_decide (is_Some (sparse m !! id)).
Definition cm_is_empty m : bool := cm_len m =? 0.

(** In some order. *)
Definition cm_iter m : list (EntityId * T) :=
  omap (fun ks : EntityId * Z => (fun c => (ks.1, c)) <$> mjoin (dense m !! Z.to_nat ks.2)) (map_to_list (sparse m)).

Definition cm_clear m : ComponentMap T :=
  {| dense := map (fun _ => None) (dense m); sparse := ∅; cm_len := 0 |}.
End ComponentMap.

(** ** The world *)

Record Transform := { t_x : f32; t_y : f32; t_z : f32 }.
Record Velocity := { vx : f32; vy : f32; vz : f32 }.
Record Health := { hp_current : Z; hp_max : Z; hp_alive : bool }.
Record PlayerInfo := { session_id : Z; player_name : Bytes; joined_at : Z }.
Record NpcInfo := { npc_type : Bytes; npc_level : Z }.

Record World := {
  allocator : EntityAllocator; transforms : ComponentMap Transform; velocities : ComponentMap Velocity;
  healths : ComponentMap Health; players : ComponentMap PlayerInfo; npcs : ComponentMap NpcInfo }.

Definition world_new : World :=
  {| allocator := allocator_new; transforms := cm_new; velocities := cm_new; healths := cm_new;
     players := cm_new; npcs := cm_new |}.

Definition set_allocator (a : EntityAllocator) (w : World) : World :=
  {| allocator := a; transforms := transforms w; velocities := velocities w; healths := healths w;
     players := players w; npcs := npcs w |}.
Definition set_transforms (m : ComponentMap Transform) (w : World) : World :=
  {| allocator := allocator w; transforms := m; velocities := velocities w; healths := healths w;
     players := players w; npcs := npcs w |}.
Definition set_velocities (m : ComponentMap Velocity) (w : World) : World :=
  {| allocator := allocator w; transforms := transforms w; velocities := m; healths := healths w;
     players := players w; npcs := npcs w |}.
Definition set_healths (m : ComponentMap Health) (w : World) : World :=
  {| allocator := allocator w; transforms := transforms w; velocities := velocities w; healths := m;
     players := players w; npcs := npcs w |}.
Definition set_players (m : ComponentMap PlayerInfo) (w : World) : World :=
  {| allocator := allocator w; transforms := transforms w; velocities := velocities w; healths := healths w;
     players := m; npcs := npcs w |}.
Definition set_npcs (m : ComponentMap NpcInfo) (w : World) : World :=
  {| allocator := allocator w; transforms := transforms w; velocities := velocities w; healths := healths w;
     players := players w; npcs := m |}.

Definition spawn (w : World) : option (EntityId * World) :=
  '(id, a) ← alloc (allocator w); Some (id, set_allocator a w).

Definition despawn (id : EntityId) (w : World) : option World :=
  let w := {| allocator := allocator w; transforms := snd (cm_remove id (transforms w));
              velocities := snd (cm_remove id (velocities w)); healths := snd (cm_remove id (healths w));
              players := snd (cm_remove id (players w)); npcs := snd (cm_remove id (npcs w)) |} in
  a ← free id (allocator w); Some (set_allocator a w).

Definition is_alive (w : World) (id : EntityId) : bool := alive_in (allocator w) id.

(** The subtraction wraps in a release build. *)
Definition entity_count (w : World) : Z :=
  wrap_u64 (zlen (generations (allocator w)) - zlen (free_list (allocator w))).

Definition world_clear (w : World) : World :=
  {| allocator := allocator_new; transforms := cm_clear (transforms w); velocities := cm_clear (velocities w);
     healths := cm_clear (healths w); players := cm_clear (players w); npcs := cm_clear (npcs w) |}.

(** ** Systems *)

Abbreviation System := (World -> Z -> World).

Definition run_all (systems : list System) (w : World) (tick : Z) : World :=
  foldl (fun w s => s w tick) w systems.

(** ** Entities and components: handles are never reused, storage is a map

    Component storage answers as a finite map does; a spawned handle has never been given out
    before, and a despawned one stays dead. Both hold for the first 2^32 operations, after
    which slots and generations wrap. *)


Section Component.
Context {T : Type}.
Implicit Types (m : ComponentMap T) (id : EntityId).

(** ** The map a component storage stands for *)

Definition contents m : gmap EntityId T := omap (fun slot => mjoin (dense m !! Z.to_nat slot)) (sparse m).

Definition cm_ok m : Prop :=
  (forall id slot, sparse m !! id = Some slot -> 0 <= slot /\ exists c, dense m !! Z.to_nat slot = Some (Some c)) /\
  (forall id id' slot, sparse m !! id = Some slot -> sparse m !! id' = Some slot -> id = id') /\
  cm_len m = Z.of_nat (size (sparse m)).

Lemma contents_lookup m id : contents m !! id = cm_get id m.
Proof. unfold contents, cm_get. rewrite lookup_omap. by destruct (sparse m !! id). Qed.

Lemma contents_none m id : cm_ok m -> contents m !! id = None <-> sparse m !! id = None.
Proof.
  intros (Hs & _). rewrite contents_lookup. unfold cm_get. destruct (sparse m !! id) as [slot|] eqn:E; [|done].
  apply Hs in E as (_ & c & Hc). cbn. by rewrite Hc.
Qed.

Lemma contents_size m : cm_ok m -> size (contents m) = size (sparse m).
Proof.
  intros Hm. rewrite <- !size_dom. f_equal. apply set_eq. intros id. rewrite !elem_of_dom, <- !not_eq_None_Some.
  by rewrite contents_none.
Qed.

Lemma cm_new_ok : cm_ok (cm_new : ComponentMap T) /\ contents (cm_new : ComponentMap T) = ∅.
Proof.
  split; [|by apply map_eq; intros id; rewrite contents_lookup].
  split; [|split]; [by intros id slot; cbn; rewrite lookup_empty..|done].
Qed.

Lemma cm_insert_ok id c m : cm_ok m -> zlen (dense m) < 2 ^ 32 ->
  cm_ok (cm_insert id c m) /\ contents (cm_insert id c m) = <[id := c]> (contents m) /\
  zlen (dense (cm_insert id c m)) <= zlen (dense m) + 1.
Proof.
  intros (Hs & Hinj & Hl) Hlen. unfold cm_insert. destruct (sparse m !! id) as [slot|] eqn:E.
  - destruct (Hs _ _ E) as (H0 & c0 & Hc0). pose proof (lookup_lt_Some _ _ _ Hc0) as Hlt.
    assert (Hget : forall id' slot', sparse m !! id' = Some slot' -> id' <> id ->
      <[Z.to_nat slot:=Some c]> (dense m) !! Z.to_nat slot' = dense m !! Z.to_nat slot').
    { intros id' slot' E' Hne. apply list_lookup_insert_ne. intros Heq. apply Hne.
      destruct (Hs _ _ E') as (? & _). apply (Hinj _ _ slot'); [done|]. rewrite E. f_equal. lia. }
    split; [split; [|split]|split].
    + intros id' slot' E'. destruct (Hs _ _ E') as (? & c' & Hc'). split; [done|]. cbn in *.
      destruct (decide (id' = id)) as [->|Hne].
      * rewrite E in E'. injection E' as <-. exists c. by rewrite list_lookup_insert_eq.
      * exists c'. by rewrite (Hget id').
    + exact Hinj.
    + exact Hl.
    + apply map_eq. intros id'. rewrite contents_lookup. unfold cm_get. cbn.
      destruct (decide (id' = id)) as [->|Hne].
      * rewrite E, lookup_insert_eq. cbn. by rewrite list_lookup_insert_eq.
      * rewrite lookup_insert_ne, contents_lookup by done. unfold cm_get.
        destruct (sparse m !! id') as [slot'|] eqn:E'; [|done]. cbn. by rewrite (Hget id').
    + cbn. rewrite length_insert. lia.
  - assert (Hw : wrap_u32 (zlen (dense m)) = zlen (dense m)) by (apply Z.mod_small; lia). rewrite Hw.
    assert (Hold : forall id' slot', sparse m !! id' = Some slot' -> slot' < zlen (dense m) /\
      (dense m ++ [Some c]) !! Z.to_nat slot' = dense m !! Z.to_nat slot').
    { intros id' slot' E'. destruct (Hs _ _ E') as (? & c' & Hc'). apply lookup_lt_Some in Hc' as Hlt.
      split; [lia|]. by apply lookup_app_l. }
    assert (Hnew : (dense m ++ [Some c]) !! Z.to_nat (zlen (dense m)) = Some (Some c)).
    { rewrite Nat2Z.id. by rewrite lookup_app_r, Nat.sub_diag by lia. }
    split; [split; [|split]|split].
    + intros id' slot'. cbn. destruct (decide (id' = id)) as [->|Hne].
      * rewrite lookup_insert_eq. intros [= <-]. split; [lia|]. by exists c.
      * rewrite lookup_insert_ne by done. intros E'. destruct (Hs _ _ E') as (? & c' & Hc').
        destruct (Hold _ _ E') as [_ ->]. eauto.
    + intros id1 id2 slot'. cbn. destruct (decide (id1 = id)) as [->|H1], (decide (id2 = id)) as [->|H2];
        rewrite ?lookup_insert_eq, ?lookup_insert_ne by done; [done|..].
      * intros [= <-] [? _]%Hold. lia.
      * intros [? _]%Hold [= <-]. lia.
      * apply Hinj.
    + cbn. rewrite map_size_insert_None by done. lia.
    + apply map_eq. intros id'. rewrite contents_lookup. unfold cm_get. cbn.
      destruct (decide (id' = id)) as [->|Hne].
      * rewrite !lookup_insert_eq. cbn. by rewrite Hnew.
      * rewrite !lookup_insert_ne, contents_lookup by done. unfold cm_get.
        destruct (sparse m !! id') as [slot'|] eqn:E'; [|done]. cbn. by destruct (Hold _ _ E') as [_ ->].
    + cbn. rewrite length_app. cbn. lia.
Qed.

Lemma cm_remove_ok id m : cm_ok m ->
  let '(r, m') := cm_remove id m in
  cm_ok m' /\ r = contents m !! id /\ contents m' = delete id (contents m) /\ length (dense m') = length (dense m).
Proof.
  intros Hm. pose proof Hm as (Hs & Hinj & Hl). unfold cm_remove. destruct (sparse m !! id) as [slot|] eqn:E.
  2: { split; [done|]. apply (contents_none m id Hm) in E as En. rewrite En. split; [done|]. split; [|done].
       by rewrite delete_id. }
  destruct (Hs _ _ E) as (H0 & c0 & Hc0). pose proof (lookup_lt_Some _ _ _ Hc0) as Hlt.
  assert (Hget : forall id' slot', sparse m !! id' = Some slot' -> id' <> id ->
    <[Z.to_nat slot:=None]> (dense m) !! Z.to_nat slot' = dense m !! Z.to_nat slot').
  { intros id' slot' E' Hne. apply list_lookup_insert_ne. intros Heq. apply Hne.
    destruct (Hs _ _ E') as (? & _). apply (Hinj _ _ slot'); [done|]. rewrite E. f_equal. lia. }
  rewrite Hc0. cbn [mjoin option_join]. split; [split; [|split]|split; [|split]].
  - intros id' slot'. cbn. destruct (decide (id' = id)) as [->|Hne]; [by rewrite lookup_delete_eq|].
    rewrite lookup_delete_ne by done. intros E'. destruct (Hs _ _ E') as (? & c' & Hc'). split; [done|].
    exists c'. by rewrite (Hget id').
  - intros id1 id2 slot'. cbn. rewrite !lookup_delete_Some. intros [_ ?] [_ ?]. by eapply Hinj.
  - cbn. rewrite map_size_delete_Some by (by eexists). assert (size (sparse m) <> 0%nat) by (apply map_size_ne_0_lookup_2 with id; by eexists). lia.
  - rewrite contents_lookup. unfold cm_get. rewrite E. cbn. by rewrite Hc0.
  - apply map_eq. intros id'. rewrite contents_lookup. unfold cm_get. cbn.
    destruct (decide (id' = id)) as [->|Hne]; [by rewrite !lookup_delete_eq|].
    rewrite !lookup_delete_ne, contents_lookup by done. unfold cm_get.
    destruct (sparse m !! id') as [slot'|] eqn:E'; [|done]. cbn. by rewrite (Hget id').
  - cbn. apply length_insert.
Qed.

Lemma cm_modify_ok id (f : T -> T) m : cm_ok m ->
  cm_ok (cm_modify id f m) /\ contents (cm_modify id f m) = alter f id (contents m) /\
  length (dense (cm_modify id f m)) = length (dense m).
Proof.
  intros Hm. pose proof Hm as (Hs & Hinj & Hl). unfold cm_modify. destruct (sparse m !! id) as [slot|] eqn:E.
  2: { split; [done|]. split; [|done]. apply (contents_none m id Hm) in E. apply map_eq. intros id'.
       destruct (decide (id = id')) as [<-|]; [by rewrite lookup_alter_eq, E|by rewrite lookup_alter_ne]. }
  destruct (Hs _ _ E) as (H0 & c0 & Hc0).
  assert (Hget : forall id' slot', sparse m !! id' = Some slot' -> id' <> id ->
    alter (fmap f) (Z.to_nat slot) (dense m) !! Z.to_nat slot' = dense m !! Z.to_nat slot').
  { intros id' slot' E' Hne. apply list_lookup_alter_ne. intros Heq. apply Hne.
    destruct (Hs _ _ E') as (? & _). apply (Hinj _ _ slot'); [done|]. rewrite E. f_equal. lia. }
  split; [split; [|done]|split].
  - intros id' slot' E'. destruct (Hs _ _ E') as (? & c' & Hc'). split; [done|]. cbn in *.
    destruct (decide (id' = id)) as [->|Hne].
    + rewrite E in E'. injection E' as <-. exists (f c0). by rewrite list_lookup_alter_eq, Hc0.
    + exists c'. by rewrite (Hget id').
  - apply map_eq. intros id'. rewrite contents_lookup. unfold cm_get. cbn.
    destruct (decide (id' = id)) as [->|Hne].
    + rewrite lookup_alter_eq, contents_lookup. unfold cm_get. rewrite E. cbn. by rewrite list_lookup_alter_eq, Hc0.
    + rewrite lookup_alter_ne, contents_lookup by done. unfold cm_get.
      destruct (sparse m !! id') as [slot'|] eqn:E'; [|done]. cbn. by rewrite (Hget id').
  - cbn. apply length_alter.
Qed.

Lemma cm_clear_ok m : cm_ok (cm_clear m) /\ contents (cm_clear m) = ∅ /\ length (dense (cm_clear m)) = length (dense m).
Proof.
  split; [|split; [by apply map_eq; intros id; rewrite contents_lookup|apply length_map]].
  split; [|split]; [by intros id slot; cbn; rewrite lookup_empty..|done].
Qed.

(** ** Storage refines a finite map *)

(** The calls a client makes, and what they answer. *)
Inductive CmOp : Type :=
| CmInsert (id : EntityId) (c : T)
| CmRemove (id : EntityId)
| CmModify (id : EntityId) (f : T -> T)
| CmGet (id : EntityId)
| CmHas (id : EntityId)
| CmLen
| CmClear.

Inductive CmAnswer : Type :=
| NoAnswer
| OneAnswer (r : option T)
| BoolAnswer (b : bool)
| LenAnswer (n : Z).

Definition cm_call (o : CmOp) m : CmAnswer * ComponentMap T :=
  match o with
  | CmInsert id c => (NoAnswer, cm_insert id c m)
  | CmRemove id => let '(r, m) := cm_remove id m in (OneAnswer r, m)
  | CmModify id f => (NoAnswer, cm_modify id f m)
  | CmGet id => (OneAnswer (cm_get id m), m)
  | CmHas id => (BoolAnswer (cm_has id m), m)
  | CmLen => (LenAnswer (cm_len m), m)
  | CmClear => (NoAnswer, cm_clear m)
  end.

Definition map_call (o : CmOp) (g : gmap EntityId T) : CmAnswer * gmap EntityId T :=
  match o with
  | CmInsert id c => (NoAnswer, <[id := c]> g)
  | CmRemove id => (OneAnswer (g !! id), delete id g)
  | CmModify id f => (NoAnswer, alter f id g)
  | CmGet id => (OneAnswer (g !! id), g)
  | CmHas id => (BoolAnswer (bool_decide (is_Some (g !! id))), g)
  | CmLen => (LenAnswer (Z.of_nat (size g)), g)
  | CmClear => (NoAnswer, ∅)
  end.

Fixpoint calls {S} (call : CmOp -> S -> CmAnswer * S) (ops : list CmOp) (s : S) : list CmAnswer * S :=
  match ops with
  | [] => ([], s)
  | o :: ops' => let '(a, s) := call o s in let '(l, s) := calls call ops' s in (a :: l, s)
  end.

Lemma cm_call_refines o m n : cm_ok m -> zlen (dense m) <= n -> n < 2 ^ 32 ->
  let '(a, m') := cm_call o m in
  cm_ok m' /\ zlen (dense m') <= n + 1 /\ map_call o (contents m) = (a, contents m').
Proof.
  intros Hm Hn Hb. destruct o as [id c|id|id f|id|id| |]; cbn [cm_call map_call].
  - destruct (cm_insert_ok id c m) as (? & -> & ?); [done|lia|]. split; [done|]. split; [lia|done].
  - pose proof (cm_remove_ok id m Hm) as Hr. destruct (cm_remove id m) as [r m']. destruct Hr as (? & -> & -> & ->).
    split; [done|]. split; [lia|done].
  - destruct (cm_modify_ok id f m Hm) as (? & -> & ->). split; [done|]. split; [lia|done].
  - rewrite contents_lookup. split; [done|]. split; [lia|done].
  - split; [done|]. split; [lia|]. do 2 f_equal. apply bool_decide_ext.
    rewrite <- !not_eq_None_Some. by rewrite contents_none.
  - split; [done|]. split; [lia|]. rewrite contents_size by done. destruct Hm as (_ & _ & ->). done.
  - destruct (cm_clear_ok m) as (? & -> & ->). split; [done|]. split; [lia|done].
Qed.

Lemma calls_refine ops : forall m n, cm_ok m -> zlen (dense m) <= n -> n + zlen ops <= 2 ^ 32 ->
  let '(l, m') := calls cm_call ops m in
  cm_ok m' /\ calls map_call ops (contents m) = (l, contents m').
Proof.
  induction ops as [|o ops IH]; intros m n Hm Hn Hb; [done|]. cbn [calls]. cbn [length] in Hb.
  pose proof (cm_call_refines o m n Hm Hn ltac:(lia)) as Ho. destruct (cm_call o m) as [a m1].
  destruct Ho as (Hm1 & Hn1 & ->). specialize (IH m1 (n + 1) Hm1 Hn1 ltac:(lia)).
  destruct (calls cm_call ops m1) as [l m']. destruct IH as [Hm' ->]. done.
Qed.

Lemma cm_iter_contents m : cm_ok m -> map_to_list (contents m) ≡ₚ cm_iter m.
Proof.
  intros (Hs & _). apply NoDup_Permutation.
  - apply NoDup_map_to_list.
  - unfold cm_iter. apply NoDup_fmap_1 with fst.
    assert (E : forall l, (forall ks, ks ∈ l -> sparse m !! ks.1 = Some ks.2) ->
      fst <$> omap (fun ks : EntityId * Z => (fun c => (ks.1, c)) <$> mjoin (dense m !! Z.to_nat ks.2)) l = l.*1).
    { induction l as [|[id slot] l IH]; intros Hl; [done|]. cbn.
      destruct (Hs id slot) as (_ & c & Hc); [by apply (Hl (id, slot)); left|]. rewrite Hc. cbn.
      f_equal. apply IH. intros ks Hks. apply Hl. by right. }
    rewrite E; [apply NoDup_fst_map_to_list|]. intros [id slot] Hks. by apply elem_of_map_to_list in Hks.
  - intros [id c]. rewrite elem_of_map_to_list, contents_lookup. unfold cm_iter. rewrite list_elem_of_omap. split.
    + unfold cm_get. destruct (sparse m !! id) as [slot|] eqn:E; [|done]. cbn. intros Hc.
      exists (id, slot). split; [by apply elem_of_map_to_list|]. cbn. by rewrite Hc.
    + intros ([id' slot] & Hks%elem_of_map_to_list & Hc). cbn in Hc.
      destruct (mjoin (dense m !! Z.to_nat slot)) as [c'|] eqn:Ec; [|done]. cbn in Hc. injection Hc as -> ->.
      unfold cm_get. by rewrite Hks.
Qed.

(** Component storage is a finite map: however it has been used, up to 2^32 calls, every
    call answers what a map of the components by entity would, and iterating lists exactly
    the bindings of that map. *)
Theorem component_map_refines ops : zlen ops <= 2 ^ 32 ->
  let '(l, m) := calls cm_call ops cm_new in
  let '(l', g) := calls map_call ops ∅ in
  l = l' /\ cm_iter m ≡ₚ map_to_list g /\ forall id, cm_get id m = g !! id.
Proof.
  intros Hb. destruct cm_new_ok as [Hm Hc]. pose proof (calls_refine ops cm_new 0 Hm ltac:(cbn; lia) ltac:(lia)) as Hr.
  destruct (calls cm_call ops cm_new) as [l m]. rewrite Hc in Hr. destruct Hr as [Hok ->].
  split; [done|]. split; [symmetry; by apply cm_iter_contents|]. intros id. by rewrite contents_lookup.
Qed.
End Component.

Arguments CmOp : clear implicits.

(** ** Handles *)

(** A world after [n] spawns and despawns, with the entities alive and those despawned; no
    entity is despawned unless it is alive. *)
Inductive life : World -> gset EntityId -> gset EntityId -> Z -> Prop :=
| life_new : life world_new ∅ ∅ 0
| life_spawn w live dead n id w' :
    life w live dead n -> spawn w = Some (id, w') -> life w' ({[id]} ∪ live) dead (n + 1)
| life_despawn w live dead n id w' :
    life w live dead n -> id ∈ live -> despawn id w = Some w' -> life w' (live ∖ {[id]}) ({[id]} ∪ dead) (n + 1)
| life_change w live dead n w' :
    life w live dead n -> allocator w' = allocator w -> life w' live dead n.

Definition slot_of (gens : list Z) (id : EntityId) : option Z := gens !! Z.to_nat (e_index id).

Definition alloc_ok (a : EntityAllocator) (live dead : gset EntityId) (n : Z) : Prop :=
  zlen (generations a) <= n /\ (forall i g, generations a !! i = Some g -> 0 <= g <= n) /\
  NoDup (free_list a) /\ (forall i, i ∈ free_list a -> 0 <= i < zlen (generations a)) /\
  (forall id, id ∈ live <-> 0 <= e_index id /\ slot_of (generations a) id = Some (e_generation id) /\
                            e_index id ∉ free_list a) /\
  (forall id, id ∈ dead -> 0 <= e_index id /\ exists g, slot_of (generations a) id = Some g /\ e_generation id < g) /\
  Z.of_nat (size live) + zlen (free_list a) = zlen (generations a).

Lemma alloc_step a live dead n id a' : alloc_ok a live dead n -> n < 2 ^ 32 -> alloc a = Some (id, a') ->
  alloc_ok a' ({[id]} ∪ live) dead (n + 1) /\ (id ∉ live) /\ (id ∉ dead).
Proof.
  intros (Hlen & Hg & Hnd & Hfr & Hlive & Hdead & Hsz) Hn. unfold alloc.
  destruct (free_list a) as [|i rest] eqn:Ef.
  - intros [= <- <-]. set (len := zlen (generations a)).
    assert (Hw : wrap_u32 len = len) by (apply Z.mod_small; lia). rewrite Hw.
    set (id := {| e_index := len; e_generation := 0 |}).
    assert (Hnl : id ∉ live).
    { intros (_ & Hs & _)%Hlive. apply lookup_lt_Some in Hs. cbn in Hs. lia. }
    assert (Hndd : id ∉ dead).
    { intros (_ & g & Hs & _)%Hdead. apply lookup_lt_Some in Hs. cbn in Hs. lia. }
    split; [|done]. split; [cbn; rewrite length_app; cbn; lia|]. split.
    { intros j g. cbn. intros [Hj|[_ Hj]]%lookup_app_Some; [apply Hg in Hj; lia|].
      apply list_lookup_singleton_Some in Hj as [_ <-]. lia. }
    split; [constructor|]. split; [by intros j ?%elem_of_nil|]. split; [|split].
    + intros id'. cbn. rewrite elem_of_union, elem_of_singleton. unfold slot_of. split.
      * intros [->|Hl]; [cbn|].
        { split; [lia|]. split; [|apply not_elem_of_nil]. unfold len. rewrite Nat2Z.id.
          by rewrite lookup_app_r, Nat.sub_diag by lia. }
        apply Hlive in Hl as (H0 & Hs & _). split; [done|]. split; [by apply lookup_app_l_Some|apply not_elem_of_nil].
      * intros (H0 & Hs & _). apply lookup_app_Some in Hs as [Hs|[Hge Hs]].
        { right. apply Hlive. split; [done|]. split; [done|apply not_elem_of_nil]. }
        left. apply list_lookup_singleton_Some in Hs as [Hi He]. destruct id' as [ix gx]. cbn in *.
        unfold id. f_equal; [lia|done].
    + intros id' (H0 & g & Hs & Hlt)%Hdead. split; [done|]. exists g. split; [|done]. by apply lookup_app_l_Some.
    + cbn. rewrite size_union, size_singleton by set_solver. rewrite length_app. cbn in *. lia.
  - destruct (generations a !! Z.to_nat i) as [g|] eqn:Eg; cbn; [|done]. intros [= <- <-].
    set (id := {| e_index := i; e_generation := g |}).
    assert (Hi : 0 <= i < zlen (generations a)) by (apply Hfr; by left).
    assert (Hnl : id ∉ live).
    { intros (_ & _ & Hs)%Hlive. apply Hs. cbn. by left. }
    assert (Hndd : id ∉ dead).
    { intros (_ & g' & Hs & Hlt)%Hdead. unfold slot_of in Hs. cbn in *. rewrite Eg in Hs. injection Hs as <-. lia. }
    apply NoDup_cons in Hnd as [Hnin Hnd].
    split; [|done]. split; [cbn; lia|]. split; [intros j g' Hj; apply Hg in Hj; lia|].
    split; [done|]. split; [intros j Hj; apply Hfr; by right|]. split; [|split].
    + intros id'. cbn. rewrite elem_of_union, elem_of_singleton, Hlive. split.
      * intros [->|(H0 & Hs & Hnf)]; [cbn; split_and!; [lia|done|done]|]. split; [done|]. split; [done|]. intros Hin. apply Hnf. by right.
      * intros (H0 & Hs & Hnf). destruct (decide (e_index id' = i)) as [Hix|Hix].
        { left. destruct id' as [ix gx]. cbn in *. subst ix. unfold slot_of in Hs. cbn in Hs. rewrite Eg in Hs.
          by injection Hs as <-. }
        right. split; [done|]. split; [done|]. by intros [?|?]%elem_of_cons.
    + done.
    + cbn in *. rewrite size_union, size_singleton by set_solver. lia.
Qed.

Lemma free_step a live dead n id a' : alloc_ok a live dead n -> n + 1 < 2 ^ 32 -> id ∈ live -> free id a = Some a' ->
  alloc_ok a' (live ∖ {[id]}) ({[id]} ∪ dead) (n + 1).
Proof.
  intros (Hlen & Hg & Hnd & Hfr & Hlive & Hdead & Hsz) Hn Hin. pose proof Hin as (H0 & Hs & Hnf)%Hlive.
  unfold free. unfold slot_of in Hs. rewrite Hs. cbn [mbind option_bind]. intros [= <-].
  assert (Hgr : 0 <= e_generation id <= n) by by eapply Hg.
  assert (Hw : wrap_u32 (e_generation id + 1) = e_generation id + 1) by (apply Z.mod_small; lia). rewrite Hw.
  pose proof (lookup_lt_Some _ _ _ Hs) as Hlt.
  assert (Hother : forall id', 0 <= e_index id' -> e_index id' <> e_index id ->
    <[Z.to_nat (e_index id):=e_generation id + 1]> (generations a) !! Z.to_nat (e_index id') =
    generations a !! Z.to_nat (e_index id')).
  { intros id' Hi Hne. apply list_lookup_insert_ne. lia. }
  split; [cbn; rewrite length_insert; lia|]. split.
  { intros j g. cbn. intros [(<- & <- & _)|[_ Hj]]%list_lookup_insert_Some; [lia|]. apply Hg in Hj. lia. }
  split; [by constructor|]. split.
  { intros j. cbn. rewrite length_insert. intros [->|Hj]%elem_of_cons; [lia|by apply Hfr]. }
  split; [|split].
  - intros id'. cbn. rewrite elem_of_difference, elem_of_singleton, Hlive. unfold slot_of. split.
    + intros ((Hi & Hs' & Hnf') & Hne).
      assert (Hix : e_index id' <> e_index id).
      { intros E. apply Hne. destruct id as [ix gx], id' as [ix' gx']. cbn in *. subst ix'. rewrite Hs in Hs'.
        by injection Hs' as <-. }
      split; [done|]. split; [by rewrite Hother|]. by intros [?|?]%elem_of_cons.
    + intros (Hi & Hs' & Hnf'). apply not_elem_of_cons in Hnf' as [Hix Hnf'].
      split; [|by intros ->]. split; [done|]. split; [by rewrite Hother in Hs'|done].
  - intros id' [->%elem_of_singleton|Hd]%elem_of_union.
    + split; [done|]. exists (e_generation id + 1). cbn. unfold slot_of. split; [|lia]. by apply list_lookup_insert_eq.
    + apply Hdead in Hd as (Hi & g & Hs' & Hg'). split; [done|]. unfold slot_of in *. cbn.
      destruct (decide (e_index id' = e_index id)) as [E|E].
      * rewrite E in Hs' |- *. rewrite Hs in Hs'. injection Hs' as <-. exists (e_generation id + 1).
        split; [by apply list_lookup_insert_eq|lia].
      * exists g. by rewrite Hother.
  - cbn. rewrite size_difference, size_singleton, length_insert by set_solver.
    assert (size live <> 0%nat) by (apply size_non_empty_iff; set_solver). lia.
Qed.

Lemma life_ok w live dead n : life w live dead n -> n < 2 ^ 32 -> alloc_ok (allocator w) live dead n.
Proof.
  induction 1 as [|w live dead n id w' _ IH Hsp|w live dead n id w' _ IH Hin Hd|w live dead n w' _ IH E]; intros Hn.
  - split; [done|]. split; [by intros [|] g|]. split; [constructor|].
    split; [by intros i ?%elem_of_nil|]. split; [|split; [by intros id ?%elem_of_empty|done]].
    intros id. split; [by intros ?%elem_of_empty|]. intros (_ & Hs & _). unfold slot_of in Hs.
    by destruct (Z.to_nat (e_index id)).
  - unfold spawn in Hsp. destruct (alloc (allocator w)) as [[id' a]|] eqn:E; [|done]. cbn in Hsp.
    injection Hsp as <- <-. eapply alloc_step; [apply IH; lia|lia|exact E].
  - unfold despawn in Hd. cbn [allocator] in Hd. destruct (free id (allocator w)) as [a|] eqn:E; [|done].
    cbn in Hd. injection Hd as <-. eapply free_step; [apply IH; lia|lia|exact Hin|exact E].
  - rewrite E. by apply IH.
Qed.

Lemma slot_alive w id g : 0 <= e_index id -> slot_of (generations (allocator w)) id = Some g ->
  is_alive w id = (g =? e_generation id).
Proof.
  intros H0 Hs. unfold is_alive, alive_in. unfold slot_of in Hs. rewrite Hs.
  apply lookup_lt_Some in Hs. rewrite zlt_true by lia. done.
Qed.

Lemma living_alive w live dead n id : life w live dead n -> n < 2 ^ 32 -> id ∈ live ->
  is_alive w id = true /\ is_Some (despawn id w).
Proof.
  intros Hl Hn Hin. pose proof (life_ok _ _ _ _ Hl Hn) as (_ & _ & _ & _ & Hlive & _).
  apply Hlive in Hin as (H0 & Hs & _). rewrite (slot_alive _ _ _ H0 Hs), Z.eqb_refl. split; [done|].
  unfold despawn, free. cbn [allocator]. unfold slot_of in Hs. rewrite Hs. by eexists.
Qed.

Lemma dead_is_dead w live dead n id : life w live dead n -> n < 2 ^ 32 -> id ∈ dead -> is_alive w id = false.
Proof.
  intros Hl Hn Hd. pose proof (life_ok _ _ _ _ Hl Hn) as (_ & _ & _ & _ & _ & Hdead & _).
  apply Hdead in Hd as (H0 & g & Hs & Hlt). rewrite (slot_alive _ _ _ H0 Hs). apply zeq_false. lia.
Qed.

Lemma count_living w live dead n : life w live dead n -> n < 2 ^ 32 -> entity_count w = Z.of_nat (size live).
Proof.
  intros Hl Hn. pose proof (life_ok _ _ _ _ Hl Hn) as (Hlen & _ & _ & _ & _ & _ & Hsz).
  unfold entity_count, wrap_u64. rewrite Z.mod_small; lia.
Qed.

(** C27: a handle names one entity for ever: in a world after fewer than 2^32 - 1 spawns, despawns
    of living entities by the handles they were given, and changes of components, spawning
    succeeds and gives a handle that is neither alive nor has ever been despawned; a handle given
    out is alive until it is despawned and dead from then on; the entity count is the number of
    living entities. (Despawning a handle twice, or one that was never given out, lets two
    entities share a handle: forged_handle_aliases.) *)
Theorem handles_are_fresh w live dead n : life w live dead n -> n + 1 < 2 ^ 32 ->
  (exists id w', spawn w = Some (id, w') /\ (id ∉ live) /\ (id ∉ dead) /\ life w' ({[id]} ∪ live) dead (n + 1)) /\
  (forall id, id ∈ live -> is_alive w id = true /\ is_Some (despawn id w)) /\
  (forall id, id ∈ dead -> is_alive w id = false) /\
  entity_count w = Z.of_nat (size live).
Proof.
  intros Hl Hn. pose proof (life_ok _ _ _ _ Hl ltac:(lia)) as Ha.
  split; [|split; [|split; [|by apply (count_living _ _ _ _ Hl); lia]]].
  - assert (Hs : exists id a, alloc (allocator w) = Some (id, a)).
    { unfold alloc. destruct (free_list (allocator w)) as [|i rest] eqn:Ef; [by do 2 eexists|].
      pose proof Ha as (_ & _ & _ & Hfr & _). rewrite Ef in Hfr.
      assert (Hi : 0 <= i < zlen (generations (allocator w))) by (apply Hfr; by left).
      destruct (lookup_lt_is_Some_2 (generations (allocator w)) (Z.to_nat i)) as [g Eg]; [lia|].
      rewrite Eg. by do 2 eexists. }
    destruct Hs as (id & a & Es). exists id, (set_allocator a w).
    assert (Hsp : spawn w = Some (id, set_allocator a w)) by (unfold spawn; by rewrite Es).
    destruct (alloc_step _ _ _ _ _ _ Ha ltac:(lia) Es) as (_ & ? & ?). split_and!; [done..|]. by eapply life_spawn.
  - intros id Hin. by apply (living_alive _ _ _ _ _ Hl); [lia|].
  - intros id Hin. by apply (dead_is_dead _ _ _ _ _ Hl); [lia|].
Qed.

(** ** On a concrete world *)

Definition demo_id (i g : Z) : EntityId := {| e_index := i; e_generation := g |}.

Lemma component_map_refines_witness :
  let ops := [CmInsert (demo_id 0 0) 5; CmInsert (demo_id 1 0) 6; CmRemove (demo_id 0 0); CmInsert (demo_id 0 1) 7; CmLen] in
  zlen ops <= 2 ^ 32 /\ fst (calls cm_call ops cm_new) = fst (calls map_call ops ∅) /\
  fst (calls cm_call ops cm_new) = [NoAnswer; NoAnswer; OneAnswer (Some 5); NoAnswer; LenAnswer 2].
Proof.
  set (ops := [CmInsert _ _; _; _; _; _]). assert (Hb : zlen ops <= 2 ^ 32) by done.
  split; [exact Hb|]. pose proof (component_map_refines ops Hb) as Ht.
  destruct (calls cm_call ops cm_new) as [l m] eqn:E1, (calls map_call ops ∅) as [l' g] eqn:E2.
  destruct Ht as (Hl & _). split; [exact Hl|]. cbn [fst].
  change l with (fst (l, m)). rewrite <- E1. by vm_compute.
Defined.

Lemma handles_are_fresh_witness :
  exists w live dead n, life w live dead n /\ n + 1 < 2 ^ 32 /\ size dead = 1%nat /\
    exists id w', spawn w = Some (id, w') /\ id ∉ dead.
Proof.
  set (a := demo_id 0 0).
  assert (H1' : life world_new ∅ ∅ 0) by constructor.
  destruct (spawn world_new) as [[i w1]|] eqn:E1; [|discriminate E1].
  assert (Hi : i = a) by (vm_compute in E1; by injection E1 as <- <-). subst i.
  pose proof (life_spawn _ _ _ _ _ _ H1' E1) as H2'.
  destruct (despawn a w1) as [w2|] eqn:E2.
  2: { exfalso. vm_compute in E1. injection E1 as <-. vm_compute in E2. discriminate E2. }
  pose proof (life_despawn _ _ _ _ a _ H2' ltac:(set_solver) E2) as H3'.
  exists w2, (({[a]} ∪ ∅) ∖ {[a]}), ({[a]} ∪ ∅), (0 + 1 + 1). split; [exact H3'|]. split; [lia|]. split; [done|].
  destruct (handles_are_fresh _ _ _ _ H3' ltac:(lia)) as ((id & w' & Hs & _ & Hd & _) & _).
  exists id, w'. split; [exact Hs|exact Hd].
Defined.

(** ** Handles that were not given out *)

(** A freed slot counts as alive under its next generation: a handle that nobody was given can
    be despawned, the slot is free twice, and the next two spawns give one handle. *)
Lemma forged_handle_aliases :
  (w1 ← spawn world_new; w2 ← despawn (fst w1) (snd w1);
   let forged := demo_id 0 1 in
   w3 ← despawn forged w2; p1 ← spawn w3; p2 ← spawn (snd p1);
   Some (is_alive w2 forged, fst p1, fst p2, entity_count (snd p2)))
  = Some (true, demo_id 0 2, demo_id 0 2, 1).
Proof. by vm_compute. Qed.
