(* ===== verification/Aoi.v ===== *)
(** * Areas of interest (src/runtime/aoi.rs)

    The grid of cells, radius queries, and the visible sets with their enter and exit events.
    Positions are single floats; a cell index is a saturated [i32]; sums of cell indexes wrap
    as in a release build. The order in which sets are listed is one of those the source's
    hash sets may give. *)

From S2P Require Import Prelude Util Ecs.
From Stdlib Require Import SpecFloat.

Abbreviation GridCell := (Z * Z)%type.

Definition clamp_i32 (z : Z) : Z := Z.max (- 2 ^ 31) (Z.min (2 ^ 31 - 1) z).

(** [x.floor() as i32] and [x.ceil() as i32] *)
Definition floor_i32 (x : f32) : Z :=
  match x with
  | S754_finite s m e =>
      let '(num, den) := as_fraction m e in clamp_i32 (if s then (- num) / den else num / den)
  | S754_infinity s => if s then - 2 ^ 31 else 2 ^ 31 - 1
  | _ => 0
  end.
Definition ceil_i32 (x : f32) : Z :=
  match x with
  | S754_finite s m e =>
      let '(num, den) := as_fraction m e in clamp_i32 (if s then - (num / den) else - ((- num) / den))
  | S754_infinity s => if s then - 2 ^ 31 else 2 ^ 31 - 1
  | _ => 0
  end.

(** ** The grid *)

Record SpatialGrid := {
  cell_size : f32; cells : gmap GridCell (gset EntityId); positions : gmap EntityId (f32 * f32) }.

Definition grid_new (size : f32) : SpatialGrid := {| cell_size := size; cells := ∅; positions := ∅ |}.

Definition from_pos (x y size : f32) : GridCell := (floor_i32 (f32_div x size), floor_i32 (f32_div y size)).

Definition cell_add (c : GridCell) (id : EntityId) (m : gmap GridCell (gset EntityId)) : gmap GridCell (gset EntityId) :=
  <[c := {[id]} ∪ default ∅ (m !! c)]> m.

(** An emptied cell goes. *)
Definition cell_drop (c : GridCell) (id : EntityId) (m : gmap GridCell (gset EntityId)) : gmap GridCell (gset EntityId) :=
  match m !! c with
  | None => m
  | Some s => let s := s ∖ {[id]} in if bool_decide (s = ∅) then delete c m else <[c := s]> m
  end.

Definition grid_insert (id : EntityId) (x y : f32) (g : SpatialGrid) : SpatialGrid :=
  {| cell_size := cell_size g; cells := cell_add (from_pos x y (cell_size g)) id (cells g);
     positions := <[id := (x, y)]> (positions g) |}.

Definition grid_remove (id : EntityId) (x y : f32) (g : SpatialGrid) : SpatialGrid :=
  {| cell_size := cell_size g; cells := cell_drop (from_pos x y (cell_size g)) id (cells g);
     positions := delete id (positions g) |}.

Definition grid_move (id : EntityId) (old_x old_y new_x new_y : f32) (g : SpatialGrid) : SpatialGrid :=
  let old_cell := from_pos old_x old_y (cell_size g) in
  let new_cell := from_pos new_x new_y (cell_size g) in
  {| cell_size := cell_size g;
     cells := if bool_decide (old_cell = new_cell) then cells g
              else cell_add new_cell id (cell_drop old_cell id (cells g));
     positions := <[id := (new_x, new_y)]> (positions g) |}.

Definition sq (x : f32) : f32 := f32_mul x x.
Definition dist2 (ex ey x y : f32) : f32 := f32_add (sq (f32_sub ex x)) (sq (f32_sub ey y)).

(** [-r..=r]; in a release build the negation of the least integer is itself. *)
Definition around (r : Z) : list Z := map (fun i => wrap_i32 (- r) + Z.of_nat i) (seq 0 (Z.to_nat (r - wrap_i32 (- r) + 1))).

Definition window (center : GridCell) (r : Z) : list GridCell :=
  flat_map (fun dx => map (fun dy => (wrap_i32 (center.1 + dx), wrap_i32 (center.2 + dy))) (around r)) (around r).

Definition within (g : SpatialGrid) (x y r2 : f32) (id : EntityId) : bool :=
  match positions g !! id with
  | Some (ex, ey) => f32_leb (dist2 ex ey x y) r2
  | None => false
  end.

Definition query_radius (x y radius : f32) (g : SpatialGrid) : list EntityId :=
  let center := from_pos x y (cell_size g) in
  let cell_radius := ceil_i32 (f32_div radius (cell_size g)) in
  flat_map (fun c => List.filter (within g x y (sq radius)) (elements (default ∅ (cells g !! c))))
    (window center cell_radius).

Definition query_visible (id : EntityId) (view_distance : f32) (g : SpatialGrid) : list EntityId :=
  match positions g !! id with
  | None => []
  | Some (x, y) => List.filter (fun other => bool_decide (other <> id)) (query_radius x y view_distance g)
  end.

(** ** Visible sets *)

Inductive AoiEvent : Type :=
| Enter (viewer target : EntityId)
| Exit (viewer target : EntityId).

Record AreaOfInterest := {
  grid : SpatialGrid; view_distance : f32; visible : gmap EntityId (gset EntityId) }.

Definition aoi_new (size distance : f32) : AreaOfInterest :=
  {| grid := grid_new size; view_distance := distance; visible := ∅ |}.

Definition aoi_insert (id : EntityId) (x y : f32) (a : AreaOfInterest) : AreaOfInterest :=
  {| grid := grid_insert id x y (grid a); view_distance := view_distance a; visible := visible a |}.

Definition aoi_remove (id : EntityId) (a : AreaOfInterest) : AreaOfInterest :=
  {| grid := match positions (grid a) !! id with
             | Some (x, y) => grid_remove id x y (grid a)
             | None => grid a
             end;
     view_distance := view_distance a;
     visible := (fun seen => seen ∖ {[id]}) <$> delete id (visible a) |}.

Definition aoi_move (id : EntityId) (new_x new_y : f32) (a : AreaOfInterest) : AreaOfInterest :=
  let '(old_x, old_y) := default (new_x, new_y) (positions (grid a) !! id) in
  {| grid := grid_move id old_x old_y new_x new_y (grid a); view_distance := view_distance a;
     visible := visible a |}.

(** One viewer: the events, and its new set. *)
Definition update_viewer (g : SpatialGrid) (distance : f32) (id : EntityId) (old : gset EntityId)
  : list AoiEvent * gset EntityId :=
  let visible_now : gset EntityId := list_to_set (query_visible id distance g) in
  (map (Enter id) (elements (visible_now ∖ old)) ++ map (Exit id) (elements (old ∖ visible_now)), visible_now).

Fixpoint update_loop (ids : list EntityId) (a : AreaOfInterest) (events : list AoiEvent) : list AoiEvent * AreaOfInterest :=
  match ids with
  | [] => (events, a)
  | id :: ids' =>
      let '(ev, now) := update_viewer (grid a) (view_distance a) id (default ∅ (visible a !! id)) in
      update_loop ids' {| grid := grid a; view_distance := view_distance a; visible := <[id := now]> (visible a) |}
        (events ++ ev)
  end.

Definition aoi_update (a : AreaOfInterest) : list AoiEvent * AreaOfInterest :=
  update_loop (map fst (map_to_list (positions (grid a)))) a [].

Definition visible_to (id : EntityId) (a : AreaOfInterest) : list EntityId := elements (default ∅ (visible a !! id)).

(** ** Areas of interest: queries are exact and events tell everything

    The cells of the grid agree with the positions, so a query finds exactly the entities
    within reach of its cells and its radius, each once; and the events of an update are the
    difference between what each viewer saw and what is now around him. *)


(** ** The grid *)

Definition at_pos (g : SpatialGrid) (id : EntityId) (p : f32 * f32) : Prop := positions g !! id = Some p.

Definition grid_ok (g : SpatialGrid) : Prop := forall c id,
  id ∈ default ∅ (cells g !! c) <-> exists p, at_pos g id p /\ from_pos p.1 p.2 (cell_size g) = c.

Lemma cell_add_elem c id m c' id' :
  id' ∈ default ∅ (cell_add c id m !! c') <-> (c' = c /\ id' = id) \/ id' ∈ default ∅ (m !! c').
Proof.
  unfold cell_add. destruct (decide (c' = c)) as [->|Hne].
  - rewrite lookup_insert_eq. cbn. set_solver.
  - rewrite lookup_insert_ne by done. naive_solver.
Qed.

Lemma cell_drop_elem c id m c' id' :
  id' ∈ default ∅ (cell_drop c id m !! c') <-> id' ∈ default ∅ (m !! c') /\ ~ (c' = c /\ id' = id).
Proof.
  unfold cell_drop. destruct (m !! c) as [s|] eqn:E.
  - case_bool_decide as Hs; (destruct (decide (c' = c)) as [->|Hne];
      [rewrite ?lookup_delete_eq, ?lookup_insert_eq, E; cbn; set_solver
      |rewrite ?lookup_delete_ne, ?lookup_insert_ne by done; naive_solver]).
  - split; [|naive_solver]. intros Hin. split; [done|]. intros [-> ->]. rewrite E in Hin. cbn in Hin. set_solver.
Qed.

#[local] Arguments cell_add : simpl never.
#[local] Arguments cell_drop : simpl never.

Lemma grid_new_ok size : grid_ok (grid_new size).
Proof.
  intros c id. cbn. rewrite lookup_empty. cbn. split; [set_solver|]. intros (p & Hp & _).
  unfold at_pos in Hp. cbn in Hp. by rewrite lookup_empty in Hp.
Qed.

Lemma grid_insert_ok id x y g : grid_ok g -> positions g !! id = None -> grid_ok (grid_insert id x y g).
Proof.
  intros Hg Hn c id'. cbn [grid_insert cells cell_size]. rewrite cell_add_elem, (Hg c id'). unfold at_pos. cbn.
  destruct (decide (id' = id)) as [->|Hne].
  - rewrite lookup_insert_eq. split.
    + intros [[-> _]|(p & Hp & _)]; [by exists (x, y)|congruence].
    + intros (p & [= <-] & <-). by left.
  - rewrite lookup_insert_ne by done. naive_solver.
Qed.

Lemma grid_remove_ok id x y g : grid_ok g -> at_pos g id (x, y) -> grid_ok (grid_remove id x y g).
Proof.
  intros Hg Hp c id'. cbn [grid_remove cells cell_size]. rewrite cell_drop_elem, (Hg c id'). unfold at_pos in *. cbn.
  destruct (decide (id' = id)) as [->|Hne].
  - rewrite lookup_delete_eq. split; [|by intros (? & ? & _)]. intros ((p & Hp' & <-) & Hno).
    destruct Hno. split; [|done]. rewrite Hp in Hp'. by injection Hp' as <-.
  - rewrite lookup_delete_ne by done. naive_solver.
Qed.

Lemma grid_move_ok id ox oy x y g : grid_ok g -> at_pos g id (ox, oy) -> grid_ok (grid_move id ox oy x y g).
Proof.
  intros Hg Hp c id'. cbn [grid_move cells cell_size]. unfold at_pos in *. cbn.
  assert (Hold : forall c', id ∈ default ∅ (cells g !! c') <-> c' = from_pos ox oy (cell_size g)).
  { intros c'. rewrite (Hg c' id). unfold at_pos. rewrite Hp. split.
    - intros (p & [= <-] & <-). done.
    - intros ->. by exists (ox, oy). }
  destruct (decide (id' = id)) as [->|Hne].
  - rewrite lookup_insert_eq. case_bool_decide as Hc.
    + rewrite Hold, Hc. split; [intros ->; by exists (x, y)|]. by intros (p & [= <-] & <-).
    + rewrite cell_add_elem, cell_drop_elem, Hold. split.
      * intros [[-> _]|[-> Hno]]; [by exists (x, y)|]. by destruct Hno.
      * intros (p & [= <-] & <-). by left.
  - rewrite lookup_insert_ne by done. case_bool_decide as Hc; [apply Hg|].
    rewrite cell_add_elem, cell_drop_elem, (Hg c id'). unfold at_pos. naive_solver.
Qed.

(** ** Queries *)

Lemma wrap_i32_inj a b : wrap_i32 a = wrap_i32 b -> - 2 ^ 32 < a - b < 2 ^ 32 -> a = b.
Proof.
  unfold wrap_i32. intros E Hd. assert (E2 : (a + 2 ^ 31) mod 2 ^ 32 = (b + 2 ^ 31) mod 2 ^ 32) by lia.
  pose proof (Z.div_mod (a + 2 ^ 31) (2 ^ 32) ltac:(lia)). pose proof (Z.div_mod (b + 2 ^ 31) (2 ^ 32) ltac:(lia)). lia.
Qed.

Lemma clamp_range z : - 2 ^ 31 <= clamp_i32 z <= 2 ^ 31 - 1.
Proof. unfold clamp_i32. lia. Qed.

Lemma ceil_range x : - 2 ^ 31 <= ceil_i32 x <= 2 ^ 31 - 1.
Proof.
  destruct x as [s|s| |s m e]; cbn; try lia; [destruct s; lia|]. destruct (as_fraction m e). apply clamp_range.
Qed.

Lemma wrap_neg r : - 2 ^ 31 <= r <= 2 ^ 31 - 1 -> wrap_i32 (- r) = if decide (r = - 2 ^ 31) then - 2 ^ 31 else - r.
Proof. intros Hr. unfold wrap_i32. case_decide as E; [by rewrite E|]. rewrite Z.mod_small by lia. lia. Qed.

Lemma around_elem r d : - 2 ^ 31 <= r <= 2 ^ 31 - 1 -> d ∈ around r -> - 2 ^ 31 <= d <= 2 ^ 31 - 1.
Proof.
  intros Hr (i & -> & Hi%elem_of_seq)%list_elem_of_fmap. rewrite (wrap_neg r Hr) in *. case_decide; lia.
Qed.

Lemma NoDup_fmap_on {A B} (f : A -> B) l : (forall x y, x ∈ l -> y ∈ l -> f x = f y -> x = y) -> NoDup l -> NoDup (map f l).
Proof.
  induction l as [|x l IH]; intros Hf Hn; cbn; [constructor|]. apply NoDup_cons in Hn as [Hx Hn]. constructor.
  - intros (y & E & Hy)%list_elem_of_fmap. apply Hf in E as ->; [done|by left|by right].
  - apply IH; [|done]. intros a b Ha Hb. apply Hf; by right.
Qed.

Lemma NoDup_flat_map {A B} (f : A -> list B) l : NoDup l -> (forall x, x ∈ l -> NoDup (f x)) ->
  (forall x y z, x ∈ l -> y ∈ l -> z ∈ f x -> z ∈ f y -> x = y) -> NoDup (flat_map f l).
Proof.
  induction l as [|x l IH]; intros Hn Hf Hd; cbn; [constructor|]. apply NoDup_cons in Hn as [Hx Hn].
  apply NoDup_app. split; [apply Hf; by left|]. split.
  - intros z Hz Hin. apply list_elem_of_In, in_flat_map in Hin as (y & Hy & Hzy).
    apply list_elem_of_In in Hy, Hzy. rewrite (Hd x y z) in Hx; [done|by left|by right|done|done].
  - apply IH; [done| |]; intros y Hy; [apply Hf; by right|]. intros z u Hz. apply Hd; by right.
Qed.

Lemma around_NoDup r : NoDup (around r).
Proof. unfold around. apply NoDup_fmap_on; [|apply NoDup_seq]. intros; lia. Qed.

Lemma window_NoDup c r : - 2 ^ 31 <= r <= 2 ^ 31 - 1 -> NoDup (window c r).
Proof.
  intros Hr. unfold window. apply NoDup_flat_map.
  - apply around_NoDup.
  - intros dx _. apply NoDup_fmap_on; [|apply around_NoDup].
    intros a b Ha%around_elem Hb%around_elem [= E]; [|done..]. apply wrap_i32_inj in E; lia.
  - intros dx dx' z Hx%around_elem Hx'%around_elem; [|done..].
    intros (dy & -> & _)%list_elem_of_fmap (dy' & [= E _] & _)%list_elem_of_fmap. apply wrap_i32_inj in E; lia.
Qed.

(** The cells a query looks at. *)
Definition reach (g : SpatialGrid) (x y radius : f32) : list GridCell :=
  window (from_pos x y (cell_size g)) (ceil_i32 (f32_div radius (cell_size g))).

(** What a query should find. *)
Definition near (g : SpatialGrid) (x y radius : f32) (id : EntityId) : Prop :=
  exists p, at_pos g id p /\ from_pos p.1 p.2 (cell_size g) ∈ reach g x y radius /\
    f32_leb (dist2 p.1 p.2 x y) (sq radius) = true.

Lemma query_elem g x y radius id : grid_ok g -> id ∈ query_radius x y radius g <-> near g x y radius id.
Proof.
  intros Hg. unfold query_radius, near, reach. rewrite list_elem_of_In, in_flat_map. split.
  - intros (c & Hc%list_elem_of_In & Hin). apply filter_In in Hin as [Hin Hw].
    apply list_elem_of_In, elem_of_elements, Hg in Hin as (p & Hp & <-). exists p. split; [done|].
    split; [done|]. unfold within in Hw. rewrite Hp in Hw. by destruct p.
  - intros (p & Hp & Hc & Hd). eexists. split; [apply list_elem_of_In; exact Hc|]. apply filter_In. split.
    + apply list_elem_of_In, elem_of_elements, Hg. eauto.
    + unfold within. rewrite Hp. by destruct p.
Qed.

Lemma query_NoDup g x y radius : grid_ok g -> NoDup (query_radius x y radius g).
Proof.
  intros Hg. unfold query_radius. apply NoDup_flat_map.
  - apply window_NoDup, ceil_range.
  - intros c _. apply NoDup_ListNoDup, List.NoDup_filter, NoDup_ListNoDup, NoDup_elements.
  - intros c c' id _ _ Hin Hin'. apply list_elem_of_In, filter_In in Hin as [Hin _], Hin' as [Hin' _].
    apply list_elem_of_In, elem_of_elements, Hg in Hin as (p & Hp & <-), Hin' as (p' & Hp' & <-).
    unfold at_pos in *. congruence.
Qed.

Lemma visible_elem g v t distance : grid_ok g -> t ∈ query_visible v distance g <->
  t <> v /\ exists p, at_pos g v p /\ near g p.1 p.2 distance t.
Proof.
  intros Hg. unfold query_visible, at_pos. destruct (positions g !! v) as [[x y]|] eqn:E.
  - rewrite list_elem_of_In, filter_In, <- list_elem_of_In, bool_decide_eq_true, (query_elem g x y) by done. split.
    + intros [Hn Hd]. split; [done|]. by exists (x, y).
    + intros [Hd (p & [= <-] & Hn)]. done.
  - split; [by intros ?%elem_of_nil|]. by intros (_ & ? & ? & _).
Qed.

(** ** Updates *)

(** What a viewer sees. *)
Definition seen_by (a : AreaOfInterest) (v : EntityId) : gset EntityId := default ∅ (visible a !! v).

(** A client of viewer [v] follows the events. *)
Definition follow (v : EntityId) (s : gset EntityId) (e : AoiEvent) : gset EntityId :=
  match e with
  | Enter w t => if bool_decide (w = v) then {[t]} ∪ s else s
  | Exit w t => if bool_decide (w = v) then s ∖ {[t]} else s
  end.

(** An event is about a change. *)
Definition real_event (before after : EntityId -> gset EntityId) (e : AoiEvent) : Prop :=
  match e with
  | Enter v t => (t ∉ before v) /\ t ∈ after v
  | Exit v t => t ∈ before v /\ t ∉ after v
  end.

Lemma follow_others v w l s : v <> w -> foldl (follow v) s (map (Enter w) l) = s /\ foldl (follow v) s (map (Exit w) l) = s.
Proof.
  intros Hne. induction l as [|t l IH]; [done|]. cbn. rewrite !bool_decide_eq_false_2 by done. done.
Qed.

Lemma follow_enter v l s : foldl (follow v) s (map (Enter v) l) = list_to_set l ∪ s.
Proof.
  revert s. induction l as [|t l IH]; intros s; cbn; [set_solver|]. rewrite bool_decide_eq_true_2, IH by done. set_solver.
Qed.

Lemma follow_exit v l s : foldl (follow v) s (map (Exit v) l) = s ∖ list_to_set l.
Proof.
  revert s. induction l as [|t l IH]; intros s; cbn; [set_solver|]. rewrite bool_decide_eq_true_2, IH by done. set_solver.
Qed.

Lemma update_viewer_follow g d v old ev now : update_viewer g d v old = (ev, now) ->
  foldl (follow v) old ev = now /\ (forall w s, w <> v -> foldl (follow w) s ev = s) /\
  now = list_to_set (query_visible v d g) /\ NoDup ev /\
  forall e, e ∈ ev -> match e with
                      | Enter w t => w = v /\ (t ∉ old) /\ t ∈ now
                      | Exit w t => w = v /\ t ∈ old /\ t ∉ now
                      end.
Proof.
  intros [= <- <-]. set (now := list_to_set (query_visible v d g)). split; [|split; [|split; [done|split]]].
  - rewrite foldl_app, follow_enter, follow_exit, !list_to_set_elements_L. apply set_eq. intros t.
    rewrite !elem_of_difference, elem_of_union, elem_of_difference. destruct (decide (t ∈ now)), (decide (t ∈ old)); tauto.
  - intros w s Hne. rewrite foldl_app. destruct (follow_others w v (elements (now ∖ old)) s Hne) as [-> _].
    by destruct (follow_others w v (elements (old ∖ now)) s Hne) as [_ ->].
  - apply NoDup_app. split; [apply NoDup_fmap_on; [by intros ? ? _ _ [= ->]|apply NoDup_elements]|]. split.
    + intros e (t & -> & _)%list_elem_of_fmap (t' & Ht & _)%list_elem_of_fmap. done.
    + apply NoDup_fmap_on; [by intros ? ? _ _ [= ->]|apply NoDup_elements].
  - intros e [He|He]%elem_of_app; apply list_elem_of_fmap in He as (t & -> & Ht%elem_of_elements); set_solver.
Qed.

Lemma update_loop_spec ids : forall a ev0 ev a', NoDup ids -> update_loop ids a ev0 = (ev, a') ->
  grid a' = grid a /\ view_distance a' = view_distance a /\
  (forall v, seen_by a' v = if bool_decide (v ∈ ids) then list_to_set (query_visible v (view_distance a) (grid a)) else seen_by a v) /\
  exists evs, ev = ev0 ++ evs /\ NoDup evs /\ (forall v, foldl (follow v) (seen_by a v) evs = seen_by a' v) /\
    forall e, e ∈ evs -> match e with Enter w _ | Exit w _ => w ∈ ids end /\ real_event (seen_by a) (seen_by a') e.
Proof.
  induction ids as [|id ids IH]; intros a ev0 ev a' Hn; cbn [update_loop].
  { intros [= <- <-]. split; [done|]. split; [done|]. split; [done|]. exists []. rewrite app_nil_r.
    split; [done|]. split; [constructor|]. split; [done|]. by intros e ?%elem_of_nil. }
  apply NoDup_cons in Hn as [Hid Hn].
  destruct (update_viewer _ _ _ _) as [evi now] eqn:Eu. intros Hl.
  apply update_viewer_follow in Eu as (Hf & Hfo & Hnow & Hnd & Hre).
  apply IH in Hl as (Hg & Hv & Hs & evs & -> & Hnds & Hfol & Hreal); [|done]. cbn [grid view_distance] in *.
  set (a1 := {| grid := grid a; view_distance := view_distance a; visible := <[id:=now]> (visible a) |}) in *.
  assert (H1 : seen_by a1 id = now) by (unfold seen_by; cbn; by rewrite lookup_insert_eq).
  assert (H2 : forall v, v <> id -> seen_by a1 v = seen_by a v).
  { intros v Hne. unfold seen_by. cbn. by rewrite lookup_insert_ne. }
  assert (Hid' : seen_by a' id = now) by (rewrite Hs, bool_decide_eq_false_2 by done; done).
  split; [done|]. split; [done|]. split.
  - intros v. rewrite Hs. destruct (decide (v = id)) as [->|Hne].
    + rewrite bool_decide_eq_false_2 by done. rewrite bool_decide_eq_true_2 by (by left). by rewrite H1.
    + rewrite H2 by done. assert (E : bool_decide (v ∈ id :: ids) = bool_decide (v ∈ ids)).
      { apply bool_decide_ext. rewrite elem_of_cons. tauto. }
      by rewrite E.
  - exists (evi ++ evs). split; [by rewrite app_assoc|]. split.
    { apply NoDup_app. split; [done|]. split; [|done]. intros e He1 He2.
      apply Hre in He1. apply Hreal in He2 as [He2 _]. destruct e as [w t|w t]; destruct He1 as [-> _]; done. }
    split.
    + intros v. rewrite foldl_app, <- Hfol. destruct (decide (v = id)) as [->|Hne].
      * unfold seen_by at 1. by rewrite Hf, H1.
      * rewrite Hfo by done. by rewrite H2.
    + intros e [He|He]%elem_of_app.
      * apply Hre in He. destruct e as [w t|w t]; destruct He as (-> & Ht1 & Ht2); (split; [by left|]); cbn;
          rewrite Hid'; done.
      * pose proof (Hreal e He) as [Hw Hr]. destruct e as [w t|w t]; (split; [by right|]); cbn in *;
          rewrite H2 in Hr by (intros ->; done); done.
Qed.

(** ** Reachable areas *)

(** Entities enter once, and move and leave while they are there. *)
Inductive aoi_step : AreaOfInterest -> AreaOfInterest -> Prop :=
| aoi_step_insert a id x y : positions (grid a) !! id = None -> aoi_step a (aoi_insert id x y a)
| aoi_step_remove a id : aoi_step a (aoi_remove id a)
| aoi_step_move a id x y : is_Some (positions (grid a) !! id) -> aoi_step a (aoi_move id x y a)
| aoi_step_update a ev a' : aoi_update a = (ev, a') -> aoi_step a a'.

Lemma aoi_update_grid a ev a' : aoi_update a = (ev, a') -> grid a' = grid a.
Proof. intros (E & _)%update_loop_spec; [done|apply NoDup_fst_map_to_list]. Qed.

Lemma aoi_step_ok a a' : aoi_step a a' -> grid_ok (grid a) -> grid_ok (grid a').
Proof.
  intros Hs Hg. destruct Hs as [a id x y Hn|a id|a id x y [[ox oy] Hp]|a ev a' Hu].
  - by apply grid_insert_ok.
  - cbn. destruct (positions (grid a) !! id) as [[x y]|] eqn:E; [by apply grid_remove_ok|done].
  - unfold aoi_move. rewrite Hp. cbn. by apply grid_move_ok.
  - by rewrite (aoi_update_grid _ _ _ Hu).
Qed.

Lemma aoi_reachable_ok size d a : rtc aoi_step (aoi_new size d) a -> grid_ok (grid a).
Proof.
  assert (Hgen : forall a0, grid_ok (grid a0) -> rtc aoi_step a0 a -> grid_ok (grid a)).
  { intros a0 H0. induction 1 as [|a1 a2 a3 Hs _ IH]; [done|]. by eapply IH, aoi_step_ok. }
  apply Hgen, grid_new_ok.
Qed.

(** A run with its clients: what each has been told since the start, update after update, and
    who has been removed. *)
Inductive aoi_run : AreaOfInterest -> (EntityId -> gset EntityId) -> gset EntityId -> Prop :=
| run_new size d : aoi_run (aoi_new size d) (fun _ => ∅) ∅
| run_insert a told gone id x y : aoi_run a told gone -> positions (grid a) !! id = None ->
    aoi_run (aoi_insert id x y a) told gone
| run_remove a told gone id : aoi_run a told gone -> aoi_run (aoi_remove id a) told ({[id]} ∪ gone)
| run_move a told gone id x y : aoi_run a told gone -> is_Some (positions (grid a) !! id) ->
    aoi_run (aoi_move id x y a) told gone
| run_update a told gone ev a' : aoi_run a told gone -> aoi_update a = (ev, a') ->
    aoi_run a' (fun v => foldl (follow v) (told v) ev) gone.

Lemma aoi_run_ok a told gone : aoi_run a told gone -> grid_ok (grid a).
Proof.
  induction 1 as [size d|a told gone id x y _ IH Hn|a told gone id _ IH|a told gone id x y _ IH Hs|a told gone ev a' _ IH Hu];
    [apply grid_new_ok|..]; eapply aoi_step_ok; try exact IH; by econstructor.
Qed.

(** Who starts from more ends with more, and with nothing else. *)
Lemma follow_more v ev : forall s t, s ⊆ t -> foldl (follow v) s ev ⊆ foldl (follow v) t ev /\
  forall x, x ∈ foldl (follow v) t ev -> x ∈ foldl (follow v) s ev \/ x ∈ t ∖ s.
Proof.
  induction ev as [|e ev IH]; intros s t Hst; cbn [foldl].
  - split; [done|]. intros x Hx. destruct (decide (x ∈ s)); [by left|right; set_solver].
  - assert (Hst' : follow v s e ⊆ follow v t e) by (destruct e; cbn; case_bool_decide; set_solver).
    destruct (IH _ _ Hst') as [H1 H2]. split; [done|]. intros x [Hx|Hx]%H2; [by left|right].
    destruct e; cbn in Hx; case_bool_decide; set_solver.
Qed.

(** Clients know all that is seen of them; and what they know beyond it has been removed. *)
Lemma run_told a told gone : aoi_run a told gone -> forall v, seen_by a v ⊆ told v /\
  forall t, t ∈ told v -> t ∈ seen_by a v \/ t ∈ gone \/ v ∈ gone.
Proof.
  induction 1 as [size d|a told gone id x y _ IH Hn|a told gone id _ IH|a told gone id x y _ IH Hs|a told gone ev a' Hrun IH Hu];
    intros v.
  - split; set_solver.
  - apply (IH v).
  - destruct (IH v) as [H1 H2]. assert (Hseen : seen_by (aoi_remove id a) v = if decide (v = id) then ∅ else seen_by a v ∖ {[id]}).
    { unfold seen_by. cbn. rewrite lookup_fmap. case_decide as E; [subst; by rewrite lookup_delete_eq|].
      rewrite lookup_delete_ne by done. destruct (visible a !! v); cbn; [done|set_solver]. }
    rewrite Hseen. case_decide as E.
    + split; [set_solver|]. intros t _. right. right. set_solver.
    + split; [set_solver|]. intros t [Ht|Ht]%H2; [|right; set_solver].
      destruct (decide (t = id)); [right; left; set_solver|left; set_solver].
  - unfold aoi_move. destruct (default _ _) as [ox oy]. apply (IH v).
  - apply update_loop_spec in Hu as (_ & _ & _ & evs & -> & _ & Hf & _); [|apply NoDup_fst_map_to_list]. cbn [app].
    destruct (IH v) as [H1 H2]. destruct (follow_more v evs _ _ H1) as [H3 H4]. rewrite Hf in H3, H4. split; [done|].
    intros t [Ht|Ht]%H4; [by left|right]. apply elem_of_difference in Ht as [Ht Hn]. by destruct (H2 t Ht).
Qed.

(** C26: clients are told what changes around them. Entities are put on the grid, each once until
    it is taken off, moved while they are on it, and removed, and updates run, in any order. An
    update leaves every viewer on the grid seeing exactly the other entities that are near him:
    whose cell is in the window of cells the code scans for his view distance, and whose squared
    distance, in single precision, is at most its square. A client that has followed every event
    from the start then knows all of these, and nothing else apart from entities that have
    been removed: their removal is not told (removal_is_not_told). No event is repeated or tells
    of anything that has not changed in the visible sets. *)
Theorem events_tell_what_is_visible a told gone ev a' : aoi_run a told gone -> aoi_update a = (ev, a') ->
  (forall v p, at_pos (grid a) v p -> forall t,
     t ∈ seen_by a' v <-> t <> v /\ near (grid a) p.1 p.2 (view_distance a) t) /\
  (forall v t, t ∈ seen_by a' v -> t ∈ foldl (follow v) (told v) ev) /\
  (forall v t, v ∉ gone -> t ∉ gone -> t ∈ foldl (follow v) (told v) ev -> t ∈ seen_by a' v) /\
  NoDup ev /\ (forall e, e ∈ ev -> real_event (seen_by a) (seen_by a') e).
Proof.
  intros Hr Hu. pose proof (run_told _ _ _ (run_update _ _ _ _ _ Hr Hu)) as Htold.
  pose proof (aoi_run_ok _ _ _ Hr) as Hok. apply update_loop_spec in Hu as (Hg & Hv & Hs & evs & -> & Hnd & Hf & Hre);
    [|apply NoDup_fst_map_to_list].
  cbn [app] in *. split_and!; [|intros v t; apply Htold| |done|by intros e [_ ?]%Hre].
  - intros v p Hp t. rewrite Hs, bool_decide_eq_true_2.
    + rewrite elem_of_list_to_set, visible_elem by done. unfold at_pos in *. rewrite Hp. split.
      * intros [Hd (p' & [= <-] & Hn)]. done.
      * intros [Hd Hn]. split; [done|]. by exists p.
    + apply list_elem_of_fmap. exists (v, p). split; [done|]. by apply elem_of_map_to_list.
  - intros v t Hv' Ht Hin. by destruct (Htold v) as [_ [?|[?|?]]%(fun H => H t Hin)].
Qed.

(** A query is exact: it lists, each once, the entities whose cell is within reach and
    whose squared distance is at most the square of the radius, in single precision. *)
Theorem query_radius_exact size d a x y radius : rtc aoi_step (aoi_new size d) a ->
  NoDup (query_radius x y radius (grid a)) /\
  forall id, id ∈ query_radius x y radius (grid a) <-> near (grid a) x y radius id.
Proof.
  intros Hr%aoi_reachable_ok. split; [by apply query_NoDup|]. intros id. by apply query_elem.
Qed.

(** ** On a concrete area *)

Definition demo_entity (i : Z) : EntityId := {| e_index := i; e_generation := 0 |}.
Definition demo_area : AreaOfInterest :=
  aoi_move (demo_entity 1) (f32_of_int 300) (f32_of_int 0)
    (aoi_insert (demo_entity 2) (f32_of_int 60) (f32_of_int 80)
      (aoi_insert (demo_entity 1) (f32_of_int 10) (f32_of_int 0)
        (aoi_insert (demo_entity 0) (f32_of_int 0) (f32_of_int 0) (aoi_new (f32_of_int 100) (f32_of_int 100))))).

Lemma demo_area_reachable : rtc aoi_step (aoi_new (f32_of_int 100) (f32_of_int 100)) demo_area.
Proof.
  eapply rtc_r; [|apply aoi_step_move; vm_compute; by eexists].
  do 3 (eapply rtc_r; [|apply aoi_step_insert; by vm_compute]). apply rtc_refl.
Qed.

Lemma demo_area_run : aoi_run demo_area (fun _ => ∅) ∅.
Proof. apply run_move; [|vm_compute; by eexists]. do 3 (apply run_insert; [|by vm_compute]). apply run_new. Qed.

Lemma events_tell_what_is_visible_witness :
  aoi_run demo_area (fun _ => ∅) ∅ /\
  NoDup (fst (aoi_update demo_area)) /\ length (fst (aoi_update demo_area)) = 2%nat /\
  demo_entity 2 ∈ foldl (follow (demo_entity 0)) ∅ (fst (aoi_update demo_area)).
Proof.
  split; [exact demo_area_run|]. destruct (aoi_update demo_area) as [ev a'] eqn:E.
  destruct (events_tell_what_is_visible _ _ _ _ _ demo_area_run E) as (_ & Hf & _ & Hnd & _).
  split; [exact Hnd|]. change ev with (fst (ev, a')). rewrite <- E. split; [by vm_compute|].
  rewrite E. cbn [fst]. apply (Hf (demo_entity 0) (demo_entity 2)). change a' with (snd (ev, a')). rewrite <- E.
  apply (bool_decide_unpack _). by vm_compute.
Defined.

Lemma query_radius_exact_witness :
  rtc aoi_step (aoi_new (f32_of_int 100) (f32_of_int 100)) demo_area /\
  near (grid demo_area) (f32_of_int 0) (f32_of_int 0) (f32_of_int 100) (demo_entity 2) /\
  ~ near (grid demo_area) (f32_of_int 0) (f32_of_int 0) (f32_of_int 100) (demo_entity 1).
Proof.
  split; [exact demo_area_reachable|].
  destruct (query_radius_exact _ _ _ (f32_of_int 0) (f32_of_int 0) (f32_of_int 100) demo_area_reachable) as [_ Hq].
  rewrite <- !Hq. clear Hq. split; [apply (bool_decide_eq_true_1 _)|apply (bool_decide_eq_false_1 _)]; by vm_compute.
Defined.

(** ** What the area does not tell *)

(** A removed entity leaves the visible sets at once, so no later update tells anyone that it
    has gone. *)
Lemma removal_is_not_told :
  let a := snd (aoi_update demo_area) in
  visible_to (demo_entity 0) a = [demo_entity 2] /\
  fst (aoi_update (aoi_remove (demo_entity 2) a)) = [].
Proof. split; by vm_compute. Qed.

(** Moving an entity the grid does not hold records its position and puts it in no cell: no
    query finds it, while it sees the others. *)
Lemma moved_stranger_is_invisible :
  let a := aoi_move (demo_entity 7) (f32_of_int 0) (f32_of_int 0) demo_area in
  query_radius (f32_of_int 0) (f32_of_int 0) (f32_of_int 100) (grid a) = [demo_entity 0; demo_entity 2] /\
  query_visible (demo_entity 7) (f32_of_int 100) (grid a) = [demo_entity 0; demo_entity 2].
Proof. split; by vm_compute. Qed.
