(* ===== verification/Tenant.v ===== *)
(** * Tenants (src/tenant.rs)

    The physical names of a tenant's tables, the registry with its caches over the
    [__tenants] table, the row quota and the call rate. Random identifiers and keys, the
    clock and the monotonic instants are arguments. *)

From S2P Require Import Prelude Errors Util Json Table.
From Stdlib Require Import SpecFloat.

Definition TENANTS_TABLE : Bytes := bs "__tenants".
Definition TENANT_PREFIX : Bytes := bs "tn:".

(** ** Names *)

Definition physical_table (tenant_id logical : Bytes) : Bytes :=
  TENANT_PREFIX ++ tenant_id ++ bs ":" ++ logical.

(** What follows the first colon. *)
Fixpoint after_colon (s : Bytes) : option Bytes :=
  match s with
  | [] => None
  | c :: s' => if c =? 58 then Some s' else after_colon s'
  end.

Definition logical_table (physical : Bytes) : Bytes :=
  match strip_prefix TENANT_PREFIX physical with
  | Some rest => default physical (after_colon rest)
  | None => physical
  end.

Definition belongs_to_tenant (physical tenant_id : Bytes) : bool :=
  match strip_prefix TENANT_PREFIX physical ≫= strip_prefix tenant_id with
  | Some (c :: _) => c =? 58
  | _ => false
  end.

(** ** Tenants as rows *)

Record TenantInfo := {
  t_id : Bytes; t_name : Bytes; api_key : Bytes; max_rows : Z; max_calls_per_sec : Z; created_at : Z }.

Definition tenant_to_value (t : TenantInfo) : Value :=
  Object [(bs "api_key", Str (api_key t)); (bs "created_at", Num (PosInt (created_at t)));
          (bs "id", Str (t_id t)); (bs "max_calls_per_sec", Num (PosInt (max_calls_per_sec t)));
          (bs "max_rows", Num (PosInt (max_rows t))); (bs "name", Str (t_name t))].

Definition str_of (v : Value) : option Bytes := match v with Str s => Some s | _ => None end.

(** A field with [serde(default)]. *)
Definition uint_or_0 (max : Z) (o : option Value) : option Z :=
  match o with Some v => int_of 0 max v | None => Some 0 end.

Definition tenant_of (id name key : Value) (rows calls created : option Value) : option TenantInfo :=
  i ← str_of id; n ← str_of name; k ← str_of key;
  r ← uint_or_0 (U64 - 1) rows; c ← uint_or_0 (2 ^ 32 - 1) calls; t ← uint_or_0 (U64 - 1) created;
  Some {| t_id := i; t_name := n; api_key := k; max_rows := r; max_calls_per_sec := c; created_at := t |}.

(** [serde_json::from_value::<TenantInfo>] *)
Definition tenant_of_value (v : Value) : option TenantInfo :=
  match v with
  | Object m =>
      i ← map_get m (bs "id"); n ← map_get m (bs "name"); k ← map_get m (bs "api_key");
      tenant_of i n k (map_get m (bs "max_rows")) (map_get m (bs "max_calls_per_sec"))
        (map_get m (bs "created_at"))
  | Array (i :: n :: k :: rest) =>
      if (3 <? zlen rest) then None
      else tenant_of i n k (rest !! 0%nat) (rest !! 1%nat) (rest !! 2%nat)
  | _ => None
  end.

(** ** The registry *)

(** A bucket: its tokens, and the instant of the last refill in nanoseconds. *)
Record TokenBucket := { tokens : f64; last_refill : Z }.

Record TenantRegistry := {
  key_index : gmap Bytes Bytes; tenants : gmap Bytes TenantInfo; buckets : gmap Bytes TokenBucket }.

Definition index_tenant (info : TenantInfo) (r : TenantRegistry) : TenantRegistry :=
  {| key_index := <[api_key info := t_id info]> (key_index r);
     tenants := <[t_id info := info]> (tenants r); buckets := buckets r |}.

(** [resolve_key]: a key may carry a role after a colon. *)
Fixpoint before_colon (s : Bytes) : Bytes :=
  match s with [] => [] | c :: s' => if c =? 58 then [] else c :: before_colon s' end.
Definition resolve_key (raw_token : Bytes) (r : TenantRegistry) : option Bytes :=
  key_index r !! before_colon raw_token.

Definition tenant_count (r : TenantRegistry) : Z := Z.of_nat (size (tenants r)).
Definition row_quota (r : TenantRegistry) (tenant_id : Bytes) : Z :=
  match tenants r !! tenant_id with Some t => max_rows t | None => 0 end.

Definition older_tenant (a b : TenantInfo) : Prop := created_at a <= created_at b.
#[export] Instance older_tenant_dec : RelDecision older_tenant.
Proof. intros a b. unfold older_tenant. apply _. Defined.

Definition list_tenants (r : TenantRegistry) : list TenantInfo :=
  merge_sort older_tenant (map snd (map_to_list (tenants r))).

(** *** Call rate *)

(** [Duration::as_secs_f64] of a number of nanoseconds. *)
Definition secs_f64 (nanos : Z) : f64 :=
  f64_add (f64_of_uint (nanos / 1000000000))
          (f64_div (f64_of_uint (nanos mod 1000000000)) (f64_of_uint 1000000000)).

(** One call: the bucket is refilled and a token taken. *)
Definition take_token (limit now : Z) (b : TokenBucket) : bool * TokenBucket :=
  let elapsed := secs_f64 (Z.max 0 (now - last_refill b)) in
  let l := f64_of_uint limit in
  let t := f64_min (f64_add (tokens b) (f64_mul elapsed l)) l in
  if f64_leb f64_one t then (true, {| tokens := f64_sub t f64_one; last_refill := now |})
  else (false, {| tokens := t; last_refill := now |}).

Definition check_rate (now : Z) (tenant_id : Bytes) (r : TenantRegistry) : bool * TenantRegistry :=
  match tenants r !! tenant_id with
  | None => (true, r)
  | Some info =>
      let limit := max_calls_per_sec info in
      if limit =? 0 then (true, r)
      else
        let b := default {| tokens := f64_of_uint limit; last_refill := now |} (buckets r !! tenant_id) in
        let '(ok, b) := take_token limit now b in
        (ok, {| key_index := key_index r; tenants := tenants r;
                buckets := <[tenant_id := b]> (buckets r) |})
  end.

(** *** Names made up *)

Definition is_ascii_alphanumeric (c : Z) : bool :=
  is_digit c || ((97 <=? c) && (c <=? 122)) || ((65 <=? c) && (c <=? 90)).

(** Each character that is not an ASCII letter or digit becomes a dash. *)
Fixpoint slug_chars (s : Bytes) : Bytes :=
  match s with
  | [] => []
  | c :: s' =>
      if is_cont c then slug_chars s'
      else (if is_ascii_alphanumeric c then c else 45) :: slug_chars s'
  end.

Fixpoint trim_dashes (s : Bytes) : Bytes :=
  match s with c :: s' => if c =? 45 then trim_dashes s' else s | [] => [] end.

Definition generate_id `{Lowercase} (random6 name : Bytes) : Bytes :=
  let slug := take 24 (rev (trim_dashes (rev (trim_dashes (slug_chars (to_lowercase name)))))) in
  (match slug with [] => bs "tenant" | _ => slug end) ++ bs "-" ++ random6.

Section Registry.
Context `{Serde} `{Lowercase}.
Variable max_blob : Z.

(** [rehydrate]: rows that do not parse are passed over. *)
Definition rehydrate (r : TenantRegistry) : st TableStore TenantRegistry :=
  fun ts =>
    let '(rows, ts) := list_rows_with_keys TENANTS_TABLE ts in
    let r := {| key_index := ∅; tenants := ∅; buckets := buckets r |} in
    (match rows with
     | Ok rows => foldl (fun r (kv : Bytes * Value) =>
         match tenant_of_value kv.2 with Some info => index_tenant info r | None => r end) r rows
     | Err _ => r
     end, ts).

Definition load : st TableStore TenantRegistry :=
  rehydrate {| key_index := ∅; tenants := ∅; buckets := ∅ |}.

Definition create (random6 random32 : Bytes) (now_secs : Z) (name : Bytes) (rows calls : Z)
  : tx (TenantRegistry * TableStore) (TenantInfo * RowDelta) :=
  fun '(r, ts) =>
    let name := trim name in
    if bool_decide (name = []) then (Err (InvalidArgument (bs "Tenant name must not be empty")), (r, ts))
    else if existsb (fun c => c =? 58) name then
      (Err (InvalidArgument (bs "Tenant name must not contain ':'")), (r, ts))
    else if existsb (fun kv : Bytes * TenantInfo => beq (t_name kv.2) name) (map_to_list (tenants r)) then
      (Err (InvalidArgument (bs "Tenant '" ++ name ++ bs "' already exists")), (r, ts))
    else
      let info := {| t_id := generate_id random6 name; t_name := name; api_key := bs "ndbt_" ++ random32;
                     max_rows := rows; max_calls_per_sec := calls; created_at := now_secs |} in
      match set_row max_blob TENANTS_TABLE (t_id info) (tenant_to_value info) ts with
      | (Err e, ts) => (Err e, (r, ts))
      | (Ok d, ts) => (Ok (info, d), (index_tenant info r, ts))
      end.

(** The rows of one table, deleted one by one. *)
Definition delete_rows (table : Bytes) (keys : list Bytes) : st TableStore (list RowDelta) :=
  fun ts =>
    foldl (fun '(ds, ts) key =>
      match delete_row table key ts with
      | (Ok d, ts) => (ds ++ [d], ts)
      | (Err _, ts) => (ds, ts)
      end) ([], ts) keys.

Definition drop_tables (tenant_id : Bytes) (names : list Bytes) : st TableStore (list RowDelta) :=
  fun ts =>
    foldl (fun '(ds, ts) table =>
      if belongs_to_tenant table tenant_id then
        match list_rows_with_keys table ts with
        | (Ok rows, ts) => let '(ds', ts) := delete_rows table (map fst rows) ts in (ds ++ ds', ts)
        | (Err _, ts) => (ds, ts)
        end
      else (ds, ts)) ([], ts) names.

Definition delete_tenant (tenant_id : Bytes) : tx (TenantRegistry * TableStore) (list RowDelta) :=
  fun '(r, ts) =>
    match tenants r !! tenant_id with
    | None => (Err (InvalidArgument (bs "Unknown tenant '" ++ tenant_id ++ bs "'")), (r, ts))
    | Some info =>
        let '(ds, ts) := drop_tables tenant_id (list_tables ts) ts in
        let '(ds, ts) := match delete_row TENANTS_TABLE tenant_id ts with
                         | (Ok d, ts) => (ds ++ [d], ts)
                         | (Err _, ts) => (ds, ts)
                         end in
        (Ok ds, ({| key_index := delete (api_key info) (key_index r);
                    tenants := delete tenant_id (tenants r);
                    buckets := delete tenant_id (buckets r) |}, ts))
    end.

(** Rows of every table of the tenant; a table that cannot be read counts nothing. *)
Definition count_table (tenant_id : Bytes) '(n, ts) (table : Bytes) : Z * TableStore :=
  if belongs_to_tenant table tenant_id then
    match list_rows_with_keys table ts with
    | (Ok rows, ts) => (n + zlen rows, ts)
    | (Err _, ts) => (n, ts)
    end
  else (n, ts).
Definition tenant_row_count (tenant_id : Bytes) : st TableStore Z :=
  fun ts => foldl (count_table tenant_id) (0, ts) (list_tables ts).
End Registry.

(** ** Lemmas on names *)

Definition colon_free (t : Bytes) : Prop := 58 ∉ t.

Lemma belongs_spec physical t :
  belongs_to_tenant physical t = true <-> exists logical, physical = physical_table t logical.
Proof.
  unfold belongs_to_tenant, physical_table. split.
  - destruct (strip_prefix TENANT_PREFIX physical) as [r|] eqn:E1; [|done]. cbn.
    destruct (strip_prefix t r) as [[|c l]|] eqn:E2; [done| |done]. intros Hc. zbool. subst.
    apply strip_prefix_spec in E1 as ->. apply strip_prefix_spec in E2 as ->. by exists l.
  - intros [l ->]. rewrite strip_prefix_app. cbn [mbind option_bind]. by rewrite strip_prefix_app.
Qed.

(** A tenant's tables are no other tenant's. *)
Lemma colon_split t1 t2 (l1 l2 : Bytes) : colon_free t1 -> colon_free t2 ->
  t1 ++ 58 :: l1 = t2 ++ 58 :: l2 -> t1 = t2.
Proof.
  unfold colon_free. revert t2. induction t1 as [|c t1 IH]; intros [|d t2] H1 H2 E; [done| | |].
  - cbn in E. injection E as <- _. destruct H2. apply list_elem_of_here.
  - cbn in E. injection E as -> _. destruct H1. apply list_elem_of_here.
  - cbn in E. injection E as -> E. f_equal. rewrite not_elem_of_cons in H1, H2. apply IH; tauto.
Qed.

Lemma belongs_unique physical t1 t2 : colon_free t1 -> colon_free t2 ->
  belongs_to_tenant physical t1 = true -> belongs_to_tenant physical t2 = true -> t1 = t2.
Proof.
  intros H1 H2 [l1 ->]%belongs_spec [l2 E]%belongs_spec. unfold physical_table in E.
  apply app_inv_head in E. exact (colon_split _ _ l1 l2 H1 H2 E).
Qed.

Lemma logical_physical t l : colon_free t -> logical_table (physical_table t l) = l.
Proof.
  intros Ht. unfold logical_table, physical_table. rewrite strip_prefix_app.
  assert (Ha : after_colon (t ++ bs ":" ++ l) = Some l).
  { unfold colon_free in Ht. induction t as [|c t IH]; [done|]. rewrite not_elem_of_cons in Ht. cbn.
    destruct (c =? 58) eqn:E; [zbool; subst; tauto|]. apply IH. tauto. }
  by rewrite Ha.
Qed.
