(* ===== verification/Reducer.v ===== *)
(** * The reducer context (src/reducer/context.rs)

    What a reducer sees while it runs: reads that look at its own staged writes first and
    remember the version of every row they fetch, writes that are only staged, and the commit
    with its quota, its row-level security and the version test of the table engine. A context
    works on the table store it shares with others: each operation takes the store as it is
    at that moment. The TTL calls go to the manager of Ttl.v. *)

From S2P Require Import Prelude Errors Util Json Schema Table Tenant.

Record Ctx := {
  timestamp : Z; caller_id : Bytes; caller_role : Bytes;
  schema : option SchemaRegistry; tenant_id : option Bytes;
  pending : list RowDelta;
  read_versions : gmap (Bytes * Bytes) Z }.

Definition ctx_new (ts : Z) : Ctx :=
  {| timestamp := ts; caller_id := []; caller_role := []; schema := None; tenant_id := None;
     pending := []; read_versions := ∅ |}.

Definition with_pending (l : list RowDelta) (c : Ctx) : Ctx :=
  {| timestamp := timestamp c; caller_id := caller_id c; caller_role := caller_role c;
     schema := schema c; tenant_id := tenant_id c; pending := l; read_versions := read_versions c |}.
Definition with_reads (rv : gmap (Bytes * Bytes) Z) (c : Ctx) : Ctx :=
  {| timestamp := timestamp c; caller_id := caller_id c; caller_role := caller_role c;
     schema := schema c; tenant_id := tenant_id c; pending := pending c; read_versions := rv |}.

Definition with_schema (s : SchemaRegistry) (c : Ctx) : Ctx :=
  {| timestamp := timestamp c; caller_id := caller_id c; caller_role := caller_role c;
     schema := Some s; tenant_id := tenant_id c; pending := pending c; read_versions := read_versions c |}.
Definition with_tenant (t : Bytes) (c : Ctx) : Ctx :=
  {| timestamp := timestamp c; caller_id := caller_id c; caller_role := caller_role c;
     schema := schema c; tenant_id := Some t; pending := pending c; read_versions := read_versions c |}.

(** The physical name of a table; system tables and names with a tenant prefix stay. *)
Definition phys (c : Ctx) (name : Bytes) : Bytes :=
  match tenant_id c with
  | Some t =>
      if bool_decide (strip_prefix (bs "__") name = None) && bool_decide (strip_prefix TENANT_PREFIX name = None)
      then physical_table t name else name
  | None => name
  end.

(** A method of the context, over the shared store. *)
Abbreviation op A := (tx (Ctx * TableStore) A).

Definition stage (d : RowDelta) (c : Ctx) : Ctx := with_pending (pending c ++ [d]) c.

Definition staged_at (n k : Bytes) (d : RowDelta) : bool := beq (table_name d) n && beq (row_key d) k.

(** [rv.entry(key).or_insert(v)] *)
Definition remember (n k : Bytes) (v : Z) (c : Ctx) : Ctx :=
  match read_versions c !! (n, k) with
  | Some _ => c
  | None => with_reads (<[(n, k) := v]> (read_versions c)) c
  end.

(** [{:?}] of a list of strings, escapes of ASCII. *)
Definition hex_digit (n : Z) : Z := if n <? 10 then 48 + n else 87 + n.
Definition escape_char (c : Z) : Bytes :=
  if c =? 34 then [92; 34] else if c =? 92 then [92; 92]
  else if c =? 10 then bs "\n" else if c =? 13 then bs "\r" else if c =? 9 then bs "\t"
  else if c =? 0 then bs "\0"
  else if (c <? 32) || (c =? 127) then
    bs "\u{" ++ (if c <? 16 then [] else [hex_digit (c / 16)]) ++ [hex_digit (c mod 16)] ++ bs "}"
  else [c].
Definition debug_str (s : Bytes) : Bytes := 34 :: concat (map escape_char s) ++ [34].
Fixpoint join_comma (l : list Bytes) : Bytes :=
  match l with [] => [] | [s] => s | s :: l' => s ++ bs ", " ++ join_comma l' end.
Definition debug_list (l : list Bytes) : Bytes := bs "[" ++ join_comma (map debug_str l) ++ bs "]".

Section Reducer.
Context `{Serde} `{Lowercase}.
Variable max_blob : Z.

(** ** Reads *)

(** The policy of the table, if it has one, on a committed row. *)
Definition visible (c : Ctx) (name : Bytes) (value : option Value) : bool :=
  match schema c ≫= fun s => s !! name with
  | Some t => rls_check (rls t) value (caller_id c) (caller_role c)
  | None => true
  end.

Definition get_row (name key : Bytes) : op (option Value) :=
  fun '(c, ts) =>
    let n := phys c name in
    match List.find (staged_at n key) (rev (pending c)) with
    | Some d => (Ok (if beq (operation d) (bs "delete") then None else row_data_value d), (c, ts))
    | None =>
        match get_row_with_version n key ts with
        | (Err e, ts) => (Err e, (c, ts))
        | (Ok fetched, ts) =>
            let c := remember n key (match fetched with Some (_, v) => v | None => 0 end) c in
            let value := option_map fst fetched in
            (Ok (if visible c name value then value else None), (c, ts))
        end
    end.

Definition list_counters : op (list Counter) :=
  fun '(c, ts) => let '(r, ts) := Table.list_counters ts in (r, (c, ts)).

(** ** Writes *)

Definition delta_of (c : Ctx) (ts : TableStore) (name op key : Bytes) : RowDelta :=
  {| table_name := name; operation := op; row_key := key; d_row_id := 0;
     d_shard_id := shard_id (root ts); payload_arc := None; row_data := None;
     counter_add_amount := 0; counter_add_timestamp := 0 |}.

Definition set_row (name key : Bytes) (value : Value) : op RowDelta :=
  fun '(c, ts) =>
    let n := phys c name in
    match match schema c with Some s => validate s name value | None => Ok value end with
    | Err e => (Err e, (c, ts))
    | Ok value =>
        match get_row name key (c, ts) with
        | (Err e, cts) => (Err e, cts)
        | (Ok existing, (c, ts)) =>
            let d := {| table_name := n;
                        operation := match existing with Some _ => bs "update" | None => bs "insert" end;
                        row_key := key; d_row_id := 0; d_shard_id := shard_id (root ts);
                        payload_arc := Some (json_to_vec value); row_data := Some value;
                        counter_add_amount := 0; counter_add_timestamp := 0 |} in
            (Ok d, (stage d c, ts))
        end
    end.

Definition delete_row (name key : Bytes) : op RowDelta :=
  fun '(c, ts) => let d := delta_of c ts (phys c name) (bs "delete") key in (Ok d, (stage d c, ts)).

(** The staged deltas of a counter, applied to its committed value. Release builds wrap. *)
Definition counter_step (name : Bytes) (base : option Counter) (d : RowDelta) : option Counter :=
  if beq (operation d) (bs "delete") then None
  else if beq (operation d) (bs "counter_add") then
    Some {| c_id := match base with Some b => c_id b | None => 0 end; c_name := name;
            c_value := wrap_i32 (match base with Some b => c_value b | None => 0 end + counter_add_amount d);
            c_last_modified := counter_add_timestamp d |}
  else match row_data_value d ≫= counter_of_value with Some b => Some b | None => base end.

Definition get_counter_in_table (table name : Bytes) (ts : TableStore)
  : result VoltraError (option Counter) * TableStore :=
  let '(r, ts) := Table.get_row table name ts in
  (o ← r; match o with
          | Some v => x ← ok_or (counter_of_value v) SerializationError; Ok (Some x)
          | None => Ok None
          end, ts).

Definition get_counter (name : Bytes) : op (option Counter) :=
  fun '(c, ts) =>
    let table := phys c (bs "counters") in
    let '(r, ts) := get_counter_in_table table name ts in
    (base ← r; Ok (foldl (counter_step name) base (List.filter (staged_at table name) (pending c))), (c, ts)).

Definition set_counter (name : Bytes) (amount : Z) : op RowDelta :=
  fun '(c, ts) =>
    let d := {| table_name := phys c (bs "counters"); operation := bs "counter_add"; row_key := name;
                d_row_id := 0; d_shard_id := shard_id (root ts); payload_arc := None; row_data := None;
                counter_add_amount := amount; counter_add_timestamp := wrap_i64 (timestamp c) |} in
    (Ok d, (stage d c, ts)).

Definition delete_counter (name : Bytes) : op RowDelta := delete_row (bs "counters") name.

(** ** Commit *)

Definition inserts (l : list RowDelta) : Z := zlen (List.filter (fun d => beq (operation d) (bs "insert")) l).

(** The tenant's quota: rows it has plus inserts staged. *)
Definition quota_error (reg : TenantRegistry) (t : Bytes) (c : Ctx) (current : Z) : option VoltraError :=
  let quota := row_quota reg t in
  if quota <? current + inserts (pending c) then
    Some (InvalidArgument (bs "Tenant row quota exceeded (" ++ dec current ++ bs "/" ++ dec quota ++ bs " rows)"))
  else None.
Definition over_quota (reg : TenantRegistry) (c : Ctx) (ts : TableStore) : option VoltraError * TableStore :=
  match tenant_id c with
  | None => (None, ts)
  | Some t =>
      if 0 <? row_quota reg t then
        let '(current, ts) := tenant_row_count t ts in (quota_error reg t c current, ts)
      else (None, ts)
  end.

(** The policy on one staged write: the name of the row it denies. *)
Definition denies (c : Ctx) (s : SchemaRegistry) (d : RowDelta) (ts : TableStore)
  : result VoltraError (option Bytes) * TableStore :=
  if beq (operation d) (bs "counter_add") then (Ok None, ts)
  else
    match s !! logical_table (table_name d) with
    | None => (Ok None, ts)
    | Some t =>
        let '(r, ts) := if beq (operation d) (bs "insert") then (Ok None, ts)
                        else Table.get_row (table_name d) (row_key d) ts in
        (row ← r;
         Ok (if rls_check (rls t) row (caller_id c) (caller_role c) then None
             else Some (table_name d ++ bs "/" ++ row_key d)), ts)
    end.

(** The staged writes the policies deny. *)
Fixpoint denied (c : Ctx) (s : SchemaRegistry) (l : list RowDelta) (ts : TableStore)
  : result VoltraError (list Bytes) * TableStore :=
  match l with
  | [] => (Ok [], ts)
  | d :: l' =>
      match denies c s d ts with
      | (Err e, ts) => (Err e, ts)
      | (Ok o, ts) => let '(r, ts) := denied c s l' ts in (l ← r; Ok (option_list o ++ l), ts)
      end
  end.

Definition read_set (c : Ctx) : list (Bytes * Bytes * Z) := map_to_list (read_versions c).

Definition access_denied (keys : list Bytes) : VoltraError :=
  PermissionDenied (bs "Access denied to rows: " ++ debug_list keys).

(** The end of a commit that is past its guards. *)
Definition commit_batch (now : nat -> Z) : op (list RowDelta) :=
  fun '(c, ts) =>
    match apply_delta_batch_versioned max_blob now (pending c) (read_set c) ts with
    | (Err e, ts) => (Err e, (c, ts))
    | (Ok l, ts) => (Ok l, (with_reads ∅ (with_pending [] c), ts))
    end.

(** A commit that nothing else runs beside. *)
Definition commit (reg : TenantRegistry) (now : nat -> Z) : op (list RowDelta) :=
  fun '(c, ts) =>
    match over_quota reg c ts with
    | (Some e, ts) => (Err e, (with_pending [] c, ts))
    | (None, ts) =>
        match match schema c with Some s => denied c s (pending c) ts | None => (Ok [], ts) end with
        | (Err e, ts) => (Err e, (c, ts))
        | (Ok ((_ :: _) as keys), ts) => (Err (access_denied keys), (with_pending [] c, ts))
        | (Ok [], ts) => commit_batch now (c, ts)
        end
    end.

(** No lock is held from the guards to the batch: each table counted, each row a policy is asked
    about and the batch are steps, and other workers move between them. *)
Inductive Stage : Type :=
| AtQuota
| Counting (tables : list Bytes) (total : Z)
| AtPolicies (l : list RowDelta) (denied_keys : list Bytes).

Definition to_policies (c : Ctx) : Stage :=
  AtPolicies (match schema c with Some _ => pending c | None => [] end) [].

Definition commit_step (reg : TenantRegistry) (now : nat -> Z) (g : Stage) (cts : Ctx * TableStore)
  : (Stage + result VoltraError (list RowDelta)) * (Ctx * TableStore) :=
  let '(c, ts) := cts in
  match g with
  | AtQuota =>
      (inl match tenant_id c with
           | Some t => if 0 <? row_quota reg t then Counting (list_tables ts) 0 else to_policies c
           | None => to_policies c
           end, cts)
  | Counting (name :: names) total =>
      let '(total, ts) := count_table (default [] (tenant_id c)) (total, ts) name in (inl (Counting names total), (c, ts))
  | Counting [] total =>
      match quota_error reg (default [] (tenant_id c)) c total with
      | Some e => (inr (Err e), (with_pending [] c, ts))
      | None => (inl (to_policies c), cts)
      end
  | AtPolicies (d :: l) keys =>
      match denies c (default ∅ (schema c)) d ts with
      | (Err e, ts) => (inr (Err e), (c, ts))
      | (Ok o, ts) => (inl (AtPolicies l (keys ++ option_list o)), (c, ts))
      end
  | AtPolicies [] ((_ :: _) as keys) => (inr (Err (access_denied keys)), (with_pending [] c, ts))
  | AtPolicies [] [] => let '(r, cts) := commit_batch now cts in (inr r, cts)
  end.

(** [reset_for_retry], [rollback] *)
Definition reset_for_retry (c : Ctx) : Ctx := with_reads ∅ (with_pending [] c).

(** ** The increment reducer *)

Definition increment_reducer (name : Bytes) (delta : Z) : op (Z * Z * list RowDelta) :=
  fun cts =>
    match get_counter name cts with
    | (Err e, cts) => (Err e, cts)
    | (Ok o, cts) =>
        let provisional := wrap_i32 (match o with Some c => c_value c | None => 0 end + delta) in
        match set_counter name delta cts with
        | (Err e, cts) => (Err e, cts)
        | (Ok d, (c, ts)) => (Ok (provisional, wrap_i64 (timestamp c), [d]), (c, ts))
        end
    end.
End Reducer.
