(* ===== verification/ReducerFacts.v ===== *)
(** * Reducers: current reads, isolated tenants, guarded rows

    A reducer runs while others commit: what its commit proves about the rows it read, which
    tables a tenant's reducer can change, which rows the policies protect, and how a write can
    get around them. *)

From S2P Require Import Prelude Errors Util Json JsonCodec Schema Table TableIndex TableBatch TableReads TableFacts Tenant Reducer.

Section Facts.
Context `{SerdeLaws} `{Lowercase}.
Variable max_blob : Z.
Implicit Types (c : Ctx) (ts : TableStore) (n k : Bytes) (d : RowDelta).

(** ** What an operation leaves alone *)

(** Another lobby store may appear; nothing else of the store changes. *)
Definition same_root ts ts' : Prop := root ts' = root ts /\ blob_file ts' = blob_file ts.

Lemma same_root_refl ts : same_root ts ts.
Proof. done. Qed.
Lemma same_root_trans t1 t2 t3 : same_root t1 t2 -> same_root t2 t3 -> same_root t1 t3.
Proof. intros [? ?] [? ?]. split; congruence. Qed.

Lemma route_reads_root {A} name (none : A) f ts a ts' :
  route name none (fun n => reads (f n)) ts = (a, ts') -> same_root ts ts'.
Proof.
  unfold route. destruct (parse_lobby_key name) as [[lid logical]|].
  - unfold on_lobby. case_bool_decide; intros [= <- <-]; done.
  - intros [= <- <-]. done.
Qed.

(** What a reducer can call on its context. *)
Inductive reducer_op : forall {A}, op A -> Prop :=
| op_get name key : reducer_op (get_row name key)
| op_set name key v : reducer_op (set_row name key v)
| op_delete name key : reducer_op (delete_row name key)
| op_get_counter name : reducer_op (get_counter name)
| op_set_counter name amount : reducer_op (set_counter name amount)
| op_list_counters : reducer_op list_counters.

Definition kept_reads c c' : Prop :=
  forall key v, read_versions c !! key = Some v -> read_versions c' !! key = Some v.

Lemma kept_reads_refl c : kept_reads c c.
Proof. by intros key v. Qed.

#[local] Hint Resolve same_root_refl kept_reads_refl : core.

Lemma remember_keeps n k v c : kept_reads c (remember n k v c).
Proof.
  intros key w Hk. unfold remember. destruct (read_versions c !! (n, k)) eqn:E; [done|]. cbn.
  rewrite lookup_insert_ne; [done|congruence].
Qed.

Lemma get_row_frame_op name key c ts r c' ts' :
  get_row name key (c, ts) = (r, (c', ts')) ->
  same_root ts ts' /\ kept_reads c c' /\ pending c' = pending c /\ tenant_id c' = tenant_id c.
Proof.
  unfold get_row. destruct (List.find _ _); [intros; simplify_eq; split_and!; auto|].
  destruct (get_row_with_version _ _ ts) as [[o|e] ts1] eqn:E; apply route_reads_root in E;
    intros; simplify_eq; split_and!; auto.
  - apply remember_keeps.
  - unfold remember. by destruct (read_versions c !! _).
  - unfold remember. by destruct (read_versions c !! _).
Qed.

#[local] Ltac fin := split; [auto|first [assumption|exact (kept_reads_refl _)]].

Lemma reducer_op_frame {A} (f : op A) c ts r c' ts' :
  reducer_op f -> f (c, ts) = (r, (c', ts')) -> same_root ts ts' /\ kept_reads c c'.
Proof.
  intros Hop E. destruct Hop as [name key|name key v|name key|name|name amount|].
  - by apply get_row_frame_op in E as (? & ? & _).
  - unfold set_row in E. destruct (match schema c with Some s => _ | None => _ end) as [v'|e]; [|simplify_eq; fin].
    destruct (get_row name key (c, ts)) as [[o|e] [c1 ts1]] eqn:Eg; apply get_row_frame_op in Eg as (? & ? & _);
      simplify_eq; fin.
  - unfold delete_row in E. simplify_eq; fin.
  - unfold get_counter, get_counter_in_table in E. destruct (Table.get_row _ _ ts) as [o ts1] eqn:Eg.
    apply route_reads_root in Eg. simplify_eq; fin.
  - unfold set_counter in E. simplify_eq; fin.
  - unfold list_counters, Table.list_counters, list_rows in E.
    destruct (list_rows_with_keys _ ts) as [o ts1] eqn:Eg. apply route_reads_root in Eg. simplify_eq; fin.
Qed.

(** ** A commit and its steps *)

#[local] Arguments count_table : simpl never.

Lemma count_table_root t z ts name z' ts' : count_table t (z, ts) name = (z', ts') -> same_root ts ts'.
Proof.
  unfold count_table. destruct (belongs_to_tenant name t); [|by intros [= _ <-]].
  destruct (list_rows_with_keys name ts) as [[rows|e] ts1] eqn:E; apply route_reads_root in E; by intros [= _ <-].
Qed.

Lemma tenant_rows_root t ts r ts' : tenant_row_count t ts = (r, ts') -> same_root ts ts'.
Proof.
  unfold tenant_row_count. generalize (list_tables ts) 0. intros names. revert ts.
  induction names as [|name names IH]; intros ts z; cbn [foldl]; [by intros [= _ <-]|].
  destruct (count_table t (z, ts) name) as [z1 ts1] eqn:E. apply count_table_root in E.
  intros Hr%IH. by eapply same_root_trans.
Qed.

Lemma denies_root c s d ts r ts' : denies c s d ts = (r, ts') -> same_root ts ts'.
Proof.
  unfold denies. destruct (beq _ _); [by intros [= _ <-]|]. destruct (s !! _) as [t|]; [|by intros [= _ <-]].
  destruct (if beq (operation d) (bs "insert") then _ else _) as [row ts1] eqn:E. intros [= _ <-].
  destruct (beq _ _); [by simplify_eq|]. by apply route_reads_root in E.
Qed.

Lemma denied_root c s l : forall ts r ts', denied c s l ts = (r, ts') -> same_root ts ts'.
Proof.
  induction l as [|d l IH]; intros ts r ts'; cbn [denied]; [by intros [= _ <-]|].
  destruct (denies c s d ts) as [[o|e] ts1] eqn:E; apply denies_root in E; [|by intros [= _ <-]].
  destruct (denied c s l ts1) as [r2 ts2] eqn:E2. apply IH in E2. intros [= _ <-]. by eapply same_root_trans.
Qed.

Lemma over_quota_root reg c ts r ts' : over_quota reg c ts = (r, ts') -> same_root ts ts'.
Proof.
  unfold over_quota. destruct (tenant_id c); [|by intros [= _ <-]]. destruct (0 <? _); [|by intros [= _ <-]].
  destruct (tenant_row_count _ ts) as [z ts1] eqn:E. apply tenant_rows_root in E. by intros [= _ <-].
Qed.

(** A guard only reads; what writes is the batch, after the last of them. *)
Lemma commit_step_inv reg now g c ts o c' ts' :
  commit_step max_blob reg now g (c, ts) = (o, (c', ts')) ->
  (exists g', o = inl g' /\ c' = c /\ same_root ts ts') \/
  (exists e, o = inr (Err e) /\ same_root ts ts') \/
  exists r, o = inr r /\ g = AtPolicies [] [] /\
    apply_delta_batch_versioned max_blob now (pending c) (read_set c) ts = (r, ts').
Proof.
  destruct g as [|[|name names] total|[|d l] [|key keys]]; cbn [commit_step].
  - intros [= <- <- <-]. left. eauto.
  - destruct (quota_error _ _ _ _); intros [= <- <- <-]; [right; left|left]; eauto.
  - destruct (count_table _ (total, ts) name) as [z ts1] eqn:E. apply count_table_root in E. intros [= <- <- <-]. left. eauto.
  - unfold commit_batch. destruct (apply_delta_batch_versioned _ _ _ _ ts) as [[l|e] ts1] eqn:E; intros [= <- <- <-];
      right; right; by eexists.
  - intros [= <- <- <-]. right. left. eauto.
  - destruct (denies _ _ d ts) as [[o'|e] ts1] eqn:E; apply denies_root in E; intros [= <- <- <-]; [left|right; left]; eauto.
  - destruct (denies _ _ d ts) as [[o'|e] ts1] eqn:E; apply denies_root in E; intros [= <- <- <-]; [left|right; left]; eauto.
Qed.

(** The guards of a commit that nothing else runs beside, one by one. *)
Definition passes reg now (gs gs' : Stage * (Ctx * TableStore)) : Prop :=
  commit_step max_blob reg now gs.1 gs.2 = (inl gs'.1, gs'.2).

Lemma count_alone reg now c t names : tenant_id c = Some t -> forall ts total,
  rtc (passes reg now) (Counting names total, (c, ts))
    (Counting [] (foldl (count_table t) (total, ts) names).1, (c, (foldl (count_table t) (total, ts) names).2)).
Proof.
  intros Ht. induction names as [|name names IH]; intros ts total; cbn [foldl]; [apply rtc_refl|].
  destruct (count_table t (total, ts) name) as [z ts1] eqn:E. eapply rtc_l; [|apply IH].
  unfold passes. cbn [fst snd commit_step]. rewrite Ht. change (default [] (Some t)) with t. by rewrite E.
Qed.

Lemma policies_alone reg now c s l : schema c = Some s -> forall ts keys, exists gs,
  rtc (passes reg now) (AtPolicies l keys, (c, ts)) gs /\
  match denied c s l ts with
  | (Ok more, ts') => gs = (AtPolicies [] (keys ++ more), (c, ts'))
  | (Err e, ts') => commit_step max_blob reg now gs.1 gs.2 = (inr (Err e), (c, ts'))
  end.
Proof.
  intros Hs. induction l as [|d l IH]; intros ts keys; cbn [denied].
  { eexists. split; [apply rtc_refl|]. by rewrite app_nil_r. }
  destruct (denies c s d ts) as [[o|e] ts1] eqn:E.
  - destruct (IH ts1 (keys ++ option_list o)) as (gs & Hgs & Hd). exists gs. split.
    + eapply rtc_l; [|exact Hgs]. unfold passes. cbn [fst snd commit_step]. rewrite Hs. change (default ∅ (Some s)) with s. by rewrite E.
    + destruct (denied c s l ts1) as [[more|e] ts2]; [|done]. cbn. by rewrite Hd, (assoc_L (++)).
  - eexists. split; [apply rtc_refl|]. cbn [fst snd commit_step]. rewrite Hs. change (default ∅ (Some s)) with s. by rewrite E.
Qed.

Lemma quota_alone reg now c ts : exists gs, rtc (passes reg now) (AtQuota, (c, ts)) gs /\
  match over_quota reg c ts with
  | (None, ts') => gs = (to_policies c, (c, ts'))
  | (Some e, ts') => commit_step max_blob reg now gs.1 gs.2 = (inr (Err e), (with_pending [] c, ts'))
  end.
Proof.
  assert (Hskip : commit_step max_blob reg now AtQuota (c, ts) = (inl (to_policies c), (c, ts)) ->
    exists gs, rtc (passes reg now) (AtQuota, (c, ts)) gs /\ gs = (to_policies c, (c, ts))).
  { intros Hq. exists (to_policies c, (c, ts)). split; [apply rtc_once; exact Hq|reflexivity]. }
  unfold over_quota. destruct (tenant_id c) as [t|] eqn:Ht; [|apply Hskip; cbn [commit_step]; by rewrite Ht].
  destruct (0 <? row_quota reg t) eqn:Eq; [|apply Hskip; cbn [commit_step]; by rewrite Ht, Eq]. clear Hskip.
  unfold tenant_row_count. pose proof (count_alone reg now c t (list_tables ts) Ht ts 0) as Hcount.
  destruct (foldl _ _ _) as [total ts1].
  assert (Hstart : passes reg now (AtQuota, (c, ts)) (Counting (list_tables ts) 0, (c, ts))).
  { unfold passes. cbn [fst snd commit_step].
    rewrite Ht, Eq. done. }
  destruct (quota_error reg t c total) eqn:Ee.
  - exists (Counting [] total, (c, ts1)). split; [eapply rtc_l; [exact Hstart|exact Hcount]|]. cbn [fst snd commit_step]. rewrite Ht. change (default [] (Some t)) with t. by rewrite Ee.
  - eexists. split; [|reflexivity]. eapply rtc_l; [exact Hstart|]. eapply rtc_r; [exact Hcount|].
    unfold passes. cbn [fst snd commit_step]. rewrite Ht. change (default [] (Some t)) with t. by rewrite Ee.
Qed.

(** [commit] is the steps with nobody in between. *)
Lemma commit_alone reg now cts r cts' : commit max_blob reg now cts = (r, cts') -> exists gs,
  rtc (passes reg now) (AtQuota, cts) gs /\ commit_step max_blob reg now gs.1 gs.2 = (inr r, cts').
Proof.
  destruct cts as [c ts]. unfold commit.
  assert (Hpol : forall ts0, exists gs, rtc (passes reg now) (to_policies c, (c, ts0)) gs /\
    match match schema c with Some s => denied c s (pending c) ts0 | None => (Ok [], ts0) end with
    | (Ok more, ts') => gs = (AtPolicies [] more, (c, ts'))
    | (Err e, ts') => commit_step max_blob reg now gs.1 gs.2 = (inr (Err e), (c, ts'))
    end).
  { intros ts0. unfold to_policies. destruct (schema c) as [s|] eqn:Hs; [|eexists; split; [apply rtc_refl|done]].
    apply (policies_alone reg now c s (pending c) Hs ts0 []). }
  pose proof (quota_alone reg now c ts) as Hquota.
  destruct Hquota as (gs1 & Hgs1 & Hq). destruct (over_quota reg c ts) as [[e|] ts1]; [intros [= <- <-]; by exists gs1|].
  subst gs1. destruct (Hpol ts1) as (gs2 & Hgs2 & Hp).
  destruct (match schema c with Some _ => _ | None => _ end) as [[[|key keys]|e] ts2]; try subst gs2.
  - destruct (commit_batch _ _ _) as [r' cts''] eqn:Eb. intros [= <- <-]. eexists. split; [by etransitivity|].
    cbn [fst snd commit_step]. by rewrite Eb.
  - intros [= <- <-]. eexists. split; [by etransitivity|done].
  - intros [= <- <-]. eexists. split; [by etransitivity|exact Hp].
Qed.

(** The guards only read; a commit that gets past them is a batch. *)
Lemma commit_inv reg now c ts r c' ts' :
  commit max_blob reg now (c, ts) = (r, (c', ts')) ->
  (exists e, r = Err e /\ same_root ts ts') \/
  exists ts1, same_root ts ts1 /\
    apply_delta_batch_versioned max_blob now (pending c) (read_set c) ts1 = (r, ts') /\
    (forall s, schema c = Some s -> exists ts0, same_root ts ts0 /\ denied c s (pending c) ts0 = (Ok [], ts1)).
Proof.
  unfold commit. destruct (over_quota reg c ts) as [[e|] ts1] eqn:Eq; apply over_quota_root in Eq.
  { intros [= <- _ <-]. left. eauto. }
  set (g := match schema c with Some s => _ | None => _ end). destruct g as [[[|key keys]|e] ts2] eqn:Eg; unfold g in Eg.
  - assert (Hr : same_root ts ts2).
    { destruct (schema c) as [s|]; [|by simplify_eq]. apply denied_root in Eg. by eapply same_root_trans. }
    unfold commit_batch. destruct (apply_delta_batch_versioned _ _ _ _ ts2) as [[l|e] ts3] eqn:Ea; intros [= <- _ <-]; right;
      exists ts2; (split; [done|]; split; [done|]); intros s Hs; rewrite Hs in Eg; eauto.
  - intros [= <- _ <-]. left. eexists. split; [done|].
    destruct (schema c) as [s|]; [|done]. apply denied_root in Eg. by eapply same_root_trans.
  - intros [= <- _ <-]. left. eexists. split; [done|].
    destruct (schema c) as [s|]; [|done]. apply denied_root in Eg. by eapply same_root_trans.
Qed.

(** ** A reducer among other commits *)

(** The reducer's own operations, the guards of its commit, and the commits of others on the
    root store, which do not delete the row in question. *)
Inductive txn_step n k : Ctx * TableStore -> Ctx * TableStore -> Prop :=
| own_step {A} (f : op A) r cts cts' : reducer_op f -> f cts = (r, cts') -> txn_step n k cts cts'
| guard_step reg now g g' cts cts' : commit_step max_blob reg now g cts = (inl g', cts') -> txn_step n k cts cts'
| other_step c ts ts' :
    commits max_blob n k (root ts, blob_file ts) (root ts', blob_file ts') -> txn_step n k (c, ts) (c, ts').

Lemma txn_steps n k cts cts' : rtc (txn_step n k) cts cts' -> lru (root cts.2) = None ->
  kept_reads cts.1 cts'.1 /\ lru (root cts'.2) = None /\
  shard_count (root cts'.2) = shard_count (root cts.2) /\ moved n k (root cts.2) (root cts'.2).
Proof.
  induction 1 as [cts|cts1 cts2 cts3 Hs _ IH]; intros Hl; [split_and!; [by intros ?|done..|by left]|].
  assert (Hs' : kept_reads cts1.1 cts2.1 /\ lru (root cts2.2) = None /\
    shard_count (root cts2.2) = shard_count (root cts1.2) /\ moved n k (root cts1.2) (root cts2.2)).
  { destruct Hs as [A f r [c ts] [c' ts'] Hop E|reg now g g' [c ts] [c' ts'] E|c ts ts' Hc].
    - apply (reducer_op_frame f) in E as [[Hr _] Hk]; [|done]. cbn. rewrite Hr. split_and!; [done..|by left].
    - apply commit_step_inv in E as [(? & _ & -> & Hr & _)|[(? & [=] & _)|(? & [=] & _)]].
      cbn. rewrite Hr. split_and!; [by intros ?|done..|by left].
    - apply rtc_once, commits_version in Hc as (? & ? & _ & ?); [|done]. cbn. split_and!; [by intros ?|done..]. }
  destruct Hs' as (Hk & Hl2 & Hc & Hm). destruct (IH Hl2) as (Hk3 & ? & ? & ?).
  split_and!; [intros key v Hv; by apply Hk3, Hk|done|congruence|by eapply moved_trans].
Qed.

(** The root's part of a batch that commits. *)
Lemma versioned_root now ds rv ts l ts' :
  apply_delta_batch_versioned max_blob now ds rv ts = (Ok l, ts') -> ds <> [] ->
  exists l1 s1 f1, batch_inner max_blob now (List.filter (fun d => is_global (table_name d)) ds)
    (List.filter (fun r => is_global r.1.1) rv) (root ts, blob_file ts) = (Ok l1, (s1, f1)).
Proof.
  unfold apply_delta_batch_versioned. destruct ds as [|d ds]; [done|]. intros E _. unfold on_root in E.
  destruct (batch_inner _ _ _ _ _) as [[l1|e] [s1 f1]]; [by do 3 eexists|done].
Qed.

Lemma batch_lobbies_root now ds rv lids : forall res ts r ts',
  batch_lobbies max_blob now lids ds rv res ts = (r, ts') -> root ts' = root ts.
Proof.
  induction lids as [|lid lids IH]; intros res ts r ts'; cbn [batch_lobbies]; [by intros; simplify_eq|].
  destruct (on_lobby _ _ ts) as [r0 ts3] eqn:Eo.
  assert (Hr3 : root ts3 = root ts).
  { unfold on_lobby in Eo. destruct (batch_inner _ _ _ _ _) as [? [? ?]]. by simplify_eq. }
  destruct r0; [|by intros; simplify_eq]. intros E. apply IH in E. congruence.
Qed.

(** The rows a batch does not name stay, in the root store. *)
Lemma versioned_others n k now ds rv ts r ts' :
  lru (root ts) = None -> Forall (fun d => ~ names d n k) ds ->
  apply_delta_batch_versioned max_blob now ds rv ts = (r, ts') ->
  row_at (root ts') n k = row_at (root ts) n k.
Proof.
  intros Hl Hds. unfold apply_delta_batch_versioned. destruct ds as [|d ds]; [by intros; simplify_eq|].
  unfold on_root. destruct (batch_inner _ _ _ _ _) as [r1 [s1 f1]] eqn:Eb.
  assert (Hr : row_at s1 n k = row_at (root ts) n k).
  { eapply batch_others; [exact Hl| |exact Eb]. by apply Forall_filter. }
  destruct r1 as [l1|e]; [|by intros; simplify_eq].
  intros E%batch_lobbies_root. by rewrite E.
Qed.


(** ** Tenants *)

(** A logical name: not a system table, without a tenant prefix of its own. *)
Definition plain (name : Bytes) : Prop :=
  strip_prefix (bs "__") name = None /\ strip_prefix TENANT_PREFIX name = None.

Lemma phys_plain c t name : tenant_id c = Some t -> plain name -> phys c name = physical_table t name.
Proof. intros Ht [Hu Hp]. unfold phys. by rewrite Ht, Hu, Hp. Qed.

Lemma physical_belongs t name : belongs_to_tenant (physical_table t name) t = true.
Proof. apply belongs_spec. by exists name. Qed.

(** Calls that name tables logically. *)
Inductive tenant_op : forall {A}, op A -> Prop :=
| top_get name key : plain name -> tenant_op (get_row name key)
| top_set name key v : plain name -> tenant_op (set_row name key v)
| top_delete name key : plain name -> tenant_op (delete_row name key)
| top_get_counter name : tenant_op (get_counter name)
| top_set_counter name amount : tenant_op (set_counter name amount).

(** Everything staged and everything read lies in the tenant's tables. *)
Definition confined (t : Bytes) c : Prop :=
  tenant_id c = Some t /\ Forall (fun d => belongs_to_tenant (table_name d) t = true) (pending c) /\
  map_Forall (fun (key : Bytes * Bytes) _ => belongs_to_tenant key.1 t = true) (read_versions c).

Lemma confined_stage t c d : confined t c -> belongs_to_tenant (table_name d) t = true -> confined t (stage d c).
Proof. intros (Ht & Hp & Hr) Hd. split_and!; [done| |done]. cbn. apply Forall_app. auto. Qed.

Lemma get_row_confined t name key c ts r c' ts' :
  plain name -> confined t c -> get_row name key (c, ts) = (r, (c', ts')) -> confined t c'.
Proof.
  intros Hn (Ht & Hp & Hr). unfold get_row. rewrite (phys_plain c t name Ht Hn).
  destruct (List.find _ _); [by intros; simplify_eq|].
  destruct (get_row_with_version _ _ ts) as [[o|e] ts1]; intros; simplify_eq; [|done].
  unfold remember. destruct (read_versions c !! _); [done|]. split_and!; [done..|]. cbn.
  apply map_Forall_insert_2; [apply physical_belongs|done].
Qed.

Lemma plain_counters : plain (bs "counters").
Proof. by split. Qed.

Lemma tenant_op_confined {A} (f : op A) t c ts r c' ts' :
  tenant_op f -> confined t c -> f (c, ts) = (r, (c', ts')) -> confined t c'.
Proof.
  intros Hop Hc E. pose proof Hc as (Ht & _ & _).
  destruct Hop as [name key Hn|name key v Hn|name key Hn|name|name amount].
  - by eapply get_row_confined.
  - unfold set_row in E. destruct (match schema c with Some s => _ | None => _ end) as [v'|e]; [|by simplify_eq].
    destruct (get_row name key (c, ts)) as [[o|e] [c1 ts1]] eqn:Eg;
      apply (get_row_confined t) in Eg; try done; simplify_eq; [|done].
    apply confined_stage; [done|]. cbn [table_name delta_of]. rewrite (phys_plain c t) by done. apply physical_belongs.
  - unfold delete_row in E. simplify_eq. apply confined_stage; [done|]. cbn [table_name delta_of].
    rewrite (phys_plain c t) by done. apply physical_belongs.
  - unfold get_counter in E. destruct (get_counter_in_table _ _ ts). by simplify_eq.
  - unfold set_counter in E. simplify_eq. apply confined_stage; [done|]. cbn [table_name delta_of].
    rewrite (phys_plain c t (bs "counters") Ht plain_counters). apply physical_belongs.
Qed.

(** Two stores that show the tenant the same tables, whatever the others hold. *)
Record agree (t : Bytes) ts1 ts2 : Prop := {
  ag_shard : shard_id (root ts1) = shard_id (root ts2);
  ag_count : shard_count (root ts1) = shard_count (root ts2);
  ag_rows n k : belongs_to_tenant n t = true -> row_at (root ts1) n k = row_at (root ts2) n k;
  ag_values n k r : belongs_to_tenant n t = true -> row_at (root ts1) n k = Some r ->
    full_value (blob_file ts1) r = full_value (blob_file ts2) r }.

Lemma physical_global t name : parse_lobby_key (physical_table t name) = None.
Proof. done. Qed.

Lemma agree_version t ts1 ts2 n k : agree t ts1 ts2 -> belongs_to_tenant n t = true ->
  get_row_with_version_in (root ts1) (blob_file ts1) n k = get_row_with_version_in (root ts2) (blob_file ts2) n k.
Proof.
  intros [Hs Hc Hr Hv] Hb. unfold get_row_with_version_in. specialize (Hr n k Hb). specialize (Hv n k). unfold row_at in *.
  rewrite <- Hr. destruct (bool_decide _); [done|]. destruct (tables (root ts1) !! n ≫= _) as [r|]; [|done].
  unfold row_matches_shard. rewrite Hs, Hc, (Hv r Hb eq_refl). done.
Qed.

Lemma agree_get_row t ts1 ts2 name k : agree t ts1 ts2 ->
  (Table.get_row (physical_table t name) k ts1).1 = (Table.get_row (physical_table t name) k ts2).1.
Proof.
  intros Ha. unfold Table.get_row, route. rewrite physical_global. unfold on_root, reads, get_row_in. cbn.
  by rewrite (agree_version t ts1 ts2) by (done || apply physical_belongs).
Qed.

Lemma get_row_own t c ts1 ts2 name k : agree t ts1 ts2 -> tenant_id c = Some t -> plain name ->
  (get_row name k (c, ts1)).1 = (get_row name k (c, ts2)).1 /\
  (get_row name k (c, ts1)).2.1 = (get_row name k (c, ts2)).2.1 /\
  root (get_row name k (c, ts1)).2.2 = root ts1 /\ root (get_row name k (c, ts2)).2.2 = root ts2.
Proof.
  intros Ha Ht Hn. unfold get_row. rewrite (phys_plain c t name Ht Hn).
  destruct (List.find _ _); [done|]. unfold get_row_with_version, route. rewrite physical_global.
  unfold on_root, reads. cbn [fst snd]. rewrite (agree_version t ts1 ts2 _ k Ha) by apply physical_belongs.
  by destruct (get_row_with_version_in _ _ _ _) as [o|e].
Qed.

(** What a tenant's call answers, and stages, depends on the tenant's tables alone. *)
Lemma tenant_op_own {A} (f : op A) t c ts1 ts2 : tenant_op f -> agree t ts1 ts2 -> tenant_id c = Some t ->
  (f (c, ts1)).1 = (f (c, ts2)).1 /\ (f (c, ts1)).2.1 = (f (c, ts2)).2.1.
Proof.
  intros Hop Ha Ht. destruct Hop as [name key Hn|name key v Hn|name key Hn|name|name amount].
  - destruct (get_row_own t c ts1 ts2 name key Ha Ht Hn) as (? & ? & _). by split.
  - unfold set_row. destruct (match schema c with Some s => _ | None => _ end) as [v'|e]; [|done].
    destruct (get_row_own t c ts1 ts2 name key Ha Ht Hn) as (E1 & E2 & E3 & E4).
    destruct (get_row name key (c, ts1)) as [r1 [c1 u1]], (get_row name key (c, ts2)) as [r2 [c2 u2]]. cbn in *. subst r2 c2.
    destruct r1 as [o|e]; [|done]. cbn. by rewrite E3, E4, (ag_shard _ _ _ Ha).
  - unfold delete_row, delta_of. cbn. by rewrite (ag_shard _ _ _ Ha).
  - unfold get_counter, get_counter_in_table. rewrite (phys_plain c t (bs "counters") Ht plain_counters).
    pose proof (agree_get_row t ts1 ts2 (bs "counters") name Ha) as E.
    destruct (Table.get_row _ _ ts1) as [r1 u1], (Table.get_row _ _ ts2) as [r2 u2]. cbn in E. by subst r2.
  - unfold set_counter. cbn. by rewrite (ag_shard _ _ _ Ha).
Qed.

(** A tenant's reducer while anything else happens to the store. *)
Inductive tenant_step : Ctx * TableStore -> Ctx * TableStore -> Prop :=
| tenant_own {A} (f : op A) r cts cts' : tenant_op f -> f cts = (r, cts') -> tenant_step cts cts'
| tenant_guard reg now g g' cts cts' : commit_step max_blob reg now g cts = (inl g', cts') -> tenant_step cts cts'
| tenant_other c ts ts' : tenant_step (c, ts) (c, ts').

Lemma tenant_steps t cts cts' : rtc tenant_step cts cts' -> confined t cts.1 -> confined t cts'.1.
Proof.
  induction 1 as [|cts1 cts2 cts3 Hs _ IH]; [done|]. intros Hc. apply IH.
  destruct Hs as [A f r [c ts] [c' ts'] Hop E|reg now g g' [c ts] [c' ts'] E|c ts ts']; [by eapply tenant_op_confined| |done].
  by apply commit_step_inv in E as [(? & _ & -> & _)|[(? & [=] & _)|(? & [=] & _)]].
Qed.

(** C23: tenants are isolated. A reducer of a tenant reads, writes and deletes rows and reads and
    adds to counters, naming its tables logically, while anything else happens to the store
    between its calls and between the guards of its commit. Then what each such call answers
    and stages depends on the tenant's own tables alone; the rows whose versions it remembers
    are in them; and no step of its commit changes a row of a table of anyone else in the root
    store, without eviction: of a global table or of another tenant. Other calls of a reducer are not
    isolated: the list of counters is the global one (list_counters_is_global), and times to
    live are set on the table of the name as given. *)
Theorem tenant_isolated t c0 ts0 c ts reg now g o c' ts' :
  colon_free t -> tenant_id c0 = Some t -> pending c0 = [] -> read_versions c0 = ∅ ->
  rtc tenant_step (c0, ts0) (c, ts) -> lru (root ts) = None ->
  commit_step max_blob reg now g (c, ts) = (o, (c', ts')) ->
  (forall A (f : op A) u1 u2, tenant_op f -> agree t u1 u2 ->
    (f (c, u1)).1 = (f (c, u2)).1 /\ (f (c, u1)).2.1 = (f (c, u2)).2.1) /\
  (forall n k v, read_versions c !! (n, k) = Some v -> belongs_to_tenant n t = true) /\
  (forall n k, belongs_to_tenant n t = false -> row_at (root ts') n k = row_at (root ts) n k) /\
  (forall u n k, colon_free u -> u <> t -> belongs_to_tenant n u = true ->
    row_at (root ts') n k = row_at (root ts) n k).
Proof.
  intros Ht Hid Hp0 Hr0 Hrun Hl Hc.
  assert (Hconf : confined t c).
  { apply (tenant_steps t) in Hrun; [done|]. cbn. split_and!; [done|by rewrite Hp0|rewrite Hr0; apply map_Forall_empty]. }
  destruct Hconf as (Htid & Hpend & Hreads).
  assert (Hrows : forall n k, belongs_to_tenant n t = false -> row_at (root ts') n k = row_at (root ts) n k).
  { intros n k Hb. apply commit_step_inv in Hc as [(? & _ & _ & [-> _])|[(? & _ & [-> _])|(? & _ & _ & Ha)]]; [done..|].
    eapply versioned_others; [exact Hl| |exact Ha].
    eapply Forall_impl; [exact Hpend|]. cbn. intros d Hd [Hn _]. congruence. }
  split_and!; [|..|done|].
  - intros A f u1 u2 Hop Ha. by apply (tenant_op_own f t).
  - intros n k v Hv. by apply (Hreads (n, k) v).
  - intros u n k Hu Hne Hb. apply Hrows. destruct (belongs_to_tenant n t) eqn:E; [|done].
    destruct Hne. by eapply belongs_unique.
Qed.

(** ** Policies *)

(** A write that a policy lets through was granted on the row it found. *)
Lemma denies_grants c s d ts ts' p : denies c s d ts = (Ok None, ts') -> operation d <> bs "insert" ->
  operation d <> bs "counter_add" -> s !! logical_table (table_name d) = Some p -> parse_lobby_key (table_name d) = None ->
  exists row, get_row_in (root ts) (blob_file ts) (table_name d) (row_key d) = Ok row /\
    rls_check (rls p) row (caller_id c) (caller_role c) = true.
Proof.
  intros E Hi Hca Hp Hn. unfold denies in E.
  destruct (beq (operation d) (bs "counter_add")) eqn:E1; [by apply beq_true in E1|]. rewrite Hp in E.
  destruct (beq (operation d) (bs "insert")) eqn:E2; [by apply beq_true in E2|].
  unfold Table.get_row, route in E. rewrite Hn in E. unfold on_root, reads in E. cbn [fst snd] in E.
  destruct (get_row_in _ _ _ _) as [row|e]; [|done]. cbn in E. exists row. split; [done|].
  by destruct (rls_check _ _ _ _).
Qed.

(** C22: the policies guard the rows they protect: when a commit is accepted, every staged
    update or delete of a table with a policy was on a row that the policy grants the caller
    at the moment of the commit. *)
Theorem policies_guard_rows reg now c ts l c' ts' s d p :
  commit max_blob reg now (c, ts) = (Ok l, (c', ts')) -> schema c = Some s ->
  d ∈ pending c -> operation d <> bs "insert" -> operation d <> bs "counter_add" ->
  s !! logical_table (table_name d) = Some p -> parse_lobby_key (table_name d) = None ->
  exists row, get_row_in (root ts) (blob_file ts) (table_name d) (row_key d) = Ok row /\
    rls_check (rls p) row (caller_id c) (caller_role c) = true.
Proof.
  intros Hc Hs Hd Hi Hca Hp Hn.
  apply commit_inv in Hc as [(e & [=] & _)|(ts1 & _ & _ & Hg)]. destruct (Hg s Hs) as (ts0 & [Hr0 Hb0] & Hden).
  rewrite <- Hr0, <- Hb0. clear Hg. revert ts0 ts1 Hr0 Hb0 Hden.
  induction (pending c) as [|d' l' IH]; [by apply elem_of_nil in Hd|].
  intros ts0 ts1 Hr0 Hb0. cbn [denied]. destruct (denies c s d' ts0) as [[o|e] ts2] eqn:E; [|done].
  destruct (denied c s l' ts2) as [[k|e] ts3] eqn:E3; [|done]. cbn. intros [= Ho <-].
  destruct o; [done|]. cbn in Ho. subst k. apply elem_of_cons in Hd as [<-|Hd]; [by eapply denies_grants|].
  apply denies_root in E as [Hr2 Hb2]. rewrite <- Hr2, <- Hb2. apply (IH Hd ts2 ts3); [congruence..|done].
Qed.
End Facts.

(** ** Witnesses and counterexamples *)

#[local] Existing Instances demo_serde demo_laws demo_lowercase.

Definition demo_reg : TenantRegistry := {| key_index := ∅; tenants := ∅; buckets := ∅ |}.


Definition demo_acme : Bytes := bs "acme-1a2b3c".
Definition demo_tenant_ctx : Ctx := with_tenant demo_acme (ctx_new 1).

Lemma tenant_isolated_witness :
  let '(_, cts) := set_row (bs "t") (bs "a") (demo_row 12) (demo_tenant_ctx, demo_t3) in
  let '(_, (_, ts')) := commit_step 1000 demo_reg demo_now (AtPolicies [] []) cts in
  row_at (root ts') (bs "t") (bs "a") = row_at (root cts.2) (bs "t") (bs "a").
Proof.
  destruct (set_row (bs "t") (bs "a") (demo_row 12) (demo_tenant_ctx, demo_t3)) as [r1 [c ts]] eqn:Es.
  destruct (commit_step 1000 demo_reg demo_now (AtPolicies [] []) (c, ts)) as [r [c' ts']] eqn:Ec. cbn [snd].
  apply (tenant_isolated 1000 demo_acme demo_tenant_ctx demo_t3 c ts demo_reg demo_now (AtPolicies [] []) r c' ts').
  - unfold colon_free. intros Hin. apply (bool_decide_eq_true_2 (58 ∈ demo_acme)) in Hin. by vm_compute in Hin.
  - reflexivity.
  - reflexivity.
  - reflexivity.
  - apply rtc_once. refine (tenant_own 1000 (set_row (bs "t") (bs "a") (demo_row 12)) r1 _ _ _ Es).
    apply top_set. by split.
  - vm_compute in Es. by injection Es as <- <- <-.
  - exact Ec.
  - by vm_compute.
Defined.

(** Rows of players belong to the player named in them. *)
Definition demo_policy : SchemaRegistry :=
  {[bs "players" := {| schema_name := bs "players"; primary_key := None; columns := [];
                       rls := OwnerField (bs "owner") |}]}.
Definition demo_caller (id : Bytes) : Ctx :=
  {| timestamp := 1; caller_id := id; caller_role := bs "user"; schema := Some demo_policy;
     tenant_id := None; pending := []; read_versions := ∅ |}.
Definition demo_owned (owner : Bytes) (gold : Z) : Value :=
  Object [(bs "gold", Num (PosInt gold)); (bs "owner", Str owner)].
Definition demo_bob : TableStore :=
  snd (Table.set_row 1000 (bs "players") (bs "bob") (demo_owned (bs "bob") 5) (table_store_new NoEviction [])).

Lemma policies_guard_rows_witness :
  let '(_, cts) := delete_row (bs "players") (bs "bob") (demo_caller (bs "bob"), demo_bob) in
  exists row, get_row_in (root demo_bob) (blob_file demo_bob) (bs "players") (bs "bob") = Ok row /\
    rls_check (OwnerField (bs "owner")) row (bs "bob") (bs "user") = true.
Proof.
  destruct (delete_row (bs "players") (bs "bob") (demo_caller (bs "bob"), demo_bob)) as [r1 [c ts]] eqn:Es.
  destruct (commit 1000 demo_reg demo_now (c, ts)) as [r [c' ts']] eqn:Ec.
  assert (Hts : ts = demo_bob) by (cbv [delete_row] in Es; by injection Es).
  assert (Hc : c = stage (delta_of (demo_caller (bs "bob")) demo_bob (bs "players") (bs "delete") (bs "bob")) (demo_caller (bs "bob")))
    by (cbv [delete_row] in Es; by injection Es).
  subst c ts. assert (Hr : exists l, r = Ok l).
  { clear Es. vm_compute in Ec. injection Ec as <- <- <-. by eexists. }
  destruct Hr as [l ->].
  exact (policies_guard_rows 1000 demo_reg demo_now _ demo_bob l c' ts' demo_policy
    (delta_of (demo_caller (bs "bob")) demo_bob (bs "players") (bs "delete") (bs "bob"))
    {| schema_name := bs "players"; primary_key := None; columns := []; rls := OwnerField (bs "owner") |}
    Ec eq_refl (list_elem_of_here _ _) ltac:(discriminate) ltac:(discriminate) eq_refl eq_refl).
Defined.

(** Another caller is refused to delete the row, but may overwrite it: the policy hides the row
    from the read in [set_row], the write is then staged as an insert, and inserts pass. *)
Lemma rls_insert_overwrites :
  let '(r1, cts1) := delete_row (bs "players") (bs "bob") (demo_caller (bs "alice"), demo_bob) in
  let '(r2, _) := commit 1000 demo_reg demo_now cts1 in
  let '(r3, cts3) := set_row (bs "players") (bs "bob") (demo_owned (bs "alice") 0) (demo_caller (bs "alice"), demo_bob) in
  let '(r4, (_, ts)) := commit 1000 demo_reg demo_now cts3 in
  r2 = Err (PermissionDenied (bs "Access denied to rows: [" ++ [34] ++ bs "players/bob" ++ [34] ++ bs "]")) /\
  ok_with (fun l => zlen l =? 1) r4 = true /\
  (row_at (root ts) (bs "players") (bs "bob") ≫= row_value) =
    Some (Object [(bs "gold", Num (PosInt 0)); (bs "owner", Str (bs "alice"));
                  (bs "row_key", Str (bs "bob")); (bs "shard_id", Num (PosInt 0))]).
Proof. vm_compute. auto. Qed.

(** The policy is asked before the batch, with no lock in between: alice may delete her row, it
    becomes bob's, and the batch deletes bob's row, since nothing was read of it. *)
Lemma policy_asked_too_early :
  let ts0 := snd (Table.set_row 1000 (bs "players") (bs "x") (demo_owned (bs "alice") 5) (table_store_new NoEviction [])) in
  let '(_, cts) := delete_row (bs "players") (bs "x") (demo_caller (bs "alice"), ts0) in
  let '(g1, cts) := commit_step 1000 demo_reg demo_now AtQuota cts in
  let '(g2, (c, ts)) := commit_step 1000 demo_reg demo_now (match g1 with inl g => g | inr _ => AtQuota end) cts in
  let ts := snd (Table.set_row 1000 (bs "players") (bs "x") (demo_owned (bs "bob") 5) ts) in
  let '(r, (_, ts')) := commit_step 1000 demo_reg demo_now (match g2 with inl g => g | inr _ => AtQuota end) (c, ts) in
  ok_with (fun l => zlen l =? 1) (match r with inr r => r | inl _ => Ok [] end) = true /\
  (row_at (root ts) (bs "players") (bs "x") ≫= row_value) =
    Some (Object [(bs "gold", Num (PosInt 5)); (bs "owner", Str (bs "bob"));
                  (bs "row_key", Str (bs "x")); (bs "shard_id", Num (PosInt 0))]) /\
  row_at (root ts') (bs "players") (bs "x") = None.
Proof. vm_compute. auto. Qed.

(** A tenant that spells out the prefix of another reads and writes the other's tables. *)
Lemma tenant_prefix_escapes :
  let '(_, (_, ts1)) := commit 1000 demo_reg demo_now
    (snd (set_row (bs "vault") (bs "k") (demo_row 1) (with_tenant (bs "victim-1") (ctx_new 1), demo_t3))) in
  let '(_, (_, ts2)) := commit 1000 demo_reg demo_now
    (snd (set_row (bs "tn:victim-1:vault") (bs "k") (demo_row 2) (demo_tenant_ctx, ts1))) in
  version_at (root ts1) (bs "tn:victim-1:vault") (bs "k") = 1 /\
  version_at (root ts2) (bs "tn:victim-1:vault") (bs "k") = 2.
Proof. by vm_compute. Qed.

(** [list_counters] does not map the table's name: a tenant sees the global counters, and not
    its own. *)
Lemma list_counters_is_global :
  let ts := snd (Table.set_counter 1000 (bs "visits") 7 0 demo_t3) in
  ok_with (fun l => zlen l =? 1) (fst (list_counters (demo_tenant_ctx, ts))) = true.
Proof. by vm_compute. Qed.

(** A counter staged in this reducer is missing from its own [get_row]. *)
Lemma staged_counter_reads_none :
  let ts := snd (Table.set_counter 1000 (bs "visits") 7 0 demo_t3) in
  let '(_, cts) := set_counter (bs "visits") 1 (ctx_new 1, ts) in
  fst (get_row (bs "counters") (bs "visits") cts) = Ok None.
Proof. by vm_compute. Qed.
