(* ===== verification/Ttl.v ===== *)
(** * Row expiry (src/ttl.rs)

    The manager's heap of expiries and its index of the ones in force; replaced and cancelled
    entries stay in the heap until they surface. The heap is a list, its top the leftmost of
    the earliest entries: the order of entries that expire together is the heap's affair. *)

From S2P Require Import Prelude.
From Stdlib Require Import Sorted.

Record TtlEntry := { ttl_table : Bytes; ttl_key : Bytes; expires_at_ms : Z }.

Record TtlManager := { heap : list TtlEntry; index : gmap (Bytes * Bytes) Z }.

Definition ttl_new : TtlManager := {| heap := []; index := ∅ |}.

Definition entry_key (e : TtlEntry) : Bytes * Bytes := (ttl_table e, ttl_key e).

Definition set_expires_at (table key : Bytes) (at_ms : Z) (m : TtlManager) : TtlManager :=
  {| heap := heap m ++ [{| ttl_table := table; ttl_key := key; expires_at_ms := at_ms |}];
     index := <[(table, key) := at_ms]> (index m) |}.

(** [now_ms + ttl_ms] on a [u64]: release builds wrap. *)
Definition set_ttl (table key : Bytes) (now_ms ttl_ms : Z) (m : TtlManager) : TtlManager :=
  set_expires_at table key (wrap_u64 (now_ms + ttl_ms)) m.

Definition cancel_ttl (table key : Bytes) (m : TtlManager) : bool * TtlManager :=
  (bool_decide (is_Some (index m !! (table, key))),
   {| heap := heap m; index := delete (table, key) (index m) |}).

Definition get_ttl (table key : Bytes) (m : TtlManager) : option Z := index m !! (table, key).
Definition has_ttl (table key : Bytes) (m : TtlManager) : bool := bool_decide (is_Some (index m !! (table, key))).
Definition ttl_count (m : TtlManager) : Z := Z.of_nat (size (index m)).

(** The top of the heap and the rest. *)
Fixpoint pop_min (h : list TtlEntry) : option (TtlEntry * list TtlEntry) :=
  match h with
  | [] => None
  | e :: h' =>
      match pop_min h' with
      | None => Some (e, [])
      | Some (m, r) => if expires_at_ms e <=? expires_at_ms m then Some (e, h') else Some (m, e :: r)
      end
  end.

(** The loop of [collect_expired]; it pops at most every entry. *)
Fixpoint collect_loop (fuel : nat) (now_ms : Z) (m : TtlManager) (expired : list TtlEntry)
  : list TtlEntry * TtlManager :=
  match fuel with
  | O => (expired, m)
  | S f =>
      match pop_min (heap m) with
      | Some (e, h) =>
          if expires_at_ms e <=? now_ms then
            if bool_decide (index m !! entry_key e = Some (expires_at_ms e)) then
              collect_loop f now_ms {| heap := h; index := delete (entry_key e) (index m) |} (expired ++ [e])
            else collect_loop f now_ms {| heap := h; index := index m |} expired
          else (expired, m)
      | None => (expired, m)
      end
  end.

Definition collect_expired (now_ms : Z) (m : TtlManager) : list TtlEntry * TtlManager :=
  collect_loop (length (heap m)) now_ms m [].

(** ** The heap *)

Lemma pop_min_None h : pop_min h = None -> h = [].
Proof. destruct h as [|e h]; [done|]. cbn. destruct (pop_min h) as [[x r]|]; [|done]. by destruct (_ <=? _). Qed.

Lemma pop_min_spec h : forall e r, pop_min h = Some (e, r) ->
  h ≡ₚ e :: r /\ Forall (fun x => expires_at_ms e <= expires_at_ms x) h.
Proof.
  induction h as [|a h IH]; intros e r; cbn; [done|].
  destruct (pop_min h) as [[x s]|] eqn:E.
  - destruct (IH x s eq_refl) as [Hp Hf]. destruct (_ <=? _) eqn:Ec; zbool; intros [= <- <-].
    + split; [done|]. constructor; [lia|]. eapply Forall_impl; [exact Hf|]. cbn. lia.
    + split; [by rewrite Hp; apply perm_swap|]. constructor; [lia|done].
  - apply pop_min_None in E as ->. intros [= <- <-]. split; [done|]. repeat constructor. lia.
Qed.

(** ** Managers in use *)

(** Every expiry in force is in the heap. *)
Definition ttl_ok (m : TtlManager) : Prop :=
  forall k t, index m !! k = Some t -> exists e, e ∈ heap m /\ entry_key e = k /\ expires_at_ms e = t.

Inductive ttl_step : TtlManager -> TtlManager -> Prop :=
| ttl_sets table key at_ms m : ttl_step m (set_expires_at table key at_ms m)
| ttl_cancels table key m : ttl_step m (snd (cancel_ttl table key m))
| ttl_collects now_ms m : ttl_step m (snd (collect_expired now_ms m)).

Definition by_expiry (a b : TtlEntry) : Prop := expires_at_ms a <= expires_at_ms b.

(** What a collection finds and what it leaves. *)
Definition collected (now_ms : Z) (m : TtlManager) (new : list TtlEntry) (m' : TtlManager) : Prop :=
  ttl_ok m' /\
  (forall e, e ∈ new <-> index m !! entry_key e = Some (expires_at_ms e) /\ expires_at_ms e <= now_ms) /\
  NoDup (map entry_key new) /\
  (forall e, e ∈ new -> Exists (fun x => expires_at_ms x = expires_at_ms e) (heap m)) /\
  StronglySorted by_expiry new /\
  (forall k, index m' !! k = match index m !! k with Some t => if t <=? now_ms then None else Some t | None => None end).

(** Nothing in force has come. *)
Lemma collected_stop now_ms m : ttl_ok m -> (forall k t, index m !! k = Some t -> now_ms < t) ->
  collected now_ms m [] m.
Proof.
  intros Hok Hfar. unfold collected. split_and!; [done| |constructor|by intros ? ?%elem_of_nil|constructor|].
  - intros x. split; [by intros ?%elem_of_nil|]. intros [Hx%Hfar ?]. lia.
  - intros k. destruct (index m !! k) as [t|] eqn:E; [|done]. apply Hfar in E. by rewrite zle_false.
Qed.

Lemma ttl_ok_future now_ms m e : ttl_ok m -> now_ms < expires_at_ms e ->
  Forall (fun x => expires_at_ms e <= expires_at_ms x) (heap m) ->
  forall k t, index m !! k = Some t -> now_ms < t.
Proof. rewrite Forall_forall. intros Hok He Hmin k t (x & Hx & _ & Ht)%Hok. apply Hmin in Hx. lia. Qed.

(** A replaced or cancelled entry surfaces. *)
Lemma ttl_ok_ghost m e h : ttl_ok m -> heap m ≡ₚ e :: h -> index m !! entry_key e <> Some (expires_at_ms e) ->
  ttl_ok {| heap := h; index := index m |}.
Proof.
  intros Hok Hp Hv k t Hk. apply Hok in Hk as Hx. destruct Hx as (x & Hx & Hxk & Hxt). rewrite Hp in Hx.
  apply elem_of_cons in Hx as [->|Hx]; [cbn in Hk; congruence|]. by exists x.
Qed.

Lemma collected_ghost now_ms m e h new m' : heap m ≡ₚ e :: h ->
  collected now_ms {| heap := h; index := index m |} new m' -> collected now_ms m new m'.
Proof.
  intros Hp (Hok & Hin & Hnd & Hheap & Hs & Hix). unfold collected. split_and!; [done..| |done|done].
  intros x Hx. rewrite Hp. right. by apply Hheap.
Qed.

(** An expiry in force is taken. *)
Lemma ttl_ok_take m e h : ttl_ok m -> heap m ≡ₚ e :: h ->
  ttl_ok {| heap := h; index := delete (entry_key e) (index m) |}.
Proof.
  intros Hok Hp k t Hk. cbn in Hk. apply lookup_delete_Some in Hk as [Hne Hk]. apply Hok in Hk as (x & Hx & Hxk & Hxt).
  rewrite Hp in Hx. apply elem_of_cons in Hx as [->|Hx]; [congruence|]. by exists x.
Qed.

Lemma collected_take now_ms m e h new m' :
  heap m ≡ₚ e :: h -> Forall (fun x => expires_at_ms e <= expires_at_ms x) (heap m) ->
  expires_at_ms e <= now_ms -> index m !! entry_key e = Some (expires_at_ms e) ->
  collected now_ms {| heap := h; index := delete (entry_key e) (index m) |} new m' ->
  collected now_ms m (e :: new) m'.
Proof.
  intros Hp Hmin Ee Hv (Hok & Hin & Hnd & Hheap & Hs & Hix). cbn in *. unfold collected.
  rewrite Hp in Hmin. apply Forall_cons in Hmin as [_ Hmin]. rewrite Forall_forall in Hmin.
  split_and!; [done| | | | |].
  - intros x. rewrite elem_of_cons, Hin. split.
    + intros [->|[Hx ?]]; [done|]. by apply lookup_delete_Some in Hx as [_ ?].
    + intros [Hx Hle]. destruct (decide (entry_key x = entry_key e)) as [Hk|Hk].
      * left. rewrite Hk, Hv in Hx. destruct x as [a b c], e as [a' b' c']. unfold entry_key in Hk. cbn in *. congruence.
      * right. by rewrite lookup_delete_ne by congruence.
  - cbn. constructor; [|done]. intros (x & Hk & Hx)%list_elem_of_fmap. apply Hin in Hx as [Hx _].
    by rewrite <- Hk, lookup_delete_eq in Hx.
  - intros x [->|Hx]%elem_of_cons; [rewrite Hp; by constructor|]. rewrite Hp. right. by apply Hheap.
  - constructor; [done|]. apply Forall_forall. intros x Hx. apply Hheap, Exists_exists in Hx as (y & Hy & Hxy).
    unfold by_expiry. rewrite <- Hxy. by apply Hmin.
  - intros k. rewrite Hix. destruct (decide (k = entry_key e)) as [->|Hk].
    + rewrite lookup_delete_eq, Hv. by rewrite zle_true.
    + by rewrite lookup_delete_ne by congruence.
Qed.

Lemma collect_loop_spec now_ms : forall fuel m expired, ttl_ok m -> (length (heap m) <= fuel)%nat ->
  exists new m', collect_loop fuel now_ms m expired = (expired ++ new, m') /\ collected now_ms m new m'.
Proof.
  induction fuel as [|fuel IH]; intros m expired Hok Hlen.
  all: assert (Hempty : heap m = [] -> collected now_ms m [] m)
    by (intros Hh; apply collected_stop; [done|]; intros k t (e & He & _)%Hok; rewrite Hh in He; by apply elem_of_nil in He).
  { exists [], m. rewrite app_nil_r. split; [done|]. apply Hempty. by destruct (heap m); [|cbn in Hlen; lia]. }
  cbn [collect_loop]. destruct (pop_min (heap m)) as [[e h]|] eqn:Ep.
  2: { exists [], m. rewrite app_nil_r. split; [done|]. by apply Hempty, pop_min_None. }
  apply pop_min_spec in Ep as [Hp Hmin]. assert (Hlen' : (length h <= fuel)%nat) by (rewrite Hp in Hlen; cbn in Hlen; lia).
  destruct (expires_at_ms e <=? now_ms) eqn:Ee; zbool.
  - case_bool_decide as Hv.
    + destruct (IH _ (expired ++ [e]) (ttl_ok_take m e h Hok Hp) Hlen') as (new & m' & E & Hc).
      exists (e :: new), m'. rewrite E, <- app_assoc. split; [done|]. by eapply collected_take.
    + destruct (IH _ expired (ttl_ok_ghost m e h Hok Hp Hv) Hlen') as (new & m' & E & Hc).
      exists new, m'. split; [done|]. by eapply collected_ghost.
  - exists [], m. rewrite app_nil_r. split; [done|]. apply collected_stop; [done|]. by eapply ttl_ok_future.
Qed.

Lemma ttl_reachable m : rtc ttl_step ttl_new m -> ttl_ok m.
Proof.
  intros Hr. assert (Hnew : ttl_ok ttl_new) by (intros k t E; cbn in E; by apply lookup_empty_Some in E).
  induction Hr as [|m1 m2 m3 Hs _ IH]; [done|]. apply IH. clear IH.
  destruct Hs as [table key at_ms m|table key m|now_ms m].
  - intros k t. cbn. destruct (decide (k = (table, key))) as [->|Hk].
    + rewrite lookup_insert_eq. intros [= <-]. eexists. split; [apply elem_of_app; right; apply list_elem_of_here|done].
    + rewrite lookup_insert_ne by done. intros (e & He & ?)%Hnew. exists e. split; [apply elem_of_app; by left|done].
  - intros k t. cbn. intros [_ Hk]%lookup_delete_Some. by apply Hnew.
  - destruct (collect_loop_spec now_ms (length (heap m)) m [] Hnew) as (new & m' & E & Hok & _); [done|].
    unfold collect_expired. by rewrite E.
Qed.

(** Expiry is exact: whatever was set, replaced, cancelled and collected before, a
    collection returns exactly the rows whose expiry in force has come, each once and the
    earliest first, and leaves in force exactly the others: a replaced or cancelled expiry
    never strikes. *)
Theorem collect_expired_exact m now_ms expired m' :
  rtc ttl_step ttl_new m -> collect_expired now_ms m = (expired, m') ->
  (forall e, e ∈ expired <->
    get_ttl (ttl_table e) (ttl_key e) m = Some (expires_at_ms e) /\ expires_at_ms e <= now_ms) /\
  NoDup (map entry_key expired) /\ StronglySorted by_expiry expired /\
  forall table key, get_ttl table key m' =
    match get_ttl table key m with Some t => if t <=? now_ms then None else Some t | None => None end.
Proof.
  intros Hm%ttl_reachable E.
  destruct (collect_loop_spec now_ms (length (heap m)) m [] Hm) as (new & m1 & E1 & _ & Hin & Hnd & _ & Hs & Hix); [done|].
  unfold collect_expired in E. rewrite E1 in E. injection E as <- <-. cbn.
  split_and!; [exact Hin|done|done|]. intros table key. apply Hix.
Qed.

Lemma collect_expired_exact_witness :
  let m := set_expires_at (bs "t") (bs "b") 20 (set_expires_at (bs "t") (bs "a") 90
             (set_expires_at (bs "t") (bs "a") 10 ttl_new)) in
  fst (collect_expired 50 m) = [{| ttl_table := bs "t"; ttl_key := bs "b"; expires_at_ms := 20 |}] /\
  get_ttl (bs "t") (bs "a") (snd (collect_expired 50 m)) = Some 90.
Proof.
  cbn zeta. set (m := set_expires_at _ _ _ _). split; [by vm_compute|].
  assert (Hr : rtc ttl_step ttl_new m) by (do 3 (eapply rtc_l; [apply ttl_sets|]); apply rtc_refl).
  destruct (collect_expired_exact m 50 _ _ Hr (surjective_pairing _)) as (_ & _ & _ & Hget).
  rewrite Hget. by vm_compute.
Defined.

(** A lifetime that does not fit wraps: the row expires at once. *)
Lemma ttl_overflow_expires :
  fst (collect_expired 1000 (set_ttl (bs "t") (bs "a") 1000 (2 ^ 64 - 1) ttl_new))
  = [{| ttl_table := bs "t"; ttl_key := bs "a"; expires_at_ms := 999 |}].
Proof. by vm_compute. Qed.
