(* ===== verification/Wal.v ===== *)
(** * The write-ahead log and snapshots (src/wal/*, start-up in src/server.rs, src/app/)

    Entries and their frames, the batched writer and its flusher thread, the reader, snapshot
    files, and the recovery of both server assemblies. MessagePack and CRC-32 are the class
    [WalCodec]. The flusher runs in passes: what it drains from its channel, one write, the
    acknowledgements. A write that fails may have written some bytes; failing renames are
    modelled, failing opens are not. *)

From S2P Require Import Prelude Util Aof Json JsonCodec Errors Table.

Record WalHeader := {
  w_version : Z; entry_type : Z; w_timestamp : Z; sequence_number : Z; checksum : Z }.

Record ReducerCallEntry := { reducer_id : Bytes; w_args : Bytes; deltas : list RowDelta }.

Record WalEntry := { header : WalHeader; payload : ReducerCallEntry }.

Record SnapshotMeta := {
  s_version : Z; last_sequence : Z; s_timestamp : Z; s_row_count : Z; s_next_row_id : Z }.

Record SnapshotFile := { meta : SnapshotMeta; s_tables : gmap Bytes (list (Bytes * Value)) }.

(** ** Library code *)

Class WalCodec := {
  payload_to_vec : ReducerCallEntry -> option Bytes;    (* rmp_serde::to_vec *)
  entry_to_vec : WalEntry -> option Bytes;
  entry_from_slice : Bytes -> option WalEntry;          (* rmp_serde::from_slice *)
  snapshot_to_vec : SnapshotFile -> option Bytes;
  snapshot_from_slice : Bytes -> option SnapshotFile;
  crc32_hash : Bytes -> Z }.                            (* crc32fast::hash *)

(** What an entry can carry: the shared payload is not serialized, and a value that is null
    would come back as no value. *)
Definition delta_kept (d : RowDelta) : Prop :=
  payload_arc d = None /\
  match row_data d with Some v => storable v = true /\ v <> Null | None => True end.

Class WalCodecLaws `{WalCodec} := {
  entry_round : forall e b, Forall delta_kept (deltas (payload e)) -> entry_to_vec e = Some b ->
    entry_from_slice b = Some e }.

(** ** The channel *)

Inductive FlushCommand : Type :=
| Append (encoded : Bytes) (seq : Z)
| Truncate (seq : Z)
| Flush (reply : Z)
| Shutdown.

(** How a write of the flusher ends: done, or failed after some bytes. *)
Inductive Io : Type := IoOk | IoErr (written : nat).

Record Flusher := {
  f_file : Bytes;          (* the log *)
  f_durable : nat;         (* of it, the bytes that are synced *)
  f_old : option Bytes;    (* the log before the last rotation *)
  f_buffer : Bytes;
  f_size : Z;              (* current_file_size, and the shared copy of it *)
  f_shared_size : Z;
  f_entries : Z }.

Definition flusher_open (file : Bytes) : Flusher :=
  {| f_file := file; f_durable := length file; f_old := None; f_buffer := [];
     f_size := zlen file; f_shared_size := zlen file; f_entries := 0 |}.

Definition frame (encoded : Bytes) : Bytes := to_le_bytes (wrap_u32 (zlen encoded)) ++ encoded.

(** [flush_to_disk]: the buffer is emptied when the write succeeds. *)
Definition flush_to_disk (unsafe_no_fsync : bool) (io : Io) (f : Flusher) : bool * Flusher :=
  match f_buffer f with
  | [] => (true, f)
  | b =>
      match io with
      | IoOk =>
          let file := f_file f ++ b in
          (true, {| f_file := file; f_durable := if unsafe_no_fsync then f_durable f else length file;
                    f_old := f_old f; f_buffer := []; f_size := f_size f;
                    f_shared_size := f_shared_size f; f_entries := f_entries f |})
      | IoErr n =>
          (false, {| f_file := f_file f ++ take n b; f_durable := f_durable f; f_old := f_old f;
                     f_buffer := b; f_size := f_size f; f_shared_size := f_shared_size f;
                     f_entries := f_entries f |})
      end
  end.

(** A flush that counts what it wrote. *)
Definition flush_counted (unsafe_no_fsync : bool) (io : Io) (f : Flusher) : Flusher :=
  let n := zlen (f_buffer f) in
  let '(ok, f) := flush_to_disk unsafe_no_fsync io f in
  if ok then {| f_file := f_file f; f_durable := f_durable f; f_old := f_old f; f_buffer := f_buffer f;
                f_size := f_size f + n; f_shared_size := f_size f + n; f_entries := f_entries f |}
  else f.

Definition GUARD : Z := 4 * 1024 * 1024.

(** One command of a pass; the acknowledgements wait for its end. *)
Definition flush_command (unsafe_no_fsync : bool) (io : Io) (rename_ok : bool) (cmd : FlushCommand)
    (f : Flusher) : Flusher :=
  match cmd with
  | Append encoded _ =>
      let f := {| f_file := f_file f; f_durable := f_durable f; f_old := f_old f;
                  f_buffer := f_buffer f ++ frame encoded; f_size := f_size f;
                  f_shared_size := f_shared_size f; f_entries := f_entries f + 1 |} in
      if GUARD <? zlen (f_buffer f) then flush_counted unsafe_no_fsync io f else f
  | Truncate _ =>
      let '(_, f) := flush_to_disk unsafe_no_fsync io f in
      if rename_ok then
        {| f_file := []; f_durable := 0; f_old := Some (f_file f); f_buffer := f_buffer f;
           f_size := 0; f_shared_size := 0; f_entries := f_entries f |}
      else
        {| f_file := f_file f; f_durable := f_durable f; f_old := f_old f; f_buffer := f_buffer f;
           f_size := 0; f_shared_size := 0; f_entries := f_entries f |}
  | Flush _ | Shutdown => f
  end.

(** What the outside does during a pass, command by command and at its end. *)
Record PassEnv := { p_io : nat -> Io; p_rename : nat -> bool; p_last : Io }.

Fixpoint flush_commands (unsafe_no_fsync : bool) (env : PassEnv) (i : nat) (cmds : list FlushCommand)
    (f : Flusher) : Flusher :=
  match cmds with
  | [] => f
  | c :: cmds' =>
      flush_commands unsafe_no_fsync env (S i) cmds'
        (flush_command unsafe_no_fsync (p_io env i) (p_rename env i) c f)
  end.

Definition acks_of (cmds : list FlushCommand) : list Z :=
  omap (fun c => match c with Flush r => Some r | _ => None end) cmds.
Definition stops (cmds : list FlushCommand) : bool :=
  existsb (fun c => match c with Shutdown => true | _ => false end) cmds.

(** One turn of the loop of [background_flusher]: the commands drained, the group commit, the
    acknowledgements sent, and whether it goes on. *)
Definition flusher_pass (unsafe_no_fsync : bool) (env : PassEnv) (cmds : list FlushCommand) (f : Flusher)
  : list Z * bool * Flusher :=
  let f := flush_commands unsafe_no_fsync env 0 cmds f in
  let f := match f_buffer f with [] => f | _ => flush_counted unsafe_no_fsync (p_last env) f end in
  (acks_of cmds, negb (stops cmds), f).

Section Log.
Context `{Serde} `{WalCodec}.
Variable max_blob : Z.

(** ** Entries *)

Definition compute_checksum (p : ReducerCallEntry) : Z :=
  match payload_to_vec p with Some b => crc32_hash b | None => 0 end.

Definition entry_new (timestamp seq : Z) (id args : Bytes) (ds : list RowDelta) : WalEntry :=
  let p := {| reducer_id := id; w_args := args; deltas := ds |} in
  {| header := {| w_version := 1; entry_type := 1; w_timestamp := timestamp; sequence_number := seq;
                  checksum := compute_checksum p |};
     payload := p |}.

Definition verify_checksum (e : WalEntry) : bool := compute_checksum (payload e) =? checksum (header e).

(** [BatchedWalWriter::append]: the command put on the channel, if the entry can be encoded. *)
Definition append (e : WalEntry) (seq : Z) : result VoltraError FlushCommand :=
  b ← ok_or (entry_to_vec e) SerializationError; Ok (Append b seq).

(** ** The reader *)

(** Every turn that goes on consumes a length prefix. *)
Fixpoint read_loop (fuel : nat) (b : Bytes) : list WalEntry :=
  match fuel with
  | O => []
  | S f =>
      match b with
      | l0 :: l1 :: l2 :: l3 :: r =>
          let len := from_le_bytes l0 l1 l2 l3 in
          if zlen r <? len then []
          else match entry_from_slice (take (Z.to_nat len) r) with
               | Some e => e :: read_loop f (drop (Z.to_nat len) r)
               | None => []
               end
      | _ => []
      end
  end.

Definition read_all_entries (file : Bytes) : list WalEntry := read_loop (length file) file.

(** ** Snapshots *)

Definition snapshot_path (seq : Z) : Bytes := bs "voltra_snapshot_" ++ dec_u seq ++ bs ".bin".
Definition snapshot_tmp (seq : Z) : Bytes := snapshot_path seq ++ bs ".tmp".

Definition parse_snapshot_seq (name : Bytes) : option Z :=
  s ← strip_prefix (bs "voltra_snapshot_") name; s ← strip_suffix (bs ".bin") s; parse_int 0 (U64 - 1) s.

(** A directory: its files by name. *)
Abbreviation Dir := (gmap Bytes Bytes).

Definition find_latest_snapshot (dir : Dir) : option (Bytes * Z) :=
  foldl (fun best (nf : Bytes * Bytes) =>
    match parse_snapshot_seq nf.1 with
    | Some seq =>
        match best with
        | Some (_, s) => if s <? seq then Some (nf.1, seq) else best
        | None => Some (nf.1, seq)
        end
    | None => best
    end) None (map_to_list dir).

(** The rows of every table that has some. *)
Fixpoint collect_tables (names : list Bytes) (ts : TableStore)
  : result VoltraError (gmap Bytes (list (Bytes * Value)) * Z) * TableStore :=
  match names with
  | [] => (Ok (∅, 0), ts)
  | n :: names' =>
      match list_rows_with_keys n ts with
      | (Err e, ts) => (Err e, ts)
      | (Ok rows, ts) =>
          let '(r, ts) := collect_tables names' ts in
          ('(m, count) ← r;
           Ok (match rows with [] => m | _ => <[n := rows]> m end, count + zlen rows), ts)
      end
  end.

Definition snapshot_of (last_seq timestamp : Z) (ts : TableStore)
  : result VoltraError SnapshotFile * TableStore :=
  let '(r, ts) := collect_tables (list_tables ts) ts in
  ('(m, count) ← r;
   Ok {| meta := {| s_version := 1; last_sequence := last_seq; s_timestamp := timestamp;
                    s_row_count := count; s_next_row_id := current_next_row_id ts |};
         s_tables := m |}, ts).

(** The directory after each step: the temporary file, the rename. *)
Definition save_steps (last_seq : Z) (encoded : Bytes) (dir : Dir) : list Dir :=
  [dir; <[snapshot_tmp last_seq := encoded]> dir;
   <[snapshot_path last_seq := encoded]> (delete (snapshot_tmp last_seq) dir)].

Definition save_snapshot (last_seq timestamp : Z) (dir : Dir) (ts : TableStore)
  : result VoltraError Dir * TableStore :=
  let '(r, ts) := snapshot_of last_seq timestamp ts in
  (s ← r; b ← ok_or (snapshot_to_vec s) SerializationError;
   Ok (default dir (last (save_steps last_seq b dir))), ts).

Fixpoint restore_rows (table : Bytes) (rows : list (Bytes * Value)) (ts : TableStore)
  : result VoltraError unit * TableStore :=
  match rows with
  | [] => (Ok tt, ts)
  | (k, v) :: rows' =>
      match set_row max_blob table k v ts with
      | (Ok _, ts) => restore_rows table rows' ts
      | (Err e, ts) => (Err e, ts)
      end
  end.

Fixpoint restore_tables (l : list (Bytes * list (Bytes * Value))) (ts : TableStore)
  : result VoltraError unit * TableStore :=
  match l with
  | [] => (Ok tt, ts)
  | (n, rows) :: l' =>
      match restore_rows n rows ts with
      | (Ok _, ts) => restore_tables l' ts
      | (Err e, ts) => (Err e, ts)
      end
  end.

Definition load_snapshot (data : Bytes) (ts : TableStore) : result VoltraError SnapshotMeta * TableStore :=
  match snapshot_from_slice data with
  | None => (Err SerializationError, ts)
  | Some s =>
      match restore_tables (map_to_list (s_tables s)) ts with
      | (Err e, ts) => (Err e, ts)
      | (Ok _, ts) => (Ok (meta s), set_next_row_id (s_next_row_id (meta s)) ts)
      end
  end.

(** ** Recovery *)

Variable now : nat -> Z.

Fixpoint replay_deltas (ds : list RowDelta) (ts : TableStore) : result VoltraError unit * TableStore :=
  match ds with
  | [] => (Ok tt, ts)
  | d :: ds' =>
      match apply_delta max_blob now d ts with
      | (Ok _, ts) => replay_deltas ds' ts
      | (Err e, ts) => (Err e, ts)
      end
  end.

(** The loop of [recover_from_wal] (src/app/mod.rs): the number replayed and the greatest
    sequence number. *)
Fixpoint recover_loop (min_seq : Z) (entries : list WalEntry) (replayed max_seq : Z) (ts : TableStore)
  : result VoltraError (Z * Z) * TableStore :=
  match entries with
  | [] => (Ok (replayed, max_seq), ts)
  | e :: entries' =>
      let seq := sequence_number (header e) in
      let max_seq := Z.max max_seq seq in
      if seq <=? min_seq then recover_loop min_seq entries' replayed max_seq ts
      else if negb (verify_checksum e) then recover_loop min_seq entries' replayed max_seq ts
      else match replay_deltas (deltas (payload e)) ts with
           | (Err er, ts) => (Err er, ts)
           | (Ok _, ts) => recover_loop min_seq entries' (replayed + 1) max_seq ts
           end
  end.

Definition recover_from_wal (file : Bytes) (min_seq : Z) (ts : TableStore)
  : result VoltraError (Z * Z) * TableStore := recover_loop min_seq (read_all_entries file) 0 min_seq ts.

(** The loop of [run_server_inner] (src/server.rs): the floor moves with the entries. *)
Fixpoint server_loop (entries : list WalEntry) (initial_seq : Z) (ts : TableStore)
  : result VoltraError Z * TableStore :=
  match entries with
  | [] => (Ok initial_seq, ts)
  | e :: entries' =>
      let seq := sequence_number (header e) in
      if seq <=? initial_seq then server_loop entries' initial_seq ts
      else if negb (verify_checksum e) then server_loop entries' initial_seq ts
      else match replay_deltas (deltas (payload e)) ts with
           | (Err er, ts) => (Err er, ts)
           | (Ok _, ts) => server_loop entries' (Z.max initial_seq seq) ts
           end
  end.

(** Start-up without a disk store, of [run_server_inner]: the next sequence number. *)
Definition server_boot (dir : Dir) (wal : option Bytes) (ts : TableStore) : result VoltraError Z * TableStore :=
  let '(r, ts) := match find_latest_snapshot dir with
                  | Some (name, seq) =>
                      let '(r, ts) := load_snapshot (default [] (dir !! name)) ts in (_ ← r; Ok seq, ts)
                  | None => (Ok 0, ts)
                  end in
  match r with
  | Err e => (Err e, ts)
  | Ok initial_seq =>
      match wal with
      | Some file => server_loop (read_all_entries file) initial_seq ts
      | None => (Ok initial_seq, ts)
      end
  end.

(** Start-up of the command line (src/app/bootstrap.rs): errors are logged and passed over. *)
Definition app_boot (dir : Dir) (wal : option Bytes) (ts : TableStore) : Z * TableStore :=
  let '(min_seq, initial_seq, ts) :=
    match find_latest_snapshot dir with
    | Some (name, _) =>
        match load_snapshot (default [] (dir !! name)) ts with
        | (Ok m, ts) => (last_sequence m, Z.min (last_sequence m + 1) (U64 - 1), ts)
        | (Err _, ts) => (0, 0, ts)
        end
    | None => (0, 0, ts)
    end in
  match wal with
  | Some file =>
      match recover_from_wal file min_seq ts with
      | (Ok (_, max_seq), ts) => (Z.max initial_seq (Z.min (max_seq + 1) (U64 - 1)), ts)
      | (Err _, ts) => (initial_seq, ts)
      end
  | None => (initial_seq, ts)
  end.
End Log.

(** ** A concrete codec for the log

    An instance of [WalCodec] that satisfies [WalCodecLaws], on which the theorems about the
    log are applied: entries and snapshots as JSON values, in the encoding of JsonCodec. *)

Definition zv (z : Z) : Value := Num (PosInt z).

Definition delta_val (d : RowDelta) : Value :=
  Array [Str (table_name d); Str (operation d); Str (row_key d); zv (d_row_id d); zv (d_shard_id d);
         default Null (row_data d); zv (counter_add_amount d); zv (counter_add_timestamp d)].

Definition val_delta (v : Value) : option RowDelta :=
  match v with
  | Array [Str t; Str op; Str k; Num (PosInt id); Num (PosInt sh); row; Num (PosInt a); Num (PosInt ts)] =>
      Some {| table_name := t; operation := op; row_key := k; d_row_id := id; d_shard_id := sh;
              payload_arc := None; row_data := match row with Null => None | v => Some v end;
              counter_add_amount := a; counter_add_timestamp := ts |}
  | _ => None
  end.

Definition call_val (p : ReducerCallEntry) : Value :=
  Array [Str (reducer_id p); Str (w_args p); Array (map delta_val (deltas p))].

Definition entry_val (e : WalEntry) : Value :=
  let h := header e in
  Array [zv (w_version h); zv (entry_type h); zv (w_timestamp h); zv (sequence_number h); zv (checksum h);
         call_val (payload e)].

Definition val_entry (v : Value) : option WalEntry :=
  match v with
  | Array [Num (PosInt a); Num (PosInt b); Num (PosInt c); Num (PosInt d); Num (PosInt e);
           Array [Str id; Str args; Array ds]] =>
      l ← mapM val_delta ds;
      Some {| header := {| w_version := a; entry_type := b; w_timestamp := c; sequence_number := d; checksum := e |};
              payload := {| reducer_id := id; w_args := args; deltas := l |} |}
  | _ => None
  end.

Definition row_val (kv : Bytes * Value) : Value := Array [Str kv.1; kv.2].
Definition val_row (v : Value) : option (Bytes * Value) :=
  match v with Array [Str k; x] => Some (k, x) | _ => None end.

Definition table_val (nt : Bytes * list (Bytes * Value)) : Value := Array [Str nt.1; Array (map row_val nt.2)].
Definition val_table (v : Value) : option (Bytes * list (Bytes * Value)) :=
  match v with Array [Str n; Array l] => r ← mapM val_row l; Some (n, r) | _ => None end.

Definition snapshot_val (s : SnapshotFile) : Value :=
  let m := meta s in
  Array [zv (s_version m); zv (last_sequence m); zv (s_timestamp m); zv (s_row_count m); zv (s_next_row_id m);
         Array (map table_val (map_to_list (s_tables s)))].
Definition val_snapshot (v : Value) : option SnapshotFile :=
  match v with
  | Array [Num (PosInt a); Num (PosInt b); Num (PosInt c); Num (PosInt d); Num (PosInt e); Array l] =>
      ts ← mapM val_table l;
      Some {| meta := {| s_version := a; last_sequence := b; s_timestamp := c; s_row_count := d; s_next_row_id := e |};
              s_tables := list_to_map ts |}
  | _ => None
  end.

Definition demo_codec : WalCodec := {|
  payload_to_vec p := Some (enc_value (call_val p));
  entry_to_vec e := Some (enc_value (entry_val e));
  entry_from_slice b := dec_value b ≫= val_entry;
  snapshot_to_vec s := Some (enc_value (snapshot_val s));
  snapshot_from_slice b := dec_value b ≫= val_snapshot;
  crc32_hash b := foldl (fun h x => (h * 31 + x) mod 2 ^ 32) 0 b |}.

Lemma delta_val_round d : delta_kept d -> val_delta (delta_val d) = Some d.
Proof.
  destruct d as [t op k id sh p r a ts]. intros [Hp Hr]. cbn in *. subst p.
  destruct r as [v|]; cbn; [|done]. destruct Hr as [_ Hv]. by destruct v.
Qed.

Lemma demo_codec_laws : @WalCodecLaws demo_codec.
Proof.
  split. intros [[a b c d e] [id args ds]] x Hk [= <-]. cbn in *.
  rewrite <- (app_nil_r (enc_value _)), dec_enc_value. cbn.
  assert (Hds : mapM val_delta (map delta_val ds) = Some ds).
  { apply mapM_Some_2. induction Hk; constructor; auto using delta_val_round. }
  by rewrite Hds.
Qed.
