(* ===== verification/WalFacts.v ===== *)
(** * The log: acknowledged entries are read back

    The reader on whole and torn logs, the flusher without failing writes, and their
    composition: what was acknowledged survives a crash. Then what the flusher does when a
    write fails, and what a rotation loses. *)

From S2P Require Import Prelude Errors Util Json JsonCodec Aof AofFacts Table Wal.

Section Facts.
Context `{Serde} `{WalCodecLaws}.

(** ** Reading frames *)

(** An encoded entry, as long as a length prefix can say. *)
Definition encodes (e : WalEntry) (b : Bytes) : Prop :=
  entry_from_slice b = Some e /\ zlen b < 2 ^ 32.

Definition frames (l : list Bytes) : Bytes := concat (map frame l).

Lemma frame_size b : length (frame b) = (4 + length b)%nat.
Proof. done. Qed.

Lemma read_loop_fuel f b : (length b <= f)%nat -> read_loop f b = read_loop (length b) b.
Proof.
  assert (Hgen : forall f1 f2 b, (length b <= f1)%nat -> (length b <= f2)%nat -> read_loop f1 b = read_loop f2 b).
  { induction f1 as [|f1 IH]; intros f2 b' H1' H2'.
    - destruct b'; [|cbn in H1'; lia]. by destruct f2.
    - destruct f2 as [|f2]; [destruct b'; [done|cbn in H2'; lia]|]. cbn [read_loop].
      destruct b' as [|l0 [|l1 [|l2 [|l3 r]]]]; try done. destruct (zlen r <? _); [done|].
      destruct (entry_from_slice _); [|done]. f_equal. apply IH; rewrite length_drop; cbn in *; lia. }
  intros Hf. by apply Hgen.
Qed.

(** The reader by a frame at a time. *)
Lemma read_step l0 l1 l2 l3 r : read_all_entries (l0 :: l1 :: l2 :: l3 :: r) =
  let len := from_le_bytes l0 l1 l2 l3 in
  if zlen r <? len then []
  else match entry_from_slice (take (Z.to_nat len) r) with
       | Some e => e :: read_all_entries (drop (Z.to_nat len) r)
       | None => []
       end.
Proof.
  unfold read_all_entries at 1. change (length (l0 :: l1 :: l2 :: l3 :: r)) with (S (3 + length r)).
  cbn [read_loop]. destruct (zlen r <? _); [done|]. destruct (entry_from_slice _); [|done].
  f_equal. apply read_loop_fuel. rewrite length_drop. lia.
Qed.

(** The length prefix of a frame is the length. *)
Lemma frame_cases b : zlen b < 2 ^ 32 -> exists l0 l1 l2 l3,
  frame b = l0 :: l1 :: l2 :: l3 :: b /\ from_le_bytes l0 l1 l2 l3 = zlen b.
Proof.
  intros Hb. unfold frame, to_le_bytes, wrap_u32. rewrite (Z.mod_small (zlen b)) by lia.
  do 4 eexists. split; [reflexivity|]. apply le_bytes_roundtrip. lia.
Qed.

Lemma read_frame e b rest : encodes e b ->
  read_all_entries (frame b ++ rest) = e :: read_all_entries rest.
Proof.
  intros [He Hb]. destruct (frame_cases b Hb) as (l0 & l1 & l2 & l3 & -> & Hlen).
  change ((l0 :: l1 :: l2 :: l3 :: b) ++ rest) with (l0 :: l1 :: l2 :: l3 :: (b ++ rest)).
  rewrite read_step. cbv zeta. rewrite Hlen, zlt_false by (rewrite length_app; lia).
  by rewrite Nat2Z.id, take_app_length, drop_app_length, He.
Qed.

Lemma read_torn b n : zlen b < 2 ^ 32 -> (n < length (frame b))%nat -> read_all_entries (take n (frame b)) = [].
Proof.
  intros Hb. rewrite frame_size. destruct (frame_cases b Hb) as (l0 & l1 & l2 & l3 & -> & Hlen). intros Hn.
  destruct n as [|[|[|[|n]]]]; try done. cbn [take]. rewrite read_step. cbv zeta.
  by rewrite Hlen, zlt_true by (rewrite length_take; lia).
Qed.

(** A log cut anywhere is read as a prefix, with every entry that is wholly there. *)
Lemma read_prefix es bs : Forall2 encodes es bs -> forall n,
  exists j, read_all_entries (take n (frames bs)) = take j es /\
    forall i, (i <= length bs)%nat -> (length (frames (take i bs)) <= n)%nat -> (i <= j)%nat.
Proof.
  induction 1 as [|e b es bs Heb _ IH]; intros n.
  { exists 0%nat. unfold frames. cbn. rewrite take_nil. split; [done|]. cbn. lia. }
  change (frames (b :: bs)) with (frame b ++ frames bs).
  destruct (decide (n < length (frame b))%nat) as [Hn|Hn].
  - exists 0%nat. rewrite take_app_le by lia. split; [by apply read_torn; [apply Heb|]|].
    intros [|i] _; [lia|]. cbn [take]. change (frames (b :: take i bs)) with (frame b ++ frames (take i bs)).
    rewrite length_app. lia.
  - destruct (IH (n - length (frame b))%nat) as (j & Hr & Hj). exists (S j).
    rewrite take_app_ge by lia. rewrite (read_frame e) by done. rewrite Hr. split; [done|].
    intros [|i] Hi; [lia|]. cbn [take]. change (frames (b :: take i bs)) with (frame b ++ frames (take i bs)).
    rewrite length_app. intros Hle. apply le_n_S, Hj; cbn in Hi; lia.
Qed.

(** ** The flusher when writes succeed *)

Definition calm (env : PassEnv) : Prop := (forall i, p_io env i = IoOk) /\ p_last env = IoOk.

(** What the commands append. *)
Definition appended (cmds : list FlushCommand) : list Bytes :=
  omap (fun c => match c with Append b _ => Some b | _ => None end) cmds.
Definition no_rotation (cmds : list FlushCommand) : Prop :=
  Forall (fun c => match c with Truncate _ => False | _ => True end) cmds.

Lemma wal_frames_app l l' : frames (l ++ l') = frames l ++ frames l'.
Proof. unfold frames. by rewrite map_app, concat_app. Qed.

(** The log and the bytes still to be written. *)
Definition in_log (f : Flusher) : Bytes := f_file f ++ f_buffer f.

Definition synced (f : Flusher) : Prop := f_durable f = length (f_file f).

Lemma flush_counted_calm u f : in_log (flush_counted u IoOk f) = in_log f /\
  f_buffer (flush_counted u IoOk f) = [] /\ (u = false -> synced f -> synced (flush_counted u IoOk f)).
Proof.
  unfold flush_counted, flush_to_disk, in_log. destruct (f_buffer f) as [|c b] eqn:E; cbn; rewrite ?E; [by rewrite ?app_nil_r|].
  rewrite app_nil_r. split_and!; [done..|]. by intros ->.
Qed.

Lemma flush_command_calm u r c f : match c with Truncate _ => False | _ => True end ->
  in_log (flush_command u IoOk r c f) = in_log f ++ frames (appended [c]) /\
  (u = false -> synced f -> synced (flush_command u IoOk r c f)).
Proof.
  unfold flush_command, appended. destruct c as [b seq|seq|reply|]; intros Hc; [|done|cbn; by rewrite app_nil_r..].
  set (f1 := {| f_file := _ |}).
  assert (Hf1 : in_log f1 = in_log f ++ frames [b]).
  { unfold in_log, f1, frames. cbn. by rewrite app_nil_r, app_assoc. }
  destruct (GUARD <? _); [|done]. destruct (flush_counted_calm u f1) as (-> & _ & Hs). split; [exact Hf1|].
  intros Hu Hsy. by apply Hs.
Qed.

Lemma flush_commands_calm u env cmds : calm env -> no_rotation cmds -> forall i f,
  in_log (flush_commands u env i cmds f) = in_log f ++ frames (appended cmds) /\
  (u = false -> synced f -> synced (flush_commands u env i cmds f)).
Proof.
  intros [Hio _]. induction 1 as [|c cmds Hc _ IH]; intros i f; cbn [flush_commands]; [by rewrite app_nil_r|].
  rewrite Hio. destruct (flush_command_calm u (p_rename env i) c f Hc) as [Hl Hs].
  destruct (IH (S i) (flush_command u IoOk (p_rename env i) c f)) as [-> Hs2]. rewrite Hl, <- app_assoc. split; [|auto].
  f_equal. change (c :: cmds) with ([c] ++ cmds). unfold appended. by rewrite omap_app, wal_frames_app.
Qed.

(** After a pass everything it was given is in the file, and on the disk. *)
Lemma flusher_pass_calm u env cmds f acks go f' :
  calm env -> no_rotation cmds -> f_buffer f = [] -> flusher_pass u env cmds f = (acks, go, f') ->
  f_file f' = f_file f ++ frames (appended cmds) /\ f_buffer f' = [] /\ (u = false -> synced f -> synced f').
Proof.
  intros Hc Hn Hb. unfold flusher_pass. set (f1 := flush_commands u env 0 cmds f).
  destruct (flush_commands_calm u env cmds Hc Hn 0%nat f) as [Hl Hs]. fold f1 in Hl, Hs.
  unfold in_log in Hl. rewrite Hb, app_nil_r in Hl. destruct Hc as [_ Hlast].
  destruct (f_buffer f1) as [|x b] eqn:E1.
  - intros [= _ _ <-]. rewrite app_nil_r in Hl. done.
  - intros [= _ _ <-]. rewrite Hlast. destruct (flush_counted_calm u f1) as (Hl2 & Hb2 & Hs2).
    unfold in_log in Hl2. rewrite Hb2, E1, app_nil_r in Hl2. rewrite Hl2, Hb2. split_and!; auto.
Qed.

(** Passes that run to their end, with what they appended and acknowledged. *)
Inductive passes : Flusher -> list Bytes -> list Z -> Flusher -> Prop :=
| passes_done f : passes f [] [] f
| passes_one f bs acks f1 env cmds acks1 go f2 :
    passes f bs acks f1 -> calm env -> no_rotation cmds ->
    flusher_pass false env cmds f1 = (acks1, go, f2) ->
    passes f (bs ++ appended cmds) (acks ++ acks1) f2.

Lemma passes_file f bs acks f' : passes f bs acks f' -> f_buffer f = [] -> synced f ->
  f_file f' = f_file f ++ frames bs /\ f_buffer f' = [] /\ synced f'.
Proof.
  induction 1 as [f|f bs acks f1 env cmds acks1 go f2 _ IH Hc Hn Hp]; intros Hb Hs; [by rewrite app_nil_r|].
  destruct (IH Hb Hs) as (Hf1 & Hb1 & Hs1).
  destruct (flusher_pass_calm _ _ _ _ _ _ _ Hc Hn Hb1 Hp) as (Hf2 & Hb2 & Hs2).
  split_and!; [|done|by apply Hs2]. by rewrite Hf2, Hf1, wal_frames_app, app_assoc.
Qed.

(** C10: what is acknowledged survives: of a log that starts empty, with fsync on, as long as no
    write fails and the log is not rotated (rotation_drops_later_entries), a crash at any moment,
    the log cut anywhere past what is synced, leaves a log that is read back as a prefix of the
    entries appended in order, and that prefix holds every entry of the passes that ended: every
    entry appended before a flush that was acknowledged. *)
Theorem acknowledged_entries_survive es bs acks f env cmds acks1 go f2 n :
  passes (flusher_open []) bs acks f -> calm env -> no_rotation cmds ->
  flusher_pass false env cmds f = (acks1, go, f2) ->
  Forall2 encodes es (bs ++ appended cmds) ->
  (f_durable f <= n)%nat ->
  exists j, read_all_entries (take n (f_file f2)) = take j es /\ (length bs <= j)%nat.
Proof.
  intros Hp Hc Hn Hpass Hes Hdur.
  destruct (passes_file _ _ _ _ Hp eq_refl eq_refl) as (Hf & Hb & Hs).
  destruct (flusher_pass_calm _ _ _ _ _ _ _ Hc Hn Hb Hpass) as (Hf2 & _ & _).
  cbn in Hf. rewrite Hf2, Hf, <- wal_frames_app.
  destruct (read_prefix _ _ Hes n) as (j & Hr & Hj). exists j. split; [done|].
  apply Hj; [rewrite length_app; lia|]. rewrite take_app_length. unfold synced in Hs. rewrite <- Hf. lia.
Qed.
End Facts.

(** ** On a concrete log *)

#[local] Existing Instances demo_serde demo_codec demo_codec_laws.

Definition demo_commit (k : Bytes) (n : Z) : RowDelta :=
  {| table_name := bs "t"; operation := bs "insert"; row_key := k; d_row_id := 1; d_shard_id := 0;
     payload_arc := None; row_data := Some (Object [(bs "row_key", Str k); (bs "score", zv n)]);
     counter_add_amount := 0; counter_add_timestamp := 0 |}.
Definition demo_entry (seq : Z) (k : Bytes) : WalEntry := entry_new 0 seq (bs "r") [] [demo_commit k seq].
Definition demo_bytes (seq : Z) (k : Bytes) : Bytes := enc_value (entry_val (demo_entry seq k)).
Definition all_ok : PassEnv := {| p_io _ := IoOk; p_rename _ := true; p_last := IoOk |}.
Definition failing (n : nat) : PassEnv := {| p_io _ := IoOk; p_rename _ := true; p_last := IoErr n |}.

Definition demo_f1 : Flusher :=
  snd (flusher_pass false all_ok [Append (demo_bytes 1 (bs "a")) 1; Flush 7] (flusher_open [])).
Definition demo_f2 : Flusher := snd (flusher_pass false all_ok [Append (demo_bytes 2 (bs "b")) 2] demo_f1).

Lemma demo_kept seq k : storable (Object [(bs "row_key", Str k); (bs "score", zv seq)]) = true ->
  delta_kept (demo_commit k seq).
Proof. by intros Hs. Qed.

Lemma demo_encodes seq k : storable (Object [(bs "row_key", Str k); (bs "score", zv seq)]) = true ->
  zlen (demo_bytes seq k) < 2 ^ 32 -> encodes (demo_entry seq k) (demo_bytes seq k).
Proof.
  intros Hs Hz. split; [|done]. apply (entry_round (demo_entry seq k)); [|reflexivity].
  constructor; [by apply demo_kept|constructor].
Qed.

Lemma acknowledged_entries_survive_witness :
  exists j, read_all_entries (take (f_durable demo_f1 + 9) (f_file demo_f2))
              = take j [demo_entry 1 (bs "a"); demo_entry 2 (bs "b")] /\ (1 <= j)%nat.
Proof.
  refine (acknowledged_entries_survive [demo_entry 1 (bs "a"); demo_entry 2 (bs "b")]
    [demo_bytes 1 (bs "a")] [7] demo_f1 all_ok [Append (demo_bytes 2 (bs "b")) 2] [] true demo_f2
    (f_durable demo_f1 + 9) _ _ _ _ _ _).
  - refine (passes_one (flusher_open []) [] [] (flusher_open []) all_ok
      [Append (demo_bytes 1 (bs "a")) 1; Flush 7] [7] true demo_f1 (passes_done _) _ _ _).
    + by split.
    + by repeat constructor.
    + by vm_compute.
  - by split.
  - by repeat constructor.
  - by vm_compute.
  - repeat constructor; apply demo_encodes; try apply Z.ltb_lt; by vm_compute.
  - lia.
Defined.

(** ** What the flusher does not promise *)

(** A flush is acknowledged when its write has failed: nothing of the entry is on the disk. *)
Lemma failed_flush_acknowledged :
  let '(acks, go, f) := flusher_pass false (failing 0) [Append (demo_bytes 1 (bs "a")) 1; Flush 7] (flusher_open []) in
  acks = [7] /\ go = true /\ f_file f = [] /\ f_durable f = 0%nat.
Proof. by vm_compute. Qed.

(** A write that fails midway is written again in full after its first bytes: the reader stops
    there, and every entry of the log from then on is lost. *)
Lemma retried_write_hides_the_log :
  let '(_, _, f) := flusher_pass false (failing 6) [Append (demo_bytes 1 (bs "a")) 1] (flusher_open []) in
  let '(acks, _, f) := flusher_pass false all_ok [Append (demo_bytes 2 (bs "b")) 2; Flush 7] f in
  acks = [7] /\ f_durable f = length (f_file f) /\ f_buffer f = [] /\
  length (read_all_entries (f_file f)) = 0%nat.
Proof. vm_compute. auto. Qed.

(** A rotation takes the whole log away, entries after its sequence number included. *)
Lemma rotation_drops_later_entries :
  let '(acks, _, f) := flusher_pass false all_ok
    [Append (demo_bytes 1 (bs "a")) 1; Append (demo_bytes 2 (bs "b")) 2; Truncate 1; Flush 7] (flusher_open []) in
  acks = [7] /\ f_file f = [] /\ f_buffer f = [].
Proof. by vm_compute. Qed.
