(* ===== verification/Recovery.v ===== *)
(** * Recovery: replaying the log gives the rows that were committed

    The deltas a batch commits, applied again one by one, write the same bytes to the same
    rows. With the reader of a torn log (WalFacts): recovery from any base that agrees with
    the state the log starts from gives the rows of some prefix of the commits, and of all
    that were durable. Then snapshots: the rows a store holds can be written again (an inventory
    moved to the blob file included), which every operation of a batch keeps; a snapshot lists
    them, loading it writes them, and a start from a snapshot and the log that follows gives
    the rows of a prefix of the commits. Then what recovery does not give back. *)

From S2P Require Import Prelude Errors Util Json JsonCodec Aof AofFacts Table TableIndex TableBatch TableReads TableFacts Wal WalFacts.

Section Recovery.
Context `{SerdeLaws}.
Context `{WalCodecLaws}.
Variable max_blob : Z.
Implicit Types (s : Store) (d c : RowDelta) (n k : Bytes).

(** ** What a committed delta does to the bytes of the rows *)

Definition Image : Type := Bytes -> Bytes -> option Bytes.
Definition image s : Image := fun n k => data <$> row_at s n k.
Definition same_image (f g : Image) : Prop := forall n k, f n k = g n k.

#[local] Instance same_image_equiv : Equivalence same_image.
Proof. split; [done|by intros f g E n k|intros f g h E1 E2 n k; by rewrite E1]. Qed.

Definition written_data c : option Bytes := row_data c ≫= fun w => ok_opt (encode_row w).
Definition put c (f : Image) : Image :=
  fun n k => if decide ((n, k) = (table_name c, row_key c)) then written_data c else f n k.
Definition puts (cs : list RowDelta) (f : Image) : Image := foldl (fun f c => put c f) f cs.

#[local] Instance put_proper c : Proper (same_image ==> same_image) (put c).
Proof. intros f g E n k. unfold put. by case_decide. Qed.
#[local] Instance puts_proper cs : Proper (same_image ==> same_image) (puts cs).
Proof. induction cs as [|c cs IH]; intros f g E; [done|]. cbn. apply IH. by rewrite E. Qed.

Lemma puts_app cs cs' f : puts (cs ++ cs') f = puts cs' (puts cs f).
Proof. apply foldl_app. Qed.

(** What comes out of a commit of shard [sh]: the value of a write has been stamped, its
    inventory is gone, and it can be encoded. *)
Definition settled (sh : Z) c : Prop :=
  payload_arc c = None /\ d_shard_id c = sh /\
  match row_data c with
  | Some w => (operation c = bs "insert" \/ operation c = bs "update") /\
      storable w = true /\ w <> Null /\ stamp sh (table_name c) (row_key c) w = w /\
      should_store_blob w = false /\ exists b, encode_row w = Ok b
  | None => operation c = bs "delete"
  end.

Lemma settled_kept sh cs : Forall (settled sh) cs -> Forall delta_kept cs.
Proof.
  intros Hc. eapply Forall_impl; [exact Hc|]. intros c (Hp & _ & Hr). split; [done|].
  destruct (row_data c); [|done]. split; apply Hr.
Qed.

(** ** Stamping is done once *)

Lemma stamp_object sh name key m : exists m', stamp sh name key (Object m) = Object m'.
Proof. unfold stamp. destruct (beq name _); by eexists. Qed.

Lemma storable_ascending m : storable (Object m) = true -> ascending (map fst m) = true.
Proof. unfold storable. destruct DEPTH_S as [x ->]. cbn. by intros [? _]%andb_true_iff. Qed.

Lemma stamp_get sh name key v f :
  get_field (stamp sh name key v) f =
  match v with
  | Object _ => if beq f (bs "row_key") then Some (Str key)
                else if beq name (bs "players") && beq f (bs "shard_id") then Some (Num (PosInt sh))
                else get_field v f
  | _ => None
  end.
Proof.
  unfold stamp. destruct v as [| | | | |m]; try by destruct (beq name (bs "players")).
  destruct (beq name (bs "players")); rewrite get_set_field; [|done]. cbn [set_field andb].
  destruct (beq f (bs "row_key")); [done|]. apply map_get_insert.
Qed.

Lemma stamp_twice sh name key v : 0 <= sh < 2 ^ 32 -> storable v = true ->
  stamp sh name key (stamp sh name key v) = stamp sh name key v.
Proof.
  intros Hr Hv. destruct v as [| | | | |m]; try by unfold stamp; destruct (beq name _).
  pose proof (stamp_storable sh name key _ Hr Hv) as H1'.
  pose proof (stamp_storable sh name key _ Hr H1') as H2'.
  pose proof (stamp_get sh name key (stamp sh name key (Object m))) as Hg.
  pose proof (stamp_get sh name key (Object m)) as Hg1. cbn beta iota in Hg1.
  destruct (stamp_object sh name key m) as [m1 E1]. rewrite E1 in *.
  destruct (stamp_object sh name key m1) as [m2 E2]. rewrite E2 in *. f_equal.
  apply map_get_ext; [by apply storable_ascending..|]. intros f.
  change (get_field (Object m2) f = get_field (Object m1) f).
  rewrite Hg, Hg1. destruct (beq f _); [done|]. by destruct (_ && _).
Qed.

Lemma stamp_keeps_inventory sh name key v : is_Some (get_field v (bs "inventory")) ->
  get_field (stamp sh name key v) (bs "inventory") = get_field v (bs "inventory").
Proof.
  intros [x Hx]. rewrite stamp_get. destruct v as [| | | | |m]; try done.
  change (beq (bs "inventory") (bs "row_key")) with false.
  change (beq (bs "inventory") (bs "shard_id")) with false. by rewrite andb_false_r.
Qed.

Lemma stamp_no_inventory sh name key v : get_field v (bs "inventory") = None ->
  get_field (stamp sh name key v) (bs "inventory") = None.
Proof.
  intros Hx. rewrite stamp_get. destruct v as [| | | | |m]; try done.
  change (beq (bs "inventory") (bs "row_key")) with false.
  change (beq (bs "inventory") (bs "shard_id")) with false. by rewrite andb_false_r.
Qed.

(** Once the blob has been stored there is none to store. *)
Lemma taken_no_blob sh name key v sd v1 off sd' : take_inventory max_blob v sd = (Ok (v1, off), sd') ->
  should_store_blob (stamp sh name key v1) = false.
Proof.
  intros Ht. assert (Hv1 : should_store_blob v1 = false).
  { unfold take_inventory in Ht. destruct sd as [s f].
    destruct (get_field v (bs "inventory")) as [inv|] eqn:Ei.
    - destruct (should_store_blob v) eqn:Eb; [|by simplify_eq].
      unfold store_blob in Ht. destruct (max_blob <? _); simplify_eq. unfold should_store_blob.
      rewrite get_set_field. by destruct v.
    - simplify_eq. unfold should_store_blob. by rewrite Ei. }
  unfold should_store_blob in *. destruct (get_field v1 (bs "inventory")) as [x|] eqn:E.
  - rewrite stamp_keeps_inventory by (by rewrite E). by rewrite E.
  - by rewrite stamp_no_inventory.
Qed.

(** ** A committed delta *)

Lemma image_write s s' name key bytes :
  (exists row, row_at s' name key = Some row /\ data row = bytes) ->
  (forall n k, (n, k) <> (name, key) -> row_at s' n k = row_at s n k) ->
  forall n k, image s' n k = if decide ((n, k) = (name, key)) then Some bytes else image s n k.
Proof.
  intros (row & Hr & <-) Hne n k. unfold image. case_decide as E.
  - injection E as -> ->. by rewrite Hr.
  - by rewrite Hne.
Qed.

(** A write leaves a settled delta, and the bytes it says. *)
Lemma write_settled name key v s file c s' file' :
  store_ok s -> storable v = true -> v <> Null ->
  write_row_unlocked max_blob name key v (s, file) = (Ok c, (s', file')) ->
  settled (shard_id s) c /\ table_name c = name /\ row_key c = key /\ same_image (image s') (put c (image s)).
Proof.
  intros Hs Hv Hn Hw. pose proof (write_row_rows _ _ _ _ _ _ _ _ _ Hw) as (row & Hrow & _ & Hne).
  apply write_row_spec in Hw as [_ (v1 & off & id & bytes & s1 & Ht & _ & _ & Henc & Htab & _ & ->)].
  pose proof (take_inventory_storable _ _ _ _ _ _ Ht Hv) as Hv1.
  split; [|split; [done|split; [done|]]].
  - split; [done|]. split; [done|]. cbn [row_data operation table_name row_key].
    split; [destruct (row_at s name key); auto|].
    split; [apply stamp_storable; [apply Hs|done]|].
    split; [|split; [apply stamp_twice; [apply Hs|done]|split; [by eapply taken_no_blob|by eexists]]].
    assert (Hv1n : v1 <> Null).
    { unfold take_inventory, store_blob in Ht. repeat case_match; simplify_eq; try done; by destruct v. }
    destruct v1; try done; unfold stamp; destruct (beq name _); done.
  - intros n k. unfold put, written_data. cbn. rewrite Henc. cbn. revert n k. apply image_write; [|done].
    exists (written_row s name key id bytes off). split; [|done].
    unfold row_at. rewrite Htab. unfold write_effect. rewrite lookup_insert_eq. cbn. by rewrite lookup_insert_eq.
Qed.

Lemma delete_settled name key s file c s' file' :
  delete_row_unlocked name key (s, file) = (Ok c, (s', file')) ->
  settled (shard_id s) c /\ table_name c = name /\ row_key c = key /\ same_image (image s') (put c (image s)).
Proof.
  intros Hd. pose proof (delete_row_rows _ _ _ _ _ _ _ Hd) as [Hnone Hne].
  unfold delete_row_unlocked in Hd. injection Hd as <- _ _. split; [done|]. split; [done|]. split; [done|].
  intros n k. unfold put, written_data, image. cbn. case_decide as E.
  - injection E as -> ->. by rewrite Hnone.
  - by rewrite Hne.
Qed.

Definition no_null (d : RowDelta) : Prop := row_data_value d <> Some Null.

Lemma apply_one_settled d s file c u s' file' :
  inv s -> delta_ok d -> no_null d -> apply_one max_blob d (s, file) = (Result (Ok c), u, (s', file')) ->
  settled (shard_id s) c /\ table_name c = table_name d /\ same_image (image s') (put c (image s)).
Proof.
  intros Hs Hd Hnn. unfold apply_one. destruct (beq _ _ || beq _ _).
  - destruct (row_data_value d) as [v|] eqn:Ev; [|done].
    destruct (write_row_unlocked _ _ _ _ _) as [r [s1 f1]] eqn:Ew. intros E. simplify_eq.
    apply write_settled in Ew; [|apply Hs|by apply Hd|by intros ->]. naive_solver.
  - destruct (beq (operation d) (bs "delete")).
    + destruct (delete_row_unlocked _ _ _) as [r [s1 f1]] eqn:Ew. intros E. simplify_eq.
      apply delete_settled in Ew. naive_solver.
    + destruct (beq (operation d) (bs "counter_add")); [|by intros; simplify_eq].
      destruct (counter_delta d (s, file)) as [[v|x] [s1 f1]] eqn:Ec; [|done].
      pose proof (counter_delta_ok _ _ _ _ _ _ Hs Hd Ec) as [Hs1 Hv].
      destruct (same_tables _ _ (counter_delta_rows _ _ _ _ _ _ Ec)) as [Hrows _].
      assert (Hsh : shard_id s1 = shard_id s /\ v <> Null).
      { unfold counter_delta, alloc_row_id in Ec. destruct (get_counter_in _ _ _ _) as [[?|]|];
          injection Ec as <- <- _ || done; done. }
      destruct Hsh as [Hsh Hvn].
      destruct (write_row_unlocked _ _ _ _ _) as [r [s2 f2]] eqn:Ew. intros E. simplify_eq.
      apply write_settled in Ew as (Hse & Ht & _ & Hi); [|apply Hs1|done|done]. rewrite <- Hsh.
      split; [done|]. split; [done|]. rewrite Hi. apply put_proper. intros n k. unfold image. by rewrite Hrows.
Qed.

Lemma track_image now d s : same_image (image (track now d s)) (image s).
Proof. intros n k. unfold image. by destruct (same_tables _ _ (track_tables now d s)) as [-> _]. Qed.

(** What a batch commits says what it did. *)
Lemma apply_loop_settled now ds : forall applied committed s file l s' file',
  inv s -> Forall delta_ok ds -> Forall no_null ds ->
  Forall (fun d => parse_lobby_key (table_name d) = None) ds ->
  apply_loop max_blob now ds applied committed (s, file) = (Ok l, (s', file')) ->
  exists cs, l = committed ++ cs /\ Forall (settled (shard_id s)) cs /\
    Forall (fun c => parse_lobby_key (table_name c) = None) cs /\ same_image (image s') (puts cs (image s)).
Proof.
  revert now. induction ds as [|d ds IH]; intros now applied committed s file l s' file' Hs Hok Hnn Hg;
    cbn [apply_loop fst].
  { intros [= <- <- _]. exists []. rewrite app_nil_r. by repeat constructor. }
  apply Forall_cons in Hok as [Hd Hok], Hnn as [Hn Hnn], Hg as [Hg1 Hg].
  destruct (negb _); [by apply IH|].
  destruct (apply_one max_blob d (s, file)) as [[[e|[c|e]] u] [s1 f1]] eqn:E; [done| |done].
  pose proof (apply_one_ok _ _ _ _ _ _ _ _ Hs Hd E) as Hs1. apply (track_inv (now 0%nat) c) in Hs1.
  destruct (apply_one_env _ _ _ _ _ _ _ _ E) as [_ Hsh1]. destruct (track_env (now 0%nat) c s1) as [_ Hsh2].
  apply apply_one_settled in E as (Hse & Ht & Hi); [|done..].
  intros Hl. apply IH in Hl as (cs & -> & Hcs & Hgs & Hi2); [|done..].
  exists (c :: cs). rewrite Hsh2, Hsh1 in Hcs. split; [by rewrite <- app_assoc|].
  split; [by constructor|]. split; [constructor; [by rewrite Ht|done]|].
  rewrite Hi2. cbn. apply puts_proper. by rewrite track_image.
Qed.

Lemma batch_settled now ds rv s file l s' file' :
  kept s -> Forall delta_ok ds -> Forall no_null ds ->
  Forall (fun d => parse_lobby_key (table_name d) = None) ds ->
  batch_inner max_blob now ds rv (s, file) = (Ok l, (s', file')) ->
  Forall (settled (shard_id s)) l /\ Forall (fun c => parse_lobby_key (table_name c) = None) l /\
  shard_id s' = shard_id s /\ same_image (image s') (puts l (image s)).
Proof.
  intros [Hi Hl] Hok Hnn Hg. unfold batch_inner. destruct ds as [|d ds]; [by intros; simplify_eq|].
  set (s1 := foldl _ s _). assert (Hr1 : same_rows s s1) by apply create_tables_rows.
  assert (Hi1 : inv s1) by by apply create_tables_inv.
  pose proof (create_tables_env (lock_keys s (d :: ds)) s) as (Hsh1 & _ & _ & Hl1). fold s1 in Hsh1, Hl1.
  destruct (occ_check _ _ _); [|done].
  destruct (apply_loop _ _ _ _ _ _) as [[x|x] [s2 f2]] eqn:E; [|done]. intros [= <- <- _].
  rewrite evict_none by (eapply apply_loop_lru; [by rewrite Hl1|exact E]).
  pose proof E as [_ Hsh2]%apply_loop_env.
  apply apply_loop_settled in E as (cs & -> & Hcs & Hgs & Himg); [|done..].
  rewrite Hsh1 in Hcs. split; [done|]. split; [done|]. split; [congruence|].
  rewrite Himg. apply puts_proper. intros n k. unfold image. by rewrite Hr1.
Qed.

(** ** A delta replayed *)

Definition base (sh : Z) (ts : TableStore) : Prop := lru (root ts) = None /\ shard_id (root ts) = sh.

Lemma write_again sh name key w s file bytes :
  stamp sh name key w = w -> should_store_blob w = false -> encode_row w = Ok bytes -> shard_id s = sh ->
  exists c s', write_row_unlocked max_blob name key w (s, file) = (Ok c, (s', file)) /\
    same_env s s' /\
    same_image (image s') (fun n k => if decide ((n, k) = (name, key)) then Some bytes else image s n k).
Proof.
  intros Hst Hb He Hsh. destruct (write_row_unlocked max_blob name key w (s, file)) as [r [s' f']] eqn:Ew.
  pose proof Ew as Hw. apply write_row_spec in Hw as [Henv Hw].
  assert (Hti : forall s1, take_inventory max_blob w (s1, file) = (Ok (w, None), (s1, file))).
  { intros s1. unfold take_inventory. rewrite Hb. by destruct (get_field w _). }
  destruct r as [c|e].
  - pose proof Ew as (row & Hrow & _ & Hne)%write_row_rows.
    destruct Hw as (v1 & off & id & b & s1 & Ht & _ & _ & Henc & Htab & _).
    rewrite Hti in Ht. injection Ht as <- <- Hs1 <-. rewrite Hsh, Hst, He in Henc. injection Henc as <-.
    exists c, s'. split; [done|]. split; [done|]. unfold same_image. apply image_write; [|done].
    exists (written_row s name key id bytes None). split; [|done].
    unfold row_at. rewrite Htab. unfold write_effect. rewrite lookup_insert_eq. cbn. by rewrite lookup_insert_eq.
  - exfalso. unfold write_row_unlocked in Ew.
    set (q := match rows _ !! key with Some _ => _ | None => _ end) in Ew. destruct q as [[[op id] ver] s1] eqn:Eq.
    assert (Hsh1 : shard_id s1 = sh).
    { pose proof (get_or_create_env name s) as (Hg & _). unfold q, alloc_row_id in Eq.
      destruct (rows _ !! key); injection Eq as _ _ _ <-; cbn; congruence. }
    unfold prepare_value in Ew. by rewrite Hti, Hsh1, Hst, He in Ew.
Qed.

Lemma replay_one now sh c ts : settled sh c -> parse_lobby_key (table_name c) = None -> base sh ts ->
  exists ts', apply_delta max_blob now c ts = (Ok tt, ts') /\ base sh ts' /\
    same_image (image (root ts')) (put c (image (root ts))).
Proof.
  intros (Hpay & Hdsh & Hrow) Hname [Hlru Hsh]. unfold apply_delta, apply_delta_batch, apply_delta_batch_versioned.
  cbn [List.filter]. unfold is_global. rewrite bool_decide_eq_true_2 by done.
  unfold lobbies_of. cbn [omap list_omap]. rewrite Hname. cbn [fmap option_fmap option_map remove_dups batch_lobbies].
  unfold on_root, batch_inner. set (s := foldl _ (root ts) _).
  assert (Hr1 : same_rows (root ts) s) by apply create_tables_rows.
  destruct (create_tables_env (lock_keys (root ts) [c]) (root ts)) as (Hsh1 & _ & _ & Hl1). fold s in Hsh1, Hl1.
  cbn [occ_check apply_loop fst]. unfold row_matches_shard. rewrite Hdsh, Hsh1, Hsh, Z.eqb_refl, orb_true_r. cbn [negb].
  assert (Hone : exists c' u s', apply_one max_blob c (s, blob_file ts) = (Result (Ok c'), u, (s', blob_file ts)) /\
    same_env s s' /\ same_image (image s') (put c (image s))).
  { unfold apply_one, row_data_value. rewrite Hpay. destruct (row_data c) as [w|] eqn:Ew.
    - destruct Hrow as (Hop & _ & _ & Hst & Hb & b & He).
      assert (Ho : beq (operation c) (bs "insert") || beq (operation c) (bs "update") = true).
      { destruct Hop as [E|E]; rewrite E; done. }
      rewrite Ho. destruct (write_again sh _ _ w s (blob_file ts) b Hst Hb He) as (c' & s' & -> & Henv & Himg); [congruence|].
      do 3 eexists. split; [done|]. split; [done|]. unfold put, written_data. by rewrite Ew; cbn; rewrite He.
    - rewrite Hrow. cbn [orb]. change (beq (bs "delete") (bs "insert")) with false.
      change (beq (bs "delete") (bs "update")) with false. cbn [orb].
      destruct (delete_row_unlocked (table_name c) (row_key c) (s, blob_file ts)) as [r [s' f']] eqn:Ed.
      pose proof Ed as (Henv & -> & _ & _ & (c' & -> & _) & _)%delete_row_spec.
      pose proof Ed as (_ & _ & _ & Himg)%delete_settled. do 3 eexists. split; [done|]. split; [done|].
      rewrite Himg. intros n k. unfold put, written_data. rewrite Ew.
      unfold delete_row_unlocked in Ed. by injection Ed as <- _. }
  destruct Hone as (c' & u & s' & -> & (Hsh2 & _ & _ & Hl2) & Himg).
  assert (Hl3 : lru s' = None) by congruence.
  assert (Htr : track (now 0%nat) c' s' = s') by (unfold track; by rewrite Hl3). rewrite Htr.
  rewrite evict_none by done. eexists. split; [done|]. split; [split; cbn; congruence|]. cbn.
  rewrite Himg. apply put_proper. intros n k. unfold image. by rewrite Hr1.
Qed.

Lemma replay_all now sh cs : Forall (settled sh) cs -> Forall (fun c => parse_lobby_key (table_name c) = None) cs ->
  forall ts, base sh ts -> exists ts', replay_deltas max_blob now cs ts = (Ok tt, ts') /\ base sh ts' /\
    same_image (image (root ts')) (puts cs (image (root ts))).
Proof.
  induction cs as [|c cs IH]; intros Hse Hg ts Hb; [by exists ts|].
  apply Forall_cons in Hse as [Hc Hse], Hg as [Hn Hg]. cbn [replay_deltas].
  destruct (replay_one now sh c ts Hc Hn Hb) as (ts1 & -> & Hb1 & Hi1).
  destruct (IH Hse Hg ts1 Hb1) as (ts2 & -> & Hb2 & Hi2). exists ts2. split; [done|]. split; [done|].
  rewrite Hi2. cbn. by apply puts_proper.
Qed.

(** ** Commits and their entries *)

(** What a reducer's commit leaves: the store after the batch, and the entry of its deltas. *)
Inductive history : SD -> list WalEntry -> SD -> Prop :=
| history_nil sd : history sd [] sd
| history_cons sd now ds rv l sd1 timestamp seq id args es sd2 :
    Forall delta_ok ds -> Forall no_null ds ->
    Forall (fun d => parse_lobby_key (table_name d) = None) ds ->
    batch_inner max_blob now ds rv sd = (Ok l, sd1) ->
    history sd1 es sd2 -> history sd (entry_new timestamp seq id args l :: es) sd2.

Lemma entry_verifies timestamp seq id args l : verify_checksum (entry_new timestamp seq id args l) = true.
Proof. apply Z.eqb_refl. Qed.

Lemma history_prefix sd es sd' : history sd es sd' -> forall j, exists sdj, history sd (take j es) sdj.
Proof.
  induction 1 as [sd|sd now ds rv l sd1 timestamp seq id args es sd2 Hok Hnn Hg Hb _ IH]; intros [|j];
    try (eexists; constructor).
  destruct (IH j) as [sdj Hj]. exists sdj. by eapply history_cons.
Qed.

(** The entries of a history can be written, read, and replayed. *)
Lemma history_entries sd es sd' : history sd es sd' -> kept sd.1 ->
  Forall (fun e => verify_checksum e = true /\ Forall (settled (shard_id sd.1)) (deltas (payload e)) /\
                   Forall (fun c => parse_lobby_key (table_name c) = None) (deltas (payload e))) es /\
  same_image (image sd'.1) (puts (concat (map (fun e => deltas (payload e)) es)) (image sd.1)).
Proof.
  induction 1 as [sd|sd now ds rv l sd1 timestamp seq id args es sd2 Hok Hnn Hg Hb _ IH]; intros Hk; [done|].
  destruct sd as [s f], sd1 as [s1 f1]. cbn [fst] in *. pose proof (batch_kept _ _ _ _ _ _ _ _ _ Hk Hok Hb) as Hk1.
  apply batch_settled in Hb as (Hse & Hgl & Hsh & Hi); [|done..]. destruct (IH Hk1) as [Hes Hi2].
  rewrite Hsh in Hes. split; [constructor; [split_and!; [apply entry_verifies|done..]|done]|].
  rewrite Hi2. cbn [map concat payload deltas entry_new]. rewrite puts_app. by apply puts_proper.
Qed.

Lemma recover_loop_replays now min_seq sh es :
  Forall (fun e => verify_checksum e = true /\ Forall (settled sh) (deltas (payload e)) /\
                   Forall (fun c => parse_lobby_key (table_name c) = None) (deltas (payload e))) es ->
  Forall (fun e => min_seq < sequence_number (header e)) es ->
  forall replayed max_seq ts, base sh ts -> exists ts',
    recover_loop max_blob now min_seq es replayed max_seq ts =
      (Ok (replayed + zlen es, foldl Z.max max_seq (map (fun e => sequence_number (header e)) es)), ts') /\
    base sh ts' /\
    same_image (image (root ts')) (puts (concat (map (fun e => deltas (payload e)) es)) (image (root ts))).
Proof.
  induction es as [|e es IH]; intros Hes Hsq replayed max_seq ts Hb.
  { exists ts. cbn. by rewrite Z.add_0_r. }
  apply Forall_cons in Hes as [(Hv & Hse & Hg) Hes], Hsq as [Hq Hsq]. cbn [recover_loop].
  rewrite zle_false by lia. rewrite Hv. cbn [negb].
  destruct (replay_all now sh _ Hse Hg ts Hb) as (ts1 & -> & Hb1 & Hi1).
  destruct (IH Hes Hsq (replayed + 1) (Z.max max_seq (sequence_number (header e))) ts1 Hb1) as (ts2 & -> & Hb2 & Hi2).
  exists ts2. split; [|split; [done|]].
  - cbn [map foldl length]. do 3 f_equal. lia.
  - rewrite Hi2. cbn [map concat]. rewrite puts_app. by apply puts_proper.
Qed.

(** Recovery gives back what was committed: take any history of commits from a store
    [sd], its entries encoded in a log that a crash has cut anywhere after the first [m] of
    them, and a store at start-up whose rows have the bytes [sd]'s rows had (both empty, or
    the one loaded from a snapshot taken then). If every entry is numbered above the
    snapshot, recovery succeeds, and the rows have, byte for byte, the values they had after
    some prefix of the commits that includes the first [m]. *)
Theorem wal_recovery_exact now min_seq sd es sd' logs m cut ts :
  kept sd.1 -> history sd es sd' ->
  Forall2 (fun e b => entry_to_vec e = Some b /\ zlen b < 2 ^ 32) es logs ->
  Forall (fun e => min_seq < sequence_number (header e)) es ->
  (m <= length logs)%nat -> (length (frames (take m logs)) <= cut)%nat ->
  lru (root ts) = None -> shard_id (root ts) = shard_id sd.1 ->
  (forall t k, data <$> row_at (root ts) t k = data <$> row_at sd.1 t k) ->
  exists j max_seq ts' sdj,
    recover_from_wal max_blob now (take cut (frames logs)) min_seq ts = (Ok (Z.of_nat j, max_seq), ts') /\
    (m <= j)%nat /\ history sd (take j es) sdj /\
    (forall t k, data <$> row_at (root ts') t k = data <$> row_at sdj.1 t k).
Proof.
  intros Hk Hh Hes Hsq Hm Hn Hlru Hsh Himg. destruct (history_entries _ _ _ Hh Hk) as [Hall _].
  assert (Henc : Forall2 encodes es logs).
  { clear -Hes Hall H2. induction Hes as [|e b es logs [He Hb] _ IH]; [constructor|].
    apply Forall_cons in Hall as [(_ & Hse & _) Hall]. constructor; [|auto]. split; [|done].
    eapply entry_round; [by eapply settled_kept|done]. }
  destruct (read_prefix _ _ Henc cut) as (j0 & Hr & Hj). set (j := (j0 `min` length es)%nat).
  assert (Htake : take j0 es = take j es).
  { unfold j. destruct (Nat.le_gt_cases j0 (length es)); [by rewrite Nat.min_l|].
    rewrite Nat.min_r by lia. by rewrite !take_ge by lia. }
  destruct (history_prefix _ _ _ Hh j) as [sdj Hhj].
  destruct (history_entries _ _ _ Hhj Hk) as [Hallj Himgj].
  assert (Hsqj : Forall (fun e => min_seq < sequence_number (header e)) (take j es)) by by apply Forall_take.
  destruct (recover_loop_replays now min_seq (shard_id sd.1) (take j es) Hallj Hsqj
    0 min_seq ts (conj Hlru Hsh)) as (ts' & Hrec & _ & Hi).
  exists j. do 3 eexists. unfold recover_from_wal. rewrite Hr, Htake. split_and!.
  - rewrite Hrec. do 3 f_equal. rewrite length_take. unfold j. lia.
  - pose proof (Forall2_length _ _ _ Hes). specialize (Hj m Hm Hn). unfold j. lia.
  - exact Hhj.
  - intros t k. change (image (root ts') t k = image sdj.1 t k).
    rewrite (Hi t k), (Himgj t k). apply puts_proper. exact Himg.
Qed.
End Recovery.

(** ** Snapshots *)

Section Snapshot.
Context `{SerdeLaws}.
Variable max_blob : Z.
Hypothesis max_fits : max_blob < U64.
Implicit Types (s : Store) (n k : Bytes) (v : Value).

(** ** Rows that can be written again *)

Definition plain_inventory v : Prop := forall inv, get_field v (bs "inventory") = Some inv -> float_free inv = true.

(** Written under [n], [k], the value [v] gives the bytes [b], whatever the blob file. *)
Definition saved (sh : Z) n k v (b : Bytes) : Prop :=
  storable v = true /\ plain_inventory v /\ stamp sh n k v = v /\
  exists w, encode_row w = Ok b /\
    forall s f, exists v1 off s2 f2, take_inventory max_blob v (s, f) = (Ok (v1, off), (s2, f2)) /\ stamp sh n k v1 = w.

Definition healthy (sh : Z) (file : Bytes) n k (r : StoredRow) : Prop :=
  row_shard r = sh /\ exists v, full_value file r = Ok v /\ saved sh n k v (data r).

(** What a reader sees of a row, and its bytes. *)
Definition content s (file : Bytes) n k : option (Bytes * Value) :=
  r ← row_at s n k; v ← ok_opt (full_value file r); Some (data r, v).

(** The names of the store are global, its blobs are appended where it thinks, and its rows
    are healthy. *)
Record sound (sd : SD) : Prop := {
  so_shard : 0 <= shard_id sd.1 < 2 ^ 32;
  so_offset : next_offset sd.1 = zlen sd.2;
  so_global : forall n, is_Some (tables sd.1 !! n) -> parse_lobby_key n = None;
  so_rows : forall n k r, row_at sd.1 n k = Some r -> healthy (shard_id sd.1) sd.2 n k r }.

Lemma saved_unique sh n k v b b' : saved sh n k v b -> saved sh n k v b' -> b' = b.
Proof.
  intros (_ & _ & _ & w & He & Ht) (_ & _ & _ & w' & He' & Ht'). 
  destruct (Ht (with_eviction NoEviction []) []) as (v1 & off & s2 & f2 & E & Hw).
  destruct (Ht' (with_eviction NoEviction []) []) as (v1' & off' & s2' & f2' & E' & Hw').
  rewrite E in E'. injection E' as <- <- <- <-. congruence.
Qed.

Lemma healthy_app sh file x n k r : healthy sh file n k r -> healthy sh (file ++ x) n k r.
Proof. intros (Hs & v & Hv & Hsv). split; [done|]. exists v. split; [by apply full_value_app|done]. Qed.

Lemma stamp_has_inventory sh n k v : get_field (stamp sh n k v) (bs "inventory") = get_field v (bs "inventory").
Proof.
  destruct (get_field v (bs "inventory")) as [x|] eqn:E; [|by apply stamp_no_inventory].
  rewrite <- E. apply stamp_keeps_inventory. by rewrite E.
Qed.

(** Taking the inventory out and stamping touch different fields. *)
Lemma stamp_then_take sh n k v : 0 <= sh < 2 ^ 32 -> storable v = true ->
  stamp sh n k (set_field (bs "inventory") Null (stamp sh n k v)) = stamp sh n k (set_field (bs "inventory") Null v).
Proof.
  intros Hsh Hv. destruct v as [| | | | |m]; try by (unfold stamp; destruct (beq n _)).
  pose proof (storable_ascending m Hv) as Hm. unfold stamp. destruct (beq n (bs "players")); cbn [set_field]; f_equal;
    (apply map_get_ext; [by repeat apply map_insert_ascending..|]); intros j; rewrite !map_get_insert;
    destruct (beq j (bs "row_key")); try done; destruct (beq j (bs "shard_id")); try done; by destruct (beq j (bs "inventory")).
Qed.

Lemma taken_again sh n k v s f v1 off s1 f1 : 0 <= sh < 2 ^ 32 -> storable v = true ->
  take_inventory max_blob v (s, f) = (Ok (v1, off), (s1, f1)) ->
  forall s' f', exists v2 off2 s2 f2,
    take_inventory max_blob (stamp sh n k v) (s', f') = (Ok (v2, off2), (s2, f2)) /\ stamp sh n k v2 = stamp sh n k v1.
Proof.
  intros Hsh Hv Ht s' f'. unfold take_inventory in *. unfold should_store_blob in *. rewrite stamp_has_inventory.
  destruct (get_field v (bs "inventory")) as [inv|] eqn:Ei.
  - destruct inv as [| | | |[|x l]|]; try (injection Ht as <- <- _ _; do 4 eexists; split; [reflexivity|by apply stamp_twice]).
    unfold store_blob in *. destruct (max_blob <? _); [done|]. injection Ht as <- _ _ _.
    do 4 eexists; split; [reflexivity|by apply stamp_then_take].
  - injection Ht as <- _ _ _. do 4 eexists; split; [reflexivity|by apply stamp_twice].
Qed.

Lemma take_offset v s f v1 off s1 f1 : take_inventory max_blob v (s, f) = (Ok (v1, off), (s1, f1)) ->
  next_offset s = zlen f -> next_offset s1 = zlen f1.
Proof.
  unfold take_inventory, store_blob. intros Ht Ho. repeat case_match; simplify_eq; try done. cbn [next_offset set_offset].
  rewrite Ho, !length_app, le_bytes_length. lia.
Qed.

(** ** Writes and deletes *)

Lemma write_sound name key v s file c s' file' : sound (s, file) -> parse_lobby_key name = None ->
  storable v = true -> plain_inventory v -> write_row_unlocked max_blob name key v (s, file) = (Ok c, (s', file')) ->
  sound (s', file') /\ exists b, saved (shard_id s) name key (stamp (shard_id s) name key v) b /\
  forall n k, content s' file' n k = if decide ((n, k) = (name, key)) then Some (b, stamp (shard_id s) name key v) else content s file n k.
Proof.
  intros [Hsh Ho Hg Hr] Hn Hv Hp Hw. cbn [fst snd] in *. set (sh := shard_id s) in *.
  pose proof (write_row_rows _ _ _ _ _ _ _ _ _ Hw) as (row & Hrow & _ & Hne).
  pose proof (write_row_frame _ _ _ _ _ _ _ _ _ Hw) as (_ & _ & _ & _ & x & Hx). cbn in Hx.
  pose proof Hw as [Henv (v1 & off & id & bytes & s1 & Ht & Ht1 & Hno & Henc & Htab & _)]%write_row_spec.
  assert (Hsh1 : shard_id s1 = sh).
  { apply take_inventory_frame in Ht as (_ & (Hs & _) & _). cbn in Hs. rewrite <- Hs. apply Henv. }
  assert (Hw1 : writable s1 file v) by (split; [by rewrite Hsh1|split_and!; [congruence|done|exact Hp]]).
  destruct (take_inventory_read _ _ _ _ _ _ _ _ sh name key max_fits Hw1 Ht) as [Hst Hread].
  assert (Hrow' : row_at s' name key = Some (written_row s name key id bytes off)).
  { unfold row_at. rewrite Htab. unfold write_effect. rewrite lookup_insert_eq. cbn. by rewrite lookup_insert_eq. }
  assert (Hfull : full_value file' (written_row s name key id bytes off) = Ok (stamp sh name key v)).
  { unfold full_value. cbn [written_row data blob_offset].
    rewrite (encode_decode _ _ (stamp_storable _ _ _ _ Hsh Hst) Henc). cbn [mbind result_bind]. by destruct off. }
  assert (Hsaved : saved sh name key (stamp sh name key v) bytes).
  { split; [by apply stamp_storable|]. split; [intros inv; rewrite stamp_has_inventory; apply Hp|].
    split; [by apply stamp_twice|]. exists (stamp sh name key v1). split; [done|]. by eapply taken_again. }
  split; [|exists bytes; split; [done|]].
  - split; cbn [fst snd].
    + destruct Henv as (-> & _). done.
    + change (next_offset s') with (next_offset (set_tables s' (tables s1))). eapply take_offset; [exact Ht|]. congruence.
    + intros n. rewrite Htab. unfold write_effect. rewrite lookup_insert_is_Some. intros [<-|[_ Hs]]; auto.
    + destruct Henv as (-> & _). fold sh. intros n k r Hat. destruct (decide ((n, k) = (name, key))) as [E|E].
      * injection E as -> ->. rewrite Hrow' in Hat. injection Hat as <-. split; [done|]. by exists (stamp sh name key v).
      * rewrite Hne in Hat by done. rewrite Hx. apply healthy_app. by apply Hr.
  - intros n k. unfold content. case_decide as E.
    + injection E as -> ->. rewrite Hrow'. cbn [mbind option_bind]. by rewrite Hfull.
    + rewrite Hne by done. destruct (row_at s n k) as [r|] eqn:Er; [|done]. cbn [mbind option_bind].
      destruct (Hr _ _ _ Er) as (_ & u & Hu & _). rewrite Hx, (full_value_app _ x _ _ Hu). by rewrite Hu.
Qed.

Lemma delete_sound name key s file c s' file' : sound (s, file) ->
  delete_row_unlocked name key (s, file) = (Ok c, (s', file')) -> sound (s', file').
Proof.
  intros [Hsh Ho Hg Hr] Hd. cbn [fst snd] in *. pose proof (delete_row_rows _ _ _ _ _ _ _ Hd) as [Hnone Hne].
  apply delete_row_spec in Hd as ((Hid & _) & -> & _ & Hno & _ & Htab). split; cbn [fst snd].
  - by rewrite Hid.
  - congruence.
  - intros n. rewrite Htab. destruct (tables s !! name) as [t|] eqn:Et; [|apply Hg]. rewrite lookup_insert_is_Some.
    intros [<-|[_ Hs]]; [apply Hg; by rewrite Et|auto].
  - rewrite Hid. intros n k r Hat. destruct (decide ((n, k) = (name, key))) as [E|E].
    + injection E as -> ->. by rewrite Hnone in Hat.
    + rewrite Hne in Hat by done. by apply Hr.
Qed.

(** ** Batches *)

(** Nothing but the numbers of rows to come, empty tables and the tracker may change. *)
Lemma sound_same s s' file : sound (s, file) -> shard_id s' = shard_id s -> next_offset s' = next_offset s ->
  same_rows s s' -> (forall n, is_Some (tables s' !! n) -> is_Some (tables s !! n) \/ parse_lobby_key n = None) -> sound (s', file).
Proof.
  intros [Hsh Ho Hg Hr] Hid Hno Hrows Ht. cbn [fst snd] in *. split; cbn [fst snd].
  - by rewrite Hid.
  - congruence.
  - intros n Hn. destruct (Ht n Hn); auto.
  - intros n k r. rewrite Hid, Hrows. apply Hr.
Qed.

Lemma sound_create name s file : sound (s, file) -> parse_lobby_key name = None -> sound (get_or_create_table name s, file).
Proof.
  intros Hs Hn. eapply sound_same; [exact Hs|apply get_or_create_env| |apply same_rows_get_or_create|].
  - unfold get_or_create_table. by destruct (tables s !! name).
  - intros n. rewrite get_or_create_tables, lookup_insert_is_Some. intros [<-|[_ ?]]; auto.
Qed.

Definition plain_delta (d : RowDelta) : Prop := forall v, row_data_value d = Some v -> plain_inventory v.

Lemma counter_sound d s file v s' file' : sound (s, file) -> counter_delta d (s, file) = (Ok v, (s', file')) ->
  sound (s', file') /\ plain_inventory v.
Proof.
  intros Hs. unfold counter_delta, alloc_row_id. destruct (get_counter_in _ _ _ _) as [[c|]|]; intros E; simplify_eq.
  - split; [done|]. by intros inv.
  - split; [|by intros inv]. eapply sound_same; [exact Hs|done..|]. auto.
Qed.

Lemma apply_one_sound d s file c u s' file' : inv s -> sound (s, file) -> delta_ok d -> plain_delta d ->
  parse_lobby_key (table_name d) = None -> apply_one max_blob d (s, file) = (Result (Ok c), u, (s', file')) -> sound (s', file').
Proof.
  intros Hi Hs Hd Hp Hn. unfold apply_one. destruct (beq _ _ || beq _ _).
  - destruct (row_data_value d) as [v|] eqn:Ev; [|done].
    destruct (write_row_unlocked _ _ _ _ _) as [r [s1 f1]] eqn:Ew. intros E. simplify_eq.
    eapply write_sound; [exact Hs|exact Hn|by apply Hd|by apply Hp|exact Ew].
  - destruct (beq (operation d) (bs "delete")).
    + destruct (delete_row_unlocked _ _ _) as [r [s1 f1]] eqn:Ew. intros E. simplify_eq. by eapply delete_sound.
    + destruct (beq (operation d) (bs "counter_add")); [|by intros; simplify_eq].
      destruct (counter_delta d (s, file)) as [[v|x] [s1 f1]] eqn:Ec; [|done].
      pose proof (counter_delta_ok _ _ _ _ _ _ Hi Hd Ec) as [_ Hv]. apply counter_sound in Ec as [Hs1 Hpv]; [|done].
      destruct (write_row_unlocked _ _ _ _ _) as [r [s2 f2]] eqn:Ew. intros E. simplify_eq.
      by eapply write_sound.
Qed.

Lemma apply_loop_sound now ds : forall applied committed s file l s' file', inv s -> sound (s, file) ->
  Forall delta_ok ds -> Forall plain_delta ds -> Forall (fun d => parse_lobby_key (table_name d) = None) ds ->
  apply_loop max_blob now ds applied committed (s, file) = (Ok l, (s', file')) -> sound (s', file').
Proof.
  revert now. induction ds as [|d ds IH]; intros now applied committed s file l s' file' Hi Hs Hok Hp Hg; cbn [apply_loop fst].
  { by intros [= _ <- <-]. }
  apply Forall_cons in Hok as [Hd Hok], Hp as [Hpd Hp], Hg as [Hg1 Hg]. destruct (negb _); [by apply IH|].
  destruct (apply_one max_blob d (s, file)) as [[[e|[c|e]] u] [s1 f1]] eqn:E; [done| |done].
  pose proof (apply_one_ok _ _ _ _ _ _ _ _ Hi Hd E) as Hi1. apply (track_inv (now 0%nat) c) in Hi1.
  pose proof E as Hs1%apply_one_sound; [|done..]. apply IH; [done| |done..].
  eapply sound_same; [exact Hs1|apply track_env|unfold track; by repeat case_match|apply same_tables, track_tables|].
  intros n. rewrite track_tables. auto.
Qed.

(** A batch leaves rows that can be written again. *)
Lemma batch_sound now ds rv s file l s' file' : kept s -> sound (s, file) ->
  Forall delta_ok ds -> Forall plain_delta ds -> Forall (fun d => parse_lobby_key (table_name d) = None) ds ->
  batch_inner max_blob now ds rv (s, file) = (Ok l, (s', file')) -> sound (s', file').
Proof.
  intros [Hi Hl] Hs Hok Hp Hg. unfold batch_inner. destruct ds as [|d ds]; [by intros; simplify_eq|].
  set (s1 := foldl _ s _). assert (Hi1 : inv s1) by by apply create_tables_inv.
  assert (Hs1 : sound (s1, file)).
  { unfold s1. assert (Hlk : Forall (fun tk => parse_lobby_key tk.1 = None) (lock_keys s (d :: ds))).
    { apply Forall_forall. intros [n k] (d' & Hin & [<- _] & _)%elem_lock_keys. rewrite Forall_forall in Hg. by apply Hg. }
    revert Hs Hlk. clear. generalize (lock_keys s (d :: ds)) as lk. intros lk. revert s.
    induction lk as [|tk lk IH]; intros s Hs Hlk; [done|]. apply Forall_cons in Hlk as [Hn Hlk]. cbn. apply IH; [by apply sound_create|done]. }
  destruct (create_tables_env (lock_keys s (d :: ds)) s) as (_ & _ & _ & Hl1). fold s1 in Hl1.
  destruct (occ_check _ _ _); [|done].
  destruct (apply_loop _ _ _ _ _ _) as [[x|x] [s2 f2]] eqn:E; [|done]. intros [= <- <- <-].
  rewrite evict_none by (eapply apply_loop_lru; [by rewrite Hl1|exact E]).
  by eapply apply_loop_sound.
Qed.

(** ** What is saved *)

Definition good (ts : TableStore) : Prop := sound (root ts, blob_file ts) /\ lobbies ts = ∅.

(** The contents of a store, seen from its root. *)
Definition held (ts : TableStore) n k : option (Bytes * Value) := content (root ts) (blob_file ts) n k.

Lemma content_row s file n k b v : content s file n k = Some (b, v) ->
  exists r, row_at s n k = Some r /\ full_value file r = Ok v /\ data r = b.
Proof.
  unfold content. destruct (row_at s n k) as [r|]; [|done]. cbn [mbind option_bind].
  destruct (full_value file r) as [u|] eqn:E; [|done]. cbn. intros [= <- <-]. by exists r.
Qed.

Lemma sound_content s file n k r : sound (s, file) -> row_at s n k = Some r ->
  exists v, full_value file r = Ok v /\ content s file n k = Some (data r, v) /\ saved (shard_id s) n k v (data r).
Proof.
  intros Hs Hr. destruct (so_rows _ Hs _ _ _ Hr) as (_ & v & Hv & Hsv). exists v. cbn [fst snd] in *. split; [done|]. split; [|done].
  unfold content. rewrite Hr. cbn [mbind option_bind]. by rewrite Hv.
Qed.

Lemma own_rows_all s file n k r : sound (s, file) -> (k, r) ∈ own_rows s n <-> row_at s n k = Some r.
Proof.
  intros Hs. unfold own_rows. rewrite <- table_of_row, list_elem_of_In, filter_In, <- list_elem_of_In, elem_of_map_to_list. split; [by intros [? _]|].
  intros Hr. split; [done|]. rewrite table_of_row in Hr. destruct (so_rows _ Hs _ _ _ Hr) as [Hm _]. cbn [fst snd] in *.
  unfold row_matches_shard. by rewrite Hm, Z.eqb_refl, orb_true_r.
Qed.

Lemma listing_exists s file n : sound (s, file) -> exists l, list_rows_with_keys_in s file n = Ok l.
Proof.
  intros Hs. unfold list_rows_with_keys_in. assert (Hall : Forall (fun kr => is_Some (ok_opt (full_value file kr.2))) (own_rows s n)).
  { apply Forall_forall. intros [k r] Hin%(own_rows_all _ _ _ _ _ Hs). destruct (sound_content _ _ _ _ _ Hs Hin) as (v & Hv & _). cbn [snd]. rewrite Hv. by exists v. }
  induction Hall as [|[k r] l [v Hv] _ [l' IH]]; [by exists []|]. cbn [foldr snd] in *. destruct (full_value file r) as [u|]; [|done]. cbn. rewrite IH. by eexists.
Qed.

Lemma rows_listed ts n : good ts -> parse_lobby_key n = None -> exists l,
  list_rows_with_keys n ts = (Ok l, ts) /\ NoDup l.*1 /\ forall k v, (k, v) ∈ l <-> exists b, held ts n k = Some (b, v).
Proof.
  intros [Hs _] Hn. destruct (listing_exists _ _ n Hs) as [l Hl]. exists l. split; [|split].
  - unfold list_rows_with_keys, route. rewrite Hn. unfold on_root, reads. cbn [fst snd]. rewrite Hl. by destruct ts.
  - apply listed_in in Hl as [-> _]. apply own_rows_keys.
  - apply listed_in in Hl as [Hk Hl]. intros k v. split.
    + intros (r & Hr%(own_rows_all _ _ _ _ _ Hs) & Hv)%Hl. destruct (sound_content _ _ _ _ _ Hs Hr) as (v' & Hv' & Hc & _). exists (data r). unfold held. congruence.
    + intros (b & (r & Hr & Hv & _)%content_row). assert (Hin : k ∈ l.*1).
      { rewrite Hk. apply list_elem_of_fmap. exists (k, r). split; [done|]. by apply (own_rows_all _ _ _ _ _ Hs). }
      apply list_elem_of_fmap in Hin as ([k' v'] & -> & Hin). destruct (Hl _ _ Hin) as (r' & Hr'%(own_rows_all _ _ _ _ _ Hs) & Hv'). cbn [fst] in Hr.
      assert (r' = r) as -> by congruence. assert (v' = v) as <- by congruence. done.
Qed.

(** What the tables of the snapshot hold, of the tables [names]. *)
Definition saves (names : list Bytes) (ts : TableStore) (m : gmap Bytes (list (Bytes * Value))) : Prop :=
  map_Forall (fun n l => n ∈ names /\ NoDup l.*1 /\ forall k v, (k, v) ∈ l <-> exists b, held ts n k = Some (b, v)) m /\
  forall n, n ∈ names -> m !! n = None -> forall k, held ts n k = None.

Lemma tables_collected ts names : good ts -> Forall (fun n => parse_lobby_key n = None) names -> exists m count,
  collect_tables names ts = (Ok (m, count), ts) /\ saves names ts m.
Proof.
  intros Hg. induction 1 as [|n names Hn _ (m & count & IH & Hm & Hnone)].
  { exists ∅, 0. split; [done|]. split; [apply map_Forall_empty|]. by intros n Hn%not_elem_of_nil. }
  destruct (rows_listed ts n Hg Hn) as (l & Hl & Hd & Hin). cbn [collect_tables]. rewrite Hl, IH. cbn [mbind result_bind].
  do 2 eexists. split; [reflexivity|]. split.
  - assert (Hm' : map_Forall (fun n' l' => n' ∈ n :: names /\ NoDup l'.*1 /\ forall k v, (k, v) ∈ l' <-> exists b, held ts n' k = Some (b, v)) m).
    { eapply map_Forall_impl; [exact Hm|]. intros n' l' [? ?]. split; [by right|done]. }
    destruct l as [|x l]; [done|]. apply map_Forall_insert_2; [|done]. split; [by left|done].
  - intros n' Hn' Hlook k. destruct (decide (n' = n)) as [->|Hne].
    + destruct l as [|x l]; [|by rewrite lookup_insert_eq in Hlook]. destruct (held ts n k) as [[b v]|] eqn:E; [|done].
      assert (Hv : (k, v) ∈ []) by (apply Hin; by exists b). by apply not_elem_of_nil in Hv.
    + apply elem_of_cons in Hn' as [?|Hn']; [done|]. apply Hnone; [done|]. destruct l; [done|]. by rewrite lookup_insert_ne in Hlook.
Qed.

Lemma snapshot_taken ts seq t : good ts -> exists m count,
  snapshot_of seq t ts = (Ok {| meta := {| s_version := 1; last_sequence := seq; s_timestamp := t; s_row_count := count;
                                           s_next_row_id := current_next_row_id ts |}; s_tables := m |}, ts) /\
  saves (map fst (map_to_list (tables (root ts)))) ts m.
Proof.
  intros Hg. pose proof Hg as [Hs Hlo]. unfold snapshot_of, list_tables. rewrite Hlo, map_to_list_empty. cbn [map concat]. rewrite app_nil_r.
  destruct (tables_collected ts (map fst (map_to_list (tables (root ts)))) Hg) as (m & count & -> & Hm).
  - apply Forall_forall. intros n ([n' t'] & -> & Hin)%list_elem_of_fmap. apply elem_of_map_to_list in Hin. apply (so_global _ Hs). by exists t'.
  - cbn [mbind result_bind]. by exists m, count.
Qed.

(** ** What is loaded *)

Lemma write_saved sh name key v b s file : sound (s, file) -> shard_id s = sh -> parse_lobby_key name = None -> saved sh name key v b ->
  exists c s' file', write_row_unlocked max_blob name key v (s, file) = (Ok c, (s', file')) /\ sound (s', file') /\ shard_id s' = sh /\
    lru s' = lru s /\ forall n k, content s' file' n k = if decide ((n, k) = (name, key)) then Some (b, v) else content s file n k.
Proof.
  intros Hs Hsh Hn Hv. pose proof Hv as (Hst & Hp & Hstamp & w & He & Ht).
  destruct (write_row_unlocked max_blob name key v (s, file)) as [[c|e] [s' file']] eqn:Ew.
  - exists c, s', file'. split; [done|]. pose proof Ew as (Hs' & b' & Hb' & Hc)%write_sound; [|done..]. rewrite Hsh, Hstamp in *.
    pose proof Ew as [(Hid & _ & _ & Hl) _]%write_row_spec. rewrite (saved_unique _ _ _ _ _ _ Hv Hb') in Hc. split_and!; [done|congruence|done|done].
  - exfalso. unfold write_row_unlocked in Ew.
    set (q := match rows _ !! key with Some _ => _ | None => _ end) in Ew. destruct q as [[[op id] ver] s1] eqn:Eq.
    assert (Hsh1 : shard_id s1 = sh).
    { pose proof (get_or_create_env name s) as (Hg & _). unfold q, alloc_row_id in Eq.
      destruct (rows _ !! key); injection Eq as _ _ _ <-; cbn; congruence. }
    unfold prepare_value in Ew. destruct (Ht s1 file) as (v1 & off & s2 & f2 & Et & Hw). rewrite Et in Ew.
    assert (Hsh2 : shard_id s2 = sh) by (apply take_inventory_frame in Et as (_ & (-> & _) & _); done).
    by rewrite Hsh2, Hw, He in Ew.
Qed.

(** Rows of the table [n] of [src], and what a store holds once they are written. *)
Definition source (sh : Z) (src : Bytes -> Bytes -> option (Bytes * Value)) n (l : list (Bytes * Value)) : Prop :=
  parse_lobby_key n = None /\ forall k v, (k, v) ∈ l -> exists b, src n k = Some (b, v) /\ saved sh n k v b.

Definition loaded (sh : Z) (ts ts' : TableStore) : Prop :=
  good ts' /\ shard_id (root ts') = sh /\ lru (root ts') = lru (root ts).

Lemma rows_restored sh src n l : source sh src n l -> forall ts, good ts -> shard_id (root ts) = sh -> exists ts',
  restore_rows max_blob n l ts = (Ok tt, ts') /\ loaded sh ts ts' /\
  forall n' k, held ts' n' k = if decide (n' = n /\ k ∈ l.*1) then src n' k else held ts n' k.
Proof.
  intros [Hn Hl]. induction l as [|[k0 v0] l IH]; intros ts [Hs Hlo] Hsh.
  { exists ts. split; [done|]. split; [done|]. intros n' k. rewrite decide_False; [done|]. by intros [_ ?%not_elem_of_nil]. }
  destruct (Hl k0 v0) as (b & Hb & Hsv); [by left|].
  destruct (write_saved _ _ _ _ _ _ _ Hs Hsh Hn Hsv) as (c & s' & file' & Hw & Hs' & Hsh' & Hlru & Hc).
  cbn [restore_rows]. unfold set_row, route. rewrite Hn. unfold on_root. rewrite Hw.
  destruct (IH (fun k v Hin => Hl k v (list_elem_of_further _ _ _ Hin)) {| root := s'; lobbies := lobbies ts; blob_file := file' |})
    as (ts' & Hr & (Hg & Hid & Hl') & Hh); [done|done|]. exists ts'. split; [done|]. split.
  { split; [done|]. split; [done|]. cbn in Hl'. congruence. }
  intros n' k. rewrite Hh. cbn [fmap list_fmap fst]. destruct (decide (n' = n /\ k ∈ l.*1)) as [Hd|Hd].
  - rewrite decide_True; [done|]. destruct Hd. split; [done|by right].
  - unfold held at 1. cbn [root blob_file]. rewrite Hc. case_decide as E.
    + injection E as -> ->. rewrite decide_True by (split; [done|by left]). done.
    + rewrite decide_False; [done|]. intros [-> [->|?]%elem_of_cons]; [by apply E|by apply Hd].
Qed.

Lemma tables_restored sh src tl : Forall (fun t : Bytes * list (Bytes * Value) => source sh src t.1 t.2) tl ->
  forall ts, good ts -> shard_id (root ts) = sh -> exists ts',
  restore_tables max_blob tl ts = (Ok tt, ts') /\ loaded sh ts ts' /\
  forall n k, ((exists l, (n, l) ∈ tl /\ k ∈ l.*1) -> held ts' n k = src n k) /\
              (~ (exists l, (n, l) ∈ tl /\ k ∈ l.*1) -> held ts' n k = held ts n k).
Proof.
  induction 1 as [|[n0 l0] tl Hsrc _ IH]; intros ts Hg Hsh.
  { exists ts. split; [done|]. split; [done|]. intros n k. split; [|done]. by intros (l & ?%not_elem_of_nil & _). }
  destruct (rows_restored _ _ _ _ Hsrc ts Hg Hsh) as (ts1 & Hr1 & (Hg1 & Hsh1 & Hl1) & Hh1). cbn [restore_tables fst snd] in *. rewrite Hr1.
  destruct (IH ts1 Hg1 Hsh1) as (ts2 & Hr2 & (Hg2 & Hsh2 & Hl2) & Hh2). exists ts2. split; [done|]. split; [split; [done|split; [done|congruence]]|].
  intros n k. destruct (Hh2 n k) as [Hyes Hno]. assert (Hdec : Decision (exists l, (n, l) ∈ tl /\ k ∈ l.*1)).
  { destruct (decide (Exists (fun t : Bytes * list (Bytes * Value) => t.1 = n /\ k ∈ t.2.*1) tl)) as [He|He]; [left|right].
    - apply Exists_exists in He as ([n' l] & Hin & <- & Hk). by exists l.
    - intros (l & Hin & Hk). apply He. apply Exists_exists. by exists (n, l). }
  split.
  - intros (l & Hin & Hk). destruct Hdec as [He|He]; [by apply Hyes|]. rewrite Hno, Hh1 by done.
    apply elem_of_cons in Hin as [[= -> ->]|Hin]; [by rewrite decide_True|]. exfalso. apply He. by exists l.
  - intros Hne. rewrite Hno, Hh1.
    + rewrite decide_False; [done|]. intros [-> Hk]. apply Hne. exists l0. split; [by left|done].
    + intros (l & Hin & Hk). apply Hne. exists l. split; [by right|done].
Qed.

(** A snapshot of a store, loaded into one without rows, leaves it with the same rows. *)
Lemma snapshot_loaded ts seq t ts0 : good ts -> good ts0 -> shard_id (root ts0) = shard_id (root ts) ->
  (forall n k, held ts0 n k = None) -> exists sf ts1,
  snapshot_of seq t ts = (Ok sf, ts) /\ last_sequence (meta sf) = seq /\
  map_Forall (fun n l => Forall (fun kv : Bytes * Value => storable kv.2 = true) l) (s_tables sf) /\
  restore_tables max_blob (map_to_list (s_tables sf)) ts0 = (Ok tt, ts1) /\
  loaded (shard_id (root ts)) ts0 ts1 /\ forall n k, held ts1 n k = held ts n k.
Proof.
  intros Hg Hg0 Hsh Hempty. destruct (snapshot_taken ts seq t Hg) as (m & count & -> & Hm & Hnone).
  pose proof Hg as [Hs _].
  assert (Hsaved : forall n k v b, held ts n k = Some (b, v) -> saved (shard_id (root ts)) n k v b).
  { intros n k v b (r & Hr & Hv & <-)%content_row. destruct (sound_content _ _ _ _ _ Hs Hr) as (v' & Hv' & _ & Hsv). congruence. }
  destruct (tables_restored (shard_id (root ts)) (held ts) (map_to_list m)) with (ts := ts0) as (ts1 & Hr & Hl & Hh); [|done|done|].
  { apply Forall_forall. intros [n l] Hin%elem_of_map_to_list. cbn [fst snd]. destruct (Hm _ _ Hin) as (Hn & _ & Hin').
    apply list_elem_of_fmap in Hn as ([n' t'] & -> & Ht). apply elem_of_map_to_list in Ht. split; [apply (so_global _ Hs); by exists t'|].
    intros k v (b & Hb)%Hin'. exists b. split; [done|by apply Hsaved]. }
  do 2 eexists. split; [reflexivity|]. cbn [meta s_tables last_sequence]. split; [done|]. split; [|split; [exact Hr|split; [done|]]].
  { intros n l Hin. destruct (Hm _ _ Hin) as (_ & _ & Hin'). apply Forall_forall. intros [k v] (b & Hb%Hsaved)%Hin'. apply Hb. }
  intros n k. destruct (Hh n k) as [Hyes Hno]. destruct (held ts n k) as [[b v]|] eqn:E.
  - rewrite Hyes; [done|]. pose proof E as (r & Hrow & _)%content_row.
    destruct (m !! n) as [l|] eqn:El.
    + exists l. split; [by apply elem_of_map_to_list|]. apply list_elem_of_fmap. exists (k, v). split; [done|]. apply (Hm _ _ El). by exists b.
    + rewrite (Hnone n) in E; [done| |done]. unfold row_at in Hrow. destruct (tables (root ts) !! n) as [t'|] eqn:Et; [|done].
      apply list_elem_of_fmap. exists (n, t'). split; [done|by apply elem_of_map_to_list].
  - rewrite Hno; [apply Hempty|]. intros (l & Hin%elem_of_map_to_list & Hk). apply list_elem_of_fmap in Hk as ([k' v] & -> & Hk).
    apply (Hm _ _ Hin) in Hk as (b & Hb). cbn [fst] in E. congruence.
Qed.
End Snapshot.

(** ** Snapshot files *)

(** Reading a snapshot file gives what was written, of values MessagePack can hold. *)
Class SnapshotCodecLaws `{WalCodec} := {
  snapshot_round : forall sf b, map_Forall (fun _ l => Forall (fun kv : Bytes * Value => storable kv.2 = true) l) (s_tables sf) ->
    snapshot_to_vec sf = Some b -> snapshot_from_slice b = Some sf }.

Lemma parse_snapshot_path q : 0 <= q < U64 -> parse_snapshot_seq (snapshot_path q) = Some q.
Proof.
  intros Hq. unfold parse_snapshot_seq, snapshot_path. rewrite strip_prefix_app. cbn [mbind option_bind].
  rewrite strip_suffix_app. cbn [mbind option_bind]. pose proof (parse_int_dec 0 (U64 - 1) q) as Hp.
  unfold dec in Hp. rewrite zlt_false in Hp by lia. apply Hp. lia.
Qed.

(** The snapshot a directory is started from. *)
Definition newest (d : gmap Bytes Bytes) name q : Prop :=
  is_Some (d !! name) /\ parse_snapshot_seq name = Some q /\
  forall n' q', is_Some (d !! n') -> n' <> name -> parse_snapshot_seq n' = Some q' -> q' < q.

Lemma newest_found d name q : newest d name q -> find_latest_snapshot d = Some (name, q).
Proof.
  intros ((file & Hin) & Hp & Hot). unfold find_latest_snapshot.
  assert (Hall : Forall (fun nf : Bytes * Bytes => nf.1 <> name -> forall q', parse_snapshot_seq nf.1 = Some q' -> q' < q) (map_to_list d)).
  { apply Forall_forall. intros [n' f'] Hn%elem_of_map_to_list Hne q'. apply Hot; [by exists f'|done]. }
  apply elem_of_map_to_list in Hin. revert Hin Hall. set (step := fun best (nf : Bytes * Bytes) => _).
  assert (Hkeep : forall l : list (Bytes * Bytes), Forall (fun nf : Bytes * Bytes => nf.1 <> name -> forall q', parse_snapshot_seq nf.1 = Some q' -> q' < q) l ->
            foldl step (Some (name, q)) l = Some (name, q)).
  { induction l as [|[n' f'] l IH]; [done|]. intros [Hn Hl]%Forall_cons. cbn [foldl]. rewrite <- (IH Hl) at 2. f_equal. unfold step. cbn [fst] in *.
    destruct (decide (n' = name)) as [->|Hne].
    - rewrite Hp. by rewrite zlt_false by lia.
    - destruct (parse_snapshot_seq n') as [q'|] eqn:E; [|done]. specialize (Hn Hne q' eq_refl). by rewrite zlt_false by lia. }
  assert (Hgen : forall (l : list (Bytes * Bytes)) best, (name, file) ∈ l ->
            Forall (fun nf : Bytes * Bytes => nf.1 <> name -> forall q', parse_snapshot_seq nf.1 = Some q' -> q' < q) l ->
            match best with Some (n', s) => s < q \/ n' = name /\ s = q | None => True end -> foldl step best l = Some (name, q)).
  { induction l as [|[n' f'] l IH]; intros best Hin; [by apply not_elem_of_nil in Hin|]. intros [Hn Hl]%Forall_cons Hb. cbn [foldl].
    destruct (decide (n' = name)) as [->|Hne].
    - replace (step best (name, f')) with (Some (name, q)); [by apply Hkeep|]. unfold step. cbn [fst]. rewrite Hp.
      destruct best as [[n2 s]|]; [|done]. destruct Hb as [Hs|[-> ->]]; [by rewrite zlt_true by lia|by rewrite zlt_false by lia].
    - apply elem_of_cons in Hin as [[= <- _]|Hin]; [done|]. apply IH; [done|done|]. unfold step. cbn [fst] in *.
      destruct (parse_snapshot_seq n') as [q'|] eqn:E; [|done]. specialize (Hn Hne q' eq_refl).
      destruct best as [[n2 s]|]; [|by left]. destruct (s <? q'); [by left|done]. }
  intros Hin Hall. by apply (Hgen _ None Hin Hall).
Qed.

Lemma tmp_is_no_snapshot q : 0 <= q < U64 -> parse_snapshot_seq (snapshot_tmp q) = None.
Proof.
  intros Hq. unfold parse_snapshot_seq, snapshot_tmp, snapshot_path. rewrite <- !app_assoc, strip_prefix_app. cbn [mbind option_bind].
  destruct (strip_suffix (bs ".bin") (dec_u q ++ bs ".bin" ++ bs ".tmp")) eqn:E; [|done]. exfalso. revert E. unfold strip_suffix.
  rewrite !rev_app_distr. done.
Qed.

(** No snapshot of a directory is as new as [q], but one of that very name. *)
Definition older (d : gmap Bytes Bytes) (q : Z) : Prop :=
  forall n q', is_Some (d !! n) -> n <> snapshot_path q -> parse_snapshot_seq n = Some q' -> q' < q.

Lemma newest_inserted d q b : 0 <= q < U64 -> older d q -> newest (<[snapshot_path q := b]> d) (snapshot_path q) q.
Proof.
  intros Hq Ho. split; [rewrite lookup_insert_eq; by exists b|]. split; [by apply parse_snapshot_path|].
  intros n' q' Hs Hne. rewrite lookup_insert_ne in Hs by done. by apply Ho.
Qed.

(** ** Started from a snapshot and a log *)

Section Restart.
Context `{SerdeLaws}.
Context `{WalCodecLaws} `{!SnapshotCodecLaws}.
Variable max_blob : Z.
Hypothesis max_fits : max_blob < U64.
Variable now : nat -> Z.
Implicit Types (n k : Bytes).

(** A store at start-up: nothing in it. *)
Definition blank (sh : Z) (ts : TableStore) : Prop :=
  good max_blob ts /\ shard_id (root ts) = sh /\ lru (root ts) = None /\ forall n k, row_at (root ts) n k = None.

Lemma held_row_of ts ts' : good max_blob ts -> good max_blob ts' -> (forall n k, held ts' n k = held ts n k) ->
  forall n k, row_of ts' n k = row_of ts n k.
Proof.
  intros [Hs Hl] [Hs' Hl'] Hh n k. unfold row_of, get_row, route. destruct (parse_lobby_key n) as [[lid logical]|] eqn:En.
  - unfold on_lobby, lobby_store. rewrite Hl, Hl', !lookup_empty. cbn [default]. case_bool_decide; [done|].
    unfold reads. cbn [fst snd]. unfold get_row_in, get_row_with_version_in. rewrite bool_decide_eq_false_2 by done. by cbn; rewrite !lookup_empty.
  - unfold on_root, reads. cbn [fst snd]. unfold get_row_in, get_row_with_version_in.
    rewrite bool_decide_eq_false_2 by (rewrite En; by intros [? ?]). fold (row_at (root ts) n k) (row_at (root ts') n k).
    specialize (Hh n k). unfold held, content in Hh.
    destruct (row_at (root ts) n k) as [r|] eqn:E, (row_at (root ts') n k) as [r'|] eqn:E'; cbn [mbind option_bind] in Hh |- *.
    + destruct (so_rows _ _ Hs _ _ _ E) as (Hm & v & Hv & _), (so_rows _ _ Hs' _ _ _ E') as (Hm' & v' & Hv' & _). cbn [fst snd] in *.
      rewrite Hv, Hv' in *. cbn in Hh. injection Hh as _ ->. unfold row_matches_shard. by rewrite Hm, Hm', !Z.eqb_refl, !orb_true_r.
    + destruct (so_rows _ _ Hs _ _ _ E) as (_ & v & Hv & _). cbn [fst snd] in *. by rewrite Hv in Hh.
    + destruct (so_rows _ _ Hs' _ _ _ E') as (_ & v & Hv & _). cbn [fst snd] in *. by rewrite Hv in Hh.
    + done.
Qed.

Lemma held_image ts ts' : good max_blob ts -> good max_blob ts' -> (forall n k, held ts' n k = held ts n k) ->
  same_image (image (root ts')) (image (root ts)).
Proof.
  intros [Hs Hl] [Hs' Hl'] Hh n k. specialize (Hh n k). unfold image. unfold held, content in Hh.
  destruct (row_at (root ts) n k) as [r|] eqn:E, (row_at (root ts') n k) as [r'|] eqn:E'; cbn [mbind option_bind] in Hh |- *; [| | |done].
  - destruct (so_rows _ _ Hs _ _ _ E) as (_ & v & Hv & _), (so_rows _ _ Hs' _ _ _ E') as (_ & v' & Hv' & _). cbn [fst snd] in *.
    rewrite Hv, Hv' in Hh. cbn in Hh |- *. congruence.
  - destruct (so_rows _ _ Hs _ _ _ E) as (_ & v & Hv & _). cbn [fst snd] in *. by rewrite Hv in Hh.
  - destruct (so_rows _ _ Hs' _ _ _ E') as (_ & v & Hv & _). cbn [fst snd] in *. by rewrite Hv in Hh.
Qed.

Lemma blank_held sh ts : blank sh ts -> forall n k, held ts n k = None.
Proof. intros (_ & _ & _ & Hr) n k. unfold held, content. by rewrite Hr. Qed.

(** What saving a snapshot does to the directory, and what loading it gives. *)
Lemma saved_then_loaded ts seq t dir dir' ts' ts0 : good max_blob ts -> blank (shard_id (root ts)) ts0 ->
  save_snapshot seq t dir ts = (Ok dir', ts') -> ts' = ts /\ exists file m ts1,
    dir' = <[snapshot_path seq := file]> (delete (snapshot_tmp seq) dir) /\
    load_snapshot max_blob file ts0 = (Ok m, ts1) /\ last_sequence m = seq /\
    good max_blob ts1 /\ shard_id (root ts1) = shard_id (root ts) /\ lru (root ts1) = None /\
    forall n k, held ts1 n k = held ts n k.
Proof.
  intros Hg Hb. pose proof Hb as (Hg0 & Hsh & Hlru & _). unfold save_snapshot.
  destruct (snapshot_loaded max_blob max_fits ts seq t ts0 Hg Hg0 Hsh (blank_held _ _ Hb)) as (sf & ts1 & -> & Hseq & Hst & Hr & (Hg1 & Hsh1 & Hl1) & Hh).
  cbn [mbind result_bind]. destruct (snapshot_to_vec sf) as [file|] eqn:Ef; [|done]. cbn. intros [= <- <-]. split; [done|].
  exists file, (meta sf), (set_next_row_id (s_next_row_id (meta sf)) ts1). split; [done|]. split; [|split; [done|]].
  - unfold load_snapshot. rewrite (snapshot_round sf file Hst Ef). by rewrite Hr.
  - split; [|split; [done|split; [cbn; congruence|]]].
    + destruct Hg1 as [Hs1 Hlo1]. split; [|done]. eapply sound_same; [exact Hs1|done..|]. auto.
    + exact Hh.
Qed.

(** C6: A snapshot brings back every row. Of a store without lobby tables, whose rows were written
    by batches and carry inventories free of floats, saving a snapshot as new as any of its
    directory never changes the store, and fails only when it cannot be encoded; otherwise it is
    the snapshot the directory is started from, and, loaded into an empty store of the same shard,
    it gives every row the value it had, an inventory in the blob file included. While it is
    written, every state of the directory a crash can leave starts from the snapshot it started
    from before, or from the new one. *)
Theorem snapshot_brings_back ts seq t dir ts0 : good max_blob ts -> blank (shard_id (root ts)) ts0 ->
  0 <= seq < U64 -> older dir seq ->
  match save_snapshot seq t dir ts with
  | (Err e, ts') => e = SerializationError /\ ts' = ts
  | (Ok dir', ts') => ts' = ts /\ exists file m ts1,
      find_latest_snapshot dir' = Some (snapshot_path seq, seq) /\ dir' !! snapshot_path seq = Some file /\
      load_snapshot max_blob file ts0 = (Ok m, ts1) /\ last_sequence m = seq /\
      (forall n k, row_of ts1 n k = row_of ts n k) /\
      (forall d name q, newest dir name q -> d ∈ save_steps seq file dir ->
        (find_latest_snapshot d = Some (name, q) /\ d !! name = dir !! name) \/ d = dir')
  end.
Proof.
  intros Hg Hb Hq Ho. destruct (save_snapshot seq t dir ts) as [[dir'|e] ts'] eqn:Es.
  - pose proof Es as (-> & file & m & ts1 & -> & Hload & Hm & Hg1 & _ & _ & Hh)%(saved_then_loaded _ _ _ _ _ _ ts0); [|done..]. split; [done|].
    exists file, m, ts1. assert (Ho' : older (delete (snapshot_tmp seq) dir) seq).
    { intros n q' Hs. apply Ho. destruct (decide (n = snapshot_tmp seq)) as [->|Hne]; [rewrite lookup_delete_eq in Hs; by destruct Hs|]. by rewrite lookup_delete_ne in Hs. }
    split; [by apply newest_found, newest_inserted|]. split; [apply lookup_insert_eq|]. split; [done|]. split; [done|].
    split; [by apply held_row_of|]. intros d name q Hn Hd. unfold save_steps in Hd. repeat (apply elem_of_cons in Hd as [->|Hd]); [| | |by apply not_elem_of_nil in Hd]; [left|left|by right].
    + split; [by apply newest_found|done].
    + pose proof Hn as (Hin & Hp & Hold). assert (Hne : name <> snapshot_tmp seq) by (intros ->; by rewrite tmp_is_no_snapshot in Hp).
      split; [|by rewrite lookup_insert_ne]. apply newest_found. split; [by rewrite lookup_insert_ne|]. split; [done|].
      intros n' q'. destruct (decide (n' = snapshot_tmp seq)) as [->|Hne']; [by rewrite tmp_is_no_snapshot|]. rewrite lookup_insert_ne by done. apply Hold.
  - unfold save_snapshot in Es. destruct (snapshot_loaded max_blob max_fits ts seq t ts0 Hg) as (sf & ts1 & Hsf & _); [apply Hb..|by eapply blank_held|].
    rewrite Hsf in Es. cbn [mbind result_bind] in Es. destruct (snapshot_to_vec sf); cbn in Es; [done|]. by injection Es as <- <-.
Qed.

(** *** With the log *)

(** The commits [es] since a snapshot at [q], the entries [old] before it, their encodings. *)
Record durable (q : Z) (sd : SD) (old es : list WalEntry) (sd' : SD) (logs : list Bytes) : Prop := {
  du_kept : kept sd.1;
  du_history : history max_blob sd es sd';
  du_old : Forall (fun e => sequence_number (header e) <= q /\ Forall delta_kept (deltas (payload e))) old;
  du_new : Forall (fun e => q < sequence_number (header e) < U64 - 1) es;
  du_encoded : Forall2 (fun e b => entry_to_vec e = Some b /\ zlen b < 2 ^ 32) (old ++ es) logs }.

Lemma durable_encodes q sd old es sd' logs : durable q sd old es sd' logs ->
  Forall (fun e => Forall delta_kept (deltas (payload e))) (old ++ es) /\ Forall2 encodes (old ++ es) logs.
Proof.
  intros [Hk Hh Hold _ Henc]. destruct (history_entries _ _ _ _ Hh Hk) as [Hall _].
  assert (Hkept : Forall (fun e => Forall delta_kept (deltas (payload e))) (old ++ es)).
  { apply Forall_app. split; eapply Forall_impl; [exact Hold| |exact Hall|]; cbn; [by intros e [_ ?]|].
    intros e (_ & Hse & _). by eapply settled_kept. }
  split; [done|]. clear -Henc Hkept H2. induction Henc as [|e b l logs [He Hb] _ IH]; [constructor|].
  apply Forall_cons in Hkept as [Hd Hkept]. constructor; [|auto]. split; [by eapply entry_round|done].
Qed.

Lemma recover_skips q (old es : list WalEntry) : Forall (fun e => sequence_number (header e) <= q) old ->
  forall r m ts, q <= m -> recover_loop max_blob now q (old ++ es) r m ts = recover_loop max_blob now q es r m ts.
Proof.
  induction 1 as [|e old He _ IH]; intros r m ts Hm; [done|]. cbn [app recover_loop]. rewrite zle_true by lia.
  rewrite Z.max_l by lia. by apply IH.
Qed.

Lemma greatest_number (l : list WalEntry) : forall q, q < U64 - 1 -> Forall (fun e => sequence_number (header e) < U64 - 1) l ->
  let g := foldl Z.max q (map (fun e => sequence_number (header e)) l) in
  q <= g < U64 - 1 /\ Forall (fun e => sequence_number (header e) <= g) l.
Proof.
  induction l as [|e l IH]; intros q Hq Hl; cbn [map foldl]; [split; [lia|constructor]|].
  apply Forall_cons in Hl as [He Hl]. destruct (IH (Z.max q (sequence_number (header e)))) as [Hg Hf]; [lia|done|].
  split; [lia|]. constructor; [lia|done].
Qed.

(** The start-up from what was saved and a log that is read as old entries, then a prefix of the
    new ones. *)
Lemma boot_from q ts old es sd' logs dir name file m ts0 ts1 wal old' j :
  durable q (root ts, blob_file ts) old es sd' logs -> 0 <= q < U64 - 1 -> newest dir name q -> dir !! name = Some file ->
  load_snapshot max_blob file ts0 = (Ok m, ts1) -> last_sequence m = q ->
  base (shard_id (root ts)) ts1 -> same_image (image (root ts1)) (image (root ts)) ->
  read_all_entries wal = old' ++ firstn j es -> Forall (fun e => sequence_number (header e) <= q) old' ->
  exists next ts2 sdj, app_boot max_blob now dir (Some wal) ts0 = (next, ts2) /\ history max_blob (root ts, blob_file ts) (firstn j es) sdj /\
    (forall n k, data <$> row_at (root ts2) n k = data <$> row_at sdj.1 n k) /\
    Forall (fun e => sequence_number (header e) < next) (firstn j es) /\ q < next.
Proof.
  intros Hd Hq Hn Hin Hload Hm Hb Hi Hr Hold. unfold app_boot. rewrite (newest_found _ _ _ Hn), Hin. cbn [default from_option].
  change (id file) with file. rewrite Hload, Hm.
  destruct (history_prefix _ _ _ _ (du_history _ _ _ _ _ _ Hd) j) as [sdj Hj].
  destruct (history_entries _ _ _ _ Hj (du_kept _ _ _ _ _ _ Hd)) as [Hall Himg]. cbn [fst] in *.
  pose proof (Forall_take _ j _ (du_new _ _ _ _ _ _ Hd)) as Hnew.
  unfold recover_from_wal. rewrite Hr, recover_skips by (done || lia).
  destruct (recover_loop_replays max_blob now q (shard_id (root ts)) (firstn j es) Hall) with (replayed := 0) (max_seq := q) (ts := ts1)
    as (ts2 & -> & _ & Hi2); [|done|].
  { eapply Forall_impl; [exact Hnew|]. cbn. lia. }
  destruct (greatest_number (firstn j es) q) as [Hg Hf]; [lia| |].
  { eapply Forall_impl; [exact Hnew|]. cbn. lia. }
  do 3 eexists. split; [reflexivity|]. split; [exact Hj|]. split; [|split].
  - intros n k. change (image (root ts2) n k = image sdj.1 n k). rewrite (Hi2 n k), (Himg n k). apply puts_proper. exact Hi.
  - eapply Forall_impl; [exact Hf|]. cbn. intros e He. lia.
  - lia.
Qed.

Lemma read_after_old q sd old es sd' logs cut : durable q sd old es sd' logs -> exists i,
  read_all_entries (firstn cut (frames logs)) = firstn i (old ++ es) /\
  forall x, (x <= length logs)%nat -> (length (frames (firstn x logs)) <= cut)%nat -> (x <= i)%nat.
Proof. intros [_ He]%durable_encodes. by apply read_prefix. Qed.

Lemma old_then_new q sd old es sd' logs i : durable q sd old es sd' logs ->
  firstn i (old ++ es) = firstn i old ++ firstn (i - length old) es /\ Forall (fun e => sequence_number (header e) <= q) (firstn i old).
Proof.
  intros Hd. split; [apply firstn_app|]. apply Forall_take. eapply Forall_impl; [apply (du_old _ _ _ _ _ _ Hd)|]. by intros e [? _].
Qed.

End Restart.

(** ** On a concrete store *)

#[local] Existing Instances demo_serde demo_laws demo_codec demo_codec_laws.

Definition empty_ts : TableStore := table_store_new NoEviction [].
Definition demo_sd0 : SD := (root empty_ts, []).
Definition demo_step (ds : list RowDelta) (sd : SD) : SD := snd (demo_batch ds [] sd).
Definition demo_log (seq : Z) (ds : list RowDelta) (sd : SD) : WalEntry :=
  entry_new 0 seq (bs "r") [] (match fst (demo_batch ds [] sd) with Ok l => l | Err _ => [] end).
Definition demo_ds1 : list RowDelta := [demo_set (bs "a") 5; demo_delta (bs "counter_add") (bs "c") None 3].
Definition demo_ds2 : list RowDelta := [demo_delta (bs "delete") (bs "a") None 0; demo_set (bs "b") 6].
Definition demo_e1 : WalEntry := demo_log 1 demo_ds1 demo_sd0.
Definition demo_e2 : WalEntry := demo_log 2 demo_ds2 (demo_step demo_ds1 demo_sd0).
Definition raw (e : WalEntry) : Bytes := enc_value (entry_val e).

(** The crash leaves the first entry and seven bytes of the second. *)
Definition demo_cut : nat := length (frame (raw demo_e1)) + 7.

Lemma empty_kept : kept demo_sd0.1.
Proof. apply for_lobby_kept. Qed.

Lemma demo_batch_ok ds : Forall (fun d => parse_lobby_key (table_name d) = None /\ payload_arc d = None /\
    match row_data d with Some v => storable v = true /\ v <> Null | None => True end /\ counter_add_timestamp d = 5) ds ->
  Forall delta_ok ds /\ Forall no_null ds /\ Forall (fun d => parse_lobby_key (table_name d) = None) ds.
Proof.
  intros Hds. split_and!; (eapply Forall_impl; [exact Hds|]); intros d (Hg & Hp & Hr & Ht); [| |done].
  - split; [|rewrite Ht; unfold is_i64, I64_MIN, I64_MAX; lia]. unfold row_data_value. rewrite Hp.
    intros v E. rewrite E in Hr. apply Hr.
  - unfold no_null, row_data_value. rewrite Hp. intros E. rewrite E in Hr. by apply Hr.
Qed.

Lemma demo_commits ds sd : match fst (demo_batch ds [] sd) with Ok _ => true | Err _ => false end = true ->
  exists l, demo_batch ds [] sd = (Ok l, demo_step ds sd) /\
    forall seq, demo_log seq ds sd = entry_new 0 seq (bs "r") [] l.
Proof.
  unfold demo_log, demo_step. destruct (demo_batch ds [] sd) as [[l|e] sd']; [|done]. by exists l.
Qed.

(** The same, decided. *)
Definition input_ok (d : RowDelta) : bool :=
  match parse_lobby_key (table_name d), payload_arc d with
  | None, None => true
  | _, _ => false
  end &&
  match row_data d with Some Null => false | Some v => storable v | None => true end && (counter_add_timestamp d =? 5).

Lemma demo_inputs ds : forallb input_ok ds = true ->
  Forall (fun d => parse_lobby_key (table_name d) = None /\ payload_arc d = None /\
    match row_data d with Some v => storable v = true /\ v <> Null | None => True end /\ counter_add_timestamp d = 5) ds.
Proof.
  rewrite List.forallb_forall. intros Hall. apply Forall_forall. intros d Hin%list_elem_of_In.
  specialize (Hall d Hin). unfold input_ok in Hall. apply andb_true_iff in Hall as [[H1' H2']%andb_true_iff H3'%Z.eqb_eq].
  destruct (parse_lobby_key _), (payload_arc d); try done. split_and!; try done. destruct (row_data d) as [v|]; [|done].
  by destruct v.
Qed.

Lemma wal_recovery_exact_witness :
  exists j max_seq ts' sdj,
    recover_from_wal 1000 demo_now (take demo_cut (frames [raw demo_e1; raw demo_e2])) 0
      empty_ts = (Ok (Z.of_nat j, max_seq), ts') /\
    (1 <= j)%nat /\ history 1000 demo_sd0 (take j [demo_e1; demo_e2]) sdj /\
    (forall t k, data <$> row_at (root ts') t k = data <$> row_at sdj.1 t k).
Proof.
  destruct (demo_commits demo_ds1 demo_sd0) as (l1 & Hb1 & He1); [by vm_compute|].
  destruct (demo_commits demo_ds2 (demo_step demo_ds1 demo_sd0)) as (l2 & Hb2 & He2); [by vm_compute|].
  assert (Hds1 : Forall delta_ok demo_ds1 /\ Forall no_null demo_ds1 /\
    Forall (fun d => parse_lobby_key (table_name d) = None) demo_ds1)
    by (apply demo_batch_ok, demo_inputs; by vm_compute).
  assert (Hds2 : Forall delta_ok demo_ds2 /\ Forall no_null demo_ds2 /\
    Forall (fun d => parse_lobby_key (table_name d) = None) demo_ds2)
    by (apply demo_batch_ok, demo_inputs; by vm_compute).
  refine (wal_recovery_exact 1000 demo_now 0 demo_sd0 [demo_e1; demo_e2]
    (demo_step demo_ds2 (demo_step demo_ds1 demo_sd0)) [raw demo_e1; raw demo_e2] 1 demo_cut empty_ts
    empty_kept _ _ _ _ _ _ _ _).
  - unfold demo_e1, demo_e2. rewrite He1, He2. destruct Hds1 as (A1 & B1 & C1), Hds2 as (A2 & B2 & C2).
    eapply history_cons; [exact A1|exact B1|exact C1|exact Hb1|].
    eapply history_cons; [exact A2|exact B2|exact C2|exact Hb2|]. constructor.
  - repeat constructor; apply Z.ltb_lt; by vm_compute.
  - repeat constructor; apply Z.ltb_lt; by vm_compute.
  - cbn. lia.
  - unfold frames. cbn [map take concat]. rewrite app_nil_r. unfold demo_cut. lia.
  - done.
  - done.
  - done.
Defined.

(** ** What recovery does not give back *)

Definition seen (name key f : Bytes) (ts : TableStore) : option Value :=
  match fst (get_row name key ts) with Ok (Some v) => get_field v f | _ => None end.

(** A server without a snapshot numbers its first entry 0, and recovery passes it over. *)
Lemma first_entry_not_recovered :
  fst (app_boot 1000 demo_now ∅ None empty_ts) = 0 /\
  let e := demo_log 0 [demo_set (bs "a") 5] demo_sd0 in
  seen (bs "t") (bs "a") (bs "score") (snd (app_boot 1000 demo_now ∅ (Some (frame (raw e))) empty_ts)) = None /\
  seen (bs "t") (bs "a") (bs "score") (snd (server_boot 1000 demo_now ∅ (Some (frame (raw e))) empty_ts)) = None.
Proof. vm_compute. auto. Qed.

(** [run_server_inner] goes on from the last number it has seen: the first entry after a
    restart has that number too, and the next restart passes it over. *)
Lemma entry_after_restart_not_recovered :
  let log := frame (raw demo_e1) in
  let '(r, ts) := server_boot 1000 demo_now ∅ (Some log) empty_ts in
  r = Ok 1 /\
  let e := demo_log 1 [demo_set (bs "z") 9] (root ts, []) in
  seen (bs "t") (bs "z") (bs "score")
    (snd (server_boot 1000 demo_now ∅ (Some (log ++ frame (raw e))) empty_ts)) = None /\
  seen (bs "t") (bs "a") (bs "score")
    (snd (server_boot 1000 demo_now ∅ (Some (log ++ frame (raw e))) empty_ts)) = Some (Num (PosInt 5)).
Proof. vm_compute. auto. Qed.

(** The entry of a row with an inventory carries the row without it. *)
Lemma inventory_not_recovered :
  let d := demo_delta (bs "insert") (bs "p") (Some (demo_hero (bs "sword"))) 0 in
  let live := snd (apply_delta_batch 1000 demo_now [d] empty_ts) in
  let e := demo_log 1 [d] demo_sd0 in
  seen (bs "t") (bs "p") (bs "inventory") live = Some (Array [Str (bs "sword")]) /\
  seen (bs "t") (bs "p") (bs "inventory")
    (snd (app_boot 1000 demo_now ∅ (Some (frame (raw e))) (table_store_new NoEviction (blob_file live)))) = Some Null.
Proof. vm_compute. auto. Qed.

(** The deltas of a lobby leave its sub-store under their names within it: recovery writes
    them to the root's tables, where the lobbies meet. *)
Lemma lobby_rows_recovered_as_global :
  let d := {| table_name := bs "l7_t"; operation := bs "insert"; row_key := bs "p"; d_row_id := 0;
              d_shard_id := 0; payload_arc := None; row_data := Some (demo_row 4);
              counter_add_amount := 0; counter_add_timestamp := 0 |} in
  let '(r, live) := apply_delta_batch 1000 demo_now [d] empty_ts in
  let e := entry_new 0 1 (bs "r") [] (match r with Ok l => l | Err _ => [] end) in
  let back := snd (app_boot 1000 demo_now ∅ (Some (frame (raw e))) empty_ts) in
  seen (bs "l7_t") (bs "p") (bs "score") live = Some (Num (PosInt 4)) /\
  seen (bs "l7_t") (bs "p") (bs "score") back = None /\
  seen (bs "t") (bs "p") (bs "score") back = Some (Num (PosInt 4)).
Proof. vm_compute. auto. Qed.

(** ** Snapshots of a concrete store *)

Module DemoSnapshot.
#[local] Existing Instances demo_serde demo_laws demo_codec demo_codec_laws.

Lemma mapM_back {A B} (f : A -> B) (g : B -> option A) l : (forall x, g (f x) = Some x) -> mapM g (map f l) = Some l.
Proof. intros Hg. apply mapM_Some_2. induction l; constructor; auto. Qed.

#[local] Instance demo_snapshot_laws : SnapshotCodecLaws.
Proof.
  split. intros [[a b c d e] tl] x _ [= <-]. cbn [snapshot_from_slice demo_codec].
  rewrite <- (app_nil_r (enc_value _)), dec_enc_value. cbn [mbind option_bind snapshot_val meta s_tables val_snapshot zv].
  rewrite mapM_back.
  - cbn. by rewrite list_to_map_to_list.
  - intros [n l]. cbn [table_val val_table fst snd]. rewrite mapM_back; [done|]. by intros [k v].
Qed.

Lemma blank_empty : blank 1000 0 empty_ts.
Proof.
  split; [|split; [done|split; [done|]]].
  - split; [|done]. split; cbn; [lia|done| |].
    + intros n [? Hn]. by rewrite lookup_empty in Hn.
    + intros n k r Hr. unfold row_at in Hr. cbn in Hr. by rewrite lookup_empty in Hr.
  - intros n k. unfold row_at. cbn. by rewrite lookup_empty.
Qed.

(** A row with an inventory, in the blob file, and one without. *)
Definition demo_ds : list RowDelta := [demo_set (bs "a") 5; demo_delta (bs "insert") (bs "p") (Some (demo_hero (bs "sword"))) 0].
Definition demo_ts : TableStore :=
  let '(s, file) := demo_step demo_ds demo_sd0 in {| root := s; lobbies := ∅; blob_file := file |}.

Lemma demo_good : kept (root demo_ts) /\ good 1000 demo_ts.
Proof.
  destruct (demo_commits demo_ds demo_sd0) as (l & Hb & _); [by vm_compute|].
  destruct (demo_batch_ok demo_ds) as (Hok & _ & Hg); [apply demo_inputs; by vm_compute|].
  assert (Hp : Forall plain_delta demo_ds) 
    by (apply Forall_forall; intros d [->|[->|?%not_elem_of_nil]%elem_of_cons]%elem_of_cons; [| |done]; intros v Hv; cbn in Hv; injection Hv as <-; intros inv Hi; vm_compute in Hi; first [discriminate|injection Hi as <-; by vm_compute]).
  unfold demo_ts. destruct (demo_step demo_ds demo_sd0) as [s file] eqn:E. unfold demo_batch in Hb.
  split; [cbn [root]; eapply batch_kept; [apply _|apply empty_kept|exact Hok|exact Hb]|].
  split; [|done]. cbn [root blob_file]. eapply batch_sound; [by vm_compute|apply empty_kept|apply blank_empty|exact Hok|exact Hp|exact Hg|exact Hb].
Qed.

Definition demo_dir : gmap Bytes Bytes := {[ snapshot_path 0 := bs "x" ]}.

Lemma demo_dir_older q : 0 < q -> older demo_dir q.
Proof.
  intros Hq n q' [f Hf] _ Hp. unfold demo_dir in Hf. apply lookup_singleton_Some in Hf as [<- _]. rewrite parse_snapshot_path in Hp by (unfold U64; lia). injection Hp as <-. done.
Qed.

Lemma blank_demo : blank 1000 (shard_id (root demo_ts)) empty_ts.
Proof. assert (E : shard_id (root demo_ts) = 0) by by vm_compute. rewrite E. apply blank_empty. Qed.

(** Saving the demonstration succeeds. *)
Lemma demo_saves q dir : exists dir', save_snapshot q 0 dir demo_ts = (Ok dir', demo_ts).
Proof.
  unfold save_snapshot. destruct (snapshot_loaded 1000 ltac:(unfold U64; lia) demo_ts q 0 empty_ts (proj2 demo_good)) as (sf & ts1 & -> & _);
    [apply blank_empty|by vm_compute|by eapply blank_held, blank_empty|]. by eexists.
Qed.

Lemma snapshot_brings_back_witness : exists dir' file m ts1,
  save_snapshot 7 0 demo_dir demo_ts = (Ok dir', demo_ts) /\ find_latest_snapshot dir' = Some (snapshot_path 7, 7) /\
  load_snapshot 1000 file empty_ts = (Ok m, ts1) /\ (forall n k, row_of ts1 n k = row_of demo_ts n k) /\
  row_of ts1 (bs "t") (bs "p") = Ok (Some (Object [(bs "inventory", Array [Str (bs "sword")]); (bs "row_key", Str (bs "p"))])).
Proof.
  destruct (demo_saves 7 demo_dir) as [dir' Hs].
  pose proof (snapshot_brings_back 1000 ltac:(unfold U64; lia) demo_ts 7 0 demo_dir empty_ts (proj2 demo_good) blank_demo
    ltac:(unfold U64; lia) (demo_dir_older 7 ltac:(lia))) as Hb. rewrite Hs in Hb.
  destruct Hb as (_ & file & m & ts1 & Hl & _ & Hload & _ & Hrows & _). exists dir', file, m, ts1. split; [done|]. split; [done|]. split; [done|]. split; [done|].
  rewrite Hrows. by vm_compute.
Defined.

(** The log: the commit before the snapshot, one after, and seven bytes of the next. *)
Definition at_time (t : Z) (e : WalEntry) : WalEntry :=
  {| header := {| w_version := w_version (header e); entry_type := entry_type (header e); w_timestamp := t;
                  sequence_number := sequence_number (header e); checksum := checksum (header e) |}; payload := payload e |}.
Definition demo_sd : SD := (root demo_ts, blob_file demo_ts).
Definition demo_old : WalEntry := at_time 5 (demo_log 0 demo_ds demo_sd0).
Definition demo_es : list WalEntry :=
  [at_time 10 (demo_log 1 demo_ds1 demo_sd); at_time 20 (demo_log 2 demo_ds2 (demo_step demo_ds1 demo_sd))].
Definition demo_logs : list Bytes := map raw (demo_old :: demo_es).

Lemma demo_durable : durable 1000 0 demo_sd [demo_old] demo_es (demo_step demo_ds2 (demo_step demo_ds1 demo_sd)) demo_logs.
Proof.
  destruct (demo_commits demo_ds1 demo_sd) as (l1 & Hb1 & He1); [by vm_compute|].
  destruct (demo_commits demo_ds2 (demo_step demo_ds1 demo_sd)) as (l2 & Hb2 & He2); [by vm_compute|].
  destruct (demo_commits demo_ds demo_sd0) as (l & Hb & He); [by vm_compute|].
  destruct (demo_batch_ok demo_ds1) as (A1 & B1 & C1); [apply demo_inputs; by vm_compute|].
  destruct (demo_batch_ok demo_ds2) as (A2 & B2 & C2); [apply demo_inputs; by vm_compute|].
  destruct (demo_batch_ok demo_ds) as (A & B & C); [apply demo_inputs; by vm_compute|].
  split; [apply demo_good| | | |].
  - unfold demo_es. rewrite He1, He2. eapply history_cons; [exact A1|exact B1|exact C1|exact Hb1|].
    eapply history_cons; [exact A2|exact B2|exact C2|exact Hb2|]. constructor.
  - constructor; [|constructor]. split; [by vm_compute|]. unfold demo_old. rewrite He. cbn [entry_new payload deltas].
    unfold demo_batch in Hb. destruct (demo_step demo_ds demo_sd0) as [s file]. eapply settled_kept, batch_settled; [apply empty_kept|exact A|exact B|exact C|exact Hb].
  - repeat constructor; by vm_compute.
  - repeat constructor; apply Z.ltb_lt; by vm_compute.
Qed.

End DemoSnapshot.
