(* ===== verification/Ring.v ===== *)
(** * The consistent-hash ring of a cluster

    [src/cluster/ring.rs] and the modulo routing of [src/cluster/mod.rs]: FNV-1a, the ring as
    an ordered map from positions to clusters, its operations and the lock around it. Below
    them, what a ring promises: a key belongs to the nearest position clockwise, a cluster
    that joins takes keys and gives none, and the migration list is exactly the keys that move. *)

From Stdlib Require Import SpecFloat.
From S2P Require Import Prelude OrdMap Util.

(** ** FNV-1a *)

Definition fnv1a (s : Bytes) : Z :=
  foldl (fun hash byte => wrap_u64 (Z.lxor hash byte * 1099511628211)) 14695981039346656037 s.

(** ** The ring *)

Definition DEFAULT_VNODES : Z := 160.

(** [var] is the variable VOLTRA_RING_VNODES, when it is set. *)
Definition vnodes_from_env (var : option Bytes) : Z :=
  default DEFAULT_VNODES (v ← var; parse_int 0 (2 ^ 32 - 1) v).

Record ConsistentHashRing := { ring : list (Z * Bytes); cluster_ids : list Bytes; vnodes : Z }.

Definition ring_new (var : option Bytes) : ConsistentHashRing :=
  {| ring := []; cluster_ids := []; vnodes := vnodes_from_env var |}.

(** The position of a virtual node: the hash of ["{cluster_id}#vnode{i}"]. *)
Definition vnode_pos (cluster_id : Bytes) (i : Z) : Z := fnv1a (cluster_id ++ bs "#vnode" ++ dec i).

Definition known (c : Bytes) (r : ConsistentHashRing) : bool := existsb (beq c) (cluster_ids r).

Definition add_cluster (c : Bytes) (r : ConsistentHashRing) : ConsistentHashRing :=
  if known c r then r else
  {| ring := foldl (fun m i => om_insert (vnode_pos c i) c m) (ring r) (seqZ 0 (vnodes r));
     cluster_ids := cluster_ids r ++ [c]; vnodes := vnodes r |}.

Definition remove_cluster (c : Bytes) (r : ConsistentHashRing) : ConsistentHashRing :=
  if negb (known c r) then r else
  {| ring := foldl (fun m i => om_remove (vnode_pos c i) m) (ring r) (seqZ 0 (vnodes r));
     cluster_ids := List.filter (fun d => negb (beq d c)) (cluster_ids r); vnodes := vnodes r |}.

(** The first virtual node at or after the hash, else the first of all. *)
Definition clockwise (h : Z) (m : list (Z * Bytes)) : option (Z * Bytes) :=
  match om_first_from h m with Some x => Some x | None => head m end.

Definition get_cluster (r : ConsistentHashRing) (key : Bytes) : option Bytes :=
  match ring r with [] => None | _ => snd <$> clockwise (fnv1a key) (ring r) end.

Definition ring_len (r : ConsistentHashRing) : Z := zlen (cluster_ids r).

Definition keys_migrating_to (r : ConsistentHashRing) (new_cluster_id : Bytes) (all_keys : list Bytes)
  : list (Bytes * Bytes) :=
  let ring_with := add_cluster new_cluster_id r in
  omap (fun key =>
    let old_owner := default [] (get_cluster r key) in
    let new_owner := default [] (get_cluster ring_with key) in
    if negb (beq old_owner new_cluster_id) && beq new_owner new_cluster_id then Some (key, old_owner) else None)
    all_keys.

Definition estimated_migration_fraction (r : ConsistentHashRing) : f64 :=
  let n := f64_of_uint (ring_len r) in
  if SFleb n (S754_zero false) then f64_of_uint 1 else f64_div (f64_of_uint 1) (f64_add n (f64_of_uint 1)).

(** ** The lock around it

    A thread that panics while it writes poisons the lock; from then on writes are dropped
    and reads answer their default. *)

Record SharedRing := { inner : ConsistentHashRing; poisoned : bool }.

Definition shared_new (var : option Bytes) : SharedRing := {| inner := ring_new var; poisoned := false |}.

Definition shared_write (f : ConsistentHashRing -> ConsistentHashRing) (s : SharedRing) : SharedRing :=
  if poisoned s then s else {| inner := f (inner s); poisoned := false |}.
Definition shared_add_cluster (id : Bytes) : SharedRing -> SharedRing := shared_write (add_cluster id).
Definition shared_remove_cluster (id : Bytes) : SharedRing -> SharedRing := shared_write (remove_cluster id).

Definition shared_read {A} (none : A) (f : ConsistentHashRing -> A) (s : SharedRing) : A :=
  if poisoned s then none else f (inner s).
Definition shared_get_cluster (s : SharedRing) (key : Bytes) : option Bytes :=
  shared_read None (fun r => get_cluster r key) s.
Definition shared_cluster_ids (s : SharedRing) : list Bytes := shared_read [] cluster_ids s.
Definition shared_len (s : SharedRing) : Z := shared_read 0 ring_len s.
Definition shared_keys_migrating_to (s : SharedRing) (new_cluster : Bytes) (all_keys : list Bytes)
  : list (Bytes * Bytes) := shared_read [] (fun r => keys_migrating_to r new_cluster all_keys) s.
Definition shared_estimated_migration_fraction (s : SharedRing) : f64 :=
  shared_read (f64_of_uint 1) estimated_migration_fraction s.
Definition shared_snapshot (s : SharedRing) : option ConsistentHashRing := shared_read None Some s.

(** ** Modulo routing *)

Definition shard_for_key (key : Bytes) (shard_count : Z) : Z :=
  if shard_count <=? 1 then 0 else fnv1a key mod shard_count.

(** The builtin of reducers. [global] is the ring, once set; [count] the variable
    VOLTRA_SHARD_COUNT. *)
Definition cluster_shard_for_key (global : option SharedRing) (count : option Bytes) (key : Bytes) : Z :=
  match (r ← global; shared_get_cluster r key) with
  | Some cluster_id => fnv1a cluster_id mod 10000
  | None => shard_for_key key (default 1 (v ← count; parse_int 0 (2 ^ 32 - 1) v))
  end.

(** ** The invariant *)

Record ring_ok (r : ConsistentHashRing) : Prop := {
  ok_sorted : om_sorted (ring r);
  ok_nodes : forall p c, (p, c) ∈ ring r -> c ∈ cluster_ids r /\ exists i, 0 <= i < vnodes r /\ p = vnode_pos c i }.

Lemma fnv1a_range s : is_u64 (fnv1a s).
Proof.
  unfold fnv1a, is_u64. assert (H : 0 <= 14695981039346656037 < 2 ^ 64) by lia. revert H.
  generalize 14695981039346656037. induction s as [|b s IH]; intros h Hh; cbn [foldl]; [done|].
  apply IH. unfold wrap_u64. apply Z.mod_pos_bound. lia.
Qed.

Lemma known_spec c r : known c r = true <-> c ∈ cluster_ids r.
Proof.
  unfold known. rewrite existsb_exists. split.
  - intros (d & Hd & E). apply beq_true in E as ->. by apply list_elem_of_In.
  - intros H. exists c. split; [by apply list_elem_of_In|apply beq_refl].
Qed.

(** *** The loops over the virtual nodes *)

Section Loops.
Context (pos : Z -> Z) (c : Bytes).

Lemma insert_all_sorted js m : om_sorted m -> om_sorted (foldl (fun m i => om_insert (pos i) c m) m js).
Proof. revert m. induction js as [|i js IH]; intros m Hm; cbn; [done|]. apply IH. by apply om_insert_sorted. Qed.

Lemma insert_all_elem js m x : om_sorted m -> x ∈ foldl (fun m i => om_insert (pos i) c m) m js <->
  (exists i, i ∈ js /\ x = (pos i, c)) \/ (x ∈ m /\ forall i, i ∈ js -> x.1 <> pos i).
Proof.
  revert m. induction js as [|i js IH]; intros m Hm; cbn.
  { split; [intros; right; split; [done|]; by intros ? ?%elem_of_nil|].
    intros [(i & Hi%elem_of_nil & _)|[? _]]; done. }
  rewrite IH by (by apply om_insert_sorted). rewrite om_insert_elem by done.
  setoid_rewrite elem_of_cons. split.
  - intros [(j & Hj & ->)|[[->|[Hx Hne]] Hn]]; [left; by eauto|left; by eauto|].
    right. split; [done|]. intros j [->|Hj]; [done|by apply Hn].
  - intros [(j & [->|Hj] & ->)|[Hx Hn]]; [|left; by eauto|].
    + destruct (decide (Exists (fun j => pos j = pos i) js)) as [(j & Hj & E)%Exists_exists|Hno].
      * left. exists j. by rewrite E.
      * right. split; [by left|]. intros j Hj E. apply Hno, Exists_exists. exists j. by cbn in E.
    + right. split; [right|]; auto.
Qed.

Lemma remove_all_sorted js (m : list (Z * Bytes)) : om_sorted m ->
  om_sorted (foldl (fun m i => om_remove (pos i) m) m js).
Proof. revert m. induction js as [|i js IH]; intros m Hm; cbn; [done|]. apply IH. by apply om_remove_sorted. Qed.

Lemma remove_all_elem js (m : list (Z * Bytes)) x : om_sorted m ->
  x ∈ foldl (fun m i => om_remove (pos i) m) m js <-> x ∈ m /\ forall i, i ∈ js -> x.1 <> pos i.
Proof.
  revert m. induction js as [|i js IH]; intros m Hm; cbn.
  { split; [|by intros [? _]]. intros. split; [done|]. by intros ? ?%elem_of_nil. }
  rewrite IH by (by apply om_remove_sorted). rewrite om_remove_elem by done. setoid_rewrite elem_of_cons.
  split; [|intros [? Hn]; repeat split; auto].
  intros [[Hx Hne] Hn]. split; [done|]. intros j [->|Hj]; auto.
Qed.
End Loops.

(** *** Every operation keeps the invariant *)

Lemma seqZ_elem n i : i ∈ seqZ 0 n <-> 0 <= i < n.
Proof. rewrite elem_of_seqZ. lia. Qed.

Lemma new_ok var : ring_ok (ring_new var).
Proof. split; cbn; [constructor|]. by intros p c ?%elem_of_nil. Qed.

Lemma add_cluster_elem c r x : ring_ok r -> known c r = false -> x ∈ ring (add_cluster c r) <->
  (exists i, 0 <= i < vnodes r /\ x = (vnode_pos c i, c)) \/
  (x ∈ ring r /\ forall i, 0 <= i < vnodes r -> x.1 <> vnode_pos c i).
Proof.
  intros Hok Hk. unfold add_cluster. rewrite Hk. cbn [ring].
  rewrite (insert_all_elem (vnode_pos c)) by apply Hok. by setoid_rewrite seqZ_elem.
Qed.

Lemma remove_cluster_elem c r x : ring_ok r -> known c r = true -> x ∈ ring (remove_cluster c r) <->
  x ∈ ring r /\ forall i, 0 <= i < vnodes r -> x.1 <> vnode_pos c i.
Proof.
  intros Hok Hk. unfold remove_cluster. rewrite Hk. cbn [ring negb].
  rewrite (remove_all_elem (vnode_pos c)) by apply Hok. by setoid_rewrite seqZ_elem.
Qed.

Lemma add_cluster_ok c r : ring_ok r -> ring_ok (add_cluster c r).
Proof.
  intros Hok. destruct (known c r) eqn:Hk; [by unfold add_cluster; rewrite Hk|]. split.
  - unfold add_cluster. rewrite Hk. apply insert_all_sorted, Hok.
  - intros p d Hx. apply add_cluster_elem in Hx; [|done..]. unfold add_cluster. rewrite Hk. cbn.
    setoid_rewrite elem_of_app. destruct Hx as [(i & Hi & [= -> ->])|[Hx _]].
    + split; [right; by apply list_elem_of_singleton|by exists i].
    + apply Hok in Hx as [? ?]. by split; [left|].
Qed.

Lemma remove_cluster_ok c r : ring_ok r -> ring_ok (remove_cluster c r).
Proof.
  intros Hok. destruct (known c r) eqn:Hk; [|by unfold remove_cluster; rewrite Hk]. split.
  - unfold remove_cluster. rewrite Hk. apply remove_all_sorted, Hok.
  - intros p d Hx. apply remove_cluster_elem in Hx as [Hx Hp]; [|done..]. apply Hok in Hx as (Hd & i & Hi & ->).
    unfold remove_cluster. rewrite Hk. cbn. split; [|by exists i].
    rewrite list_elem_of_In, filter_In, <- list_elem_of_In. split; [done|]. apply negb_true_iff.
    destruct (beq d c) eqn:E; [|done]. apply beq_true in E as ->. by destruct (Hp i Hi).
Qed.

(** ** Who owns a key *)

(** The distance from [h] to [p], clockwise. *)
Definition distance (h p : Z) : Z := (p - h) mod 2 ^ 64.

Lemma distance_after h p : is_u64 h -> is_u64 p -> h <= p -> distance h p = p - h.
Proof. unfold is_u64. intros. apply Z.mod_small. lia. Qed.
Lemma distance_before h p : is_u64 h -> is_u64 p -> p < h -> distance h p = p - h + 2 ^ 64.
Proof.
  unfold is_u64. intros. unfold distance. rewrite <- (Z.mod_add (p - h) 1) by lia. apply Z.mod_small. lia.
Qed.
Lemma distance_inj h p q : is_u64 h -> is_u64 p -> is_u64 q -> distance h p = distance h q -> p = q.
Proof.
  intros Hh Hp Hq. destruct (Z_le_gt_dec h p), (Z_le_gt_dec h q);
    rewrite ?(distance_after h p), ?(distance_after h q), ?(distance_before h p), ?(distance_before h q) by (done || lia);
    unfold is_u64 in *; lia.
Qed.

Definition nearest (h : Z) (m : list (Z * Bytes)) (x : Z * Bytes) : Prop :=
  x ∈ m /\ forall y, y ∈ m -> distance h x.1 <= distance h y.1.

Definition u64_keys (m : list (Z * Bytes)) : Prop := forall y, y ∈ m -> is_u64 y.1.

Lemma clockwise_is_nearest h m x : om_sorted m -> is_u64 h -> u64_keys m -> clockwise h m = Some x -> nearest h m x.
Proof.
  intros Hs Hh Hu. unfold clockwise. destruct (om_first_from h m) as [z|] eqn:E.
  - intros [= ->]. apply om_first_from_some in E as (Hx & Hge & Hmin); [|done]. split; [done|].
    cbn in Hge. zbool. intros y Hy. rewrite (distance_after h x.1) by auto.
    destruct (Z_lt_le_dec y.1 h) as [Hlt|Hle].
    + rewrite distance_before by auto. pose proof (Hu x Hx). pose proof (Hu y Hy). unfold is_u64 in *. lia.
    + rewrite distance_after by auto. destruct (Hmin y Hy) as [->|Hl]; [by apply zlt_false|lia|].
      unfold om_lt in Hl. cbn in Hl. zbool. lia.
  - intros Hhd. destruct m as [|z m]; [done|]. injection Hhd as ->. split; [by left|].
    assert (Hb : forall y, y ∈ x :: m -> y.1 < h).
    { intros y Hy. pose proof (om_first_from_none h _ y E Hy) as Hb. cbn in Hb. by zbool. }
    intros y Hy. rewrite !distance_before by (auto; apply Hb || apply Hu; by left || done).
    apply elem_of_cons in Hy as [->|Hy]; [lia|]. inversion Hs as [|? ? _ Hf]; subst.
    rewrite Forall_forall in Hf. pose proof (Hf y Hy) as Hl. unfold om_lt in Hl. cbn in Hl. zbool. lia.
Qed.

Lemma clockwise_nearest h m x : om_sorted m -> is_u64 h -> u64_keys m -> clockwise h m = Some x <-> nearest h m x.
Proof.
  intros Hs Hh Hu. split; [by apply clockwise_is_nearest|]. intros [Hx Hmin].
  destruct (clockwise h m) as [z|] eqn:E.
  - apply clockwise_is_nearest in E as [Hz Hzmin]; [|done..].
    assert (z.1 = x.1) as Ek.
    { apply (distance_inj h); auto. pose proof (Hmin z Hz). pose proof (Hzmin x Hx). lia. }
    destruct z as [p c], x as [q d]. cbn in Ek. subst q. by rewrite (om_functional p c d m).
  - unfold clockwise in E. destruct (om_first_from h m); [done|]. destruct m; [by apply elem_of_nil in Hx|done].
Qed.

Lemma ok_u64 r : ring_ok r -> u64_keys (ring r).
Proof. intros Hok [p c] Hx. apply Hok in Hx as (_ & i & _ & ->). apply fnv1a_range. Qed.

Lemma get_cluster_clockwise r key : get_cluster r key = snd <$> clockwise (fnv1a key) (ring r).
Proof. unfold get_cluster. by destruct (ring r). Qed.

(** C32: a key belongs to the cluster whose virtual node is nearest to the key's hash going
    clockwise round the 64-bit circle; the two walks of the code (from the hash on, then from
    the start) are that minimum, and it names one cluster only. *)
Theorem owner_is_nearest r key c : ring_ok r -> get_cluster r key = Some c <->
  exists p, (p, c) ∈ ring r /\
    forall q d, (q, d) ∈ ring r -> distance (fnv1a key) p <= distance (fnv1a key) q.
Proof.
  intros Hok. rewrite get_cluster_clockwise, fmap_Some. split.
  - intros ([p c'] & Hx & ->). apply clockwise_nearest in Hx as [Hx Hmin]; [|apply Hok|apply fnv1a_range|by apply ok_u64].
    exists p. split; [done|]. intros q d Hq. by apply (Hmin (q, d)).
  - intros (p & Hx & Hmin). exists (p, c). split; [|done].
    apply clockwise_nearest; [apply Hok|apply fnv1a_range|by apply ok_u64|]. split; [done|]. intros [q d] Hq. by eapply Hmin.
Qed.

(** ** Clusters that join *)

Lemma owner_of r key p c : ring_ok r -> nearest (fnv1a key) (ring r) (p, c) -> get_cluster r key = Some c.
Proof. intros Hok [Hx Hmin]. apply owner_is_nearest; [done|]. exists p. split; [done|]. intros q d. apply Hmin. Qed.

Lemma owner_known r key c : ring_ok r -> get_cluster r key = Some c -> c ∈ cluster_ids r.
Proof. intros Hok (p & Hx & _)%owner_is_nearest; [|done]. by apply Hok in Hx as [? _]. Qed.

(** A position of the old ring is still one after a join. *)
Lemma positions_kept c r p d : ring_ok r -> (p, d) ∈ ring r -> exists e, (p, e) ∈ ring (add_cluster c r).
Proof.
  intros Hok Hx. destruct (known c r) eqn:Hk; [unfold add_cluster; rewrite Hk; by eauto|].
  destruct (decide (Exists (fun i => vnode_pos c i = p) (seqZ 0 (vnodes r)))) as [(i & Hi & E)%Exists_exists|Hno].
  - exists c. apply add_cluster_elem; [done..|]. left. exists i. rewrite seqZ_elem in Hi. by rewrite E.
  - exists d. apply add_cluster_elem; [done..|]. right. split; [done|]. cbn. intros i Hi E.
    apply Hno, Exists_exists. exists i. by rewrite seqZ_elem.
Qed.

(** A join moves keys to the new cluster and nowhere else. *)
Lemma join_takes r c key : ring_ok r ->
  get_cluster (add_cluster c r) key = Some c \/ get_cluster (add_cluster c r) key = get_cluster r key.
Proof.
  intros Hok. destruct (known c r) eqn:Hk; [right; unfold add_cluster; by rewrite Hk|].
  pose proof (add_cluster_ok c r Hok) as Hok'.
  destruct (get_cluster (add_cluster c r) key) as [o|] eqn:E.
  - apply owner_is_nearest in E as (p & Hx & Hmin); [|done]. apply add_cluster_elem in Hx; [|done..].
    destruct Hx as [(i & _ & [= _ ->])|[Hx _]]; [by left|]. right. symmetry. apply (owner_of _ _ p); [done|].
    split; [done|]. intros [q d] Hq. destruct (positions_kept c r q d Hok Hq) as [e He]. by apply (Hmin q e).
  - right. destruct (get_cluster r key) as [o|] eqn:E'; [|done]. exfalso.
    apply owner_is_nearest in E' as (p & Hx & _); [|done]. destruct (positions_kept c r p o Hok Hx) as [e He].
    rewrite get_cluster_clockwise in E. unfold clockwise in E. destruct (om_first_from _ _); [done|].
    destruct (ring (add_cluster c r)); [by apply elem_of_nil in He|done].
Qed.

Lemma migrating_elem r c ks k o : (k, o) ∈ keys_migrating_to r c ks <->
  k ∈ ks /\ o = default [] (get_cluster r k) /\ o <> c /\ default [] (get_cluster (add_cluster c r) k) = c.
Proof.
  unfold keys_migrating_to. rewrite list_elem_of_omap. split.
  - intros (k' & Hk & E). case_match eqn:Eb; [|done]. injection E as -> <-. apply andb_true_iff in Eb as [E1 E2].
    apply beq_true in E2. apply negb_true_iff in E1. split; [done|]. split; [done|]. split; [|done].
    intros E. rewrite E, beq_refl in E1. done.
  - intros (Hk & -> & Hne & E). exists k. split; [done|]. cbn zeta. rewrite E, beq_refl, andb_true_r.
    destruct (beq _ c) eqn:Eb; [by apply beq_true in Eb|done].
Qed.

Definition moves r c k : Prop := get_cluster (add_cluster c r) k <> get_cluster r k.

Lemma migrating_moves r c ks k : ring_ok r -> c <> [] ->
  (exists o, (k, o) ∈ keys_migrating_to r c ks) <-> k ∈ ks /\ moves r c k.
Proof.
  intros Hok Hc. setoid_rewrite migrating_elem. unfold moves. split.
  - intros (o & Hk & -> & Hne & E). split; [done|]. intros E'. rewrite E' in E. done.
  - intros [Hk Hne]. exists (default [] (get_cluster r k)). destruct (join_takes r c k Hok) as [E|E]; [|done].
    rewrite E in Hne |- *. repeat split; try done. destruct (get_cluster r k); cbn; congruence.
Qed.

(** The list of keys to migrate to a cluster that joins is exact: of the keys asked about,
    it names each one whose owner the join changes, with the owner it had, and no other; and
    each of those goes to the cluster that joins. *)
Theorem migration_list_exact r c ks k : ring_ok r -> c <> [] ->
  (forall o, (k, o) ∈ keys_migrating_to r c ks -> o = default [] (get_cluster r k) /\
     get_cluster (add_cluster c r) k = Some c) /\
  ((exists o, (k, o) ∈ keys_migrating_to r c ks) <->
   k ∈ ks /\ get_cluster (add_cluster c r) k <> get_cluster r k).
Proof.
  intros Hok Hc. split; [|by apply migrating_moves].
  intros o (_ & Ho & _ & E)%migrating_elem. split; [done|]. destruct (get_cluster (add_cluster c r) k); cbn in E; congruence.
Qed.

(** ** Clusters that leave *)

(** No virtual node of [c] stands where one of another cluster does. *)
Definition collides (c : Bytes) (r : ConsistentHashRing) : Prop :=
  exists p d i, (p, d) ∈ ring r /\ d <> c /\ 0 <= i < vnodes r /\ p = vnode_pos c i.

(** Keys of the clusters that stay stay where they are. *)
Lemma leave_gives r c key d : ring_ok r -> ~ collides c r -> d <> c ->
  get_cluster r key = Some d -> get_cluster (remove_cluster c r) key = Some d.
Proof.
  intros Hok Hno Hne Hd. destruct (known c r) eqn:Hk; [|by unfold remove_cluster; rewrite Hk].
  apply owner_is_nearest in Hd as (p & Hx & Hmin); [|done].
  apply (owner_of _ _ p); [by apply remove_cluster_ok|]. split.
  - apply remove_cluster_elem; [done..|]. split; [done|]. intros i Hi E. apply Hno. by exists p, d, i.
  - intros [q e] Hq. apply remove_cluster_elem in Hq as [Hq _]; [|done..]. by apply (Hmin q e).
Qed.

(** A cluster that left owns nothing. *)
Lemma left_owns_nothing r c key : ring_ok r -> get_cluster (remove_cluster c r) key <> Some c.
Proof.
  intros Hok E. apply owner_known in E; [|by apply remove_cluster_ok].
  assert (known c (remove_cluster c r) = true) as Hk by (by apply known_spec).
  unfold remove_cluster in Hk. destruct (known c r) eqn:Hc; cbn [negb] in Hk; [|congruence].
  apply known_spec in Hk. cbn in Hk. rewrite list_elem_of_In, filter_In, beq_refl in Hk. naive_solver.
Qed.

(** ** Modulo routing *)

Lemma shard_for_key_range key n : 1 <= n -> 0 <= shard_for_key key n < n.
Proof.
  intros Hn. unfold shard_for_key. destruct (n <=? 1) eqn:E; zbool; [lia|]. apply Z.mod_pos_bound. lia.
Qed.

(** ** Witnesses *)

Definition demo_ring : ConsistentHashRing :=
  add_cluster (bs "europe") (add_cluster (bs "africa") (ring_new (Some (bs "4")))).

Lemma demo_ring_ok : ring_ok demo_ring.
Proof. apply add_cluster_ok, add_cluster_ok, new_ok. Qed.

Lemma owner_is_nearest_witness :
  exists p, (p, bs "europe") ∈ ring demo_ring /\
    forall q d, (q, d) ∈ ring demo_ring -> distance (fnv1a (bs "player:1")) p <= distance (fnv1a (bs "player:1")) q.
Proof. apply owner_is_nearest; [exact demo_ring_ok|vm_compute; reflexivity]. Defined.

Lemma migration_list_exact_witness :
  (bs "player:1", bs "europe") ∈ keys_migrating_to demo_ring (bs "asia") [bs "player:1"; bs "zone_9"] /\
  get_cluster (add_cluster (bs "asia") demo_ring) (bs "player:1") = Some (bs "asia").
Proof.
  assert ((bs "player:1", bs "europe") ∈ keys_migrating_to demo_ring (bs "asia") [bs "player:1"; bs "zone_9"]) as H.
  { vm_compute. apply list_elem_of_here. }
  split; [exact H|].
  apply (migration_list_exact demo_ring (bs "asia") [bs "player:1"; bs "zone_9"] (bs "player:1") demo_ring_ok ltac:(discriminate)
    : _ /\ _) in H. destruct H. assumption.
Defined.
