(* ===== verification/Cluster.v ===== *)
(** * The cluster bus

    [src/cluster/mod.rs], [gossip.rs], [fanout.rs], [regions.rs] and [lobby_route.rs]: which
    peers a node knows and thinks healthy, how committed deltas reach them, what is queued
    when they do not, which region hosts a lobby. HTTP requests are effects: a task takes the
    answers it gets as an argument, so that an interleaving of tasks is a list of them. *)

From S2P Require Import Prelude Errors Util Json Table Subscriptions SubQuery Tenant.

(** ** Library code *)

Record WireDelta := { w_table : Bytes; w_row_key : Bytes; w_op : Bytes; data_b64 : option Bytes }.
Record DeltaPayload := { from_shard : Z; w_deltas : list WireDelta }.

Class PeerCodec := {
  b64_encode : Bytes -> Bytes;                         (* base64 STANDARD.encode *)
  b64_decode : Bytes -> result Bytes Bytes;            (* STANDARD.decode *)
  payload_to_vec : DeltaPayload -> option Bytes;       (* serde_json::to_vec *)
  payload_from_slice : Bytes -> result Bytes DeltaPayload }.

Class PeerCodecLaws `{PeerCodec} := {
  b64_round : forall b, b64_decode (b64_encode b) = Ok b;
  payload_round : forall p b, payload_to_vec p = Some b -> payload_from_slice b = Ok p }.

(** What the sender of a request gets: an answer with its status, or no answer. [shown] is
    the text of the status or the error. *)
Inductive HttpReply : Type :=
| Answered (success : bool) (shown body : Bytes)
| Failed (shown : Bytes).

(** [json!({ ... })] *)
Definition obj (l : list (Bytes * Value)) : Value := Object (foldl (fun m kv => map_insert kv.1 kv.2 m) [] l).

(** ** Peers and their health *)

Record NodeInfo := { n_shard_id : Z; metrics_url : Bytes }.
Record PeerHealth := { healthy : bool; last_seen : option Z; consecutive_failures : Z }.
Record PeerEntry := { node : NodeInfo; health : PeerHealth }.

Definition peer_new (n : NodeInfo) : PeerEntry :=
  {| node := n; health := {| healthy := true; last_seen := None; consecutive_failures := 0 |} |}.

Definition entry_mark_healthy (now : Z) (e : PeerEntry) : PeerEntry :=
  {| node := node e; health := {| healthy := true; last_seen := Some now; consecutive_failures := 0 |} |}.

Definition entry_mark_failure (e : PeerEntry) : PeerEntry :=
  let n := wrap_u32 (consecutive_failures (health e) + 1) in
  {| node := node e;
     health := {| healthy := if 3 <=? n then false else healthy (health e);
                  last_seen := last_seen (health e); consecutive_failures := n |} |}.

(** ** Configuration *)

Record ClusterConfig := {
  enabled : bool; my_shard_id : Z; cc_shard_count : Z; cc_peers : list NodeInfo;
  cluster_secret : option Bytes; gossip_interval_ms : Z; http_timeout_ms : Z }.

(** One entry, the [idx]-th: [shardN=url], [name=url] or a bare url. *)
Definition parse_peer (my idx : Z) (part : Bytes) : list NodeInfo :=
  let part := trim part in
  let peer id url := if id =? my then [] else [{| n_shard_id := id; metrics_url := url |}] in
  match part with
  | [] => []
  | _ =>
      match split_once 61 part with
      | Some (key, url) =>
          match (id_str ← strip_prefix (bs "shard") key; parse_int 0 (2 ^ 32 - 1) id_str) with
          | Some shard_id => peer shard_id url
          | None => peer (wrap_u32 idx) url
          end
      | None => peer (wrap_u32 idx) part
      end
  end.

Definition parse_peers (raw : Bytes) (my : Z) : list NodeInfo :=
  concat (imap (fun idx part => parse_peer my (Z.of_nat idx) part) (split_byte 44 raw)).

(** The variables are given by name. *)
Definition config_from_env (var : Bytes -> option Bytes) (my count : Z) : ClusterConfig :=
  let secret := var (bs "VOLTRA_CLUSTER_SECRET") in
  let ms name dflt := default dflt (v ← var name; parse_u64_str v) in
  let gossip := ms (bs "VOLTRA_GOSSIP_INTERVAL_MS") 5000 in
  let timeout := ms (bs "VOLTRA_CLUSTER_HTTP_TIMEOUT_MS") 2000 in
  let raw := trim (default [] (var (bs "VOLTRA_PEERS"))) in
  let peers := match raw with [] => [] | _ => parse_peers raw my end in
  {| enabled := negb (bool_decide (peers = [])); my_shard_id := my; cc_shard_count := count;
     cc_peers := peers; cluster_secret := secret; gossip_interval_ms := gossip; http_timeout_ms := timeout |}.

(** ** The bus *)

Record ClusterBus := { config : ClusterConfig; peers : gmap Z PeerEntry }.

Definition with_peers (f : gmap Z PeerEntry -> gmap Z PeerEntry) (b : ClusterBus) : ClusterBus :=
  {| config := config b; peers := f (peers b) |}.

Definition bus_new (c : ClusterConfig) : ClusterBus :=
  {| config := c; peers := foldl (fun m n => <[n_shard_id n := peer_new n]> m) ∅ (cc_peers c) |}.

Definition is_active (b : ClusterBus) : bool := enabled (config b) && negb (bool_decide (peers b = ∅)).

Definition validate_secret (b : ClusterBus) (provided : option Bytes) : bool :=
  match cluster_secret (config b) with
  | None => true
  | Some expected => match provided with Some v => beq v expected | None => false end
  end.

Definition secret_header (b : ClusterBus) : option (Bytes * Bytes) :=
  (fun s => (bs "x-voltra-cluster-secret", s)) <$> cluster_secret (config b).

Definition mark_healthy (now : Z) (shard : Z) : ClusterBus -> ClusterBus :=
  with_peers (alter (entry_mark_healthy now) shard).
Definition mark_unhealthy (shard : Z) : ClusterBus -> ClusterBus :=
  with_peers (alter entry_mark_failure shard).

Definition healthy_peers (b : ClusterBus) : list NodeInfo :=
  map (fun p : Z * PeerEntry => node p.2)
    (List.filter (fun p : Z * PeerEntry => healthy (health p.2)) (map_to_list (peers b))).

(** [entry().or_insert_with()]: a peer that is known keeps its entry. *)
Definition add_peer (n : NodeInfo) (b : ClusterBus) : ClusterBus :=
  with_peers (fun m => match m !! n_shard_id n with Some _ => m | None => <[n_shard_id n := peer_new n]> m end) b.

Definition peers_snapshot (b : ClusterBus) : list Value :=
  map (fun p : Z * PeerEntry =>
    obj [(bs "shard_id", int_value (n_shard_id (node p.2)));
         (bs "metrics_url", Str (metrics_url (node p.2)));
         (bs "healthy", Bool (healthy (health p.2)))]) (map_to_list (peers b)).

(** *** Heartbeats: one task per peer, each ending in a mark. *)

Definition ping (now : Z) (shard : Z) (r : HttpReply) : ClusterBus -> ClusterBus :=
  match r with Answered true _ _ => mark_healthy now shard | _ => mark_unhealthy shard end.

(** Every known peer is asked, healthy or not. *)
Definition ping_all_peers (b : ClusterBus) : list (Z * NodeInfo) :=
  map (fun p : Z * PeerEntry => (p.1, node p.2)) (map_to_list (peers b)).

(** ** Deltas on the wire *)

Section Fanout.
Context `{Serde, MsgCodec, PeerCodec}.

Definition row_delta_to_wire (d : RowDelta) : WireDelta :=
  if beq (operation d) (bs "delete")
  then {| w_table := table_name d; w_row_key := row_key d; w_op := bs "delete"; data_b64 := None |}
  else {| w_table := table_name d; w_row_key := row_key d; w_op := bs "set";
          data_b64 := v ← row_data_value d; b64_encode <$> rmp_to_vec_named v |}.

Definition row_deltas_to_wire : list RowDelta -> list WireDelta := map row_delta_to_wire.

Definition received (w : WireDelta) (op : Bytes) (v : option Value) : RowDelta :=
  {| table_name := w_table w; operation := op; row_key := w_row_key w; d_row_id := 0; d_shard_id := 0;
     payload_arc := None; row_data := v; counter_add_amount := 0; counter_add_timestamp := 0 |}.

Definition wire_to_row_delta (w : WireDelta) : option RowDelta :=
  if beq (w_op w) (bs "delete") then Some (received w (bs "delete") None)
  else b ← data_b64 w; bytes ← ok_opt (b64_decode b); v ← rmp_from_slice bytes;
       Some (received w (bs "update") (Some v)).

Definition wire_to_row_deltas (ws : list WireDelta) : list RowDelta := omap wire_to_row_delta ws.

Definition parse_delta_payload (body : Bytes) : result VoltraError DeltaPayload :=
  match payload_from_slice body with
  | Ok p => Ok p
  | Err e => Err (InvalidArgument (bs "Delta payload JSON parse error: " ++ e))
  end.

(** ** Sending, and what is kept for a retry *)

Definition MAX_RETRY_QUEUE_LEN : nat := 1024.
Definition DRAIN_BATCH : nat := 64.

Record Fanout := { bus : ClusterBus; queues : gmap Z (list Bytes) }.

Definition with_bus (f : ClusterBus -> ClusterBus) (s : Fanout) : Fanout := {| bus := f (bus s); queues := queues s |}.
Definition with_queue (shard : Z) (f : list Bytes -> list Bytes) (s : Fanout) : Fanout :=
  {| bus := bus s; queues := <[shard := f (default [] (queues s !! shard))]> (queues s) |}.

(** [VecDeque::pop_back] *)
Definition pop_back {A} (q : list A) : list A := take (length q - 1) q.

Definition push_back (shard : Z) (p : Bytes) : Fanout -> Fanout :=
  with_queue shard (fun q => (if (MAX_RETRY_QUEUE_LEN <=? length q)%nat then tl q else q) ++ [p]).

Definition push_front (shard : Z) (p : Bytes) : Fanout -> Fanout :=
  with_queue shard (fun q => p :: (if (MAX_RETRY_QUEUE_LEN <=? length q)%nat then pop_back q else q)).

Definition drain_front (shard : Z) (n : nat) (s : Fanout) : list Bytes * Fanout :=
  match queues s !! shard with
  | None => ([], s)
  | Some q => (take n q, with_queue shard (drop n) s)
  end.

Definition pending_payloads (shard : Z) (s : Fanout) : Z := zlen (default [] (queues s !! shard)).

(** The three attempts: the answers, in order, up to the first success. *)
Fixpoint post_attempts (last : Bytes) (rs : list HttpReply) : result Bytes unit :=
  match rs with
  | [] => Err last
  | Answered true _ _ :: _ => Ok tt
  | Answered false shown _ :: rs' => post_attempts (bs "HTTP " ++ shown) rs'
  | Failed shown :: rs' => post_attempts shown rs'
  end.
Definition try_post_with_backoff (answer : nat -> HttpReply) : result Bytes unit :=
  post_attempts (bs "unknown error") (map answer (seq 0 3)).

(** *** The tasks *)

(** One spawned delivery. *)
Definition deliver (shard : Z) (payload : Bytes) (answer : nat -> HttpReply) (s : Fanout) : Fanout :=
  match try_post_with_backoff answer with
  | Ok _ => s
  | Err _ => push_back shard payload (with_bus (mark_unhealthy shard) s)
  end.

(** What a commit spawns: a delivery to each healthy peer. *)
Definition fanout_to_peers (ds : list RowDelta) (s : Fanout) : list (Z * Bytes) :=
  let wire := row_deltas_to_wire ds in
  match wire with
  | [] => []
  | _ =>
      match payload_to_vec {| from_shard := my_shard_id (config (bus s)); w_deltas := wire |} with
      | None => []
      | Some json => map (fun n => (n_shard_id n, json)) (healthy_peers (bus s))
      end
  end.

Definition fanout_deltas (ds : list RowDelta) (s : Fanout) : list (Z * Bytes) :=
  if negb (is_active (bus s)) || bool_decide (ds = []) then [] else fanout_to_peers ds s.

(** One spawned retry: the batch in order, up to the first failure. [answer i] answers the
    attempts for the [i]-th payload. *)
Fixpoint retry_batch (shard : Z) (batch : list Bytes) (answer : nat -> nat -> HttpReply) (s : Fanout) : Fanout :=
  match batch with
  | [] => s
  | payload :: batch' =>
      match try_post_with_backoff (answer O) with
      | Ok _ => retry_batch shard batch' (fun i => answer (S i)) s
      | Err _ => push_front shard payload (with_bus (mark_unhealthy shard) s)
      end
  end.

(** The tick: from the queue of each peer found healthy a batch is taken for its task. *)
Fixpoint drain_peers (ps : list (Z * bool)) (s : Fanout) : list (Z * list Bytes) * Fanout :=
  match ps with
  | [] => ([], s)
  | (shard, ok) :: ps' =>
      if negb ok then drain_peers ps' s
      else
        let '(batch, s) := drain_front shard DRAIN_BATCH s in
        let '(tasks, s) := drain_peers ps' s in
        (match batch with [] => tasks | _ => (shard, batch) :: tasks end, s)
  end.
Definition drain_all_peers (s : Fanout) : list (Z * list Bytes) * Fanout :=
  drain_peers (map (fun p : Z * PeerEntry => (p.1, healthy (health p.2))) (map_to_list (peers (bus s)))) s.

(** *** The receiving side *)

Variable max_blob : Z.

Fixpoint apply_deltas (now : nat -> nat -> Z) (ds : list RowDelta) (ts : TableStore) : result VoltraError unit * TableStore :=
  match ds with
  | [] => (Ok tt, ts)
  | d :: ds' =>
      match apply_delta max_blob (now O) d ts with
      | (Err e, ts) => (Err e, ts)
      | (Ok _, ts) => apply_deltas (fun i => now (S i)) ds' ts
      end
  end.

(** The deltas are published when all were applied; [None] is a publisher that never returns. *)
Definition apply_peer_deltas (now : nat -> nat -> Z) (ds : list RowDelta) (ts : TableStore) (m : SubscriptionManager)
  : result VoltraError unit * TableStore * option SubscriptionManager :=
  match apply_deltas now ds ts with
  | (Err e, ts) => (Err e, ts, Some m)
  | (Ok _, ts) => (Ok tt, ts, publish_deltas ds m)
  end.
End Fanout.

(** ** Regions *)

Record ClusterRegion := { r_id : Bytes; r_ws_url : Bytes; r_metrics_url : Bytes }.
Record RegionRegistry := { my_region : Bytes; regions : gmap Bytes ClusterRegion }.

(** [id=ws_url|metrics_url] *)
Definition parse_region (entry : Bytes) : option ClusterRegion :=
  '(id, urls) ← split_once 61 (trim entry);
  Some (match split_once 124 urls with
        | Some (w, m) => {| r_id := trim id; r_ws_url := trim w; r_metrics_url := trim m |}
        | None => {| r_id := trim id; r_ws_url := trim urls; r_metrics_url := [] |}
        end).

Definition regions_from_env (region raw : option Bytes) : RegionRegistry :=
  {| my_region := default (bs "default") region;
     regions := match raw with
                | None => ∅
                | Some raw => foldl (fun m r => <[r_id r := r]> m) ∅ (omap parse_region (split_byte 44 raw))
                end |}.

Definition all_regions (r : RegionRegistry) : list ClusterRegion := map snd (map_to_list (regions r)).
Definition peer_regions (r : RegionRegistry) : list ClusterRegion :=
  map snd (List.filter (fun p : Bytes * ClusterRegion => negb (beq p.1 (my_region r))) (map_to_list (regions r))).
Definition get_region (r : RegionRegistry) (id : Bytes) : option ClusterRegion := regions r !! id.
Definition ws_url_for (r : RegionRegistry) (id : Bytes) : option Bytes := r_ws_url <$> regions r !! id.
Definition metrics_url_for (r : RegionRegistry) (id : Bytes) : option Bytes := r_metrics_url <$> regions r !! id.
Definition is_multi_region (r : RegionRegistry) : bool := 1 <? Z.of_nat (size (regions r)).
Definition my_region_info (r : RegionRegistry) : option ClusterRegion := get_region r (my_region r).

(** ** Where lobbies live *)

Record LobbyRoute := { lr_lobby_id : Bytes; lr_region_id : Bytes; lr_ws_url : Bytes }.

(** The registry beside the tables it is kept in. *)
Record Routes := { routes : gmap Bytes LobbyRoute; tables_of : TableStore }.

Section Routes.
Context `{Serde}.
Variable max_blob : Z.

Definition LOBBY_ROUTES : Bytes := bs "__lobby_routes".

(** [row\[f\].as_str().unwrap_or("")] *)
Definition str_field (row : Value) (f : Bytes) : Bytes := default [] (v ← get_field row f; str_of v).

Definition route_of_row (lobby_id : Bytes) (row : Value) : LobbyRoute :=
  {| lr_lobby_id := lobby_id; lr_region_id := str_field row (bs "region_id"); lr_ws_url := str_field row (bs "ws_url") |}.

Definition route_to_row (r : LobbyRoute) : Value :=
  obj [(bs "lobby_id", Str (lr_lobby_id r)); (bs "region_id", Str (lr_region_id r)); (bs "ws_url", Str (lr_ws_url r))].

Definition load_from_table (s : Routes) : Routes :=
  let '(r, ts) := list_rows_with_keys LOBBY_ROUTES (tables_of s) in
  match r with
  | Ok rows => {| routes := foldl (fun m kv => <[kv.1 := route_of_row kv.1 kv.2]> m) (routes s) rows; tables_of := ts |}
  | Err _ => {| routes := routes s; tables_of := ts |}
  end.

Definition routes_new (ts : TableStore) : Routes := load_from_table {| routes := ∅; tables_of := ts |}.

(** A row that cannot be stored is passed over. *)
Definition register (lobby_id region_id ws_url : Bytes) (s : Routes) : Routes :=
  let r := {| lr_lobby_id := lobby_id; lr_region_id := region_id; lr_ws_url := ws_url |} in
  {| routes := <[lobby_id := r]> (routes s);
     tables_of := snd (set_row max_blob LOBBY_ROUTES lobby_id (route_to_row r) (tables_of s)) |}.

Definition lookup_route (lobby_id : Bytes) (s : Routes) : option LobbyRoute * Routes :=
  match routes s !! lobby_id with
  | Some r => (Some r, s)
  | None =>
      match get_row LOBBY_ROUTES lobby_id (tables_of s) with
      | (Ok (Some row), ts) =>
          let r := route_of_row lobby_id row in
          (Some r, {| routes := <[lobby_id := r]> (routes s); tables_of := ts |})
      | (_, ts) => (None, {| routes := routes s; tables_of := ts |})
      end
  end.

Definition unregister (lobby_id : Bytes) (s : Routes) : Routes :=
  {| routes := delete lobby_id (routes s);
     tables_of := snd (delete_row LOBBY_ROUTES lobby_id (tables_of s)) |}.

Definition routes_len (s : Routes) : Z := Z.of_nat (size (routes s)).
End Routes.
