(* ===== verification/ClusterHttp.v ===== *)
(** * Migration, stat write-back and the endpoints of a cluster node

    [src/cluster/migration.rs], [proxy.rs], the global helpers of [mod.rs], [src/stat_sync.rs]
    and the [/cluster/] routes of [src/admin.rs]. A request a node makes takes its answer as an
    argument; a request it serves is a function from the request and the node's state. The
    migration of rows takes what the other threads do to the tables meanwhile as an argument too. *)

From S2P Require Import Prelude Errors Util Json Table Subscriptions SubQuery Tenant Ring Cluster.

(** ** Migration *)

Inductive MigrationStatus : Type := Idle | Running | Complete | MFailed (e : Bytes).
#[export] Instance migration_status_eq : EqDecision MigrationStatus.
Proof. solve_decision. Defined.

Record MigrationState := {
  status : MigrationStatus; target_cluster : Bytes; total_keys : Z; migrated_keys : Z; failed_keys : Z;
  started_at_secs : Z; finished_at_secs : option Z }.

Definition migration_idle : MigrationState :=
  {| status := Idle; target_cluster := []; total_keys := 0; migrated_keys := 0; failed_keys := 0;
     started_at_secs := 0; finished_at_secs := None |}.

Record MigrateRow := { mr_table : Bytes; mr_key : Bytes; mr_data : Value }.
Record MigrateBatch := { source_cluster : Bytes; mb_rows : list MigrateRow }.
Record MigrateBatchResult := { accepted : Z; rejected : Z }.

(** The coordinator, the ring and the tables of the node, how often the migration has come to
    the tables, and the requests made with the answers they got. *)
Record Migration := {
  coord : MigrationState; m_ring : SharedRing; m_tables : TableStore; m_moment : nat;
  posts : list (MigrateBatch * HttpReply) }.

Definition set_coord (f : MigrationState -> MigrationState) (m : Migration) : Migration :=
  {| coord := f (coord m); m_ring := m_ring m; m_tables := m_tables m; m_moment := m_moment m; posts := posts m |}.

Definition set_progress (migrated failed : Z) (s : MigrationState) : MigrationState :=
  {| status := status s; target_cluster := target_cluster s; total_keys := total_keys s;
     migrated_keys := migrated; failed_keys := failed; started_at_secs := started_at_secs s;
     finished_at_secs := finished_at_secs s |}.
Definition set_total (n : Z) (s : MigrationState) : MigrationState :=
  {| status := status s; target_cluster := target_cluster s; total_keys := n;
     migrated_keys := migrated_keys s; failed_keys := failed_keys s; started_at_secs := started_at_secs s;
     finished_at_secs := finished_at_secs s |}.
Definition set_finished (now : Z) (st : MigrationStatus) (s : MigrationState) : MigrationState :=
  {| status := st; target_cluster := target_cluster s; total_keys := total_keys s;
     migrated_keys := migrated_keys s; failed_keys := failed_keys s; started_at_secs := started_at_secs s;
     finished_at_secs := Some now |}.

Section Migrations.
Context `{Serde}.
Variable max_blob : Z.

(** The migration has a thread of its own, and the others go on reading and writing rows:
    [others i] is all they do before its [i]-th access to the tables. *)
Section Shared.
Variable others : nat -> TableStore -> TableStore.

Definition meanwhile {A} (f : st TableStore A) : st (nat * TableStore) A :=
  fun '(i, ts) => let '(a, ts) := f (others i ts) in (a, (S i, ts)).

(** Every row of every table; a table that cannot be listed is passed over. *)
Fixpoint collect_keys (names : list Bytes) : st (nat * TableStore) (list (Bytes * Bytes)) :=
  match names with
  | [] => mret []
  | t :: names' =>
      r ← meanwhile (list_rows_with_keys t); rest ← collect_keys names';
      mret (match r with Ok rows => map (fun kv => (t, kv.1)) rows | Err _ => [] end ++ rest)
  end.

Definition flat_key (tk : Bytes * Bytes) : Bytes := tk.1 ++ [58] ++ tk.2.

(** [flat.splitn(2, ':')] *)
Definition unflatten (flat : Bytes) : option (Bytes * Bytes) := split_once 58 flat.

(** [slice::chunks]; every chunk takes one pair at least. *)
Fixpoint chunks_loop {A} (fuel size : nat) (l : list A) : list (list A) :=
  match fuel with
  | O => []
  | S f => match l with [] => [] | _ => take size l :: chunks_loop f size (drop size l) end
  end.
Definition chunks {A} (size : nat) (l : list A) : list (list A) := chunks_loop (length l) size l.

Fixpoint read_rows (chunk : list (Bytes * Bytes)) : st (nat * TableStore) (list MigrateRow) :=
  match chunk with
  | [] => mret []
  | (t, k) :: chunk' =>
      r ← meanwhile (get_row t k); rest ← read_rows chunk';
      mret (match r with Ok (Some v) => {| mr_table := t; mr_key := k; mr_data := v |} :: rest | _ => rest end)
  end.

Definition delete_all (pairs : list (Bytes * Bytes)) : st (nat * TableStore) unit :=
  st_iter (fun tk => _ ← meanwhile (delete_row tk.1 tk.2); mret tt) pairs.

(** The loop over the chunks; a chunk none of whose rows is found makes no request. [answer i]
    is the answer to the [i]-th request. *)
Fixpoint stream (my : Bytes) (answer : nat -> HttpReply) (cs : list (list (Bytes * Bytes))) (migrated failed : Z)
    (m : Migration) : Migration :=
  match cs with
  | [] => m
  | chunk :: cs' =>
      let '(batch_rows, (i, ts)) := read_rows chunk (m_moment m, m_tables m) in
      match batch_rows with
      | [] => stream my answer cs' migrated failed
                {| coord := coord m; m_ring := m_ring m; m_tables := ts; m_moment := i; posts := posts m |}
      | _ =>
          let batch_len := length batch_rows in
          let r := answer O in
          let ok := match r with Answered true _ _ => true | _ => false end in
          let '(i, ts) := if ok then snd (delete_all (take (Nat.min batch_len (length chunk)) chunk) (i, ts)) else (i, ts) in
          let migrated := if ok then migrated + Z.of_nat batch_len else migrated in
          let failed := if ok then failed else failed + Z.of_nat batch_len in
          stream my (fun i => answer (S i)) cs' migrated failed
            {| coord := set_progress migrated failed (coord m); m_ring := m_ring m; m_tables := ts; m_moment := i;
               posts := posts m ++ [({| source_cluster := my; mb_rows := batch_rows |}, r)] |}
      end
  end.

Definition run_migration (new my : Bytes) (batch_size : nat) (answer : nat -> HttpReply) (m : Migration) : Migration :=
  let '(names, now) := meanwhile (fun ts => (list_tables ts, ts)) (m_moment m, m_tables m) in
  let '(all_keys, (i, ts)) := collect_keys names now in
  let migrating := shared_keys_migrating_to (m_ring m) new (map flat_key all_keys) in
  let m := {| coord := set_total (zlen migrating) (coord m);
              m_ring := shared_add_cluster new (m_ring m); m_tables := ts; m_moment := i; posts := posts m |} in
  match migrating with
  | [] => m
  | _ => stream my answer (chunks batch_size (omap (fun kv => unflatten kv.1) migrating)) 0 0 m
  end.

(** The whole of a rebalancing; one that runs already is left alone. *)
Definition start_rebalance (started finished : Z) (new my : Bytes) (batch_size : nat) (answer : nat -> HttpReply)
    (m : Migration) : Migration :=
  if bool_decide (status (coord m) = Running) then m
  else
    let start := {| status := Running; target_cluster := new; total_keys := 0; migrated_keys := 0; failed_keys := 0;
                    started_at_secs := started; finished_at_secs := None |} in
    set_coord (set_finished finished Complete)
      (run_migration new my (Nat.max batch_size 1) answer (set_coord (fun _ => start) m)).

End Shared.

Definition set_rows_counted (rows : list (Bytes * Bytes * Value)) : st TableStore (Z * Z) :=
  foldl (fun acc row => '(a, r) ← acc;
    res ← set_row max_blob row.1.1 row.1.2 row.2;
    mret (match res with Ok _ => (a + 1, r) | Err _ => (a, r + 1) end)) (mret (0, 0)) rows.

Definition apply_received_batch (b : MigrateBatch) : st TableStore MigrateBatchResult :=
  '(a, r) ← set_rows_counted (map (fun row => (mr_table row, mr_key row, mr_data row)) (mb_rows b));
  mret {| accepted := a; rejected := r |}.

(** The builtins of reducers: [None] where there is no bus. *)
Definition region_count_rows_global (b : option ClusterBus) (count : NodeInfo -> option Z) (local : Z) : Z :=
  match b with
  | None => local
  | Some b => foldl (fun total n => match count n with Some c => wrap_i64 (total + c) | None => total end) local (healthy_peers b)
  end.

(** The request made, if any, and the answer; the row stays. *)
Definition migrate_row_global (b : option ClusterBus) (my : option Bytes) (table key : Bytes) (target : Z)
    (local_data : option Value) (r : HttpReply) : option MigrateBatch * bool :=
  match b, local_data with
  | Some b, Some data =>
      match peers b !! target with
      | None => (None, false)
      | Some _ =>
          (Some {| source_cluster := default (bs "local") my;
                   mb_rows := [{| mr_table := table; mr_key := key; mr_data := data |}] |},
           match r with Answered ok _ _ => ok | Failed _ => false end)
      end
  | _, _ => (None, false)
  end.

(** ** Stat write-back *)

Record StatSyncJob := { home_region : Bytes; j_table : Bytes; j_key : Bytes; j_data : Value }.

Definition apply_local (jobs : list StatSyncJob) : st TableStore unit :=
  st_iter (fun j => _ ← set_row max_blob (j_table j) (j_key j) (j_data j); mret tt) jobs.

(** The jobs of each home region, in the order they were queued. *)
Definition by_region (jobs : list StatSyncJob) : gmap Bytes (list StatSyncJob) :=
  foldl (fun m j => <[home_region j := default [] (m !! home_region j) ++ [j]]> m) ∅ jobs.

(** One region's share: written here, a request to send, or dropped. *)
Definition flush_region (r : RegionRegistry) (share : Bytes * list StatSyncJob)
  : st TableStore (list (Bytes * list StatSyncJob)) :=
  if beq share.1 (my_region r) then _ ← apply_local share.2; mret []
  else mret (match get_region r share.1 with
             | Some region => [(r_metrics_url region ++ bs "/cluster/stat-sync", share.2)]
             | None => []
             end).

Definition flush_tick (r : RegionRegistry) (jobs : list StatSyncJob) : st TableStore (list (Bytes * list StatSyncJob)) :=
  requests ← st_mapM (flush_region r) (map_to_list (by_region jobs)); mret (concat requests).

(** What the loop does with the jobs still queued when the server stops. *)
Definition flush_shutdown (jobs : list StatSyncJob) : st TableStore unit := apply_local jobs.

(** An attempt ends the sending when its answer is JSON of the right shape, errors or not. *)
Fixpoint send_attempts (rs : list (option (Z * Z))) : option (Z * Z) :=
  match rs with [] => None | Some r :: _ => Some r | None :: rs' => send_attempts rs' end.
Definition send_batch (answer : nat -> option (Z * Z)) : option (Z * Z) := send_attempts (map answer (seq 0 3)).

(** [batch] is the body as serde reads it. *)
Definition handle_stat_sync (batch : result Bytes (list StatSyncJob)) : st TableStore Value :=
  match batch with
  | Err e => mret (obj [(bs "error", Str e); (bs "written", int_value 0); (bs "errors", int_value 0)])
  | Ok jobs =>
      '(w, e) ← set_rows_counted (map (fun j => (j_table j, j_key j, j_data j)) jobs);
      mret (obj [(bs "written", int_value w); (bs "errors", int_value e)])
  end.
End Migrations.

(** ** Calls passed on to the shard that owns a row *)

Record ProxyCallRequest := {
  pc_reducer : Bytes; pc_args_b64 : Bytes; pc_caller_id : Bytes; pc_caller_role : Bytes; pc_target : option Z }.
Record ProxyCallResponse := { pr_ok : bool; pr_result_b64 : option Bytes; pr_error : option Bytes }.

Class CallCodec := {
  call_to_vec : ProxyCallRequest -> result Bytes Bytes;
  call_from_slice : Bytes -> result Bytes ProxyCallRequest;
  response_from_slice : Bytes -> result Bytes ProxyCallResponse;
  node_from_slice : Bytes -> result Bytes NodeInfo;
  stat_from_slice : Bytes -> result Bytes (list StatSyncJob) }.

Section Endpoints.
Context `{Serde, MsgCodec, PeerCodec, CallCodec}.
Variable max_blob : Z.
(** The text of an error. *)
Variable show : VoltraError -> Bytes.

(** [send] is the request made with a body. *)
Definition proxy_call_to (peer : NodeInfo) (reducer args caller role : Bytes) (send : Bytes -> HttpReply)
  : result VoltraError Bytes :=
  let shard := bs "[cluster/proxy] shard" ++ dec (n_shard_id peer) in
  let req := {| pc_reducer := reducer; pc_args_b64 := b64_encode args; pc_caller_id := caller;
                pc_caller_role := role; pc_target := Some (n_shard_id peer) |} in
  match call_to_vec req with
  | Err e => Err (Internal (bs "[cluster/proxy] Serialise error: " ++ e))
  | Ok body =>
      match send body with
      | Failed e => Err (NetworkError (shard ++ bs " unreachable: " ++ e))
      | Answered false shown _ => Err (NetworkError (shard ++ bs " returned HTTP " ++ shown))
      | Answered true _ text =>
          match response_from_slice text with
          | Err e => Err (Internal (bs "[cluster/proxy] Deserialise response: " ++ e))
          | Ok r =>
              if negb (pr_ok r) then Err (Internal (default (bs "Unknown proxy error") (pr_error r)))
              else match b64_decode (default [] (pr_result_b64 r)) with
                   | Ok b => Ok b
                   | Err e => Err (Internal (bs "[cluster/proxy] Base64 decode result: " ++ e))
                   end
          end
      end
  end.

Definition proxy_call (b : ClusterBus) (target : Z) (reducer args caller role : Bytes) (send : Bytes -> HttpReply)
  : result VoltraError Bytes :=
  match peers b !! target with
  | None => Err (Internal (bs "[cluster] No peer found for shard " ++ dec target))
  | Some e => proxy_call_to (node e) reducer args caller role send
  end.

(** An error is an empty answer. *)
Definition proxy_call_global (b : option ClusterBus) (target : Z) (reducer args caller role : Bytes)
    (send : Bytes -> HttpReply) : Bytes :=
  match b with
  | None => []
  | Some b => match proxy_call b target reducer args caller role send with Ok r => r | Err _ => [] end
  end.

(** ** The endpoints *)

Record Response := { status_code : Z; body : Value }.
Definition json_response (v : Value) : Response := {| status_code := 200; body := v |}.
Definition error_response (code : Z) (m : Bytes) : Response := {| status_code := code; body := obj [(bs "error", Str m)] |}.
Definition bad_request : Bytes -> Response := error_response 400.
Definition server_error : Bytes -> Response := error_response 500.
Definition unauthorized : Response := error_response 401 (bs "Unauthorized").

(** The part of a node's state the endpoints act on; the tables are those of the routes. *)
Record Node := { n_bus : ClusterBus; n_regions : RegionRegistry; n_routes : Routes; n_subs : SubscriptionManager }.

Definition with_node_tables (ts : TableStore) (n : Node) : Node :=
  {| n_bus := n_bus n; n_regions := n_regions n;
     n_routes := {| routes := routes (n_routes n); tables_of := ts |}; n_subs := n_subs n |}.
Definition with_routes (r : Routes) (n : Node) : Node :=
  {| n_bus := n_bus n; n_regions := n_regions n; n_routes := r; n_subs := n_subs n |}.

(** The header is checked before anything else. [None] is a handler that never answers. *)
Definition guarded (secret : option Bytes) (handler : Node -> option (Response * Node)) (n : Node)
  : option (Response * Node) :=
  if validate_secret (n_bus n) secret then handler n else Some (unauthorized, n).

Definition get_health (n : Node) : Response :=
  json_response (obj [(bs "ok", Bool true); (bs "shard_id", int_value (my_shard_id (config (n_bus n))))]).

Definition get_peers (n : Node) : Response :=
  json_response (obj [(bs "cluster_enabled", Bool (is_active (n_bus n)));
    (bs "my_shard_id", int_value (my_shard_id (config (n_bus n))));
    (bs "shard_count", int_value (cc_shard_count (config (n_bus n))));
    (bs "peers", Array (peers_snapshot (n_bus n)))]).

Definition post_deltas (now : nat -> nat -> Z) (secret : option Bytes) (text : Bytes) : Node -> option (Response * Node) :=
  guarded secret (fun n =>
    match parse_delta_payload text with
    | Err e => Some (bad_request (show e), n)
    | Ok payload =>
        let ds := wire_to_row_deltas (w_deltas payload) in
        match apply_peer_deltas max_blob now ds (tables_of (n_routes n)) (n_subs n) with
        | (_, _, None) => None
        | (r, ts, Some m) =>
            let n := with_node_tables ts {| n_bus := n_bus n; n_regions := n_regions n; n_routes := n_routes n; n_subs := m |} in
            Some (match r with
                  | Ok _ => json_response (obj [(bs "ok", Bool true); (bs "applied", int_value (zlen ds))])
                  | Err e => server_error (show e)
                  end, n)
        end
    end).

(** How the reducer queue deals with a call. *)
Inductive CallOutcome : Type :=
| QueueClosed
| Replied (success : bool) (res err : option Bytes)
| Dropped
| TimedOut.

(** The call that is queued, and the answer. *)
Definition post_call (secret : option Bytes) (text : Bytes) (run : ProxyCallRequest -> Bytes -> CallOutcome) (n : Node)
  : option (ProxyCallRequest * Bytes) * Response :=
  if negb (validate_secret (n_bus n) secret) then (None, unauthorized)
  else match call_from_slice text with
  | Err e => (None, bad_request (bs "Invalid JSON: " ++ e))
  | Ok pr =>
      match b64_decode (pc_args_b64 pr) with
      | Err e => (None, bad_request (bs "Bad args_b64: " ++ e))
      | Ok args =>
          (Some (pr, args),
           match run pr args with
           | QueueClosed => server_error (bs "Reducer queue closed")
           | Replied true res _ =>
               json_response (obj [(bs "ok", Bool true); (bs "result_b64", Str (default [] (b64_encode <$> res)))])
           | Replied false _ err =>
               json_response (obj [(bs "ok", Bool false); (bs "error", Str (default (bs "Reducer error") err))])
           | Dropped => server_error (bs "Worker dropped response channel")
           | TimedOut => server_error (bs "Proxied call timed out after 30s")
           end)
      end
  end.

Definition post_join (secret : option Bytes) (text : Bytes) : Node -> option (Response * Node) :=
  guarded secret (fun n => Some (
    match node_from_slice text with
    | Err e => (bad_request (bs "Invalid JSON: " ++ e), n)
    | Ok info =>
        let n := {| n_bus := add_peer info (n_bus n); n_regions := n_regions n; n_routes := n_routes n; n_subs := n_subs n |} in
        (json_response (obj [(bs "ok", Bool true); (bs "peers", Array (peers_snapshot (n_bus n)))]), n)
    end)).

Definition region_value (r : ClusterRegion) : Value :=
  obj [(bs "id", Str (r_id r)); (bs "ws_url", Str (r_ws_url r)); (bs "metrics_url", Str (r_metrics_url r))].

Definition get_regions (n : Node) : Response :=
  json_response (obj [(bs "my_region", Str (my_region (n_regions n)));
    (bs "regions", Array (map region_value (all_regions (n_regions n))));
    (bs "multi_region", Bool (is_multi_region (n_regions n)))]).

(** The first [lobby_id=] of the query string, else nothing. *)
Definition lobby_id_of (query : option Bytes) : Bytes :=
  default [] (q ← query;
    pair ← List.find (fun s => bool_decide (is_Some (strip_prefix (bs "lobby_id=") s))) (split_byte 38 q);
    strip_prefix (bs "lobby_id=") pair).

(** A lobby nobody registered is taken to live here. *)
Definition get_lobby_route (query : option Bytes) (n : Node) : Response * Node :=
  let lobby_id := lobby_id_of query in
  match lobby_id with
  | [] => (bad_request (bs "Missing lobby_id query param"), n)
  | _ =>
      match lookup_route lobby_id (n_routes n) with
      | (Some r, rs) => (json_response (route_to_row r), with_routes rs n)
      | (None, rs) =>
          let here := my_region (n_regions n) in
          (json_response (obj [(bs "lobby_id", Str lobby_id); (bs "region_id", Str here);
             (bs "ws_url", Str (default [] (ws_url_for (n_regions n) here))); (bs "fallback", Bool true)]),
           with_routes rs n)
      end
  end.

(** [parsed] is the body as serde reads it. *)
Definition post_register_lobby (parsed : result Bytes Value) (n : Node) : Response * Node :=
  match parsed with
  | Err e => (bad_request (bs "Invalid JSON: " ++ e), n)
  | Ok v =>
      let lobby_id := str_field v (bs "lobby_id") in
      match lobby_id with
      | [] => (bad_request (bs "Missing lobby_id"), n)
      | _ =>
          let region_id := default (my_region (n_regions n)) (x ← get_field v (bs "region_id"); str_of x) in
          let ws_url := match (x ← get_field v (bs "ws_url"); str_of x) with
                        | Some u => u
                        | None => default [] (ws_url_for (n_regions n) region_id)
                        end in
          (json_response (obj [(bs "ok", Bool true); (bs "lobby_id", Str lobby_id); (bs "region_id", Str region_id)]),
           with_routes (register max_blob lobby_id region_id ws_url (n_routes n)) n)
      end
  end.

Definition delete_lobby_route (query : option Bytes) (n : Node) : Response * Node :=
  (json_response (obj [(bs "ok", Bool true)]), with_routes (unregister (lobby_id_of query) (n_routes n)) n).

Definition post_stat_sync (text : Bytes) (n : Node) : Response * Node :=
  let '(v, ts) := handle_stat_sync max_blob (stat_from_slice text) (tables_of (n_routes n)) in
  (json_response v, with_node_tables ts n).
End Endpoints.
