(* ===== verification/Worker.v ===== *)
(** * Workers: a reducer call from the queue to the log (src/worker_pool.rs, the worker loop of
    src/app/bootstrap.rs, src/reducer/registry.rs)

    A worker takes a call, runs the reducer on a context of its own, commits, tells the
    subscribers and the peers, takes a sequence number and hands the entry to the log, and
    answers. Workers share the store, the subscriptions, the sequence counter and the channel
    of the log, and none of these steps is under a lock with the next: a worker moves by
    [turn], and [sys_step] interleaves the turns of all workers. What a reducer does is user
    code, given as the calls it makes on its context. *)

From S2P Require Import Prelude Util Json Errors Schema Table SubQuery Subscriptions Tenant Reducer Wal Cluster.

(** ** Reducer code *)

Inductive Ask : Type -> Type :=
| AskRow (name key : Bytes) : Ask (option Value)
| PutRow (name key : Bytes) (v : Value) : Ask RowDelta
| DropRow (name key : Bytes) : Ask RowDelta
| AskCounter (name : Bytes) : Ask (option Counter)
| AddCounter (name : Bytes) (amount : Z) : Ask RowDelta
| AskCounters : Ask (list Counter).

Inductive Code : Type :=
| Return (r : result VoltraError Bytes)
| Invoke {A} (a : Ask A) (k : result VoltraError A -> Code).

(** ** Calls, answers, statistics *)

Record PendingCall := {
  call_id : Z; reducer_name : Bytes; args : Bytes; p_caller_id : Bytes; p_caller_role : Bytes;
  p_tenant_id : option Bytes; lobby_hint : option Bytes; tx_batch : option (list (Bytes * Bytes)) }.

(** [ReducerResponse] and [TransactionOutcome]. *)
Inductive Answer : Type :=
| Success (result : Bytes)
| TxSuccess (responses : list Bytes)
| ReadOnly
| Failed (e : VoltraError)
| TxFailed (name : Bytes) (e : VoltraError)
| CommitError (e : VoltraError)
| TimedOut.

Definition succeeded (a : Answer) : bool := match a with Success _ | TxSuccess _ => true | _ => false end.

Record LobbyStats := {
  calls : Z; errors : Z; total_latency_ns : Z; min_latency_ns : Z; max_latency_ns : Z }.

Definition stats_new : LobbyStats :=
  {| calls := 0; errors := 0; total_latency_ns := 0; min_latency_ns := U64_MAX; max_latency_ns := 0 |}.

(** The worker of a lobby is the only one that writes its statistics. *)
Definition record_call (latency_ns : Z) (s : LobbyStats) : LobbyStats :=
  {| calls := wrap_u64 (calls s + 1); errors := errors s;
     total_latency_ns := wrap_u64 (total_latency_ns s + latency_ns);
     min_latency_ns := if latency_ns <? min_latency_ns s then latency_ns else min_latency_ns s;
     max_latency_ns := if max_latency_ns s <? latency_ns then latency_ns else max_latency_ns s |}.

Definition record_error (s : LobbyStats) : LobbyStats :=
  {| calls := calls s; errors := wrap_u64 (errors s + 1); total_latency_ns := total_latency_ns s;
     min_latency_ns := min_latency_ns s; max_latency_ns := max_latency_ns s |}.

(** ** What the workers share *)

Record Node := {
  store : TableStore;
  subs : SubscriptionManager;
  bus_state : Fanout;
  posts : list (Z * Bytes);          (* deliveries to peers that were spawned *)
  wal_channel : list FlushCommand;
  global_seq : Z;
  replica : bool;
  calls_total : Z; errors_total : Z; wal_entries_total : Z }.

Definition with_store (ts : TableStore) (n : Node) : Node :=
  {| store := ts; subs := subs n; bus_state := bus_state n; posts := posts n; wal_channel := wal_channel n;
     global_seq := global_seq n; replica := replica n; calls_total := calls_total n;
     errors_total := errors_total n; wal_entries_total := wal_entries_total n |}.
Definition with_fanout (m : SubscriptionManager) (l : list (Z * Bytes)) (n : Node) : Node :=
  {| store := store n; subs := m; bus_state := bus_state n; posts := posts n ++ l; wal_channel := wal_channel n;
     global_seq := global_seq n; replica := replica n; calls_total := calls_total n;
     errors_total := errors_total n; wal_entries_total := wal_entries_total n |}.
Definition with_seq (z : Z) (n : Node) : Node :=
  {| store := store n; subs := subs n; bus_state := bus_state n; posts := posts n; wal_channel := wal_channel n;
     global_seq := z; replica := replica n; calls_total := calls_total n;
     errors_total := errors_total n; wal_entries_total := wal_entries_total n |}.
Definition with_channel (l : list FlushCommand) (n : Node) : Node :=
  {| store := store n; subs := subs n; bus_state := bus_state n; posts := posts n; wal_channel := l;
     global_seq := global_seq n; replica := replica n; calls_total := calls_total n;
     errors_total := errors_total n; wal_entries_total := wal_entries_total n + 1 |}.
Definition count_error (n : Node) : Node :=
  {| store := store n; subs := subs n; bus_state := bus_state n; posts := posts n; wal_channel := wal_channel n;
     global_seq := global_seq n; replica := replica n; calls_total := calls_total n;
     errors_total := errors_total n + 1; wal_entries_total := wal_entries_total n |}.
Definition count_calls (k : Z) (n : Node) : Node :=
  {| store := store n; subs := subs n; bus_state := bus_state n; posts := posts n; wal_channel := wal_channel n;
     global_seq := global_seq n; replica := replica n; calls_total := calls_total n + k;
     errors_total := errors_total n; wal_entries_total := wal_entries_total n |}.

(** ** One worker *)

(** The pool of the server puts the tenant into the context and gives up waiting for a call
    after a while; the worker of a lobby does neither. *)
Inductive Kind : Type := Pool | Lobby.

Record Running := {
  r_call : PendingCall; r_attempt : nat; r_ctx : Ctx;
  r_code : option (Bytes * Code);       (* the reducer that runs, and what is left of it *)
  r_done : list Bytes;                  (* the results of those before it *)
  r_rest : list (Bytes * Bytes);        (* the calls of the transaction after it *)
  r_stage : Stage;                      (* how far its commit is, after the last of them *)
  r_detached : bool }.                  (* nobody waits for it *)

Inductive Phase : Type :=
| Idle
| Run (r : Running)
| Committed (c : PendingCall) (ts : Z) (results : list Bytes) (ds : list RowDelta)
| Published (c : PendingCall) (ts : Z) (results : list Bytes) (ds : list RowDelta)
| Numbered (c : PendingCall) (ts : Z) (results : list Bytes) (ds : list RowDelta) (seq : Z).

Record Worker := { kind : Kind; stats : LobbyStats; phase : Phase }.

Definition enter (p : Phase) (w : Worker) : Worker := {| kind := kind w; stats := stats w; phase := p |}.
Definition with_stats (s : LobbyStats) (w : Worker) : Worker := {| kind := kind w; stats := s; phase := phase w |}.

(** What others see of a turn. *)
Inductive Event : Type :=
| Took (c : PendingCall)
| Commits (c : PendingCall) (detached : bool) (ds : list RowDelta)
| Numbers (c : PendingCall) (seq : Z)
| Logs (c : PendingCall) (e : WalEntry) (appended : bool)
| Answers (c : PendingCall) (a : Answer).

(** What a turn observes: the clock of a start, the clocks of the rows it writes, whether the
    channel of the log has room, how long the call took. *)
Record TurnEnv := { e_ts : Z; e_now : nat -> Z; e_room : bool; e_latency : Z }.

Definition MAX_CONFLICT_RETRIES : nat := 64.

Section Workers.
Context `{Serde} `{Lowercase} `{MsgCodec} `{Zstd} `{PeerCodec} `{WalCodec}.
Variable max_blob : Z.
Variable registry : Bytes -> option (Bytes -> Code).
Variable schemas : SchemaRegistry.
Variable tenants : TenantRegistry.

Definition perform {A} (a : Ask A) : op A :=
  match a with
  | AskRow name key => get_row name key
  | PutRow name key v => set_row name key v
  | DropRow name key => delete_row name key
  | AskCounter name => get_counter name
  | AddCounter name amount => set_counter name amount
  | AskCounters => list_counters
  end.

(** [ReducerRegistry::execute] *)
Definition execute (name args : Bytes) : Code :=
  match registry name with
  | Some f => f args
  | None => Return (Err (ReducerError (bs "Unknown reducer: '" ++ name ++ bs "'")))
  end.

Definition context (k : Kind) (c : PendingCall) (ts : Z) : Ctx :=
  let x := {| timestamp := ts; caller_id := p_caller_id c; caller_role := p_caller_role c; schema := Some schemas;
              tenant_id := None; pending := []; read_versions := ∅ |} in
  match k, p_tenant_id c with Pool, Some t => with_tenant t x | _, _ => x end.

Definition start (k : Kind) (ts : Z) (c : PendingCall) : Running :=
  {| r_call := c; r_attempt := 1; r_ctx := context k c ts;
     r_code := match tx_batch c with Some _ => None | None => Some (reducer_name c, execute (reducer_name c) (args c)) end;
     r_done := []; r_rest := default [] (tx_batch c); r_stage := AtQuota; r_detached := false |}.

(** [ctx.reset_for_retry()] and the reducer from its beginning. *)
Definition retry (r : Running) (x : Ctx) : Running :=
  {| r_call := r_call r; r_attempt := S (r_attempt r); r_ctx := reset_for_retry x;
     r_code := Some (reducer_name (r_call r), execute (reducer_name (r_call r)) (args (r_call r)));
     r_done := []; r_rest := []; r_stage := AtQuota; r_detached := r_detached r |}.

Definition go_on (r : Running) (x : Ctx) (code : option (Bytes * Code)) (done_ : list Bytes) (rest : list (Bytes * Bytes)) : Running :=
  {| r_call := r_call r; r_attempt := r_attempt r; r_ctx := x; r_code := code; r_done := done_; r_rest := rest;
     r_stage := r_stage r; r_detached := r_detached r |}.

Definition to_stage (r : Running) (x : Ctx) (g : Stage) : Running :=
  {| r_call := r_call r; r_attempt := r_attempt r; r_ctx := x; r_code := r_code r; r_done := r_done r; r_rest := r_rest r;
     r_stage := g; r_detached := r_detached r |}.

Definition outcome : Type := Worker * Node * list Event.

(** The end of a call that has committed nothing. A task nobody waits for ends in silence. *)
Definition fail (w : Worker) (n : Node) (r : Running) (a : Answer) : outcome :=
  if r_detached r then (enter Idle w, n, [])
  else (enter Idle w, count_error n, [Answers (r_call r) a]).

(** A reducer error: the context is rolled back. *)
Definition reducer_failed (w : Worker) (n : Node) (r : Running) (name : Bytes) (e : VoltraError) : outcome :=
  match tx_batch (r_call r) with
  | Some _ => fail w n r (TxFailed name e)
  | None => fail (match kind w with Lobby => with_stats (record_error (stats w)) w | Pool => w end) n r (Failed e)
  end.

Definition is_conflict (e : VoltraError) : bool := match e with TxnConflict _ => true | _ => false end.
Definition single (c : PendingCall) : bool := match tx_batch c with None => true | Some _ => false end.

(** One step of the commit: a guard, or the batch. *)
Definition commit_turn (env : TurnEnv) (w : Worker) (n : Node) (r : Running) : outcome :=
  match commit_step max_blob tenants (e_now env) (r_stage r) (r_ctx r, store n) with
  | (inl g, (x, ts)) => (enter (Run (to_stage r x g)) w, with_store ts n, [])
  | (inr (Ok ds), (x, ts)) =>
      let n := with_store ts n in
      let ev := Commits (r_call r) (r_detached r) ds in
      if r_detached r then (enter Idle w, n, [ev])
      else (enter (Committed (r_call r) (timestamp x) (r_done r) ds) w, n, [ev])
  | (inr (Err e), (x, ts)) =>
      let n := with_store ts n in
      if single (r_call r) && is_conflict e && (r_attempt r <? MAX_CONFLICT_RETRIES)%nat
      then (enter (Run (retry r x)) w, n, [])
      else fail w n r (CommitError e)
  end.

(** A reducer that panics has no turn here: under [panic = "abort"] of the release profile
    (Cargo.toml) the process ends with it, whatever [catch_unwind] would have made of it. *)
Definition run_turn (env : TurnEnv) (w : Worker) (n : Node) (r : Running) : outcome :=
  match r_code r with
  | Some (name, Invoke a k) =>
      let '(v, (x, ts)) := perform a (r_ctx r, store n) in
      (enter (Run (go_on r x (Some (name, k v)) (r_done r) (r_rest r))) w, with_store ts n, [])
  | Some (name, Return (Err e)) => reducer_failed w n r name e
  | Some (name, Return (Ok b)) => (enter (Run (go_on r (r_ctx r) None (r_done r ++ [b]) (r_rest r))) w, n, [])
  | None =>
      match r_rest r with
      | (name, a) :: rest => (enter (Run (go_on r (r_ctx r) (Some (name, execute name a)) (r_done r) rest)) w, n, [])
      | [] => commit_turn env w n r
      end
  end.

(** [None] when the channel of a subscriber is full: the publisher waits for a lock that it
    holds itself, and has no turn any more (SubFacts.full_channel_hangs). *)
Definition publish_turn (w : Worker) (n : Node) c ts results (ds : list RowDelta) : option outcome :=
  let next := enter (Published c ts results ds) w in
  match ds with
  | [] => Some (next, n, [])
  | _ => m ← publish_deltas ds (subs n); Some (next, with_fanout m (fanout_deltas ds (bus_state n)) n, [])
  end.

Definition number_turn (w : Worker) (n : Node) c ts results ds : outcome :=
  let seq := global_seq n in
  (enter (Numbered c ts results ds seq) w, with_seq (wrap_u64 (seq + 1)) n, [Numbers c seq]).

Definition entry_of (c : PendingCall) (ts seq : Z) (ds : list RowDelta) : WalEntry :=
  match tx_batch c with
  | Some _ => entry_new ts seq (bs "__transaction") [] ds
  | None => entry_new ts seq (reducer_name c) (args c) ds
  end.

Definition answer_of (c : PendingCall) (results : list Bytes) : Answer :=
  match tx_batch c with Some _ => TxSuccess results | None => Success (default [] (last results)) end.

(** A failed append is logged as a warning, and the call is answered all the same. *)
Definition log_turn (env : TurnEnv) (w : Worker) (n : Node) c ts results ds seq : outcome :=
  let entry := entry_of c ts seq ds in
  let '(n, ok) :=
    match append entry seq with
    | Ok cmd => if e_room env then (with_channel (wal_channel n ++ [cmd]) n, true) else (n, false)
    | Err _ => (n, false)
    end in
  let n := count_calls (match tx_batch c with Some l => zlen l | None => 1 end) n in
  let w := match kind w, tx_batch c with Lobby, None => with_stats (record_call (e_latency env) (stats w)) w | _, _ => w end in
  (enter Idle w, n, [Logs c entry ok; Answers c (answer_of c results)]).

Definition turn (env : TurnEnv) (w : Worker) (n : Node) : option outcome :=
  match phase w with
  | Idle => None
  | Run r => Some (run_turn env w n r)
  | Committed c ts results ds => publish_turn w n c ts results ds
  | Published c ts results ds => Some (number_turn w n c ts results ds)
  | Numbered c ts results ds seq => Some (log_turn env w n c ts results ds seq)
  end.

(** A call from the queue; a replica refuses it. *)
Definition take (env : TurnEnv) (c : PendingCall) (w : Worker) (n : Node) : outcome :=
  if replica n then (w, n, [Took c; Answers c ReadOnly])
  else (enter (Run (start (kind w) (e_ts env) c)) w, n, [Took c]).

(** The pool's patience ends: the client is told, and the task runs on. *)
Definition expire (w : Worker) (n : Node) (r : Running) : outcome :=
  (enter Idle w, count_error n, [Answers (r_call r) TimedOut]).
Definition detach (r : Running) : Running :=
  {| r_call := r_call r; r_attempt := r_attempt r; r_ctx := r_ctx r; r_code := r_code r; r_done := r_done r;
     r_rest := r_rest r; r_stage := r_stage r; r_detached := true |}.

(** ** All workers *)

Record System := { node : Node; workers : gmap nat Worker }.

Inductive sys_step : System -> list Event -> System -> Prop :=
| step_take s i w env c w' n' evs :
    workers s !! i = Some w -> phase w = Idle -> take env c w (node s) = (w', n', evs) ->
    sys_step s evs {| node := n'; workers := <[i := w']> (workers s) |}
| step_turn s i w env w' n' evs :
    workers s !! i = Some w -> turn env w (node s) = Some (w', n', evs) ->
    sys_step s evs {| node := n'; workers := <[i := w']> (workers s) |}
| step_expire s i w r j w' n' evs :
    workers s !! i = Some w -> phase w = Run r -> kind w = Pool -> single (r_call r) = true -> r_detached r = false ->
    workers s !! j = None -> expire w (node s) r = (w', n', evs) ->
    sys_step s evs {| node := n'; workers := <[j := enter (Run (detach r)) w]> (<[i := w']> (workers s)) |}
| step_clients s m b :                         (* clients and peers come and go *)
    sys_step s [] {| node := {| store := store (node s); subs := m; bus_state := b; posts := posts (node s);
                                wal_channel := wal_channel (node s); global_seq := global_seq (node s);
                                replica := replica (node s); calls_total := calls_total (node s);
                                errors_total := errors_total (node s); wal_entries_total := wal_entries_total (node s) |};
                     workers := workers s |}.

Inductive runs (s : System) : list Event -> System -> Prop :=
| runs_none : runs s [] s
| runs_step evs s1 evs' s2 : runs s evs s1 -> sys_step s1 evs' s2 -> runs s (evs ++ evs') s2.

(** A run by a list of moves. *)
Inductive Move : Type :=
| MTake (i : nat) (env : TurnEnv) (c : PendingCall)
| MTurn (i : nat) (env : TurnEnv)
| MExpire (i j : nat).

Definition put (i : nat) (s : System) (o : outcome) : list Event * System :=
  let '(w, n, evs) := o in (evs, {| node := n; workers := <[i := w]> (workers s) |}).

Definition move (m : Move) (s : System) : option (list Event * System) :=
  match m with
  | MTake i env c =>
      w ← workers s !! i; match phase w with Idle => Some (put i s (take env c w (node s))) | _ => None end
  | MTurn i env => w ← workers s !! i; o ← turn env w (node s); Some (put i s o)
  | MExpire i j =>
      w ← workers s !! i;
      match phase w, kind w, workers s !! j with
      | Run r, Pool, None =>
          if single (r_call r) && negb (r_detached r) then
            let '(evs, s') := put i s (expire w (node s) r) in
            Some (evs, {| node := node s'; workers := <[j := enter (Run (detach r)) w]> (workers s') |})
          else None
      | _, _, _ => None
      end
  end.

Fixpoint drive (ms : list Move) (evs : list Event) (s : System) : option (list Event * System) :=
  match ms with
  | [] => Some (evs, s)
  | m :: ms' => '(evs', s') ← move m s; drive ms' (evs ++ evs') s'
  end.

(** ** What a run shows *)

(** Calls that committed under a worker that waits for them, with their deltas. *)
Definition committed_of (e : Event) : option (PendingCall * list RowDelta) :=
  match e with Commits c false ds => Some (c, ds) | _ => None end.
(** Calls that committed after their answer was given up. *)
Definition lost_of (e : Event) : option (PendingCall * list RowDelta) :=
  match e with Commits c true ds => Some (c, ds) | _ => None end.
Definition logged_of (e : Event) : option (PendingCall * list RowDelta) :=
  match e with Logs c e _ => Some (c, deltas (payload e)) | _ => None end.
Definition number_of (e : Event) : option Z := match e with Numbers _ seq => Some seq | _ => None end.
Definition succeeded_of (e : Event) : option PendingCall :=
  match e with Answers c a => if succeeded a then Some c else None | _ => None end.
Definition answered_of (e : Event) : option PendingCall := match e with Answers c _ => Some c | _ => None end.
Definition took_of (e : Event) : option PendingCall := match e with Took c => Some c | _ => None end.
Definition channel_of (e : Event) : option WalEntry := match e with Logs _ e true => Some e | _ => None end.

(** What a worker holds between its commit and the log. *)
Definition held (w : Worker) : option (PendingCall * list RowDelta) :=
  match phase w with
  | Committed c _ _ ds | Published c _ _ ds | Numbered c _ _ ds _ => Some (c, ds)
  | _ => None
  end.
(** The call a client waits for. *)
Definition awaited (w : Worker) : option PendingCall :=
  match phase w with
  | Idle => None
  | Run r => if r_detached r then None else Some (r_call r)
  | Committed c _ _ _ | Published c _ _ _ | Numbered c _ _ _ _ => Some c
  end.
Definition number_held (w : Worker) : option Z := match phase w with Numbered _ _ _ _ seq => Some seq | _ => None end.

Definition of_workers {A} (f : Worker -> option A) (m : gmap nat Worker) : list A := omap f (map_to_list m).*2.
End Workers.
