(* ===== verification/ClusterFacts.v ===== *)
(** * What the cluster bus promises

    Health follows the last answers; deltas sent over the wire do at a peer what they did
    here; the guarded endpoints refuse a request without the secret and touch nothing; a
    migration accounts for every row. Then where the code falls short of its comments. *)

From S2P Require Import Prelude OrdMap Util Json JsonCodec Errors Table TableIndex TableBatch TableReads SubQuery Subscriptions Tenant Ring Cluster ClusterHttp.

(** ** What a migration does to the rows

    The loop over the chunks, then the whole run: every row whose key the ring gives to the
    new cluster is sent once and leaves this node exactly when its batch was acknowledged;
    no other row is touched. Then where the code falls short of its comments. *)

Section Migration.
Context `{Serde}.
Implicit Types (ts : TableStore) (m : Migration).

Definition acked (r : HttpReply) : bool := match r with Answered true _ _ => true | _ => false end.

Definition row_msg (t k : Bytes) (v : Value) : MigrateRow := {| mr_table := t; mr_key := k; mr_data := v |}.

Definition present ts (tk : Bytes * Bytes) : Prop := exists v, row_of ts tk.1 tk.2 = Ok (Some v).

Definition message ts (tk : Bytes * Bytes) : option MigrateRow :=
  match row_of ts tk.1 tk.2 with Ok (Some v) => Some (row_msg tk.1 tk.2 v) | _ => None end.

Lemma message_same ts ts' tk : same_store ts ts' -> message ts' tk = message ts tk.
Proof. intros Hs. unfold message. by rewrite (row_of_same _ _ _ _ Hs). Qed.

(** The keys of the new cluster, and what the other threads do to the tables. *)
Variable moving : Bytes * Bytes -> Prop.
Variable others : nat -> TableStore -> TableStore.
#[local] Abbreviation meanwhile := (meanwhile others).
#[local] Abbreviation read_rows := (read_rows others).
#[local] Abbreviation delete_all := (delete_all others).
#[local] Abbreviation stream := (stream others).

(** They leave a row as it is; they do not delete a row that moves. *)
Definition alone (tk : Bytes * Bytes) : Prop := forall i ts, row_of (others i ts) tk.1 tk.2 = row_of ts tk.1 tk.2.
Hypothesis moving_stay : forall i ts tk, moving tk -> present ts tk -> present (others i ts) tk.

(** From one store to a later one, with the rows that the migration deleted in between. *)
Record evolves (gone : list (Bytes * Bytes)) ts ts' : Prop := {
  ev_alone t k : alone (t, k) -> row_of ts' t k = if decide ((t, k) ∈ gone) then Ok None else row_of ts t k;
  ev_moving tk : moving tk -> tk ∉ gone -> present ts tk -> present ts' tk }.

Lemma evolves_refl ts : evolves [] ts ts.
Proof. split; [|done]. intros t k _. by rewrite decide_False by (by intros ?%elem_of_nil). Qed.

Lemma evolves_trans g1 g2 t1 t2 t3 : evolves g1 t1 t2 -> evolves g2 t2 t3 -> evolves (g1 ++ g2) t1 t3.
Proof.
  intros [Ha1 Hm1] [Ha2 Hm2]. split.
  - intros t k Ha. rewrite (Ha2 t k Ha), (Ha1 t k Ha). repeat case_decide; try done; exfalso; set_solver.
  - intros tk Hmv Hn Hp. apply Hm2; [done|set_solver|]. apply Hm1; [done|set_solver|done].
Qed.

Lemma evolves_others i ts : evolves [] ts (others i ts).
Proof.
  split; [|intros; by apply moving_stay]. intros t k Ha. rewrite decide_False by (by intros ?%elem_of_nil). apply (Ha i ts).
Qed.

Lemma evolves_same ts ts' : same_store ts ts' -> evolves [] ts ts'.
Proof.
  intros Hs. split.
  - intros t k _. rewrite decide_False by (by intros ?%elem_of_nil). by apply row_of_same.
  - intros [t k] _ _ [v Hv]. exists v. cbn in *. by rewrite (row_of_same _ _ t k Hs).
Qed.

Lemma read_evolves {A} (f : st TableStore A) i ts : (forall ts, same_store ts (snd (f ts))) ->
  evolves [] ts (snd (meanwhile f (i, ts))).2 /\ fst (meanwhile f (i, ts)) = fst (f (others i ts)).
Proof.
  intros Hf. unfold ClusterHttp.meanwhile. pose proof (Hf (others i ts)) as Hs. destruct (f (others i ts)) as [a ts']. cbn in *.
  split; [|done]. apply (evolves_trans [] [] _ (others i ts)); [apply evolves_others|by apply evolves_same].
Qed.

Lemma read_rows_spec (chunk : list (Bytes * Bytes)) i ts : Forall moving chunk -> Forall (present ts) chunk ->
  evolves [] ts (snd (read_rows chunk (i, ts))).2 /\ length (fst (read_rows chunk (i, ts))) = length chunk /\
  forall t k v, (t, k) ∈ chunk -> alone (t, k) -> row_of ts t k = Ok (Some v) -> row_msg t k v ∈ fst (read_rows chunk (i, ts)).
Proof.
  revert i ts. induction chunk as [|[t k] chunk IH]; intros i ts Hm Hp.
  { split; [apply evolves_refl|]. split; [done|]. intros ? ? ? []%elem_of_nil. }
  apply Forall_cons in Hm as [Hm0 Hm], Hp as [Hp0 Hp]. cbn [ClusterHttp.read_rows].
  unfold mbind, st_mbind, mret, st_mret. destruct (read_evolves (get_row t k) i ts (get_row_same t k)) as [Hev Hget].
  destruct (meanwhile (get_row t k) (i, ts)) as [r [i1 ts1]]. cbn in Hev, Hget.
  change (fst (get_row t k (others i ts))) with (row_of (others i ts) t k) in Hget.
  destruct (moving_stay i ts (t, k) Hm0 Hp0) as [v0 Hv0]. cbn in Hv0. rewrite Hv0 in Hget. subst r.
  destruct (IH i1 ts1) as (Hev2 & Hlen & Hin); [done| |].
  { apply Forall_forall. intros tk Htk. rewrite Forall_forall in Hm, Hp. apply (ev_moving _ _ _ Hev); [by apply Hm|by intros ?%elem_of_nil|by apply Hp]. }
  destruct (read_rows chunk (i1, ts1)) as [rest [i2 ts2]]. cbn in Hev2, Hlen, Hin |- *.
  split; [exact (evolves_trans [] [] _ _ _ Hev Hev2)|]. split; [by rewrite Hlen|].
  intros t' k' v Htk Ha Hv. apply elem_of_cons. apply elem_of_cons in Htk as [[= -> ->]|Htk].
  - left. pose proof (Ha i ts) as E. cbn in E. rewrite Hv0, Hv in E. by injection E as ->.
  - right. apply Hin; [done..|]. rewrite (ev_alone _ _ _ Hev _ _ Ha). by rewrite decide_False by (by intros ?%elem_of_nil).
Qed.

Lemma delete_all_evolves pairs i ts : evolves pairs ts (snd (delete_all pairs (i, ts))).2.
Proof.
  revert i ts. induction pairs as [|[t0 k0] pairs IH]; intros i ts; [apply evolves_refl|].
  unfold ClusterHttp.delete_all in *. cbn [st_iter]. unfold mbind, st_mbind, mret, st_mret in *. unfold ClusterHttp.meanwhile in *.
  cbn [fst snd]. destruct (delete_row t0 k0 (others i ts)) as [r ts1] eqn:Ed.
  assert (Hd : evolves [(t0, k0)] (others i ts) ts1).
  { pose proof (delete_row_of t0 k0 (others i ts)) as Hd. rewrite Ed in Hd. cbn in Hd. split.
    - intros t k _. rewrite Hd. repeat case_decide; try done; exfalso; set_solver.
    - intros [t k] _ Hn [v Hv]. exists v. cbn in *. rewrite Hd, decide_False; [done|set_solver]. }
  pose proof (evolves_trans _ _ _ _ _ (evolves_others i ts) Hd) as H1. exact (evolves_trans _ _ _ _ _ H1 (IH (S i) ts1)).
Qed.

(** What became of the row [(t, k)], which held [v]. *)
Definition settled m' t k v : Prop := exists b r, (b, r) ∈ posts m' /\ row_msg t k v ∈ mb_rows b /\
  row_of (m_tables m') t k = if acked r then Ok None else Ok (Some v).

Lemma stream_posts my answer cs mig fl m x : x ∈ posts m -> x ∈ posts (stream my answer cs mig fl m).
Proof.
  revert answer mig fl m. induction cs as [|c cs IH]; intros answer mig fl m Hx; cbn [ClusterHttp.stream]; [done|].
  destruct (read_rows c (m_moment m, m_tables m)) as [rows [i ts]]. destruct rows; [by apply IH|].
  match goal with |- context [let '(_, _) := ?x in _] => destruct x as [i' ts'] end. apply IH. cbn.
  apply elem_of_app. by left.
Qed.

(** One chunk: its rows are read, sent, and deleted if the answer is good. *)
Lemma chunk_outcome my answer c cs mig fl m : c <> [] -> Forall moving c -> Forall (present (m_tables m)) c ->
  exists batch i ts mig' fl',
    (forall t k v, (t, k) ∈ c -> alone (t, k) -> row_of (m_tables m) t k = Ok (Some v) -> row_msg t k v ∈ mb_rows batch) /\
    evolves (if acked (answer O) then c else []) (m_tables m) ts /\
    stream my answer (c :: cs) mig fl m = stream my (fun i => answer (S i)) cs mig' fl'
      {| coord := set_progress mig' fl' (coord m); m_ring := m_ring m; m_tables := ts; m_moment := i;
         posts := posts m ++ [(batch, answer O)] |}.
Proof.
  intros Hne Hm Hp. cbn [ClusterHttp.stream]. destruct (read_rows_spec c (m_moment m) (m_tables m) Hm Hp) as (Hev & Hlen & Hin).
  destruct (read_rows c (m_moment m, m_tables m)) as [rows [i ts]]. cbn in Hev, Hlen, Hin.
  destruct rows as [|row rows]; [by destruct c|]. remember (row :: rows) as l eqn:El.
  rewrite Hlen, Nat.min_id, take_ge by lia.
  change (match answer O with Answered true _ _ => true | _ => false end) with (acked (answer O)).
  pose proof (delete_all_evolves c i ts) as Hdel. destruct (acked (answer O)).
  - destruct (delete_all c (i, ts)) as [[] [i' ts']]. cbn [fst snd] in *.
    exists {| source_cluster := my; mb_rows := l |}. do 4 eexists. split; [exact Hin|]. split; [|reflexivity].
    exact (evolves_trans [] c _ _ _ Hev Hdel).
  - exists {| source_cluster := my; mb_rows := l |}. do 4 eexists. split; [exact Hin|]. split; [exact Hev|reflexivity].
Qed.

Lemma stream_outcome my answer cs mig fl m : NoDup (concat cs) -> Forall (fun c => c <> []) cs ->
  Forall moving (concat cs) -> Forall (present (m_tables m)) (concat cs) -> forall t k, alone (t, k) ->
  if decide ((t, k) ∈ concat cs)
    then exists v, row_of (m_tables m) t k = Ok (Some v) /\ settled (stream my answer cs mig fl m) t k v
    else row_of (m_tables (stream my answer cs mig fl m)) t k = row_of (m_tables m) t k.
Proof.
  revert answer mig fl m. induction cs as [|c cs IH]; intros answer mig fl m Hd Hne Hm Hp t k Ha.
  { cbn. rewrite decide_False; [done|]. by intros ?%elem_of_nil. }
  apply Forall_cons in Hne as [Hc Hne]. cbn [concat] in *. apply NoDup_app in Hd as (Hdc & Hdis & Hdcs).
  apply Forall_app in Hp as [Hpc Hpcs], Hm as [Hmc Hmcs].
  destruct (chunk_outcome my answer c cs mig fl m Hc Hmc Hpc) as (batch & i & ts & mig' & fl' & Hin & [Hal Hmov] & ->).
  set (m1 := {| coord := _; m_ring := _; m_tables := ts; m_moment := i; posts := _ |}).
  assert (Hp1 : Forall (present (m_tables m1)) (concat cs)).
  { rewrite Forall_forall in Hpcs, Hmcs |- *. intros tk Htk. apply Hmov; [by apply Hmcs| |by apply Hpcs].
    destruct (acked _); [|by intros ?%elem_of_nil]. intros Hc'. by apply (Hdis tk). }
  specialize (IH (fun i => answer (S i)) mig' fl' m1 Hdcs Hne Hmcs Hp1 t k Ha). specialize (Hal t k Ha).
  change (m_tables m1) with ts in IH. destruct (decide ((t, k) ∈ c)) as [Htk|Htk].
  - rewrite decide_True by (apply elem_of_app; by left).
    rewrite decide_False in IH by (intros Hcs; by apply (Hdis (t, k))).
    rewrite Forall_forall in Hpc. destruct (Hpc _ Htk) as [v Hv]. cbn in Hv. exists v. split; [done|].
    exists batch, (answer O). split_and!.
    + apply stream_posts. cbn. apply elem_of_app. right. by apply list_elem_of_singleton.
    + by apply Hin.
    + rewrite IH, Hal. destruct (acked _); [by rewrite decide_True|]. by rewrite decide_False by (by intros ?%elem_of_nil).
  - assert (Hsame : row_of ts t k = row_of (m_tables m) t k).
    { rewrite Hal. destruct (acked _); [by rewrite decide_False|]. by rewrite decide_False by (by intros ?%elem_of_nil). }
    rewrite Hsame in IH. destruct (decide ((t, k) ∈ concat cs)) as [Hcs|Hcs].
    + by rewrite decide_True by (apply elem_of_app; by right).
    + by rewrite decide_False by (by intros [?|?]%elem_of_app).
Qed.

(** ** The whole run *)

(** The table of the row can be listed, and the row is in the list. *)
Definition lists ts t k : Prop := exists l v, fst (list_rows_with_keys t ts) = Ok l /\ (k, v) ∈ l.

#[local] Abbreviation collect_keys := (collect_keys others).

(** The keys are collected while others write: each is there if it moves, and a row that they
    leave alone, in a table that stays listable, is among them. *)
Lemma collect_keys_spec names i ts : NoDup names ->
  evolves [] ts (snd (collect_keys names (i, ts))).2 /\ NoDup (fst (collect_keys names (i, ts))) /\
  (forall tk, tk ∈ fst (collect_keys names (i, ts)) -> tk.1 ∈ names /\ (moving tk -> present (snd (collect_keys names (i, ts))).2 tk)) /\
  (forall t k, (forall j u, lists u t k -> lists (others j u) t k) -> t ∈ names -> lists ts t k -> (t, k) ∈ fst (collect_keys names (i, ts))).
Proof.
  intros Hd. revert i ts. induction Hd as [|t names Ht Hd IH]; intros i ts.
  { split; [apply evolves_refl|]. split; [constructor|]. split; [by intros tk []%elem_of_nil|by intros ? ? ? []%elem_of_nil]. }
  cbn [ClusterHttp.collect_keys]. unfold mbind, st_mbind, mret, st_mret.
  destruct (read_evolves (list_rows_with_keys t) i ts (list_rows_same t)) as [Hev Hlist].
  pose proof (list_rows_same t (others i ts)) as Hsame.
  destruct (meanwhile (list_rows_with_keys t) (i, ts)) as [r [i1 ts1]] eqn:Er. cbn in Hev, Hlist.
  assert (Hts1 : same_store (others i ts) ts1).
  { unfold ClusterHttp.meanwhile in Er. destruct (list_rows_with_keys t (others i ts)) as [r' ts']. by injection Er as _ _ <-. }
  destruct (IH i1 ts1) as (Hev2 & Hnd & Hin & Hall). destruct (collect_keys names (i1, ts1)) as [rest [i2 ts2]]. cbn in *.
  set (own := match r with Ok rows => map (fun kv => (t, kv.1)) rows | Err _ => [] end).
  assert (Hown : NoDup own /\ forall tk, tk ∈ own -> tk.1 = t /\ present (others i ts) tk).
  { unfold own. destruct r as [l|e]; [|split; [constructor|by intros tk []%elem_of_nil]].
    destruct (listed _ _ _ (eq_sym Hlist)) as [Hl1 Hl2]. split.
    - apply (NoDup_fmap_1 snd). by rewrite map_map.
    - intros tk ([k v] & -> & Hkv)%list_elem_of_fmap. split; [done|]. exists v. by apply Hl2. }
  destruct Hown as [Hown1 Hown2]. split_and!.
  - exact (evolves_trans [] [] _ _ _ Hev Hev2).
  - apply NoDup_app. split_and!; [done| |done]. intros tk Htk Htk'. destruct (Hown2 _ Htk) as [E _]. destruct (Hin _ Htk') as [E' _]. congruence.
  - intros tk [Htk|Htk]%elem_of_app.
    + destruct (Hown2 _ Htk) as [E Hp]. split; [rewrite E; by apply list_elem_of_here|]. intros Hmv.
      apply (ev_moving _ _ _ Hev2); [done|by intros ?%elem_of_nil|].
      apply (ev_moving _ _ _ (evolves_same _ _ Hts1)); [done|by intros ?%elem_of_nil|done].
    + destruct (Hin _ Htk) as [Hn Hp]. split; [by apply list_elem_of_further|done].
  - intros t' k Hkeep Hn Hl. apply elem_of_app. apply (Hkeep i) in Hl. apply elem_of_cons in Hn as [->|Hn].
    + left. destruct Hl as (l & v & El & Hkv). unfold own. rewrite Hlist, El. apply list_elem_of_fmap. by exists (k, v).
    + right. apply Hall; [done..|]. destruct Hl as (l & v & El & Hkv). exists l, v. by rewrite (list_rows_of_same _ _ _ Hts1).
Qed.
End Migration.

Lemma split_flat t k : 58 ∉ t -> split_once 58 (t ++ [58] ++ k) = Some (t, k).
Proof.
  induction t as [|c t IH]; cbn; [done|]. intros [Hc Ht]%not_elem_of_cons. rewrite zeq_false by done.
  cbn in IH. by rewrite IH.
Qed.

Definition mv (r : ConsistentHashRing) (c k : Bytes) : bool :=
  negb (beq (default [] (get_cluster r k)) c) && beq (default [] (get_cluster (add_cluster c r) k)) c.

Lemma mv_moves r c k : ring_ok r -> c <> [] -> mv r c k = true <-> moves r c k.
Proof.
  intros Hok Hc. pose proof (migrating_moves r c [k] k Hok Hc) as Hm. rewrite list_elem_of_singleton in Hm.
  setoid_rewrite migrating_elem in Hm. unfold mv. rewrite andb_true_iff, negb_true_iff, beq_true.
  assert (beq (default [] (get_cluster r k)) c = false <-> default [] (get_cluster r k) <> c) as ->
    by (apply bool_decide_eq_false).
  split; [intros [? ?]; apply Hm; eexists; split_and!; [by left|done..]|].
  intros Hmv. destruct Hm as [_ Hm]. destruct (Hm (conj eq_refl Hmv)) as (o & _ & -> & ? & ?). done.
Qed.

Lemma migrate_pairs r c ks : Forall (fun tk : Bytes * Bytes => 58 ∉ tk.1) ks ->
  omap (fun kv : Bytes * Bytes => unflatten kv.1) (keys_migrating_to r c (map flat_key ks))
  = List.filter (fun tk => mv r c (flat_key tk)) ks.
Proof.
  induction 1 as [|[t k] ks Ht _ IH]; [done|]. unfold keys_migrating_to in *. cbn zeta in *. cbn.
  unfold mv at 1. destruct (_ && _); cbn; [|exact IH]. pose proof (split_flat t k Ht) as E. cbn in E.
  unfold unflatten at 1. rewrite E. f_equal. exact IH.
Qed.

Lemma chunks_concat {A} size (l : list A) : (1 <= size)%nat -> concat (chunks size l) = l.
Proof.
  intros Hs. unfold chunks. assert (Hl : (length l <= length l)%nat) by done. revert Hl.
  generalize (length l) at 2 3 as fuel. intros fuel. revert l. induction fuel as [|f IH]; intros l Hl.
  { by destruct l; [|cbn in Hl; lia]. }
  destruct l as [|a l]; [done|]. cbn [chunks_loop concat]. rewrite IH; [apply take_drop|].
  rewrite length_drop. cbn in *. lia.
Qed.

Lemma chunks_nonempty {A} size (l : list A) : (1 <= size)%nat -> Forall (fun c => c <> []) (chunks size l).
Proof.
  intros Hs. unfold chunks. generalize (length l) as fuel. intros fuel. revert l.
  induction fuel as [|f IH]; intros l; [constructor|]. destruct l as [|a l]; [constructor|]. cbn [chunks_loop].
  constructor; [|apply IH]. by destruct size; [lia|].
Qed.

Section Runs.
Context `{Serde}.
Variable others : nat -> TableStore -> TableStore.
Implicit Types (ts : TableStore) (m : Migration).

(** The row is in a table that can be listed. *)
Definition listed_row ts t k : Prop := t ∈ list_tables ts /\ lists ts t k.

(** The others leave the row alone, and its table listable. *)
Definition spared t k : Prop := alone others (t, k) /\ forall i ts, lists ts t k -> lists (others i ts) t k.

(** Names without a colon are read back from the flat keys. *)
Lemma run_outcome new my size answer m :
  ring_ok (inner (m_ring m)) -> poisoned (m_ring m) = false -> new <> [] -> (1 <= size)%nat ->
  let goes tk := moves (inner (m_ring m)) new (flat_key tk) in
  let ts := others (m_moment m) (m_tables m) in
  NoDup (list_tables ts) -> Forall (fun t => 58 ∉ t) (list_tables ts) ->
  (forall i u tk, goes tk -> present u tk -> present (others i u) tk) ->
  let m' := run_migration others new my size answer m in
  forall t k, spared t k ->
    (listed_row ts t k -> goes (t, k) -> exists v, row_of (m_tables m) t k = Ok (Some v) /\ settled m' t k v) /\
    (~ goes (t, k) -> row_of (m_tables m') t k = row_of (m_tables m) t k) /\
    (row_of (m_tables m') t k = row_of (m_tables m) t k \/ exists v, row_of (m_tables m) t k = Ok (Some v) /\ settled m' t k v).
Proof.
  intros Hok Hpo Hnew Hsize goes ts Hd Hcolon Hstay. cbv zeta. intros t k [Ha Hl]. set (r := inner (m_ring m)) in *.
  unfold run_migration.
  change (meanwhile others (fun u => (list_tables u, u)) (m_moment m, m_tables m)) with (list_tables ts, (S (m_moment m), ts)).
  cbv beta iota zeta.
  destruct (collect_keys_spec goes others Hstay (list_tables ts) (S (m_moment m)) ts Hd) as (Hev & Hnd & Hin & Hall).
  destruct (collect_keys others (list_tables ts) (S (m_moment m), ts)) as [ks [i ts1]]. cbn in Hev, Hnd, Hin, Hall.
  unfold shared_keys_migrating_to, shared_read. rewrite Hpo. fold r.
  assert (Hpairs : omap (fun kv : Bytes * Bytes => unflatten kv.1) (keys_migrating_to r new (map flat_key ks))
                   = List.filter (fun tk => mv r new (flat_key tk)) ks).
  { apply migrate_pairs, Forall_forall. intros tk Htk. apply (proj1 (Forall_forall _ _) Hcolon). by apply Hin. }
  set (m1 := {| coord := _; m_ring := _; m_tables := ts1; m_moment := i; posts := _ |}).
  set (cs := chunks size (omap (fun kv : Bytes * Bytes => unflatten kv.1) (keys_migrating_to r new (map flat_key ks)))).
  assert (Hcs : concat cs = List.filter (fun tk => mv r new (flat_key tk)) ks) by (unfold cs; by rewrite chunks_concat).
  assert (Helem : forall tk, tk ∈ concat cs <-> tk ∈ ks /\ goes tk).
  { intros tk. rewrite Hcs, list_elem_of_In, filter_In, <- list_elem_of_In. by rewrite mv_moves. }
  assert (Hrow : row_of ts1 t k = row_of (m_tables m) t k).
  { rewrite (ev_alone _ _ _ _ _ Hev t k Ha), decide_False by (by intros ?%elem_of_nil). apply (Ha (m_moment m)). }
  assert (Hrun : if decide ((t, k) ∈ concat cs)
    then exists v, row_of (m_tables m) t k = Ok (Some v) /\ settled (stream others my answer cs 0 0 m1) t k v
    else row_of (m_tables (stream others my answer cs 0 0 m1)) t k = row_of (m_tables m) t k).
  { rewrite <- Hrow. apply (stream_outcome goes others Hstay my answer cs 0 0 m1).
    - rewrite Hcs. by apply NoDup_ListNoDup, List.NoDup_filter, NoDup_ListNoDup.
    - by apply chunks_nonempty.
    - apply Forall_forall. by intros tk [_ ?]%Helem.
    - apply Forall_forall. intros tk [Hks Hmv]%Helem. by apply Hin.
    - exact Ha. }
  assert (Hgoal : forall m', (if decide ((t, k) ∈ concat cs)
      then exists v, row_of (m_tables m) t k = Ok (Some v) /\ settled m' t k v
      else row_of (m_tables m') t k = row_of (m_tables m) t k) ->
    (listed_row ts t k -> goes (t, k) -> exists v, row_of (m_tables m) t k = Ok (Some v) /\ settled m' t k v) /\
    (~ goes (t, k) -> row_of (m_tables m') t k = row_of (m_tables m) t k) /\
    (row_of (m_tables m') t k = row_of (m_tables m) t k \/ exists v, row_of (m_tables m) t k = Ok (Some v) /\ settled m' t k v)).
  { intros m' Hm. case_decide as Hc; rewrite Helem in Hc.
    - split; [done|]. split; [intros []; apply Hc|by right].
    - split; [|split; [by intros _|by left]]. intros [Ht Hlt] Hmv. destruct Hc. split; [|done]. by apply Hall. }
  destruct (keys_migrating_to r new (map flat_key ks)) as [|x l] eqn:E; [|exact (Hgoal _ Hrun)].
  apply (Hgoal m1). unfold cs, chunks in Hrun |- *. cbn in Hrun |- *. exact Hrun.
Qed.
End Runs.

(** ** Health *)

(** The failures since the last success. *)
Definition trailing (rs : list HttpReply) : Z :=
  foldl (fun n r => if acked r then 0 else n + 1) 0 rs.

Definition pinged (now : Z) (shard : Z) (rs : list HttpReply) (b : ClusterBus) : ClusterBus :=
  foldl (fun b r => ping now shard r b) b rs.

Lemma trailing_snoc rs r : trailing (rs ++ [r]) = if acked r then 0 else trailing rs + 1.
Proof. unfold trailing. by rewrite foldl_app. Qed.

Lemma trailing_nonneg rs : 0 <= trailing rs.
Proof.
  induction rs as [|r rs IH] using rev_ind; [done|]. rewrite trailing_snoc. destruct (acked r); lia.
Qed.

Lemma pinged_entry now shard rs b e : peers b !! shard = Some e -> health e = health (peer_new (node e)) ->
  exists seen, peers (pinged now shard rs b) !! shard =
    Some {| node := node e; health := {| healthy := trailing rs <? 3; last_seen := seen;
                                         consecutive_failures := wrap_u32 (trailing rs) |} |}.
Proof.
  intros He Hh. induction rs as [|r rs [seen IH]] using rev_ind.
  { exists None. cbn. rewrite He. destruct e as [n h]. cbn in *. by subst. }
  unfold pinged in *. rewrite foldl_app, trailing_snoc. cbn [foldl].
  set (b1 := foldl _ b rs) in *. unfold ping.
  assert (Hm : forall b, peers (mark_unhealthy shard b) !! shard = entry_mark_failure <$> peers b !! shard)
    by (intros; apply lookup_alter_eq).
  pose proof (trailing_nonneg rs) as Hn. set (n := trailing rs) in *.
  assert (Hf : exists seen', entry_mark_failure {| node := node e; health := {| healthy := n <? 3; last_seen := seen;
             consecutive_failures := wrap_u32 n |} |}
    = {| node := node e; health := {| healthy := n + 1 <? 3; last_seen := seen'; consecutive_failures := wrap_u32 (n + 1) |} |}).
  { exists seen. unfold entry_mark_failure. cbn.
    assert (wrap_u32 (wrap_u32 n + 1) = wrap_u32 (n + 1)) as -> by (unfold wrap_u32; by rewrite Zplus_mod_idemp_l).
    do 2 f_equal. destruct (Z_lt_le_dec (n + 1) 3) as [Hlt|Hge].
    - unfold wrap_u32. rewrite Z.mod_small by lia. rewrite zle_false, !zlt_true by lia. done.
    - rewrite (zlt_false (n + 1) 3) by done. destruct (3 <=? wrap_u32 (n + 1)) eqn:E; [done|]. zbool.
      apply zlt_false. destruct (Z.eq_dec n 2) as [->|]; [by vm_compute in E|lia]. }
  destruct Hf as [seen' Hf].
  destruct r as [[] shown body|shown]; cbn [acked].
  - exists (Some now). unfold mark_healthy, with_peers. cbn. rewrite lookup_alter_eq, IH. cbn. by unfold entry_mark_healthy.
  - exists seen'. by rewrite Hm, IH; cbn; rewrite Hf.
  - exists seen'. by rewrite Hm, IH; cbn; rewrite Hf.
Qed.

(** A peer's health is exactly what its last answers say: whatever heartbeats and
    deliveries succeed or fail, in whatever order and number, a peer that starts fresh is
    sent to as long as fewer than three attempts have failed since the last that succeeded,
    and other peers are not affected. *)
Theorem health_follows_answers now shard rs b e : peers b !! shard = Some e ->
  health e = health (peer_new (node e)) ->
  (exists e', peers (pinged now shard rs b) !! shard = Some e' /\ node e' = node e /\
     healthy (health e') = (trailing rs <? 3)) /\
  forall other, other <> shard -> peers (pinged now shard rs b) !! other = peers b !! other.
Proof.
  intros He Hh. split.
  - destruct (pinged_entry now shard rs b e He Hh) as [seen E]. eexists. by split.
  - intros other Hne. clear -Hne. revert b. induction rs as [|r rs IH]; intros b; [done|].
    unfold pinged in *. cbn [foldl]. rewrite IH. unfold ping, mark_healthy, mark_unhealthy, with_peers.
    by destruct r as [[]|]; cbn; rewrite lookup_alter_ne.
Qed.

(** ** Deltas at a peer *)

Section Deltas.
Context `{SerdeLaws, MsgCodec, PeerCodecLaws}.
Variable max_blob : Z.

(** What the commit of a batch answers with. *)
Definition committed (d : RowDelta) : Prop :=
  operation d = bs "delete" \/
  ((operation d = bs "insert" \/ operation d = bs "update") /\
   exists v b, row_data_value d = Some v /\ storable v = true /\ rmp_to_vec_named v = Some b).

(** The same change of the same row. *)
Definition same_change (d d' : RowDelta) : Prop :=
  table_name d' = table_name d /\ row_key d' = row_key d /\
  (operation d = bs "delete" /\ operation d' = bs "delete" \/
   ((operation d = bs "insert" \/ operation d = bs "update") /\ operation d' = bs "update" /\
    row_data_value d' = row_data_value d)).

Lemma crossed d : committed d -> exists d', wire_to_row_delta (row_delta_to_wire d) = Some d' /\ same_change d d'.
Proof.
  unfold wire_to_row_delta, row_delta_to_wire. intros [Ed|[Ho (v & b & Hv & Hs & Hb)]].
  - rewrite Ed. eexists. split; [reflexivity|]. split_and!; [done..|]. by left.
  - assert (beq (operation d) (bs "delete") = false) as -> by (destruct Ho as [-> | ->]; reflexivity).
    cbn. rewrite Hv. cbn. rewrite Hb. cbn. rewrite b64_round. cbn. pose proof (rmp_round v b [] Hs Hb) as Hr.
    rewrite app_nil_r in Hr. rewrite Hr. cbn. eexists. split; [reflexivity|]. split_and!; [done..|]. right.
    split_and!; [done..|]. by rewrite Hv.
Qed.

Definition unsharded (ts : TableStore) : Prop :=
  shard_count (root ts) <= 1 /\ forall lid, shard_count (lobby_store ts lid) <= 1.

Lemma apply_one_same d d' sd : same_change d d' -> apply_one max_blob d' sd = apply_one max_blob d sd.
Proof.
  intros (Et & Ek & [[E1 E2]|(E1 & E2 & Ev)]); unfold apply_one; rewrite Et, Ek, E2.
  - by rewrite E1.
  - rewrite Ev. destruct E1 as [-> | ->]; done.
Qed.

Lemma batch_same now d d' sd : same_change d d' -> shard_count sd.1 <= 1 ->
  batch_inner max_blob now [d'] [] sd = batch_inner max_blob now [d] [] sd.
Proof.
  intros Hs Hc. destruct sd as [s file]. unfold batch_inner.
  assert (lock_keys s [d'] = lock_keys s [d]) as ->.
  { unfold lock_keys, row_matches_shard. cbn. rewrite zle_true by done. cbn. destruct Hs as (-> & -> & _). done. }
  set (s1 := foldl _ s _). cbn [occ_check].
  assert (shard_count s1 <= 1) as Hc1.
  { unfold s1. destruct (create_tables_env (lock_keys s [d]) s) as (_ & E & _). by rewrite E. }
  cbn [apply_loop fst]. unfold row_matches_shard. rewrite zle_true by done. cbn [negb orb].
  by rewrite (apply_one_same d d').
Qed.

Lemma of_lobby_same lid d d' : same_change d d' ->
  match of_lobby lid d, of_lobby lid d' with Some a, Some a' => same_change a a' | None, None => True | _, _ => False end.
Proof.
  intros Hs. pose proof Hs as (Et & _). unfold of_lobby. rewrite Et.
  destruct (parse_lobby_key (table_name d)) as [[l logical]|]; [|done]. destruct (beq l lid); [|done].
  destruct Hs as (_ & Ek & Ho). split; [done|]. split; [exact Ek|exact Ho].
Qed.

Lemma apply_delta_same now d d' ts : same_change d d' -> unsharded ts ->
  apply_delta max_blob now d' ts = apply_delta max_blob now d ts.
Proof.
  intros Hs [Hr Hl]. pose proof Hs as (Et & _). unfold apply_delta, apply_delta_batch, apply_delta_batch_versioned.
  cbn [List.filter]. unfold lobbies_of. cbn [omap list_omap]. unfold is_global. rewrite Et.
  destruct (parse_lobby_key (table_name d)) as [[lid logical]|] eqn:E.
  - rewrite bool_decide_eq_false_2 by done.
    assert (on_root (batch_inner max_blob now [] []) ts = (Ok [], {| root := root ts; lobbies := lobbies ts; blob_file := blob_file ts |}))
      as -> by reflexivity.
    cbn [fmap option_fmap option_map omap list_omap fst].
    assert (remove_dups [lid] = [lid]) as -> by reflexivity. cbn [batch_lobbies omap list_omap].
    pose proof (of_lobby_same lid d d' Hs) as Ho. unfold on_lobby, lobby_store. cbn [root lobbies blob_file].
    change (default _ (lobbies ts !! lid)) with (lobby_store ts lid).
    destruct (of_lobby lid d) as [a|], (of_lobby lid d') as [a'|]; try done.
    by rewrite (batch_same now a a' (lobby_store ts lid, blob_file ts) Ho (Hl lid)).
  - rewrite bool_decide_eq_true_2 by done. cbn [fmap option_fmap option_map remove_dups]. unfold on_root.
    by rewrite (batch_same now d d' (root ts, blob_file ts) Hs Hr).
Qed.

(** *** The shard count of a store does not change *)

Lemma foldl_keeps {A B C} (f : A -> B -> A) (p : A -> C) l a :
  (forall a b, p (f a b) = p a) -> p (foldl f a l) = p a.
Proof. intros Hf. revert a. induction l as [|b l IH]; intros a; [done|]. cbn. by rewrite IH, Hf. Qed.

Lemma evict_from_count name n s : shard_count (evict_from name n s) = shard_count s.
Proof.
  unfold evict_from. apply (foldl_keeps _ shard_count). intros s' key. unfold evict_one.
  by destruct (tables s' !! name).
Qed.

Lemma evict_count l s : shard_count (evict l s) = shard_count s.
Proof.
  unfold evict. destruct (lru s); [|done]. destruct (eviction_policy s) as [|cap|cap]; [done| |].
  - apply (foldl_keeps _ shard_count). intros s' name. case_match; [apply evict_from_count|done].
  - case_match; [|done]. apply (foldl_keeps _ shard_count). intros s' name. case_match; [done|apply evict_from_count].
Qed.

Lemma batch_count now ds rv sd : shard_count (snd (batch_inner max_blob now ds rv sd)).1 = shard_count sd.1.
Proof.
  destruct sd as [s file]. unfold batch_inner. destruct ds as [|d ds]; [done|].
  set (s1 := foldl _ s _). assert (Hc : shard_count s1 = shard_count s).
  { unfold s1. by destruct (create_tables_env (lock_keys s (d :: ds)) s) as (_ & E & _). }
  destruct (occ_check s1 _ rv); [|done]. destruct (apply_loop _ _ _ _ _ _) as [r [s2 f2]] eqn:E.
  apply apply_loop_frame in E as (_ & E & _). change (shard_count s2 = shard_count s1) in E.
  destruct r; cbn [fst snd]; [rewrite evict_count|]; congruence.
Qed.

Lemma on_lobby_unsharded {A} lid (f : SD -> A * SD) ts : (forall sd, shard_count (snd (f sd)).1 = shard_count sd.1) ->
  unsharded ts -> unsharded (snd (on_lobby lid f ts)).
Proof.
  intros Hf [Hr Hl]. unfold on_lobby. specialize (Hf (lobby_store ts lid, blob_file ts)).
  destruct (f _) as [a [s file]]. cbn in Hf |- *. split; [done|]. intros lid'. cbn.
  unfold lobby_store. cbn. destruct (decide (lid' = lid)) as [->|].
  - rewrite lookup_insert_eq. cbn. rewrite Hf. apply Hl.
  - rewrite lookup_insert_ne by done. specialize (Hl lid'). unfold lobby_store in Hl. by destruct (lobbies ts !! lid').
Qed.

Lemma on_root_unsharded {A} (f : SD -> A * SD) ts : (forall sd, shard_count (snd (f sd)).1 = shard_count sd.1) ->
  unsharded ts -> unsharded (snd (on_root f ts)).
Proof.
  intros Hf [Hr Hl]. unfold on_root. specialize (Hf (root ts, blob_file ts)).
  destruct (f _) as [a [s file]]. cbn in Hf |- *. split; [cbn; by rewrite Hf|]. intros lid. specialize (Hl lid).
  unfold lobby_store in *. cbn. by destruct (lobbies ts !! lid).
Qed.

Lemma batch_lobbies_unsharded now lids ds rv res ts : unsharded ts ->
  unsharded (snd (batch_lobbies max_blob now lids ds rv res ts)).
Proof.
  revert res ts. induction lids as [|lid lids IH]; intros res ts Hu; [done|]. cbn [batch_lobbies].
  match goal with |- context [on_lobby lid ?f ts] => pose proof (on_lobby_unsharded lid f ts ltac:(intros sd; apply batch_count) Hu) as Hu';
    destruct (on_lobby lid f ts) as [[r|e] ts'] end; [by apply IH|done].
Qed.

Lemma apply_delta_unsharded now d ts : unsharded ts -> unsharded (snd (apply_delta max_blob now d ts)).
Proof.
  intros Hu. unfold apply_delta, apply_delta_batch, apply_delta_batch_versioned.
  match goal with |- context [on_root ?f ts] => pose proof (on_root_unsharded f ts ltac:(intros sd; apply batch_count) Hu) as Hu';
    destruct (on_root f ts) as [[r|e] ts'] end; [|done].
  pose proof (batch_lobbies_unsharded now (lobbies_of [d]) [d] [] r ts' Hu') as Hb.
  by destruct (batch_lobbies _ _ _ _ _ _ _) as [r' ts''].
Qed.

Lemma apply_deltas_same now ds ds' ts : Forall2 same_change ds ds' -> unsharded ts ->
  apply_deltas max_blob now ds' ts = apply_deltas max_blob now ds ts.
Proof.
  intros Hf. revert now ts. induction Hf as [|d d' ds ds' Hd _ IH]; intros now ts Hu; [done|]. cbn [apply_deltas].
  rewrite (apply_delta_same (now 0%nat) d d' ts Hd Hu). pose proof (apply_delta_unsharded (now 0%nat) d ts Hu) as Hu'.
  destruct (apply_delta max_blob (now 0%nat) d ts) as [[r|e] ts']; [by apply IH|done].
Qed.

Lemma all_cross ds : Forall committed ds ->
  Forall2 same_change ds (wire_to_row_deltas (row_deltas_to_wire ds)).
Proof.
  induction 1 as [|d ds Hd _ IH]; [constructor|]. unfold wire_to_row_deltas, row_deltas_to_wire in *. cbn.
  destruct (crossed d Hd) as (d' & -> & Hs). by constructor.
Qed.

(** What a commit did here it does at a peer: the deltas of a commit, written as the wire
    payload, read back and applied to a node that is not split into shards, leave it as
    applying them directly would, with the same result; and every delta of the commit is in
    the payload. (On a node of a sharded cluster this fails: [peer_drops_other_shards].) *)
Theorem deltas_apply_at_peer now ds from json p ts : Forall committed ds -> unsharded ts ->
  payload_to_vec {| from_shard := from; w_deltas := row_deltas_to_wire ds |} = Some json ->
  parse_delta_payload json = Ok p ->
  length (wire_to_row_deltas (w_deltas p)) = length ds /\
  apply_deltas max_blob now (wire_to_row_deltas (w_deltas p)) ts = apply_deltas max_blob now ds ts.
Proof.
  intros Hd Hu Hj Hp. unfold parse_delta_payload in Hp. rewrite (payload_round _ _ Hj) in Hp.
  injection Hp as <-. pose proof (all_cross ds Hd) as Hf. cbn [w_deltas].
  split; [symmetry; by eapply Forall2_length|by apply apply_deltas_same].
Qed.
End Deltas.

(** ** Migration *)

Section Migrations.
Context `{Serde}.
Variable others : nat -> TableStore -> TableStore.

End Migrations.

(** ** Examples and witnesses *)

#[local] Existing Instances demo_serde demo_laws.

Definition opt_value (o : option Bytes) : Value := match o with Some s => Str s | None => Null end.
Definition value_opt (v : Value) : option Bytes := match v with Str s => Some s | _ => None end.
Definition wire_value (w : WireDelta) : Value := Array [Str (w_table w); Str (w_row_key w); Str (w_op w); opt_value (data_b64 w)].
Definition value_wire (v : Value) : option WireDelta :=
  match v with
  | Array [Str t; Str k; Str op; d] => Some {| w_table := t; w_row_key := k; w_op := op; data_b64 := value_opt d |}
  | _ => None
  end.
Definition payload_of (v : Value) : option DeltaPayload :=
  match v with
  | Array (Num (PosInt n) :: ws) => Some {| from_shard := n; w_deltas := omap value_wire ws |}
  | _ => None
  end.
#[local] Instance demo_peer_codec : PeerCodec :=
  {| b64_encode b := b; b64_decode := Ok;
     payload_to_vec p := Some (enc_value (Array (Num (PosInt (from_shard p)) :: map wire_value (w_deltas p))));
     payload_from_slice b := match dec_value b ≫= payload_of with Some p => Ok p | None => Err (bs "bad") end |}.

#[local] Instance demo_peer_laws : PeerCodecLaws.
Proof.
  split; [done|]. intros [n ws] b [= <-]. cbn. rewrite <- (app_nil_r (enc_value _)), dec_enc_value. cbn. do 2 f_equal.
  induction ws as [|w ws IH]; [done|]. cbn. rewrite IH. destruct w as [t k op []]; done.
Qed.

Definition ok_reply : HttpReply := Answered true [] [].
Definition no_reply : HttpReply := Failed (bs "timeout").

Definition one_peer : ClusterBus :=
  bus_new (config_from_env (fun n => if beq n (bs "VOLTRA_PEERS") then Some (bs "shard1=http://b:1") else None) 0 2).

Lemma health_follows_answers_witness :
  map n_shard_id (healthy_peers (pinged 9 1 [ok_reply; no_reply; no_reply; no_reply] one_peer)) = [] /\
  exists e', peers (pinged 9 1 [no_reply; no_reply; no_reply; ok_reply] one_peer) !! 1 = Some e' /\
    healthy (health e') = true.
Proof.
  split; [reflexivity|].
  destruct (health_follows_answers 9 1 [no_reply; no_reply; no_reply; ok_reply] one_peer
    (peer_new {| n_shard_id := 1; metrics_url := bs "http://b:1" |}) eq_refl eq_refl) as [(e' & E & _ & Hh) _].
  exists e'. split; [exact E|exact Hh].
Defined.

Definition cluster_rows : TableStore :=
  snd (set_row 1000 (bs "items") (bs "sword") (demo_row 7)
    (snd (set_row 1000 (bs "players") (bs "ann") (demo_row 1)
      (snd (set_row 1000 (bs "players") (bs "bob") (demo_row 2) (table_store_new NoEviction [])))))).

Definition change (op k : string) (v : option Value) : RowDelta :=
  {| table_name := bs "players"; operation := bs op; row_key := bs k; d_row_id := 4; d_shard_id := 1;
     payload_arc := None; row_data := v; counter_add_amount := 0; counter_add_timestamp := 0 |}.
Definition no_time (_ _ : nat) : Z := 0.

Lemma deltas_apply_at_peer_witness :
  let ds := [change "update" "ann" (Some (demo_row 5)); change "delete" "bob" None] in
  apply_deltas 1000 no_time (wire_to_row_deltas (row_deltas_to_wire ds)) cluster_rows
  = apply_deltas 1000 no_time ds cluster_rows.
Proof.
  set (ds := [_; _]).
  set (p := {| from_shard := 0; w_deltas := row_deltas_to_wire ds |}).
  refine (proj2 (deltas_apply_at_peer 1000 no_time ds 0 (default [] (payload_to_vec p)) p cluster_rows _ _ _ _)).
  - constructor; [right; split; [right; reflexivity|]; exists (demo_row 5), (enc_value (demo_row 5))|].
    { split; [reflexivity|]. split; reflexivity. }
    constructor; [left; reflexivity|constructor].
  - split; [vm_compute; discriminate|]. intros lid. unfold lobby_store.
    assert (lobbies cluster_rows = ∅) as -> by (by vm_compute). rewrite lookup_empty. vm_compute. discriminate.
  - reflexivity.
  - unfold parse_delta_payload. erewrite payload_round by reflexivity. reflexivity.
Defined.

Definition cluster_node : Migration :=
  {| coord := migration_idle; m_ring := {| inner := demo_ring; poisoned := false |}; m_tables := cluster_rows; m_moment := 0; posts := [] |}.

(** Another thread that deletes a row of another table, again and again. *)
Definition no_one (_ : nat) (ts : TableStore) : TableStore := ts.
Definition sword_thief (_ : nat) (ts : TableStore) : TableStore := snd (delete_row (bs "items") (bs "sword") ts).

Lemma thief_lists ts k : lists ts (bs "players") k -> lists (sword_thief 0 ts) (bs "players") k.
Proof.
  intros (l & v & Hl & Hin). exists l, v. split; [|done]. rewrite <- Hl. unfold sword_thief, delete_row, list_rows_with_keys, route.
  change (parse_lobby_key (bs "items")) with (@None (Bytes * Bytes)). change (parse_lobby_key (bs "players")) with (@None (Bytes * Bytes)).
  cbv iota. unfold on_root, reads, delete_row_unlocked. cbn [fst snd root blob_file].
  destruct (tables (root ts) !! bs "items") as [tb|] eqn:E; [|done]. unfold list_rows_with_keys_in. f_equal.
  unfold own_rows, table_of. cbn [tables set_tables]. by rewrite lookup_insert_ne.
Qed.

Lemma thief_spares : spared sword_thief (bs "players") (bs "bob").
Proof.
  split; [|intros i ts; apply thief_lists]. intros i ts. unfold sword_thief. cbn [fst snd]. by rewrite delete_row_of, decide_False.
Qed.


(** ** Where the code falls short *)

(** A retry that fails puts its own payload back and drops the rest of the batch it had taken
    from the queue. *)
Lemma retry_loses_the_rest :
  let s := {| bus := one_peer; queues := {[1 := [bs "a"; bs "b"; bs "c"]]} |} in
  let '(tasks, s) := drain_all_peers s in
  tasks = [(1, [bs "a"; bs "b"; bs "c"])] /\
  queues (retry_batch 1 [bs "a"; bs "b"; bs "c"] (fun _ _ => no_reply) s) !! 1 = Some [bs "a"].
Proof. vm_compute. auto. Qed.

(** Deliveries run side by side: the peer of two commits to one row can end with the first. *)
Lemma fanout_reorders :
  let put n := wire_to_row_deltas (row_deltas_to_wire [change "update" "ann" (Some (demo_row n))]) in
  let peer := snd (apply_deltas 1000 no_time (put 1) (snd (apply_deltas 1000 no_time (put 2) cluster_rows))) in
  let here := snd (apply_deltas 1000 no_time (put 2) (snd (apply_deltas 1000 no_time (put 1) cluster_rows))) in
  row_of here (bs "players") (bs "ann") <> row_of peer (bs "players") (bs "ann").
Proof. vm_compute. discriminate. Qed.

(** Deltas off the wire carry shard 0: a node of another shard answers that it has applied
    them and stores nothing. *)
Lemma peer_drops_other_shards :
  let d := wire_to_row_deltas (row_deltas_to_wire [change "update" "ann" (Some (demo_row 5))]) in
  let ts := set_shard 1 2 (table_store_new NoEviction []) in
  let '(r, ts') := apply_deltas 1000 no_time d ts in
  r = Ok tt /\ total_row_count ts' = 0.
Proof. vm_compute. auto. Qed.

(** A payload with a bad delta leaves the deltas before it applied, and nobody is told. *)
Lemma peer_deltas_half_applied :
  let d := [change "update" "ann" (Some (demo_row 5)); change "upsert" "bob" None] in
  let '(r, ts) := apply_deltas 1000 no_time d cluster_rows in
  r = Err (unlisted (bs "upsert")) /\
  row_of ts (bs "players") (bs "ann") <> row_of cluster_rows (bs "players") (bs "ann").
Proof. vm_compute. split; [reflexivity|discriminate]. Qed.

(** The rows of a tenant's table are counted, never sent, and stay where nothing routes: the
    name is split at its first colon. *)
Definition tenant_rows : TableStore :=
  snd (set_row 1000 (bs "tn:acme:players") (bs "p1") (demo_row 1) (table_store_new NoEviction [])).
Lemma tenant_rows_stay :
  let m' := start_rebalance no_one 1 2 (bs "asia") (bs "europe") 200 (fun _ => ok_reply)
    {| coord := migration_idle; m_ring := {| inner := demo_ring; poisoned := false |}; m_tables := tenant_rows; m_moment := 0; posts := [] |} in
  status (coord m') = Complete /\ total_keys (coord m') = 1 /\ posts m' = [] /\
  total_row_count (m_tables m') = 1 /\ shared_get_cluster (m_ring m') (bs "tn:acme:players:p1") = Some (bs "asia").
Proof. vm_compute. auto. Qed.

(** A row whose key belonged to another cluster is sent all the same, from whatever node holds
    a copy. *)
Lemma migrates_what_it_does_not_own :
  get_cluster demo_ring (flat_key (bs "players", bs "bob")) = Some (bs "europe") /\
  map (fun p => map mr_key (mb_rows p.1))
    (posts (start_rebalance no_one 1 2 (bs "asia") (bs "africa") 200 (fun _ => ok_reply) cluster_node)) = [[bs "bob"]].
Proof. by vm_compute. Qed.

(** A write that comes between the reading of a row and its deletion is gone: neither here nor
    at the new cluster. *)
Definition writer (moment : nat) (score : Z) (i : nat) (ts : TableStore) : TableStore :=
  if Nat.eqb i moment then snd (set_row 1000 (bs "players") (bs "bob") (demo_row score) ts) else ts.
Lemma write_during_migration_lost :
  let m' := start_rebalance (writer 4 99) 1 2 (bs "asia") (bs "europe") 200 (fun _ => ok_reply) cluster_node in
  map (fun p => map mr_data (mb_rows p.1)) (posts m') = [[stamp 0 (bs "players") (bs "bob") (demo_row 2)]] /\
  row_of (m_tables m') (bs "players") (bs "bob") = Ok None.
Proof. by vm_compute. Qed.

(** A row that others delete first is not in the request, and the deletions take as many keys as
    the request has rows from the front of the chunk: a row that was sent stays. *)
Definition deleter (moment : nat) (k : Bytes) (i : nat) (ts : TableStore) : TableStore :=
  if Nat.eqb i moment then snd (delete_row (bs "players") k ts) else ts.
Definition two_rows : TableStore :=
  snd (set_row 1000 (bs "players") (bs "dan") (demo_row 1)
    (snd (set_row 1000 (bs "players") (bs "bob") (demo_row 2) (table_store_new NoEviction [])))).
Lemma sent_row_stays :
  let m' := start_rebalance (deleter 2 (bs "dan")) 1 2 (bs "asia") (bs "europe") 200 (fun _ => ok_reply)
    {| coord := migration_idle; m_ring := {| inner := demo_ring; poisoned := false |}; m_tables := two_rows; m_moment := 0; posts := [] |} in
  map (fun p => map mr_key (mb_rows p.1)) (posts m') = [[bs "bob"]] /\
  row_of (m_tables m') (bs "players") (bs "bob") = Ok (Some (stamp 0 (bs "players") (bs "bob") (demo_row 2))).
Proof. by vm_compute. Qed.

(** A migration all of whose batches were refused is complete. *)
Lemma refused_is_complete :
  let m' := start_rebalance no_one 1 2 (bs "asia") (bs "europe") 200 (fun _ => no_reply) cluster_node in
  status (coord m') = Complete /\ migrated_keys (coord m') = 0 /\ failed_keys (coord m') = 1.
Proof. vm_compute. auto. Qed.

(** With a ring, the builtin answers the hash of the owner's name, which is no shard a call can
    be passed on to. *)
Lemma ring_owner_is_no_shard :
  cluster_shard_for_key (Some {| inner := demo_ring; poisoned := false |}) (Some (bs "2")) (bs "player:1") = 9687.
Proof. by vm_compute. Qed.

(** When the server stops, jobs meant for other regions are written here. *)
Lemma shutdown_writes_everything_here :
  let job := {| home_region := bs "asia"; j_table := bs "players"; j_key := bs "zoe"; j_data := demo_row 1 |} in
  let r := regions_from_env (Some (bs "europe")) (Some (bs "asia=ws://a|http://a")) in
  total_row_count (snd (flush_tick 1000 r [job] (table_store_new NoEviction []))) = 0 /\
  total_row_count (snd (flush_shutdown 1000 [job] (table_store_new NoEviction []))) = 1.
Proof. vm_compute. auto. Qed.
