(* ===== verification/WorkerFacts.v ===== *)
(** * Workers: what is answered is committed and logged once, calls end, nothing is lost

    Every interleaving of the workers of src/worker_pool.rs and src/app/bootstrap.rs: the
    accounts of calls, commits, sequence numbers and log entries; the end of every call; and
    the rows under reducers that read, compute and write. *)

From S2P Require Import Prelude Util Json JsonCodec Errors Schema Table TableIndex TableBatch TableReads SubQuery Subscriptions Tenant Reducer ReducerFacts Wal Cluster SubFacts ClusterFacts Worker.

(** ** Workers as a collection *)

Lemma of_workers_at {A} (f : Worker -> option A) m i w : m !! i = Some w ->
  of_workers f m ≡ₚ option_list (f w) ++ of_workers f (delete i m).
Proof.
  intros Hw. unfold of_workers. rewrite <- (map_to_list_delete m i w Hw). cbn. by destruct (f w).
Qed.

Lemma of_workers_fresh {A} (f : Worker -> option A) m i w : m !! i = None ->
  of_workers f (<[i := w]> m) ≡ₚ option_list (f w) ++ of_workers f m.
Proof. intros Hw. unfold of_workers. rewrite (map_to_list_insert m i w Hw). cbn. by destruct (f w). Qed.

Lemma of_workers_set {A} (f : Worker -> option A) m i w' :
  of_workers f (<[i := w']> m) ≡ₚ option_list (f w') ++ of_workers f (delete i m).
Proof.
  rewrite <- insert_delete_eq. apply of_workers_fresh. apply lookup_delete_eq.
Qed.

Lemma of_workers_none {A} (f : Worker -> option A) m : (forall i w, m !! i = Some w -> f w = None) -> of_workers f m = [].
Proof.
  intros Hn. unfold of_workers. assert (Hf : Forall (fun w => f w = None) (map_to_list m).*2).
  { apply Forall_fmap, Forall_forall. intros [i w] Hw. apply elem_of_map_to_list in Hw. by eapply Hn. }
  induction Hf as [|w l Hw _ IH]; [done|]. cbn. by rewrite Hw.
Qed.

(** What moves between the events and the workers: [given] is produced by an event, [gone]
    takes it away, and a worker holds it in between. *)
Section Flow.
Context {A : Type}.
Variables (given gone : Event -> option A) (kept : Worker -> option A).

Definition balanced (evs : list Event) (w w' : Worker) : Prop :=
  option_list (kept w) ++ omap given evs = omap gone evs ++ option_list (kept w').

Lemma flow_step m evs0 evs i w w' : m !! i = Some w -> balanced evs w w' ->
  omap given evs0 ≡ₚ omap gone evs0 ++ of_workers kept m ->
  omap given (evs0 ++ evs) ≡ₚ omap gone (evs0 ++ evs) ++ of_workers kept (<[i := w']> m).
Proof.
  intros Hw Hb IH. rewrite !omap_app, IH, (of_workers_at kept m i w Hw), of_workers_set.
  unfold balanced in Hb. rewrite <- !(assoc_L (++)). f_equiv.
  transitivity ((option_list (kept w) ++ omap given evs) ++ of_workers kept (delete i m)); [solve_Permutation|].
  by rewrite Hb, (assoc_L (++)).
Qed.
End Flow.

(** ** The accounts of one step *)

Definition seq_of (e : Event) : option Z := match e with Logs _ e _ => Some (sequence_number (header e)) | _ => None end.
Definition logged_call (e : Event) : option PendingCall := match e with Logs c _ _ => Some c | _ => None end.

Section Facts.
Context `{Serde} `{Lowercase} `{MsgCodec} `{Zstd} `{PeerCodec} `{WalCodec}.
Variable max_blob : Z.
Variable registry : Bytes -> option (Bytes -> Code).
Variable schemas : SchemaRegistry.
Variable tenants : TenantRegistry.
#[local] Abbreviation turn := (turn max_blob registry tenants).
#[local] Abbreviation sys_step := (sys_step max_blob registry schemas tenants).
#[local] Abbreviation runs := (runs max_blob registry schemas tenants).
Implicit Types (w : Worker) (n : Node) (evs : list Event) (s : System).

#[local] Arguments entry_of : simpl never.
#[local] Arguments append : simpl never.

(** The commands that the entries of the events put on the channel of the log. *)
Definition commands_of evs : list FlushCommand :=
  omap (fun e => e ← channel_of e; match append e (sequence_number (header e)) with Ok c => Some c | Err _ => None end) evs.

Record accounts evs w n w' n' : Prop := {
  acc_commits : balanced committed_of logged_of held evs w w';
  acc_calls : balanced took_of answered_of awaited evs w w';
  acc_numbers : balanced number_of seq_of number_held evs w w';
  acc_answers : omap succeeded_of evs = omap logged_call evs;
  acc_seq : (omap number_of evs = [] /\ global_seq n' = global_seq n) \/
            (omap number_of evs = [global_seq n] /\ global_seq n' = wrap_u64 (global_seq n + 1));
  acc_channel : wal_channel n' = wal_channel n ++ commands_of evs;
  acc_lost : kind w' = kind w /\ (omap lost_of evs <> [] -> exists r, phase w = Run r /\ r_detached r = true) }.

(** A step that only changes what a worker is running. *)
Lemma silent_accounts w n w' n' : held w' = held w -> awaited w' = awaited w -> number_held w' = number_held w ->
  global_seq n' = global_seq n -> wal_channel n' = wal_channel n -> kind w' = kind w -> accounts [] w n w' n'.
Proof.
  intros Eh Ea En Eg Ec Ek. constructor; unfold balanced; cbn; rewrite ?Eh, ?Ea, ?En, ?app_nil_r; auto. by split.
Qed.

Lemma fail_accounts w n r a w' n' evs : phase w = Run r -> succeeded a = false -> forall w1 n1,
  kind w1 = kind w -> global_seq n1 = global_seq n -> wal_channel n1 = wal_channel n ->
  fail w1 n1 r a = (w', n', evs) -> accounts evs w n w' n'.
Proof.
  intros Hp Ha w1 n1 Hk Hg Hc. unfold fail. destruct (r_detached r) eqn:Hd; intros [= <- <- <-].
  - apply silent_accounts; unfold held, awaited, number_held; rewrite ?Hp, ?Hd; done.
  - constructor; unfold balanced, held, awaited, number_held; cbn; rewrite ?Hp, ?Hd, ?Ha, ?app_nil_r; auto. by split.
Qed.

Lemma entry_header c ts seq ds : sequence_number (header (entry_of c ts seq ds)) = seq /\
  deltas (payload (entry_of c ts seq ds)) = ds.
Proof. unfold entry_of. by destruct (tx_batch c). Qed.

Lemma answer_succeeds c results : succeeded (answer_of c results) = true.
Proof. unfold answer_of. by destruct (tx_batch c). Qed.

Lemma commit_accounts env w n r w' n' evs : phase w = Run r ->
  commit_turn max_blob registry tenants env w n r = (w', n', evs) -> accounts evs w n w' n'.
Proof.
  intros Hp. unfold commit_turn. destruct (commit_step _ _ _ _ _) as [[g|[ds|e]] [x ts]].
  - intros [= <- <- <-]. apply silent_accounts; unfold held, awaited, number_held; by rewrite ?Hp.
  - destruct (r_detached r) eqn:Hd; intros [= <- <- <-]; constructor; unfold balanced, held, awaited, number_held; cbn;
      rewrite ?Hp, ?Hd, ?app_nil_r; auto; split; try done; eauto.
  - destruct (_ && _); [|by eapply fail_accounts].
    intros [= <- <- <-]. apply silent_accounts; unfold held, awaited, number_held; by rewrite ?Hp.
Qed.

Lemma run_accounts env w n r w' n' evs : phase w = Run r ->
  run_turn max_blob registry tenants env w n r = (w', n', evs) -> accounts evs w n w' n'.
Proof.
  intros Hp. unfold run_turn. destruct (r_code r) as [[name [[b|e]|A a k]]|].
  - intros [= <- <- <-]. apply silent_accounts; unfold held, awaited, number_held; by rewrite ?Hp.
  - unfold reducer_failed. destruct (tx_batch _); [by eapply fail_accounts|].
    eapply fail_accounts; [done..|by destruct (kind w) eqn:Ek|done|done].
  - destruct (perform a _) as [v [x ts]]. intros [= <- <- <-].
    apply silent_accounts; unfold held, awaited, number_held; by rewrite ?Hp.
  - destruct (r_rest r) as [|[name a] rest]; [by apply commit_accounts|].
    intros [= <- <- <-]. apply silent_accounts; unfold held, awaited, number_held; by rewrite ?Hp.
Qed.

Lemma log_accounts env w n c ts results ds seq w' n' evs : phase w = Numbered c ts results ds seq ->
  log_turn env w n c ts results ds seq = (w', n', evs) -> accounts evs w n w' n'.
Proof.
  intros Hp. unfold log_turn. destruct (entry_header c ts seq ds) as [Hs Hds].
  set (m := match append _ _ with Ok cmd => _ | Err _ => _ end).
  assert (Hm : global_seq m.1 = global_seq n /\
    wal_channel m.1 = wal_channel n ++ commands_of [Logs c (entry_of c ts seq ds) m.2]).
  { subst m. unfold commands_of. destruct (append _ _) eqn:Ea; [destruct (e_room env)|]; cbn; rewrite ?Hs, ?Ea; by rewrite ?app_nil_r. }
  destruct m as [n1 ok]. cbn [fst snd] in Hm. destruct Hm as [Hg Hc]. intros [= <- <- <-].
  assert (Hk : forall w1, kind w1 = kind w -> kind (enter Idle w1) = kind w) by done.
  constructor; unfold balanced, held, awaited, number_held; cbn; rewrite ?Hp, ?answer_succeeds, ?Hs, ?Hds; auto.
  all: split; [|done]; destruct (kind w) eqn:Ek; by try destruct (tx_batch c).
Qed.

Lemma turn_accounts env w n w' n' evs : turn env w n = Some (w', n', evs) -> accounts evs w n w' n'.
Proof.
  unfold Worker.turn. destruct (phase w) as [|r|c ts res ds|c ts res ds|c ts res ds seq] eqn:Hp; [done|..].
  - intros [= Hr]. by eapply run_accounts.
  - unfold publish_turn. destruct ds as [|d ds].
    + intros [= <- <- <-]. apply silent_accounts; unfold held, awaited, number_held; by rewrite ?Hp.
    + destruct (publish_deltas _ _); [|done]. intros [= <- <- <-].
      apply silent_accounts; unfold held, awaited, number_held; by rewrite ?Hp.
  - intros [= <- <- <-]. constructor; unfold balanced, held, awaited, number_held; cbn; rewrite ?Hp, ?app_nil_r; auto. by split.
  - intros [= Hl]. by eapply log_accounts.
Qed.

Lemma take_accounts env c w n w' n' evs : phase w = Idle -> take registry schemas env c w n = (w', n', evs) ->
  accounts evs w n w' n'.
Proof.
  intros Hp. unfold take. destruct (replica n); intros [= <- <- <-]; constructor;
    unfold balanced, held, awaited, number_held; cbn; rewrite ?Hp, ?app_nil_r; auto; by split.
Qed.

Lemma expire_accounts w n r w' n' evs : phase w = Run r -> r_detached r = false -> expire w n r = (w', n', evs) ->
  accounts evs w n w' n'.
Proof.
  intros Hp Hd [= <- <- <-]. constructor; unfold balanced, held, awaited, number_held; cbn; rewrite ?Hp, ?Hd, ?app_nil_r; auto. by split.
Qed.

(** ** The accounts of a run *)

(** The sequence numbers handed out, from [start] on. *)
Definition numbers (start : Z) (count : nat) : list Z := map (fun i => wrap_u64 (start + Z.of_nat i)) (seq 0 count).

Lemma numbers_snoc start count : numbers start (S count) = numbers start count ++ [wrap_u64 (start + Z.of_nat count)].
Proof. unfold numbers. by rewrite seq_S, map_app. Qed.

Definition idle s : Prop := forall i w, workers s !! i = Some w -> phase w = Idle.
Definition no_one_detached s : Prop := forall i w r, workers s !! i = Some w -> phase w = Run r -> r_detached r = false.

Record books s0 evs s : Prop := {
  b_commits : omap committed_of evs ≡ₚ omap logged_of evs ++ of_workers held (workers s);
  b_calls : omap took_of evs ≡ₚ omap answered_of evs ++ of_workers awaited (workers s);
  b_numbers : omap number_of evs ≡ₚ omap seq_of evs ++ of_workers number_held (workers s);
  b_answers : omap succeeded_of evs = omap logged_call evs;
  b_seq : omap number_of evs = numbers (global_seq (node s0)) (length (omap number_of evs)) /\
          global_seq (node s) = wrap_u64 (global_seq (node s0) + zlen (omap number_of evs));
  b_channel : wal_channel (node s) = wal_channel (node s0) ++ commands_of evs }.

Lemma commands_app evs1 evs2 : commands_of (evs1 ++ evs2) = commands_of evs1 ++ commands_of evs2.
Proof. apply omap_app. Qed.

(** One worker's step carries the books on. *)
Lemma books_step s0 evs0 s i w w' n' evs : books s0 evs0 s -> workers s !! i = Some w -> accounts evs w (node s) w' n' ->
  books s0 (evs0 ++ evs) {| node := n'; workers := <[i := w']> (workers s) |}.
Proof.
  intros [Bc Bt Bn Ba [Bs Bg] Bw] Hw [Ac At An Aa As Aw _]. constructor; cbn.
  - by eapply flow_step.
  - by eapply flow_step.
  - by eapply flow_step.
  - by rewrite !omap_app, Ba, Aa.
  - rewrite omap_app, length_app. destruct As as [[-> ->]|[-> ->]].
    + rewrite app_nil_r, Nat.add_0_r. by split.
    + rewrite Bg. cbn [length]. rewrite Nat.add_1_r, numbers_snoc, <- Bs. split; [done|].
      rewrite Nat2Z.inj_succ. unfold wrap_u64. rewrite Zplus_mod_idemp_l. f_equal. lia.
  - by rewrite commands_app, Aw, Bw, (assoc_L (++)).
Qed.

Lemma books_kept s0 evs s i w : books s0 evs s -> workers s !! i = None -> held w = None -> awaited w = None ->
  number_held w = None -> books s0 evs {| node := node s; workers := <[i := w]> (workers s) |}.
Proof.
  intros [Bc Bt Bn Ba Bs Bw] Hi E1 E2 E3. constructor; cbn; rewrite ?of_workers_fresh, ?E1, ?E2, ?E3 by done; done.
Qed.

Lemma runs_books s0 evs s : idle s0 -> is_u64 (global_seq (node s0)) -> runs s0 evs s -> books s0 evs s.
Proof.
  intros Hi Hu Hr. induction Hr as [|evs s1 evs' s2 _ IH Hs].
  - assert (Hn : forall A (f : Worker -> option A), (forall w, phase w = Idle -> f w = None) -> of_workers f (workers s0) = []).
    { intros A f Hf. apply of_workers_none. intros i w Hw. by eapply Hf, Hi. }
    constructor; cbn; rewrite ?Hn; try done; try (intros w Hp; unfold held, awaited, number_held; by rewrite Hp).
    + split; [done|]. unfold wrap_u64. rewrite Z.add_0_r, Z.mod_small; [done|apply Hu].
    + by rewrite app_nil_r.
  - destruct Hs as [s1 i w env c w' n' evs' Hw Hp Ht|s1 i w env w' n' evs' Hw Ht|s1 i w r j w' n' evs' Hw Hp Hk Hsg Hd Hj Ht|s1 m b].
    + eapply books_step; [exact IH|exact Hw|]. by eapply take_accounts.
    + eapply books_step; [exact IH|exact Hw|]. by eapply turn_accounts.
    + pose proof (books_step _ _ _ i w w' n' _ IH Hw (expire_accounts _ _ _ _ _ _ Hp Hd Ht)) as IH2.
      assert (Hij : i <> j) by congruence.
      apply (books_kept _ _ _ j _ IH2); [cbn; by rewrite lookup_insert_ne|done..].
    + rewrite app_nil_r. destruct IH as [Bc Bt Bn Ba Bs Bw]. by constructor.
Qed.

(** C12: the accounts of the workers, in every interleaving: each call taken is answered once
    or still awaited; each commit of a call that its worker still waits for is held by the
    worker or has been handed to the log once, with its deltas; success is answered exactly
    for the calls whose entry was handed to the log, in the same order; the sequence numbers
    are handed out without gaps and each entry has its own; the channel of the log holds, in
    that order, exactly the entries handed over that it accepted. Not covered: a call that
    timed out may still commit, and its commit is never logged (timed_out_call_commits); an
    entry that the log does not accept is lost though its call succeeds (full_log_succeeds). *)
Theorem calls_accounted s0 evs s : idle s0 -> is_u64 (global_seq (node s0)) -> runs s0 evs s ->
  omap took_of evs ≡ₚ omap answered_of evs ++ of_workers awaited (workers s) /\
  omap committed_of evs ≡ₚ omap logged_of evs ++ of_workers held (workers s) /\
  omap succeeded_of evs = omap logged_call evs /\
  omap number_of evs = numbers (global_seq (node s0)) (length (omap number_of evs)) /\
  omap number_of evs ≡ₚ omap seq_of evs ++ of_workers number_held (workers s) /\
  wal_channel (node s) = wal_channel (node s0) ++ commands_of evs.
Proof. intros Hi Hu Hr. destruct (runs_books s0 evs s Hi Hu Hr) as [Bc Bt Bn Ba [Bs _] Bw]. by split_and!. Qed.

(** ** One worker *)

(** A lobby's worker alone logs in the order of its commits: what is logged, and what it
    holds, is what it committed, entry by entry. *)
Theorem one_worker_logs_in_order s0 evs s i w : workers s0 = {[i := w]} -> phase w = Idle -> kind w = Lobby -> runs s0 evs s ->
  exists w', workers s = {[i := w']} /\ omap committed_of evs = omap logged_of evs ++ option_list (held w').
Proof.
  intros Hw Hp Hk Hr.
  enough (exists w', workers s = {[i := w']} /\ kind w' = Lobby /\ omap committed_of evs = omap logged_of evs ++ option_list (held w'))
    as (w' & ? & _ & ?) by by exists w'.
  induction Hr as [|evs s1 evs' s2 _ (w1 & Hw1 & Hk1 & IH) Hs].
  - exists w. split_and!; [done..|]. cbn. unfold held. by rewrite Hp.
  - assert (Hone : forall j v, workers s1 !! j = Some v -> j = i /\ v = w1).
    { intros j v Hv. rewrite Hw1 in Hv. by apply lookup_singleton_Some in Hv as [-> ->]. }
    assert (Hgo : forall v' n', accounts evs' w1 (node s1) v' n' -> exists w', <[i := v']> (workers s1) = {[i := w']} /\
      kind w' = Lobby /\ omap committed_of (evs ++ evs') = omap logged_of (evs ++ evs') ++ option_list (held w')).
    { intros v' n' [Ac _ _ _ _ _ [Ek _]]. exists v'. split_and!.
      - rewrite Hw1. apply insert_singleton_eq.
      - congruence.
      - unfold balanced in Ac. by rewrite !omap_app, IH, <- (assoc_L (++)), Ac, (assoc_L (++)). }
    destruct Hs as [s1 j v env c v' n' evs' Hj Hq Ht|s1 j v env v' n' evs' Hj Ht|s1 j v r j' v' n' evs' Hj Hq Hpool Hsg Hd Hfr Ht|s1 m b];
      try (destruct (Hone _ _ Hj) as [-> ->]).
    + eapply Hgo, take_accounts; eauto.
    + eapply Hgo, turn_accounts; eauto.
    + congruence.
    + exists w1. by rewrite !omap_app, !app_nil_r.
Qed.

(** ** Every call ends *)

Definition follows (w' w : Worker) : Prop := exists env n n' evs, turn env w n = Some (w', n', evs).

Lemma ends w : (forall w', follows w' w -> Acc follows w') -> Acc follows w.
Proof. intros Hw. by constructor. Qed.

Lemma idle_ends w : phase w = Idle -> Acc follows w.
Proof. intros Hp. apply ends. intros w' (env & n & n' & evs & Ht). unfold Worker.turn in Ht. by rewrite Hp in Ht. Qed.

Lemma numbered_ends w c ts res ds seq : phase w = Numbered c ts res ds seq -> Acc follows w.
Proof.
  intros Hp. apply ends. intros w' (env & n & n' & evs & Ht). unfold Worker.turn in Ht. rewrite Hp in Ht.
  injection Ht as Ht. apply idle_ends. unfold log_turn in Ht.
  destruct (match append _ _ with Ok _ => _ | Err _ => _ end). by injection Ht as <- _ _.
Qed.

Lemma published_ends w c ts res ds : phase w = Published c ts res ds -> Acc follows w.
Proof.
  intros Hp. apply ends. intros w' (env & n & n' & evs & Ht). unfold Worker.turn in Ht. rewrite Hp in Ht.
  injection Ht as <- _ _. by eapply numbered_ends.
Qed.

Lemma committed_ends w c ts res ds : phase w = Committed c ts res ds -> Acc follows w.
Proof.
  intros Hp. apply ends. intros w' (env & n & n' & evs & Ht). unfold Worker.turn in Ht. rewrite Hp in Ht.
  unfold publish_turn in Ht. destruct ds as [|d ds]; [by injection Ht as <- _ _; eapply published_ends|].
  destruct (publish_deltas _ _); [|done]. injection Ht as <- _ _. by eapply published_ends.
Qed.

Lemma fail_idle w n r a w' n' evs : fail w n r a = (w', n', evs) -> phase w' = Idle.
Proof. unfold fail. destruct (r_detached r); by intros [= <- _ _]. Qed.

(** The guards of a commit come to an end: tables are counted and writes looked at one by one. *)
Definition guard_after (g' g : Stage) : Prop := exists now cts cts', commit_step max_blob tenants now g cts = (inl g', cts').

Lemma policies_end l : forall keys, Acc guard_after (AtPolicies l keys).
Proof.
  induction l as [|d l IH]; intros keys; constructor; intros g' (now & [c ts] & cts' & Hg).
  - destruct keys; cbn [commit_step] in Hg; [|done]. by destruct (commit_batch _ _ _).
  - cbn [commit_step] in Hg. destruct (denies _ _ _ _) as [[o|e] ts']; [|done]. injection Hg as <- _. apply IH.
Qed.

Lemma counting_ends names : forall total, Acc guard_after (Counting names total).
Proof.
  induction names as [|name names IH]; intros total; constructor; intros g' (now & [c ts] & cts' & Hg); cbn [commit_step] in Hg.
  - destruct (quota_error _ _ _ _); [done|]. injection Hg as <- _. apply policies_end.
  - destruct (count_table _ _ _) as [z ts']. injection Hg as <- _. apply IH.
Qed.

Lemma guards_end g : Acc guard_after g.
Proof.
  destruct g; [|apply counting_ends|apply policies_end]. constructor. intros g' (now & [c ts] & cts' & Hg).
  cbn [commit_step] in Hg. injection Hg as <- _.
  destruct (tenant_id c); [destruct (_ <? _)|]; [apply counting_ends|apply policies_end..].
Qed.

(** A turn of a commit passes a guard, ends the call, or leaves one attempt fewer. *)
Lemma commit_follows env w n r w' n' evs : commit_turn max_blob registry tenants env w n r = (w', n', evs) ->
  (exists x g, phase w' = Run (to_stage r x g) /\ guard_after g (r_stage r)) \/
  (exists r', phase w' = Run r' /\ (r_attempt r < MAX_CONFLICT_RETRIES)%nat /\ r_attempt r' = S (r_attempt r)) \/
  (exists c ts res ds, phase w' = Committed c ts res ds) \/ phase w' = Idle.
Proof.
  unfold commit_turn. destruct (commit_step _ _ _ _ _) as [[g|[ds|e]] [x ts]] eqn:Ec.
  - intros [= <- _ _]. left. exists x, g. split; [done|]. by do 3 eexists.
  - destruct (r_detached r); intros [= <- _ _]; right; right; [by right|left]. by do 4 eexists.
  - destruct (_ && (r_attempt r <? MAX_CONFLICT_RETRIES)%nat) eqn:Hc; [|intros Hf; right; right; right; by eapply fail_idle].
    intros [= <- _ _]. right. left. apply andb_prop in Hc as [_ Hc%Nat.ltb_lt]. by eexists.
Qed.

Definition attempts_left (r : Running) : nat := (MAX_CONFLICT_RETRIES - r_attempt r)%nat.

(** A worker that is running with so many attempts left and these calls to follow ends. *)
Definition ends_with (left : nat) (rest : list (Bytes * Bytes)) (code : option (Bytes * Code)) : Prop := forall w r,
  r_code r = code -> r_rest r = rest -> (attempts_left r <= left)%nat -> phase w = Run r -> Acc follows w.

Lemma run_follows env w n r w' n' evs : phase w = Run r -> turn env w n = Some (w', n', evs) ->
  run_turn max_blob registry tenants env w n r = (w', n', evs).
Proof. unfold Worker.turn. intros ->. by intros [= ->]. Qed.

Lemma some_ends left rest name : ends_with left rest None -> forall code, ends_with left rest (Some (name, code)).
Proof.
  intros Hn. induction code as [[b|e]|A a k IH]; intros w r Hc Hr Hl Hp; apply ends; intros w' (env & n & n' & evs & Ht);
    apply (run_follows _ _ _ _ _ _ _ Hp) in Ht; unfold run_turn in Ht; rewrite Hc in Ht.
  - injection Ht as <- _ _. by eapply (Hn _ (go_on r _ None _ (r_rest r))).
  - apply idle_ends. unfold reducer_failed in Ht. destruct (tx_batch _); by eapply fail_idle.
  - destruct (perform a _) as [v [x ts]]. injection Ht as <- _ _.
    by eapply (IH v _ (go_on r x (Some (name, k v)) _ (r_rest r))).
Qed.

Lemma none_ends left : (forall left', (left' < left)%nat -> forall rest code, ends_with left' rest code) ->
  forall rest, ends_with left rest None.
Proof.
  intros IH. induction rest as [|[name a] rest IHr]; intros w r Hc Hr Hl Hp.
  - remember (r_stage r) as g eqn:Hg. induction (guards_end g) as [g _ IHg] in w, r, Hc, Hr, Hl, Hp, Hg |- *.
    apply ends; intros w' (env & n & n' & evs & Ht); apply (run_follows _ _ _ _ _ _ _ Hp) in Ht; unfold run_turn in Ht; rewrite Hc, Hr in Ht.
    apply commit_follows in Ht as [(x & g' & Hp' & Hn)|[(r' & Hp' & Hlt & Ha)|[(c & ts & res & ds & Hp')|Hp']]];
      [|..|by eapply committed_ends|by apply idle_ends].
    + subst g. by eapply (IHg g' Hn w' (to_stage r x g')).
    + unfold attempts_left in Hl. eapply (IH (attempts_left r')); [unfold attempts_left; lia|reflexivity..|apply Nat.le_refl|exact Hp'].
  - apply ends; intros w' (env & n & n' & evs & Ht); apply (run_follows _ _ _ _ _ _ _ Hp) in Ht; unfold run_turn in Ht; rewrite Hc, Hr in Ht.
    injection Ht as <- _ _. by eapply (some_ends left rest name IHr _ _ (go_on r _ (Some (name, execute registry name a)) _ rest)).
Qed.

Lemma run_ends : forall left rest code, ends_with left rest code.
Proof.
  induction left as [left IH] using lt_wf_ind. intros rest [[name code]|]; [apply some_ends|]; by apply none_ends.
Qed.

(** A list of moves is a run. *)
Lemma move_step m s evs s' : move max_blob registry schemas tenants m s = Some (evs, s') -> sys_step s evs s'.
Proof.
  destruct m as [i env c|i env|i j]; cbn; destruct (workers s !! i) as [w|] eqn:Hw; cbn; try done.
  - destruct (phase w) eqn:Hp; try done. destruct (take _ _ _ _ _ _) as [[w' n'] evs'] eqn:Ht. intros [= <- <-].
    by eapply step_take.
  - destruct (turn env w (node s)) as [[[w' n'] evs']|] eqn:Ht; cbn; [|done]. intros [= <- <-]. by eapply step_turn.
  - destruct (phase w) as [|r| | |] eqn:Hp; try done. destruct (kind w) eqn:Hk; [|done].
    destruct (workers s !! j) eqn:Hj; [done|]. destruct (_ && _) eqn:Hc; [|done]. intros [= <- <-].
    apply andb_prop in Hc as [? Hd%negb_true_iff]. by eapply step_expire.
Qed.

Lemma drive_runs ms : forall s0 evs s evs' s', runs s0 evs s -> drive max_blob registry schemas tenants ms evs s = Some (evs', s') ->
  runs s0 evs' s'.
Proof.
  induction ms as [|m ms IH]; cbn; intros s0 evs s evs' s' Hr; [by intros [= <- <-]|].
  destruct (move _ _ _ _ m s) as [[evs1 s1]|] eqn:Em; cbn; [|done]. apply IH. eapply runs_step; [done|]. by eapply move_step.
Qed.

(** Without ticks, telling the deltas stops at one of them: a subscriber's channel is full, and
    the publisher waits for the lock it holds itself. *)
Definition stuck_on_full_channel ds m : Prop := tick_enabled m = false /\ exists ds1 d ds2 m1,
  ds = ds1 ++ d :: ds2 /\ publish_loop ds1 m = Some m1 /\ publish_one d m1 = None.

Lemma publish_loop_stuck ds : forall m, publish_loop ds m = None -> exists ds1 d ds2 m1,
  ds = ds1 ++ d :: ds2 /\ publish_loop ds1 m = Some m1 /\ publish_one d m1 = None.
Proof.
  induction ds as [|d ds IH]; intros m; [done|]. cbn [publish_loop]. destruct (publish_one d m) as [m'|] eqn:E; cbn [mbind option_bind].
  - intros (ds1 & d' & ds2 & m1 & -> & Hl & Ho)%IH. exists (d :: ds1), d', ds2, m1. split; [done|]. cbn [publish_loop]. by rewrite E.
  - intros _. by exists [], d, ds, m.
Qed.

Lemma publish_stuck ds m : publish_deltas ds m = None -> stuck_on_full_channel ds m.
Proof.
  unfold publish_deltas, publish_now. destruct (bool_decide _) eqn:Eb; [done|]. destruct (tick_enabled m) eqn:Et; [done|]. rewrite ?Eb.
  intros Hl. split; [done|]. by apply publish_loop_stuck.
Qed.

(** An idle worker is the only one without a turn, but for one that is stuck so. *)
Lemma turn_taken env w n : phase w <> Idle ->
  (exists w' n' evs, turn env w n = Some (w', n', evs)) \/
  exists c ts res ds, phase w = Committed c ts res ds /\ stuck_on_full_channel ds (subs n).
Proof.
  intros Hp. unfold Worker.turn. destruct (phase w) as [|r|c ts res ds|c ts res ds|c ts res ds seq]; [done|..].
  - destruct (run_turn _ _ _ env w n r) as [[w' n'] evs] eqn:E. left. by do 3 eexists.
  - unfold publish_turn. destruct ds as [|d ds]; [left; by do 3 eexists|].
    destruct (publish_deltas (d :: ds) (subs n)) eqn:E; [left; by do 3 eexists|right; do 4 eexists; split; [done|by apply publish_stuck]].
  - left. by do 3 eexists.
  - destruct (log_turn env w n c ts res ds seq) as [[w' n'] evs] eqn:E. left. by do 3 eexists.
Qed.

(** C13: whatever a worker is doing, its turns come to an end: after finitely many of them,
    whatever the other workers do in between, it is idle again, since reducers make finitely
    many calls, a commit has finitely many guards and a conflict is tried again 63 times at
    most. Until it is idle it has a turn, with one exception: without subscription ticks, a
    worker that has committed and tells the subscribers is stuck for good at a delta for a
    subscriber whose channel is full. Reducers that panic (the process ends) or run for ever
    are outside the model. *)
Theorem calls_end w : Acc follows w /\ forall env n, phase w <> Idle ->
  (exists w' n' evs, turn env w n = Some (w', n', evs)) \/
  exists c ts res ds, phase w = Committed c ts res ds /\ stuck_on_full_channel ds (subs n).
Proof.
  split; [|intros env n; apply turn_taken].
  destruct (phase w) as [|r|c ts res ds|c ts res ds|c ts res ds seq] eqn:Hp.
  - by apply idle_ends.
  - by eapply run_ends.
  - by eapply committed_ends.
  - by eapply published_ends.
  - by eapply numbered_ends.
Qed.

End Facts.

(** ** Reducers that read a row, compute and write it *)

Section ReadModifyWrite.
Variables n k : Bytes.
Variable f : Bytes -> Value -> Value.

Definition after_put (r : result VoltraError RowDelta) : Code :=
  match r with Ok _ => Return (Ok []) | Err e => Return (Err e) end.
Definition after_read (a : Bytes) (r : result VoltraError (option Value)) : Code :=
  match r with
  | Ok (Some v) => Invoke (PutRow n k (f a v)) after_put
  | Ok None => Return (Err (RowNotFound k))
  | Err e => Return (Err e)
  end.
Definition read_modify_write (a : Bytes) : Code := Invoke (AskRow n k) (after_read a).
End ReadModifyWrite.

(** ** A small world

    The store of TableIndex, whose table [t] has the row [a] with the score 10, and a reducer
    that adds the length of its arguments to that score. *)

#[local] Existing Instances demo_serde demo_laws SubFacts.demo_lower SubFacts.demo_zstd SubFacts.demo_codec demo_peer_codec Wal.demo_codec.

Definition score_of (v : Value) : Z := match get_field v (bs "score") with Some (Num (PosInt z)) => z | _ => 0 end.
Definition demo_add (a : Bytes) (v : Value) : Value := demo_row (wrap_u64 (score_of v + zlen a)).
Definition demo_registry (name : Bytes) : option (Bytes -> Code) :=
  if beq name (bs "add") then Some (read_modify_write (bs "t") (bs "a") demo_add) else None.
Definition demo_tenants : TenantRegistry := {| key_index := ∅; tenants := ∅; buckets := ∅ |}.
Definition demo_bus : Fanout :=
  {| bus := bus_new {| enabled := false; my_shard_id := 0; cc_shard_count := 1; cc_peers := []; cluster_secret := None;
                       gossip_interval_ms := 1000; http_timeout_ms := 1000 |}; queues := ∅ |}.
Definition demo_node : Node :=
  {| store := demo_t3; subs := manager_new false; bus_state := demo_bus; posts := []; wal_channel := []; global_seq := 1;
     replica := false; calls_total := 0; errors_total := 0; wal_entries_total := 0 |}.
Definition demo_worker (kd : Kind) : Worker := {| kind := kd; stats := stats_new; phase := Idle |}.
Definition demo_system (l : list Kind) : System :=
  {| node := demo_node; workers := list_to_map (imap (fun i kd => (i, demo_worker kd)) l) |}.
Definition demo_env : TurnEnv := {| e_ts := 7; e_now := fun _ => 9; e_room := true; e_latency := 5 |}.
Definition demo_call (id : Z) (a : Bytes) : PendingCall :=
  {| call_id := id; reducer_name := bs "add"; args := a; p_caller_id := bs "alice"; p_caller_role := bs "user";
     p_tenant_id := None; lobby_hint := None; tx_batch := None |}.

Definition turns (i : nat) (k : nat) : list Move := replicate k (MTurn i demo_env).
Definition demo_drive (ms : list Move) (s : System) : option (list Event * System) :=
  drive 1000 demo_registry ∅ demo_tenants ms [] s.

(** Two workers read the row before either commits: the second commit conflicts and its call
    is run again. *)
Definition demo_race : list Move :=
  MTake 0 demo_env (demo_call 1 (bs "xx")) :: MTake 1 demo_env (demo_call 2 (bs "yyy")) ::
  turns 0 2 ++ turns 1 2 ++ turns 0 4 ++ turns 1 13 ++ turns 0 3.

Lemma demo_idle l : idle (demo_system l).
Proof.
  intros i w Hw. apply elem_of_list_to_map_2, list_elem_of_lookup in Hw as [j Hj].
  rewrite list_lookup_imap in Hj. destruct (l !! j); [|done]. by injection Hj as _ <-.
Qed.

Definition demo_end (ms : list Move) (l : list Kind) : list Event * System :=
  default ([], demo_system l) (demo_drive ms (demo_system l)).

Lemma demo_runs ms l : demo_drive ms (demo_system l) <> None ->
  runs 1000 demo_registry ∅ demo_tenants (demo_system l) (demo_end ms l).1 (demo_end ms l).2.
Proof.
  unfold demo_end, demo_drive. destruct (drive _ _ _ _ _ _ _) as [[evs s]|] eqn:E; [intros _|done].
  eapply drive_runs; [apply runs_none|exact E].
Qed.

Definition demo_score (ts : TableStore) : option Value :=
  match TableReads.row_of ts (bs "t") (bs "a") with Ok (Some v) => get_field v (bs "score") | _ => None end.

Lemma calls_accounted_witness :
  let '(evs, s) := demo_end demo_race [Pool; Pool] in
  omap committed_of evs ≡ₚ omap logged_of evs ++ of_workers held (workers s).
Proof.
  pose proof (calls_accounted 1000 demo_registry ∅ demo_tenants (demo_system [Pool; Pool])
    (demo_end demo_race [Pool; Pool]).1 (demo_end demo_race [Pool; Pool]).2 (demo_idle _)) as Hc.
  destruct Hc as (_ & Hc & _); [by vm_compute|by apply demo_runs; vm_compute|].
  by destruct (demo_end _ _).
Defined.

(** ** What the workers do not keep *)

Definition answers (evs : list Event) : list Answer := omap (fun e => match e with Answers _ a => Some a | _ => None end) evs.

(** Two commits to a row, and their numbers and entries the other way round: live, the row has
    what the second commit wrote; recovered from the log, what the first wrote. *)
Lemma log_order_not_commit_order :
  let '(evs, s) := demo_end demo_race [Pool; Pool] in
  demo_score (store (node s)) = Some (Num (PosInt 15)) /\ forallb succeeded (answers evs) = true /\
  demo_score (snd (recover_loop 1000 (fun _ => 9) 0 (omap channel_of evs) 0 0 demo_t3)) = Some (Num (PosInt 12)).
Proof. vm_compute. auto. Qed.

(** The pool gives up waiting for a call and answers that it timed out; its task goes on and
    commits. The row changes, no subscriber is told, and the log never has it. *)
Lemma timed_out_call_commits :
  let '(evs, s) := demo_end (MTake 0 demo_env (demo_call 1 (bs "xx")) :: MTurn 0 demo_env :: MExpire 0 1 :: turns 1 5) [Pool] in
  answers evs = [TimedOut] /\ demo_score (store (node s)) = Some (Num (PosInt 12)) /\
  wal_channel (node s) = [] /\ global_seq (node s) = 1 /\
  omap (fun e => snd <$> lost_of e) evs <> [].
Proof. vm_compute. split_and!; done. Qed.

(** The channel of the log is full: the entry is dropped and the call succeeds. *)
Definition full_env : TurnEnv := {| e_ts := 7; e_now := fun _ => 9; e_room := false; e_latency := 5 |}.
Lemma full_log_succeeds :
  let '(evs, s) := demo_end (MTake 0 demo_env (demo_call 1 (bs "xx")) :: replicate 9 (MTurn 0 full_env)) [Pool] in
  answers evs = [Success []] /\ demo_score (store (node s)) = Some (Num (PosInt 12)) /\
  wal_channel (node s) = [] /\ map phase (of_workers Some (workers s)) = [Idle].
Proof. vm_compute. auto. Qed.

(** The worker of a lobby runs the call of a tenant on the tables of everyone; the pool on the
    tables of the tenant, which have no such row. *)
Definition tenant_call : PendingCall :=
  {| call_id := 1; reducer_name := bs "add"; args := bs "xx"; p_caller_id := bs "tenant:acme"; p_caller_role := bs "tenant";
     p_tenant_id := Some (bs "acme"); lobby_hint := Some (bs "7"); tx_batch := None |}.
Lemma lobby_worker_forgets_tenant :
  let run k n := let '(evs, s) := demo_end (MTake 0 demo_env tenant_call :: turns 0 n) [k] in
                 (answers evs, demo_score (store (node s))) in
  run Lobby 9%nat = ([Success []], Some (Num (PosInt 12))) /\
  run Pool 2%nat = ([Failed (RowNotFound (bs "a"))], Some (Num (PosInt 10))).
Proof. vm_compute. auto. Qed.

(** A transaction is not tried again after a conflict, though a call by itself is. *)
Definition batch_call : PendingCall :=
  {| call_id := 2; reducer_name := []; args := []; p_caller_id := bs "bob"; p_caller_role := bs "user";
     p_tenant_id := None; lobby_hint := None; tx_batch := Some [(bs "add", bs "y")] |}.
Lemma transactions_not_retried :
  let '(evs, s) := demo_end (MTake 0 demo_env (demo_call 1 (bs "xx")) :: MTake 1 demo_env batch_call :: turns 1 4 ++ turns 0 6 ++ turns 1 3) [Pool; Pool] in
  is_conflict (match answers evs with CommitError e :: _ => e | _ => RowNotFound [] end) = true /\
  demo_score (store (node s)) = Some (Num (PosInt 12)).
Proof. vm_compute. auto. Qed.

(** A lobby's statistics count a call that its reducer refuses as an error, but neither as an
    error nor as a call one whose commit is refused. *)
Definition denied_schemas : SchemaRegistry :=
  {[bs "t" := {| schema_name := bs "t"; primary_key := None; columns := []; rls := OwnerField (bs "owner") |}]}.
Definition drop_registry (name : Bytes) : option (Bytes -> Code) :=
  if beq name (bs "drop") then Some (fun _ => Invoke (DropRow (bs "t") (bs "a")) after_put) else None.
Definition drop_call (name : Bytes) : PendingCall :=
  {| call_id := 3; reducer_name := name; args := []; p_caller_id := bs "bob"; p_caller_role := bs "user";
     p_tenant_id := None; lobby_hint := Some (bs "7"); tx_batch := None |}.
Lemma refused_commits_not_counted :
  let run name k :=
    match drive 1000 drop_registry denied_schemas demo_tenants (MTake 0 demo_env (drop_call name) :: turns 0 k) [] (demo_system [Lobby]) with
    | Some (evs, s) => (forallb succeeded (answers evs), errors_total (node s),
                        map (fun w => (calls (stats w), errors (stats w))) (of_workers Some (workers s)))
    | None => (true, 0, [])
    end in
  run (bs "drop") 5%nat = (false, 1, [(0, 0)]) /\ run (bs "lost") 1%nat = (false, 1, [(0, 1)]).
Proof. vm_compute. auto. Qed.

(** Two calls each read the rows [a] and [b] and clear one of them if the other is above
    zero: run one after the other, one row stays; run at once, both commit and none does. *)
Definition clear_unless (other mine : Bytes) : Code :=
  Invoke (AskRow (bs "t") other) (fun r1 => Invoke (AskRow (bs "t") mine) (fun _ =>
    match r1 with
    | Ok (Some v) => if 0 <? score_of v then Invoke (PutRow (bs "t") mine (demo_row 0)) after_put else Return (Ok [])
    | _ => Return (Ok [])
    end)).
Definition skew_registry (name : Bytes) : option (Bytes -> Code) :=
  if beq name (bs "a") then Some (fun _ => clear_unless (bs "b") (bs "a"))
  else if beq name (bs "b") then Some (fun _ => clear_unless (bs "a") (bs "b")) else None.
Lemma write_skew :
  let scores ms := match drive 1000 skew_registry ∅ demo_tenants ms [] (demo_system [Pool; Pool]) with
                   | Some (evs, s) => (answers evs, map (fun k => match TableReads.row_of (store (node s)) (bs "t") k with
                                                                  | Ok (Some v) => score_of v | _ => 0 end) [bs "a"; bs "b"])
                   | None => ([], [])
                   end in
  let take i name := MTake i demo_env (drop_call name) in
  scores (take 0%nat (bs "a") :: turns 0 10 ++ take 1%nat (bs "b") :: turns 1 8) = ([Success []; Success []], [0; 9]) /\
  scores (take 0%nat (bs "a") :: take 1%nat (bs "b") :: turns 0 3 ++ turns 1 3 ++ turns 0 7 ++ turns 1 7) = ([Success []; Success []], [0; 0]).
Proof. vm_compute. auto. Qed.
