(* ===== verification/Replication.v ===== *)
(** * Replicas and backups (src/replication/mod.rs, src/backup.rs, their routes in src/admin.rs)

    A replica polls its primary for the entries of its log, applies them to its own tables,
    tells its subscribers, and logs them itself; it refuses calls until it is promoted. A
    backup is a snapshot and a copy of the log. What travels between the servers is a JSON
    body; a directory is a map from names to files, and its operations do not fail. *)

From S2P Require Import Prelude SubFacts ClusterFacts WorkerFacts Util Json JsonCodec Errors Aof Table TableIndex TableBatch TableFacts Subscriptions Wal WalFacts Cluster ClusterHttp Recovery Worker.

(** ** The primary *)

(** Strings of an answer, in order; what is not a string is passed over. *)
Definition strings_of (v : Value) : list Bytes :=
  match v with Array l => omap (fun x => match x with Str s => Some s | _ => None end) l | _ => [] end.
Definition as_u64 (v : Value) : option Z := match v with Num (PosInt z) => Some z | _ => None end.

(** [IS_REPLICA] is a field of the node. *)
Record Rep := { rp_node : Node; rp_last : Z; rp_lag : Z }.

Definition with_subs (m : SubscriptionManager) (n : Node) : Node :=
  {| store := store n; subs := m; bus_state := bus_state n; posts := posts n; wal_channel := wal_channel n;
     global_seq := global_seq n; replica := replica n; calls_total := calls_total n;
     errors_total := errors_total n; wal_entries_total := wal_entries_total n |}.
(** The log's channel, without the count of the metrics. *)
Definition with_log (l : list FlushCommand) (n : Node) : Node :=
  {| store := store n; subs := subs n; bus_state := bus_state n; posts := posts n; wal_channel := l;
     global_seq := global_seq n; replica := replica n; calls_total := calls_total n;
     errors_total := errors_total n; wal_entries_total := wal_entries_total n |}.
Definition with_role (b : bool) (n : Node) : Node :=
  {| store := store n; subs := subs n; bus_state := bus_state n; posts := posts n; wal_channel := wal_channel n;
     global_seq := global_seq n; replica := b; calls_total := calls_total n;
     errors_total := errors_total n; wal_entries_total := wal_entries_total n |}.

(** What the answer to a poll is: a body, one that is no JSON, another status, or none. *)
Inductive Reply : Type := Body (v : Value) | BadBody | HttpError | Unreachable.

(** The loop between two awaits. *)
Inductive Loop : Type := LIdle | LWaiting (from_seq : Z) | LStopped.

Record Config := { auto_failover : bool; failover_miss_count : Z }.
Record RepSys := { sy_rep : Rep; sy_loop : Loop; sy_misses : Z }.

Section Replication.
Context `{Serde} `{Lowercase} `{MsgCodec} `{Zstd} `{PeerCodec} `{WalCodec}.
Variable max_blob : Z.

(** [serve_wal_entries]: of the log, if there is one, what is after [from_seq]. *)
Definition serve_wal_entries (wal : option Bytes) (from_seq : Z) (max : nat) : list WalEntry * Z :=
  match wal with
  | None => ([], from_seq)
  | Some file =>
      let all := read_all_entries file in
      let last_seq := match map (fun e => sequence_number (header e)) all with [] => from_seq | s :: ss => foldl Z.max s ss end in
      (firstn max (List.filter (fun e => from_seq <? sequence_number (header e)) all), last_seq)
  end.

Definition encode_entries (es : list WalEntry) : list Bytes := omap (fun e => b64_encode <$> entry_to_vec e) es.
Definition decode_entries (l : list Bytes) : list WalEntry :=
  omap (fun s => b ← ok_opt (b64_decode s); entry_from_slice b) l.

(** The parameters of the query string; the last of a name counts. *)
Definition split_pair (s : Bytes) : option (Bytes * Bytes) := split_once 61 s.
Definition wal_params (query : Bytes) : Z * Z :=
  foldl (fun (p : Z * Z) pair =>
    match split_pair pair with
    | Some (k, v) =>
        if beq k (bs "from_seq") then (default 0 (parse_u64_str v), p.2)
        else if beq k (bs "max") then (p.1, Z.min (Z.max (default 2048 (parse_u64_str v)) 1) 8192)
        else p
    | None => p
    end) (0, 2048) (split_byte 38 query).

(** GET /replication/wal *)
Definition get_wal (query : Bytes) (wal : option Bytes) : Response :=
  let '(from_seq, max) := wal_params query in
  let '(es, last_seq) := serve_wal_entries wal from_seq (Z.to_nat max) in
  json_response (obj [(bs "entries", Array (map Str (encode_entries es))); (bs "last_seq", Num (PosInt last_seq))]).

(** ** The replica *)

(** One batch: what was applied moves [last]; a delta that fails leaves its entry half done. The
    log's channel may have no room, by the number of the entry; [None] is a panic of a filter. *)
Variable now : nat -> Z.
Variable room : Z -> bool.

Definition log_entry (e : WalEntry) (n : Node) : Node :=
  match append e (sequence_number (header e)) with
  | Ok cmd => if room (sequence_number (header e)) then with_log (wal_channel n ++ [cmd]) n else n
  | Err _ => n
  end.

Fixpoint apply_entries (es : list WalEntry) (last applied : Z) (n : Node) : option (Z * Z * Node) :=
  match es with
  | [] => Some (last, applied, n)
  | e :: es' =>
      let seq := sequence_number (header e) in
      if (seq <=? last) || negb (verify_checksum e) then apply_entries es' last applied n
      else match replay_deltas max_blob now (deltas (payload e)) (store n) with
           | (Err _, ts) => apply_entries es' last applied (with_store ts n)
           | (Ok _, ts) =>
               m ← match deltas (payload e) with [] => Some (subs n) | ds => publish_deltas ds (subs n) end;
               apply_entries es' seq (applied + 1) (log_entry e (with_subs m (with_store ts n)))
           end
  end.

(** The counter of the node stays ahead of what was applied. *)
Definition fetch_max (z : Z) (n : Node) : Node := with_seq (Z.max (global_seq n) z) n.

Definition apply_replicated_entries (es : list WalEntry) (r : Rep) : option (Z * Rep) :=
  '(last, applied, n) ← apply_entries es (rp_last r) 0 (rp_node r);
  Some (applied, {| rp_node := fetch_max (wrap_u64 (last + 1)) n; rp_last := last; rp_lag := rp_lag r |}).

Definition set_replica (b : bool) (r : Rep) : Rep := {| rp_node := with_role b (rp_node r); rp_last := rp_last r; rp_lag := rp_lag r |}.

(** A body that is JSON: its entries, and how far behind this leaves the replica. *)
Definition on_body (v : Value) (r : Rep) : option Rep :=
  let encoded := default [] (strings_of <$> get_field v (bs "entries")) in
  let primary_last := default 0 (get_field v (bs "last_seq") ≫= as_u64) in
  r ← match encoded with [] => Some r | _ => snd <$> apply_replicated_entries (decode_entries encoded) r end;
  Some {| rp_node := rp_node r; rp_last := rp_last r; rp_lag := Z.max (primary_last - rp_last r) 0 |}.

(** After an answer; failing over ends the loop. *)
Definition on_reply (c : Config) (a : Reply) (misses : Z) (r : Rep) : option (Loop * Z * Rep) :=
  match a with
  | Body v => r ← on_body v r; Some (LIdle, 0, r)
  | BadBody | HttpError => Some (LIdle, 0, r)
  | Unreachable =>
      let misses := wrap_u32 (misses + 1) in
      if auto_failover c && (Z.max (failover_miss_count c) 1 <=? misses) then
        let r := set_replica false r in
        Some (LStopped, misses, {| rp_node := fetch_max (wrap_u64 (rp_last r + 1)) (rp_node r); rp_last := rp_last r; rp_lag := rp_lag r |})
      else Some (LIdle, misses, r)
  end.

(** The head of the loop: stop when promoted, else ask for what follows the last entry. *)
Definition next_poll (r : Rep) : Loop := if replica (rp_node r) then LWaiting (rp_last r) else LStopped.

(** The query the replica sends. *)
Definition poll_query (from_seq : Z) : Bytes := bs "from_seq=" ++ dec from_seq ++ bs "&max=2048".

(** POST /replication/promote *)
Definition promote (r : Rep) : Response * Rep :=
  (json_response (obj [(bs "promoted", Bool (replica (rp_node r))); (bs "role", Str (bs "primary"));
                       (bs "last_applied_seq", Num (PosInt (rp_last r)))]), set_replica false r).

Definition status_json (r : Rep) : Value :=
  obj [(bs "role", Str (if replica (rp_node r) then bs "replica" else bs "primary"));
       (bs "last_applied_seq", Num (PosInt (rp_last r))); (bs "lag_entries", Num (PosInt (rp_lag r)))].

(** Start of a replica: it goes on from its own log. *)
Definition start_replica (initial_seq : Z) (n : Node) : RepSys :=
  {| sy_rep := {| rp_node := with_role true n; rp_last := Z.max (initial_seq - 1) 0; rp_lag := 0 |}; sy_loop := LIdle; sy_misses := 0 |}.

(** The loop, with promotions from outside at any moment; [says] is what may be answered to a
    request for what follows a number. *)
Inductive rep_step (c : Config) (says : Z -> Reply -> Prop) : RepSys -> RepSys -> Prop :=
| rs_poll r k : rep_step c says {| sy_rep := r; sy_loop := LIdle; sy_misses := k |} {| sy_rep := r; sy_loop := next_poll r; sy_misses := k |}
| rs_reply r k from a l k' r' :
    says from a -> on_reply c a k r = Some (l, k', r') ->
    rep_step c says {| sy_rep := r; sy_loop := LWaiting from; sy_misses := k |} {| sy_rep := r'; sy_loop := l; sy_misses := k' |}
| rs_promote r l k : rep_step c says {| sy_rep := r; sy_loop := l; sy_misses := k |} {| sy_rep := (promote r).2; sy_loop := l; sy_misses := k |}
| rs_shutdown r k : rep_step c says {| sy_rep := r; sy_loop := LIdle; sy_misses := k |} {| sy_rep := r; sy_loop := LStopped; sy_misses := k |}.
End Replication.

(** ** A replica is at a prefix of its primary's commits *)

Section Follow.
Context `{SerdeLaws} `{Lowercase} `{MsgCodec} `{Zstd} `{PeerCodecLaws} `{WalCodecLaws}.
Variable max_blob : Z.
Variable now : nat -> Z.
Variable room : Z -> bool.
Implicit Types (e : WalEntry) (es : list WalEntry) (n : Node) (r : Rep).

#[local] Instance same_image_equiv : Equivalence same_image.
Proof. split; [done|by intros f g E n k|intros f g h E1 E2 n k; by rewrite E1]. Qed.

Definition seq_of e : Z := sequence_number (header e).
Definition all_deltas es : list RowDelta := concat (map (fun e => deltas (payload e)) es).

(** Numbers that rise from [from], and the last of them. *)
Fixpoint rising (from : Z) es : Prop :=
  match es with [] => True | e :: es' => from < seq_of e < U64_MAX /\ rising (seq_of e) es' end.
Definition last_seq (from : Z) es : Z := foldl (fun _ e => seq_of e) from es.

(** An entry that can travel: its checksum is right, it can be encoded, and its deltas are those
    of a commit of shard [sh] outside the lobbies. *)
Definition sound (sh : Z) e : Prop :=
  verify_checksum e = true /\ is_Some (entry_to_vec e) /\ Forall (settled sh) (deltas (payload e)) /\
  Forall (fun c => parse_lobby_key (table_name c) = None) (deltas (payload e)).

Lemma rising_mono es : forall a b, a <= b -> rising b es -> rising a es.
Proof. destruct es as [|e es]; [done|]. intros a b Hab [Hb Hr]. split; [lia|done]. Qed.

Lemma last_seq_app from es es' : last_seq from (es ++ es') = last_seq (last_seq from es) es'.
Proof. apply foldl_app. Qed.

Lemma rising_app es : forall from es', rising from (es ++ es') <-> rising from es /\ rising (last_seq from es) es'.
Proof.
  induction es as [|e es IH]; intros from es'; cbn.
  - split; [by intros Hr|by intros [_ Hr]].
  - rewrite IH. split; [intros (Hf & Hr & Hr'); split; [by split|done]|intros ((Hf & Hr) & Hr'); split; [done|by split]].
Qed.

Lemma last_seq_le es : forall from, rising from es -> from <= last_seq from es.
Proof. induction es as [|e es IH]; intros from Hr; cbn; [lia|]. destruct Hr as [Hf Hr]. specialize (IH _ Hr). cbn in IH. unfold last_seq in *. lia. Qed.

Lemma rising_in es : forall from e, rising from es -> e ∈ es -> from < seq_of e <= last_seq from es.
Proof.
  induction es as [|e0 es IH]; intros from e Hr Hin; [by apply elem_of_nil in Hin|]. destruct Hr as [Hf Hr]. cbn.
  apply elem_of_cons in Hin as [->|Hin]; [pose proof (last_seq_le es _ Hr); unfold last_seq in *; lia|].
  specialize (IH _ e Hr Hin). unfold last_seq in *. lia.
Qed.

Lemma all_kept {A} (p : A -> bool) (l : list A) : Forall (fun x => p x = true) l -> List.filter p l = l.
Proof. induction 1 as [|x l Hx _ IH]; [done|]. cbn. by rewrite Hx, IH. Qed.
Lemma none_kept {A} (p : A -> bool) (l : list A) : Forall (fun x => p x = false) l -> List.filter p l = [].
Proof. induction 1 as [|x l Hx _ IH]; [done|]. cbn. by rewrite Hx. Qed.

(** What is numbered after the first [j] is what comes after them. *)
Lemma after_prefix from es j : rising from es ->
  List.filter (fun e => last_seq from (firstn j es) <? seq_of e) es = drop j es.
Proof.
  intros Hr. set (p := fun e : WalEntry => _). transitivity (List.filter p (firstn j es ++ drop j es)); [by rewrite firstn_skipn|].
  rewrite <- (firstn_skipn j es) in Hr. apply rising_app in Hr as [Hr1 Hr2]. unfold p.
  rewrite List.filter_app, none_kept, all_kept; [done| |].
  - apply Forall_forall. intros e He. destruct (rising_in _ _ e Hr2 He). lia.
  - apply Forall_forall. intros e He. destruct (rising_in _ _ e Hr1 He). lia.
Qed.

(** *** One batch *)

Definition logged e : list FlushCommand :=
  match append e (seq_of e) with Ok cmd => if room (seq_of e) then [cmd] else [] | Err _ => [] end.

Lemma log_entry_channel e n : log_entry room e n = with_log (wal_channel n ++ logged e) n.
Proof.
  unfold log_entry, logged, seq_of. destruct (append _ _); [destruct (room _); [done|]|]; rewrite app_nil_r; by destruct n.
Qed.

(** A node after [es]. *)
Record advanced (sh : Z) es n n' : Prop := {
  ad_base : base sh (store n');
  ad_image : same_image (image (root (store n'))) (puts (all_deltas es) (image (root (store n))));
  ad_log : wal_channel n' = wal_channel n ++ concat (map logged es);
  ad_seq : global_seq n' = global_seq n;
  ad_role : replica n' = replica n }.

Lemma entries_applied sh es : forall last applied n last' applied' n',
  Forall (sound sh) es -> rising last es -> base sh (store n) ->
  apply_entries max_blob now room es last applied n = Some (last', applied', n') ->
  last' = last_seq last es /\ applied' = applied + zlen es /\ advanced sh es n n'.
Proof.
  induction es as [|e es IH]; intros last applied n last' applied' n' Hs Hr Hb Ha.
  { cbn in Ha. injection Ha as <- <- <-. split; [done|]. split; [cbn; lia|]. constructor; [done|done|by rewrite app_nil_r|done|done]. }
  apply Forall_cons in Hs as [(Hv & _ & Hse & Hg) Hs]. destruct Hr as [Hf Hr]. cbn [apply_entries] in Ha. unfold seq_of in Hf.
  rewrite zle_false in Ha by lia. rewrite Hv in Ha. cbn [orb negb] in Ha.
  destruct (replay_all max_blob now sh _ Hse Hg (store n) Hb) as (ts & Hre & Hbts & Hi). rewrite Hre in Ha.
  destruct (match deltas (payload e) with [] => Some (subs n) | _ => _ end) as [m|]; [|done]. cbn [mbind option_bind] in Ha.
  rewrite log_entry_channel in Ha. apply IH in Ha as (-> & -> & [Hb' Hi' Hl Hq Hro]); [|done|done|done].
  split; [done|]. split; [cbn [length]; lia|]. cbn in *. constructor; [done| |by rewrite Hl, <- app_assoc|done|done].
  rewrite Hi'. unfold all_deltas. cbn [map concat]. rewrite puts_app. by apply puts_proper.
Qed.

(** Nobody can make the subscriptions panic when there is no client, or when deltas wait for a tick. *)
Definition calm (m : SubscriptionManager) : Prop := clients m = ∅ \/ tick_enabled m = true.

Lemma publish_calm ds m : calm m -> exists m', publish_deltas ds m = Some m' /\ calm m'.
Proof.
  intros Hc. unfold publish_deltas. case_bool_decide as He; [by exists m|]. destruct (tick_enabled m) eqn:Ht; [|destruct Hc; congruence].
  eexists. split; [done|]. by right.
Qed.

Lemma entries_apply es : forall last applied n, calm (subs n) -> exists last' applied' n',
  apply_entries max_blob now room es last applied n = Some (last', applied', n') /\ calm (subs n').
Proof.
  induction es as [|e es IH]; intros last applied n Hc; [by do 3 eexists|]. cbn [apply_entries].
  destruct (_ || _); [by apply IH|]. destruct (replay_deltas _ _ _ _) as [[u|x] ts]; [|by apply IH].
  assert (Hm : exists m, match deltas (payload e) with [] => Some (subs n) | ds => publish_deltas ds (subs n) end = Some m /\ calm m).
  { destruct (deltas (payload e)) as [|d ds]; [by eexists|by apply publish_calm]. }
  destruct Hm as (m & -> & Hm). cbn [mbind option_bind]. apply IH. by rewrite log_entry_channel.
Qed.

(** *** The wire *)

Lemma sound_kept sh e : sound sh e -> Forall delta_kept (deltas (payload e)).
Proof. intros (_ & _ & Hs & _). by eapply settled_kept. Qed.

Lemma entries_travel sh es : Forall (sound sh) es -> decode_entries (encode_entries es) = es.
Proof.
  induction 1 as [|e es He _ IH]; [done|]. unfold encode_entries, decode_entries in *. cbn [omap list_omap].
  destruct He as (Hv & [b Hb] & Hr). rewrite Hb. cbn [fmap option_fmap option_map omap list_omap]. rewrite b64_round. cbn [ok_opt mbind option_bind].
  rewrite (entry_round e b) by (done || by eapply sound_kept). by rewrite IH.
Qed.

Lemma encode_nil sh es : Forall (sound sh) es -> encode_entries es = [] -> es = [].
Proof.
  destruct 1 as [|e es He Hes]; [done|]. unfold encode_entries. cbn [omap list_omap]. destruct He as (_ & [b ->] & _). by cbn.
Qed.

Lemma split_byte_first sep a b : Forall (fun c => c <> sep) a -> split_byte sep (a ++ sep :: b) = a :: split_byte sep b.
Proof.
  induction 1 as [|c a Hc _ IH]; cbn; [by rewrite Z.eqb_refl|]. destruct (c =? sep) eqn:E; [by apply Z.eqb_eq in E|]. by rewrite IH.
Qed.

(** The primary reads the query as it was meant. *)
Lemma poll_params from : 0 <= from <= U64_MAX -> wal_params (poll_query from) = (from, 2048).
Proof.
  intros Hf. unfold wal_params, poll_query.
  change (bs "from_seq=" ++ dec from ++ bs "&max=2048") with (bs "from_seq=" ++ (dec from ++ 38 :: bs "max=2048")). rewrite app_assoc.
  rewrite split_byte_first.
  - change (split_byte 38 (bs "max=2048")) with [bs "max=2048"]. cbn [foldl].
    assert (Hp : forall t, split_pair (bs "from_seq=" ++ t) = Some (bs "from_seq", t)) by reflexivity. rewrite Hp.
    change (split_pair (bs "max=2048")) with (Some (bs "max", bs "2048")). cbn [fst snd]. change (beq (bs "from_seq") (bs "from_seq")) with true.
    change (beq (bs "max") (bs "from_seq")) with false. change (beq (bs "max") (bs "max")) with true. cbv iota. cbn [fst snd].
    unfold parse_u64_str. rewrite parse_int_dec by lia. done.
  - apply Forall_app. split; [repeat constructor; discriminate|]. unfold dec. rewrite zlt_false by lia.
    eapply Forall_impl; [apply dec_u_digits; lia|]. intros c Hc ->. discriminate.
Qed.

(** What a log shows of the entries after a number: the first of them. It may hold older ones, and
    be torn at its end. *)
Definition after (from : Z) es : list WalEntry := List.filter (fun e => from <? seq_of e) es.
Definition shows es (from : Z) (wal : option Bytes) : Prop :=
  match wal with Some file => exists p, after from (read_all_entries file) = firstn p (after from es) | None => True end.

Lemma serve_shown es from wal max : shows es from wal -> exists q, (serve_wal_entries wal from max).1 = firstn q (after from es).
Proof.
  destruct wal as [file|]; [|by exists 0%nat]. intros [p Hp]. exists (Nat.min max p). unfold serve_wal_entries. cbn [fst].
  change (List.filter _ (read_all_entries file)) with (after from (read_all_entries file)). by rewrite Hp, firstn_firstn.
Qed.

(** What a primary whose commits are [es] may answer. *)
Definition primary_says es (from : Z) (a : Reply) : Prop :=
  match a with Body v => exists wal, shows es from wal /\ v = body (get_wal (poll_query from) wal) | _ => True end.

Lemma body_fields query wal :
  get_field (body (get_wal query wal)) (bs "entries")
  = Some (Array (map Str (encode_entries (serve_wal_entries wal (wal_params query).1 (Z.to_nat (wal_params query).2)).1))) /\
  get_field (body (get_wal query wal)) (bs "last_seq")
  = Some (Num (PosInt (serve_wal_entries wal (wal_params query).1 (Z.to_nat (wal_params query).2)).2)).
Proof. unfold get_wal. destruct (wal_params query) as [f m]. cbn [fst snd]. by destruct (serve_wal_entries wal f (Z.to_nat m)). Qed.

Lemma strings_back l : strings_of (Array (map Str l)) = l.
Proof. unfold strings_of. induction l as [|s l IH]; [done|]. cbn. cbn in IH. by rewrite IH. Qed.

(** *** The replica's state *)

Variable sh : Z.
Variable from0 : Z.                 (* the last number it had at its start *)
Variable n0 : Node.                 (* and its node then *)
Variable es : list WalEntry.        (* what the primary has committed since *)
Hypothesis Hsound : Forall (sound sh) es.
Hypothesis Hrising : rising from0 es.
Hypothesis Hfrom : 0 <= from0 < U64_MAX.

Record follows (j : nat) r : Prop := {
  fo_last : rp_last r = last_seq from0 (firstn j es);
  fo_base : base sh (store (rp_node r));
  fo_image : same_image (image (root (store (rp_node r)))) (puts (all_deltas (firstn j es)) (image (root (store n0))));
  fo_log : wal_channel (rp_node r) = wal_channel n0 ++ concat (map logged (firstn j es));
  fo_seq : rp_last r < global_seq (rp_node r) }.

Lemma last_bound j : 0 <= last_seq from0 (firstn j es) < U64_MAX.
Proof.
  assert (Hr : rising from0 (firstn j es)) by (pose proof Hrising as Hr; rewrite <- (firstn_skipn j es) in Hr; by apply rising_app in Hr as [Hr _]).
  pose proof (last_seq_le _ _ Hr). split; [lia|]. induction (firstn j es) as [|e l _] using rev_ind; [cbn; lia|].
  rewrite last_seq_app. cbn. apply rising_app in Hr as [_ [? _]]. lia.
Qed.

Lemma batch_follows j q r applied r' : follows j r ->
  apply_replicated_entries max_blob now room (firstn q (drop j es)) r = Some (applied, r') ->
  follows (Nat.min (j + q) (length es)) r' /\ replica (rp_node r') = replica (rp_node r).
Proof.
  intros [Hl Hb Hi Hlog Hq] Ha. unfold apply_replicated_entries in Ha.
  destruct (apply_entries _ _ _ _ _ _ _) as [[[last k] n']|] eqn:Hae; [|done]. cbn in Ha. injection Ha as _ <-.
  assert (Hs : Forall (sound sh) (firstn q (drop j es))) by (by apply Forall_take, Forall_drop).
  assert (Hsplit : firstn (Nat.min (j + q) (length es)) es = firstn j es ++ firstn q (drop j es)).
  { destruct (Nat.le_gt_cases (j + q) (length es)).
    - rewrite Nat.min_l by lia. rewrite <- (firstn_skipn j es) at 1. rewrite take_app, length_take. f_equal; [by rewrite take_take, Nat.min_r by lia|]. f_equal. lia.
    - rewrite Nat.min_r, firstn_all by lia. rewrite (take_ge (drop j es)) by (rewrite length_drop; lia). by rewrite firstn_skipn. }
  assert (Hr : rising (rp_last r) (firstn q (drop j es))).
  { rewrite Hl. assert (Hr : rising from0 (firstn (Nat.min (j + q) (length es)) es ++ drop (Nat.min (j + q) (length es)) es)) by (by rewrite firstn_skipn).
    apply rising_app in Hr as [Hr _]. rewrite Hsplit in Hr. by apply rising_app in Hr as [_ Hr]. }
  apply (entries_applied sh) in Hae as (-> & -> & [Hb' Hi' Hl' Hq' Hr']); [|done..].
  assert (Hlast : last_seq (rp_last r) (firstn q (drop j es)) = last_seq from0 (firstn (Nat.min (j + q) (length es)) es)).
  { by rewrite Hsplit, last_seq_app, Hl. }
  split; [|done]. constructor; cbn [rp_node rp_last fetch_max with_seq store wal_channel global_seq].
  - done.
  - done.
  - rewrite Hi', Hsplit. unfold all_deltas. rewrite map_app, concat_app, puts_app. by apply puts_proper.
  - by rewrite Hl', Hlog, Hsplit, map_app, concat_app, app_assoc.
  - rewrite Hlast. pose proof (last_bound (Nat.min (j + q) (length es))) as Hbd. unfold U64_MAX in Hbd.
    unfold wrap_u64. rewrite Z.mod_small by (unfold U64; lia). lia.
Qed.

Lemma follows_after j r : follows j r -> after (rp_last r) es = drop j es.
Proof. intros [-> _ _ _ _]. by apply after_prefix. Qed.

(** An answer moves the replica on by what it holds. *)
Lemma body_follows j r wal q r' :
  follows j r -> (serve_wal_entries wal (rp_last r) 2048).1 = firstn q (drop j es) ->
  on_body max_blob now room (body (get_wal (poll_query (rp_last r)) wal)) r = Some r' ->
  follows (Nat.min (j + q) (length es)) r' /\ replica (rp_node r') = replica (rp_node r) /\
  rp_lag r' = Z.max ((serve_wal_entries wal (rp_last r) 2048).2 - rp_last r') 0.
Proof.
  intros Hf Hs Hb. unfold on_body in Hb. destruct (body_fields (poll_query (rp_last r)) wal) as [-> ->] in Hb.
  rewrite poll_params in Hb by (rewrite (fo_last j r Hf); pose proof (last_bound j); lia). cbn [fst snd] in Hb.
  change (Z.to_nat 2048) with 2048%nat in Hb. cbn [fmap option_fmap option_map default from_option id] in Hb. rewrite strings_back, Hs in Hb. cbn [as_u64 mbind option_bind default from_option id] in Hb.
  assert (Hsq : Forall (sound sh) (firstn q (drop j es))) by (by apply Forall_take, Forall_drop).
  destruct (encode_entries _) as [|b l] eqn:He.
  - apply (encode_nil sh) in He; [|done]. cbn in Hb. injection Hb as <-. cbn. split; [|done].
    assert (Hj : firstn (Nat.min (j + q) (length es)) es = firstn j es).
    { assert (Hz : q = 0%nat \/ (length es <= j)%nat).
      { apply (f_equal length) in He. rewrite length_take, length_drop in He. cbn in He. lia. }
      destruct Hz as [->|Hz]; [|by rewrite !take_ge by lia]. rewrite Nat.add_0_r. destruct (Nat.le_gt_cases j (length es)); [by rewrite Nat.min_l|].
      by rewrite !take_ge by lia. }
    destruct Hf as [H1' H2' H3' H4' H5']. constructor; cbn; by rewrite ?Hj.
  - rewrite <- He, (entries_travel sh) in Hb by done. destruct (apply_replicated_entries _ _ _ _ r) as [[k r1]|] eqn:Ha; [|done].
    cbn in Hb. injection Hb as <-. cbn. apply batch_follows with (j := j) in Ha as [[H1' H2' H3' H4' H5'] Hr]; [|done]. split; [|done]. by constructor.
Qed.

(** The invariant of the loop. *)
Definition sys_follows (s : RepSys) : Prop :=
  (exists j, follows j (sy_rep s)) /\ forall from, sy_loop s = LWaiting from -> from = rp_last (sy_rep s).

Lemma promote_follows j r b : follows j r -> follows j (set_replica b r).
Proof. intros [H1' H2' H3' H4' H5']. by constructor. Qed.

Lemma step_follows c s s' : rep_step max_blob now room c (primary_says es) s s' -> sys_follows s -> sys_follows s'.
Proof.
  intros Hs [[j Hf] Hw]. destruct Hs as [r k|r k from a l k' r' Hsay Hon|r l k|r k]; cbn [sy_rep sy_loop] in *.
  - split; [by exists j|]. intros from. unfold next_poll. cbn. destruct (replica _); [|done]. by intros [= <-].
  - rewrite (Hw from eq_refl) in *. unfold on_reply in Hon. destruct a as [v| | |].
    + destruct Hsay as (wal & Hshow & ->). destruct (on_body _ _ _ _ r) as [r1|] eqn:Hb; [|done]. cbn in Hon. injection Hon as <- <- <-.
      destruct (serve_shown _ _ _ 2048 Hshow) as [q Hq]. rewrite (follows_after j r Hf) in Hq.
      destruct (body_follows j r wal q r1 Hf Hq Hb) as [Hf' _]. split; [by eexists|done].
    + injection Hon as <- <- <-. split; [by exists j|done].
    + injection Hon as <- <- <-. split; [by exists j|done].
    + destruct (_ && _); injection Hon as <- <- <-; (split; [exists j|done]); [|done].
      destruct Hf as [H1' H2' H3' H4' H5']. constructor; cbn; try done. lia.
  - split; [exists j; by apply promote_follows|done].
  - split; [by exists j|done].
Qed.

Lemma replica_run_follows c s s' : rtc (rep_step max_blob now room c (primary_says es)) s s' -> sys_follows s -> sys_follows s'.
Proof. intros Hr Hs. induction Hr as [|s1 s2 s3 Hstep _ IH]; [done|]. apply IH. by eapply step_follows. Qed.

Lemma start_follows : base sh (store n0) -> from0 < global_seq n0 -> sys_follows (start_replica (from0 + 1) n0).
Proof.
  intros Hb Hq. split; [|done]. exists 0%nat. constructor; rewrite ?take_0; cbn; [lia|done|done|by rewrite app_nil_r|lia].
Qed.

(** *** Catching up *)

(** [k] polls that are answered, from a log that does not change. *)
Fixpoint polls (k : nat) (wal : option Bytes) r : option Rep :=
  match k with
  | O => Some r
  | S k' =>
      match next_poll r with
      | LWaiting from => r ← on_body max_blob now room (body (get_wal (poll_query from) wal)) r; polls k' wal r
      | _ => Some r
      end
  end.

Lemma body_answered v r : calm (subs (rp_node r)) -> exists r', on_body max_blob now room v r = Some r' /\ calm (subs (rp_node r')).
Proof.
  intros Hc. unfold on_body. destruct (default [] _) as [|b l]; [by eexists|].
  unfold apply_replicated_entries. destruct (entries_apply (decode_entries (b :: l)) (rp_last r) 0 (rp_node r) Hc) as (last & k & n' & -> & Hc').
  cbn. by eexists.
Qed.

Lemma polls_follow wal :
  (forall j r, follows j r -> let served := serve_wal_entries wal (rp_last r) 2048 in
    served.1 = firstn 2048 (drop j es) /\ served.2 <= last_seq from0 es) ->
  forall k j r, follows j r -> calm (subs (rp_node r)) -> replica (rp_node r) = true -> (length es <= j + 2048 * k)%nat ->
  exists r', polls k wal r = Some r' /\ follows (length es) r' /\
    ((0 < k)%nat -> rp_lag r' = 0).
Proof.
  intros Hw. induction k as [|k IH]; intros j r Hf Hc Hr Hk.
  - exists r. split; [done|]. split; [|lia]. destruct Hf as [H1' H2' H3' H4' H5'].
    assert (Hj : firstn j es = firstn (length es) es) by (by rewrite !take_ge by lia). constructor; by rewrite <- ?Hj.
  - cbn [polls]. unfold next_poll. rewrite Hr. destruct (body_answered (body (get_wal (poll_query (rp_last r)) wal)) r Hc) as (r1 & Hb & Hc1).
    rewrite Hb. cbn [mbind option_bind]. destruct (body_follows j r wal 2048 r1 Hf (proj1 (Hw j r Hf)) Hb) as (Hf1 & Hr1 & Hlag).
    destruct k as [|k].
    + exists r1. split; [done|]. rewrite Nat.min_r in Hf1 by lia. split; [done|]. intros _. rewrite Hlag, (fo_last _ _ Hf1), firstn_all.
      pose proof (proj2 (Hw j r Hf)). lia.
    + destruct (IH (Nat.min (j + 2048) (length es)) r1 Hf1 Hc1) as (r' & -> & Hf' & Hl'); [congruence|lia|]. exists r'. split; [done|]. split; [done|].
      intros _. apply Hl'. lia.
Qed.
End Follow.

Section Guarantees.
Context `{SerdeLaws} `{Lowercase} `{MsgCodec} `{Zstd} `{PeerCodecLaws} `{WalCodecLaws}.
Variable max_blob : Z.
Variable now : nat -> Z.
Variable room : Z -> bool.

Lemma history_sound sd es sd' : kept sd.1 -> history max_blob sd es sd' -> Forall (fun e => is_Some (entry_to_vec e)) es ->
  Forall (sound (shard_id sd.1)) es.
Proof.
  intros Hk Hh He. destruct (history_entries max_blob _ _ _ Hh Hk) as [Hes _]. apply Forall_forall. intros e Hin.
  rewrite Forall_forall in Hes, He. destruct (Hes e Hin) as (Hv & Hs & Hg). split; [done|]. split; [by apply He|]. by split.
Qed.

(** What both theorems assume of the two servers when the replica starts: the primary goes on
    from [sd] with the commits [es], numbered above [from0]; the rows of the replica [n] have the
    bytes of [sd]'s, and its counter is past [from0]. *)
Record paired (from0 : Z) (n : Node) (sd : SD) (es : list WalEntry) (sd' : SD) : Prop := {
  pa_kept : kept sd.1;
  pa_history : history max_blob sd es sd';
  pa_encodable : Forall (fun e => is_Some (entry_to_vec e)) es;
  pa_rising : rising from0 es;
  pa_from : 0 <= from0 < U64_MAX;
  pa_lru : lru (root (store n)) = None;
  pa_shard : shard_id (root (store n)) = shard_id sd.1;
  pa_rows : forall t k, data <$> row_at (root (store n)) t k = data <$> row_at sd.1 t k;
  pa_seq : from0 < global_seq n }.
#[local] Arguments pa_kept {_ _ _ _ _} _.
#[local] Arguments pa_history {_ _ _ _ _} _.
#[local] Arguments pa_encodable {_ _ _ _ _} _.
#[local] Arguments pa_rising {_ _ _ _ _} _.
#[local] Arguments pa_from {_ _ _ _ _} _.
#[local] Arguments pa_lru {_ _ _ _ _} _.
#[local] Arguments pa_shard {_ _ _ _ _} _.
#[local] Arguments pa_rows {_ _ _ _ _} _.
#[local] Arguments pa_seq {_ _ _ _ _} _.

Lemma paired_follows from0 n sd es sd' j r : paired from0 n sd es sd' ->
  follows room (shard_id sd.1) from0 n es j r ->
  exists sdj, history max_blob sd (firstn j es) sdj /\
    forall t k, data <$> row_at (root (store (rp_node r))) t k = data <$> row_at sdj.1 t k.
Proof.
  intros Hp [_ _ Hi _ _]. destruct (history_prefix max_blob _ _ _ (pa_history Hp) j) as [sdj Hj]. exists sdj. split; [done|].
  destruct (history_entries max_blob _ _ _ Hj (pa_kept Hp)) as [_ Hij]. intros t k.
  change (image (root (store (rp_node r))) t k = image sdj.1 t k). rewrite (Hi t k), (Hij t k). apply puts_proper. intros t' k'. apply (pa_rows Hp).
Qed.

Lemma paired_run from0 n sd es sd' c s : paired from0 n sd es sd' ->
  rtc (rep_step max_blob now room c (primary_says es)) (start_replica (from0 + 1) n) s ->
  sys_follows room (shard_id sd.1) from0 n es s.
Proof.
  intros Hp Hr. eapply (replica_run_follows max_blob now room); [eapply history_sound| | |exact Hr|].
  - apply (pa_kept Hp).
  - apply (pa_history Hp).
  - apply (pa_encodable Hp).
  - apply (pa_rising Hp).
  - apply (pa_from Hp).
  - apply start_follows; [apply (pa_from Hp)|split; [apply (pa_lru Hp)|apply (pa_shard Hp)]|apply (pa_seq Hp)].
Qed.


(** What the log of the primary has in all: older entries, and [es]. *)
Definition whole_log (from0 : Z) (es : list WalEntry) (wal : Bytes) : Prop :=
  exists old, read_all_entries wal = old ++ es /\ Forall (fun e => seq_of e <= from0) old.

Lemma last_is_max es : forall z, rising z es -> forall m, m <= z -> foldl Z.max m (map seq_of es) <= last_seq z es.
Proof.
  induction es as [|e es IH]; intros z Hr m Hm; cbn; [lia|]. destruct Hr as [Hz Hr]. apply IH; [done|lia].
Qed.

Lemma max_below l : forall b m, Forall (fun e => seq_of e <= b) l -> m <= b -> foldl Z.max m (map seq_of l) <= b.
Proof. induction l as [|e l IH]; intros b m Hl Hm; cbn; [lia|]. apply Forall_cons in Hl as [He Hl]. apply IH; [done|lia]. Qed.

Lemma whole_served from0 n sd es sd' wal : paired from0 n sd es sd' -> whole_log from0 es wal ->
  forall j r, follows room (shard_id sd.1) from0 n es j r ->
  let served := serve_wal_entries (Some wal) (rp_last r) 2048 in
  served.1 = firstn 2048 (drop j es) /\ served.2 <= last_seq from0 es.
Proof.
  intros Hp (old & Hall & Hold) j r Hf served. pose proof (pa_rising Hp) as Hr. unfold served, serve_wal_entries. rewrite Hall. cbn [fst snd].
  change (fun e => sequence_number (header e)) with seq_of.
  assert (Hlast : from0 <= rp_last r).
  { rewrite (fo_last _ _ _ _ _ _ _ Hf). apply last_seq_le. rewrite <- (firstn_skipn j es) in Hr. by apply rising_app in Hr as [Hr _]. }
  assert (Hle : last_seq from0 (firstn j es) <= last_seq from0 es).
  { pose proof Hr as Hr'. rewrite <- (firstn_skipn j es) in Hr'. apply rising_app in Hr' as [_ Hr'].
    apply last_seq_le in Hr'. rewrite <- last_seq_app, firstn_skipn in Hr'. done. }
  split.
  - rewrite List.filter_app, none_kept; [|eapply Forall_impl; [exact Hold|]; intros e He; cbn in He; unfold seq_of in He; lia].
    cbn [app]. change (List.filter _ es) with (after (rp_last r) es). f_equal. rewrite (fo_last _ _ _ _ _ _ _ Hf). by apply after_prefix.
  - rewrite map_app. assert (Hb : forall m, m <= from0 -> foldl Z.max m (map seq_of es) <= last_seq from0 es) by (intros; by apply last_is_max).
    destruct old as [|o old]; cbn [map app].
    + destruct es as [|e es']; cbn [map]; [rewrite (fo_last _ _ _ _ _ _ _ Hf); lia|]. destruct Hr as [_ Hr]. cbn. apply last_is_max; [done|]. lia.
    + apply Forall_cons in Hold as [Ho Hold]. rewrite foldl_app. apply Hb. by apply max_below.
Qed.

End Guarantees.

(** ** Backups (src/backup.rs)

    A backup is a directory of its own: the snapshot, a copy of the log, what they are. *)

Record BackupMeta := { created_unix_secs : Z; m_last_seq : Z; m_row_count : Z; wal_bytes : Z; voltra_version : Bytes }.

Class MetaCodec := { meta_to_string : BackupMeta -> option Bytes; meta_from_str : Bytes -> option BackupMeta }.

Abbreviation Dir := (gmap Bytes Bytes).
Abbreviation Backups := (gmap Bytes Dir).

Definition WAL_NAME : Bytes := bs "voltra.wal".
Definition META_NAME : Bytes := bs "backup.json".
Definition backup_name (secs seq : Z) : Bytes := bs "backup_" ++ dec_u secs ++ bs "_" ++ dec_u seq.

(** When a directory of that name was made, and the number it was made at. *)
Definition parse_backup (name : Bytes) : option (Z * Z) :=
  rest ← strip_prefix (bs "backup_") name;
  '(ts, seq) ← split_once 95 rest;
  ts ← parse_u64_str ts; seq ← parse_u64_str seq; Some (ts, seq).

Definition newer (a b : Bytes * (Z * Z)) : Prop := b.2.1 < a.2.1 \/ (b.2.1 = a.2.1 /\ b.2.2 <= a.2.2).
#[export] Instance newer_dec a b : Decision (newer a b).
Proof. unfold newer. apply _. Defined.

Definition list_backups (dir : Backups) : list (Bytes * (Z * Z)) :=
  merge_sort newer (omap (fun nd : Bytes * Dir => pair nd.1 <$> parse_backup nd.1) (map_to_list dir)).

Definition rotate_backups (dir : Backups) (keep : nat) : nat * Backups :=
  let old := List.skipn (Nat.max keep 1) (list_backups dir) in
  (length old, foldl (fun d (b : Bytes * (Z * Z)) => delete b.1 d) dir old).

Section Backup.
Context `{Serde} `{WalCodec} `{MetaCodec}.

(** The snapshot is of the tables [ts], the copy of the log [wal] as it is some time later. *)
Definition backup_now (secs nanos : Z) (version : Bytes) (ts : TableStore) (wal : option Bytes) (dir : Backups) (last_seq : Z)
  : result VoltraError Bytes * Backups * TableStore :=
  let name := backup_name secs last_seq in
  let dest := default ∅ (dir !! name) in
  match save_snapshot last_seq nanos dest ts with
  | (Err e, ts) => (Err e, <[name := dest]> dir, ts)
  | (Ok dest, ts) =>
      let dest := match wal with Some w => <[WAL_NAME := w]> dest | None => dest end in
      let m := {| created_unix_secs := secs; m_last_seq := last_seq; m_row_count := total_row_count ts;
                  wal_bytes := match wal with Some w => zlen w | None => 0 end; voltra_version := version |} in
      match meta_to_string m with
      | Some j => (Ok name, <[name := <[META_NAME := j]> dest]> dir, ts)
      | None => (Err SerializationError, <[name := dest]> dir, ts)
      end
  end.

(** The timer of src/app/bootstrap.rs and POST /backup: a backup, then a rotation. *)
Definition run_backup (secs nanos : Z) (version : Bytes) (keep : nat) (ts : TableStore) (wal : option Bytes) (dir : Backups) (seq : Z)
  : result VoltraError (Bytes * nat) * Backups * TableStore :=
  match backup_now secs nanos version ts wal dir seq with
  | (Ok name, dir, ts) => let '(removed, dir) := rotate_backups dir keep in (Ok (name, removed), dir, ts)
  | (Err e, dir, ts) => (Err e, dir, ts)
  end.

Definition read_meta (b : Dir) : option BackupMeta := j ← b !! META_NAME; meta_from_str j.

(** [WalWriter]: entries written one after the other, until one cannot be encoded. *)
Fixpoint write_entries (es : list WalEntry) (file : Bytes) : result VoltraError unit * Bytes :=
  match es with
  | [] => (Ok tt, file)
  | e :: es' => match entry_to_vec e with Some b => write_entries es' (file ++ frame b) | None => (Err SerializationError, file) end
  end.

(** The live log and the live snapshots after a restore, and what it reports. *)
Definition restore_to_dirs (backup : option Dir) (wal : option Bytes) (snapshots : Dir) (until_ts : option Z)
  : result VoltraError (Z * Z) * option Bytes * Dir :=
  match backup with
  | None => (Err (StorageError (bs "Backup directory not found")), wal, snapshots)
  | Some b =>
      match find_latest_snapshot b with
      | None => (Err (StorageError (bs "No snapshot file inside backup")), wal, snapshots)
      | Some (name, seq) =>
          let snapshots := <[name := default [] (b !! name)]> snapshots in
          match b !! WAL_NAME, until_ts with
          | None, _ => (Ok (seq, 0), None, snapshots)
          | Some w, None => (Ok (seq, zlen (read_all_entries w)), Some w, snapshots)
          | Some w, Some cutoff =>
              let es := List.filter (fun e => w_timestamp (header e) <=? cutoff) (read_all_entries w) in
              let '(r, file) := write_entries es [] in
              ((_ ← r; Ok (seq, zlen es)), Some file, snapshots)
          end
      end
  end.
End Backup.

(** *** Rotation *)

Lemma newer_total a b : newer a b \/ newer b a.
Proof. unfold newer. lia. Qed.
#[export] Instance newer_trans : Transitive newer.
Proof. intros a b c. unfold newer. lia. Qed.

Lemma deleted_lookup (old : list (Bytes * (Z * Z))) : forall (d : Backups) name,
  foldl (fun d (b : Bytes * (Z * Z)) => delete b.1 d) d old !! name = if decide (name ∈ map fst old) then None else d !! name.
Proof.
  induction old as [|b old IH]; intros d name; cbn [foldl map]; [done|].
  rewrite IH. destruct (decide (name ∈ map fst old)) as [Hin|Hin].
  - by rewrite decide_True by (by right).
  - destruct (decide (name = b.1)) as [->|Hne]; [by rewrite decide_True, lookup_delete_eq by left|].
    rewrite lookup_delete_ne by done. by rewrite decide_False by (by rewrite elem_of_cons; intros [?|?]).
Qed.

Lemma listed_backups (dir : Backups) name p : (name, p) ∈ list_backups dir <-> is_Some (dir !! name) /\ parse_backup name = Some p.
Proof.
  unfold list_backups. rewrite merge_sort_Permutation, list_elem_of_omap. split.
  - intros ([n d] & Hin & Hp). apply elem_of_map_to_list in Hin.
    change (pair n <$> parse_backup n = Some (name, p)) in Hp. destruct (parse_backup n) eqn:E; [|discriminate].
    injection Hp as -> ->. split; [by exists d|done].
  - intros [[d Hd] Hp]. exists (name, d). split; [by apply elem_of_map_to_list|].
    change (pair name <$> parse_backup name = Some (name, p)). by rewrite Hp.
Qed.

Lemma listed_once (dir : Backups) : NoDup (map fst (list_backups dir)).
Proof.
  unfold list_backups. rewrite merge_sort_Permutation. pose proof (NoDup_fst_map_to_list dir) as Hd. revert Hd.
  induction (map_to_list dir) as [|[n d] l IH]; [constructor|].
  cbn [omap list_omap map fst fmap list_fmap]. intros [Hn Hd]%NoDup_cons.
  destruct (parse_backup n) as [p|]; cbn [fmap option_fmap option_map map fst]; [|by apply IH]. constructor; [|by apply IH].
  intros Hin. apply Hn. apply list_elem_of_fmap in Hin as ([n' p'] & -> & Hin). apply list_elem_of_omap in Hin as ([n2 d2] & Hin & Hp).
  change (pair n2 <$> parse_backup n2 = Some (n', p')) in Hp. destruct (parse_backup n2); [|discriminate]. injection Hp as -> _. apply list_elem_of_fmap. by exists (n', d2).
Qed.

(** Rotation keeps the newest. It removes as many backups as are beyond those to keep, of
    which there is always one; every backup that stays is at least as new as every one that
    goes, is what it was, and so is any other directory. *)
Theorem rotation_keeps_the_newest (dir : Backups) keep :
  let '(removed, dir') := rotate_backups dir keep in
  let l := list_backups dir in let n := Nat.max keep 1 in
  removed = (length l - n)%nat /\ list_backups dir' ≡ₚ List.firstn n l /\
  (forall a b, a ∈ List.firstn n l -> b ∈ List.skipn n l -> newer a b) /\
  (forall name, name ∉ map fst (List.skipn n l) -> dir' !! name = dir !! name) /\
  (forall name, name ∈ map fst (List.skipn n l) -> dir' !! name = None).
Proof.
  unfold rotate_backups. set (l := list_backups dir). set (n := Nat.max keep 1). cbn zeta.
  set (dir' := foldl _ dir _). pose proof (listed_once dir) as Hd. fold l in Hd.
  assert (Hl : forall name, dir' !! name = if decide (name ∈ map fst (List.skipn n l)) then None else dir !! name)
    by apply deleted_lookup.
  split; [apply length_skipn|]. split; [|split; [|split]].
  - apply NoDup_Permutation.
    + apply (NoDup_fmap_1 fst), listed_once.
    + apply (NoDup_fmap_1 fst). rewrite <- (firstn_skipn n l), map_app in Hd. by apply NoDup_app in Hd as [Hd _].
    + intros [name p]. rewrite listed_backups, Hl. rewrite <- (firstn_skipn n l), map_app in Hd. apply NoDup_app in Hd as (_ & Hd & _). split.
      * intros [Hs Hp]. case_decide as Hin; [by destruct Hs|].
        assert (Hin' : (name, p) ∈ l) by (by apply listed_backups). rewrite <- (firstn_skipn n l) in Hin'.
        apply elem_of_app in Hin' as [?|Hin']; [done|]. destruct Hin. apply list_elem_of_fmap. by exists (name, p).
      * intros Hin. assert (Hin' : (name, p) ∈ l) by (rewrite <- (firstn_skipn n l); apply elem_of_app; by left).
        apply listed_backups in Hin' as [Hs Hp]. rewrite decide_False; [done|]. apply Hd. apply list_elem_of_fmap. by exists (name, p).
  - intros a b Ha Hb. assert (Hs : StronglySorted newer l) by (apply StronglySorted_merge_sort; [apply _|exact newer_total]).
    rewrite <- (firstn_skipn n l) in Hs. by eapply StronglySorted_app_1_elem_of.
  - intros name Hn. by rewrite Hl, decide_False.
  - intros name Hn. by rewrite Hl, decide_True.
Qed.

(** A backup is listed under the time and the number it was made at. *)
Lemma parse_backup_name secs q : 0 <= secs < U64 -> 0 <= q < U64 -> parse_backup (backup_name secs q) = Some (secs, q).
Proof.
  intros Hs Hq. unfold parse_backup, backup_name. rewrite strip_prefix_app. cbn [mbind option_bind].
  assert (Hsplit : forall l r, Forall (fun c => is_digit c = true) l -> split_once 95 (l ++ bs "_" ++ r) = Some (l, r)).
  { intros l r. induction 1 as [|c l Hc _ IH]; [done|]. cbn [app split_once].
    destruct (c =? 95) eqn:E; [zbool; subst; done|]. by rewrite IH. }
  rewrite Hsplit by (apply dec_u_digits; lia). cbn [mbind option_bind]. unfold parse_u64_str.
  assert (Hp : forall z, 0 <= z < U64 -> parse_int 0 U64_MAX (dec_u z) = Some z).
  { intros z Hz. pose proof (parse_int_dec 0 U64_MAX z) as Hp. unfold dec in Hp. rewrite zlt_false in Hp by lia. apply Hp. unfold U64_MAX, U64 in *. lia. }
  by rewrite !Hp.
Qed.

(** One made later than all others survives the rotation that follows it. *)
Lemma fresh_backup_stays (dir : Backups) keep name p : is_Some (dir !! name) -> parse_backup name = Some p ->
  (forall n' p', is_Some (dir !! n') -> n' <> name -> parse_backup n' = Some p' -> ~ newer (n', p') (name, p)) ->
  (rotate_backups dir keep).2 !! name = dir !! name.
Proof.
  intros Hs Hp Hold. unfold rotate_backups. cbn [snd]. rewrite deleted_lookup. set (n := Nat.max keep 1).
  case_decide as Hin; [exfalso|done]. pose proof (listed_once dir) as Hd. set (l := list_backups dir) in *.
  assert (Hsk : exists p', (name, p') ∈ List.skipn n l) by (apply list_elem_of_fmap in Hin as ([n' p'] & -> & ?); by exists p').
  destruct Hsk as [p' Hsk]. assert (p' = p) as ->.
  { assert (Hl : (name, p') ∈ l) by (rewrite <- (firstn_skipn n l); apply elem_of_app; by right). apply listed_backups in Hl as [_ Hl]. congruence. }
  rewrite <- (firstn_skipn n l), map_app in Hd. apply NoDup_app in Hd as (_ & Hd & _).
  destruct (List.firstn n l) as [|[n0 p0] rest] eqn:Ef.
  - apply (f_equal length) in Ef. rewrite length_firstn in Ef.
    assert (l = []) as El by (apply length_zero_iff_nil; cbn in Ef; lia). rewrite El, skipn_nil in Hsk. by apply not_elem_of_nil in Hsk.
  - assert (H0 : (n0, p0) ∈ l) by (rewrite <- (firstn_skipn n l), Ef; apply elem_of_app; left; by left).
    apply listed_backups in H0 as [Hs0 Hp0]. assert (Hne : n0 <> name) by (intros ->; apply (Hd name); [by left|done]).
    apply (Hold n0 p0 Hs0 Hne Hp0). assert (Hss : StronglySorted newer l) by (apply StronglySorted_merge_sort; [apply _|exact newer_total]).
    rewrite <- (firstn_skipn n l), Ef in Hss. eapply StronglySorted_app_1_elem_of; [exact Hss|by left|exact Hsk].
Qed.

(** *** Restoring *)

Section Restoring.
Context `{SerdeLaws}.
Context `{WalCodecLaws} `{!SnapshotCodecLaws} `{MetaCodec}.
Variable max_blob : Z.
Hypothesis max_fits : max_blob < U64.
Variable now : nat -> Z.

Abbreviation time_of e := (w_timestamp (header e)).
Definition encoded (e : WalEntry) (b : Bytes) : Prop := entry_to_vec e = Some b /\ zlen b < 2 ^ 32.
Definition in_time_order (es : list WalEntry) : Prop := StronglySorted (fun a b => time_of a <= time_of b) es.

Lemma entries_written es : forall logs file, Forall2 encoded es logs -> write_entries es file = (Ok tt, file ++ frames logs).
Proof.
  induction es as [|e es IH]; intros logs file Hl; inversion Hl as [|? b ? logs' [He _] Hes]; subst; cbn [write_entries].
  - by rewrite app_nil_r.
  - rewrite He, (IH logs') by done. unfold frames. cbn. by rewrite <- app_assoc.
Qed.

Lemma encoded_filter (P : WalEntry -> bool) es logs : Forall2 encoded es logs -> exists logs', Forall2 encoded (List.filter P es) logs'.
Proof.
  induction 1 as [|e b es logs He _ [logs' IH]]; [by exists []|]. cbn [List.filter].
  destruct (P e); [exists (b :: logs'); by constructor|by exists logs'].
Qed.

Lemma read_written es logs : Forall (fun e => Forall delta_kept (deltas (payload e))) es -> Forall2 encoded es logs -> read_all_entries (frames logs) = es.
Proof.
  intros Hk Hl. assert (Henc : Forall2 encodes es logs).
  { clear -Hk Hl H2. induction Hl as [|e b l logs [He Hb] _ IH]; [constructor|]. apply Forall_cons in Hk as [Hd Hk].
    constructor; [split; [by eapply entry_round|done]|auto]. }
  destruct (read_prefix _ _ Henc (length (frames logs))) as (j & Hr & Hj). rewrite firstn_all in Hr. rewrite Hr. apply take_ge.
  rewrite (Forall2_length _ _ _ Hl). apply Hj; [done|]. by rewrite firstn_all.
Qed.

(** In order of time, the entries until then are a prefix. *)
Lemma until_prefix t es : in_time_order es -> exists j, List.filter (fun e => time_of e <=? t) es = firstn j es /\ (j <= length es)%nat /\
  Forall (fun e => time_of e <= t) (firstn j es) /\ Forall (fun e => t < time_of e) (skipn j es).
Proof.
  induction 1 as [|e es _ (j & IH & Hj & Hin & Hout) He]; [exists 0%nat; by repeat constructor|]. cbn [List.filter].
  destruct (Z.leb_spec (time_of e) t) as [Hle|Hgt].
  - exists (S j). cbn. split; [by rewrite IH|]. split; [lia|]. split; [by constructor|done].
  - exists 0%nat. cbn. split; [|split; [lia|split; [constructor|]]].
    + clear -He Hgt. induction He as [|e' es He' _ IH]; [done|]. cbn [List.filter]. by rewrite zle_false by lia.
    + constructor; [done|]. eapply Forall_impl; [exact He|]. cbn. lia.
Qed.

(** The log a restore leaves, of one read as a prefix of the entries. *)
Definition restored_log (until : option Z) (w : Bytes) : Bytes -> Prop := fun log =>
  match until with
  | None => log = w
  | Some t => exists logs', Forall2 encoded (List.filter (fun e => time_of e <=? t) (read_all_entries w)) logs' /\ log = frames logs'
  end.

Lemma restores_log b name q file w wal snaps until : newest b name q -> b !! name = Some file -> b !! WAL_NAME = Some w ->
  (exists logs', Forall2 encoded (read_all_entries w) logs') -> exists count log,
  restore_to_dirs (Some b) wal snaps until = (Ok (q, count), Some log, <[name := file]> snaps) /\ restored_log until w log.
Proof.
  intros Hn Hf Hw [logs' Hl]. unfold restore_to_dirs. rewrite (newest_found _ _ _ Hn), Hw, Hf. destruct until as [t|].
  - destruct (encoded_filter (fun e => time_of e <=? t) _ _ Hl) as [logs'' Hl'']. rewrite (entries_written _ _ _ Hl'').
    do 2 eexists. split; [reflexivity|]. by exists logs''.
  - do 2 eexists. by split.
Qed.

Lemma no_snapshot_names : parse_snapshot_seq WAL_NAME = None /\ parse_snapshot_seq META_NAME = None.
Proof. split; by vm_compute. Qed.

(** What is in the directory of a backup. *)
Lemma backup_made secs nanos version ts wal dir q name dir' ts' ts0 : good max_blob ts -> blank max_blob (shard_id (root ts)) ts0 -> 0 <= q < U64 ->
  dir !! backup_name secs q = None -> backup_now secs nanos version ts (Some wal) dir q = (Ok name, dir', ts') ->
  exists b file m ts1, dir' !! name = Some b /\ newest b (snapshot_path q) q /\ b !! snapshot_path q = Some file /\ b !! WAL_NAME = Some wal /\
    load_snapshot max_blob file ts0 = (Ok m, ts1) /\ last_sequence m = q /\ base (shard_id (root ts)) ts1 /\ same_image (image (root ts1)) (image (root ts)).
Proof.
  intros Hg Hb Hq Hd. unfold backup_now. rewrite Hd. cbn [default from_option].
  destruct (save_snapshot q nanos ∅ ts) as [[d|e] ts2] eqn:Es; [|done].
  pose proof Es as (-> & file & m & ts1 & -> & Hload & Hm & Hg1 & Hsh & Hl & Hh)%(saved_then_loaded _ max_fits _ _ _ _ _ _ ts0); [|done..].
  destruct (meta_to_string _) as [j|]; [|done]. intros [= <- <- <-]. destruct no_snapshot_names as [Hnw Hnm].
  assert (Hp : parse_snapshot_seq (snapshot_path q) = Some q) by by apply parse_snapshot_path.
  assert (Hne : WAL_NAME <> snapshot_path q /\ META_NAME <> snapshot_path q) by (split; intros E; congruence). destruct Hne as [Hne1 Hne2].
  do 4 eexists. split; [apply lookup_insert_eq|]. split; [|split; [|split; [|split; [exact Hload|split; [done|split; [done|by eapply held_image]]]]]].
  - split; [rewrite !lookup_insert_ne, lookup_insert_eq by done; by exists file|]. split; [done|]. intros n' q' [x Hs] Hne Hn'.
    destruct (decide (n' = META_NAME)) as [->|]; [congruence|]. destruct (decide (n' = WAL_NAME)) as [->|]; [congruence|].
    rewrite !lookup_insert_ne, delete_empty in Hs by done. by rewrite lookup_empty in Hs.
  - by rewrite !lookup_insert_ne, lookup_insert_eq by done.
  - by rewrite lookup_insert_ne, lookup_insert_eq.
Qed.

(** The entries of a restored log: old ones, then a prefix of the new ones, until the time asked for. *)
Lemma restored_entries q sd old es sd' logs cut until log : durable max_blob q sd old es sd' logs -> in_time_order es ->
  restored_log until (firstn cut (frames logs)) log -> exists old' j, read_all_entries log = old' ++ firstn j es /\
    Forall (fun e => sequence_number (header e) <= q) old' /\
    (forall e t, until = Some t -> e ∈ firstn j es -> time_of e <= t) /\
    (forall e, (length (frames logs) <= cut)%nat -> e ∈ skipn j es -> exists t, until = Some t /\ t < time_of e).
Proof.
  intros Hd Ht Hlog. destruct (read_after_old _ _ _ _ _ _ _ cut Hd) as (i & Hr & Hi).
  destruct (old_then_new _ _ _ _ _ _ _ i Hd) as [Hsplit Hold]. set (x := (i - length old)%nat) in *.
  assert (Hwhole : (length (frames logs) <= cut)%nat -> (length es <= x)%nat).
  { intros Hc. specialize (Hi (length logs) ltac:(lia)). rewrite firstn_all in Hi. specialize (Hi Hc).
    pose proof (Forall2_length _ _ _ (du_encoded _ _ _ _ _ _ _ Hd)) as Hlen. rewrite length_app in Hlen. lia. }
  destruct until as [t|]; cbn [restored_log] in Hlog.
  - destruct Hlog as (logs' & Hl & ->). rewrite Hr, Hsplit, List.filter_app in Hl. destruct (until_prefix t es Ht) as (j & Hf & Hj & Hin & Hout).
    exists (List.filter (fun e => time_of e <=? t) (firstn i old)), (j `min` x)%nat.
    assert (Hfx : List.filter (fun e => time_of e <=? t) (firstn x es) = firstn (j `min` x) es).
    { destruct (decide (j <= x)%nat) as [Hle|Hgt].
      - rewrite Nat.min_l by lia. rewrite <- Hf. rewrite <- (firstn_skipn x es) at 2. rewrite List.filter_app.
        rewrite (none_kept _ (skipn x es)), app_nil_r; [done|].
        replace (skipn x es) with (skipn (x - j) (skipn j es)) by (rewrite drop_drop; f_equal; lia).
        apply Forall_drop. eapply Forall_impl; [exact Hout|]. cbn. intros e He. by apply Z.leb_gt.
      - rewrite Nat.min_r by lia. assert (Hall : Forall (fun e => time_of e <= t) (firstn x es)).
        { replace (firstn x es) with (firstn x (firstn j es)) by (rewrite take_take; f_equal; lia). by apply Forall_take. }
        clear -Hall. induction Hall as [|e l He _ IH]; [done|]. cbn [List.filter]. rewrite zle_true by done. by rewrite IH. }
    rewrite Hfx in Hl. split; [|split; [|split]].
    + apply read_written; [|done]. destruct (durable_encodes _ _ _ _ _ _ _ Hd) as [Hk _]. apply Forall_app in Hk as [Hk1 Hk2].
      apply Forall_app. split; [|by apply Forall_take]. eapply List.incl_Forall; [|apply Forall_take; exact Hk1]. apply List.incl_filter.
    + eapply List.incl_Forall; [apply List.incl_filter|exact Hold].
    + intros e t' [= <-] He. rewrite Forall_forall in Hin. apply Hin. replace (firstn (j `min` x) es) with (firstn x (firstn j es)) in He by (rewrite take_take; f_equal; lia).
      by apply elem_of_take in He as (y & ? & _); eapply list_elem_of_lookup_2.
    + intros e Hc He. exists t. split; [done|]. rewrite Nat.min_l in He by (specialize (Hwhole Hc); lia). rewrite Forall_forall in Hout. by apply Hout.
  - subst log. exists (firstn i old), x. rewrite Hr. split; [done|]. split; [done|]. split; [done|].
    intros e Hc He. rewrite drop_ge in He by by apply Hwhole. by apply not_elem_of_nil in He.
Qed.

End Restoring.

(** ** A small primary and its replica *)

Module DemoReplica.
#[local] Existing Instances demo_serde demo_laws SubFacts.demo_lower SubFacts.demo_zstd SubFacts.demo_codec ClusterFacts.demo_peer_codec
  ClusterFacts.demo_peer_laws Wal.demo_codec Wal.demo_codec_laws.

Definition node_of (ts : TableStore) : Node :=
  {| store := ts; subs := manager_new false; bus_state := WorkerFacts.demo_bus; posts := []; wal_channel := []; global_seq := 1;
     replica := false; calls_total := 0; errors_total := 0; wal_entries_total := 0 |}.
Definition fresh_node : Node := node_of empty_ts.
Definition config : Config := {| auto_failover := true; failover_miss_count := 2 |}.
Definition demo_es : list WalEntry := [demo_e1; demo_e2].
Definition demo_sd2 : SD := demo_step demo_ds2 (demo_step demo_ds1 demo_sd0).
Definition full_log : Bytes := frames [raw demo_e1; raw demo_e2].

Lemma demo_paired : paired 1000 0 fresh_node demo_sd0 demo_es demo_sd2.
Proof.
  destruct (demo_commits demo_ds1 demo_sd0) as (l1 & Hb1 & He1); [by vm_compute|].
  destruct (demo_commits demo_ds2 (demo_step demo_ds1 demo_sd0)) as (l2 & Hb2 & He2); [by vm_compute|].
  destruct (demo_batch_ok demo_ds1) as (A1 & B1 & C1); [apply demo_inputs; by vm_compute|].
  destruct (demo_batch_ok demo_ds2) as (A2 & B2 & C2); [apply demo_inputs; by vm_compute|].
  assert (Hq : seq_of demo_e1 = 1 /\ seq_of demo_e2 = 2) by (split; vm_compute; reflexivity). destruct Hq as [Hq1 Hq2].
  constructor; [apply empty_kept| | | |unfold U64_MAX; lia|reflexivity..|cbn; lia].
  2: { constructor; [|constructor; [|constructor]]; (eexists; vm_compute; reflexivity). }
  2: { cbn [rising demo_es]. rewrite Hq1, Hq2. unfold U64_MAX. lia. }
  unfold demo_es, demo_e1, demo_e2. rewrite He1, He2.
  eapply history_cons; [exact A1|exact B1|exact C1|exact Hb1|]. eapply history_cons; [exact A2|exact B2|exact C2|exact Hb2|]. constructor.
Qed.

Definition run_body (v : Value) (r : Rep) : Rep := default r (on_body 1000 demo_now (fun _ => true) v r).
Definition answer_of (wal : Bytes) (r : Rep) : Value := body (get_wal (poll_query (rp_last r)) (Some wal)).
Definition start : Rep := sy_rep (start_replica 1 fresh_node).

(** The log as it is while the second entry is being written. *)
Definition torn_log : Bytes := List.firstn demo_cut full_log.
Definition after_torn : Rep := run_body (answer_of torn_log start) start.

Lemma torn_run : rtc (rep_step 1000 demo_now (fun _ => true) config (primary_says demo_es)) (start_replica 1 fresh_node)
  {| sy_rep := after_torn; sy_loop := LIdle; sy_misses := 0 |}.
Proof.
  eapply rtc_l; [apply rs_poll|]. change (next_poll _) with (LWaiting 0). apply rtc_once.
  apply (rs_reply _ _ _ _ _ _ _ 0 (Body (answer_of torn_log start))).
  - exists (Some torn_log). split; [|done]. exists 1%nat. vm_compute. reflexivity.
  - vm_compute. reflexivity.
Qed.



(** *** What replication does not mean to do *)

Definition score (k : Bytes) (r : Rep) : option Value := seen (bs "t") k (bs "score") (store (rp_node r)).
Definition log_of (l : list WalEntry) : Bytes := frames (map raw l).
Definition polled (l : list WalEntry) (r : Rep) : Rep := run_body (answer_of (log_of l) r) r.

(** Two workers of the primary can log their entries in the opposite order of their numbers: the
    replica then passes over the later one, for good. *)
Lemma entry_out_of_order_lost :
  let r := polled [demo_e2; demo_e1] start in
  rp_last r = 2 /\ score (bs "a") r = None /\ score (bs "a") (polled [demo_e2; demo_e1] r) = None /\
  score (bs "b") r = Some (Num (PosInt 6)).
Proof. vm_compute. auto. Qed.

(** An entry with a delta that fails stays half applied, and is not asked for again once the next
    one has been applied. *)
Lemma failed_entry_passed_over :
  let bad := entry_new 0 1 (bs "r") [] [demo_set (bs "a") 5; demo_delta (bs "update") (bs "z") None 0; demo_set (bs "c") 7] in
  let r := polled [bad; demo_e2] start in
  rp_last r = 2 /\ score (bs "a") r = None /\ score (bs "c") r = None /\ rp_lag r = 0.
Proof. vm_compute. auto. Qed.

(** A primary without a snapshot numbers its first entry 0, which a new replica never asks for. *)
Lemma first_entry_not_replicated :
  let e := demo_log 0 [demo_set (bs "a") 5] demo_sd0 in
  (serve_wal_entries (Some (frame (raw e))) (rp_last start) 2048).1 = [] /\ score (bs "a") (polled [e] start) = None.
Proof. vm_compute. auto. Qed.

(** A promotion while a poll is in flight: the new primary commits, and what the old one answers
    is still applied, over the commit. *)
Definition promoted : Rep := (promote after_torn).2.
Definition own_commit : Rep :=
  let '(_, ts) := set_row 1000 (bs "t") (bs "b") (demo_row 99) (store (rp_node promoted)) in
  {| rp_node := with_seq 3 (with_store ts (rp_node promoted)); rp_last := rp_last promoted; rp_lag := rp_lag promoted |}.

Lemma promotion_in_flight :
  replica (rp_node own_commit) = false /\ score (bs "b") own_commit = Some (Num (PosInt 99)) /\
  exists r', on_reply 1000 demo_now (fun _ => true) config (Body (answer_of full_log after_torn)) 0 own_commit = Some (LIdle, 0, r') /\
    score (bs "b") r' = Some (Num (PosInt 6)).
Proof. split; [vm_compute; reflexivity|]. split; [vm_compute; reflexivity|]. eexists. split; vm_compute; reflexivity. Qed.

(** *** Backups *)

#[local] Existing Instance DemoSnapshot.demo_snapshot_laws.
#[local] Instance demo_meta : MetaCodec := {|
  meta_to_string m := Some (enc_value (Array [zv (created_unix_secs m); zv (m_last_seq m); zv (m_row_count m); zv (wal_bytes m); Str (voltra_version m)]));
  meta_from_str b := match dec_value b with
    | Some (Array [Num (PosInt a); Num (PosInt b); Num (PosInt c); Num (PosInt d); Str v]) =>
        Some {| created_unix_secs := a; m_last_seq := b; m_row_count := c; wal_bytes := d; voltra_version := v |}
    | _ => None
    end |}.
Definition backed_up (q : Z) (ts : TableStore) (log : list WalEntry) : result VoltraError Bytes * Backups * TableStore :=
  backup_now 1700 0 (bs "1.0") ts (Some (log_of log)) ∅ q.
Definition demo_bk_log : list WalEntry := DemoSnapshot.demo_old :: DemoSnapshot.demo_es.

Lemma demo_backed_up q log : exists dir', backed_up q DemoSnapshot.demo_ts log = (Ok (backup_name 1700 q), dir', DemoSnapshot.demo_ts).
Proof.
  unfold backed_up, backup_now. rewrite lookup_empty. cbn [default from_option].
  destruct (DemoSnapshot.demo_saves q ∅) as [d ->]. cbn [meta_to_string demo_meta]. by eexists.
Qed.

Lemma demo_times : in_time_order DemoSnapshot.demo_es.
Proof. repeat constructor; cbn; lia. Qed.


(** *** What backups do not mean to do *)

(** A server started with what a restore left, over snapshots [snaps]. *)
Definition restarted (q : Z) (ts : TableStore) (log : list WalEntry) (snaps : gmap Bytes Bytes) (until : option Z) : TableStore :=
  let '(_, dir, _) := backed_up q ts log in
  match restore_to_dirs (dir !! backup_name 1700 q) None snaps until with
  | (Ok _, wal, snaps) => snd (app_boot 1000 demo_now snaps wal empty_ts)
  | _ => empty_ts
  end.

(** A time before the backup: the snapshot has what was written later, and is restored all the same. *)
Lemma cutoff_before_the_backup :
  w_timestamp (header DemoSnapshot.demo_old) = 5 /\
  seen (bs "t") (bs "a") (bs "score") (restarted 0 DemoSnapshot.demo_ts demo_bk_log ∅ (Some 1)) = Some (Num (PosInt 5)).
Proof. split; vm_compute; reflexivity. Qed.

(** The number a backup is made at is the next one to be given, which the first commit after the
    snapshot gets: with the copy of the log it is in the backup, and passed over at the start. *)
Lemma commit_during_backup_lost :
  let next := 1 in
  let e := demo_log next demo_ds2 DemoSnapshot.demo_sd in
  let live := snd (apply_delta_batch 1000 demo_now demo_ds2 DemoSnapshot.demo_ts) in
  let ts := restarted next DemoSnapshot.demo_ts [DemoSnapshot.demo_old; e] ∅ None in
  seen (bs "t") (bs "b") (bs "score") live = Some (Num (PosInt 6)) /\ seen (bs "t") (bs "b") (bs "score") ts = None /\
  seen (bs "t") (bs "a") (bs "score") live = None /\ seen (bs "t") (bs "a") (bs "score") ts = Some (Num (PosInt 5)).
Proof. split; [|split; [|split]]; vm_compute; reflexivity. Qed.

(** The snapshots of the live directory stay: one newer than the backup's is what the server
    starts from. *)
Lemma newer_snapshot_stays :
  let '(r, _) := save_snapshot 9 0 ∅ (snd (apply_delta_batch 1000 demo_now demo_ds2 DemoSnapshot.demo_ts)) in
  let snaps := match r with Ok d => d | Err _ => ∅ end in
  let ts := restarted 0 DemoSnapshot.demo_ts [DemoSnapshot.demo_old] snaps None in
  seen (bs "t") (bs "a") (bs "score") DemoSnapshot.demo_ts = Some (Num (PosInt 5)) /\
  seen (bs "t") (bs "a") (bs "score") ts = None /\ seen (bs "t") (bs "b") (bs "score") ts = Some (Num (PosInt 6)).
Proof. vm_compute. auto. Qed.

(** A clock set back: the backup just made is the oldest by name, and the rotation removes it. *)
Lemma backup_rotated_at_once :
  let '(_, dir, _) := backed_up 0 DemoSnapshot.demo_ts [] in
  let '(r, dir', _) := run_backup 1600 0 (bs "1.0") 1 DemoSnapshot.demo_ts None dir 7 in
  r = Ok (backup_name 1600 7, 1%nat) /\ dir' !! backup_name 1600 7 = None /\ map fst (list_backups dir') = [backup_name 1700 0].
Proof. vm_compute. auto. Qed.
End DemoReplica.
