(* ===== verification/WorkerRows.v ===== *)
(** * Workers that read, compute and write: no update is lost

    Any number of workers run a reducer that reads a row and writes what it computes from it,
    while conflicts make them try again: the row ends as if the commits had computed one after
    the other. *)

From S2P Require Import Prelude Util Json JsonCodec Errors Schema Table TableIndex TableBatch TableReads SubQuery Subscriptions Tenant Reducer ReducerFacts Wal Cluster SubFacts ClusterFacts Worker WorkerFacts.

Section Rows.
Context `{SerdeLaws} `{Lowercase} `{MsgCodec} `{Zstd} `{PeerCodec} `{WalCodec}.
Variable max_blob : Z.
Variables n k : Bytes.
Hypothesis Hn : parse_lobby_key n = None.
Implicit Types (ts : TableStore) (d : RowDelta) (v u : Value) (w : Worker).

(** ** One row of the root store *)

Record holds ts v : Prop := {
  h_lru : lru (root ts) = None;
  h_count : shard_count (root ts) <= 1;
  h_shard : 0 <= shard_id (root ts) < 2 ^ 32;
  h_row : get_row_in (root ts) (blob_file ts) n k = Ok (Some v) }.

(** The row was [v] at version [ver]: it is still, or it has a higher version. *)
Definition stands ver v ts : Prop := ver <= version_at (root ts) n k /\
  (version_at (root ts) n k = ver -> get_row_in (root ts) (blob_file ts) n k = Ok (Some v)).

(** Nothing has happened to the row. *)
Definition kept ts ts' : Prop :=
  TableReads.frame (root ts, blob_file ts) (root ts', blob_file ts') /\ row_at (root ts') n k = row_at (root ts) n k.

Lemma same_kept ts ts' : root ts' = root ts -> blob_file ts' = blob_file ts -> kept ts ts'.
Proof. intros Er Eb. unfold kept. rewrite Er, Eb. split; [apply TableReads.frame_refl|done]. Qed.

Lemma holds_kept ts ts' v : kept ts ts' -> holds ts v -> holds ts' v.
Proof.
  intros [Hf Hr] [Hl Hc Hs Hv]. pose proof Hf as (Ei & Ec & El & _). cbn in *. constructor; [by apply El|congruence|by rewrite Ei|].
  by eapply get_row_frame.
Qed.

Lemma stands_kept ver v ts ts' : kept ts ts' -> stands ver v ts -> stands ver v ts'.
Proof.
  intros [Hf Hr] [Hle Hv]. unfold stands, version_at in *. rewrite Hr. split; [done|]. intros He. eapply get_row_frame; eauto.
Qed.

Lemma stands_now ts v ver : holds ts v -> get_row_with_version_in (root ts) (blob_file ts) n k = Ok (Some (v, ver)) -> stands ver v ts.
Proof.
  intros Hh Hg. split; [|intros _; apply Hh]. unfold get_row_with_version_in in Hg.
  rewrite bool_decide_eq_false_2 in Hg by (rewrite Hn; by intros [? ?]). unfold version_at, row_at.
  destruct (tables (root ts) !! n ≫= _) as [row|]; [|done]. destruct (negb _); [done|].
  destruct (full_value _ row); cbn in Hg; [|done]. injection Hg as _ <-. lia.
Qed.

(** ** A batch of one update *)

Definition updates v d : Prop :=
  table_name d = n /\ row_key d = k /\ operation d = bs "update" /\ row_data_value d = Some v.

Lemma apply_update now d v s file : shard_count s <= 1 -> updates v d ->
  apply_loop max_blob now [d] [] [] (s, file) =
  match write_row_unlocked max_blob n k v (s, file) with
  | (Ok c, (s', file')) => (Ok [c], (track (now 0%nat) c s', file'))
  | (Err e, (s', file')) => (Err e, (rollback s' [undo_of s n k], file'))
  end.
Proof.
  intros Hc (Ht & Hk & Ho & Hd). cbn [apply_loop]. unfold row_matches_shard. cbn [fst]. rewrite zle_true by done.
  cbn [orb negb]. unfold apply_one. rewrite Ho, Hd, Ht, Hk.
  change (beq (bs "update") (bs "insert") || beq (bs "update") (bs "update")) with true. cbn iota.
  cbn [fst]. by destruct (write_row_unlocked _ _ _ _ _) as [[c|x] [s' f']].
Qed.

Lemma update_refused now d v s file e s' file' : shard_count s <= 1 -> updates v d ->
  apply_loop max_blob now [d] [] [] (s, file) = (Err e, (s', file')) -> same_rows s s'.
Proof.
  intros Hc Hu E. rewrite (apply_update _ _ _ _ _ Hc Hu) in E.
  destruct (write_row_unlocked _ _ _ _ _) as [[c|x] [s3 f3]] eqn:Ew; [done|]. injection E as _ <- _.
  pose proof (write_row_rows _ _ _ _ _ _ _ _ _ Ew) as Hr. pose proof (write_row_table _ _ _ _ _ _ _ _ _ Ew) as Hts.
  apply (rollback_rows s [undo_of s n k] s3); [|by intros ??|by intros ?].
  apply (logged_snoc s [] s s s3); [by apply logged_nil; [intros ??|intros ?]|by intros ??|by intros ?| |apply Hts].
  apply undoes_delete; [apply Hts|]. intros n' k' _. apply Hr.
Qed.

Lemma update_batch now d v ver s file r s' file' : lru s = None -> shard_count s <= 1 -> 0 <= shard_id s < 2 ^ 32 ->
  updates v d -> storable v = true -> get_field v (bs "inventory") = None ->
  batch_inner max_blob now [d] [(n, k, ver)] (s, file) = (r, (s', file')) ->
  match r with
  | Err _ => row_at s' n k = row_at s n k
  | Ok _ => version_at s n k = ver /\ version_at s n k < version_at s' n k /\
            get_row_in s' file' n k = Ok (Some (stamp (shard_id s) n k v))
  end.
Proof.
  intros Hl Hc Hs Hu Hst Hinv Hb. pose proof Hu as (Ht & Hk & Ho & Hd).
  assert (Hw : (n, k) ∈ lock_keys s [d]).
  { apply elem_lock_keys. exists d. split; [by left|]. split; [done|]. unfold row_matches_shard. by rewrite zle_true. }
  pose proof (batch_version max_blob n k now [d] [(n, k, ver)] s file) as Hbv.
  unfold batch_inner in Hb, Hbv. set (s1 := foldl _ s _) in Hb, Hbv.
  assert (He : same_env s s1) by apply create_tables_env. destruct He as (Ei & Ec & _ & El).
  assert (Hr1 : same_rows s s1) by apply create_tables_rows.
  destruct (occ_check s1 _ _) as [[]|x] eqn:Eo; [|injection Hb as <- <- _; apply Hr1].
  destruct (apply_loop _ _ _ _ _ _) as [[c|x] [s2 f2]] eqn:E.
  - injection Hb as <- <- <-. destruct (Hbv c (evict c s2) f2 Hl) as (_ & _ & _ & _ & Hlt); [|done|].
    { intros d' Hd' _. apply list_elem_of_singleton in Hd' as ->. by rewrite Ho. }
    pose proof (occ_check_ok _ _ _ n k ver Eo ltac:(by left) Hw) as Hver.
    rewrite row_version_at in Hver by done. rewrite (same_rows_version _ _ _ _ Hr1) in Hver.
    split; [done|]. split; [by apply Hlt|]. rewrite (apply_update _ _ v) in E by (by rewrite ?Ec).
    destruct (write_row_unlocked _ _ _ _ _) as [[c1|x] [s3 f3]] eqn:Ew; [|done]. injection E as <- <- <-.
    rewrite evict_none.
    + apply write_row_read in Ew; [|by rewrite Ei|done..]. rewrite Ei in Ew. unfold get_row_in, get_row_with_version_in in *.
      rewrite track_tables. pose proof (track_env (now 0%nat) c1 s3) as [Et1 Et2]. unfold row_matches_shard in *. by rewrite Et1, Et2.
    + apply (frame_track (now 0%nat) c1 s3 f3). apply (write_row_frame _ _ _ _ _ _ _ _ _ Ew). exact (eq_trans El Hl).
  - injection Hb as <- <- <-. apply (update_refused _ _ v) in E; [|by rewrite Ec|done]. by rewrite (E n k).
Qed.

(** ** A commit of one update *)

Section Commits.
Variable schemas : SchemaRegistry.
Variable tenants : TenantRegistry.
Hypothesis Hschema : schemas !! n = None.
Hypothesis Hlogical : schemas !! logical_table n = None.

Definition plain_ctx (x : Ctx) : Prop := tenant_id x = None /\ schema x = Some schemas.

(** The commit has passed some of its guards; nothing is denied. *)
Definition guarding x (g : Stage) : Prop := g = AtQuota \/ exists l, g = AtPolicies l [] /\ (l = pending x \/ l = []).

Lemma at_batch_or_not (g : Stage) : g = AtPolicies [] [] \/ g <> AtPolicies [] [].
Proof. destruct g as [| |[] []]; by (left + right). Qed.

Lemma update_guards reg now x ts g o x' ts' d v : plain_ctx x -> pending x = [d] -> updates v d -> guarding x g ->
  g <> AtPolicies [] [] -> commit_step max_blob reg now g (x, ts) = (o, (x', ts')) ->
  x' = x /\ ts' = ts /\ exists g', o = inl g' /\ guarding x g'.
Proof.
  intros [Hxt Hxs] Hp (Ht & Hk & Ho & Hd) [->|(l & -> & [->| ->])] Hne.
  - cbn [commit_step]. unfold to_policies. rewrite Hxt, Hxs. intros [= <- <- <-]. split_and!; [done..|].
    eexists. split; [reflexivity|]. right. eexists. split; [done|by left].
  - rewrite Hp. cbn [commit_step]. unfold denies. rewrite Hxs, Ho, Ht. change (beq (bs "update") (bs "counter_add")) with false.
    change (default ∅ (Some schemas)) with schemas. rewrite Hlogical. intros [= <- <- <-]. split_and!; [done..|]. eexists. split; [reflexivity|].
    right. eexists. split; [done|by right].
  - done.
Qed.

Lemma update_commit now x ts r x' ts' v0 v d ver : holds ts v0 -> plain_ctx x -> pending x = [d] ->
  read_versions x = {[(n, k) := ver]} -> updates v d -> storable v = true -> get_field v (bs "inventory") = None ->
  commit_batch max_blob now (x, ts) = (r, (x', ts')) ->
  plain_ctx x' /\
  match r with
  | Err _ => kept ts ts'
  | Ok _ => version_at (root ts) n k = ver /\ version_at (root ts) n k < version_at (root ts') n k /\
            holds ts' (stamp (shard_id (root ts)) n k v) /\ shard_id (root ts') = shard_id (root ts)
  end.
Proof.
  intros Hh [Hxt Hxs] Hp Hv Hu Hst Hinv Hc. pose proof Hu as (Ht & Hk & Ho & Hd). pose proof Hh as [Hl Hsc Hsh _].
  unfold commit_batch, apply_delta_batch_versioned, read_set in Hc. rewrite Hp, Hv, map_to_list_singleton in Hc. cbn [List.filter] in Hc.
  assert (Hg : is_global n = true) by (unfold is_global; by rewrite bool_decide_eq_true_2).
  rewrite Ht in Hc. cbn [fst] in Hc. rewrite Hg in Hc. unfold on_root in Hc.
  destruct (batch_inner _ _ _ _ _) as [r0 [s1 f1]] eqn:Eb.
  pose proof (batch_frame _ _ _ _ _ _ _ _ _ Hl Eb) as Hf. pose proof (update_batch _ _ _ _ _ _ _ _ _ Hl Hsc Hsh Hu Hst Hinv Eb) as Hr.
  destruct r0 as [l|e].
  - assert (Hlo : lobbies_of [d] = []) by (unfold lobbies_of; cbn; by rewrite Ht, Hn).
    rewrite Hlo in Hc. cbn [batch_lobbies] in Hc. injection Hc as <- <- <-. split; [done|]. cbn. destruct Hr as (? & ? & Hrow).
    destruct Hf as (Ei & Ec & El & _). cbn in Ei, Ec, El. split_and!; [done..| |done].
    constructor; cbn; [by apply El|congruence|by rewrite Ei|done].
  - injection Hc as <- <- <-. split; [done|]. by split.
Qed.

(** ** Reads and staged writes *)

Lemma read_now ts v : holds ts v -> exists ver ts', get_row_with_version n k ts = (Ok (Some (v, ver)), ts') /\
  kept ts ts' /\ stands ver v ts.
Proof.
  intros Hh. pose proof (h_row _ _ Hh) as Hr. unfold get_row_in in Hr.
  destruct (get_row_with_version_in (root ts) (blob_file ts) n k) as [[[v' ver]|]|e] eqn:E; [|done..]. cbn in Hr.
  injection Hr as ->. exists ver. eexists. unfold get_row_with_version, route. rewrite Hn. unfold on_root, Table.reads. cbn [fst snd]. rewrite E.
  split; [reflexivity|]. split; [by apply same_kept|]. by apply stands_now.
Qed.

Lemma phys_none x : tenant_id x = None -> phys x n = n.
Proof. unfold phys. by intros ->. Qed.

Lemma ask_row x ts v : holds ts v -> plain_ctx x -> pending x = [] ->
  exists ver ts', Reducer.get_row n k (x, ts) = (Ok (Some v), (remember n k ver x, ts')) /\ kept ts ts' /\ stands ver v ts.
Proof.
  intros Hh [Ht Hs] Hp. destruct (read_now ts v Hh) as (ver & ts' & Hg & Hk & Hst). exists ver, ts'.
  split; [|by split]. unfold Reducer.get_row. rewrite (phys_none x Ht), Hp, Hg. cbn [rev List.find option_map fst].
  unfold visible, remember. destruct (read_versions x !! (n, k)); cbn [schema with_reads]; rewrite Hs; cbn [mbind option_bind]; by rewrite Hschema.
Qed.

Lemma put_row x ts v u ver : holds ts v -> plain_ctx x -> pending x = [] -> read_versions x = {[(n, k) := ver]} ->
  storable u = true -> float_free u = true ->
  exists d ts', Reducer.set_row n k u (x, ts) = (Ok d, (stage d x, ts')) /\ kept ts ts' /\ updates u d.
Proof.
  intros Hh Hx Hp Hv Hu1 Hu2. destruct (ask_row x ts v Hh Hx Hp) as (ver' & ts' & Hg & Hk & _). destruct Hx as [Ht Hs].
  assert (Hr : remember n k ver' x = x) by (unfold remember; by rewrite Hv, lookup_singleton_eq).
  rewrite Hr in Hg. unfold Reducer.set_row. rewrite Hs. unfold validate. rewrite Hschema, Hg, (phys_none x Ht).
  do 2 eexists. split; [reflexivity|]. split; [exact Hk|]. split_and!; [done..|]. by apply json_round.
Qed.
End Commits.

(** ** Read, compute, write *)

Section Reducers.
Variable f : Bytes -> Value -> Value.
Hypothesis Hf : forall a v, storable v = true ->
  storable (f a v) = true /\ float_free (f a v) = true /\ get_field (f a v) (bs "inventory") = None.
#[local] Abbreviation after_read := (after_read n k f).
#[local] Abbreviation read_modify_write := (read_modify_write n k f).

Variable registry : Bytes -> option (Bytes -> Code).
Variable name : Bytes.
Hypothesis Hregistry : registry name = Some read_modify_write.
Variable schemas : SchemaRegistry.
Variable tenants : TenantRegistry.
Hypothesis Hschema : schemas !! n = None.
Hypothesis Hlogical : schemas !! logical_table n = None.

Lemma execute_it a : execute registry name a = read_modify_write a.
Proof. unfold execute. by rewrite Hregistry. Qed.

(** A single call of the reducer, for no tenant. *)
Definition ordinary (c : PendingCall) : Prop := reducer_name c = name /\ tx_batch c = None /\ p_tenant_id c = None.

(** How far a worker has come with it. *)
Inductive stage_of (a : Bytes) ts (x : Ctx) : option (Bytes * Code) -> Prop :=
| st_start : pending x = [] -> read_versions x = ∅ -> stage_of a ts x (Some (name, read_modify_write a))
| st_read v ver : pending x = [] -> read_versions x = {[(n, k) := ver]} -> stands ver v ts -> storable v = true ->
    stage_of a ts x (Some (name, after_read a (Ok (Some v))))
| st_wrote v ver d code : pending x = [d] -> read_versions x = {[(n, k) := ver]} -> stands ver v ts ->
    storable v = true -> updates (f a v) d -> code = None \/ code = Some (name, Return (Ok [])) -> stage_of a ts x code.

Record on_course ts (r : Running) : Prop := {
  oc_call : ordinary (r_call r);
  oc_rest : r_rest r = [];
  oc_ctx : plain_ctx schemas (r_ctx r);
  oc_stage : stage_of (args (r_call r)) ts (r_ctx r) (r_code r);
  oc_guards : match r_code r with Some _ => r_stage r = AtQuota | None => guarding (r_ctx r) (r_stage r) end }.

Lemma stage_kept a ts ts' x code : kept ts ts' -> stage_of a ts x code -> stage_of a ts' x code.
Proof.
  intros Hk [Hp Hv|v ver Hp Hv Hst Hs|v ver d code' Hp Hv Hst Hs Hu Hc]; [by apply st_start|by eapply st_read, Hs; eauto using stands_kept|].
  eapply st_wrote; eauto using stands_kept.
Qed.

Lemma on_course_kept ts ts' r : kept ts ts' -> on_course ts r -> on_course ts' r.
Proof. intros Hk [Hc Hr Hx Hs Hg]. constructor; try done. by eapply stage_kept. Qed.

(** The row has been written: what was read before does not stand in the way. *)
Lemma stage_moved a ts ts' x code : (forall ver v, stands ver v ts -> stands ver v ts') -> stage_of a ts x code -> stage_of a ts' x code.
Proof.
  intros Hk [Hp Hv|v ver Hp Hv Hst Hs|v ver d code' Hp Hv Hst Hs Hu Hc]; [by apply st_start|by eapply st_read, Hs; eauto|].
  eapply st_wrote; eauto.
Qed.

Lemma stands_written ver v ts ts' : version_at (root ts) n k < version_at (root ts') n k -> stands ver v ts -> stands ver v ts'.
Proof. intros Hlt [Hle _]. split; [lia|]. intros He. lia. Qed.

Definition commit_call (e : Event) : option PendingCall := match e with Commits c _ _ => Some c | _ => None end.
(** What one commit makes of the row; the store stamps it. *)
Definition applied (shard : Z) v (c : PendingCall) : Value := stamp shard n k (f (args c) v).

(** What a step does to the row and to those who have read it. *)
Record carries ts v ts' evs : Prop := {
  ca_holds : holds ts' (foldl (applied (shard_id (root ts))) v (omap commit_call evs));
  ca_storable : storable (foldl (applied (shard_id (root ts))) v (omap commit_call evs)) = true;
  ca_shard : shard_id (root ts') = shard_id (root ts);
  ca_stands : forall ver u, stands ver u ts -> stands ver u ts' }.

Lemma carries_kept ts v ts' evs : holds ts v -> storable v = true -> kept ts ts' -> omap commit_call evs = [] ->
  carries ts v ts' evs.
Proof.
  intros Hh Hs Hk He. constructor; rewrite ?He; cbn; [by eapply holds_kept|done|apply Hk|].
  intros ver u. by apply stands_kept.
Qed.

Lemma kept_refl ts : kept ts ts.
Proof. by apply same_kept. Qed.

Lemma course_commit env w nd r w' nd' evs v : on_course (store nd) r -> r_code r = None -> holds (store nd) v -> storable v = true ->
  commit_turn max_blob registry tenants env w nd r = (w', nd', evs) ->
  carries (store nd) v (store nd') evs /\ forall r', phase w' = Run r' -> on_course (store nd') r'.
Proof.
  intros [Hc Hr Hx Hs Hg] Hnone Hh Hsv. rewrite Hnone in Hs, Hg. inversion Hs as [| |v' ver d code Hp Hv Hst Hs' Hu Hcode]; subst.
  destruct (Hf (args (r_call r)) v' Hs') as (Hf1 & Hf2 & Hf3). unfold commit_turn.
  destruct (commit_step _ _ _ _ _) as [o [x ts']] eqn:Ec.
  destruct (at_batch_or_not (r_stage r)) as [Hb|Hb]; cycle 1.
  { destruct (update_guards schemas Hlogical _ _ _ _ _ _ _ _ _ _ Hx Hp Hu Hg Hb Ec) as (-> & -> & g' & -> & Hg').
    intros [= <- <- <-]. split; [by apply carries_kept; [..|apply kept_refl|]|]. intros r' [= <-].
    constructor; cbn; rewrite ?Hnone; [done..|by eapply st_wrote; eauto|done]. }
  rewrite Hb in Ec. cbn [commit_step] in Ec. destruct (commit_batch _ _ _) as [res cts] eqn:Ecb. injection Ec as <- ->. rename Ecb into Ec.
  destruct (update_commit schemas _ _ _ _ _ _ _ _ _ _ Hh Hx Hp Hv Hu Hf1 Hf3 Ec) as [Hx' Hres]. destruct res as [ds|e].
  - destruct Hres as (Hver & Hlt & Hh' & Hsh). destruct Hst as [_ Hst]. specialize (Hst Hver). rewrite (h_row _ _ Hh) in Hst.
    injection Hst as <-. assert (Hca : carries (store nd) v ts' [Commits (r_call r) (r_detached r) ds]).
    { constructor; cbn; [done|by apply stamp_storable, Hf1; apply Hh|done|]. intros ver' u. by apply stands_written. }
    destruct (r_detached r); intros [= <- <- <-]; by split.
  - destruct (_ && _); [|unfold fail; destruct (r_detached r)]; intros [= <- <- <-];
      (split; [by apply carries_kept|]); try done.
    intros r' [= <-]. destruct Hc as (Hc1 & Hc2 & Hc3). constructor; cbn; [done|done|by destruct Hx'| |done].
    rewrite Hc1, execute_it. by apply st_start.
Qed.

Lemma course_run env w nd r w' nd' evs v : on_course (store nd) r -> holds (store nd) v -> storable v = true ->
  run_turn max_blob registry tenants env w nd r = (w', nd', evs) ->
  carries (store nd) v (store nd') evs /\ forall r', phase w' = Run r' -> on_course (store nd') r'.
Proof.
  intros Hoc Hh Hsv. pose proof Hoc as [Hc Hr Hx Hs Hg0]. unfold run_turn.
  inversion Hs as [Hp Hv Hcode|v' ver Hp Hv Hst Hs' Hcode|v' ver d code Hp Hv Hst Hs' Hu [Hcode|Hcode] Hcode']; subst.
  - cbn iota. cbv [WorkerFacts.read_modify_write]. cbn [perform]. destruct (ask_row schemas Hschema _ _ _ Hh Hx Hp) as (ver & ts' & Hg & Hk & Hst).
    rewrite Hg. intros [= <- <- <-]. split; [by apply carries_kept|]. intros r' [= <-]. rewrite <- Hcode in Hg0. constructor; cbn; [done|done| | |done].
    + unfold remember. rewrite Hv, lookup_empty. exact Hx.
    + apply (st_read _ _ _ v ver); unfold remember; rewrite ?Hv, ?lookup_empty; cbn; [done|by rewrite ?Hv|by eapply stands_kept|done].
  - cbn [WorkerFacts.after_read]. cbn iota. cbn [perform]. destruct (Hf (args (r_call r)) v' Hs') as (Hf1 & Hf2 & Hf3).
    destruct (put_row schemas Hschema _ _ _ (f (args (r_call r)) v') ver Hh Hx Hp Hv Hf1 Hf2) as (d & ts' & Hg & Hk & Hu).
    rewrite Hg. intros [= <- <- <-]. split; [by apply carries_kept|]. intros r' [= <-]. rewrite <- Hcode in Hg0. constructor; cbn; [done|done|exact Hx| |done].
    eapply st_wrote; [cbn; by rewrite Hp|exact Hv|by eapply stands_kept|done|done|by right].
  - rewrite Hcode, Hr. by eapply course_commit.
  - rewrite Hcode. intros [= <- <- <-]. split; [apply carries_kept; [done|done|apply kept_refl|done]|]. intros r' [= <-]. rewrite Hcode in Hg0. constructor; cbn; [done..| |by left].
    eapply st_wrote; eauto.
Qed.

(** ** All workers *)

Implicit Types (s : System) (evs : list Event).
#[local] Abbreviation sys_step := (sys_step max_blob registry schemas tenants).
#[local] Abbreviation runs := (runs max_blob registry schemas tenants).

Definition courses ts w : Prop := forall r, phase w = Run r -> on_course ts r.

Lemma course_turn env w nd w' nd' evs v : courses (store nd) w -> holds (store nd) v -> storable v = true ->
  turn max_blob registry tenants env w nd = Some (w', nd', evs) ->
  carries (store nd) v (store nd') evs /\ courses (store nd') w'.
Proof.
  intros Hc Hh Hs. unfold turn. destruct (phase w) as [|r|c ts res ds|c ts res ds|c ts res ds seq] eqn:Hp; [done|..].
  - intros [= E]. eapply course_run; eauto.
  - unfold publish_turn. destruct ds as [|d ds]; [|destruct (publish_deltas _ _); [|done]];
      intros [= <- <- <-]; (split; [apply carries_kept; [done|done|apply kept_refl|done]|by intros r]).
  - intros [= <- <- <-]. split; [apply carries_kept; [done|done|apply kept_refl|done]|by intros r].
  - unfold log_turn. destruct (match append _ _ with Ok _ => _ | Err _ => _ end) as [nd1 ok] eqn:E.
    assert (Hst : store nd1 = store nd) by (destruct (append _ _); [destruct (e_room env)|]; by injection E as <- _).
    intros [= <- <- <-]. split; [|by intros r]. cbn [store count_calls]. rewrite Hst. apply carries_kept; [done|done|apply kept_refl|done].
Qed.

Lemma course_take env c w nd w' nd' evs : ordinary c -> phase w = Idle ->
  take registry schemas env c w nd = (w', nd', evs) -> store nd' = store nd /\ omap commit_call evs = [] /\ courses (store nd') w'.
Proof.
  intros (Hc1 & Hc2 & Hc3) Hp. unfold take. destruct (replica nd); intros [= <- <- <-]; (split; [done|]; split; [done|]).
  - intros r Hr. congruence.
  - intros r [= <-]. unfold start. constructor; cbn; rewrite ?Hc2; [done|done| | |done].
    + unfold context. rewrite Hc3. by destruct (kind w).
    + rewrite Hc1, execute_it. apply st_start; unfold context; rewrite Hc3; by destruct (kind w).
Qed.

Lemma courses_carried ts v ts' evs w : carries ts v ts' evs -> courses ts w -> courses ts' w.
Proof.
  intros Hc Hw r Hr. destruct (Hw r Hr) as [H1' H2' H3' H4' H5']. constructor; [done..| |done]. eapply stage_moved; [|done]. apply Hc.
Qed.

Lemma carries_trans ts1 v1 ts2 evs ts3 evs' : carries ts1 v1 ts2 evs ->
  carries ts2 (foldl (applied (shard_id (root ts1))) v1 (omap commit_call evs)) ts3 evs' -> carries ts1 v1 ts3 (evs ++ evs').
Proof.
  intros [Ha Hb Hc Hd] [Ha' Hb' Hc' Hd']. rewrite Hc in Ha', Hb'. constructor; rewrite ?omap_app, ?foldl_app; [done|done|congruence|].
  intros ver u Hu. by apply Hd', Hd.
Qed.

Definition all_courses s : Prop := forall i w, workers s !! i = Some w -> courses (store (node s)) w.

(** The worker that moved, and those that did not. *)
Lemma courses_set s ts' nd' evs v i w' : store nd' = ts' -> all_courses s -> carries (store (node s)) v ts' evs ->
  courses ts' w' -> all_courses {| node := nd'; workers := <[i := w']> (workers s) |}.
Proof.
  intros <- Ha Hc Hw j w Hj. cbn in *. apply lookup_insert_Some in Hj as [[<- <-]|[_ Hj]]; [done|].
  eapply courses_carried; [done|]. by eapply Ha.
Qed.

Lemma course_step s evs s' v : all_courses s -> holds (store (node s)) v -> storable v = true -> sys_step s evs s' ->
  Forall ordinary (omap took_of evs) -> carries (store (node s)) v (store (node s')) evs /\ all_courses s'.
Proof.
  intros Ha Hh Hs Hstep Ho.
  destruct Hstep as [s i w env c w' nd' evs Hi Hp Ht|s i w env w' nd' evs Hi Ht|s i w r j w' nd' evs Hi Hp Hk Hsg Hd Hj Ht|s m b].
  - assert (Hc : ordinary c).
    { unfold take in Ht. destruct (replica _); injection Ht as _ _ <-; cbn in Ho; by inversion Ho. }
    destruct (course_take _ _ _ _ _ _ _ Hc Hp Ht) as (Hst & He & Hcs).
    assert (Hca : carries (store (node s)) v (store nd') evs) by (apply carries_kept; [done|done|rewrite Hst; apply kept_refl|done]).
    split; [exact Hca|]. eapply courses_set; [reflexivity|exact Ha|exact Hca|exact Hcs].
  - destruct (course_turn _ _ _ _ _ _ v (Ha i w Hi) Hh Hs Ht) as [Hca Hcs]. split; [exact Hca|]. eapply courses_set; [reflexivity|exact Ha|exact Hca|exact Hcs].
  - injection Ht as <- <- <-. assert (Hca : carries (store (node s)) v (store (node s)) [Answers (r_call r) TimedOut])
      by (apply carries_kept; [done|done|apply kept_refl|done]). split; [done|].
    intros i' w1 Hi'. cbn in *. apply lookup_insert_Some in Hi' as [[<- <-]|[_ Hi']].
    + intros r' [= <-]. by destruct (Ha i w Hi r Hp).
    + apply lookup_insert_Some in Hi' as [[<- <-]|[_ Hi']]; [by intros r'|]. by eapply Ha.
  - split; [apply carries_kept; [done|done|apply kept_refl|done]|exact Ha].
Qed.

Lemma course_runs s0 v0 evs s : (forall i w, workers s0 !! i = Some w -> phase w = Idle) ->
  holds (store (node s0)) v0 -> storable v0 = true -> runs s0 evs s -> Forall ordinary (omap took_of evs) ->
  carries (store (node s0)) v0 (store (node s)) evs /\ all_courses s.
Proof.
  intros Hi Hh Hs Hr. induction Hr as [|evs s1 evs' s2 _ IH Hstep]; intros Ho.
  - split; [apply carries_kept; [done|done|apply kept_refl|done]|]. intros i w Hw r Hp. rewrite (Hi i w Hw) in Hp. done.
  - rewrite omap_app, Forall_app in Ho. destruct Ho as [Ho Ho']. destruct (IH Ho) as [Hc Ha].
    destruct (course_step s1 evs' s2 _ Ha (ca_holds _ _ _ _ Hc) (ca_storable _ _ _ _ Hc) Hstep Ho') as [Hc' Ha'].
    split; [|done]. by eapply carries_trans.
Qed.

End Reducers.
End Rows.

(** ** Two workers on one row *)

#[local] Existing Instances demo_serde demo_laws SubFacts.demo_lower SubFacts.demo_zstd SubFacts.demo_codec demo_peer_codec Wal.demo_codec.

Lemma demo_add_fits a v : storable v = true ->
  storable (demo_add a v) = true /\ float_free (demo_add a v) = true /\ get_field (demo_add a v) (bs "inventory") = None.
Proof.
  intros _. split_and!; [|done..]. assert (Hr : 0 <= wrap_u64 (score_of v + zlen a) < U64) by by apply Z.mod_pos_bound.
  unfold demo_add, demo_row. generalize dependent (wrap_u64 (score_of v + zlen a)). intros z Hz.
  unfold storable. destruct DEPTH_S as [d ->]. cbn. destruct d; cbn; lia.
Qed.

