(* ===== verification/Socket.v ===== *)
(** * The network front end: who may connect, which calls pass, where they go
    (src/network/websocket.rs, message.rs, rate_limiter.rs; validation in src/auth.rs;
    permissions of src/config.rs; the lobby router of src/worker_pool.rs)

    A connection is its identity, its open transaction and, after a commit, the wait for the
    outcome; it takes one input at a time, and what it does is told by acts. The frames of the
    wire, token cryptography and the queues of calls are library code: classes. *)

From S2P Require Import Prelude Util Errors Json Table SqlValue SqlParser SqlExec Tenant Presence Ttl SubQuery Subscriptions SubFacts Worker.
From Stdlib Require Import SpecFloat.

(** ** Rate limits (src/network/rate_limiter.rs) *)

Module Rate.
(** Instants in nanoseconds. *)
Record TokenBucket := { tokens : f64; capacity : f64; refill_rate : f64; last_refill : Z }.

Definition bucket_new (cap : Z) (rate : f64) (now : Z) : TokenBucket :=
  {| tokens := f64_of_uint cap; capacity := f64_of_uint cap; refill_rate := rate; last_refill := now |}.

Definition refill (now : Z) (b : TokenBucket) : TokenBucket :=
  let elapsed := secs_f64 (Z.max 0 (now - last_refill b)) in
  if f64_ltb f64_zero elapsed then
    {| tokens := f64_min (f64_add (tokens b) (f64_mul elapsed (refill_rate b))) (capacity b); capacity := capacity b;
       refill_rate := refill_rate b; last_refill := now |}
  else b.

Definition try_consume (now : Z) (b : TokenBucket) : bool * TokenBucket :=
  let b := refill now b in
  if f64_leb f64_one (tokens b)
  then (true, {| tokens := f64_sub (tokens b) f64_one; capacity := capacity b; refill_rate := refill_rate b; last_refill := last_refill b |})
  else (false, b).

Record Registry := { rl_capacity : Z; rl_rate : f64; enabled : bool; rl_buckets : gmap Bytes TokenBucket }.

Definition with_buckets (m : gmap Bytes TokenBucket) (r : Registry) : Registry :=
  {| rl_capacity := rl_capacity r; rl_rate := rl_rate r; enabled := enabled r; rl_buckets := m |}.

Definition check (now : Z) (client : Bytes) (r : Registry) : bool * Registry :=
  if negb (enabled r) then (true, r)
  else
    let b := default (bucket_new (rl_capacity r) (rl_rate r) now) (rl_buckets r !! client) in
    let '(ok, b) := try_consume now b in
    (ok, with_buckets (<[client := b]> (rl_buckets r)) r).

Definition remove (client : Bytes) (r : Registry) : Registry := with_buckets (delete client (rl_buckets r)) r.
Definition client_count (r : Registry) : Z := Z.of_nat (size (rl_buckets r)).
End Rate.

(** ** Permissions (src/config.rs) *)

Inductive PermissionsPolicy : Type := OpenPolicy | ClosedPolicy.
Record PermissionsConfig := { rules : gmap Bytes (list Bytes); default_policy : PermissionsPolicy }.

Definition is_allowed (p : PermissionsConfig) (reducer caller_role : Bytes) : bool :=
  if beq caller_role (bs "scheduler") then true
  else match rules p !! reducer with
       | Some roles => existsb (fun r => beq r caller_role) roles
       | None => match default_policy p with OpenPolicy => true | ClosedPolicy => false end
       end.

(** ** Authentication (src/auth.rs) *)

Inductive AuthMode : Type := NoAuth | ApiKey (key : Bytes) | JwtHmac (secret : Bytes) | JwtRsa (public_key_pem : Bytes).

Record LegacyClaims := { lc_sub : Bytes; lc_role : Bytes; lc_exp : Z }.
Record VoltraClaims := { vc_sub : Bytes; roles : list Bytes }.

(** [decode] of jsonwebtoken with the key of the mode, without the test of the expiry; and
    [IdentityIssuer::verify] at a second, the key being the server's. *)
Class Tokens := {
  decode_legacy : AuthMode -> Bytes -> result Bytes LegacyClaims;
  verify : Z -> Bytes -> result Bytes VoltraClaims }.

Inductive AuthResult : Type := Authenticated (user_id role : Bytes) | AuthDenied (reason : Bytes) | Anonymous.

(** The token of a header: without the prefix [Bearer ]. *)
Definition bearer (header : Bytes) : option Bytes :=
  match strip_prefix (bs "Bearer ") header with
  | Some s => Some (trim s)
  | None => match strip_prefix (bs "bearer ") header with Some s => Some (trim s) | None => None end
  end.

Section Auth.
Context `{Tokens}.

Definition validate_jwt (mode : AuthMode) (now_secs : Z) (token : Bytes) : AuthResult :=
  match decode_legacy mode token with
  | Ok claims =>
      if (0 <? lc_exp claims) && (lc_exp claims <? now_secs) then
        AuthDenied (bs "Token expired at " ++ dec (lc_exp claims) ++ bs ", current time is " ++ dec now_secs)
      else Authenticated (lc_sub claims) (lc_role claims)
  | Err e => AuthDenied e
  end.

Definition validate (mode : AuthMode) (now_secs : Z) (header : Bytes) : AuthResult :=
  match bearer header with
  | None => AuthDenied (bs "Missing 'Bearer ' prefix in Authorization header")
  | Some [] => AuthDenied (bs "Empty token after Bearer prefix")
  | Some token =>
      match mode with
      | NoAuth => Anonymous
      | ApiKey expected =>
          match split_once 58 token with
          | Some (key, role) =>
              if beq key expected then Authenticated (bs "api_key_user") role else AuthDenied (bs "Invalid API key")
          | None =>
              if beq token expected then Authenticated (bs "api_key_user") (bs "default") else AuthDenied (bs "Invalid API key")
          end
      | JwtHmac _ | JwtRsa _ => validate_jwt mode now_secs token
      end
  end.

(** [from_env]: the variables, and the file named by the third, [Some None] when it cannot be
    read. An empty variable counts as unset. *)
Definition nonempty (o : option Bytes) : option Bytes := match o with Some [] => None | o => o end.
Definition auth_from_env (secret pem : option Bytes) (pem_file : option (option Bytes)) (key : option Bytes) : AuthMode :=
  match nonempty secret with
  | Some s => JwtHmac s
  | None =>
      match nonempty pem with
      | Some p => JwtRsa p
      | None =>
          match pem_file with
          | Some (Some p) => JwtRsa p
          | _ => match nonempty key with Some k => ApiKey k | None => NoAuth end
          end
      end
  end.

(** Exactly two dots. *)
Definition is_jwt (token : Bytes) : bool := Nat.eqb (length (List.filter (Z.eqb 46) token)) 2.

(** ** The handshake *)

(** The headers that are text. *)
Record Request := { authorization : option Bytes; identity_header : option Bytes }.
Record Identity := { id_caller : Bytes; id_role : Bytes; id_tenant : option Bytes }.

Inductive Refusal : Type := MissingHeader | InvalidJwt (e : Bytes) | InvalidTenantKey | Unauthorized (reason : Bytes).

Definition no_identity : Identity := {| id_caller := []; id_role := []; id_tenant := None |}.

(** What the authorization header gives. *)
Definition authorize (mode : AuthMode) (now_secs : Z) (tr : TenantRegistry) (header : Bytes) : result Refusal Identity :=
  match header with
  | [] => match mode with NoAuth => Ok no_identity | _ => Err MissingHeader end
  | _ =>
      let raw := default header (bearer header) in
      if is_jwt raw then
        match verify now_secs raw with
        | Ok c => Ok {| id_caller := vc_sub c; id_role := default [] (head (roles c)); id_tenant := None |}
        | Err e => Err (InvalidJwt e)
        end
      else if bool_decide (is_Some (strip_prefix (bs "ndbt_") raw)) then
        match resolve_key raw tr with
        | Some t => Ok {| id_caller := bs "tenant:" ++ t; id_role := bs "tenant"; id_tenant := Some t |}
        | None => Err InvalidTenantKey
        end
      else
        match validate mode now_secs header with
        | Authenticated user role => Ok {| id_caller := user; id_role := role; id_tenant := None |}
        | AuthDenied reason => Err (Unauthorized reason)
        | Anonymous => Ok no_identity
        end
  end.

Definition handshake (mode : AuthMode) (now_secs : Z) (tr : TenantRegistry) (peer_addr : Bytes) (q : Request) : result Refusal Identity :=
  match authorize mode now_secs tr (default [] (authorization q)) with
  | Err r => Err r
  | Ok i =>
      let caller := match identity_header q with Some h => h | None => id_caller i end in
      Ok {| id_caller := match caller with [] => peer_addr | c => c end; id_role := id_role i; id_tenant := id_tenant i |}
  end.
End Auth.

(** ** The lobby router (src/worker_pool.rs) *)

(** A bounded channel of kanal: [try_send] answers [Ok false] when it is full, [Err] when it
    is closed. *)
Class Kanal := {
  Queue : Type;
  bounded : Z -> Queue;
  try_send : PendingCall -> Queue -> result unit bool * Queue;
  waiting : Queue -> list PendingCall }.

Class KanalLaws (K : Kanal) : Prop := {
  bounded_empty n : waiting (bounded n) = [];
  sent p q q' : try_send p q = (Ok true, q') -> waiting q' = waiting q ++ [p];
  not_sent p q r q' : try_send p q = (r, q') -> r <> Ok true -> waiting q' = waiting q }.

Definition is_ok {E A} (r : result E A) : bool := match r with Ok _ => true | Err _ => false end.

Section Router.
Context `{Kanal}.

(** A thread that was spawned for a lobby, and the core it is pinned to. *)
Record LobbyRouter := {
  lobby_channels : gmap Bytes Queue; global_tx : Queue; channel_cap : Z; max_lobbies : Z;
  core_ids : list Z; next_core : Z; lobby_stats : gmap Bytes LobbyStats; threads : list (Bytes * option Z) }.

Definition with_global (q : Queue) (r : LobbyRouter) : LobbyRouter :=
  {| lobby_channels := lobby_channels r; global_tx := q; channel_cap := channel_cap r; max_lobbies := max_lobbies r;
     core_ids := core_ids r; next_core := next_core r; lobby_stats := lobby_stats r; threads := threads r |}.
Definition with_lobby (lobby : Bytes) (q : Queue) (r : LobbyRouter) : LobbyRouter :=
  {| lobby_channels := <[lobby := q]> (lobby_channels r); global_tx := global_tx r; channel_cap := channel_cap r;
     max_lobbies := max_lobbies r; core_ids := core_ids r; next_core := next_core r; lobby_stats := lobby_stats r;
     threads := threads r |}.

Definition next_core_id (r : LobbyRouter) : option Z * Z :=
  match core_ids r with
  | [] => (None, next_core r)
  | l => (l !! Z.to_nat (next_core r mod zlen l), wrap_u64 (next_core r + 1))
  end.

(** A worker thread for a lobby that has none. *)
Definition spawn_lobby (lobby : Bytes) (r : LobbyRouter) : LobbyRouter :=
  let '(core, next) := next_core_id r in
  {| lobby_channels := <[lobby := bounded (channel_cap r)]> (lobby_channels r); global_tx := global_tx r;
     channel_cap := channel_cap r; max_lobbies := max_lobbies r; core_ids := core_ids r; next_core := next;
     lobby_stats := <[lobby := stats_new]> (lobby_stats r); threads := threads r ++ [(lobby, core)] |}.

Definition to_global (p : PendingCall) (r : LobbyRouter) : bool * LobbyRouter :=
  let '(res, q) := try_send p (global_tx r) in (is_ok res, with_global q r).
Definition to_lobby (lobby : Bytes) (p : PendingCall) (q : Queue) (r : LobbyRouter) : bool * LobbyRouter :=
  let '(res, q) := try_send p q in (is_ok res, with_lobby lobby q r).

Definition try_dispatch (p : PendingCall) (r : LobbyRouter) : bool * LobbyRouter :=
  match lobby_hint p with
  | None | Some [] => to_global p r
  | Some lobby =>
      match lobby_channels r !! lobby with
      | Some q => to_lobby lobby p q r
      | None =>
          if max_lobbies r <=? Z.of_nat (size (lobby_channels r)) then to_global p r
          else to_lobby lobby p (bounded (channel_cap r)) (spawn_lobby lobby r)
      end
  end.

Definition active_lobby_count (r : LobbyRouter) : Z := Z.of_nat (size (lobby_channels r)).
Definition lobby_queue_depths (r : LobbyRouter) : gmap Bytes Z := (fun q => zlen (waiting q)) <$> lobby_channels r.

(** What the admin console shows of a lobby. *)
Record LobbySnapshot := {
  ls_lobby : Bytes; ls_depth : Z; ls_calls : Z; ls_errors : Z; ls_avg_ms : f64; ls_min_ms : f64; ls_max_ms : f64 }.

Definition ms_of (ns : Z) : f64 := f64_div (f64_of_uint ns) (f64_of_uint 1000000).
Definition snapshot_of (r : LobbyRouter) (e : Bytes * LobbyStats) : LobbySnapshot :=
  let st := e.2 in
  {| ls_lobby := e.1; ls_depth := match lobby_channels r !! e.1 with Some q => zlen (waiting q) | None => 0 end;
     ls_calls := calls st; ls_errors := errors st;
     ls_avg_ms := if 0 <? calls st then ms_of (total_latency_ns st / calls st) else f64_zero;
     ls_min_ms := if min_latency_ns st =? U64_MAX then f64_zero else ms_of (min_latency_ns st);
     ls_max_ms := ms_of (max_latency_ns st) |}.
Definition lobby_le (a b : LobbySnapshot) : Prop := bytes_le (ls_lobby a) (ls_lobby b).
#[export] Instance lobby_le_dec : RelDecision lobby_le.
Proof. intros a b. unfold lobby_le. apply _. Defined.
Definition lobbies_snapshot (r : LobbyRouter) : list LobbySnapshot :=
  merge_sort lobby_le (map (snapshot_of r) (map_to_list (lobby_stats r))).
End Router.

(** ** Messages (src/network/message.rs) *)

Record ReducerCall := { rc_id : Z; rc_reducer : Bytes; rc_args : Bytes }.

Inductive ClientMessage : Type :=
| CallMessage (c : ReducerCall)
| SubscribeMessage (sub query : Bytes)
| UnsubscribeMessage (sub : Bytes)
| SqlMessage (query_id : Z) (sql : Bytes)
| Heartbeat
| SetPresence (status : Bytes) (metadata : option Value)
| SetTtl (table key : Bytes) (ttl_ms : Z)
| CancelTtl (table key : Bytes)
| BeginTransaction (tx_id : Z)
| CommitTransaction (tx_id : Z)
| RollbackTransaction (tx_id : Z).

(** [TransactionOutcome] *)
Record TransactionOutcome := { o_tx : Z; o_success : bool; o_responses : list (result Bytes Bytes); o_error : option Bytes }.

Inductive AckResult : Type := AckOk | AckNotFound | AckError (e : VoltraError).

(** [ReducerResponse] and the other messages a connection writes by itself. *)
Inductive Reply : Type :=
| ReplyCall (call_id : Z) (r : result Bytes Bytes)
| ReplyAck (sub : Bytes) (a : AckResult)
| ReplyBegan (tx_id : Z)
| ReplyTransaction (o : TransactionOutcome)
| ReplyError (e : Bytes).

(** MessagePack: frames, the arguments of a call as a list of values, and which replies can be
    encoded. *)
Class Wire := {
  decode_client_message : Bytes -> option ClientMessage;
  decode_reducer_call : Bytes -> result Bytes ReducerCall;
  decode_args : Bytes -> option (list Value);
  decode_server : Bytes -> option ServerMessage;
  encodes : Reply -> bool }.

Definition failed_tx (tx_id : Z) (e : Bytes) : Reply :=
  ReplyTransaction {| o_tx := tx_id; o_success := false; o_responses := []; o_error := Some e |}.

(** ** Names of tenants in queries and frames *)

Fixpoint until_space (s : Bytes) : Bytes :=
  match strip_any white_space s with
  | Some _ => []
  | None => match s with [] => [] | c :: s' => c :: until_space s' end
  end.

Definition rewrite_query_for_tenant (query tenant : Bytes) : Bytes :=
  let trimmed := trim query in
  let table := until_space trimmed in
  if bool_decide (is_Some (strip_prefix (bs "__") table)) || bool_decide (is_Some (strip_prefix (bs "tn:") table))
  then query
  else bs "tn:" ++ tenant ++ [58] ++ trimmed.

Section Frames.
Context `{MsgCodec} `{Wire}.

Definition strip_tenant_prefix_from_frame (prefix bytes : Bytes) : Bytes :=
  match decode_server bytes with
  | Some (DiffMessage d) =>
      match strip_prefix prefix (sd_table d) with
      | Some logical =>
          default bytes (encode_server (DiffMessage {| subscription_id := subscription_id d; sd_table := logical;
            sd_key := sd_key d; sd_operation := sd_operation d; sd_data := sd_data d |}))
      | None => bytes
      end
  | Some (BodyMessage b) =>
      match strip_prefix prefix (sb_table b) with
      | Some logical =>
          default bytes (encode_server (BodyMessage {| sb_table := logical; sb_key := sb_key b;
            sb_operation := sb_operation b; sb_data := sb_data b |}))
      | None => bytes
      end
  | _ => bytes
  end.

Definition strip_tenant_frames (tenant : Bytes) (f : OutboundFrames) : OutboundFrames :=
  let prefix := bs "tn:" ++ tenant ++ [58] in
  match f with
  | One b => One (strip_tenant_prefix_from_frame prefix b)
  | Two a b => Two (strip_tenant_prefix_from_frame prefix a) (strip_tenant_prefix_from_frame prefix b)
  end.

(** [l42_p1] as the first argument is a hint at lobby [42]. *)
Definition extract_lobby_hint (args : Bytes) : option Bytes :=
  vs ← decode_args args; v ← head vs;
  match v with Str s => fst <$> parse_lobby_key s | _ => None end.
End Frames.

(** The delivery of frames to a slow client: consecutive deliveries that found its buffer
    full; [None] when it is evicted. *)
Definition strike (max_strikes : Z) (dropped : bool) (strikes : Z) : option Z :=
  if dropped then
    let s := Z.min (strikes + 1) (2 ^ 32 - 1) in if max_strikes <=? s then None else Some s
  else Some 0.

(** ** A connection *)

Section Connection.
Context `{Serde} `{Lowercase} `{SqlLib} `{MsgCodec} `{Zstd} `{Tokens} `{Kanal} `{Wire}.
Variable permissions : PermissionsConfig.
Variable inline_registry : Bytes -> option (Bytes -> Bytes).

(** What the connections share; the queue of the router for all lobbies is the queue of
    reducers itself, and the router is used when there is one. *)
Record Front := {
  f_subs : SubscriptionManager; f_tables : TableStore; f_rate : Rate.Registry; f_presence : PresenceManager;
  f_ttl : TtlManager; f_tenants : TenantRegistry; f_router : LobbyRouter; f_lobbies : bool; f_connections : Z }.

Definition with_subs (m : SubscriptionManager) (ts : TableStore) (f : Front) : Front :=
  {| f_subs := m; f_tables := ts; f_rate := f_rate f; f_presence := f_presence f; f_ttl := f_ttl f;
     f_tenants := f_tenants f; f_router := f_router f; f_lobbies := f_lobbies f; f_connections := f_connections f |}.
Definition with_rate (r : Rate.Registry) (t : TenantRegistry) (f : Front) : Front :=
  {| f_subs := f_subs f; f_tables := f_tables f; f_rate := r; f_presence := f_presence f; f_ttl := f_ttl f;
     f_tenants := t; f_router := f_router f; f_lobbies := f_lobbies f; f_connections := f_connections f |}.
Definition with_presence (p : PresenceManager) (f : Front) : Front :=
  {| f_subs := f_subs f; f_tables := f_tables f; f_rate := f_rate f; f_presence := p; f_ttl := f_ttl f;
     f_tenants := f_tenants f; f_router := f_router f; f_lobbies := f_lobbies f; f_connections := f_connections f |}.
Definition with_ttl (t : TtlManager) (f : Front) : Front :=
  {| f_subs := f_subs f; f_tables := f_tables f; f_rate := f_rate f; f_presence := f_presence f; f_ttl := t;
     f_tenants := f_tenants f; f_router := f_router f; f_lobbies := f_lobbies f; f_connections := f_connections f |}.
Definition with_router (r : LobbyRouter) (f : Front) : Front :=
  {| f_subs := f_subs f; f_tables := f_tables f; f_rate := f_rate f; f_presence := f_presence f; f_ttl := f_ttl f;
     f_tenants := f_tenants f; f_router := r; f_lobbies := f_lobbies f; f_connections := f_connections f |}.
Definition with_connections (n : Z) (f : Front) : Front :=
  {| f_subs := f_subs f; f_tables := f_tables f; f_rate := f_rate f; f_presence := f_presence f; f_ttl := f_ttl f;
     f_tenants := f_tenants f; f_router := f_router f; f_lobbies := f_lobbies f; f_connections := n |}.

Record Connection := {
  client_id : Z; who : Identity; open_tx : option (Z * list (Bytes * Bytes)); awaiting : option Z }.

Definition with_open (o : option (Z * list (Bytes * Bytes))) (c : Connection) : Connection :=
  {| client_id := client_id c; who := who c; open_tx := o; awaiting := awaiting c |}.
Definition with_awaiting (o : option Z) (c : Connection) : Connection :=
  {| client_id := client_id c; who := who c; open_tx := open_tx c; awaiting := o |}.

(** What an input shows: the clocks, and what the write channel of the client says. *)
Record InputEnv := { i_now : Z; i_ms : Z; i_write : TrySend }.

Inductive Act : Type :=
| Accepts (name args : Bytes)               (* a call has passed the checks *)
| Stages (name args : Bytes)                (* it is kept for the open transaction *)
| Inlines (name args : Bytes)               (* it is answered by the connection *)
| Dispatches (p : PendingCall) (ok : bool)  (* it is sent to a queue, and what the queue said *)
| Discards (calls : list (Bytes * Bytes))   (* what an open transaction held is dropped *)
| StartsSql (query_id : Z) (sql : Bytes)
| Writes (r : Reply)                        (* to the write channel *)
| Responds (r : Reply).                     (* to the channel of responses *)

(** A connection that goes on or ends, and what it did. [None] is a panic. *)
Definition handled : Type := option (Connection * bool * Front * list Act).

(** [write_tx.try_send]: a client whose channel is full is disconnected. *)
Definition write (env : InputEnv) (c : Connection) (f : Front) (acts : list Act) (r : Reply) : handled :=
  if encodes r then
    match i_write env with
    | Sent => Some (c, true, f, acts ++ [Writes r])
    | Full => Some (c, false, f, acts)
    | Closed => Some (c, true, f, acts)
    end
  else Some (c, true, f, acts).

Definition discard (c : Connection) : list Act := match open_tx c with Some (_, calls) => [Discards calls] | None => [] end.

Definition limited (call : ReducerCall) : Reply := ReplyCall (rc_id call) (Err (bs "Rate limited")).
Definition denied (call : ReducerCall) (role : Bytes) : Reply :=
  ReplyCall (rc_id call) (Err (bs "Permission denied: role '" ++ role ++ bs "' is not allowed to call '" ++ rc_reducer call ++ bs "'")).
Definition OVERLOADED : Bytes := bs "server overloaded, retry later".

Definition pending_of (c : Connection) (id : Z) (name args : Bytes) (hint : option Bytes) (batch : option (list (Bytes * Bytes))) : PendingCall :=
  {| call_id := id; reducer_name := name; Worker.args := args; p_caller_id := id_caller (who c); p_caller_role := id_role (who c);
     p_tenant_id := id_tenant (who c); lobby_hint := hint; tx_batch := batch |}.

(** The router when there is one, the queue of reducers otherwise. *)
Definition enqueue (p : PendingCall) (f : Front) : bool * Front :=
  let '(ok, r) := if f_lobbies f then try_dispatch p (f_router f) else to_global p (f_router f) in (ok, with_router r f).

Definition dispatch_call (c : Connection) (call : ReducerCall) (f : Front) : Front * list Act :=
  let p := pending_of c (rc_id call) (rc_reducer call) (rc_args call) (extract_lobby_hint (rc_args call)) None in
  let '(ok, f) := enqueue p f in
  (f, Dispatches p ok :: if ok then [] else [Responds (ReplyCall (rc_id call) (Err OVERLOADED))]).

(** The limit of the caller, then that of his tenant. *)
Definition check_limits (env : InputEnv) (c : Connection) (f : Front) : bool * Front :=
  let '(ok, r) := Rate.check (i_now env) (id_caller (who c)) (f_rate f) in
  let f := with_rate r (f_tenants f) f in
  match ok, id_tenant (who c) with
  | true, Some t => let '(ok, tr) := check_rate (i_now env) t (f_tenants f) in (ok, with_rate (f_rate f) tr f)
  | ok, _ => (ok, f)
  end.

Definition on_call (env : InputEnv) (call : ReducerCall) (c : Connection) (f : Front) : handled :=
  let '(ok, f) := check_limits env c f in
  if negb ok then write env c f [] (limited call)
  else if negb (is_allowed permissions (rc_reducer call) (id_role (who c))) then write env c f [] (denied call (id_role (who c)))
  else
    let accepts := Accepts (rc_reducer call) (rc_args call) in
    match open_tx c with
    | Some (tx, calls) =>
        Some (with_open (Some (tx, calls ++ [(rc_reducer call, rc_args call)])) c, true, f,
              [accepts; Stages (rc_reducer call) (rc_args call)])
    | None =>
        match inline_registry (rc_reducer call) with
        | Some g => Some (c, true, f, [accepts; Inlines (rc_reducer call) (rc_args call);
                                       Responds (ReplyCall (rc_id call) (Ok (g (rc_args call))))])
        | None => let '(f, acts) := dispatch_call c call f in Some (c, true, f, accepts :: acts)
        end
    end.

(** A frame that is no message, but a bare call of the old wire format. *)
Definition on_fallback (env : InputEnv) (data : Bytes) (c : Connection) (f : Front) : handled :=
  match decode_reducer_call data with
  | Err e => write env c f [] (ReplyError (bs "Decode error: " ++ e))
  | Ok call =>
      let '(ok, r) := Rate.check (i_now env) (id_caller (who c)) (f_rate f) in
      let f := with_rate r (f_tenants f) f in
      if negb ok then write env c f [] (limited call)
      else if negb (is_allowed permissions (rc_reducer call) (id_role (who c))) then write env c f [] (denied call (id_role (who c)))
      else let '(f, acts) := dispatch_call c call f in
           Some (c, true, f, Accepts (rc_reducer call) (rc_args call) :: acts)
  end.

Definition on_subscribe (env : InputEnv) (sub query : Bytes) (c : Connection) (f : Front) : handled :=
  let query := match id_tenant (who c) with Some t => rewrite_query_for_tenant query t | None => query end in
  let '(r, m, ts) := subscribe_with_snapshot (client_id c) sub query (Some (f_tables f)) (f_subs f) in
  r ← r;
  let f := with_subs m (default (f_tables f) ts) f in
  write env c f [] (ReplyAck sub (match r with Ok _ => AckOk | Err e => AckError e end)).

Definition on_unsubscribe (env : InputEnv) (sub : Bytes) (c : Connection) (f : Front) : handled :=
  let '(r, m) := unsubscribe (client_id c) sub (f_subs f) in
  write env c (with_subs m (f_tables f) f) []
    (ReplyAck sub (match r with Ok true => AckOk | Ok false => AckNotFound | Err e => AckError e end)).

Definition on_begin (env : InputEnv) (tx : Z) (c : Connection) (f : Front) : handled :=
  write env (with_open (Some (tx, [])) c) f (discard c) (ReplyBegan tx).

Definition NO_TX : Bytes := bs "no open transaction with that tx_id".

Definition on_rollback (env : InputEnv) (tx : Z) (c : Connection) (f : Front) : handled :=
  let matched := match open_tx c with Some (t, _) => t =? tx | None => false end in
  write env (with_open None c) f (discard c) (failed_tx tx (if matched then bs "rolled back" else NO_TX)).

(** A transaction that was dispatched keeps the connection until its outcome comes. *)
Definition on_commit (env : InputEnv) (tx : Z) (c : Connection) (f : Front) : handled :=
  match open_tx c with
  | Some (t, calls) =>
      if t =? tx then
        let c := with_open None c in
        match calls with
        | [] => write env c f [] (ReplyTransaction {| o_tx := tx; o_success := true; o_responses := []; o_error := None |})
        | (_, first) :: _ =>
            let p := pending_of c tx [] [] (extract_lobby_hint first) (Some calls) in
            let '(ok, f) := enqueue p f in
            if ok then Some (with_awaiting (Some tx) c, true, f, [Dispatches p true])
            else write env c f [Dispatches p false] (failed_tx tx OVERLOADED)
        end
      else write env c f [] (failed_tx tx NO_TX)
  | None => write env c f [] (failed_tx tx NO_TX)
  end.

Definition on_message (env : InputEnv) (m : ClientMessage) (c : Connection) (f : Front) : handled :=
  match m with
  | CallMessage call => on_call env call c f
  | SubscribeMessage sub query => on_subscribe env sub query c f
  | UnsubscribeMessage sub => on_unsubscribe env sub c f
  | SqlMessage id sql => Some (c, true, f, [StartsSql id sql])
  | Heartbeat => Some (c, true, f, [])
  | SetPresence _ meta => Some (c, true, with_presence (set_online_at (id_caller (who c)) (i_ms env) meta (f_presence f)) f, [])
  | SetTtl t k ttl => Some (c, true, with_ttl (set_ttl t k (i_ms env) ttl (f_ttl f)) f, [])
  | CancelTtl t k => Some (c, true, with_ttl (snd (cancel_ttl t k (f_ttl f))) f, [])
  | BeginTransaction tx => on_begin env tx c f
  | CommitTransaction tx => on_commit env tx c f
  | RollbackTransaction tx => on_rollback env tx c f
  end.

(** What reaches a connection: a frame, another frame than a binary one, the outcome of its
    transaction ([None] when the worker dropped it), the end of the stream or of the server. *)
Inductive Input : Type :=
| Binary (data : Bytes)
| OtherFrame
| Outcome (o : option TransactionOutcome)
| CloseFrame
| StreamEnds.

Definition beat_now (env : InputEnv) (c : Connection) (f : Front) : Front :=
  with_presence (heartbeat_at (id_caller (who c)) (i_ms env) (f_presence f)) f.

(** While it waits for an outcome a connection reads nothing. *)
Definition receive (env : InputEnv) (i : Input) (c : Connection) (f : Front) : handled :=
  match awaiting c, i with
  | None, Binary data =>
      let f := beat_now env c f in
      match decode_client_message data with
      | Some m => on_message env m c f
      | None => on_fallback env data c f
      end
  | None, OtherFrame => Some (c, true, beat_now env c f, [])
  | None, CloseFrame => Some (c, false, beat_now env c f, [])
  | None, StreamEnds => Some (c, false, f, [])
  | Some tx, Outcome o =>
      write env (with_awaiting None c) f []
        (match o with Some o => ReplyTransaction o | None => failed_tx tx (bs "worker dropped transaction result") end)
  | _, _ => None
  end.

(** The beginning and the end of a connection. *)
Definition CLIENT_SEND_BUFFER_CAPACITY : nat := 1024.

Definition connect (mode : AuthMode) (now_secs now_ms : Z) (peer_addr : Bytes) (q : Request) (f : Front) : result Refusal (Connection * Front) :=
  match handshake mode now_secs (f_tenants f) peer_addr q with
  | Err r => Err r
  | Ok i =>
      let f := with_presence (set_online_at (id_caller i) now_ms None (f_presence f)) f in
      let '(id, m) := register_client {| queue := []; Subscriptions.capacity := CLIENT_SEND_BUFFER_CAPACITY; closed := false |} (f_subs f) in
      Ok ({| client_id := id; who := i; open_tx := None; awaiting := None |},
          with_connections (f_connections f + 1) (with_subs m (f_tables f) f))
  end.

Definition disconnect (c : Connection) (f : Front) : Front * list Act :=
  let f := with_subs (unregister_client (client_id c) (f_subs f)) (f_tables f) f in
  let f := with_presence (snd (set_offline (id_caller (who c)) (f_presence f))) f in
  let f := with_rate (Rate.remove (id_caller (who c)) (f_rate f)) (f_tenants f) f in
  (with_connections (f_connections f - 1) f, discard c).

(** The accept loop: the limit of connections, and draining. *)
Definition accepts (max_connections : Z) (draining : bool) (f : Front) : bool :=
  (f_connections f <? max_connections) && negb draining.

(** A connection through its inputs until one ends it, while others change what is shared. *)
Inductive serves (c : Connection) : list Act -> Connection -> bool -> Prop :=
| serves_none : serves c [] c true
| serves_step acts c1 env i f go c2 f2 acts2 : serves c acts c1 true -> receive env i c1 f = Some (c2, go, f2, acts2) ->
    serves c (acts ++ acts2) c2 go.
End Connection.

(** ** SQL from clients *)

Section Sql.
Context `{Serde} `{Lowercase} `{SqlLib}.

(** [SqlResult], from a task of its own; [None] is a panic. *)
Inductive SqlReply : Type := SqlRows (r : QueryResult) | SqlParseError (e : VoltraError) | SqlExecutionError (e : VoltraError).

Definition execute_sql_query (now_ms : Z) (nanos : nat -> Z) (max_blob : Z) (sql : Bytes) (ts : TableStore) : option (SqlReply * TableStore) :=
  s ← SqlParser.parse sql;
  match s with
  | Err e => Some (SqlParseError e, ts)
  | Ok stmt =>
      '(r, ts) ← execute_statement now_ms nanos max_blob stmt ts;
      Some (match r with Ok q => SqlRows q | Err e => SqlExecutionError e end, ts)
  end.
End Sql.

(** ** The router puts a call into one queue *)

Section RouterFacts.
Context `{KL : KanalLaws}.
Implicit Types (p : PendingCall) (r : LobbyRouter).

(** The queues of a router: that of a lobby, [None] for the global one. *)
Definition queue_of r (o : option Bytes) : list PendingCall :=
  match o with
  | None => waiting (global_tx r)
  | Some lobby => match lobby_channels r !! lobby with Some q => waiting q | None => [] end
  end.

(** Where a call belongs. *)
Definition destination p r : option Bytes :=
  match lobby_hint p with
  | None | Some [] => None
  | Some lobby =>
      if bool_decide (is_Some (lobby_channels r !! lobby)) then Some lobby
      else if max_lobbies r <=? active_lobby_count r then None else Some lobby
  end.

Definition appended r r' (o : option Bytes) (l : list PendingCall) : Prop :=
  queue_of r' o = queue_of r o ++ l /\ forall o', o' <> o -> queue_of r' o' = queue_of r o'.

Lemma try_send_spec p q : exists l, waiting (snd (try_send p q)) = waiting q ++ l /\
  ((l = [p] /\ is_ok (fst (try_send p q)) = true) \/ (l = [] /\ fst (try_send p q) <> Ok true)).
Proof.
  destruct (try_send p q) as [res q'] eqn:E. cbn. assert (Hc : res = Ok true \/ res <> Ok true).
  { destruct res as [[]|]; [by left|by right..]. }
  destruct Hc as [->|Hr].
  - exists [p]. split; [by eapply sent|by left].
  - exists []. rewrite app_nil_r. split; [by eapply not_sent|by right].
Qed.

Lemma to_global_spec p r ok r' : to_global p r = (ok, r') -> exists l,
  appended r r' None l /\ (l = [p] /\ ok = true \/ l = []) /\ lobby_channels r' = lobby_channels r /\ threads r' = threads r.
Proof.
  unfold to_global. destruct (try_send_spec p (global_tx r)) as (l & Hw & Hl).
  destruct (try_send p (global_tx r)) as [res q] eqn:E. intros [= <- <-]. exists l. split_and!; [|destruct Hl as [[-> ?]|[-> _]]; auto|done..].
  split; [done|]. intros [lobby|] Ho; done.
Qed.

Lemma to_lobby_spec lobby p q r ok r' : to_lobby lobby p q r = (ok, r') -> waiting q = queue_of r (Some lobby) -> exists l,
  appended r r' (Some lobby) l /\ (l = [p] /\ ok = true \/ l = []) /\ lobby_channels r' = <[lobby := snd (try_send p q)]> (lobby_channels r) /\
  threads r' = threads r.
Proof.
  unfold to_lobby. destruct (try_send_spec p q) as (l & Hw & Hl).
  destruct (try_send p q) as [res q'] eqn:E. intros [= <- <-] Hq. exists l. split_and!; [|destruct Hl as [[-> ?]|[-> _]]; auto|done..].
  split; [unfold queue_of at 1; cbn [with_lobby lobby_channels]; rewrite lookup_insert_eq, <- Hq; exact Hw|]. intros [lobby'|] Ho; [|done]. cbn. rewrite lookup_insert_ne; [done|congruence].
Qed.

(** A lobby has at most one thread, and one for its channel. *)
Definition staffed r : Prop := NoDup (map fst (threads r)) /\ (forall lobby, lobby ∈ map fst (threads r) <-> is_Some (lobby_channels r !! lobby)) /\
  Z.of_nat (size (lobby_channels r)) <= Z.max 0 (max_lobbies r).

Lemma spawn_queue lobby r o : lobby_channels r !! lobby = None -> queue_of (spawn_lobby lobby r) o = queue_of r o.
Proof.
  intros Hn. unfold spawn_lobby. destruct (next_core_id r) as [core next]. destruct o as [l|]; [|done]. cbn.
  destruct (decide (l = lobby)) as [->|Hl]; [by rewrite lookup_insert_eq, Hn, bounded_empty|by rewrite lookup_insert_ne].
Qed.

Lemma spawn_staffed lobby r : lobby_channels r !! lobby = None -> (max_lobbies r <=? active_lobby_count r) = false -> staffed r ->
  staffed (spawn_lobby lobby r).
Proof.
  intros Hn Hm (Hd & Hi & Hs). apply Z.leb_gt in Hm. unfold active_lobby_count in Hm. unfold staffed, spawn_lobby.
  destruct (next_core_id r) as [core next]. cbn. rewrite map_app. cbn. split_and!.
  - apply NoDup_app. split_and!; [done| |apply NoDup_singleton]. intros x Hx Hx'%list_elem_of_singleton. subst x.
    apply Hi in Hx as [? Hx]. congruence.
  - intros l. rewrite elem_of_app, list_elem_of_singleton, Hi, lookup_insert_is_Some'. split; [intros [?| ->]; auto|intros [->|?]; auto].
  - rewrite map_size_insert_None by done. lia.
Qed.

(** A call is sent to one queue: that of its lobby when it has one or may have one, the
    global one otherwise. It is at the end of that queue, or nowhere, and refused only in the
    latter case; nothing else moves, and the lobbies keep one thread each, as many as allowed. *)
Lemma dispatched_once p r ok r' : try_dispatch p r = (ok, r') -> staffed r -> exists l,
  appended r r' (destination p r) l /\ (l = [p] /\ ok = true \/ l = []) /\ staffed r'.
Proof.
  intros E Hs.
  assert (Hgl : forall ok r', to_global p r = (ok, r') -> exists l, appended r r' None l /\ (l = [p] /\ ok = true \/ l = []) /\ staffed r').
  { clear E ok r'. intros ok r' Hg. assert (Hm : max_lobbies r' = max_lobbies r)
      by (unfold to_global in Hg; destruct (try_send _ _); by injection Hg as _ <-).
    destruct (to_global_spec _ _ _ _ Hg) as (l & Ha & Hl & Hc & Ht).
    exists l. split_and!; [done|done|]. unfold staffed. by rewrite Hc, Ht, Hm. }
  unfold try_dispatch in E. unfold destination. destruct (lobby_hint p) as [[|b lobby]|]; [by apply Hgl| |by apply Hgl].
  set (lo := b :: lobby) in *. clearbody lo. destruct (lobby_channels r !! lo) as [q|] eqn:Eq.
  - rewrite bool_decide_eq_true_2 by done.
    assert (Hm : max_lobbies r' = max_lobbies r) by (unfold to_lobby in E; destruct (try_send _ _); by injection E as _ <-).
    destruct (to_lobby_spec _ _ _ _ _ _ E) as (l & Ha & Hl & Hc & Ht); [cbn; by rewrite Eq|].
    exists l. split_and!; [done|done|]. destruct Hs as (Hd & Hi & Hsz). unfold staffed. rewrite Hc, Ht, Hm. split_and!; [done| |].
    + intros l'. rewrite Hi. destruct (decide (l' = lo)) as [->|Hne]; [by rewrite lookup_insert_eq, Eq|by rewrite lookup_insert_ne].
    + rewrite map_size_insert_Some; [done|by rewrite Eq].
  - rewrite bool_decide_eq_false_2 by (by intros [? ?]).
    change (max_lobbies r <=? Z.of_nat (size (lobby_channels r))) with (max_lobbies r <=? active_lobby_count r) in E.
    destruct (max_lobbies r <=? active_lobby_count r) eqn:Em; [by apply Hgl|].
    pose proof (spawn_staffed _ _ Eq Em Hs) as Hs'.
    assert (Hlk : lobby_channels (spawn_lobby lo r) !! lo = Some (bounded (channel_cap r)))
      by (unfold spawn_lobby; destruct (next_core_id r); apply lookup_insert_eq).
    assert (Hm : max_lobbies r' = max_lobbies (spawn_lobby lo r)) by (unfold to_lobby in E; destruct (try_send _ _); by injection E as _ <-).
    destruct (to_lobby_spec _ _ _ _ _ _ E) as (l & Ha & Hl & Hc & Ht); [cbn; by rewrite Hlk|].
    exists l. split_and!; [|done|].
    + destruct Ha as [Ha Hb]. split; [by rewrite Ha, spawn_queue|]. intros o' Ho. by rewrite Hb, spawn_queue.
    + destruct Hs' as (Hd & Hi & Hsz). unfold staffed. rewrite Hc, Ht, Hm. split_and!; [done| |].
      * intros l'. rewrite Hi. destruct (decide (l' = lo)) as [->|Hne]; [by rewrite lookup_insert_eq, Hlk|by rewrite lookup_insert_ne].
      * rewrite map_size_insert_Some; [done|by rewrite Hlk].
Qed.
End RouterFacts.

(** ** Every call that passes has one fate *)

Definition accepted_of (a : Act) : option (Bytes * Bytes) := match a with Accepts n x => Some (n, x) | _ => None end.
Definition staged_of (a : Act) : option (Bytes * Bytes) := match a with Stages n x => Some (n, x) | _ => None end.
(** What becomes of a call: it is staged, answered in place, or dispatched by itself. *)
Definition fate_of (a : Act) : option (Bytes * Bytes) :=
  match a with
  | Stages n x | Inlines n x => Some (n, x)
  | Dispatches p _ => match tx_batch p with None => Some (reducer_name p, Worker.args p) | Some _ => None end
  | _ => None
  end.
(** Staged calls that leave the connection: as one transaction, or discarded. *)
Definition released_of (a : Act) : option (list (Bytes * Bytes)) :=
  match a with Dispatches p _ => tx_batch p | Discards l => Some l | _ => None end.
(** The calls staged and not released, act by act; [None] once a release is not of all of them. *)
Definition pile (l : option (list (Bytes * Bytes))) (a : Act) : option (list (Bytes * Bytes)) :=
  l ← l;
  match staged_of a, released_of a with
  | Some nx, _ => Some (l ++ [nx])
  | None, Some calls => if bool_decide (calls = l) then Some [] else None
  | None, None => Some l
  end.
Definition dispatched_of (a : Act) : option PendingCall := match a with Dispatches p _ => Some p | _ => None end.
Definition buffered (c : Connection) : list (Bytes * Bytes) := match open_tx c with Some (_, l) => l | None => [] end.

Definition stamped (i : Identity) (p : PendingCall) : Prop :=
  p_caller_id p = id_caller i /\ p_caller_role p = id_role i /\ p_tenant_id p = id_tenant i.

Section ConnectionFacts.
Context `{Serde} `{Lowercase} `{SqlLib} `{MsgCodec} `{Zstd} `{Tokens} `{Kanal} `{Wire}.
Variable permissions : PermissionsConfig.
Variable inline_registry : Bytes -> option (Bytes -> Bytes).
#[local] Abbreviation on_call := (on_call permissions inline_registry).
#[local] Abbreviation on_fallback := (on_fallback permissions).
#[local] Abbreviation on_message := (on_message permissions inline_registry).
#[local] Abbreviation receive := (receive permissions inline_registry).
#[local] Abbreviation serves := (serves permissions inline_registry).
Implicit Types (c : Connection) (f : Front) (acts : list Act).

(** What one input does to the calls of a connection. *)
Record keeps_books c acts c' : Prop := {
  k_who : who c' = who c;
  k_fate : omap accepted_of acts = omap fate_of acts;
  k_staged : foldl pile (Some (buffered c)) acts = Some (buffered c');
  k_allowed : Forall (fun nx => is_allowed permissions nx.1 (id_role (who c)) = true) (omap accepted_of acts);
  k_stamped : Forall (stamped (who c)) (omap dispatched_of acts) }.

(** An act that is only told to the client. *)
Definition quiet acts : Prop := omap accepted_of acts = [] /\ omap fate_of acts = [] /\
  (forall l, foldl pile (Some l) acts = Some l) /\ omap dispatched_of acts = [].

Lemma quiet_books c acts c' : quiet acts -> who c' = who c -> buffered c' = buffered c -> keeps_books c acts c'.
Proof. intros (E1 & E2 & E3 & E4) Hw Hb. constructor; rewrite ?E1, ?E2, ?E3, ?E4, ?Hb; auto. Qed.

Lemma books_quiet c acts c' more : keeps_books c acts c' -> quiet more -> keeps_books c (acts ++ more) c'.
Proof.
  intros [Hw Hf Hst Ha Hp] (E1 & E2 & E3 & E4). constructor; rewrite ?omap_app, ?foldl_app, ?E1, ?E2, ?E4, ?app_nil_r; auto.
  by rewrite Hst, E3.
Qed.

Lemma write_books env c0 c f acts r c' go f' acts' : keeps_books c0 acts c -> write env c f acts r = Some (c', go, f', acts') ->
  keeps_books c0 acts' c'.
Proof.
  intros Hk. unfold write. destruct (encodes r); [destruct (i_write env)|]; intros [= <- <- <- <-]; try done. by apply books_quiet.
Qed.

Lemma write_quiet env c0 c f r c' go f' acts' : who c = who c0 -> buffered c = buffered c0 ->
  write env c f [] r = Some (c', go, f', acts') -> keeps_books c0 acts' c'.
Proof. intros Hw Hb. apply write_books. by apply quiet_books. Qed.

(** An open transaction is given up. *)
Lemma discard_books c o : buffered (with_open o c) = [] -> keeps_books c (discard c) (with_open o c).
Proof.
  intros Hb. unfold discard. destruct (open_tx c) as [[t l]|] eqn:E; constructor; rewrite ?Hb; auto;
    unfold buffered; rewrite E; cbn; [by rewrite bool_decide_true|done].
Qed.

Lemma stamped_pending c id n x h b : stamped (who c) (pending_of c id n x h b).
Proof. done. Qed.

(** An accepted call, dispatched. *)
Lemma dispatch_books c call f f' acts : is_allowed permissions (rc_reducer call) (id_role (who c)) = true ->
  dispatch_call c call f = (f', acts) -> keeps_books c (Accepts (rc_reducer call) (rc_args call) :: acts) c.
Proof.
  intros Ha. unfold dispatch_call. destruct (enqueue _ f) as [ok f1]. intros [= <- <-].
  destruct ok; constructor; cbn; auto; repeat constructor; done.
Qed.

Lemma call_books env call c f c' go f' acts : on_call env call c f = Some (c', go, f', acts) -> keeps_books c acts c'.
Proof.
  unfold Socket.on_call. destruct (check_limits env c f) as [ok f1]. destruct ok; cbn [negb]; [|by apply write_quiet].
  destruct (is_allowed _ _ _) eqn:Ha; cbn [negb]; [|by apply write_quiet].
  destruct (open_tx c) as [[tx l]|] eqn:Eo.
  - intros [= <- <- <- <-]. constructor; cbn; auto; try by repeat constructor. unfold buffered. by rewrite Eo.
  - destruct (inline_registry _).
    + intros [= <- <- <- <-]. constructor; cbn; auto; by repeat constructor.
    + destruct (dispatch_call c call f1) as [f2 acts2] eqn:Ed. intros [= <- <- <- <-]. by eapply dispatch_books.
Qed.

Lemma fallback_books env data c f c' go f' acts : on_fallback env data c f = Some (c', go, f', acts) -> keeps_books c acts c'.
Proof.
  unfold Socket.on_fallback. destruct (decode_reducer_call data) as [call|e]; [|by apply write_quiet].
  destruct (Rate.check _ _ _) as [ok r]. destruct ok; cbn [negb]; [|by apply write_quiet].
  destruct (is_allowed _ _ _) eqn:Ha; cbn [negb]; [|by apply write_quiet].
  destruct (dispatch_call c call _) as [f2 acts2] eqn:Ed. intros [= <- <- <- <-]. by eapply dispatch_books.
Qed.

Lemma commit_books env tx c f c' go f' acts : on_commit env tx c f = Some (c', go, f', acts) -> keeps_books c acts c'.
Proof.
  unfold on_commit. destruct (open_tx c) as [[t calls]|] eqn:Eo; [|by apply write_quiet].
  destruct (t =? tx); [|by apply write_quiet]. destruct calls as [|[n x] calls].
  - apply write_books, quiet_books; [done..|]. unfold buffered. by rewrite Eo.
  - assert (Hb : forall ok c1, who c1 = who c -> open_tx c1 = None ->
      keeps_books c [Dispatches (pending_of (with_open None c) tx [] [] (extract_lobby_hint x) (Some ((n, x) :: calls))) ok] c1).
    { intros ok c1 Hw Ho. constructor; [done|done| |done|by repeat constructor]. unfold buffered. rewrite Eo, Ho. cbn [foldl pile staged_of released_of].
      cbn. by rewrite bool_decide_true. }
    destruct (enqueue _ f) as [[] f1]; [|by apply write_books, Hb]. intros [= <- <- <- <-]. by apply Hb.
Qed.

Lemma message_books env m c f c' go f' acts : on_message env m c f = Some (c', go, f', acts) -> keeps_books c acts c'.
Proof.
  destruct m as [call|sub query|sub|id sql| |s meta|t k ttl|t k|tx|tx|tx]; cbn [Socket.on_message].
  - apply call_books.
  - unfold on_subscribe. destruct (subscribe_with_snapshot _ _ _ _ _) as [[r m] ts]. destruct r; cbn; [|done]. by apply write_quiet.
  - unfold on_unsubscribe. destruct (unsubscribe _ _ _) as [r m]. by apply write_quiet.
  - intros [= <- <- <- <-]. by apply quiet_books.
  - intros [= <- <- <- <-]. by apply quiet_books.
  - intros [= <- <- <- <-]. by apply quiet_books.
  - intros [= <- <- <- <-]. by apply quiet_books.
  - intros [= <- <- <- <-]. by apply quiet_books.
  - by apply write_books, discard_books.
  - apply commit_books.
  - by apply write_books, discard_books.
Qed.

Lemma receive_books env i c f c' go f' acts : receive env i c f = Some (c', go, f', acts) -> keeps_books c acts c'.
Proof.
  unfold Socket.receive. destruct (awaiting c) as [tx|], i as [data| |o| |]; try done.
  - by apply write_quiet.
  - destruct (decode_client_message data); [apply message_books|apply fallback_books].
  - intros [= <- <- <- <-]. by apply quiet_books.
  - intros [= <- <- <- <-]. by apply quiet_books.
  - intros [= <- <- <- <-]. by apply quiet_books.
Qed.

Lemma books_trans c acts c1 acts2 c2 : keeps_books c acts c1 -> keeps_books c1 acts2 c2 -> keeps_books c (acts ++ acts2) c2.
Proof.
  intros [Hw Hf Hst Ha Hp] [Hw' Hf' Hst' Ha' Hp']. rewrite Hw in Ha', Hp'. constructor; rewrite ?omap_app, ?Forall_app.
  - congruence.
  - by rewrite Hf, Hf'.
  - by rewrite foldl_app, Hst, Hst'.
  - done.
  - done.
Qed.

(** C15: whatever arrives on a connection and whatever the others do, each call that passes the
    checks has exactly one fate: it is answered in place, handed to the router by itself, or
    staged. Staged calls leave all together: whenever a transaction is handed to the router, or
    discarded, it is of every call staged since the last one was, in order, and the calls staged
    since then are still there. Every call that passes is allowed to the role of the connection,
    and everything handed to the router carries its caller, role and tenant. (What the router then
    does with it, a full queue included, is [full_queue_swallows].) *)
Theorem calls_have_one_fate c acts c' go : serves c acts c' go -> open_tx c = None ->
  omap accepted_of acts = omap fate_of acts /\
  foldl pile (Some []) acts = Some (buffered c') /\
  Forall (fun nx => is_allowed permissions nx.1 (id_role (who c)) = true) (omap accepted_of acts) /\
  Forall (stamped (who c)) (omap dispatched_of acts).
Proof.
  intros Hs Ho. assert (Hk : keeps_books c acts c').
  { induction Hs as [|acts c1 env i f go c2 f2 acts2 _ IH Hr]; [by apply quiet_books|]. eapply books_trans; [exact IH|]. by eapply receive_books. }
  destruct Hk as [_ Hf Hst Ha Hp]. unfold buffered at 1 in Hst. rewrite Ho in Hst. by split_and!.
Qed.

(** ** Every call that passes was paid for *)

(** The bucket of a caller at an instant, filled up to then; a new one is full. *)
Definition caller_bucket (now : Z) (client : Bytes) (r : Rate.Registry) : Rate.TokenBucket :=
  Rate.refill now (default (Rate.bucket_new (Rate.rl_capacity r) (Rate.rl_rate r) now) (Rate.rl_buckets r !! client)).

(** The caller had a token, and it is gone from his bucket; nobody else's changed. *)
Definition caller_pays (now : Z) (client : Bytes) (r r' : Rate.Registry) : Prop :=
  if Rate.enabled r then
    let b := caller_bucket now client r in
    f64_leb f64_one (Rate.tokens b) = true /\
    (exists b', Rate.rl_buckets r' !! client = Some b' /\ Rate.tokens b' = f64_sub (Rate.tokens b) f64_one /\
       Rate.last_refill b' = Rate.last_refill b /\ Rate.capacity b' = Rate.capacity b /\ Rate.refill_rate b' = Rate.refill_rate b) /\
    (forall other, other <> client -> Rate.rl_buckets r' !! other = Rate.rl_buckets r !! other)
  else r' = r.

(** What the bucket of a tenant holds at an instant, of at most [limit]. *)
Definition tenant_level (now limit : Z) (b : option Tenant.TokenBucket) : f64 :=
  match b with
  | Some b => f64_min (f64_add (Tenant.tokens b) (f64_mul (secs_f64 (Z.max 0 (now - Tenant.last_refill b))) (f64_of_uint limit))) (f64_of_uint limit)
  | None => f64_min (f64_add (f64_of_uint limit) (f64_mul (secs_f64 0) (f64_of_uint limit))) (f64_of_uint limit)
  end.

Definition tenant_pays (now : Z) (t : Bytes) (r r' : TenantRegistry) : Prop :=
  match tenants r !! t with
  | Some info =>
      if max_calls_per_sec info =? 0 then r' = r else
      let level := tenant_level now (max_calls_per_sec info) (buckets r !! t) in
      f64_leb f64_one level = true /\ tenants r' = tenants r /\
      buckets r' = <[t := {| Tenant.tokens := f64_sub level f64_one; Tenant.last_refill := now |}]> (buckets r)
  | None => r' = r
  end.

(** One token of the caller's and, unless the frame is a bare call, one of his tenant's. *)
Definition paid (env : InputEnv) (bare : bool) c f f' : Prop :=
  caller_pays (i_now env) (id_caller (who c)) (f_rate f) (f_rate f') /\
  match bare, id_tenant (who c) with
  | false, Some t => tenant_pays (i_now env) t (f_tenants f) (f_tenants f')
  | _, _ => f_tenants f' = f_tenants f
  end.

Lemma check_pays now client r r' : Rate.check now client r = (true, r') -> caller_pays now client r r'.
Proof.
  unfold Rate.check, caller_pays, caller_bucket, Rate.try_consume. destruct (Rate.enabled r); cbn [negb]; [|by intros [= <-]].
  set (b := Rate.refill _ _). destruct (f64_leb f64_one (Rate.tokens b)) eqn:E; [|done]. intros [= <-]. split; [done|]. split.
  - eexists. cbn. by rewrite lookup_insert_eq.
  - intros other Ho. cbn. by rewrite lookup_insert_ne.
Qed.

Lemma check_rate_pays now t r r' : check_rate now t r = (true, r') -> tenant_pays now t r r'.
Proof.
  unfold check_rate, tenant_pays. destruct (tenants r !! t) as [info|]; [|by intros [= <-]].
  destruct (max_calls_per_sec info =? 0); [by intros [= <-]|]. unfold take_token, tenant_level.
  destruct (buckets r !! t) as [b|]; cbn [default from_option id Tenant.tokens Tenant.last_refill].
  - set (l := f64_min _ _). destruct (f64_leb f64_one l); [|done]. by intros [= <-].
  - replace (Z.max 0 (now - now)) with 0 by lia. set (l := f64_min _ _). destruct (f64_leb f64_one l); [|done]. by intros [= <-].
Qed.

Lemma dispatch_call_rate c call f f' acts : dispatch_call c call f = (f', acts) ->
  f_rate f' = f_rate f /\ f_tenants f' = f_tenants f /\ omap accepted_of acts = [].
Proof.
  unfold dispatch_call, enqueue. destruct (if f_lobbies f then _ else _) as [ok r]. intros [= <- <-]. by destruct ok.
Qed.

Definition accepted acts : list (Bytes * Bytes) := omap accepted_of acts.

Lemma write_accepts env c f l r c' go f' acts : write env c f l r = Some (c', go, f', acts) -> accepted l = [] -> accepted acts = [].
Proof.
  unfold write, accepted. destruct (encodes r); [destruct (i_write env)|]; intros [= <- <- <- <-] Hl; rewrite ?omap_app; by rewrite ?Hl.
Qed.

Lemma discard_accepts c : accepted (discard c) = [].
Proof. unfold discard. by destruct (open_tx c) as [[t l]|]. Qed.

Lemma limits_pay env c f f' : check_limits env c f = (true, f') -> paid env false c f f'.
Proof.
  unfold check_limits, paid. destruct (Rate.check _ _ _) as [ok r] eqn:Er. destruct ok; [|by destruct (id_tenant (who c))].
  apply check_pays in Er. destruct (id_tenant (who c)) as [t|]; [|by intros [= <-]].
  cbn. destruct (check_rate _ t _) as [ok tr] eqn:Et. intros [= -> <-]. split; [done|]. by apply check_rate_pays.
Qed.

Lemma paid_rate env bare c f f1 f2 : paid env bare c f f1 -> f_rate f2 = f_rate f1 -> f_tenants f2 = f_tenants f1 -> paid env bare c f f2.
Proof. unfold paid. by intros Hp -> ->. Qed.

Lemma call_accepts env call c f c' go f' acts : on_call env call c f = Some (c', go, f', acts) ->
  accepted acts = [] \/ accepted acts = [(rc_reducer call, rc_args call)] /\ paid env false c f f'.
Proof.
  unfold Socket.on_call. destruct (check_limits env c f) as [ok f1] eqn:El.
  destruct ok; cbn [negb]; [apply limits_pay in El|intros Hw; left; by eapply write_accepts].
  destruct (is_allowed _ _ _); cbn [negb]; [|intros Hw; left; by eapply write_accepts].
  intros Hc. right. destruct (open_tx c) as [[tx l]|]; [by injection Hc as <- <- <- <-|].
  destruct (inline_registry _); [by injection Hc as <- <- <- <-|].
  destruct (dispatch_call c call f1) as [f2 acts2] eqn:Ed. injection Hc as <- <- <- <-.
  apply dispatch_call_rate in Ed as (Hr & Ht & Ha). split; [|by eapply paid_rate]. unfold accepted. cbn. by rewrite Ha.
Qed.

Lemma fallback_accepts env data c f c' go f' acts : on_fallback env data c f = Some (c', go, f', acts) ->
  accepted acts = [] \/ exists call, decode_reducer_call data = Ok call /\ accepted acts = [(rc_reducer call, rc_args call)] /\ paid env true c f f'.
Proof.
  unfold Socket.on_fallback. destruct (decode_reducer_call data) as [call|e]; [|intros Hw; left; by eapply write_accepts].
  destruct (Rate.check _ _ _) as [ok r] eqn:Er. destruct ok; cbn [negb]; [|intros Hw; left; by eapply write_accepts].
  destruct (is_allowed _ _ _); cbn [negb]; [|intros Hw; left; by eapply write_accepts].
  destruct (dispatch_call c call _) as [f2 acts2] eqn:Ed. intros [= <- <- <- <-]. right. exists call. split; [done|].
  apply dispatch_call_rate in Ed as (Hr & Ht & Ha). split; [unfold accepted; cbn; by rewrite Ha|].
  apply check_pays in Er. split; [by rewrite Hr|by rewrite Ht].
Qed.

Lemma message_accepts env m c f c' go f' acts : on_message env m c f = Some (c', go, f', acts) ->
  accepted acts = [] \/ exists call, m = CallMessage call /\ accepted acts = [(rc_reducer call, rc_args call)] /\ paid env false c f f'.
Proof.
  destruct m as [call|sub query|sub|id sql| |s meta|t k ttl|t k|tx|tx|tx]; cbn [Socket.on_message].
  - intros [?|[? ?]]%call_accepts; [by left|right]. by exists call.
  - unfold on_subscribe. destruct (subscribe_with_snapshot _ _ _ _ _) as [[r m] ts]. destruct r; cbn; [|done].
    intros Hw. left. by eapply write_accepts.
  - unfold on_unsubscribe. destruct (unsubscribe _ _ _) as [r m]. intros Hw. left. by eapply write_accepts.
  - intros [= <- <- <- <-]. by left.
  - intros [= <- <- <- <-]. by left.
  - intros [= <- <- <- <-]. by left.
  - intros [= <- <- <- <-]. by left.
  - intros [= <- <- <- <-]. by left.
  - intros Hw. left. eapply write_accepts; [exact Hw|apply discard_accepts].
  - unfold on_commit. intros Hc. left. destruct (open_tx c) as [[t calls]|]; [|by eapply write_accepts].
    destruct (t =? tx); [|by eapply write_accepts]. destruct calls as [|[n x] calls]; [by eapply write_accepts|].
    destruct (enqueue _ f) as [[] f1]; [|by eapply write_accepts]. by injection Hc as <- <- <- <-.
  - intros Hw. left. eapply write_accepts; [exact Hw|apply discard_accepts].
Qed.

(** C17: an input lets at most one call pass, the one it carries, and the call is paid for: the
    bucket of the caller, filled up to this instant, had a token, which is gone from it and from
    nobody else's, and, when the caller has a tenant, so had the bucket of the tenant. A bare call
    of the old wire format is charged to the caller alone. Nothing is charged where no limit is
    set: the limiter is off, or the tenant has none. *)
Theorem accepted_calls_paid env i c f c' go f' acts : receive env i c f = Some (c', go, f', acts) -> accepted acts <> [] ->
  exists data, i = Binary data /\
    match decode_client_message data with
    | Some m => exists call, m = CallMessage call /\ accepted acts = [(rc_reducer call, rc_args call)] /\ paid env false c f f'
    | None => exists call, decode_reducer_call data = Ok call /\ accepted acts = [(rc_reducer call, rc_args call)] /\ paid env true c f f'
    end.
Proof.
  unfold Socket.receive. destruct (awaiting c) as [tx|], i as [data| |o| |]; try done.
  - intros Hw Ha. destruct Ha. by eapply write_accepts.
  - intros Hr Ha. exists data. split; [done|]. destruct (decode_client_message data) as [m|].
    + apply message_accepts in Hr as [Hr|(call & -> & Hr & Hp)]; [done|]. by exists call.
    + apply fallback_accepts in Hr as [Hr|Hr]; done.
  - by intros [= <- <- <- <-] [].
  - by intros [= <- <- <- <-] [].
  - by intros [= <- <- <- <-] [].
Qed.
End ConnectionFacts.

(** ** Who is admitted *)

Section Handshake.
Context `{Tokens}.

Lemma split_colon_spec s a b : split_once 58 s = Some (a, b) -> s = a ++ [58] ++ b /\ 58 ∉ a.
Proof.
  revert a. induction s as [|x s IH]; intros a; cbn; [done|]. destruct (x =? 58) eqn:E; zbool.
  - intros [= <- <-]. subst x. split; [done|apply not_elem_of_nil].
  - destruct (split_once 58 s) as [[a' b']|]; cbn; [|done]. intros [= <- <-]. destruct (IH a' eq_refl) as [-> Hn].
    split; [done|]. rewrite not_elem_of_cons. auto.
Qed.

Definition raw_token (header : Bytes) : Bytes := default header (bearer header).

(** The token has the key of the server, alone or before a role. *)
Definition shows_key (key raw role : Bytes) : Prop :=
  (raw = key ++ [58] ++ role \/ (raw = key /\ role = bs "default")) /\ (58 ∉ key).

Definition admitted_by (mode : AuthMode) (now_secs : Z) (tr : TenantRegistry) (raw : Bytes) (i : Identity) : Prop :=
  (exists c, verify now_secs raw = Ok c /\ id_role i = default [] (head (roles c)) /\ id_tenant i = None) \/
  (exists t, resolve_key raw tr = Some t /\ id_role i = bs "tenant" /\ id_tenant i = Some t) \/
  (exists key, mode = ApiKey key /\ shows_key key raw (id_role i) /\ id_tenant i = None) \/
  (exists c, decode_legacy mode raw = Ok c /\ is_jwt raw = false /\ id_role i = lc_role c /\ id_tenant i = None).

Lemma no_colon s : split_once 58 s = None -> 58 ∉ s.
Proof.
  induction s as [|x s IH]; cbn; [intros _; apply not_elem_of_nil|]. destruct (x =? 58) eqn:E; zbool; [done|].
  destruct (split_once 58 s) as [[a b]|]; [done|]. intros _. rewrite not_elem_of_cons. auto.
Qed.

Lemma validate_spec mode now_secs header user role : validate mode now_secs header = Authenticated user role ->
  exists raw, bearer header = Some raw /\
    ((exists key, mode = ApiKey key /\ shows_key key raw role) \/ (exists c, decode_legacy mode raw = Ok c /\ role = lc_role c)).
Proof.
  unfold validate. destruct (bearer header) as [[|b raw]|]; [done| |done]. set (t := b :: raw). clearbody t. intros Hv. exists t. split; [done|].
  assert (Hjwt : validate_jwt mode now_secs t = Authenticated user role -> exists c, decode_legacy mode t = Ok c /\ role = lc_role c).
  { unfold validate_jwt. destruct (decode_legacy mode t) as [c|e]; [|done]. destruct (_ && _); [done|]. intros [= _ <-]. by exists c. }
  destruct mode as [|key|secret|pem]; [done| |right; by apply Hjwt|right; by apply Hjwt].
  left. exists key. split; [done|]. destruct (split_once 58 t) as [[k r]|] eqn:Es.
  - destruct (beq k key) eqn:E; [|done]. apply beq_true in E. injection Hv as _ <-. apply split_colon_spec in Es as [-> Hn]. subst. split; [by left|exact Hn].
  - destruct (beq t key) eqn:E; [|done]. apply beq_true in E. injection Hv as _ <-. apply no_colon in Es. subst. split; [by right|exact Es].
Qed.

(** C16: when authentication is on, whoever is admitted has shown a credential, and his role
    and tenant are those of the credential: a token the server has signed, the key of a
    tenant, the key of the server with any role behind it, or, when it has not the form of a
    JWT, a token of the configured issuer. *)
Theorem admitted_with_credentials mode now_secs tr peer q i : mode <> NoAuth ->
  handshake mode now_secs tr peer q = Ok i ->
  exists header, authorization q = Some header /\ admitted_by mode now_secs tr (raw_token header) i.
Proof.
  intros Hm. unfold handshake. destruct (authorize _ _ _ _) as [a|] eqn:Ea; [|done]. intros [= <-].
  destruct (authorization q) as [header|]; cbn in Ea; [|by destruct mode]. exists header. split; [done|].
  unfold authorize in Ea. destruct header as [|b header]; [by destruct mode|]. set (h := b :: header) in *. clearbody h.
  fold (raw_token h) in Ea. unfold admitted_by. cbn [id_role id_tenant]. destruct (is_jwt (raw_token h)) eqn:Ej.
  - destruct (verify now_secs _) as [c|e] eqn:Ev; [|done]. injection Ea as <-. left. by exists c.
  - destruct (bool_decide _).
    + destruct (resolve_key _ tr) as [t|] eqn:Er; [|done]. injection Ea as <-. right. left. by exists t.
    + destruct (validate mode now_secs h) as [user role| |] eqn:Ev; [|done|].
      * injection Ea as <-. apply validate_spec in Ev as (raw & Hb & Hv). unfold raw_token in *. rewrite Hb in *. cbn in *.
        right. right. destruct Hv as [(key & -> & Hk)|(c & Hd & ->)]; [left; by exists key|right; by exists c].
      * unfold validate, validate_jwt in Ev. repeat case_match; simplify_eq; congruence.
Qed.

(** A token has a header, a payload and a signature. *)
Hypothesis three_parts : forall mode t c, decode_legacy mode t = Ok c -> is_jwt t = true.

(** So the tokens of a configured issuer admit nobody: they are taken for tokens of the server
    itself. *)
Lemma issuer_tokens_admit_nobody mode now_secs header c : decode_legacy mode (raw_token header) = Ok c -> header <> [] ->
  forall tr, authorize mode now_secs tr header = match verify now_secs (raw_token header) with
    | Ok c => Ok {| id_caller := vc_sub c; id_role := default [] (head (roles c)); id_tenant := None |}
    | Err e => Err (InvalidJwt e)
    end.
Proof.
  intros Hd Hh tr. unfold authorize. destruct header as [|b header]; [done|]. fold (raw_token (b :: header)).
  by rewrite (three_parts _ _ _ Hd).
Qed.
End Handshake.

(** ** A small server *)

#[local] Existing Instances JsonCodec.demo_serde SubFacts.demo_lower SubFacts.demo_sql SubFacts.demo_zstd SubFacts.demo_codec.

(** A queue with its capacity. *)
#[local] Instance demo_kanal : Kanal :=
  {| Queue := Z * list PendingCall; bounded n := (n, []);
     try_send p q := if zlen q.2 <? q.1 then (Ok true, (q.1, q.2 ++ [p])) else (Ok false, q); waiting := snd |}.
#[local] Instance demo_kanal_laws : KanalLaws demo_kanal.
Proof.
  constructor.
  - done.
  - intros p [n l] q'. cbn. destruct (zlen l <? n); [|done]. by intros [= <-].
  - intros p [n l] r q'. cbn. destruct (zlen l <? n); [|by intros [= <- <-]]. by intros [= <- <-] [].
Qed.

(** Tokens are [server.id.role], signed by the server, and [issuer.id.role]. *)
Definition token_parts (t : Bytes) : option (Bytes * Bytes * Bytes) :=
  '(a, r) ← split_once 46 t; '(b, c) ← split_once 46 r; if bool_decide (46 ∈ c) then None else Some (a, b, c).
#[local] Instance demo_tokens : Tokens :=
  {| decode_legacy mode t := match mode, token_parts t with
       | JwtHmac secret, Some (a, b, c) => if beq a secret then Ok {| lc_sub := b; lc_role := c; lc_exp := 0 |} else Err (bs "signature")
       | _, _ => Err (bs "token") end;
     verify _ t := match token_parts t with
       | Some (a, b, c) => if beq a (bs "server") then Ok {| vc_sub := b; roles := [c] |} else Err (bs "signature")
       | None => Err (bs "token") end |}.

(** Frames are positions in a list of messages; after these come the bare calls. *)
Definition demo_bump (id : Z) : ReducerCall := {| rc_id := id; rc_reducer := bs "bump"; rc_args := [id] |}.
Definition demo_messages : list ClientMessage :=
  [CallMessage (demo_bump 1); CallMessage (demo_bump 2); BeginTransaction 7; CommitTransaction 7; RollbackTransaction 9;
   CallMessage {| rc_id := 3; rc_reducer := bs "wipe"; rc_args := [] |}; SetPresence (bs "away") None; SetTtl (bs "tn:other:gold") (bs "k") 1;
   SubscribeMessage (bs "s") (bs "tn:other:gold"); SqlMessage 1 (bs "DELETE FROM gold")].
#[local] Instance demo_wire : Wire :=
  {| decode_client_message d := match d with [k] => demo_messages !! Z.to_nat k | _ => None end;
     decode_reducer_call d := match d with [_; k] => Ok (demo_bump k) | _ => Err (bs "frame") end;
     decode_args a := match a with [_] => Some [Str (bs "l42_p1")] | _ => None end;
     decode_server d := match d with
       | 1 :: _ => Some (DiffMessage {| subscription_id := bs "s"; sd_table := bs "tn:acme:gold"; sd_key := bs "k"; sd_operation := bs "delete"; sd_data := None |})
       | 5 :: payload => Some (BatchUpdate false payload) | _ => None end;
     encodes _ := true |}.

Definition demo_permissions : PermissionsConfig := {| rules := {[bs "wipe" := [bs "admin"]]}; default_policy := OpenPolicy |}.
Definition demo_router (cap lobbies : Z) : LobbyRouter :=
  {| lobby_channels := ∅; global_tx := bounded cap; channel_cap := cap; max_lobbies := lobbies; core_ids := [0; 1]; next_core := 0;
     lobby_stats := ∅; threads := [] |}.
Definition demo_info (id key : Bytes) : TenantInfo :=
  {| t_id := id; t_name := id; api_key := key; max_rows := 10; max_calls_per_sec := 5; created_at := 0 |}.
Definition demo_front (cap : Z) : Front :=
  {| f_subs := manager_new false; f_tables := table_store_new NoEviction [];
     f_rate := {| Rate.rl_capacity := 2; Rate.rl_rate := f64_of_uint 1; Rate.enabled := true; Rate.rl_buckets := ∅ |};
     f_presence := presence_new 1000 5000; f_ttl := ttl_new;
     f_tenants := index_tenant (demo_info (bs "acme") (bs "ndbt_k")) {| key_index := ∅; tenants := ∅; buckets := ∅ |};
     f_router := demo_router cap 4; f_lobbies := true; f_connections := 0 |}.
Definition demo_request (auth : string) (id : option Bytes) : Request := {| authorization := Some (bs auth); identity_header := id |}.
Definition demo_in : InputEnv := {| i_now := 0; i_ms := 50; i_write := Sent |}.

(** A connection through a list of frames. *)
Fixpoint feed (ds : list Bytes) (c : Connection) (f : Front) (acts : list Act) : option (Connection * Front * list Act) :=
  match ds with
  | [] => Some (c, f, acts)
  | d :: ds' =>
      match receive demo_permissions (fun _ => None) demo_in (Binary d) c f with
      | Some (c', true, f', acts') => feed ds' c' f' (acts ++ acts')
      | _ => None
      end
  end.
Lemma feed_serves c0 ds : forall c f acts c' f' acts', serves demo_permissions (fun _ => None) c0 acts c true ->
  feed ds c f acts = Some (c', f', acts') -> serves demo_permissions (fun _ => None) c0 acts' c' true.
Proof.
  induction ds as [|d ds IH]; intros c f acts c' f' acts' Hs; cbn [feed]; [by intros [= <- _ <-]|].
  destruct (receive _ _ _ _ c f) as [[[[c1 []] f1] acts1]|] eqn:E; [|done..]. apply IH. by eapply serves_step.
Qed.

Definition demo_identity (role : string) (tenant : option Bytes) : Identity :=
  {| id_caller := bs "alice"; id_role := bs role; id_tenant := tenant |}.
Definition demo_connection (role : string) (tenant : option Bytes) : Connection :=
  {| client_id := 1; who := demo_identity role tenant; open_tx := None; awaiting := None |}.

(** A call staged, one refused by the limit, a transaction committed. *)
Definition demo_session : list Bytes := [[2]; [0]; [1]; [0]; [3]].
Definition demo_served : list Act :=
  match feed demo_session (demo_connection "user" None) (demo_front 9) [] with Some (_, _, acts) => acts | None => [] end.

Lemma calls_have_one_fate_witness :
  omap accepted_of demo_served = [(bs "bump", [1]); (bs "bump", [2])] /\ omap released_of demo_served = [[(bs "bump", [1]); (bs "bump", [2])]] /\
  foldl pile (Some []) demo_served = Some [].
Proof.
  split; [by vm_compute|]. split; [by vm_compute|].
  destruct (feed demo_session (demo_connection "user" None) (demo_front 9) []) as [[[c f] acts]|] eqn:E; [|by vm_compute in E].
  assert (Hb : buffered c = []) by (vm_compute in E; by injection E as <- _ _).
  destruct (calls_have_one_fate demo_permissions (fun _ => None) (demo_connection "user" None) acts c true) as (_ & Hst & _);
    [eapply feed_serves; [apply serves_none|exact E]|done|].
  unfold demo_served. rewrite E. by rewrite Hst, Hb.
Defined.

Lemma accepted_calls_paid_witness : exists f,
  caller_pays 0 (bs "alice") (f_rate (demo_front 9)) (f_rate f) /\
  Rate.tokens <$> Rate.rl_buckets (f_rate f) !! bs "alice" = Some (f64_of_uint 1).
Proof.
  destruct (receive demo_permissions (fun _ => None) demo_in (Binary [0]) (demo_connection "user" None) (demo_front 9))
    as [[[[c go] f] acts]|] eqn:E; [|by vm_compute in E]. exists f.
  destruct (accepted_calls_paid demo_permissions (fun _ => None) demo_in (Binary [0]) (demo_connection "user" None) (demo_front 9) c go f acts E)
    as (data & Hd & Hm); [vm_compute in E; by injection E as _ _ _ <-|]. injection Hd as <-. destruct Hm as (call & _ & _ & Hp & _).
  split; [exact Hp|]. vm_compute in E. injection E as _ _ <- _. by vm_compute.
Defined.

Lemma admitted_with_credentials_witness : exists i,
  handshake (ApiKey (bs "k1")) 0 (f_tenants (demo_front 1)) (bs "1.2.3.4") (demo_request "Bearer k1:mod" None) = Ok i /\
  admitted_by (ApiKey (bs "k1")) 0 (f_tenants (demo_front 1)) (bs "k1:mod") i.
Proof.
  destruct (handshake (ApiKey (bs "k1")) 0 (f_tenants (demo_front 1)) (bs "1.2.3.4") (demo_request "Bearer k1:mod" None)) as [i|] eqn:E;
    [|by vm_compute in E].
  assert (Hm : ApiKey (bs "k1") <> NoAuth) by done.
  exists i. split; [done|]. destruct (admitted_with_credentials _ _ _ _ _ _ Hm E) as (h & Hh & Ha).
  apply (f_equal (default [])) in Hh. change (bs "Bearer k1:mod" = h) in Hh. subst h. exact Ha.
Defined.

(** ** What the front end lets through, and what it loses *)

Definition role_of (r : result Refusal Identity) : option (Bytes * Bytes * option Bytes) :=
  match r with Ok i => Some (id_caller i, id_role i, id_tenant i) | Err _ => None end.
Definition demo_handshake (mode : AuthMode) (q : Request) : option (Bytes * Bytes * option Bytes) :=
  role_of (handshake mode 0 (f_tenants (demo_front 1)) (bs "peer") q).

(** The identity header replaces the caller of a signed token, and of a tenant. *)
Lemma identity_header_replaces_caller :
  demo_handshake (ApiKey (bs "k1")) (demo_request "Bearer server.bob.user" (Some (bs "alice"))) = Some (bs "alice", bs "user", None) /\
  demo_handshake (ApiKey (bs "k1")) (demo_request "Bearer ndbt_k" (Some (bs "alice"))) = Some (bs "alice", bs "tenant", Some (bs "acme")).
Proof. vm_compute. auto. Qed.

(** Whoever has the key takes any role, that of the scheduler too, which may call everything. *)
Lemma key_holder_becomes_scheduler :
  demo_handshake (ApiKey (bs "k1")) (demo_request "Bearer k1:scheduler" None) = Some (bs "api_key_user", bs "scheduler", None) /\
  (forall p n, is_allowed p n (bs "scheduler") = true) /\ is_allowed demo_permissions (bs "wipe") (bs "user") = false.
Proof. split; [by vm_compute|]. split; [done|by vm_compute]. Qed.

(** A key with a colon admits nobody, with or without a role. *)
Lemma key_with_colon_admits_nobody :
  demo_handshake (ApiKey (bs "k:1")) (demo_request "Bearer k:1" None) = None /\
  demo_handshake (ApiKey (bs "k:1")) (demo_request "Bearer k:1:mod" None) = None.
Proof. vm_compute. auto. Qed.

(** A token of the configured issuer is refused, as one of the server's with a bad signature. *)
Lemma issuer_token_refused :
  demo_handshake (JwtHmac (bs "issuer")) (demo_request "Bearer issuer.bob.user" None) = None /\
  is_ok (decode_legacy (JwtHmac (bs "issuer")) (bs "issuer.bob.user")) = true.
Proof. vm_compute. auto. Qed.

Definition fed (ds : list Bytes) (c : Connection) (f : Front) : list Act :=
  match feed ds c f [] with Some (_, _, acts) => acts | None => [] end.
Definition writes (acts : list Act) : list Reply := omap (fun a => match a with Writes r | Responds r => Some r | _ => None end) acts.

(** A full queue swallows the call and says it took it: the client gets no answer. *)
Lemma full_queue_swallows :
  let acts := fed [[0]] (demo_connection "user" None) (demo_front 0) in
  omap (fun a => match a with Dispatches _ ok => Some ok | _ => None end) acts = [true] /\ writes acts = [] /\
  map (fun r => map_to_list (lobby_queue_depths r)) [snd (try_dispatch (pending_of (demo_connection "user" None) 1 (bs "bump") [1] (Some (bs "42")) None) (demo_router 0 4))]
    = [[(bs "42", 0)]].
Proof. vm_compute. auto. Qed.

(** A bare call passes beside an open transaction and does not ask for the limit of the
    tenant. *)
Lemma bare_call_passes_by :
  let acts := fed [[2]; [0; 1]; [3]] (demo_connection "tenant" (Some (bs "acme"))) (demo_front 9) in
  map (fun p => tx_batch p) (omap dispatched_of acts) = [None] /\
  match feed [[0; 1]] (demo_connection "tenant" (Some (bs "acme"))) (demo_front 9) [] with
  | Some (_, f, _) => size (buckets (f_tenants f)) = 0%nat | None => False end.
Proof. vm_compute. auto. Qed.

(** The rollback of another transaction drops the one that is open. *)
Lemma rollback_drops_the_open_one :
  fed [[2]; [0]; [4]] (demo_connection "user" None) (demo_front 9) =
    [Writes (ReplyBegan 7); Accepts (bs "bump") [1]; Stages (bs "bump") [1]; Discards [(bs "bump", [1])]; Writes (failed_tx 9 NO_TX)].
Proof. by vm_compute. Qed.

(** Presence: a status is not set, and setting it forgets since when the user is connected;
    the first of two connections of a user that ends takes his presence and his bucket. *)
Lemma presence_status_ignored :
  match feed [[6]] (demo_connection "user" None) (demo_front 9) [] with
  | Some (_, f, _) => option_map (fun e => (status e, connected_at e)) (presence_get (f_presence f) (bs "alice")) = Some (Status.Online, 50)
  | None => False end.
Proof. by vm_compute. Qed.
Lemma one_of_two_connections_ends :
  let f := with_presence (set_online_at (bs "alice") 1 None (f_presence (demo_front 9))) (demo_front 9) in
  match feed [[0]; [0]; [0]] (demo_connection "user" None) f [] with
  | Some (c, f, acts) =>
      length (omap accepted_of acts) = 2%nat /\
      let f' := fst (disconnect (demo_connection "user" None) f) in
      presence_get (f_presence f') (bs "alice") = None /\
      match feed [[0]] c f' [] with Some (_, _, acts) => length (omap accepted_of acts) = 1%nat | None => False end
  | None => False
  end.
Proof. vm_compute. auto. Qed.

(** A tenant reaches the rows of another by their physical names: their expiry, and a
    subscription; and by SQL, which no check stands before. *)
Lemma tenant_reaches_others :
  match feed [[7]; [9]] (demo_connection "tenant" (Some (bs "acme"))) (demo_front 9) [] with
  | Some (_, f, acts) => get_ttl (bs "tn:other:gold") (bs "k") (f_ttl f) = Some 51 /\
      acts = [StartsSql 1 (bs "DELETE FROM gold")]
  | None => False end /\
  rewrite_query_for_tenant (bs "tn:other:gold") (bs "acme") = bs "tn:other:gold" /\
  rewrite_query_for_tenant (bs " gold WHERE x = 1") (bs "acme") = bs "tn:acme:gold WHERE x = 1".
Proof. vm_compute. auto. Qed.

(** The tables of a batch keep the physical names a single message loses. *)
Lemma batches_keep_physical_names :
  strip_tenant_frames (bs "acme") (One [1]) <> One [1] /\ strip_tenant_frames (bs "acme") (One [5; 9]) = One [5; 9].
Proof. vm_compute. split; [discriminate|done]. Qed.
