(* ===== verification/Leaderboard.v ===== *)
(** * Leaderboards (src/leaderboard.rs)

    Boards of scores in rank order. A score is kept as its bits, flipped so that the order of
    the map is the ranking; ties go to the earlier submission, then to the player's name. The
    locks make every call one step. A [usize] is 64 bits wide, and its arithmetic wraps as in
    a release build. The aggregation over regions is network I/O. *)

From S2P Require Import Prelude OrdMap Util ZSet Json Table TableIndex FloatBits.
From Stdlib Require Import SpecFloat.

(** ** Data *)

Record LeaderboardEntry := { player_id : Bytes; score : f64; metadata : option Value; updated_at_ms : Z }.

Inductive TimeWindow : Type :=
| AllTime
| Daily
| Weekly
| Monthly
| Custom (duration_ms : Z).

Inductive SortOrder : Type := HighestFirst | LowestFirst.

Record LeaderboardConfig := { lb_name : Bytes; sort_order : SortOrder; time_window : TimeWindow; max_entries : Z }.

Record RankInfo := { rank_no : Z; r_score : f64; total_players : Z; percentile : f64 }.

Record ScoreKey := { encoded : Z; timestamp_inverted : Z; sk_player : Bytes }.

(** [ScoreKey::cmp], less *)
Definition skey_ltb (a b : ScoreKey) : bool :=
  if encoded a =? encoded b then
    if timestamp_inverted a =? timestamp_inverted b then bytes_ltb (sk_player a) (sk_player b)
    else timestamp_inverted a <? timestamp_inverted b
  else encoded a <? encoded b.

#[export] Instance ord_ScoreKey : OrdKey ScoreKey.
Proof.
  refine {| kltb := skey_ltb |}; unfold skey_ltb.
  - intros [a b c]. cbn. rewrite !Z.eqb_refl. apply bytes_ltb_irrefl.
  - intros [a b c] [a' b' c'] [a'' b'' c'']. cbn.
    repeat match goal with |- context [?u =? ?v] => destruct (Z.eqb_spec u v) end; subst; try congruence;
      try (intros; zbool; apply Z.ltb_lt; lia); try lia; try (intros; zbool; lia). apply bytes_ltb_trans.
  - intros [a b c] [a' b' c']. cbn. rewrite (Z.eqb_sym a' a), (Z.eqb_sym b' b).
    destruct (Z.eqb_spec a a'), (Z.eqb_spec b b'); subst; intros; zbool; try lia.
    f_equal. by apply bytes_ltb_tie.
Defined.

Definition score_key_new (s : f64) (order : SortOrder) (timestamp_ms : Z) (player : Bytes) : ScoreKey :=
  let bits := to_bits s in
  let sortable := if Z.land bits BIT63 =? 0 then Z.lxor bits BIT63 else u64_not bits in
  {| encoded := match order with HighestFirst => u64_not sortable | LowestFirst => sortable end;
     timestamp_inverted := timestamp_ms; sk_player := player |}.

Definition decode_score (enc : Z) (order : SortOrder) : f64 :=
  let sortable := match order with HighestFirst => u64_not enc | LowestFirst => enc end in
  from_bits (if negb (Z.land sortable BIT63 =? 0) then Z.lxor sortable BIT63 else u64_not sortable).

Record LeaderboardData := {
  lb_config : LeaderboardConfig;
  lb_entries : list (ScoreKey * LeaderboardEntry);
  player_index : gmap Bytes ScoreKey;
  window_start_ms : Z }.

Abbreviation LeaderboardEngine := (gmap Bytes LeaderboardData).

(** ** Ranks *)

Definition compute_rank_internal (d : LeaderboardData) (k : ScoreKey) : Z := zlen (om_below k (lb_entries d)) + 1.

Definition compute_percentile (rank total : Z) : f64 :=
  if total <=? 1 then f64_of_uint 100
  else f64_mul (f64_div (f64_of_uint (wrap_u64 (total - rank))) (f64_of_uint (total - 1))) (f64_of_uint 100).

Definition rank_info (d : LeaderboardData) (k : ScoreKey) (s : f64) : RankInfo :=
  let rank := compute_rank_internal d k in
  let total := zlen (lb_entries d) in
  {| rank_no := rank; r_score := s; total_players := total; percentile := compute_percentile rank total |}.

(** ** Operations on a board *)

Definition with_entries (l : list (ScoreKey * LeaderboardEntry)) (idx : gmap Bytes ScoreKey) (d : LeaderboardData)
  : LeaderboardData :=
  {| lb_config := lb_config d; lb_entries := l; player_index := idx; window_start_ms := window_start_ms d |}.

(** The worst entry goes until the cap holds. *)
Fixpoint cap_loop (fuel : nat) (max : Z) (l : list (ScoreKey * LeaderboardEntry)) (idx : gmap Bytes ScoreKey)
  : list (ScoreKey * LeaderboardEntry) * gmap Bytes ScoreKey :=
  match fuel with
  | O => (l, idx)
  | S f =>
      if max <? zlen l then
        match last l with
        | Some (k, _) => cap_loop f max (om_remove k l) (delete (sk_player k) idx)
        | None => (l, idx)
        end
      else (l, idx)
  end.

Definition insert_score (player : Bytes) (s : f64) (meta : option Value) (now_ms : Z) (d : LeaderboardData)
  : result Bytes RankInfo * LeaderboardData :=
  let new_key := score_key_new s (sort_order (lb_config d)) now_ms player in
  let entry := {| player_id := player; score := s; metadata := meta; updated_at_ms := now_ms |} in
  let l := om_insert new_key entry (lb_entries d) in
  let idx := <[player := new_key]> (player_index d) in
  let '(l, idx) := cap_loop (length l) (max_entries (lb_config d)) l idx in
  let d := with_entries l idx d in
  match idx !! player with
  | None => (Err (bs "Score submitted but player '" ++ player ++ bs "' was evicted by max_entries cap"), d)
  | Some _ => (Ok (rank_info d new_key s), d)
  end.

Definition submit_board (player : Bytes) (s : f64) (meta : option Value) (now_ms : Z) (d : LeaderboardData)
  : result Bytes RankInfo * LeaderboardData :=
  match player_index d !! player with
  | Some k =>
      let existing := decode_score (encoded k) (sort_order (lb_config d)) in
      let dominated := match sort_order (lb_config d) with
                       | HighestFirst => f64_leb s existing
                       | LowestFirst => f64_leb existing s
                       end in
      if dominated then (Ok (rank_info d k existing), d)
      else insert_score player s meta now_ms
             (with_entries (om_remove k (lb_entries d)) (delete player (player_index d)) d)
  | None => insert_score player s meta now_ms d
  end.

(** Ranks from one on. *)
Fixpoint enumerate (i : Z) (l : list (ScoreKey * LeaderboardEntry)) : list (Z * LeaderboardEntry) :=
  match l with [] => [] | (_, e) :: l' => (i, e) :: enumerate (i + 1) l' end.

Definition top_board (count : Z) (d : LeaderboardData) : list (Z * LeaderboardEntry) :=
  take (Z.to_nat count) (enumerate 1 (lb_entries d)).

Definition not_on (player board : Bytes) : Bytes :=
  bs "Player '" ++ player ++ bs "' not found on board '" ++ board ++ bs "'".

Definition rank_board (board player : Bytes) (d : LeaderboardData) : result Bytes RankInfo :=
  match player_index d !! player with
  | None => Err (not_on player board)
  | Some k => Ok (rank_info d k (decode_score (encoded k) (sort_order (lb_config d))))
  end.

(** [skip(start - 1).take(end - start + 1)] *)
Definition ranks_between (start_rank end_rank : Z) (d : LeaderboardData) : list (Z * LeaderboardEntry) :=
  take (Z.to_nat (wrap_u64 (end_rank - start_rank + 1)))
    (drop (Z.to_nat (start_rank - 1)) (enumerate 1 (lb_entries d))).

Definition around_board (board player : Bytes) (count : Z) (d : LeaderboardData)
  : result Bytes (list (Z * LeaderboardEntry)) :=
  match player_index d !! player with
  | None => Err (not_on player board)
  | Some k =>
      let rank := compute_rank_internal d k in
      let start_rank := if count <? rank then rank - count else 1 in
      let end_rank := Z.min (wrap_u64 (rank + count)) (zlen (lb_entries d)) in
      Ok (ranks_between start_rank end_rank d)
  end.

Definition range_board (start_rank end_rank : Z) (d : LeaderboardData) : result Bytes (list (Z * LeaderboardEntry)) :=
  if (start_rank =? 0) || (end_rank <? start_rank) then
    Err (bs "Invalid rank range: start_rank must be >= 1 and <= end_rank")
  else Ok (ranks_between start_rank end_rank d).

Definition remove_board (player : Bytes) (d : LeaderboardData) : bool * LeaderboardData :=
  match player_index d !! player with
  | Some k => (true, with_entries (om_remove k (lb_entries d)) (delete player (player_index d)) d)
  | None => (false, d)
  end.

(** ** Time windows *)

Definition DAY_MS : Z := 86400000.
Definition WEEK_MS : Z := 604800000.
Definition MONDAY_OFFSET_MS : Z := 345600000.
Definition MONTH_MS : Z := 2629746000.

Definition window_expired (w : TimeWindow) (window_start now_ms : Z) : bool :=
  match w with
  | AllTime => false
  | Daily => window_start / DAY_MS <? now_ms / DAY_MS
  | Weekly => wrap_u64 (window_start + MONDAY_OFFSET_MS) / WEEK_MS <? wrap_u64 (now_ms + MONDAY_OFFSET_MS) / WEEK_MS
  | Monthly => window_start / MONTH_MS <? now_ms / MONTH_MS
  | Custom duration => wrap_u64 (window_start + duration) <=? now_ms
  end.

Definition expire_board (now_ms : Z) (d : LeaderboardData) : bool * LeaderboardData :=
  if window_expired (time_window (lb_config d)) (window_start_ms d) now_ms then
    (true, {| lb_config := lb_config d; lb_entries := []; player_index := ∅; window_start_ms := now_ms |})
  else (false, d).

(** ** The engine *)

Definition create_board (c : LeaderboardConfig) (e : LeaderboardEngine) : LeaderboardEngine :=
  <[lb_name c := {| lb_config := c; lb_entries := []; player_index := ∅; window_start_ms := 0 |}]> e.

Definition no_board {A} (board : Bytes) : result Bytes A := Err (bs "Leaderboard '" ++ board ++ bs "' not found").

(** A call on a board under its lock. *)
Definition on_board {A} (board : Bytes) (none : A) (f : LeaderboardData -> A * LeaderboardData)
    (e : LeaderboardEngine) : A * LeaderboardEngine :=
  match e !! board with
  | None => (none, e)
  | Some d => let '(a, d) := f d in (a, <[board := d]> e)
  end.

Definition submit_score (board player : Bytes) (s : f64) (meta : option Value) (now_ms : Z)
    (e : LeaderboardEngine) : result Bytes RankInfo * LeaderboardEngine :=
  on_board board (no_board board) (submit_board player s meta now_ms) e.

Definition lb_top (board : Bytes) (count : Z) (e : LeaderboardEngine) : result Bytes (list (Z * LeaderboardEntry)) :=
  match e !! board with None => no_board board | Some d => Ok (top_board count d) end.
Definition get_rank (board player : Bytes) (e : LeaderboardEngine) : result Bytes RankInfo :=
  match e !! board with None => no_board board | Some d => rank_board board player d end.
Definition get_around (board player : Bytes) (count : Z) (e : LeaderboardEngine)
  : result Bytes (list (Z * LeaderboardEntry)) :=
  match e !! board with None => no_board board | Some d => around_board board player count d end.
Definition get_range (board : Bytes) (start_rank end_rank : Z) (e : LeaderboardEngine)
  : result Bytes (list (Z * LeaderboardEntry)) :=
  match e !! board with None => no_board board | Some d => range_board start_rank end_rank d end.

Definition remove_player (board player : Bytes) (e : LeaderboardEngine) : bool * LeaderboardEngine :=
  on_board board false (remove_board player) e.
Definition check_window_expiry (board : Bytes) (now_ms : Z) (e : LeaderboardEngine) : bool * LeaderboardEngine :=
  on_board board false (expire_board now_ms) e.

Definition player_count (board : Bytes) (e : LeaderboardEngine) : Z :=
  match e !! board with Some d => zlen (lb_entries d) | None => 0 end.
Definition list_boards (e : LeaderboardEngine) : list Bytes := map fst (map_to_list e).

(** ** Leaderboards: the ranking is the order of the scores

    The sort key of an entry orders the entries by score, then by time, then by name; every
    board agrees with its index; so ranks, lists and updates are what the names say. *)


(** ** The key *)

(** One score before another on a board. *)
Definition better (o : SortOrder) (a b : f64) : bool :=
  match o with HighestFirst => total_ltb b a | LowestFirst => total_ltb a b end.

(** One entry before another: a better score, or the same score earlier, or by name. *)
Definition beats (o : SortOrder) (x y : LeaderboardEntry) : Prop :=
  better o (score x) (score y) = true \/
  (score x = score y /\ (updated_at_ms x < updated_at_ms y \/
    (updated_at_ms x = updated_at_ms y /\ bytes_ltb (player_id x) (player_id y) = true))).

Lemma sortable_range f : f64_ok f -> 0 <= sortable f < 2 ^ 64.
Proof. intros Hf%magnitude_range. unfold sortable. destruct (sign_of f); lia. Qed.

Lemma sortable_bits f : f64_ok f ->
  (if Z.land (to_bits f) BIT63 =? 0 then Z.lxor (to_bits f) BIT63 else u64_not (to_bits f)) = sortable f.
Proof.
  intros Hf. pose proof (to_bits_range f Hf) as Hr. pose proof (magnitude_range f Hf) as Hm.
  rewrite land_bit63 by done. unfold to_bits in *. unfold sortable, BIT63 in *. destruct (sign_of f).
  - rewrite zle_true by lia. cbn [negb]. rewrite u64_not_sub by lia. lia.
  - rewrite zle_false by lia. cbn [negb]. rewrite Z.add_0_l. apply lxor_high. lia.
Qed.

Lemma sortable_back f : f64_ok f ->
  (if negb (Z.land (sortable f) BIT63 =? 0) then Z.lxor (sortable f) BIT63 else u64_not (sortable f)) = to_bits f.
Proof.
  intros Hf. pose proof (sortable_range f Hf) as Hr. pose proof (magnitude_range f Hf) as Hm.
  rewrite land_bit63 by done. unfold to_bits. unfold sortable, BIT63 in *. destruct (sign_of f).
  - rewrite zle_false by lia. cbn [negb]. rewrite u64_not_sub by lia. lia.
  - rewrite zle_true by lia. cbn [negb]. rewrite lxor_low by lia. lia.
Qed.

Definition encode_as (o : SortOrder) (f : f64) : Z :=
  match o with HighestFirst => 2 ^ 64 - 1 - sortable f | LowestFirst => sortable f end.

Lemma key_encoded s o t p : f64_ok s -> encoded (score_key_new s o t p) = encode_as o s.
Proof.
  intros Hs. unfold score_key_new, encode_as. cbn [encoded]. rewrite sortable_bits by done. destruct o; [|done].
  apply u64_not_sub, sortable_range, Hs.
Qed.

Lemma decode_encoded s o t p : f64_ok s -> decode_score (encoded (score_key_new s o t p)) o = s.
Proof.
  intros Hs. rewrite key_encoded by done. unfold decode_score. pose proof (sortable_range s Hs) as Hr.
  assert (E : match o with HighestFirst => u64_not (encode_as o s) | LowestFirst => encode_as o s end = sortable s).
  { destruct o; cbn; [rewrite u64_not_sub by lia; lia|done]. }
  rewrite E, sortable_back by done. by apply to_from_bits.
Qed.

Lemma encode_order o f g : f64_ok f -> f64_ok g -> (encode_as o f <? encode_as o g) = better o f g.
Proof.
  intros Hf Hg. destruct o; cbn; [|by apply sortable_order].
  rewrite <- sortable_order by done. destruct (Z.ltb_spec (sortable g) (sortable f)); [apply Z.ltb_lt|apply Z.ltb_ge]; lia.
Qed.

Lemma better_irrefl o f : better o f f = false.
Proof. destruct o; apply total_ltb_irrefl. Qed.

Definition key_of (o : SortOrder) (e : LeaderboardEntry) : ScoreKey :=
  score_key_new (score e) o (updated_at_ms e) (player_id e).

(** The order of the keys is the ranking. *)
Lemma key_beats o x y : f64_ok (score x) -> f64_ok (score y) ->
  kltb (key_of o x) (key_of o y) = true <-> beats o x y.
Proof.
  intros Hx Hy. cbn [kltb ord_ScoreKey]. unfold skey_ltb, key_of. rewrite !key_encoded by done.
  cbn [timestamp_inverted sk_player score_key_new]. unfold beats. rewrite <- (encode_order o _ _ Hx Hy).
  pose proof (encode_order o _ _ Hx Hy) as Hxy. pose proof (encode_order o _ _ Hy Hx) as Hyx.
  destruct (Z.eqb_spec (encode_as o (score x)) (encode_as o (score y))) as [E|E].
  - assert (Hs : score x = score y).
    { rewrite E, Z.ltb_irrefl in Hxy. rewrite E, Z.ltb_irrefl in Hyx.
      destruct o; cbn in *; [symmetry|]; by apply total_ltb_tie. }
    rewrite E, Z.ltb_irrefl.
    destruct (Z.eqb_spec (updated_at_ms x) (updated_at_ms y)) as [Et|Et].
    + split; [intros Hb; right; by auto|]. intros [|[_ [|[_ ?]]]]; [done|lia|done].
    + rewrite Z.ltb_lt. split; [intros; right; auto|]. intros [|[_ [?|[? _]]]]; [done|lia|lia].
  - split; [by left|]. intros [?|[Hs _]]; [done|]. by rewrite Hs in E.
Qed.

(** ** Boards *)

Definition order_of (d : LeaderboardData) : SortOrder := sort_order (lb_config d).

(** The entries of a board and its index agree. *)
Definition agree (l : list (ScoreKey * LeaderboardEntry)) (idx : gmap Bytes ScoreKey) : Prop :=
  forall p k, idx !! p = Some k <-> sk_player k = p /\ exists e, (k, e) ∈ l.

(** A score that can be ranked. *)
Definition score_ok (f : f64) : Prop := f64_ok f /\ is_nan f = false.

Definition keyed (o : SortOrder) (l : list (ScoreKey * LeaderboardEntry)) : Prop :=
  forall k e, (k, e) ∈ l -> k = key_of o e /\ score_ok (score e).

Definition board_ok (d : LeaderboardData) : Prop :=
  om_sorted (lb_entries d) /\ keyed (order_of d) (lb_entries d) /\ agree (lb_entries d) (player_index d).

Lemma agree_remove l idx k : om_sorted l -> agree l idx -> agree (om_remove k l) (delete (sk_player k) idx) \/ (forall e, (k, e) ∉ l).
Proof.
  intros Hs Ha. destruct (om_get k l) as [e|] eqn:E.
  - left. apply om_get_elem in E; [|done].
    assert (Hk : idx !! sk_player k = Some k) by (apply Ha; eauto).
    intros p k'. destruct (decide (p = sk_player k)) as [->|Hp].
    + rewrite lookup_delete_eq. split; [done|]. intros [Hp (e' & Hin)].
      apply om_remove_elem in Hin as [Hin Hne]; [|done]. cbn in Hne.
      assert (idx !! sk_player k = Some k') by (apply Ha; eauto). congruence.
    + rewrite lookup_delete_ne, (Ha p k') by done. split; intros [Hp' (e' & Hin)]; (split; [done|]).
      * exists e'. apply om_remove_elem; [done|]. split; [done|]. cbn. by intros ->.
      * apply om_remove_elem in Hin as [Hin _]; [|done]. by exists e'.
  - right. intros e Hin. apply om_get_elem in Hin; congruence.
Qed.

Lemma agree_insert l idx k e : om_sorted l -> agree l idx -> idx !! sk_player k = None ->
  agree (om_insert k e l) (<[sk_player k := k]> idx).
Proof.
  intros Hs Ha Hn p k'. assert (Hfree : forall k' e', (k', e') ∈ l -> sk_player k' <> sk_player k).
  { intros k2 e2 Hin E. assert (idx !! sk_player k = Some k2) by (apply Ha; eauto). congruence. }
  destruct (decide (p = sk_player k)) as [->|Hp].
  - rewrite lookup_insert_eq. split.
    + intros [= <-]. split; [done|]. exists e. apply om_insert_elem; auto.
    + intros [Hp (e' & Hin)]. apply om_insert_elem in Hin as [[= -> ->]|[Hin _]]; [done| |done].
      by apply Hfree in Hin.
  - rewrite lookup_insert_ne, (Ha p k') by done. split; intros [Hp' (e' & Hin)]; (split; [done|]).
    + exists e'. apply om_insert_elem; [done|]. right. split; [done|]. cbn. by intros ->.
    + apply om_insert_elem in Hin as [[= -> ->]|[Hin _]]; [done| |done]. by exists e'.
Qed.

Lemma keyed_sub o l l' : keyed o l -> (forall x, x ∈ l' -> x ∈ l) -> keyed o l'.
Proof. intros Hk Hsub k e Hin. by apply Hk, Hsub. Qed.

(** ** The cap *)

Lemma last_elem {A} (l : list A) x : last l = Some x -> x ∈ l.
Proof. intros Hl. apply last_Some in Hl as [l' ->]. apply elem_of_app. right. by left. Qed.

Lemma last_greatest (l : list (ScoreKey * LeaderboardEntry)) x y :
  om_sorted l -> last l = Some x -> y ∈ l -> y = x \/ om_lt y x.
Proof.
  intros Hs Hl. apply last_Some in Hl as [l' ->]. intros [Hy|Hy%list_elem_of_singleton]%elem_of_app; [right|by left].
  apply (StronglySorted_app_1_elem_of om_lt l' [x]); [done|done|by left].
Qed.

(** What the cap drops is beaten by all that stays, and nothing else is dropped. *)
Lemma cap_loop_spec max fuel : forall l idx l' idx', om_sorted l -> agree l idx ->
  cap_loop fuel max l idx = (l', idx') ->
  om_sorted l' /\ agree l' idx' /\ (forall x, x ∈ l' -> x ∈ l) /\
  (forall x y, x ∈ l -> x ∉ l' -> y ∈ l' -> om_lt y x) /\
  ((length l <= fuel)%nat -> zlen l' <= Z.max max 0) /\ (zlen l <= max -> l' = l).
Proof.
  induction fuel as [|fuel IH]; intros l idx l' idx' Hs Ha; cbn [cap_loop].
  { intros [= <- <-]. split_and!; [done..| | |done]; [naive_solver|]. intros. lia. }
  destruct (Z.ltb_spec max (zlen l)) as [Hlt|Hge].
  2: { intros [= <- <-]. split_and!; [done..| | |done]; [naive_solver|]. intros. lia. }
  destruct (last l) as [[k e]|] eqn:El.
  2: { apply last_None in El as ->. intros [= <- <-]. split_and!; [done..| | |done]; [naive_solver|]. intros. cbn. lia. }
  pose proof (last_elem _ _ El) as Hin.
  destruct (agree_remove l idx k Hs Ha) as [Ha2|Hno]; [|by destruct (Hno e)].
  intros Hloop. apply IH in Hloop as (Hs' & Ha' & Hsub & Hdrop & Hlen & _); [|by apply om_remove_sorted|done].
  assert (Hsub' : forall x, x ∈ l' -> x ∈ l /\ x.1 <> k).
  { intros x Hx. apply om_remove_elem; [done|]. by apply Hsub. }
  split_and!; [done|done|by intros x [? _]%Hsub'| | |lia].
  - intros x y Hx Hnx Hy. destruct (om_key_dec x.1 k) as [Hk|Hk].
    + pose proof (Hsub' y Hy) as [Hyl Hyk]. destruct x as [k' e']. cbn in Hk. subst k'.
      rewrite (om_functional _ _ _ _ Hs Hx Hin). destruct (last_greatest l _ y Hs El Hyl) as [->|]; [done|done].
    + apply (Hdrop x y); [|done|done]. by apply om_remove_elem.
  - intros Hf. apply Hlen. assert (om_get k l = Some e) as Hg by (by apply om_get_elem).
    pose proof (om_remove_length k e l Hs Hg). lia.
Qed.

(** ** Submissions *)

Definition entry_new (player : Bytes) (s : f64) (meta : option Value) (now_ms : Z) : LeaderboardEntry :=
  {| player_id := player; score := s; metadata := meta; updated_at_ms := now_ms |}.

(** The entry of a player, if there is one. *)
Definition standing (d : LeaderboardData) (p : Bytes) : option LeaderboardEntry :=
  player_index d !! p ≫= fun k => om_get k (lb_entries d).

Lemma standing_elem d p e : board_ok d ->
  standing d p = Some e <-> player_id e = p /\ (key_of (order_of d) e, e) ∈ lb_entries d.
Proof.
  intros (Hs & Hk & Ha). unfold standing. rewrite bind_Some. split.
  - intros (k & Hi & Hg). apply om_get_elem in Hg; [|done]. apply Ha in Hi as [Hp _].
    destruct (Hk _ _ Hg) as [-> _]. done.
  - intros [Hp Hin]. exists (key_of (order_of d) e). split; [|by apply om_get_elem]. apply Ha. split; [done|eauto].
Qed.

(** What stays was there before or is new, and beats all that was dropped. *)
Definition displaced (p : Bytes) (new : LeaderboardEntry) (d d' : LeaderboardData) : Prop :=
  (forall q e, standing d' q = Some e -> if decide (q = p) then e = new else standing d q = Some e) /\
  (forall q e, q <> p -> standing d q = Some e -> standing d' q = None ->
     forall z y, standing d' z = Some y -> beats (order_of d) y e).

Lemma insert_score_spec p s meta now d r d' : board_ok d -> score_ok s -> player_index d !! p = None ->
  insert_score p s meta now d = (r, d') ->
  board_ok d' /\ lb_config d' = lb_config d /\ displaced p (entry_new p s meta now) d d' /\
  match r with
  | Ok i => standing d' p = Some (entry_new p s meta now) /\
            i = rank_info d' (key_of (order_of d) (entry_new p s meta now)) s
  | Err _ => standing d' p = None
  end.
Proof.
  intros (Hs & Hk & Ha) Hok Hn. unfold insert_score.
  set (e0 := entry_new p s meta now). set (k0 := key_of (order_of d) e0).
  change (score_key_new s (sort_order (lb_config d)) now p) with k0.
  change {| player_id := p; score := s; metadata := meta; updated_at_ms := now |} with e0.
  destruct (cap_loop _ _ _ _) as [l idx] eqn:Ec. cbn [player_index with_entries].
  apply cap_loop_spec in Ec as (Hs1 & Ha1 & Hsub & Hdrop & _);
    [|by apply om_insert_sorted|by apply (agree_insert (lb_entries d) (player_index d) k0 e0)].
  assert (Hk1 : keyed (order_of d) l).
  { intros k e Hin. apply Hsub, om_insert_elem in Hin as [[= -> ->]|[Hin _]]; [done|by apply Hk|done]. }
  set (d1 := with_entries l idx d). assert (Hd1 : board_ok d1) by done.
  assert (Hst : forall q e, standing d1 q = Some e -> if decide (q = p) then e = e0 else standing d q = Some e).
  { intros q e [Hq Hin]%standing_elem; [|done]. apply Hsub, om_insert_elem in Hin as [Hin|[Hin Hne]]; [| |done].
    - apply (f_equal snd) in Hin. cbn in Hin. subst e. cbn in Hq. by rewrite decide_True.
    - case_decide as Hqp; [|by apply standing_elem].
      assert (player_index d !! p = Some (key_of (order_of d) e)); [|congruence].
      apply Ha. split; [cbn; congruence|eauto]. }
  assert (Hdisp : displaced p e0 d d1).
  { split; [exact Hst|]. intros q e Hqp [Hq Hin]%standing_elem Hnone z y Hy%standing_elem; [|done|done].
    destruct Hy as [_ Hy]. apply (key_beats _ y e); [by eapply Hk1|by eapply Hk|].
    apply (Hdrop (key_of (order_of d) e, e) (key_of (order_of d) y, y)); [| |done].
    - apply om_insert_elem; [done|]. right. split; [done|]. cbn. intros E.
      apply (f_equal sk_player) in E. cbn in E. congruence.
    - intros Hin1. assert (standing d1 q = Some e); [|congruence]. by apply standing_elem. }
  destruct (idx !! p) as [k|] eqn:Ei; intros [= <- <-]; (split; [done|]; split; [done|]; split; [done|]).
  - split; [|done]. assert (Hp : is_Some (standing d1 p)).
    { apply Ha1 in Ei as [Hp (e & Hin)]. exists e. apply standing_elem; [done|].
      destruct (Hk1 _ _ Hin) as [-> _]. done. }
    destruct Hp as [e He]. pose proof (Hst _ _ He) as Heq. rewrite decide_True in Heq by done. congruence.
  - unfold standing. cbn. by rewrite Ei.
Qed.

(** Taking a player off. *)
Lemma remove_entry_ok d k e : board_ok d -> player_index d !! player_id e = Some k -> (k, e) ∈ lb_entries d ->
  let d' := with_entries (om_remove k (lb_entries d)) (delete (player_id e) (player_index d)) d in
  board_ok d' /\ player_index d' !! player_id e = None /\ forall q, q <> player_id e -> standing d' q = standing d q.
Proof.
  intros (Hs & Hk & Ha) Hi Hin d'. destruct (Hk _ _ Hin) as [Ek _].
  assert (Hp : sk_player k = player_id e) by by rewrite Ek.
  assert (Hd : board_ok d').
  { split; [by apply om_remove_sorted|]. split.
    - eapply keyed_sub; [exact Hk|]. intros x Hx. by apply om_remove_elem in Hx as [? _].
    - destruct (agree_remove _ _ k Hs Ha) as [Hag|Hno]; [by rewrite Hp in Hag|by destruct (Hno e)]. }
  split; [done|]. split; [apply lookup_delete_eq|]. intros q Hq. unfold standing. cbn.
  rewrite lookup_delete_ne by done. destruct (player_index d !! q) as [k'|] eqn:E; [|done]. cbn.
  apply Ha in E as [Hk' (e' & Hin')]. assert (k' <> k) by congruence.
  assert (Hg : om_get k' (lb_entries d) = Some e') by (by apply om_get_elem). rewrite Hg.
  apply om_get_elem; [by apply om_remove_sorted|]. by apply om_remove_elem.
Qed.

(** ** Comparisons of ranked scores *)

Lemma leb_total a b : is_nan a = false -> is_nan b = false -> f64_leb a b = false -> f64_leb b a = true.
Proof.
  unfold f64_leb, SFleb. rewrite (SFcompare_swap a b). intros Ha Hb.
  destruct (SFcompare a b) as [[]|] eqn:E; try done. exfalso. revert E.
  destruct a as [[]|[]| |[] m e], b as [[]|[]| |[] n d]; try done; cbn; by destruct (_ ?= _).
Qed.

Lemma leb_refl a : is_nan a = false -> f64_leb a a = true.
Proof. intros Ha. destruct (f64_leb a a) eqn:E; [done|]. by rewrite (leb_total a a) in E. Qed.

(** [a] is at least as good as [b]. *)
Definition at_least (o : SortOrder) (a b : f64) : Prop :=
  match o with HighestFirst => f64_leb b a = true | LowestFirst => f64_leb a b = true end.

(** ** Reachable engines *)

Inductive lb_step : LeaderboardEngine -> LeaderboardEngine -> Prop :=
| step_create c e : lb_step e (create_board c e)
| step_submit b p s m now r e e' : score_ok s -> submit_score b p s m now e = (r, e') -> lb_step e e'
| step_remove b p r e e' : remove_player b p e = (r, e') -> lb_step e e'
| step_expire b now r e e' : check_window_expiry b now e = (r, e') -> lb_step e e'.

Definition lb_reachable (e : LeaderboardEngine) : Prop := rtc lb_step ∅ e.

Lemma board_empty c w : board_ok {| lb_config := c; lb_entries := []; player_index := ∅; window_start_ms := w |}.
Proof.
  split; [constructor|]. split; [by intros k e ?%elem_of_nil|]. intros p k. cbn.
  rewrite lookup_empty. split; [done|]. by intros [_ [e ?%elem_of_nil]].
Qed.

Lemma submit_board_spec p s meta now d r d' : board_ok d -> score_ok s -> submit_board p s meta now d = (r, d') ->
  board_ok d' /\ order_of d' = order_of d /\
  match r with
  | Ok i => exists x, standing d' p = Some x /\ i = rank_info d' (key_of (order_of d) x) (score x) /\
      at_least (order_of d) (score x) s /\
      forall old, standing d p = Some old -> at_least (order_of d) (score x) (score old)
  | Err _ => standing d' p = None
  end /\
  (forall q, q <> p -> standing d' q = standing d q \/
    (standing d' q = None /\ forall e z y, standing d q = Some e -> standing d' z = Some y -> beats (order_of d) y e)).
Proof.
  intros Hd Hok. unfold submit_board.
  assert (Hself : forall o, at_least o s s) by (intros []; by apply leb_refl, Hok).
  assert (Hothers : forall new d0 d', displaced p new d0 d' -> forall q, q <> p ->
    standing d' q = standing d0 q \/ (standing d' q = None /\ forall e z y, standing d0 q = Some e ->
      standing d' z = Some y -> beats (order_of d0) y e)).
  { intros new d0 d2 [Hst Hdr] q Hq. destruct (standing d2 q) as [e|] eqn:E.
    - left. apply Hst in E. rewrite decide_False in E by done. done.
    - destruct (standing d0 q) as [e|] eqn:E0; [|by left]. right. split; [done|]. intros e1 z y [= <-]. by apply (Hdr q). }
  destruct (player_index d !! p) as [k|] eqn:Ei.
  - pose proof Hd as (Hs & Hk & Ha). pose proof Ei as Hi. apply Ha in Hi as [Hp [e Hin]].
    destruct (Hk _ _ Hin) as [Ek He]. assert (Hpe : player_id e = p) by (rewrite Ek in Hp; exact Hp).
    assert (Hold : standing d p = Some e) by (apply standing_elem; [done|]; by rewrite <- Ek).
    assert (Hdec : decode_score (encoded k) (order_of d) = score e) by (rewrite Ek; apply decode_encoded, He).
    fold (order_of d). rewrite Hdec. set (dom := match order_of d with HighestFirst => _ | LowestFirst => _ end).
    assert (Hdom : dom = true -> at_least (order_of d) (score e) s) by (unfold dom, at_least; by destruct (order_of d)).
    assert (Hnd : dom = false -> at_least (order_of d) s (score e)).
    { unfold dom, at_least. destruct (order_of d); intros ?; apply leb_total; done || apply Hok || apply He. }
    destruct dom.
    + intros [= <- <-]. split; [done|]. split; [done|]. split; [|by left]. exists e. rewrite <- Ek.
      split; [done|]. split; [done|]. split; [by apply Hdom|]. rewrite Hold. intros old [= <-].
      destruct (order_of d); apply leb_refl, He.
    + destruct (remove_entry_ok d k e Hd) as (Hd0 & Hn0 & Hst0); [by rewrite Hpe|done|]. rewrite Hpe in *.
      set (d0 := with_entries _ _ d) in *. intros Hins.
      apply insert_score_spec in Hins as (Hd' & Hc & Hdisp & Hr); [|done..].
      split; [done|]. split; [unfold order_of; by rewrite Hc|]. split.
      * destruct r as [i|]; [|done]. destruct Hr as [Hx ->]. exists (entry_new p s meta now).
        split; [done|]. split; [done|]. split; [apply Hself|]. rewrite Hold. intros old [= <-]. by apply Hnd.
      * intros q Hq. destruct (Hothers _ _ _ Hdisp q Hq) as [E|[E Hb]]; [left; by rewrite E, Hst0|right].
        split; [done|]. intros e1 z y. rewrite <- Hst0 by done. apply Hb.
  - intros Hins. apply insert_score_spec in Hins as (Hd' & Hc & Hdisp & Hr); [|done..].
    split; [done|]. split; [unfold order_of; by rewrite Hc|]. split; [|by eapply Hothers].
    destruct r as [i|]; [|done]. destruct Hr as [Hx ->]. exists (entry_new p s meta now).
    split; [done|]. split; [done|]. split; [apply Hself|]. unfold standing at 1. rewrite Ei. done.
Qed.

Lemma lb_step_ok e e' : lb_step e e' -> map_Forall (fun _ d => board_ok d) e -> map_Forall (fun _ d => board_ok d) e'.
Proof.
  intros Hst He. destruct Hst as [c e|b p s m now r e e' Hs Hsub|b p r e e' Hr|b now r e e' Hx].
  - apply map_Forall_insert_2; [apply board_empty|done].
  - unfold submit_score, on_board in Hsub. destruct (e !! b) as [d|] eqn:E; [|by simplify_eq].
    destruct (submit_board p s m now d) as [r1 d1] eqn:Eb. simplify_eq.
    apply map_Forall_insert_2; [|done]. apply submit_board_spec in Eb as (? & _); [done|by eapply He|done].
  - unfold remove_player, on_board in Hr. destruct (e !! b) as [d|] eqn:E; [|by simplify_eq].
    pose proof (He _ _ E) as Hd. unfold remove_board in Hr.
    destruct (player_index d !! p) as [k|] eqn:Ei; simplify_eq; (apply map_Forall_insert_2; [|done]); [|done].
    pose proof Hd as (_ & Hk & Ha). pose proof Ei as Hi. apply Ha in Hi as [Hp [x Hin]].
    destruct (Hk _ _ Hin) as [Ek _]. assert (Hpe : player_id x = p) by (rewrite Ek in Hp; exact Hp).
    destruct (remove_entry_ok d k x Hd) as (Hd0 & _); [by rewrite Hpe|done|]. by rewrite Hpe in Hd0.
  - unfold check_window_expiry, on_board, expire_board in Hx. destruct (e !! b) as [d|] eqn:E; [|by simplify_eq].
    destruct (window_expired _ _ _); simplify_eq; (apply map_Forall_insert_2; [|done]); [apply board_empty|by eapply He].
Qed.

Lemma lb_reachable_ok e b d : lb_reachable e -> e !! b = Some d -> board_ok d.
Proof.
  intros Hr. assert (Hall : map_Forall (fun _ d => board_ok d) e); [|by apply Hall].
  assert (Hgen : forall e0, map_Forall (fun _ d => board_ok d) e0 -> rtc lb_step e0 e -> map_Forall (fun _ d => board_ok d) e).
  { intros e0 H0. induction 1 as [|e1 e2 e3 Hs _ IH]; [done|]. by eapply IH, lb_step_ok. }
  by apply (Hgen ∅).
Qed.

(** ** Lists and ranks *)

Lemma enumerate_lookup l : forall i j, enumerate i l !! j = (fun ke => (i + Z.of_nat j, snd ke)) <$> l !! j.
Proof.
  induction l as [|[k e] l IH]; intros i j; [done|]. destruct j as [|j]; cbn; [by rewrite Z.add_0_r|].
  rewrite IH. destruct (l !! j); [|done]. cbn. do 2 f_equal. lia.
Qed.

Lemma enumerate_snd l : forall i, map snd (enumerate i l) = map snd l.
Proof. induction l as [|[k e] l IH]; intros i; [done|]. cbn. by rewrite IH. Qed.

Lemma board_sorted d : board_ok d -> StronglySorted (beats (order_of d)) (map snd (lb_entries d)).
Proof.
  intros (Hs & Hk & _). induction Hs as [|[k e] l Hs IH Hf]; cbn; [constructor|].
  constructor; [apply IH; intros k' e' Hin; apply Hk; by right|].
  apply Forall_forall. intros x ([k' e'] & -> & Hin)%list_elem_of_fmap. rewrite Forall_forall in Hf.
  pose proof (Hf _ Hin) as Hlt. unfold om_lt in Hlt. cbn in Hlt.
  destruct (Hk k e) as [Ek He]; [by left|]. destruct (Hk k' e') as [Ek' He']; [by right|].
  apply key_beats; [apply He|apply He'|]. cbn [snd]. by rewrite <- Ek, <- Ek'.
Qed.

Lemma StronglySorted_take {A} (R : A -> A -> Prop) l n : StronglySorted R l -> StronglySorted R (take n l).
Proof.
  intros Hs. revert n. induction Hs as [|x l Hs IH Hf]; intros [|n]; cbn; [constructor..|].
  constructor; [done|]. by apply Forall_take.
Qed.

(** C28: ranks are the order of the board: on any board reached by submissions, removals and
    window resets, [top] lists the entries by score in the board's order, the earlier first
    among equal scores, numbered from one, as many as asked for and there are; [get_range] lists
    the part of that list between two ranks, both included, and refuses any other range; and a
    player has the rank under which he is listed, with the score submitted, bit for bit. *)
Theorem ranks_are_exact e board d : lb_reachable e -> e !! board = Some d ->
  (forall count, exists l, lb_top board count e = Ok l /\
     zlen l = Z.min (Z.max count 0) (player_count board e) /\
     map fst l = map Z.of_nat (seq 1 (length l)) /\
     StronglySorted (beats (order_of d)) (map snd l)) /\
  (forall first last, 0 <= first -> last < U64 ->
     match get_range board first last e with
     | Ok l => 1 <= first <= last /\ exists top, lb_top board last e = Ok top /\ l = drop (Z.to_nat (first - 1)) top
     | Err _ => ~ (1 <= first <= last)
     end) /\
  (forall player i, get_rank board player e = Ok i ->
     forall count l, lb_top board count e = Ok l -> rank_no i <= count ->
     exists x, l !! Z.to_nat (rank_no i - 1) = Some (rank_no i, x) /\ player_id x = player /\
               score x = r_score i /\ total_players i = player_count board e).
Proof.
  intros Hr Hb. pose proof (lb_reachable_ok _ _ _ Hr Hb) as Hd. split_and!.
  - intros count. unfold lb_top, player_count. rewrite Hb. eexists. split; [reflexivity|].
    assert (Hlen : forall l i, length (enumerate i l) = length l).
    { induction l as [|[k x] l IH]; intros i; cbn; [done|]. by rewrite IH. }
    unfold top_board. split; [rewrite length_take, Hlen; lia|]. split.
    + apply list_eq. intros j. rewrite !list_lookup_fmap. set (l := take _ _).
      destruct (decide (j < length l)%nat) as [Hj|Hj].
      * rewrite lookup_seq_lt by done. unfold l. rewrite lookup_take_lt by (unfold l in Hj; rewrite length_take in Hj; lia).
        rewrite enumerate_lookup. destruct (lookup_lt_is_Some_2 (lb_entries d) j) as [ke ->].
        { unfold l in Hj. rewrite length_take, Hlen in Hj. lia. }
        cbn. f_equal. lia.
      * rewrite lookup_ge_None_2 by lia. rewrite lookup_seq_ge by lia. done.
    + assert (Hmt : forall (l : list (Z * LeaderboardEntry)) n, map snd (take n l) = take n (map snd l)).
      { induction l as [|x l IH]; intros [|n]; cbn; [done..|]. by rewrite IH. }
      rewrite Hmt, enumerate_snd. by apply StronglySorted_take, board_sorted.
  - intros a b Ha Hl. unfold get_range, lb_top. rewrite Hb. unfold range_board.
    destruct ((a =? 0) || (b <? a)) eqn:E; [rewrite orb_true_iff in E; zbool; lia|]. zbool. split; [lia|].
    eexists. split; [reflexivity|]. unfold ranks_between, top_board, wrap_u64. rewrite Z.mod_small by (unfold U64 in Hl; lia).
    rewrite take_drop_commute. do 2 f_equal. lia.
  - intros player i Hg count l Hl Hc. unfold get_rank, lb_top, player_count in *. rewrite Hb in *.
    injection Hl as <-. unfold rank_board in Hg. destruct (player_index d !! player) as [k|] eqn:Ei; [|done].
    injection Hg as <-. pose proof Hd as (Hs & Hk & Ha). apply Ha in Ei as [Hp [x Hin]].
    destruct (Hk _ _ Hin) as [Ek Hx]. exists x. cbn [rank_no r_score total_players rank_info compute_rank_internal] in *.
    unfold compute_rank_internal in *. pose proof (om_lookup_below k x _ Hs Hin) as Hlk.
    set (n := length (om_below k (lb_entries d))) in *. split.
    + unfold top_board. rewrite lookup_take_lt by lia. rewrite enumerate_lookup.
      replace (Z.to_nat (Z.of_nat n + 1 - 1)) with n by lia. rewrite Hlk. cbn. do 2 f_equal. lia.
    + split; [rewrite Ek in Hp; exact Hp|]. split; [|done]. rewrite Ek. symmetry. apply decode_encoded, Hx.
Qed.

(** A submission never worsens a player: on a board reached by any calls, an accepted
    score leaves the player standing with the better of the scores he had and has submitted,
    at the rank it replies; every other player stands as before, or has been pushed off by
    the cap, and then everybody left beats him. *)
Theorem submit_keeps_best e board d player s meta now r e' :
  lb_reachable e -> e !! board = Some d -> score_ok s ->
  submit_score board player s meta now e = (r, e') ->
  exists d', e' = <[board := d']> e /\
  match r with
  | Ok i => exists x, standing d' player = Some x /\ r_score i = score x /\
      (forall count l, lb_top board count e' = Ok l -> rank_no i <= count ->
         l !! Z.to_nat (rank_no i - 1) = Some (rank_no i, x)) /\
      at_least (order_of d) (score x) s /\
      forall old, standing d player = Some old -> at_least (order_of d) (score x) (score old)
  | Err _ => standing d' player = None
  end /\
  (forall q, q <> player -> standing d' q = standing d q \/
    (standing d' q = None /\ forall x z y, standing d q = Some x -> standing d' z = Some y -> beats (order_of d) y x)).
Proof.
  intros Hr Hb Hs Hsub. pose proof (lb_reachable_ok _ _ _ Hr Hb) as Hd.
  assert (Hr' : lb_reachable e') by (eapply rtc_r; [exact Hr|by eapply step_submit]).
  unfold submit_score, on_board in Hsub. rewrite Hb in Hsub.
  destruct (submit_board player s meta now d) as [r1 d'] eqn:E. injection Hsub as <- <-.
  apply submit_board_spec in E as (Hd' & Ho & Hres & Hoth); [|done..].
  exists d'. split; [done|]. split; [|done]. destruct r1 as [i|]; [|done].
  destruct Hres as (x & Hx & -> & Hal & Hold). exists x. split; [done|]. split; [done|]. split; [|done].
  intros count l Hl Hc. apply standing_elem in Hx as [Hp Hin]; [|done]. rewrite Ho in Hin.
  unfold lb_top in Hl. rewrite lookup_insert_eq in Hl. injection Hl as <-.
  cbn [rank_no rank_info] in *. unfold compute_rank_internal in *.
  pose proof (om_lookup_below _ _ _ (proj1 Hd') Hin) as Hlk.
  set (n := length (om_below _ (lb_entries d'))) in *. unfold top_board. rewrite lookup_take_lt by lia.
  rewrite enumerate_lookup. replace (Z.to_nat (Z.of_nat n + 1 - 1)) with n by lia. rewrite Hlk. cbn. do 2 f_equal. lia.
Qed.

(** ** On a concrete board *)

Definition demo_config (w : TimeWindow) (max : Z) : LeaderboardConfig :=
  {| lb_name := bs "kills"; sort_order := HighestFirst; time_window := w; max_entries := max |}.
Definition f64_nat (n : Z) : f64 := f64_of_uint n.
Definition submit_all (l : list (Bytes * Z * Z)) (e : LeaderboardEngine) : LeaderboardEngine :=
  foldl (fun e (x : Bytes * Z * Z) => snd (submit_score (bs "kills") x.1.1 (f64_nat x.1.2) None x.2 e)) e l.
Definition demo_board (w : TimeWindow) : LeaderboardEngine := create_board (demo_config w 2) ∅.
Definition demo_scores : LeaderboardEngine :=
  submit_all [(bs "ann", 10, 1); (bs "bob", 30, 2); (bs "ann", 20, 3)] (demo_board Daily).

Lemma submit_all_reachable l e : lb_reachable e ->
  forallb (fun x : Bytes * Z * Z => valid_binary prec emax (f64_nat x.1.2) && negb (is_nan (f64_nat x.1.2))) l = true ->
  lb_reachable (submit_all l e).
Proof.
  revert e. induction l as [|x l IH]; intros e He; [done|]. cbn [forallb]. rewrite !andb_true_iff, negb_true_iff.
  intros [Hx Hl]. apply IH; [|done]. eapply rtc_r; [exact He|].
  destruct (submit_score (bs "kills") x.1.1 (f64_nat x.1.2) None x.2 e) as [r e'] eqn:E.
  eapply step_submit; [|exact E]. exact Hx.
Qed.

Lemma demo_board_reachable w : lb_reachable (demo_board w).
Proof. apply rtc_once. apply step_create. Qed.

Definition the_board (e : LeaderboardEngine) : LeaderboardData :=
  default {| lb_config := demo_config Daily 2; lb_entries := []; player_index := ∅; window_start_ms := 0 |} (e !! bs "kills").

Lemma has_board e : bool_decide (is_Some (e !! bs "kills")) = true -> e !! bs "kills" = Some (the_board e).
Proof. intros [d Hd]%bool_decide_eq_true. unfold the_board. by rewrite Hd. Qed.

Lemma ranks_are_exact_witness :
  let e := demo_scores in
  e !! bs "kills" = Some (the_board e) /\
  exists l, lb_top (bs "kills") 5 e = Ok l /\ zlen l = 2 /\ map fst l = map Z.of_nat (seq 1 (length l)) /\
    StronglySorted (beats HighestFirst) (map snd l).
Proof.
  assert (He : demo_scores !! bs "kills" = Some (the_board demo_scores)) by (apply has_board; by vm_compute).
  split; [exact He|].
  destruct (ranks_are_exact demo_scores (bs "kills") (the_board demo_scores)) as [Ht _];
    [apply submit_all_reachable; [apply demo_board_reachable|by vm_compute]|exact He|].
  destruct (Ht 5) as (l & E & Hl & Hm & Hs). exists l. split; [exact E|]. split; [|split; [exact Hm|]].
  - rewrite Hl. by vm_compute.
  - assert (Ho : order_of (the_board demo_scores) = HighestFirst) by (by vm_compute). by rewrite Ho in Hs.
Defined.

(** A third player pushes the worse of two off a board for two. *)
Lemma submit_keeps_best_witness :
  let '(r, e') := submit_score (bs "kills") (bs "eve") (f64_nat 25) None 9 demo_scores in
  exists d', e' = <[bs "kills" := d']> demo_scores /\
  match r with
  | Ok i => exists x, standing d' (bs "eve") = Some x /\ r_score i = score x
  | Err _ => False
  end.
Proof.
  assert (He : demo_scores !! bs "kills" = Some (the_board demo_scores)) by (apply has_board; by vm_compute).
  assert (Hr : lb_reachable demo_scores)
    by (apply submit_all_reachable; [apply demo_board_reachable|by vm_compute]).
  assert (Hs : score_ok (f64_nat 25)) by (split; by vm_compute).
  assert (Hok : match fst (submit_score (bs "kills") (bs "eve") (f64_nat 25) None 9 demo_scores) with
                | Ok _ => true | Err _ => false end = true) by (by vm_compute).
  destruct (submit_score (bs "kills") (bs "eve") (f64_nat 25) None 9 demo_scores) as [r e'] eqn:E.
  destruct (submit_keeps_best demo_scores (bs "kills") (the_board demo_scores) (bs "eve") (f64_nat 25) None 9 r e'
    Hr He Hs E) as (d' & -> & Hres & _).
  exists d'. split; [reflexivity|]. destruct r as [i|]; [|discriminate Hok].
  destruct Hres as (x & Hx & Hrs & _). exists x. split; [exact Hx|exact Hrs].
Defined.

(** ** Windows *)

(** A board is created with a window that started in 1970: the first check of a daily board
    wipes the scores of the day. *)
Lemma first_check_wipes :
  let now := 1700000000000 in
  let e := submit_all [(bs "ann", 10, now)] (demo_board Daily) in
  player_count (bs "kills") e = 1 /\
  let '(reset, e') := check_window_expiry (bs "kills") (now + 1) e in
  reset = true /\ player_count (bs "kills") e' = 0.
Proof. by vm_compute. Qed.

(** Weeks begin on Sunday: 4 January 1970 was one, three days after the epoch. *)
Lemma weeks_begin_on_sunday :
  let sunday := 3 * DAY_MS in
  window_expired Weekly (sunday - 1) sunday = true /\
  window_expired Weekly sunday (sunday + 6 * DAY_MS) = false /\
  window_expired Weekly sunday (sunday + 7 * DAY_MS) = true.
Proof. by vm_compute. Qed.

(** A duration near the top of the range wraps and expires at once. *)
Lemma custom_window_wraps : window_expired (Custom (U64 - 1)) 5 6 = true.
Proof. by vm_compute. Qed.

(** The documentation of the percentile says 99 for the first of a hundred. *)
Lemma first_of_hundred : compute_percentile 1 100 = f64_of_uint 100 /\ compute_percentile 100 100 = f64_of_uint 0.
Proof. split; by vm_compute. Qed.
