(* ===== verification/LobbyRuntime.v ===== *)
(** * Lobby runtimes (src/runtime/tick.rs, lobby_runtime.rs, aoi_broadcast.rs, registry.rs)

    The tick scheduler with its fixed step, the systems every lobby runs, the broadcast of
    moved entities, a lobby's runtime, and the registry with the calls reducers make on it.
    Instants and measured durations are arguments, in nanoseconds. The frames handed to the
    clients' channels are the result of a broadcast; their encoding is library code. A call
    is [None] where the source panics. *)

From S2P Require Import Prelude Util Ecs Aoi.
From Stdlib Require Import SpecFloat.

(** ** Ticks *)

Record TickConfig := { tick_rate_hz : Z; max_tick_time_ms : Z }.
Definition tick_config_default : TickConfig := {| tick_rate_hz := 20; max_tick_time_ms := 10 |}.

Record TickResult := { r_tick : Z; entities_processed : Z; aoi_updates : Z; elapsed_ns : Z }.

Record TickScheduler := {
  s_world : World; executor : list System; s_aoi : AreaOfInterest; s_config : TickConfig;
  s_tick : Z; accumulator : Z; last_frame : Z }.

Definition with_accumulator (n : Z) (s : TickScheduler) : TickScheduler :=
  {| s_world := s_world s; executor := executor s; s_aoi := s_aoi s; s_config := s_config s;
     s_tick := s_tick s; accumulator := n; last_frame := last_frame s |}.
Definition with_world (w : World) (s : TickScheduler) : TickScheduler :=
  {| s_world := w; executor := executor s; s_aoi := s_aoi s; s_config := s_config s;
     s_tick := s_tick s; accumulator := accumulator s; last_frame := last_frame s |}.
Definition with_aoi (a : AreaOfInterest) (s : TickScheduler) : TickScheduler :=
  {| s_world := s_world s; executor := executor s; s_aoi := a; s_config := s_config s;
     s_tick := s_tick s; accumulator := accumulator s; last_frame := last_frame s |}.

Definition scheduler_new (now : Z) (c : TickConfig) (distance : f32) : TickScheduler :=
  {| s_world := world_new; executor := []; s_aoi := aoi_new (f32_of_int 100) distance; s_config := c;
     s_tick := 0; accumulator := 0; last_frame := now |}.

Definition with_system (sys : System) (s : TickScheduler) : TickScheduler :=
  {| s_world := s_world s; executor := executor s ++ [sys]; s_aoi := s_aoi s; s_config := s_config s;
     s_tick := s_tick s; accumulator := accumulator s; last_frame := last_frame s |}.

Definition run_tick (elapsed : Z) (s : TickScheduler) : TickResult * TickScheduler :=
  let w := run_all (executor s) (s_world s) (s_tick s) in
  let '(events, a) := aoi_update (s_aoi s) in
  ({| r_tick := s_tick s; entities_processed := entity_count w; aoi_updates := zlen events; elapsed_ns := elapsed |},
   {| s_world := w; executor := executor s; s_aoi := a; s_config := s_config s;
      s_tick := wrap_u64 (s_tick s + 1); accumulator := accumulator s; last_frame := last_frame s |}).

(** [Duration::from_secs_f64], in nanoseconds, rounded; it panics on what is no duration. *)
Definition duration_of_secs (f : f64) : option Z :=
  match f with
  | S754_zero _ => Some 0
  | S754_finite false m e =>
      let '(num, den) := as_fraction m e in
      let ns := round_half_even (num * 10 ^ 9) den in
      if ns <? 2 ^ 64 * 10 ^ 9 then Some ns else None
  | _ => None
  end.

Definition tick_duration (hz : Z) : option Z := duration_of_secs (f64_div f64_one (f64_of_uint hz)).

(** The loop; [elapsed] gives the two measurements of each tick, the inner and the outer. *)
Fixpoint fixed_loop (fuel : nat) (dur max_tick : Z) (elapsed : nat -> Z * Z) (s : TickScheduler)
    (results : list TickResult) : option (list TickResult * TickScheduler) :=
  match fuel with
  | O => None
  | S f =>
      if dur <=? accumulator s then
        let '(r, s) := run_tick (fst (elapsed 0%nat)) s in
        if max_tick <=? snd (elapsed 0%nat) then Some (results ++ [r], with_accumulator 0 s)
        else fixed_loop f dur max_tick (fun n => elapsed (S n)) (with_accumulator (accumulator s - dur) s) (results ++ [r])
      else Some (results, s)
  end.

Definition run_fixed_step (fuel : nat) (now : Z) (elapsed : nat -> Z * Z) (s : TickScheduler)
  : option (list TickResult * TickScheduler) :=
  let frame_time := Z.max 0 (now - last_frame s) in
  let s := {| s_world := s_world s; executor := executor s; s_aoi := s_aoi s; s_config := s_config s;
              s_tick := s_tick s; accumulator := accumulator s + frame_time; last_frame := now |} in
  dur ← tick_duration (tick_rate_hz (s_config s));
  fixed_loop fuel dur (max_tick_time_ms (s_config s) * 10 ^ 6) elapsed s [].

(** ** Systems *)

Definition moved (w : World) (iv : EntityId * Velocity) : option (EntityId * (f32 * f32 * f32)) :=
  let '(id, v) := iv in
  p ← cm_get id (transforms w);
  Some (id, (f32_add (t_x p) (vx v), f32_add (t_y p) (vy v), f32_add (t_z p) (vz v))).

Definition put_transform (w : World) (u : EntityId * (f32 * f32 * f32)) : World :=
  let '(id, (x, y, z)) := u in
  set_transforms (cm_modify id (fun _ => {| t_x := x; t_y := y; t_z := z |}) (transforms w)) w.

Definition MovementSystem : System := fun w _ => foldl put_transform w (omap (moved w) (cm_iter (velocities w))).

(** It looks at every health and changes none. *)
Definition HealthSystem : System := fun w _ => w.

(** ** The broadcast *)

Record AoiDelta := { d_entity : Z; d_operation : Bytes; d_x : f32; d_y : f32; server_tick : option Z }.

Definition MOVE_EPSILON : f32 := f32_of_dec false 1 (-3).

Definition delta_for (prev : gmap EntityId (f32 * f32)) (tick : Z) (p : EntityId * (f32 * f32)) : option AoiDelta :=
  let '(id, (x, y)) := p in
  let mk op := Some {| d_entity := e_index id; d_operation := op; d_x := x; d_y := y; server_tick := Some tick |} in
  match prev !! id with
  | Some (old_x, old_y) =>
      if f32_ltb MOVE_EPSILON (f32_abs (f32_sub old_x x)) || f32_ltb MOVE_EPSILON (f32_abs (f32_sub old_y y))
      then mk (bs "update") else None
  | None => mk (bs "insert")
  end.

Definition compute_deltas (prev current : gmap EntityId (f32 * f32)) (tick : Z)
  : list AoiDelta * gmap EntityId (f32 * f32) :=
  let gone := List.filter (fun p : EntityId * (f32 * f32) => bool_decide (current !! p.1 = None)) (map_to_list prev) in
  (omap (delta_for prev tick) (map_to_list current) ++
   map (fun p : EntityId * (f32 * f32) =>
     {| d_entity := e_index p.1; d_operation := bs "delete"; d_x := p.2.1; d_y := p.2.2; server_tick := Some tick |}) gone,
   foldl (fun m (p : EntityId * (f32 * f32)) => delete p.1 m) prev gone).

(** Whether a client is told of a delta: the entity is looked up under generation 0. *)
Definition told (a : AreaOfInterest) (player : EntityId) (d : AoiDelta) : bool :=
  bool_decide ({| e_index := wrap_u32 (d_entity d); e_generation := 0 |} ∈ visible_to player a) ||
  (d_entity d =? e_index player).

(** What is handed to the clients' channels, and the cache. *)
Definition broadcast_tick (clients : gmap Z EntityId) (prev : gmap EntityId (f32 * f32)) (a : AreaOfInterest)
    (current : gmap EntityId (f32 * f32)) (tick : Z) : list (Z * list AoiDelta) * gmap EntityId (f32 * f32) :=
  if bool_decide (clients = ∅) || bool_decide (current = ∅) then ([], prev)
  else
    let '(deltas, prev) := compute_deltas prev current tick in
    (List.filter (fun cd : Z * list AoiDelta => match cd.2 with [] => false | _ => true end)
       (map (fun ce : Z * EntityId => (ce.1, List.filter (told a ce.2) deltas)) (map_to_list clients)), prev).

(** ** A lobby *)

Record LobbyRuntime := {
  lobby_id : Bytes; scheduler : TickScheduler; aoi_clients : gmap Z EntityId;
  previous_transforms : gmap EntityId (f32 * f32); last_tick_check : Z; tick_interval : Z }.

Definition with_scheduler (s : TickScheduler) (r : LobbyRuntime) : LobbyRuntime :=
  {| lobby_id := lobby_id r; scheduler := s; aoi_clients := aoi_clients r;
     previous_transforms := previous_transforms r; last_tick_check := last_tick_check r; tick_interval := tick_interval r |}.
Definition with_clients (c : gmap Z EntityId) (r : LobbyRuntime) : LobbyRuntime :=
  {| lobby_id := lobby_id r; scheduler := scheduler r; aoi_clients := c;
     previous_transforms := previous_transforms r; last_tick_check := last_tick_check r; tick_interval := tick_interval r |}.

Definition lr_world (r : LobbyRuntime) : World := s_world (scheduler r).
Definition lr_aoi (r : LobbyRuntime) : AreaOfInterest := s_aoi (scheduler r).
Definition set_world (w : World) (r : LobbyRuntime) : LobbyRuntime := with_scheduler (with_world w (scheduler r)) r.
Definition set_aoi (a : AreaOfInterest) (r : LobbyRuntime) : LobbyRuntime := with_scheduler (with_aoi a (scheduler r)) r.

Definition lobby_new (now : Z) (id : Bytes) (c : TickConfig) (distance : f32) : option LobbyRuntime :=
  interval ← tick_duration (tick_rate_hz c);
  Some {| lobby_id := id;
          scheduler := with_system HealthSystem (with_system MovementSystem (scheduler_new now c distance));
          aoi_clients := ∅; previous_transforms := ∅; last_tick_check := now - interval; tick_interval := interval |}.

Definition collect_transforms (r : LobbyRuntime) : gmap EntityId (f32 * f32) :=
  list_to_map (map (fun it : EntityId * Transform => (it.1, (t_x it.2, t_y it.2))) (cm_iter (transforms (lr_world r)))).

Definition broadcast_after_tick (r : LobbyRuntime) : list (Z * list AoiDelta) * LobbyRuntime :=
  let current := collect_transforms r in
  let '(out, _) := broadcast_tick (aoi_clients r) (previous_transforms r) (lr_aoi r) current (s_tick (scheduler r)) in
  (out, {| lobby_id := lobby_id r; scheduler := scheduler r; aoi_clients := aoi_clients r;
           previous_transforms := current; last_tick_check := last_tick_check r; tick_interval := tick_interval r |}).

Definition lobby_tick (now elapsed : Z) (r : LobbyRuntime) : TickResult * list (Z * list AoiDelta) * LobbyRuntime :=
  let '(res, s) := run_tick elapsed (scheduler r) in
  let r := {| lobby_id := lobby_id r; scheduler := s; aoi_clients := aoi_clients r;
              previous_transforms := previous_transforms r; last_tick_check := now; tick_interval := tick_interval r |} in
  let '(out, r) := broadcast_after_tick r in (res, out, r).

Definition tick_if_due (now elapsed : Z) (r : LobbyRuntime)
  : option (TickResult * list (Z * list AoiDelta)) * LobbyRuntime :=
  if tick_interval r <=? Z.max 0 (now - last_tick_check r) then
    let '(res, out, r) := lobby_tick now elapsed r in (Some (res, out), r)
  else (None, r).

Definition register_aoi_client (client : Z) (player : EntityId) (r : LobbyRuntime) : LobbyRuntime :=
  with_clients (<[client := player]> (aoi_clients r)) r.
Definition unregister_aoi_client (client : Z) (r : LobbyRuntime) : LobbyRuntime :=
  with_clients (delete client (aoi_clients r)) r.
Definition set_player_entity (client : Z) (player : EntityId) (r : LobbyRuntime) : LobbyRuntime :=
  with_clients (alter (fun _ => player) client (aoi_clients r)) r.

Definition full_health (hp : Z) : Health := {| hp_current := hp; hp_max := hp; hp_alive := true |}.
Definition placed (x y : f32) : Transform := {| t_x := x; t_y := y; t_z := S754_zero false |}.

(** Spawning: the slot, the transform and the health, then what is special, then the grid. *)
Definition spawn_with (special : EntityId -> World -> World) (x y : f32) (hp : Z) (r : LobbyRuntime)
  : option (EntityId * LobbyRuntime) :=
  '(id, w) ← spawn (lr_world r);
  let w := set_transforms (cm_insert id (placed x y) (transforms w)) w in
  let w := set_healths (cm_insert id (full_health hp) (healths w)) w in
  let r := set_world (special id w) r in
  Some (id, set_aoi (aoi_insert id x y (lr_aoi r)) r).

Definition spawn_player (now_nanos session : Z) (name : Bytes) (x y : f32) (hp : Z) (r : LobbyRuntime)
  : option (EntityId * LobbyRuntime) :=
  spawn_with (fun id w =>
    set_players (cm_insert id {| session_id := session; player_name := name; joined_at := now_nanos |} (players w)) w)
    x y hp r.

Definition spawn_npc (kind : Bytes) (level : Z) (x y : f32) (hp : Z) (r : LobbyRuntime)
  : option (EntityId * LobbyRuntime) :=
  spawn_with (fun id w => set_npcs (cm_insert id {| npc_type := kind; npc_level := level |} (npcs w)) w) x y hp r.

Definition set_velocity (id : EntityId) (v : Velocity) (r : LobbyRuntime) : LobbyRuntime :=
  set_world (set_velocities (cm_insert id v (velocities (lr_world r))) (lr_world r)) r.

Definition move_entity (id : EntityId) (x y : f32) (r : LobbyRuntime) : LobbyRuntime :=
  let w := lr_world r in
  let r := set_world (set_transforms (cm_modify id (fun t => {| t_x := x; t_y := y; t_z := t_z t |}) (transforms w)) w) r in
  set_aoi (aoi_move id x y (lr_aoi r)) r.

Definition lobby_despawn (id : EntityId) (r : LobbyRuntime) : option LobbyRuntime :=
  let r := set_aoi (aoi_remove id (lr_aoi r)) r in
  w ← despawn id (lr_world r); Some (set_world w r).

(** ** The registry *)

Record Registry := {
  reg_lobbies : gmap Bytes LobbyRuntime; pending_aoi : gmap Bytes Z; default_tick : TickConfig; reg_distance : f32 }.

Definition registry_new (c : TickConfig) (distance : f32) : Registry :=
  {| reg_lobbies := ∅; pending_aoi := ∅; default_tick := c; reg_distance := distance |}.

Definition with_lobbies (m : gmap Bytes LobbyRuntime) (g : Registry) : Registry :=
  {| reg_lobbies := m; pending_aoi := pending_aoi g; default_tick := default_tick g; reg_distance := reg_distance g |}.
Definition with_pending_aoi (m : gmap Bytes Z) (g : Registry) : Registry :=
  {| reg_lobbies := reg_lobbies g; pending_aoi := m; default_tick := default_tick g; reg_distance := reg_distance g |}.

Definition get_or_create (now : Z) (lobby : Bytes) (g : Registry) : option (LobbyRuntime * Registry) :=
  match reg_lobbies g !! lobby with
  | Some r => Some (r, g)
  | None => r ← lobby_new now lobby (default_tick g) (reg_distance g);
            Some (r, with_lobbies (<[lobby := r]> (reg_lobbies g)) g)
  end.

Definition stage_aoi_client (caller : Bytes) (client : Z) (g : Registry) : Registry :=
  with_pending_aoi (<[caller := client]> (pending_aoi g)) g.
Definition clear_staged_aoi_client (caller : Bytes) (g : Registry) : Registry :=
  with_pending_aoi (delete caller (pending_aoi g)) g.

Definition bind_aoi_client (now : Z) (lobby caller : Bytes) (player : EntityId) (g : Registry) : option (bool * Registry) :=
  match pending_aoi g !! caller with
  | None => Some (false, g)
  | Some client =>
      '(r, g) ← get_or_create now lobby (clear_staged_aoi_client caller g);
      Some (true, with_lobbies (<[lobby := register_aoi_client client player r]> (reg_lobbies g)) g)
  end.

Definition unregister_everywhere (client : Z) (g : Registry) : Registry :=
  with_lobbies (unregister_aoi_client client <$> reg_lobbies g) g.

Definition snapshot_counts (g : Registry) : gmap Bytes Z := (fun r => entity_count (lr_world r)) <$> reg_lobbies g.

(** ** The calls of reducers *)

Definition entity_to_wire (id : EntityId) : Z := Z.lor (Z.shiftl (e_index id) 32) (e_generation id).
Definition entity_from_wire (wire : Z) : EntityId :=
  {| e_index := wrap_u32 (Z.shiftr wire 32); e_generation := wrap_u32 wire |}.

Definition join_lobby (now : Z) (lobby caller : Bytes) (session : Z) (name : Bytes) (x y : f32) (hp : Z) (g : Registry)
  : option (Z * Registry) :=
  '(r, g) ← get_or_create now lobby g;
  '(id, r) ← spawn_player now session name x y hp r;
  '(_, g) ← bind_aoi_client now lobby caller id (with_lobbies (<[lobby := r]> (reg_lobbies g)) g);
  Some (entity_to_wire id, g).

Definition api_spawn_npc (now : Z) (lobby kind : Bytes) (level : Z) (x y : f32) (hp : Z) (g : Registry)
  : option (Z * Registry) :=
  '(r, g) ← get_or_create now lobby g;
  '(id, r) ← spawn_npc kind level x y hp r;
  Some (entity_to_wire id, with_lobbies (<[lobby := r]> (reg_lobbies g)) g).

(** The calls on a living entity: [false] when the lobby or the entity is not there. *)
Definition on_living (lobby : Bytes) (wire : Z) (f : EntityId -> LobbyRuntime -> option LobbyRuntime) (g : Registry)
  : option (bool * Registry) :=
  match reg_lobbies g !! lobby with
  | None => Some (false, g)
  | Some r =>
      let id := entity_from_wire wire in
      if negb (is_alive (lr_world r) id) then Some (false, g)
      else r ← f id r; Some (true, with_lobbies (<[lobby := r]> (reg_lobbies g)) g)
  end.

Definition api_set_velocity (lobby : Bytes) (wire : Z) (v : Velocity) : Registry -> option (bool * Registry) :=
  on_living lobby wire (fun id r => Some (set_velocity id v r)).
Definition api_move_entity (lobby : Bytes) (wire : Z) (x y : f32) : Registry -> option (bool * Registry) :=
  on_living lobby wire (fun id r => Some (move_entity id x y r)).
Definition api_despawn (lobby : Bytes) (wire : Z) : Registry -> option (bool * Registry) :=
  on_living lobby wire lobby_despawn.

Definition damaged (amount : Z) (h : Health) : Health :=
  let hp := Z.max (wrap_i32 (hp_current h - amount)) 0 in
  {| hp_current := hp; hp_max := hp_max h; hp_alive := 0 <? hp |}.

Definition damage (id : EntityId) (amount : Z) (r : LobbyRuntime) : option (Z * bool) * LobbyRuntime :=
  let w := lr_world r in
  match cm_get id (healths w) with
  | None => (None, r)
  | Some h => let h' := damaged amount h in
      (Some (hp_current h', hp_alive h'), set_world (set_healths (cm_modify id (damaged amount) (healths w)) w) r)
  end.

Definition apply_damage (lobby : Bytes) (wire amount : Z) (g : Registry) : option (Z * bool) * Registry :=
  match reg_lobbies g !! lobby with
  | None => (None, g)
  | Some r => let '(res, r) := damage (entity_from_wire wire) amount r in
              (res, with_lobbies (<[lobby := r]> (reg_lobbies g)) g)
  end.

Definition get_transform (lobby : Bytes) (wire : Z) (g : Registry) : option (f32 * f32 * f32) :=
  r ← reg_lobbies g !! lobby;
  t ← cm_get (entity_from_wire wire) (transforms (lr_world r)); Some (t_x t, t_y t, t_z t).
Definition get_health (lobby : Bytes) (wire : Z) (g : Registry) : option (Z * Z * bool) :=
  r ← reg_lobbies g !! lobby;
  h ← cm_get (entity_from_wire wire) (healths (lr_world r)); Some (hp_current h, hp_max h, hp_alive h).
Definition lobby_tick_number (lobby : Bytes) (g : Registry) : Z :=
  match reg_lobbies g !! lobby with Some r => s_tick (scheduler r) | None => 0 end.
Definition lobby_entity_count (lobby : Bytes) (g : Registry) : Z :=
  match reg_lobbies g !! lobby with Some r => entity_count (lr_world r) | None => 0 end.

(** One wake-up of the driver: every lobby ticks. *)
Definition drive (now : Z) (elapsed : Bytes -> Z) (g : Registry) : list (Z * list AoiDelta) * Registry :=
  let ticked := map_imap (fun n r => Some (lobby_tick now (elapsed n) r)) (reg_lobbies g) in
  (concat (map (fun nt => nt.2.1.2) (map_to_list ticked)), with_lobbies (snd <$> ticked) g).

(** ** Lobbies: the parts of a lobby agree, and the fixed step ends

    The world, the grid and the visible sets of a lobby speak of the same entities whatever
    calls and ticks it has had; a fixed step runs the ticks that have come due and ends. *)


(** ** Handles *)

Lemma handles_fit w live dead n id : life w live dead n -> n < 2 ^ 32 -> id ∈ live ∪ dead ->
  0 <= e_index id < 2 ^ 32 /\ (id ∈ live -> 0 <= e_generation id < 2 ^ 32).
Proof.
  intros Hl Hn Hin. pose proof (life_ok _ _ _ _ Hl Hn) as (Hlen & Hg & _ & _ & Hlive & Hdead & _).
  assert (Hix : 0 <= e_index id /\ is_Some (slot_of (generations (allocator w)) id)).
  { apply elem_of_union in Hin as [(H0 & Hs & _)%Hlive|(H0 & g & Hs & _)%Hdead]; eauto. }
  destruct Hix as (H0 & g & Hs). pose proof (lookup_lt_Some _ _ _ Hs). split; [lia|].
  intros (_ & Hs' & _)%Hlive. apply Hg in Hs'. lia.
Qed.

Lemma wire_roundtrip id : 0 <= e_index id < 2 ^ 32 -> 0 <= e_generation id < 2 ^ 32 ->
  entity_from_wire (entity_to_wire id) = id.
Proof.
  destruct id as [i g]. cbn [e_index e_generation]. intros Hi Hg.
  assert (Hd : Z.land (Z.shiftl i 32) g = 0).
  { apply Z.bits_inj'. intros k Hk. rewrite Z.land_spec, Z.bits_0. destruct (decide (k < 32)) as [Hl|Hl].
    - by rewrite Z.shiftl_spec_low.
    - rewrite (Z.bits_above_log2 g k), andb_false_r; [done|lia|]. destruct (decide (g = 0)) as [->|]; [cbn; lia|].
      apply Z.log2_lt_pow2; [lia|]. eapply Z.lt_le_trans; [apply Hg|]. apply Z.pow_le_mono_r; lia. }
  unfold entity_from_wire, entity_to_wire, wrap_u32. cbn [e_index e_generation].
  rewrite <- Z.lxor_lor, <- Z.add_nocarry_lxor by exact Hd.
  rewrite Z.shiftl_mul_pow2, Z.shiftr_div_pow2 by lia. f_equal.
  - rewrite Z.div_add_l, (Z.div_small g) by lia. rewrite Z.add_0_r. by apply Z.mod_small.
  - rewrite Z.add_comm, Z.mod_add by lia. by apply Z.mod_small.
Qed.

(** ** The lives of a lobby *)

(** A lobby after [n] calls, with the entities alive and those despawned. Calls name handles
    that the lobby has given out, and are made, as the reducers' interface makes them, on the
    living ones only. *)
Inductive lobby_life : LobbyRuntime -> gset EntityId -> gset EntityId -> Z -> Prop :=
| ll_new now id c distance r : lobby_new now id c distance = Some r -> lobby_life r ∅ ∅ 0
| ll_player r live dead n now session name x y hp id r' :
    lobby_life r live dead n -> spawn_player now session name x y hp r = Some (id, r') ->
    lobby_life r' ({[id]} ∪ live) dead (n + 1)
| ll_npc r live dead n kind level x y hp id r' :
    lobby_life r live dead n -> spawn_npc kind level x y hp r = Some (id, r') ->
    lobby_life r' ({[id]} ∪ live) dead (n + 1)
| ll_velocity r live dead n id v :
    lobby_life r live dead n -> id ∈ live ∪ dead -> is_alive (lr_world r) id = true ->
    lobby_life (set_velocity id v r) live dead (n + 1)
| ll_move r live dead n id x y :
    lobby_life r live dead n -> id ∈ live ∪ dead -> is_alive (lr_world r) id = true ->
    lobby_life (move_entity id x y r) live dead (n + 1)
| ll_despawn r live dead n id r' :
    lobby_life r live dead n -> id ∈ live ∪ dead -> is_alive (lr_world r) id = true ->
    lobby_despawn id r = Some r' -> lobby_life r' (live ∖ {[id]}) ({[id]} ∪ dead) (n + 1)
| ll_damage r live dead n id amount :
    lobby_life r live dead n -> lobby_life (snd (damage id amount r)) live dead (n + 1)
| ll_tick r live dead n now elapsed :
    lobby_life r live dead n -> lobby_life (snd (lobby_tick now elapsed r)) live dead (n + 1)
| ll_clients r live dead n c :
    lobby_life r live dead n -> lobby_life (with_clients c r) live dead (n + 1).

(** A storage is sound, has room, and holds components of [s]. *)
Definition holds {T} (m : ComponentMap T) (n : Z) (s : gset EntityId) : Prop :=
  cm_ok m /\ zlen (dense m) <= n /\ dom (contents m) = s.
Definition within_live {T} (m : ComponentMap T) (n : Z) (live : gset EntityId) : Prop :=
  exists s, holds m n s /\ s ⊆ live.

Lemma holds_new {T} : holds (cm_new : ComponentMap T) 0 ∅.
Proof. destruct (cm_new_ok (T := T)) as [Hm Hc]. split; [done|]. split; [done|]. by rewrite Hc, dom_empty_L. Qed.

Lemma holds_later {T} (m : ComponentMap T) n n' s : holds m n s -> n <= n' -> holds m n' s.
Proof. intros (Hm & Hn & Hd) ?. split; [done|]. split; [lia|done]. Qed.

Lemma holds_insert {T} id (c : T) m n s : holds m n s -> n < 2 ^ 32 -> holds (cm_insert id c m) (n + 1) ({[id]} ∪ s).
Proof.
  intros (Hm & Hn & Hd) Hb. destruct (cm_insert_ok id c m Hm ltac:(lia)) as (Hm' & Hc & Hl).
  split; [done|]. split; [lia|]. by rewrite Hc, dom_insert_L, Hd.
Qed.

Lemma holds_remove {T} id (m : ComponentMap T) n s : holds m n s -> holds (snd (cm_remove id m)) (n + 1) (s ∖ {[id]}).
Proof.
  intros (Hm & Hn & Hd). pose proof (cm_remove_ok id m Hm) as Hr. destruct (cm_remove id m) as [r m'].
  destruct Hr as (Hm' & _ & Hc & Hl). split; [done|]. split; [cbn; lia|]. cbn. by rewrite Hc, dom_delete_L, Hd.
Qed.

Lemma holds_modify {T} id f (m : ComponentMap T) n s : holds m n s -> holds (cm_modify id f m) n s.
Proof.
  intros (Hm & Hn & Hd). destruct (cm_modify_ok id f m Hm) as (Hm' & Hc & Hl). split; [done|]. split; [lia|].
  by rewrite Hc, dom_alter_L.
Qed.

Lemma within_later {T} (m : ComponentMap T) n n' s s' : within_live m n s -> n <= n' -> s ⊆ s' -> within_live m n' s'.
Proof. intros (u & Hu & Hs) ? ?. exists u. split; [by eapply holds_later|set_solver]. Qed.

Lemma within_insert {T} id (c : T) m n s : within_live m n s -> n < 2 ^ 32 ->
  within_live (cm_insert id c m) (n + 1) ({[id]} ∪ s).
Proof. intros (u & Hu & Hs) ?. exists ({[id]} ∪ u). split; [by apply holds_insert|set_solver]. Qed.

Lemma within_remove {T} id (m : ComponentMap T) n s : within_live m n s -> within_live (snd (cm_remove id m)) (n + 1) (s ∖ {[id]}).
Proof. intros (u & Hu & Hs). exists (u ∖ {[id]}). split; [by apply holds_remove|set_solver]. Qed.

Definition world_ok (w : World) (live dead : gset EntityId) (n : Z) : Prop :=
  (exists k, k <= n /\ life w live dead k) /\
  holds (transforms w) n live /\ holds (healths w) n live /\
  within_live (velocities w) n live /\ within_live (players w) n live /\ within_live (npcs w) n live /\
  (forall id h, cm_get id (healths w) = Some h -> hp_alive h = false -> hp_current h = 0).

Definition area_ok (a : AreaOfInterest) (live : gset EntityId) : Prop :=
  grid_ok (grid a) /\ dom (positions (grid a)) = live /\
  (forall v s, visible a !! v = Some s -> v ∈ live /\ s ⊆ live).

Definition lobby_ok (r : LobbyRuntime) (live dead : gset EntityId) (n : Z) : Prop :=
  world_ok (lr_world r) live dead n /\ area_ok (lr_aoi r) live /\
  executor (scheduler r) = [MovementSystem; HealthSystem].

Lemma world_ok_later w live dead n : world_ok w live dead n -> world_ok w live dead (n + 1).
Proof.
  intros ((k & Hk & Hl) & Ht & Hh & Hv & Hp & Hn & Hw).
  split; [exists k; split; [lia|done]|]. do 2 (split; [eapply holds_later; [done|lia]|]).
  do 3 (split; [eapply within_later; [done|lia|done]|]). done.
Qed.

(** Spawning a player or an npc touches one storage besides those every entity is in. *)
Definition is_special (special : EntityId -> World -> World) : Prop :=
  (exists p, forall id w, special id w = set_players (cm_insert id p (players w)) w) \/
  (exists p, forall id w, special id w = set_npcs (cm_insert id p (npcs w)) w).

Lemma spawn_world_ok special w live dead n id w1 t hp :
  is_special special -> world_ok w live dead n -> n < 2 ^ 32 -> spawn w = Some (id, w1) ->
  let w2 := set_transforms (cm_insert id t (transforms w1)) w1 in
  let w3 := set_healths (cm_insert id (full_health hp) (healths w2)) w2 in
  world_ok (special id w3) ({[id]} ∪ live) dead (n + 1) /\ (id ∉ live).
Proof.
  intros Hsp ((k & Hk & Hl) & Ht & Hh & Hv & Hp & Hn & Hw) Hb Hs. cbn zeta.
  pose proof (life_spawn _ _ _ _ _ _ Hl Hs) as Hl'.
  pose proof (life_ok _ _ _ _ Hl ltac:(lia)) as Ha.
  unfold spawn in Hs. destruct (alloc (allocator w)) as [[i a]|] eqn:Ea; [|done]. cbn in Hs. injection Hs as -> <-.
  destruct (alloc_step _ _ _ _ _ _ Ha ltac:(lia) Ea) as (_ & Hnl & _). split; [|done].
  assert (Hw' : forall j h, cm_get j (cm_insert id (full_health hp) (healths w)) = Some h ->
    hp_alive h = false -> hp_current h = 0).
  { intros j h. rewrite <- contents_lookup. destruct Hh as (Hm & Hr & _).
    destruct (cm_insert_ok id (full_health hp) (healths w) Hm ltac:(lia)) as (_ & -> & _).
    destruct (decide (j = id)) as [->|Hne].
    - rewrite lookup_insert_eq. by intros [= <-].
    - rewrite lookup_insert_ne, contents_lookup by done. apply Hw. }
  assert (Hlife : forall w', allocator w' = a -> exists k, k <= n + 1 /\ life w' ({[id]} ∪ live) dead k).
  { intros w' E. exists (k + 1). split; [lia|]. by eapply life_change. }
  destruct Hsp as [[p Hsp]|[p Hsp]]; rewrite Hsp; (split; [by apply Hlife|]); cbn;
    (split; [by apply holds_insert|]); (split; [by apply holds_insert|]);
    (split; [eapply within_later; [done|lia|set_solver]|]);
    [split; [by apply within_insert|]; split; [eapply within_later; [done|lia|set_solver]|]; done
    |split; [eapply within_later; [done|lia|set_solver]|]; split; [by apply within_insert|]; done].
Qed.

Lemma area_insert_ok id x y a live : area_ok a live -> (id ∉ live) -> area_ok (aoi_insert id x y a) ({[id]} ∪ live).
Proof.
  intros (Hg & Hd & Hv) Hn. split; [|split].
  - apply grid_insert_ok; [done|]. apply not_elem_of_dom. by rewrite Hd.
  - cbn. by rewrite dom_insert_L, Hd.
  - intros v s Hs. apply Hv in Hs. set_solver.
Qed.

Lemma area_remove_ok id a live : area_ok a live -> area_ok (aoi_remove id a) (live ∖ {[id]}).
Proof.
  intros (Hg & Hd & Hv). split; [|split].
  - apply (aoi_step_ok a); [constructor|done].
  - cbn. destruct (positions (grid a) !! id) as [[x y]|] eqn:E; cbn.
    + by rewrite dom_delete_L, Hd.
    + apply not_elem_of_dom in E. rewrite Hd in *. set_solver.
  - intros v s. cbn. rewrite lookup_fmap. destruct (delete id (visible a) !! v) as [s'|] eqn:E; [|done].
    cbn. intros [= <-]. apply lookup_delete_Some in E as [Hne [? ?]%Hv]. set_solver.
Qed.

Lemma area_move_ok id x y a live : area_ok a live -> id ∈ live -> area_ok (aoi_move id x y a) live.
Proof.
  intros (Hg & Hd & Hv) Hin. assert (Hp : is_Some (positions (grid a) !! id)) by (apply elem_of_dom; by rewrite Hd).
  split; [|split].
  - apply (aoi_step_ok a); [by constructor|done].
  - unfold aoi_move. destruct Hp as [[ox oy] Hp]. rewrite Hp. cbn. rewrite dom_insert_L, Hd. set_solver.
  - intros v s. unfold aoi_move. destruct (default _ _). apply Hv.
Qed.

Lemma update_loop_keys ids : forall a ev0 ev a', update_loop ids a ev0 = (ev, a') ->
  dom (visible a') = list_to_set ids ∪ dom (visible a).
Proof.
  induction ids as [|id ids IH]; intros a ev0 ev a'; cbn [update_loop]; [intros [= _ <-]; set_solver|].
  destruct (update_viewer _ _ _ _) as [evi now]. intros Hl. apply IH in Hl. rewrite Hl. cbn. set_solver.
Qed.

Lemma area_update_ok a live ev a' : area_ok a live -> aoi_update a = (ev, a') -> area_ok a' live.
Proof.
  intros (Hg & Hd & Hv) Hu. pose proof (update_loop_keys _ _ _ _ _ Hu) as Hk.
  pose proof Hu as (Hgr & _ & Hs & _)%update_loop_spec; [|apply NoDup_fst_map_to_list].
  assert (Hids : forall v, v ∈ map fst (map_to_list (positions (grid a))) <-> v ∈ live).
  { intros v. rewrite <- Hd, elem_of_dom. split.
    - intros ([v' p] & -> & Hp%elem_of_map_to_list)%list_elem_of_fmap. by eexists.
    - intros [p Hp]. apply list_elem_of_fmap. exists (v, p). split; [done|]. by apply elem_of_map_to_list. }
  assert (Hq : forall v, list_to_set (query_visible v (view_distance a) (grid a)) ⊆ live).
  { intros v t. rewrite elem_of_list_to_set, visible_elem by done. intros (_ & p & _ & p' & Hp' & _).
    rewrite <- Hd. apply elem_of_dom. by eexists. }
  split; [by rewrite Hgr|]. split; [by rewrite Hgr|].
  intros v s Hvs. specialize (Hs v). unfold seen_by in Hs. rewrite Hvs in Hs. cbn in Hs.
  assert (Hin : v ∈ live).
  { apply elem_of_dom_2 in Hvs. rewrite Hk in Hvs. apply elem_of_union in Hvs as [Hin|[s' Hin]%elem_of_dom].
    - by apply elem_of_list_to_set, Hids in Hin.
    - by apply Hv in Hin as [? _]. }
  split; [done|]. rewrite Hs, bool_decide_eq_true_2 by by apply Hids. apply Hq.
Qed.

(** ** Ticks *)

Lemma movement_ok w live dead n : world_ok w live dead n -> world_ok (MovementSystem w n) live dead n.
Proof.
  unfold MovementSystem. generalize (omap (moved w) (cm_iter (velocities w))). intros l. revert w.
  induction l as [|[id [[x y] z]] l IH]; intros w Hw; [done|]. cbn [foldl]. apply IH.
  destruct Hw as ((k & Hk & Hl) & Ht & Hrest). split; [|split; [by apply holds_modify|exact Hrest]].
  exists k. split; [done|]. by eapply life_change.
Qed.

Lemma run_tick_ok elapsed s live dead n :
  world_ok (s_world s) live dead n -> area_ok (s_aoi s) live -> executor s = [MovementSystem; HealthSystem] ->
  let s' := snd (run_tick elapsed s) in
  world_ok (s_world s') live dead n /\ area_ok (s_aoi s') live /\ executor s' = [MovementSystem; HealthSystem].
Proof.
  intros Hw Ha He. unfold run_tick. rewrite He. destruct (aoi_update (s_aoi s)) as [ev a] eqn:Eu. cbn.
  split; [|split; [by eapply area_update_ok|done]]. exact (movement_ok _ _ _ _ Hw).
Qed.

Lemma broadcast_keeps r : lr_world (snd (broadcast_after_tick r)) = lr_world r /\
  lr_aoi (snd (broadcast_after_tick r)) = lr_aoi r /\ scheduler (snd (broadcast_after_tick r)) = scheduler r.
Proof. unfold broadcast_after_tick. by destruct (broadcast_tick _ _ _ _ _). Qed.

Lemma lobby_tick_ok now elapsed r live dead n : lobby_ok r live dead n -> lobby_ok (snd (lobby_tick now elapsed r)) live dead n.
Proof.
  intros (Hw & Ha & He). pose proof (run_tick_ok elapsed (scheduler r) live dead n Hw Ha He) as Ht.
  unfold lobby_tick. destruct (run_tick elapsed (scheduler r)) as [res s]. cbn [snd] in Ht.
  match goal with |- context [broadcast_after_tick ?q] => pose proof (broadcast_keeps q) as (Hb1 & Hb2 & Hb3);
    destruct (broadcast_after_tick q) as [out r'] end.
  cbn [snd] in *. unfold lobby_ok. by rewrite Hb1, Hb2, Hb3.
Qed.

Lemma damage_ok id amount r live dead n : lobby_ok r live dead n -> lobby_ok (snd (damage id amount r)) live dead n.
Proof.
  intros Hr. pose proof Hr as (((k & Hk & Hl) & Ht & Hh & Hv & Hp & Hn & Hw) & Ha & He). unfold damage.
  destruct (cm_get id (healths (lr_world r))) as [h|] eqn:Eh; [|done]. cbn [snd].
  split; [|by split]. split; [exists k; split; [done|by eapply life_change]|].
  split; [done|]. split; [by apply holds_modify|]. do 3 (split; [done|]). intros j h'.
  destruct Hh as (Hm & _). cbn. rewrite <- contents_lookup.
  destruct (cm_modify_ok id (damaged amount) _ Hm) as (_ & -> & _).
  destruct (decide (j = id)) as [->|Hne].
  - rewrite lookup_alter_eq, contents_lookup, Eh. intros [= <-]. cbn. lia.
  - rewrite lookup_alter_ne, contents_lookup by done. apply Hw.
Qed.

Lemma despawn_ok id r r' live dead n : lobby_ok r live dead n -> id ∈ live ->
  lobby_despawn id r = Some r' -> lobby_ok r' (live ∖ {[id]}) ({[id]} ∪ dead) (n + 1).
Proof.
  intros (((k & Hk & Hl) & Ht & Hh & Hv & Hp & Hn & Hw) & Ha & He) Hin Hd.
  unfold lobby_despawn in Hd. destruct (despawn id _) as [w|] eqn:Ed; [|done]. injection Hd as <-.
  change (despawn id (lr_world r) = Some w) in Ed.
  pose proof (life_despawn _ _ _ _ _ _ Hl Hin Ed) as Hl'.
  split; [|split; [by apply area_remove_ok|done]]. unfold despawn in Ed. cbn [allocator] in Ed.
  destruct (free id _) as [a|]; [|done]. cbn in Ed. injection Ed as <-.
  split; [exists (k + 1); split; [lia|done]|]. cbn.
  split; [by apply holds_remove|]. split; [by apply holds_remove|]. do 3 (split; [by apply within_remove|]).
  intros j h. destruct Hh as (Hm & _). rewrite <- contents_lookup. pose proof (cm_remove_ok id _ Hm) as Hr.
  destruct (cm_remove id (healths (lr_world r))) as [q m']. cbn. destruct Hr as (_ & _ & -> & _).
  intros [_ Hj]%lookup_delete_Some. rewrite contents_lookup in Hj. by eapply Hw.
Qed.

Lemma living_handle r live dead n id : lobby_ok r live dead n -> n < 2 ^ 32 -> id ∈ live ∪ dead ->
  is_alive (lr_world r) id = true -> id ∈ live.
Proof.
  intros (((k & Hk & Hl) & _) & _) Hn [?|Hd]%elem_of_union Ha; [done|].
  pose proof (dead_is_dead _ _ _ _ _ Hl ltac:(lia) Hd). congruence.
Qed.

Lemma spawn_with_ok special x y hp r live dead n id r' : is_special special -> lobby_ok r live dead n -> n < 2 ^ 32 ->
  spawn_with special x y hp r = Some (id, r') -> lobby_ok r' ({[id]} ∪ live) dead (n + 1).
Proof.
  intros Hsp (Hw & Ha & He) Hb. unfold spawn_with. destruct (spawn (lr_world r)) as [[i w]|] eqn:Es; [|done].
  cbn [mbind option_bind]. intros [= -> <-].
  destruct (spawn_world_ok special _ _ _ _ _ _ (placed x y) hp Hsp Hw Hb Es) as [Hw' Hnl].
  split; [exact Hw'|]. split; [by apply area_insert_ok|done].
Qed.

Lemma lobby_life_ok r live dead n : lobby_life r live dead n -> n < 2 ^ 32 -> lobby_ok r live dead n.
Proof.
  induction 1 as [now id c distance r Hr|r live dead n now session name x y hp id r' _ IH Hs
    |r live dead n kind level x y hp id r' _ IH Hs|r live dead n id v Hl IH Hin Hal|r live dead n id x y Hl IH Hin Hal
    |r live dead n id r' Hl IH Hin Hal Hd|r live dead n id amount _ IH|r live dead n now elapsed _ IH
    |r live dead n c _ IH]; intros Hb; [|specialize (IH ltac:(lia))..].
  - unfold lobby_new in Hr. destruct (tick_duration _); [|done]. cbn in Hr. injection Hr as <-.
    split; [|split; [|done]].
    + split; [exists 0; split; [done|constructor]|]. do 2 (split; [apply holds_new|]).
      do 3 (split; [exists ∅; split; [apply holds_new|done]|]). intros id' h. unfold cm_get. cbn. by rewrite lookup_empty.
    + split; [apply grid_new_ok|]. split; [by cbn; rewrite dom_empty_L|]. intros v s. cbn. by rewrite lookup_empty.
  - eapply spawn_with_ok; [|done|lia|exact Hs]. left. by eexists.
  - eapply spawn_with_ok; [|done|lia|exact Hs]. right. by eexists.
  - pose proof (living_handle _ _ _ _ _ IH ltac:(lia) Hin Hal) as Hli.
    destruct IH as (((k & Hk & Hlf) & Ht & Hh & Hv & Hrest) & Ha). split; [|done].
    split; [exists k; split; [lia|by eapply life_change]|].
    do 2 (split; [eapply holds_later; [done|lia]|]). split; [|apply world_ok_later in Hrest || idtac].
    + cbn. replace live with ({[id]} ∪ live) by set_solver. apply within_insert; [done|lia].
    + destruct Hrest as (Hp & Hn & Hw). do 2 (split; [eapply within_later; [done|lia|done]|]). done.
  - pose proof (living_handle _ _ _ _ _ IH ltac:(lia) Hin Hal) as Hli.
    destruct IH as (Hw & Ha & He). apply world_ok_later in Hw as ((k & Hk & Hlf) & Ht & Hrest).
    split; [|split; [by apply area_move_ok|done]].
    split; [exists k; split; [done|by eapply life_change]|]. split; [by apply holds_modify|done].
  - pose proof (living_handle _ _ _ _ _ IH ltac:(lia) Hin Hal) as Hli. by eapply despawn_ok.
  - apply (damage_ok id amount) in IH as [Hw ?]; split; [|done]. by apply world_ok_later.
  - apply (lobby_tick_ok now elapsed) in IH as [Hw ?]; split; [|done]. by apply world_ok_later.
  - destruct IH as [Hw ?]; split; [|done]. by apply world_ok_later.
Qed.

Lemma holds_get {T} (m : ComponentMap T) n s id : holds m n s -> id ∈ s <-> is_Some (cm_get id m).
Proof. intros (_ & _ & <-). by rewrite elem_of_dom, contents_lookup. Qed.

(** C25: the parts of a lobby agree: after fewer than 2^32 - 1 ticks and calls, in which entities
    are moved and despawned by handles that the lobby gave out (forged_handle_aliases has others),
    the entities with a transform, those with a health and those on the grid are exactly the
    living ones; whoever has a velocity, a player or an npc component, or is seen or sees in an
    area of interest, is living; a health that is not alive is at zero; the entity count is the
    number of living entities; and a living entity's handle survives its journey to a client as
    one number. (The tables that say which client plays which entity and where entities were in
    the last tick keep those that are gone, and are not part of this.) *)
Theorem lobby_consistent r live dead n : lobby_life r live dead n -> n + 1 < 2 ^ 32 ->
  (forall id, (is_Some (cm_get id (transforms (lr_world r))) <-> id ∈ live) /\
     (is_Some (cm_get id (healths (lr_world r))) <-> id ∈ live) /\
     (is_Some (positions (grid (lr_aoi r)) !! id) <-> id ∈ live) /\
     (is_Some (cm_get id (velocities (lr_world r))) -> id ∈ live) /\
     (is_Some (cm_get id (players (lr_world r))) -> id ∈ live) /\
     (is_Some (cm_get id (npcs (lr_world r))) -> id ∈ live) /\
     (forall t, t ∈ visible_to id (lr_aoi r) -> id ∈ live /\ t ∈ live) /\
     (id ∈ live -> is_alive (lr_world r) id = true /\ is_Some (lobby_despawn id r) /\
                   entity_from_wire (entity_to_wire id) = id) /\
     (id ∈ dead -> is_alive (lr_world r) id = false)) /\
  (forall id h, cm_get id (healths (lr_world r)) = Some h -> hp_alive h = false -> hp_current h = 0) /\
  entity_count (lr_world r) = Z.of_nat (size live).
Proof.
  intros Hl Hn. pose proof (lobby_life_ok _ _ _ _ Hl ltac:(lia)) as
    (((k & Hk & Hlf) & Ht & Hh & (sv & Hv & Hvs) & (sp & Hp & Hps) & (sn & Hns & Hnn) & Hw) & (Hg & Hd & Hvis) & He).
  split; [|split; [done|by apply (count_living _ _ _ _ Hlf); lia]].
  intros id. rewrite <- (holds_get _ _ _ id Ht), <- (holds_get _ _ _ id Hh), <- (holds_get _ _ _ id Hv),
    <- (holds_get _ _ _ id Hp), <- (holds_get _ _ _ id Hns), <- elem_of_dom, Hd.
  do 3 (split; [done|]). split; [apply Hvs|]. split; [apply Hps|]. split; [apply Hnn|]. split; [|split].
  - intros t. unfold visible_to. destruct (visible (lr_aoi r) !! id) as [s|] eqn:E; cbn.
    + rewrite elem_of_elements. apply Hvis in E as [? Hs]. intros Hin. split; [done|by apply Hs].
    + by rewrite elements_empty, elem_of_nil.
  - intros Hin. destruct (living_alive _ _ _ _ _ Hlf ltac:(lia) Hin) as (Hal & w' & Hdw). split; [done|]. split.
    + unfold lobby_despawn. change (is_Some (w ← despawn id (lr_world r); Some (set_world w (set_aoi (aoi_remove id (lr_aoi r)) r)))).
      rewrite Hdw. by eexists.
    + destruct (handles_fit _ _ _ _ id Hlf ltac:(lia) ltac:(set_solver)) as [? Hg2]. apply wire_roundtrip; [done|by apply Hg2].
  - intros Hin. by apply (dead_is_dead _ _ _ _ _ Hlf); [lia|].
Qed.

(** ** The fixed step *)

(** A scheduler without its clock, and one tick of it. *)
Definition unclocked (s : TickScheduler) : World * list System * AreaOfInterest * TickConfig * Z :=
  (s_world s, executor s, s_aoi s, s_config s, s_tick s).
Definition one_tick (s : TickScheduler) : TickScheduler := snd (run_tick 0 s).

Lemma one_tick_unclocked s s' : unclocked s = unclocked s' -> unclocked (one_tick s) = unclocked (one_tick s').
Proof.
  unfold unclocked, one_tick, run_tick. intros [= E1 E2 E3 E4 E5]. rewrite E1, E2, E3, E4, E5.
  by destruct (aoi_update (s_aoi s')).
Qed.

Lemma iter_unclocked k s s' : unclocked s = unclocked s' ->
  unclocked (Nat.iter k one_tick s) = unclocked (Nat.iter k one_tick s').
Proof. intros E. induction k as [|k IH]; [done|]. by apply one_tick_unclocked. Qed.

Lemma iter_shift k s : Nat.iter k one_tick (one_tick s) = Nat.iter (S k) one_tick s.
Proof. by rewrite Nat.iter_succ_r. Qed.

Lemma run_tick_parts elapsed s :
  r_tick (fst (run_tick elapsed s)) = s_tick s /\ s_tick (snd (run_tick elapsed s)) = wrap_u64 (s_tick s + 1) /\
  accumulator (snd (run_tick elapsed s)) = accumulator s /\ last_frame (snd (run_tick elapsed s)) = last_frame s /\
  unclocked (snd (run_tick elapsed s)) = unclocked (one_tick s).
Proof. unfold one_tick, run_tick. by destruct (aoi_update (s_aoi s)). Qed.

(** The numbers of consecutive ticks. *)
Definition tick_numbers (first : Z) (k : nat) : list Z := map (fun i => wrap_u64 (first + Z.of_nat i)) (seq 0 k).

Lemma tick_numbers_cons first k : 0 <= first < 2 ^ 64 ->
  tick_numbers first (S k) = first :: tick_numbers (wrap_u64 (first + 1)) k.
Proof.
  intros Hf. unfold tick_numbers. cbn [seq map]. f_equal; [rewrite Z.add_0_r; by apply Z.mod_small|].
  rewrite <- seq_shift, map_map. apply map_ext. intros i. unfold wrap_u64.
  rewrite Zplus_mod_idemp_l. f_equal. lia.
Qed.

(** How a fixed step ended: it caught up, or stopped at a slow tick. *)
Definition caught_up (elapsed : nat -> Z * Z) (dur max_tick total : Z) (n : nat) (left : Z) : Prop :=
  Z.of_nat n = total / dur /\ left = total mod dur /\ forall k, (k < n)%nat -> snd (elapsed k) < max_tick.
Definition stopped_slow (elapsed : nat -> Z * Z) (dur max_tick total : Z) (n : nat) (left : Z) : Prop :=
  (0 < n)%nat /\ Z.of_nat n <= total / dur /\ left = 0 /\ max_tick <= snd (elapsed (n - 1)%nat) /\
  forall k, (k < n - 1)%nat -> snd (elapsed k) < max_tick.

Lemma fixed_loop_runs dur max_tick : 0 < dur -> forall fuel elapsed s rs0,
  0 <= accumulator s -> 0 <= s_tick s < 2 ^ 64 -> (Z.to_nat (accumulator s / dur) < fuel)%nat ->
  exists rs s', fixed_loop fuel dur max_tick elapsed s rs0 = Some (rs0 ++ rs, s') /\
    map r_tick rs = tick_numbers (s_tick s) (length rs) /\ last_frame s' = last_frame s /\
    unclocked s' = unclocked (Nat.iter (length rs) one_tick s) /\
    (caught_up elapsed dur max_tick (accumulator s) (length rs) (accumulator s') \/
     stopped_slow elapsed dur max_tick (accumulator s) (length rs) (accumulator s')).
Proof.
  intros Hd. induction fuel as [|fuel IH]; intros elapsed s rs0 Ha Ht Hf; [lia|]. cbn [fixed_loop].
  destruct (Z.leb_spec dur (accumulator s)) as [Hle|Hlt].
  2: { exists [], s. rewrite app_nil_r. do 4 (split; [done|]). left. split; [by rewrite Z.div_small|].
       split; [by rewrite Z.mod_small|cbn; lia]. }
  destruct (run_tick_parts (fst (elapsed 0%nat)) s) as (Hr & Hst & Hacc & Hlf & Hun).
  destruct (run_tick (fst (elapsed 0%nat)) s) as [r s1]. cbn [fst snd] in *.
  assert (Hq : accumulator s / dur = (accumulator s - dur) / dur + 1).
  { replace (accumulator s) with (accumulator s - dur + 1 * dur) at 1 by lia. by rewrite Z.div_add by lia. }
  pose proof (Z.div_pos (accumulator s - dur) dur ltac:(lia) Hd) as Hq0.
  assert (Hmod : accumulator s mod dur = (accumulator s - dur) mod dur).
  { replace (accumulator s) with (accumulator s - dur + 1 * dur) at 1 by lia. by rewrite Z.mod_add by lia. }
  destruct (Z.leb_spec max_tick (snd (elapsed 0%nat))) as [Hsl|Hfast].
  - exists [r], (with_accumulator 0 s1). split; [done|]. cbn [map length]. split.
    { unfold tick_numbers. cbn. rewrite Hr, Z.add_0_r. f_equal. symmetry. by apply Z.mod_small. }
    split; [done|]. split; [exact Hun|]. right. unfold stopped_slow. cbn [accumulator with_accumulator Nat.sub].
    do 4 (split; [done || lia|]). lia.
  - set (s2 := with_accumulator (accumulator s1 - dur) s1).
    assert (Ha2 : accumulator s2 = accumulator s - dur) by (cbn; lia).
    destruct (IH (fun n => elapsed (S n)) s2 (rs0 ++ [r])) as (rs & s' & Hl & Hnum & Hlf' & Hun' & Hend);
      [lia|cbn; rewrite Hst; apply Z.mod_pos_bound; lia|rewrite Ha2; lia|].
    exists (r :: rs), s'. split; [rewrite Hl, <- app_assoc; done|]. cbn [map length]. split.
    { rewrite tick_numbers_cons, Hnum, Hr by done. f_equal. change (s_tick s2) with (s_tick s1). by rewrite Hst. }
    split; [rewrite Hlf'; exact Hlf|]. split.
    { rewrite Hun', <- iter_shift. apply iter_unclocked. exact Hun. }
    rewrite Ha2 in Hend. destruct Hend as [(Hn & Hleft & Hall)|(Hpos & Hn & Hleft & Hsl & Hall)].
    + left. split; [lia|]. split; [lia|]. intros [|k] Hk; [done|]. apply Hall. lia.
    + right. split; [lia|]. split; [lia|]. split; [done|].
      replace (S (length rs) - 1)%nat with (S (length rs - 1)) by lia. split; [done|].
      intros [|k] Hk; [done|]. apply Hall. lia.
Qed.

(** A fixed step ends with the world where it should be: when a tick has a positive
    duration, the loop ends within as many turns as ticks are due; it runs consecutive tick
    numbers, each the one tick of the scheduler; and either every due tick ran, none of them
    slow, with less than a tick left over, or it stopped at the first slow tick and dropped
    the backlog. *)
Theorem fixed_step_ends s dur now elapsed fuel :
  tick_duration (tick_rate_hz (s_config s)) = Some dur -> 0 < dur -> 0 <= accumulator s -> 0 <= s_tick s < 2 ^ 64 ->
  let total := accumulator s + Z.max 0 (now - last_frame s) in
  let slow := max_tick_time_ms (s_config s) * 10 ^ 6 in
  (Z.to_nat (total / dur) < fuel)%nat ->
  exists rs s', run_fixed_step fuel now elapsed s = Some (rs, s') /\
    map r_tick rs = tick_numbers (s_tick s) (length rs) /\ last_frame s' = now /\
    unclocked s' = unclocked (Nat.iter (length rs) one_tick s) /\ 0 <= accumulator s' < dur /\
    (caught_up elapsed dur slow total (length rs) (accumulator s') \/
     stopped_slow elapsed dur slow total (length rs) (accumulator s')).
Proof.
  intros Hdur Hd Ha Ht total slow Hf. unfold run_fixed_step. cbn [s_config]. rewrite Hdur. cbn [mbind option_bind].
  fold slow. match goal with |- context [fixed_loop _ _ _ _ ?q _] => set (s1 := q) end.
  assert (H0 : 0 <= total) by (unfold total; lia).
  destruct (fixed_loop_runs dur slow Hd fuel elapsed s1 [] H0 Ht Hf) as (rs & s' & -> & Hnum & Hlf & Hun & Hend).
  exists rs, s'. split; [done|]. split; [exact Hnum|]. split; [exact Hlf|]. split.
  { rewrite Hun. by apply iter_unclocked. }
  split; [|exact Hend]. destruct Hend as [(_ & -> & _)|(_ & _ & -> & _)]; [|lia]. apply Z.mod_pos_bound. lia.
Qed.

(** ** A lobby with two players *)

Definition demo_lobby : option (EntityId * EntityId * LobbyRuntime) :=
  r ← lobby_new 0 (bs "arena") tick_config_default (f32_of_int 100);
  '(p, r) ← spawn_player 0 7 (bs "ann") (f32_of_int 0) (f32_of_int 0) 100 r;
  '(q, r) ← spawn_npc (bs "orc") 3 (f32_of_int 30) (f32_of_int 0) 50 r;
  Some (p, q, register_aoi_client 1 p r).

Definition after {A B} (o : option A) (f : A -> option B) : option B := a ← o; f a.

Lemma demo_lobby_life : exists p q r, demo_lobby = Some (p, q, r) /\ lobby_life r ({[q]} ∪ ({[p]} ∪ ∅)) ∅ 3.
Proof.
  unfold demo_lobby.
  destruct (lobby_new 0 (bs "arena") tick_config_default (f32_of_int 100)) as [r0|] eqn:E0;
    [|vm_compute in E0; discriminate E0].
  apply ll_new in E0 as H0. cbn [mbind option_bind].
  destruct (spawn_player 0 7 (bs "ann") (f32_of_int 0) (f32_of_int 0) 100 r0) as [[p r1]|] eqn:E1.
  2: { exfalso. vm_compute in E0. injection E0 as <-. vm_compute in E1. discriminate E1. }
  pose proof (ll_player _ _ _ _ _ _ _ _ _ _ _ _ H0 E1) as H1. cbn [mbind option_bind].
  destruct (spawn_npc (bs "orc") 3 (f32_of_int 30) (f32_of_int 0) 50 r1) as [[q r2]|] eqn:E2.
  2: { exfalso. vm_compute in E0. injection E0 as <-. vm_compute in E1. injection E1 as <- <-.
       vm_compute in E2. discriminate E2. }
  pose proof (ll_npc _ _ _ _ _ _ _ _ _ _ _ H1 E2) as H2. cbn [mbind option_bind].
  exists p, q, (register_aoi_client 1 p r2). split; [done|]. exact (ll_clients _ _ _ _ _ H2).
Qed.

Lemma lobby_consistent_witness : exists r live dead n, lobby_life r live dead n /\ n + 1 < 2 ^ 32 /\
  entity_count (lr_world r) = Z.of_nat (size live) /\ live <> ∅.
Proof.
  destruct demo_lobby_life as (p & q & r & _ & Hl). exists r, ({[q]} ∪ ({[p]} ∪ ∅)), ∅, (0 + 1 + 1 + 1).
  split; [exact Hl|]. split; [lia|].
  destruct (lobby_consistent _ _ _ _ Hl ltac:(lia)) as (_ & _ & Hc). split; [exact Hc|set_solver].
Defined.

Definition demo_scheduler : TickScheduler := scheduler_new 0 tick_config_default (f32_of_int 100).

Lemma fixed_step_ends_witness :
  tick_duration (tick_rate_hz (s_config demo_scheduler)) = Some 50000000 /\
  exists rs s', run_fixed_step 4 170000000 (fun _ => (1, 2)) demo_scheduler = Some (rs, s') /\
    length rs = 3%nat /\ accumulator s' = 20000000.
Proof.
  assert (Hd : tick_duration (tick_rate_hz (s_config demo_scheduler)) = Some 50000000) by by vm_compute.
  split; [exact Hd|].
  destruct (fixed_step_ends demo_scheduler 50000000 170000000 (fun _ => (1, 2)) 4 Hd ltac:(lia)
              ltac:(by vm_compute) ltac:(by vm_compute) ltac:(vm_compute; lia))
    as (rs & s' & Hr & _ & _ & _ & _ & [(Hn & Hl & _)|(_ & _ & _ & Hsl & _)]).
  - exists rs, s'. split; [exact Hr|]. assert (H3 : Z.of_nat (length rs) = 3) by (rewrite Hn; by vm_compute).
    split; [lia|rewrite Hl; by vm_compute].
  - exfalso. vm_compute in Hsl. by apply Hsl.
Defined.

(** ** What a lobby does not do *)

(** The movement system moves transforms and not the grid: after ticks that carry an entity
    far away, the grid still has it where it was spawned and its neighbour still sees it. *)
Lemma movement_leaves_the_grid :
  after demo_lobby (fun '(p, q, r) =>
    let r := set_velocity q {| vx := f32_of_int 500; vy := f32_of_int 0; vz := f32_of_int 0 |} r in
    let r := snd (lobby_tick 1 1 (snd (lobby_tick 0 1 r))) in
    Some (t_x <$> cm_get q (transforms (lr_world r)), positions (grid (lr_aoi r)) !! q, visible_to p (lr_aoi r)))
  = after demo_lobby (fun '(p, q, r) => Some (Some (f32_of_int 1030), Some (f32_of_int 30, f32_of_int 0), [q])).
Proof. by vm_compute. Qed.

(** The operations and entities a client is told of in a broadcast. *)
Definition heard (client : Z) (out : list (Z * list AoiDelta)) : list (Z * Bytes) :=
  flat_map (fun cd : Z * list AoiDelta =>
    if cd.1 =? client then map (fun d => (d_entity d, d_operation d)) cd.2 else []) out.

(** The first broadcast tells of both; the despawned neighbour has left the visible set
    before the next, so nobody is told that it has gone. *)
Lemma despawn_is_not_told :
  after demo_lobby (fun '(p, q, r) =>
    let '(_, out1, r) := lobby_tick 0 1 r in
    r ← lobby_despawn q r;
    let '(_, out2, r) := lobby_tick 1 1 r in Some (length (heard 1 out1), heard 1 out2))
  = Some (2%nat, []).
Proof. by vm_compute. Qed.

(** An entity in a slot used before is in the visible set and is never told of: the broadcast
    looks for the handle of the slot's first entity. *)
Lemma reused_slot_is_not_told :
  after demo_lobby (fun '(p, q, r) =>
    r ← lobby_despawn q r;
    '(q', r) ← spawn_npc (bs "orc") 3 (f32_of_int 30) (f32_of_int 0) 50 r;
    let '(_, out, r) := lobby_tick 0 1 r in
    Some (bool_decide (visible_to p (lr_aoi r) = [q']), map fst (heard 1 out), e_index q'))
  = Some (true, [0], 1).
Proof. by vm_compute. Qed.

(** When the last entity goes, the broadcast returns early: its client is not told that even
    its own entity is gone. *)
Lemma last_entity_is_not_told :
  after demo_lobby (fun '(p, q, r) =>
    let '(_, _, r) := lobby_tick 0 1 r in
    r ← lobby_despawn q r; r ← lobby_despawn p r;
    let '(_, out, r) := lobby_tick 1 1 r in Some (out, previous_transforms r)) = Some ([], ∅).
Proof. by vm_compute. Qed.

(** The health system changes nothing. *)
Lemma health_system_idle w tick : HealthSystem w tick = w.
Proof. done. Qed.

(** Health above its maximum and below zero is stored as it comes. *)
Lemma health_is_not_clamped :
  (r ← lobby_new 0 (bs "arena") tick_config_default (f32_of_int 100);
   '(p, r) ← spawn_npc (bs "orc") 1 (f32_of_int 0) (f32_of_int 0) (-5) r;
   cm_get p (healths (lr_world (snd (lobby_tick 0 1 r)))))
  = Some {| hp_current := -5; hp_max := -5; hp_alive := true |}.
Proof. by vm_compute. Qed.

(** A rate of zero panics where a lobby is created. *)
Lemma zero_rate_panics now id distance :
  lobby_new now id {| tick_rate_hz := 0; max_tick_time_ms := 10 |} distance = None.
Proof. unfold lobby_new. replace (tick_duration _) with (@None Z) by by vm_compute. done. Qed.

(** A rate of four billion gives ticks of no length, and the loop runs while no tick is slow. *)
Lemma huge_rate_never_ends s fuel elapsed now :
  tick_rate_hz (s_config s) = 4000000000 -> 0 <= accumulator s ->
  (forall k, snd (elapsed k) < max_tick_time_ms (s_config s) * 10 ^ 6) ->
  run_fixed_step fuel now elapsed s = None.
Proof.
  intros Hr Ha He. unfold run_fixed_step. cbn [s_config]. rewrite Hr.
  assert (E : tick_duration 4000000000 = Some 0) by by vm_compute. rewrite E. cbn [mbind option_bind].
  match goal with |- fixed_loop _ _ _ _ ?q _ = _ => assert (H0 : 0 <= accumulator q) by (cbn [accumulator]; lia);
    generalize q, H0, (@nil TickResult) end. clear Ha H0.
  generalize (max_tick_time_ms (s_config s) * 10 ^ 6), He. clear.
  intros max He q Hq rs. revert elapsed He q Hq rs. induction fuel as [|fuel IH]; intros elapsed He q Hq rs; [done|].
  cbn [fixed_loop]. rewrite zle_true by done. destruct (run_tick_parts (fst (elapsed 0%nat)) q) as (_ & _ & Hacc & _).
  destruct (run_tick (fst (elapsed 0%nat)) q) as [r q1]. cbn [snd] in Hacc.
  destruct (Z.leb_spec max (snd (elapsed 0%nat))) as [Hle|_]; [specialize (He 0%nat); lia|].
  apply IH; [intros k; apply He|cbn; lia].
Qed.
