(* ===== verification/PgValue.v ===== *)
(** * PostgreSQL values (src/pg/types.rs; the scalar functions of src/pg/executor.rs)

    Column types and their codes, coercions, the order of values, operators, LIKE, the text of
    a time. A result is a value or a message; [None] is a panic. The data types of the parser
    library are its constructors that the code names. *)

From S2P Require Import Prelude Util Mvcc SqlValue.
From Stdlib Require Import SpecFloat.

(** ** Results *)

Definition pg (A : Type) : Type := option (result Bytes A).
Definition pok {A} (a : A) : pg A := Some (Ok a).
Definition perr {A} (e : Bytes) : pg A := Some (Err e).


(** The text [{:?}] prints for a scalar, with the standard library's escapes. *)
Class Debug := { debug_scalar : Scalar -> Bytes }.

(** ** Big-endian numbers: [to_be_bytes], [from_be_bytes] of [n] bytes *)

Fixpoint to_be (n : nat) (z : Z) : Bytes :=
  match n with O => [] | S n' => to_be n' (z / 256) ++ [z mod 256] end.
Definition of_be (l : Bytes) : Z := foldl (fun a b => a * 256 + b) 0 l.
(** The same bytes as a signed number of [n] bytes. *)
Definition of_be_signed (l : Bytes) : Z :=
  let z := of_be l in let m := 2 ^ (8 * zlen l) in if z <? m / 2 then z else z - m.

Lemma to_be_length n z : length (to_be n z) = n.
Proof. revert z. induction n; intros z; cbn; [done|]. rewrite length_app, IHn. cbn. lia. Qed.

Lemma to_be_u8 n z : Forall is_u8 (to_be n z).
Proof. revert z. induction n; intros z; cbn; [constructor|]. apply Forall_app. split; [done|]. repeat constructor; apply Z.mod_pos_bound; lia. Qed.

Lemma of_be_snoc l b : of_be (l ++ [b]) = of_be l * 256 + b.
Proof. unfold of_be. by rewrite foldl_app. Qed.

Lemma of_be_to_be n z : 0 <= z < 256 ^ Z.of_nat n -> of_be (to_be n z) = z.
Proof.
  revert z. induction n as [|n IH]; intros z Hz; [cbn in *; lia|]. cbn [to_be]. rewrite of_be_snoc, IH.
  - pose proof (Z.div_mod z 256). lia.
  - replace (Z.of_nat (S n)) with (Z.of_nat n + 1) in Hz by lia. rewrite Z.pow_add_r in Hz by lia.
    split; [apply Z.div_pos; lia|]. apply Z.div_lt_upper_bound; lia.
Qed.

Lemma of_be_range l : Forall is_u8 l -> 0 <= of_be l < 256 ^ zlen l.
Proof.
  induction l as [|b l IH] using rev_ind; intros Hl; [cbn; lia|]. apply Forall_app in Hl as [Hl Hb]. inversion Hb as [|? ? Hu _]; subst.
  rewrite of_be_snoc, length_app, Nat2Z.inj_add, Z.pow_add_r by lia. specialize (IH Hl). unfold is_u8 in Hu. cbn. lia.
Qed.

Lemma to_be_of_be l : Forall is_u8 l -> to_be (length l) (of_be l) = l.
Proof.
  induction l as [|b l IH] using rev_ind; intros Hl; [done|]. apply Forall_app in Hl as [Hl Hb]. inversion Hb as [|? ? Hu _]; subst.
  rewrite length_app, Nat.add_comm, of_be_snoc. cbn [length Nat.add to_be]. unfold is_u8 in Hu.
  rewrite Z.div_add_l, Z.div_small, Z.add_0_r by lia. rewrite IH by done. f_equal. f_equal.
  rewrite Z.add_comm, Z.mod_add, Z.mod_small by lia. done.
Qed.

(** ** Types (src/pg/types.rs) *)

Definition OID_BOOL : Z := 16.
Definition OID_INT8 : Z := 20.
Definition OID_INT4 : Z := 23.
Definition OID_TEXT : Z := 25.
Definition OID_FLOAT8 : Z := 701.

Inductive ColType : Type := ColBool | ColInt | ColFloat | ColText.
#[export] Instance col_type_eq : EqDecision ColType.
Proof. solve_decision. Defined.

Definition oid (c : ColType) : Z :=
  match c with ColBool => OID_BOOL | ColInt => OID_INT8 | ColFloat => OID_FLOAT8 | ColText => OID_TEXT end.

Inductive DataType : Type :=
| DtBoolean | DtBool
| DtTinyInt | DtSmallInt | DtInt | DtInteger | DtBigInt | DtInt2 | DtInt4 | DtInt8 | DtUnsignedInt | DtUnsignedBigInt | DtUnsignedSmallInt
| DtReal | DtFloat | DtDouble | DtDoublePrecision | DtFloat4 | DtFloat8 | DtNumeric | DtDecimal | DtDec
| DtCustom (name : list Bytes)
| DtOther.

Definition from_sql (dt : DataType) : ColType :=
  match dt with
  | DtBoolean | DtBool => ColBool
  | DtTinyInt | DtSmallInt | DtInt | DtInteger | DtBigInt | DtInt2 | DtInt4 | DtInt8 | DtUnsignedInt | DtUnsignedBigInt
  | DtUnsignedSmallInt => ColInt
  | DtReal | DtFloat | DtDouble | DtDoublePrecision | DtFloat4 | DtFloat8 | DtNumeric | DtDecimal | DtDec => ColFloat
  | DtCustom _ | DtOther => ColText
  end.

Definition scalar_to_text (v : Scalar) : option Bytes :=
  match v with
  | ScNull => None
  | ScBool b => Some (if b then bs "t" else bs "f")
  | ScInt i => Some (dec i)
  | ScFloat f =>
      Some (if is_nan f then bs "NaN"
            else if is_infinite f then (if f64_ltb f64_zero f then bs "Infinity" else bs "-Infinity")
            else display_f64 f)
  | ScText t => Some t
  end.
Definition text_of (v : Scalar) : Bytes := default [] (scalar_to_text v).

Definition scalar_oid (v : Scalar) : Z :=
  match v with ScBool _ => OID_BOOL | ScInt _ => OID_INT8 | ScFloat _ => OID_FLOAT8 | ScNull | ScText _ => OID_TEXT end.

Definition f64_of_i64 (i : Z) : f64 := f64_of_dec (i <? 0) (Z.abs i) 0.
Definition int_or_text (t : Bytes) : Scalar := match parse_i64_str (trim t) with Some i => ScInt i | None => ScText t end.
Definition float_or_text (t : Bytes) : Scalar := match parse_float (trim t) with Some f => ScFloat f | None => ScText t end.

(** Best effort: what does not fit stays what it is. *)
Definition coerce (c : ColType) (v : Scalar) : Scalar :=
  match c, v with
  | _, ScNull => ScNull
  | ColBool, ScBool b => ScBool b
  | ColBool, ScInt i => ScBool (negb (i =? 0))
  | ColBool, ScText t =>
      let l := to_ascii_lowercase t in
      ScBool (beq l (bs "t") || beq l (bs "true") || beq l (bs "1") || beq l (bs "yes") || beq l (bs "on"))
  | ColInt, ScInt i => ScInt i
  | ColInt, ScFloat f => ScInt (f64_to_i64 f)
  | ColInt, ScBool b => ScInt (if b then 1 else 0)
  | ColInt, ScText t => int_or_text t
  | ColFloat, ScFloat f => ScFloat f
  | ColFloat, ScInt i => ScFloat (f64_of_i64 i)
  | ColFloat, ScText t => float_or_text t
  | ColText, ScText t => ScText t
  | ColText, other => ScText (text_of other)
  | _, other => other
  end.

(** ** Truth and order (src/pg/executor.rs) *)

Definition is_null (v : Scalar) : bool := match v with ScNull => true | _ => false end.

Definition truthy (v : Scalar) : bool :=
  match v with
  | ScBool b => b
  | ScInt i => negb (i =? 0)
  | ScFloat f => negb (f64_eqb f f64_zero)
  | ScNull => false
  | ScText t => negb (beq t [])
  end.

Definition scalar_num (v : Scalar) : option f64 :=
  match v with
  | ScInt i => Some (f64_of_i64 i)
  | ScFloat f => Some f
  | ScBool b => Some (f64_of_i64 (if b then 1 else 0))
  | ScText t => parse_float (trim t)
  | ScNull => None
  end.

(** Nulls last, numbers as floats. *)
Definition scalar_cmp (a b : Scalar) : comparison :=
  match a, b with
  | ScNull, ScNull => Eq
  | ScNull, _ => Gt
  | _, ScNull => Lt
  | ScBool x, ScBool y => bool_cmp x y
  | ScText x, ScText y => bytes_cmp x y
  | _, _ =>
      match scalar_num a, scalar_num b with
      | Some x, Some y => f64_cmp x y
      | _, _ => bytes_cmp (text_of a) (text_of b)
      end
  end.

Definition is_eq (c : comparison) : bool := match c with Eq => true | _ => false end.
Definition is_lt (c : comparison) : bool := match c with Lt => true | _ => false end.
Definition is_gt (c : comparison) : bool := match c with Gt => true | _ => false end.
Definition reverse (c : comparison) : comparison := CompOpp c.

Fixpoint scalars_eq (a b : list Scalar) : bool :=
  match a, b with
  | [], [] => true
  | x :: a', y :: b' => is_eq (scalar_cmp x y) && scalars_eq a' b'
  | _, _ => false
  end.

(** ** Operators *)

Inductive BinaryOperator : Type :=
| OpAnd | OpOr | OpEq | OpNotEq | OpLt | OpLtEq | OpGt | OpGtEq | OpConcat | OpPlus | OpMinus | OpMultiply | OpDivide | OpModulo
| OpOther (text : Bytes).
Inductive UnaryOperator : Type := UnNot | UnMinus | UnPlus | UnOther (text : Bytes).

(** [a % b] on floats: the remainder of the truncated quotient, exact. *)
Definition f64_rem (a b : f64) : f64 :=
  match a, b with
  | S754_nan, _ | _, S754_nan | S754_infinity _, _ | _, S754_zero _ => S754_nan
  | S754_zero _, _ | _, S754_infinity _ => a
  | S754_finite s m e, S754_finite _ m' e' =>
      let e0 := Z.min e e' in
      binary_normalize prec emax (let r := (Zpos m * 2 ^ (e - e0)) mod (Zpos m' * 2 ^ (e' - e0)) in if s then - r else r) e0 s
  end.

(** Divisions of the least integer by -1 overflow, which panics in every build. *)
Definition int_div (a b : Z) : pg Scalar :=
  if b =? 0 then perr (bs "division by zero")
  else if (a =? I64_MIN) && (b =? -1) then None else pok (ScInt (Z.quot a b)).
Definition int_rem (a b : Z) : pg Scalar :=
  if b =? 0 then perr (bs "division by zero")
  else if (a =? I64_MIN) && (b =? -1) then None else pok (ScInt (Z.rem a b)).

Definition arithmetic (op : BinaryOperator) (l r : Scalar) : pg Scalar :=
  if is_null l || is_null r then pok ScNull
  else match l, r with
  | ScInt a, ScInt b =>
      match op with
      | OpPlus => pok (ScInt (wrap_i64 (a + b)))
      | OpMinus => pok (ScInt (wrap_i64 (a - b)))
      | OpMultiply => pok (ScInt (wrap_i64 (a * b)))
      | OpDivide => int_div a b
      | _ => int_rem a b
      end
  | _, _ =>
      match scalar_num l, scalar_num r with
      | Some a, Some b =>
          match op with
          | OpPlus => pok (ScFloat (f64_add a b))
          | OpMinus => pok (ScFloat (f64_sub a b))
          | OpMultiply => pok (ScFloat (f64_mul a b))
          | OpDivide => if f64_eqb b f64_zero then perr (bs "division by zero") else pok (ScFloat (f64_div a b))
          | _ => pok (ScFloat (f64_rem a b))
          end
      | _, _ => perr (bs "operator requires numeric operands")
      end
  end.

Definition compare_with (p : comparison -> bool) (l r : Scalar) : pg Scalar :=
  pok (ScBool (negb (is_null l) && negb (is_null r) && p (scalar_cmp l r))).

Definition binop (op : BinaryOperator) (l r : Scalar) : pg Scalar :=
  match op with
  | OpEq => compare_with is_eq l r
  | OpNotEq => compare_with (fun c => negb (is_eq c)) l r
  | OpLt => compare_with is_lt l r
  | OpLtEq => compare_with (fun c => negb (is_gt c)) l r
  | OpGt => compare_with is_gt l r
  | OpGtEq => compare_with (fun c => negb (is_lt c)) l r
  | OpConcat => if is_null l || is_null r then pok ScNull else pok (ScText (text_of l ++ text_of r))
  | OpPlus | OpMinus | OpMultiply | OpDivide | OpModulo => arithmetic op l r
  | OpAnd => perr (bs "operator not supported: AND")
  | OpOr => perr (bs "operator not supported: OR")
  | OpOther t => perr (bs "operator not supported: " ++ t)
  end.

(** [-i] wraps in release builds. *)
Definition negate `{Debug} (v : Scalar) : pg Scalar :=
  match v with
  | ScInt i => pok (ScInt (wrap_i64 (- i)))
  | ScFloat f => pok (ScFloat (f64_neg f))
  | ScNull => pok ScNull
  | other => perr (bs "cannot negate " ++ debug_scalar other)
  end.

(** ** LIKE *)

(** The loop on what is left of the text and of the pattern, with the last wildcard: what was
    left of both there. *)
Definition percent : Bytes := [37].
Definition underscore : Bytes := [95].

Fixpoint only_percents (p : list Bytes) : bool := match p with [] => true | c :: p' => beq c percent && only_percents p' end.

Fixpoint like_loop (fuel : nat) (t p : list Bytes) (star : option (list Bytes * list Bytes)) : option bool :=
  match fuel with
  | O => None
  | S f =>
      match t with
      | [] => Some (only_percents p)
      | x :: t' =>
          let back := match star with Some (st, sp) => like_loop f (drop 1 st) sp (Some (drop 1 st, sp)) | None => Some false end in
          match p with
          | c :: p' =>
              if beq c underscore || beq c x then like_loop f t' p' star
              else if beq c percent then like_loop f t p' (Some (t, p'))
              else back
          | [] => back
          end
      end
  end.

Definition like_fuel (t p : list Bytes) : nat := (length t + 2) * (length p + 2).
Definition like_inner (t p : list Bytes) : bool := default false (like_loop (like_fuel t p) t p None).

Definition like_match `{Lowercase} (text pattern : Bytes) (ci : bool) : bool :=
  if ci then like_inner (chars (to_lowercase text)) (chars (to_lowercase pattern)) else like_inner (chars text) (chars pattern).

(** ** Time and chance *)

Definition pad (n : nat) (z : Z) : Bytes :=
  let d := dec (Z.abs z) in let body := replicate (n - length d - (if z <? 0 then 1 else 0)) 48 ++ d in if z <? 0 then 45 :: body else body.

(** The date of a number of days since 1970. *)
Definition civil (days : Z) : Z * Z * Z :=
  let z := days + 719468 in
  let era := z / 146097 in
  let doe := z mod 146097 in
  let yoe := Z.quot (doe - Z.quot doe 1460 + Z.quot doe 36524 - Z.quot doe 146096) 365 in
  let y := yoe + era * 400 in
  let doy := doe - (365 * yoe + Z.quot yoe 4 - Z.quot yoe 100) in
  let mp := Z.quot (5 * doy + 2) 153 in
  let d := doy - Z.quot (153 * mp + 2) 5 + 1 in
  let mo := if mp <? 10 then mp + 3 else mp - 9 in
  ((if mo <=? 2 then y + 1 else y), mo, d).

Definition format_epoch (secs : Z) : Bytes :=
  let '(y, mo, d) := civil (secs / 86400) in
  let rem := secs mod 86400 in
  pad 4 y ++ [45] ++ pad 2 mo ++ [45] ++ pad 2 d ++ [32] ++
  pad 2 (rem / 3600) ++ [58] ++ pad 2 ((rem mod 3600) / 60) ++ [58] ++ pad 2 (rem mod 60) ++ bs "+00".

(** RANDOM: three shifts of the clock. *)
Definition xorshift (ms : Z) : Z :=
  let x := Z.lor ms 1 in
  let x := Z.lxor x (wrap_u64 (Z.shiftl x 13)) in
  let x := Z.lxor x (Z.shiftr x 7) in
  Z.lxor x (wrap_u64 (Z.shiftl x 17)).
Definition random_of (ms : Z) : f64 := f64_div (f64_of_uint (xorshift ms mod 1000000)) (f64_of_uint 1000000).

(** ** LIKE is decided

    On texts without a percent sign of their own, the loop decides the relation of patterns and
    texts; it always ends within its fuel. *)

Inductive like : list Bytes -> list Bytes -> Prop :=
| like_nil : like [] []
| like_char c x p t : c = underscore \/ c = x -> c <> percent -> like p t -> like (c :: p) (x :: t)
| like_skip p t : like p t -> like (percent :: p) t
| like_more x p t : like (percent :: p) t -> like (percent :: p) (x :: t).

Lemma like_percent_suffix p t : like (percent :: p) t <-> exists s, s `suffix_of` t /\ like p s.
Proof.
  split.
  - intros Hl. remember (percent :: p) as q eqn:Hq. induction Hl as [| |p' t Hl _|x p' t Hl IH]; simplify_eq.
    + by exists t.
    + destruct (IH eq_refl) as (s & Hs & Hm). exists s. split; [by apply suffix_cons_r|done].
  - intros (s & [k ->] & Hm). induction k as [|x k IH]; [by constructor|]. by apply like_more.
Qed.

Lemma like_percent_cons x p t : like (percent :: p) (x :: t) <-> like p (x :: t) \/ like (percent :: p) t.
Proof.
  split; [|intros [?|?]; by constructor]. intros Hl. inversion Hl; subst; [done|by left|by right].
Qed.

Lemma only_percents_like p : only_percents p = true <-> like p [].
Proof.
  induction p as [|c p IH]; cbn; [split; [constructor|done]|]. rewrite andb_true_iff, beq_true, IH. split.
  - intros [-> Hp]. by constructor.
  - intros Hl. by inversion Hl.
Qed.

(** What the loop has matched since the last wildcard. *)
Inductive taken : list Bytes -> list Bytes -> list Bytes -> list Bytes -> Prop :=
| taken_nil p t : taken p t p t
| taken_cons c x p t q u : c = underscore \/ c = x -> c <> percent -> taken p t q u -> taken (c :: p) (x :: t) q u.

Lemma taken_snoc p t c x q u : taken p t (c :: q) (x :: u) -> c = underscore \/ c = x -> c <> percent -> taken p t q u.
Proof.
  intros Ht Hc Hp. remember (c :: q) as q0 eqn:Hq. remember (x :: u) as u0 eqn:Hu. induction Ht; subst; econstructor; eauto. constructor.
Qed.

Lemma taken_suffix p t q u : taken p t q u -> u `suffix_of` t.
Proof. induction 1; [done|by apply suffix_cons_r]. Qed.

Lemma taken_like p t q u s : taken p t q u -> like p s ->
  exists s', like q s' /\ s' `suffix_of` s /\ (length s + length u = length s' + length t)%nat.
Proof.
  intros Ht. revert s. induction Ht as [p t|c x p t q u Hc Hp Ht IH]; intros s Hs; [exists s; split; [done|split; [done|lia]]|].
  inversion Hs as [|c' y p' s1 _ _ Hs1| |]; subst; [|done..]. destruct (IH s1 Hs1) as (s' & Hl & Hsuf & Hlen).
  exists s'. split; [done|]. split; [by apply suffix_cons_r|cbn; lia].
Qed.

Lemma suffix_by_length {A} (s u t : list A) : s `suffix_of` t -> u `suffix_of` t -> (length s <= length u)%nat -> s `suffix_of` u.
Proof.
  intros [k1 ->] [k2 E] Hl. assert (Hk : (length k2 <= length k1)%nat) by (apply (f_equal length) in E; rewrite !length_app in E; lia).
  rewrite <- (take_drop (length k2) k1), <- app_assoc in E. apply app_inj_1 in E as [_ E]; [|rewrite length_take; lia].
  rewrite <- E. by eexists.
Qed.

(** What going back to the last wildcard can still find. *)
Definition again (star : option (list Bytes * list Bytes)) : Prop :=
  match star with Some (_ :: st, sp) => like (percent :: sp) st | _ => False end.
Definition star_ok (t p : list Bytes) (star : option (list Bytes * list Bytes)) : Prop :=
  match star with Some (st, sp) => taken sp st p t | None => True end.

Lemma again_taken st sp p t : taken sp st p t -> again (Some (st, sp)) -> exists s, s `suffix_of` t /\ length s <> length t /\ like p s.
Proof.
  intros Ht Ha. destruct st as [|x st]; [done|]. cbn in Ha. apply like_percent_suffix in Ha as (s0 & Hs0 & Hm).
  destruct (taken_like _ _ _ _ _ Ht Hm) as (s' & Hl & Hs' & Hlen). apply suffix_length in Hs0 as Hl0. cbn in Hlen. exists s'. split; [|split; [lia|done]].
  apply (suffix_by_length _ _ (x :: st)); [|by eapply taken_suffix|lia]. etrans; [done|]. by apply suffix_cons_r.
Qed.

Lemma like_loop_spec fuel : forall t p star b, percent ∉ t -> (forall st sp, star = Some (st, sp) -> percent ∉ st) ->
  star_ok t p star -> like_loop fuel t p star = Some b -> b = true <-> like p t \/ again star.
Proof.
  induction fuel as [|f IH]; intros t p star b Hn Hns Hok Hl; [done|]. cbn [like_loop] in Hl. destruct t as [|x t].
  { simplify_eq. rewrite only_percents_like. split; [by left|]. intros [?|Ha]; [done|].
    destruct star as [[st sp]|]; [|done]. destruct (again_taken _ _ _ _ Hok Ha) as (s & Hs & Hne & _). apply suffix_length in Hs. cbn in *. lia. }
  apply not_elem_of_cons in Hn as [Hx Hn].
  assert (Hback : forall b, match star with Some (st, sp) => like_loop f (drop 1 st) sp (Some (drop 1 st, sp)) | None => Some false end = Some b ->
    b = true <-> again star).
  { intros b' Hb. destruct star as [[st sp]|]; [|simplify_eq; by split]. specialize (Hns st sp eq_refl).
    pose proof (taken_suffix _ _ _ _ Hok) as Hs. destruct st as [|y st]; [by apply suffix_nil_inv in Hs|]. cbn [drop] in Hb.
    apply not_elem_of_cons in Hns as [_ Hns]. apply IH in Hb; [|done|by intros ?? [= <- <-]|constructor]. rewrite Hb. cbn [again].
    destruct st as [|z st]; [|by rewrite like_percent_cons]. split; [intros [?|[]]; by constructor|]. intros Hm. left. by inversion Hm. }
  destruct p as [|c p]; [apply Hback in Hl; rewrite Hl; split; [by right|by intros [Hm|?]; [inversion Hm|]]|].
  destruct (beq c underscore || beq c x) eqn:Hc.
  - apply orb_true_iff in Hc. rewrite !beq_true in Hc. assert (Hp : c <> percent) by (intros ->; by destruct Hc as [?|<-]).
    apply IH in Hl; [|done|done|by destruct star as [[st sp]|]; [eapply taken_snoc|]]. rewrite Hl. split; intros [Hm|?]; auto; left; [by constructor|].
    by inversion Hm.
  - apply orb_false_iff in Hc as [Hu Hx']. rewrite <- !not_true_iff_false, !beq_true in *. destruct (beq c percent) eqn:Hp.
    + apply beq_true in Hp as ->. apply IH in Hl; [|by apply not_elem_of_cons|intros ?? [= <- <-]; by apply not_elem_of_cons|constructor].
      rewrite Hl. cbn [again]. rewrite <- like_percent_cons. split; [by left|]. intros [?|Ha]; [done|]. destruct star as [[st sp]|]; [|done].
      destruct (again_taken _ _ _ _ Hok Ha) as (s & Hs & _ & Hm). apply like_percent_suffix in Hm as (s2 & Hs2 & Hm). apply like_percent_suffix.
      exists s2. split; [by etrans|done].
    + apply Hback in Hl. rewrite Hl. split; [by right|]. intros [Hm|?]; [|done]. rewrite <- not_true_iff_false, beq_true in Hp.
      inversion Hm; subst; tauto.
Qed.

(** Each step takes from the pattern, or goes back to a wildcard with less of the text. *)
Lemma like_loop_ends n fuel : forall t p star, (length p <= n)%nat ->
  match star with
  | Some (st, sp) => (length sp <= n /\ length t <= length st /\ length st * (n + 1) + length p < fuel)%nat
  | None => (length t * (n + 1) + length p + n < fuel)%nat
  end -> is_Some (like_loop fuel t p star).
Proof.
  induction fuel as [|f IH]; intros t p star Hp Hf; [destruct star as [[]|]; lia|]. cbn [like_loop].
  destruct t as [|x t]; [by eexists|]. cbn [length] in Hf.
  assert (Hback : is_Some (match star with Some (st, sp) => like_loop f (drop 1 st) sp (Some (drop 1 st, sp)) | None => Some false end)).
  { destruct star as [[[|y st] sp]|]; [cbn in Hf; lia| |by eexists]. cbn [drop length] in *. rewrite drop_0. apply IH; [lia|]. repeat split; nia. }
  destruct p as [|c p]; [done|]. cbn [length] in *. destruct (_ || _).
  - apply IH; [lia|]. destruct star as [[st sp]|]; [|nia]. repeat split; lia.
  - destruct (beq c percent); [|done]. apply IH; [lia|]. cbn [length]. destruct star as [[st sp]|]; repeat split; nia.
Qed.

Lemma like_inner_ends t p : is_Some (like_loop (like_fuel t p) t p None).
Proof. apply (like_loop_ends (length p)); unfold like_fuel; [lia|nia]. Qed.

Lemma like_inner_correct t p : percent ∉ t -> like_inner t p = true <-> like p t.
Proof.
  intros Hn. unfold like_inner. destruct (like_inner_ends t p) as [b Hb]. rewrite Hb. cbn [default].
  rewrite (like_loop_spec _ t p None b Hn) by done. cbn. tauto.
Qed.
