(* ===== verification/PgQuery.v ===== *)
(** * PostgreSQL queries (src/pg/executor.rs: SELECT and expressions; src/pg/catalog.rs: definitions)

    An evaluation asks the engine for what others may change while it runs (the clock, tables,
    keys, chains of versions) and goes on with the answer: it is a tree of requests ([run]),
    so that statements of several sessions interleave request by request. The syntax is that
    of the parser library, as far as the code names its constructors; queries are written over
    any type of expressions, so that their evaluation takes expressions with their meaning. *)

From S2P Require Import Prelude Errors Util Mvcc SqlValue PgValue.

(** ** Tables *)

Record ColumnDef := { cd_name : Bytes; cd_ctype : ColType; cd_not_null : bool; cd_primary_key : bool; cd_serial : bool }.

(** The rowid counter of a definition is kept by the engine under its namespace. *)
Record TableDef := { td_name : Bytes; td_ns : Z; td_columns : list ColumnDef }.

Abbreviation Row := (gmap Bytes Scalar).

Definition eq_ignore_ascii_case (a b : Bytes) : bool := beq (to_ascii_lowercase a) (to_ascii_lowercase b).
Definition column (d : TableDef) (name : Bytes) : option ColumnDef :=
  List.find (fun c => eq_ignore_ascii_case (cd_name c) name) (td_columns d).

Definition rowid_key (rowid : Z) : Bytes := to_be 8 rowid.

(** ** Requests *)

Inductive req : Type :=
| RClock | RPid | RCurrentTs
| RKeys (ns : Z) | RChain (nk : NsKey)
| RTable (name : Bytes) | RTables | RNextNs | RInsertTable (d : TableDef) | RRemoveTable (name : Bytes)
| RAllocRowid (ns : Z)
| RRegister (ts : Z) | RUnpin (ts : Z)
| RCommit (r : CommitRequest).

Definition ans (q : req) : Type :=
  match q with
  | RClock | RPid | RCurrentTs | RNextNs | RAllocRowid _ => Z
  | RKeys _ => list Bytes
  | RChain _ => option Chain
  | RTable _ | RRemoveTable _ => option TableDef
  | RTables => list TableDef
  | RInsertTable _ | RRegister _ | RUnpin _ => unit
  | RCommit _ => result CommitError Z
  end.

Inductive run (A : Type) : Type :=
| Done (r : pg A)
| Ask (q : req) (k : ans q -> run A).
Arguments Done {A} r.
Arguments Ask {A} q k.

Fixpoint rbind {A B} (m : run A) (f : A -> run B) : run B :=
  match m with
  | Done (Some (Ok a)) => f a
  | Done (Some (Err e)) => Done (Some (Err e))
  | Done None => Done None
  | Ask q k => Ask q (fun a => rbind (k a) f)
  end.
Notation "'let&' x := p 'in' q" := (rbind p (fun x => q)) (at level 10, x pattern, p at level 100, q at level 200).

Definition ret {A} (a : A) : run A := Done (pok a).
Definition fail {A} (e : Bytes) : run A := Done (perr e).
Definition ask (q : req) : run (ans q) := Ask q ret.

(** The error of a run as its value. *)
Fixpoint catch {A} (m : run A) : run (result Bytes A) :=
  match m with
  | Done (Some r) => ret r
  | Done None => Done None
  | Ask q k => Ask q (fun a => catch (k a))
  end.

Fixpoint rmap {A B} (f : A -> run B) (l : list A) : run (list B) :=
  match l with [] => ret [] | a :: l' => let& b := f a in let& r := rmap f l' in ret (b :: r) end.
Fixpoint rfold {A B} (f : B -> A -> run B) (l : list A) (b : B) : run B :=
  match l with [] => ret b | a :: l' => let& b' := f b a in rfold f l' b' end.
Fixpoint rfilter {A} (p : A -> run bool) (l : list A) : run (list A) :=
  match l with [] => ret [] | a :: l' => let& b := p a in let& r := rfilter p l' in ret (if b : bool then a :: r else r) end.

(** The programs of a list, one after the other. *)
Definition rseq {A} (l : list (run A)) : run (list A) := rmap id l.

(** A stable sort. Where the comparison is not an order, the source's result is unspecified. *)
Definition sorted_by {A} (cmp : A -> A -> comparison) (l : list A) : list A := default l (sort_by (fun a b => Some (cmp a b)) l).

(** ** Syntax *)

Abbreviation Ident := Bytes.
Abbreviation ObjectName := (list Ident).

Inductive Literal : Type :=
| VNumber (n : Bytes) | VString (s : Bytes) | VBoolean (b : bool) | VNull | VPlaceholder (p : Bytes) | VOther (text : Bytes).

Inductive SelectItem (E : Type) : Type :=
| Wildcard | QualifiedWildcard (prefix : Bytes) | UnnamedExpr (e : E) | ExprWithAlias (e : E) (alias : Ident).
Inductive TableFactor : Type := TfTable (name : ObjectName) (alias : option Ident) | TfOther.
Inductive JoinConstraint (E : Type) : Type := JcOn (e : E) | JcNone | JcOther.
Inductive JoinOperator (E : Type) : Type := JInner (c : JoinConstraint E) | JLeftOuter (c : JoinConstraint E) | JOther (text : Bytes).
Record Join (E : Type) := { j_relation : TableFactor; j_operator : JoinOperator E }.
Record TableWithJoins (E : Type) := { tw_relation : TableFactor; tw_joins : list (Join E) }.
(** [group_by] is [None] for [GROUP BY ALL]. *)
Record Select (E : Type) := {
  distinct : bool; projection : list (SelectItem E); from : list (TableWithJoins E);
  selection : option E; group_by : option (list E); having : option E }.
Inductive SetExpr (E : Type) : Type := SeSelect (s : Select E) | SeValues (rows : list (list E)) | SeOther (text : Bytes).
Record OrderBy (E : Type) := { ob_expr : E; ob_asc : option bool }.
Record Query (E : Type) := { q_body : SetExpr E; q_order_by : list (OrderBy E); q_offset : option E; q_limit : option E }.
Inductive FunctionArg (E : Type) : Type := FaExpr (e : E) | FaWildcard | FaOther.

Arguments Wildcard {E}. Arguments QualifiedWildcard {E}. Arguments UnnamedExpr {E}. Arguments ExprWithAlias {E}.
Arguments JcOn {E}. Arguments JcNone {E}. Arguments JcOther {E}.
Arguments JInner {E}. Arguments JLeftOuter {E}. Arguments JOther {E}.
Arguments j_relation {E}. Arguments j_operator {E}. Arguments tw_relation {E}. Arguments tw_joins {E}.
Arguments distinct {E}. Arguments projection {E}. Arguments from {E}. Arguments selection {E}. Arguments group_by {E}. Arguments having {E}.
Arguments SeSelect {E}. Arguments SeValues {E}. Arguments SeOther {E}.
Arguments ob_expr {E}. Arguments ob_asc {E}.
Arguments q_body {E}. Arguments q_order_by {E}. Arguments q_offset {E}. Arguments q_limit {E}.
Arguments FaExpr {E}. Arguments FaWildcard {E}. Arguments FaOther {E}.

Inductive Expr : Type :=
| ExIdentifier (id : Ident)
| ExCompound (parts : list Ident)
| ExValue (v : Literal)
| ExNested (e : Expr)
| ExUnary (op : UnaryOperator) (e : Expr)
| ExBinary (l : Expr) (op : BinaryOperator) (r : Expr)
| ExIsNull (e : Expr) | ExIsNotNull (e : Expr)
| ExIsTrue (e : Expr) | ExIsFalse (e : Expr) | ExIsNotTrue (e : Expr) | ExIsNotFalse (e : Expr)
| ExInList (e : Expr) (l : list Expr) (negated : bool)
| ExInSubquery (e : Expr) (q : Query Expr) (negated : bool)
| ExSubquery (q : Query Expr)
| ExExists (q : Query Expr) (negated : bool)
| ExBetween (e : Expr) (negated : bool) (low high : Expr)
| ExLike (negated : bool) (e pattern : Expr)
| ExILike (negated : bool) (e pattern : Expr)
| ExCast (e : Expr) (dt : DataType)
| ExCase (operand : option Expr) (conditions results : list Expr) (else_result : option Expr)
| ExSubstring (e : Expr) (from_ for_ : option Expr)
| ExTrim (e : Expr)
| ExFunction (name : ObjectName) (args : list (FunctionArg Expr))
| ExTuple (items : list Expr)
| ExOther (text : Bytes).

(** The text the library prints for an expression. *)
Class ShowExpr := { show_expr : Expr -> Bytes }.

(** ** Queries with their expressions replaced *)

Section Map.
Context {A B : Type} (f : A -> B).

Definition item_map (i : SelectItem A) : SelectItem B :=
  match i with
  | Wildcard => Wildcard | QualifiedWildcard p => QualifiedWildcard p
  | UnnamedExpr e => UnnamedExpr (f e) | ExprWithAlias e a => ExprWithAlias (f e) a
  end.
Definition constraint_map (c : JoinConstraint A) : JoinConstraint B :=
  match c with JcOn e => JcOn (f e) | JcNone => JcNone | JcOther => JcOther end.
Definition operator_map (o : JoinOperator A) : JoinOperator B :=
  match o with JInner c => JInner (constraint_map c) | JLeftOuter c => JLeftOuter (constraint_map c) | JOther t => JOther t end.
Definition join_map (j : Join A) : Join B := {| j_relation := j_relation j; j_operator := operator_map (j_operator j) |}.
Definition twj_map (t : TableWithJoins A) : TableWithJoins B :=
  {| tw_relation := tw_relation t; tw_joins := map join_map (tw_joins t) |}.
Definition select_map (s : Select A) : Select B :=
  {| distinct := distinct s; projection := map item_map (projection s); from := map twj_map (from s);
     selection := option_map f (selection s); group_by := option_map (map f) (group_by s); having := option_map f (having s) |}.
Definition set_expr_map (b : SetExpr A) : SetExpr B :=
  match b with SeSelect s => SeSelect (select_map s) | SeValues rows => SeValues (map (map f) rows) | SeOther t => SeOther t end.
Definition order_by_map (o : OrderBy A) : OrderBy B := {| ob_expr := f (ob_expr o); ob_asc := ob_asc o |}.
Definition query_map (q : Query A) : Query B :=
  {| q_body := set_expr_map (q_body q); q_order_by := map order_by_map (q_order_by q);
     q_offset := option_map f (q_offset q); q_limit := option_map f (q_limit q) |}.
Definition arg_map (a : FunctionArg A) : FunctionArg B :=
  match a with FaExpr e => FaExpr (f e) | FaWildcard => FaWildcard | FaOther => FaOther end.
End Map.

(** ** Sessions *)

(** [Txn]: the pinned timestamp of its snapshot, the staged rows ([None] for a deleted one). *)
Record Txn := {
  t_snap : Z; t_overlay : gmap NsKey (option Row); t_writes : list WriteOp; t_conflict : list NsKey; t_aborted : bool }.
Abbreviation Session := (option Txn).

Record QueryEnv := { qe_sess : Session; qe_params : list Scalar }.

Abbreviation RowCtx := (gmap Bytes Scalar).
Record RowsOut := { ro_cols : list (Bytes * Z); ro_rows : list (list Scalar) }.
(** [col_order] holds the qualified and the bare name of every column. *)
Record RowSet := { rs_cols : list (Bytes * Bytes); rs_rows : list RowCtx }.

Definition dotted (a b : Bytes) : Bytes := a ++ 46 :: b.
Fixpoint join_dots (l : list Bytes) : Bytes :=
  match l with [] => [] | [a] => a | a :: l' => dotted a (join_dots l') end.

(** An expression with its meaning: in a row, and in a group of rows where there is one. *)
Record Den := { den_syntax : Expr; den_eval : RowCtx -> option (list RowCtx) -> run Scalar }.

Section Eval.
Context `{Lowercase} `{SqlLib} `{Debug} `{ShowExpr}.

Definition object_name_str (n : ObjectName) : Bytes := join_dots (map to_lowercase n).

Definition no_relation (n : Bytes) : Bytes := bs "relation " ++ [34] ++ n ++ [34] ++ bs " does not exist".

(** [Catalog::get] *)
Definition catalog_get (name : Bytes) : run (option TableDef) := ask (RTable (to_lowercase name)).
(** [Catalog::list] *)
Definition catalog_list : run (list TableDef) :=
  let& l := ask RTables in ret (sorted_by (fun a b => bytes_cmp (td_name a) (td_name b)) l).

Definition resolve_def (name : ObjectName) : run TableDef :=
  let n := object_name_str name in
  let& d := catalog_get n in
  match d with Some d => ret d | None => fail (no_relation n) end.

(** ** Reading a table *)

Definition snapshot_ts (sess : Session) : run Z :=
  match sess with Some t => ret (t_snap t) | None => ask RCurrentTs end.

(** [MvccStore::for_each_visible], chain by chain. *)
Definition visible_datum (c : option Chain) (ts now : Z) : option Datum :=
  chain ← c; v ← visible_at chain ts; if is_expired (expires_at_ms v) now then None else value v.
Definition read_key (ns ts now : Z) (key : Bytes) : run (option (Bytes * Datum)) :=
  let& c := ask (RChain (ns, key)) in ret (pair key <$> visible_datum c ts now).
Definition for_each_visible (ns ts : Z) : run (list (Bytes * Datum)) :=
  let& now := ask RClock in
  let& keys := ask (RKeys ns) in
  let& found := rmap (read_key ns ts now) keys in
  ret (omap id found).

Definition as_row (kd : Bytes * Datum) : option (Z * Row) :=
  match kd.2 with DRow r => if (length kd.1 =? 8)%nat then Some (of_be kd.1, r) else None | _ => None end.

Definition staged_rows (ns : Z) (overlay : gmap NsKey (option Row)) : list (Z * Row) :=
  omap (fun ks : NsKey * option Row =>
    if (ks.1.1 =? ns) && (length ks.1.2 =? 8)%nat then pair (of_be ks.1.2) <$> ks.2 else None) (map_to_list overlay).

(** The rows a transaction replaced or deleted go, its own versions come. *)
Definition with_overlay (ns : Z) (t : Txn) (rows : list (Z * Row)) : list (Z * Row) :=
  sorted_by (fun a b => a.1 ?= b.1)
    (List.filter (fun r => negb (bool_decide (is_Some (t_overlay t !! (ns, rowid_key r.1))))) rows ++ staged_rows ns (t_overlay t)).

Definition scan (sess : Session) (d : TableDef) : run (list (Z * Row)) :=
  let& ts := snapshot_ts sess in
  let& found := for_each_visible (td_ns d) ts in
  let rows := omap as_row found in
  ret (match sess with Some t => with_overlay (td_ns d) t rows | None => rows end).

Definition cell (r : gmap Bytes Scalar) (name : Bytes) : Scalar := default ScNull (r !! name).

(** Every column of the row under both its names. *)
Definition row_ctx (table : Bytes) (row : Row) : RowCtx :=
  foldl (fun c kv => <[kv.1 := kv.2]> (<[dotted table kv.1 := kv.2]> c)) ∅ (map_to_list row).

(** ** FROM *)

Definition make_set (alias : Bytes) (cols : list (Bytes * list Scalar)) : RowSet :=
  let nrows := match cols with [] => O | (_, v) :: _ => length v end in
  {| rs_cols := map (fun c : Bytes * list Scalar => (dotted alias c.1, c.1)) cols;
     rs_rows := map (fun i => foldl (fun ctx (c : Bytes * list Scalar) =>
                   let v := nth i c.2 ScNull in <[c.1 := v]> (<[dotted alias c.1 := v]> ctx)) ∅ cols) (seq 0 nrows) |}.

Definition text (s : Bytes) : Scalar := ScText s.
Definition type_text (c : ColType) : Bytes :=
  match c with ColBool => bs "boolean" | ColInt => bs "bigint" | ColFloat => bs "double precision" | ColText => bs "text" end.

(** The names a table or a row set goes by: [full.rsplit('.').next()]. *)
Definition last_segment (full : Bytes) : Bytes := List.last (split_byte 46 full) full.

Definition tables_view (alias : Bytes) (l : list TableDef) : RowSet :=
  make_set alias [(bs "table_catalog", map (fun _ => text (bs "voltra")) l); (bs "table_schema", map (fun _ => text (bs "public")) l);
                  (bs "table_name", map (fun d => text (td_name d)) l); (bs "table_type", map (fun _ => text (bs "BASE TABLE")) l)].
Definition columns_view (alias : Bytes) (l : list TableDef) : RowSet :=
  let cs := concat (map (fun d => map (fun ic : nat * ColumnDef => (d, ic)) (zip (seq 0 (length (td_columns d))) (td_columns d))) l) in
  make_set alias [(bs "table_name", map (fun c => text (td_name c.1)) cs); (bs "column_name", map (fun c => text (cd_name c.2.2)) cs);
                  (bs "data_type", map (fun c => text (type_text (cd_ctype c.2.2))) cs);
                  (bs "ordinal_position", map (fun c => ScInt (Z.of_nat c.2.1 + 1)) cs);
                  (bs "is_nullable", map (fun c => text (if cd_not_null c.2.2 then bs "NO" else bs "YES")) cs)].
Definition pg_tables_view (alias : Bytes) (l : list TableDef) : RowSet :=
  make_set alias [(bs "schemaname", map (fun _ => text (bs "public")) l); (bs "tablename", map (fun d => text (td_name d)) l);
                  (bs "tableowner", map (fun _ => text (bs "voltra")) l)].

Definition virtual_table (full alias : Bytes) : run (option RowSet) :=
  if beq full (bs "information_schema.tables") then let& l := catalog_list in ret (Some (tables_view alias l))
  else if beq full (bs "information_schema.columns") then let& l := catalog_list in ret (Some (columns_view alias l))
  else if beq full (bs "pg_catalog.pg_tables") || beq full (bs "pg_tables") then let& l := catalog_list in ret (Some (pg_tables_view alias l))
  else ret None.

Definition table_rows (alias : Bytes) (d : TableDef) (rows : list (Z * Row)) : RowSet :=
  {| rs_cols := map (fun c => (dotted alias (cd_name c), cd_name c)) (td_columns d);
     rs_rows := map (fun r : Z * Row => foldl (fun ctx c =>
                   let v := cell r.2 (cd_name c) in <[cd_name c := v]> (<[dotted alias (cd_name c) := v]> ctx)) ∅ (td_columns d)) rows |}.

Definition relation_rows (sess : Session) (factor : TableFactor) : run RowSet :=
  match factor with
  | TfOther => fail (bs "subquery FROM items are not supported")
  | TfTable name alias =>
      let full := object_name_str name in
      let alias_name := match alias with Some a => to_lowercase a | None => last_segment full end in
      let& v := virtual_table full alias_name in
      match v with
      | Some rs => ret rs
      | None => let& d := resolve_def name in let& rows := scan sess d in ret (table_rows alias_name d rows)
      end
  end.

Definition holds (d : Den) (ctx : RowCtx) (group : option (list RowCtx)) : run bool :=
  let& v := den_eval d ctx group in ret (truthy v).

Definition pad_right (cols : list (Bytes * Bytes)) (l : RowCtx) : RowCtx :=
  foldl (fun (m : RowCtx) (qb : Bytes * Bytes) =>
    let m1 := <[qb.1 := ScNull]> m in match m1 !! qb.2 with Some _ => m1 | None => <[qb.2 := ScNull]> m1 end) l cols.

Definition join_row (on : option Den) (left_outer : bool) (rhs : RowSet) (l : RowCtx) : run (list RowCtx) :=
  let& matched := rfilter (fun m : RowCtx => match on with Some p => holds p m None | None => ret true end)
                    (map (fun r : RowCtx => r ∪ l) (rs_rows rhs)) in
  ret (match matched with [] => if left_outer then [pad_right (rs_cols rhs) l] else [] | _ => matched end).

Definition join_step (sess : Session) (current : RowSet) (j : Join Den) : run RowSet :=
  let& rhs := relation_rows sess (j_relation j) in
  match (match j_operator j with JInner c => Some (c, false) | JLeftOuter c => Some (c, true) | JOther _ => None end) with
  | None => fail (bs "join type not supported: " ++ match j_operator j with JOther t => t | _ => [] end)
  | Some (c, left_outer) =>
      match (match c with JcOn e => Some (Some e) | JcNone => Some None | JcOther => None end) with
      | None => fail (bs "only JOIN ... ON is supported")
      | Some on =>
          let& rows := rmap (join_row on left_outer rhs) (rs_rows current) in
          ret {| rs_cols := rs_cols current ++ rs_cols rhs; rs_rows := concat rows |}
      end
  end.

Definition resolve_from (sess : Session) (s : Select Den) : run RowSet :=
  match from s with
  | [] => ret {| rs_cols := []; rs_rows := [∅] |}
  | [t] => let& rs := relation_rows sess (tw_relation t) in rfold (join_step sess) (tw_joins t) rs
  | _ => fail (bs "comma joins are not supported — use explicit JOIN")
  end.

(** ** Projections *)

Definition contains_args (f : Expr -> bool) (args : list (FunctionArg Expr)) : bool :=
  existsb (fun a => match a with FaExpr e => f e | _ => false end) args.
Definition is_aggregate (name : Bytes) : bool :=
  existsb (beq name) [bs "COUNT"; bs "SUM"; bs "AVG"; bs "MIN"; bs "MAX"].
Fixpoint contains_aggregate (e : Expr) : bool :=
  match e with
  | ExFunction name args => is_aggregate (to_uppercase (object_name_str name)) || contains_args contains_aggregate args
  | ExBinary l _ r => contains_aggregate l || contains_aggregate r
  | ExUnary _ e | ExNested e | ExCast e _ => contains_aggregate e
  | _ => false
  end.

Definition no_label : Bytes := bs "?column?".
Definition expr_label (e : Expr) : Bytes :=
  match e with
  | ExIdentifier id => to_lowercase id
  | ExCompound parts => match List.last (map Some parts) None with Some p => to_lowercase p | None => no_label end
  | ExFunction name _ => to_lowercase (object_name_str name)
  | _ => no_label
  end.

(** [starts_with(format!("{p}."))] *)
Definition under_prefix (p qual : Bytes) : bool := match strip_prefix (p ++ [46]) qual with Some _ => true | None => false end.

(** What a select item gives in a row: the columns' names with their types, and the values. *)
Definition item_columns (i : SelectItem Den) (cols : list (Bytes * Bytes)) : list (Bytes * Bytes) :=
  match i with
  | Wildcard => cols
  | QualifiedWildcard prefix => List.filter (fun qb : Bytes * Bytes => under_prefix (to_lowercase prefix) qb.1) cols
  | _ => []
  end.
Definition item_label (i : SelectItem Den) : Bytes :=
  match i with UnnamedExpr d => expr_label (den_syntax d) | ExprWithAlias _ a => a | _ => [] end.

Definition item_values (cols : list (Bytes * Bytes)) (ctx : RowCtx) (i : SelectItem Den) : run (list ((Bytes * Z) * Scalar)) :=
  match i with
  | UnnamedExpr d | ExprWithAlias d _ =>
      let& v := den_eval d ctx None in ret [((item_label i, scalar_oid v), v)]
  | _ => ret (map (fun qb : Bytes * Bytes => let v := cell ctx qb.1 in ((qb.2, scalar_oid v), v)) (item_columns i cols))
  end.

Definition project_row (cols : list (Bytes * Bytes)) (items : list (SelectItem Den)) (ctx : RowCtx) : run (RowCtx * list ((Bytes * Z) * Scalar)) :=
  let& vs := rmap (item_values cols ctx) items in ret (ctx, concat vs).

(** With no rows, the header comes from a row of nulls. *)
Definition null_ctx (cols : list (Bytes * Bytes)) : RowCtx :=
  foldl (fun (m : RowCtx) (qb : Bytes * Bytes) => <[qb.2 := ScNull]> (<[qb.1 := ScNull]> m)) ∅ cols.
Definition item_header (cols : list (Bytes * Bytes)) (i : SelectItem Den) : run (list (Bytes * Z)) :=
  match i with
  | UnnamedExpr d | ExprWithAlias d _ =>
      let& v := den_eval d (null_ctx cols) None in ret [(item_label i, scalar_oid v)]
  | _ => ret (map (fun qb : Bytes * Bytes => (qb.2, OID_TEXT)) (item_columns i cols))
  end.

(** The first row gives the header. *)
Definition header_of (cols : list (Bytes * Bytes)) (items : list (SelectItem Den)) (rows : list (RowCtx * list ((Bytes * Z) * Scalar)))
  : run (list (Bytes * Z)) :=
  match rows with
  | (_, r) :: _ => ret (map fst r)
  | [] => let& h := rmap (item_header cols) items in ret (concat h)
  end.

(** ** ORDER BY *)

Fixpoint position {A} (p : A -> bool) (l : list A) : option nat :=
  match l with [] => None | a :: l' => if p a then Some O else S <$> position p l' end.
Definition column_index (cols : list (Bytes * Z)) (name : Bytes) : option nat :=
  position (fun c : Bytes * Z => eq_ignore_ascii_case c.1 name) cols.

Definition out_of_range : Bytes := bs "ORDER BY position out of range".
Definition order_position (n : Bytes) (width : nat) : result Bytes nat :=
  match parse_u64_str n with
  | None => Err (bs "bad ORDER BY position")
  | Some idx => if (idx =? 0) || (Z.of_nat width <? idx) then Err out_of_range else Ok (Z.to_nat (idx - 1))
  end.

Definition order_asc (o : OrderBy Den) : bool := default true (ob_asc o).

(** [out[idx]] out of range panics. *)
Definition out_cell (out : list Scalar) (i : nat) : run Scalar :=
  match out !! i with Some v => ret v | None => Done None end.

(** Output names first, then positions, then any expression over the row. *)
Definition sort_key (cols : list (Bytes * Z)) (ctx : RowCtx) (out : list Scalar) (o : OrderBy Den) : run (Scalar * bool) :=
  let d := ob_expr o in
  let& v := (match den_syntax d with
             | ExIdentifier id =>
                 match column_index cols (to_lowercase id) with Some i => out_cell out i | None => den_eval d ctx None end
             | ExValue (VNumber n) =>
                 match order_position n (length out) with Ok i => out_cell out i | Err e => fail e end
             | _ => den_eval d ctx None
             end) in
  ret (v, order_asc o).

Fixpoint compare_keys (a b : list (Scalar * bool)) : comparison :=
  match a, b with
  | (x, asc) :: a', (y, _) :: b' =>
      let c := scalar_cmp x y in
      match (if asc : bool then c else reverse c) with Eq => compare_keys a' b' | c' => c' end
  | _, _ => Eq
  end.

Definition sort_rows (cols : list (Bytes * Z)) (order : list (OrderBy Den)) (rows : list (RowCtx * list Scalar)) : run (list (list Scalar)) :=
  match order with
  | [] => ret (map snd rows)
  | _ =>
      let& keyed := rmap (fun r : RowCtx * list Scalar => let& ks := rmap (sort_key cols r.1 r.2) order in ret (ks, r.2)) rows in
      ret (map snd (sorted_by (fun a b : list (Scalar * bool) * list Scalar => compare_keys a.1 b.1) keyed))
  end.

(** The output of groups is sorted by its own columns. *)
Definition output_spec (cols : list (Bytes * Z)) (o : OrderBy Den) : run (nat * bool) :=
  match den_syntax (ob_expr o) with
  | ExIdentifier id =>
      let name := to_lowercase id in
      match column_index cols name with
      | Some i => ret (i, order_asc o)
      | None => fail (bs "ORDER BY column " ++ [34] ++ name ++ [34] ++ bs " is not in the output")
      end
  | ExValue (VNumber n) => match order_position n (length cols) with Ok i => ret (i, order_asc o) | Err e => fail e end
  | other => fail (bs "ORDER BY expression not supported here: " ++ show_expr other)
  end.

Definition sort_output (cols : list (Bytes * Z)) (rows : list (list Scalar)) (order : list (OrderBy Den)) : run (list (list Scalar)) :=
  let& specs := rmap (output_spec cols) order in
  let key (r : list Scalar) := map (fun s : nat * bool => (nth s.1 r ScNull, s.2)) specs in
  ret (sorted_by (fun a b => compare_keys (key a) (key b)) rows).

(** ** GROUP BY *)

Fixpoint add_to_group (key : list Scalar) (ctx : RowCtx) (groups : list (list Scalar * list RowCtx)) : list (list Scalar * list RowCtx) :=
  match groups with
  | [] => [(key, [ctx])]
  | (k, rows) :: g => if scalars_eq k key then (k, rows ++ [ctx]) :: g else (k, rows) :: add_to_group key ctx g
  end.

Definition group_rows (exprs : list Den) (rows : list RowCtx) : run (list (list Scalar * list RowCtx)) :=
  let& groups := rfold (fun gs ctx => let& key := rmap (fun d => den_eval d ctx None) exprs in ret (add_to_group key ctx gs)) rows [] in
  ret (match groups, exprs with [], [] => [([], [])] | _, _ => groups end).

(** One item of one group: the header grows while the columns are new. *)
Definition group_item (first : bool) (rep : RowCtx) (rows : list RowCtx) (acc : list (Bytes * Z) * list Scalar) (i : SelectItem Den)
  : run (list (Bytes * Z) * list Scalar) :=
  let '(cols, out) := acc in
  let is_new := (length cols <=? length out)%nat in
  match i with
  | UnnamedExpr d =>
      let& v := den_eval d rep (Some rows) in
      ret (if (first || match cols with [] => true | _ => false end) && is_new then cols ++ [(item_label i, scalar_oid v)] else cols, out ++ [v])
  | ExprWithAlias d _ =>
      let& v := den_eval d rep (Some rows) in
      ret (if is_new then cols ++ [(item_label i, scalar_oid v)] else cols, out ++ [v])
  | _ => fail (bs "wildcard with GROUP BY/aggregates is not supported")
  end.

Definition group_step (s : Select Den) (acc : bool * list (Bytes * Z) * list (list Scalar)) (g : list Scalar * list RowCtx)
  : run (bool * list (Bytes * Z) * list (list Scalar)) :=
  let '(first, cols, outs) := acc in
  let rep := match g.2 with r :: _ => r | [] => ∅ end in
  let& keep := (match having s with Some h => holds h rep (Some g.2) | None => ret true end) in
  if negb keep then ret (false, cols, outs)
  else let& r := rfold (group_item first rep g.2) (projection s) (cols, []) in ret (false, r.1, outs ++ [r.2]).

Definition has_aggregates (s : Select Den) : bool :=
  existsb (fun i => match i with UnnamedExpr d | ExprWithAlias d _ => contains_aggregate (den_syntax d) | _ => false end) (projection s)
  || match having s with Some _ => true | None => false end.

(** ** DISTINCT, OFFSET, LIMIT *)

Definition distinct_rows (rows : list (list Scalar)) : list (list Scalar) :=
  foldl (fun seen r => if existsb (fun s => scalars_eq s r) seen then seen else seen ++ [r]) [] rows.

Definition clip (i : Z) (rows : list (list Scalar)) : nat := Z.to_nat (Z.min (Z.max i 0) (zlen rows)).

Definition offset_rows (off : option Den) (rows : list (list Scalar)) : run (list (list Scalar)) :=
  match off with
  | None => ret rows
  | Some d => let& v := den_eval d ∅ None in ret (drop (match v with ScInt i => clip i rows | _ => O end) rows)
  end.
Definition limit_rows (lim : option Den) (rows : list (list Scalar)) : run (list (list Scalar)) :=
  match lim with
  | None => ret rows
  | Some d => let& v := den_eval d ∅ None in ret (match v with ScInt i => take (clip i rows) rows | _ => rows end)
  end.

(** ** Queries *)

Definition values_rows (rows : list (list Den)) : run (list (list Scalar)) := rmap (rmap (fun d => den_eval d ∅ None)) rows.

Definition run_values (rows : list (list Den)) : run RowsOut :=
  let& out := values_rows rows in
  let ncols := match out with r :: _ => length r | [] => O end in
  ret {| ro_cols := map (fun i => (bs "column" ++ dec (Z.of_nat i), OID_TEXT)) (seq 1 ncols); ro_rows := out |}.

Definition plain_rows (s : Select Den) (order : list (OrderBy Den)) (base : RowSet) (rows : list RowCtx) : run (list (Bytes * Z) * list (list Scalar)) :=
  let& projected := rmap (project_row (rs_cols base) (projection s)) rows in
  let& cols := header_of (rs_cols base) (projection s) projected in
  let& out := sort_rows cols order (map (fun p : RowCtx * list ((Bytes * Z) * Scalar) => (p.1, map snd p.2)) projected) in
  ret (cols, out).

Definition grouped_rows (s : Select Den) (order : list (OrderBy Den)) (exprs : list Den) (rows : list RowCtx) : run (list (Bytes * Z) * list (list Scalar)) :=
  let& groups := group_rows exprs rows in
  let& r := rfold (group_step s) groups (true, [], []) in
  let& out := (match order with [] => ret r.2 | _ => sort_output r.1.2 r.2 order end) in
  ret (r.1.2, out).

Definition run_select (sess : Session) (q : Query Den) (s : Select Den) : run RowsOut :=
  let& base := resolve_from sess s in
  let& filtered := rfilter (fun ctx => match selection s with Some p => holds p ctx None | None => ret true end) (rs_rows base) in
  let exprs := default [] (group_by s) in
  let& r := (if has_aggregates s || match exprs with [] => false | _ => true end
             then grouped_rows s (q_order_by q) exprs filtered
             else plain_rows s (q_order_by q) base filtered) in
  let& r1 := offset_rows (q_offset q) (if distinct s then distinct_rows r.2 else r.2) in
  let& r2 := limit_rows (q_limit q) r1 in
  ret {| ro_cols := r.1; ro_rows := r2 |}.

Definition run_query (sess : Session) (q : Query Den) : run RowsOut :=
  match q_body q with
  | SeSelect s => run_select sess q s
  | SeValues rows => run_values rows
  | SeOther t => fail (bs "query form not supported: " ++ t)
  end.

(** ** Functions *)

Definition arg_exprs (args : list (FunctionArg Den)) : list Den :=
  omap (fun a => match a with FaExpr d => Some d | _ => None end) args.
Definition has_wildcard (args : list (FunctionArg Den)) : bool :=
  existsb (fun a => match a with FaWildcard => true | _ => false end) args.

Definition first_arg (args : list Den) (r : RowCtx) : run Scalar :=
  match args with d :: _ => den_eval d r None | [] => fail (bs "aggregate needs an argument") end.

Definition agg_count (args : list Den) (wild : bool) (rows : list RowCtx) : run Scalar :=
  match args with
  | d :: _ =>
      if wild then ret (ScInt (zlen rows))
      else let& n := rfold (fun n r => let& v := den_eval d r None in ret (if is_null v then n else n + 1)) rows 0 in ret (ScInt n)
  | [] => ret (ScInt (zlen rows))
  end.

(** The sum runs in floats; integers come back from it. *)
Definition sum_step (args : list Den) (acc : f64 * Z * bool) (r : RowCtx) : run (f64 * Z * bool) :=
  let '(sum, count, all_int) := acc in
  let& v := first_arg args r in
  if is_null v then ret acc
  else
    let all_int := all_int && match v with ScInt _ => true | _ => false end in
    match scalar_num v with
    | None => fail (bs "aggregate over non-numeric value")
    | Some x => ret (f64_add sum x, count + 1, all_int)
    end.
Definition agg_sum (avg : bool) (args : list Den) (rows : list RowCtx) : run Scalar :=
  let& acc := rfold (sum_step args) rows (f64_zero, 0, true) in
  let '(sum, count, all_int) := acc in
  ret (if count =? 0 then ScNull
       else if avg then ScFloat (f64_div sum (f64_of_uint count))
       else if all_int then ScInt (f64_to_i64 sum) else ScFloat sum).

Definition best_step (least : bool) (args : list Den) (best : option Scalar) (r : RowCtx) : run (option Scalar) :=
  let& v := first_arg args r in
  ret (if is_null v then best
       else match best with
            | None => Some v
            | Some b => Some (if (if least then is_lt else is_gt) (scalar_cmp v b) then v else b)
            end).
Definition agg_best (least : bool) (args : list Den) (rows : list RowCtx) : run Scalar :=
  let& best := rfold (best_step least args) rows None in ret (default ScNull best).

Definition aggregate (name : Bytes) (args : list Den) (wild : bool) (rows : list RowCtx) : run Scalar :=
  if beq name (bs "COUNT") then agg_count args wild rows
  else if beq name (bs "SUM") then agg_sum false args rows
  else if beq name (bs "AVG") then agg_sum true args rows
  else agg_best (beq name (bs "MIN")) args rows.

(** [max_by] keeps the last of the greatest, [min_by] the first of the least. *)
Definition max_by (l : list Scalar) : option Scalar :=
  match l with [] => None | x :: l' => Some (foldl (fun m v => if is_gt (scalar_cmp m v) then m else v) x l') end.
Definition min_by (l : list Scalar) : option Scalar :=
  match l with [] => None | x :: l' => Some (foldl (fun m v => if is_gt (scalar_cmp m v) then v else m) x l') end.

Definition num_or_zero (v : option Scalar) : f64 := default f64_zero (v ≫= scalar_num).

Definition round_fn (vals : list Scalar) : Scalar :=
  let n := num_or_zero (head vals) in
  let digits := Z.max (- 2 ^ 31) (Z.min (2 ^ 31 - 1) (f64_to_i64 (num_or_zero (vals !! 1%nat)))) in
  let mul := powi10 digits in
  let rounded := f64_div (f64_round (f64_mul n mul)) mul in
  if digits <=? 0 then ScInt (f64_to_i64 rounded) else ScFloat rounded.

Definition nonnull (vals : list Scalar) : list Scalar := List.filter (fun v => negb (is_null v)) vals.

Definition length_fn (vals : list Scalar) : Scalar :=
  match vals with [] | ScNull :: _ => ScNull | v :: _ => ScInt (zlen (chars (text_of v))) end.
Definition nullif_fn (vals : list Scalar) : Scalar :=
  match vals with
  | [a; b] => if is_eq (scalar_cmp a b) then ScNull else a
  | a :: _ => a
  | [] => ScNull
  end.
Definition abs_fn (vals : list Scalar) : pg Scalar :=
  match vals with
  | ScInt i :: _ => pok (ScInt (wrap_i64 (Z.abs i)))
  | ScFloat f :: _ => pok (ScFloat (f64_abs f))
  | [] | ScNull :: _ => pok ScNull
  | v :: _ => perr (bs "abs() requires a number, got Some(" ++ debug_scalar v ++ [41])
  end.

Definition PG_VERSION : Bytes := bs "PostgreSQL 16.4 (Voltra)".

Definition one_of (names : list string) (name : Bytes) : bool := existsb (fun n => beq name (bs n)) names.

Definition scalar_function (name : Bytes) (vals : list Scalar) : run Scalar :=
  let text0 := text_of (default ScNull (head vals)) in
  if beq name (bs "LOWER") then ret (ScText (to_lowercase text0))
  else if beq name (bs "UPPER") then ret (ScText (to_uppercase text0))
  else if one_of ["LENGTH"; "CHAR_LENGTH"; "CHARACTER_LENGTH"]%string name then ret (length_fn vals)
  else if beq name (bs "CONCAT") then ret (ScText (concat (map text_of vals)))
  else if beq name (bs "COALESCE") then ret (default ScNull (head (nonnull vals)))
  else if beq name (bs "NULLIF") then ret (nullif_fn vals)
  else if beq name (bs "GREATEST") then ret (default ScNull (max_by (nonnull vals)))
  else if beq name (bs "LEAST") then ret (default ScNull (min_by (nonnull vals)))
  else if beq name (bs "ABS") then Done (abs_fn vals)
  else if beq name (bs "ROUND") then ret (round_fn vals)
  else if beq name (bs "FLOOR") then ret (ScInt (f64_to_i64 (f64_floor (num_or_zero (head vals)))))
  else if one_of ["CEIL"; "CEILING"]%string name then ret (ScInt (f64_to_i64 (f64_ceil (num_or_zero (head vals)))))
  else if beq name (bs "RANDOM") then let& ms := ask RClock in ret (ScFloat (random_of ms))
  else if one_of ["NOW"; "CURRENT_TIMESTAMP"]%string name then let& ms := ask RClock in ret (ScText (format_epoch (ms / 1000)))
  else if beq name (bs "VERSION") then ret (ScText PG_VERSION)
  else if one_of ["CURRENT_DATABASE"; "CURRENT_CATALOG"]%string name then ret (ScText (bs "voltra"))
  else if beq name (bs "CURRENT_SCHEMA") then ret (ScText (bs "public"))
  else if one_of ["CURRENT_USER"; "SESSION_USER"; "USER"]%string name then ret (ScText (bs "voltra"))
  else if beq name (bs "PG_BACKEND_PID") then let& p := ask RPid in ret (ScInt p)
  else fail (bs "function " ++ name ++ bs "() is not supported").

Definition eval_function (ctx : RowCtx) (group : option (list RowCtx)) (fname : ObjectName) (fargs : list (FunctionArg Den)) : run Scalar :=
  let name := to_uppercase (object_name_str fname) in
  let args := arg_exprs fargs in
  if is_aggregate name then aggregate name args (has_wildcard fargs) (default [ctx] group)
  else let& vals := rmap (fun d => den_eval d ctx group) args in scalar_function name vals.

(** ** Expressions *)

Definition strip_dollars (p : Bytes) : Bytes := trim_loop [[36]] (length p) p.

Definition literal (params : list Scalar) (v : Literal) : pg Scalar :=
  match v with
  | VNumber n =>
      match parse_i64_str n with
      | Some i => pok (ScInt i)
      | None => match parse_float n with Some f => pok (ScFloat f) | None => perr (bs "invalid number literal: " ++ n) end
      end
  | VString s => pok (ScText s)
  | VBoolean b => pok (ScBool b)
  | VNull => pok ScNull
  | VPlaceholder p =>
      match parse_u64_str (strip_dollars p) with
      | None => perr (bs "invalid parameter reference: " ++ p)
      | Some idx =>
          let i := Z.max 0 (idx - 1) in
          match (if i <? zlen params then params !! Z.to_nat i else None) with
          | Some s => pok s
          | None => perr (bs "parameter " ++ p ++ bs " not bound")
          end
      end
  | VOther t => perr (bs "literal not supported: " ++ t)
  end.

Definition lookup_column (ctx : RowCtx) (key : Bytes) : run Scalar :=
  match ctx !! key with
  | Some v => ret v
  | None => fail (bs "column " ++ [34] ++ key ++ [34] ++ bs " does not exist")
  end.

Definition as_bool (p : Scalar -> bool) (m : run Scalar) : run Scalar := let& v := m in ret (ScBool (p v)).

Definition unary (op : UnaryOperator) (v : Scalar) : pg Scalar :=
  match op with
  | UnNot => pok (ScBool (negb (truthy v)))
  | UnMinus => negate v
  | UnPlus => pok v
  | UnOther t => perr (bs "unary operator not supported: " ++ t)
  end.

(** AND and OR look at their right side only when the left one leaves them open. *)
Definition binary (op : BinaryOperator) (l r : run Scalar) : run Scalar :=
  match op with
  | OpAnd => let& a := l in if negb (truthy a) then ret (ScBool false) else as_bool truthy r
  | OpOr => let& a := l in if truthy a then ret (ScBool true) else as_bool truthy r
  | _ => let& a := l in let& b := r in Done (binop op a b)
  end.

Definition same (v iv : Scalar) : bool := is_eq (scalar_cmp v iv) && negb (is_null v).

Fixpoint in_list (v : Scalar) (items : list (run Scalar)) : run bool :=
  match items with
  | [] => ret false
  | m :: l => let& iv := m in if same v iv then ret true else in_list v l
  end.

Fixpoint case_loop (base : option Scalar) (arms : list (run Scalar * run Scalar)) (els : option (run Scalar)) : run Scalar :=
  match arms with
  | [] => match els with Some m => m | None => ret ScNull end
  | (cond, res) :: l =>
      let& c := cond in
      if (match base with Some b => is_eq (scalar_cmp b c) | None => truthy c end) then res else case_loop base l els
  end.

Definition opt_run (m : option (run Scalar)) : run (option Scalar) :=
  match m with Some m => let& v := m in ret (Some v) | None => ret None end.

Definition substring (s : Bytes) (from_ for_ : option Scalar) : Bytes :=
  let cs := chars s in
  let start := match from_ with Some (ScInt i) => Z.max i 1 - 1 | _ => 0 end in
  let rest := drop (Z.to_nat (Z.min start (zlen cs))) cs in
  concat (match for_ with Some (ScInt i) => take (Z.to_nat (Z.min (Z.max i 0) (zlen rest))) rest | _ => rest end).

Definition like_run (ci negated : bool) (e pattern : run Scalar) : run Scalar :=
  let& v := e in let& p := pattern in ret (ScBool (negb (eqb (like_match (text_of v) (text_of p) ci) negated))).

Section Env.
Context (env : QueryEnv).

Fixpoint eval (e : Expr) (ctx : RowCtx) (group : option (list RowCtx)) {struct e} : run Scalar :=
  let den e := {| den_syntax := e; den_eval := eval e |} in
  let query q := run_query (qe_sess env) (query_map den q) in
  match e with
  | ExIdentifier id => lookup_column ctx (to_lowercase id)
  | ExCompound parts => lookup_column ctx (join_dots (map to_lowercase parts))
  | ExValue v => Done (literal (qe_params env) v)
  | ExNested e => eval e ctx group
  | ExUnary op e => let& v := eval e ctx group in Done (unary op v)
  | ExBinary l op r => binary op (eval l ctx group) (eval r ctx group)
  | ExIsNull e => as_bool is_null (eval e ctx group)
  | ExIsNotNull e => as_bool (fun v => negb (is_null v)) (eval e ctx group)
  | ExIsTrue e | ExIsNotFalse e => as_bool truthy (eval e ctx group)
  | ExIsFalse e | ExIsNotTrue e => as_bool (fun v => negb (truthy v)) (eval e ctx group)
  | ExInList e l negated =>
      let& v := eval e ctx group in
      let& found := in_list v (map (fun i => eval i ctx group) l) in ret (ScBool (negb (eqb found negated)))
  | ExInSubquery e q negated =>
      let& v := eval e ctx group in
      let& rs := query q in
      ret (ScBool (negb (eqb (existsb (fun r => match r with x :: _ => same v x | [] => false end) (ro_rows rs)) negated)))
  | ExSubquery q => let& rs := query q in ret (match ro_rows rs with (v :: _) :: _ => v | _ => ScNull end)
  | ExExists q negated => let& rs := query q in ret (ScBool (eqb (match ro_rows rs with [] => true | _ => false end) negated))
  | ExBetween e negated low high =>
      let& v := eval e ctx group in
      let& lo := eval low ctx group in
      let& hi := eval high ctx group in
      ret (ScBool (negb (eqb (negb (is_lt (scalar_cmp v lo)) && negb (is_gt (scalar_cmp v hi)) && negb (is_null v)) negated)))
  | ExLike negated e p => like_run false negated (eval e ctx group) (eval p ctx group)
  | ExILike negated e p => like_run true negated (eval e ctx group) (eval p ctx group)
  | ExCast e dt => let& v := eval e ctx group in ret (coerce (from_sql dt) v)
  | ExCase operand conds results els =>
      let& base := opt_run (option_map (fun o => eval o ctx group) operand) in
      case_loop base (combine (map (fun c => eval c ctx group) conds) (map (fun r => eval r ctx group) results))
        (option_map (fun e => eval e ctx group) els)
  | ExSubstring e from_ for_ =>
      let& v := eval e ctx group in
      let& f := opt_run (option_map (fun e => eval e ctx group) from_) in
      let& n := opt_run (option_map (fun e => eval e ctx group) for_) in
      ret (ScText (substring (text_of v) f n))
  | ExTrim e => let& v := eval e ctx group in ret (ScText (trim (text_of v)))
  | ExFunction name args => eval_function ctx group name (map (arg_map den) args)
  | ExTuple [e] => eval e ctx group
  | ExTuple _ | ExOther _ => fail (bs "expression not supported: " ++ show_expr e)
  end.

Definition den_of (e : Expr) : Den := {| den_syntax := e; den_eval := eval e |}.
Definition query_of (q : Query Expr) : run RowsOut := run_query (qe_sess env) (query_map den_of q).
End Env.
End Eval.
