(* ===== verification/PgEngine.v ===== *)
(** * PostgreSQL statements (src/pg/executor.rs, src/pg/catalog.rs)

    Statements as trees of requests, sessions with their open transaction, and the engine that
    answers: the store of Isolation, the catalogue, the rowid counters. A commit is one turn of
    the sequencer. The parser is library code, and so is the JSON of a table definition. *)

From S2P Require Import Prelude Errors Util Mvcc Isolation SqlValue PgValue PgQuery.

(** ** Syntax of statements *)

Inductive ColumnOption : Type := CoNotNull | CoUnique (is_primary : bool) | CoOther.
Record ColumnSpec := { cs_name : Ident; cs_type : DataType; cs_options : list ColumnOption }.
Record Assignment := { as_id : list Ident; as_value : Expr }.

Inductive Statement : Type :=
| StQuery (q : Query Expr)
| StInsert (table : ObjectName) (columns : list Ident) (source : option (Query Expr)) (returning : option (list (SelectItem Expr)))
| StUpdate (table : TableFactor) (assignments : list Assignment) (selection : option Expr) (returning : option (list (SelectItem Expr)))
| StDelete (from : list TableFactor) (selection : option Expr) (returning : option (list (SelectItem Expr)))
| StCreateTable (name : ObjectName) (columns : list ColumnSpec) (if_not_exists : bool)
| StDrop (is_table : bool) (object_type : Bytes) (names : list ObjectName) (if_exists : bool)
| StTruncate (table : ObjectName)
| StStart | StCommit | StRollback | StSet
| StShow (variable : list Ident)
| StCreateIndex
| StOther (text : Bytes).

Class SqlParser := { parse_sql : Bytes -> result Bytes (list Statement) }.
Class CatCodec := { def_to_vec : TableDef -> result Bytes Bytes; def_from_slice : Bytes -> option TableDef }.

Inductive ExecOut : Type :=
| OutRows (cols : list (Bytes * Z)) (rows : list (list Scalar)) (tag : Bytes)
| OutTag (tag : Bytes).

Definition NS_PG_CATALOG : Z := 64.
Definition NS_PG_BASE : Z := 65.

Definition commit_error_text (e : CommitError) : Bytes :=
  match e with Conflict => bs "serialization failure: concurrent update" | Closed => bs "store closed" end.

Section Statements.
Context `{Lowercase} `{SqlLib} `{Debug} `{ShowExpr} `{SqlParser} `{CatCodec}.

Definition quoted (s : Bytes) : Bytes := [34] ++ s ++ [34].
Definition not_serializable : Bytes := bs "could not serialize access due to concurrent update: ".

Definition commit (prefix : Bytes) (r : CommitRequest) : run unit :=
  let& a := ask (RCommit r) in
  match a with Ok _ => ret tt | Err e => fail (prefix ++ commit_error_text e) end.

(** Commits outside a transaction take the current timestamp as they go. *)
Definition commit_now (prefix : Bytes) (ws : list WriteOp) (keys : list NsKey) : run unit :=
  let& ts := ask RCurrentTs in commit prefix {| read_ts := ts; writes := ws; conflict_keys := keys |}.

(** ** Staging writes *)

Definition overlay_op (o : gmap NsKey (option Row)) (w : WriteOp) : gmap NsKey (option Row) :=
  match w with
  | Put ns key (DRow r) _ => <[(ns, key) := Some r]> o
  | Put ns key _ _ => <[(ns, key) := None]> o
  | Del ns key => <[(ns, key) := None]> o
  end.

Definition stage_writes (t : Txn) (ws : list WriteOp) (keys : list NsKey) : Txn :=
  {| t_snap := t_snap t; t_overlay := foldl overlay_op (t_overlay t) ws; t_writes := t_writes t ++ ws;
     t_conflict := t_conflict t ++ keys; t_aborted := t_aborted t |}.

Definition apply_writes (sess : Session) (ws : list WriteOp) (keys : list NsKey) : run Session :=
  match ws with
  | [] => ret sess
  | _ =>
      match sess with
      | Some t => ret (Some (stage_writes t ws keys))
      | None => let& _ := commit_now not_serializable ws keys in ret None
      end
  end.

(** ** RETURNING *)

Section Env.
Context (sess : Session) (params : list Scalar).
Let env : QueryEnv := {| qe_sess := sess; qe_params := params |}.

Definition eval_in (ctx : RowCtx) (e : Expr) : run Scalar := eval env e ctx None.

Definition returning_item (d : TableDef) (row : Row) (ctx : RowCtx) (i : SelectItem Expr) : run (list ((Bytes * Z) * Scalar)) :=
  match i with
  | Wildcard => ret (map (fun c => ((cd_name c, oid (cd_ctype c)), cell row (cd_name c))) (td_columns d))
  | UnnamedExpr e => let& v := eval_in ctx e in ret [((expr_label e, scalar_oid v), v)]
  | ExprWithAlias e a => let& v := eval_in ctx e in ret [((a, scalar_oid v), v)]
  | QualifiedWildcard _ => fail (bs "qualified wildcard in RETURNING is not supported")
  end.

Definition returning_header (d : TableDef) (i : SelectItem Expr) : list (Bytes * Z) :=
  match i with
  | Wildcard => map (fun c => (cd_name c, oid (cd_ctype c))) (td_columns d)
  | UnnamedExpr e => [(expr_label e, OID_TEXT)]
  | ExprWithAlias _ a => [(a, OID_TEXT)]
  | QualifiedWildcard _ => []
  end.

Definition project_returning (d : TableDef) (rows : list (Z * Row)) (returning : option (list (SelectItem Expr))) : run (option RowsOut) :=
  match returning with
  | None => ret None
  | Some items =>
      let& outs := rmap (fun r : Z * Row => let ctx := row_ctx (td_name d) r.2 in
                           let& vs := rmap (returning_item d r.2 ctx) items in ret (concat vs)) rows in
      ret (Some {| ro_cols := match outs with o :: _ => map fst o | [] => concat (map (returning_header d) items) end;
                   ro_rows := map (map snd) outs |})
  end.

Definition dml_out (tag : Bytes) (returning : option RowsOut) : ExecOut :=
  match returning with Some r => OutRows (ro_cols r) (ro_rows r) tag | None => OutTag tag end.

(** ** INSERT *)

Definition no_column (d : TableDef) (c : Bytes) : Bytes :=
  bs "column " ++ quoted c ++ bs " of relation " ++ quoted (td_name d) ++ bs " does not exist".

Definition source_rows (q : Query Expr) : run (list (list Scalar)) :=
  match q_body q with
  | SeValues rows => rmap (rmap (eval_in ∅)) rows
  | _ => let& r := query_of env q in ret (ro_rows r)
  end.

Definition null_violation (d : TableDef) (c : ColumnDef) : Bytes :=
  bs "null value in column " ++ quoted (cd_name c) ++ bs " of relation " ++ quoted (td_name d) ++ bs " violates not-null constraint".

(** One column of a new row. [vr[i]] is in range once the lengths agree. *)
Definition insert_column (d : TableDef) (targets : list Bytes) (vr : list Scalar) (row : Row) (c : ColumnDef) : result Bytes Row :=
  let v := match position (beq (cd_name c)) targets with Some i => coerce (cd_ctype c) (nth i vr ScNull) | None => ScNull end in
  if is_null v && cd_not_null c && negb (cd_serial c) then Err (null_violation d c) else Ok (<[cd_name c := v]> row).

Definition new_row (d : TableDef) (targets : list Bytes) (vr : list Scalar) : result Bytes Row :=
  foldl (fun r c => match r with Ok row => insert_column d targets vr row c | Err e => Err e end) (Ok ∅) (td_columns d).

Definition fill_serial (rowid : Z) (row : Row) (c : ColumnDef) : Row :=
  if cd_serial c && is_null (cell row (cd_name c)) then <[cd_name c := ScInt (wrap_i64 rowid)]> row else row.

Definition put_row (d : TableDef) (rr : Z * Row) : WriteOp := Put (td_ns d) (rowid_key rr.1) (DRow rr.2) None.
Definition row_nskey (d : TableDef) (rr : Z * Row) : NsKey := (td_ns d, rowid_key rr.1).

Definition insert_row (d : TableDef) (targets : list Bytes) (vr : list Scalar) : run (Z * Row) :=
  if negb (length vr =? length targets)%nat
  then fail (bs "INSERT has " ++ dec (zlen vr) ++ bs " expressions but " ++ dec (zlen targets) ++ bs " target columns")
  else
    let& row := Done (Some (new_row d targets vr)) in
    let& rowid := ask (RAllocRowid (td_ns d)) in
    ret (rowid, foldl (fill_serial rowid) row (td_columns d)).

Definition exec_insert (table : ObjectName) (columns : list Ident) (source : option (Query Expr)) (returning : option (list (SelectItem Expr)))
  : run (ExecOut * Session) :=
  let& d := resolve_def table in
  let targets := match columns with [] => map cd_name (td_columns d) | _ => map to_lowercase columns end in
  match List.find (fun c => match column d c with None => true | Some _ => false end) targets, source with
  | Some c, _ => fail (no_column d c)
  | None, None => fail (bs "INSERT requires a VALUES clause or query")
  | None, Some q =>
      let& vrs := source_rows q in
      let& inserted := rmap (insert_row d targets) vrs in
      let& out := project_returning d inserted returning in
      let& sess' := apply_writes sess (map (put_row d) inserted) (map (row_nskey d) inserted) in
      ret (dml_out (bs "INSERT 0 " ++ dec (zlen inserted)) out, sess')
  end.

(** ** UPDATE, DELETE, TRUNCATE *)

Definition selected (d : TableDef) (selection : option Expr) (row : Row) : run bool :=
  match selection with Some p => let& v := eval_in (row_ctx (td_name d) row) p in ret (truthy v) | None => ret true end.

Definition assignment_col (a : Assignment) : run Bytes :=
  match List.last (map (fun i => Some (to_lowercase i)) (as_id a)) None with
  | Some c => ret c
  | None => fail (bs "empty assignment target")
  end.

Definition assign (d : TableDef) (ctx : RowCtx) (row : Row) (a : Assignment) : run Row :=
  let& name := assignment_col a in
  match column d name with
  | None => fail (no_column d name)
  | Some c =>
      let& v := eval_in ctx (as_value a) in
      let v := coerce (cd_ctype c) v in
      if is_null v && cd_not_null c
      then fail (bs "null value in column " ++ quoted (cd_name c) ++ bs " violates not-null constraint")
      else ret (<[cd_name c := v]> row)
  end.

Definition update_row (d : TableDef) (assignments : list Assignment) (selection : option Expr) (rr : Z * Row) : run (option (Z * Row)) :=
  let& keep := selected d selection rr.2 in
  if keep then let& row := rfold (assign d (row_ctx (td_name d) rr.2)) assignments rr.2 in ret (Some (rr.1, row)) else ret None.

Definition exec_update (table : TableFactor) (assignments : list Assignment) (selection : option Expr) (returning : option (list (SelectItem Expr)))
  : run (ExecOut * Session) :=
  match table with
  | TfOther => fail (bs "UPDATE target must be a plain table")
  | TfTable name _ =>
      let& d := resolve_def name in
      let& rows := scan sess d in
      let& updated := rmap (update_row d assignments selection) rows in
      let updated := omap id updated in
      let& out := project_returning d updated returning in
      let& sess' := apply_writes sess (map (put_row d) updated) (map (row_nskey d) updated) in
      ret (dml_out (bs "UPDATE " ++ dec (zlen updated)) out, sess')
  end.

Definition del_row (d : TableDef) (rr : Z * Row) : WriteOp := Del (td_ns d) (rowid_key rr.1).

Definition exec_delete (from : list TableFactor) (selection : option Expr) (returning : option (list (SelectItem Expr)))
  : run (ExecOut * Session) :=
  match from with
  | [] => fail (bs "DELETE requires a table")
  | TfOther :: _ => fail (bs "DELETE target must be a plain table")
  | TfTable name _ :: _ =>
      let& d := resolve_def name in
      let& rows := scan sess d in
      let& deleted := rfilter (fun rr : Z * Row => selected d selection rr.2) rows in
      let& out := project_returning d deleted returning in
      let& sess' := apply_writes sess (map (del_row d) deleted) (map (row_nskey d) deleted) in
      ret (dml_out (bs "DELETE " ++ dec (zlen deleted)) out, sess')
  end.

Definition exec_truncate (table : ObjectName) : run (ExecOut * Session) :=
  let& d := resolve_def table in
  let& ts := snapshot_ts sess in
  let& found := for_each_visible (td_ns d) ts in
  let& sess' := apply_writes sess (map (fun kd : Bytes * Datum => Del (td_ns d) kd.1) found) (map (fun kd : Bytes * Datum => (td_ns d, kd.1)) found) in
  ret (OutTag (bs "TRUNCATE TABLE"), sess').
End Env.

(** ** DDL: outside transactions, whatever the session *)

Definition is_serial (dt : DataType) : bool :=
  match dt with
  | DtCustom n => let s := object_name_str n in eq_ignore_ascii_case s (bs "serial") || eq_ignore_ascii_case s (bs "bigserial")
  | _ => false
  end.

Definition column_of (c : ColumnSpec) : ColumnDef :=
  let serial := is_serial (cs_type c) in
  let pk := existsb (fun o => match o with CoUnique p => p | _ => false end) (cs_options c) in
  {| cd_name := to_lowercase (cs_name c);
     cd_ctype := if serial then ColInt else from_sql (cs_type c);
     cd_not_null := pk || existsb (fun o => match o with CoNotNull => true | _ => false end) (cs_options c);
     cd_primary_key := pk; cd_serial := serial |}.

(** [Catalog::create]: three accesses to the shared catalogue. *)
Definition catalog_create (name : Bytes) (cols : list ColumnDef) : run (TableDef * Bytes * Bytes) :=
  let lname := to_lowercase name in
  let& present := ask (RTable lname) in
  match present with
  | Some _ => fail (bs "relation " ++ quoted lname ++ bs " already exists")
  | None =>
      let& ns := ask RNextNs in
      let d := {| td_name := lname; td_ns := ns; td_columns := cols |} in
      match def_to_vec d with
      | Err e => fail (bs "catalog encode failed: " ++ e)
      | Ok blob => let& _ := ask (RInsertTable d) in ret (d, lname, blob)
      end
  end.

Definition exec_create_table (name : ObjectName) (columns : list ColumnSpec) (if_not_exists : bool) : run ExecOut :=
  let name := object_name_str name in
  let& present := (if if_not_exists then catalog_get name else ret None) in
  match present with
  | Some _ => ret (OutTag (bs "CREATE TABLE"))
  | None =>
      let& r := catalog_create name (map column_of columns) in
      let '(_, key, blob) := r in
      let& _ := commit_now (bs "catalog write failed: ") [Put NS_PG_CATALOG key (DStr blob) None] [(NS_PG_CATALOG, key)] in
      ret (OutTag (bs "CREATE TABLE"))
  end.

Definition drop_one (if_exists : bool) (n : ObjectName) : run unit :=
  let name := object_name_str n in
  let& d := ask (RRemoveTable (to_lowercase name)) in
  match d with
  | None => if if_exists then ret tt else fail (bs "table " ++ quoted name ++ bs " does not exist")
  | Some d =>
      let& ts := ask RCurrentTs in
      let& found := for_each_visible (td_ns d) ts in
      commit (bs "drop failed: ")
        {| read_ts := ts; writes := Del NS_PG_CATALOG name :: map (fun kd : Bytes * Datum => Del (td_ns d) kd.1) found; conflict_keys := [] |}
  end.

Definition exec_drop (names : list ObjectName) (if_exists : bool) : run ExecOut :=
  let& _ := rmap (drop_one if_exists) names in ret (OutTag (bs "DROP TABLE")).

(** ** Transactions *)

Definition begin_txn (sess : Session) : run (ExecOut * Session) :=
  match sess with
  | Some _ => ret (OutTag (bs "BEGIN"), sess)
  | None =>
      let& ts := ask RCurrentTs in
      let& _ := ask (RRegister ts) in
      ret (OutTag (bs "BEGIN"), Some {| t_snap := ts; t_overlay := ∅; t_writes := []; t_conflict := []; t_aborted := false |})
  end.

(** Dropping a transaction gives its snapshot back. *)
Definition drop_txn (sess : Session) : run unit := match sess with Some t => ask (RUnpin (t_snap t)) | None => ret tt end.

Definition commit_txn (sess : Session) : run (result Bytes ExecOut * Session) :=
  match sess with
  | None => ret (Ok (OutTag (bs "COMMIT")), None)
  | Some t =>
      let& out := (if t_aborted t then ret (Ok (OutTag (bs "ROLLBACK")))
                   else match t_writes t with
                        | [] => ret (Ok (OutTag (bs "COMMIT")))
                        | ws =>
                            let& r := catch (commit not_serializable {| read_ts := t_snap t; writes := ws; conflict_keys := t_conflict t |}) in
                            ret (match r with Ok _ => Ok (OutTag (bs "COMMIT")) | Err e => Err e end)
                        end) in
      let& _ := drop_txn sess in ret (out, None)
  end.

Definition show_variable (variable : list Ident) : ExecOut :=
  let name := to_lowercase (join_dots variable) in
  let value :=
    if beq name (bs "server_version") then bs "16.4"
    else if one_of ["server_encoding"; "client_encoding"]%string name then bs "UTF8"
    else if one_of ["transaction_isolation"; "transaction isolation level"]%string name then bs "repeatable read"
    else [] in
  OutRows [(name, OID_TEXT)] [[ScText value]] (bs "SHOW").

(** ** Statements *)

(** An error leaves the session as it was. *)
Definition keeping (sess : Session) (m : run (ExecOut * Session)) : run (result Bytes ExecOut * Session) :=
  let& r := catch m in ret (match r with Ok (o, s) => (Ok o, s) | Err e => (Err e, sess) end).
Definition with_sess (sess : Session) (m : run ExecOut) : run (result Bytes ExecOut * Session) :=
  keeping sess (let& o := m in ret (o, sess)).

Definition select_out (rs : RowsOut) : ExecOut := OutRows (ro_cols rs) (ro_rows rs) (bs "SELECT " ++ dec (zlen (ro_rows rs))).

Definition exec_stmt (sess : Session) (params : list Scalar) (s : Statement) : run (result Bytes ExecOut * Session) :=
  match s with
  | StQuery q => with_sess sess (let& rs := query_of {| qe_sess := sess; qe_params := params |} q in ret (select_out rs))
  | StInsert table columns source returning => keeping sess (exec_insert sess params table columns source returning)
  | StUpdate table assignments selection returning => keeping sess (exec_update sess params table assignments selection returning)
  | StDelete from selection returning => keeping sess (exec_delete sess params from selection returning)
  | StCreateTable name columns if_not_exists => with_sess sess (exec_create_table name columns if_not_exists)
  | StDrop is_table object_type names if_exists =>
      with_sess sess (if is_table then exec_drop names if_exists else fail (bs "DROP " ++ object_type ++ bs " is not supported"))
  | StTruncate table => keeping sess (exec_truncate sess table)
  | StStart => keeping sess (begin_txn sess)
  | StCommit => commit_txn sess
  | StRollback => let& _ := drop_txn sess in ret (Ok (OutTag (bs "ROLLBACK")), None)
  | StSet => ret (Ok (OutTag (bs "SET")), sess)
  | StShow variable => ret (Ok (show_variable variable), sess)
  | StCreateIndex => ret (Ok (OutTag (bs "CREATE INDEX")), sess)
  | StOther t => ret (Err (bs "statement not supported: " ++ t), sess)
  end.

Definition aborted (sess : Session) : bool := match sess with Some t => t_aborted t | None => false end.
Definition ends_txn (s : Statement) : bool := match s with StCommit | StRollback => true | _ => false end.
Definition abort (sess : Session) : Session :=
  (fun t => {| t_snap := t_snap t; t_overlay := t_overlay t; t_writes := t_writes t; t_conflict := t_conflict t; t_aborted := true |}) <$> sess.

Definition txn_aborted : Bytes := bs "current transaction is aborted, commands ignored until end of transaction block".

Fixpoint exec_all (sess : Session) (params : list Scalar) (stmts : list Statement) (out : list ExecOut)
  : run (result Bytes (list ExecOut) * Session) :=
  match stmts with
  | [] => ret (Ok out, sess)
  | s :: rest =>
      if aborted sess && negb (ends_txn s) then ret (Err txn_aborted, sess)
      else
        let& r := exec_stmt sess params s in
        match r with
        | (Ok o, sess') => exec_all sess' params rest (out ++ [o])
        | (Err e, sess') => ret (Err e, abort sess')
        end
  end.

Definition execute (sess : Session) (sql : Bytes) (params : list Scalar) : run (result Bytes (list ExecOut) * Session) :=
  match parse_sql sql with
  | Err e => ret (Err (bs "syntax error: " ++ e), sess)
  | Ok stmts => exec_all sess params stmts []
  end.

(** ** The engine *)

Record Engine := {
  en_store : Sys; en_tables : gmap Bytes TableDef; en_next_ns : Z; en_rowids : gmap Z Z }.

Definition set_store (s : Sys) (e : Engine) : Engine :=
  {| en_store := s; en_tables := en_tables e; en_next_ns := en_next_ns e; en_rowids := en_rowids e |}.
Definition set_tables t (e : Engine) : Engine :=
  {| en_store := en_store e; en_tables := t; en_next_ns := en_next_ns e; en_rowids := en_rowids e |}.
Definition inner (e : Engine) : Inner := s_inner (en_store e).
Definition with_inner (i : Inner) (s : Sys) : Sys :=
  {| s_inner := i; s_floor := s_floor s; s_ops := s_ops s; s_gc := s_gc s |}.

Definition keys_of (ns : Z) (i : Inner) : list Bytes :=
  map (fun kv : NsKey * Chain => kv.1.2) (List.filter (fun kv : NsKey * Chain => kv.1.1 =? ns) (map_to_list (chains i))).

(** The sequencer takes a request when it is between batches. *)
Definition serve_commit (r : CommitRequest) (e : Engine) : option (result CommitError Z * Engine) :=
  match s_floor (en_store e), s_ops (en_store e) with
  | Some m, None =>
      let '(a, i, _) := seq_commit (inner e) m r in Some (a, set_store (with_inner i (en_store e)) e)
  | _, _ => None
  end.

(** One request. What the clock and the process answer is taken from a list. A snapshot is
    registered at a timestamp [last_commit] has had: the one a session loaded before it asks
    (PgFacts.register_never_sticks: it never waits for this). *)
Definition serve (q : req) (e : Engine) : option (ans q * Engine) :=
  match q return option (ans q * Engine) with
  | RClock | RPid => None
  | RCurrentTs => Some (current_ts (inner e), e)
  | RKeys ns => Some (keys_of ns (inner e), e)
  | RChain nk => Some (chains (inner e) !! nk, e)
  | RTable name => Some (en_tables e !! name, e)
  | RTables => Some (map snd (map_to_list (en_tables e)), e)
  | RNextNs =>
      Some (en_next_ns e, {| en_store := en_store e; en_tables := en_tables e; en_next_ns := wrap_u32 (en_next_ns e + 1); en_rowids := en_rowids e |})
  | RInsertTable d =>
      Some (tt, {| en_store := en_store e; en_tables := <[td_name d := d]> (en_tables e); en_next_ns := en_next_ns e;
                   en_rowids := <[td_ns d := 1]> (en_rowids e) |})
  | RRemoveTable name => Some (en_tables e !! name, set_tables (delete name (en_tables e)) e)
  | RAllocRowid ns =>
      let r := default 1 (en_rowids e !! ns) in
      Some (r, {| en_store := en_store e; en_tables := en_tables e; en_next_ns := en_next_ns e; en_rowids := <[ns := wrap_u64 (r + 1)]> (en_rowids e) |})
  | RRegister ts => if ts <=? last_commit (inner e) then Some (tt, set_store (with_inner (pin_insert (inner e) ts) (en_store e)) e) else None
  | RUnpin ts => Some (tt, set_store (with_inner (snapshot_drop (inner e) ts) (en_store e)) e)
  | RCommit r => serve_commit r e
  end.

Definition keep_obs {A} (obs : list Z) (r : option (A * Engine)) : option (A * list Z * Engine) :=
  match r with Some (a, e) => Some (a, obs, e) | None => None end.
Definition observe (obs : list Z) (q : req) (e : Engine) : option (ans q * list Z * Engine) :=
  match q return option (ans q * list Z * Engine) with
  | RClock | RPid => match obs with o :: obs' => Some (o, obs', e) | [] => None end
  | q => keep_obs obs (serve q e)
  end.

(** A run with nobody in between; it leaves the observations it did not need. *)
Fixpoint alone {A} (obs : list Z) (m : run A) (e : Engine) : option (pg A * list Z * Engine) :=
  match m with
  | Done r => Some (r, obs, e)
  | Ask q k => match observe obs q e with Some (a, obs', e') => alone obs' (k a) e' | None => None end
  end.

(** ** Connections, request by request *)

Record PgConn := { pc_sess : Session; pc_prog : option (run (result Bytes (list ExecOut) * Session)) }.
Definition idle (sess : Session) : PgConn := {| pc_sess := sess; pc_prog := None |}.
Record PgSystem := { ps_engine : Engine; ps_conns : list PgConn }.

(** What others do in the store puts nothing under the keys of the tables. *)
Definition keeps_tables (i i' : Inner) : Prop := forall nk c',
  NS_PG_CATALOG <= nk.1 -> chains i' !! nk = Some c' -> exists c, chains i !! nk = Some c /\ c' ⊆ c.

(** A panic ends its connection; what snapshot it held is given back by a step of the store.
    Namespaces are those of the first 2^32 tables. *)
Inductive pg_step : PgSystem -> PgSystem -> Prop :=
| pg_connect e cs : pg_step {| ps_engine := e; ps_conns := cs |} {| ps_engine := e; ps_conns := cs ++ [idle None] |}
| pg_call e cs i sess sql params :
    cs !! i = Some (idle sess) ->
    pg_step {| ps_engine := e; ps_conns := cs |}
      {| ps_engine := e; ps_conns := <[i := {| pc_sess := sess; pc_prog := Some (execute sess sql params) |}]> cs |}
| pg_ask e cs i sess q k obs a obs' e' :
    cs !! i = Some {| pc_sess := sess; pc_prog := Some (Ask q k) |} ->
    observe obs q e = Some (a, obs', e') -> (q = RNextNs -> en_next_ns e + 1 < 2 ^ 32) ->
    pg_step {| ps_engine := e; ps_conns := cs |}
      {| ps_engine := e'; ps_conns := <[i := {| pc_sess := sess; pc_prog := Some (k a) |}]> cs |}
| pg_answer e cs i sess r sess' :
    cs !! i = Some {| pc_sess := sess; pc_prog := Some (Done (Some (Ok (r, sess')))) |} ->
    pg_step {| ps_engine := e; ps_conns := cs |} {| ps_engine := e; ps_conns := <[i := idle sess']> cs |}
| pg_close e cs i c :
    cs !! i = Some c -> pc_prog c = None \/ pc_prog c = Some (Done None) ->
    pg_step {| ps_engine := e; ps_conns := cs |} {| ps_engine := e; ps_conns := <[i := idle None]> cs |}
| pg_others e cs s' :
    step (en_store e) s' -> keeps_tables (inner e) (s_inner s') ->
    pg_step {| ps_engine := e; ps_conns := cs |} {| ps_engine := set_store s' e; ps_conns := cs |}.

(** ** Start-up: [Catalog::load] *)

Definition load_def (acc : gmap Bytes TableDef * Z) (kd : Bytes * Datum) : gmap Bytes TableDef * Z :=
  match kd.2 with
  | DStr raw =>
      match def_from_slice raw with
      | Some d => (<[td_name d := d]> acc.1, if acc.2 <=? td_ns d then wrap_u32 (td_ns d + 1) else acc.2)
      | None => acc
      end
  | _ => acc
  end.

Definition visible_in (i : Inner) (ns ts now : Z) : list (Bytes * Datum) :=
  omap (fun key => pair key <$> visible_datum (chains i !! (ns, key)) ts now) (keys_of ns i).

Definition max_rowid (rows : list (Bytes * Datum)) : Z :=
  foldl (fun m (kd : Bytes * Datum) => if (length kd.1 =? 8)%nat then Z.max m (of_be kd.1) else m) 0 rows.

Definition catalog_load (i : Inner) (now : Z) : gmap Bytes TableDef * Z * gmap Z Z :=
  let ts := current_ts i in
  let '(tables, next_ns) := foldl load_def (∅, NS_PG_BASE) (visible_in i NS_PG_CATALOG ts now) in
  let rowids := foldl (fun m (nd : Bytes * TableDef) =>
                  <[td_ns nd.2 := wrap_u64 (max_rowid (visible_in i (td_ns nd.2) ts now) + 1)]> m) ∅ (map_to_list tables) in
  (tables, next_ns, rowids).

Definition engine_new (i : Inner) (now : Z) : Engine :=
  let '(tables, next_ns, rowids) := catalog_load i now in
  {| en_store := sys_of i; en_tables := tables; en_next_ns := next_ns; en_rowids := rowids |}.
End Statements.
