(* ===== verification/PgFacts.v ===== *)
(** * PostgreSQL sessions: one snapshot, no lost update, no null where none may be

    What holds of every expression and query follows from what holds of the requests they make
    ([Reading]). With it: a transaction's queries answer as they would have when it began,
    whatever runs in between; and every row of every table keeps its not-null columns. *)

From S2P Require Import Prelude Errors Util Mvcc MvccFacts Isolation SqlValue PgValue PgQuery PgEngine.

#[local] Arguments rowid_key : simpl never.
#[local] Arguments of_be : simpl never.

(** ** The expressions of a query *)

Section Exprs.
Context {E : Type}.

Definition option_exprs (o : option E) : list E := match o with Some e => [e] | None => [] end.
Definition item_exprs (i : SelectItem E) : list E := match i with UnnamedExpr e | ExprWithAlias e _ => [e] | _ => [] end.
Definition constraint_exprs (c : JoinConstraint E) : list E := match c with JcOn e => [e] | _ => [] end.
Definition join_exprs (j : Join E) : list E :=
  match j_operator j with JInner c | JLeftOuter c => constraint_exprs c | JOther _ => [] end.
Definition twj_exprs (t : TableWithJoins E) : list E := concat (map join_exprs (tw_joins t)).
Definition select_exprs (s : Select E) : list E :=
  concat (map item_exprs (projection s)) ++ concat (map twj_exprs (from s)) ++ option_exprs (selection s)
  ++ default [] (group_by s) ++ option_exprs (having s).
Definition body_exprs (b : SetExpr E) : list E :=
  match b with SeSelect s => select_exprs s | SeValues rows => concat rows | SeOther _ => [] end.
Definition query_exprs (q : Query E) : list E :=
  body_exprs (q_body q) ++ map ob_expr (q_order_by q) ++ option_exprs (q_offset q) ++ option_exprs (q_limit q).
Definition call_exprs (args : list (FunctionArg E)) : list E :=
  concat (map (fun a => match a with FaExpr e => [e] | _ => [] end) args).
End Exprs.

Section Map.
Context {A B : Type} (f : A -> B).

Lemma concat_map_map {X Y} (g : X -> list A) (g' : Y -> list B) (h : X -> Y) l :
  (forall x, g' (h x) = map f (g x)) -> concat (map g' (map h l)) = map f (concat (map g l)).
Proof. intros Hg. induction l as [|x l IH]; cbn; [done|]. by rewrite Hg, IH, map_app. Qed.

Lemma option_exprs_map o : option_exprs (option_map f o) = map f (option_exprs o).
Proof. by destruct o. Qed.

Lemma select_exprs_map s : select_exprs (select_map f s) = map f (select_exprs s).
Proof.
  unfold select_exprs. cbn. rewrite !map_app, !option_exprs_map. f_equal; [|f_equal; [|f_equal; f_equal]].
  - apply concat_map_map. by intros [].
  - apply concat_map_map. intros [r js]. unfold twj_exprs. cbn. apply concat_map_map. intros [r' [c|c|t]]; cbn; [by destruct c|by destruct c|done].
  - by destruct (group_by s).
Qed.

Lemma query_exprs_map q : query_exprs (query_map f q) = map f (query_exprs q).
Proof.
  unfold query_exprs. cbn. rewrite !map_app, !option_exprs_map. f_equal; [|f_equal].
  - destruct (q_body q) as [s|rows|t]; cbn; [apply select_exprs_map| |done].
    induction rows as [|r rows IH]; cbn; [done|]. by rewrite IH, map_app.
  - rewrite !map_map. done.
Qed.

Lemma call_exprs_map args : call_exprs (map (arg_map f) args) = map f (call_exprs args).
Proof. apply concat_map_map. by intros []. Qed.
End Map.

(** ** Induction on expressions *)

Fixpoint expr_size (e : Expr) : nat :=
  match e with
  | ExIdentifier _ | ExCompound _ | ExValue _ | ExOther _ => 1
  | ExNested e | ExUnary _ e | ExIsNull e | ExIsNotNull e | ExIsTrue e | ExIsFalse e | ExIsNotTrue e | ExIsNotFalse e
  | ExCast e _ | ExTrim e => S (expr_size e)
  | ExBinary l _ r => S (expr_size l + expr_size r)
  | ExInList e l _ => S (expr_size e + list_sum (map expr_size l))
  | ExInSubquery e q _ => S (expr_size e + list_sum (query_exprs (query_map expr_size q)))
  | ExSubquery q | ExExists q _ => S (list_sum (query_exprs (query_map expr_size q)))
  | ExBetween e _ a b => S (expr_size e + expr_size a + expr_size b)
  | ExLike _ e p | ExILike _ e p => S (expr_size e + expr_size p)
  | ExCase o c r els =>
      S (list_sum (option_exprs (option_map expr_size o)) + list_sum (map expr_size c) + list_sum (map expr_size r)
         + list_sum (option_exprs (option_map expr_size els)))
  | ExSubstring e a b => S (expr_size e + list_sum (option_exprs (option_map expr_size a)) + list_sum (option_exprs (option_map expr_size b)))
  | ExFunction _ args => S (list_sum (call_exprs (map (arg_map expr_size) args)))
  | ExTuple items => S (list_sum (map expr_size items))
  end.

Lemma size_in e l : e ∈ l -> (expr_size e <= list_sum (map expr_size l))%nat.
Proof.
  induction 1 as [e l|e x l _ IH]; cbn; [apply Nat.le_add_r|]. etrans; [exact IH|]. rewrite Nat.add_comm. apply Nat.le_add_r.
Qed.

Lemma size_in_query e q : e ∈ query_exprs q -> (expr_size e <= list_sum (query_exprs (query_map expr_size q)))%nat.
Proof. rewrite query_exprs_map. apply size_in. Qed.

Lemma size_in_call e args : e ∈ call_exprs args -> (expr_size e <= list_sum (call_exprs (map (arg_map expr_size) args)))%nat.
Proof. rewrite call_exprs_map. apply size_in. Qed.

Lemma size_in_option e o : o = Some e -> (expr_size e <= list_sum (option_exprs (option_map expr_size o)))%nat.
Proof. intros ->. cbn. lia. Qed.

Lemma expr_strong_ind (P : Expr -> Prop) : (forall e, (forall e', (expr_size e' < expr_size e)%nat -> P e') -> P e) -> forall e, P e.
Proof. intros Hs e. remember (expr_size e) as n eqn:Hn. revert e Hn. induction n as [n IH] using lt_wf_ind. intros e ->. apply Hs. eauto. Qed.

(** ** What holds of requests holds of queries *)

(** A property of runs that the requests of a query have, in a session. *)
Class Reading `{Lowercase} (sess : Session) (P : forall A, run A -> Prop) : Prop := {
  rd_done A (r : pg A) : P A (Done r);
  rd_bind A B (m : run A) (f : A -> run B) : P A m -> (forall a, P B (f a)) -> P B (rbind m f);
  rd_clock : P Z (ask RClock);
  rd_pid : P Z (ask RPid);
  rd_table n : P _ (ask (RTable n));
  rd_tables : P _ (ask RTables);
  rd_scan d : P _ (scan sess d) }.

Section Reading.
Context `{Lowercase} `{SqlLib} `{Debug} `{ShowExpr}.
Context (sess : Session) (P : forall A, run A -> Prop) `{!Reading sess P}.
Arguments P {A} _.

Ltac rd := repeat first
  [ apply rd_done | apply rd_clock | apply rd_pid | apply rd_table | apply rd_tables | apply rd_scan
  | apply rd_bind; [|intros ?] | progress intros | assumption | case_match ].

Lemma rd_rmap {A B} (f : A -> run B) l : (forall a, a ∈ l -> P (f a)) -> P (rmap f l).
Proof. induction l as [|a l IH]; intros Hf; cbn; rd; [apply Hf; left|]. apply IH. intros. apply Hf. by right. Qed.

Lemma rd_rfold {A B} (f : B -> A -> run B) l : (forall a b, a ∈ l -> P (f b a)) -> forall b, P (rfold f l b).
Proof. induction l as [|a l IH]; intros Hf b; cbn; rd; [apply Hf; left|]. apply IH. intros. apply Hf. by right. Qed.

Lemma rd_rfilter {A} (p : A -> run bool) l : (forall a, P (p a)) -> P (rfilter p l).
Proof. intros Hf. induction l as [|a l IH]; cbn; rd. apply Hf. Qed.

(** What an expression means has the property everywhere. *)
Definition den_ok (d : Den) : Prop := forall ctx g, P (den_eval d ctx g).
Implicit Types (d : Den).

Lemma rd_catalog_list : P catalog_list.
Proof. unfold catalog_list. rd. Qed.

Lemma rd_resolve n : P (resolve_def n).
Proof. unfold resolve_def, catalog_get. rd. Qed.

Lemma rd_relation f : P (relation_rows sess f).
Proof.
  unfold relation_rows. destruct f as [name alias|]; [|rd]. apply rd_bind; [|intros [rs|]; rd; apply rd_resolve].
  unfold virtual_table. rd; apply rd_catalog_list.
Qed.

Lemma rd_holds d ctx g : den_ok d -> P (holds d ctx g).
Proof. intros Hd. unfold holds. rd. apply Hd. Qed.

Lemma rd_join rs j : Forall den_ok (join_exprs j) -> P (join_step sess rs j).
Proof.
  intros Hj. unfold join_step. apply rd_bind; [apply rd_relation|]. intros rhs.
  assert (Hrow : forall on left_outer l, match on with Some d => den_ok d | None => True end -> P (join_row on left_outer rhs l)).
  { intros on lo l Hon. unfold join_row. apply rd_bind; [|rd]. apply rd_rfilter. intros m. destruct on; [by apply rd_holds|rd]. }
  unfold join_exprs in Hj. destruct (j_operator j) as [c|c|t]; [| |rd];
    destruct c as [d| |]; try rd; apply rd_rmap; intros l _; apply Hrow; by inversion Hj.
Qed.

Lemma rd_from s : Forall den_ok (concat (map twj_exprs (from s))) -> P (resolve_from sess s).
Proof.
  intros Hf. unfold resolve_from. destruct (from s) as [|t [|]]; [rd| |rd]. apply rd_bind; [apply rd_relation|].
  cbn in Hf. rewrite app_nil_r in Hf. unfold twj_exprs in Hf. apply rd_rfold. intros j rs Hj. apply rd_join.
  rewrite Forall_concat in Hf. rewrite Forall_map in Hf. rewrite Forall_forall in Hf. by apply Hf.
Qed.

Lemma rd_item cols ctx i : Forall den_ok (item_exprs i) -> P (item_values cols ctx i).
Proof. intros Hi. destruct i; cbn in *; rd; inversion Hi; subst; auto. Qed.

Lemma rd_header cols items rows : Forall (fun i => Forall den_ok (item_exprs i)) items -> P (header_of cols items rows).
Proof.
  intros Hi. unfold header_of. destruct rows as [|[c r]]; [|rd]. apply rd_bind; [|rd]. apply rd_rmap.
  rewrite Forall_forall in Hi. intros i Hin. specialize (Hi i Hin). destruct i; cbn in *; rd; inversion Hi; subst; auto.
Qed.

Lemma rd_sort_key cols ctx out o : den_ok (ob_expr o) -> P (sort_key cols ctx out o).
Proof. intros Ho. unfold sort_key, out_cell. rd; apply Ho. Qed.

Lemma rd_sort_rows cols order rows : Forall den_ok (map ob_expr order) -> P (sort_rows cols order rows).
Proof.
  intros Ho. unfold sort_rows. destruct order as [|o order]; [rd|]. apply rd_bind; [|rd]. apply rd_rmap. intros r _.
  apply rd_bind; [|rd]. apply rd_rmap. intros o' Hin. apply rd_sort_key.
  rewrite Forall_map in Ho. rewrite Forall_forall in Ho. by apply Ho.
Qed.

Lemma rd_sort_output cols rows order : P (sort_output cols rows order).
Proof. unfold sort_output. apply rd_bind; [|rd]. apply rd_rmap. intros o _. unfold output_spec. rd. Qed.

Lemma rd_groups exprs rows : Forall den_ok exprs -> P (group_rows exprs rows).
Proof.
  intros He. unfold group_rows. apply rd_bind; [|rd]. apply rd_rfold. intros ctx gs _. apply rd_bind; [|rd].
  apply rd_rmap. rewrite Forall_forall in He. intros d Hd. by apply He.
Qed.

Lemma rd_group_item first rep rows acc i : Forall den_ok (item_exprs i) -> P (group_item first rep rows acc i).
Proof. intros Hi. destruct acc as [c o]. unfold group_item. destruct i; rd; inversion Hi; subst; auto. Qed.

Definition items_ok (items : list (SelectItem Den)) : Prop := Forall (fun i => Forall den_ok (item_exprs i)) items.

Lemma rd_group_step s acc g : items_ok (projection s) -> Forall den_ok (option_exprs (having s)) -> P (group_step s acc g).
Proof.
  intros Hi Hh. unfold group_step. destruct acc as [[first cols] outs]. apply rd_bind.
  - destruct (having s); [|rd]. apply rd_holds. by inversion Hh.
  - intros [|]; cbn; [|rd]. apply rd_bind; [|rd]. apply rd_rfold. intros i c Hin. apply rd_group_item.
    unfold items_ok in Hi. rewrite Forall_forall in Hi. by apply Hi.
Qed.

Lemma rd_rows q s base rows :
  items_ok (projection s) -> Forall den_ok (default [] (group_by s)) -> Forall den_ok (option_exprs (having s)) ->
  Forall den_ok (map ob_expr (q_order_by q)) ->
  P (grouped_rows s (q_order_by q) (default [] (group_by s)) rows) /\ P (plain_rows s (q_order_by q) base rows).
Proof.
  intros Hi Hg Hh Ho. split.
  - unfold grouped_rows. apply rd_bind; [by apply rd_groups|]. intros gs. apply rd_bind.
    { apply rd_rfold. intros g acc _. by apply rd_group_step. }
    intros r. apply rd_bind; [|rd]. destruct (q_order_by q); [rd|apply rd_sort_output].
  - unfold plain_rows. apply rd_bind.
    { apply rd_rmap. intros ctx _. unfold project_row. apply rd_bind; [|rd]. apply rd_rmap. intros i Hin. apply rd_item.
      unfold items_ok in Hi. rewrite Forall_forall in Hi. by apply Hi. }
    intros pr. apply rd_bind; [by apply rd_header|]. intros cols. apply rd_bind; [|rd]. by apply rd_sort_rows.
Qed.

Lemma rd_select q s :
  Forall den_ok (select_exprs s) -> Forall den_ok (map ob_expr (q_order_by q)) -> Forall den_ok (option_exprs (q_offset q)) ->
  Forall den_ok (option_exprs (q_limit q)) -> P (run_select sess q s).
Proof.
  unfold select_exprs. rewrite !Forall_app, Forall_concat, Forall_map. intros (Hi & Hf & Hs & Hg & Hh) Ho Hoff Hlim.
  unfold run_select. apply rd_bind; [by apply rd_from|]. intros base. apply rd_bind.
  { apply rd_rfilter. intros ctx. destruct (selection s); [|rd]. apply rd_holds. by inversion Hs. }
  intros rows. destruct (rd_rows q s base rows Hi Hg Hh Ho) as [Hgr Hpl]. apply rd_bind; [by case_match|].
  intros r. apply rd_bind; [|intros r1; apply rd_bind; [|rd]].
  - unfold offset_rows. destruct (q_offset q); [|rd]. apply rd_bind; [|rd]. inversion Hoff. auto.
  - unfold limit_rows. destruct (q_limit q); [|rd]. apply rd_bind; [|rd]. inversion Hlim. auto.
Qed.

Lemma rd_query q : Forall den_ok (query_exprs q) -> P (run_query sess q).
Proof.
  unfold query_exprs. rewrite !Forall_app. intros (Hb & Ho & Hoff & Hlim). unfold run_query.
  destruct (q_body q) as [s|rows|t]; [by apply rd_select| |rd].
  unfold run_values, values_rows. apply rd_bind; [|rd]. apply rd_rmap. intros r Hr. apply rd_rmap. intros d Hd.
  cbn in Hb. rewrite Forall_concat, Forall_forall in Hb. specialize (Hb r Hr). rewrite Forall_forall in Hb. by apply Hb.
Qed.

(** *** Functions and expressions *)

Lemma rd_scalar_function name vals : P (scalar_function name vals).
Proof. unfold scalar_function. rd. Qed.

Lemma rd_aggregate name args wild rows : Forall den_ok args -> P (aggregate name args wild rows).
Proof.
  intros Ha. assert (Hfirst : forall r, P (first_arg args r)).
  { intros r. unfold first_arg. destruct Ha; [rd|auto]. }
  assert (Hsum : forall avg, P (agg_sum avg args rows)).
  { intros avg. unfold agg_sum. apply rd_bind; [|rd]. apply rd_rfold. intros r acc _. unfold sum_step. destruct acc as [[s c] ai].
    apply rd_bind; [apply Hfirst|]. rd. }
  unfold aggregate. repeat case_match; [|apply Hsum|apply Hsum|].
  - unfold agg_count. destruct Ha as [|d args Hd Ha]; [rd|]. destruct wild; [rd|]. apply rd_bind; [|rd].
    apply rd_rfold. intros r n _. apply rd_bind; [apply Hd|rd].
  - unfold agg_best. apply rd_bind; [|rd]. apply rd_rfold. intros r acc _. unfold best_step. apply rd_bind; [apply Hfirst|]. rd.
Qed.

Lemma arg_exprs_call args : arg_exprs args = call_exprs args.
Proof. unfold arg_exprs. induction args as [|[] args IH]; cbn; [done| |apply IH|apply IH]. f_equal. apply IH. Qed.

Lemma rd_function ctx g name args : Forall den_ok (call_exprs args) -> P (eval_function ctx g name args).
Proof.
  rewrite <- arg_exprs_call. intros Ha. unfold eval_function. case_match; [by apply rd_aggregate|].
  apply rd_bind; [|intros; apply rd_scalar_function]. apply rd_rmap. intros d Hd. rewrite Forall_forall in Ha. by apply Ha.
Qed.

Lemma rd_in_list v items : Forall P items -> P (in_list v items).
Proof. induction 1; cbn; rd. Qed.

Lemma rd_case base arms els :
  Forall (fun cr => P cr.1 /\ P cr.2) arms -> match els with Some m => P m | None => True end -> P (case_loop base arms els).
Proof.
  intros Ha He. induction Ha as [|[c r] arms [Hc Hr] Ha IH]; cbn; [destruct els; rd|].
  apply rd_bind; [done|]. intros v. cbn in *. destruct (match base with Some _ => _ | None => _ end); assumption.
Qed.

Lemma rd_opt m : match m with Some m => P m | None => True end -> P (opt_run m).
Proof. intros Hm. unfold opt_run. destruct m; rd. Qed.

Lemma rd_as_bool p m : P m -> P (as_bool p m).
Proof. intros. unfold as_bool. rd. Qed.

Lemma rd_combine (l l' : list (run Scalar)) : Forall P l -> Forall P l' -> Forall (fun cr => P cr.1 /\ P cr.2) (combine l l').
Proof. intros Hl. revert l'. induction Hl; intros l' []; cbn; auto. Qed.

Context (params : list Scalar).
Let env : QueryEnv := {| qe_sess := sess; qe_params := params |}.

Lemma rd_eval e : forall ctx g, P (eval env e ctx g).
Proof.
  induction e as [e IH] using expr_strong_ind. intros ctx g.
  assert (Hq : forall q, (list_sum (query_exprs (query_map expr_size q)) < expr_size e)%nat ->
    P (run_query sess (query_map (fun e => {| den_syntax := e; den_eval := eval env e |}) q))).
  { intros q Hq. apply rd_query. rewrite query_exprs_map, Forall_map, Forall_forall. intros e' He ? ?. apply IH.
    apply size_in_query in He. lia. }
  assert (Hl : forall l, (list_sum (map expr_size l) < expr_size e)%nat -> Forall P (map (fun i => eval env i ctx g) l)).
  { intros l Hl. rewrite Forall_map, Forall_forall. intros e' He. apply IH. apply size_in in He. lia. }
  assert (Ho : forall o, (list_sum (option_exprs (option_map expr_size o)) < expr_size e)%nat ->
    match option_map (fun e => eval env e ctx g) o with Some m => P m | None => True end).
  { intros [e'|] Hs; cbn in *; [|done]. apply IH. lia. }
  destruct e; cbn [expr_size] in *; cbn [eval]; unfold lookup_column, like_run, binary.
  all: repeat first
    [ apply IH; lia | apply Hq; lia | apply Hl; lia | apply Ho; lia | apply rd_as_bool | apply rd_case | apply rd_combine | apply rd_opt
    | apply rd_in_list | apply rd_done | apply rd_bind; [|intros ?] | case_match ].
  - apply rd_function. rewrite call_exprs_map, Forall_map, Forall_forall. intros e' He ? ?. apply IH. apply size_in_call in He. lia.
  - cbn in *. apply IH. lia.
Qed.

Lemma rd_query_of q : P (query_of env q).
Proof. apply rd_query. rewrite query_exprs_map, Forall_map, Forall_forall. intros e _ ctx g. apply rd_eval. Qed.
End Reading.

(** ** Runs among others *)

(** A run whose requests are answered one by one, with steps of [R] by others in between. *)
Inductive exec {A} (R : Engine -> Engine -> Prop) : list Z -> run A -> Engine -> pg A -> list Z -> Engine -> Prop :=
| ex_done obs r e : exec R obs (Done r) e r obs e
| ex_others obs m e e1 r obs' e' : R e e1 -> exec R obs m e1 r obs' e' -> exec R obs m e r obs' e'
| ex_ask obs q k e a obs1 e1 r obs' e' :
    observe obs q e = Some (a, obs1, e1) -> exec R obs1 (k a) e1 r obs' e' -> exec R obs (Ask q k) e r obs' e'.

Lemma exec_inv {A} R obs (m : run A) e r obs' e' :
  exec R obs m e r obs' e' ->
  match m with
  | Done r0 => r = r0 /\ obs' = obs /\ rtc R e e'
  | Ask q k => exists e1 a obs1 e2, rtc R e e1 /\ observe obs q e1 = Some (a, obs1, e2) /\ exec R obs1 (k a) e2 r obs' e'
  end.
Proof.
  induction 1 as [obs r e|obs m e e1 r obs' e' HR Hx IH|obs q k e a obs1 e1 r obs' e' Ho Hx _]; [done| |].
  - destruct m as [r0|q k].
    + destruct IH as (-> & -> & Hr). split; [done|]. split; [done|]. by eapply rtc_l.
    + destruct IH as (e2 & a & obs1 & e3 & Hr & Ho & Hk). exists e2, a, obs1, e3. split; [by eapply rtc_l|done].
  - exists e, a, obs1, e1. by split; [apply rtc_refl|].
Qed.

Lemma exec_ask_inv {A} R obs q (k : ans q -> run A) e r obs' e' :
  exec R obs (Ask q k) e r obs' e' ->
  exists e1 a obs1 e2, rtc R e e1 /\ observe obs q e1 = Some (a, obs1, e2) /\ exec R obs1 (k a) e2 r obs' e'.
Proof. intros Hx. exact (exec_inv _ _ _ _ _ _ _ Hx). Qed.

Lemma exec_done_inv {A} R obs (r0 : pg A) e r obs' e' : exec R obs (Done r0) e r obs' e' -> r = r0 /\ obs' = obs /\ rtc R e e'.
Proof. intros Hx. exact (exec_inv _ _ _ _ _ _ _ Hx). Qed.

Lemma exec_bind_inv {A B} R (m : run A) (f : A -> run B) : forall obs e r obs' e',
  exec R obs (rbind m f) e r obs' e' ->
  exists r1 obs1 e1, exec R obs m e r1 obs1 e1 /\
    match r1 with Some (Ok a) => exec R obs1 (f a) e1 r obs' e' | Some (Err x) => r = Some (Err x) /\ obs' = obs1 /\ rtc R e1 e'
                | None => r = None /\ obs' = obs1 /\ rtc R e1 e' end.
Proof.
  induction m as [r0|q k IH]; intros obs e r obs' e' Hx.
  - exists r0, obs, e. split; [constructor|]. destruct r0 as [[a|x]|]; cbn in Hx; [done| |]; by apply exec_done_inv in Hx.
  - cbn in Hx. apply exec_ask_inv in Hx as (e1 & a & obs1 & e2 & Hr & Ho & Hk).
    apply IH in Hk as (r1 & obs2 & e3 & Hk & Hf). exists r1, obs2, e3. split; [|done]. clear -Hr Ho Hk.
    induction Hr; [by econstructor|]. eapply ex_others; eauto.
Qed.

Lemma alone_bind {A B} (m : run A) (f : A -> run B) : forall obs e,
  alone obs (rbind m f) e =
  match alone obs m e with
  | Some (Some (Ok a), obs1, e1) => alone obs1 (f a) e1
  | Some (Some (Err x), obs1, e1) => Some (Some (Err x), obs1, e1)
  | Some (None, obs1, e1) => Some (None, obs1, e1)
  | None => None
  end.
Proof.
  induction m as [[[a|x]|]|q k IH]; intros obs e; cbn; try done. destruct (observe obs q e) as [[[a obs1] e1]|]; [apply IH|done].
Qed.

(** Compose steps, from the last one back. *)
Ltac rtc_chain := solve [assumption | match goal with Hr : rtc ?R ?b ?c |- rtc ?R ?a ?c => transitivity b; [clear Hr; rtc_chain|exact Hr] end].

(** ** One snapshot for a transaction *)

(** What others do while the snapshot stays pinned and no table comes or goes. *)
Inductive others (ts : Z) : Engine -> Engine -> Prop :=
| ot_store e s' : pinned (inner e) ts -> step (en_store e) s' -> others ts e (set_store s' e)
| ot_counters e n r :
    others ts e {| en_store := en_store e; en_tables := en_tables e; en_next_ns := n; en_rowids := r |}.

Lemma others_run ts e e' : rtc (others ts) e e' -> run_pinned ts (en_store e) (en_store e') /\ en_tables e' = en_tables e.
Proof.
  induction 1 as [e|e e1 e' Ho _ [Hr Ht]]; [by split; [constructor|]|]. destruct Ho as [e s' Hp Hs|e n r]; cbn in *; [|done].
  split; [|done]. by econstructor.
Qed.

(** Keys are bytes. *)
Definition keys_ok (i : Inner) : Prop := forall nk c, chains i !! nk = Some c -> Forall is_u8 nk.2.
Definition overlay_ok (t : Txn) : Prop := forall nk r, t_overlay t !! nk = Some r -> Forall is_u8 nk.2.

Lemma keys_of_in ns i key : key ∈ keys_of ns i <-> is_Some (chains i !! (ns, key)).
Proof.
  unfold keys_of. rewrite list_elem_of_In, in_map_iff. split.
  - intros ([[ns' k'] c] & Hk & Hin). cbn in Hk. subst k'. apply filter_In in Hin as [Hin Hns]. cbn in Hns.
    apply Z.eqb_eq in Hns as ->. exists c. by apply elem_of_map_to_list, list_elem_of_In.
  - intros [c Hc]. exists ((ns, key), c). split; [done|]. apply filter_In. split; [|by apply Z.eqb_eq].
    by apply list_elem_of_In, elem_of_map_to_list.
Qed.

Lemma keys_of_nodup ns i : NoDup (keys_of ns i).
Proof.
  unfold keys_of. assert (Hn : NoDup (map fst (map_to_list (chains i)))) by apply NoDup_fst_map_to_list.
  revert Hn. generalize (map_to_list (chains i)). intros l. induction l as [|[[ns' k] c] l IH]; cbn; intros Hn; [constructor|].
  apply NoDup_cons in Hn as [Hni Hn]. destruct (ns' =? ns) eqn:Hns; cbn; [|by apply IH]. apply NoDup_cons. split; [|by apply IH].
  apply Z.eqb_eq in Hns as ->. intros Hin. apply Hni. apply list_elem_of_In, in_map_iff in Hin as ([[ns' k'] c'] & Hk & Hin).
  apply filter_In in Hin as [Hin Hns]. cbn in *. apply Z.eqb_eq in Hns as ->. subst k'.
  apply list_elem_of_In, in_map_iff. by exists ((ns, k), c').
Qed.

Section Snapshot.
Context `{Lowercase} `{SqlLib} `{Debug} `{ShowExpr}.
Context (t : Txn) (e0 : Engine).
Hypothesis Hok : sys_ok (en_store e0).
Hypothesis Hguarded : guarded (en_store e0) (t_snap t).
Hypothesis Hkeys : keys_ok (inner e0).
Hypothesis Hov : overlay_ok t.

Definition shown (ns now : Z) (key : Bytes) : option (Bytes * Datum) :=
  pair key <$> visible_datum (chains (inner e0) !! (ns, key)) (t_snap t) now.

Lemma visible_stays e nk now :
  rtc (others (t_snap t)) e0 e ->
  visible_datum (chains (inner e) !! nk) (t_snap t) now = visible_datum (chains (inner e0) !! nk) (t_snap t) now.
Proof.
  intros Hr. apply others_run in Hr as [Hr _]. destruct nk as [ns k].
  change (get_at (inner e) ns k (t_snap t) now = get_at (inner e0) ns k (t_snap t) now).
  rewrite !seen_get_at. unfold inner. by rewrite (run_seen _ _ _ _ Hok Hguarded Hr).
Qed.

Lemma shown_inj ns now l : NoDup l -> NoDup (omap (shown ns now) l).
Proof.
  induction 1 as [|k l Hk Hl IH]; cbn; [constructor|]. unfold shown at 1. destruct (visible_datum _ _ _) as [d|]; cbn; [|done].
  apply NoDup_cons. split; [|done]. intros Hin. apply list_elem_of_omap in Hin as (k' & Hk' & Hs). unfold shown in Hs.
  destruct (visible_datum (chains (inner e0) !! (ns, k')) _ _); cbn in Hs; simplify_eq. done.
Qed.

Lemma found_perm e ns now :
  rtc (others (t_snap t)) e0 e -> omap (shown ns now) (keys_of ns (inner e)) ≡ₚ omap (shown ns now) (keys_of ns (inner e0)).
Proof.
  intros Hr. apply NoDup_Permutation; [apply shown_inj, keys_of_nodup|apply shown_inj, keys_of_nodup|].
  intros [k d]. rewrite !list_elem_of_omap. split; intros (k' & Hin & Hs); exists k'; (split; [|done]); apply keys_of_in;
    unfold shown in Hs.
  - destruct (chains (inner e0) !! (ns, k')); [by eexists|done].
  - rewrite <- (visible_stays e) in Hs by done. destruct (chains (inner e) !! (ns, k')); [by eexists|done].
Qed.

(** *** The rows of a table with a transaction's own *)

Lemma NoDup_fmap_fst_inj {A} (l : list (Z * A)) a b : NoDup (map fst l) -> a ∈ l -> b ∈ l -> a.1 = b.1 -> a = b.
Proof.
  intros Hn Ha Hb Hab. induction l as [|x l IH]; [by apply elem_of_nil in Ha|]. cbn in Hn. apply NoDup_cons in Hn as [Hni Hn].
  assert (Hout : forall c, c ∈ l -> c.1 <> x.1).
  { intros c Hc He. apply Hni. rewrite <- He. by apply list_elem_of_In, in_map, list_elem_of_In. }
  apply elem_of_cons in Ha as [->|Ha], Hb as [->|Hb]; [done| | |by apply IH]; [apply Hout in Hb|apply Hout in Ha]; congruence.
Qed.

Lemma sorted_by_fst {A} (l : list (Z * A)) :
  Sorted (fun a b => a.1 <= b.1) (sorted_by (fun a b => a.1 ?= b.1) l) /\ sorted_by (fun a b => a.1 ?= b.1) l ≡ₚ l.
Proof.
  unfold sorted_by. set (cmp := fun a b : Z * A => Some (a.1 ?= b.1)). destruct (sort_by cmp l) as [l'|] eqn:Hs.
  - cbn. apply sort_by_sorted in Hs as [Hs Hp].
    + split; [|done]. clear Hp. assert (Hab : forall a b, in_order cmp a b -> a.1 <= b.1).
      { unfold in_order, cmp. intros a b Hab. destruct (Z.compare_spec a.1 b.1); try lia. by destruct Hab. }
      induction Hs as [|a m Hs IH Hh]; constructor; [done|]. destruct Hh; constructor; by apply Hab.
    + unfold cmp. intros a b c [= <-]. by rewrite Z.compare_antisym.
  - exfalso. revert Hs. assert (Hi : forall x l, sort_insert cmp x l <> None).
    { intros x m. induction m as [|y m IH]; cbn; [done|]. destruct (x.1 ?= y.1); try done. by destruct (sort_insert cmp x m). }
    induction l as [|x l IH]; cbn; [done|]. destruct (sort_by cmp l) as [r|]; [apply Hi|done].
Qed.

Lemma sorted_keys_unique {A} (l l' : list (Z * A)) :
  l ≡ₚ l' -> NoDup (map fst l) -> sorted_by (fun a b => a.1 ?= b.1) l = sorted_by (fun a b => a.1 ?= b.1) l'.
Proof.
  intros Hp Hn. destruct (sorted_by_fst l) as [Hs Hl], (sorted_by_fst l') as [Hs' Hl'].
  assert (Transitive (fun a b : Z * A => a.1 <= b.1)) by (intros ? ? ?; lia).
  apply (Sorted_unique_strong (fun a b : Z * A => a.1 <= b.1)); [|done|done|by rewrite Hl, Hl', Hp].
  intros a b Ha Hb Hab Hba. rewrite Hl in Ha. rewrite Hl', <- Hp in Hb.
  apply (NoDup_fmap_fst_inj l); [done|done|done|lia].
Qed.

Lemma row_key k : Forall is_u8 k -> length k = 8%nat -> rowid_key (of_be k) = k.
Proof. intros Hk Hl. unfold rowid_key. rewrite <- Hl. by apply to_be_of_be. Qed.

Lemma as_row_key kd id r : Forall is_u8 kd.1 -> as_row kd = Some (id, r) -> kd = (rowid_key id, DRow r).
Proof.
  intros Hk. destruct kd as [k d]. unfold as_row. cbn. destruct d; try done. destruct (length k =? 8)%nat eqn:Hl; [|done].
  intros [= <- <-]. by rewrite row_key by (done || by apply Nat.eqb_eq).
Qed.

Lemma staged_in ns id r : (id, r) ∈ staged_rows ns (t_overlay t) -> t_overlay t !! (ns, rowid_key id) = Some (Some r).
Proof.
  unfold staged_rows. rewrite list_elem_of_omap. intros ([[ns' k] s] & Hin & Hs). cbn in Hs. apply elem_of_map_to_list in Hin.
  destruct (ns' =? ns) eqn:Hns; cbn in Hs; [|done]. apply Z.eqb_eq in Hns as ->.
  destruct (length k =? 8)%nat eqn:Hl; [|done]. destruct s as [r'|]; cbn in Hs; simplify_eq. rewrite row_key; [done| |by apply Nat.eqb_eq].
  by apply (Hov (ns, k) (Some r)).
Qed.

Lemma staged_nodup ns : NoDup (map fst (staged_rows ns (t_overlay t))).
Proof.
  unfold staged_rows. pose proof (NoDup_fst_map_to_list (t_overlay t)) as Hn.
  assert (Hall : forall ks, ks ∈ map_to_list (t_overlay t) -> Forall is_u8 ks.1.2).
  { intros [nk s] Hin. apply elem_of_map_to_list in Hin. by apply (Hov nk s). }
  revert Hn Hall. generalize (map_to_list (t_overlay t)). intros l. induction l as [|[[ns' k] s] l IH]; cbn; intros Hn Hall; [constructor|].
  apply NoDup_cons in Hn as [Hni Hn]. assert (IH' := IH Hn (fun x Hx => Hall x ltac:(by right))). clear IH.
  destruct (ns' =? ns) eqn:Hns; cbn; [|done]. apply Z.eqb_eq in Hns as ->. destruct (length k =? 8)%nat eqn:Hl; cbn; [|done].
  destruct s as [r|]; cbn; [|done]. apply NoDup_cons. split; [|done]. intros Hin. apply list_elem_of_In, in_map_iff in Hin as ([id r'] & Hid & Hin).
  cbn in Hid. apply list_elem_of_In, list_elem_of_omap in Hin as ([[ns' k'] s'] & Hin & Hs). cbn in Hs.
  destruct (ns' =? ns) eqn:Hns; cbn in Hs; [|done]. apply Z.eqb_eq in Hns as ->. destruct (length k' =? 8)%nat eqn:Hl'; [|done].
  destruct s' as [r''|]; cbn in Hs; [|done]. injection Hs as <- <-. apply Hni. rewrite <- (row_key k), <- Hid, row_key.
  - apply list_elem_of_fmap. by exists ((ns, k'), Some r'').
  - apply (Hall ((ns, k'), Some r'')). by right.
  - by apply Nat.eqb_eq.
  - apply (Hall ((ns, k), Some r)). by left.
  - by apply Nat.eqb_eq.
Qed.

(** Rows found under distinct keys of bytes have distinct numbers. *)
Lemma rows_nodup (l : list (Bytes * Datum)) :
  (forall kd, kd ∈ l -> Forall is_u8 kd.1) -> NoDup (map fst l) -> NoDup (map fst (omap as_row l)).
Proof.
  intros Hb. induction l as [|kd l IH]; cbn; intros Hn; [constructor|]. apply NoDup_cons in Hn as [Hni Hn].
  specialize (IH (fun x Hx => Hb x ltac:(by right)) Hn). destruct (as_row kd) as [[id r]|] eqn:Ha; [|done]. cbn.
  apply NoDup_cons. split; [|done]. intros Hin. apply list_elem_of_In, in_map_iff in Hin as ([id' r'] & Hid & Hin). cbn in Hid. subst id'.
  apply list_elem_of_In, list_elem_of_omap in Hin as (kd' & Hin & Ha'). apply Hni.
  apply as_row_key in Ha as ->; [|apply Hb; by left]. apply as_row_key in Ha' as ->; [|apply Hb; by right].
  cbn. apply list_elem_of_In, in_map_iff. exists (rowid_key id, DRow r'). split; [done|]. by apply list_elem_of_In.
Qed.

Lemma with_overlay_perm ns rows rows' : rows ≡ₚ rows' -> NoDup (map fst rows) -> with_overlay ns t rows = with_overlay ns t rows'.
Proof.
  intros Hp Hn. unfold with_overlay. apply sorted_keys_unique.
  - apply Permutation_app; [|done]. induction Hp as [|x l l' _ IH|x y l|l1 l2 l3 Hp IH _ IH']; cbn; [done| | |].
    + destruct (negb _); [|by apply IH; inversion Hn]. constructor. apply IH. by inversion Hn.
    + destruct (negb _), (negb _); try done. constructor.
    + rewrite IH by done. apply IH'. by rewrite <- Hp.
  - rewrite map_app. apply NoDup_app. split; [|split; [|apply staged_nodup]].
    + clear Hp. induction rows as [|x rows IH]; cbn; [constructor|]. cbn in Hn. apply NoDup_cons in Hn as [Hni Hn]. specialize (IH Hn).
      destruct (negb _); cbn; [|done]. apply NoDup_cons. split; [|done]. intros Hin. apply Hni.
      apply list_elem_of_In, in_map_iff in Hin as (y & Hy & Hin). apply filter_In in Hin as [Hin _].
      apply list_elem_of_In, in_map_iff. by exists y.
    + intros id Hin Hst. apply list_elem_of_In, in_map_iff in Hin as ([id' r] & Hid & Hin). cbn in Hid. subst id'.
      apply filter_In in Hin as [_ Hf]. cbn in Hf. apply list_elem_of_In, in_map_iff in Hst as ([id' r'] & Hid & Hst). cbn in Hid. subst id'.
      apply list_elem_of_In, staged_in in Hst. rewrite Hst in Hf. by rewrite bool_decide_eq_true_2 in Hf by eauto.
Qed.

(** *** What holds of a run in the transaction *)

Definition stable (A : Type) (m : run A) : Prop := forall e obs r obs' e',
  rtc (others (t_snap t)) e0 e -> exec (others (t_snap t)) obs m e r obs' e' ->
  rtc (others (t_snap t)) e0 e' /\ alone obs m e0 = Some (r, obs', e0).
Arguments stable {A} m.

Lemma stable_done {A} (r : pg A) : stable (Done r).
Proof. intros e obs r' obs' e' Hr Hx. apply exec_done_inv in Hx as (-> & -> & Hr'). split; [rtc_chain|done]. Qed.

Lemma stable_bind {A B} (m : run A) (f : A -> run B) : stable m -> (forall a, stable (f a)) -> stable (rbind m f).
Proof.
  intros Hm Hf e obs r obs' e' Hr Hx. apply exec_bind_inv in Hx as (r1 & obs1 & e1 & Hx & Hk).
  destruct (Hm _ _ _ _ _ Hr Hx) as [Hr1 Ha]. rewrite alone_bind, Ha.
  destruct r1 as [[a|x]|]; [by apply (Hf a e1)| |]; destruct Hk as (-> & -> & Hr2); (split; [rtc_chain|done]).
Qed.

(** Requests that leave the engine alone and are answered as at the start. *)
Lemma stable_ask q :
  (forall e obs a obs' e', rtc (others (t_snap t)) e0 e -> observe obs q e = Some (a, obs', e') ->
     e' = e /\ observe obs q e0 = Some (a, obs', e0)) ->
  stable (ask q).
Proof.
  intros Hq e obs r obs' e' Hr Hx. apply exec_ask_inv in Hx as (e1 & a & obs1 & e2 & Hr1 & Ho & Hk).
  destruct (Hq e1 obs a obs1 e2) as [-> Ho']; [rtc_chain|done|]. apply exec_done_inv in Hk as (-> & -> & Hr2).
  split; [rtc_chain|]. cbn. by rewrite Ho'.
Qed.

Lemma read_keys_cons ns ts now k keys :
  rmap (read_key ns ts now) (k :: keys)
  = Ask (RChain (ns, k)) (fun c => let& r := rmap (read_key ns ts now) keys in ret ((pair k <$> visible_datum c ts now) :: r)).
Proof. done. Qed.

Lemma exec_keys ns now keys : forall e obs r obs' e',
  rtc (others (t_snap t)) e0 e -> exec (others (t_snap t)) obs (rmap (read_key ns (t_snap t) now) keys) e r obs' e' ->
  rtc (others (t_snap t)) e0 e' /\ r = Some (Ok (map (shown ns now) keys)) /\ obs' = obs.
Proof.
  induction keys as [|k keys IH]; intros e obs r obs' e' Hr Hx.
  - apply exec_done_inv in Hx as (-> & -> & Hr'). split; [rtc_chain|done].
  - rewrite read_keys_cons in Hx. apply exec_ask_inv in Hx as (e1 & a & obs1 & e2 & Hr1 & Ho & Hk).
    cbn in Ho. injection Ho as <- <- <-. apply exec_bind_inv in Hk as (r1 & obs1 & e2 & Hx & Hk).
    destruct (IH e1 obs r1 obs1 e2) as (Hr2 & -> & ->); [rtc_chain|done|]. apply exec_done_inv in Hk as (-> & -> & Hr3).
    split; [rtc_chain|]. split; [|done]. cbn [map]. rewrite (visible_stays e1) by rtc_chain. done.
Qed.

Lemma alone_keys ns now keys : forall obs,
  alone obs (rmap (read_key ns (t_snap t) now) keys) e0 = Some (Some (Ok (map (shown ns now) keys)), obs, e0).
Proof.
  induction keys as [|k keys IH]; intros obs; [done|]. rewrite read_keys_cons. cbn [alone].
  change (observe obs (RChain (ns, k)) e0) with (Some (chains (inner e0) !! (ns, k), obs, e0)). cbv beta iota.
  rewrite alone_bind, IH. done.
Qed.

Lemma omap_id_map {A B} (f : A -> option B) l : omap id (map f l) = omap f l.
Proof. induction l as [|a l IH]; cbn; [done|]. by rewrite IH. Qed.

(** The rows are the same, in whatever order their keys come. *)
Lemma scan_rows e ns now : rtc (others (t_snap t)) e0 e ->
  with_overlay ns t (omap as_row (omap (shown ns now) (keys_of ns (inner e)))) =
  with_overlay ns t (omap as_row (omap (shown ns now) (keys_of ns (inner e0)))).
Proof.
  intros Hr. pose proof (found_perm e ns now Hr) as Hp. apply with_overlay_perm.
  - by rewrite Hp.
  - rewrite Hp. apply rows_nodup.
    + intros [k d] Hin. apply list_elem_of_omap in Hin as (k' & Hin & Hs). apply keys_of_in in Hin as [c Hc].
      unfold shown in Hs. destruct (visible_datum _ _ _); cbn in Hs; simplify_eq. exact (Hkeys (ns, k) c Hc).
    + assert (Hsub : forall l, NoDup l -> NoDup (map fst (omap (shown ns now) l))).
      { induction 1 as [|k l Hk Hl IH]; cbn; [constructor|]. unfold shown at 1. destruct (visible_datum _ _ _); cbn; [|done].
        apply NoDup_cons. split; [|done]. intros Hin. apply Hk. apply list_elem_of_In, in_map_iff in Hin as ([k' d'] & Hk' & Hin).
        apply list_elem_of_In, list_elem_of_omap in Hin as (k'' & Hin & Hs). cbn in Hk'. unfold shown in Hs.
        destruct (visible_datum _ _ _); cbn in Hs; by simplify_eq. }
      apply Hsub, keys_of_nodup.
Qed.

Lemma alone_visible ns now obs :
  alone (now :: obs) (for_each_visible ns (t_snap t)) e0 = Some (Some (Ok (omap (shown ns now) (keys_of ns (inner e0)))), obs, e0).
Proof.
  unfold for_each_visible. rewrite alone_bind. cbn [alone ask observe ret pok]. rewrite alone_bind. cbn [alone ask observe serve keep_obs ret pok].
  rewrite alone_bind, alone_keys. cbn [alone ret pok]. by rewrite omap_id_map.
Qed.

Lemma exec_visible ns e obs r obs' e' :
  rtc (others (t_snap t)) e0 e -> exec (others (t_snap t)) obs (for_each_visible ns (t_snap t)) e r obs' e' ->
  rtc (others (t_snap t)) e0 e' /\
  exists now e2, obs = now :: obs' /\ rtc (others (t_snap t)) e0 e2 /\ r = Some (Ok (omap (shown ns now) (keys_of ns (inner e2)))).
Proof.
  intros Hr Hx. unfold for_each_visible in Hx. apply exec_bind_inv in Hx as (r1 & obs1 & e1 & Hx & Hk).
  apply exec_ask_inv in Hx as (e2 & now & obs2 & e3 & Hr1 & Ho & Hx). apply exec_done_inv in Hx as (-> & -> & Hr2).
  destruct obs as [|o obs]; cbn in Ho; [done|]. injection Ho as <- <- <-.
  apply exec_bind_inv in Hk as (r1 & obs1 & e3 & Hx & Hk).
  apply exec_ask_inv in Hx as (e4 & keys & obs2 & e5 & Hr3 & Ho & Hx). apply exec_done_inv in Hx as (-> & -> & Hr4).
  cbn in Ho. injection Ho as <- <- <-. assert (Hr4' : rtc (others (t_snap t)) e0 e4) by rtc_chain.
  apply exec_bind_inv in Hk as (r1 & obs1 & e5 & Hx & Hk).
  destruct (exec_keys ns o (keys_of ns (inner e4)) e3 obs r1 obs1 e5) as (Hr5 & -> & ->); [rtc_chain|exact Hx|].
  apply exec_done_inv in Hk as (-> & -> & Hr6). split; [rtc_chain|]. exists o, e4. by rewrite omap_id_map.
Qed.

Lemma stable_scan d : stable (scan (Some t) d).
Proof.
  intros e obs r obs' e' Hr Hx. unfold scan in *. cbn [snapshot_ts] in *.
  apply exec_bind_inv in Hx as (r1 & obs1 & e1 & Hx & Hk). apply exec_done_inv in Hx as (-> & -> & Hr1). cbn [pok] in Hk.
  apply exec_bind_inv in Hk as (r1 & obs1 & e2 & Hx & Hk).
  destruct (exec_visible (td_ns d) e1 obs r1 obs1 e2) as (Hr2 & now & e3 & -> & Hr3 & ->); [rtc_chain|exact Hx|].
  apply exec_done_inv in Hk as (-> & -> & Hr4). split; [rtc_chain|].
  rewrite alone_bind. cbn [alone ret pok]. rewrite alone_bind, alone_visible. cbn [alone ret pok].
  by rewrite (scan_rows e3) by done.
Qed.

#[export] Instance stable_reading : Reading (Some t) (@stable).
Proof.
  split; [apply @stable_done|apply @stable_bind|apply (stable_ask RClock)|apply (stable_ask RPid)
    |intros n; apply (stable_ask (RTable n))|apply (stable_ask RTables)|apply stable_scan];
    intros e obs a obs' e' Hr Ho; pose proof (others_run _ _ _ Hr) as [_ Ht]; cbn in *;
    try (destruct obs; simplify_eq; done); rewrite Ht in Ho; by simplify_eq.
Qed.
End Snapshot.

(** ** What statements keep *)

(** Names are told apart without case, as [TableDef::column] looks them up. *)
Definition well_named (d : TableDef) : Prop := NoDup (map (fun c => to_ascii_lowercase (cd_name c)) (td_columns d)).

(** No null in a not-null column. *)
Definition conforms (d : TableDef) (r : Row) : Prop :=
  well_named d -> forall c, c ∈ td_columns d -> cd_not_null c = true -> cell r (cd_name c) <> ScNull.

(** All the definitions there have been. *)
Abbreviation Defs := (list TableDef).
Implicit Types (D : Defs).

Definition good D : Prop :=
  (forall d d', d ∈ D -> d' ∈ D -> td_ns d = td_ns d' -> d = d') /\ (forall d, d ∈ D -> NS_PG_BASE <= td_ns d).

Definition datum_ok D (nk : NsKey) (x : Datum) : Prop :=
  match x with DRow r => NS_PG_BASE <= nk.1 -> exists d, d ∈ D /\ td_ns d = nk.1 /\ conforms d r | _ => True end.
(** Keys of tables are bytes. *)
Definition key_ok (nk : NsKey) : Prop := NS_PG_BASE <= nk.1 -> Forall is_u8 nk.2.
Definition op_ok D (op : WriteOp) : Prop :=
  key_ok (op_key op) /\ match op with Put ns k x _ => datum_ok D (ns, k) x | Del _ _ => True end.
Definition chain_ok D (nk : NsKey) (c : Chain) : Prop := forall v x, v ∈ c -> value v = Some x -> datum_ok D nk x.

Record txn_ok D (t : Txn) : Prop := {
  tx_writes : Forall (op_ok D) (t_writes t);
  tx_overlay : forall nk r, t_overlay t !! nk = Some (Some r) -> datum_ok D nk (DRow r);
  tx_keys : forall nk r, t_overlay t !! nk = Some r -> Forall is_u8 nk.2;
  tx_conflict : forall op, op ∈ t_writes t -> op_key op ∈ t_conflict t }.
Definition sess_ok D (sess : Session) : Prop := match sess with Some t => txn_ok D t | None => True end.

Lemma datum_ok_mono D D' nk x : D ⊆ D' -> datum_ok D nk x -> datum_ok D' nk x.
Proof. intros Hs. destruct x; try done. intros Hd Hb. destruct (Hd Hb) as (d & Hin & Hd'). exists d. split; [by apply Hs|done]. Qed.

Lemma op_ok_mono D D' op : D ⊆ D' -> op_ok D op -> op_ok D' op.
Proof. intros Hs [Hk Ho]. split; [done|]. destruct op; [by eapply datum_ok_mono|done]. Qed.

Lemma sess_ok_mono D D' sess : D ⊆ D' -> sess_ok D sess -> sess_ok D' sess.
Proof.
  intros Hs. destruct sess as [t|]; [|done]. intros [Hw Ho Hk Hc]. split; [|by eauto using datum_ok_mono|done|done].
  eapply Forall_impl; [exact Hw|]. intros op. by apply op_ok_mono.
Qed.

(** A row found where a known table keeps its rows is a row of that table. *)
Lemma datum_conforms D d k r : good D -> d ∈ D -> datum_ok D (td_ns d, k) (DRow r) -> conforms d r.
Proof. intros [Hu Hb] Hd Hr. destruct (Hr (Hb d Hd)) as (d' & Hd' & Hns & Hc). by rewrite (Hu d d'). Qed.

(** *** Rows with their not-null columns *)

Section Rows.
Context `{Lowercase} `{SqlLib} `{Debug} `{ShowExpr}.

Lemma well_named_eq d c c' : well_named d -> c ∈ td_columns d -> c' ∈ td_columns d -> cd_name c = cd_name c' -> c = c'.
Proof.
  unfold well_named. generalize (td_columns d). intros l Hn Hc Hc' He. induction l as [|x l IH]; [by apply elem_of_nil in Hc|].
  cbn in Hn. apply NoDup_cons in Hn as [Hni Hn].
  assert (Hout : forall y, y ∈ l -> cd_name y <> cd_name x).
  { intros y Hy Hyx. apply Hni. rewrite <- Hyx. apply list_elem_of_In, in_map_iff. exists y. split; [done|]. by apply list_elem_of_In. }
  apply elem_of_cons in Hc as [->|Hc], Hc' as [->|Hc']; [done| | |by apply IH]; [apply Hout in Hc'|apply Hout in Hc]; congruence.
Qed.

Lemma column_in d name c : column d name = Some c -> c ∈ td_columns d.
Proof. unfold column. intros Hf. apply find_some in Hf as [Hf _]. by apply list_elem_of_In. Qed.

Lemma cell_insert r n v n' : cell (<[n := v]> r) n' = if bool_decide (n = n') then v else cell r n'.
Proof. unfold cell. case_bool_decide as Hn; [by rewrite Hn, lookup_insert_eq|by rewrite lookup_insert_ne]. Qed.

Lemma new_row_cells d targets vr cols : forall r0 row,
  (forall c c', c ∈ cols -> c' ∈ cols -> cd_name c = cd_name c' -> c = c') ->
  foldl (fun r c => match r with Ok row => insert_column d targets vr row c | Err e => Err e end) (Ok r0) cols = Ok row ->
  (forall c, c ∈ cols -> cd_not_null c = true -> cd_serial c = false -> cell row (cd_name c) <> ScNull) /\
  (forall n, (forall c, c ∈ cols -> cd_name c <> n) -> cell row n = cell r0 n).
Proof.
  assert (Herr : forall e cols, foldl (fun r c => match r with Ok row => insert_column d targets vr row c | Err e => Err e end) (Err e) cols <> Ok ∅ /\
    forall row, foldl (fun r c => match r with Ok row => insert_column d targets vr row c | Err e => Err e end) (Err e) cols <> Ok row).
  { intros e l. induction l; cbn; [by split|done]. }
  induction cols as [|c cols IH]; intros r0 row Hu Hf; cbn in Hf.
  - injection Hf as <-. split; [|done]. intros c Hc. by apply elem_of_nil in Hc.
  - unfold insert_column in Hf at 2. set (v := match position _ _ with Some _ => _ | None => _ end) in Hf.
    destruct (is_null v && cd_not_null c && negb (cd_serial c)) eqn:Hnull; [by apply Herr in Hf|].
    apply IH in Hf as [Hin Hout]; [|intros ? ? Ha Hb; apply Hu; by right].
    assert (Hv : cell row (cd_name c) = v \/ exists c', c' ∈ cols /\ cd_name c' = cd_name c).
    { destruct (decide (Exists (fun c' => cd_name c' = cd_name c) cols)) as [He|Hne].
      - right. apply Exists_exists in He as (c' & ? & ?). eauto.
      - left. rewrite Hout, cell_insert, bool_decide_eq_true_2 by first [done | intros c' Hc' Hn; apply Hne, Exists_exists; eauto]. done. }
    split.
    + intros c' Hc' Hnn Hs. apply elem_of_cons in Hc' as [->|Hc']; [|by apply Hin].
      destruct Hv as [Hv|(c' & Hc' & Hn)].
      * rewrite Hv. intros Hz. rewrite Hz, Hnn, Hs in Hnull. done.
      * rewrite <- Hn. assert (c' = c) as -> by (apply Hu; [by right|by left|done]). by apply Hin.
    + intros n Hn. rewrite Hout by (intros; apply Hn; by right). rewrite cell_insert, bool_decide_eq_false_2; [done|]. apply Hn. by left.
Qed.

Lemma fill_serial_cells rowid cols : forall r0,
  (forall c, c ∈ cols -> cd_serial c = true -> cell (foldl (fill_serial rowid) r0 cols) (cd_name c) <> ScNull) /\
  (forall n, cell r0 n <> ScNull -> cell (foldl (fill_serial rowid) r0 cols) n <> ScNull).
Proof.
  assert (Hkeep : forall c r n, cell r n <> ScNull -> cell (fill_serial rowid r c) n <> ScNull).
  { intros c r n Hr. unfold fill_serial. destruct (_ && _); [|done]. rewrite cell_insert. by case_bool_decide. }
  induction cols as [|c cols IH]; intros r0; cbn; [split; [intros c Hc; by apply elem_of_nil in Hc|done]|].
  destruct (IH (fill_serial rowid r0 c)) as [Hin Hk]. split; [|by eauto].
  intros c' Hc' Hs. apply elem_of_cons in Hc' as [->|Hc']; [|by apply Hin]. apply Hk. unfold fill_serial. rewrite Hs. cbn.
  destruct (is_null (cell r0 (cd_name c))) eqn:Hn; [by rewrite cell_insert, bool_decide_eq_true_2|]. intros Hz. by rewrite Hz in Hn.
Qed.

Lemma inserted_conforms d targets vr row rowid :
  new_row d targets vr = Ok row -> conforms d (foldl (fill_serial rowid) row (td_columns d)).
Proof.
  intros Hr Hw c Hc Hnn. destruct (fill_serial_cells rowid (td_columns d) row) as [Hser Hkeep].
  destruct (cd_serial c) eqn:Hs; [by apply Hser|]. apply Hkeep. apply new_row_cells in Hr as [Hin _]; [by apply Hin|].
  intros c1 c2. by apply well_named_eq.
Qed.

Lemma assigned_conforms d row c v :
  conforms d row -> c ∈ td_columns d -> is_null v && cd_not_null c = false -> conforms d (<[cd_name c := v]> row).
Proof.
  intros Hr Hc Hv Hw c' Hc' Hnn. rewrite cell_insert. case_bool_decide as Hn; [|by apply Hr].
  assert (c = c') as <- by (by apply (well_named_eq d)). intros ->. by rewrite Hnn in Hv.
Qed.
End Rows.

(** *** What a run may ask, and what it may rely on *)

(** [own] is the namespace the run took for a table it has not put into the catalogue yet. *)
Definition pre D (own : option Z) (q : req) : Prop :=
  match q with
  | RCommit r => Forall (op_ok D) (writes r)
  | RInsertTable d => own = Some (td_ns d)
  | _ => True
  end.

Definition post D (own own' : option Z) (q : req) : ans q -> Prop :=
  match q return ans q -> Prop with
  | RNextNs => fun ns => own' = Some ns
  | RInsertTable d => fun _ => own' = None /\ d ∈ D
  | RTable _ | RRemoveTable _ => fun a => own' = own /\ forall d, a = Some d -> d ∈ D
  | RKeys ns => fun l => own' = own /\ forall k, k ∈ l -> key_ok (ns, k)
  | RTables => fun l => own' = own /\ forall d, d ∈ l -> d ∈ D
  | RChain nk => fun a => own' = own /\ forall c, a = Some c -> chain_ok D nk c
  | _ => fun _ => own' = own
  end.

Fixpoint wp {A} D (own : option Z) (m : run A) (Q : Defs -> A -> Prop) : Prop :=
  match m with
  | Done (Some (Ok a)) => Q D a
  | Done _ => True
  | Ask q k => pre D own q /\ forall D' own' a, D ⊆ D' -> good D' -> post D' own own' q a -> wp D' own' (k a) Q
  end.

Lemma pre_mono D D' own q : D ⊆ D' -> pre D own q -> pre D' own q.
Proof. intros Hs. destruct q; try done. cbn. intros Hw. eapply Forall_impl; [exact Hw|]. intros op. by apply op_ok_mono. Qed.

Lemma wp_grow {A} D D' own (m : run A) Q :
  D ⊆ D' -> (forall a, Q D a -> Q D' a) -> wp D own m Q -> wp D' own m Q.
Proof.
  intros Hs HQ. destruct m as [[[a|e]|]|q k]; cbn; [apply HQ|done|done|]. intros [Hp Hk]. split; [by eapply pre_mono|].
  intros D2 own' a Hs'. apply Hk. by etrans.
Qed.

Lemma run_wp_mono {A} (m : run A) (Q Q' : Defs -> A -> Prop) : forall D own,
  good D -> (forall D' a, D ⊆ D' -> good D' -> Q D' a -> Q' D' a) -> wp D own m Q -> wp D own m Q'.
Proof.
  induction m as [[[a|e]|]|q k IH]; intros D own Hg HQ; cbn; [by apply HQ|done|done|]. intros [Hp Hk]. split; [done|].
  intros D' own' a Hs Hg' Ha. apply IH; [done| |by apply (Hk D' own')]. intros D2 b Hs' Hg2. apply HQ; [by etrans|done].
Qed.

Lemma run_wp_bind {A B} (m : run A) (f : A -> run B) Q : forall D own,
  wp D own m (fun D' a => forall own', wp D' own' (f a) Q) -> wp D own (rbind m f) Q.
Proof.
  induction m as [[[a|e]|]|q k IH]; intros D own; cbn; [done|done|done|]. intros [Hp Hk]. split; [done|].
  intros D' own' a Hs Hg Ha. by eapply IH, Hk.
Qed.

Lemma wp_catch {A} (m : run A) (Q : Defs -> result Bytes A -> Prop) : forall D own,
  good D -> wp D own m (fun D' a => Q D' (Ok a)) -> (forall D' e, D ⊆ D' -> good D' -> Q D' (Err e)) -> wp D own (catch m) Q.
Proof.
  induction m as [[[a|e]|]|q k IH]; intros D own Hg Hm He; cbn in *; [done|by apply He|done|]. destruct Hm as [Hp Hk]. split; [done|].
  intros D' own' a Hs Hg' Ha. apply IH; [done|by apply (Hk D' own')|]. intros D2 e Hs'. apply He. by etrans.
Qed.

(** Programs that only read keep everything. *)
Definition harmless (A : Type) (m : run A) : Prop := forall D own (Q : Defs -> A -> Prop),
  good D -> (forall D' a, D ⊆ D' -> good D' -> Q D' a) -> wp D own m Q.
Arguments harmless {A} m.

Lemma harmless_done {A} (r : pg A) : harmless (Done r).
Proof. intros D own Q Hg HQ. destruct r as [[a|e]|]; [by apply HQ|done|done]. Qed.

Lemma harmless_bind {A B} (m : run A) (f : A -> run B) : harmless m -> (forall a, harmless (f a)) -> harmless (rbind m f).
Proof.
  intros Hm Hf D own Q Hg HQ. apply run_wp_bind. apply Hm; [done|]. intros D' a Hs Hg' own'. apply Hf; [done|].
  intros D2 b Hs'. apply HQ. by etrans.
Qed.

Lemma harmless_ask q : (forall D own, pre D own q) -> harmless (ask q).
Proof. intros Hp D own Q Hg HQ. split; [apply Hp|]. intros D' own' a Hs Hg' _. by apply HQ. Qed.

Lemma wp_rmap {A B} (f : A -> run B) (l : list A) (Phi : B -> Prop) : forall D own (Q : Defs -> list B -> Prop),
  good D ->
  (forall a D' own', a ∈ l -> D ⊆ D' -> good D' -> wp D' own' (f a) (fun _ b => Phi b)) ->
  (forall D' bs, D ⊆ D' -> good D' -> Forall Phi bs -> Q D' bs) -> wp D own (rmap f l) Q.
Proof.
  induction l as [|a l IH]; intros D own Q Hg Hf HQ; cbn; [by apply HQ|]. apply run_wp_bind.
  eapply run_wp_mono; [done| |apply Hf; [by left|done|done]]. intros D1 b Hs1 Hg1 Hb own1. apply run_wp_bind.
  apply IH; [done|intros a' D2 own2 Ha Hs2 Hg2; apply Hf; [by right|by etrans|done]|]. intros D2 bs Hs2 Hg2 Hbs own2. cbn.
  apply HQ; [by etrans|done|by constructor].
Qed.

Lemma wp_rfold {A B} (f : B -> A -> run B) (l : list A) (Phi : B -> Prop) : forall D own b (Q : Defs -> B -> Prop),
  good D -> Phi b ->
  (forall a b D' own', a ∈ l -> Phi b -> D ⊆ D' -> good D' -> wp D' own' (f b a) (fun _ b' => Phi b')) ->
  (forall D' b, D ⊆ D' -> good D' -> Phi b -> Q D' b) -> wp D own (rfold f l b) Q.
Proof.
  induction l as [|a l IH]; intros D own b Q Hg Hb Hf HQ; cbn; [by apply HQ|]. apply run_wp_bind.
  eapply run_wp_mono; [done| |apply Hf; [by left|done|done|done]]. intros D1 b1 Hs1 Hg1 Hb1 own1.
  apply IH; [done|done|intros a' b' D2 own2 Ha Hb' Hs2 Hg2; apply Hf; [by right|done|by etrans|done]|].
  intros D2 b2 Hs2 Hg2. apply HQ; [by etrans|done].
Qed.

Lemma wp_rfilter {A} (p : A -> run bool) (l : list A) : forall D own (Q : Defs -> list A -> Prop),
  good D -> (forall a, harmless (p a)) -> (forall D' bs, D ⊆ D' -> good D' -> bs ⊆ l -> Q D' bs) -> wp D own (rfilter p l) Q.
Proof.
  induction l as [|a l IH]; intros D own Q Hg Hp HQ; cbn; [by apply HQ|]. apply run_wp_bind. apply Hp; [done|].
  intros D1 b Hs1 Hg1 own1. apply run_wp_bind. apply IH; [done|done|]. intros D2 bs Hs2 Hg2 Hbs own2. cbn. apply HQ; [by etrans|done|].
  intros x Hx. destruct b; [|by right; apply Hbs]. apply elem_of_cons in Hx as [->|Hx]; [by left|right; by apply Hbs].
Qed.

(** *** Statements keep the not-null columns *)

Section Statements.
Context `{Lowercase} `{SqlLib} `{Debug} `{ShowExpr} `{SqlParser} `{CatCodec}.

Lemma wp_read {A} (m : run A) D own (Q : Defs -> A -> Prop) :
  harmless m -> good D -> (forall D' a, D ⊆ D' -> good D' -> Q D' a) -> wp D own m Q.
Proof. intros Hm. apply Hm. Qed.

Lemma harmless_visible ns ts : harmless (for_each_visible ns ts).
Proof.
  unfold for_each_visible. apply harmless_bind; [by apply (harmless_ask RClock)|]. intros now.
  apply harmless_bind; [by apply (harmless_ask (RKeys ns))|]. intros keys. apply harmless_bind; [|intros; apply harmless_done].
  induction keys as [|k keys IH]; cbn [rmap]; [apply harmless_done|]. apply harmless_bind.
  - unfold read_key. apply harmless_bind; [by apply (harmless_ask (RChain (ns, k)))|intros; apply harmless_done].
  - intros b. apply harmless_bind; [done|intros; apply harmless_done].
Qed.

Lemma harmless_scan sess d : harmless (scan sess d).
Proof.
  unfold scan. apply harmless_bind; [destruct sess; [apply harmless_done|by apply (harmless_ask RCurrentTs)]|]. intros ts.
  apply harmless_bind; [apply harmless_visible|]. intros found. destruct sess; apply harmless_done.
Qed.

#[export] Instance harmless_reading sess : Reading sess (@harmless).
Proof.
  split; [apply @harmless_done|apply @harmless_bind|by apply (harmless_ask RClock)|by apply (harmless_ask RPid)
    |intros n; by apply (harmless_ask (RTable n))|by apply (harmless_ask RTables)|apply harmless_scan].
Qed.

Lemma wp_resolve D own n (Q : Defs -> TableDef -> Prop) :
  good D -> (forall D' d, D ⊆ D' -> good D' -> d ∈ D' -> Q D' d) -> wp D own (resolve_def n) Q.
Proof.
  intros Hg HQ. unfold resolve_def, catalog_get. apply run_wp_bind. cbn. split; [done|]. intros D' own' a Hs Hg' [_ Ha] own2.
  destruct a as [d|]; cbn; [|done]. apply HQ; auto.
Qed.

Lemma visible_ok D nk c ts now x : chain_ok D nk c -> visible_datum (Some c) ts now = Some x -> datum_ok D nk x.
Proof.
  intros Hc Hv. unfold visible_datum in Hv. cbn in Hv. destruct (visible_at c ts) as [v|] eqn:Hvis; cbn in Hv; [|done].
  destruct (is_expired _ _); [done|]. apply (Hc v); [|done]. clear -Hvis. induction c as [|w c IH]; cbn in Hvis; [done|].
  case_match; simplify_eq; [by left|right; auto].
Qed.

Lemma wp_visible D own ns ts (Q : Defs -> list (Bytes * Datum) -> Prop) :
  good D -> (forall D' found, D ⊆ D' -> good D' -> (forall kd, kd ∈ found -> key_ok (ns, kd.1) /\ datum_ok D' (ns, kd.1) kd.2) -> Q D' found) ->
  wp D own (for_each_visible ns ts) Q.
Proof.
  intros Hg HQ. unfold for_each_visible. apply run_wp_bind, wp_read; [by apply (harmless_ask RClock)|done|]. intros D1 now Hs1 Hg1 own1.
  apply run_wp_bind. split; [done|]. intros D2 own2 keys Hs2 Hg2 [_ Hkeys] own2'. apply run_wp_bind.
  assert (Hk : forall D own (Q' : Defs -> list (option (Bytes * Datum)) -> Prop), good D ->
    (forall D' l, D ⊆ D' -> good D' -> (forall kd, Some kd ∈ l -> key_ok (ns, kd.1) /\ datum_ok D' (ns, kd.1) kd.2) -> Q' D' l) ->
    wp D own (rmap (read_key ns ts now) keys) Q').
  { clear -Hkeys. induction keys as [|k keys IH]; intros D own Q' Hg HQ'; [apply HQ'; [done|done|intros kd Hin; by apply elem_of_nil in Hin]|].
    specialize (IH (fun k' Hk' => Hkeys k' ltac:(by right))).
    rewrite read_keys_cons. cbn [wp]. split; [done|]. intros D1 own1 a Hs1 Hg1 [_ Ha]. apply run_wp_bind, IH; [done|].
    intros D2 l Hs2 Hg2 Hl own2. cbn. apply HQ'; [by etrans|done|]. intros kd Hin. apply elem_of_cons in Hin as [Hin|Hin]; [|by apply Hl].
    destruct a as [c|]; [|done]. destruct (visible_datum (Some c) ts now) as [x|] eqn:Hv; cbn in Hin; simplify_eq. cbn.
    split; [apply Hkeys; by left|]. eapply datum_ok_mono; [exact Hs2|]. eapply visible_ok; [by apply Ha|done]. }
  apply Hk; [done|]. intros D3 l Hs3 Hg3 Hl own3. cbn. apply HQ; [by etrans; [|etrans]|done|].
  intros kd Hin. apply list_elem_of_omap in Hin as (o & Hin & Ho). cbn in Ho. subst o. by apply Hl.
Qed.

Lemma wp_scan D (own : option Z) (sess : Session) (d : TableDef) (Q : Defs -> list (Z * Row) -> Prop) :
  good D -> sess_ok D sess -> d ∈ D ->
  (forall D' rows, D ⊆ D' -> good D' -> Forall (fun rr => conforms d rr.2) rows -> Q D' rows) -> wp D own (scan sess d) Q.
Proof.
  intros Hg Ht Hd HQ. unfold scan. apply run_wp_bind, wp_read.
  { destruct sess; [apply harmless_done|by apply (harmless_ask RCurrentTs)]. }
  { done. }
  intros D1 ts Hs1 Hg1 own1. apply run_wp_bind, wp_visible; [done|]. intros D2 found Hs2 Hg2 Hf own2.
  assert (Hrows : Forall (fun rr : Z * Row => conforms d rr.2) (omap as_row found)).
  { apply Forall_forall. intros [id r] Hin. apply list_elem_of_omap in Hin as ([k x] & Hin & Ha). destruct (Hf _ Hin) as [_ Hf']. cbn in Hf'.
    unfold as_row in Ha. cbn in Ha. destruct x; try done. destruct (length k =? 8)%nat; simplify_eq. cbn.
    eapply datum_conforms; [exact Hg2| |exact Hf']. by apply Hs2, Hs1. }
  cbn. apply HQ; [by etrans|done|]. destruct sess as [t|]; [|done]. unfold with_overlay.
  destruct (sorted_by_fst (List.filter (fun r => negb (bool_decide (is_Some (t_overlay t !! (td_ns d, rowid_key r.1))))) (omap as_row found)
    ++ staged_rows (td_ns d) (t_overlay t))) as [_ Hp]. rewrite Hp. apply Forall_app. split.
  - apply Forall_forall. intros rr Hin. apply list_elem_of_In, filter_In in Hin as [Hin _]. rewrite Forall_forall in Hrows.
    by apply Hrows, list_elem_of_In.
  - apply Forall_forall. intros [id r] Hin. apply (staged_in t (tx_keys D t Ht)) in Hin. cbn.
    eapply (datum_conforms D); [done|done|]. by eapply (tx_overlay D).
Qed.

Lemma wp_commit_now D (own : option Z) prefix ws keys (Q : Defs -> unit -> Prop) :
  good D -> Forall (op_ok D) ws -> (forall D', D ⊆ D' -> good D' -> Q D' tt) -> wp D own (commit_now prefix ws keys) Q.
Proof.
  intros Hg Hw HQ. unfold commit_now, commit. cbn. split; [done|]. intros D1 own1 ts Hs1 Hg1 _.
  split; [by apply (pre_mono D D1 own1 (RCommit {| read_ts := 0; writes := ws; conflict_keys := keys |}))|].
  intros D2 own2 a Hs2 Hg2 _. destruct a as [ts'|e]; cbn; [|done]. apply HQ; [by etrans|done].
Qed.

Lemma overlay_op_ok D op ov :
  (forall nk r, ov !! nk = Some (Some r) -> datum_ok D nk (DRow r)) -> op_ok D op ->
  forall nk r, overlay_op ov op !! nk = Some (Some r) -> datum_ok D nk (DRow r).
Proof.
  intros Ho [_ Hop] nk r Hl. destruct op as [ns k x e|ns k]; cbn in *.
  - destruct (decide (nk = (ns, k))) as [->|Hne].
    + destruct x; rewrite lookup_insert_eq in Hl; simplify_eq; done.
    + destruct x; rewrite lookup_insert_ne in Hl by done; by apply Ho.
  - destruct (decide (nk = (ns, k))) as [->|Hne]; [by rewrite lookup_insert_eq in Hl|]. rewrite lookup_insert_ne in Hl by done. by apply Ho.
Qed.

Lemma overlay_op_keys op ov :
  (forall nk r, ov !! nk = Some r -> Forall is_u8 nk.2) -> Forall is_u8 (op_key op).2 ->
  forall (nk : NsKey) r, overlay_op ov op !! nk = Some r -> Forall is_u8 nk.2.
Proof.
  intros Ho Hk nk r Hl. assert (nk = op_key op \/ ov !! nk = Some r) as [->|Hl']; [|done|by eapply Ho].
  destruct op as [ns k x e|ns k]; cbn in *; (destruct (decide (nk = (ns, k))) as [->|Hne]; [by left|right]);
    [destruct x|]; by rewrite lookup_insert_ne in Hl.
Qed.

Lemma staged_txn_ok D t ws keys :
  txn_ok D t -> Forall (op_ok D) ws -> (forall op, op ∈ ws -> op_key op ∈ keys) -> Forall (fun op => Forall is_u8 (op_key op).2) ws ->
  txn_ok D (stage_writes t ws keys).
Proof.
  intros [Hw Ho Hk Hc] Hws Hkeys Hu. split; cbn.
  - by apply Forall_app.
  - clear Hkeys Hu Hk Hc Hw. revert Ho. generalize (t_overlay t). induction Hws as [|op ws Hop Hws IH]; intros ov Ho; cbn; [done|].
    apply IH. by apply overlay_op_ok.
  - clear Hkeys Hws Hc Hw Ho. revert Hk. generalize (t_overlay t). induction Hu as [|op ws Hop Hws IH]; intros ov Ho; cbn; [done|].
    apply IH. by apply overlay_op_keys.
  - intros op. rewrite !elem_of_app. intros [Hin|Hin]; [left; by apply Hc|right; by apply Hkeys].
Qed.

Lemma wp_apply D (own : option Z) (sess : Session) ws keys (Q : Defs -> Session -> Prop) :
  good D -> sess_ok D sess -> Forall (op_ok D) ws -> (forall op, op ∈ ws -> op_key op ∈ keys) ->
  Forall (fun op => Forall is_u8 (op_key op).2) ws ->
  (forall D' sess', D ⊆ D' -> good D' -> sess_ok D' sess' -> Q D' sess') -> wp D own (apply_writes sess ws keys) Q.
Proof.
  intros Hg Ht Hw Hk Hu HQ. unfold apply_writes. destruct ws as [|op ws]; [by apply HQ|]. destruct sess as [t|].
  - cbn [wp ret pok]. apply HQ; [done|done|]. apply staged_txn_ok; eauto.
  - apply run_wp_bind, wp_commit_now; [done|done|]. intros D' Hs Hg' own'. by apply HQ.
Qed.

Context (sess : Session) (params : list Scalar).
Implicit Types (d : TableDef) (rr : Z * Row).

Lemma harmless_eval ctx e : harmless (eval_in sess params ctx e).
Proof. unfold eval_in. apply (rd_eval sess (@harmless)). Qed.

Lemma harmless_rmap {A B} (f : A -> run B) l : (forall a, a ∈ l -> harmless (f a)) -> harmless (rmap f l).
Proof. apply (rd_rmap sess (@harmless)). Qed.

Lemma harmless_returning d rows ret_ : harmless (project_returning sess params d rows ret_).
Proof.
  unfold project_returning. destruct ret_ as [items|]; [|apply harmless_done]. apply harmless_bind; [|intros; apply harmless_done].
  apply harmless_rmap. intros r _. apply harmless_bind; [|intros; apply harmless_done]. apply harmless_rmap. intros i _.
  destruct i; cbn; try apply harmless_done; (apply harmless_bind; [apply harmless_eval|intros; apply harmless_done]).
Qed.

(** The rows a statement writes to a table. *)
Lemma put_rows_ok D d rows : d ∈ D -> Forall (fun rr : Z * Row => conforms d rr.2) rows -> Forall (op_ok D) (map (put_row d) rows).
Proof.
  intros Hd Hr. apply Forall_map. eapply Forall_impl; [exact Hr|]. intros rr Hc. split; [intros _; apply to_be_u8|]. intros _. by exists d.
Qed.

Lemma row_keys d (f : Z * Row -> WriteOp) rows op :
  (forall rr, op_key (f rr) = row_nskey d rr) -> op ∈ map f rows -> op_key op ∈ map (row_nskey d) rows.
Proof.
  intros Hf. rewrite !list_elem_of_In, !in_map_iff. intros (rr & <- & Hin). exists rr. split; [by rewrite Hf|done].
Qed.

Lemma row_keys_u8 d (f : Z * Row -> WriteOp) rows :
  (forall rr, op_key (f rr) = row_nskey d rr) -> Forall (fun op => Forall is_u8 (op_key op).2) (map f rows).
Proof. intros Hf. apply Forall_map, Forall_forall. intros rr _. rewrite Hf. apply to_be_u8. Qed.

(** RETURNING and the writes, which every statement on rows ends with. *)
Lemma wp_finish D (own : option Z) d (rows : list (Z * Row)) (ret_ : option (list (SelectItem Expr))) (f : Z * Row -> WriteOp) (tag : Bytes) (Q : Defs -> ExecOut * Session -> Prop) :
  good D -> sess_ok D sess -> (forall rr, op_key (f rr) = row_nskey d rr) -> Forall (op_ok D) (map f rows) ->
  (forall D' os, D ⊆ D' -> good D' -> sess_ok D' os.2 -> Q D' os) ->
  wp D own (let& out := project_returning sess params d rows ret_ in
            let& sess' := apply_writes sess (map f rows) (map (row_nskey d) rows) in ret (dml_out tag out, sess')) Q.
Proof.
  intros Hg Ht Hf Hops HQ. apply run_wp_bind, wp_read; [apply harmless_returning|done|]. intros D1 out Hs1 Hg1 own1.
  apply run_wp_bind, wp_apply; [done|by eapply sess_ok_mono| |intros op; by apply row_keys|by eapply row_keys_u8|].
  - eapply Forall_impl; [exact Hops|]. intros op. by apply op_ok_mono.
  - intros D2 sess' Hs2 Hg2 Ht' own2. cbn. apply HQ; [by etrans|done|done].
Qed.

Implicit Types (Q : Defs -> ExecOut * Session -> Prop).

Lemma wp_insert_row D (own : option Z) d targets vr :
  good D -> wp D own (insert_row d targets vr) (fun _ rr => conforms d rr.2).
Proof.
  intros Hg. unfold insert_row. destruct (negb _); [done|]. destruct (new_row d targets vr) as [row|e] eqn:Hr; cbn; [|done].
  split; [done|]. intros D' own' rowid Hs Hg' _. cbn. by apply inserted_conforms with (targets := targets) (vr := vr).
Qed.

Lemma wp_insert D (own : option Z) table columns source ret_ Q :
  good D -> sess_ok D sess -> (forall D' os, D ⊆ D' -> good D' -> sess_ok D' os.2 -> Q D' os) ->
  wp D own (exec_insert sess params table columns source ret_) Q.
Proof.
  intros Hg Ht HQ. unfold exec_insert. apply run_wp_bind, wp_resolve; [done|]. intros D1 d Hs1 Hg1 Hd own1.
  destruct (List.find _ _); [done|]. destruct source as [q|]; [|done]. apply run_wp_bind, wp_read; [|done|].
  { unfold source_rows. assert (Hq : harmless (query_of {| qe_sess := sess; qe_params := params |} q)) by apply (rd_query_of sess (@harmless)).
    destruct (q_body q); try (apply harmless_bind; [done|intros; apply harmless_done]).
    apply harmless_rmap. intros r _. apply harmless_rmap. intros e _. apply harmless_eval. }
  intros D2 vrs Hs2 Hg2 own2. apply run_wp_bind, (wp_rmap _ _ (fun rr => conforms d rr.2)); [done| |].
  - intros vr D' own' _ _ Hg'. by apply wp_insert_row.
  - intros D3 rows Hs3 Hg3 Hrows own3. apply wp_finish; [done|eapply sess_ok_mono; [|done]; set_solver|done| |].
    + apply put_rows_ok; [set_solver|done].
    + intros D4 os Hs4 Hg4. apply HQ; [set_solver|done].
Qed.

Lemma harmless_selected d selection row : harmless (selected sess params d selection row).
Proof. unfold selected. destruct selection; [|apply harmless_done]. apply harmless_bind; [apply harmless_eval|intros; apply harmless_done]. Qed.

Lemma wp_assign D (own : option Z) d ctx row a :
  good D -> conforms d row -> wp D own (assign sess params d ctx row a) (fun _ row' => conforms d row').
Proof.
  intros Hg Hr. unfold assign. apply run_wp_bind, wp_read; [unfold assignment_col; destruct (List.last _ _); apply harmless_done|done|].
  intros D1 name Hs1 Hg1 own1. destruct (column d name) as [c|] eqn:Hc; [|done]. apply run_wp_bind, wp_read; [apply harmless_eval|done|].
  intros D2 v Hs2 Hg2 own2. destruct (is_null _ && _) eqn:Hn; [done|]. cbn. apply assigned_conforms; [done|by eapply column_in|done].
Qed.

Lemma wp_update_row D (own : option Z) d assignments selection rr :
  good D -> conforms d rr.2 ->
  wp D own (update_row sess params d assignments selection rr) (fun _ o => forall rr', o = Some rr' -> conforms d rr'.2).
Proof.
  intros Hg Hr. unfold update_row. apply run_wp_bind, wp_read; [apply harmless_selected|done|]. intros D1 keep Hs1 Hg1 own1.
  destruct keep; [|by cbn]. apply run_wp_bind, (wp_rfold _ _ (conforms d)); [done|done| |].
  - intros a row D' own' _ Hrow _ Hg'. by apply wp_assign.
  - intros D2 row Hs2 Hg2 Hrow own2. cbn. intros rr' [= <-]. done.
Qed.

Lemma wp_update D (own : option Z) table assignments selection ret_ Q :
  good D -> sess_ok D sess -> (forall D' os, D ⊆ D' -> good D' -> sess_ok D' os.2 -> Q D' os) ->
  wp D own (exec_update sess params table assignments selection ret_) Q.
Proof.
  intros Hg Ht HQ. unfold exec_update. destruct table as [name alias|]; [|done]. apply run_wp_bind, wp_resolve; [done|].
  intros D1 d Hs1 Hg1 Hd own1. apply run_wp_bind, wp_scan; [done|by eapply sess_ok_mono|done|]. intros D2 rows Hs2 Hg2 Hrows own2.
  apply run_wp_bind, (wp_rmap _ _ (fun o => forall rr', o = Some rr' -> conforms d rr'.2)); [done| |].
  - intros rr D' own' Hin _ Hg'. apply wp_update_row; [done|]. rewrite Forall_forall in Hrows. by apply Hrows.
  - intros D3 upd Hs3 Hg3 Hupd own3. apply wp_finish; [done|eapply sess_ok_mono; [|done]; set_solver|done| |].
    + apply put_rows_ok; [set_solver|]. apply Forall_forall. intros rr Hin. apply list_elem_of_omap in Hin as (o & Hin & Ho). cbn in Ho. subst o.
      rewrite Forall_forall in Hupd. by apply (Hupd _ Hin).
    + intros D4 os Hs4 Hg4. apply HQ; [set_solver|done].
Qed.

Lemma dels_ok D d (rows : list (Z * Row)) : Forall (op_ok D) (map (del_row d) rows).
Proof. apply Forall_map, Forall_forall. intros rr _. split; [intros _; apply to_be_u8|done]. Qed.

Lemma wp_delete D (own : option Z) from selection ret_ Q :
  good D -> sess_ok D sess -> (forall D' os, D ⊆ D' -> good D' -> sess_ok D' os.2 -> Q D' os) ->
  wp D own (exec_delete sess params from selection ret_) Q.
Proof.
  intros Hg Ht HQ. unfold exec_delete. destruct from as [|[name alias|] from]; [done| |done]. apply run_wp_bind, wp_resolve; [done|].
  intros D1 d Hs1 Hg1 Hd own1. apply run_wp_bind, wp_scan; [done|by eapply sess_ok_mono|done|]. intros D2 rows Hs2 Hg2 Hrows own2.
  apply run_wp_bind, wp_rfilter; [done|intros; apply harmless_selected|]. intros D3 dels Hs3 Hg3 _ own3.
  apply wp_finish; [done|eapply sess_ok_mono; [|done]; set_solver|done|apply dels_ok|].
  intros D4 os Hs4 Hg4. apply HQ; [set_solver|done].
Qed.

Lemma wp_truncate D (own : option Z) table Q :
  good D -> sess_ok D sess -> (forall D' os, D ⊆ D' -> good D' -> sess_ok D' os.2 -> Q D' os) ->
  wp D own (exec_truncate sess table) Q.
Proof.
  intros Hg Ht HQ. unfold exec_truncate. apply run_wp_bind, wp_resolve; [done|]. intros D1 d Hs1 Hg1 Hd own1.
  apply run_wp_bind, wp_read; [destruct sess; [apply harmless_done|by apply (harmless_ask RCurrentTs)]|done|]. intros D2 ts Hs2 Hg2 own2.
  apply run_wp_bind, wp_visible; [done|]. intros D3 found Hs3 Hg3 Hf own3. assert (Hns : NS_PG_BASE <= td_ns d) by (by apply Hg1).
  apply run_wp_bind, wp_apply; [done|eapply sess_ok_mono; [|done]; set_solver| | | |].
  - apply Forall_map, Forall_forall. intros kd Hin. by destruct (Hf kd Hin).
  - intros op. rewrite !list_elem_of_In, !in_map_iff. intros (kd & <- & Hin). by exists kd.
  - apply Forall_map, Forall_forall. intros kd Hin. by apply (Hf kd Hin).
  - intros D4 sess' Hs4 Hg4 Ht' own4. cbn. apply HQ; [set_solver|done|done].
Qed.

Lemma wp_commit D (own : option Z) prefix r (Q : Defs -> unit -> Prop) :
  good D -> Forall (op_ok D) (writes r) -> (forall D', D ⊆ D' -> good D' -> Q D' tt) -> wp D own (commit prefix r) Q.
Proof.
  intros Hg Hw HQ. unfold commit. cbn. split; [done|]. intros D2 own2 a Hs2 Hg2 _. destruct a as [ts'|e]; cbn; [|done]. by apply HQ.
Qed.

Lemma wp_create D (own : option Z) name cols (Q : Defs -> TableDef * Bytes * Bytes -> Prop) :
  good D -> (forall D' r, D ⊆ D' -> good D' -> Q D' r) -> wp D own (catalog_create name cols) Q.
Proof.
  intros Hg HQ. unfold catalog_create. apply run_wp_bind. split; [done|]. intros D1 own1 a Hs1 Hg1 _ own1'. destruct a; [done|].
  cbn [ask rbind ret pok wp]. split; [done|]. intros D2 own2 ns Hs2 Hg2 Hown. cbn in Hown. subst own2.
  destruct (def_to_vec _) as [blob|e]; [|done]. cbn. split; [done|]. intros D3 own3 [] Hs3 Hg3 _. apply HQ; [set_solver|done].
Qed.

Lemma wp_create_table D (own : option Z) name cols ine (Q : Defs -> ExecOut -> Prop) :
  good D -> (forall D' o, D ⊆ D' -> good D' -> Q D' o) -> wp D own (exec_create_table name cols ine) Q.
Proof.
  intros Hg HQ. unfold exec_create_table. apply run_wp_bind, wp_read; [|done|].
  { destruct ine; [apply (harmless_ask (RTable _)); done|apply harmless_done]. }
  intros D1 present Hs1 Hg1 own1. destruct present; [by apply HQ|]. apply run_wp_bind, wp_create; [done|]. intros D2 [[d key] blob] Hs2 Hg2 own2.
  apply run_wp_bind, wp_commit_now; [done| |].
  - repeat constructor. intros Hb. unfold NS_PG_BASE, NS_PG_CATALOG in Hb. cbn in Hb. lia.
  - intros D3 Hs3 Hg3 own3. cbn. apply HQ; [set_solver|done].
Qed.

Lemma wp_drop_one D (own : option Z) ie n : good D -> wp D own (drop_one ie n) (fun _ _ => True).
Proof.
  intros Hg. unfold drop_one. apply run_wp_bind. split; [done|]. intros D1 own1 a Hs1 Hg1 _ own1'. destruct a as [d|]; [|by destruct ie].
  apply run_wp_bind, wp_read; [by apply (harmless_ask RCurrentTs)|done|]. intros D2 ts Hs2 Hg2 own2. apply run_wp_bind, wp_visible; [done|].
  intros D3 found Hs3 Hg3 Hf own3. apply wp_commit; [done| |done]. cbn. constructor.
  - split; [|done]. intros Hb. unfold NS_PG_BASE, NS_PG_CATALOG in Hb. cbn in Hb. lia.
  - apply Forall_map, Forall_forall. intros kd Hin. by destruct (Hf kd Hin).
Qed.

Lemma wp_commit_txn D (own : option Z) (Q : Defs -> result Bytes ExecOut * Session -> Prop) :
  good D -> sess_ok D sess -> (forall D' o, D ⊆ D' -> good D' -> Q D' (o, None)) -> wp D own (commit_txn sess) Q.
Proof.
  intros Hg Ht HQ. unfold commit_txn. destruct sess as [t|]; [|by apply HQ]. apply run_wp_bind.
  assert (Hend : forall D' o, D ⊆ D' -> good D' -> forall own', wp D' own' (let& _ := drop_txn (Some t) in ret (o, None)) Q).
  { intros D' o Hs' Hg' own'. apply run_wp_bind, wp_read; [by apply (harmless_ask (RUnpin _))|done|]. intros. apply HQ; [set_solver|done]. }
  destruct (t_aborted t); [cbn; by apply Hend|]. destruct (t_writes t) as [|op ws] eqn:Hw; [cbn; by apply Hend|].
  apply run_wp_bind, wp_catch; [done|apply wp_commit; [done| |]|].
  - cbn. rewrite <- Hw. apply Ht.
  - intros D1 Hs1 Hg1 own1. cbn [wp ret pok]. intros own2. by apply Hend.
  - intros D1 e Hs1 Hg1 own1. cbn [wp ret pok]. intros own2. by apply Hend.
Qed.

(** Sessions after a statement. *)
Definition done_ok (A : Type) D (rs : result Bytes A * Session) : Prop := sess_ok D rs.2.

Lemma wp_keeping D (own : option Z) m :
  good D -> sess_ok D sess -> wp D own m (fun D' os => sess_ok D' os.2) -> wp D own (keeping sess m) (done_ok ExecOut).
Proof.
  intros Hg Ht Hm. unfold keeping. apply run_wp_bind, wp_catch; [done| |].
  - eapply run_wp_mono; [done| |exact Hm]. intros D' [o s'] Hs' Hg' Hs2 own'. done.
  - intros D' e Hs' Hg' own'. cbn. by eapply sess_ok_mono.
Qed.

Lemma wp_with_sess D (own : option Z) m :
  good D -> sess_ok D sess -> wp D own m (fun _ _ => True) -> wp D own (with_sess sess m) (done_ok ExecOut).
Proof.
  intros Hg Ht Hm. unfold with_sess. apply wp_keeping; [done|done|]. apply run_wp_bind. eapply run_wp_mono; [done| |exact Hm].
  intros D' o Hs' Hg' _ own'. cbn. by eapply sess_ok_mono.
Qed.

Lemma wp_stmt D (own : option Z) s : good D -> sess_ok D sess -> wp D own (exec_stmt sess params s) (done_ok ExecOut).
Proof.
  intros Hg Ht. destruct s; cbn [exec_stmt]; try exact Ht.
  - apply wp_with_sess; [done|done|]. apply run_wp_bind, wp_read; [apply (rd_query_of sess (@harmless))|done|done].
  - apply wp_keeping; [done|done|]. by apply wp_insert.
  - apply wp_keeping; [done|done|]. by apply wp_update.
  - apply wp_keeping; [done|done|]. by apply wp_delete.
  - apply wp_with_sess; [done|done|]. by apply wp_create_table.
  - apply wp_with_sess; [done|done|]. destruct is_table; [|done]. unfold exec_drop.
    apply run_wp_bind, (wp_rmap _ _ (fun _ => True)); [done| |done]. intros n D' own' _ _ Hg'. by apply wp_drop_one.
  - apply wp_keeping; [done|done|]. by apply wp_truncate.
  - apply wp_keeping; [done|done|]. unfold begin_txn. destruct sess as [t|]; [exact Ht|]. apply run_wp_bind, wp_read; [by apply (harmless_ask RCurrentTs)|done|].
    intros D1 ts Hs1 Hg1 own1. apply run_wp_bind, wp_read; [by apply (harmless_ask (RRegister ts))|done|].
    intros D2 u Hs2 Hg2 own2. cbn. split; cbn; [constructor|intros nk r Hl; by rewrite lookup_empty in Hl..|intros op Hin; by apply elem_of_nil in Hin].
  - by apply wp_commit_txn.
  - apply run_wp_bind. unfold drop_txn. destruct sess; [|done]. cbn. done.
Qed.
End Statements.

Section Programs.
Context `{Lowercase} `{SqlLib} `{Debug} `{ShowExpr} `{SqlParser} `{CatCodec}.

Lemma abort_ok D sess : sess_ok D sess -> sess_ok D (abort sess).
Proof. destruct sess as [t|]; [|done]. intros [? ? ? ?]. by split. Qed.

Lemma wp_all params stmts : forall D (own : option Z) sess out,
  good D -> sess_ok D sess -> wp D own (exec_all sess params stmts out) (done_ok (list ExecOut)).
Proof.
  induction stmts as [|s stmts IH]; intros D own sess out Hg Ht; cbn [exec_all]; [exact Ht|]. destruct (_ && _); [exact Ht|].
  apply run_wp_bind. eapply run_wp_mono; [done| |by apply wp_stmt]. intros D' [[o|e] sess'] Hs' Hg' Hd own'; [by apply IH|].
  by apply abort_ok.
Qed.

Lemma wp_execute D (own : option Z) sess sql params :
  good D -> sess_ok D sess -> wp D own (execute sess sql params) (done_ok (list ExecOut)).
Proof. intros Hg Ht. unfold execute. destruct (parse_sql sql); [by apply wp_all|exact Ht]. Qed.
End Programs.

(** ** Every interleaving of connections *)

Section System.
Context `{Lowercase} `{SqlLib} `{Debug} `{ShowExpr} `{SqlParser} `{CatCodec}.

Record engine_ok D (e : Engine) : Prop := {
  eo_tables : forall n d, en_tables e !! n = Some d -> d ∈ D;
  eo_ns : forall d, d ∈ D -> td_ns d < en_next_ns e;
  eo_base : NS_PG_BASE <= en_next_ns e;
  eo_chains : forall nk c, chains (inner e) !! nk = Some c -> key_ok nk /\ chain_ok D nk c }.

(** The namespaces taken for tables that are not in the catalogue yet. *)
Record tokens_ok D (e : Engine) (owns : list (option Z)) : Prop := {
  to_apart : forall i j x, owns !! i = Some (Some x) -> owns !! j = Some (Some x) -> i = j;
  to_fresh : forall x, Some x ∈ owns -> NS_PG_BASE <= x < en_next_ns e /\ forall d, d ∈ D -> td_ns d <> x }.

Definition conn_ok D (own : option Z) (c : PgConn) : Prop :=
  match pc_prog c with None => sess_ok D (pc_sess c) | Some m => wp D own m (done_ok (list ExecOut)) end.

Definition system_ok (s : PgSystem) : Prop := exists D owns,
  good D /\ engine_ok D (ps_engine s) /\ tokens_ok D (ps_engine s) owns /\ Forall2 (conn_ok D) owns (ps_conns s).

Lemma chain_ok_mono D D' nk c : D ⊆ D' -> chain_ok D nk c -> chain_ok D' nk c.
Proof. intros Hs Hc v x Hv Hx. eapply datum_ok_mono; [done|by eapply Hc]. Qed.

Lemma conn_ok_mono D D' own c : D ⊆ D' -> conn_ok D own c -> conn_ok D' own c.
Proof.
  intros Hs. unfold conn_ok. destruct (pc_prog c) as [m|]; [|by apply sess_ok_mono]. apply wp_grow; [done|].
  intros rs. by apply sess_ok_mono.
Qed.

Definition chains_ok D (i : Inner) : Prop := forall nk c, chains i !! nk = Some c -> key_ok nk /\ chain_ok D nk c.

Lemma prune_sub c m : prune c m ⊆ c.
Proof. unfold prune. destruct (first_dead c m 0); [apply subseteq_take|done]. Qed.

Lemma apply_op_ok D i op ts m : chains_ok D i -> op_ok D op -> chains_ok D (apply_op i op ts m).
Proof.
  intros Hc [Hk Ho] nk c Hl. rewrite apply_op_chains in Hl. destruct (decide (nk = op_key op)) as [->|Hne]; [|rewrite lookup_insert_ne in Hl by done; by apply Hc].
  rewrite lookup_insert_eq in Hl. injection Hl as <-. split; [done|]. intros v x Hv Hx. apply prune_sub in Hv.
  apply elem_of_cons in Hv as [->|Hv].
  - destruct op; cbn in *; [by injection Hx as <-|done].
  - unfold chain_of in Hv. destruct (chains i !! op_key op) as [c|] eqn:Hc'; cbn in Hv; [|by apply elem_of_nil in Hv].
    destruct (Hc _ _ Hc') as [_ Hcc]. by apply (Hcc v).
Qed.

Lemma apply_ops_ok D ops ts m : Forall (op_ok D) ops -> forall i, chains_ok D i -> chains_ok D (apply_ops i ops ts m).
Proof. unfold apply_ops. induction 1 as [|op ops Hop _ IH]; intros i Hc; cbn; [done|]. by apply IH, apply_op_ok. Qed.

Lemma seq_commit_ok D i m r a i' rec :
  chains_ok D i -> Forall (op_ok D) (writes r) -> seq_commit i m r = (a, i', rec) -> chains_ok D i'.
Proof.
  intros Hc Hw Hs. unfold seq_commit in Hs. destruct (has_conflict i r); [by simplify_eq|].
  destruct (writes r) as [|op ops]; simplify_eq; [done|]. intros nk c Hl. by apply (apply_ops_ok D (op :: ops) (last_commit i + 1) m Hw i Hc).
Qed.

Lemma engine_store D e s' : engine_ok D e -> chains_ok D (s_inner s') -> engine_ok D (set_store s' e).
Proof. intros [? ? ? ?] Hc. by split. Qed.

(** How definitions and the namespaces of one connection go on. *)
Definition evolves D (own : option Z) (e : Engine) D' (own' : option Z) (e' : Engine) : Prop :=
  own' = own /\ D' = D /\ en_next_ns e <= en_next_ns e'
  \/ own' = Some (en_next_ns e) /\ D' = D /\ en_next_ns e' = en_next_ns e + 1
  \/ own' = None /\ en_next_ns e' = en_next_ns e /\ exists d, D' = d :: D /\ own = Some (td_ns d).

Lemma engine_insert D e d :
  good D -> engine_ok D e -> NS_PG_BASE <= td_ns d < en_next_ns e -> (forall d', d' ∈ D -> td_ns d' <> td_ns d) ->
  good (d :: D) /\ engine_ok (d :: D) {| en_store := en_store e; en_tables := <[td_name d := d]> (en_tables e); en_next_ns := en_next_ns e;
                                        en_rowids := <[td_ns d := 1]> (en_rowids e) |}.
Proof.
  intros [Hu Hb] [Ht Hns Hbase Hc] Hd Hnew. split; [split|split; cbn].
  - intros d1 d2 H1' H2'. apply elem_of_cons in H1' as [->|H1'], H2' as [->|H2']; [done| | |by apply Hu].
    + intros Hx. by destruct (Hnew d2).
    + intros Hx. by destruct (Hnew d1).
  - intros d1 H1'. apply elem_of_cons in H1' as [->|H1']; [lia|by apply Hb].
  - intros n d1 Hl. destruct (decide (n = td_name d)) as [->|Hne]; [rewrite lookup_insert_eq in Hl; injection Hl as <-; by left|].
    rewrite lookup_insert_ne in Hl by done. right. by eapply Ht.
  - intros d1 H1'. apply elem_of_cons in H1' as [->|H1']; [lia|by apply Hns].
  - done.
  - intros nk c Hl. destruct (Hc nk c Hl) as [? Hch]. split; [done|]. eapply chain_ok_mono; [|exact Hch]. set_solver.
Qed.

(** What a request may rely on is what it gets. *)
Lemma observe_ok D (own : option Z) q obs a obs' e e' :
  good D -> engine_ok D e -> pre D own q -> (q = RNextNs -> en_next_ns e + 1 < 2 ^ 32) ->
  (forall x, own = Some x -> NS_PG_BASE <= x < en_next_ns e /\ forall d, d ∈ D -> td_ns d <> x) ->
  observe obs q e = Some (a, obs', e') ->
  exists D' own', D ⊆ D' /\ good D' /\ engine_ok D' e' /\ post D' own own' q a /\ evolves D own e D' own' e'.
Proof.
  intros Hg He Hp Hb Hown Ho. assert (He0 := He). destruct He0 as [Ht Hns Hbase Hc].
  assert (Hsame : e' = e -> post D own own q a ->
    exists D' own', D ⊆ D' /\ good D' /\ engine_ok D' e' /\ post D' own own' q a /\ evolves D own e D' own' e').
  { intros -> Hpost. exists D, own. repeat (split; [done|]). left. split; [done|]. split; [done|lia]. }
  assert (Hstore : forall s', e' = set_store s' e -> chains_ok D (s_inner s') -> post D own own q a ->
    exists D' own', D ⊆ D' /\ good D' /\ engine_ok D' e' /\ post D' own own' q a /\ evolves D own e D' own' e').
  { intros s' -> Hs Hpost. exists D, own. split; [done|]. split; [done|]. split; [by apply engine_store|]. split; [done|]. left. split; [done|]. split; [done|cbn; lia]. }
  destruct q as [| | |ns|nk|n| | |d|n|ns|ts|ts|r].
  - destruct obs as [|o obs]; cbn in Ho; simplify_eq. by apply Hsame.
  - destruct obs as [|o obs]; cbn in Ho; simplify_eq. by apply Hsame.
  - cbn in Ho. simplify_eq. by apply Hsame.
  - cbn in Ho. simplify_eq. apply Hsame; [done|]. split; [done|]. intros k Hk. apply keys_of_in in Hk as [c Hk]. by destruct (Hc _ _ Hk).
  - cbn in Ho. simplify_eq. apply Hsame; [done|]. split; [done|]. intros c Hk. by destruct (Hc _ _ Hk).
  - cbn in Ho. simplify_eq. apply Hsame; [done|]. split; [done|]. intros d Hd. by eapply Ht.
  - cbn in Ho. simplify_eq. apply Hsame; [done|]. split; [done|]. intros d Hd. apply list_elem_of_In, in_map_iff in Hd as ([n d'] & <- & Hd).
    apply list_elem_of_In, elem_of_map_to_list in Hd. by eapply Ht.
  - cbn in Ho. simplify_eq. exists D, (Some (en_next_ns e)). unfold wrap_u32.
    assert (0 <= en_next_ns e) by (unfold NS_PG_BASE in Hbase; lia). rewrite Z.mod_small by (specialize (Hb eq_refl); lia). split; [done|]. split; [done|]. split; [|split; [done|right; left; done]].
    split; cbn; [done|intros d Hd; specialize (Hns d Hd); lia|lia|done].
  - cbn in Ho. simplify_eq. cbn in Hp. destruct (Hown _ Hp) as [Hr Hnew]. destruct (engine_insert D e d Hg He Hr Hnew) as [Hg' He'].
    exists (d :: D), None. split; [set_solver|]. split; [done|]. split; [done|]. split; [split; [done|by left]|]. right. right.
    split; [done|]. split; [done|]. by exists d.
  - cbn in Ho. simplify_eq. exists D, own. split; [done|]. split; [done|]. split; [|split].
    + split; cbn; [|done|done|done]. intros n' d Hd. apply lookup_delete_Some in Hd as [_ Hd]. by eapply Ht.
    + split; [done|]. intros d Hd. by eapply Ht.
    + left. split; [done|]. split; [done|cbn; lia].
  - cbn in Ho. simplify_eq. exists D, own. split; [done|]. split; [done|]. split; [by split|]. split; [done|]. left. split; [done|]. split; [done|cbn; lia].
  - cbn in Ho. destruct (ts <=? _); cbn in Ho; simplify_eq. by eapply Hstore.
  - cbn in Ho. simplify_eq. eapply Hstore; [done| |done]. cbn. intros nk c Hl. rewrite drop_chains in Hl. by apply Hc.
  - cbn in Ho. unfold serve_commit in Ho. destruct (s_floor _) as [m|]; cbn in Ho; [|done]. destruct (s_ops _); [done|].
    destruct (seq_commit (inner e) m r) as [[a0 i] rec] eqn:Hs. cbn in Ho. simplify_eq. eapply Hstore; [done| |done].
    cbn. by eapply seq_commit_ok.
Qed.

Lemma tokens_evolve D e owns i own D' own' e' :
  engine_ok D e -> tokens_ok D e owns -> owns !! i = Some own -> evolves D own e D' own' e' -> tokens_ok D' e' (<[i := own']> owns).
Proof.
  intros Hok [Ha Hf] Hi He. assert (Hlen : (i < length owns)%nat) by (by eapply lookup_lt_Some).
  assert (Hin : forall j x, owns !! j = Some (Some x) -> NS_PG_BASE <= x < en_next_ns e /\ forall d, d ∈ D -> td_ns d <> x).
  { intros j x Hj. apply Hf. by eapply list_elem_of_lookup_2. }
  assert (Hget : forall j x, <[i := own']> owns !! j = Some (Some x) -> j = i /\ own' = Some x \/ j <> i /\ owns !! j = Some (Some x)).
  { intros j x Hj. destruct (decide (j = i)) as [->|Hne]; [rewrite list_lookup_insert_eq in Hj by done; left; split; [done|congruence]|].
    rewrite list_lookup_insert_ne in Hj by done. by right. }
  destruct He as [(-> & -> & Hle)|[(-> & -> & Hn)|(-> & Hn & d & -> & Hown)]].
  - rewrite list_insert_id by done. split; [done|]. intros x Hx. destruct (Hf x Hx). split; [lia|done].
  - split.
    + intros j1 j2 x H1' H2'. apply Hget in H1' as [[-> [= <-]]|[Hne1 H1']], H2' as [[-> Hx]|[Hne2 H2']]; [done| | |by eapply Ha].
      * apply Hin in H2'. lia.
      * injection Hx as <-. apply Hin in H1'. lia.
    + intros x Hx. apply list_elem_of_lookup in Hx as [j Hx]. apply Hget in Hx as [[-> [= <-]]|[Hne Hx]].
      * split.
        -- pose proof (eo_base D e Hok). lia.
        -- intros d Hd Heq. pose proof (eo_ns D e Hok d Hd). lia.
      * destruct (Hin j x Hx). split; [lia|done].
  - split.
    + intros j1 j2 x H1' H2'. apply Hget in H1' as [[_ Hx]|[Hne1 H1']], H2' as [[_ Hx']|[Hne2 H2']]; [done|done|done|by eapply Ha].
    + intros x Hx. apply list_elem_of_lookup in Hx as [j Hx]. apply Hget in Hx as [[_ Hx]|[Hne Hx]]; [done|].
      destruct (Hin j x Hx) as [Hr Hnew]. split; [lia|]. intros d' Hd'. apply elem_of_cons in Hd' as [->|Hd']; [|by apply Hnew].
      intros Heq. apply Hne. eapply Ha; [exact Hx|]. rewrite Hi, Hown. by rewrite Heq.
Qed.

Lemma others_chains D i i' : chains_ok D i -> keeps_tables i i' -> chains_ok D i'.
Proof.
  intros Hc Hk nk c' Hl. destruct (decide (NS_PG_BASE <= nk.1)) as [Hb|Hb].
  - destruct (Hk nk c') as (c & Hl' & Hsub); [unfold NS_PG_CATALOG, NS_PG_BASE in *; lia|done|]. destruct (Hc nk c Hl') as [Hkey Hch].
    split; [done|]. intros v x Hv. by apply Hch, Hsub.
  - split; [intros Hb'; by destruct Hb|]. intros v x Hv Hx. destruct x; try done. intros Hb'. by destruct Hb.
Qed.

Lemma step_keeps s s' : system_ok s -> pg_step s s' -> system_ok s'.
Proof.
  intros (D & owns & Hg & He & Ht & Hcs) Hs. destruct Hs as [e cs|e cs i sess sql params Hi|e cs i sess q k obs a obs' e' Hi Ho Hb
    |e cs i sess r sess' Hi|e cs i c Hi Hc|e cs s' Hs Hk]; cbn in *.
  - exists D, (owns ++ [None]). split; [done|]. split; [done|]. split; [|apply Forall2_app; [done|by repeat constructor]].
    destruct Ht as [Ha Hf]. assert (Hget : forall j x, (owns ++ [None]) !! j = Some (Some x) -> owns !! j = Some (Some x)).
    { intros j x Hj. apply lookup_app_Some in Hj as [Hj|[_ Hj]]; [done|]. by destruct (j - length owns)%nat as [|[]]. }
    split; [intros j1 j2 x H1' H2'; eauto|]. intros x Hx. apply list_elem_of_lookup in Hx as [j Hx]. apply Hf. apply Hget in Hx.
    by eapply list_elem_of_lookup_2.
  - destruct (Forall2_lookup_r _ _ _ _ _ Hcs Hi) as (own & Hown & Hc). exists D, owns. split; [done|]. split; [done|]. split; [done|].
    rewrite <- (list_insert_id owns i own) by done. apply Forall2_insert; [done|]. unfold conn_ok. cbn. by apply wp_execute.
  - destruct (Forall2_lookup_r _ _ _ _ _ Hcs Hi) as (own & Hown & [Hp Hc]).
    destruct (observe_ok D own q obs a obs' e e' Hg He Hp Hb) as (D' & own' & Hs & Hg' & He' & Hpost & Hev); [|done|].
    { intros x ->. apply Ht. by eapply list_elem_of_lookup_2. }
    exists D', (<[i := own']> owns). split; [done|]. split; [done|]. split; [by apply (tokens_evolve D e owns i own)|].
    apply Forall2_insert; [|by eapply Hc]. eapply Forall2_impl; [exact Hcs|]. intros o c'. by apply conn_ok_mono.
  - destruct (Forall2_lookup_r _ _ _ _ _ Hcs Hi) as (own & Hown & Hc). exists D, owns. split; [done|]. split; [done|]. split; [done|].
    rewrite <- (list_insert_id owns i own) by done. apply Forall2_insert; [done|]. exact Hc.
  - destruct (Forall2_lookup_r _ _ _ _ _ Hcs Hi) as (own & Hown & _). exists D, owns. split; [done|]. split; [done|]. split; [done|].
    rewrite <- (list_insert_id owns i own) by done. by apply Forall2_insert.
  - exists D, owns. split; [done|]. split; [|split; [|done]].
    + apply engine_store; [done|]. eapply others_chains; [|exact Hk]. exact (eo_chains D e He).
    + destruct Ht as [Ha Hf]. by split.
Qed.

(** An engine that has no tables yet, over a store that may hold anything else. *)
Record fresh (e : Engine) : Prop := {
  fr_tables : en_tables e = ∅;
  fr_ns : en_next_ns e = NS_PG_BASE;
  fr_chains : forall nk c, chains (inner e) !! nk = Some c -> nk.1 < NS_PG_BASE }.

Lemma reachable_system e s : fresh e -> rtc pg_step {| ps_engine := e; ps_conns := [] |} s -> system_ok s.
Proof.
  intros [Ht Hn Hc] Hr. assert (H0' : system_ok {| ps_engine := e; ps_conns := [] |}).
  { exists [], []. split; [split; [intros d d' Hd|intros d Hd]; by apply elem_of_nil in Hd|]. split; [|split; [|constructor]].
    - split; cbn; [intros n d Hl; by rewrite Ht in Hl|intros d Hd; by apply elem_of_nil in Hd|lia|].
      intros nk c Hl. specialize (Hc nk c Hl). split; [intros Hb; lia|]. intros v x _ _. destruct x; try done. intros Hb. lia.
    - split; [done|]. intros x Hx. by apply elem_of_nil in Hx. }
  revert H0'. induction Hr as [|s1 s2 s3 Hs _ IH]; intros H0'; [done|]. apply IH. by eapply step_keeps.
Qed.

(** *** What the engine does to the store are steps of the store *)

Lemma ops_steps ops i m g ts :
  rtc step {| s_inner := i; s_floor := Some m; s_ops := Some (ts, ops); s_gc := g |}
    {| s_inner := apply_ops i ops ts m; s_floor := Some m; s_ops := Some (ts, []); s_gc := g |}.
Proof. revert i. unfold apply_ops. induction ops as [|op ops IH]; intros i; cbn; [done|]. eapply rtc_l; [apply st_base, bs_op|apply IH]. Qed.

Lemma commit_steps e r a e' : serve_commit r e = Some (a, e') -> rtc step (en_store e) (en_store e').
Proof.
  unfold serve_commit, inner. destruct (en_store e) as [i f o g]. cbn. destruct f as [m|]; [|done]. destruct o; [done|].
  unfold seq_commit. destruct (has_conflict i r); [intros [= <- <-]; done|]. destruct (writes r) as [|op ops]; intros [= <- <-]; [done|]. cbn.
  eapply rtc_l; [apply st_base, (bs_batch _ _ _ (op :: ops))|]. etrans; [apply ops_steps|]. by apply rtc_once, st_base, bs_publish.
Qed.

Lemma serve_steps q e a e' : serve q e = Some (a, e') -> rtc step (en_store e) (en_store e').
Proof.
  destruct q as [| | |ns|nk|n| | |d|n|ns|ts|ts|r]; cbn; intros Hs; simplify_eq; try done; cbn; [| |by eapply commit_steps].
  - destruct (ts <=? _) eqn:Hts; simplify_eq. zbool. unfold inner, with_inner in *. destruct (en_store e) as [i f o g]. cbn in *.
    by apply rtc_once, st_pin.
  - unfold inner, with_inner. destruct (en_store e) as [i f o g]. cbn. destruct (active_snapshots i !! ts) as [n|] eqn:Hp.
    + apply rtc_once, st_base, bs_drop. by exists n.
    + unfold snapshot_drop. by rewrite Hp.
Qed.

Lemma observe_steps obs q e a obs' e' : observe obs q e = Some (a, obs', e') -> rtc step (en_store e) (en_store e').
Proof.
  intros Ho. assert (Hq : (exists a', serve q e = Some (a', e')) \/ e' = e).
  { destruct q; cbn [observe] in Ho; try (destruct obs; simplify_eq; by right); left;
      (match type of Ho with keep_obs _ ?m = _ => destruct m as [[a' e1]|] eqn:Hs end; cbn in Ho; simplify_eq; by eexists). }
  destruct Hq as [[a' Hs]| ->]; [by eapply serve_steps|done].
Qed.

Lemma apply_op_pins i op ts m : active_snapshots (apply_op i op ts m) = active_snapshots i.
Proof. destruct op as [ns k d [e|]|ns k]; cbn; destruct (head_live _); done. Qed.

Lemma ops_others ts0 e ops i m g ts :
  pinned i ts0 ->
  rtc (others ts0) (set_store {| s_inner := i; s_floor := Some m; s_ops := Some (ts, ops); s_gc := g |} e)
    (set_store {| s_inner := apply_ops i ops ts m; s_floor := Some m; s_ops := Some (ts, []); s_gc := g |} e)
  /\ pinned (apply_ops i ops ts m) ts0.
Proof.
  revert i. unfold apply_ops. induction ops as [|op ops IH]; intros i Hp; cbn; [done|].
  destruct (IH (apply_op i op ts m)) as [Hr Hp']; [unfold pinned; by rewrite apply_op_pins|]. split; [|done].
  eapply rtc_l; [|exact Hr].
  apply (ot_store ts0 (set_store _ e) {| s_inner := apply_op i op ts m; s_floor := Some m; s_ops := Some (ts, ops); s_gc := g |}); [done|].
  apply st_base, bs_op.
Qed.

(** Another session's commit is among what others may do. *)
Lemma commit_is_others ts0 r e a e' : serve_commit r e = Some (a, e') -> pinned (inner e) ts0 -> rtc (others ts0) e e'.
Proof.
  unfold serve_commit. destruct e as [s tabs n rs]. unfold inner. cbn. destruct s as [i f o g]. cbn. destruct f as [m|]; [|done]. destruct o; [done|].
  set (e := {| en_store := _; en_tables := tabs; en_next_ns := n; en_rowids := rs |}). intros Hs Hp. unfold seq_commit in Hs.
  destruct (has_conflict i r); [injection Hs as <- <-; done|]. destruct (writes r) as [|op ops]; injection Hs as <- <-; [done|].
  set (ts := last_commit i + 1). destruct (ops_others ts0 e (op :: ops) i m g ts Hp) as [Hr Hp'].
  eapply rtc_l; [by apply (ot_store ts0 e), st_base, (bs_batch i m g (op :: ops))|]. etrans; [exact Hr|]. apply rtc_once.
  apply (ot_store ts0 (set_store {| s_inner := apply_ops i (op :: ops) ts m; s_floor := Some m; s_ops := Some (ts, []); s_gc := g |} e)
    {| s_inner := set_last_commit (apply_ops i (op :: ops) ts m) ts; s_floor := Some m; s_ops := None; s_gc := g |}); [done|].
  apply st_base, bs_publish.
Qed.

(** A session that loaded a timestamp can register it, whatever happened since. *)
Lemma register_never_sticks e e' :
  sys_ok (en_store e) -> rtc step (en_store e) (en_store e') -> is_Some (serve (RRegister (current_ts (inner e))) e').
Proof.
  intros Hok Hr. enough (last_commit (inner e) <= last_commit (inner e')) by (cbn; rewrite zle_true by done; by eexists).
  unfold inner. revert Hok Hr. generalize (en_store e), (en_store e'). intros s s' Hok Hr.
  induction Hr as [|s1 s2 s3 Hs _ IH]; [done|]. etrans; [by eapply step_last|]. apply IH. by eapply step_ok.
Qed.

Lemma reachable_sys e s :
  sys_ok (en_store e) -> rtc pg_step {| ps_engine := e; ps_conns := [] |} s -> sys_ok (en_store (ps_engine s)).
Proof.
  intros Hok Hr. set (s0 := {| ps_engine := e; ps_conns := [] |}) in *.
  assert (Hs0 : sys_ok (en_store (ps_engine s0))) by done. clearbody s0. clear Hok. induction Hr as [|s1 s2 s3 Hs _ IH]; [done|].
  apply IH. destruct Hs as [| |e1 cs i sess q k obs a obs' e' Hi Ho _| | |e1 cs s' Hs _]; cbn in *; try done.
  - eapply steps_ok; [done|by eapply observe_steps].
  - by eapply step_ok.
Qed.

Lemma reachable_txn e s i t :
  fresh e -> rtc pg_step {| ps_engine := e; ps_conns := [] |} s -> ps_conns s !! i = Some (idle (Some t)) -> exists D, txn_ok D t.
Proof.
  intros Hf Hr Hi. destruct (reachable_system e s Hf Hr) as (D & owns & _ & _ & _ & Hcs).
  destruct (Forall2_lookup_r _ _ _ _ _ Hcs Hi) as (own & _ & Hc). by exists D.
Qed.

Lemma commit_tail R obs t out (o : result Bytes ExecOut) e obs' e' :
  exec R obs (let& _ := drop_txn (Some t) in ret (out, @None Txn)) e (Some (Ok (o, @None Txn))) obs' e' -> out = o.
Proof.
  intros Hx. cbn [drop_txn ask rbind ret pok] in Hx. apply exec_ask_inv in Hx as (e1 & a & obs1 & e2 & _ & _ & Hx).
  apply exec_done_inv in Hx as (Hx & _ & _). by injection Hx.
Qed.

Lemma last_result_in nk ops : nk ∈ map op_key ops -> is_Some (last_result nk ops).
Proof.
  unfold last_result. enough (Hgen : forall acc, is_Some acc \/ nk ∈ map op_key ops ->
    is_Some (foldl (fun acc op => if decide (op_key op = nk) then Some (op_result op) else acc) acc ops)) by (intros; apply Hgen; by right).
  induction ops as [|op ops IH]; intros acc [Ha|Hin]; cbn; [done|by apply elem_of_nil in Hin| |].
  - apply IH. left. by case_decide.
  - apply IH. cbn in Hin. apply elem_of_cons in Hin as [->|Hin]; [left; by rewrite decide_True|by right].
Qed.

(** ** The properties *)

(** C18: A transaction sees one snapshot. Take any reachable state of the server after the
    transaction's timestamp was read, with no iteration of the sequencer and no sweep at a floor
    above it, and let the snapshot be registered from then on (between the two steps a floor can
    rise: Isolation.pin_race_loses_snapshot). Whatever commits other sessions make, the sequencer
    applies and the collector drops from then on, as long as no table is created or dropped, a
    query inside the transaction, and other sessions between its reads, gives the rows, the header
    or the error it would have given, run alone, on the database as it was in that state, with the
    transaction's own writes on top. *)
Theorem transaction_sees_one_snapshot e s0 s i t params q obs r obs' e' :
  fresh e -> sys_ok (en_store e) -> rtc pg_step {| ps_engine := e; ps_conns := [] |} s0 -> keys_ok (inner (ps_engine s0)) ->
  rtc pg_step {| ps_engine := e; ps_conns := [] |} s -> ps_conns s !! i = Some (idle (Some t)) ->
  guarded (en_store (ps_engine s0)) (t_snap t) -> rtc (others (t_snap t)) (ps_engine s0) (ps_engine s) ->
  exec (others (t_snap t)) obs (query_of {| qe_sess := Some t; qe_params := params |} q) (ps_engine s) r obs' e' ->
  alone obs (query_of {| qe_sess := Some t; qe_params := params |} q) (ps_engine s0) = Some (r, obs', ps_engine s0).
Proof.
  intros Hf Hok Hs0 Hk Hs Hi Hg Hr Hx. destruct (reachable_txn e s i t Hf Hs Hi) as [D Ht].
  assert (Reading (Some t) (@stable t (ps_engine s0))).
  { apply stable_reading; [by eapply reachable_sys|done|done|exact (tx_keys D t Ht)]. }
  by apply (rd_query_of (Some t) (@stable t (ps_engine s0)) params q _ _ _ _ _ Hr Hx).
Qed.

(** C19: No update is lost in a transaction. Its timestamp is read in a state that no iteration of
    the sequencer and no sweep has a floor above, and its snapshot is registered from then on;
    other sessions commit, and no table is created or dropped. When COMMIT answers COMMIT, there
    was a moment at which every row the transaction wrote still was what its snapshot shows, and
    at that moment all its writes, and the last one to each row, became the newest versions. *)
Theorem committed_transaction_loses_no_update e s i t e0 obs o obs' e' :
  fresh e -> rtc pg_step {| ps_engine := e; ps_conns := [] |} s -> ps_conns s !! i = Some (idle (Some t)) ->
  sys_ok (en_store e0) -> guarded (en_store e0) (t_snap t) -> 0 <= t_snap t -> rtc (others (t_snap t)) e0 (ps_engine s) -> t_aborted t = false -> t_writes t <> [] ->
  exec (others (t_snap t)) obs (commit_txn (Some t)) (ps_engine s) (Some (Ok (Ok o, None))) obs' e' ->
  exists e1 e2 ts, rtc (others (t_snap t)) e0 e1 /\
    serve_commit {| read_ts := t_snap t; writes := t_writes t; conflict_keys := t_conflict t |} e1 = Some (Ok ts, e2) /\
    forall nk, nk ∈ map op_key (t_writes t) ->
      latest (inner e1) nk = seen (inner e0) nk (t_snap t) /\ Some (latest (inner e2) nk) = last_result nk (t_writes t).
Proof.
  intros Hf Hs Hi Hok Hg Hts Hr Ha Hw Hx. destruct (reachable_txn e s i t Hf Hs Hi) as [D Ht].
  unfold commit_txn in Hx. rewrite Ha in Hx. destruct (t_writes t) as [|op ops] eqn:Hops; [done|]. clear Hw.
  set (req := {| read_ts := t_snap t; writes := op :: ops; conflict_keys := t_conflict t |}) in *.
  apply exec_bind_inv in Hx as (r1 & obs1 & e1 & Hx & Hk). apply exec_bind_inv in Hx as (r2 & obs2 & e2 & Hx & Hk2).
  unfold commit in Hx. cbn [ask rbind ret pok catch] in Hx. apply exec_ask_inv in Hx as (e3 & a & obs3 & e4 & Hr3 & Ho & Hx).
  destruct a as [ts|err]; cbn [catch ret fail] in Hx; apply exec_done_inv in Hx as (-> & -> & _);
    apply exec_done_inv in Hk2 as (-> & -> & _); [clear Hk|by apply commit_tail in Hk].
  assert (Hserve : serve_commit req e3 = Some (Ok ts, e4)).
  { cbn in Ho. destruct (serve_commit req e3) as [[a e5]|]; cbn in Ho; by simplify_eq. }
  assert (Hr0 : rtc (others (t_snap t)) e0 e3) by (by etrans). exists e3, e4, ts. split; [done|]. split; [done|]. intros nk Hnk.
  unfold serve_commit in Hserve. destruct (s_floor _) as [m|]; [|done]. destruct (s_ops _); [done|].
  destruct (seq_commit (inner e3) m req) as [[a i'] rec] eqn:Hsc. injection Hserve as -> <-.
  assert (Hc : nk ∈ t_conflict t).
  { apply list_elem_of_In, in_map_iff in Hnk as (op' & <- & Hin). apply (tx_conflict D t Ht). rewrite Hops. by apply list_elem_of_In. }
  split.
  - apply others_run in Hr0 as [Hrun _]. by apply (first_committer_wins (en_store e0) (en_store e3) m req ts i' rec).
  - pose proof (seq_commit_atomic (inner e3) m req) as Hat. rewrite Hsc in Hat. destruct Hat as (_ & Hl & _). cbn.
    destruct (last_result_in nk (op :: ops) Hnk) as [x Hx]. unfold inner. cbn. rewrite Hl. cbn [writes req]. by rewrite Hx.
Qed.

(** C20: Not-null columns hold no null. From a fresh server, without tables and rows (after a
    restart a new table can find rows of a dropped one: dropped_rows_in_a_new_table), whatever
    statements any number of sessions run, in whatever interleaving and transactions, with tables
    created and dropped meanwhile: every row of a table whose columns have different names (CREATE
    TABLE accepts others) that any snapshot can show has a value in each of the table's not-null
    columns. *)
Theorem not_null_columns_hold e s name d k ts now r c :
  fresh e -> rtc pg_step {| ps_engine := e; ps_conns := [] |} s ->
  en_tables (ps_engine s) !! name = Some d -> well_named d ->
  visible_datum (chains (inner (ps_engine s)) !! (td_ns d, k)) ts now = Some (DRow r) ->
  c ∈ td_columns d -> cd_not_null c = true -> cell r (cd_name c) <> ScNull.
Proof.
  intros Hf Hr Hd Hw Hv Hc Hn. destruct (reachable_system e s Hf Hr) as (D & owns & Hg & He & _ & _).
  destruct (chains (inner (ps_engine s)) !! (td_ns d, k)) as [ch|] eqn:Hch; [|done]. destruct (eo_chains D _ He _ _ Hch) as [_ Hok].
  assert (Hin : d ∈ D) by (by eapply (eo_tables D _ He)). by apply (datum_conforms D d k r Hg Hin (visible_ok D _ ch ts now _ Hok Hv) Hw c).
Qed.
End System.

(** ** Playing sessions

    A schedule as a function, for concrete runs: the clock stands at 0. *)

Inductive move : Type :=
| MConnect | MCall (i : nat) (sql : Bytes)
| MAsk (i : nat)                              (** one request of a connection *)
| MFinish (i : nat).                          (** its other requests, and the answer *)

Section Play.
Context `{Lowercase} `{SqlLib} `{Debug} `{ShowExpr} `{SqlParser} `{CatCodec}.

Definition bound_ok (q : req) (e : Engine) : bool := match q with RNextNs => en_next_ns e + 1 <? 2 ^ 32 | _ => true end.

Definition ask_once (i : nat) (s : PgSystem) : option PgSystem :=
  match ps_conns s !! i with
  | Some {| pc_sess := sess; pc_prog := Some (Ask q k) |} =>
      match observe [0] q (ps_engine s) with
      | Some (a, _, e') =>
          if bound_ok q (ps_engine s) then Some {| ps_engine := e'; ps_conns := <[i := {| pc_sess := sess; pc_prog := Some (k a) |}]> (ps_conns s) |}
          else None
      | None => None
      end
  | _ => None
  end.

Fixpoint finish (fuel : nat) (i : nat) (s : PgSystem) : option (result Bytes (list ExecOut) * PgSystem) :=
  match ps_conns s !! i with
  | Some {| pc_sess := _; pc_prog := Some (Done (Some (Ok (r, sess')))) |} =>
      Some (r, {| ps_engine := ps_engine s; ps_conns := <[i := idle sess']> (ps_conns s) |})
  | _ => match fuel with O => None | S f => match ask_once i s with Some s' => finish f i s' | None => None end end
  end.

Definition call (i : nat) (sql : Bytes) (s : PgSystem) : option PgSystem :=
  match ps_conns s !! i with
  | Some {| pc_sess := sess; pc_prog := None |} =>
      Some {| ps_engine := ps_engine s; ps_conns := <[i := {| pc_sess := sess; pc_prog := Some (execute sess sql []) |}]> (ps_conns s) |}
  | _ => None
  end.

(** The answers come in the order of the calls' ends. *)
Fixpoint play (ms : list move) (s : PgSystem) : option (list (result Bytes (list ExecOut)) * PgSystem) :=
  match ms with
  | [] => Some ([], s)
  | MConnect :: ms' => play ms' {| ps_engine := ps_engine s; ps_conns := ps_conns s ++ [idle None] |}
  | MCall i sql :: ms' => match call i sql s with Some s' => play ms' s' | None => None end
  | MAsk i :: ms' => match ask_once i s with Some s' => play ms' s' | None => None end
  | MFinish i :: ms' =>
      match finish 200 i s with
      | Some (r, s') => match play ms' s' with Some (rs, s'') => Some (r :: rs, s'') | None => None end
      | None => None
      end
  end.

Lemma ask_once_step i s s' : ask_once i s = Some s' -> pg_step s s'.
Proof.
  unfold ask_once. destruct s as [e cs]. cbn. destruct (cs !! i) as [[sess [[|q k]|]]|] eqn:Hi; try done.
  destruct (observe [0] q e) as [[[a obs'] e']|] eqn:Ho; [|done]. destruct (bound_ok q e) eqn:Hb; [|done]. intros [= <-].
  eapply pg_ask; [done|done|]. intros ->. unfold bound_ok in Hb. by apply Z.ltb_lt.
Qed.

Lemma finish_steps fuel i : forall s r s', finish fuel i s = Some (r, s') -> rtc pg_step s s'.
Proof.
  assert (Hans : forall s sess r sess', ps_conns s !! i = Some {| pc_sess := sess; pc_prog := Some (Done (Some (Ok (r, sess')))) |} ->
    rtc pg_step s {| ps_engine := ps_engine s; ps_conns := <[i := idle sess']> (ps_conns s) |}).
  { intros [e cs] sess r sess' Hi. by apply rtc_once, (pg_answer _ _ _ sess r). }
  induction fuel as [|fuel IH]; intros s r s' Hf; cbn [finish] in Hf.
  - destruct (ps_conns s !! i) as [[sess [[[[[r0 sess']|]|]|]|]]|] eqn:Hi; try done. injection Hf as -> <-. by eapply Hans.
  - assert (Hgo : match ask_once i s with Some s1 => finish fuel i s1 | None => None end = Some (r, s') -> rtc pg_step s s').
    { destruct (ask_once i s) as [s1|] eqn:Ha; [|done]. intros Hs. eapply rtc_l; [by eapply ask_once_step|by eapply IH]. }
    destruct (ps_conns s !! i) as [[sess [[[[[r0 sess']|]|]|]|]]|] eqn:Hi; try by apply Hgo. injection Hf as -> <-. by eapply Hans.
Qed.

Lemma play_steps ms : forall s rs s', play ms s = Some (rs, s') -> rtc pg_step s s'.
Proof.
  induction ms as [|m ms IH]; intros s rs s' Hp; cbn [play] in Hp; [by injection Hp as <- <-|].
  destruct m as [|i sql|i|i].
  - eapply rtc_l; [|by eapply IH]. destruct s. apply pg_connect.
  - destruct (call i sql s) as [s1|] eqn:Hc; [|done]. eapply rtc_l; [|by eapply IH]. unfold call in Hc. destruct s as [e cs]. cbn in Hc.
    destruct (cs !! i) as [[sess [|]]|] eqn:Hi; try done. injection Hc as <-. by apply pg_call.
  - destruct (ask_once i s) as [s1|] eqn:Ha; [|done]. eapply rtc_l; [by eapply ask_once_step|by eapply IH].
  - destruct (finish 200 i s) as [[r s1]|] eqn:Hf; [|done]. destruct (play ms s1) as [[rs' s2]|] eqn:Hp'; [|done]. injection Hp as <- <-.
    etrans; [by eapply finish_steps|by eapply IH].
Qed.
End Play.

(** ** A small server *)

Module Demo.
#[local] Instance demo_lower : Lowercase := {| to_lowercase := to_ascii_lowercase |}.
#[local] Instance demo_sql : SqlLib := {| to_uppercase := to_ascii_uppercase; powi10 n := f64_of_dec false (10 ^ n) 0 |}.
#[local] Instance demo_debug : Debug := {| debug_scalar v := text_of v |}.
#[local] Instance demo_show : ShowExpr := {| show_expr _ := bs "expr" |}.
(** A definition is written as its namespace and its name; it has one column, [n], when read. *)
Definition col_n (not_null pk : bool) : ColumnDef :=
  {| cd_name := bs "n"; cd_ctype := ColInt; cd_not_null := not_null; cd_primary_key := pk; cd_serial := false |}.
#[local] Instance demo_codec : CatCodec := {|
  def_to_vec d := Ok (to_be 4 (td_ns d) ++ td_name d);
  def_from_slice b := Some {| td_name := drop 4 b; td_ns := of_be (take 4 b); td_columns := [col_n true false] |} |}.

Definition num (z : Z) : Expr := ExValue (VNumber (dec z)).
Definition n_ : Expr := ExIdentifier (bs "n").
Definition all_of (t : Bytes) : Query Expr :=
  {| q_body := SeSelect {| distinct := false; projection := [Wildcard]; from := [{| tw_relation := TfTable [t] None; tw_joins := [] |}];
                           selection := None; group_by := Some []; having := None |};
     q_order_by := []; q_offset := None; q_limit := None |}.
Definition values (zs : list Z) : Query Expr :=
  {| q_body := SeValues (map (fun z => [num z]) zs); q_order_by := []; q_offset := None; q_limit := None |}.
Definition create (t : Bytes) (opts : list ColumnOption) : Statement :=
  StCreateTable [t] [{| cs_name := bs "n"; cs_type := DtInt; cs_options := opts |}] false.
Definition insert_into (t : Bytes) (zs : list Z) : Statement := StInsert [t] [] (Some (values zs)) None.
Definition increment : Statement :=
  StUpdate (TfTable [bs "a"] None) [{| as_id := [bs "n"]; as_value := ExBinary n_ OpPlus (num 1) |}] None None.
Definition statements : list (string * Statement) :=
  [("create a", create (bs "a") [CoNotNull]); ("create b", create (bs "b") [CoNotNull]); ("create key", create (bs "k") [CoUnique true]);
   ("insert a", insert_into (bs "a") [0]); ("insert key", insert_into (bs "k") [7]); ("increment", increment);
   ("truncate", StTruncate [bs "a"]); ("drop", StDrop true (bs "TABLE") [[bs "a"]] false); ("begin", StStart); ("commit", StCommit);
   ("select a", StQuery (all_of (bs "a"))); ("select b", StQuery (all_of (bs "b"))); ("select key", StQuery (all_of (bs "k")))]%string.
#[local] Instance demo_parser : SqlParser := {|
  parse_sql s := match List.find (fun p => beq (bs p.1) s) statements with Some p => Ok [p.2] | None => Err [] end |}.

(** An empty store whose sequencer has begun its first iteration. *)
Definition start : Engine :=
  {| en_store := {| s_inner := inner_new; s_floor := Some 0; s_ops := None; s_gc := None |};
     en_tables := ∅; en_next_ns := NS_PG_BASE; en_rowids := ∅ |}.
Definition start_system : PgSystem := {| ps_engine := start; ps_conns := [] |}.

Lemma start_fresh : fresh start.
Proof. split; [done|done|]. intros nk c Hl. change ((∅ : gmap NsKey Chain) !! nk = Some c) in Hl. by rewrite lookup_empty in Hl. Qed.

Lemma start_ok : sys_ok (en_store start).
Proof.
  apply (steps_ok (sys_of inner_new)); [by apply sys_of_ok; [apply inner_new_wf|]|]. apply rtc_once. apply st_base. apply (bs_iteration inner_new).
Qed.

Definition say (i : nat) (s : string) : list move := [MCall i (bs s); MFinish i].
Definition answers (ms : list move) : option (list (result Bytes (list ExecOut))) := fst <$> play ms start_system.
Definition tag (s : string) : result Bytes (list ExecOut) := Ok [OutTag (bs s)].
Definition rows (zs : list Z) : result Bytes (list ExecOut) :=
  Ok [OutRows [(bs "n", OID_INT8)] (map (fun z => [ScInt z]) zs) (bs "SELECT " ++ dec (zlen zs))].

Lemma demo_session :
  answers ([MConnect] ++ say 0 "create a" ++ say 0 "insert a" ++ say 0 "increment" ++ say 0 "select a")
  = Some [tag "CREATE TABLE"; tag "INSERT 0 1"; tag "UPDATE 1"; rows [1]].
Proof. vm_compute. reflexivity. Qed.

Definition after (ms : list move) : PgSystem := match play ms start_system with Some (_, s) => s | None => start_system end.
Lemma reach ms : rtc pg_step start_system (after ms).
Proof. unfold after. destruct (play ms start_system) as [[rs s]|] eqn:Hp; [by eapply play_steps|done]. Qed.

Lemma keys_ok_check i :
  forallb (fun kv : NsKey * Chain => forallb (fun b => (0 <=? b) && (b <? 256)) kv.1.2) (map_to_list (chains i)) = true -> keys_ok i.
Proof.
  intros Hf nk c Hl. rewrite forallb_forall in Hf. specialize (Hf (nk, c)). rewrite <- list_elem_of_In, elem_of_map_to_list in Hf.
  specialize (Hf Hl). rewrite forallb_forall in Hf. apply Forall_forall. intros b Hb. apply list_elem_of_In, Hf in Hb. unfold is_u8. lia.
Qed.

Lemma alone_exec {A} R (m : run A) : forall obs e r obs' e', alone obs m e = Some (r, obs', e') -> exec R obs m e r obs' e'.
Proof.
  induction m as [r0|q k IH]; intros obs e r obs' e' Ha; cbn in Ha; [injection Ha as <- <- <-; constructor|].
  destruct (observe obs q e) as [[[a obs1] e1]|] eqn:Ho; [|done]. by eapply ex_ask; [|apply IH].
Qed.

Definition in_txn : PgSystem := after ([MConnect] ++ say 0 "create a" ++ say 0 "insert a" ++ say 0 "begin").
Definition in_update : PgSystem := after ([MConnect] ++ say 0 "create a" ++ say 0 "insert a" ++ say 0 "begin" ++ say 0 "increment").
Definition txn_of (s : PgSystem) : Txn :=
  match ps_conns s !! 0%nat with Some {| pc_sess := Some t |} => t
  | _ => {| t_snap := 0; t_overlay := ∅; t_writes := []; t_conflict := []; t_aborted := false |} end.

(** Somebody else's commit, while the transaction is open: every row of the table changes. *)
Definition other_request : CommitRequest :=
  {| read_ts := 2; writes := [Put NS_PG_BASE (rowid_key 1) (DRow {[bs "n" := ScInt 100]}) None]; conflict_keys := [] |}.
Definition intruded : Engine := match serve_commit other_request (ps_engine in_txn) with Some (_, e) => e | None => start end.

Lemma intrusion : rtc (others (t_snap (txn_of in_txn))) (ps_engine in_txn) intruded.
Proof.
  eapply (commit_is_others _ other_request _ (Ok 3)); [vm_compute; reflexivity|]. unfold pinned. rewrite <- not_eq_None_Some. vm_compute. discriminate.
Qed.

Lemma exec_from {A} R obs (m : run A) e e1 r obs' e' : rtc R e e1 -> exec R obs m e1 r obs' e' -> exec R obs m e r obs' e'.
Proof. intros Hr Hx. induction Hr as [|a b c HR _ IH]; [done|]. eapply ex_others; [exact HR|by apply IH]. Qed.

Ltac guarded_demo := split; intros m Hm; vm_compute in Hm; [injection Hm as <-; vm_compute; discriminate|discriminate Hm].

Definition read_a : run RowsOut := query_of {| qe_sess := Some (txn_of in_txn); qe_params := [] |} (all_of (bs "a")).
Definition shows (zs : list Z) : pg RowsOut := pok {| ro_cols := [(bs "n", OID_INT8)]; ro_rows := map (fun z => [ScInt z]) zs |}.

Lemma transaction_sees_one_snapshot_witness :
  alone [0] read_a (ps_engine in_txn) = Some (shows [0], [], ps_engine in_txn).
Proof.
  apply (transaction_sees_one_snapshot start in_txn in_txn 0 (txn_of in_txn) [] (all_of (bs "a")) [0] (shows [0]) [] intruded).
  - apply start_fresh.
  - apply start_ok.
  - apply reach.
  - apply keys_ok_check. vm_compute. reflexivity.
  - apply reach.
  - vm_compute. reflexivity.
  - guarded_demo.
  - apply rtc_refl.
  - eapply exec_from; [apply intrusion|]. apply alone_exec. vm_compute. reflexivity.
Defined.

Definition committed : Engine :=
  match alone [] (commit_txn (Some (txn_of in_update))) (ps_engine in_update) with Some (_, _, e) => e | None => start end.

Lemma committed_transaction_loses_no_update_witness :
  exists e1 e2 ts, rtc (others (t_snap (txn_of in_update))) (ps_engine in_update) e1 /\
    serve_commit {| read_ts := t_snap (txn_of in_update); writes := t_writes (txn_of in_update); conflict_keys := t_conflict (txn_of in_update) |} e1
    = Some (Ok ts, e2) /\
    forall nk, nk ∈ map op_key (t_writes (txn_of in_update)) ->
      latest (inner e1) nk = seen (inner (ps_engine in_update)) nk (t_snap (txn_of in_update)) /\
      Some (latest (inner e2) nk) = last_result nk (t_writes (txn_of in_update)).
Proof.
  apply (committed_transaction_loses_no_update start in_update 0 (txn_of in_update) (ps_engine in_update) [] (OutTag (bs "COMMIT")) [] committed).
  - apply start_fresh.
  - apply reach.
  - vm_compute. reflexivity.
  - apply (reachable_sys start); [apply start_ok|apply reach].
  - guarded_demo.
  - vm_compute. discriminate.
  - apply rtc_refl.
  - vm_compute. reflexivity.
  - vm_compute. discriminate.
  - apply alone_exec. vm_compute. reflexivity.
Defined.

Definition def_a : TableDef := {| td_name := bs "a"; td_ns := NS_PG_BASE; td_columns := [col_n true false] |}.

Lemma not_null_columns_hold_witness :
  en_tables (ps_engine in_update) !! bs "a" = Some def_a /\ cell {[bs "n" := ScInt 0]} (bs "n") <> ScNull.
Proof.
  split; [vm_compute; reflexivity|].
  apply (not_null_columns_hold start in_update (bs "a") def_a (rowid_key 1) 2 0 {[bs "n" := ScInt 0]} (col_n true false)).
  - apply start_fresh.
  - apply reach.
  - vm_compute. reflexivity.
  - repeat constructor. intros Hin. by apply elem_of_nil in Hin.
  - vm_compute. reflexivity.
  - by left.
  - reflexivity.
Defined.

(** ** What the server does not mean to do *)

Definition asks (i n : nat) : list move := replicate n (MAsk i).

(** Outside a transaction, an UPDATE commits with the timestamp of that moment, not of its scan:
    two increments that scan before either commits count once. *)
Lemma autocommit_updates_lost :
  answers ([MConnect; MConnect] ++ say 0 "create a" ++ say 0 "insert a"
    ++ [MCall 0 (bs "increment"); MCall 1 (bs "increment")] ++ asks 0 5 ++ asks 1 5 ++ [MFinish 0; MFinish 1] ++ say 0 "select a")
  = Some [tag "CREATE TABLE"; tag "INSERT 0 1"; tag "UPDATE 1"; tag "UPDATE 1"; rows [1]].
Proof. vm_compute. reflexivity. Qed.

(** TRUNCATE in a transaction leaves the rows the transaction itself inserted. *)
Lemma truncate_keeps_own_rows :
  answers ([MConnect] ++ say 0 "create a" ++ say 0 "begin" ++ say 0 "insert a" ++ say 0 "truncate" ++ say 0 "commit" ++ say 0 "select a")
  = Some [tag "CREATE TABLE"; tag "BEGIN"; tag "INSERT 0 1"; tag "TRUNCATE TABLE"; tag "COMMIT"; rows [0]].
Proof. vm_compute. reflexivity. Qed.

(** A primary key is only a not-null column: the same key goes in twice. *)
Lemma primary_key_not_enforced :
  answers ([MConnect] ++ say 0 "create key" ++ say 0 "insert key" ++ say 0 "insert key") = Some [tag "CREATE TABLE"; tag "INSERT 0 1"; tag "INSERT 0 1"].
Proof. vm_compute. reflexivity. Qed.

(** Two sessions that create the same table both succeed, and the second takes the rows the first
    one already had out of sight. *)
Lemma create_table_race :
  answers ([MConnect; MConnect; MCall 0 (bs "create a"); MCall 1 (bs "create a"); MAsk 0; MAsk 1; MFinish 0] ++ say 0 "insert a"
    ++ [MFinish 1] ++ say 0 "select a")
  = Some [tag "CREATE TABLE"; tag "INSERT 0 1"; tag "CREATE TABLE"; Ok [OutRows [(bs "n", OID_TEXT)] [] (bs "SELECT 0")]].
Proof. vm_compute. reflexivity. Qed.

(** The server after a restart on the store as it is. *)
Definition restarted (s : PgSystem) : PgSystem :=
  let e := engine_new (inner (ps_engine s)) 0 in
  {| ps_engine := set_store {| s_inner := inner e; s_floor := Some 0; s_ops := None; s_gc := None |} e; ps_conns := [] |}.

(** A table dropped while a transaction has rows for it: the commit puts them into a namespace
    nobody has, a restart gives that namespace to the next table, and they are its rows. *)
Lemma dropped_rows_in_a_new_table :
  let s := after ([MConnect; MConnect] ++ say 0 "create a" ++ say 0 "begin" ++ say 0 "insert a" ++ say 1 "drop" ++ say 0 "commit") in
  fst <$> play ([MConnect] ++ say 0 "create b" ++ say 0 "select b") (restarted s) = Some [tag "CREATE TABLE"; rows [0]].
Proof. vm_compute. reflexivity. Qed.

(** A text that begins with a percent sign is not LIKE a percent sign: the text's own sign is
    taken for the wildcard's. *)
Lemma like_percent : like_match (bs "%a") (bs "%") false = false /\ like_match (bs "ba") (bs "%") false = true.
Proof. split; vm_compute; reflexivity. Qed.

(** The order of values is not transitive when texts and numbers meet. *)
Lemma order_goes_round :
  scalar_cmp (ScText (bs "10")) (ScText (bs "9")) = Lt /\ scalar_cmp (ScText (bs "9")) (ScInt 9) = Eq /\
  scalar_cmp (ScInt 9) (ScText (bs "10")) = Lt.
Proof. repeat split; vm_compute; reflexivity. Qed.

(** Integers are compared as floats. *)
Lemma large_integers_equal : binop OpEq (ScInt (2 ^ 53)) (ScInt (2 ^ 53 + 1)) = pok (ScBool true).
Proof. vm_compute. reflexivity. Qed.

(** The least integer divided by -1 panics. *)
Lemma least_over_minus_one : binop OpDivide (ScInt I64_MIN) (ScInt (-1)) = None /\ binop OpModulo (ScInt I64_MIN) (ScInt (-1)) = None.
Proof. split; reflexivity. Qed.

Definition den_num (z : Z) : Den := den_of {| qe_sess := None; qe_params := [] |} (num z).
Definition den_n : Den := den_of {| qe_sess := None; qe_params := [] |} n_.
Definition row_n (z : Z) : RowCtx := {[bs "n" := ScInt z]}.

(** When HAVING rejects the first group, the header has one column where the rows have two. *)
Lemma having_cuts_header :
  alone [] (grouped_rows {| distinct := false; projection := [UnnamedExpr den_n; UnnamedExpr (den_num 5)]; from := []; selection := None;
                            group_by := Some [den_n]; having := Some den_n |} [] [den_n] [row_n 0; row_n 1]) start
  = Some (pok ([(bs "n", OID_INT8)], [[ScInt 1; ScInt 5]]), [], start).
Proof. vm_compute. reflexivity. Qed.

(** SUM of integers runs in floats and loses units. *)
Lemma sum_loses_units :
  alone [] (agg_sum false [den_n] [row_n (2 ^ 53); row_n 1]) start = Some (pok (ScInt (2 ^ 53)), [], start).
Proof. vm_compute. reflexivity. Qed.
End Demo.
