(* ===== verification/PgWire.v ===== *)
(** * The PostgreSQL wire protocol (src/pg/mod.rs)

    Messages out and in, the start of a connection, and its loop: a connection is a tree of
    requests to the engine, fed with the chunks its socket delivers. *)

From S2P Require Import Prelude Errors Util Mvcc FloatBits SqlValue PgValue PgQuery PgEngine PgFacts.

(** ** Messages out

    The output buffer holds messages, a tag and a body; [wire] is the bytes they are. *)

Definition Message : Type := Z * Bytes.

(** A tag, the length with itself as an [i32], the body. *)
Definition msg (m : Message) : Bytes := m.1 :: to_be 4 (zlen m.2 + 4) ++ m.2.
Definition wire (ms : list Message) : Bytes := concat (map msg ms).

Definition cstr (s : Bytes) : Bytes := s ++ [0].
Definition i16 (z : Z) : Bytes := to_be 2 z.
Definition i32 (z : Z) : Bytes := to_be 4 z.

(** Tags, by their letters. *)
Definition tag_of (s : string) : Z := match bs s with [c] => c | _ => 0 end.

Definition auth_ok : Message := (tag_of "R", i32 0).
Definition auth_cleartext : Message := (tag_of "R", i32 3).
Definition parameter_status (k v : Bytes) : Message := (tag_of "S", cstr k ++ cstr v).
Definition backend_key_data (pid : Z) : Message := (tag_of "K", i32 pid ++ i32 1987013748).
Definition ready (status : Z) : Message := (tag_of "Z", [status]).
Definition column_description (c : Bytes * Z) : Bytes :=
  cstr c.1 ++ i32 0 ++ i16 0 ++ i32 c.2 ++ i16 (-1) ++ i32 (-1) ++ i16 0.
Definition row_description (cols : list (Bytes * Z)) : Message :=
  (tag_of "T", i16 (zlen cols) ++ concat (map column_description cols)).
Definition cell_bytes (v : Scalar) : Bytes :=
  match scalar_to_text v with Some t => i32 (zlen t) ++ t | None => i32 (-1) end.
Definition data_row (row : list Scalar) : Message := (tag_of "D", i16 (zlen row) ++ concat (map cell_bytes row)).
Definition command_complete (tag : Bytes) : Message := (tag_of "C", cstr tag).
Definition empty_query : Message := (tag_of "I", []).

Fixpoint contains (p s : Bytes) : bool :=
  match strip_prefix p s with
  | Some _ => true
  | None => match s with [] => false | _ :: s' => contains p s' end
  end.

Definition error_code (m : Bytes) : Bytes :=
  if match strip_prefix (bs "syntax error") m with Some _ => true | None => false end then bs "42601"
  else if contains (bs "does not exist") m then bs "42P01"
  else if contains (bs "not-null constraint") m then bs "23502"
  else if contains (bs "could not serialize") m then bs "40001"
  else if contains (bs "transaction is aborted") m then bs "25P02"
  else if contains (bs "already exists") m then bs "42P07"
  else bs "XX000".

Definition error (m : Bytes) : Message :=
  (tag_of "E", (tag_of "S" :: cstr (bs "ERROR")) ++ (tag_of "V" :: cstr (bs "ERROR")) ++ (tag_of "C" :: cstr (error_code m))
               ++ (tag_of "M" :: cstr m) ++ [0]).
Definition parse_complete : Message := (tag_of "1", []).
Definition bind_complete : Message := (tag_of "2", []).
Definition close_complete : Message := (tag_of "3", []).
Definition no_data : Message := (tag_of "n", []).
Definition parameter_description (oids : list Z) : Message := (tag_of "t", i16 (zlen oids) ++ concat (map i32 oids)).

(** [with_desc] sends the header too. *)
Definition emit_result (with_desc : bool) (r : ExecOut) : list Message :=
  match r with
  | OutRows cols rows tag => (if with_desc then [row_description cols] else []) ++ map data_row rows ++ [command_complete tag]
  | OutTag tag => [command_complete tag]
  end.

(** ** Messages in *)

Definition read_cstr (b : Bytes) : option (Bytes * Bytes) := (fun p => (lossy p.1, p.2)) <$> split_once 0 b.
(** [read_cstr(&mut rest).unwrap_or_default()] *)
Definition take_cstr (b : Bytes) : Bytes * Bytes := default ([], b) (read_cstr b).

(** A 16-bit number, 0 when there are no two bytes. *)
Definition take_i16 (b : Bytes) : Z * Bytes :=
  match b with x :: y :: r => (of_be_signed [x; y], r) | _ => (0, b) end.

(** [Vec::with_capacity] of a negative number, as a [usize], panics. *)
Definition capacity (n : Z) : option nat := if n <? 0 then None else Some (Z.to_nat n).

Fixpoint take_oids (n : nat) (b : Bytes) : list Z :=
  match n with
  | O => []
  | S n' => match b with x0 :: x1 :: x2 :: x3 :: r => of_be [x0; x1; x2; x3] :: take_oids n' r | _ => take_oids n' b end
  end.

Fixpoint take_formats (n : nat) (b : Bytes) : list Z * Bytes :=
  match n with
  | O => ([], b)
  | S n' => let '(f, r) := take_i16 b in let '(fs, r') := take_formats n' r in (f :: fs, r')
  end.

Definition decode_param (raw : Bytes) (fmt oid : Z) : Scalar :=
  let text := lossy raw in
  if fmt =? 1 then
    if (oid =? OID_INT4) && (length raw =? 4)%nat then ScInt (of_be_signed raw)
    else if (oid =? OID_INT8) && (length raw =? 8)%nat then ScInt (of_be_signed raw)
    else if (oid =? OID_FLOAT8) && (length raw =? 8)%nat then ScFloat (from_bits (of_be raw))
    else if (oid =? OID_BOOL) && (length raw =? 1)%nat then ScBool (negb (of_be raw =? 0))
    else ScText text
  else if (oid =? OID_INT4) || (oid =? OID_INT8) then int_or_text text
  else if oid =? OID_FLOAT8 then float_or_text text
  else if oid =? OID_BOOL then ScBool (one_of ["t"; "true"; "1"; "on"; "yes"]%string text)
  else ScText text.

(** The parameters of Bind: [i] is the number of the next one. *)
Fixpoint take_params (n i : nat) (fmts oids : list Z) (b : Bytes) : list Scalar :=
  match n with
  | O => []
  | S n' =>
      match b with
      | x0 :: x1 :: x2 :: x3 :: r =>
          let plen := of_be_signed [x0; x1; x2; x3] in
          if plen <? 0 then ScNull :: take_params n' (S i) fmts oids r
          else if zlen r <? plen then []
          else
            let raw := take (Z.to_nat plen) r in
            let fmt := match fmts !! i with Some f => f | None => default 0 (head fmts) end in
            decode_param raw fmt (default 0 (oids !! i)) :: take_params n' (S i) fmts oids (drop (Z.to_nat plen) r)
      | _ => []
      end
  end.

(** One frame of the buffer: a tag, a length, a body. *)
Inductive Frame : Type := FNeed | FClose | FMsg (tag : Z) (body rest : Bytes).

Definition MAX_FRAME : Z := 256 * 1024 * 1024.

Definition next_frame (buf : Bytes) : Frame :=
  match buf with
  | t :: l0 :: l1 :: l2 :: l3 :: r =>
      let len := of_be_signed [l0; l1; l2; l3] in
      if (len <? 4) || (MAX_FRAME <? len) then FClose
      else if zlen r + 4 <? len then FNeed
      else FMsg t (take (Z.to_nat (len - 4)) r) (drop (Z.to_nat (len - 4)) r)
  | _ => FNeed
  end.

(** ** Connections *)

Record Prepared := { pr_sql : Bytes; pr_oids : list Z }.
Record Portal := { po_sql : Bytes; po_params : list Scalar; po_described : bool; po_cached : option (list ExecOut) }.

(** [wc_sent] is what the socket was given, [wc_out] what waits for the next flush. *)
Record WireConn := {
  wc_sess : Session; wc_prepared : gmap Bytes Prepared; wc_portals : gmap Bytes Portal; wc_failed : bool;
  wc_out : list Message; wc_sent : list Message }.

Definition set_sess (s : Session) (c : WireConn) : WireConn :=
  {| wc_sess := s; wc_prepared := wc_prepared c; wc_portals := wc_portals c; wc_failed := wc_failed c; wc_out := wc_out c; wc_sent := wc_sent c |}.
Definition set_prepared p (c : WireConn) : WireConn :=
  {| wc_sess := wc_sess c; wc_prepared := p; wc_portals := wc_portals c; wc_failed := wc_failed c; wc_out := wc_out c; wc_sent := wc_sent c |}.
Definition set_portals p (c : WireConn) : WireConn :=
  {| wc_sess := wc_sess c; wc_prepared := wc_prepared c; wc_portals := p; wc_failed := wc_failed c; wc_out := wc_out c; wc_sent := wc_sent c |}.
Definition set_failed b (c : WireConn) : WireConn :=
  {| wc_sess := wc_sess c; wc_prepared := wc_prepared c; wc_portals := wc_portals c; wc_failed := b; wc_out := wc_out c; wc_sent := wc_sent c |}.
Definition put (ms : list Message) (c : WireConn) : WireConn :=
  {| wc_sess := wc_sess c; wc_prepared := wc_prepared c; wc_portals := wc_portals c; wc_failed := wc_failed c; wc_out := wc_out c ++ ms; wc_sent := wc_sent c |}.
Definition flush (c : WireConn) : WireConn :=
  {| wc_sess := wc_sess c; wc_prepared := wc_prepared c; wc_portals := wc_portals c; wc_failed := wc_failed c; wc_out := []; wc_sent := wc_sent c ++ wc_out c |}.

Definition txn_status (sess : Session) : Z :=
  match sess with None => tag_of "I" | Some t => if t_aborted t then tag_of "E" else tag_of "T" end.

(** ReadyForQuery and a flush: the end of a request. *)
Definition answer_ready (c : WireConn) : WireConn := flush (put [ready (txn_status (wc_sess c))] c).
Definition fail_ext (m : Bytes) (c : WireConn) : WireConn := set_failed true (put [error m] c).

Section Wire.
Context `{Lowercase} `{SqlLib} `{Debug} `{ShowExpr} `{SqlParser} `{CatCodec}.

Definition no_statement (name : Bytes) : Bytes := bs "prepared statement " ++ quoted name ++ bs " does not exist".
Definition no_portal (name : Bytes) : Bytes := bs "portal " ++ quoted name ++ bs " does not exist".

(** *** Simple queries *)

Definition run_sql (c : WireConn) (sql : Bytes) (params : list Scalar) : run (result Bytes (list ExecOut) * WireConn) :=
  let& r := execute (wc_sess c) sql params in ret (r.1, set_sess r.2 c).

Definition on_query (c : WireConn) (body : Bytes) : run WireConn :=
  let sql := (take_cstr body).1 in
  if match trim sql with [] => true | _ => false end then ret (answer_ready (put [empty_query] c))
  else
    let& r := run_sql c sql [] in
    ret (answer_ready (match r with
                       | (Ok results, c') => put (concat (map (emit_result true) results)) c'
                       | (Err e, c') => put [error e] c'
                       end)).

(** *** The extended protocol *)

Definition on_parse (c : WireConn) (body : Bytes) : run WireConn :=
  let '(name, r) := take_cstr body in
  let '(sql, r) := take_cstr r in
  let '(n, r) := take_i16 r in
  match capacity n with
  | None => Done None
  | Some n => ret (put [parse_complete] (set_prepared (<[name := {| pr_sql := sql; pr_oids := take_oids n r |}]> (wc_prepared c)) c))
  end.

Definition on_bind (c : WireConn) (body : Bytes) : run WireConn :=
  let '(portal, r) := take_cstr body in
  let '(stmt, r) := take_cstr r in
  match wc_prepared c !! stmt with
  | None => ret (fail_ext (no_statement stmt) c)
  | Some p =>
      let '(nfmt, r) := take_i16 r in
      match capacity nfmt with
      | None => Done None
      | Some nfmt =>
          let '(fmts, r) := take_formats nfmt r in
          let '(nparams, r) := take_i16 r in
          match capacity nparams with
          | None => Done None
          | Some n =>
              let params := take_params n 0 fmts (pr_oids p) r in
              let portal_ := {| po_sql := pr_sql p; po_params := params; po_described := false; po_cached := None |} in
              ret (put [bind_complete] (set_portals (<[portal := portal_]> (wc_portals c)) c))
          end
      end
  end.

(** Columns of a statement that has not run: best effort, from the syntax and the catalogue. *)
Definition ident_oid (d : option TableDef) (e : Expr) : Z :=
  match e with
  | ExIdentifier id =>
      match d with
      | Some d => match column d (to_lowercase id) with Some c => oid (cd_ctype c) | None => OID_TEXT end
      | None => OID_TEXT
      end
  | _ => OID_TEXT
  end.

Definition describe_item (d : option TableDef) (i : SelectItem Expr) : option (list (Bytes * Z)) :=
  match i with
  | Wildcard => (fun d => map (fun c => (cd_name c, oid (cd_ctype c))) (td_columns d)) <$> d
  | UnnamedExpr (ExIdentifier id) => Some [(to_lowercase id, ident_oid d (ExIdentifier id))]
  | UnnamedExpr e => Some [(to_lowercase (show_expr e), OID_TEXT)]
  | ExprWithAlias e alias => Some [(alias, ident_oid d e)]
  | QualifiedWildcard _ => None
  end.

Definition describe_columns (sql : Bytes) : run (option (list (Bytes * Z))) :=
  match parse_sql sql with
  | Ok (StQuery q :: _) =>
      match q_body q with
      | SeSelect s =>
          let& d := (match from s with
                     | t :: _ => match tw_relation t with TfTable name _ => catalog_get (object_name_str name) | TfOther => ret None end
                     | [] => ret None
                     end) in
          ret (@concat _ <$> omapM (describe_item d) (projection s))
      | _ => ret None
      end
  | _ => ret None
  end.

Definition describe_statement (c : WireConn) (name : Bytes) : run WireConn :=
  match wc_prepared c !! name with
  | None => ret (fail_ext (no_statement name) c)
  | Some p =>
      let oids := map (fun o => if o =? 0 then OID_TEXT else o) (pr_oids p) in
      let& cols := describe_columns (pr_sql p) in
      ret (put [parameter_description oids; match cols with Some (c0 :: cs) => row_description (c0 :: cs) | _ => no_data end] c)
  end.

(** The header of the first result with rows. *)
Definition first_header (results : list ExecOut) : Message :=
  match omap (fun r => match r with OutRows cols _ _ => Some cols | OutTag _ => None end) results with
  | cols :: _ => row_description cols
  | [] => no_data
  end.

(** A portal is described by running it; the result waits for Execute. *)
Definition describe_portal (c : WireConn) (name : Bytes) : run WireConn :=
  match wc_portals c !! name with
  | None => ret (fail_ext (no_portal name) c)
  | Some p =>
      let& r := run_sql c (po_sql p) (po_params p) in
      ret (match r with
           | (Ok results, c') =>
               let p' := {| po_sql := po_sql p; po_params := po_params p; po_described := true; po_cached := Some results |} in
               put [first_header results] (set_portals (<[name := p']> (wc_portals c')) c')
           | (Err e, c') => fail_ext e c'
           end)
  end.

(** [body[1..]] of an empty body panics. *)
Definition on_describe (c : WireConn) (body : Bytes) : run WireConn :=
  match body with
  | [] => Done None
  | kind :: r => let name := (take_cstr r).1 in if kind =? tag_of "S" then describe_statement c name else describe_portal c name
  end.

Definition on_execute (c : WireConn) (body : Bytes) : run WireConn :=
  let name := (take_cstr body).1 in
  match wc_portals c !! name with
  | None => ret (fail_ext (no_portal name) c)
  | Some p =>
      let spent := {| po_sql := po_sql p; po_params := po_params p; po_described := po_described p; po_cached := None |} in
      let c1 := set_portals (<[name := spent]> (wc_portals c)) c in
      let& r := (match po_cached p with Some results => ret (Ok results, c1) | None => run_sql c1 (po_sql p) (po_params p) end) in
      ret (match r with
           | (Ok results, c') => put (concat (map (emit_result (negb (po_described p))) results)) c'
           | (Err e, c') => fail_ext e c'
           end)
  end.

Definition on_close (c : WireConn) (body : Bytes) : run WireConn :=
  match body with
  | [] => Done None
  | kind :: r =>
      let name := (take_cstr r).1 in
      ret (put [close_complete] (if kind =? tag_of "S" then set_prepared (delete name (wc_prepared c)) c else set_portals (delete name (wc_portals c)) c))
  end.

(** After a failure, the extended messages up to Sync are skipped. *)
Definition unless_failed (c : WireConn) (m : run WireConn) : run WireConn := if wc_failed c then ret c else m.

(** [u8 as char]: Latin-1, in UTF-8. *)
Definition char_of (tag : Z) : Bytes := if tag <? 128 then [tag] else [192 + tag / 64; 128 + tag mod 64].

(** One message; [None] ends the connection. *)
Definition on_message (c : WireConn) (tag : Z) (body : Bytes) : run (option WireConn) :=
  if tag =? tag_of "X" then ret None
  else
    let& c' :=
      (if tag =? tag_of "Q" then on_query c body
       else if tag =? tag_of "P" then unless_failed c (on_parse c body)
       else if tag =? tag_of "B" then unless_failed c (on_bind c body)
       else if tag =? tag_of "D" then unless_failed c (on_describe c body)
       else if tag =? tag_of "E" then unless_failed c (on_execute c body)
       else if tag =? tag_of "C" then on_close c body
       else if tag =? tag_of "H" then ret (flush c)
       else if tag =? tag_of "S" then ret (answer_ready (set_failed false c))
       else if tag =? tag_of "p" then ret c
       else if tag =? tag_of "F" then ret (answer_ready (put [error (bs "function call protocol is not supported")] c))
       else ret (answer_ready (put [error (bs "unsupported message type '" ++ char_of tag ++ bs "'")] c))) in
    ret (Some c').

(** The messages of the buffer; a message takes at least five bytes. What is left of the buffer
    comes back, or nothing when the connection has ended. *)
Fixpoint drain (fuel : nat) (c : WireConn) (buf : Bytes) : run (WireConn * option Bytes) :=
  match next_frame buf with
  | FNeed => ret (c, Some buf)
  | FClose => ret (c, None)
  | FMsg tag body rest =>
      match fuel with
      | O => ret (c, Some buf)
      | S f => let& o := on_message c tag body in match o with Some c' => drain f c' rest | None => ret (c, None) end
      end
  end.

(** Chunk by chunk, until either side hangs up; the result is what was sent. *)
Fixpoint conn_loop (c : WireConn) (buf : Bytes) (chunks : list Bytes) : run (list Message) :=
  match chunks with
  | [] => let& _ := drop_txn (wc_sess c) in ret (wc_sent c)
  | ch :: chunks' =>
      let& o := drain (length (buf ++ ch)) c (buf ++ ch) in
      match o with
      | (c', Some buf') => conn_loop c' buf' chunks'
      | (c', None) => let& _ := drop_txn (wc_sess c') in ret (wc_sent c')
      end
  end.

(** *** The start of a connection *)

Inductive Startup : Type := SuClosed | SuStarted (declined : nat) (rest : Bytes).

(** Startup messages until version 3.0 is asked for; a request for encryption is declined. *)
Fixpoint startup (fuel : nat) (declined : nat) (input : Bytes) : Startup :=
  match fuel with
  | O => SuClosed
  | S f =>
      match input with
      | l0 :: l1 :: l2 :: l3 :: r =>
          let len := of_be_signed [l0; l1; l2; l3] in
          if (len <? 8) || (64 * 1024 <? len) then SuClosed
          else if zlen r + 4 <? len then SuClosed
          else
            let body := take (Z.to_nat (len - 4)) r in
            let rest := drop (Z.to_nat (len - 4)) r in
            let code := of_be_signed (take 4 body) in
            if (code =? 80877103) || (code =? 80877104) then startup f (S declined) rest
            else if code =? 196608 then SuStarted declined rest
            else SuClosed
      | _ => SuClosed
      end
  end.

(** A password message: accepted with what follows it, refused, cut short; or a panic, when its
    length is less than that of the length itself. *)
Inductive Password : Type := PwAccepted (rest : Bytes) | PwRefused | PwClosed | PwPanic.

Definition read_password (expected : Bytes) (input : Bytes) : Password :=
  match input with
  | t :: l0 :: l1 :: l2 :: l3 :: r =>
      let len := of_be_signed [l0; l1; l2; l3] in
      if len <? 4 then PwPanic
      else if zlen r + 4 <? len then PwClosed
      else
        let supplied := (take_cstr (take (Z.to_nat (len - 4)) r)).1 in
        if negb (t =? tag_of "p") || negb (beq supplied expected) then PwRefused
        else PwAccepted (drop (Z.to_nat (len - 4)) r)
  | _ => PwClosed
  end.

Definition greeting (pid : Z) : list Message :=
  [auth_ok; parameter_status (bs "server_version") (bs "16.4"); parameter_status (bs "server_encoding") (bs "UTF8");
   parameter_status (bs "client_encoding") (bs "UTF8"); parameter_status (bs "DateStyle") (bs "ISO, MDY");
   parameter_status (bs "integer_datetimes") (bs "on"); parameter_status (bs "standard_conforming_strings") (bs "on");
   parameter_status (bs "TimeZone") (bs "UTC"); backend_key_data pid; ready (tag_of "I")].

Definition wire_new : WireConn :=
  {| wc_sess := None; wc_prepared := ∅; wc_portals := ∅; wc_failed := false; wc_out := []; wc_sent := [] |}.

Definition greet (sent : list Message) : run WireConn :=
  let& pid := ask RPid in ret (flush (put (greeting pid) (flush (put sent wire_new)))).

(** A connection: the bytes of its start, then what the socket delivers. *)
Definition handle_conn (password : option Bytes) (hello : Bytes) (chunks : list Bytes) : run (list Message) :=
  match startup (S (length hello)) 0 hello with
  | SuClosed => ret []
  | SuStarted _ rest =>
      match password with
      | None => let& c := greet [] in conn_loop c [] (rest :: chunks)
      | Some expected =>
          match read_password expected rest with
          | PwAccepted rest => let& c := greet [auth_cleartext] in conn_loop c [] (rest :: chunks)
          | PwRefused => ret [auth_cleartext; error (bs "password authentication failed")]
          | PwClosed => ret [auth_cleartext]
          | PwPanic => Done None
          end
      end
  end.
End Wire.

(** ** Runs that make the same requests *)

Inductive run_eq {A} : run A -> run A -> Prop :=
| re_done r : run_eq (Done r) (Done r)
| re_ask q k k' : (forall a, run_eq (k a) (k' a)) -> run_eq (Ask q k) (Ask q k').

Lemma run_eq_inv {A} (m m' : run A) :
  run_eq m m' ->
  match m with
  | Done r => m' = Done r
  | Ask q k => exists k', m' = Ask q k' /\ forall a, run_eq (k a) (k' a)
  end.
Proof. intros [r|q k k' Hk]; [done|]. by exists k'. Qed.

#[export] Instance run_eq_equivalence {A} : Equivalence (@run_eq A).
Proof.
  split.
  - intros m. induction m; by constructor.
  - intros m m' He. induction He; by constructor.
  - intros m. induction m as [r|q k IH]; intros m2 m3 H12 H23; apply run_eq_inv in H12.
    + subst m2. apply run_eq_inv in H23 as ->. constructor.
    + destruct H12 as (k2 & -> & Hk2). apply run_eq_inv in H23 as (k3 & -> & Hk3). constructor. intros a. by eapply IH.
Qed.

#[export] Instance rbind_proper {A B} : Proper (run_eq ==> pointwise_relation A run_eq ==> run_eq) (@rbind A B).
Proof.
  intros m m' Hm f f' Hf. induction Hm as [[[a|e]|]|q k k' Hk IH]; cbn; [apply Hf|reflexivity|reflexivity|]. constructor. apply IH.
Qed.

Lemma rbind_assoc {A B C} (m : run A) (f : A -> run B) (g : B -> run C) :
  run_eq (rbind (rbind m f) g) (rbind m (fun a => rbind (f a) g)).
Proof. induction m as [[[a|e]|]|q k IH]; cbn; [reflexivity|reflexivity|reflexivity|]. constructor. intros a. apply IH. Qed.

Section Segments.
Context `{Lowercase} `{SqlLib} `{Debug} `{ShowExpr} `{SqlParser} `{CatCodec}.

Lemma next_frame_rest buf tag body rest : next_frame buf = FMsg tag body rest -> (length rest + 5 <= length buf)%nat.
Proof.
  unfold next_frame. destruct buf as [|t [|l0 [|l1 [|l2 [|l3 r]]]]]; try done. intros Hf. repeat case_match; try done.
  injection Hf as <- <- <-. rewrite length_drop. cbn. lia.
Qed.

Lemma next_frame_app buf more :
  match next_frame buf with
  | FNeed => True
  | FClose => next_frame (buf ++ more) = FClose
  | FMsg tag body rest => next_frame (buf ++ more) = FMsg tag body (rest ++ more)
  end.
Proof.
  unfold next_frame. destruct buf as [|t [|l0 [|l1 [|l2 [|l3 r]]]]]; try done. cbn [app].
  destruct (_ || _) eqn:Hlen; [done|]. apply orb_false_iff in Hlen as [Hlo Hhi]. apply Z.ltb_ge in Hlo.
  destruct (zlen r + 4 <? _) eqn:Hr; [done|]. apply Z.ltb_ge in Hr.
  assert (Hr' : (zlen (r ++ more) + 4 <? of_be_signed [l0; l1; l2; l3]) = false) by (apply Z.ltb_ge; rewrite length_app; lia).
  rewrite Hr'. rewrite take_app_le, drop_app_le by lia. done.
Qed.

Lemma drain_fuel f : forall f' c buf, (length buf <= f)%nat -> (length buf <= f')%nat -> run_eq (drain f c buf) (drain f' c buf).
Proof.
  induction f as [|f IH]; intros f' c buf Hf Hf'.
  - destruct buf; [|cbn in Hf; lia]. by destruct f'.
  - destruct f' as [|f'].
    + destruct buf; [|cbn in Hf'; lia]. done.
    + cbn [drain]. destruct (next_frame buf) as [| |tag body rest] eqn:Hn; [done|done|]. apply next_frame_rest in Hn.
      apply rbind_proper; [done|]. intros [c'|]; [|done]. apply IH; lia.
Qed.

(** What a buffer holds is read first, whatever comes after it. *)
Lemma drain_app f : forall c buf more g, (length buf <= f)%nat -> (length (buf ++ more) <= g)%nat ->
  run_eq (drain g c (buf ++ more))
    (let& o := drain f c buf in
     match o with (c', Some r) => drain g c' (r ++ more) | (c', None) => ret (c', None) end).
Proof.
  induction f as [|f IH]; intros c buf more g Hf Hg.
  - destruct buf; [|cbn in Hf; lia]. done.
  - cbn [drain]. pose proof (next_frame_app buf more) as Ha. destruct (next_frame buf) as [| |tag body rest] eqn:Hn.
    + done.
    + destruct g; cbn [drain]; by rewrite Ha.
    + apply next_frame_rest in Hn. rewrite length_app in Hg. destruct g as [|g]; [lia|]. cbn [drain]. rewrite Ha.
      etrans; [|symmetry; apply rbind_assoc]. apply rbind_proper; [done|]. intros [c'|]; [|done].
      etrans; [apply (drain_fuel g (S g)); rewrite length_app; lia|]. apply IH; [lia|rewrite length_app; lia].
Qed.


(** ** What holds of every way a run can end *)

Fixpoint ends {A} (m : run A) (Phi : A -> Prop) : Prop :=
  match m with
  | Done (Some (Ok a)) => Phi a
  | Done _ => True
  | Ask q k => forall a, ends (k a) Phi
  end.

Lemma ends_mono {A} (m : run A) (Phi Psi : A -> Prop) : (forall a, Phi a -> Psi a) -> ends m Phi -> ends m Psi.
Proof. intros Hi. induction m as [[[a|e]|]|q k IH]; cbn; auto. Qed.

Lemma ends_bind {A B} (m : run A) (f : A -> run B) Phi : ends m (fun a => ends (f a) Phi) -> ends (rbind m f) Phi.
Proof. induction m as [[[a|e]|]|q k IH]; cbn; auto. Qed.

Lemma ends_true {A} (m : run A) : ends m (fun _ => True).
Proof. induction m as [[[a|e]|]|q k IH]; cbn; auto. Qed.

Lemma rbind_ends {A B} (m : run A) (f g : A -> run B) Phi :
  ends m Phi -> (forall a, Phi a -> run_eq (f a) (g a)) -> run_eq (rbind m f) (rbind m g).
Proof. intros Hm Hfg. induction m as [[[a|e]|]|q k IH]; cbn in *; [by apply Hfg|done|done|]. constructor. auto. Qed.

Lemma drain_needs f : forall c buf, (length buf <= f)%nat ->
  ends (drain f c buf) (fun o => match o.2 with Some r => next_frame r = FNeed /\ (length r <= length buf)%nat | None => True end).
Proof.
  induction f as [|f IH]; intros c buf Hf; cbn [drain].
  - destruct buf; [|cbn in Hf; lia]. done.
  - destruct (next_frame buf) as [| |tag body rest] eqn:Hn; [done|done|]. apply next_frame_rest in Hn. apply ends_bind.
    eapply ends_mono; [|apply ends_true]. intros [c'|] _; [|done]. eapply ends_mono; [|apply IH; lia].
    intros [c2 [r|]]; [|done]. intros [Hr Hl]. split; [done|cbn in *; lia].
Qed.

Definition hang_up (o : WireConn * option Bytes) : run (list Message) := let& _ := drop_txn (wc_sess o.1) in ret (wc_sent o.1).

(** Reading chunk by chunk is reading everything at once. *)
Lemma loop_at_once chunks : forall c buf g, next_frame buf = FNeed -> (length (buf ++ concat chunks) <= g)%nat ->
  run_eq (conn_loop c buf chunks) (let& o := drain g c (buf ++ concat chunks) in hang_up o).
Proof.
  induction chunks as [|ch chunks IH]; intros c buf g Hn Hg; cbn [conn_loop concat].
  - rewrite app_nil_r. destruct g; cbn [drain]; by rewrite Hn.
  - rewrite app_assoc. cbn [concat] in Hg. rewrite app_assoc in Hg.
    transitivity (let& o := drain (length (buf ++ ch)) c (buf ++ ch) in
                  let& o' := (match o with (c', Some r) => drain g c' (r ++ concat chunks) | (c', None) => ret (c', None) end) in hang_up o').
    + eapply rbind_ends; [apply drain_needs; lia|]. intros [c' [r|]] Hr; cbn in Hr; [|done]. destruct Hr as [Hr Hl].
      apply IH; [done|]. rewrite !length_app in *. lia.
    + etrans; [symmetry; apply rbind_assoc|]. apply rbind_proper; [|done]. symmetry. by apply drain_app.
Qed.

(** How the bytes of a connection are cut into chunks does not matter: with the same start and
    the same bytes after it, a connection makes the same requests to the engine, in the same order,
    for every answer it may get, and sends the same messages. *)
Theorem segmentation_does_not_matter password hello chunks chunks' :
  concat chunks = concat chunks' -> run_eq (handle_conn password hello chunks) (handle_conn password hello chunks').
Proof.
  intros Hc. assert (Hl : forall sent rest, run_eq (let& c := greet sent in conn_loop c [] (rest :: chunks)) (let& c := greet sent in conn_loop c [] (rest :: chunks'))).
  { intros sent rest. apply rbind_proper; [done|]. intros c. etrans; [by apply (loop_at_once _ c [] (length (rest ++ concat chunks)))|].
    symmetry. etrans; [by apply (loop_at_once _ c [] (length (rest ++ concat chunks))); cbn; rewrite ?Hc|]. cbn. by rewrite Hc. }
  unfold handle_conn. destruct (startup _ _ _) as [|n rest]; [done|]. destruct password as [expected|]; [|apply Hl].
  destruct (read_password expected rest); [apply Hl|done..].
Qed.
End Segments.

(** ** ReadyForQuery *)

Definition is_ready (m : Message) : bool := m.1 =? tag_of "Z".
Definition readies (ms : list Message) : nat := length (List.filter is_ready ms).

(** The messages that end a request: Query, Sync, function calls, and what is not known. *)
Definition ends_request (tag : Z) : bool :=
  negb (existsb (fun s => tag =? tag_of s) ["X"; "P"; "B"; "D"; "E"; "C"; "H"; "p"]%string).

(** How many of them a buffer holds, up to the end of the connection. *)
Fixpoint requests_in (fuel : nat) (buf : Bytes) : nat :=
  match fuel, next_frame buf with
  | S f, FMsg tag _ rest =>
      if tag =? tag_of "X" then O else ((if ends_request tag then 1 else 0) + requests_in f rest)%nat
  | _, _ => O
  end.

(** Nothing that waits for a flush is a ReadyForQuery. *)
Definition quiet (c : WireConn) : Prop := readies (wc_out c) = O.
Definition sent_readies (c : WireConn) : nat := readies (wc_sent c).

#[local] Arguments readies : simpl never.

Lemma readies_app a b : readies (a ++ b) = (readies a + readies b)%nat.
Proof. unfold readies. by rewrite List.filter_app, length_app. Qed.

Lemma emit_not_ready d results : readies (concat (map (emit_result d) results)) = O.
Proof.
  assert (Hrows : forall rows, readies (map data_row rows) = O) by (induction rows; done).
  induction results as [|r results IH]; cbn; [done|]. rewrite readies_app, IH. destruct r as [cols rows tag|tag]; cbn; [|done].
  rewrite !readies_app, Hrows. by destruct d.
Qed.

(** A step of the connection that adds [n] answers. *)
Definition adds (n : nat) (c c' : WireConn) : Prop := quiet c' /\ sent_readies c' = (sent_readies c + n)%nat.

Lemma put_adds ms c c0 : adds 0 c0 c -> readies ms = O -> adds 0 c0 (put ms c).
Proof. unfold adds, quiet, sent_readies. cbn. rewrite readies_app. intros [-> ->] ->. done. Qed.

Lemma answer_adds c c0 : adds 0 c0 c -> adds 1 c0 (answer_ready c).
Proof.
  unfold adds, quiet, sent_readies. cbn. intros [Hq Hs]. split; [done|]. rewrite !readies_app, Hs, Hq. change (readies [ready (txn_status (wc_sess c))]) with 1%nat. lia.
Qed.

Lemma fail_adds e c c0 : adds 0 c0 c -> adds 0 c0 (fail_ext e c).
Proof. intros Ha. apply (put_adds [error e] c c0 Ha). done. Qed.

Section Ready.
Context `{Lowercase} `{SqlLib} `{Debug} `{ShowExpr} `{SqlParser} `{CatCodec}.

Lemma run_sql_adds c c0 sql params : adds 0 c0 c -> ends (run_sql c sql params) (fun r => adds 0 c0 r.2).
Proof. intros Ha. unfold run_sql. apply ends_bind. eapply ends_mono; [|apply ends_true]. intros [r s] _. exact Ha. Qed.

Lemma query_adds c body : quiet c -> ends (on_query c body) (adds 1 c).
Proof.
  intros Hq. assert (Ha : adds 0 c c) by (split; [done|lia]). unfold on_query. destruct (trim _).
  - cbn. apply answer_adds. by apply put_adds.
  - apply ends_bind. eapply ends_mono; [|by apply (run_sql_adds c c)]. intros [[results|e] c'] Hc; cbn in Hc |- *; apply answer_adds, put_adds;
      [done|apply emit_not_ready|done|done].
Qed.

Lemma execute_adds c body : quiet c -> ends (on_execute c body) (adds 0 c).
Proof.
  intros Hq. assert (Ha : adds 0 c c) by (split; [done|lia]). unfold on_execute. destruct (wc_portals c !! _) as [p|]; [|by apply fail_adds].
  apply ends_bind. eapply ends_mono with (Phi := fun r : result Bytes (list ExecOut) * WireConn => adds 0 c r.2).
  - intros [[results|e] c'] Hc; cbn in Hc |- *; [|by apply fail_adds]. apply put_adds; [done|apply emit_not_ready].
  - destruct (po_cached p); [exact Ha|]. by apply run_sql_adds.
Qed.

Lemma describe_adds c body : quiet c -> ends (on_describe c body) (adds 0 c).
Proof.
  intros Hq. assert (Ha : adds 0 c c) by (split; [done|lia]). unfold on_describe. destruct body as [|kind body]; [done|].
  destruct (kind =? _).
  - unfold describe_statement. destruct (wc_prepared c !! _) as [p|]; [|by apply fail_adds]. apply ends_bind.
    eapply ends_mono; [|apply ends_true]. intros cols _. cbn. apply put_adds; [done|]. by destruct cols as [[|]|].
  - unfold describe_portal. destruct (wc_portals c !! _) as [p|]; [|by apply fail_adds]. apply ends_bind.
    eapply ends_mono; [|by apply (run_sql_adds c c)]. intros [[results|e] c'] Hc; cbn in Hc |- *; [|by apply fail_adds].
    apply put_adds; [done|]. unfold first_header. by destruct (omap _ _).
Qed.

Lemma bind_adds c body : quiet c -> ends (on_bind c body) (adds 0 c).
Proof.
  intros Hq. assert (Ha : adds 0 c c) by (split; [done|lia]). unfold on_bind. destruct (take_cstr body) as [portal r].
  destruct (take_cstr r) as [stmt r']. destruct (wc_prepared c !! stmt); [|by apply fail_adds]. destruct (take_i16 r') as [n r2].
  destruct (capacity n); [|done]. destruct (take_formats _ _) as [fmts r3]. destruct (take_i16 r3) as [n' r4]. destruct (capacity n'); [|done].
  by apply (put_adds [bind_complete]).
Qed.

Lemma parse_adds c body : quiet c -> ends (on_parse c body) (adds 0 c).
Proof.
  intros Hq. assert (Ha : adds 0 c c) by (split; [done|lia]). unfold on_parse. destruct (take_cstr body) as [name r].
  destruct (take_cstr r) as [sql r']. destruct (take_i16 r') as [n r2]. destruct (capacity n); [|done]. by apply (put_adds [parse_complete]).
Qed.

Lemma close_adds c body : quiet c -> ends (on_close c body) (adds 0 c).
Proof.
  intros Hq. assert (Ha : adds 0 c c) by (split; [done|lia]). unfold on_close. destruct body as [|kind body]; [done|].
  cbn. destruct (kind =? _); by apply (put_adds [close_complete]).
Qed.

Lemma unless_failed_adds c m : quiet c -> ends m (adds 0 c) -> ends (unless_failed c m) (adds 0 c).
Proof. intros Hq Hm. unfold unless_failed. destruct (wc_failed c); [split; [done|lia]|done]. Qed.

Lemma flush_adds c : quiet c -> adds 0 c (flush c).
Proof. intros Hq. unfold adds, sent_readies. cbn. split; [done|]. rewrite readies_app. unfold quiet in Hq. lia. Qed.

Lemma message_adds c tag body : quiet c ->
  ends (on_message c tag body) (fun o => match o with Some c' => (tag =? tag_of "X") = false /\ adds (if ends_request tag then 1 else 0) c c'
                                                | None => (tag =? tag_of "X") = true end).
Proof.
  intros Hq. assert (Ha : adds 0 c c) by (split; [done|lia]). unfold on_message. destruct (tag =? tag_of "X") eqn:HX; [done|].
  apply ends_bind. eapply ends_mono with (Phi := adds (if ends_request tag then 1 else 0) c); [done|].
  unfold ends_request. cbn [existsb]. rewrite HX.
  destruct (tag =? tag_of "Q") eqn:HQ; [apply Z.eqb_eq in HQ as ->; by apply query_adds|].
  destruct (tag =? tag_of "P") eqn:HP; [cbn; apply unless_failed_adds; [done|by apply parse_adds]|].
  destruct (tag =? tag_of "B") eqn:HB; [cbn; apply unless_failed_adds; [done|by apply bind_adds]|].
  destruct (tag =? tag_of "D") eqn:HD; [cbn; apply unless_failed_adds; [done|by apply describe_adds]|].
  destruct (tag =? tag_of "E") eqn:HE; [cbn; apply unless_failed_adds; [done|by apply execute_adds]|].
  destruct (tag =? tag_of "C") eqn:HC; [cbn; by apply close_adds|].
  destruct (tag =? tag_of "H") eqn:HH; [cbn; by apply flush_adds|].
  destruct (tag =? tag_of "S") eqn:HS; [apply Z.eqb_eq in HS as ->; cbn; by apply answer_adds|].
  destruct (tag =? tag_of "p") eqn:Hp; [done|].
  destruct (tag =? tag_of "F") eqn:HF; cbn; apply answer_adds; by apply put_adds.
Qed.

(** Every request is answered once. Whatever the engine answers, the messages of a buffer that
    end a request (a simple query, a Sync, a function call, a message of an unknown type) give one
    ReadyForQuery each, flushed with everything before it, and no other message gives any; unless
    the connection panics. *)
Theorem one_ready_per_request c buf :
  quiet c -> ends (drain (length buf) c buf)
    (fun o => quiet o.1 /\ sent_readies o.1 = (sent_readies c + requests_in (length buf) buf)%nat).
Proof.
  generalize (length buf) at 1 2. intros f. revert c buf. induction f as [|f IH]; intros c buf Hq; cbn [drain requests_in].
  - destruct (next_frame buf); cbn; (split; [done|lia]).
  - destruct (next_frame buf) as [| |tag body rest]; [split; [done|cbn; lia]..|]. apply ends_bind.
    eapply ends_mono; [|by apply message_adds]. intros [c'|]; cbn.
    + intros (HX & Hq' & Hs). rewrite HX. eapply ends_mono; [|by apply IH]. intros [c2 r] [Hq2 Hs2]. cbn in *. split; [done|]. rewrite Hs2, Hs. lia.
    + intros HX. rewrite HX. split; [done|lia].
Qed.
End Ready.

(** ** A client's reading *)

Fixpoint client_messages (fuel : nat) (b : Bytes) : option (list Message) :=
  match fuel, b with
  | _, [] => Some []
  | S f, tag :: l0 :: l1 :: l2 :: l3 :: r =>
      let len := of_be_signed [l0; l1; l2; l3] in
      if (len <? 4) || (zlen r + 4 <? len) then None
      else
        rest ← client_messages f (drop (Z.to_nat (len - 4)) r);
        Some ((tag, take (Z.to_nat (len - 4)) r) :: rest)
  | _, _ => None
  end.

(** A DataRow: a count, then lengths and texts, -1 for a null. *)
Fixpoint read_cells (n : nat) (b : Bytes) : option (list (option Bytes)) :=
  match n, b with
  | O, [] => Some []
  | S n', l0 :: l1 :: l2 :: l3 :: r =>
      let len := of_be_signed [l0; l1; l2; l3] in
      if len <? 0 then rest ← read_cells n' r; Some (None :: rest)
      else if zlen r <? len then None
      else rest ← read_cells n' (drop (Z.to_nat len) r); Some (Some (take (Z.to_nat len) r) :: rest)
  | _, _ => None
  end.
Definition read_row (b : Bytes) : option (list (option Bytes)) :=
  match b with x :: y :: r => read_cells (Z.to_nat (of_be_signed [x; y])) r | _ => None end.

(** A RowDescription: names up to a zero byte, and of eighteen bytes more the type. *)
Fixpoint read_columns (n : nat) (b : Bytes) : option (list (Bytes * Z)) :=
  match n with
  | O => match b with [] => Some [] | _ => None end
  | S n' =>
      '(name, r) ← split_once 0 b;
      if (length r <? 18)%nat then None
      else rest ← read_columns n' (drop 18 r); Some ((name, of_be_signed (take 4 (drop 6 r))) :: rest)
  end.
Definition read_header (b : Bytes) : option (list (Bytes * Z)) :=
  match b with x :: y :: r => read_columns (Z.to_nat (of_be_signed [x; y])) r | _ => None end.

Record ClientResult := { cr_cols : option (list (Bytes * Z)); cr_rows : list (list (option Bytes)); cr_tag : Bytes }.

Fixpoint read_results (cols : option (list (Bytes * Z))) (rows : list (list (option Bytes))) (ms : list Message) : option (list ClientResult) :=
  match ms with
  | [] => match cols, rows with None, [] => Some [] | _, _ => None end
  | (tag, body) :: ms' =>
      if tag =? tag_of "T" then h ← read_header body; read_results (Some h) [] ms'
      else if tag =? tag_of "D" then r ← read_row body; read_results cols (rows ++ [r]) ms'
      else if tag =? tag_of "C" then
        '(t, _) ← split_once 0 body;
        rest ← read_results None [] ms';
        Some ({| cr_cols := cols; cr_rows := rows; cr_tag := t |} :: rest)
      else None
  end.

Definition shown_result (r : ExecOut) : ClientResult :=
  match r with
  | OutRows cols rows tag => {| cr_cols := Some cols; cr_rows := map (map scalar_to_text) rows; cr_tag := tag |}
  | OutTag tag => {| cr_cols := None; cr_rows := []; cr_tag := tag |}
  end.

(** Results whose counts and lengths fit the protocol's fields, with names without zero bytes. *)
Definition no_zero (s : Bytes) : Prop := Forall (fun b => b <> 0) s.
Definition fits (m : Message) : Prop := zlen m.2 + 4 < 2 ^ 31.
Definition row_fits (row : list Scalar) : Prop := zlen row < 2 ^ 15 /\ fits (data_row row).
Definition cols_fit (cols : list (Bytes * Z)) : Prop :=
  zlen cols < 2 ^ 15 /\ fits (row_description cols) /\ Forall (fun c : Bytes * Z => no_zero c.1 /\ 0 <= c.2 < 2 ^ 31) cols.
Definition result_fits (r : ExecOut) : Prop :=
  match r with
  | OutRows cols rows tag => cols_fit cols /\ Forall row_fits rows /\ no_zero tag /\ fits (command_complete tag)
  | OutTag tag => no_zero tag /\ fits (command_complete tag)
  end.

Lemma of_be_mod n : forall z, of_be (to_be n z) = z mod 256 ^ Z.of_nat n.
Proof.
  induction n as [|n IH]; intros z; [cbn; by rewrite Z.mod_1_r|]. cbn [to_be]. rewrite of_be_snoc, IH.
  replace (Z.of_nat (S n)) with (1 + Z.of_nat n) by lia. rewrite Z.pow_add_r by lia. change (256 ^ 1) with 256.
  rewrite Z.rem_mul_r by lia. lia.
Qed.

Lemma of_be_signed_to_be n z : (0 < n)%nat -> - 2 ^ (8 * Z.of_nat n - 1) <= z < 2 ^ (8 * Z.of_nat n - 1) -> of_be_signed (to_be n z) = z.
Proof.
  intros Hn Hz. unfold of_be_signed. rewrite to_be_length, of_be_mod.
  replace (256 ^ Z.of_nat n) with (2 ^ (8 * Z.of_nat n)) by (change 256 with (2 ^ 8); by rewrite <- Z.pow_mul_r by lia).
  set (k := 8 * Z.of_nat n - 1) in *. replace (8 * Z.of_nat n) with (k + 1) by lia. rewrite Z.pow_add_r by lia. change (2 ^ 1) with 2.
  rewrite Z.div_mul by lia. pose proof (Z.pow_pos_nonneg 2 k). destruct (decide (0 <= z)) as [Hp|Hp].
  - rewrite Z.mod_small by lia. by rewrite zlt_true by lia.
  - rewrite <- (Z.mod_unique z (2 ^ k * 2) (-1) (z + 2 ^ k * 2)) by lia. rewrite zlt_false by lia. lia.
Qed.

(** The bytes of a 32-bit number, one by one. *)
Lemma to_be_4 z : exists a b c d, to_be 4 z = [a; b; c; d].
Proof. cbn [to_be app]. by eexists _, _, _, _. Qed.

Lemma to_be_2 z : exists a b, to_be 2 z = [a; b].
Proof. cbn [to_be app]. by eexists _, _. Qed.

Lemma client_reads ms : forall f, Forall fits ms -> (length (wire ms) <= f)%nat -> client_messages f (wire ms) = Some ms.
Proof.
  induction ms as [|[tag body] ms IH]; intros f Hf Hl; [by destruct f|]. inversion Hf as [|? ? Hm Hms]; subst. unfold fits in Hm. cbn in Hm.
  change (wire ((tag, body) :: ms)) with ((tag :: to_be 4 (zlen body + 4) ++ body) ++ wire ms) in *.
  pose proof (of_be_signed_to_be 4 (zlen body + 4)) as Hlen. destruct (to_be_4 (zlen body + 4)) as (a & b & c & d & E). rewrite E in *.
  cbn [app] in *. destruct f as [|f]; [cbn in Hl; lia|]. cbn [client_messages]. rewrite Hlen by lia.
  rewrite zlt_false by lia. rewrite zlt_false by (rewrite length_app; lia). cbn [orb].
  replace (Z.to_nat (zlen body + 4 - 4)) with (length body) by lia. rewrite take_app_length, drop_app_length.
  rewrite IH; [done|done|]. cbn [length] in Hl. rewrite length_app in Hl. lia.
Qed.

Lemma cells_read row : Forall (fun v => zlen (cell_bytes v) < 2 ^ 31) row ->
  read_cells (length row) (concat (map cell_bytes row)) = Some (map scalar_to_text row).
Proof.
  induction 1 as [|v row Hv _ IH]; [done|]. cbn [length map concat]. unfold cell_bytes at 1. unfold cell_bytes in Hv.
  destruct (scalar_to_text v) as [t|] eqn:Ht.
  - unfold i32 in *. rewrite length_app, to_be_length in Hv. pose proof (of_be_signed_to_be 4 (zlen t)) as Hlen.
    destruct (to_be_4 (zlen t)) as (a & b & c & d & E). rewrite E in *. cbn [app read_cells]. rewrite Hlen by lia.
    rewrite zlt_false by lia. rewrite zlt_false by (rewrite !length_app; lia). rewrite Nat2Z.id, take_app_length, drop_app_length, IH. done.
  - unfold i32. pose proof (of_be_signed_to_be 4 (-1)) as Hlen. destruct (to_be_4 (-1)) as (a & b & c & d & E). rewrite E in *.
    cbn [app read_cells]. rewrite Hlen by lia. cbn [Z.ltb Z.compare]. rewrite IH. done.
Qed.

Lemma row_read row : row_fits row -> read_row (data_row row).2 = Some (map scalar_to_text row).
Proof.
  intros [Hn Hf]. unfold fits, data_row in *. cbn [snd] in *. unfold i16 in *. rewrite length_app, to_be_length in Hf.
  pose proof (of_be_signed_to_be 2 (zlen row)) as Hlen. destruct (to_be_2 (zlen row)) as (a & b & E). rewrite E in *. cbn [app read_row].
  rewrite Hlen by lia. rewrite Nat2Z.id. apply cells_read. clear -Hf. induction row as [|v row IH]; [constructor|].
  cbn [map concat] in Hf. rewrite length_app in Hf. constructor; [lia|]. apply IH. lia.
Qed.

Lemma split_zero name r : no_zero name -> split_once 0 (name ++ 0 :: r) = Some (name, r).
Proof.
  induction 1 as [|b name Hb _ IH]; [done|]. cbn. destruct (b =? 0) eqn:E; [by apply Z.eqb_eq in E|]. by rewrite IH.
Qed.

Lemma columns_read cols : Forall (fun c : Bytes * Z => no_zero c.1 /\ 0 <= c.2 < 2 ^ 31) cols ->
  read_columns (length cols) (concat (map column_description cols)) = Some cols.
Proof.
  induction 1 as [|[name o] cols [Hz Ho] _ IH]; [done|]. cbn [fst snd] in *. cbn [length map concat read_columns].
  unfold column_description at 1. cbn [fst snd]. unfold cstr. rewrite <- !app_assoc. cbn [app]. rewrite split_zero by done.
  unfold i32, i16. set (rest := concat _) in *.
  destruct (to_be_4 0) as (a0 & a1 & a2 & a3 & Ea), (to_be_2 0) as (b0 & b1 & Eb), (to_be_2 (-1)) as (c0 & c1 & Ec), (to_be_4 (-1)) as (d0 & d1 & d2 & d3 & Ed).
  pose proof (of_be_signed_to_be 4 o) as Hlen. destruct (to_be_4 o) as (o0 & o1 & o2 & o3 & Eo). rewrite Ea, Eb, Ec, Ed, Eo in *.
  cbn [app]. cbn [mbind option_bind length Nat.ltb Nat.leb drop take]. rewrite Hlen by lia. rewrite drop_0, IH. done.
Qed.

Lemma header_read cols : cols_fit cols -> read_header (row_description cols).2 = Some cols.
Proof.
  intros (Hn & _ & Hc). unfold row_description. cbn [snd]. unfold i16. pose proof (of_be_signed_to_be 2 (zlen cols)) as Hlen.
  destruct (to_be_2 (zlen cols)) as (a & b & E). rewrite E in *. cbn [app read_header]. rewrite Hlen by lia. rewrite Nat2Z.id. by apply columns_read.
Qed.

Lemma rows_read cols rows : Forall row_fits rows -> forall acc ms,
  read_results cols acc (map data_row rows ++ ms) = read_results cols (acc ++ map (map scalar_to_text) rows) ms.
Proof.
  induction 1 as [|row rows Hr _ IH]; intros acc ms; cbn [map app]; [by rewrite app_nil_r|].
  destruct (data_row row) as [tag body] eqn:E. pose proof (row_read row Hr) as Hread. rewrite E in Hread. cbn [snd] in Hread.
  assert (tag = tag_of "D") as -> by (by inversion E). cbn [read_results]. cbn [Z.eqb]. rewrite Hread. cbn [mbind option_bind].
  change (tag_of "D" =? tag_of "T") with false. change (tag_of "D" =? tag_of "D") with true. cbv iota. rewrite IH. by rewrite <- app_assoc.
Qed.

Lemma result_read r : result_fits r -> forall ms,
  read_results None [] (emit_result true r ++ ms) = (rest ← read_results None [] ms; Some (shown_result r :: rest)).
Proof.
  assert (Hdone : forall cols rows tag ms, no_zero tag ->
    read_results cols rows (command_complete tag :: ms)
    = (rest ← read_results None [] ms; Some ({| cr_cols := cols; cr_rows := rows; cr_tag := tag |} :: rest))).
  { intros cols rows tag ms Hz. cbn [read_results command_complete]. change (tag_of "C" =? tag_of "T") with false.
    change (tag_of "C" =? tag_of "D") with false. change (tag_of "C" =? tag_of "C") with true. cbv iota. unfold cstr. by rewrite split_zero. }
  destruct r as [cols rows tag|tag]; cbn [result_fits emit_result shown_result].
  - intros (Hc & Hr & Hz & _) ms. cbn [app]. pose proof (header_read cols Hc) as Hh. destruct (row_description cols) as [t body] eqn:E.
    assert (t = tag_of "T") as -> by (by inversion E). cbn [read_results]. change (tag_of "T" =? tag_of "T") with true. cbv iota.
    cbn [snd] in Hh. rewrite Hh. cbn [mbind option_bind]. rewrite <- app_assoc, rows_read by done. cbn [app]. by apply Hdone.
  - intros (Hz & _) ms. by apply Hdone.
Qed.

Lemma result_messages_fit r : result_fits r -> Forall fits (emit_result true r).
Proof.
  destruct r as [cols rows tag|tag]; cbn [result_fits emit_result].
  - intros ((_ & Hc & _) & Hr & _ & Ht). apply Forall_app. split; [by repeat constructor|]. apply Forall_app. split; [|by repeat constructor].
    apply Forall_map. eapply Forall_impl; [exact Hr|]. by intros row [_ Hf].
  - intros [_ Ht]. by repeat constructor.
Qed.

(** C21: Results survive the wire. Whatever results a query gives, if the names, counts and lengths
    fit the protocol's fields, a client that cuts the bytes sent into messages and the messages
    into results has the same results back: the columns with their types, each cell's text or its
    absence, and the tags. *)
Theorem results_read_back results : Forall result_fits results ->
  let bytes := wire (concat (map (emit_result true) results)) in
  (client_messages (length bytes) bytes ≫= read_results None []) = Some (map shown_result results).
Proof.
  intros Hf bytes. unfold bytes. rewrite client_reads; [|clear bytes|done].
  - cbn [mbind option_bind]. clear bytes. induction Hf as [|r results Hr _ IH]; [done|]. cbn [map concat]. rewrite result_read by done. by rewrite IH.
  - apply Forall_concat, Forall_map. eapply Forall_impl; [exact Hf|]. apply result_messages_fit.
Qed.

Lemma results_read_back_witness :
  let bytes := wire (emit_result true (OutRows [(bs "n", OID_INT8)] [[ScInt 7]; [ScNull]] (bs "SELECT 2"))) in
  (client_messages (length bytes) bytes ≫= read_results None [])
  = Some [{| cr_cols := Some [(bs "n", OID_INT8)]; cr_rows := [[Some (bs "7")]; [None]]; cr_tag := bs "SELECT 2" |}].
Proof.
  apply (results_read_back [OutRows [(bs "n", OID_INT8)] [[ScInt 7]; [ScNull]] (bs "SELECT 2")]). constructor; [|constructor].
  assert (Hz : forall l, forallb (fun b => negb (b =? 0)) l = true -> no_zero l).
  { intros l Hl. rewrite forallb_forall in Hl. apply Forall_forall. intros b Hb. apply list_elem_of_In, Hl in Hb. lia. }
  split; [|split; [|split]].
  - split; [vm_compute; reflexivity|]. split; [vm_compute; reflexivity|]. constructor; [|constructor].
    split; [apply Hz; vm_compute; reflexivity|]. split; [vm_compute; discriminate|vm_compute; reflexivity].
  - constructor; [|constructor; [|constructor]]; (split; vm_compute; reflexivity).
  - apply Hz. vm_compute. reflexivity.
  - vm_compute. reflexivity.
Defined.

(** ** Concrete connections, on the small server *)

Module DemoWire.
#[local] Existing Instances Demo.demo_lower Demo.demo_sql Demo.demo_debug Demo.demo_show Demo.demo_codec Demo.demo_parser.

Definition client (t : string) (body : Bytes) : Bytes := msg (tag_of t, body).
Definition z (s : string) : Bytes := cstr (bs s).
Definition query (s : string) : Bytes := client "Q" (z s).
(** Parse, Bind, Describe and Execute of one statement, without parameters. *)
Definition parse (s : string) : Bytes := client "P" (z "" ++ z s ++ i16 0).
Definition bind : Bytes := client "B" (z "" ++ z "" ++ i16 0 ++ i16 0 ++ i16 0).
Definition describe : Bytes := client "D" (bs "P" ++ z "").
Definition run_portal : Bytes := client "E" (z "" ++ i32 0).
Definition sync : Bytes := client "S" [].
Definition hello : Bytes := i32 8 ++ i32 196608.

(** What a connection is sent, after the greeting, by a server that has the table [a]. *)
Definition engine_a : Engine := ps_engine (Demo.after ([MConnect] ++ Demo.say 0 "create a")).
Definition told (input : Bytes) : option (pg (list Message)) :=
  (fun o => match o with (Some (Ok ms), _, _) => pok (drop 10 ms) | (r, _, _) => r end)
  <$> alone (replicate 20 0) (handle_conn None hello [input]) engine_a.

Lemma demo_connection :
  told (query "insert a" ++ query "select a")
  = Some (pok [command_complete (bs "INSERT 0 1"); ready (tag_of "I"); row_description [(bs "n", OID_INT8)]; data_row [ScInt 0];
               command_complete (bs "SELECT 1"); ready (tag_of "I")]).
Proof. vm_compute. reflexivity. Qed.

Lemma segmentation_does_not_matter_witness :
  run_eq (handle_conn None hello [query "select a"]) (handle_conn None hello (map (fun b => [b]) (query "select a"))).
Proof. apply segmentation_does_not_matter. vm_compute. reflexivity. Defined.

Lemma one_ready_per_request_witness :
  let buf := query "select a" ++ parse "insert a" ++ bind ++ run_portal ++ sync in
  ends (drain (length buf) wire_new buf) (fun o => quiet o.1 /\ sent_readies o.1 = 2%nat).
Proof. apply (one_ready_per_request wire_new). vm_compute. reflexivity. Defined.

(** Before anybody has authenticated: a password message whose length is less than the length's
    own panics. *)
Lemma short_password_panics pw : handle_conn (Some pw) (hello ++ bs "p" ++ i32 3) [] = Done None.
Proof. vm_compute. reflexivity. Qed.

(** A Describe or a Close without a body panics, and so does a negative count in Parse or Bind. *)
Lemma malformed_messages_panic :
  told (client "D" []) = Some None /\ told (client "C" []) = Some None /\
  told (client "P" (z "" ++ z "select a" ++ i16 (-1))) = Some None /\
  told (parse "select a" ++ client "B" (z "" ++ z "" ++ i16 (-1))) = Some None.
Proof. vm_compute. repeat split. Qed.

(** A Describe of a portal runs its statement: the row is there without an Execute, as
    the next query shows. *)
Lemma describe_runs_the_statement :
  told (parse "insert a" ++ bind ++ describe ++ sync ++ query "select a")
  = Some (pok [parse_complete; bind_complete; no_data; ready (tag_of "I"); row_description [(bs "n", OID_INT8)]; data_row [ScInt 0];
               command_complete (bs "SELECT 1"); ready (tag_of "I")]).
Proof. vm_compute. reflexivity. Qed.

(** A portal can be executed again, and inserts its row again. *)
Lemma portal_runs_twice :
  told (parse "insert a" ++ bind ++ run_portal ++ run_portal ++ sync ++ query "select a")
  = Some (pok [parse_complete; bind_complete; command_complete (bs "INSERT 0 1"); command_complete (bs "INSERT 0 1"); ready (tag_of "I");
               row_description [(bs "n", OID_INT8)]; data_row [ScInt 0]; data_row [ScInt 0]; command_complete (bs "SELECT 2"); ready (tag_of "I")]).
Proof. vm_compute. reflexivity. Qed.

(** Execute sends the header of the rows itself when nobody asked for it. *)
Lemma execute_sends_the_header :
  told (parse "select a" ++ bind ++ run_portal ++ sync)
  = Some (pok [parse_complete; bind_complete; row_description [(bs "n", OID_TEXT)]; command_complete (bs "SELECT 0"); ready (tag_of "I")]).
Proof. vm_compute. reflexivity. Qed.

(** Close is not skipped after a failure, as the other messages up to Sync are. *)
Lemma close_after_failure :
  told (run_portal ++ client "C" (bs "P" ++ z "") ++ bind ++ sync)
  = Some (pok [error (bs "portal " ++ quoted [] ++ bs " does not exist"); close_complete; ready (tag_of "I")]).
Proof. vm_compute. reflexivity. Qed.

(** A function call answers for itself while the extended protocol waits for its Sync. *)
Lemma function_call_answers :
  told (client "F" [] ++ client "z" [])
  = Some (pok [error (bs "function call protocol is not supported"); ready (tag_of "I");
               error (bs "unsupported message type 'z'"); ready (tag_of "I")]).
Proof. vm_compute. reflexivity. Qed.
End DemoWire.
